(* ===== verification/_CoqProject ===== *)
-Q . S2P
Prelude.v
WireBytes.v
BaseMath.v
BitWords.v
Bitmap.v
Base64.v
SpscQueue.v
SpscLayout.v
SpscSafety.v
SpscTheorems.v
SpscRefine.v
Allocator.v
Frontier.v
Tlsf.v
TlsfMapping.v
TlsfStore.v
TlsfLists.v
TlsfInvariant.v
TlsfOps.v
TlsfRefine.v
TlsfGrowth.v
TlsfInit.v
TlsfSystem.v
TlsfProps.v
TlsfQueries.v
FixedBlock.v
FixedBlockProps.v
FixedBlockInit.v
FixedBlockTheorems.v
FixedBlockMerge.v
FixedBlockThreads.v
EndpointLifecycle.v
EndpointTheorems.v
ReceiveQueue.v
ReceiveInvariant.v
ReceiveTheorems.v
FrameAccumulator.v
FrameInvariant.v
ReceiveCursor.v
FrameTheorems.v
FrameLeases.v
FramedEndpoint.v
FramedSends.v
FramedSendPool.v
FramedSendInvariant.v
FramedSendTheorems.v
StatusWire.v
StatusWrite.v
StatusRead.v
StatusTheorems.v
ControlChannel.v
ControlTheorems.v
Bootstrap.v
BootstrapWrite.v
BootstrapRead.v
BootstrapTheorems.v
SessionBootstrap.v
SessionHandshake.v
Session.v
SessionInvariant.v
SessionTheorems.v
SessionLiveness.v
