(* ===== verification/Prelude.v ===== *)
(** * Verification of the HRX runtime: memory bookkeeping and message transport

    A shallow embedding of two layers of the HRX runtime.  The first decides which memory is
    used when: the integer support of the base library, host allocation, bitmaps, the vector
    clocks ("frontiers") that order asynchronous work, and the two offset allocators of the
    HAL built on them.  The second carries messages between processes: a shared-memory queue,
    the lifecycles of endpoints, posted receives, the reassembly of frames, framed endpoints,
    the wire formats of statuses and bootstrap messages, control channels, and the sessions
    over them.  All paths are below [src/runtime/src/iree].

    ** Parts and files: memory

    - [Prelude]: machine integers ([wrap] and the operations at a width), [status_or] for
      [iree_status_t] with an output, the codes of [base/status.h], bit lemmas and tactics.
    - [BaseMath]: [base/alignment.h], [base/checked_math.h], the integer part of
      [base/internal/math.h], [iree_struct_layout_calculate] of [base/allocator.h].
    - [BitWords], [Bitmap]: arrays of 64-bit words as bit sets, [base/bitmap.c], and the
      portable population count of [base/internal/math.h].
    - [Base64]: [base/internal/base64.c].
    - [Allocator]: [base/allocator.c] over byte-addressed memory: sizes of arrays and
      structs, aligned allocation and reallocation, the inline arena.
    - [Frontier]: [async/frontier.h] and [async/frontier.c]: axes, validation, comparison,
      merge, undominated entries, satisfaction.
    - [Tlsf]: data and operations of [hal/memory/tlsf.h] and [tlsf.c].  [TlsfMapping],
      [TlsfStore], [TlsfLists], [TlsfInvariant], [TlsfOps] carry the invariant through
      each internal step; [TlsfRefine] defines the abstract allocator of segments and the
      refinement; [TlsfGrowth] and [TlsfInit] cover storage growth and initialization;
      [TlsfSystem] the reachable states; [TlsfProps] and [TlsfQueries] the theorems.
    - [FixedBlock]: data and operations of [hal/memory/fixed_block_allocator.h] and [.c].
      [FixedBlockProps] has the invariant and the view (acquired blocks and histories),
      [FixedBlockInit] creation and rebinding, [FixedBlockTheorems] acquisition, release
      and candidates, [FixedBlockMerge] the collection of histories, and
      [FixedBlockThreads] the interleavings of concurrent calls.

    Both allocators hand out offsets and keep, per block, the frontier of its last use (a
    death frontier).  They call the frontier merge when histories are united, the struct
    layout and checked arithmetic when they size their metadata, and the host allocator
    for it.

    ** Parts and files: messages

    - [WireBytes]: the little-endian loads and stores of [base/alignment.h] on byte lists.
    - [SpscQueue]: [base/internal/spsc_queue.c], every call a program of single memory
      accesses; [SpscLayout] and [SpscSafety] have the invariant of the ring and its steps,
      [SpscTheorems] and [SpscRefine] the theorems.
    - [EndpointLifecycle], [EndpointTheorems]: [net/endpoint_lifecycle.c], the states of an
      endpoint and the barrier that joins the drains of a connection.
    - [ReceiveQueue], [ReceiveInvariant], [ReceiveTheorems]: [net/message_receive_queue.c],
      operations that wait for a message with a prefix, over the lifecycle.
    - [FrameAccumulator], [FrameInvariant], [FrameTheorems], [FrameLeases]:
      [net/frame_accumulator.c] and [net/buffer_lease.c].  The receive queues are a type class
      there ([ReceiveQueues], with the laws [CursorLaws]); [ReceiveCursor] is the instance
      for the queues of [ReceiveQueue].
    - [FramedEndpoint]: the frame header of [net/framed_endpoint.c] and what
      [net/framing_adapter.c] does with received bytes.  [FramedSends] models the sends of
      the endpoint; [FramedSendPool], [FramedSendInvariant] and [FramedSendTheorems] prove
      the pool of send states and the lifecycle of sends correct.
    - [StatusWire], [StatusWrite], [StatusRead], [StatusTheorems]: [net/status_wire.c] with
      the parts of [base/status.c] that build and inspect statuses; the reference encoding is
      in [StatusWrite].
    - [ControlChannel], [ControlTheorems]: [net/channel/control/control_channel.c], whose
      ERROR messages carry a status of [StatusWire] and whose messages go through the framed
      endpoint.
    - [Bootstrap], [BootstrapWrite], [BootstrapRead], [BootstrapTheorems]:
      [net/bootstrap.c], the messages of the handshake; the reference encoding is in
      [BootstrapWrite].
    - [SessionBootstrap], [SessionHandshake]: [net/session_bootstrap.c], the two sides of the
      handshake and what they agree on.
    - [Session], [SessionInvariant], [SessionTheorems], [SessionLiveness]: [net/session.c],
      the lifecycle of a session over one connection.

    The accumulator takes bytes of a stream and asks the receive queues for the destination of
    a message; a framed endpoint writes the header that the accumulator resolves, and its
    sends and receives hold the endpoint lifecycle.  A session sends bootstrap messages on
    its first endpoint and then hands it to a control channel.

    ** Conventions

    A [w]-bit unsigned integer is a [Z]; every operation that can leave the range is
    written with its wrap-around.  Pointers into storage are indices or handles, and a
    C struct is a record; a function that updates a struct returns the new one.  An output
    parameter is a component of the result.  Assertions ([IREE_ASSERT]) are hypotheses of
    the theorems, as release builds compile them out.  Trace zones and the text of
    statuses are left out, except where a status is the data that is sent.

    Code with a mutex is one definition per section under the mutex (the names end in
    [_locked] where the source has no name for it) and a step relation over threads, each with
    the actions it has left; callbacks and calls of other components between sections are
    actions of their own.  The invariants hold in every reachable state, by induction on the
    steps.

    Host allocators, overflow handlers, callbacks, carriers and factories are parameters: the
    theorems assume of them what their headers document ([host_ok], [handler_ok],
    [handler_covers], [formats], [generous]; that a callback that was promised comes once and
    that a connection is drained after its callbacks) and each has an instance.

    ** What is proved: memory

    - Base library: overflow checks accept exactly the representable results; struct
      layouts are exact; the 128-bit multiply-divide and the portable population count
      agree with their specifications; bitmap updates touch exactly the addressed bits and
      searches find the first match; Base64 round trips; aligned allocations are placed in
      their block and reallocation keeps the bytes; inline arena blocks are disjoint.
    - Frontiers: comparison is the causal order, merge is the least upper bound or leaves
      its target alone, the undominated and satisfaction queries are exact.
    - TLSF: in every reachable state held blocks are aligned, inside the range and
      disjoint, the statistics are exact, allocation and release implement the abstract
      allocator, freeing everything restores one whole block, no dependency is lost,
      handles address distinct storage, and the queries are exact up to the stated width
      of a size class.
    - Fixed blocks: creation, acquisition, release, restore, rebinding, candidates and
      history collection are exact on every branch; under every interleaving a block has
      at most one owner and an acquire delivers what the latest release left; an
      undisturbed call finishes in a bounded number of steps.

    ** What is proved: messages

    - Shared-memory queue: first in, first out under every interleaving, accesses that never
      race, every call wait-free; calls that run alone implement a bounded sequence.
    - Endpoints and receives: the callback of a connection comes once, last, and is reached;
      every posted receive is returned once and all of them before the endpoint is drained.
    - Frames: however the bytes are cut the frames are those of a reference parser; every
      lease is given back once; messages keep their boundaries through a framed endpoint.
    - Framed sends: every admitted send is completed once, the send states in use are exact,
      and an endpoint that drains is finished.
    - Wire formats: statuses, bootstrap and control messages are accepted exactly when they
      are encodings, and round trip; control messages arrive through the framed endpoint.
    - Sessions: the handshake accepts exactly what both sides can agree on; under every
      interleaving the callbacks of a session come at most once and [on_deactivated] last;
      a requested deactivation completes; after the last release only the connect callback
      can still touch the session, and a run in which it does is exhibited.

    ** Fuel

    Loops that are not structural take fuel and return [None] (or a constructor of their own)
    when it runs out; every theorem about them states that they return.  Euclid's loop uses
    129 iterations (a 64-bit value halves every two), the merge of frontiers the sum of the
    two lengths, the free-list walk twice the number of free blocks and one, the walk over a
    returned word 64 (one per bit), the claim loop 65 (one per bit and the final test).  The
    loop of the shared-memory queue's peek uses two iterations (a skipped tail is followed by
    an entry), walks over posted receives the number of operations in the store (a list does
    not repeat one), the loop of the accumulator the number of bytes (each iteration consumes
    one).

    ** Not modelled

    - The memory-order arguments of atomics: threads interleave in one order.  A model of
      weak memory would be needed to justify that the acquire/release pairs suffice.
    - Calls that only return memory: [iree_hal_memory_tlsf_deinitialize],
      [iree_hal_memory_fixed_block_allocator_free], [iree_allocator_free], [_trim], and the
      [deinitialize], [destroy] and [free] functions below [net].
    - Floating-point conversions of [base/internal/math.h] and the remaining unaligned
      accessors of [base/alignment.h].
    - In [net/framed_endpoint.c] and [net/framing_adapter.c]: errors of the wire, the calls
      after the mutex of deactivate, and the activation of an adapter.  In [net/session.c]: the
      data of control messages, which [ControlChannel] has.
    - Carriers, transport factories and the bulk and queue channels; connections are what
      sessions and endpoints assume of them.
    - The pools over the allocators, slabs, buffers, devices and drivers, which dispatch
      through vtables to operating system and hardware; the proactor, task system, VM,
      tokenizer, I/O and tools; the Loom compiler, libhrx and libamdf. *)

From stdpp Require Import base numbers list list_numbers gmap.
From Stdlib Require Import Btauto.

#[global] Set Default Goal Selector "1".

Local Open Scope Z_scope.

(** ** Machine integers

    A [w]-bit unsigned C integer is a [Z] in [[0, 2^w)]; every operation that can leave
    the range says so with [wrap]. *)

Definition wrap (w x : Z) : Z := x mod 2 ^ w.

Definition in_width (w x : Z) : Prop := 0 <= x < 2 ^ w.

(** [~x], [x << n] and [x - y] at width [w]. *)
Definition unot (w x : Z) : Z := wrap w (Z.lnot x).
Definition ushl (w x n : Z) : Z := wrap w (Z.shiftl x n).
Definition usub (w x y : Z) : Z := wrap w (x - y).
Definition uadd (w x y : Z) : Z := wrap w (x + y).
Definition umul (w x y : Z) : Z := wrap w (x * y).

(** The all-ones word, [UINT<w>_MAX]. *)
Definition umax (w : Z) : Z := 2 ^ w - 1.

Declare Scope machine_scope.
Delimit Scope machine_scope with mach.
Notation "x +64 y" := (uadd 64 x y) (at level 50, left associativity) : machine_scope.
Notation "x -64 y" := (usub 64 x y) (at level 50, left associativity) : machine_scope.
Notation "x *64 y" := (umul 64 x y) (at level 40, left associativity) : machine_scope.

(** Signed ranges. *)
Definition INT32_MIN : Z := - 2 ^ 31.
Definition INT32_MAX : Z := 2 ^ 31 - 1.
Definition INT64_MIN : Z := - 2 ^ 63.
Definition INT64_MAX : Z := 2 ^ 63 - 1.
Definition in_i32 (x : Z) : Prop := INT32_MIN <= x <= INT32_MAX.
Definition in_i64 (x : Z) : Prop := INT64_MIN <= x <= INT64_MAX.

(** ** Statuses *)

(** Status codes of [iree/base/status.h]; [iree_status_t] values are compared only by
    code here, their messages and backtraces are diagnostics. *)
Inductive iree_status_code : Type :=
  | IREE_STATUS_OK
  | IREE_STATUS_CANCELLED
  | IREE_STATUS_UNKNOWN
  | IREE_STATUS_INVALID_ARGUMENT
  | IREE_STATUS_DEADLINE_EXCEEDED
  | IREE_STATUS_NOT_FOUND
  | IREE_STATUS_ALREADY_EXISTS
  | IREE_STATUS_PERMISSION_DENIED
  | IREE_STATUS_RESOURCE_EXHAUSTED
  | IREE_STATUS_FAILED_PRECONDITION
  | IREE_STATUS_ABORTED
  | IREE_STATUS_OUT_OF_RANGE
  | IREE_STATUS_UNIMPLEMENTED
  | IREE_STATUS_INTERNAL
  | IREE_STATUS_UNAVAILABLE
  | IREE_STATUS_DATA_LOSS
  | IREE_STATUS_UNAUTHENTICATED
  | IREE_STATUS_DEFERRED
  | IREE_STATUS_INCOMPATIBLE.

#[export] Instance iree_status_code_eq_dec : EqDecision iree_status_code.
Proof. solve_decision. Defined.

(** A fallible computation: a value, or the code of the status it returned. *)
Inductive status_or (A : Type) : Type :=
  | Ok (a : A)
  | Err (code : iree_status_code).
Arguments Ok {A} a.
Arguments Err {A} code.

#[export] Instance status_or_bind : MBind status_or := fun A B f m =>
  match m with Ok a => f a | Err c => Err c end.
#[export] Instance status_or_ret : MRet status_or := fun A a => Ok a.

Definition is_ok {A} (m : status_or A) : bool :=
  match m with Ok _ => true | Err _ => false end.

(** ** Word lemmas *)

Create HintDb width.

Section width.
Context (w : Z) (Hw : 0 <= w).

Lemma pow2_pos : 0 < 2 ^ w.
Proof. apply Z.pow_pos_nonneg; lia. Qed.

Lemma wrap_in_width x : in_width w (wrap w x).
Proof. unfold in_width, wrap. pose proof pow2_pos. apply Z.mod_pos_bound. lia. Qed.

Lemma wrap_small x : in_width w x → wrap w x = x.
Proof. apply Z.mod_small. Qed.

Lemma unot_in_width x : in_width w (unot w x).
Proof. apply wrap_in_width. Qed.

Lemma unot_eq x : in_width w x → unot w x = 2 ^ w - 1 - x.
Proof.
  unfold unot, wrap, in_width, Z.lnot. intros Hx.
  replace (Z.pred (- x)) with ((2 ^ w - 1 - x) + (-1) * 2 ^ w) by lia.
  rewrite Z.mod_add by lia. apply Z.mod_small. lia.
Qed.

Lemma wrap_testbit x i : Z.testbit (wrap w x) i = (i <? w) && Z.testbit x i.
Proof.
  unfold wrap. destruct (Z.ltb_spec i w).
  - destruct (Z.leb_spec 0 i); [by rewrite Z.mod_pow2_bits_low by lia|].
    by rewrite !Z.testbit_neg_r by lia.
  - by rewrite Z.mod_pow2_bits_high by lia.
Qed.

Lemma unot_testbit x i :
  0 <= i → Z.testbit (unot w x) i = (i <? w) && negb (Z.testbit x i).
Proof. intros. unfold unot. by rewrite wrap_testbit, Z.lnot_spec by lia. Qed.

Lemma ushl_testbit x n i :
  0 <= i → Z.testbit (ushl w x n) i = (i <? w) && Z.testbit x (i - n).
Proof. intros. unfold ushl. by rewrite wrap_testbit, Z.shiftl_spec by lia. Qed.

Lemma testbit_above x i : in_width w x → w <= i → Z.testbit x i = false.
Proof.
  intros Hx Hi. rewrite <- (wrap_small x Hx), wrap_testbit.
  by destruct (Z.ltb_spec i w); [lia|].
Qed.

Lemma in_width_bits x :
  0 <= x → (∀ i, w <= i → Z.testbit x i = false) → in_width w x.
Proof.
  intros H0 Hb. split; [done|].
  destruct (decide (x = 0)) as [->|]; [apply pow2_pos|].
  apply Z.log2_lt_pow2; [lia|].
  destruct (Z.ltb_spec (Z.log2 x) w); [done|].
  assert (Z.testbit x (Z.log2 x) = true) by (apply Z.bit_log2; lia).
  by rewrite Hb in * by done.
Qed.

Lemma land_in_width x y : in_width w x → 0 <= y → in_width w (Z.land x y).
Proof.
  intros Hx Hy. apply in_width_bits; [apply Z.land_nonneg; by left; destruct Hx|].
  intros i Hi. by rewrite Z.land_spec, (testbit_above x).
Qed.

Lemma lor_in_width x y : in_width w x → in_width w y → in_width w (Z.lor x y).
Proof.
  intros Hx Hy. apply in_width_bits; [apply Z.lor_nonneg; split; by destruct Hx, Hy|].
  intros i Hi. by rewrite Z.lor_spec, !testbit_above.
Qed.

Lemma shiftr_in_width x n : in_width w x → 0 <= n → in_width w (Z.shiftr x n).
Proof.
  intros [Hx ?] Hn. rewrite Z.shiftr_div_pow2 by done.
  pose proof (Z.pow_pos_nonneg 2 n). split; [apply Z.div_pos; lia|].
  apply Z.le_lt_trans with x; [|done]. apply Z.div_le_upper_bound; nia.
Qed.
End width.

#[export] Hint Resolve wrap_in_width unot_in_width land_in_width lor_in_width
  shiftr_in_width : width.

Lemma in_width_weaken w w' x : 0 <= w <= w' → in_width w x → in_width w' x.
Proof.
  intros Hw [? ?]. split; [done|]. pose proof (Z.pow_le_mono_r 2 w w'). lia.
Qed.

(** Equality of words bit by bit. *)
Lemma word_ext x y : (∀ i, 0 <= i → Z.testbit x i = Z.testbit y i) → x = y.
Proof. apply Z.bits_inj'. Qed.

Lemma ones_testbit n i :
  0 <= n → 0 <= i → Z.testbit (2 ^ n - 1) i = (i <? n).
Proof.
  intros. replace (2 ^ n - 1) with (Z.ones n) by (rewrite Z.ones_equiv; lia).
  destruct (Z.ltb_spec i n); [apply Z.ones_spec_low; lia|apply Z.ones_spec_high; lia].
Qed.

Lemma pow2_testbit n i : 0 <= n → Z.testbit (2 ^ n) i = bool_decide (i = n).
Proof.
  intros. case_bool_decide; subst; [by rewrite Z.pow2_bits_true|].
  by rewrite Z.pow2_bits_false.
Qed.

(** [bits] turns an equation of words into one of booleans at a generic bit index, with
    the case split on every index comparison done. *)
Ltac bits_step :=
  match goal with
  | |- context [Z.testbit (Z.land _ _) _] => rewrite Z.land_spec
  | |- context [Z.testbit (Z.lor _ _) _] => rewrite Z.lor_spec
  | |- context [Z.testbit (Z.lxor _ _) _] => rewrite Z.lxor_spec
  | |- context [Z.testbit (Z.ldiff _ _) _] => rewrite Z.ldiff_spec
  | |- context [Z.testbit (Z.shiftr _ _) _] => rewrite Z.shiftr_spec by lia
  | |- context [Z.testbit (Z.shiftl _ _) _] => rewrite Z.shiftl_spec by lia
  | |- context [Z.testbit (wrap _ _) _] => rewrite wrap_testbit by lia
  | |- context [Z.testbit (unot _ _) _] => rewrite unot_testbit by lia
  | |- context [Z.testbit (ushl _ _ _) _] => rewrite ushl_testbit by lia
  | |- context [Z.testbit (2 ^ _ - 1) _] => rewrite ones_testbit by lia
  | |- context [Z.testbit (2 ^ _) _] => rewrite pow2_testbit by lia
  | |- context [Z.testbit 0 _] => rewrite Z.bits_0
  | |- context [?a <? ?b] => destruct (Z.ltb_spec a b); [|]
  | |- context [bool_decide ?P] => case_bool_decide
  end.

Ltac bits :=
  apply word_ext; let i := fresh "i" in let Hi := fresh "Hi" in intros i Hi;
  repeat bits_step; try lia; try btauto.

(** Clearing the low [k] bits. *)
Lemma land_low_mask w k x :
  0 <= k <= w → in_width w x → Z.land x (unot w (2 ^ k - 1)) = x - x mod 2 ^ k.
Proof.
  intros Hk Hx.
  assert (Z.land x (unot w (2 ^ k - 1)) = Z.ldiff x (Z.ones k)) as ->.
  { apply word_ext. intros i Hi. rewrite Z.ldiff_spec, Z.land_spec.
    rewrite unot_testbit, ones_testbit, Z.testbit_ones_nonneg by lia.
    destruct (Z.ltb_spec i w); [done|]. by rewrite (testbit_above w) by (done || lia). }
  rewrite Z.ldiff_ones_r, Z.shiftl_mul_pow2, Z.shiftr_div_pow2 by lia.
  pose proof (pow2_pos k). pose proof (Z.div_mod x (2 ^ k)). lia.
Qed.

Lemma land_ones_mod x k : 0 <= k → Z.land x (2 ^ k - 1) = x mod 2 ^ k.
Proof.
  intros. rewrite <- Z.land_ones by done. f_equal. rewrite Z.ones_equiv. lia.
Qed.

(** ** Powers of two *)

Definition is_pow2 (a : Z) : Prop := ∃ k, 0 <= k ∧ a = 2 ^ k.

Lemma is_pow2_pos a : is_pow2 a → 0 < a.
Proof. intros (k & ? & ->). by apply pow2_pos. Qed.

(** Rounding up to a multiple. *)
Definition round_up (x a : Z) : Z := (x + (a - 1)) / a * a.

Lemma round_up_spec x a :
  0 < a → (a | round_up x a) ∧ x <= round_up x a < x + a.
Proof.
  intros Ha. unfold round_up. split; [apply Z.divide_factor_r|].
  pose proof (Z.div_mod (x + (a - 1)) a). pose proof (Z.mod_pos_bound (x + (a - 1)) a). lia.
Qed.

Lemma round_up_least x a m : 0 < a → (a | m) → x <= m → round_up x a <= m.
Proof.
  intros Ha [q ->] Hx. destruct (round_up_spec x a Ha) as [[p Hp] [_ Hlt]].
  rewrite Hp in *. apply Z.mul_le_mono_nonneg_r; [lia|].
  apply Z.lt_succ_r, (Z.mul_lt_mono_pos_r a); lia.
Qed.
