(* ===== verification/WireBytes.v ===== *)
(** * Little-endian integers in byte sequences

    The unaligned loads and stores of [iree/base/alignment.h] as functions on byte lists,
    and the lemmas that the wire formats share. *)

From S2P Require Import Prelude.
From stdpp Require Import base numbers list list_numbers.

Local Open Scope Z_scope.
Local Open Scope machine_scope.

(** ** Bytes of an integer, least significant first *)

Fixpoint le_bytes (n : nat) (v : Z) : list Z :=
  match n with 0%nat => [] | S n => Z.land v 255 :: le_bytes n (Z.shiftr v 8) end.

Definition le_value (bytes : list Z) : Z := foldr (λ b acc, b + 256 * acc) 0 bytes.

Definition iree_unaligned_store_le_u16 (v : Z) : list Z := le_bytes 2 v.
Definition iree_unaligned_store_le_u32 (v : Z) : list Z := le_bytes 4 v.
Definition iree_unaligned_store_le_u64 (v : Z) : list Z := le_bytes 8 v.

(** Loads at an offset of a buffer. *)
Definition load_le (n : nat) (bytes : list Z) (offset : nat) : Z := le_value (take n (drop offset bytes)).

Definition iree_unaligned_load_le_u16 (bytes : list Z) (offset : nat) : Z := load_le 2 bytes offset.
Definition iree_unaligned_load_le_u32 (bytes : list Z) (offset : nat) : Z := load_le 4 bytes offset.
Definition iree_unaligned_load_le_u64 (bytes : list Z) (offset : nat) : Z := load_le 8 bytes offset.

Definition is_byte (b : Z) : Prop := 0 <= b < 256.

#[export] Instance is_byte_dec b : Decision (is_byte b).
Proof. unfold is_byte. apply _. Defined.

(** ** Lemmas *)

Lemma length_le_bytes n v : length (le_bytes n v) = n.
Proof. revert v. induction n as [|n IH]; intros v; [done|]. cbn. by rewrite IH. Qed.

Lemma le_bytes_bytes n v : Forall is_byte (le_bytes n v).
Proof.
  revert v. induction n as [|n IH]; intros v; [constructor|]. cbn. constructor; [|apply IH].
  change 255 with (Z.ones 8). rewrite Z.land_ones by lia. unfold is_byte. pose proof (Z.mod_pos_bound v (2 ^ 8)). lia.
Qed.

Lemma le_value_bytes n v : 0 <= v < 256 ^ Z.of_nat n → le_value (le_bytes n v) = v.
Proof.
  revert v. induction n as [|n IH]; intros v Hv; [cbn in *; lia|]. cbn [le_bytes le_value foldr]. fold (le_value (le_bytes n (Z.shiftr v 8))).
  change 255 with (Z.ones 8). rewrite Z.land_ones, Z.shiftr_div_pow2 by lia. change (2 ^ 8) with 256.
  rewrite Nat2Z.inj_succ, Z.pow_succ_r in Hv by lia.
  rewrite IH; [pose proof (Z.div_mod v 256); lia|]. split; [apply Z.div_pos; lia|]. apply Z.div_lt_upper_bound; lia.
Qed.

Lemma le_value_bound bytes : Forall is_byte bytes → 0 <= le_value bytes < 256 ^ Z.of_nat (length bytes).
Proof.
  induction 1 as [|b bytes Hb _ IH]; [cbn; lia|]. cbn [le_value foldr length]. fold (le_value bytes).
  rewrite Nat2Z.inj_succ, Z.pow_succ_r by lia. unfold is_byte in Hb. lia.
Qed.

Lemma le_bytes_value bytes : Forall is_byte bytes → le_bytes (length bytes) (le_value bytes) = bytes.
Proof.
  induction 1 as [|b bytes Hb _ IH]; [done|]. cbn [le_value foldr length le_bytes]. fold (le_value bytes). unfold is_byte in Hb.
  change 255 with (Z.ones 8). rewrite Z.land_ones, Z.shiftr_div_pow2 by lia. change (2 ^ 8) with 256.
  assert ((b + 256 * le_value bytes) mod 256 = b ∧ (b + 256 * le_value bytes) / 256 = le_value bytes) as [-> ->]; [|by rewrite IH].
  rewrite (Z.mul_comm 256), Z.mod_add, Z.div_add, Z.mod_small, Z.div_small by lia. lia.
Qed.

(** Loads from what was stored. *)
Lemma load_le_app before n v after offset :
  0 <= v < 256 ^ Z.of_nat n → offset = length before → load_le n (before ++ le_bytes n v ++ after) offset = v.
Proof.
  intros Hv ->. unfold load_le. rewrite drop_app_length. rewrite take_app_le by (by rewrite length_le_bytes).
  rewrite take_ge by (by rewrite length_le_bytes). by apply le_value_bytes.
Qed.

(** A buffer is the store of what is loaded from it. *)
Lemma load_le_split bytes n offset :
  Forall is_byte bytes → (offset + n <= length bytes)%nat → take n (drop offset bytes) = le_bytes n (load_le n bytes offset).
Proof.
  intros Hb Hn. unfold load_le. set (l := take n (drop offset bytes)).
  assert (length l = n) as Hl by (unfold l; rewrite length_take, length_drop; lia). rewrite <- Hl. symmetry. apply le_bytes_value.
  unfold l. by apply Forall_take, Forall_drop.
Qed.

Lemma load_le_bound n bytes offset :
  Forall is_byte bytes → (offset + n <= length bytes)%nat → 0 <= load_le n bytes offset < 256 ^ Z.of_nat n.
Proof.
  intros Hb Hn. unfold load_le. pose proof (le_value_bound (take n (drop offset bytes))) as H.
  rewrite length_take, length_drop, Nat.min_l in H by lia. by apply H, Forall_take, Forall_drop.
Qed.
