(* ===== verification/BaseMath.v ===== *)
(** * Integer support of the runtime base library

    [iree/base/alignment.h], [iree/base/checked_math.h], the integer part of
    [iree/base/internal/math.h] and the struct layout calculation of
    [iree/base/allocator.h], for the 64-bit configuration ([iree_host_size_t] and
    [iree_device_size_t] are both a 64-bit [size_t]).  Functions with a compiler builtin
    and a portable fallback are modelled by the fallback, and the builtin's documented
    meaning is the specification they are proved against. *)

From stdpp Require Import base numbers list list_numbers.
From S2P Require Import Prelude.

Local Open Scope Z_scope.
Local Open Scope mach.

Definition IREE_HOST_SIZE_MAX : Z := umax 64.
Definition IREE_DEVICE_SIZE_MAX : Z := umax 64.

(** ** alignment.h *)

Definition iree_align_uint64 (value alignment : Z) : Z :=
  Z.land (value +64 (alignment -64 1)) (unot 64 (alignment -64 1)).

(** [size_t] is 64 bits wide, so the host and device variants have this same body. *)
Definition iree_host_align (value alignment : Z) : Z :=
  Z.land (value +64 (alignment -64 1)) (unot 64 (alignment -64 1)).

Definition iree_device_align (value alignment : Z) : Z :=
  Z.land (value +64 (alignment -64 1)) (unot 64 (alignment -64 1)).

Definition iree_is_power_of_two_uint64 (value : Z) : bool :=
  negb (value =? 0) && (Z.land value (value -64 1) =? 0).

Definition iree_host_size_is_power_of_two (value : Z) : bool :=
  negb (value =? 0) && (Z.land value (value -64 1) =? 0).

Definition iree_device_size_is_power_of_two (value : Z) : bool :=
  negb (value =? 0) && (Z.land value (value -64 1) =? 0).

Definition iree_host_size_is_valid_alignment (alignment : Z) : bool :=
  (alignment =? 0) || iree_host_size_is_power_of_two alignment.

Definition iree_host_size_has_alignment (value alignment : Z) : bool :=
  iree_host_align value alignment =? value.

Definition iree_device_size_is_valid_alignment (alignment : Z) : bool :=
  (alignment =? 0) || iree_device_size_is_power_of_two alignment.

Definition iree_device_size_has_alignment (value alignment : Z) : bool :=
  iree_device_align value alignment =? value.

(** One [value |= value >> shift] line of the smearing sequence. *)
Definition smear (shift value : Z) : Z := Z.lor value (Z.shiftr value shift).

Definition iree_host_size_next_power_of_two (value : Z) : Z :=
  if value <=? 1 then 1
  else if (Z.shiftr (unot 64 0) 1 +64 1) <? value then unot 64 0
  else
    let value := value -64 1 in
    let value := smear 1 value in
    let value := smear 2 value in
    let value := smear 4 value in
    let value := smear 8 value in
    let value := smear 16 value in
    let value := smear 32 value in
    value +64 1.

Definition iree_device_size_next_power_of_two (value : Z) : Z :=
  if value <=? 1 then 1
  else if (Z.shiftr (unot 64 0) 1 +64 1) <? value then unot 64 0
  else
    let value := value -64 1 in
    let value := smear 1 value in
    let value := smear 2 value in
    let value := smear 4 value in
    let value := smear 8 value in
    let value := smear 16 value in
    let value := smear 32 value in
    value +64 1.

Definition iree_host_size_ceil_div (lhs rhs : Z) : Z :=
  if lhs =? 0 then 0 else 1 +64 ((lhs -64 1) / rhs).

Definition iree_host_size_floor_div (lhs rhs : Z) : Z := lhs / rhs.

Definition iree_device_size_ceil_div (lhs rhs : Z) : Z :=
  if lhs =? 0 then 0 else 1 +64 ((lhs -64 1) / rhs).

Definition iree_device_size_floor_div (lhs rhs : Z) : Z := lhs / rhs.

(** The recursion of [iree_device_size_gcd]; [None] when [fuel] calls do not reach the
    base case. *)
Fixpoint iree_device_size_gcd (fuel : nat) (a b : Z) : option Z :=
  match fuel with
  | O => None
  | S fuel => if b =? 0 then Some a else iree_device_size_gcd fuel b (a mod b)
  end.

(** Euclid's bound at 64 bits: every two calls halve [b]. *)
Definition gcd_fuel : nat := 129.

Definition iree_device_size_lcm (a b : Z) : option Z :=
  g ← iree_device_size_gcd gcd_fuel a b; Some (a *64 (b / g)).

Record iree_byte_range_t := { byte_range_offset : Z; byte_range_length : Z }.
Record iree_page_range_t := { page_range_offset : Z; page_range_length : Z }.

Definition iree_page_align_start (addr page_alignment : Z) : Z :=
  Z.land addr (unot 64 (page_alignment -64 1)).

Definition iree_page_align_end (addr page_alignment : Z) : Z :=
  iree_page_align_start (addr +64 (page_alignment -64 1)) page_alignment.

(** The [iree_min] and [iree_max] macros. *)
Definition iree_min (lhs rhs : Z) : Z := if lhs <=? rhs then lhs else rhs.
Definition iree_max (lhs rhs : Z) : Z := if lhs <=? rhs then rhs else lhs.

Definition iree_page_range_union (a b : iree_page_range_t) : iree_page_range_t :=
  let start := iree_min (page_range_offset a) (page_range_offset b) in
  let end_ := iree_max (page_range_offset a +64 page_range_length a)
                       (page_range_offset b +64 page_range_length b) in
  {| page_range_offset := start; page_range_length := end_ -64 start |}.

Definition iree_align_byte_range_to_pages
    (byte_range : iree_byte_range_t) (page_alignment : Z) : iree_page_range_t :=
  {| page_range_offset := iree_host_align (byte_range_offset byte_range) page_alignment;
     page_range_length := iree_host_align (byte_range_length byte_range) page_alignment |}.

(** Returns [(out_start_address, out_aligned_length)]. *)
Definition iree_page_align_range
    (base_address : Z) (range : iree_byte_range_t) (page_alignment : Z) : Z * Z :=
  let range_start :=
    iree_page_align_start (base_address +64 byte_range_offset range) page_alignment in
  let range_end :=
    iree_page_align_end
      (base_address +64 byte_range_offset range +64 byte_range_length range)
      page_alignment in
  (range_start, range_end -64 range_start).

(** ** checked_math.h: [Some] of the stored result, or [None] for [false] *)

Definition iree_checked_add_u64 (a b : Z) : option Z :=
  if (umax 64 -64 b) <? a then None else Some (a +64 b).

Definition iree_checked_mul_u64 (a b : Z) : option Z :=
  if negb (b =? 0) && (umax 64 / b <? a) then None else Some (a *64 b).

Definition iree_checked_align_u64 (value alignment : Z) : option Z :=
  padded ← iree_checked_add_u64 value (alignment -64 1);
  Some (Z.land padded (unot 64 (alignment -64 1))).

Definition iree_checked_add_i32 (a b : Z) : option Z :=
  if ((0 <? b) && (INT32_MAX - b <? a)) || ((b <? 0) && (a <? INT32_MIN - b))
  then None else Some (a + b).

Definition iree_checked_mul_i32 (a b : Z) : option Z :=
  let result := a * b in
  if (result <? INT32_MIN) || (INT32_MAX <? result) then None else Some result.

Definition iree_checked_mul_add_i32 (base lhs rhs : Z) : option Z :=
  product ← iree_checked_mul_i32 lhs rhs; iree_checked_add_i32 base product.

Definition iree_checked_add_i64 (a b : Z) : option Z :=
  if ((0 <? b) && (INT64_MAX - b <? a)) || ((b <? 0) && (a <? INT64_MIN - b))
  then None else Some (a + b).

Definition iree_checked_sub_i64 (a b : Z) : option Z :=
  if ((0 <? b) && (a <? INT64_MIN + b)) || ((b <? 0) && (INT64_MAX + b <? a))
  then None else Some (a - b).

(** C division truncates toward zero: [Z.quot]. *)
Definition iree_checked_mul_i64 (a b : Z) : option Z :=
  if (a =? 0) || (b =? 0) then Some 0
  else if (a =? -1) && (b =? INT64_MIN) then None
  else if (b =? -1) && (a =? INT64_MIN) then None
  else
    let overflows :=
      if 0 <? a then
        if 0 <? b then Z.quot INT64_MAX b <? a else b <? Z.quot INT64_MIN a
      else if 0 <? b then a <? Z.quot INT64_MIN b
      else a <? Z.quot INT64_MAX b in
    if overflows then None else Some (a * b).

Definition iree_checked_mul_add_i64 (base lhs rhs : Z) : option Z :=
  product ← iree_checked_mul_i64 lhs rhs; iree_checked_add_i64 base product.

Definition iree_host_size_checked_add (a b : Z) : option Z :=
  if (IREE_HOST_SIZE_MAX -64 b) <? a then None else Some (a +64 b).

Definition iree_host_size_checked_mul (a b : Z) : option Z :=
  if negb (b =? 0) && (IREE_HOST_SIZE_MAX / b <? a) then None else Some (a *64 b).

Definition iree_host_size_checked_mul_add (base count element_size : Z) : option Z :=
  product ← iree_host_size_checked_mul count element_size;
  iree_host_size_checked_add base product.

Definition iree_device_size_checked_add (a b : Z) : option Z :=
  if (IREE_DEVICE_SIZE_MAX -64 b) <? a then None else Some (a +64 b).

Definition iree_device_size_checked_mul (a b : Z) : option Z :=
  if negb (b =? 0) && (IREE_DEVICE_SIZE_MAX / b <? a) then None else Some (a *64 b).

Definition iree_device_size_checked_mul_add (base count element_size : Z) : option Z :=
  product ← iree_device_size_checked_mul count element_size;
  iree_device_size_checked_add base product.

Definition iree_host_size_checked_align (value alignment : Z) : option Z :=
  padded ← iree_host_size_checked_add value (alignment -64 1);
  Some (Z.land padded (unot 64 (alignment -64 1))).

Definition iree_device_size_checked_align (value alignment : Z) : option Z :=
  padded ← iree_device_size_checked_add value (alignment -64 1);
  Some (Z.land padded (unot 64 (alignment -64 1))).

(** ** internal/math.h *)

(** The [iree_shr] macro at width [w]: a shift by the word size or more gives 0. *)
Definition iree_shr (w value shamt : Z) : Z :=
  if shamt <? w then Z.shiftr value shamt else 0.

Definition iree_math_saturating_add_u32 (lhs rhs : Z) : Z :=
  if (usub 32 (umax 32) rhs) <? lhs then umax 32 else uadd 32 lhs rhs.

Definition iree_math_saturating_add_u64 (lhs rhs : Z) : Z :=
  if (umax 64 -64 rhs) <? lhs then umax 64 else lhs +64 rhs.

Definition iree_math_saturating_mul_u64 (lhs rhs : Z) : Z :=
  if (lhs =? 0) || (rhs =? 0) then 0
  else if umax 64 / rhs <? lhs then umax 64 else lhs *64 rhs.

(** The [while (b != 0)] loop of [iree_math_gcd_u64]. *)
Fixpoint iree_math_gcd_u64_loop (fuel : nat) (a b : Z) : option Z :=
  match fuel with
  | O => None
  | S fuel =>
      if negb (b =? 0) then
        let remainder := a mod b in iree_math_gcd_u64_loop fuel b remainder
      else Some a
  end.

Definition iree_math_gcd_u64 (a b : Z) : option Z := iree_math_gcd_u64_loop gcd_fuel a b.

Definition iree_math_magnitude_i64 (value : Z) : Z :=
  if 0 <=? value then value else wrap 64 (- (value + 1)) +64 1.

Definition iree_math_gcd_i64 (a b : Z) : option Z :=
  iree_math_gcd_u64 (iree_math_magnitude_i64 a) (iree_math_magnitude_i64 b).

(** The outer option is running out of fuel, the inner one the [bool] result. *)
Definition iree_math_checked_lcm_u64 (a b : Z) : option (option Z) :=
  if (a =? 0) || (b =? 0) then Some (Some 0)
  else g ← iree_math_gcd_u64 a b; Some (iree_checked_mul_u64 (a / g) b).

Definition iree_math_checked_lcm_i64 (a b : Z) : option (option Z) :=
  r ← iree_math_checked_lcm_u64 (iree_math_magnitude_i64 a) (iree_math_magnitude_i64 b);
  Some (match r with
        | None => None
        | Some result => if INT64_MAX <? result then None else Some result
        end).

Definition iree_math_rotl_u64 (n c : Z) : Z :=
  let mask := 63 in
  let c := Z.land c mask in
  if c =? 0 then n else Z.lor (ushl 64 n c) (Z.shiftr n (64 - c)).

Definition iree_math_rotr_u64 (n c : Z) : Z :=
  let mask := 63 in
  let c := Z.land c mask in
  if c =? 0 then n else Z.lor (Z.shiftr n c) (ushl 64 n (Z.land (usub 32 0 c) mask)).

(** Number of zeros above the most significant set bit; the word size at 0. *)
Definition iree_math_count_leading_zeros_u32 (n : Z) : Z :=
  if n =? 0 then 32 else 31 - Z.log2 n.

Definition iree_math_count_leading_zeros_u64 (n : Z) : Z :=
  if n =? 0 then 64 else 63 - Z.log2 n.

(** Trailing zeros of a positive: the meaning of [__builtin_ctz] away from 0. *)
Fixpoint pos_ctz (p : positive) : Z :=
  match p with
  | xO p => 1 + pos_ctz p
  | _ => 0
  end.

Definition ctz (n : Z) : Z := match n with Z.pos p => pos_ctz p | _ => 0 end.

(** The portable branch of [iree_math_count_trailing_zeros_u32]. *)
Definition iree_math_count_trailing_zeros_u32 (n : Z) : Z :=
  let n := Z.land n (uadd 32 (unot 32 n) 1) in
  let drop mask amount c := if negb (Z.land n mask =? 0) then c - amount else c in
  let c := 31 in
  let c := drop 0x0000FFFF 16 c in
  let c := drop 0x00FF00FF 8 c in
  let c := drop 0x0F0F0F0F 4 c in
  let c := drop 0x33333333 2 c in
  drop 0x55555555 1 c.

(** The portable branch of [iree_math_count_trailing_zeros_u64]. *)
Definition iree_math_count_trailing_zeros_u64 (n : Z) : Z :=
  let n := Z.land n (unot 64 n +64 1) in
  let drop mask amount c := if negb (Z.land n mask =? 0) then c - amount else c in
  let c := 63 in
  let c := drop 0x00000000FFFFFFFF 32 c in
  let c := drop 0x0000FFFF0000FFFF 16 c in
  let c := drop 0x00FF00FF00FF00FF 8 c in
  let c := drop 0x0F0F0F0F0F0F0F0F 4 c in
  let c := drop 0x3333333333333333 2 c in
  drop 0x5555555555555555 1 c.

Definition iree_math_mask_low_bits_u64 (value bit_count : Z) : Z :=
  if bit_count <=? 0 then 0
  else if 64 <=? bit_count then value
  else Z.land value (ushl 64 1 bit_count -64 1).

Definition iree_math_count_leading_zeros_u64_width (value bit_count : Z) : Z :=
  let bit_count := iree_max 0 (iree_min bit_count 64) in
  let value := iree_math_mask_low_bits_u64 value bit_count in
  if value =? 0 then bit_count
  else iree_math_count_leading_zeros_u64 value - (64 - bit_count).

Definition iree_math_count_trailing_zeros_u64_width (value bit_count : Z) : Z :=
  let bit_count := iree_max 0 (iree_min bit_count 64) in
  let value := iree_math_mask_low_bits_u64 value bit_count in
  if value =? 0 then bit_count else iree_math_count_trailing_zeros_u64 value.

Definition iree_math_floor_log2_u64 (value : Z) : Z :=
  63 - iree_math_count_leading_zeros_u64 value.

Definition iree_math_round_up_to_pow2_u64 (n : Z) : Z :=
  let n := n -64 1 in
  let n := smear 1 n in
  let n := smear 2 n in
  let n := smear 4 n in
  let n := smear 8 n in
  let n := smear 16 n in
  let n := smear 32 n in
  n +64 1.

(** The portable branch: schoolbook multiplication of 32-bit halves, [(high, low)]. *)
Definition iree_math_mul_u64_to_u128 (lhs rhs : Z) : Z * Z :=
  let lhs_low := wrap 32 lhs in
  let lhs_high := Z.shiftr lhs 32 in
  let rhs_low := wrap 32 rhs in
  let rhs_high := Z.shiftr rhs 32 in
  let low_low := lhs_low *64 rhs_low in
  let low_high := lhs_low *64 rhs_high in
  let high_low := lhs_high *64 rhs_low in
  let high_high := lhs_high *64 rhs_high in
  let low := low_low in
  let high := high_high in
  let addend := ushl 64 low_high 32 in
  let low := low +64 addend in
  let high := high +64 (Z.b2z (low <? addend) +64 Z.shiftr low_high 32) in
  let addend := ushl 64 high_low 32 in
  let low := low +64 addend in
  let high := high +64 (Z.b2z (low <? addend) +64 Z.shiftr high_low 32) in
  (high, low).

(** One iteration of the restoring division at [bit_index]. *)
Definition div_u128_step (low denominator bit_index quotient remainder : Z) : Z * Z :=
  let next_bit := Z.land (Z.shiftr low bit_index) 1 in
  let shifted_remainder_high := negb (Z.shiftr remainder 63 =? 0) in
  let shifted_remainder := Z.lor (ushl 64 remainder 1) next_bit in
  if shifted_remainder_high || (denominator <=? shifted_remainder)
  then (Z.lor quotient (ushl 64 1 bit_index), shifted_remainder -64 denominator)
  else (quotient, shifted_remainder).

(** Iterations [bit_index = n - 1] down to 0. *)
Fixpoint div_u128_loop (n : nat) (low denominator quotient remainder : Z) : Z * Z :=
  match n with
  | O => (quotient, remainder)
  | S n' =>
      let '(quotient, remainder) :=
        div_u128_step low denominator (Z.of_nat n') quotient remainder in
      div_u128_loop n' low denominator quotient remainder
  end.

Definition iree_math_div_u128_by_u64_to_u64 (high low denominator : Z) : option Z :=
  if (denominator =? 0) || (denominator <=? high) then None
  else Some (fst (div_u128_loop 64 low denominator 0 high)).

Definition iree_math_round_mul_div_u64_portable
    (value numerator denominator : Z) : option Z :=
  if denominator =? 0 then None
  else if (value =? 0) || (numerator =? 0) then Some 0
  else
    let '(product_high, product_low) := iree_math_mul_u64_to_u128 value numerator in
    let rounding_bias := denominator / 2 in
    let product_low := product_low +64 rounding_bias in
    let product_high :=
      if product_low <? rounding_bias then product_high +64 1 else product_high in
    iree_math_div_u128_by_u64_to_u64 product_high product_low denominator.

(** The [__uint128_t] branch. *)
Definition iree_math_round_mul_div_u64 (value numerator denominator : Z) : option Z :=
  if denominator =? 0 then None
  else if (value =? 0) || (numerator =? 0) then Some 0
  else
    let product := wrap 128 (value * numerator) in
    let product := wrap 128 (product + denominator / 2) in
    let quotient := product / denominator in
    if umax 64 <? quotient then None else Some (wrap 64 quotient).

(** ** allocator.h: struct layout *)

Record iree_struct_field_t := {
  field_count0 : Z;
  field_count1 : Z;
  field_element_size : Z;
  field_alignment : Z;
}.

(** The loop of [iree_struct_layout_calculate]: the recorded offset of every field and
    the total. *)
Fixpoint iree_struct_layout_loop (total : Z) (fields : list iree_struct_field_t)
    : status_or (list Z * Z) :=
  match fields with
  | [] => Ok ([], total)
  | field :: fields =>
      let aligned :=
        if 0 <? field_alignment field
        then iree_host_size_checked_align total (field_alignment field)
        else Some total in
      match aligned with
      | None => Err IREE_STATUS_OUT_OF_RANGE
      | Some offset =>
          match iree_host_size_checked_mul (field_count0 field) (field_count1 field) with
          | None => Err IREE_STATUS_OUT_OF_RANGE
          | Some element_count =>
              match iree_host_size_checked_mul element_count (field_element_size field) with
              | None => Err IREE_STATUS_OUT_OF_RANGE
              | Some field_size =>
                  match iree_host_size_checked_add offset field_size with
                  | None => Err IREE_STATUS_OUT_OF_RANGE
                  | Some total =>
                      '(offsets, total) ← iree_struct_layout_loop total fields;
                      Ok (offset :: offsets, total)
                  end
              end
          end
      end
  end.

Definition iree_struct_layout_calculate
    (base_size : Z) (fields : list iree_struct_field_t) : status_or (list Z * Z) :=
  iree_struct_layout_loop base_size fields.

(** * Lemmas *)

Lemma pow64_lt k : 0 <= k < 64 → 1 <= 2 ^ k ∧ 2 ^ k < 2 ^ 64.
Proof.
  intros. split; [pose proof (pow2_pos k); lia|]. apply Z.pow_lt_mono_r; lia.
Qed.

Lemma usub_small w x y : 0 <= y <= x → in_width w x → usub w x y = x - y.
Proof. unfold in_width. intros ? ?. apply Z.mod_small. lia. Qed.

Lemma uadd_small w x y : 0 <= x + y < 2 ^ w → uadd w x y = x + y.
Proof. apply Z.mod_small. Qed.

Lemma umul_small w x y : 0 <= x * y < 2 ^ w → umul w x y = x * y.
Proof. apply Z.mod_small. Qed.

Lemma align_mask k : 0 <= k < 64 → 2 ^ k -64 1 = 2 ^ k - 1.
Proof. intros. pose proof (pow64_lt k). apply usub_small; unfold in_width; lia. Qed.

Lemma round_up_alt x a : 0 < a → (x + (a - 1)) - (x + (a - 1)) mod a = round_up x a.
Proof. intros. unfold round_up. pose proof (Z.div_mod (x + (a - 1)) a). lia. Qed.

(** Alignment without wrap-around is rounding up; when [value + (alignment - 1)] wraps,
    the result is 0. *)
Lemma iree_host_align_round_up value k :
  0 <= k < 64 → 0 <= value → value + (2 ^ k - 1) < 2 ^ 64 →
  iree_host_align value (2 ^ k) = round_up value (2 ^ k).
Proof.
  intros Hk ? ?. unfold iree_host_align. pose proof (pow64_lt k Hk).
  rewrite align_mask, uadd_small by lia.
  rewrite land_low_mask by (unfold in_width; lia). apply round_up_alt. lia.
Qed.

Lemma iree_host_align_wraps value k :
  0 <= k < 64 → in_width 64 value → 2 ^ 64 <= value + (2 ^ k - 1) →
  iree_host_align value (2 ^ k) = 0.
Proof.
  intros Hk [? ?] ?. unfold iree_host_align, uadd. pose proof (pow64_lt k Hk).
  rewrite align_mask by lia. rewrite land_low_mask by (auto using wrap_in_width with lia).
  assert (wrap 64 (value + (2 ^ k - 1)) = value + (2 ^ k - 1) - 2 ^ 64) as ->.
  { unfold wrap. rewrite <- (Z.mod_add _ (-1)) by lia. apply Z.mod_small. lia. }
  rewrite Z.mod_small by lia. lia.
Qed.

Lemma iree_device_align_host value alignment :
  iree_device_align value alignment = iree_host_align value alignment.
Proof. done. Qed.

Lemma iree_host_align_idem value k :
  0 <= k < 64 → 0 <= value → value + (2 ^ k - 1) < 2 ^ 64 → (2 ^ k | value) →
  iree_host_align value (2 ^ k) = value.
Proof.
  intros Hk ? ? Hd. rewrite iree_host_align_round_up by done.
  pose proof (pow64_lt k Hk). destruct (round_up_spec value (2 ^ k)); [lia|].
  pose proof (round_up_least value (2 ^ k) value ltac:(lia) Hd ltac:(lia)). lia.
Qed.

(** *** Powers of two *)

Lemma land_pred_pow2 k : 0 <= k → Z.land (2 ^ k) (2 ^ k - 1) = 0.
Proof. intros. rewrite land_ones_mod by done. apply Z.mod_same. pose proof (pow2_pos k). lia. Qed.

Lemma land_pred_zero v : 0 < v → Z.land v (v - 1) = 0 → v = 2 ^ Z.log2 v.
Proof.
  intros Hv Hz. destruct (decide (v = 2 ^ Z.log2 v)) as [|Hne]; [done|exfalso].
  pose proof (Z.log2_spec v Hv) as [Hlo Hhi]. pose proof (Z.log2_nonneg v).
  assert (Z.log2 (v - 1) = Z.log2 v) as Hl by (apply Z.log2_unique; lia).
  assert (Z.testbit (Z.land v (v - 1)) (Z.log2 v) = true) as Hbit.
  { rewrite Z.land_spec, Z.bit_log2 by done. rewrite <- Hl. apply Z.bit_log2.
    pose proof (pow2_pos (Z.log2 v)). lia. }
  by rewrite Hz, Z.bits_0 in Hbit.
Qed.

Lemma is_power_of_two_iff v :
  in_width 64 v → iree_host_size_is_power_of_two v = true ↔ is_pow2 v.
Proof.
  intros Hv. unfold iree_host_size_is_power_of_two.
  rewrite andb_true_iff, negb_true_iff, Z.eqb_neq, Z.eqb_eq. split.
  - intros [Hne Hz]. exists (Z.log2 v). split; [apply Z.log2_nonneg|].
    unfold in_width in Hv. rewrite usub_small in Hz by (unfold in_width; lia).
    apply land_pred_zero; [lia|done].
  - intros (k & Hk & ->). pose proof (pow2_pos k Hk). split; [lia|].
    rewrite usub_small by (done || lia). by apply land_pred_pow2.
Qed.

(** [v] has exactly the bits of [n] spread down over [m] positions. *)
Definition smeared (n m v : Z) : Prop :=
  ∀ i, 0 <= i → Z.testbit v i = true ↔ ∃ d, 0 <= d < m ∧ Z.testbit n (i + d) = true.

Lemma smeared_init n : smeared n 1 n.
Proof.
  intros i Hi. split; [intros; exists 0; by rewrite Z.add_0_r|].
  intros (d & ? & Hd). by replace (i + d) with i in Hd by lia.
Qed.

Lemma smeared_step n m v : 0 < m → smeared n m v → smeared n (2 * m) (smear m v).
Proof.
  intros Hm Hv i Hi. unfold smear. rewrite Z.lor_spec, Z.shiftr_spec, orb_true_iff by done.
  rewrite (Hv i Hi), (Hv (i + m)) by lia. split.
  - intros [(d & ? & Hd)|(d & ? & Hd)]; [exists d; split; [lia|done]|].
    exists (m + d). split; [lia|]. by rewrite Z.add_assoc.
  - intros (d & ? & Hd). destruct (decide (d < m)); [left; exists d; split; [lia|done]|right].
    exists (d - m). split; [lia|]. by replace (i + m + (d - m)) with (i + d) by lia.
Qed.

Lemma smear_all n :
  0 < n < 2 ^ 64 →
  smear 32 (smear 16 (smear 8 (smear 4 (smear 2 (smear 1 n))))) = 2 ^ (Z.log2 n + 1) - 1.
Proof.
  intros Hn. pose proof (Z.log2_nonneg n).
  assert (Z.log2 n < 64) by (apply Z.log2_lt_pow2; lia).
  set (v := smear 32 _).
  assert (smeared n 64 v) as Hs.
  { change 64 with (2 * (2 * (2 * (2 * (2 * (2 * 1)))))).
    repeat (apply smeared_step; [lia|]). apply smeared_init. }
  apply word_ext. intros i Hi. rewrite ones_testbit by lia.
  apply Bool.eq_iff_eq_true. rewrite (Hs i Hi), Z.ltb_lt. split.
  - intros (d & ? & Hd). destruct (Z.leb_spec (i + d) (Z.log2 n)); [lia|].
    rewrite Z.bits_above_log2 in Hd by lia. done.
  - intros. exists (Z.log2 n - i). split; [lia|].
    replace (i + (Z.log2 n - i)) with (Z.log2 n) by lia. apply Z.bit_log2. lia.
Qed.

Lemma round_up_to_pow2_log2_up n :
  1 < n <= 2 ^ 63 → iree_math_round_up_to_pow2_u64 n = 2 ^ Z.log2_up n.
Proof.
  intros Hn. unfold iree_math_round_up_to_pow2_u64.
  rewrite usub_small by (unfold in_width; lia). rewrite smear_all by lia.
  rewrite Z.log2_up_eqn by lia. replace (Z.pred n) with (n - 1) by lia.
  assert (Z.log2 (n - 1) < 63) by (apply Z.log2_lt_pow2; lia).
  pose proof (Z.log2_nonneg (n - 1)). unfold uadd, wrap.
  replace (2 ^ (Z.log2 (n - 1) + 1) - 1 + 1) with (2 ^ Z.succ (Z.log2 (n - 1))) by (f_equal; lia).
  apply Z.mod_small. split; [lia|]. apply Z.pow_lt_mono_r; lia.
Qed.

Lemma next_power_of_two_eq v :
  in_width 64 v →
  iree_host_size_next_power_of_two v =
    if v <=? 1 then 1 else if 2 ^ 63 <? v then umax 64 else 2 ^ Z.log2_up v.
Proof.
  intros [? ?]. unfold iree_host_size_next_power_of_two.
  replace (Z.shiftr (unot 64 0) 1 +64 1) with (2 ^ 63) by (vm_compute; done).
  replace (unot 64 0) with (umax 64) by (vm_compute; done).
  destruct (Z.leb_spec v 1); [done|]. destruct (Z.ltb_spec (2 ^ 63) v); [done|].
  rewrite <- round_up_to_pow2_log2_up by done. unfold iree_math_round_up_to_pow2_u64.
  reflexivity.
Qed.

Lemma log2_up_least v p : 1 < v → is_pow2 p → v <= p → 2 ^ Z.log2_up v <= p.
Proof.
  intros Hv (k & Hk & ->) Hle. apply Z.pow_le_mono_r; [lia|].
  pose proof (Z.log2_up_le_mono v (2 ^ k) Hle) as Hm. by rewrite Z.log2_up_pow2 in Hm.
Qed.

(** *** Greatest common divisor *)

Lemma gcd_loop_enough (n : nat) : ∀ a b,
  0 <= a → 0 <= b < 2 ^ Z.of_nat n →
  iree_math_gcd_u64_loop (2 * n + 1) a b = Some (Z.gcd a b).
Proof.
  induction n as [|n IH]; intros a b Ha Hb.
  { simpl. replace b with 0 by (simpl in Hb; lia). simpl. by rewrite Z.gcd_0_r_nonneg. }
  replace (2 * S n + 1)%nat with (S (S (2 * n + 1))) by lia. simpl iree_math_gcd_u64_loop.
  destruct (Z.eqb_spec b 0) as [->|Hb0]; simpl; [by rewrite Z.gcd_0_r_nonneg|].
  pose proof (Z.mod_pos_bound a b ltac:(lia)) as Hr.
  assert (Z.gcd b (a mod b) = Z.gcd a b) as Hg.
  { rewrite (Z.gcd_comm b), Z.gcd_mod by lia. apply Z.gcd_comm. }
  destruct (Z.eqb_spec (a mod b) 0) as [Hz|Hr0]; simpl.
  { rewrite <- Hg, Hz. by rewrite Z.gcd_0_r_nonneg by lia. }
  pose proof (Z.mod_pos_bound b (a mod b) ltac:(lia)) as Hs.
  rewrite Nat2Z.inj_succ, Z.pow_succ_r in Hb by lia.
  assert (2 * (b mod (a mod b)) <= b).
  { pose proof (Z.div_mod b (a mod b) ltac:(lia)).
    assert (1 <= b / (a mod b)) by (apply Z.div_le_lower_bound; lia). nia. }
  rewrite IH by lia. f_equal.
  rewrite (Z.gcd_comm (a mod b)), Z.gcd_mod by lia. by rewrite Z.gcd_comm.
Qed.

Lemma gcd_u64_correct a b :
  in_width 64 a → in_width 64 b → iree_math_gcd_u64 a b = Some (Z.gcd a b).
Proof. intros [? ?] [? ?]. apply (gcd_loop_enough 64); [lia|]. done. Qed.

Lemma gcd_recursion_loop n a b :
  iree_device_size_gcd n a b = iree_math_gcd_u64_loop n a b.
Proof. revert a b. induction n as [|n IH]; intros a b; simpl; [done|]. by destruct (b =? 0). Qed.

Lemma gcd_recursion_correct a b :
  in_width 64 a → in_width 64 b → iree_device_size_gcd gcd_fuel a b = Some (Z.gcd a b).
Proof. intros [? ?] [? ?]. rewrite gcd_recursion_loop. by apply (gcd_loop_enough 64). Qed.

Lemma magnitude_abs v : in_i64 v → iree_math_magnitude_i64 v = Z.abs v.
Proof.
  unfold in_i64, INT64_MIN, INT64_MAX, iree_math_magnitude_i64. intros Hv.
  destruct (Z.leb_spec 0 v); [lia|].
  unfold uadd, wrap. rewrite !Z.mod_small; [lia|lia|].
  rewrite Z.mod_small; lia.
Qed.

Lemma magnitude_in_width v : in_i64 v → in_width 64 (iree_math_magnitude_i64 v).
Proof.
  intros Hv. rewrite magnitude_abs by done.
  unfold in_i64, INT64_MIN, INT64_MAX, in_width in *. lia.
Qed.

(** *** Checked arithmetic *)

(** The meaning of the [__builtin_*_overflow] family: the exact result when it is
    representable. *)
Definition checked (lo hi x : Z) : option Z :=
  if decide (lo <= x <= hi) then Some x else None.

Lemma checked_bool lo hi x (c : bool) y :
  (c = true ↔ ¬ (lo <= x <= hi)) → (c = false → y = x) →
  (if c then None else Some y) = checked lo hi x.
Proof.
  intros Hc Hy. unfold checked. case_decide as Hd; destruct c eqn:E; try done.
  - by destruct (proj1 Hc eq_refl).
  - by rewrite Hy.
  - by pose proof (proj2 Hc Hd).
Qed.

(** Discharges the boolean side of a [checked] goal. *)
Ltac checked_solve :=
  apply checked_bool;
  [ repeat (rewrite ?orb_true_iff, ?andb_true_iff, ?negb_true_iff, ?Z.ltb_lt, ?Z.ltb_ge,
      ?Z.eqb_eq, ?Z.eqb_neq)
  | repeat (rewrite ?orb_false_iff, ?andb_false_iff, ?negb_false_iff, ?Z.ltb_lt, ?Z.ltb_ge,
      ?Z.eqb_eq, ?Z.eqb_neq) ].

Lemma checked_add_u64_eq a b :
  in_width 64 a → in_width 64 b → iree_host_size_checked_add a b = checked 0 (umax 64) (a + b).
Proof.
  unfold in_width. intros Ha Hb. unfold iree_host_size_checked_add, IREE_HOST_SIZE_MAX, umax.
  rewrite usub_small by (unfold in_width; lia).
  checked_solve; [lia|]. intros. apply uadd_small. lia.
Qed.

Lemma umax_div_lt a b : 0 < b → umax 64 / b < a ↔ umax 64 < a * b.
Proof.
  intros Hb. pose proof (Z.div_mod (umax 64) b ltac:(lia)).
  pose proof (Z.mod_pos_bound (umax 64) b Hb). split; nia.
Qed.

Lemma checked_mul_u64_eq a b :
  in_width 64 a → in_width 64 b → iree_host_size_checked_mul a b = checked 0 (umax 64) (a * b).
Proof.
  unfold in_width. intros Ha Hb. unfold iree_host_size_checked_mul, IREE_HOST_SIZE_MAX.
  destruct (decide (b = 0)) as [->|Hb0].
  { simpl. rewrite Z.mul_0_r. unfold umul. by rewrite Z.mul_0_r. }
  pose proof (umax_div_lt a b ltac:(lia)) as Hdiv. checked_solve.
  - split; [intros [_ ?]; lia|]. intros. split; [done|]. apply Hdiv. nia.
  - intros [?|Hle]; [done|]. apply umul_small. unfold umax in *. nia.
Qed.

Lemma checked_align_eq value k :
  0 <= k < 64 → in_width 64 value →
  iree_host_size_checked_align value (2 ^ k) =
    if decide (value + (2 ^ k - 1) < 2 ^ 64) then Some (round_up value (2 ^ k)) else None.
Proof.
  intros Hk Hv. unfold iree_host_size_checked_align. pose proof (pow64_lt k Hk).
  rewrite align_mask by done.
  rewrite checked_add_u64_eq by (unfold in_width in *; lia).
  unfold checked, umax, in_width in *. case_decide; case_decide; try lia; [|done].
  simpl. rewrite land_low_mask by (unfold in_width; lia).
  f_equal. apply round_up_alt. lia.
Qed.

(** Truncating division against a bound is exact comparison with the product. *)
Lemma quot_pos_lt m a b : 0 < b → 0 <= m → Z.quot m b < a ↔ m < a * b.
Proof.
  intros Hb Hm. rewrite Z.quot_div_nonneg by lia.
  pose proof (Z.div_mod m b ltac:(lia)). pose proof (Z.mod_pos_bound m b Hb). split; nia.
Qed.

Lemma quot_neg_gt m a b : 0 < b → m <= 0 → a < Z.quot m b ↔ a * b < m.
Proof.
  intros Hb Hm. replace m with (- - m) by lia. rewrite Z.quot_opp_l by lia.
  pose proof (quot_pos_lt (- m) (- a) b Hb ltac:(lia)). lia.
Qed.

Lemma quot_neg_neg m a b : b < 0 → 0 <= m → a < Z.quot m b ↔ m < a * b.
Proof.
  intros Hb Hm. replace b with (- - b) at 1 by lia. rewrite Z.quot_opp_r by lia.
  rewrite <- Z.quot_opp_l by lia. rewrite quot_neg_gt by lia. lia.
Qed.

Lemma checked_mul_i64_eq a b :
  in_i64 a → in_i64 b → iree_checked_mul_i64 a b = checked INT64_MIN INT64_MAX (a * b).
Proof.
  intros Ha Hb. unfold iree_checked_mul_i64.
  destruct (Z.eqb_spec a 0) as [->|Ha0]; [done|].
  destruct (Z.eqb_spec b 0) as [->|Hb0]; [by rewrite Z.mul_0_r|]. simpl.
  case_match eqn:E1.
  { apply andb_true_iff in E1 as [->%Z.eqb_eq ->%Z.eqb_eq]. done. }
  case_match eqn:E2.
  { apply andb_true_iff in E2 as [->%Z.eqb_eq ->%Z.eqb_eq]. done. }
  clear E1 E2. apply checked_bool; [|done].
  unfold in_i64, INT64_MIN, INT64_MAX in *.
  destruct (Z.ltb_spec 0 a), (Z.ltb_spec 0 b); rewrite Z.ltb_lt.
  - rewrite quot_pos_lt by lia. nia.
  - rewrite quot_neg_gt by lia. nia.
  - rewrite quot_neg_gt by lia. nia.
  - rewrite quot_neg_neg by lia. nia.
Qed.

(** *** 128-bit products and quotients *)

(** Adding with a comparison as carry-out. *)
Lemma carry_out x a :
  in_width 64 x → in_width 64 a →
  x + a = (x +64 a) + 2 ^ 64 * Z.b2z ((x +64 a) <? a).
Proof.
  unfold in_width. intros Hx Ha.
  destruct (Z.ltb_spec (x + a) (2 ^ 64)) as [Hs|Hs].
  - rewrite uadd_small by lia. destruct (Z.ltb_spec (x + a) a); simpl; lia.
  - assert (x +64 a = x + a - 2 ^ 64) as ->.
    { unfold uadd, wrap. rewrite <- (Z.mod_add _ (-1)) by lia. apply Z.mod_small. lia. }
    destruct (Z.ltb_spec (x + a - 2 ^ 64) a); simpl; lia.
Qed.

(** The two halves of a 32-bit left shift. *)
Lemma ushl32_split x :
  0 <= x → x * 2 ^ 32 = ushl 64 x 32 + 2 ^ 64 * Z.shiftr x 32.
Proof.
  intros Hx. unfold ushl, wrap. rewrite Z.shiftl_mul_pow2, Z.shiftr_div_pow2 by lia.
  replace (2 ^ 64) with (2 ^ 32 * 2 ^ 32) by done.
  rewrite Z.mul_mod_distr_r by lia. pose proof (Z.div_mod x (2 ^ 32)). lia.
Qed.

Lemma halves x : in_width 64 x → x = Z.shiftr x 32 * 2 ^ 32 + wrap 32 x.
Proof.
  intros. rewrite Z.shiftr_div_pow2 by lia. unfold wrap.
  pose proof (Z.div_mod x (2 ^ 32)). lia.
Qed.

Lemma half_bounds x :
  in_width 64 x → 0 <= Z.shiftr x 32 < 2 ^ 32 ∧ 0 <= wrap 32 x < 2 ^ 32.
Proof.
  intros [? ?]. split; [|apply wrap_in_width; lia].
  rewrite Z.shiftr_div_pow2 by lia. split; [apply Z.div_pos; lia|].
  apply Z.div_lt_upper_bound; lia.
Qed.

Lemma half_product x y :
  0 <= x < 2 ^ 32 → 0 <= y < 2 ^ 32 → 0 <= x * y <= (2 ^ 32 - 1) * (2 ^ 32 - 1).
Proof. intros. split; [lia|]. apply Z.mul_le_mono_nonneg; lia. Qed.

Lemma mul_u64_to_u128_correct lhs rhs high low :
  in_width 64 lhs → in_width 64 rhs →
  iree_math_mul_u64_to_u128 lhs rhs = (high, low) →
  in_width 64 high ∧ in_width 64 low ∧ high * 2 ^ 64 + low = lhs * rhs.
Proof.
  intros Hl Hr. unfold iree_math_mul_u64_to_u128.
  pose proof (halves lhs Hl) as El. pose proof (halves rhs Hr) as Er.
  destruct (half_bounds lhs Hl) as [Hlh Hll], (half_bounds rhs Hr) as [Hrh Hrl].
  assert (lhs * rhs <= (2 ^ 64 - 1) * (2 ^ 64 - 1)) as Hbound
    by (unfold in_width in *; apply Z.mul_le_mono_nonneg; lia).
  revert El Er Hlh Hll Hrh Hrl.
  generalize (Z.shiftr lhs 32) (wrap 32 lhs) (Z.shiftr rhs 32) (wrap 32 rhs).
  intros lh ll rh rl El Er Hlh Hll Hrh Hrl.
  assert (lhs * rhs = (lh * rh) * 2 ^ 64 + (ll * rh) * 2 ^ 32 + (lh * rl) * 2 ^ 32 + ll * rl)
    as Eprod by (rewrite El, Er; ring).
  pose proof (half_product ll rl Hll Hrl). pose proof (half_product ll rh Hll Hrh).
  pose proof (half_product lh rl Hlh Hrl). pose proof (half_product lh rh Hlh Hrh).
  rewrite !umul_small by lia. rewrite Eprod in *. clear El Er Eprod Hl Hr lhs rhs.
  revert H H0 H1 H2 Hbound. generalize (ll * rl) (ll * rh) (lh * rl) (lh * rh).
  clear. intros pll plh phl phh ? ? ? ? ?.
  pose proof (ushl32_split plh ltac:(lia)) as S1. pose proof (ushl32_split phl ltac:(lia)) as S2.
  assert (0 <= Z.shiftr plh 32) by (apply Z.shiftr_nonneg; lia).
  assert (0 <= Z.shiftr phl 32) by (apply Z.shiftr_nonneg; lia).
  assert (in_width 64 (ushl 64 plh 32)) as W1 by (apply wrap_in_width; lia).
  assert (in_width 64 (ushl 64 phl 32)) as W2 by (apply wrap_in_width; lia).
  revert S1 S2 W1 W2.
  generalize dependent (Z.shiftr plh 32). generalize dependent (Z.shiftr phl 32).
  generalize (ushl 64 plh 32) (ushl 64 phl 32). intros a1 a2 s2 ? s1 ? S1 S2 W1 W2.
  pose proof (carry_out pll a1 ltac:(unfold in_width; lia) W1) as C1.
  assert (in_width 64 (pll +64 a1)) as W3 by (apply wrap_in_width; lia).
  pose proof (carry_out (pll +64 a1) a2 W3 W2) as C2.
  assert (in_width 64 (pll +64 a1 +64 a2)) as W4 by (apply wrap_in_width; lia).
  revert C1 C2 W3 W4. generalize (pll +64 a1). intros l1. generalize (l1 +64 a2). intros l2.
  assert (0 <= Z.b2z (l1 <? a1) <= 1) by (destruct (l1 <? a1); simpl; lia).
  assert (0 <= Z.b2z (l2 <? a2) <= 1) by (destruct (l2 <? a2); simpl; lia).
  generalize dependent (Z.b2z (l1 <? a1)). generalize dependent (Z.b2z (l2 <? a2)).
  intros c2 ? c1 ? C1 C2 W3 W4. unfold in_width in *.
  rewrite (uadd_small 64 c1), (uadd_small 64 c2), (uadd_small 64 phh) by lia.
  rewrite uadd_small by lia. intros [= <- <-]. lia.
Qed.

Lemma b2z_land1 x n : 0 <= n → Z.land (Z.shiftr x n) 1 = Z.b2z (Z.testbit x n).
Proof.
  intros. change 1 with (2 ^ 1 - 1) at 1. rewrite land_ones_mod by lia.
  rewrite Z.shiftr_div_pow2 by done. symmetry. by apply Z.testbit_spec'.
Qed.

Lemma lor_low_bits q n b : 0 <= n → 0 <= b < 2 ^ n → Z.lor (q * 2 ^ n) b = q * 2 ^ n + b.
Proof.
  intros Hn Hb. rewrite <- Z.lxor_lor, <- Z.add_nocarry_lxor; [done| |];
    apply word_ext; intros i Hi; rewrite Z.land_spec, Z.bits_0;
    (destruct (Z.ltb_spec i n);
     [by rewrite Z.mul_pow2_bits_low|by rewrite (testbit_above n Hn b), andb_false_r]).
Qed.

(** Restoring division at one bit: the doubled remainder with the next bit of [low] is
    split by [d], and the quotient gets the bit that says whether it fit. *)
Lemma div_u128_step_correct low d q r n :
  0 < d < 2 ^ 64 → 0 <= r < d → 0 <= n < 64 → 0 <= q → (q + 1) * 2 ^ (n + 1) <= 2 ^ 64 →
  ∃ b r', div_u128_step low d n (q * 2 ^ (n + 1)) r = ((2 * q + b) * 2 ^ n, r') ∧
    0 <= b <= 1 ∧ 0 <= r' < d ∧ b * d + r' = 2 * r + Z.b2z (Z.testbit low n).
Proof.
  intros Hd Hr Hn Hq Hfit. unfold div_u128_step. rewrite b2z_land1 by lia.
  set (bit := Z.b2z (Z.testbit low n)).
  assert (0 <= bit <= 1) by (unfold bit; destruct (Z.testbit low n); simpl; lia).
  pose proof (pow2_pos n ltac:(lia)).
  assert (2 ^ (n + 1) = 2 * 2 ^ n) as E by (rewrite Z.pow_add_r by lia; lia).
  assert (Z.lor (ushl 64 r 1) bit = wrap 64 (2 * r) + bit) as ->.
  { unfold ushl, wrap. rewrite Z.shiftl_mul_pow2 by lia.
    replace (2 ^ 64) with (2 ^ 63 * 2 ^ 1) by done. rewrite Z.mul_mod_distr_r by lia.
    rewrite lor_low_bits by lia. rewrite <- Z.mul_mod_distr_r by lia. f_equal. f_equal. lia. }
  assert (Z.lor (q * 2 ^ (n + 1)) (ushl 64 1 n) = (2 * q + 1) * 2 ^ n) as ->.
  { unfold ushl. rewrite Z.shiftl_1_l, wrap_small.
    - rewrite lor_low_bits by lia. rewrite E. ring.
    - apply in_width_weaken with (n + 1); [lia|]. split; lia. }
  rewrite Z.shiftr_div_pow2 by lia.
  destruct (Z.ltb_spec r (2 ^ 63)) as [Hlt|Hge].
  - rewrite Z.div_small by lia. rewrite wrap_small by (unfold in_width; lia). simpl.
    destruct (Z.leb_spec d (2 * r + bit)).
    + exists 1, (2 * r + bit - d). rewrite usub_small by (unfold in_width; lia).
      split; [done|]. lia.
    + exists 0, (2 * r + bit). rewrite E. split; [f_equal; ring|]. lia.
  - assert (r / 2 ^ 63 = 1) as ->.
    { symmetry. apply (Z.div_unique_pos r (2 ^ 63) 1 (r - 2 ^ 63)); lia. }
    simpl.
    assert (wrap 64 (2 * r) = 2 * r - 2 ^ 64) as ->.
    { unfold wrap. rewrite <- (Z.mod_add _ (-1)) by lia. apply Z.mod_small. lia. }
    exists 1, (2 * r + bit - d). split; [|lia]. f_equal.
    unfold usub, wrap. rewrite <- (Z.mod_add _ 1) by lia. rewrite Z.mod_small; lia.
Qed.

Lemma mod_pow2_succ x n :
  0 <= n → x mod 2 ^ (n + 1) = Z.b2z (Z.testbit x n) * 2 ^ n + x mod 2 ^ n.
Proof.
  intros Hn. rewrite Z.pow_add_r by lia. rewrite Z.rem_mul_r; [|lia..].
  rewrite Z.testbit_spec' by done. change (2 ^ 1) with 2. ring.
Qed.

Lemma div_u128_loop_correct (n : nat) : ∀ low d q r,
  0 < d < 2 ^ 64 → 0 <= r < d → (n <= 64)%nat → 0 <= q →
  (q + 1) * 2 ^ Z.of_nat n <= 2 ^ 64 →
  ∃ q' r', div_u128_loop n low d (q * 2 ^ Z.of_nat n) r = (q', r') ∧ 0 <= r' < d ∧
    q' * d + r' = (q * d + r) * 2 ^ Z.of_nat n + low mod 2 ^ Z.of_nat n.
Proof.
  induction n as [|n IH]; intros low d q r Hd Hr Hn Hq Hfit.
  { exists (q * 2 ^ 0), r. simpl. rewrite Z.mod_1_r. split; [done|]. lia. }
  cbn [div_u128_loop]. rewrite Nat2Z.inj_succ in *. unfold Z.succ in *.
  destruct (div_u128_step_correct low d q r (Z.of_nat n)) as (b & r' & -> & Hb & Hr' & E);
    [done..|lia|done|done|].
  pose proof (pow2_pos (Z.of_nat n) ltac:(lia)).
  assert (2 ^ (Z.of_nat n + 1) = 2 * 2 ^ Z.of_nat n) as Ep by (rewrite Z.pow_add_r by lia; lia).
  destruct (IH low d (2 * q + b) r') as (q' & r'' & -> & ? & Eq); [done|done|lia|lia|nia|].
  exists q', r''. split; [done|]. split; [done|]. rewrite Eq.
  rewrite mod_pow2_succ by lia. rewrite Ep.
  replace ((q * d + r) * (2 * 2 ^ Z.of_nat n)) with ((2 * q * d + 2 * r) * 2 ^ Z.of_nat n) by ring.
  replace r' with (2 * r + Z.b2z (Z.testbit low (Z.of_nat n)) - b * d) by lia. ring.
Qed.

#[local] Arguments div_u128_loop : simpl never.

Lemma div_u128_correct high low d :
  in_width 64 high → in_width 64 low → in_width 64 d →
  iree_math_div_u128_by_u64_to_u64 high low d =
    if decide (d ≠ 0 ∧ (high * 2 ^ 64 + low) / d < 2 ^ 64)
    then Some ((high * 2 ^ 64 + low) / d) else None.
Proof.
  unfold in_width. intros Hh Hl Hd. unfold iree_math_div_u128_by_u64_to_u64.
  destruct (Z.eqb_spec d 0) as [->|Hd0]; cbn [orb]; [by rewrite decide_False by lia|].
  destruct (Z.leb_spec d high).
  { rewrite decide_False; [done|]. intros [_ Hlt].
    assert (2 ^ 64 <= (high * 2 ^ 64 + low) / d) by (apply Z.div_le_lower_bound; nia). lia. }
  destruct (div_u128_loop_correct 64 low d 0 high) as (q & r & E & Hr & Hq); [lia..|].
  rewrite Z.mul_0_l in E, Hq. rewrite E. cbn [fst].
  change (Z.of_nat 64) with 64 in *. rewrite (Z.mod_small low) in Hq by lia.
  assert ((high * 2 ^ 64 + low) / d = q) as -> by (symmetry; apply Z.div_unique with r; lia).
  rewrite decide_True; [done|]. split; [done|]. nia.
Qed.

Lemma round_mul_div_portable_correct v n d :
  in_width 64 v → in_width 64 n → in_width 64 d →
  iree_math_round_mul_div_u64_portable v n d =
    if decide (d ≠ 0 ∧ (v * n + d / 2) / d < 2 ^ 64)
    then Some ((v * n + d / 2) / d) else None.
Proof.
  intros Hv Hn Hd. unfold iree_math_round_mul_div_u64_portable.
  destruct (Z.eqb_spec d 0) as [->|Hd0]; [by rewrite decide_False by lia|].
  assert (0 <= d / 2 < d).
  { unfold in_width in Hd. split; [apply Z.div_pos; lia|apply Z.div_lt; lia]. }
  case_match eqn:Ez.
  { assert (v * n = 0) as -> by (apply orb_true_iff in Ez as [?%Z.eqb_eq|?%Z.eqb_eq]; nia).
    rewrite Z.div_small by lia. by rewrite decide_True by lia. }
  destruct (iree_math_mul_u64_to_u128 v n) as [ph pl] eqn:E.
  apply mul_u64_to_u128_correct in E as (Hph & Hpl & E); [|done..].
  pose proof (carry_out pl (d / 2) Hpl ltac:(unfold in_width in *; lia)) as C.
  assert (v * n <= (2 ^ 64 - 1) * (2 ^ 64 - 1))
    by (unfold in_width in *; apply Z.mul_le_mono_nonneg; lia).
  rewrite div_u128_correct; [..|done].
  - replace (v * n + d / 2) with
      ((if pl +64 d / 2 <? d / 2 then ph +64 1 else ph) * 2 ^ 64 + (pl +64 d / 2)); [done|].
    unfold in_width in *. destruct (_ <? _); simpl in C; [|lia].
    rewrite uadd_small by lia. lia.
  - destruct (_ <? _); [apply wrap_in_width; lia|done].
  - apply wrap_in_width; lia.
Qed.

Lemma round_mul_div_int128_correct v n d :
  in_width 64 v → in_width 64 n → in_width 64 d →
  iree_math_round_mul_div_u64 v n d =
    if decide (d ≠ 0 ∧ (v * n + d / 2) / d < 2 ^ 64)
    then Some ((v * n + d / 2) / d) else None.
Proof.
  unfold in_width. intros Hv Hn Hd. unfold iree_math_round_mul_div_u64.
  destruct (Z.eqb_spec d 0) as [->|Hd0]; [by rewrite decide_False by lia|].
  assert (0 <= d / 2 < d) by (split; [apply Z.div_pos; lia|apply Z.div_lt; lia]).
  assert (0 <= v * n <= (2 ^ 64 - 1) * (2 ^ 64 - 1))
    by (split; [lia|apply Z.mul_le_mono_nonneg; lia]).
  case_match eqn:Ez.
  { assert (v * n = 0) as -> by (apply orb_true_iff in Ez as [?%Z.eqb_eq|?%Z.eqb_eq]; nia).
    rewrite Z.div_small by lia. by rewrite decide_True by lia. }
  rewrite (wrap_small 128 (v * n)) by (unfold in_width; lia).
  rewrite (wrap_small 128) by (unfold in_width; lia).
  assert (0 <= (v * n + d / 2) / d) by (apply Z.div_pos; lia).
  unfold umax. destruct (Z.ltb_spec (2 ^ 64 - 1) ((v * n + d / 2) / d)).
  - by rewrite decide_False by lia.
  - rewrite decide_True by lia. by rewrite wrap_small by (unfold in_width; lia).
Qed.

(** *** Bit scans *)

Lemma pos_ctz_nonneg p : 0 <= pos_ctz p.
Proof. induction p; simpl; lia. Qed.

Lemma ctz_nonneg n : 0 <= ctz n.
Proof. destruct n; simpl; [lia|apply pos_ctz_nonneg|lia]. Qed.

Lemma ctz_divide n : 0 < n → ∃ q, n = (2 * q + 1) * 2 ^ ctz n.
Proof.
  destruct n as [|p|p]; [lia| |lia]. intros _. simpl.
  induction p as [p IH|p [q Hq]|]; simpl.
  - exists (Z.pos p). simpl. lia.
  - exists q. rewrite Z.pow_add_r by (pose proof (pos_ctz_nonneg p); lia).
    rewrite Pos2Z.inj_xO, Hq. ring.
  - exists 0. done.
Qed.

Lemma ctz_testbit n : 0 < n → Z.testbit n (ctz n) = true.
Proof.
  intros Hn. destruct (ctz_divide n Hn) as [q Hq]. pose proof (ctz_nonneg n).
  rewrite Hq at 1. rewrite Z.mul_pow2_bits by done.
  rewrite Z.sub_diag. by rewrite Z.testbit_odd_0.
Qed.

Lemma ctz_low n i : 0 < n → i < ctz n → Z.testbit n i = false.
Proof.
  intros Hn Hi. destruct (ctz_divide n Hn) as [q Hq]. rewrite Hq at 1.
  by rewrite Z.mul_pow2_bits_low.
Qed.

Lemma ctz_least n i : 0 < n → Z.testbit n i = true → ctz n <= i.
Proof.
  intros Hn Hi. destruct (Z.leb_spec (ctz n) i); [done|].
  by rewrite ctz_low in Hi.
Qed.

Lemma ctz_bound w n : 0 <= w → 0 < n → in_width w n → ctz n < w.
Proof.
  intros Hw Hn Hin. destruct (Z.ltb_spec (ctz n) w); [done|].
  pose proof (testbit_above w Hw n (ctz n) Hin ltac:(done)) as Hf.
  by rewrite ctz_testbit in Hf.
Qed.

(** [n & -n] isolates the lowest set bit. *)
Lemma isolate_low_bit w n :
  0 < n → in_width w n → 0 <= w → Z.land n (uadd w (unot w n) 1) = 2 ^ ctz n.
Proof.
  intros Hn Hin Hw. pose proof Hin as [_ Hlt].
  assert (uadd w (unot w n) 1 = 2 ^ w - n) as ->.
  { rewrite unot_eq by done. unfold uadd, wrap. rewrite Z.mod_small; lia. }
  pose proof (ctz_bound w n Hw Hn Hin) as Hb. pose proof (ctz_nonneg n) as H0.
  destruct (ctz_divide n Hn) as [q Hq]. set (k := ctz n) in *.
  assert (2 ^ w = 2 ^ (w - k) * 2 ^ k) as Ew by (rewrite <- Z.pow_add_r by lia; f_equal; lia).
  assert (2 ^ (w - k) = 2 * 2 ^ (w - k - 1)) as Ew'.
  { rewrite <- (Z.pow_succ_r 2 (w - k - 1)) by lia. f_equal. lia. }
  assert (2 ^ w - n = (2 * (2 ^ (w - k - 1) - q - 1) + 1) * 2 ^ k) as ->.
  { rewrite Hq at 1. rewrite Ew, Ew'. ring. }
  rewrite Hq at 1. rewrite <- !Z.shiftl_mul_pow2, <- Z.shiftl_land by lia.
  assert (Z.land (2 * q + 1) (2 * (2 ^ (w - k - 1) - q - 1) + 1) = 1) as ->.
  { apply word_ext. intros i Hi. rewrite Z.land_spec.
    destruct (decide (i = 0)) as [->|]; [by rewrite !Z.testbit_odd_0|].
    replace i with (Z.succ (i - 1)) by lia. rewrite !Z.testbit_odd_succ by lia.
    replace (2 ^ (w - k - 1) - q - 1) with (2 ^ (w - k - 1) + Z.lnot q) by (unfold Z.lnot; lia).
    rewrite (Z.bits_above_log2 1 (Z.succ (i - 1))) by (simpl; lia).
    destruct (Z.ltb_spec (i - 1) (w - k - 1)) as [Hl|Hg].
    - rewrite <- (Z.mod_pow2_bits_low (_ + _) (w - k - 1)) by lia.
      rewrite Z.add_mod, Z.mod_same, Z.add_0_l, Z.mod_mod by (pose proof (pow2_pos (w - k - 1)); lia).
      rewrite Z.mod_pow2_bits_low by lia. rewrite Z.lnot_spec by lia.
      by destruct (Z.testbit q (i - 1)).
    - rewrite (testbit_above (w - k - 1) ltac:(lia) q (i - 1)); [done| |lia].
      pose proof (pow2_pos k). split; nia. }
  by rewrite Z.shiftl_1_l.
Qed.

Lemma forall_below (P : Z → bool) n k :
  forallb P (seqZ 0 n) = true → 0 <= k < n → P k = true.
Proof.
  intros HP Hk. apply forallb_forall with (x := k) in HP; [done|].
  apply list_elem_of_In, elem_of_seqZ. lia.
Qed.

(** The portable mask cascade computes the position of the lowest set bit. *)
Lemma count_trailing_zeros_u64_eq n :
  0 < n → in_width 64 n → iree_math_count_trailing_zeros_u64 n = ctz n.
Proof.
  intros Hn Hin. unfold iree_math_count_trailing_zeros_u64.
  rewrite isolate_low_bit by (done || lia).
  pose proof (ctz_bound 64 n ltac:(lia) Hn Hin). pose proof (ctz_nonneg n).
  apply Z.eqb_eq. generalize dependent (ctz n). intros k ? ?.
  apply (forall_below (λ k, _ =? k) 64 k); [|lia]. vm_compute. done.
Qed.

Lemma count_trailing_zeros_u32_eq n :
  0 < n → in_width 32 n → iree_math_count_trailing_zeros_u32 n = ctz n.
Proof.
  intros Hn Hin. unfold iree_math_count_trailing_zeros_u32.
  rewrite isolate_low_bit by (done || lia).
  pose proof (ctz_bound 32 n ltac:(lia) Hn Hin). pose proof (ctz_nonneg n).
  apply Z.eqb_eq. generalize dependent (ctz n). intros k ? ?.
  apply (forall_below (λ k, _ =? k) 32 k); [|lia]. vm_compute. done.
Qed.

Lemma clz64_log2 n : 0 < n → 63 - iree_math_count_leading_zeros_u64 n = Z.log2 n.
Proof.
  intros. unfold iree_math_count_leading_zeros_u64. destruct (Z.eqb_spec n 0); lia.
Qed.

Lemma clz32_log2 n : 0 < n → 31 - iree_math_count_leading_zeros_u32 n = Z.log2 n.
Proof.
  intros. unfold iree_math_count_leading_zeros_u32. destruct (Z.eqb_spec n 0); lia.
Qed.

Lemma log2_bound w n : 0 < w → in_width w n → 0 <= Z.log2 n < w.
Proof.
  intros Hw [H0 Hn]. split; [apply Z.log2_nonneg|].
  destruct (decide (n = 0)) as [->|]; [simpl; lia|]. apply Z.log2_lt_pow2; lia.
Qed.

Lemma iree_shr_ones w s : 0 <= s < w → iree_shr w (umax w) s = 2 ^ (w - s) - 1.
Proof.
  intros Hs. unfold iree_shr, umax. destruct (Z.ltb_spec s w); [|lia].
  apply word_ext. intros i Hi. rewrite Z.shiftr_spec, !ones_testbit by lia.
  destruct (Z.ltb_spec (i + s) w), (Z.ltb_spec i (w - s)); lia || done.
Qed.

(** *** Struct layout *)

(** A field descriptor as the [IREE_STRUCT_FIELD*] macros build it. *)
Definition field_ok (f : iree_struct_field_t) : Prop :=
  in_width 64 (field_count0 f) ∧ in_width 64 (field_count1 f) ∧
  in_width 64 (field_element_size f) ∧
  (field_alignment f = 0 ∨ ∃ k, 0 <= k < 64 ∧ field_alignment f = 2 ^ k).

Definition field_size (f : iree_struct_field_t) : Z :=
  field_count0 f * field_count1 f * field_element_size f.

Definition field_offset (base : Z) (f : iree_struct_field_t) : Z :=
  if 0 <? field_alignment f then round_up base (field_alignment f) else base.

(** The layout over unbounded integers. *)
Fixpoint layout_spec (base : Z) (fields : list iree_struct_field_t) : list Z * Z :=
  match fields with
  | [] => ([], base)
  | f :: fields =>
      let offset := field_offset base f in
      let '(offsets, total) := layout_spec (offset + field_size f) fields in
      (offset :: offsets, total)
  end.

(** No intermediate quantity leaves the 64-bit range. *)
Fixpoint layout_fits (base : Z) (fields : list iree_struct_field_t) : Prop :=
  match fields with
  | [] => True
  | f :: fields =>
      let offset := field_offset base f in
      offset < 2 ^ 64 ∧ field_count0 f * field_count1 f < 2 ^ 64 ∧
      field_size f < 2 ^ 64 ∧ offset + field_size f < 2 ^ 64 ∧
      layout_fits (offset + field_size f) fields
  end.

#[export] Instance layout_fits_dec base fields : Decision (layout_fits base fields).
Proof. revert base. induction fields; simpl; apply _. Defined.

Lemma aligned_no_wrap x k :
  0 <= k < 64 → in_width 64 x → x + (2 ^ k - 1) < 2 ^ 64 ↔ round_up x (2 ^ k) < 2 ^ 64.
Proof.
  intros Hk Hx. pose proof (pow64_lt k Hk).
  destruct (round_up_spec x (2 ^ k)) as [[q Hq] ?]; [lia|]. split; [lia|].
  assert (2 ^ 64 = 2 ^ (64 - k) * 2 ^ k) as E by (rewrite <- Z.pow_add_r by lia; f_equal; lia).
  rewrite Hq in *. rewrite E. intros Hlt.
  apply Z.mul_lt_mono_pos_r in Hlt; [|lia].
  assert ((q + 1) * 2 ^ k <= 2 ^ (64 - k) * 2 ^ k) by (apply Z.mul_le_mono_nonneg_r; lia).
  (* the padded value stays below the next multiple *)
  unfold round_up in Hq. pose proof (Z.div_mod (x + (2 ^ k - 1)) (2 ^ k) ltac:(lia)).
  pose proof (Z.mod_pos_bound (x + (2 ^ k - 1)) (2 ^ k) ltac:(lia)). nia.
Qed.

Lemma field_offset_eq base f :
  in_width 64 base → field_ok f →
  (if 0 <? field_alignment f
   then iree_host_size_checked_align base (field_alignment f) else Some base) =
  if decide (field_offset base f < 2 ^ 64) then Some (field_offset base f) else None.
Proof.
  intros Hb (_ & _ & _ & [Ha|(k & Hk & Ha)]); unfold field_offset; rewrite Ha.
  - simpl. rewrite decide_True; [done|]. apply Hb.
  - pose proof (pow64_lt k Hk). destruct (Z.ltb_spec 0 (2 ^ k)); [|lia].
    rewrite checked_align_eq by done. pose proof (aligned_no_wrap base k Hk Hb).
    case_decide; case_decide; tauto || done.
Qed.

Lemma checked_u64_if x :
  0 <= x → checked 0 (umax 64) x = if decide (x < 2 ^ 64) then Some x else None.
Proof. intros. unfold checked, umax. case_decide; case_decide; lia || done. Qed.

Lemma field_offset_ge base f : field_ok f → base <= field_offset base f.
Proof.
  intros (_ & _ & _ & Ha). unfold field_offset. destruct (Z.ltb_spec 0 (field_alignment f)); [|lia].
  destruct (round_up_spec base (field_alignment f)); lia.
Qed.

Lemma field_size_nonneg f : field_ok f → 0 <= field_size f.
Proof. unfold field_ok, in_width, field_size. intros (? & ? & ? & _). nia. Qed.

Lemma struct_layout_loop_eq fields : ∀ base,
  in_width 64 base → Forall field_ok fields →
  iree_struct_layout_loop base fields =
    if decide (layout_fits base fields) then Ok (layout_spec base fields)
    else Err IREE_STATUS_OUT_OF_RANGE.
Proof.
  induction fields as [|f fields IH]; intros base Hb Hf; [done|].
  apply Forall_cons in Hf as [Hf Hfs]. cbn [iree_struct_layout_loop].
  rewrite field_offset_eq by done. pose proof (field_offset_ge base f Hf).
  pose proof (field_size_nonneg f Hf). pose proof Hf as ((? & ?) & (? & ?) & (? & ?) & _).
  destruct (decide (field_offset base f < 2 ^ 64)) as [Ho|Ho];
    [|rewrite decide_False by (simpl; tauto); done].
  rewrite checked_mul_u64_eq, checked_u64_if by (unfold in_width; nia).
  destruct (decide (field_count0 f * field_count1 f < 2 ^ 64)) as [Hc|Hc];
    [|rewrite decide_False by (simpl; tauto); done].
  rewrite checked_mul_u64_eq, checked_u64_if by (unfold in_width; nia).
  change (field_count0 f * field_count1 f * field_element_size f) with (field_size f).
  destruct (decide (field_size f < 2 ^ 64)) as [Hs|Hs];
    [|rewrite decide_False by (simpl; tauto); done].
  destruct Hb. rewrite checked_add_u64_eq, checked_u64_if by (unfold in_width; lia).
  destruct (decide (field_offset base f + field_size f < 2 ^ 64)) as [Ht|Ht];
    [|rewrite decide_False by (simpl; tauto); done].
  rewrite IH by (done || (unfold in_width; lia)).
  destruct (decide (layout_fits _ fields)) as [Hl|Hl];
    [|rewrite decide_False by (simpl; tauto); done].
  rewrite decide_True by (simpl; tauto). cbn. by destruct (layout_spec _ fields).
Qed.

(** Consecutive fields neither overlap nor leave the total. *)
Inductive laid_out : Z → list iree_struct_field_t → list Z → Z → Prop :=
  | laid_out_nil base : laid_out base [] [] base
  | laid_out_cons base f fields offset offsets total :
      base <= offset → (0 < field_alignment f → (field_alignment f | offset)) →
      laid_out (offset + field_size f) fields offsets total →
      laid_out base (f :: fields) (offset :: offsets) total.

Lemma layout_spec_laid_out fields : ∀ base,
  Forall field_ok fields →
  laid_out base fields (layout_spec base fields).1 (layout_spec base fields).2.
Proof.
  induction fields as [|f fields IH]; intros base Hf; simpl; [constructor|].
  apply Forall_cons in Hf as [Hf Hfs].
  specialize (IH (field_offset base f + field_size f) Hfs).
  destruct (layout_spec _ fields) as [offsets total]. simpl in *.
  constructor; [by apply field_offset_ge| |done].
  intros Ha. unfold field_offset. apply Z.ltb_lt in Ha as Hb. rewrite Hb.
  by apply round_up_spec.
Qed.

Lemma checked_lcm_u64_eq a b :
  in_width 64 a → in_width 64 b →
  iree_math_checked_lcm_u64 a b = Some (checked 0 (umax 64) (Z.lcm a b)).
Proof.
  intros [Ha0 Ha] [Hb0 Hb]. unfold iree_math_checked_lcm_u64.
  destruct (Z.eqb_spec a 0) as [->|]; [done|].
  destruct (Z.eqb_spec b 0) as [->|]; [by rewrite Z.lcm_0_r|]. cbn [orb].
  rewrite gcd_u64_correct by (unfold in_width; lia). cbn [mbind option_bind]. f_equal.
  pose proof (Z.gcd_nonneg a b). assert (Z.gcd a b ≠ 0) by (rewrite Z.gcd_eq_0; lia).
  destruct (Z.gcd_divide_l a b) as [p Hp], (Z.gcd_divide_r a b) as [q Hq].
  unfold Z.lcm. set (g := Z.gcd a b) in *.
  assert (a / g = p) as -> by (rewrite Hp; by apply Z.div_mul).
  assert (b / g = q) as -> by (rewrite Hq; by apply Z.div_mul).
  assert (0 < p) by nia. assert (0 < q) by nia. rewrite checked_mul_u64_eq by (unfold in_width; nia).
  f_equal. rewrite Z.abs_eq by nia. rewrite Hp, Hq. ring.
Qed.

(** *** Page ranges *)

Lemma page_align_start_eq addr k :
  0 <= k < 64 → in_width 64 addr →
  iree_page_align_start addr (2 ^ k) = addr - addr mod 2 ^ k.
Proof.
  intros. unfold iree_page_align_start. rewrite align_mask by done.
  apply land_low_mask; [lia|done].
Qed.

Lemma page_align_end_eq addr k :
  0 <= k < 64 → 0 <= addr → addr + (2 ^ k - 1) < 2 ^ 64 →
  iree_page_align_end addr (2 ^ k) = round_up addr (2 ^ k).
Proof.
  intros Hk ? ?. pose proof (pow64_lt k Hk). unfold iree_page_align_end.
  rewrite align_mask, uadd_small, page_align_start_eq by (done || unfold in_width; lia).
  apply round_up_alt. lia.
Qed.

Lemma round_down_greatest x a m : 0 < a → (a | m) → m <= x → m <= x - x mod a.
Proof.
  intros Ha [q ->] Hle. pose proof (Z.div_mod x a ltac:(lia)).
  assert (q <= x / a) by (apply Z.div_le_lower_bound; lia). nia.
Qed.

Lemma round_down_divide x a : 0 < a → (a | x - x mod a).
Proof. intros. exists (x / a). pose proof (Z.div_mod x a ltac:(lia)). lia. Qed.

(** * Properties *)

(** Aligning to a power of two gives the least multiple not below the value when the
    padded value is representable, and 0 when it wraps: no other failure is possible. *)
Theorem host_align_exact value k :
  0 <= k < 64 → in_width 64 value →
  if decide (value + (2 ^ k - 1) < 2 ^ 64)
  then (2 ^ k | iree_host_align value (2 ^ k)) ∧ value <= iree_host_align value (2 ^ k) ∧
       ∀ m, (2 ^ k | m) → value <= m → iree_host_align value (2 ^ k) <= m
  else iree_host_align value (2 ^ k) = 0.
Proof.
  intros Hk Hv. pose proof (pow64_lt k Hk). case_decide.
  - rewrite iree_host_align_round_up by (done || apply Hv).
    destruct (round_up_spec value (2 ^ k)) as [? ?]; [lia|].
    split; [done|]. split; [lia|]. intros. by apply round_up_least; [lia|..].
  - apply iree_host_align_wraps; [done|done|lia].
Qed.

Lemma host_align_exact_witness :
  (16 | iree_host_align 17 16) ∧ 17 <= iree_host_align 17 16 ∧
  ∀ m, (16 | m) → 17 <= m → iree_host_align 17 16 <= m.
Proof. exact (host_align_exact 17 4 ltac:(lia) ltac:(done)). Defined.

(** [iree_host_size_next_power_of_two] returns the smallest power of two that is not
    below its argument, and saturates to the all-ones word exactly when there is none in
    64 bits. *)
Theorem next_power_of_two_least v :
  in_width 64 v →
  let r := iree_host_size_next_power_of_two v in
  (v <= 2 ^ 63 → is_pow2 r ∧ v <= r ∧ ∀ p, is_pow2 p → v <= p → r <= p) ∧
  (2 ^ 63 < v → r = umax 64 ∧ ∀ p, is_pow2 p → in_width 64 p → p < v).
Proof.
  intros Hv r. unfold r. rewrite next_power_of_two_eq by done. destruct Hv as [H0 H64].
  destruct (Z.leb_spec v 1) as [H1|H1].
  { split; [|lia]. intros _. split; [by exists 0|]. split; [done|].
    intros p Hp%is_pow2_pos. lia. }
  destruct (Z.ltb_spec (2 ^ 63) v) as [H63|H63]; (split; [intros Hle|intros Hgt]); try lia.
  - split; [done|]. intros p (k & Hk & ->) [_ Hp]. apply Z.pow_lt_mono_r_iff in Hp; [|lia..].
    pose proof (Z.pow_le_mono_r 2 k 63). lia.
  - split; [exists (Z.log2_up v); split; [apply Z.log2_up_nonneg|done]|].
    split; [apply Z.log2_up_spec; lia|]. intros. by apply log2_up_least.
Qed.

Lemma next_power_of_two_least_witness :
  is_pow2 (iree_host_size_next_power_of_two 5) ∧
  iree_host_size_next_power_of_two 5 = 8 ∧
  iree_host_size_next_power_of_two (2 ^ 63 + 1) = umax 64.
Proof.
  split; [|split].
  - exact (proj1 (proj1 (next_power_of_two_least 5 ltac:(done)) ltac:(lia))).
  - vm_compute. done.
  - exact (proj1 (proj2 (next_power_of_two_least (2 ^ 63 + 1) ltac:(done)) ltac:(lia))).
Defined.



(** The portable 128-bit path of [iree_math_round_mul_div_u64] (schoolbook
    multiplication and 64 rounds of restoring division) agrees with the [__uint128_t]
    path, and both return the product rounded half up exactly when the denominator is
    nonzero and the result fits 64 bits. *)
Theorem round_mul_div_paths_agree v n d :
  in_width 64 v → in_width 64 n → in_width 64 d →
  iree_math_round_mul_div_u64_portable v n d = iree_math_round_mul_div_u64 v n d ∧
  iree_math_round_mul_div_u64 v n d =
    if decide (d ≠ 0 ∧ (v * n + d / 2) / d < 2 ^ 64)
    then Some ((v * n + d / 2) / d) else None.
Proof.
  intros. rewrite round_mul_div_portable_correct by done.
  by rewrite round_mul_div_int128_correct by done.
Qed.

Lemma round_mul_div_paths_agree_witness :
  iree_math_round_mul_div_u64_portable (2 ^ 63) 3 4 =
    iree_math_round_mul_div_u64 (2 ^ 63) 3 4 ∧
  iree_math_round_mul_div_u64 (2 ^ 63) 3 4 = Some (3 * 2 ^ 61).
Proof.
  split.
  - exact (proj1 (round_mul_div_paths_agree (2 ^ 63) 3 4 ltac:(done) ltac:(done) ltac:(done))).
  - vm_compute. done.
Defined.

(** [iree_struct_layout_calculate] succeeds exactly when no quantity of the layout
    overflows 64 bits; the offsets it then records are the ones of the unbounded layout,
    aligned as asked, with every field after the end of the previous one and inside the
    total; otherwise it reports OUT_OF_RANGE. *)
Theorem struct_layout_exact base fields :
  in_width 64 base → Forall field_ok fields →
  iree_struct_layout_calculate base fields =
    (if decide (layout_fits base fields) then Ok (layout_spec base fields)
     else Err IREE_STATUS_OUT_OF_RANGE) ∧
  laid_out base fields (layout_spec base fields).1 (layout_spec base fields).2.
Proof.
  intros. split; [by apply struct_layout_loop_eq|by apply layout_spec_laid_out].
Qed.

(** A concrete field list: an 8-aligned header word and eight unaligned 16-byte entries. *)
Definition sample_fields : list iree_struct_field_t :=
  [ {| field_count0 := 1; field_count1 := 1; field_element_size := 8; field_alignment := 8 |};
    {| field_count0 := 8; field_count1 := 1; field_element_size := 16; field_alignment := 0 |} ].

Lemma struct_layout_exact_witness :
  iree_struct_layout_calculate 40 sample_fields = Ok ([40; 48], 176).
Proof.
  etransitivity; [refine (proj1 (struct_layout_exact 40 sample_fields _ _));
    [done|apply Forall_cons; split; [|apply Forall_singleton];
      (do 3 (split; [done|])); [right; by exists 3|by left]]|].
  vm_compute. done.
Defined.

(** The Euclid loops terminate within 129 iterations on 64-bit words and compute the
    greatest common divisor; the checked least common multiple is exact. *)
Theorem gcd_lcm_exact a b :
  in_width 64 a → in_width 64 b →
  iree_math_gcd_u64 a b = Some (Z.gcd a b) ∧
  iree_device_size_gcd gcd_fuel a b = Some (Z.gcd a b) ∧
  iree_math_checked_lcm_u64 a b = Some (checked 0 (umax 64) (Z.lcm a b)).
Proof.
  intros Ha Hb. split; [by apply gcd_u64_correct|]. split; [|by apply checked_lcm_u64_eq].
  by apply gcd_recursion_correct.
Qed.

Lemma gcd_lcm_exact_witness :
  iree_math_gcd_u64 48 18 = Some 6 ∧ iree_math_checked_lcm_u64 48 18 = Some (Some 144).
Proof.
  split.
  - exact (proj1 (gcd_lcm_exact 48 18 ltac:(done) ltac:(done))).
  - etransitivity; [exact (proj2 (proj2 (gcd_lcm_exact 48 18 ltac:(done) ltac:(done))))|].
    vm_compute. done.
Defined.

(** When the padded end of the range is representable, [iree_page_align_range]
    returns the smallest page-aligned range that covers the byte range: whole pages,
    starting at or before it, ending at or after it, inside every other such range. *)
Theorem page_align_range_least_cover base offset length k start len :
  0 <= k < 64 → 0 <= base → 0 <= offset → 0 <= length →
  base + offset + length + (2 ^ k - 1) < 2 ^ 64 →
  iree_page_align_range base
    {| byte_range_offset := offset; byte_range_length := length |} (2 ^ k) = (start, len) →
  (2 ^ k | start) ∧ (2 ^ k | len) ∧
  start <= base + offset ∧ base + offset + length <= start + len ∧
  ∀ s e, (2 ^ k | s) → (2 ^ k | e) → s <= base + offset → base + offset + length <= e →
    s <= start ∧ start + len <= e.
Proof.
  intros Hk ? ? ? ?. pose proof (pow64_lt k Hk).
  unfold iree_page_align_range. cbn [byte_range_offset byte_range_length].
  rewrite (uadd_small 64 base offset) by lia.
  rewrite (uadd_small 64 (base + offset)) by lia.
  rewrite page_align_start_eq, page_align_end_eq by (done || unfold in_width; lia).
  set (lo := base + offset) in *. set (hi := lo + length) in *. intros [= <- <-].
  pose proof (Z.mod_pos_bound lo (2 ^ k) ltac:(lia)).
  pose proof (Z.mod_le lo (2 ^ k) ltac:(lia) ltac:(lia)).
  destruct (round_up_spec hi (2 ^ k)) as [Hdiv ?]; [lia|].
  assert (round_up hi (2 ^ k) < 2 ^ 64) by (unfold hi, lo in *; lia).
  rewrite usub_small by (unfold in_width; lia).
  pose proof (round_down_divide lo (2 ^ k) ltac:(lia)) as Hlo.
  split; [done|]. split; [by apply Z.divide_sub_r|]. split; [lia|]. split; [lia|].
  intros s e Hs He ? ?. split; [apply round_down_greatest; (done || lia)|].
  enough (round_up hi (2 ^ k) <= e) by lia. by apply round_up_least; [lia|..].
Qed.

Lemma page_align_range_least_cover_witness :
  let '(start, len) := iree_page_align_range 4096
    {| byte_range_offset := 1; byte_range_length := 4096 |} 4096 in
  (4096 | start) ∧ (4096 | len) ∧ start <= 4097 ∧ 8193 <= start + len.
Proof.
  destruct (iree_page_align_range _ _ _) as [start len] eqn:E.
  destruct (page_align_range_least_cover 4096 1 4096 12 start len
    ltac:(lia) ltac:(lia) ltac:(lia) ltac:(lia) ltac:(lia) E) as (? & ? & ? & ? & _).
  split; [done|]. split; [done|]. split; lia.
Defined.

(** [iree_align_byte_range_to_pages] rounds the offset up, so for every byte range
    with an unaligned offset the first byte lies before the page range it returns. *)
Theorem byte_range_to_pages_drops_start offset length k :
  0 <= k < 64 → 0 <= offset → offset + (2 ^ k - 1) < 2 ^ 64 → offset mod 2 ^ k ≠ 0 →
  offset < page_range_offset (iree_align_byte_range_to_pages
    {| byte_range_offset := offset; byte_range_length := length |} (2 ^ k)).
Proof.
  intros Hk ? ? Hmod. pose proof (pow64_lt k Hk). simpl.
  rewrite iree_host_align_round_up by done.
  destruct (round_up_spec offset (2 ^ k)) as [Hdiv ?]; [lia|].
  enough (round_up offset (2 ^ k) ≠ offset) by lia. intros E. rewrite E in Hdiv.
  apply Hmod. by apply Z.mod_divide; [lia|].
Qed.

Lemma byte_range_to_pages_drops_start_witness :
  iree_align_byte_range_to_pages {| byte_range_offset := 1; byte_range_length := 4096 |} 4096
    = {| page_range_offset := 4096; page_range_length := 4096 |} ∧
  1 < page_range_offset (iree_align_byte_range_to_pages
    {| byte_range_offset := 1; byte_range_length := 4096 |} 4096).
Proof.
  split; [vm_compute; done|].
  exact (byte_range_to_pages_drops_start 1 4096 12 ltac:(lia) ltac:(lia) ltac:(lia) ltac:(done)).
Defined.
