(* ===== verification/BitWords.v ===== *)
(** * Arrays of 64-bit words as sets of bits

    Lemmas shared by the bitmap of [iree/base/bitmap.c] and the atomic bitmaps of the
    fixed-block allocator: bit [i] lives in word [i / 64] at position [i mod 64]. *)

From S2P Require Import Prelude BaseMath.
From stdpp Require Import base numbers list list_numbers.

Local Open Scope Z_scope.
Local Open Scope machine_scope.

(** [words[i]]; reads out of range are 0 in the model, and excluded by the theorems. *)
Definition word_at (words : list Z) (i : Z) : Z := default 0 (words !! Z.to_nat i).

Definition alter_word (f : Z → Z) (i : Z) (words : list Z) : list Z := alter f (Z.to_nat i) words.

Definition bit_at (words : list Z) (i : Z) : bool := Z.testbit (word_at words (i / 64)) (i mod 64).

Definition words_ok (words : list Z) : Prop := Forall (in_width 64) words.

(** Bits of the array. *)
Definition bit_size (words : list Z) : Z := 64 * Z.of_nat (length words).

Lemma index_split i : i = 64 * (i / 64) + i mod 64 ∧ 0 <= i mod 64 < 64.
Proof. split; [apply Z.div_mod; lia|apply Z.mod_pos_bound; lia]. Qed.

Lemma index_join q r : 0 <= r < 64 → (64 * q + r) / 64 = q ∧ (64 * q + r) mod 64 = r.
Proof.
  intros Hr. split.
  - by rewrite Z.mul_comm, Z.div_add_l, Z.div_small, Z.add_0_r by lia.
  - by rewrite Z.add_comm, Z.mul_comm, Z.mod_add, Z.mod_small by lia.
Qed.

Lemma word_index words i : 0 <= i < bit_size words → 0 <= i / 64 < Z.of_nat (length words).
Proof. unfold bit_size. intros. pose proof (index_split i). lia. Qed.

Lemma word_at_width words i : words_ok words → in_width 64 (word_at words i).
Proof.
  intros Hw. unfold word_at. destruct (words !! _) eqn:E; [|done]. by apply (Forall_lookup_1 _ _ _ _ Hw E).
Qed.

Lemma length_alter_word f i words : length (alter_word f i words) = length words.
Proof. apply length_alter. Qed.

Lemma bit_size_alter f i words : bit_size (alter_word f i words) = bit_size words.
Proof. unfold bit_size. by rewrite length_alter_word. Qed.

Lemma word_at_alter f i j words :
  0 <= i < Z.of_nat (length words) → 0 <= j →
  word_at (alter_word f i words) j = if decide (i = j) then f (word_at words j) else word_at words j.
Proof.
  intros Hi Hj. unfold word_at, alter_word. case_decide as E.
  - subst j. destruct (lookup_lt_is_Some_2 words (Z.to_nat i)) as [w Ew]; [lia|].
    rewrite list_lookup_alter_eq, Ew. done.
  - rewrite list_lookup_alter_ne by lia. done.
Qed.

Lemma alter_word_ok f i words :
  words_ok words → (∀ w, in_width 64 w → in_width 64 (f w)) → words_ok (alter_word f i words).
Proof.
  intros Hw Hf. apply Forall_forall. intros w [k Hk]%list_elem_of_lookup. unfold alter_word in Hk.
  destruct (decide (k = Z.to_nat i)) as [->|Hne].
  - rewrite list_lookup_alter_eq in Hk. destruct (words !! _) as [v|] eqn:E; [|done].
    injection Hk as <-. apply Hf. by apply (Forall_lookup_1 _ _ _ _ Hw E).
  - rewrite list_lookup_alter_ne in Hk by done. by apply (Forall_lookup_1 _ _ _ _ Hw Hk).
Qed.

(** A change of one word by a bitwise function. *)
Lemma bit_at_alter f i j words (g : Z → bool) :
  0 <= i < Z.of_nat (length words) → 0 <= j →
  (∀ k, 0 <= k < 64 → Z.testbit (f (word_at words i)) k = g k) →
  bit_at (alter_word f i words) j = if decide (j / 64 = i) then g (j mod 64) else bit_at words j.
Proof.
  intros Hi Hj Hg. unfold bit_at. pose proof (index_split j) as [_ ?].
  rewrite word_at_alter by (done || apply Z.div_pos; lia).
  destruct (decide (i = j / 64)) as [<-|]; case_decide; try done. by apply Hg.
Qed.

Lemma bit_mask_testbit k i : 0 <= k < 64 → 0 <= i < 64 → Z.testbit (ushl 64 1 k) i = bool_decide (i = k).
Proof.
  intros Hk Hi. rewrite ushl_testbit by lia. rewrite (proj2 (Z.ltb_lt i 64)) by lia. simpl.
  change 1 with (2 ^ 0). rewrite pow2_testbit by lia. by do 2 case_bool_decide; lia || done.
Qed.

Lemma bit_mask_width k : in_width 64 (ushl 64 1 k).
Proof. by apply wrap_in_width. Qed.

(** Setting and clearing one bit. *)
Lemma bit_at_set words i j :
  0 <= i < bit_size words → 0 <= j →
  bit_at (alter_word (λ w, Z.lor w (ushl 64 1 (i mod 64))) (i / 64) words) j = bool_decide (j = i) || bit_at words j.
Proof.
  intros Hi Hj. pose proof (word_index words i Hi) as Hw. pose proof (index_split i). pose proof (index_split j).
  rewrite (bit_at_alter _ _ _ _ (λ k, Z.testbit (word_at words (i / 64)) k || bool_decide (k = i mod 64))); [|done|done|].
  - unfold bit_at. case_decide as E.
    + rewrite E, orb_comm. f_equal. apply bool_decide_ext. lia.
    + rewrite bool_decide_eq_false_2; [done|]. intros ->. done.
  - intros k Hk. rewrite Z.lor_spec, bit_mask_testbit by lia. done.
Qed.

Lemma bit_at_clear words i j :
  0 <= i < bit_size words → 0 <= j →
  bit_at (alter_word (λ w, Z.land w (unot 64 (ushl 64 1 (i mod 64)))) (i / 64) words) j =
    negb (bool_decide (j = i)) && bit_at words j.
Proof.
  intros Hi Hj. pose proof (word_index words i Hi) as Hw. pose proof (index_split i). pose proof (index_split j).
  rewrite (bit_at_alter _ _ _ _ (λ k, Z.testbit (word_at words (i / 64)) k && negb (bool_decide (k = i mod 64)))); [|done|done|].
  - unfold bit_at. case_decide as E.
    + rewrite E, andb_comm. f_equal. f_equal. apply bool_decide_ext. lia.
    + rewrite bool_decide_eq_false_2; [done|]. intros ->. done.
  - intros k Hk. rewrite Z.land_spec, unot_testbit, bit_mask_testbit by lia.
    by rewrite (proj2 (Z.ltb_lt k 64)) by lia.
Qed.

(** The test of one bit by a mask. *)
Lemma mask_test words i :
  0 <= i → negb (Z.land (word_at words (i / 64)) (ushl 64 1 (i mod 64)) =? 0) = bit_at words i.
Proof.
  intros Hi. pose proof (index_split i) as [_ Hr]. unfold bit_at. set (w := word_at words (i / 64)).
  destruct (Z.eqb_spec (Z.land w (ushl 64 1 (i mod 64))) 0) as [E|NE]; simpl.
  - assert (Z.testbit (Z.land w (ushl 64 1 (i mod 64))) (i mod 64) = false) as Hb by by rewrite E, Z.bits_0.
    rewrite Z.land_spec, bit_mask_testbit, bool_decide_eq_true_2, andb_true_r in Hb by lia. done.
  - destruct (Z.testbit w (i mod 64)) eqn:Hb; [done|]. exfalso. apply NE, word_ext. intros k Hk.
    rewrite Z.land_spec, Z.bits_0. destruct (Z.lt_ge_cases k 64) as [Hlt|Hge].
    + rewrite bit_mask_testbit by lia. case_bool_decide; [subst; by rewrite Hb|apply andb_false_r].
    + by rewrite (testbit_above 64 ltac:(lia) (ushl 64 1 _)), andb_false_r by (done || apply bit_mask_width).
Qed.

(** The lowest set bit of a word. *)
Lemma lowest_set word :
  0 < word → in_width 64 word →
  let k := iree_math_count_trailing_zeros_u64 word in
  0 <= k < 64 ∧ Z.testbit word k = true ∧ ∀ j, 0 <= j < k → Z.testbit word j = false.
Proof.
  intros Hpos Hw. cbv zeta. rewrite count_trailing_zeros_u64_eq by done.
  pose proof (ctz_nonneg word). pose proof (ctz_bound 64 word ltac:(lia) Hpos Hw).
  split; [lia|]. split; [by apply ctz_testbit|]. intros j Hj. apply ctz_low; [done|lia].
Qed.

Lemma word_zero_iff word : in_width 64 word → word = 0 ↔ ∀ k, 0 <= k < 64 → Z.testbit word k = false.
Proof.
  intros Hw. split; [intros -> k _; apply Z.bits_0|]. intros Hb. apply word_ext. intros k Hk. rewrite Z.bits_0.
  destruct (Z.lt_ge_cases k 64); [apply Hb; lia|]. by apply (testbit_above 64).
Qed.

(** ** Counting *)

(** The number of positions of [lo, lo + n) that satisfy [f]. *)
Fixpoint count_from (f : Z → bool) (lo : Z) (n : nat) : Z :=
  match n with
  | O => 0
  | S n => Z.b2z (f lo) + count_from f (lo + 1) n
  end.

Lemma count_from_bounds f n : ∀ lo, 0 <= count_from f lo n <= Z.of_nat n.
Proof.
  induction n as [|n IH]; intros lo; [done|]. cbn [count_from]. specialize (IH (lo + 1)).
  destruct (f lo); cbn [Z.b2z]; lia.
Qed.

Lemma count_from_app f m n : ∀ lo, count_from f lo (m + n) = count_from f lo m + count_from f (lo + Z.of_nat m) n.
Proof.
  induction m as [|m IH]; intros lo; [by rewrite Z.add_0_r|]. cbn [Nat.add count_from]. rewrite IH.
  replace (lo + 1 + Z.of_nat m) with (lo + Z.of_nat (S m)) by lia. lia.
Qed.

Lemma count_from_ext f g n : ∀ lo lo',
  (∀ k, 0 <= k < Z.of_nat n → f (lo + k) = g (lo' + k)) → count_from f lo n = count_from g lo' n.
Proof.
  induction n as [|n IH]; intros lo lo' Hk; [done|]. cbn [count_from]. f_equal.
  - rewrite <- (Z.add_0_r lo), <- (Z.add_0_r lo'). by rewrite Hk by lia.
  - apply IH. intros k Hk'. rewrite <- !Z.add_assoc. apply Hk. lia.
Qed.

Lemma count_from_zero f n : ∀ lo, count_from f lo n = 0 ↔ ∀ j, lo <= j < lo + Z.of_nat n → f j = false.
Proof.
  induction n as [|n IH]; intros lo; cbn [count_from]; [split; [intros _ j ?; lia|done]|].
  pose proof (count_from_bounds f n (lo + 1)). split.
  - intros E j Hj. destruct (f lo) eqn:El; cbn [Z.b2z] in E; [lia|]. destruct (decide (j = lo)) as [->|]; [done|].
    apply (proj1 (IH (lo + 1))); lia.
  - intros Hj. rewrite (Hj lo) by lia. cbn [Z.b2z]. apply IH. intros j Hj'. apply Hj. lia.
Qed.

(** Changing one position changes the count by it. *)
Lemma count_from_update f g i n : ∀ lo,
  (∀ j, j ≠ i → g j = f j) → lo <= i < lo + Z.of_nat n →
  count_from g lo n = count_from f lo n - Z.b2z (f i) + Z.b2z (g i).
Proof.
  induction n as [|n IH]; intros lo Hne Hi; [lia|]. cbn [count_from]. destruct (decide (i = lo)) as [->|].
  - rewrite (count_from_ext g f n (lo + 1) (lo + 1)); [lia|]. intros k Hk. apply Hne. lia.
  - rewrite (IH (lo + 1)) by (done || lia). rewrite (Hne lo) by done. lia.
Qed.
