(* ===== verification/Bitmap.v ===== *)
(** * Bitmaps

    [iree/base/bitmap.c]: bit sets over 64-bit words.  Operations on spans and searches are
    loops over words with fuel; the theorems show that the fuel, one step per word (or per
    bit for spans of unset bits), suffices and relate every operation to the set of bits. *)

From S2P Require Import Prelude BaseMath BitWords.
From stdpp Require Import base numbers list list_numbers.

Local Open Scope Z_scope.
Local Open Scope machine_scope.

(** ** Data *)

Definition IREE_BITMAP_BITS_PER_WORD : Z := 64.

Record iree_bitmap_t := mk_bitmap {
  bm_bit_count : Z;
  bm_words : list Z;
}.

Definition iree_bitmap_calculate_words (bit_count : Z) : Z :=
  iree_host_size_ceil_div bit_count IREE_BITMAP_BITS_PER_WORD.

Definition set_words (words : list Z) (b : iree_bitmap_t) : iree_bitmap_t := mk_bitmap (bm_bit_count b) words.

(** The macros. *)
Definition IREE_FFS_U64 (v : Z) : Z := if v =? 0 then -1 else iree_math_count_trailing_zeros_u64 v.
Definition BIT_OFFSET_TO_WORD_MASK (bit_offset : Z) : Z := ushl 64 1 (bit_offset mod IREE_BITMAP_BITS_PER_WORD).
Definition BIT_OFFSET_TO_WORD_INDEX (bit_offset : Z) : Z := bit_offset / IREE_BITMAP_BITS_PER_WORD.
Definition BIT_PREFIX_WORD_MASK (bit_offset : Z) : Z :=
  ushl 64 (umax 64) (Z.land bit_offset (IREE_BITMAP_BITS_PER_WORD - 1)).
Definition BIT_SUFFIX_WORD_MASK (bit_offset : Z) : Z :=
  Z.shiftr (umax 64) (Z.land (0 -64 bit_offset) (IREE_BITMAP_BITS_PER_WORD - 1)).

(** [__builtin_popcountll], and the portable code beside it. *)
Definition iree_math_count_ones_u64 (n : Z) : Z :=
  count_from (Z.testbit n) 0 64.

Definition iree_math_count_ones_u32_portable (n : Z) : Z :=
  let n := usub 32 n (Z.land (Z.shiftr n 1) 0x55555555) in
  let n := uadd 32 (Z.land (Z.shiftr n 2) 0x33333333) (Z.land n 0x33333333) in
  Z.shiftr (umul 32 (Z.land (uadd 32 n (Z.shiftr n 4)) 0x0F0F0F0F) 0x01010101) 24.

Definition iree_math_count_ones_u64_portable (n : Z) : Z :=
  iree_math_count_ones_u32_portable (Z.shiftr n 32) + iree_math_count_ones_u32_portable (Z.land n 0xFFFFFFFF).

(** ** Counting *)

Definition iree_bitmap_any_set (b : iree_bitmap_t) : bool :=
  let full_words := bm_bit_count b / IREE_BITMAP_BITS_PER_WORD in
  existsb (λ i, negb (word_at (bm_words b) i =? 0)) (seqZ 0 full_words) ||
  (negb (bm_bit_count b mod IREE_BITMAP_BITS_PER_WORD =? 0) &&
   negb (Z.land (word_at (bm_words b) full_words) (BIT_SUFFIX_WORD_MASK (bm_bit_count b)) =? 0)).

Definition iree_bitmap_none_set (b : iree_bitmap_t) : bool := negb (iree_bitmap_any_set b).

Definition iree_bitmap_count (b : iree_bitmap_t) : Z :=
  let full_words := bm_bit_count b / IREE_BITMAP_BITS_PER_WORD in
  let count := foldl (λ acc i, acc +64 iree_math_count_ones_u64 (word_at (bm_words b) i)) 0 (seqZ 0 full_words) in
  let tail_bits := bm_bit_count b mod IREE_BITMAP_BITS_PER_WORD in
  if 0 <? tail_bits then
    let tail_mask := ushl 64 1 tail_bits -64 1 in
    count +64 iree_math_count_ones_u64 (Z.land (word_at (bm_words b) full_words) tail_mask)
  else count.

(** ** Single bits *)

Definition iree_bitmap_test (b : iree_bitmap_t) (bit_index : Z) : bool :=
  negb (Z.land 1 (Z.shiftr (word_at (bm_words b) (BIT_OFFSET_TO_WORD_INDEX bit_index))
                    (Z.land bit_index (IREE_BITMAP_BITS_PER_WORD - 1))) =? 0).

Definition iree_bitmap_set (b : iree_bitmap_t) (bit_index : Z) : iree_bitmap_t :=
  let word_mask := BIT_OFFSET_TO_WORD_MASK bit_index in
  set_words (alter_word (λ w, Z.lor w word_mask) (BIT_OFFSET_TO_WORD_INDEX bit_index) (bm_words b)) b.

Definition iree_bitmap_reset (b : iree_bitmap_t) (bit_index : Z) : iree_bitmap_t :=
  let word_mask := BIT_OFFSET_TO_WORD_MASK bit_index in
  set_words (alter_word (λ w, Z.land w (unot 64 word_mask)) (BIT_OFFSET_TO_WORD_INDEX bit_index) (bm_words b)) b.

(** ** Spans *)

Definition signed64 (x : Z) : Z := if x <? 2 ^ 63 then x else x - 2 ^ 64.

(** [*word |= mask] and [*word &= ~mask] *)
Definition or_mask (mask word : Z) : Z := Z.lor word mask.
Definition and_not_mask (mask word : Z) : Z := Z.land word (unot 64 mask).

(** The loop over full words, then the remaining bits of the last word. *)
Fixpoint span_loop (fuel : nat) (apply : Z → Z → Z) (bit_end word_index word_mask bit_length bit_chunk : Z)
    (words : list Z) : option (list Z) :=
  if 0 <=? signed64 bit_length - bit_chunk then
    match fuel with
    | O => None
    | S fuel =>
        span_loop fuel apply bit_end (word_index + 1) (umax 64) (bit_length -64 bit_chunk)
          IREE_BITMAP_BITS_PER_WORD (alter_word (apply word_mask) word_index words)
    end
  else if 0 <? bit_length then
    Some (alter_word (apply (Z.land word_mask (BIT_SUFFIX_WORD_MASK bit_end))) word_index words)
  else Some words.

Definition bitmap_span (apply : Z → Z → Z) (b : iree_bitmap_t) (bit_index bit_length : Z) : option iree_bitmap_t :=
  if bit_length =? 0 then Some b
  else
    words ← span_loop (length (bm_words b)) apply (bit_index +64 bit_length) (BIT_OFFSET_TO_WORD_INDEX bit_index)
              (BIT_PREFIX_WORD_MASK bit_index) bit_length
              (IREE_BITMAP_BITS_PER_WORD - bit_index mod IREE_BITMAP_BITS_PER_WORD) (bm_words b);
    Some (set_words words b).

Definition iree_bitmap_set_span (b : iree_bitmap_t) (bit_index bit_length : Z) : option iree_bitmap_t :=
  bitmap_span or_mask b bit_index bit_length.

Definition iree_bitmap_reset_span (b : iree_bitmap_t) (bit_index bit_length : Z) : option iree_bitmap_t :=
  bitmap_span and_not_mask b bit_index bit_length.

(** [memset] of the words that hold the bits. *)
Definition fill_words (value : Z) (b : iree_bitmap_t) : iree_bitmap_t :=
  let n := Z.to_nat (iree_bitmap_calculate_words (bm_bit_count b)) in
  set_words (replicate n value ++ drop n (bm_words b)) b.

Definition iree_bitmap_set_all (b : iree_bitmap_t) : iree_bitmap_t := fill_words (umax 64) b.
Definition iree_bitmap_reset_all (b : iree_bitmap_t) : iree_bitmap_t := fill_words 0 b.

(** ** Searches *)

(** The scan of the words [view words[i]], where [view] is the identity or [~]. *)
Fixpoint scan_words (fuel : nat) (view : Z → Z) (words : list Z) (bit_count word_index word : Z) : option Z :=
  if word =? 0 then
    if bit_count <=? (word_index + 1) * IREE_BITMAP_BITS_PER_WORD then Some bit_count
    else
      match fuel with
      | O => None
      | S fuel => scan_words fuel view words bit_count (word_index + 1) (view (word_at words (word_index + 1)))
      end
  else Some (iree_min (word_index * IREE_BITMAP_BITS_PER_WORD + IREE_FFS_U64 word) bit_count).

Definition find_next (view : Z → Z) (words : list Z) (bit_count bit_offset : Z) : option Z :=
  if bit_count <=? bit_offset then Some bit_count
  else
    let word_mask := BIT_PREFIX_WORD_MASK bit_offset in
    let word_index := BIT_OFFSET_TO_WORD_INDEX bit_offset in
    scan_words (length words) view words bit_count word_index (Z.land (view (word_at words word_index)) word_mask).

Definition iree_bitmap_find_next_set_bit (words : list Z) (bit_count bit_offset : Z) : option Z :=
  find_next (λ w, w) words bit_count bit_offset.
Definition iree_bitmap_find_next_unset_bit (words : list Z) (bit_count bit_offset : Z) : option Z :=
  find_next (unot 64) words bit_count bit_offset.

Definition iree_bitmap_find_first_set (b : iree_bitmap_t) (bit_offset : Z) : option Z :=
  iree_bitmap_find_next_set_bit (bm_words b) (bm_bit_count b) bit_offset.
Definition iree_bitmap_find_first_unset (b : iree_bitmap_t) (bit_offset : Z) : option Z :=
  iree_bitmap_find_next_unset_bit (bm_words b) (bm_bit_count b) bit_offset.

Fixpoint unset_span_loop (fuel : nat) (b : iree_bitmap_t) (bit_offset bit_length : Z) : option Z :=
  match fuel with
  | O => None
  | S fuel =>
      bit_index ← iree_bitmap_find_next_unset_bit (bm_words b) (bm_bit_count b) bit_offset;
      let bit_end := bit_index +64 bit_length in
      if bm_bit_count b <? bit_end then Some (bm_bit_count b)
      else
        next_index ← iree_bitmap_find_next_set_bit (bm_words b) bit_end bit_index;
        if next_index <? bit_end then unset_span_loop fuel b (next_index +64 1) bit_length
        else Some (iree_min bit_index (bm_bit_count b))
  end.

Definition iree_bitmap_find_first_unset_span (b : iree_bitmap_t) (bit_offset bit_length : Z) : option Z :=
  unset_span_loop (S (Z.to_nat (bm_bit_count b))) b bit_offset bit_length.

(** ** The set of bits *)

Record bitmap_ok (b : iree_bitmap_t) : Prop := {
  bo_words : words_ok (bm_words b);
  bo_count : 0 <= bm_bit_count b <= bit_size (bm_words b);
  bo_size : bit_size (bm_words b) < 2 ^ 63;
}.

Abbreviation member b i := (bit_at (bm_words b) i).

Lemma land_63 i : 0 <= i → Z.land i (IREE_BITMAP_BITS_PER_WORD - 1) = i mod 64.
Proof. intros. change (IREE_BITMAP_BITS_PER_WORD - 1) with (2 ^ 6 - 1). by rewrite land_ones_mod by lia. Qed.

Lemma bitmap_test_eq b i : 0 <= i → iree_bitmap_test b i = member b i.
Proof.
  intros Hi. unfold iree_bitmap_test, bit_at. rewrite land_63 by done.
  change (BIT_OFFSET_TO_WORD_INDEX i) with (i / 64). set (w := word_at _ _).
  rewrite Z.land_comm. change 1 with (2 ^ 1 - 1) at 1. rewrite land_ones_mod by lia.
  rewrite <- Z.bit0_mod, Z.shiftr_spec by lia. rewrite Z.add_0_l. by destruct (Z.testbit w (i mod 64)).
Qed.

(** ** Spans *)

Lemma prefix_mask_testbit i k : 0 <= i → 0 <= k < 64 → Z.testbit (BIT_PREFIX_WORD_MASK i) k = (i mod 64 <=? k).
Proof.
  intros Hi Hk. unfold BIT_PREFIX_WORD_MASK. rewrite land_63 by done. pose proof (index_split i) as [_ ?].
  rewrite ushl_testbit by lia. rewrite (proj2 (Z.ltb_lt k 64)) by lia. simpl. unfold umax.
  destruct (Z.leb_spec (i mod 64) k); [rewrite ones_testbit by lia; lia|by rewrite Z.testbit_neg_r by lia].
Qed.

Lemma suffix_mask_testbit i k :
  0 <= i < 2 ^ 64 → i mod 64 ≠ 0 → 0 <= k < 64 → Z.testbit (BIT_SUFFIX_WORD_MASK i) k = (k <? i mod 64).
Proof.
  intros Hi Hne Hk. unfold BIT_SUFFIX_WORD_MASK. rewrite land_63 by (apply Z.mod_pos_bound; lia).
  pose proof (index_split i) as [_ ?].
  assert ((0 -64 i) mod 64 = 64 - i mod 64) as ->.
  { assert (i ≠ 0) by (intros ->; done). pose proof (index_split i) as [Ei _].
    assert (0 -64 i = 2 ^ 64 - i) as -> by (symmetry; apply (Z.mod_unique (0 - i) (2 ^ 64) (-1)); lia).
    symmetry. apply (Z.mod_unique (2 ^ 64 - i) 64 (2 ^ 58 - i / 64 - 1)); lia. }
  rewrite Z.shiftr_spec by lia. unfold umax. rewrite ones_testbit by lia.
  destruct (Z.ltb_spec (k + (64 - i mod 64)) 64), (Z.ltb_spec k (i mod 64)); lia || done.
Qed.

(** Bitwise application of a mask. *)
Class MaskOp (apply : Z → Z → Z) (op : bool → bool → bool) : Prop := {
  mo_testbit mask word k : 0 <= k < 64 →
    Z.testbit (apply mask word) k = op (Z.testbit mask k) (Z.testbit word k);
  mo_width mask word : in_width 64 mask → in_width 64 word → in_width 64 (apply mask word);
  mo_false b : op false b = b;
}.

#[export] Instance or_mask_op : MaskOp or_mask orb.
Proof.
  split; [|by intros; apply lor_in_width|done]. intros. unfold or_mask. by rewrite Z.lor_spec, orb_comm.
Qed.

#[export] Instance and_not_mask_op : MaskOp and_not_mask (λ m w, negb m && w).
Proof.
  split; [|intros m w Hm Hw; apply land_in_width; [lia|done|apply unot_in_width; lia]|done].
  intros. unfold and_not_mask. rewrite Z.land_spec, unot_testbit, (proj2 (Z.ltb_lt k 64)) by lia. by rewrite andb_comm.
Qed.

(** Applying a mask to one word of the array. *)
Lemma bit_at_mask apply op `{!MaskOp apply op} mask i words j (m : Z → bool) :
  0 <= i < Z.of_nat (length words) → 0 <= j →
  (∀ k, 0 <= k < 64 → Z.testbit mask k = m (64 * i + k)) →
  bit_at (alter_word (apply mask) i words) j = op (bool_decide (j / 64 = i) && m j) (bit_at words j).
Proof.
  intros Hi Hj Hm. pose proof (index_split j) as [Ej Hr].
  rewrite (bit_at_alter _ _ _ _ (λ k, op (m (64 * i + k)) (Z.testbit (word_at words i) k))); [|done|done|].
  - case_decide as E.
    + rewrite bool_decide_eq_true_2 by done. simpl. unfold bit_at. rewrite E. do 2 f_equal. lia.
    + rewrite bool_decide_eq_false_2 by done. simpl. by rewrite mo_false.
  - intros k Hk. by rewrite mo_testbit, Hm by done.
Qed.

(** What is left of a span within its last word. *)
Definition spanned (op : bool → bool → bool) (lo hi : Z) (words words' : list Z) : Prop :=
  words_ok words' ∧ length words' = length words ∧
  ∀ j, 0 <= j → bit_at words' j = op (bool_decide (lo <= j < hi)) (bit_at words j).

Lemma span_tail apply op `{!MaskOp apply op} start len mask words :
  words_ok words → 0 <= start → 0 < len → start + len <= bit_size words → bit_size words < 2 ^ 63 →
  in_width 64 mask → (∀ k, 0 <= k < 64 → Z.testbit mask k = (start mod 64 <=? k)) → len < 64 - start mod 64 →
  spanned op start (start + len) words
    (alter_word (apply (Z.land mask (BIT_SUFFIX_WORD_MASK (start + len)))) (start / 64) words).
Proof.
  intros Hok Hs Hl Hend Hsize Hmw Hm Hlt. pose proof (index_split start) as [Es Hr].
  destruct (index_join (start / 64) (start mod 64 + len)) as [Eq Er]; [lia|].
  replace (64 * (start / 64) + (start mod 64 + len)) with (start + len) in * by lia.
  assert (0 <= start / 64 < Z.of_nat (length words)) as Hi by (unfold bit_size in *; lia).
  assert (0 <= BIT_SUFFIX_WORD_MASK (start + len)) as Hsm by (apply Z.shiftr_nonneg; done).
  split; [|split; [apply length_alter_word|]].
  - apply alter_word_ok; [done|]. intros w Hw. apply mo_width; [|done]. apply land_in_width; [lia|done|done].
  - intros j Hj. rewrite (bit_at_mask apply op _ _ _ _ (λ j, bool_decide (start <= j < start + len))); [|done|done|].
    + f_equal. pose proof (index_split j). destruct (decide (j / 64 = start / 64)) as [E|E].
      * by rewrite bool_decide_eq_true_2.
      * rewrite bool_decide_eq_false_2 by done. symmetry. apply bool_decide_eq_false_2. lia.
    + intros k Hk. rewrite Z.land_spec, Hm, suffix_mask_testbit, Er by lia.
      destruct (Z.leb_spec (start mod 64) k), (Z.ltb_spec k (start mod 64 + len)); case_bool_decide; lia || done.
Qed.

(** The loop applies the operation to the rest of the span. *)
Lemma span_loop_spec apply op `{!MaskOp apply op} fuel : ∀ start len mask words,
  words_ok words → 0 <= start → 0 <= len → start + len <= bit_size words → bit_size words < 2 ^ 63 →
  in_width 64 mask → (∀ k, 0 <= k < 64 → Z.testbit mask k = (start mod 64 <=? k)) →
  (length words <= fuel + Z.to_nat (start / 64))%nat →
  ∃ words', span_loop fuel apply (start + len) (start / 64) mask len (64 - start mod 64) words = Some words' ∧
    spanned op start (start + len) words words'.
Proof.
  induction fuel as [|fuel IH]; intros start len mask words Hok Hs Hl Hend Hsize Hmw Hm Hfuel;
    pose proof (index_split start) as [Es Hr]; cbn [span_loop]; unfold signed64;
    rewrite (proj2 (Z.ltb_lt len (2 ^ 63))) by lia;
    destruct (Z.leb_spec 0 (len - (64 - start mod 64))) as [Hge|Hlt].
  2, 4: destruct (Z.ltb_spec 0 len) as [Hp|Hp]; eexists; (split; [done|]);
    [apply (span_tail apply op); (done || lia)|split; [done|split; [done|]]; intros j Hj;
       rewrite bool_decide_eq_false_2 by lia; by rewrite mo_false].
  { unfold bit_size in Hend. lia. }
  assert (0 <= start / 64 < Z.of_nat (length words)) as Hi by (unfold bit_size in *; lia).
  set (words1 := alter_word (apply mask) (start / 64) words).
  assert (length words1 = length words) as El by apply length_alter_word.
  destruct (index_join (start / 64 + 1) 0) as [Eq Er]; [lia|]. rewrite Z.add_0_r in Eq, Er.
  rewrite usub_small by (unfold in_width; lia).
  destruct (IH (64 * (start / 64 + 1)) (len - (64 - start mod 64)) (umax 64) words1) as (words' & Eloop & Hok' & El' & Hbit);
    rewrite ?Eq, ?Er in *.
  - apply alter_word_ok; [done|]. intros w Hw. by apply mo_width.
  - lia.
  - lia.
  - unfold bit_size in *. rewrite El. lia.
  - unfold bit_size in *. by rewrite El.
  - done.
  - intros k Hk. unfold umax. rewrite ones_testbit by lia. rewrite (proj2 (Z.ltb_lt k 64)) by lia. symmetry. apply Z.leb_le. lia.
  - rewrite El. lia.
  - exists words'. replace (64 * (start / 64 + 1) + (len - (64 - start mod 64))) with (start + len) in * by lia.
    change (64 - 0) with IREE_BITMAP_BITS_PER_WORD in Eloop. split; [done|]. split; [done|]. split; [congruence|].
    intros j Hj. rewrite Hbit by done. unfold words1.
    rewrite (bit_at_mask apply op _ _ _ _ (λ j, bool_decide (start <= j))); [|done|done|].
    + pose proof (index_split j). destruct (decide (64 * (start / 64 + 1) <= j < start + len)) as [H1|H1].
      * rewrite (bool_decide_eq_true_2 _ H1), (bool_decide_eq_true_2 (start <= j < start + len)) by lia.
        rewrite bool_decide_eq_false_2 by lia. simpl. by rewrite mo_false.
      * rewrite (bool_decide_eq_false_2 _ H1), mo_false. f_equal.
        destruct (decide (j / 64 = start / 64)) as [E|E].
        -- rewrite bool_decide_eq_true_2 by done. simpl. apply bool_decide_ext. lia.
        -- rewrite bool_decide_eq_false_2 by done. simpl. symmetry. apply bool_decide_eq_false_2. lia.
    + intros k Hk. rewrite Hm by done. destruct (Z.leb_spec (start mod 64) k); case_bool_decide; lia || done.
Qed.

Lemma prefix_mask_width i : in_width 64 (BIT_PREFIX_WORD_MASK i).
Proof. by apply wrap_in_width. Qed.

Lemma bitmap_span_spec apply op `{!MaskOp apply op} b start len :
  bitmap_ok b → 0 <= start → 0 <= len → start + len <= bit_size (bm_words b) →
  ∃ b', bitmap_span apply b start len = Some b' ∧ bitmap_ok b' ∧ bm_bit_count b' = bm_bit_count b ∧
    ∀ j, 0 <= j → member b' j = op (bool_decide (start <= j < start + len)) (member b j).
Proof.
  intros [Hok Hc Hsize] Hs Hl Hend. unfold bitmap_span. destruct (Z.eqb_spec len 0) as [->|Hne].
  - exists b. split; [done|]. split; [done|]. split; [done|]. intros j Hj.
    rewrite bool_decide_eq_false_2 by lia. by rewrite mo_false.
  - rewrite uadd_small by lia. change (BIT_OFFSET_TO_WORD_INDEX start) with (start / 64).
    change (IREE_BITMAP_BITS_PER_WORD - start mod IREE_BITMAP_BITS_PER_WORD) with (64 - start mod 64).
    destruct (span_loop_spec apply op (length (bm_words b)) start len (BIT_PREFIX_WORD_MASK start) (bm_words b))
      as (words' & -> & Hok' & El & Hbit); try done; [apply prefix_mask_width|by intros; apply prefix_mask_testbit|lia|].
    eexists. split; [done|]. split; [|done]. split; simpl; [done|unfold bit_size in *; by rewrite El..].
Qed.

(** ** Searches *)

(** The first position of [lo, hi) with the property, or [hi]. *)
Definition first_in (P : Z → Prop) (lo hi r : Z) : Prop :=
  (lo <= r < hi ∧ P r ∧ ∀ j, lo <= j < r → ¬ P j) ∨ (r = hi ∧ ∀ j, lo <= j < hi → ¬ P j).

(** A view of words that looks for bits with value [v]. *)
Class BitView (view : Z → Z) (v : bool) : Prop := {
  bv_testbit w k : 0 <= k < 64 → Z.testbit (view w) k = eqb v (Z.testbit w k);
  bv_width w : in_width 64 w → in_width 64 (view w);
}.

#[export] Instance id_view : BitView (λ w, w) true.
Proof. split; [|done]. intros. by destruct (Z.testbit w k). Qed.

#[export] Instance not_view : BitView (unot 64) false.
Proof.
  split; [|intros; apply unot_in_width; lia]. intros. rewrite unot_testbit, (proj2 (Z.ltb_lt k 64)) by lia.
  by destruct (Z.testbit w k).
Qed.

Lemma first_in_extend (P : Z → Prop) lo mid hi r :
  lo <= mid → (∀ j, lo <= j < mid → ¬ P j) → first_in P mid hi r → first_in P lo hi r.
Proof.
  intros Hle Hn [(Hr & HP & Hj)|[-> Hj]]; [left|right].
  - split; [lia|]. split; [done|]. intros j Hj'. destruct (Z.lt_ge_cases j mid); [apply Hn; lia|apply Hj; lia].
  - split; [done|]. intros j Hj'. destruct (Z.lt_ge_cases j mid); [apply Hn; lia|apply Hj; lia].
Qed.

Section scan.
Context (view : Z → Z) (v : bool) `{!BitView view v} (words : list Z) (Hok : words_ok words).

(** A word of which the bits from [lo] on are viewed. *)
Definition viewed (lo i word : Z) : Prop :=
  in_width 64 word ∧ ∀ k, 0 <= k < 64 → Z.testbit word k = (lo <=? 64 * i + k) && eqb v (bit_at words (64 * i + k)).

Lemma viewed_next i : 0 <= i → viewed (64 * i) i (view (word_at words i)).
Proof using All.
  intros Hi. split; [by apply (bv_width (v := v)), word_at_width|]. intros k Hk. rewrite (bv_testbit (v := v)) by done.
  unfold bit_at. destruct (index_join i k Hk) as [-> ->]. by rewrite (proj2 (Z.leb_le (64 * i) (64 * i + k))) by lia.
Qed.

Lemma viewed_none lo i : viewed lo i 0 → ∀ j, lo <= j → 64 * i <= j < 64 * (i + 1) → bit_at words j ≠ v.
Proof using All.
  intros [_ Hb] j Hlo Hj E. specialize (Hb (j - 64 * i) ltac:(lia)). rewrite Z.bits_0 in Hb.
  replace (64 * i + (j - 64 * i)) with j in Hb by lia. rewrite E, (proj2 (Z.leb_le lo j)) in Hb by lia. by destruct v.
Qed.

Lemma viewed_found lo i word count :
  viewed lo i word → word ≠ 0 → 64 * i <= lo →
  first_in (λ j, bit_at words j = v) lo count (iree_min (i * 64 + IREE_FFS_U64 word) count) ∨ count <= lo.
Proof using All.
  intros [Hw Hb] Hne Hlo. destruct (lowest_set word) as (Hk & Ht & Hlow); [destruct Hw; lia|done|]. cbv zeta in *.
  unfold IREE_FFS_U64. rewrite (proj2 (Z.eqb_neq word 0) Hne). set (k := iree_math_count_trailing_zeros_u64 word) in *.
  rewrite Hb in Ht by done. apply andb_true_iff in Ht as [Hle%Z.leb_le Hv%eqb_prop].
  assert (∀ j, lo <= j < 64 * i + k → bit_at words j ≠ v) as Hn.
  { intros j Hj E. specialize (Hlow (j - 64 * i) ltac:(lia)). rewrite Hb in Hlow by lia.
    replace (64 * i + (j - 64 * i)) with j in Hlow by lia. rewrite E, (proj2 (Z.leb_le lo j)) in Hlow by lia. by destruct v. }
  destruct (Z.le_gt_cases count lo); [by right|left]. unfold iree_min.
  destruct (Z.leb_spec (i * 64 + k) count).
  - destruct (decide (i * 64 + k = count)) as [E|].
    + right. split; [done|]. intros j Hj. apply Hn. lia.
    + left. replace (i * 64 + k) with (64 * i + k) by lia. split; [lia|]. split; [done|]. intros j Hj. apply Hn. lia.
  - right. split; [done|]. intros j Hj. apply Hn. lia.
Qed.

Lemma scan_words_spec fuel : ∀ count lo i word,
  0 <= i → count <= bit_size words → 64 * i <= lo < 64 * (i + 1) → lo < count → viewed lo i word →
  (length words <= fuel + Z.to_nat i + 1)%nat →
  ∃ r, scan_words fuel view words count i word = Some r ∧ first_in (λ j, bit_at words j = v) lo count r.
Proof using All.
  induction fuel as [|fuel IH]; intros count lo i word Hi Hc Hlo Hlt Hv Hfuel; cbn [scan_words];
    change IREE_BITMAP_BITS_PER_WORD with 64; (destruct (Z.eqb_spec word 0) as [->|Hne];
      [|eexists; split; [done|]; destruct (viewed_found lo i word count Hv Hne) as [?|?]; [lia|done|lia]]);
    pose proof (viewed_none lo i Hv) as Hnone; destruct (Z.leb_spec count ((i + 1) * 64)) as [Hend|Hmore].
  1, 3: exists count; split; [done|]; right; split; [done|]; intros j Hj; apply Hnone; lia.
  { unfold bit_size in Hc. lia. }
  destruct (IH count (64 * (i + 1)) (i + 1) (view (word_at words (i + 1)))) as (r & Er & Hr); [lia|done|lia|lia| |lia|].
  - apply viewed_next. lia.
  - exists r. split; [done|]. apply (first_in_extend _ _ (64 * (i + 1))); [lia| |done]. intros j Hj. apply Hnone; lia.
Qed.

Lemma find_next_spec count lo :
  0 <= lo → count <= bit_size words →
  ∃ r, find_next view words count lo = Some r ∧ first_in (λ j, bit_at words j = v) lo count r.
Proof using All.
  intros Hlo Hc. unfold find_next. destruct (Z.leb_spec count lo) as [Hle|Hlt].
  - exists count. split; [done|]. right. split; [done|]. intros j Hj. lia.
  - change (BIT_OFFSET_TO_WORD_INDEX lo) with (lo / 64). pose proof (index_split lo) as [El Hr].
    apply scan_words_spec; [lia|done|lia|done| |lia]. destruct (viewed_next (lo / 64)) as [Hw Hb]; [lia|].
    split; [apply land_in_width; [lia|done|apply prefix_mask_width]|]. intros k Hk.
    rewrite Z.land_spec, Hb, prefix_mask_testbit by lia.
    rewrite (proj2 (Z.leb_le (64 * (lo / 64)) _)) by lia. simpl. rewrite andb_comm. f_equal.
    destruct (Z.leb_spec (lo mod 64) k), (Z.leb_spec lo (64 * (lo / 64) + k)); lia || done.
Qed.
End scan.

(** *** Spans of unset bits *)

Definition free_span (b : iree_bitmap_t) (len s : Z) : Prop :=
  s + len <= bm_bit_count b ∧ ∀ j, s <= j < s + len → member b j = false.

(** The least free span from [lo] on, or the bit count. *)
Definition first_span (b : iree_bitmap_t) (len lo r : Z) : Prop :=
  (lo <= r ∧ free_span b len r ∧ ∀ s, lo <= s < r → ¬ free_span b len s) ∨
  (r = bm_bit_count b ∧ ∀ s, lo <= s → ¬ free_span b len s).

Lemma first_span_extend b len lo mid r :
  lo <= mid → (∀ s, lo <= s < mid → ¬ free_span b len s) → first_span b len mid r → first_span b len lo r.
Proof.
  intros Hle Hn [(Hr & HP & Hj)|[-> Hj]]; [left|right].
  - split; [lia|]. split; [done|]. intros s Hs. destruct (Z.lt_ge_cases s mid); [apply Hn; lia|apply Hj; lia].
  - split; [done|]. intros s Hs. destruct (Z.lt_ge_cases s mid); [apply Hn; lia|by apply Hj].
Qed.

Lemma unset_span_spec b len fuel : ∀ lo,
  bitmap_ok b → 0 <= lo → 0 < len → bm_bit_count b + len < 2 ^ 64 → (Z.to_nat (bm_bit_count b - lo) < fuel)%nat →
  ∃ r, unset_span_loop fuel b lo len = Some r ∧ first_span b len lo r.
Proof.
  induction fuel as [|fuel IH]; intros lo Hb Hlo Hlen Hmax Hfuel; [lia|]. cbn [unset_span_loop].
  pose proof Hb as [Hok Hc Hsize].
  destruct (find_next_spec (unot 64) false (bm_words b) Hok (bm_bit_count b) lo Hlo ltac:(lia)) as (i & Ei & Hi).
  unfold iree_bitmap_find_next_unset_bit. rewrite Ei. cbn [mbind option_bind].
  assert (lo <= i ∨ bm_bit_count b < lo ∧ i = bm_bit_count b) as Hrange by (destruct Hi as [(? & _)|[-> _]]; lia).
  assert (i <= bm_bit_count b) by (destruct Hi as [(? & _)|[-> _]]; lia).
  assert (∀ s, lo <= s → free_span b len s → i <= s) as Hbefore.
  { intros s Hs [Hse Hf]. destruct (Z.le_gt_cases i s) as [|Hgt]; [done|exfalso].
    assert (member b s = false) as Hm by (apply Hf; lia).
    destruct Hi as [(_ & _ & Hn)|[-> Hn]]; apply (Hn s); [lia|done|lia|done]. }
  rewrite uadd_small by lia. destruct (Z.ltb_spec (bm_bit_count b) (i + len)) as [Hover|Hfit].
  { exists (bm_bit_count b). split; [done|]. right. split; [done|]. intros s Hs Hf.
    pose proof (Hbefore s Hs Hf). destruct Hf. lia. }
  assert (i < bm_bit_count b ∧ member b i = false) as [Hlt Hmi] by (destruct Hi as [(? & ? & _)|[-> _]]; [split; [lia|done]|lia]).
  destruct (find_next_spec (λ w, w) true (bm_words b) Hok (i + len) i ltac:(lia) ltac:(lia)) as (n & En & Hn).
  unfold iree_bitmap_find_next_set_bit. rewrite En. cbn [mbind option_bind].
  destruct (Z.ltb_spec n (i + len)) as [Hset|Hfound].
  - destruct Hn as [(Hrn & Hmn & _)|[-> _]]; [|lia]. rewrite uadd_small by lia.
    destruct (IH (n + 1)) as (r & Er & Hr); [done|lia|done|done|lia|]. exists r. split; [done|].
    apply (first_span_extend _ _ _ (n + 1)); [lia| |done]. intros s Hs Hf. pose proof (Hbefore s ltac:(lia) Hf).
    destruct Hf as [_ Hf]. rewrite (Hf n) in Hmn by lia. done.
  - unfold iree_min. rewrite (proj2 (Z.leb_le i (bm_bit_count b))) by lia. exists i. split; [done|]. left.
    split; [lia|]. split; [|intros s Hs Hf; pose proof (Hbefore s ltac:(lia) Hf); lia].
    split; [done|]. intros j Hj. destruct Hn as [(Hrn & _)|[-> Hn]]; [lia|].
    apply not_true_iff_false. apply Hn. lia.
Qed.

(** ** Counting *)

(** The words below [n] hold the first [64 n] bits. *)
Lemma full_words_count b (n : nat) :
  Z.of_nat n <= 2 ^ 57 →
  foldl (λ acc i, acc +64 iree_math_count_ones_u64 (word_at (bm_words b) i)) 0 (seqZ 0 (Z.of_nat n)) =
  count_from (bit_at (bm_words b)) 0 (64 * n).
Proof.
  induction n as [|n IH]; intros Hn; [done|]. rewrite seqZ_S, foldl_app, IH by lia. cbn [foldl].
  rewrite Z.add_0_l. replace (64 * S n)%nat with (64 * n + 64)%nat by lia. rewrite count_from_app.
  assert (iree_math_count_ones_u64 (word_at (bm_words b) (Z.of_nat n)) =
    count_from (bit_at (bm_words b)) (0 + Z.of_nat (64 * n)) 64) as ->.
  { apply count_from_ext. intros k Hk. unfold bit_at. rewrite !Z.add_0_l.
    replace (Z.of_nat (64 * n)) with (64 * Z.of_nat n) by lia. by destruct (index_join (Z.of_nat n) k) as [-> ->]; [lia|]. }
  pose proof (count_from_bounds (bit_at (bm_words b)) (64 * n) 0).
  pose proof (count_from_bounds (bit_at (bm_words b)) 64 (0 + Z.of_nat (64 * n))).
  apply uadd_small. lia.
Qed.

(** The bits of the last word below the bit count. *)
Lemma tail_word_count b tail :
  0 <= bm_bit_count b → tail = bm_bit_count b mod 64 → 0 < tail →
  iree_math_count_ones_u64 (Z.land (word_at (bm_words b) (bm_bit_count b / 64)) (ushl 64 1 tail -64 1)) =
  count_from (bit_at (bm_words b)) (64 * (bm_bit_count b / 64)) (Z.to_nat tail).
Proof.
  intros Hc -> Ht. set (t := bm_bit_count b mod 64) in *. set (q := bm_bit_count b / 64).
  pose proof (index_split (bm_bit_count b)) as [_ Hr]. fold t in Hr.
  assert (ushl 64 1 t -64 1 = 2 ^ t - 1) as ->.
  { unfold ushl. rewrite Z.shiftl_1_l. pose proof (pow64_lt t ltac:(lia)). rewrite wrap_small by (unfold in_width; lia).
    apply align_mask. lia. }
  unfold iree_math_count_ones_u64. replace 64%nat with (Z.to_nat t + Z.to_nat (64 - t))%nat by lia.
  rewrite count_from_app. rewrite (proj2 (count_from_zero _ (Z.to_nat (64 - t)) _)).
  - rewrite Z.add_0_r. apply count_from_ext. intros k Hk. rewrite Z.add_0_l, Z.land_spec, ones_testbit by lia.
    rewrite (proj2 (Z.ltb_lt k t)), andb_true_r by lia. unfold bit_at. by destruct (index_join q k) as [-> ->]; [lia|].
  - intros j Hj. rewrite Z.land_spec, ones_testbit by lia. rewrite (proj2 (Z.ltb_ge j t)) by lia. apply andb_false_r.
Qed.

Lemma bitmap_count_eq b :
  bitmap_ok b → iree_bitmap_count b = count_from (bit_at (bm_words b)) 0 (Z.to_nat (bm_bit_count b)).
Proof.
  intros [_ Hc Hs]. pose proof (index_split (bm_bit_count b)) as [Ec Hr]. unfold iree_bitmap_count, IREE_BITMAP_BITS_PER_WORD.
  set (q := bm_bit_count b / 64) in *. assert (0 <= q <= 2 ^ 57) as Hq by lia.
  rewrite <- (Z2Nat.id q), full_words_count by lia. rewrite (Z2Nat.id q) by lia. set (t := bm_bit_count b mod 64) in *.
  assert (Z.to_nat (bm_bit_count b) = 64 * Z.to_nat q + Z.to_nat t)%nat as -> by lia.
  rewrite count_from_app. replace (0 + Z.of_nat (64 * Z.to_nat q)) with (64 * q) by lia.
  destruct (Z.ltb_spec 0 t).
  - unfold q at 2. rewrite (tail_word_count b t) by (done || lia). fold q.
    pose proof (count_from_bounds (bit_at (bm_words b)) (64 * Z.to_nat q) 0).
    pose proof (count_from_bounds (bit_at (bm_words b)) (Z.to_nat t) (64 * q)). apply uadd_small. lia.
  - replace (Z.to_nat t) with O by lia. simpl. lia.
Qed.

Lemma word_nonzero words q :
  words_ok words → 0 <= q → word_at words q ≠ 0 ↔ ∃ j, 64 * q <= j < 64 * (q + 1) ∧ bit_at words j = true.
Proof.
  intros Hok Hq. pose proof (word_at_width words q Hok) as Hw. split.
  - intros Hne. destruct (lowest_set (word_at words q)) as (Hk & Ht & _); [destruct Hw; lia|done|].
    exists (64 * q + iree_math_count_trailing_zeros_u64 (word_at words q)). split; [lia|].
    unfold bit_at. by destruct (index_join q _ Hk) as [-> ->].
  - intros (j & Hj & Hb) E. destruct (index_join q (j - 64 * q)) as [Eq Er]; [lia|].
    replace (64 * q + (j - 64 * q)) with j in * by lia. unfold bit_at in Hb. by rewrite Eq, E, Z.bits_0 in Hb.
Qed.

Lemma bitmap_any_set_iff b :
  bitmap_ok b → iree_bitmap_any_set b = true ↔ ∃ j, 0 <= j < bm_bit_count b ∧ member b j = true.
Proof.
  intros [Hok Hc Hs]. pose proof (index_split (bm_bit_count b)) as [Ec Hr]. unfold iree_bitmap_any_set, IREE_BITMAP_BITS_PER_WORD.
  set (q := bm_bit_count b / 64) in *. rewrite orb_true_iff, andb_true_iff, !negb_true_iff, !Z.eqb_neq, existsb_exists. split.
  - intros [(i & Hi%list_elem_of_In%elem_of_seqZ & Hne)|[Ht Hne]].
    + apply negb_true_iff, Z.eqb_neq in Hne. apply word_nonzero in Hne as (j & Hj & Hb); [|done|lia]. exists j. split; [lia|done].
    + set (w := Z.land _ _) in Hne. assert (in_width 64 w) as Hw.
      { apply land_in_width; [lia|by apply word_at_width|]. by apply Z.shiftr_nonneg. }
      destruct (lowest_set w) as (Hk & Hb & _); [destruct Hw; lia|done|]. cbv zeta in Hk, Hb.
      set (k := iree_math_count_trailing_zeros_u64 w) in *. clearbody k. unfold w in Hb.
      rewrite Z.land_spec, suffix_mask_testbit in Hb by lia. apply andb_true_iff in Hb as [Hb Hlt%Z.ltb_lt].
      exists (64 * q + k). split; [lia|].
      unfold bit_at. by destruct (index_join q _ Hk) as [-> ->].
  - intros (j & Hj & Hb). pose proof (index_split j) as [Ej Hjr]. destruct (decide (j / 64 = q)) as [E|E]; [right|left].
    + split; [lia|]. intros Hz. unfold bit_at in Hb. rewrite E in Hb.
      assert (Z.testbit 0 (j mod 64) = true) as H0; [|by rewrite Z.bits_0 in H0].
      rewrite <- Hz, Z.land_spec, suffix_mask_testbit, Hb by lia. simpl. apply Z.ltb_lt. lia.
    + exists (j / 64). split; [apply list_elem_of_In, elem_of_seqZ; lia|]. apply negb_true_iff, Z.eqb_neq.
      apply word_nonzero; [done|lia|]. exists j. split; [lia|done].
Qed.

Lemma calculate_words_eq n :
  0 <= n < 2 ^ 63 → let w := iree_bitmap_calculate_words n in 0 <= w ∧ n <= 64 * w < n + 64.
Proof.
  intros Hn. unfold iree_bitmap_calculate_words, iree_host_size_ceil_div, IREE_BITMAP_BITS_PER_WORD.
  destruct (Z.eqb_spec n 0) as [->|Hne]; [lia|]. rewrite usub_small by (unfold in_width; lia).
  pose proof (Z.div_mod (n - 1) 64 ltac:(lia)). pose proof (Z.mod_pos_bound (n - 1) 64 ltac:(lia)).
  rewrite uadd_small by lia. lia.
Qed.

Lemma fill_words_spec v value b :
  bitmap_ok b → in_width 64 value → (∀ k, 0 <= k < 64 → Z.testbit value k = v) →
  bitmap_ok (fill_words value b) ∧ bm_bit_count (fill_words value b) = bm_bit_count b ∧
  ∀ j, 0 <= j < bm_bit_count b → member (fill_words value b) j = v.
Proof.
  intros [Hok Hc Hs] Hv Hb. unfold fill_words. set (n := iree_bitmap_calculate_words (bm_bit_count b)).
  destruct (calculate_words_eq (bm_bit_count b)) as [Hn0 Hn]; [lia|]. cbv zeta in *. fold n in Hn0, Hn.
  set (words := replicate _ _ ++ _). assert (length words = length (bm_words b)) as El.
  { unfold words. rewrite length_app, length_replicate, length_drop. unfold bit_size in *. lia. }
  split; [split; simpl; [|unfold bit_size in *; by rewrite El..]|split; [done|]].
  - apply Forall_app. split; [by apply Forall_replicate|by apply Forall_drop].
  - intros j Hj. simpl. unfold bit_at, word_at. pose proof (index_split j) as [Ej Hr].
    unfold words. rewrite lookup_app_l by (rewrite length_replicate; lia).
    rewrite lookup_replicate_2 by lia. simpl. by apply Hb.
Qed.

(** [iree_bitmap_test], [set], [reset], [set_span], [reset_span], [set_all] and
    [reset_all] read and write exactly the addressed bits; the span loops terminate within
    one step per word. *)
Theorem bitmap_updates_exact b i len :
  bitmap_ok b → 0 <= i → 0 <= len → i + len <= bit_size (bm_words b) →
  iree_bitmap_test b i = member b i ∧
  (i < bit_size (bm_words b) → bitmap_ok (iree_bitmap_set b i) ∧ bitmap_ok (iree_bitmap_reset b i) ∧
     ∀ j, 0 <= j → member (iree_bitmap_set b i) j = bool_decide (j = i) || member b j ∧
       member (iree_bitmap_reset b i) j = negb (bool_decide (j = i)) && member b j) ∧
  (∃ b', iree_bitmap_set_span b i len = Some b' ∧ bitmap_ok b' ∧
     ∀ j, 0 <= j → member b' j = bool_decide (i <= j < i + len) || member b j) ∧
  (∃ b', iree_bitmap_reset_span b i len = Some b' ∧ bitmap_ok b' ∧
     ∀ j, 0 <= j → member b' j = negb (bool_decide (i <= j < i + len)) && member b j) ∧
  ∀ j, 0 <= j < bm_bit_count b →
    member (iree_bitmap_set_all b) j = true ∧ member (iree_bitmap_reset_all b) j = false.
Proof.
  intros Hok Hi Hlen Hend. split; [by apply bitmap_test_eq|]. pose proof Hok as [Hw Hc Hs]. split_and!.
  - intros Hlt. split_and!.
    + split; simpl; rewrite ?bit_size_alter; try done. apply alter_word_ok; [done|]. intros w Hw'.
      apply lor_in_width; [lia|done|apply bit_mask_width].
    + split; simpl; rewrite ?bit_size_alter; try done. apply alter_word_ok; [done|]. intros w Hw'.
      apply land_in_width; [lia|done|apply unot_in_width; lia].
    + intros j Hj. split; [by apply bit_at_set|by apply bit_at_clear].
  - destruct (bitmap_span_spec or_mask orb b i len) as (b' & ? & ? & _ & ?); eauto.
  - destruct (bitmap_span_spec and_not_mask (λ m w, negb m && w) b i len) as (b' & ? & ? & _ & ?); eauto.
  - intros j Hj. split; eapply fill_words_spec; try done; [|intros; apply Z.bits_0].
    intros k Hk. unfold umax. rewrite ones_testbit by lia. apply Z.ltb_lt. lia.
Qed.

Definition sample_bitmap : iree_bitmap_t := mk_bitmap 100 [5; 0].

Lemma sample_bitmap_ok : bitmap_ok sample_bitmap.
Proof. split; [|done|done]. repeat constructor; unfold in_width; lia. Qed.

Lemma bitmap_updates_exact_witness :
  ∃ b', iree_bitmap_set_span sample_bitmap 3 90 = Some b' ∧ bitmap_ok b' ∧
    ∀ j, 0 <= j → member b' j = bool_decide (3 <= j < 3 + 90) || member sample_bitmap j.
Proof.
  exact (proj1 (proj2 (proj2 (bitmap_updates_exact sample_bitmap 3 90 sample_bitmap_ok ltac:(done) ltac:(done) ltac:(done))))).
Defined.

(** The searches terminate and are exact: the first set or unset bit from an offset,
    the first run of unset bits of a positive length, or the bit count when there is none;
    the population count and the emptiness tests see exactly the bits below the count. *)
Theorem bitmap_searches_exact b lo len :
  bitmap_ok b → 0 <= lo → 0 < len → bm_bit_count b + len < 2 ^ 64 →
  (∃ r, iree_bitmap_find_first_set b lo = Some r ∧ first_in (λ j, member b j = true) lo (bm_bit_count b) r) ∧
  (∃ r, iree_bitmap_find_first_unset b lo = Some r ∧ first_in (λ j, member b j = false) lo (bm_bit_count b) r) ∧
  (∃ r, iree_bitmap_find_first_unset_span b lo len = Some r ∧ first_span b len lo r) ∧
  iree_bitmap_count b = count_from (bit_at (bm_words b)) 0 (Z.to_nat (bm_bit_count b)) ∧
  (iree_bitmap_any_set b = true ↔ ∃ j, 0 <= j < bm_bit_count b ∧ member b j = true) ∧
  (iree_bitmap_none_set b = true ↔ ∀ j, 0 <= j < bm_bit_count b → member b j = false).
Proof.
  intros Hok Hlo Hlen Hmax. pose proof Hok as [Hw Hc _]. split_and!.
  - apply (find_next_spec _ _ _ Hw); lia.
  - apply (find_next_spec _ _ _ Hw); lia.
  - apply unset_span_spec; [done..|lia].
  - by apply bitmap_count_eq.
  - by apply bitmap_any_set_iff.
  - unfold iree_bitmap_none_set. rewrite negb_true_iff, <- not_true_iff_false, bitmap_any_set_iff by done. split.
    + intros Hn j Hj. apply not_true_iff_false. intros Hm. apply Hn. by exists j.
    + intros Hn (j & Hj & Hm). by rewrite Hn in Hm.
Qed.

Lemma bitmap_searches_exact_witness :
  ∃ r, iree_bitmap_find_first_unset_span sample_bitmap 0 10 = Some r ∧ first_span sample_bitmap 10 0 r.
Proof.
  exact (proj1 (proj2 (proj2 (bitmap_searches_exact sample_bitmap 0 10 sample_bitmap_ok ltac:(done) ltac:(done) ltac:(done))))).
Defined.

(** The requirement on the length: a length near the word size wraps the end of the span,
    and an occupied bitmap answers with a position that has no such span. *)
Lemma unset_span_wraps :
  iree_bitmap_find_first_unset_span (mk_bitmap 8 [1]) 0 (2 ^ 64 - 1) = Some 1.
Proof. by vm_compute. Qed.

(** ** The portable population count *)

Lemma byte_testbit u v i :
  0 <= u < 256 → 0 <= i → Z.testbit (u + 256 * v) i = if i <? 8 then Z.testbit u i else Z.testbit v (i - 8).
Proof.
  intros Hu Hi. destruct (Z.ltb_spec i 8) as [Hlt|Hge].
  - rewrite <- (Z.mod_pow2_bits_low (u + 256 * v) 8) by done. change (2 ^ 8) with 256.
    by rewrite (Z.mul_comm 256), Z.mod_add, Z.mod_small by lia.
  - replace i with (i - 8 + 8) at 1 by lia. rewrite <- Z.shiftr_spec, Z.shiftr_div_pow2 by lia. change (2 ^ 8) with 256.
    by rewrite (Z.mul_comm 256), Z.div_add, Z.div_small, Z.add_0_l by lia.
Qed.

(** Masked shifts that do not cross bytes work byte by byte. *)
Lemma bytewise b m M0 M1 k :
  0 <= b < 256 → 0 <= m → 0 <= k < 8 → 0 <= M0 < 2 ^ (8 - k) →
  Z.land (Z.shiftr (b + 256 * m) k) (M0 + 256 * M1) =
  Z.land (Z.shiftr b k) M0 + 256 * Z.land (Z.shiftr m k) M1.
Proof.
  intros Hb Hm Hk HM. assert (2 ^ (8 - k) <= 2 ^ 8) by (apply Z.pow_le_mono_r; lia). change (2 ^ 8) with 256 in *.
  assert (0 <= Z.land (Z.shiftr b k) M0 < 256) as Hl.
  { apply (land_in_width 8); [lia| |lia]. apply (shiftr_in_width 8); [lia|split; lia|lia]. }
  apply word_ext. intros i Hi. rewrite byte_testbit by done.
  rewrite Z.land_spec, (byte_testbit M0), Z.shiftr_spec, byte_testbit by lia.
  destruct (Z.ltb_spec i 8) as [Hi8|Hi8].
  - rewrite Z.land_spec, Z.shiftr_spec by lia. destruct (Z.ltb_spec (i + k) 8) as [|Hge]; [done|].
    by rewrite (testbit_above (8 - k) ltac:(lia) M0 i), !andb_false_r by (done || lia).
  - rewrite (proj2 (Z.ltb_ge (i + k) 8)), Z.land_spec, Z.shiftr_spec by lia. do 2 f_equal. lia.
Qed.

Definition popcount (b : Z) : Z := count_from (Z.testbit b) 0 8.

(** The three stages on a byte. *)
Definition pairs (b : Z) : Z := b - Z.land (Z.shiftr b 1) 0x55.
Definition nibbles (c : Z) : Z := Z.land (Z.shiftr c 2) 0x33 + Z.land c 0x33.
Definition nibble_sum (d : Z) : Z := Z.land d 15 + d / 16.

Definition byte_check (b : Z) : bool :=
  (Z.land (Z.shiftr b 1) 0x55 <=? b) && (0 <=? pairs b) && (pairs b <? 256) &&
  (nibbles (pairs b) <=? 0x44) && (Z.land (nibbles (pairs b)) 15 <=? 4) && (nibbles (pairs b) / 16 <=? 4) &&
  (nibble_sum (nibbles (pairs b)) =? popcount b).

Lemma byte_stages b :
  0 <= b < 256 →
  Z.land (Z.shiftr b 1) 0x55 <= b ∧ 0 <= pairs b < 256 ∧ nibbles (pairs b) <= 0x44 ∧
  Z.land (nibbles (pairs b)) 15 <= 4 ∧ nibbles (pairs b) / 16 <= 4 ∧ nibble_sum (nibbles (pairs b)) = popcount b.
Proof.
  intros Hb. assert (byte_check b = true) as Hc by (apply (forall_below byte_check 256); [by vm_compute|done]).
  unfold byte_check in Hc. rewrite !andb_true_iff, !Z.leb_le, Z.ltb_lt, Z.eqb_eq in Hc.
  destruct Hc as ((((((? & ?) & ?) & ?) & ?) & ?) & ?). split_and!; done.
Qed.

Lemma nibbles_nonneg c : 0 <= c → 0 <= nibbles c.
Proof.
  intros. unfold nibbles. assert (0 <= Z.land (Z.shiftr c 2) 51) by (apply Z.land_nonneg; by right).
  assert (0 <= Z.land c 51) by (apply Z.land_nonneg; by right). lia.
Qed.

Definition of_bytes (b0 b1 b2 b3 : Z) : Z := b0 + 256 * (b1 + 256 * (b2 + 256 * b3)).

Lemma land_bytes b0 b1 b2 b3 M k :
  0 <= b0 < 256 → 0 <= b1 < 256 → 0 <= b2 < 256 → 0 <= b3 < 256 → 0 <= k < 8 → 0 <= M < 2 ^ (8 - k) →
  Z.land (Z.shiftr (of_bytes b0 b1 b2 b3) k) (of_bytes M M M M) =
  of_bytes (Z.land (Z.shiftr b0 k) M) (Z.land (Z.shiftr b1 k) M) (Z.land (Z.shiftr b2 k) M) (Z.land (Z.shiftr b3 k) M).
Proof. intros. unfold of_bytes. by rewrite !bytewise by lia. Qed.

Lemma nibble_shift d0 m : 0 <= d0 → Z.shiftr (d0 + 256 * m) 4 = d0 / 16 + 16 * m.
Proof.
  intros. rewrite Z.shiftr_div_pow2 by lia. change (2 ^ 4) with 16. replace (d0 + 256 * m) with (d0 + (16 * m) * 16) by lia.
  by rewrite Z.div_add by lia.
Qed.

(** Multiplying by 0x01010101 adds the bytes in the top byte. *)
Lemma byte_sum g0 g1 g2 g3 :
  0 <= g0 <= 8 → 0 <= g1 <= 8 → 0 <= g2 <= 8 → 0 <= g3 <= 8 →
  Z.shiftr (umul 32 (of_bytes g0 g1 g2 g3) 0x01010101) 24 = g0 + g1 + g2 + g3.
Proof.
  intros. unfold umul, wrap, of_bytes.
  assert ((g0 + 256 * (g1 + 256 * (g2 + 256 * g3))) * 16843009 mod 2 ^ 32 =
    g0 + 256 * (g0 + g1) + 65536 * (g0 + g1 + g2) + 16777216 * (g0 + g1 + g2 + g3)) as ->.
  { symmetry. apply (Z.mod_unique _ (2 ^ 32) ((g1 + g2 + g3) + 256 * (g2 + g3) + 65536 * g3)); lia. }
  rewrite Z.shiftr_div_pow2 by lia. symmetry. apply (Z.div_unique _ (2 ^ 24) _ (g0 + 256 * (g0 + g1) + 65536 * (g0 + g1 + g2))); lia.
Qed.

Lemma land_bytes_0 b0 b1 b2 b3 M :
  0 <= b0 < 256 → 0 <= b1 < 256 → 0 <= b2 < 256 → 0 <= b3 < 256 → 0 <= M < 256 →
  Z.land (of_bytes b0 b1 b2 b3) (of_bytes M M M M) =
  of_bytes (Z.land b0 M) (Z.land b1 M) (Z.land b2 M) (Z.land b3 M).
Proof. intros. rewrite <- (Z.shiftr_0_r (of_bytes _ _ _ _)), land_bytes by (done || lia). by rewrite !Z.shiftr_0_r. Qed.

(** The sums of neighboring nibbles. *)
Lemma nibble_sums d0 d1 d2 d3 :
  let ok d := 0 <= d <= 0x44 ∧ Z.land d 15 <= 4 ∧ d / 16 <= 4 in
  ok d0 → ok d1 → ok d2 → ok d3 →
  let n := of_bytes d0 d1 d2 d3 in
  Z.land (uadd 32 n (Z.shiftr n 4)) 0x0F0F0F0F =
  of_bytes (nibble_sum d0) (nibble_sum d1) (nibble_sum d2) (nibble_sum d3).
Proof.
  cbv zeta. intros H0 H1 H2 H3.
  assert (∀ d, 0 <= d <= 0x44 ∧ Z.land d 15 <= 4 ∧ d / 16 <= 4 →
    0 <= d <= 0x44 ∧ 0 <= d / 16 <= 4 ∧ 0 <= d mod 16 <= 4 ∧ d = 16 * (d / 16) + d mod 16 ∧ Z.land d 15 = d mod 16) as Hd.
  { intros d (Hd & Hl & Hq). change 15 with (2 ^ 4 - 1) in *. rewrite land_ones_mod in * by lia. change (2 ^ 4) with 16 in *.
    pose proof (Z.div_mod d 16). pose proof (Z.mod_pos_bound d 16). pose proof (Z.div_pos d 16). lia. }
  apply Hd in H0 as (? & ? & ? & ? & L0), H1 as (? & ? & ? & ? & L1), H2 as (? & ? & ? & ? & L2), H3 as (? & ? & ? & ? & L3).
  assert (∀ d x, 0 <= d mod 16 <= 4 → 0 <= d / 16 <= 4 → d = 16 * (d / 16) + d mod 16 → 0 <= x →
    Z.land (d + d / 16 + 16 * x) 15 = d mod 16 + d / 16) as Hland.
  { intros d x ? ? ? ?. change 15 with (2 ^ 4 - 1). rewrite land_ones_mod by lia. change (2 ^ 4) with 16.
    symmetry. apply (Z.mod_unique _ 16 (d / 16 + x)); lia. }
  set (e := of_bytes (d0 + d0 / 16 + 16 * (d1 mod 16)) (d1 + d1 / 16 + 16 * (d2 mod 16))
              (d2 + d2 / 16 + 16 * (d3 mod 16)) (d3 + d3 / 16 + 16 * 0)).
  assert (uadd 32 (of_bytes d0 d1 d2 d3) (Z.shiftr (of_bytes d0 d1 d2 d3) 4) = e) as ->.
  { unfold e, of_bytes. rewrite nibble_shift by lia. rewrite uadd_small by lia. lia. }
  change 0x0F0F0F0F with (of_bytes 15 15 15 15). unfold e. rewrite land_bytes_0 by lia.
  rewrite !Hland by lia. unfold nibble_sum. by rewrite L0, L1, L2, L3.
Qed.

Lemma count_ones_u32_bytes b0 b1 b2 b3 :
  0 <= b0 < 256 → 0 <= b1 < 256 → 0 <= b2 < 256 → 0 <= b3 < 256 →
  iree_math_count_ones_u32_portable (of_bytes b0 b1 b2 b3) = popcount b0 + popcount b1 + popcount b2 + popcount b3.
Proof.
  intros H0 H1 H2 H3. unfold iree_math_count_ones_u32_portable.
  change 0x55555555 with (of_bytes 0x55 0x55 0x55 0x55). change 0x33333333 with (of_bytes 0x33 0x33 0x33 0x33).
  destruct (byte_stages b0 H0) as (A0 & P0 & N0 & L0 & Q0 & E0), (byte_stages b1 H1) as (A1 & P1 & N1 & L1 & Q1 & E1),
    (byte_stages b2 H2) as (A2 & P2 & N2 & L2 & Q2 & E2), (byte_stages b3 H3) as (A3 & P3 & N3 & L3 & Q3 & E3).
  assert (usub 32 (of_bytes b0 b1 b2 b3) (Z.land (Z.shiftr (of_bytes b0 b1 b2 b3) 1) (of_bytes 85 85 85 85)) =
    of_bytes (pairs b0) (pairs b1) (pairs b2) (pairs b3)) as ->.
  { assert (∀ b, 0 <= Z.land (Z.shiftr b 1) 85) as Hp by (intros b; apply Z.land_nonneg; by right).
    pose proof (Hp b0). pose proof (Hp b1). pose proof (Hp b2). pose proof (Hp b3).
    rewrite land_bytes by lia. unfold of_bytes, pairs. rewrite usub_small by (unfold in_width; lia). lia. }
  pose proof (nibbles_nonneg (pairs b0)). pose proof (nibbles_nonneg (pairs b1)).
  pose proof (nibbles_nonneg (pairs b2)). pose proof (nibbles_nonneg (pairs b3)).
  assert (uadd 32 (Z.land (Z.shiftr (of_bytes (pairs b0) (pairs b1) (pairs b2) (pairs b3)) 2) (of_bytes 51 51 51 51))
    (Z.land (of_bytes (pairs b0) (pairs b1) (pairs b2) (pairs b3)) (of_bytes 51 51 51 51)) =
    of_bytes (nibbles (pairs b0)) (nibbles (pairs b1)) (nibbles (pairs b2)) (nibbles (pairs b3))) as ->.
  { rewrite land_bytes, land_bytes_0 by lia. unfold of_bytes, nibbles in *. rewrite uadd_small by lia. lia. }
  rewrite nibble_sums by (split_and!; lia || done). rewrite E0, E1, E2, E3.
  assert (∀ b, 0 <= popcount b <= 8) as Hp by (intros b; apply (count_from_bounds (Z.testbit b) 8 0)).
  by apply byte_sum.
Qed.

Lemma count_from_bytes u v (n : nat) :
  0 <= u < 256 → count_from (Z.testbit (u + 256 * v)) 0 (8 + n) = popcount u + count_from (Z.testbit v) 0 n.
Proof.
  intros Hu. rewrite count_from_app. f_equal; apply count_from_ext; intros k Hk; rewrite byte_testbit by lia.
  - by rewrite (proj2 (Z.ltb_lt (0 + k) 8)) by lia.
  - rewrite (proj2 (Z.ltb_ge _ 8)) by lia. f_equal. lia.
Qed.

Lemma count_ones_u32_correct n : in_width 32 n → iree_math_count_ones_u32_portable n = count_from (Z.testbit n) 0 32.
Proof.
  intros [Hn0 Hn]. set (b0 := n mod 256). set (m1 := n / 256). set (b1 := m1 mod 256). set (m2 := m1 / 256).
  set (b2 := m2 mod 256). set (b3 := m2 / 256).
  pose proof (Z.div_mod n 256). pose proof (Z.mod_pos_bound n 256). pose proof (Z.div_mod m1 256).
  pose proof (Z.mod_pos_bound m1 256). pose proof (Z.div_mod m2 256). pose proof (Z.mod_pos_bound m2 256).
  assert (n = of_bytes b0 b1 b2 b3) as Hb by (unfold of_bytes; lia). rewrite Hb.
  rewrite count_ones_u32_bytes by lia. unfold of_bytes.
  change 32%nat with (8 + (8 + (8 + 8)))%nat. rewrite !count_from_bytes by lia. unfold popcount. lia.
Qed.

(** The portable population count (parallel sums in pairs, nibbles and bytes and a
    multiplication, on each half of the word) is the number of set bits. *)
Theorem count_ones_portable_agrees n :
  in_width 64 n → iree_math_count_ones_u64_portable n = iree_math_count_ones_u64 n.
Proof.
  intros [Hn0 Hn]. unfold iree_math_count_ones_u64_portable, iree_math_count_ones_u64.
  change 0xFFFFFFFF with (2 ^ 32 - 1). rewrite land_ones_mod by lia.
  pose proof (Z.div_mod n (2 ^ 32)). pose proof (Z.mod_pos_bound n (2 ^ 32)).
  rewrite !count_ones_u32_correct by (unfold in_width; rewrite ?Z.shiftr_div_pow2 by lia; lia).
  change 64%nat with (32 + 32)%nat. rewrite count_from_app, Z.add_comm. f_equal; apply count_from_ext; intros k Hk.
  - rewrite Z.mod_pow2_bits_low by lia. done.
  - rewrite Z.shiftr_spec by lia. f_equal. lia.
Qed.

Lemma count_ones_portable_agrees_witness :
  iree_math_count_ones_u64_portable 0xF0F0000000000001 = iree_math_count_ones_u64 0xF0F0000000000001.
Proof. exact (count_ones_portable_agrees 0xF0F0000000000001 ltac:(by split)). Defined.
