(* ===== verification/Base64.v ===== *)
(** * Base64

    [iree/base/internal/base64.h] and [base64.c].  Bytes and characters are [Z] values
    below 256, a string view is its list of characters, and an output buffer is the list
    of its bytes, of which a successful call overwrites a prefix (the bytes a decoder has written before it
    rejects a later character are not part of its result). *)

From S2P Require Import Prelude BaseMath.
From stdpp Require Import base numbers list list_numbers.

Local Open Scope Z_scope.
Local Open Scope machine_scope.

(** ** Encoding *)

Definition iree_base64_encode_table : list Z :=
  [ 65; 66; 67; 68; 69; 70; 71; 72;
    73; 74; 75; 76; 77; 78; 79; 80;
    81; 82; 83; 84; 85; 86; 87; 88;
    89; 90; 97; 98; 99; 100; 101; 102;
    103; 104; 105; 106; 107; 108; 109; 110;
    111; 112; 113; 114; 115; 116; 117; 118;
    119; 120; 121; 122; 48; 49; 50; 51;
    52; 53; 54; 55; 56; 57; 43; 47 ].

(** ['='] *)
Definition padding_character : Z := 61.

Definition encode_char (v : Z) : Z := iree_base64_encode_table !!! Z.to_nat v.

Definition iree_base64_encoded_size (data_length : Z) : Z :=
  match iree_host_size_checked_add data_length 2 with
  | None => IREE_HOST_SIZE_MAX
  | Some padded =>
      match iree_host_size_checked_mul (padded / 3) 4 with
      | None => IREE_HOST_SIZE_MAX
      | Some result => result
      end
  end.

(** The loop over [full_groups]: the characters written and the rest of the input. *)
Fixpoint encode_groups (full_groups : nat) (input : list Z) : list Z * list Z :=
  match full_groups, input with
  | S full_groups, a :: b :: c :: input =>
      let '(output, input) := encode_groups full_groups input in
      (encode_char (Z.shiftr a 2) ::
       encode_char (Z.lor (Z.shiftl (Z.land a 0x03) 4) (Z.shiftr b 4)) ::
       encode_char (Z.lor (Z.shiftl (Z.land b 0x0F) 2) (Z.shiftr c 6)) ::
       encode_char (Z.land c 0x3F) :: output, input)
  | _, _ => ([], input)
  end.

(** The trailing one or two bytes. *)
Definition encode_tail (remainder : Z) (input : list Z) : list Z :=
  if remainder =? 1 then
    match input with
    | a :: _ =>
        [ encode_char (Z.shiftr a 2); encode_char (Z.shiftl (Z.land a 0x03) 4); padding_character; padding_character ]
    | [] => []
    end
  else if remainder =? 2 then
    match input with
    | a :: b :: _ =>
        [ encode_char (Z.shiftr a 2); encode_char (Z.lor (Z.shiftl (Z.land a 0x03) 4) (Z.shiftr b 4));
          encode_char (Z.shiftl (Z.land b 0x0F) 2); padding_character ]
    | _ => []
    end
  else [].

(** A write of [bytes] at the start of a buffer. *)
Definition overwrite (bytes buffer : list Z) : list Z := bytes ++ drop (length bytes) buffer.

(** [Ok] is [*out_string_length] and the buffer. *)
Definition iree_base64_encode (data out_string : list Z) : status_or (Z * list Z) :=
  let data_length := Z.of_nat (length data) in
  if data_length =? 0 then Ok (0, out_string)
  else
    let encoded_length := iree_base64_encoded_size data_length in
    if encoded_length =? IREE_HOST_SIZE_MAX then Err IREE_STATUS_OUT_OF_RANGE
    else if Z.of_nat (length out_string) <? encoded_length then Err IREE_STATUS_OUT_OF_RANGE
    else
      let '(output, input) := encode_groups (Z.to_nat (data_length / 3)) data in
      let output := output ++ encode_tail (data_length mod 3) input in
      Ok (encoded_length, overwrite output out_string).

(** ** Decoding *)

Definition iree_base64_decode_table : list Z :=
  replicate 43 0xFF ++ [0x3E; 0xFF; 0xFF; 0xFF; 0x3F] ++
  [0x34; 0x35; 0x36; 0x37; 0x38; 0x39; 0x3A; 0x3B; 0x3C; 0x3D; 0xFF; 0xFF; 0xFF; 0xFE; 0xFF; 0xFF] ++
  [0xFF; 0x00; 0x01; 0x02; 0x03; 0x04; 0x05; 0x06; 0x07; 0x08; 0x09; 0x0A; 0x0B; 0x0C; 0x0D; 0x0E] ++
  [0x0F; 0x10; 0x11; 0x12; 0x13; 0x14; 0x15; 0x16; 0x17; 0x18; 0x19; 0xFF; 0xFF; 0xFF; 0xFF; 0xFF] ++
  [0xFF; 0x1A; 0x1B; 0x1C; 0x1D; 0x1E; 0x1F; 0x20; 0x21; 0x22; 0x23; 0x24; 0x25; 0x26; 0x27; 0x28] ++
  [0x29; 0x2A; 0x2B; 0x2C; 0x2D; 0x2E; 0x2F; 0x30; 0x31; 0x32; 0x33; 0xFF; 0xFF; 0xFF; 0xFF; 0xFF] ++
  replicate 128 0xFF.

Definition decode_char (c : Z) : Z := iree_base64_decode_table !!! Z.to_nat c.

(** The [while] loop over trailing padding: the remaining length and the padding count. *)
Fixpoint strip_padding (data : list Z) (input_length : nat) (padding_count : Z) : nat * Z :=
  match input_length with
  | O => (O, padding_count)
  | S n =>
      if (data !!! n) =? padding_character then strip_padding data n (padding_count +64 1)
      else (S n, padding_count)
  end.

Definition iree_base64_decoded_size (encoded : list Z) : Z :=
  if Z.of_nat (length encoded) =? 0 then 0
  else
    let length := Z.of_nat (strip_padding encoded (length encoded) 0).1 in
    match iree_host_size_checked_mul (length / 4) 3 with
    | None => IREE_HOST_SIZE_MAX
    | Some groups_size =>
        let remainder_size := if length mod 4 =? 0 then 0 else length mod 4 - 1 in
        match iree_host_size_checked_add groups_size remainder_size with
        | None => IREE_HOST_SIZE_MAX
        | Some result => result
        end
    end.

(** [if ((a | b | ...) & 0x80)] with the loop that reports the first invalid character. *)
Definition reject_invalid (vs : list Z) : status_or unit :=
  if negb (Z.land (foldl Z.lor 0 vs) 0x80 =? 0) then
    if existsb (λ v, negb (Z.land v 0x80 =? 0)) vs then Err IREE_STATUS_INVALID_ARGUMENT else Ok tt
  else Ok tt.

(** The loop over [full_groups] and the rest of the input. *)
Fixpoint decode_groups (full_groups : nat) (input : list Z) : status_or (list Z * list Z) :=
  match full_groups, input with
  | S full_groups, a :: b :: c :: d :: input =>
      let a := decode_char a in
      let b := decode_char b in
      let c := decode_char c in
      let d := decode_char d in
      _ ← reject_invalid [a; b; c; d];
      '(output, input) ← decode_groups full_groups input;
      Ok (wrap 8 (Z.lor (Z.shiftl a 2) (Z.shiftr b 4)) ::
          wrap 8 (Z.lor (Z.shiftl b 4) (Z.shiftr c 2)) ::
          wrap 8 (Z.lor (Z.shiftl c 6) d) :: output, input)
  | _, _ => Ok ([], input)
  end.

(** The trailing two or three characters. *)
Definition decode_tail (remainder : Z) (input : list Z) : status_or (list Z) :=
  if remainder =? 2 then
    match input with
    | a :: b :: _ =>
        let a := decode_char a in
        let b := decode_char b in
        _ ← reject_invalid [a; b];
        Ok [wrap 8 (Z.lor (Z.shiftl a 2) (Z.shiftr b 4))]
    | _ => Ok []
    end
  else if remainder =? 3 then
    match input with
    | a :: b :: c :: _ =>
        let a := decode_char a in
        let b := decode_char b in
        let c := decode_char c in
        _ ← reject_invalid [a; b; c];
        Ok [wrap 8 (Z.lor (Z.shiftl a 2) (Z.shiftr b 4)); wrap 8 (Z.lor (Z.shiftl b 4) (Z.shiftr c 2))]
    | _ => Ok []
    end
  else Ok [].

(** [Ok] is [*out_length] and the buffer. *)
Definition iree_base64_decode (encoded out_buffer : list Z) : status_or (Z * list Z) :=
  if Z.of_nat (length encoded) =? 0 then Ok (0, out_buffer)
  else
    let '(input_length, padding_count) := strip_padding encoded (length encoded) 0 in
    if 2 <? padding_count then Err IREE_STATUS_INVALID_ARGUMENT
    else
      let remainder := Z.of_nat input_length mod 4 in
      if remainder =? 1 then Err IREE_STATUS_INVALID_ARGUMENT
      else
        let full_groups := Z.of_nat input_length / 4 in
        match iree_host_size_checked_mul full_groups 3 with
        | None => Err IREE_STATUS_OUT_OF_RANGE
        | Some decoded_length =>
            let decoded_length :=
              if remainder =? 2 then decoded_length +64 1
              else if remainder =? 3 then decoded_length +64 2 else decoded_length in
            if Z.of_nat (length out_buffer) <? decoded_length then Err IREE_STATUS_OUT_OF_RANGE
            else
              '(output, input) ← decode_groups (Z.to_nat full_groups) encoded;
              tail ← decode_tail remainder input;
              let output := output ++ tail in
              Ok (Z.of_nat (length output), overwrite output out_buffer)
        end.

(** * Correctness *)

Definition byte_ok (x : Z) : Prop := 0 <= x < 256.

(** A character of the alphabet. *)
Definition in_alphabet (c : Z) : Prop := 0 <= decode_char c < 64.

#[export] Instance in_alphabet_decision c : Decision (in_alphabet c).
Proof. unfold in_alphabet. apply _. Defined.

(** ** The tables *)

Lemma decode_char_cases c : byte_ok c → in_alphabet c ∨ 128 <= decode_char c < 256.
Proof.
  intros Hc. apply (forall_below (λ c, bool_decide (in_alphabet c) || bool_decide (128 <= decode_char c < 256)) 256) in Hc;
    [|by vm_compute]. apply orb_true_iff in Hc as [H%bool_decide_eq_true|H%bool_decide_eq_true]; auto.
Qed.

Lemma encode_char_ok v : 0 <= v < 64 → decode_char (encode_char v) = v ∧ byte_ok (encode_char v) ∧ encode_char v ≠ padding_character.
Proof.
  intros Hv. apply (forall_below (λ v, bool_decide (decode_char (encode_char v) = v ∧ 0 <= encode_char v < 256 ∧
    encode_char v ≠ padding_character)) 64) in Hv; [|by vm_compute]. by apply bool_decide_eq_true in Hv.
Qed.

Lemma padding_not_alphabet : ¬ in_alphabet padding_character.
Proof. by intros [_ ?]. Qed.

(** ** Rejected characters *)

Lemma high_bit_zero v : Z.land v 0x80 = 0 ↔ Z.testbit v 7 = false.
Proof.
  change 0x80 with (2 ^ 7). split; intros H.
  - assert (Z.testbit (Z.land v (2 ^ 7)) 7 = false) as E by by rewrite H.
    rewrite Z.land_spec, pow2_testbit, bool_decide_eq_true_2, andb_true_r in E by done. done.
  - apply word_ext. intros i Hi. rewrite Z.land_spec, pow2_testbit, Z.bits_0 by done.
    case_bool_decide; [subst; by rewrite H|apply andb_false_r].
Qed.

Lemma high_bit_value v : 0 <= v < 256 → Z.testbit v 7 = (128 <=? v).
Proof.
  intros Hv. apply (forall_below (λ v, Bool.eqb (Z.testbit v 7) (128 <=? v)) 256) in Hv; [|by vm_compute].
  by apply Bool.eqb_prop in Hv.
Qed.

Lemma fold_lor_testbit vs i : ∀ acc, 0 <= i → Z.testbit (foldl Z.lor acc vs) i = Z.testbit acc i || existsb (λ v, Z.testbit v i) vs.
Proof.
  induction vs as [|v vs IH]; intros acc Hi; simpl; [by rewrite orb_false_r|]. by rewrite IH, Z.lor_spec, orb_assoc.
Qed.

Lemma reject_invalid_spec cs :
  Forall byte_ok cs →
  reject_invalid (decode_char <$> cs) = if decide (Forall in_alphabet cs) then Ok tt else Err IREE_STATUS_INVALID_ARGUMENT.
Proof.
  intros Hb. assert (∀ v, negb (Z.land v 0x80 =? 0) = Z.testbit v 7) as Hhigh.
  { intros v. destruct (Z.testbit v 7) eqn:E; destruct (Z.eqb_spec (Z.land v 0x80) 0) as [E'|E']; try done.
    - apply high_bit_zero in E'. congruence.
    - by apply high_bit_zero in E. }
  assert (existsb (λ v, Z.testbit v 7) (decode_char <$> cs) = negb (bool_decide (Forall in_alphabet cs))) as He.
  { induction Hb as [|c cs Hc Hcs IH]; [done|]. rewrite fmap_cons. cbn [existsb]. rewrite IH.
    destruct (decode_char_cases c Hc) as [Ha|Hbad].
    - rewrite high_bit_value by (destruct Ha; lia). rewrite (proj2 (Z.leb_gt 128 (decode_char c))) by (destruct Ha; lia). simpl.
      f_equal. apply bool_decide_ext. rewrite Forall_cons. tauto.
    - rewrite high_bit_value, (proj2 (Z.leb_le 128 (decode_char c))) by lia. simpl. symmetry. apply negb_true_iff, bool_decide_eq_false.
      intros [[_ ?] _]%Forall_cons. lia. }
  unfold reject_invalid. rewrite Hhigh, fold_lor_testbit, Z.bits_0, orb_false_l by lia.
  assert (existsb (λ v, negb (Z.land v 0x80 =? 0)) (decode_char <$> cs) = existsb (λ v, Z.testbit v 7) (decode_char <$> cs)) as ->
    by (clear -Hhigh; induction cs as [|c cs IH]; [done|rewrite fmap_cons; cbn [existsb]; by rewrite Hhigh, IH]).
  rewrite He. case_decide; [by rewrite bool_decide_eq_true_2|by rewrite bool_decide_eq_false_2].
Qed.

(** ** Groups *)

(** Linear arithmetic with division and remainder by constants. *)
Ltac div_lia := Z.to_euclidean_division_equations; lia.

(** The sextets of three bytes, and the bytes of four sextets, arithmetically. *)
Lemma split_high x y k :
  0 <= k → 0 <= x → 0 <= y < 2 ^ k → Z.lor (Z.shiftl x k) y = x * 2 ^ k + y.
Proof. intros. rewrite Z.shiftl_mul_pow2 by done. by apply lor_low_bits. Qed.

Definition sextet0 (a : Z) : Z := Z.shiftr a 2.
Definition sextet1 (a b : Z) : Z := Z.lor (Z.shiftl (Z.land a 0x03) 4) (Z.shiftr b 4).
Definition sextet2 (b c : Z) : Z := Z.lor (Z.shiftl (Z.land b 0x0F) 2) (Z.shiftr c 6).
Definition sextet3 (c : Z) : Z := Z.land c 0x3F.

Lemma sextet0_eq a : sextet0 a = a / 4.
Proof. unfold sextet0. by rewrite Z.shiftr_div_pow2. Qed.

Lemma sextet1_eq a b : byte_ok a → byte_ok b → sextet1 a b = (a mod 4) * 16 + b / 16.
Proof.
  unfold sextet1, byte_ok. intros. change 0x03 with (2 ^ 2 - 1). rewrite land_ones_mod, Z.shiftr_div_pow2 by lia.
  change (2 ^ 2) with 4. change (2 ^ 4) with 16. rewrite split_high by (change (2 ^ 4) with 16; div_lia). done.
Qed.

Lemma sextet2_eq b c : byte_ok b → byte_ok c → sextet2 b c = (b mod 16) * 4 + c / 64.
Proof.
  unfold sextet2, byte_ok. intros. change 0x0F with (2 ^ 4 - 1). rewrite land_ones_mod, Z.shiftr_div_pow2 by lia.
  change (2 ^ 4) with 16. change (2 ^ 6) with 64. rewrite split_high by (change (2 ^ 2) with 4; div_lia). done.
Qed.

Lemma sextet3_eq c : sextet3 c = c mod 64.
Proof. unfold sextet3. change 0x3F with (2 ^ 6 - 1). by rewrite land_ones_mod. Qed.

Lemma sextets_bounds a b c :
  byte_ok a → byte_ok b → byte_ok c →
  0 <= sextet0 a < 64 ∧ 0 <= sextet1 a b < 64 ∧ 0 <= sextet2 b c < 64 ∧ 0 <= sextet3 c < 64.
Proof. intros. rewrite sextet0_eq, sextet1_eq, sextet2_eq, sextet3_eq by done. unfold byte_ok in *. div_lia. Qed.

Definition join0 (s0 s1 : Z) : Z := wrap 8 (Z.lor (Z.shiftl s0 2) (Z.shiftr s1 4)).
Definition join1 (s1 s2 : Z) : Z := wrap 8 (Z.lor (Z.shiftl s1 4) (Z.shiftr s2 2)).
Definition join2 (s2 s3 : Z) : Z := wrap 8 (Z.lor (Z.shiftl s2 6) s3).

Lemma join0_eq s0 s1 : 0 <= s0 < 64 → 0 <= s1 < 64 → join0 s0 s1 = s0 * 4 + s1 / 16.
Proof.
  intros. unfold join0. rewrite Z.shiftr_div_pow2 by lia. change (2 ^ 4) with 16.
  rewrite split_high by (change (2 ^ 2) with 4; div_lia). apply wrap_small. unfold in_width. change (2 ^ 2) with 4. div_lia.
Qed.

Lemma join1_eq s1 s2 : 0 <= s1 < 64 → 0 <= s2 < 64 → join1 s1 s2 = (s1 mod 16) * 16 + s2 / 4.
Proof.
  intros. unfold join1. rewrite Z.shiftr_div_pow2 by lia. change (2 ^ 2) with 4.
  rewrite split_high by (change (2 ^ 4) with 16; div_lia). unfold wrap. change (2 ^ 8) with 256. change (2 ^ 4) with 16. div_lia.
Qed.

Lemma join2_eq s2 s3 : 0 <= s2 < 64 → 0 <= s3 < 64 → join2 s2 s3 = (s2 mod 4) * 64 + s3.
Proof.
  intros. unfold join2. rewrite split_high by (change (2 ^ 6) with 64; div_lia). unfold wrap.
  change (2 ^ 8) with 256. change (2 ^ 6) with 64. div_lia.
Qed.

(** Joining the sextets of three bytes. *)
Lemma joins_sextets a b c :
  byte_ok a → byte_ok b → byte_ok c →
  join0 (sextet0 a) (sextet1 a b) = a ∧ join1 (sextet1 a b) (sextet2 b c) = b ∧ join2 (sextet2 b c) (sextet3 c) = c.
Proof.
  intros Ha Hb Hc. destruct (sextets_bounds a b c Ha Hb Hc) as (H0 & H1 & H2 & H3).
  rewrite join0_eq, join1_eq, join2_eq by done. rewrite sextet0_eq, sextet1_eq, sextet2_eq, sextet3_eq by done.
  unfold byte_ok in *. div_lia.
Qed.

Ltac bytes_of H :=
  repeat (apply Forall_cons in H; let Hx := fresh "Hx" in destruct H as [Hx H]).

Lemma decode_groups_spec n : ∀ input,
  Forall byte_ok input → (4 * n <= length input)%nat →
  if decide (Forall in_alphabet (take (4 * n) input))
  then ∃ out, decode_groups n input = Ok (out, drop (4 * n) input) ∧ length out = (3 * n)%nat
  else decode_groups n input = Err IREE_STATUS_INVALID_ARGUMENT.
Proof.
  induction n as [|n IH]; intros input Hb Hlen.
  { rewrite decide_True by constructor. exists []. by destruct input. }
  destruct input as [|a [|b [|c [|d input]]]]; [simpl in Hlen; lia..|].
  replace (4 * S n)%nat with (S (S (S (S (4 * n))))) in * by lia. cbn [take drop decode_groups].
  change [decode_char a; decode_char b; decode_char c; decode_char d] with (decode_char <$> [a; b; c; d]).
  assert (Forall byte_ok [a; b; c; d] ∧ Forall byte_ok input) as [H4 Hrest].
  { by apply (Forall_app byte_ok [a; b; c; d] input). }
  rewrite reject_invalid_spec by done. specialize (IH input Hrest ltac:(simpl in Hlen; lia)).
  assert (Forall in_alphabet (a :: b :: c :: d :: take (4 * n) input) ↔
    Forall in_alphabet [a; b; c; d] ∧ Forall in_alphabet (take (4 * n) input)) as Hiff
    by apply (Forall_app in_alphabet [a; b; c; d]).
  destruct (decide (Forall in_alphabet [a; b; c; d])) as [Hok|Hbad]; cbn [mbind status_or_bind].
  - destruct (decide (Forall in_alphabet (take (4 * n) input))) as [Hr|Hr].
    + rewrite decide_True by tauto. destruct IH as (out & -> & Hl). cbn [mbind status_or_bind]. eexists. split; [done|].
      simpl. lia.
    + rewrite decide_False by tauto. by rewrite IH.
  - by rewrite decide_False by tauto.
Qed.

(** The bytes of [r] trailing characters. *)
Definition tail_bytes (r : Z) : Z := if r =? 0 then 0 else r - 1.

Lemma decode_tail_spec r input :
  Forall byte_ok input → (Z.to_nat r <= length input)%nat → r = 0 ∨ r = 2 ∨ r = 3 →
  if decide (Forall in_alphabet (take (Z.to_nat r) input))
  then ∃ out, decode_tail r input = Ok out ∧ Z.of_nat (length out) = tail_bytes r
  else decode_tail r input = Err IREE_STATUS_INVALID_ARGUMENT.
Proof.
  intros Hb Hlen [->|[->| ->]].
  - rewrite decide_True by constructor. by exists [].
  - destruct input as [|a [|b input]]; [simpl in Hlen; lia..|]. change (take (Z.to_nat 2) _) with [a; b].
    assert (Forall byte_ok [a; b]) as H2 by by apply (Forall_app byte_ok [a; b] input).
    unfold decode_tail. change [decode_char a; decode_char b] with (decode_char <$> [a; b]). cbn [Z.eqb Pos.eqb].
    rewrite reject_invalid_spec by done. case_decide; [by eexists|done].
  - destruct input as [|a [|b [|c input]]]; [simpl in Hlen; lia..|]. change (take (Z.to_nat 3) _) with [a; b; c].
    assert (Forall byte_ok [a; b; c]) as H3 by by apply (Forall_app byte_ok [a; b; c] input).
    unfold decode_tail. change [decode_char a; decode_char b; decode_char c] with (decode_char <$> [a; b; c]). cbn [Z.eqb Pos.eqb].
    rewrite reject_invalid_spec by done. case_decide; [by eexists|done].
Qed.

(** ** Padding *)

Lemma strip_padding_spec data n : ∀ p,
  0 <= p → p + Z.of_nat n < 2 ^ 64 →
  ∃ m, (m <= n)%nat ∧ strip_padding data n p = (m, p + Z.of_nat (n - m)) ∧
    (∀ j, (m <= j < n)%nat → data !!! j = padding_character) ∧ (m = O ∨ data !!! (m - 1)%nat ≠ padding_character).
Proof.
  induction n as [|n IH]; intros p Hp Hlt; cbn [strip_padding].
  - exists O. split; [done|]. split; [f_equal; lia|]. split; [intros; lia|by left].
  - destruct (Z.eqb_spec (data !!! n) padding_character) as [E|NE].
    + rewrite uadd_small by lia. destruct (IH (p + 1) ltac:(lia) ltac:(lia)) as (m & Hm & -> & Hall & Hend).
      exists m. split; [lia|]. split; [f_equal; lia|]. split; [|done]. intros j Hj.
      destruct (decide (j = n)) as [->|]; [done|]. apply Hall. lia.
    + exists (S n). split; [done|]. split; [f_equal; lia|]. split; [intros; lia|]. right. by rewrite Nat.sub_succ, Nat.sub_0_r.
Qed.

(** A text whose payload does not end in padding. *)
Lemma strip_padding_app body k :
  (body = [] ∨ ∃ x, last body = Some x ∧ x ≠ padding_character) →
  Z.of_nat (length body) + Z.of_nat k < 2 ^ 64 →
  strip_padding (body ++ replicate k padding_character) (length (body ++ replicate k padding_character)) 0 =
    (length body, Z.of_nat k).
Proof.
  intros Hend Hlt. set (data := body ++ replicate k padding_character).
  assert (length data = (length body + k)%nat) as El by (unfold data; by rewrite length_app, length_replicate).
  assert (∀ j, (length body <= j < length body + k)%nat → data !!! j = padding_character) as Hpad.
  { intros j Hj. unfold data. rewrite list_lookup_total_alt, lookup_app_r, lookup_replicate_2 by lia. done. }
  assert (∀ j, (j < length body)%nat → data !!! j = body !!! j) as Hbody.
  { intros j Hj. unfold data. by rewrite !list_lookup_total_alt, lookup_app_l. }
  destruct (strip_padding_spec data (length data) 0 ltac:(lia) ltac:(lia)) as (m & Hm & -> & Hall & Hlast).
  assert (m = length body) as ->; [|f_equal; lia].
  destruct (Nat.lt_trichotomy m (length body)) as [Hlow|[?|Hhigh]]; [|done|].
  - exfalso. destruct Hend as [->|(x & Ex & Hx)]; [simpl in Hlow; lia|]. apply Hx.
    rewrite last_lookup in Ex. specialize (Hall (pred (length body)) ltac:(lia)). rewrite Hbody in Hall by lia.
    by rewrite list_lookup_total_alt, Ex in Hall.
  - exfalso. destruct Hlast as [->|Hl]; [lia|]. apply Hl, Hpad. lia.
Qed.

(** ** Encoded text *)

(** A character the encoder emits other than padding. *)
Definition payload_char (c : Z) : Prop := byte_ok c ∧ in_alphabet c ∧ c ≠ padding_character.

Lemma encode_char_payload v : 0 <= v < 64 → payload_char (encode_char v).
Proof. intros Hv. destruct (encode_char_ok v Hv) as (E & ? & ?). split; [done|]. split; [|done]. by unfold in_alphabet; rewrite E. Qed.

Lemma reject_payload cs : Forall payload_char cs → reject_invalid (decode_char <$> cs) = Ok tt.
Proof.
  intros H. rewrite reject_invalid_spec by (eapply Forall_impl; [exact H|by intros ? []]).
  apply decide_True. eapply Forall_impl; [exact H|by intros ? (_ & ? & _)].
Qed.

(** The full groups decode to the bytes they encode. *)
Lemma encode_groups_spec n : ∀ data,
  Forall byte_ok data → (3 * n <= length data)%nat →
  ∃ out, encode_groups n data = (out, drop (3 * n) data) ∧ length out = (4 * n)%nat ∧ Forall payload_char out ∧
    ∀ rest, decode_groups n (out ++ rest) = Ok (take (3 * n) data, rest).
Proof.
  induction n as [|n IH]; intros data Hb Hlen.
  { exists []. split; [by destruct data|]. split; [done|]. split; [constructor|by destruct rest]. }
  destruct data as [|a [|b [|c data]]]; [simpl in Hlen; lia..|].
  replace (3 * S n)%nat with (S (S (S (3 * n)))) by lia. cbn [take drop encode_groups].
  bytes_of Hb. destruct (IH data Hb ltac:(simpl in Hlen; lia)) as (out & -> & Hl & Hp & Hdec).
  fold (sextet0 a) (sextet1 a b) (sextet2 b c) (sextet3 c).
  destruct (sextets_bounds a b c) as (B0 & B1 & B2 & B3); [done..|].
  assert (Forall payload_char [encode_char (sextet0 a); encode_char (sextet1 a b); encode_char (sextet2 b c); encode_char (sextet3 c)])
    as Hchars by (repeat (apply Forall_cons; split; [by apply encode_char_payload|]); constructor).
  eexists. split; [done|]. split; [simpl; lia|]. split; [by apply (Forall_app_2 _ [_; _; _; _])|].
  intros rest. cbn [app decode_groups].
  rewrite (reject_payload _ Hchars : reject_invalid [_; _; _; _] = _). cbn [mbind status_or_bind]. rewrite Hdec.
  cbn [mbind status_or_bind]. rewrite !(fun v H => proj1 (encode_char_ok v H)) by done.
  fold (join0 (sextet0 a) (sextet1 a b)) (join1 (sextet1 a b) (sextet2 b c)) (join2 (sextet2 b c) (sextet3 c)).
  destruct (joins_sextets a b c) as (-> & -> & ->); done.
Qed.

(** Characters and padding of [r] trailing bytes. *)
Definition tail_chars (r : Z) : Z := if r =? 0 then 0 else r + 1.
Definition tail_padding (r : Z) : Z := if r =? 0 then 0 else 3 - r.

Lemma encode_tail_spec data :
  Forall byte_ok data → (length data < 3)%nat →
  let r := Z.of_nat (length data) in
  ∃ body, encode_tail r data = body ++ replicate (Z.to_nat (tail_padding r)) padding_character ∧
    Z.of_nat (length body) = tail_chars r ∧ Forall payload_char body ∧
    ∀ rest, decode_tail (tail_chars r) (body ++ rest) = Ok data.
Proof.
  intros Hb Hlen. assert (byte_ok 0) as Hz by by unfold byte_ok. assert (∀ x, Z.lor x 0 = x) as Hlor by apply Z.lor_0_r.
  destruct data as [|a [|b [|c data]]]; [| | |simpl in Hlen; lia]; bytes_of Hb; cbn [length encode_tail].
  - exists []. split; [done|]. split; [done|]. split; [constructor|done].
  - destruct (sextets_bounds a 0 0) as (B0 & B1 & _); [done..|]. destruct (joins_sextets a 0 0) as (J0 & _); [done..|].
    exists [encode_char (sextet0 a); encode_char (sextet1 a 0)].
    split; [unfold sextet1; change (Z.shiftr 0 4) with 0; by rewrite Hlor|]. split; [done|].
    assert (Forall payload_char [encode_char (sextet0 a); encode_char (sextet1 a 0)]) as Hp
      by (repeat (apply Forall_cons; split; [by apply encode_char_payload|]); constructor).
    split; [done|]. intros rest. unfold decode_tail. cbn [length tail_chars]. change (tail_chars (Z.of_nat 1)) with 2. cbn [Z.eqb Pos.eqb app].
    rewrite (reject_payload _ Hp : reject_invalid [_; _] = _). cbn [mbind status_or_bind].
    rewrite !(fun v H => proj1 (encode_char_ok v H)) by done. fold (join0 (sextet0 a) (sextet1 a 0)). by rewrite J0.
  - destruct (sextets_bounds a b 0) as (B0 & B1 & B2 & _); [done..|]. destruct (joins_sextets a b 0) as (J0 & J1 & _); [done..|].
    exists [encode_char (sextet0 a); encode_char (sextet1 a b); encode_char (sextet2 b 0)].
    split; [unfold sextet2; change (Z.shiftr 0 6) with 0; by rewrite Hlor|]. split; [done|].
    assert (Forall payload_char [encode_char (sextet0 a); encode_char (sextet1 a b); encode_char (sextet2 b 0)]) as Hp
      by (repeat (apply Forall_cons; split; [by apply encode_char_payload|]); constructor).
    split; [done|]. intros rest. unfold decode_tail. change (tail_chars (Z.of_nat 2)) with 3. cbn [Z.eqb Pos.eqb app].
    rewrite (reject_payload _ Hp : reject_invalid [_; _; _] = _). cbn [mbind status_or_bind].
    rewrite !(fun v H => proj1 (encode_char_ok v H)) by done.
    fold (join0 (sextet0 a) (sextet1 a b)) (join1 (sextet1 a b) (sextet2 b 0)). by rewrite J0, J1.
Qed.

(** ** Sizes *)

(** The bytes that [len] payload characters decode to. *)
Definition payload_bytes (len : Z) : Z := 3 * (len / 4) + tail_bytes (len mod 4).

(** A payload, which does not end in padding. *)
Definition ends_unpadded (body : list Z) : Prop := body = [] ∨ ∃ x, last body = Some x ∧ x ≠ padding_character.

(** Every text is a payload followed by padding. *)
Lemma text_decomposes text : ∃ body k, text = body ++ replicate k padding_character ∧ ends_unpadded body.
Proof.
  induction text as [|x text IH] using rev_ind; [by exists [], O; split; [|left]|].
  destruct (decide (x = padding_character)) as [->|Hx].
  - destruct IH as (body & k & -> & Hend). exists body, (S k). split; [|done]. by rewrite replicate_S_end, app_assoc.
  - exists (text ++ [x]), O. split; [by rewrite app_nil_r|]. right. exists x. by rewrite last_snoc.
Qed.

Lemma ends_unpadded_payload body : Forall payload_char body → ends_unpadded body.
Proof.
  intros H. destruct (last body) as [x|] eqn:E; [|left; by apply last_None]. right. exists x. split; [done|].
  rewrite last_lookup in E. by apply (Forall_lookup_1 _ _ _ _ H) in E as (_ & _ & ?).
Qed.

Lemma checked_mul_fits a b : 0 <= a → 0 <= b < 2 ^ 64 → a < 2 ^ 64 → a * b < 2 ^ 64 → iree_host_size_checked_mul a b = Some (a * b).
Proof. intros. rewrite checked_mul_u64_eq by (unfold in_width; lia). unfold checked, umax. rewrite decide_True; [done|nia]. Qed.

Lemma checked_add_fits a b : 0 <= a → 0 <= b → a + b < 2 ^ 64 → iree_host_size_checked_add a b = Some (a + b).
Proof. intros. rewrite checked_add_u64_eq by (unfold in_width; lia). unfold checked, umax. rewrite decide_True; [done|lia]. Qed.

Lemma encoded_size_eq n :
  in_width 64 n →
  iree_base64_encoded_size n = if decide (4 * ((n + 2) / 3) < 2 ^ 64) then 4 * ((n + 2) / 3) else IREE_HOST_SIZE_MAX.
Proof.
  intros Hn. unfold in_width in Hn. unfold iree_base64_encoded_size.
  rewrite checked_add_u64_eq by (unfold in_width; lia). unfold checked, umax.
  case_decide; [|rewrite decide_False; [done|div_lia]].
  rewrite checked_mul_u64_eq by (unfold in_width; div_lia). unfold checked, umax.
  case_decide; [rewrite decide_True by div_lia; lia|rewrite decide_False by div_lia; done].
Qed.

Lemma payload_bytes_bounds len : 0 <= len → 0 <= payload_bytes len <= len.
Proof. intros. unfold payload_bytes, tail_bytes. destruct (Z.eqb_spec (len mod 4) 0); div_lia. Qed.

Lemma decoded_size_eq body k :
  ends_unpadded body → Z.of_nat (length (body ++ replicate k padding_character)) < 2 ^ 64 →
  iree_base64_decoded_size (body ++ replicate k padding_character) = payload_bytes (Z.of_nat (length body)).
Proof.
  intros Hend Hlt. unfold iree_base64_decoded_size.
  destruct (Z.eqb_spec (Z.of_nat (length (body ++ replicate k padding_character))) 0) as [E|_].
  { rewrite length_app in E. replace (length body) with O by lia. done. }
  rewrite length_app, length_replicate in Hlt. rewrite strip_padding_app by (done || lia). cbn [fst].
  set (len := Z.of_nat (length body)) in *. pose proof (payload_bytes_bounds len ltac:(lia)) as Hbound.
  unfold payload_bytes in *. rewrite checked_mul_fits by div_lia. fold (tail_bytes (len mod 4)).
  rewrite checked_add_fits by (unfold tail_bytes in *; destruct (Z.eqb_spec (len mod 4) 0); div_lia). lia.
Qed.

(** ** The whole decoder *)

(** The decoder on a payload followed by padding, up to its two loops. *)
Lemma decode_unfold body k out_buffer :
  ends_unpadded body → Z.of_nat (length (body ++ replicate k padding_character)) < 2 ^ 64 →
  let len := Z.of_nat (length body) in
  iree_base64_decode (body ++ replicate k padding_character) out_buffer =
    if bool_decide (2 < Z.of_nat k ∨ len mod 4 = 1) then Err IREE_STATUS_INVALID_ARGUMENT
    else if Z.of_nat (length out_buffer) <? payload_bytes len then Err IREE_STATUS_OUT_OF_RANGE
    else
      '(output, input) ← decode_groups (Z.to_nat (len / 4)) (body ++ replicate k padding_character);
      tail ← decode_tail (len mod 4) input;
      Ok (Z.of_nat (length (output ++ tail)), overwrite (output ++ tail) out_buffer).
Proof.
  intros Hend Hlt len. unfold iree_base64_decode.
  destruct (Z.eqb_spec (Z.of_nat (length (body ++ replicate k padding_character))) 0) as [E|_].
  { rewrite length_app, length_replicate in E. destruct body; [|simpl in E; lia]. destruct k; [|lia]. cbn.
    by destruct out_buffer. }
  rewrite length_app, length_replicate in Hlt. rewrite strip_padding_app by (done || lia). fold len.
  destruct (Z.ltb_spec 2 (Z.of_nat k)); [by rewrite bool_decide_eq_true_2 by lia|].
  destruct (Z.eqb_spec (len mod 4) 1); [by rewrite bool_decide_eq_true_2 by lia|].
  rewrite bool_decide_eq_false_2 by lia. pose proof (payload_bytes_bounds len ltac:(lia)).
  rewrite checked_mul_fits by div_lia.
  match goal with |- context [if _ <? ?d then _ else _] => replace d with (payload_bytes len) end; [done|].
  unfold payload_bytes, tail_bytes in *. pose proof (Z.mod_pos_bound len 4 ltac:(lia)).
  destruct (Z.eqb_spec (len mod 4) 2); [rewrite uadd_small by div_lia|destruct (Z.eqb_spec (len mod 4) 3); [rewrite uadd_small by div_lia|]];
    destruct (Z.eqb_spec (len mod 4) 0); lia.
Qed.

(** The two loops accept exactly the payloads over the alphabet. *)
Lemma decode_payload body padding :
  Forall byte_ok (body ++ padding) → Z.of_nat (length body) mod 4 ≠ 1 →
  let len := Z.of_nat (length body) in
  let result :=
    '(output, input) ← decode_groups (Z.to_nat (len / 4)) (body ++ padding);
    tail ← decode_tail (len mod 4) input; Ok (output ++ tail) in
  if decide (Forall in_alphabet body)
  then ∃ bytes, result = Ok bytes ∧ Z.of_nat (length bytes) = payload_bytes len
  else result = Err IREE_STATUS_INVALID_ARGUMENT.
Proof.
  intros Hb Hmod len result. set (n := Z.to_nat (len / 4)) in *.
  assert (length body = (4 * n + Z.to_nat (len mod 4))%nat) as Hsplit by (unfold n; div_lia).
  assert (take (4 * n) (body ++ padding) = take (4 * n) body) as Etake by (apply take_app_le; lia).
  assert (take (Z.to_nat (len mod 4)) (drop (4 * n) (body ++ padding)) = drop (4 * n) body) as Edrop.
  { rewrite drop_app_le by lia. apply take_app_length'. rewrite length_drop. lia. }
  pose proof (decode_groups_spec n _ Hb) as Hgroups. rewrite length_app in Hgroups. specialize (Hgroups ltac:(lia)).
  rewrite Etake in Hgroups.
  pose proof (decode_tail_spec (len mod 4) (drop (4 * n) (body ++ padding)) ltac:(by apply Forall_drop)) as Htail.
  rewrite length_drop, length_app, Edrop in Htail. specialize (Htail ltac:(lia) ltac:(fold len in Hmod; div_lia)).
  assert (Forall in_alphabet body ↔ Forall in_alphabet (take (4 * n) body) ∧ Forall in_alphabet (drop (4 * n) body)) as Hiff
    by (rewrite <- Forall_app, take_drop; done).
  unfold result. destruct (decide (Forall in_alphabet (take (4 * n) body))) as [H1|H1].
  - destruct Hgroups as (output & -> & Hl). cbn [mbind status_or_bind].
    destruct (decide (Forall in_alphabet (drop (4 * n) body))) as [H2|H2].
    + rewrite decide_True by tauto. destruct Htail as (tail & -> & Ht). cbn [mbind status_or_bind]. eexists. split; [done|].
      rewrite length_app. unfold payload_bytes. unfold n in Hl. div_lia.
    + rewrite decide_False by tauto. by rewrite Htail.
  - rewrite decide_False by tauto. by rewrite Hgroups.
Qed.

(** The loops and the write of their bytes. *)
Lemma decode_write (len : Z) input out_buffer :
  ('(output, input) ← decode_groups (Z.to_nat (len / 4)) input;
   tail ← decode_tail (len mod 4) input;
   Ok (Z.of_nat (length (output ++ tail)), overwrite (output ++ tail) out_buffer)) =
  (bytes ← ('(output, input) ← decode_groups (Z.to_nat (len / 4)) input;
            tail ← decode_tail (len mod 4) input; Ok (output ++ tail));
   Ok (Z.of_nat (length bytes), overwrite bytes out_buffer)).
Proof. destruct (decode_groups _ _) as [[output rest]|]; [|done]. simpl. by destruct (decode_tail _ _). Qed.

(** The decoder accepts exactly the texts of a payload followed by at most two ['='] (every text is a payload that does not
    end in ['='] followed by some number of them), whose payload is over the alphabet and leaves no single trailing character,
    with a buffer of at least [iree_base64_decoded_size] bytes; it then reports that size, writes that many bytes and leaves the
    rest of the buffer.  A text with more padding, a dangling character or a foreign character is [INVALID_ARGUMENT], and a well
    shaped text with a short buffer is [OUT_OF_RANGE].  The padding need not complete a group of four. *)
Theorem base64_decode_exact body k out_buffer :
  let encoded := body ++ replicate k padding_character in
  let len := Z.of_nat (length body) in
  Forall byte_ok body → ends_unpadded body → Z.of_nat (length encoded) < 2 ^ 64 →
  let size := iree_base64_decoded_size encoded in
  let room := Z.of_nat (length out_buffer) in
  size = 3 * (len / 4) + (if len mod 4 =? 0 then 0 else len mod 4 - 1) ∧
  match iree_base64_decode encoded out_buffer with
  | Ok (length_out, buffer) =>
      (k <= 2)%nat ∧ len mod 4 ≠ 1 ∧ size <= room ∧ Forall in_alphabet body ∧ length_out = size ∧
      ∃ bytes, Z.of_nat (length bytes) = size ∧ buffer = bytes ++ drop (length bytes) out_buffer
  | Err IREE_STATUS_INVALID_ARGUMENT =>
      (2 < k)%nat ∨ len mod 4 = 1 ∨ (size <= room ∧ ¬ Forall in_alphabet body)
  | Err IREE_STATUS_OUT_OF_RANGE => (k <= 2)%nat ∧ len mod 4 ≠ 1 ∧ room < size
  | Err _ => False
  end.
Proof.
  intros encoded len Hb Hend Hlt size room. unfold size, encoded. rewrite decoded_size_eq by done. fold len. split; [done|].
  rewrite decode_unfold by done. fold len. case_bool_decide as Hshape; [lia|].
  destruct (Z.ltb_spec (Z.of_nat (length out_buffer)) (payload_bytes len)) as [Hroom|Hroom]; [fold room in Hroom; lia|].
  rewrite decode_write.
  assert (Forall byte_ok (body ++ replicate k padding_character)) as Hbytes.
  { apply Forall_app_2; [done|]. by apply Forall_replicate. }
  pose proof (decode_payload body _ Hbytes ltac:(fold len; lia)) as Hdec. fold len in Hdec. cbv zeta in Hdec.
  destruct (decide (Forall in_alphabet body)) as [Ha|Ha].
  - destruct Hdec as (bytes & -> & Hl). cbn [mbind status_or_bind]. fold room in Hroom.
    repeat (split; [done || lia|]). exists bytes. by split.
  - rewrite Hdec. cbn [mbind status_or_bind]. right; right. by split.
Qed.

Lemma base64_decode_exact_witness :
  (* "Zm9v=" is accepted although its padding completes no group. *)
  let body := [90; 109; 57; 118] in
  (Forall byte_ok body ∧ ends_unpadded body ∧ iree_base64_decode (body ++ replicate 1 61) [0; 0; 0; 7] = Ok (3, [102; 111; 111; 7])) ∧
  iree_base64_decoded_size (body ++ replicate 1 61) = 3.
Proof.
  assert (Forall byte_ok [90; 109; 57; 118]) as Hb by (repeat constructor; done).
  assert (ends_unpadded [90; 109; 57; 118]) as He by (right; by exists 118).
  split; [by split; [|split]|]. destruct (base64_decode_exact [90; 109; 57; 118] 1 [0; 0; 0; 7] Hb He) as [-> _]; done.
Defined.

(** Sizes of [q] groups and [r] trailing bytes. *)
Lemma tail_sizes q r :
  0 <= q → 0 <= r < 3 →
  4 * q + tail_chars r + tail_padding r = 4 * ((3 * q + r + 2) / 3) ∧ 0 <= tail_padding r <= 2 ∧
  (4 * q + tail_chars r) / 4 = q ∧ (4 * q + tail_chars r) mod 4 = tail_chars r ∧ tail_chars r ≠ 1 ∧
  tail_bytes (tail_chars r) = r.
Proof.
  intros Hq Hr. assert (r = 0 ∨ r = 1 ∨ r = 2) as [->|[->| ->]] by lia;
    unfold tail_chars, tail_padding, tail_bytes; simpl; repeat split; try div_lia.
Qed.

(** The text of [data]: a payload over the alphabet, and padding up to a multiple of four characters. *)
Lemma encoded_text data :
  Forall byte_ok data →
  let n := Z.of_nat (length data) in
  ∃ body k,
    (let '(output, input) := encode_groups (Z.to_nat (n / 3)) data in output ++ encode_tail (n mod 3) input) =
      body ++ replicate k padding_character ∧
    Forall payload_char body ∧ (k <= 2)%nat ∧ Z.of_nat (length body + k) = 4 * ((n + 2) / 3) ∧
    (Z.of_nat (length body)) mod 4 ≠ 1 ∧ payload_bytes (Z.of_nat (length body)) = n ∧
    ∀ rest, ('(output, input) ← decode_groups (Z.to_nat (Z.of_nat (length body) / 4)) (body ++ rest);
             tail ← decode_tail (Z.of_nat (length body) mod 4) input; Ok (output ++ tail)) = Ok data.
Proof.
  intros Hb n. set (q := Z.to_nat (n / 3)). assert (3 * q <= length data)%nat as Hq by (unfold q; div_lia).
  destruct (encode_groups_spec q data Hb Hq) as (out & -> & Hout & Hpay & Hdec).
  assert (Z.of_nat (length (drop (3 * q) data)) = n mod 3) as Hr by (rewrite length_drop; unfold q; div_lia).
  destruct (encode_tail_spec (drop (3 * q) data)) as (body & Etail & Hbody & Hpbody & Hdtail);
    [by apply Forall_drop|div_lia|]. rewrite Hr in *. set (r := n mod 3) in *.
  assert (n = 3 * Z.of_nat q + r) as Hn by (unfold r, q; div_lia).
  assert (Z.of_nat (length (out ++ body)) = 4 * Z.of_nat q + tail_chars r) as Hlen by (rewrite length_app; lia).
  destruct (tail_sizes (Z.of_nat q) r) as (Hsize & Hpad & Hdiv & Hmod & Hone & Hbytes); [lia|unfold r; div_lia|].
  rewrite <- Hn in Hsize. exists (out ++ body), (Z.to_nat (tail_padding r)). unfold payload_bytes.
  rewrite Etail, app_assoc, Nat2Z.inj_add, Hlen, Hdiv, Hmod, Hbytes.
  split; [done|]. split; [by apply Forall_app_2|]. split; [lia|]. split; [lia|]. split; [done|]. split; [lia|].
  intros rest. rewrite <- app_assoc, Nat2Z.id, Hdec. cbn [mbind status_or_bind]. rewrite Hdtail. cbn [mbind status_or_bind].
  by rewrite take_drop.
Qed.

(** Encoding succeeds exactly when [4 * ceil(n / 3)] is a representable size within the output ([OUT_OF_RANGE] otherwise,
    including when the size computation itself overflows).  On success it writes a text of that length, a multiple of four,
    leaving the rest of the output; the text's decoded size is the length of the data, and decoding it into any buffer of
    at least that length returns the data and leaves the rest of the buffer. *)
Theorem base64_round_trip data out_string out_buffer :
  let n := Z.of_nat (length data) in
  Forall byte_ok data → n < 2 ^ 64 → n <= Z.of_nat (length out_buffer) →
  if decide (4 * ((n + 2) / 3) < 2 ^ 64 ∧ 4 * ((n + 2) / 3) <= Z.of_nat (length out_string))
  then ∃ text,
    Z.of_nat (length text) = 4 * ((n + 2) / 3) ∧
    iree_base64_encode data out_string = Ok (Z.of_nat (length text), text ++ drop (length text) out_string) ∧
    iree_base64_decoded_size text = n ∧
    iree_base64_decode text out_buffer = Ok (n, data ++ drop (length data) out_buffer)
  else iree_base64_encode data out_string = Err IREE_STATUS_OUT_OF_RANGE.
Proof.
  intros n Hb Hn Hroom. assert (n = 0 → data = []) as Hnil by (intros; apply nil_length_inv; lia).
  destruct (encoded_text data Hb) as (body & k & Etext & Hpay & Hk & Hlen & Hmod & Hbytes & Hdec). fold n in Etext, Hlen, Hbytes.
  unfold iree_base64_encode. fold n. rewrite encoded_size_eq by (unfold in_width; lia).
  destruct (Z.eqb_spec n 0) as [E|Hpos].
  { rewrite decide_True by (rewrite E; change ((0 + 2) / 3) with 0; lia). exists []. rewrite E, (Hnil E). by destruct out_string, out_buffer. }
  destruct (decide (4 * ((n + 2) / 3) < 2 ^ 64)) as [Hfit|Hfit]; [|by rewrite decide_False by tauto].
  rewrite (proj2 (Z.eqb_neq (4 * ((n + 2) / 3)) IREE_HOST_SIZE_MAX)) by (unfold IREE_HOST_SIZE_MAX, umax; lia).
  destruct (Z.ltb_spec (Z.of_nat (length out_string)) (4 * ((n + 2) / 3))); [by rewrite decide_False by lia|].
  rewrite decide_True by lia. exists (body ++ replicate k padding_character).
  destruct (encode_groups _ data) as [output input]. rewrite Etext.
  rewrite length_app, length_replicate, Hlen. split; [done|].
  split; [unfold overwrite; by rewrite length_app, length_replicate|].
  assert (Z.of_nat (length (body ++ replicate k padding_character)) < 2 ^ 64) as Hlt by (rewrite length_app, length_replicate; lia).
  assert (ends_unpadded body) as Hend by by apply ends_unpadded_payload.
  rewrite decoded_size_eq, decode_unfold, Hbytes by done. split; [done|].
  rewrite bool_decide_eq_false_2 by lia. rewrite (proj2 (Z.ltb_ge _ _)) by done. by rewrite decode_write, Hdec.
Qed.

Lemma base64_round_trip_witness :
  (Forall byte_ok [0; 255; 16; 7] ∧ iree_base64_encode [0; 255; 16; 7] (replicate 9 33) = Ok (8, [65; 80; 56; 81; 66; 119; 61; 61; 33])) ∧
  ∃ text, Z.of_nat (length text) = 8 ∧ iree_base64_decode text [1; 2; 3; 4; 5] = Ok (4, [0; 255; 16; 7; 5]).
Proof.
  assert (Forall byte_ok [0; 255; 16; 7]) as Hb by (repeat constructor; done).
  split; [by split|]. destruct (base64_round_trip [0; 255; 16; 7] (replicate 9 33) [1; 2; 3; 4; 5] Hb) as (text & Hl & _ & _ & Hd);
    [done..|]. by exists text.
Defined.
