(* ===== verification/SpscQueue.v ===== *)
(** * Single-producer single-consumer queue

    [iree/base/internal/spsc_queue.h] and [spsc_queue.c]: a ring of framed messages in
    memory that two processes share.  A function is a program of type [prog] over single
    memory accesses, so that the same definition runs alone ([run]) and interleaved with
    the other side ([spsc_step]).  A position is an [int64_t]; runs in which one overflows
    are not considered, and the memory orders of the atomics are not modelled. *)

From S2P Require Import Prelude BaseMath WireBytes.
From stdpp Require Import base numbers list list_numbers.

Local Open Scope Z_scope.
Local Open Scope machine_scope.

(** ** Memory *)

Definition IREE_SPSC_QUEUE_MAGIC : Z := 0x51525049.
Definition IREE_SPSC_QUEUE_VERSION : Z := 1.
Definition IREE_SPSC_QUEUE_HEADER_SIZE : Z := 256.
Definition IREE_SPSC_QUEUE_MIN_CAPACITY : Z := 64.
Definition IREE_SPSC_QUEUE_DEFAULT_ENTRY_ALIGNMENT : Z := 8.
Definition IREE_SPSC_QUEUE_SKIP_MARKER : Z := umax 32.

Record iree_spsc_queue_header_t := mk_spsc_header {
  sh_magic : Z;
  sh_version : Z;
  sh_capacity : Z;
  sh_entry_alignment : Z;
}.

(** The shared region: the header, the three positions and the bytes of the data region
    by offset. *)
Record spsc_memory := mk_spsc_memory {
  sm_header : iree_spsc_queue_header_t;
  sm_write : Z;
  sm_read : Z;
  sm_cached : Z;
  sm_data : Z → Z;
}.

Definition set_write (v : Z) (m : spsc_memory) : spsc_memory :=
  mk_spsc_memory (sm_header m) v (sm_read m) (sm_cached m) (sm_data m).
Definition set_read (v : Z) (m : spsc_memory) : spsc_memory :=
  mk_spsc_memory (sm_header m) (sm_write m) v (sm_cached m) (sm_data m).
Definition set_cached (v : Z) (m : spsc_memory) : spsc_memory :=
  mk_spsc_memory (sm_header m) (sm_write m) (sm_read m) v (sm_data m).
Definition set_data (d : Z → Z) (m : spsc_memory) : spsc_memory :=
  mk_spsc_memory (sm_header m) (sm_write m) (sm_read m) (sm_cached m) d.

(** [memcpy] out of and into the data region. *)
Definition slice (d : Z → Z) (offset length : Z) : list Z := (λ i, d (offset + i)) <$> seqZ 0 length.

Definition patch (d : Z → Z) (offset : Z) (bytes : list Z) : Z → Z := λ x,
  if (offset <=? x) && (x <? offset + Z.of_nat (length bytes)) then bytes !!! Z.to_nat (x - offset) else d x.

(** The bytes of a [uint32_t], least significant first. *)
Definition u32_bytes (v : Z) : list Z := le_bytes 4 v.
Definition u32_value (bytes : list Z) : Z := le_value bytes.

(** ** Programs *)

Inductive prog (A : Type) : Type :=
  | Ret (a : A)
  | LoadWrite (k : Z → prog A)
  | LoadRead (k : Z → prog A)
  | LoadCached (k : Z → prog A)
  | StoreWrite (v : Z) (k : prog A)
  | StoreRead (v : Z) (k : prog A)
  | StoreCached (v : Z) (k : prog A)
  | LoadData (offset length : Z) (k : list Z → prog A)
  | StoreData (offset : Z) (bytes : list Z) (k : prog A).
Arguments Ret {A} a.
Arguments LoadWrite {A} k.
Arguments LoadRead {A} k.
Arguments LoadCached {A} k.
Arguments StoreWrite {A} v k.
Arguments StoreRead {A} v k.
Arguments StoreCached {A} v k.
Arguments LoadData {A} offset length k.
Arguments StoreData {A} offset bytes k.

Fixpoint prog_bind_def {A B} (f : A → prog B) (p : prog A) : prog B :=
  match p with
  | Ret a => f a
  | LoadWrite k => LoadWrite (λ v, prog_bind_def f (k v))
  | LoadRead k => LoadRead (λ v, prog_bind_def f (k v))
  | LoadCached k => LoadCached (λ v, prog_bind_def f (k v))
  | StoreWrite v k => StoreWrite v (prog_bind_def f k)
  | StoreRead v k => StoreRead v (prog_bind_def f k)
  | StoreCached v k => StoreCached v (prog_bind_def f k)
  | LoadData offset length k => LoadData offset length (λ bytes, prog_bind_def f (k bytes))
  | StoreData offset bytes k => StoreData offset bytes (prog_bind_def f k)
  end.
#[export] Instance prog_bind : MBind prog := @prog_bind_def.
#[export] Instance prog_ret : MRet prog := @Ret.

Definition load_write : prog Z := LoadWrite Ret.
Definition load_read : prog Z := LoadRead Ret.
Definition load_cached : prog Z := LoadCached Ret.
Definition store_write (v : Z) : prog unit := StoreWrite v (Ret tt).
Definition store_read (v : Z) : prog unit := StoreRead v (Ret tt).
Definition store_cached (v : Z) : prog unit := StoreCached v (Ret tt).
Definition load_data (offset length : Z) : prog (list Z) := LoadData offset length Ret.
Definition store_data (offset : Z) (bytes : list Z) : prog unit := StoreData offset bytes (Ret tt).

(** One access of a program, on the memory. *)
Definition exec {A} (m : spsc_memory) (p : prog A) : option (spsc_memory * prog A) :=
  match p with
  | Ret _ => None
  | LoadWrite k => Some (m, k (sm_write m))
  | LoadRead k => Some (m, k (sm_read m))
  | LoadCached k => Some (m, k (sm_cached m))
  | StoreWrite v k => Some (set_write v m, k)
  | StoreRead v k => Some (set_read v m, k)
  | StoreCached v k => Some (set_cached v m, k)
  | LoadData offset length k => Some (m, k (slice (sm_data m) offset length))
  | StoreData offset bytes k => Some (set_data (patch (sm_data m) offset bytes) m, k)
  end.

(** A program that runs alone. *)
Fixpoint run {A} (p : prog A) (m : spsc_memory) : A * spsc_memory :=
  match p with
  | Ret a => (a, m)
  | LoadWrite k => run (k (sm_write m)) m
  | LoadRead k => run (k (sm_read m)) m
  | LoadCached k => run (k (sm_cached m)) m
  | StoreWrite v k => run k (set_write v m)
  | StoreRead v k => run k (set_read v m)
  | StoreCached v k => run k (set_cached v m)
  | LoadData offset length k => run (k (slice (sm_data m) offset length)) m
  | StoreData offset bytes k => run k (set_data (patch (sm_data m) offset bytes) m)
  end.

(** ** Queue handles *)

(** The pointers of the handle are the fields of [spsc_memory]. *)
Record iree_spsc_queue_t := mk_spsc_queue {
  sq_capacity : Z;
  sq_mask : Z;
  sq_entry_alignment : Z;
  sq_pending_write_pos : Z;
  sq_pending_skip_offset : Z;
  sq_pending_skip_bytes : Z;
  sq_pending_entry_offset : Z;
}.

Definition set_pending (write_pos skip_offset skip_bytes entry_offset : Z) (q : iree_spsc_queue_t) : iree_spsc_queue_t :=
  mk_spsc_queue (sq_capacity q) (sq_mask q) (sq_entry_alignment q) write_pos skip_offset skip_bytes entry_offset.

Definition iree_spsc_queue_required_size (capacity : Z) : Z := IREE_SPSC_QUEUE_HEADER_SIZE +64 capacity.

(** The handle is zeroed before it is bound. *)
Definition iree_spsc_queue_bind (m : spsc_memory) : iree_spsc_queue_t :=
  let capacity := sh_capacity (sm_header m) in
  mk_spsc_queue capacity (usub 32 capacity 1) (sh_entry_alignment (sm_header m)) 0 0 0 0.

Definition iree_spsc_queue_validate_header (header : iree_spsc_queue_header_t) (memory_size : Z) : status_or unit :=
  if negb (sh_magic header =? IREE_SPSC_QUEUE_MAGIC) then Err IREE_STATUS_INVALID_ARGUMENT
  else if negb (sh_version header =? IREE_SPSC_QUEUE_VERSION) then Err IREE_STATUS_INVALID_ARGUMENT
  else if sh_capacity header <? IREE_SPSC_QUEUE_MIN_CAPACITY then Err IREE_STATUS_INVALID_ARGUMENT
  else if negb (iree_host_size_is_power_of_two (sh_capacity header)) then Err IREE_STATUS_INVALID_ARGUMENT
  else if sh_entry_alignment header <? 4 then Err IREE_STATUS_INVALID_ARGUMENT
  else if negb (iree_host_size_is_power_of_two (sh_entry_alignment header)) then Err IREE_STATUS_INVALID_ARGUMENT
  else if memory_size <? iree_spsc_queue_required_size (sh_capacity header) then Err IREE_STATUS_INVALID_ARGUMENT
  else Ok tt.

(** [None] is a null pointer; the bytes after the zeroed region are kept. *)
Definition iree_spsc_queue_initialize (memory : option spsc_memory) (memory_size capacity : Z) :
    status_or (spsc_memory * iree_spsc_queue_t) :=
  match memory with
  | None => Err IREE_STATUS_INVALID_ARGUMENT
  | Some m =>
      if capacity <? IREE_SPSC_QUEUE_MIN_CAPACITY then Err IREE_STATUS_INVALID_ARGUMENT
      else if negb (iree_host_size_is_power_of_two capacity) then Err IREE_STATUS_INVALID_ARGUMENT
      else if memory_size <? iree_spsc_queue_required_size capacity then Err IREE_STATUS_INVALID_ARGUMENT
      else
        let header :=
          mk_spsc_header IREE_SPSC_QUEUE_MAGIC IREE_SPSC_QUEUE_VERSION capacity
            IREE_SPSC_QUEUE_DEFAULT_ENTRY_ALIGNMENT in
        let data := λ x, if (0 <=? x) && (x <? capacity) then 0 else sm_data m x in
        let m := mk_spsc_memory header 0 0 0 data in
        Ok (m, iree_spsc_queue_bind m)
  end.

Definition iree_spsc_queue_open (memory : option spsc_memory) (memory_size : Z) : status_or iree_spsc_queue_t :=
  match memory with
  | None => Err IREE_STATUS_INVALID_ARGUMENT
  | Some m =>
      if memory_size <? IREE_SPSC_QUEUE_HEADER_SIZE then Err IREE_STATUS_INVALID_ARGUMENT
      else
        _ ← iree_spsc_queue_validate_header (sm_header m) memory_size;
        Ok (iree_spsc_queue_bind m)
  end.

(** ** Producer *)

Definition iree_spsc_queue_entry_size (entry_alignment payload_length : Z) : Z :=
  iree_host_align (4 +64 payload_length) entry_alignment.

Definition iree_spsc_queue_free_space (capacity write_pos read_pos : Z) : Z :=
  wrap 64 (capacity - (write_pos - read_pos)).

(** [write_pos & queue->mask] as an offset. *)
Definition physical_offset (q : iree_spsc_queue_t) (pos : Z) : Z := wrap 32 (Z.land pos (sq_mask q)).

(** [free_space < needed], with the cached read position refreshed once. *)
Definition has_space (q : iree_spsc_queue_t) (write_pos needed : Z) : prog bool :=
  cached_read ← load_cached;
  if iree_spsc_queue_free_space (sq_capacity q) write_pos cached_read <? needed then
    cached_read ← load_read;
    _ ← store_cached cached_read;
    Ret (negb (iree_spsc_queue_free_space (sq_capacity q) write_pos cached_read <? needed))
  else Ret true.

(** The offset of the entry, or [UINT32_MAX]. *)
Definition iree_spsc_queue_plan_write (q : iree_spsc_queue_t) (total_entry_bytes write_pos : Z) :
    prog (Z * iree_spsc_queue_t) :=
  let offset := physical_offset q write_pos in
  let contiguous_at_tail := usub 32 (sq_capacity q) offset in
  if total_entry_bytes <=? contiguous_at_tail then Ret (offset, set_pending write_pos 0 0 offset q)
  else
    let skip_bytes := wrap 32 contiguous_at_tail in
    enough ← has_space q write_pos (skip_bytes +64 total_entry_bytes);
    if (enough : bool) then Ret (0, set_pending (write_pos + skip_bytes) offset skip_bytes 0 q)
    else Ret (umax 32, q).

(** The offset of the payload, or [None] for a null pointer. *)
Definition iree_spsc_queue_begin_write (q : iree_spsc_queue_t) (length : Z) :
    prog (option Z * iree_spsc_queue_t) :=
  let total_entry_bytes := iree_spsc_queue_entry_size (sq_entry_alignment q) length in
  write_pos ← load_write;
  enough ← has_space q write_pos total_entry_bytes;
  if (enough : bool) then
    '(entry_offset, q) ← iree_spsc_queue_plan_write q total_entry_bytes write_pos;
    if entry_offset =? umax 32 then Ret (None, q) else Ret (Some (entry_offset + 4), q)
  else Ret (None, q).

Definition iree_spsc_queue_commit_write (q : iree_spsc_queue_t) (length : Z) : prog unit :=
  let total_entry_bytes := iree_spsc_queue_entry_size (sq_entry_alignment q) length in
  _ ← (if 0 <? sq_pending_skip_bytes q
       then store_data (sq_pending_skip_offset q) (u32_bytes IREE_SPSC_QUEUE_SKIP_MARKER) else Ret tt);
  _ ← store_data (sq_pending_entry_offset q) (u32_bytes (wrap 32 length));
  store_write (sq_pending_write_pos q + total_entry_bytes).

Definition iree_spsc_queue_cancel_write (q : iree_spsc_queue_t) : iree_spsc_queue_t := q.

Definition iree_spsc_queue_write (q : iree_spsc_queue_t) (data : list Z) : prog (bool * iree_spsc_queue_t) :=
  '(payload, q) ← iree_spsc_queue_begin_write q (Z.of_nat (length data));
  match payload with
  | None => Ret (false, q)
  | Some payload =>
      _ ← store_data payload data;
      _ ← iree_spsc_queue_commit_write q (Z.of_nat (length data));
      Ret (true, q)
  end.

(** ** Consumer *)

(** The offset and length of the payload; [PeekFuel] when the loop needs more iterations. *)
Inductive peek_result :=
  | PeekEntry (offset length : Z)
  | PeekEmpty
  | PeekFuel.

Fixpoint peek_loop (fuel : nat) (q : iree_spsc_queue_t) (read_pos write_pos : Z) : prog peek_result :=
  if read_pos <? write_pos then
    match fuel with
    | O => Ret PeekFuel
    | S fuel =>
        let offset := physical_offset q read_pos in
        entry_length ← load_data offset 4;
        if u32_value entry_length =? IREE_SPSC_QUEUE_SKIP_MARKER then
          let read_pos := read_pos + usub 32 (sq_capacity q) offset in
          _ ← store_read read_pos;
          peek_loop fuel q read_pos write_pos
        else Ret (PeekEntry (offset + 4) (u32_value entry_length))
    end
  else Ret PeekEmpty.

Definition iree_spsc_queue_peek (q : iree_spsc_queue_t) : prog peek_result :=
  read_pos ← load_read;
  write_pos ← load_write;
  peek_loop 2 q read_pos write_pos.

Definition iree_spsc_queue_consume (q : iree_spsc_queue_t) : prog unit :=
  read_pos ← load_read;
  entry_length ← load_data (physical_offset q read_pos) 4;
  let total_entry_bytes := iree_spsc_queue_entry_size (sq_entry_alignment q) (u32_value entry_length) in
  store_read (read_pos + total_entry_bytes).

(** The length of the entry and the bytes copied to the buffer. *)
Inductive read_result :=
  | ReadEntry (length : Z) (bytes : list Z)
  | ReadEmpty
  | ReadFuel.

Definition iree_spsc_queue_read (q : iree_spsc_queue_t) (out_capacity : Z) : prog read_result :=
  payload ← iree_spsc_queue_peek q;
  match payload with
  | PeekEntry offset payload_length =>
      bytes ← load_data offset (Z.min payload_length out_capacity);
      _ ← iree_spsc_queue_consume q;
      Ret (ReadEntry payload_length bytes)
  | PeekEmpty => Ret ReadEmpty
  | PeekFuel => Ret ReadFuel
  end.

(** ** Queries *)

Definition iree_spsc_queue_can_read : prog bool :=
  write_pos ← load_write;
  read_pos ← load_read;
  Ret (read_pos <? write_pos).

Definition iree_spsc_queue_read_available : prog Z :=
  write_pos ← load_write;
  read_pos ← load_read;
  Ret (wrap 64 (write_pos - read_pos)).

Definition iree_spsc_queue_write_available (q : iree_spsc_queue_t) : prog Z :=
  write_pos ← load_write;
  read_pos ← load_read;
  Ret (wrap 64 (sq_capacity q - (write_pos - read_pos))).

(** ** Producer and consumer together *)

(** What a consumer obtained: the size of its buffer, the reported length, the bytes. *)
Record delivery := mk_delivery {
  dl_room : Z;
  dl_length : Z;
  dl_bytes : list Z;
}.

(** Where the producer is.  [ProducerRefused] is a call that found no space, with the read
    position at the time of the call; a running call that will publish carries the message. *)
Inductive producer_state :=
  | ProducerReady (q : iree_spsc_queue_t)
  | ProducerReserved (q : iree_spsc_queue_t) (length offset : Z)
  | ProducerRefused (q : iree_spsc_queue_t) (length floor : Z)
  | ProducerRunning (message : option (list Z)) (p : prog producer_state).

(** Where the consumer is.  [ConsumerEmpty] is a call that found nothing, with the number
    of messages published before the call. *)
Inductive consumer_state :=
  | ConsumerReady
  | ConsumerPeeked (offset length : Z)
  | ConsumerDelivered (d : delivery)
  | ConsumerEmpty (seen : nat)
  | ConsumerFuel
  | ConsumerRunning (p : prog consumer_state).

(** [sent] are the published messages, [received] what the consumer's calls returned. *)
Record spsc_system := mk_spsc_system {
  ss_memory : spsc_memory;
  ss_producer : producer_state;
  ss_queue : iree_spsc_queue_t;
  ss_consumer : consumer_state;
  ss_sent : list (list Z);
  ss_received : list delivery;
}.

Definition call_write (q : iree_spsc_queue_t) (floor : Z) (data : list Z) : prog producer_state :=
  '(ok, q) ← iree_spsc_queue_write q data;
  Ret (if (ok : bool) then ProducerReady q else ProducerRefused q (Z.of_nat (length data)) floor).

Definition call_begin (q : iree_spsc_queue_t) (floor length : Z) : prog producer_state :=
  '(payload, q) ← iree_spsc_queue_begin_write q length;
  Ret (match payload with
       | Some offset => ProducerReserved q length offset
       | None => ProducerRefused q length floor
       end).

Definition call_fill (q : iree_spsc_queue_t) (length offset position : Z) (bytes : list Z) : prog producer_state :=
  _ ← store_data (offset + position) bytes; Ret (ProducerReserved q length offset).

Definition call_commit (q : iree_spsc_queue_t) (length : Z) : prog producer_state :=
  _ ← iree_spsc_queue_commit_write q length; Ret (ProducerReady q).

Definition call_read (q : iree_spsc_queue_t) (seen : nat) (out_capacity : Z) : prog consumer_state :=
  result ← iree_spsc_queue_read q out_capacity;
  Ret (match result with
       | ReadEntry length bytes => ConsumerDelivered (mk_delivery out_capacity length bytes)
       | ReadEmpty => ConsumerEmpty seen
       | ReadFuel => ConsumerFuel
       end).

Definition call_peek (q : iree_spsc_queue_t) (seen : nat) : prog consumer_state :=
  result ← iree_spsc_queue_peek q;
  Ret (match result with
       | PeekEntry offset length => ConsumerPeeked offset length
       | PeekEmpty => ConsumerEmpty seen
       | PeekFuel => ConsumerFuel
       end).

Definition call_consume (q : iree_spsc_queue_t) (d : delivery) : prog consumer_state :=
  _ ← iree_spsc_queue_consume q; Ret (ConsumerDelivered d).

(** A store of a position that an [int64_t] holds. *)
Definition store_fits {A} (p : prog A) : Prop :=
  match p with StoreWrite v _ | StoreRead v _ => in_i64 v | _ => True end.

(** The message that the next access publishes. *)
Definition publishes {A} (message : option (list Z)) (p : prog A) : list (list Z) :=
  match p, message with StoreWrite _ _, Some m => [m] | _, _ => [] end.

(** A payload length for which the size of the entry does not overflow. *)
Definition length_ok (q : iree_spsc_queue_t) (length : Z) : Prop :=
  0 <= length ∧ 4 + length + (sq_entry_alignment q - 1) < 2 ^ 64.

Inductive producer_step : spsc_system → spsc_system → Prop :=
  | producer_call_write s q data :
      ss_producer s = ProducerReady q → length_ok q (Z.of_nat (length data)) →
      producer_step s (mk_spsc_system (ss_memory s) (ProducerRunning (Some data) (call_write q (sm_read (ss_memory s)) data))
        (ss_queue s) (ss_consumer s) (ss_sent s) (ss_received s))
  | producer_call_begin s q length :
      ss_producer s = ProducerReady q → length_ok q length →
      producer_step s (mk_spsc_system (ss_memory s) (ProducerRunning None (call_begin q (sm_read (ss_memory s)) length))
        (ss_queue s) (ss_consumer s) (ss_sent s) (ss_received s))
  | producer_fill s q len offset position bytes :
      ss_producer s = ProducerReserved q len offset →
      0 <= position → position + Z.of_nat (length bytes) <= len →
      producer_step s (mk_spsc_system (ss_memory s) (ProducerRunning None (call_fill q len offset position bytes))
        (ss_queue s) (ss_consumer s) (ss_sent s) (ss_received s))
  | producer_commit s q len offset :
      ss_producer s = ProducerReserved q len offset →
      producer_step s (mk_spsc_system (ss_memory s)
        (ProducerRunning (Some (slice (sm_data (ss_memory s)) offset len)) (call_commit q len))
        (ss_queue s) (ss_consumer s) (ss_sent s) (ss_received s))
  | producer_cancel s q len offset :
      ss_producer s = ProducerReserved q len offset →
      producer_step s (mk_spsc_system (ss_memory s) (ProducerReady (iree_spsc_queue_cancel_write q))
        (ss_queue s) (ss_consumer s) (ss_sent s) (ss_received s))
  | producer_retry s q len floor :
      ss_producer s = ProducerRefused q len floor →
      producer_step s (mk_spsc_system (ss_memory s) (ProducerReady q)
        (ss_queue s) (ss_consumer s) (ss_sent s) (ss_received s))
  | producer_access s message p m' p' :
      ss_producer s = ProducerRunning message p → store_fits p → exec (ss_memory s) p = Some (m', p') →
      producer_step s (mk_spsc_system m' (ProducerRunning message p')
        (ss_queue s) (ss_consumer s) (ss_sent s ++ publishes message p) (ss_received s))
  | producer_return s message st :
      ss_producer s = ProducerRunning message (Ret st) →
      producer_step s (mk_spsc_system (ss_memory s) st
        (ss_queue s) (ss_consumer s) (ss_sent s) (ss_received s)).

Inductive consumer_step : spsc_system → spsc_system → Prop :=
  | consumer_call_read s out_capacity :
      ss_consumer s = ConsumerReady → 0 <= out_capacity →
      consumer_step s (mk_spsc_system (ss_memory s) (ss_producer s) (ss_queue s)
        (ConsumerRunning (call_read (ss_queue s) (length (ss_sent s)) out_capacity)) (ss_sent s) (ss_received s))
  | consumer_call_peek s :
      ss_consumer s = ConsumerReady →
      consumer_step s (mk_spsc_system (ss_memory s) (ss_producer s) (ss_queue s)
        (ConsumerRunning (call_peek (ss_queue s) (length (ss_sent s)))) (ss_sent s) (ss_received s))
  | consumer_call_consume s offset len :
      ss_consumer s = ConsumerPeeked offset len →
      consumer_step s (mk_spsc_system (ss_memory s) (ss_producer s) (ss_queue s)
        (ConsumerRunning (call_consume (ss_queue s) (mk_delivery len len (slice (sm_data (ss_memory s)) offset len))))
        (ss_sent s) (ss_received s))
  | consumer_retry s seen :
      ss_consumer s = ConsumerEmpty seen →
      consumer_step s (mk_spsc_system (ss_memory s) (ss_producer s) (ss_queue s) ConsumerReady (ss_sent s) (ss_received s))
  | consumer_access s p m' p' :
      ss_consumer s = ConsumerRunning p → store_fits p → exec (ss_memory s) p = Some (m', p') →
      consumer_step s (mk_spsc_system m' (ss_producer s) (ss_queue s) (ConsumerRunning p') (ss_sent s) (ss_received s))
  | consumer_return s st :
      ss_consumer s = ConsumerRunning (Ret st) →
      consumer_step s (mk_spsc_system (ss_memory s) (ss_producer s) (ss_queue s) st (ss_sent s) (ss_received s))
  | consumer_deliver s d :
      ss_consumer s = ConsumerDelivered d →
      consumer_step s (mk_spsc_system (ss_memory s) (ss_producer s) (ss_queue s) ConsumerReady
        (ss_sent s) (ss_received s ++ [d])).

Definition spsc_step (s s' : spsc_system) : Prop := producer_step s s' ∨ consumer_step s s'.

(** The creator writes and the opener reads. *)
Inductive spsc_reachable : spsc_system → Prop :=
  | spsc_start memory memory_size capacity m q cq :
      in_width 32 capacity → in_width 64 memory_size →
      iree_spsc_queue_initialize memory memory_size capacity = Ok (m, q) →
      iree_spsc_queue_open (Some m) memory_size = Ok cq →
      spsc_reachable (mk_spsc_system m (ProducerReady q) cq ConsumerReady [] [])
  | spsc_next s s' : spsc_reachable s → spsc_step s s' → spsc_reachable s'.
