(* ===== verification/SpscLayout.v ===== *)
(** * The layout of the queue

    Offsets, sizes and bytes of the ring of [SpscQueue], and the items between two positions. *)

From S2P Require Import Prelude BaseMath WireBytes SpscQueue.
From stdpp Require Import base numbers list list_numbers.

Local Open Scope Z_scope.
Local Open Scope machine_scope.

(** ** Bytes *)

Lemma slice_length d o n : 0 <= n → Z.of_nat (length (slice d o n)) = n.
Proof. intros. unfold slice. rewrite length_fmap, length_seqZ. lia. Qed.

(** Slices agree when their bytes do. *)
Lemma slice_ext d d' o n : (∀ x, o <= x < o + n → d x = d' x) → slice d o n = slice d' o n.
Proof. intros H. apply list_fmap_ext. intros _ i Hi%list_elem_of_lookup_2. apply elem_of_seqZ in Hi. apply H. lia. Qed.

Lemma patch_outside d o bytes x : x < o ∨ o + Z.of_nat (length bytes) <= x → patch d o bytes x = d x.
Proof. intros H. unfold patch. destruct (Z.leb_spec o x), (Z.ltb_spec x (o + Z.of_nat (length bytes))); simpl; lia || done. Qed.

Lemma slice_patch_outside d o bytes o' n :
  o' + n <= o ∨ o + Z.of_nat (length bytes) <= o' → slice (patch d o bytes) o' n = slice d o' n.
Proof. intros H. apply slice_ext. intros x Hx. apply patch_outside. lia. Qed.

Lemma slice_patch d o bytes : slice (patch d o bytes) o (Z.of_nat (length bytes)) = bytes.
Proof.
  apply list_eq. intros i. unfold slice. rewrite list_lookup_fmap.
  destruct (decide (i < length bytes)%nat) as [Hi|Hi].
  - rewrite lookup_seqZ_lt by lia. simpl. unfold patch.
    rewrite (proj2 (Z.leb_le _ _)), (proj2 (Z.ltb_lt _ _)) by lia. simpl.
    replace (Z.to_nat (o + (0 + Z.of_nat i) - o)) with i by lia. symmetry. by apply list_lookup_lookup_total_lt.
  - rewrite lookup_seqZ_ge by lia. simpl. symmetry. apply lookup_ge_None. lia.
Qed.

Lemma slice_take d o n m : 0 <= m <= n → slice d o m = take (Z.to_nat m) (slice d o n).
Proof.
  intros H. unfold slice. rewrite <- fmap_take. f_equal. apply list_eq. intros i.
  destruct (decide (i < Z.to_nat m)%nat).
  - rewrite lookup_take_lt, !lookup_seqZ_lt by lia. done.
  - rewrite lookup_take_ge by lia. apply lookup_seqZ_ge. lia.
Qed.

Lemma u32_bytes_length v : length (u32_bytes v) = 4%nat.
Proof. done. Qed.

Lemma u32_round_trip v : in_width 32 v → u32_value (u32_bytes v) = v.
Proof. intros Hv. apply le_value_bytes. exact Hv. Qed.

(** ** Geometry *)

(** Capacity and entry alignment of a queue. *)
Record geometry (cap al : Z) : Prop := mk_geometry {
  geo_capacity : ∃ k, 0 <= k < 32 ∧ cap = 2 ^ k;
  geo_alignment : ∃ a, 2 <= a < 32 ∧ al = 2 ^ a;
  geo_divides : (al | cap);
}.

Record handle_ok (cap al : Z) (q : iree_spsc_queue_t) : Prop := mk_handle_ok {
  handle_capacity : sq_capacity q = cap;
  handle_mask : sq_mask q = cap - 1;
  handle_alignment : sq_entry_alignment q = al;
}.

Definition entry_bytes (al len : Z) : Z := round_up (4 + len) al.

(** Offsets of a segment that does not cross the end of the region. *)
Lemma mod_segment cap pos i : 0 < cap → 0 <= i → pos mod cap + i < cap → (pos + i) mod cap = pos mod cap + i.
Proof.
  intros. pose proof (Z.mod_pos_bound pos cap ltac:(lia)). rewrite <- Zplus_mod_idemp_l. apply Z.mod_small. lia.
Qed.

(** Offsets within one window of the capacity determine the position. *)
Lemma window_inj cap r x y : 0 < cap → r <= x < r + cap → r <= y < r + cap → x mod cap = y mod cap → x = y.
Proof.
  intros Hc Hx Hy E. pose proof (Z.div_mod x cap ltac:(lia)). pose proof (Z.div_mod y cap ltac:(lia)).
  assert (x - y = cap * (x / cap - y / cap)) as Ed by lia.
  destruct (Z.lt_trichotomy (x / cap - y / cap) 0) as [?|[Ez|?]]; [nia| |nia]. rewrite Ez in Ed. lia.
Qed.

Section geometry.
Context {cap al : Z} (G : geometry cap al).

Lemma geo_bounds : 4 <= al <= cap ∧ cap <= 2 ^ 31.
Proof.
  destruct G as [(k & Hk & ->) (a & Ha & ->) Hd]. pose proof (Z.pow_le_mono_r 2 2 a ltac:(lia) ltac:(lia)).
  pose proof (Z.pow_le_mono_r 2 k 31 ltac:(lia) ltac:(lia)). pose proof (pow2_pos k ltac:(lia)).
  apply Z.divide_pos_le in Hd; lia.
Qed.

Lemma physical_offset_eq q pos : handle_ok cap al q → 0 <= pos → physical_offset q pos = pos mod cap.
Proof.
  intros [_ Hm _] Hp. pose proof geo_bounds as HB. unfold physical_offset. rewrite Hm. destruct G as [(k & Hk & ->) _ _].
  rewrite land_ones_mod by lia. apply wrap_small. pose proof (Z.mod_pos_bound pos (2 ^ k) ltac:(lia)).
  unfold in_width. change (2 ^ 31) with 2147483648 in HB. change (2 ^ 32) with 4294967296. lia.
Qed.

Lemma tail_eq q pos : handle_ok cap al q → 0 <= pos → usub 32 (sq_capacity q) (physical_offset q pos) = cap - pos mod cap.
Proof.
  intros Hq Hp. rewrite physical_offset_eq by done. rewrite (handle_capacity _ _ _ Hq). pose proof geo_bounds as HB.
  pose proof (Z.mod_pos_bound pos cap ltac:(lia)). apply wrap_small. unfold in_width.
  change (2 ^ 31) with 2147483648 in HB. change (2 ^ 32) with 4294967296. lia.
Qed.

Lemma entry_size_eq q len : handle_ok cap al q → length_ok q len →
  iree_spsc_queue_entry_size (sq_entry_alignment q) len = entry_bytes al len.
Proof.
  intros Hq [H0 H1]. rewrite (handle_alignment _ _ _ Hq) in *. destruct G as [_ (a & Ha & Hal) _].
  unfold iree_spsc_queue_entry_size, entry_bytes. pose proof (pow2_pos a ltac:(lia)).
  rewrite uadd_small, Hal by lia. rewrite iree_host_align_round_up; [done|lia|lia|lia].
Qed.

Lemma entry_bytes_spec len : (al | entry_bytes al len) ∧ 4 + len <= entry_bytes al len < 4 + len + al.
Proof. pose proof geo_bounds. apply round_up_spec. lia. Qed.

Lemma tail_aligned pos : (al | pos) → (al | cap - pos mod cap) ∧ al <= cap - pos mod cap <= cap.
Proof.
  intros Hp. pose proof geo_bounds. pose proof (Z.mod_pos_bound pos cap ltac:(lia)).
  assert (al | cap - pos mod cap) as Hd.
  { destruct G as [_ _ Hc]. apply Z.divide_sub_r; [done|]. rewrite Z.mod_eq by lia.
    apply Z.divide_sub_r; [done|]. by apply Z.divide_mul_l. }
  split; [done|]. split; [|lia]. apply Z.divide_pos_le; [lia|done].
Qed.
End geometry.

(** ** Items *)

Inductive item :=
  | Skip
  | Message (payload : list Z).

Definition payload_of (it : item) : list (list Z) := match it with Skip => [] | Message m => [m] end.
Definition messages (items : list item) : list (list Z) := concat (payload_of <$> items).

Lemma messages_app xs ys : messages (xs ++ ys) = messages xs ++ messages ys.
Proof. unfold messages. by rewrite fmap_app, concat_app. Qed.

(** A skip marker is followed by a message. *)
Fixpoint paired (items : list item) : Prop :=
  match items with
  | [] => True
  | Message _ :: items => paired items
  | Skip :: items => match items with Message _ :: rest => paired rest | _ => False end
  end.

Lemma paired_tail it items : paired (it :: items) → paired items.
Proof. by destruct it, items as [|[]]. Qed.

Lemma paired_app xs ys : paired xs → paired ys → paired (xs ++ ys).
Proof.
  remember (length xs) as n eqn:En. revert xs En. induction (lt_wf n) as [n _ IH]; intros xs -> Hx Hy.
  destruct xs as [|[|m] xs]; simpl in *; [done| |].
  - destruct xs as [|[|m] xs]; [done|done|]. simpl in *. apply (IH (length xs)); auto with lia.
  - apply (IH (length xs)); auto with lia.
Qed.

Definition item_bytes (cap al pos : Z) (it : item) : Z :=
  match it with Skip => cap - pos mod cap | Message m => entry_bytes al (Z.of_nat (length m)) end.

(** An item in the data region at the offset of a position. *)
Definition item_at (cap al : Z) (d : Z → Z) (pos : Z) (it : item) : Prop :=
  match it with
  | Skip => slice d (pos mod cap) 4 = u32_bytes IREE_SPSC_QUEUE_SKIP_MARKER
  | Message m =>
      slice d (pos mod cap) 4 = u32_bytes (Z.of_nat (length m)) ∧
      slice d (pos mod cap + 4) (Z.of_nat (length m)) = m ∧
      pos mod cap + entry_bytes al (Z.of_nat (length m)) <= cap
  end.

(** The position after the items, and their layout. *)
Fixpoint after (cap al pos : Z) (items : list item) : Z :=
  match items with [] => pos | it :: items => after cap al (pos + item_bytes cap al pos it) items end.

Fixpoint laid (cap al : Z) (d : Z → Z) (pos : Z) (items : list item) : Prop :=
  match items with
  | [] => True
  | it :: items => item_at cap al d pos it ∧ laid cap al d (pos + item_bytes cap al pos it) items
  end.

Lemma after_app cap al items items' : ∀ pos, after cap al pos (items ++ items') = after cap al (after cap al pos items) items'.
Proof. induction items as [|it items IH]; intros pos; [done|]. apply IH. Qed.

Lemma laid_app cap al d items items' : ∀ pos,
  laid cap al d pos (items ++ items') ↔ laid cap al d pos items ∧ laid cap al d (after cap al pos items) items'.
Proof. induction items as [|it items IH]; intros pos; simpl; [tauto|]. rewrite IH. tauto. Qed.

Section layout.
Context {cap al : Z} (G : geometry cap al).

Lemma item_bytes_spec pos it : (al | pos) → 4 <= item_bytes cap al pos it ∧ (al | pos + item_bytes cap al pos it).
Proof.
  intros Hp. pose proof (geo_bounds G). destruct it as [|m]; cbn [item_bytes].
  - destruct (tail_aligned G pos Hp). split; [lia|]. by apply Z.divide_add_r.
  - destruct (entry_bytes_spec G (Z.of_nat (length m))). split; [lia|]. by apply Z.divide_add_r.
Qed.

Lemma after_spec items : ∀ pos, (al | pos) → pos <= after cap al pos items ∧ (al | after cap al pos items).
Proof.
  induction items as [|it items IH]; intros pos Hp; simpl; [done|]. destruct (item_bytes_spec pos it Hp) as [? Hd].
  destruct (IH _ Hd). split; [lia|done].
Qed.

(** The bytes of an item stay within its positions, which do not cross the end. *)
Lemma item_frame d d' pos it :
  (al | pos) → (∀ x, pos <= x < pos + item_bytes cap al pos it → d (x mod cap) = d' (x mod cap)) →
  item_at cap al d pos it → item_at cap al d' pos it.
Proof.
  intros Hp Heq. pose proof (geo_bounds G) as HB. pose proof (tail_aligned G pos Hp) as [_ Htail].
  assert (∀ o n, 0 <= o → o + n <= item_bytes cap al pos it → pos mod cap + o + n <= cap →
    slice d (pos mod cap + o) n = slice d' (pos mod cap + o) n) as Hslice.
  { intros o n Ho Hn Hc. apply slice_ext. intros x Hx. specialize (Heq (pos + (x - pos mod cap)) ltac:(lia)).
    rewrite mod_segment in Heq by lia. by replace (pos mod cap + (x - pos mod cap)) with x in Heq by lia. }
  pose proof (Hslice 0 4) as H4. rewrite Z.add_0_r in H4. destruct (item_bytes_spec pos it Hp) as [Hge _].
  destruct it as [|m]; cbn [item_at].
  - intros H. by rewrite <- H4 by lia.
  - intros (H & Hm & Hc). pose proof (entry_bytes_spec G (Z.of_nat (length m))) as [_ He]. cbn [item_bytes] in *.
    rewrite <- H4 by lia. rewrite <- Hslice by lia. done.
Qed.

Lemma laid_frame d d' items : ∀ pos,
  (al | pos) → (∀ x, pos <= x < after cap al pos items → d (x mod cap) = d' (x mod cap)) →
  laid cap al d pos items → laid cap al d' pos items.
Proof.
  induction items as [|it items IH]; intros pos Hp Heq; [done|]. cbn [laid after] in *. intros [H1 H2].
  destruct (item_bytes_spec pos it Hp) as [? Hd]. destruct (after_spec items _ Hd). split.
  - eapply item_frame; [done| |done]. intros x Hx. apply Heq. lia.
  - eapply IH; [done| |done]. intros x Hx. apply Heq. lia.
Qed.

(** A write to free positions leaves the items alone. *)
Lemma laid_patch d items r p bytes :
  (al | r) → after cap al r items <= p → p + Z.of_nat (length bytes) <= r + cap →
  p mod cap + Z.of_nat (length bytes) <= cap →
  laid cap al d r items → laid cap al (patch d (p mod cap) bytes) r items.
Proof.
  intros Hr Hafter Hroom Hend. pose proof (geo_bounds G). apply laid_frame; [done|]. intros x Hx. symmetry. apply patch_outside.
  destruct (decide (x mod cap < p mod cap ∨ p mod cap + Z.of_nat (length bytes) <= x mod cap)) as [|Hin]; [done|]. exfalso.
  assert (x = p + (x mod cap - p mod cap)) as E; [|lia].
  apply (window_inj cap r); [lia..|]. rewrite mod_segment by lia. lia.
Qed.
End layout.
