(* ===== verification/SpscSafety.v ===== *)
(** * Safety of the programs of the queue

    Rely-guarantee conditions for the two sides of [SpscQueue].  The producer relies on the
    consumer only to advance the read position, the consumer on the producer only to append
    items after the write position; each guarantees to touch only its own part. *)

From S2P Require Import Prelude BaseMath SpscQueue SpscLayout.
From stdpp Require Import base numbers list list_numbers.

Local Open Scope Z_scope.
Local Open Scope machine_scope.

(** The shared memory with the items between the read and the write position. *)
Record queue_ok (cap al : Z) (m : spsc_memory) (items : list item) : Prop := mk_queue_ok {
  qo_cached : 0 <= sm_cached m <= sm_read m;
  qo_room : sm_write m <= sm_cached m + cap;
  qo_aligned : (al | sm_read m);
  qo_laid : laid cap al (sm_data m) (sm_read m) items;
  qo_write : sm_write m = after cap al (sm_read m) items;
  qo_paired : paired items;
}.

(** ** Producer *)

(** What the producer knows: its own fields and a lower bound of the read position. *)
Record producer_view := mk_pview {
  pv_write : Z;
  pv_cached : Z;
  pv_floor : Z;
  pv_data : Z → Z;
}.

(** Bytes at an offset that lie between the write position and the cached limit. *)
Definition in_free (cap w c offset len : Z) : Prop :=
  0 < len → ∃ pos, offset = pos mod cap ∧ w <= pos ∧ pos + len <= c + cap ∧ pos mod cap + len <= cap.

Fixpoint producer_safe {A} (cap al : Z) (message : option (list Z)) (Q : A → producer_view → Prop)
    (p : prog A) (v : producer_view) : Prop :=
  let '(mk_pview w c f d) := v in
  match p with
  | Ret a => Q a v
  | LoadWrite k => producer_safe cap al message Q (k w) v
  | LoadCached k => producer_safe cap al message Q (k c) v
  | LoadRead k => ∀ r, f <= r <= w → producer_safe cap al message Q (k r) (mk_pview w c r d)
  | StoreCached x k => c <= x <= f ∧ producer_safe cap al message Q k (mk_pview w x f d)
  | StoreData offset bytes k =>
      in_free cap w c offset (Z.of_nat (length bytes)) ∧
      producer_safe cap al message Q k (mk_pview w c f (patch d offset bytes))
  | StoreWrite x k =>
      ∃ items m, paired items ∧ laid cap al d w items ∧ after cap al w items = x ∧ x <= c + cap ∧
        message = Some m ∧ messages items = [m] ∧ producer_safe cap al message Q k (mk_pview x c f d)
  | StoreRead _ _ | LoadData _ _ _ => False
  end.

Definition view_of (m : spsc_memory) (f : Z) : producer_view := mk_pview (sm_write m) (sm_cached m) f (sm_data m).

(** ** Consumer *)

(** What the consumer knows: its position, items it has seen published, and the messages
    it has passed since the call began. *)
Record consumer_view := mk_cview {
  cv_read : Z;
  cv_items : list item;
  cv_popped : list (list Z);
}.

(** Bytes at an offset that lie within the visible items. *)
Definition in_items (cap al r : Z) (items : list item) (offset len : Z) : Prop :=
  0 < len → ∃ pos, offset = pos mod cap ∧ r <= pos ∧ pos + len <= after cap al r items ∧ pos mod cap + len <= cap.

(** [seen] messages were published when the call began, and [base] were consumed. *)
Fixpoint consumer_safe {A} (cap al : Z) (seen base : nat) (Q : A → consumer_view → Prop)
    (p : prog A) (v : consumer_view) : Prop :=
  let '(mk_cview r items popped) := v in
  match p with
  | Ret a => Q a v
  | LoadRead k => consumer_safe cap al seen base Q (k r) v
  | LoadWrite k => ∀ items',
      items `prefix_of` items' → paired items' → (seen <= base + length popped + length (messages items'))%nat →
      consumer_safe cap al seen base Q (k (after cap al r items')) (mk_cview r items' popped)
  | StoreRead x k =>
      ∃ it items', items = it :: items' ∧ x = r + item_bytes cap al r it ∧
        consumer_safe cap al seen base Q k (mk_cview x items' (popped ++ payload_of it))
  | LoadData offset len k =>
      ∀ d, laid cap al d r items →
        in_items cap al r items offset len ∧ consumer_safe cap al seen base Q (k (slice d offset len)) v
  | LoadCached _ | StoreCached _ _ | StoreWrite _ _ | StoreData _ _ _ => False
  end.

(** ** Composition *)

Section safety.
Context {cap al : Z} (G : geometry cap al).

Lemma producer_safe_bind {A B} message (Q : B → producer_view → Prop) (p : prog A) (f : A → prog B) : ∀ v,
  producer_safe cap al message (λ a v, producer_safe cap al message Q (f a) v) p v →
  producer_safe cap al message Q (p ≫= f) v.
Proof.
  induction p; intros [w c fl d]; cbn [mbind prog_bind prog_bind_def producer_safe]; try done; naive_solver.
Qed.

Lemma producer_safe_mono {A} message (Q Q' : A → producer_view → Prop) (p : prog A) : ∀ v,
  (∀ a v, Q a v → Q' a v) → producer_safe cap al message Q p v → producer_safe cap al message Q' p v.
Proof. induction p; intros [w c fl d] HQ; cbn [producer_safe]; try done; naive_solver. Qed.

Lemma consumer_safe_bind {A B} seen base (Q : B → consumer_view → Prop) (p : prog A) (f : A → prog B) : ∀ v,
  consumer_safe cap al seen base (λ a v, consumer_safe cap al seen base Q (f a) v) p v →
  consumer_safe cap al seen base Q (p ≫= f) v.
Proof.
  induction p; intros [r items popped]; cbn [mbind prog_bind prog_bind_def consumer_safe]; try done; naive_solver.
Qed.

Lemma consumer_safe_mono {A} seen base (Q Q' : A → consumer_view → Prop) (p : prog A) : ∀ v,
  (∀ a v, Q a v → Q' a v) → consumer_safe cap al seen base Q p v → consumer_safe cap al seen base Q' p v.
Proof. induction p; intros [r items popped] HQ; cbn [consumer_safe]; try done; naive_solver. Qed.
End safety.

(** ** Single accesses *)

Section access.
Context {cap al : Z} (G : geometry cap al).

(** An access of the producer keeps the items and appends what it publishes. *)
Lemma producer_safe_access {A} message (Q : A → producer_view → Prop) p m items f m' p' :
  queue_ok cap al m items → f <= sm_read m → sm_cached m <= f → producer_safe cap al message Q p (view_of m f) →
  exec m p = Some (m', p') →
  ∃ items' f', queue_ok cap al m' (items ++ items') ∧ messages items' = publishes message p ∧
    sm_read m' = sm_read m ∧ f <= f' <= sm_read m' ∧ sm_cached m' <= f' ∧
    producer_safe cap al message Q p' (view_of m' f').
Proof.
  intros Hq Hf Hc Hsafe Hexec. pose proof (after_spec G items _ (qo_aligned _ _ _ _ Hq)) as [Hrw _].
  pose proof (qo_cached _ _ _ _ Hq). rewrite <- (qo_write _ _ _ _ Hq) in Hrw.
  destruct p; simplify_eq/=; try done.
  - exists [], f. rewrite app_nil_r. by repeat (split; [done || lia|]).
  - exists [], (sm_read m'). rewrite app_nil_r. repeat (split; [done || lia|]). by apply Hsafe.
  - exists [], f. rewrite app_nil_r. by repeat (split; [done || lia|]).
  - destruct Hsafe as (new & msg & Hpair & Hlaid & Hafter & Hroom & -> & Hmsg & Hsafe). exists new, f.
    split; [|by repeat (split; [done || lia|])]. destruct Hq as [? ? ? Hl Hw ?]. rewrite Hw in *.
    split; cbn; [done|done|done| | |by apply paired_app].
    + apply laid_app. by split.
    + by rewrite after_app.
  - destruct Hsafe as [Hx Hsafe]. exists [], f. rewrite app_nil_r. destruct Hq.
    split; [split; cbn; done || lia|]. by repeat (split; [done || (cbn; lia)|]).
  - destruct Hsafe as [Hfree Hsafe]. exists [], f. rewrite app_nil_r. destruct Hq.
    split; [|by repeat (split; [done || lia|])]. split; cbn; try done.
    destruct (decide (0 < Z.of_nat (length bytes))) as [Hpos|Hpos].
    + destruct (Hfree Hpos) as (pos & -> & Hw & Hroom & Hend). apply (laid_patch G); done || lia.
    + eapply laid_frame; [done..| |done]. intros x _. symmetry. apply patch_outside. lia.
Qed.

(** An access of the consumer keeps the memory or passes the first item. *)
Lemma consumer_safe_access {A} seen base (Q : A → consumer_view → Prop) p m items popped vis m' p' :
  queue_ok cap al m items → vis `prefix_of` items → (seen <= base + length popped + length (messages items))%nat →
  consumer_safe cap al seen base Q p (mk_cview (sm_read m) vis popped) → exec m p = Some (m', p') →
  ∃ passed items' vis', items = passed ++ items' ∧ queue_ok cap al m' items' ∧ vis' `prefix_of` items' ∧
    sm_write m' = sm_write m ∧ sm_cached m' = sm_cached m ∧ sm_data m' = sm_data m ∧ sm_read m <= sm_read m' ∧
    consumer_safe cap al seen base Q p' (mk_cview (sm_read m') vis' (popped ++ messages passed)).
Proof.
  intros Hq Hvis Hseen Hsafe Hexec. destruct p; simplify_eq/=; try done.
  - exists [], items, items. rewrite app_nil_r. repeat (split; [done|]). rewrite (qo_write _ _ _ _ Hq).
    apply Hsafe; [done|apply Hq|done].
  - exists [], items, vis. rewrite app_nil_r. by repeat (split; [done|]).
  - destruct Hsafe as (it & vis' & -> & -> & Hsafe). destruct Hvis as [rest ->]. exists [it], (vis' ++ rest), vis'.
    destruct Hq as [? ? Hal [Hit Hl] Hw Hp]. destruct (item_bytes_spec G _ it Hal) as [Hge Hal'].
    split; [done|]. split; [split; cbn; try done; try lia; by eapply paired_tail|]. split; [by apply prefix_app_r|].
    repeat (split; [done || (cbn; lia)|]). unfold messages. simpl. by rewrite app_nil_r.
  - exists [], items, vis. rewrite app_nil_r. repeat (split; [done|]). apply Hsafe.
    destruct Hvis as [rest ->]. by destruct (proj1 (laid_app _ _ _ _ _ _) (qo_laid _ _ _ _ Hq)).
Qed.
End access.

(** ** The producer's functions *)

Record pview_ok (cap al : Z) (v : producer_view) : Prop := mk_pview_ok {
  pvo_order : 0 <= pv_cached v <= pv_floor v ∧ pv_floor v <= pv_write v;
  pvo_room : pv_write v <= pv_cached v + cap;
  pvo_aligned : (al | pv_write v);
}.

(** The bytes that publishing an entry of [len] payload bytes at [w] takes: the entry, and
    the tail of the region when the entry does not fit before its end. *)
Definition needed (cap al w len : Z) : Z :=
  let total := entry_bytes al len in
  if total <=? cap - w mod cap then total else cap - w mod cap + total.

Definition fits (cap al w r len : Z) : Prop := w - r + needed cap al w len <= cap.

(** A successful [begin_write]: the entry goes to [pos], which is the write position or the
    start of the next round. *)
Definition reservation (cap al : Z) (q : iree_spsc_queue_t) (len offset w c : Z) : Prop :=
  handle_ok cap al q ∧ length_ok q len ∧
  let pos := sq_pending_write_pos q in
  (pos = w ∨ pos = w + (cap - w mod cap)) ∧
  sq_pending_skip_bytes q = pos - w ∧ (pos ≠ w → sq_pending_skip_offset q = w mod cap ∧ cap - w mod cap < entry_bytes al len) ∧
  sq_pending_entry_offset q = pos mod cap ∧ offset = pos mod cap + 4 ∧
  pos mod cap + entry_bytes al len <= cap ∧ pos + entry_bytes al len <= c + cap.

(** What is left untouched by a check for space: everything but the two bounds, which grow. *)
Definition view_grows (v v' : producer_view) : Prop :=
  pv_write v' = pv_write v ∧ pv_data v' = pv_data v ∧ pv_cached v <= pv_cached v' ∧ pv_floor v <= pv_floor v'.

(** The state in which a call of the producer leaves it. *)
Definition producer_post (cap al : Z) (st : producer_state) (v : producer_view) : Prop :=
  pview_ok cap al v ∧
  match st with
  | ProducerReady q => handle_ok cap al q
  | ProducerReserved q len offset => reservation cap al q len offset (pv_write v) (pv_cached v)
  | ProducerRefused q len floor => handle_ok cap al q ∧ ¬ fits cap al (pv_write v) floor len
  | ProducerRunning _ _ => False
  end.

Section producer.
Context {cap al : Z} (G : geometry cap al).

Lemma free_space_eq w c : c <= w <= c + cap → iree_spsc_queue_free_space cap w c = cap - (w - c).
Proof.
  intros. pose proof (geo_bounds G). apply wrap_small. unfold in_width. change (2 ^ 31) with 2147483648 in *.
  change (2 ^ 64) with 18446744073709551616. lia.
Qed.

Lemma has_space_safe message (Q : bool → producer_view → Prop) q v need :
  handle_ok cap al q → pview_ok cap al v →
  (∀ enough v', pview_ok cap al v' → view_grows v v' →
     (if enough : bool then need <= cap - (pv_write v - pv_cached v') else cap - (pv_write v - pv_floor v) < need) →
     Q enough v') →
  producer_safe cap al message Q (has_space q (pv_write v) need) v.
Proof.
  intros Hq [Ho Hr Ha] HQ. destruct v as [w c f d]; cbn in *. pose proof (handle_capacity _ _ _ Hq) as ->.
  rewrite free_space_eq by lia. destruct (Z.ltb_spec (cap - (w - c)) need) as [Hlow|Hlow]; cbn.
  - intros r Hr'. split; [lia|]. rewrite free_space_eq by lia. apply HQ; [split; cbn; done || lia|repeat split; cbn; lia|].
    cbn. destruct (Z.ltb_spec (cap - (w - r)) need); simpl; lia.
  - apply HQ; [split; cbn; done || lia|repeat split; cbn; lia|done].
Qed.

Lemma next_round w : 0 <= w → (w + (cap - w mod cap)) mod cap = 0.
Proof.
  intros. pose proof (geo_bounds G). rewrite Z.mod_eq by lia. pose proof (Z.mod_eq w cap ltac:(lia)) as E.
  replace (w + (cap - w mod cap)) with (cap * (w / cap + 1)) by lia. rewrite Z.mul_comm, Z.div_mul by lia. lia.
Qed.

Lemma view_grows_trans v v' v'' : view_grows v v' → view_grows v' v'' → view_grows v v''.
Proof. unfold view_grows. intros (? & ? & ? & ?) (? & ? & ? & ?). repeat split; [congruence..|lia|lia]. Qed.

Lemma plan_write_safe message q len v (Q : Z * iree_spsc_queue_t → producer_view → Prop) :
  handle_ok cap al q → length_ok q len → pview_ok cap al v →
  entry_bytes al len <= cap - (pv_write v - pv_cached v) →
  (∀ v' offset q', pview_ok cap al v' → view_grows v v' → fits cap al (pv_write v) (pv_cached v') len →
     offset < umax 32 → reservation cap al q' len (offset + 4) (pv_write v) (pv_cached v') → Q (offset, q') v') →
  (∀ v', pview_ok cap al v' → view_grows v v' → ¬ fits cap al (pv_write v) (pv_floor v) len → Q (umax 32, q) v') →
  producer_safe cap al message Q (iree_spsc_queue_plan_write q (entry_bytes al len) (pv_write v)) v.
Proof.
  intros Hq Hlen Hv Htotal HSome HNone. pose proof (geo_bounds G) as [HB HB']. change (2 ^ 31) with 2147483648 in HB'.
  destruct (pvo_order _ _ _ Hv) as [Ho ?]. set (w := pv_write v) in *. unfold iree_spsc_queue_plan_write.
  rewrite (tail_eq G), (physical_offset_eq G) by (done || lia).
  destruct (tail_aligned G w (pvo_aligned _ _ _ Hv)) as [_ Htail]. pose proof (Z.mod_pos_bound w cap ltac:(lia)).
  destruct (entry_bytes_spec G len) as [_ Hentry]. destruct Hlen as [Hlen0 Hlen1]. unfold umax in *. change (2 ^ 32) with 4294967296 in *.
  destruct (Z.leb_spec (entry_bytes al len) (cap - w mod cap)) as [Hfit|Hfit].
  - destruct v as [w' c f d] eqn:Ev. cbn [producer_safe]. rewrite <- Ev in *. apply HSome; [done|by repeat split; lia| | |].
    + unfold fits, needed. rewrite (proj2 (Z.leb_le _ _)) by done. subst; cbn in *; lia.
    + lia.
    + split; [by destruct Hq|]. split; [done|]. cbn. subst; cbn in *. repeat split; lia || by left.
  - assert (wrap 32 (cap - w mod cap) = cap - w mod cap) as -> by (apply wrap_small; unfold in_width; lia).
    rewrite uadd_small by (change (2 ^ 64) with 18446744073709551616; lia).
    assert (∀ r, fits cap al w r len ↔ cap - w mod cap + entry_bytes al len <= cap - (w - r)) as Hfits.
    { intros r. unfold fits, needed. rewrite (proj2 (Z.leb_gt _ _)) by done. lia. }
    apply producer_safe_bind. apply (has_space_safe message _ q v); [done..|].
    intros [] [w' c f d] Hv' Hgrow Henough; cbn [producer_safe].
    + apply HSome; [done|done|by apply Hfits|lia|]. split; [by destruct Hq|]. split; [done|]. cbn.
      rewrite next_round by lia. cbn in *. repeat split; lia || by right.
    + apply HNone; [done|done|]. rewrite Hfits. lia.
Qed.

Lemma begin_write_safe message q len v (Q : option Z * iree_spsc_queue_t → producer_view → Prop) :
  handle_ok cap al q → length_ok q len → pview_ok cap al v →
  (∀ v' offset q', pview_ok cap al v' → view_grows v v' → fits cap al (pv_write v) (pv_cached v') len →
     reservation cap al q' len offset (pv_write v) (pv_cached v') → Q (Some offset, q') v') →
  (∀ v', pview_ok cap al v' → view_grows v v' → ¬ fits cap al (pv_write v) (pv_floor v) len → Q (None, q) v') →
  producer_safe cap al message Q (iree_spsc_queue_begin_write q len) v.
Proof.
  intros Hq Hlen Hv HSome HNone. unfold iree_spsc_queue_begin_write. rewrite (entry_size_eq G) by done.
  apply producer_safe_bind. assert (∀ (R : Z → producer_view → Prop), R (pv_write v) v → producer_safe cap al message R load_write v)
    as Hload by by destruct v. apply Hload. apply producer_safe_bind, (has_space_safe message _ q v); [done..|].
  assert (entry_bytes al len <= needed cap al (pv_write v) len) as Hneed.
  { unfold needed. destruct (tail_aligned G _ (pvo_aligned _ _ _ Hv)). pose proof (geo_bounds G). destruct (_ <=? _); lia. }
  intros [] v' Hv' Hgrow Henough.
  - apply producer_safe_bind. destruct Hgrow as (Ew & Hrest). rewrite <- Ew in *.
    apply plan_write_safe; [done|done|done|done| |].
    + intros v'' offset q' Hv'' Hgrow' Hfits Hlt Hres. rewrite (proj2 (Z.eqb_neq _ _)) by lia.
      destruct v'' as [w c f d]. apply HSome; [done|by eapply view_grows_trans|done|done].
    + intros v'' Hv'' Hgrow' Hno. rewrite Z.eqb_refl. destruct v'' as [w c f d]. cbn [producer_safe].
      apply HNone; [done|by eapply view_grows_trans|]. unfold fits in *. lia.
  - destruct v' as [w c f d]. apply HNone; [done|done|]. unfold fits. lia.
Qed.
(** The store that publishes the items [items] that end with the message. *)
Lemma store_write_safe items msg (Q : unit → producer_view → Prop) x v :
  pview_ok cap al v → paired items → laid cap al (pv_data v) (pv_write v) items → after cap al (pv_write v) items = x →
  x <= pv_cached v + cap → messages items = [msg] →
  (∀ v', pview_ok cap al v' → pv_write v' = x → Q tt v') →
  producer_safe cap al (Some msg) Q (store_write x) v.
Proof.
  intros Hv Hpair Hlaid Hafter Hroom Hmsg HQ. destruct v as [w c f d]. cbn in *. exists items, msg.
  repeat (split; [done|]). destruct (after_spec G items w (pvo_aligned _ _ _ Hv)) as [? ?]. destruct Hv as [? ? ?]; cbn in *.
  apply HQ; [|done]. split; cbn; [lia|lia|by subst x].
Qed.

Lemma commit_write_safe q len offset v (Q : unit → producer_view → Prop) :
  pview_ok cap al v → reservation cap al q len offset (pv_write v) (pv_cached v) →
  (∀ v', pview_ok cap al v' → pv_write v' = pv_write v + needed cap al (pv_write v) len → Q tt v') →
  producer_safe cap al (Some (slice (pv_data v) offset len)) Q (iree_spsc_queue_commit_write q len) v.
Proof.
  intros Hv (Hq & Hlen & Hpos & Eskip & Eoff & Eentry & -> & Hend & Hroom) HQ.
  pose proof (geo_bounds G) as [HB HB']. change (2 ^ 31) with 2147483648 in HB'.
  destruct (pvo_order _ _ _ Hv) as [Ho ?]. pose proof (pvo_room _ _ _ Hv).
  destruct (tail_aligned G _ (pvo_aligned _ _ _ Hv)) as [_ Htail]. destruct (entry_bytes_spec G len) as [_ He].
  unfold iree_spsc_queue_commit_write. rewrite (entry_size_eq G), Eskip, Eentry by done. destruct Hlen as [Hlen0 _].
  set (pos := sq_pending_write_pos q) in *. pose proof (Z.mod_pos_bound pos cap ltac:(lia)).
  assert (wrap 32 len = len) as -> by (apply wrap_small; unfold in_width; change (2 ^ 32) with 4294967296; lia).
  set (msg := slice (pv_data v) (pos mod cap + 4) len).
  assert (Z.of_nat (length msg) = len) as Hmsg by by apply slice_length.
  destruct v as [w c f d] eqn:Ev. cbn [pv_write pv_cached pv_data] in *.
  apply producer_safe_bind. destruct Hpos as [Hpos|Hpos].
  - rewrite (proj2 (Z.ltb_ge 0 (pos - w))) by lia. cbn [producer_safe]. apply producer_safe_bind. cbn [producer_safe store_data].
    rewrite u32_bytes_length. split; [intros _; exists pos; lia|].
    apply (store_write_safe [Message msg]); cbn [pv_write pv_cached pv_data after laid item_at item_bytes]; try done.
    + by destruct Hv.
    + rewrite Hmsg, <- Hpos. split; [|done]. split; [apply (slice_patch _ _ (u32_bytes len))|].
      by rewrite slice_patch_outside by (rewrite u32_bytes_length; lia).
    + by rewrite Hmsg, Hpos.
    + intros v' Hv' Ew. apply HQ; [done|]. rewrite Ew. unfold needed. rewrite Hpos in *. rewrite (proj2 (Z.leb_le _ _)) by lia. lia.
  - destruct (Eoff ltac:(lia)) as [-> Hover]. rewrite (proj2 (Z.ltb_lt 0 (pos - w))) by lia. cbn [producer_safe store_data]. rewrite u32_bytes_length.
    split; [intros _; exists w; lia|]. apply producer_safe_bind. cbn [producer_safe store_data]. rewrite u32_bytes_length. split; [intros _; exists pos; lia|].
    assert (pos mod cap = 0) as E0 by (rewrite Hpos; apply next_round; lia). rewrite E0 in *.
    assert (entry_bytes al len <= w mod cap) as Hbefore by lia.
    apply (store_write_safe [Skip; Message msg]); cbn [pv_write pv_cached pv_data after laid item_at item_bytes]; try done.
    + by destruct Hv.
    + rewrite <- Hpos, Hmsg, E0. split; [|split; [|done]].
      * rewrite slice_patch_outside by (rewrite u32_bytes_length; lia). apply (slice_patch _ _ (u32_bytes _)).
      * split; [apply (slice_patch _ _ (u32_bytes len))|]. split; [|lia].
        rewrite !slice_patch_outside by (rewrite u32_bytes_length; lia). unfold msg. by rewrite ?E0.
    + by rewrite Hmsg, Hpos.
    + intros v' Hv' Ew. apply HQ; [done|]. rewrite Ew. unfold needed.
      rewrite (proj2 (Z.leb_gt _ _)) by lia. lia.
Qed.
(** Bytes of the reserved payload are free. *)
Lemma reservation_in_free q len offset w c position n :
  reservation cap al q len offset w c → 0 <= position → position + n <= len → w <= sq_pending_write_pos q →
  in_free cap w c (offset + position) n.
Proof.
  intros (_ & _ & _ & _ & _ & _ & -> & Hend & Hroom) Hp Hn Hw Hpos. pose proof (geo_bounds G).
  destruct (entry_bytes_spec G len) as [_ He]. exists (sq_pending_write_pos q + (4 + position)).
  rewrite mod_segment by lia. lia.
Qed.

Lemma reservation_pos q len offset v :
  pview_ok cap al v → reservation cap al q len offset (pv_write v) (pv_cached v) → pv_write v <= sq_pending_write_pos q.
Proof.
  intros Hv (_ & _ & [->| ->] & _); [done|]. destruct (tail_aligned G _ (pvo_aligned _ _ _ Hv)). pose proof (geo_bounds G). lia.
Qed.

Lemma call_write_safe q data v :
  handle_ok cap al q → length_ok q (Z.of_nat (length data)) → pview_ok cap al v →
  producer_safe cap al (Some data) (producer_post cap al) (call_write q (pv_floor v) data) v.
Proof.
  intros Hq Hlen Hv. unfold call_write. apply producer_safe_bind. unfold iree_spsc_queue_write. apply producer_safe_bind.
  apply begin_write_safe; [done..| |].
  - intros [w c f d] offset q' Hv' (Ew & _) Hfit Hres. rewrite <- Ew in Hres. apply producer_safe_bind.
    cbn [producer_safe store_data]. split.
    { replace offset with (offset + 0) by lia.
      eapply (reservation_in_free q'); [done|lia|lia|by apply (reservation_pos _ _ _ _ Hv' Hres)]. }
    apply producer_safe_bind. rewrite <- (slice_patch d offset data) at 1.
    apply (commit_write_safe q' _ offset (mk_pview w c f (patch d offset data))); [by destruct Hv'|done|].
    intros [w' c' f' d'] Hv'' _. cbn. split; [done|]. by destruct Hres.
  - intros [w c f d] Hv' (Ew & _ & _ & Hf) Hno. rewrite <- Ew in Hno. split; [done|by split].
Qed.

Lemma call_begin_safe q len v :
  handle_ok cap al q → length_ok q len → pview_ok cap al v →
  producer_safe cap al None (producer_post cap al) (call_begin q (pv_floor v) len) v.
Proof.
  intros Hq Hlen Hv. unfold call_begin. apply producer_safe_bind. apply begin_write_safe; [done..| |].
  - intros [w c f d] offset q' Hv' (Ew & _) Hfit Hres. rewrite <- Ew in Hres. by split.
  - intros [w c f d] Hv' (Ew & _ & _ & Hf) Hno. rewrite <- Ew in Hno. split; [done|by split].
Qed.

Lemma call_fill_safe q len offset position bytes v :
  pview_ok cap al v → reservation cap al q len offset (pv_write v) (pv_cached v) →
  0 <= position → position + Z.of_nat (length bytes) <= len →
  producer_safe cap al None (producer_post cap al) (call_fill q len offset position bytes) v.
Proof.
  intros Hv Hres Hp Hn. pose proof (reservation_pos _ _ _ _ Hv Hres). destruct v as [w c f d]. cbn.
  split; [by eapply reservation_in_free|]. split; [by destruct Hv|done].
Qed.

Lemma call_commit_safe q len offset v :
  pview_ok cap al v → reservation cap al q len offset (pv_write v) (pv_cached v) →
  producer_safe cap al (Some (slice (pv_data v) offset len)) (producer_post cap al) (call_commit q len) v.
Proof.
  intros Hv Hres. unfold call_commit. apply producer_safe_bind. apply commit_write_safe; [done..|].
  intros [w c f d] Hv' _. split; [done|]. by destruct Hres.
Qed.
End producer.

(** ** The consumer's functions *)

Record cview_ok (cap al : Z) (v : consumer_view) : Prop := mk_cview_ok {
  cvo_read : 0 <= cv_read v;
  cvo_aligned : (al | cv_read v);
  cvo_paired : paired (cv_items v);
}.

(** The first item is a message whose payload is at [offset]. *)
Definition at_entry (cap : Z) (v : consumer_view) (offset len : Z) : Prop :=
  ∃ m rest, cv_items v = Message m :: rest ∧ offset = cv_read v mod cap + 4 ∧ len = Z.of_nat (length m).

(** A payload as a call returned it. *)
Definition delivered_as (d : delivery) (m : list Z) : Prop :=
  dl_length d = Z.of_nat (length m) ∧ dl_bytes d = take (Z.to_nat (dl_room d)) m.

Definition consumer_post (cap al : Z) (base : nat) (st : consumer_state) (v : consumer_view) : Prop :=
  cview_ok cap al v ∧
  match st with
  | ConsumerReady => cv_popped v = []
  | ConsumerPeeked offset len => cv_popped v = [] ∧ at_entry cap v offset len
  | ConsumerDelivered d => ∃ m, cv_popped v = [m] ∧ delivered_as d m
  | ConsumerEmpty seen => cv_popped v = [] ∧ (seen <= base)%nat
  | ConsumerFuel | ConsumerRunning _ => False
  end.

Section consumer.
Context {cap al : Z} (G : geometry cap al).

(** The length prefix of a message. *)
Lemma message_prefix d r m :
  item_at cap al d r (Message m) → 0 <= r →
  u32_value (slice d (r mod cap) 4) = Z.of_nat (length m) ∧ Z.of_nat (length m) < IREE_SPSC_QUEUE_SKIP_MARKER.
Proof.
  intros (-> & _ & Hend) Hr. pose proof (geo_bounds G) as [HB HB']. pose proof (Z.mod_pos_bound r cap ltac:(lia)).
  destruct (entry_bytes_spec G (Z.of_nat (length m))) as [_ ?]. unfold IREE_SPSC_QUEUE_SKIP_MARKER, umax.
  change (2 ^ 31) with 2147483648 in HB'. change (2 ^ 32) with 4294967296.
  split; [|lia]. apply u32_round_trip. unfold in_width. change (2 ^ 32) with 4294967296. lia.
Qed.

Lemma skip_prefix d r : item_at cap al d r Skip → u32_value (slice d (r mod cap) 4) = IREE_SPSC_QUEUE_SKIP_MARKER.
Proof. intros ->. by apply u32_round_trip. Qed.

(** The length prefix of the first item is within the items. *)
Lemma prefix_in_items r it items :
  (al | r) → 0 <= r → in_items cap al r (it :: items) (r mod cap) 4.
Proof.
  intros Ha Hr _. exists r. destruct (item_bytes_spec G r it Ha) as [Hge Ha']. destruct (after_spec G items _ Ha').
  destruct (tail_aligned G r Ha). pose proof (geo_bounds G). cbn [after]. lia.
Qed.

Lemma first_item_ahead r it items : (al | r) → r < after cap al r (it :: items).
Proof.
  intros Ha. destruct (item_bytes_spec G r it Ha) as [? Ha']. destruct (after_spec G items _ Ha'). cbn [after]. lia.
Qed.

Lemma peek_loop_message seen base q (Q : peek_result → consumer_view → Prop) fuel r m rest popped :
  handle_ok cap al q → 0 <= r → (al | r) →
  Q (PeekEntry (r mod cap + 4) (Z.of_nat (length m))) (mk_cview r (Message m :: rest) popped) →
  consumer_safe cap al seen base Q (peek_loop (S fuel) q r (after cap al r (Message m :: rest)))
    (mk_cview r (Message m :: rest) popped).
Proof.
  intros Hq Hr Ha HQ. pose proof (first_item_ahead r (Message m) rest Ha) as Hlt. cbn [peek_loop].
  rewrite (proj2 (Z.ltb_lt _ _)), (physical_offset_eq G) by done. cbn [mbind prog_bind prog_bind_def load_data consumer_safe].
  intros d [Hit _]. split; [by apply prefix_in_items|]. destruct (message_prefix d r m Hit Hr) as [-> Hlen].
  by rewrite (proj2 (Z.eqb_neq _ _)) by lia.
Qed.

Lemma peek_loop_skip seen base q (Q : peek_result → consumer_view → Prop) fuel r rest popped :
  handle_ok cap al q → 0 <= r → (al | r) →
  consumer_safe cap al seen base Q (peek_loop fuel q (r + (cap - r mod cap)) (after cap al r (Skip :: rest)))
    (mk_cview (r + (cap - r mod cap)) rest popped) →
  consumer_safe cap al seen base Q (peek_loop (S fuel) q r (after cap al r (Skip :: rest))) (mk_cview r (Skip :: rest) popped).
Proof.
  intros Hq Hr Ha HQ. pose proof (first_item_ahead r Skip rest Ha) as Hlt. cbn [peek_loop].
  rewrite (proj2 (Z.ltb_lt _ _)) by done. rewrite (tail_eq G), (physical_offset_eq G) by done.
  cbn [mbind prog_bind prog_bind_def load_data consumer_safe].
  intros d [Hit _]. split; [by apply prefix_in_items|]. rewrite (skip_prefix d r Hit), Z.eqb_refl.
  cbn [mbind prog_bind prog_bind_def store_read consumer_safe]. exists Skip, rest. split; [done|]. split; [done|]. by rewrite app_nil_r.
Qed.

Lemma peek_safe seen base q (Q : peek_result → consumer_view → Prop) v :
  handle_ok cap al q → cview_ok cap al v →
  (∀ v' offset len, cview_ok cap al v' → cv_popped v' = cv_popped v → at_entry cap v' offset len → Q (PeekEntry offset len) v') →
  (∀ v', cview_ok cap al v' → cv_popped v' = cv_popped v → cv_items v' = [] → (seen <= base + length (cv_popped v))%nat →
     Q PeekEmpty v') →
  consumer_safe cap al seen base Q (iree_spsc_queue_peek q) v.
Proof.
  intros Hq Hv HEntry HEmpty. destruct v as [r items popped]. destruct Hv as [Hr Ha Hp]; cbn in Hr, Ha, Hp.
  unfold iree_spsc_queue_peek. cbn [mbind prog_bind prog_bind_def load_read load_write consumer_safe].
  intros items' Hpre Hp' Hseen.
  assert (∀ m rest pos, paired (Message m :: rest) → 0 <= pos → (al | pos) →
    Q (PeekEntry (pos mod cap + 4) (Z.of_nat (length m))) (mk_cview pos (Message m :: rest) popped)) as HMsg.
  { intros m rest pos Hm Hpos Hal. apply HEntry; [done|done|]. by exists m, rest. }
  destruct items' as [|[|m] rest].
  - cbn. rewrite Z.ltb_irrefl. cbn. apply HEmpty; [done|done|done|]. unfold messages in Hseen. cbn in *. lia.
  - apply peek_loop_skip; [done..|]. cbn [after item_bytes].
    destruct (tail_aligned G r Ha) as [Hal Htail]. pose proof (geo_bounds G). destruct rest as [|[|m] rest]; [done|done|].
    apply peek_loop_message; [done|lia|by apply Z.divide_add_r|]. apply HMsg; [done|lia|by apply Z.divide_add_r].
  - apply peek_loop_message; [done..|]. by apply HMsg.
Qed.

Lemma consume_safe seen base q (Q : unit → consumer_view → Prop) v m rest :
  handle_ok cap al q → cview_ok cap al v → cv_items v = Message m :: rest →
  (∀ v', cview_ok cap al v' → cv_popped v' = cv_popped v ++ [m] → Q tt v') →
  consumer_safe cap al seen base Q (iree_spsc_queue_consume q) v.
Proof.
  intros Hq [Hr Ha Hp] Hitems HQ. destruct v as [r items popped]; cbn in *; subst items.
  rewrite (physical_offset_eq G) by done. intros d [Hit _]. split; [by apply prefix_in_items|].
  exists (Message m), rest. split; [done|]. destruct (message_prefix d r m Hit Hr) as [-> Hlen].
  destruct (item_bytes_spec G r (Message m) Ha) as [? ?].
  assert (iree_spsc_queue_entry_size (sq_entry_alignment q) (Z.of_nat (length m)) = item_bytes cap al r (Message m)) as ->.
  { apply (entry_size_eq G); [done|]. pose proof (geo_bounds G) as [? HB]. unfold length_ok.
    rewrite (handle_alignment _ _ _ Hq). unfold IREE_SPSC_QUEUE_SKIP_MARKER, umax in Hlen.
    change (2 ^ 31) with 2147483648 in HB. change (2 ^ 32) with 4294967296 in Hlen.
    change (2 ^ 64) with 18446744073709551616. lia. }
  split; [done|]. apply HQ; [|done]. split; cbn -[item_bytes]; [lia|done|done].
Qed.
(** A prefix of the payload of the first item. *)
Lemma payload_in_items d v offset len n :
  cview_ok cap al v → at_entry cap v offset len → n <= len → laid cap al d (cv_read v) (cv_items v) →
  in_items cap al (cv_read v) (cv_items v) offset n.
Proof.
  intros [Hr Ha _] (m & rest & Hitems & -> & ->) Hn. rewrite Hitems. intros [(_ & _ & Hend) _] Hpos.
  pose proof (geo_bounds G). destruct (entry_bytes_spec G (Z.of_nat (length m))) as [_ He].
  destruct (item_bytes_spec G _ (Message m) Ha) as [_ Ha']. destruct (after_spec G rest _ Ha').
  exists (cv_read v + 4). rewrite mod_segment by lia. cbn [after item_bytes] in *. lia.
Qed.

Lemma payload_slice d v offset len n :
  at_entry cap v offset len → 0 <= n <= len → laid cap al d (cv_read v) (cv_items v) →
  ∃ m rest, cv_items v = Message m :: rest ∧ len = Z.of_nat (length m) ∧ slice d offset n = take (Z.to_nat n) m.
Proof.
  intros (m & rest & Hitems & -> & ->) Hn. rewrite Hitems. intros [(_ & Hm & _) _]. exists m, rest. split; [done|]. split; [done|].
  rewrite (slice_take _ _ (Z.of_nat (length m))) by done. by rewrite Hm.
Qed.

Lemma call_read_safe seen base q out_capacity v :
  handle_ok cap al q → 0 <= out_capacity → cview_ok cap al v → cv_popped v = [] →
  consumer_safe cap al seen base (consumer_post cap al base) (call_read q seen out_capacity) v.
Proof.
  intros Hq Hroom Hv Hpop. unfold call_read. apply consumer_safe_bind. unfold iree_spsc_queue_read. apply consumer_safe_bind.
  apply peek_safe; [done..| |].
  - intros v' offset len Hv' Hpop' Hentry. apply consumer_safe_bind.
    assert (0 <= len) by (destruct Hentry as (? & ? & _ & _ & ->); lia).
    assert (∀ (R : list Z → consumer_view → Prop) n, n <= len →
      (∀ d, laid cap al d (cv_read v') (cv_items v') → R (slice d offset n) v') →
      consumer_safe cap al seen base R (load_data offset n) v') as Hload.
    { intros R n Hn HR. pose proof (λ d, payload_in_items d v' offset len n Hv' Hentry Hn) as Hin. destruct v'; cbn in *. intros d Hd. split; [by apply (Hin d)|by apply HR]. }
    apply Hload; [lia|]. intros d Hlaid. apply consumer_safe_bind.
    destruct (payload_slice d v' offset len (Z.min len out_capacity) Hentry ltac:(lia) Hlaid) as (m & rest & Hitems & -> & ->).
    apply (consume_safe seen base q _ v' m rest); [done..|]. rewrite Hpop', Hpop. intros v'' Hv'' Hpop''. destruct v''.
    split; [done|]. exists m. split; [done|]. split; [done|]. cbn.
    destruct (Z.min_spec (Z.of_nat (length m)) out_capacity) as [[? ->]|[? ->]]; [|done].
    rewrite !take_ge by lia. done.
  - intros v' Hv' Hpop' _ Hseen. rewrite Hpop in *. destruct v'. split; [done|]. split; [done|]. cbn in *. lia.
Qed.

Lemma call_peek_safe seen base q v :
  handle_ok cap al q → cview_ok cap al v → cv_popped v = [] →
  consumer_safe cap al seen base (consumer_post cap al base) (call_peek q seen) v.
Proof.
  intros Hq Hv Hpop. unfold call_peek. apply consumer_safe_bind. apply peek_safe; [done..| |].
  - intros v' offset len Hv' Hpop' Hentry. rewrite Hpop in *. destruct v'. by split.
  - intros v' Hv' Hpop' _ Hseen. rewrite Hpop in *. destruct v'. split; [done|]. split; [done|]. cbn in *. lia.
Qed.

Lemma call_consume_safe seen base q d offset len v :
  handle_ok cap al q → cview_ok cap al v → cv_popped v = [] → at_entry cap v offset len →
  laid cap al d (cv_read v) (cv_items v) →
  consumer_safe cap al seen base (consumer_post cap al base) (call_consume q (mk_delivery len len (slice d offset len))) v.
Proof.
  intros Hq Hv Hpop Hentry Hlaid. assert (0 <= len) by (destruct Hentry as (? & ? & _ & _ & ->); lia).
  destruct (payload_slice d v offset len len Hentry ltac:(lia) Hlaid) as (m & rest & Hitems & -> & ->).
  unfold call_consume. apply consumer_safe_bind. apply (consume_safe seen base q _ v m rest); [done..|].
  rewrite Hpop. intros v'' Hv'' Hpop''. destruct v''. split; [done|]. by exists m.
Qed.
End consumer.
