(* ===== verification/SpscTheorems.v ===== *)
(** * Theorems on the queue

    The invariant of the producer and the consumer of [SpscQueue] under every interleaving,
    and the properties that follow. *)

From S2P Require Import Prelude BaseMath SpscQueue SpscLayout SpscSafety.
From stdpp Require Import base numbers list list_numbers.

Local Open Scope Z_scope.
Local Open Scope machine_scope.

(** ** The invariant *)

Definition producer_inv (cap al : Z) (st : producer_state) (v : producer_view) : Prop :=
  match st with
  | ProducerRunning message p => producer_safe cap al message (producer_post cap al) p v
  | st => producer_post cap al st v
  end.

Definition consumer_inv (cap al : Z) (sent base : nat) (st : consumer_state) (v : consumer_view) : Prop :=
  match st with
  | ConsumerRunning p =>
      ∃ seen, (seen <= sent)%nat ∧ consumer_safe cap al seen base (consumer_post cap al base) p v
  | st => consumer_post cap al base st v
  end.

(** [items] are in the queue, [popped] messages were passed by the running call, and the
    messages [done] were returned. *)
Record system_ok (cap al : Z) (s : spsc_system) (items : list item) (done popped : list (list Z)) : Prop := mk_system_ok {
  so_geometry : geometry cap al;
  so_queue : queue_ok cap al (ss_memory s) items;
  so_handle : handle_ok cap al (ss_queue s);
  so_producer : ∃ f, sm_cached (ss_memory s) <= f <= sm_read (ss_memory s) ∧
    producer_inv cap al (ss_producer s) (view_of (ss_memory s) f);
  so_consumer : ∃ vis, vis `prefix_of` items ∧
    consumer_inv cap al (length (ss_sent s)) (length done) (ss_consumer s) (mk_cview (sm_read (ss_memory s)) vis popped);
  so_sent : ss_sent s = done ++ popped ++ messages items;
  so_received : Forall2 delivered_as (ss_received s) done;
}.

Definition system_inv (s : spsc_system) : Prop := ∃ cap al items done popped, system_ok cap al s items done popped.

(** The consumer's part does not depend on what is published later. *)
Lemma consumer_inv_mono cap al sent sent' base st v :
  (sent <= sent')%nat → consumer_inv cap al sent base st v → consumer_inv cap al sent' base st v.
Proof. intros H. destruct st; try done. intros (seen & Hs & Hsafe). exists seen. split; [lia|done]. Qed.

Lemma queue_pview cap al m items :
  geometry cap al → queue_ok cap al m items → pview_ok cap al (view_of m (sm_read m)).
Proof.
  intros G [? ? Ha _ Hw _]. destruct (after_spec G items _ Ha) as [? ?]. split; cbn; [lia|done|by rewrite Hw].
Qed.

(** A producer step that starts a call. *)
Lemma producer_starts cap al s items done popped st :
  system_ok cap al s items done popped → producer_inv cap al st (view_of (ss_memory s) (sm_read (ss_memory s))) →
  system_ok cap al (mk_spsc_system (ss_memory s) st (ss_queue s) (ss_consumer s) (ss_sent s) (ss_received s)) items done popped.
Proof.
  intros [G Hq Hh _ Hc Hs Hr] Hst. split; try done. exists (sm_read (ss_memory s)). split; [|done]. destruct Hq. cbn. lia.
Qed.

Lemma producer_idle cap al s items done popped :
  system_ok cap al s items done popped → (∀ message p, ss_producer s ≠ ProducerRunning message p) →
  producer_post cap al (ss_producer s) (view_of (ss_memory s) (sm_read (ss_memory s))).
Proof.
  intros [G Hq Hh (f & Hf & Hp) _ _ _] Hidle. pose proof (queue_pview _ _ _ _ G Hq) as Hv. split; [done|].
  destruct (ss_producer s) as [q|q len offset|q len floor|message p]; try (by destruct Hp). by destruct (Hidle message p).
Qed.

Lemma producer_step_ok s s' : producer_step s s' → system_inv s → system_inv s'.
Proof.
  intros Hstep (cap & al & items & done & popped & Hok). pose proof (producer_idle _ _ _ _ _ _ Hok) as Hidle.
  assert (∀ st, producer_inv cap al st (view_of (ss_memory s) (sm_read (ss_memory s))) →
    system_inv (mk_spsc_system (ss_memory s) st (ss_queue s) (ss_consumer s) (ss_sent s) (ss_received s))) as Hstart.
  { intros st Hst. exists cap, al, items, done, popped. by apply producer_starts. }
  pose proof (so_geometry _ _ _ _ _ _ Hok) as G.
  destruct Hstep as [s q data E Hlen|s q len E Hlen|s q len offset position bytes E Hp Hn|s q len offset E|s q len offset E
    |s q len floor E|s message p m' p' E _ Hexec|s message st E].
  - rewrite E in Hidle. destruct Hidle as [Hv Hq]; [done|]. apply Hstart. by apply (call_write_safe G q data (view_of (ss_memory s) (sm_read (ss_memory s)))).
  - rewrite E in Hidle. destruct Hidle as [Hv Hq]; [done|]. apply Hstart. by apply (call_begin_safe G q len (view_of (ss_memory s) (sm_read (ss_memory s)))).
  - rewrite E in Hidle. destruct Hidle as [Hv Hq]; [done|]. apply Hstart. by apply (call_fill_safe G).
  - rewrite E in Hidle. destruct Hidle as [Hv Hq]; [done|]. apply Hstart. by apply (call_commit_safe G q len offset (view_of (ss_memory s) (sm_read (ss_memory s)))).
  - rewrite E in Hidle. destruct Hidle as [Hv Hq]; [done|]. apply Hstart. split; [done|]. by destruct Hq.
  - rewrite E in Hidle. destruct Hidle as [Hv [Hq _]]; [done|]. by apply Hstart.
  - destruct Hok as [_ Hq Hh (f & Hf & Hp) (vis & Hvis & Hc) Hs Hr]. rewrite E in Hp.
    destruct (producer_safe_access G _ _ p _ _ f _ _ Hq ltac:(lia) ltac:(lia) Hp Hexec) as (new & f' & Hq' & Hnew & Hread & Hf' & Hc' & Hp').
    exists cap, al, (items ++ new), done, popped. split; cbn; try done.
    + exists f'. split; [lia|done].
    + exists vis. split; [by apply prefix_app_r|]. rewrite Hread. eapply consumer_inv_mono; [|done]. rewrite length_app. lia.
    + by rewrite Hs, messages_app, Hnew, !app_assoc.
  - destruct Hok as [_ Hq Hh (f & Hf & Hp) Hc Hs Hr]. rewrite E in Hp. cbn in Hp.
    exists cap, al, items, done, popped. split; try done. exists f. split; [done|]. destruct st; try done. by destruct Hp.
Qed.

(** A consumer step that leaves the memory and what was passed. *)
Lemma consumer_starts cap al s items done popped vis st :
  system_ok cap al s items done popped → vis `prefix_of` items →
  consumer_inv cap al (length (ss_sent s)) (length done) st (mk_cview (sm_read (ss_memory s)) vis popped) →
  system_ok cap al (mk_spsc_system (ss_memory s) (ss_producer s) (ss_queue s) st (ss_sent s) (ss_received s)) items done popped.
Proof. intros [G Hq Hh Hp _ Hs Hr] Hvis Hst. split; try done. by exists vis. Qed.

Lemma consumer_step_ok s s' : consumer_step s s' → system_inv s → system_inv s'.
Proof.
  intros Hstep (cap & al & items & done & popped & Hok). pose proof (so_geometry _ _ _ _ _ _ Hok) as G.
  destruct (so_consumer _ _ _ _ _ _ Hok) as (vis & Hvis & Hc). pose proof (so_handle _ _ _ _ _ _ Hok) as Hh.
  assert (∀ st, consumer_inv cap al (length (ss_sent s)) (length done) st (mk_cview (sm_read (ss_memory s)) vis popped) →
    system_inv (mk_spsc_system (ss_memory s) (ss_producer s) (ss_queue s) st (ss_sent s) (ss_received s))) as Hstart.
  { intros st Hst. exists cap, al, items, done, popped. by eapply consumer_starts. }
  destruct Hstep as [s room E Hroom|s E|s offset len E|s seen E|s p m' p' E _ Hexec|s st E|s d E]; rewrite E in Hc.
  - destruct Hc as [Hv Hpop]. apply Hstart. exists (length (ss_sent s)). split; [done|]. by apply (call_read_safe G).
  - destruct Hc as [Hv Hpop]. apply Hstart. exists (length (ss_sent s)). split; [done|]. by apply (call_peek_safe G).
  - destruct Hc as (Hv & Hpop & Hentry). apply Hstart. exists O. split; [lia|]. apply (call_consume_safe G); try done.
    destruct Hvis as [rest ->]. by destruct (proj1 (laid_app _ _ _ _ _ _) (qo_laid _ _ _ _ (so_queue _ _ _ _ _ _ Hok))).
  - destruct Hc as (Hv & Hpop & _). by apply Hstart.
  - destruct Hc as (seen & Hseen & Hsafe). destruct Hok as [_ Hq _ (f & Hf & Hp) _ Hs Hr].
    assert (seen <= length done + length popped + length (messages items))%nat by (rewrite Hs, !length_app in Hseen; lia).
    destruct (consumer_safe_access G _ _ _ p _ _ _ _ _ _ Hq Hvis ltac:(done) Hsafe Hexec)
      as (passed & items' & vis' & -> & Hq' & Hvis' & Ew & Ec & Ed & Hread & Hsafe').
    exists cap, al, items', done, (popped ++ messages passed). split; cbn; try done.
    + exists f. rewrite Ec. split; [lia|]. unfold view_of in *. by rewrite Ew, Ec, Ed.
    + exists vis'. split; [done|]. by exists seen.
    + by rewrite Hs, messages_app, <- !app_assoc.
  - destruct Hc as (seen & Hseen & Hpost). apply Hstart. destruct st; try done. by destruct Hpost.
  - destruct Hc as (Hv & m & Hpop & Hd). cbn in Hpop. subst popped. destruct Hok as [_ Hq _ Hp _ Hs Hr].
    exists cap, al, items, (done ++ [m]), []. split; cbn; try done.
    + exists vis. split; [done|]. by destruct Hv.
    + by rewrite Hs, <- !app_assoc.
    + apply Forall2_app; [done|]. constructor; [done|constructor].
Qed.

(** ** Initial states *)

Lemma required_size_eq cap : in_width 32 cap → iree_spsc_queue_required_size cap = 256 + cap.
Proof.
  intros [? H]. apply uadd_small. unfold IREE_SPSC_QUEUE_HEADER_SIZE. change (2 ^ 32) with 4294967296 in H.
  change (2 ^ 64) with 18446744073709551616. lia.
Qed.

Lemma width_32_64 x : in_width 32 x → in_width 64 x.
Proof. apply in_width_weaken. lia. Qed.

(** A header that [open] accepts for a region of [memory_size] bytes. *)
Record header_valid (h : iree_spsc_queue_header_t) (memory_size : Z) : Prop := mk_header_valid {
  hv_magic : sh_magic h = IREE_SPSC_QUEUE_MAGIC;
  hv_version : sh_version h = IREE_SPSC_QUEUE_VERSION;
  hv_capacity : IREE_SPSC_QUEUE_MIN_CAPACITY <= sh_capacity h ∧ is_pow2 (sh_capacity h);
  hv_alignment : 4 <= sh_entry_alignment h ∧ is_pow2 (sh_entry_alignment h);
  hv_size : IREE_SPSC_QUEUE_HEADER_SIZE + sh_capacity h <= memory_size;
}.

Lemma validate_header_spec h memory_size :
  in_width 32 (sh_capacity h) → in_width 32 (sh_entry_alignment h) →
  match iree_spsc_queue_validate_header h memory_size with
  | Ok _ => header_valid h memory_size
  | Err code => code = IREE_STATUS_INVALID_ARGUMENT ∧ ¬ header_valid h memory_size
  end.
Proof.
  intros Hc Ha. unfold iree_spsc_queue_validate_header. rewrite required_size_eq by done.
  pose proof (is_power_of_two_iff _ (width_32_64 _ Hc)) as Pc. pose proof (is_power_of_two_iff _ (width_32_64 _ Ha)) as Pa.
  destruct (Z.eqb_spec (sh_magic h) IREE_SPSC_QUEUE_MAGIC); cbn [negb]; [|split; [done|by intros []]].
  destruct (Z.eqb_spec (sh_version h) IREE_SPSC_QUEUE_VERSION); cbn [negb]; [|split; [done|by intros []]].
  destruct (Z.ltb_spec (sh_capacity h) IREE_SPSC_QUEUE_MIN_CAPACITY); [split; [done|intros [_ _ [? ?] _ _]; lia]|].
  destruct (iree_host_size_is_power_of_two (sh_capacity h)); cbn [negb];
    [|split; [done|intros [_ _ [_ Hp%Pc] _ _]; done]].
  destruct (Z.ltb_spec (sh_entry_alignment h) 4); [split; [done|intros [_ _ _ [? ?] _]; lia]|].
  destruct (iree_host_size_is_power_of_two (sh_entry_alignment h)); cbn [negb];
    [|split; [done|intros [_ _ _ [_ Hp%Pa] _]; done]].
  destruct (Z.ltb_spec memory_size (256 + sh_capacity h)) as [|Hsize]; [split; [done|intros [_ _ _ _ Hs]; unfold IREE_SPSC_QUEUE_HEADER_SIZE in Hs; lia]|].
  split; try done; [split; [done|by apply Pc]|split; [done|by apply Pa]].
Qed.

(** The memory that [initialize] leaves. *)
Definition fresh_memory (m m' : spsc_memory) (capacity : Z) : Prop :=
  sm_header m' = mk_spsc_header IREE_SPSC_QUEUE_MAGIC IREE_SPSC_QUEUE_VERSION capacity IREE_SPSC_QUEUE_DEFAULT_ENTRY_ALIGNMENT ∧
  sm_write m' = 0 ∧ sm_read m' = 0 ∧ sm_cached m' = 0 ∧
  (∀ x, sm_data m' x = if decide (0 <= x < capacity) then 0 else sm_data m x).

Lemma initialize_spec memory memory_size capacity :
  in_width 32 capacity →
  match iree_spsc_queue_initialize memory memory_size capacity with
  | Ok (m', q) =>
      ∃ m, memory = Some m ∧ IREE_SPSC_QUEUE_MIN_CAPACITY <= capacity ∧ is_pow2 capacity ∧
        IREE_SPSC_QUEUE_HEADER_SIZE + capacity <= memory_size ∧ fresh_memory m m' capacity ∧ q = iree_spsc_queue_bind m'
  | Err code =>
      code = IREE_STATUS_INVALID_ARGUMENT ∧
      (memory = None ∨ capacity < IREE_SPSC_QUEUE_MIN_CAPACITY ∨ ¬ is_pow2 capacity ∨
       memory_size < IREE_SPSC_QUEUE_HEADER_SIZE + capacity)
  end.
Proof.
  intros Hc. pose proof (is_power_of_two_iff _ (width_32_64 _ Hc)) as Pc. destruct memory as [m|]; [|by split; [|left]].
  cbn [iree_spsc_queue_initialize]. rewrite required_size_eq by done.
  destruct (Z.ltb_spec capacity IREE_SPSC_QUEUE_MIN_CAPACITY); [split; [done|by right; left]|].
  destruct (iree_host_size_is_power_of_two capacity) eqn:E; cbn [negb];
    [|split; [done|]; right; right; left; by intros Hp%Pc].
  destruct (Z.ltb_spec memory_size (256 + capacity)); [split; [done|by right; right; right]|].
  exists m. split; [done|]. split; [done|]. split; [by apply Pc|]. split; [done|]. split; [|done].
  repeat (split; [done|]). intros x. cbn.
  destruct (Z.leb_spec 0 x), (Z.ltb_spec x capacity); simpl; case_decide; done || lia.
Qed.

Lemma initial_geometry capacity :
  in_width 32 capacity → IREE_SPSC_QUEUE_MIN_CAPACITY <= capacity → is_pow2 capacity →
  geometry capacity IREE_SPSC_QUEUE_DEFAULT_ENTRY_ALIGNMENT.
Proof.
  unfold IREE_SPSC_QUEUE_MIN_CAPACITY, IREE_SPSC_QUEUE_DEFAULT_ENTRY_ALIGNMENT. intros [_ Hc] Hmin (k & Hk & ->).
  assert (k < 32) by (apply (Z.pow_lt_mono_r_iff 2); lia).
  assert (6 <= k) by (apply (Z.pow_le_mono_r_iff 2); [lia..|]; change (2 ^ 6) with 64; lia).
  split; [by exists k|by exists 3|]. exists (2 ^ (k - 3)). change 8 with (2 ^ 3). rewrite <- Z.pow_add_r by lia. f_equal. lia.
Qed.

Lemma bind_handle_ok m :
  1 <= sh_capacity (sm_header m) < 2 ^ 32 →
  handle_ok (sh_capacity (sm_header m)) (sh_entry_alignment (sm_header m)) (iree_spsc_queue_bind m).
Proof. intros H. split; cbn; [done| |done]. apply usub_small; unfold in_width; lia. Qed.

Lemma open_eq m memory_size q : iree_spsc_queue_open (Some m) memory_size = Ok q → q = iree_spsc_queue_bind m.
Proof.
  unfold iree_spsc_queue_open. destruct (memory_size <? _); [done|]. by destruct (iree_spsc_queue_validate_header _ _); intros [= <-].
Qed.

Lemma reachable_inv s : spsc_reachable s → system_inv s.
Proof.
  induction 1 as [memory size capacity m q cq Hc Hsize Hinit Hopen|s s' _ IH [Hstep|Hstep]];
    [|by eapply producer_step_ok|by eapply consumer_step_ok].
  pose proof (initialize_spec memory size capacity Hc) as Hspec. rewrite Hinit in Hspec.
  destruct Hspec as (m0 & _ & Hmin & Hpow & _ & (Hh & Hw & Hr & Hca & _) & ->). apply open_eq in Hopen as ->.
  pose proof (initial_geometry capacity Hc Hmin Hpow) as G. unfold IREE_SPSC_QUEUE_MIN_CAPACITY in Hmin.
  assert (handle_ok capacity IREE_SPSC_QUEUE_DEFAULT_ENTRY_ALIGNMENT (iree_spsc_queue_bind m)) as Hok.
  { pose proof (bind_handle_ok m) as Hb. rewrite Hh in Hb. apply Hb. destruct Hc. cbn. lia. }
  exists capacity, IREE_SPSC_QUEUE_DEFAULT_ENTRY_ALIGNMENT, [], [], []. split; cbn; try done.
  - split; rewrite ?Hw, ?Hr, ?Hca; try apply Z.divide_0_r; try done; lia.
  - exists 0. unfold view_of. rewrite Hw, Hr, Hca. split; [lia|]. split; [|done]. split; cbn; apply Z.divide_0_r || done || lia.
  - exists []. split; [done|]. rewrite Hr. split; [|done]. split; cbn; apply Z.divide_0_r || done.
Qed.

(** ** Order and content *)

(** C34: under every interleaving of the accesses of one producer ([write], or [begin_write], fills, [commit_write] or
    [cancel_write]) and one consumer ([read], or [peek] and [consume]) on an initialized queue, what the consumer's calls
    returned is, in order and without gaps, loss or duplication, a prefix of what was published: each result has the length of
    the message and its bytes, cut to the size of the buffer.  When the consumer is between calls and the positions are equal,
    everything published was received. *)
Theorem spsc_fifo s :
  spsc_reachable s →
  ∃ taken queued, ss_sent s = taken ++ queued ∧ Forall2 delivered_as (ss_received s) taken ∧
    (ss_consumer s = ConsumerReady → sm_write (ss_memory s) = sm_read (ss_memory s) → queued = []).
Proof.
  intros (cap & al & items & done & popped & [G Hq Hh _ (vis & _ & Hc) Hs Hr])%reachable_inv.
  exists done, (popped ++ messages items). split; [done|]. split; [done|]. intros E Heq. rewrite E in Hc.
  destruct Hc as [_ Hpop]. cbn in Hpop. subst popped. destruct items as [|it items]; [done|].
  pose proof (first_item_ahead G _ it items (qo_aligned _ _ _ _ Hq)) as Hlt. rewrite <- (qo_write _ _ _ _ Hq) in Hlt. lia.
Qed.

(** ** Data races *)

(** The part of the data region that the next access of a program touches: whether it
    writes, the offset and the length. *)
Definition next_access {A} (p : prog A) : option (bool * Z * Z) :=
  match p with
  | LoadData offset len _ => Some (false, offset, len)
  | StoreData offset bytes _ => Some (true, offset, Z.of_nat (length bytes))
  | _ => None
  end.

Definition producer_next (s : spsc_system) : option (bool * Z * Z) :=
  match ss_producer s with ProducerRunning _ p => next_access p | _ => None end.
Definition consumer_next (s : spsc_system) : option (bool * Z * Z) :=
  match ss_consumer s with ConsumerRunning p => next_access p | _ => None end.

Definition in_region (cap : Z) (offset len : Z) : Prop := 0 < len → 0 <= offset ∧ offset + len <= cap.

Lemma in_free_region cap w c offset len : 0 < cap → in_free cap w c offset len → in_region cap offset len.
Proof. intros Hc Hf Hl. destruct (Hf Hl) as (pos & -> & _ & _ & ?). pose proof (Z.mod_pos_bound pos cap Hc). lia. Qed.

Lemma in_items_region cap al r items offset len : 0 < cap → in_items cap al r items offset len → in_region cap offset len.
Proof. intros Hc Hf Hl. destruct (Hf Hl) as (pos & -> & _ & _ & ?). pose proof (Z.mod_pos_bound pos cap Hc). lia. Qed.

(** Free bytes and bytes of items are disjoint. *)
Lemma free_items_disjoint cap al m items vis offset len offset' len' :
  geometry cap al → queue_ok cap al m items → vis `prefix_of` items →
  in_free cap (sm_write m) (sm_cached m) offset len → in_items cap al (sm_read m) vis offset' len' →
  0 < len → 0 < len' → offset + len <= offset' ∨ offset' + len' <= offset.
Proof.
  intros G Hq [rest ->] Hf Hi Hl Hl'. destruct (Hf Hl) as (pos & -> & Hw & Hroom & Hend).
  destruct (Hi Hl') as (pos' & -> & Hr & Hin & Hend'). pose proof (geo_bounds G).
  destruct Hq as [Hc _ Ha _ Ew _]. rewrite after_app in Ew.
  destruct (after_spec G vis _ Ha) as [? Ha']. destruct (after_spec G rest _ Ha') as [? _]. rewrite <- Ew in *.
  destruct (decide (pos mod cap + len <= pos' mod cap ∨ pos' mod cap + len' <= pos mod cap)) as [|Hover]; [done|]. exfalso.
  pose proof (Z.mod_pos_bound pos cap ltac:(lia)). pose proof (Z.mod_pos_bound pos' cap ltac:(lia)).
  set (o := Z.max (pos mod cap) (pos' mod cap)).
  assert (pos + (o - pos mod cap) = pos' + (o - pos' mod cap)) as E; [|lia].
  apply (window_inj cap (sm_read m)); [lia|lia|lia|]. rewrite !mod_segment by lia. lia.
Qed.

Lemma producer_access_free s cap al items done popped b offset len :
  system_ok cap al s items done popped → producer_next s = Some (b, offset, len) →
  b = true ∧ in_free cap (sm_write (ss_memory s)) (sm_cached (ss_memory s)) offset len.
Proof.
  intros [_ _ _ (f & _ & Hp) _ _ _] E. unfold producer_next in E. destruct (ss_producer s) as [| | |message p]; try done.
  destruct p; simplify_eq/=; [done|]. split; [done|]. apply Hp.
Qed.

Lemma consumer_access_items s cap al items done popped b offset len :
  system_ok cap al s items done popped → consumer_next s = Some (b, offset, len) →
  b = false ∧ ∃ vis, vis `prefix_of` items ∧ in_items cap al (sm_read (ss_memory s)) vis offset len.
Proof.
  intros [_ Hq _ _ (vis & Hvis & Hc) _ _] E. unfold consumer_next in E. destruct (ss_consumer s) as [| | | | |p]; try done.
  destruct Hc as (seen & _ & Hsafe). destruct p; simplify_eq/=; [|done]. split; [done|]. exists vis. split; [done|].
  apply (Hsafe (sm_data (ss_memory s))). destruct Hvis as [rest ->].
  by destruct (proj1 (laid_app _ _ _ _ _ _) (qo_laid _ _ _ _ Hq)).
Qed.

(** C35: in every reachable state the next access of each side to the data region stays inside the region, only the producer
    writes there, and a pending write of the producer and a pending read of the consumer touch disjoint bytes: the two sides
    never race on the data, whatever the interleaving. *)
Theorem spsc_race_free s :
  spsc_reachable s →
  let cap := sq_capacity (ss_queue s) in
  (∀ b offset len, producer_next s = Some (b, offset, len) → b = true ∧ in_region cap offset len) ∧
  (∀ b offset len, consumer_next s = Some (b, offset, len) → b = false ∧ in_region cap offset len) ∧
  (∀ b offset len b' offset' len', producer_next s = Some (b, offset, len) → consumer_next s = Some (b', offset', len') →
     0 < len → 0 < len' → offset + len <= offset' ∨ offset' + len' <= offset).
Proof.
  intros (cap & al & items & done & popped & Hok)%reachable_inv. pose proof (so_geometry _ _ _ _ _ _ Hok) as G.
  rewrite (handle_capacity _ _ _ (so_handle _ _ _ _ _ _ Hok)). pose proof (geo_bounds G). split; [|split].
  - intros b offset len [-> Hf]%(producer_access_free _ _ _ _ _ _ _ _ _ Hok). split; [done|]. eapply in_free_region; [|done]. lia.
  - intros b offset len [-> (vis & _ & Hi)]%(consumer_access_items _ _ _ _ _ _ _ _ _ Hok). split; [done|].
    eapply in_items_region; [|done]. lia.
  - intros b offset len b' offset' len' [_ Hf]%(producer_access_free _ _ _ _ _ _ _ _ _ Hok)
      [_ (vis & Hvis & Hi)]%(consumer_access_items _ _ _ _ _ _ _ _ _ Hok).
    eapply free_items_disjoint; [done|by apply (so_queue _ _ _ _ _ _ Hok)|done..].
Qed.

(** ** Refusals *)

(** Answers under interference are justified.  A call that reports no space could not have placed its entry, with the tail
    it would have to skip, at the read position at which it was called.  A call that reports an empty queue has passed every
    message that was published before it began.  The loop of [peek] never needs a third iteration. *)
Theorem spsc_refusals_justified s :
  spsc_reachable s →
  let cap := sq_capacity (ss_queue s) in
  (∀ q len floor, ss_producer s = ProducerRefused q len floor →
     cap < sm_write (ss_memory s) - floor + needed cap (sq_entry_alignment (ss_queue s)) (sm_write (ss_memory s)) len) ∧
  (∀ seen, ss_consumer s = ConsumerEmpty seen → (seen <= length (ss_received s))%nat) ∧
  ss_consumer s ≠ ConsumerFuel.
Proof.
  intros (cap & al & items & done & popped & [G Hq Hh (f & _ & Hp) (vis & _ & Hc) _ Hr])%reachable_inv.
  rewrite (handle_capacity _ _ _ Hh), (handle_alignment _ _ _ Hh). split; [|split].
  - intros q len floor E. rewrite E in Hp. destruct Hp as (_ & _ & Hno). cbn in Hno. unfold fits in Hno. lia.
  - intros seen E. rewrite E in Hc. destruct Hc as (_ & _ & Hseen). by rewrite (Forall2_length _ _ _ Hr).
  - intros E. rewrite E in Hc. by destruct Hc.
Qed.

(** ** Bounded calls *)

(** [n] accesses of a program, each on a memory that the other side may have changed. *)
Inductive interfered {A} : nat → prog A → prog A → Prop :=
  | interfered_none p : interfered 0 p p
  | interfered_access n m m' p p' p'' : exec m p = Some (m', p') → interfered n p' p'' → interfered (S n) p p''.

(** A bound on the accesses of a program. *)
Fixpoint within {A} (n : nat) (p : prog A) : Prop :=
  match p, n with
  | Ret _, _ => True
  | LoadWrite k, S n | LoadRead k, S n | LoadCached k, S n => ∀ v, within n (k v)
  | StoreWrite _ k, S n | StoreRead _ k, S n | StoreCached _ k, S n | StoreData _ _ k, S n => within n k
  | LoadData _ _ k, S n => ∀ bytes, within n (k bytes)
  | _, O => False
  end.

Lemma within_interfered {A} n' (p p' : prog A) : interfered n' p p' → ∀ n, within n p → (n' <= n)%nat.
Proof.
  induction 1 as [|n' m m' p p' p'' He _ IH]; intros n Hw; [lia|]. destruct p, n; simplify_eq/=; try done.
  all: match goal with |- (S _ <= S ?n)%nat => specialize (IH n) end; naive_solver lia.
Qed.

Lemma within_mono {A} (p : prog A) : ∀ n n', (n <= n')%nat → within n p → within n' p.
Proof.
  induction p; intros [|n] [|n'] Hn; simpl; try done; try lia; intros;
    match goal with IH : _ |- _ => eapply IH; [|by eauto]; lia end.
Qed.

Lemma within_bind {A B} (f : A → prog B) n' (p : prog A) : ∀ n,
  within n p → (∀ a, within n' (f a)) → within (n + n') (p ≫= f).
Proof.
  induction p; intros n Hw Hf; [by eapply within_mono; [|apply Hf]; lia|..]; destruct n; simpl in *; try done;
    intros; match goal with IH : _ |- _ => by apply IH end.
Qed.

Lemma has_space_within q w n : within 3 (has_space q w n).
Proof. cbn. intros c. destruct (_ <? n); cbn; done. Qed.

Lemma plan_write_within q total w : within 3 (iree_spsc_queue_plan_write q total w).
Proof.
  unfold iree_spsc_queue_plan_write. destruct (_ <=? _); [done|].
  apply (within_bind _ 0 _ 3); [apply has_space_within|by intros []].
Qed.

Lemma begin_write_within q len : within 7 (iree_spsc_queue_begin_write q len).
Proof.
  apply (within_bind _ 6 _ 1); [done|]. intros w. apply (within_bind _ 3 _ 3); [apply has_space_within|]. intros []; [|done].
  apply (within_bind _ 0 _ 3); [apply plan_write_within|]. intros [o q']. by destruct (o =? _).
Qed.

Lemma commit_write_within q len : within 3 (iree_spsc_queue_commit_write q len).
Proof. unfold iree_spsc_queue_commit_write. by destruct (0 <? _). Qed.

Lemma write_within q data : within 11 (iree_spsc_queue_write q data).
Proof.
  apply (within_bind _ 4 _ 7); [apply begin_write_within|]. intros [[o|] q']; [|done].
  apply (within_bind _ 3 _ 1); [done|]. intros _. by apply (within_bind _ 0 _ 3); [apply commit_write_within|].
Qed.

Lemma peek_loop_within fuel q : ∀ r w, within (2 * fuel) (peek_loop fuel q r w).
Proof.
  induction fuel as [|fuel IH]; intros r w; simpl; destruct (r <? w); try done.
  replace (fuel + S (fuel + 0))%nat with (S (2 * fuel)) by lia. intros bytes. destruct (_ =? _); [|done]. apply IH.
Qed.

Lemma peek_within q : within 6 (iree_spsc_queue_peek q).
Proof. intros r w. apply (peek_loop_within 2). Qed.

Lemma read_within q room : within 10 (iree_spsc_queue_read q room).
Proof.
  apply (within_bind _ 4 _ 6); [apply peek_within|]. intros [o len| |]; [|done..].
  by apply (within_bind _ 3 _ 1).
Qed.

Lemma progress {A} (m : spsc_memory) (p : prog A) : (∃ a, p = Ret a) ∨ is_Some (exec m p).
Proof. destruct p; [left; by eexists|right; by eexists..]. Qed.

(** A call that can always go on and returns within a number of its own accesses. *)
Definition returns_within {A} (call : prog A) (bound : nat) : Prop :=
  ∀ n p, interfered n call p → (n <= bound)%nat ∧ ∀ m, (∃ a, p = Ret a) ∨ is_Some (exec m p).

Lemma within_returns {A} (call : prog A) bound : within bound call → returns_within call bound.
Proof. intros Hw n p Hi. split; [by eapply within_interfered|]. intros m. apply progress. Qed.


(** ** Concrete runs *)

(** The next access or the return of a running call. *)
Definition store_fits_bool {A} (p : prog A) : bool :=
  match p with StoreWrite v _ | StoreRead v _ => bool_decide (INT64_MIN <= v <= INT64_MAX) | _ => true end.

Definition advance_producer (s : spsc_system) : spsc_system :=
  match ss_producer s with
  | ProducerRunning _ (Ret st) =>
      mk_spsc_system (ss_memory s) st (ss_queue s) (ss_consumer s) (ss_sent s) (ss_received s)
  | ProducerRunning message p =>
      match exec (ss_memory s) p with
      | Some (m', p') =>
          if store_fits_bool p
          then mk_spsc_system m' (ProducerRunning message p') (ss_queue s) (ss_consumer s)
                 (ss_sent s ++ publishes message p) (ss_received s)
          else s
      | None => s
      end
  | _ => s
  end.

Definition advance_consumer (s : spsc_system) : spsc_system :=
  match ss_consumer s with
  | ConsumerRunning (Ret st) =>
      mk_spsc_system (ss_memory s) (ss_producer s) (ss_queue s) st (ss_sent s) (ss_received s)
  | ConsumerRunning p =>
      match exec (ss_memory s) p with
      | Some (m', p') =>
          if store_fits_bool p
          then mk_spsc_system m' (ss_producer s) (ss_queue s) (ConsumerRunning p') (ss_sent s) (ss_received s)
          else s
      | None => s
      end
  | ConsumerDelivered d =>
      mk_spsc_system (ss_memory s) (ss_producer s) (ss_queue s) ConsumerReady (ss_sent s) (ss_received s ++ [d])
  | _ => s
  end.

Lemma store_fits_true {A} (p : prog A) : store_fits_bool p = true → store_fits p.
Proof. destruct p; cbn; try done; apply bool_decide_eq_true. Qed.

Lemma advance_producer_reachable s : spsc_reachable s → spsc_reachable (advance_producer s).
Proof.
  intros H. unfold advance_producer. destruct (ss_producer s) as [| | |message p] eqn:E; try done.
  destruct (exec (ss_memory s) p) as [[m' p']|] eqn:Ex.
  - destruct (store_fits_bool p) eqn:Ef; [|by destruct p].
    pose proof (spsc_next _ _ H (or_introl (producer_access s message p m' p' E (store_fits_true p Ef) Ex))). by destruct p.
  - destruct p; try done. exact (spsc_next _ _ H (or_introl (producer_return s _ _ E))).
Qed.

Lemma advance_consumer_reachable s : spsc_reachable s → spsc_reachable (advance_consumer s).
Proof.
  intros H. unfold advance_consumer. destruct (ss_consumer s) as [| |d| | |p] eqn:E; try done.
  { exact (spsc_next _ _ H (or_intror (consumer_deliver s _ E))). }
  destruct (exec (ss_memory s) p) as [[m' p']|] eqn:Ex.
  - destruct (store_fits_bool p) eqn:Ef; [|by destruct p].
    pose proof (spsc_next _ _ H (or_intror (consumer_access s p m' p' E (store_fits_true p Ef) Ex))). by destruct p.
  - destruct p; try done. exact (spsc_next _ _ H (or_intror (consumer_return s _ E))).
Qed.

Definition start_write (data : list Z) (s : spsc_system) : spsc_system :=
  match ss_producer s with
  | ProducerReady q =>
      if 4 + Z.of_nat (length data) + (sq_entry_alignment q - 1) <? 2 ^ 64
      then mk_spsc_system (ss_memory s) (ProducerRunning (Some data) (call_write q (sm_read (ss_memory s)) data))
             (ss_queue s) (ss_consumer s) (ss_sent s) (ss_received s)
      else s
  | _ => s
  end.

Definition start_read (room : nat) (s : spsc_system) : spsc_system :=
  match ss_consumer s with
  | ConsumerReady =>
      mk_spsc_system (ss_memory s) (ss_producer s) (ss_queue s)
        (ConsumerRunning (call_read (ss_queue s) (length (ss_sent s)) (Z.of_nat room))) (ss_sent s) (ss_received s)
  | _ => s
  end.

Lemma start_write_reachable data s : spsc_reachable s → spsc_reachable (start_write data s).
Proof.
  intros H. unfold start_write. destruct (ss_producer s) as [q| | |] eqn:E; try done.
  destruct (Z.ltb_spec (4 + Z.of_nat (length data) + (sq_entry_alignment q - 1)) (2 ^ 64)); [|done].
  assert (length_ok q (Z.of_nat (length data))) as Hlen by (split; [lia|done]).
  exact (spsc_next _ _ H (or_introl (producer_call_write s q data E Hlen))).
Qed.

Lemma start_read_reachable room s : spsc_reachable s → spsc_reachable (start_read room s).
Proof.
  intros H. unfold start_read. destruct (ss_consumer s) eqn:E; try done.
  exact (spsc_next _ _ H (or_intror (consumer_call_read s (Z.of_nat room) E (Nat2Z.is_nonneg room)))).
Qed.

Lemma iter_reachable f n s :
  (∀ s, spsc_reachable s → spsc_reachable (f s)) → spsc_reachable s → spsc_reachable (Nat.iter n f s).
Proof. intros Hf Hs. induction n as [|n IH]; [done|]. by apply Hf. Qed.

(** A queue of 64 bytes in a region of 320. *)
Definition sample_region : spsc_memory := mk_spsc_memory (mk_spsc_header 0 0 0 0) 7 7 7 (λ _, 255).
Definition sample_queue : iree_spsc_queue_t := mk_spsc_queue 64 63 8 0 0 0 0.
Definition sample_start : spsc_system :=
  mk_spsc_system
    (mk_spsc_memory (mk_spsc_header IREE_SPSC_QUEUE_MAGIC IREE_SPSC_QUEUE_VERSION 64 8) 0 0 0
       (λ x, if (0 <=? x) && (x <? 64) then 0 else 255))
    (ProducerReady sample_queue) sample_queue ConsumerReady [] [].

Lemma sample_start_reachable : spsc_reachable sample_start.
Proof. by apply (spsc_start (Some sample_region) 320 64). Qed.

(** Both sides alternate for [n] steps. *)
Definition alternate (n : nat) (s : spsc_system) : spsc_system :=
  Nat.iter n (λ s, advance_producer (advance_consumer s)) s.

Lemma alternate_reachable n s : spsc_reachable s → spsc_reachable (alternate n s).
Proof. apply iter_reachable. intros s' H. by apply advance_producer_reachable, advance_consumer_reachable. Qed.

(** A message of 3 bytes is in the queue; another is written while the first is read. *)
Definition sample_both : spsc_system :=
  start_read 2 (start_write [1; 2; 3; 4] (alternate 6 (start_write [10; 20; 30] sample_start))).

Lemma sample_both_reachable : spsc_reachable sample_both.
Proof. by apply start_read_reachable, start_write_reachable, alternate_reachable, start_write_reachable, sample_start_reachable. Qed.

(** A full queue refuses a message, and an emptied one is empty. *)
Definition sample_full : spsc_system :=
  alternate 9 (start_write (replicate 30 1) (alternate 9 (start_write (replicate 30 1) sample_start))).
Definition sample_empty : spsc_system := alternate 9 (start_read 9 (alternate 9 (start_read 9 (alternate 9 sample_both)))).

Lemma sample_full_reachable : spsc_reachable sample_full.
Proof. by apply alternate_reachable, start_write_reachable, alternate_reachable, start_write_reachable, sample_start_reachable. Qed.

Lemma sample_empty_reachable : spsc_reachable sample_empty.
Proof.
  by apply alternate_reachable, start_read_reachable, alternate_reachable, start_read_reachable, alternate_reachable,
    sample_both_reachable.
Qed.

Lemma spsc_fifo_witness :
  let s := alternate 9 sample_both in
  (ss_sent s = [[10; 20; 30]; [1; 2; 3; 4]] ∧ ss_received s = [mk_delivery 2 3 [10; 20]]) ∧
  ∃ taken queued, ss_sent s = taken ++ queued ∧ Forall2 delivered_as (ss_received s) taken.
Proof.
  split; [by vm_compute|]. pose proof (alternate_reachable 9 _ sample_both_reachable) as Hs.
  destruct (spsc_fifo _ Hs) as (taken & queued & H1 & H2 & _). exists taken, queued. split; [exact H1|exact H2].
Defined.

Lemma spsc_race_free_witness :
  let s := alternate 3 sample_both in
  (producer_next s = Some (true, 8, 4) ∧ consumer_next s = Some (false, 4, 2)) ∧ (8 + 4 <= 4 ∨ 4 + 2 <= 8).
Proof.
  split; [by vm_compute|]. pose proof (alternate_reachable 3 _ sample_both_reachable) as Hs.
  destruct (spsc_race_free _ Hs) as (_ & _ & Hr). apply (Hr true 8 4 false 4 2); [by vm_compute|by vm_compute|lia|lia].
Defined.

Lemma spsc_refusals_justified_witness :
  (match ss_producer sample_full with ProducerRefused _ len floor => (len, floor) | _ => (0, 0) end = (30, 0) ∧
   sm_write (ss_memory sample_full) = 40 ∧ ss_consumer sample_empty = ConsumerEmpty 2) ∧
  (2 <= length (ss_received sample_empty))%nat ∧ ss_consumer sample_full ≠ ConsumerFuel.
Proof.
  split; [by vm_compute|]. destruct (spsc_refusals_justified _ sample_empty_reachable) as (_ & He & _).
  destruct (spsc_refusals_justified _ sample_full_reachable) as (_ & _ & Hf). split; [apply He; by vm_compute|exact Hf].
Defined.
