(* ===== verification/SpscRefine.v ===== *)
(** * The queue as a sequence of messages

    Calls of [SpscQueue] that run alone implement a bounded sequence of messages, and
    [initialize] and [open] set it up. *)

From S2P Require Import Prelude BaseMath SpscQueue SpscLayout SpscSafety SpscTheorems.
From stdpp Require Import base numbers list list_numbers.

Local Open Scope Z_scope.
Local Open Scope machine_scope.

(** The messages that a program publishes when it runs alone. *)
Fixpoint run_sent {A} (message : option (list Z)) (p : prog A) (m : spsc_memory) : list (list Z) :=
  match p with
  | Ret _ => []
  | LoadWrite k => run_sent message (k (sm_write m)) m
  | LoadRead k => run_sent message (k (sm_read m)) m
  | LoadCached k => run_sent message (k (sm_cached m)) m
  | StoreWrite v k => match message with Some msg => [msg] | None => [] end ++ run_sent message k (set_write v m)
  | StoreRead v k => run_sent message k (set_read v m)
  | StoreCached v k => run_sent message k (set_cached v m)
  | LoadData offset length k => run_sent message (k (slice (sm_data m) offset length)) m
  | StoreData offset bytes k => run_sent message k (set_data (patch (sm_data m) offset bytes) m)
  end.

Lemma run_sent_none {A} (p : prog A) : ∀ m, run_sent None p m = [].
Proof. induction p; intros m'; simpl; auto. Qed.

(** One access at a time. *)
Lemma run_exec {A} (p p' : prog A) m m' message :
  exec m p = Some (m', p') → run p m = run p' m' ∧ run_sent message p m = publishes message p ++ run_sent message p' m'.
Proof. by destruct p; intros; simplify_eq/=. Qed.

Lemma run_bind {A B} (f : A → prog B) (p : prog A) : ∀ m, run (p ≫= f) m = let '(a, m') := run p m in run (f a) m'.
Proof. induction p; intros m'; cbn [mbind prog_bind prog_bind_def run]; done || eauto. Qed.

(** The successor of an access, for induction on programs. *)
Lemma prog_exec_ind {A} (P : prog A → Prop) :
  (∀ a, P (Ret a)) → (∀ p, (∀ m m' p', exec m p = Some (m', p') → P p') → (∀ a, p ≠ Ret a) → P p) → ∀ p, P p.
Proof.
  intros HRet HStep p. induction p; [apply HRet|..]; apply HStep; try done; intros m m' p' E; by simplify_eq/=.
Qed.

Section sequential.
Context {cap al : Z} (G : geometry cap al).

Lemma producer_run {A} message (Q : A → producer_view → Prop) (p : prog A) : ∀ m items f,
  queue_ok cap al m items → sm_cached m <= f <= sm_read m → producer_safe cap al message Q p (view_of m f) →
  ∃ a m' new f', run p m = (a, m') ∧ queue_ok cap al m' (items ++ new) ∧ messages new = run_sent message p m ∧
    sm_read m' = sm_read m ∧ sm_cached m' <= f' <= sm_read m' ∧ Q a (view_of m' f').
Proof.
  induction p as [a|p IH Hret] using prog_exec_ind; intros m items f Hq Hf Hsafe.
  { exists a, m, [], f. rewrite app_nil_r. done. }
  destruct (progress m p) as [[a ->]|[[m' p'] E]]; [by destruct (Hret a)|].
  destruct (producer_safe_access G message Q p m items f m' p' Hq ltac:(lia) ltac:(lia) Hsafe E)
    as (new & f' & Hq' & Hnew & Hread & Hf' & Hc' & Hsafe').
  destruct (IH m m' p' E m' _ f' Hq' ltac:(lia) Hsafe') as (a & m'' & new' & f'' & Hrun & Hq'' & Hnew' & Hread' & Hf'' & HQ).
  destruct (run_exec p p' m m' message E) as [-> ->]. exists a, m'', (new ++ new'), f''.
  split; [done|]. rewrite app_assoc. split; [done|]. rewrite messages_app, Hnew, Hnew'. split; [done|]. split; [congruence|]. done.
Qed.

Lemma consumer_run {A} seen base (Q : A → consumer_view → Prop) (p : prog A) : ∀ m items vis popped,
  queue_ok cap al m items → vis `prefix_of` items → (seen <= base + length popped + length (messages items))%nat →
  consumer_safe cap al seen base Q p (mk_cview (sm_read m) vis popped) →
  ∃ a m' passed items' vis', run p m = (a, m') ∧ items = passed ++ items' ∧ queue_ok cap al m' items' ∧
    vis' `prefix_of` items' ∧ Q a (mk_cview (sm_read m') vis' (popped ++ messages passed)).
Proof.
  induction p as [a|p IH Hret] using prog_exec_ind; intros m items vis popped Hq Hvis Hseen Hsafe.
  { exists a, m, [], items, vis. rewrite app_nil_r. done. }
  destruct (progress m p) as [[a ->]|[[m' p'] E]]; [by destruct (Hret a)|].
  destruct (consumer_safe_access G seen base Q p m items popped vis m' p' Hq Hvis Hseen Hsafe E)
    as (passed & items' & vis' & -> & Hq' & Hvis' & _ & _ & _ & _ & Hsafe').
  rewrite messages_app, length_app in Hseen.
  destruct (IH m m' p' E m' items' vis' (popped ++ messages passed) Hq' Hvis' ltac:(rewrite length_app; lia) Hsafe')
    as (a & m'' & passed' & items'' & vis'' & Hrun & -> & Hq'' & Hvis'' & HQ).
  destruct (run_exec p p' m m' None E) as [-> _]. exists a, m'', (passed ++ passed'), items'', vis''.
  rewrite messages_app, <- app_assoc. rewrite <- app_assoc in HQ. done.
Qed.
End sequential.

(** ** The abstract queue *)

(** The memory holds the messages, oldest first. *)
Definition holds (cap al : Z) (m : spsc_memory) (msgs : list (list Z)) : Prop :=
  ∃ items, queue_ok cap al m items ∧ messages items = msgs.

Section calls.
Context {cap al : Z} (G : geometry cap al).

(** Nothing is appended while the write position stands. *)
Lemma nothing_new m m' items new :
  queue_ok cap al m items → queue_ok cap al m' (items ++ new) → sm_read m' = sm_read m → sm_write m' = sm_write m → new = [].
Proof.
  intros [_ _ Ha _ Hw _] [_ _ _ _ Hw' _] Hr Ew. rewrite Hr, after_app in Hw'. destruct (after_spec G items _ Ha) as [_ Ha'].
  destruct new as [|it new]; [done|]. pose proof (first_item_ahead G _ it new Ha'). lia.
Qed.

Lemma begin_write_run q len m items :
  handle_ok cap al q → length_ok q len → queue_ok cap al m items →
  ∃ m' result q', run (iree_spsc_queue_begin_write q len) m = ((result, q'), m') ∧ queue_ok cap al m' items ∧
    sm_write m' = sm_write m ∧ sm_read m' = sm_read m ∧ handle_ok cap al q' ∧
    match result with
    | Some offset => fits cap al (sm_write m) (sm_read m) len ∧ reservation cap al q' len offset (sm_write m') (sm_cached m')
    | None => ¬ fits cap al (sm_write m) (sm_read m) len
    end.
Proof.
  intros Hh Hlen Hq. pose proof (queue_pview _ _ _ _ G Hq) as Hv. pose proof (qo_cached _ _ _ _ Hq).
  pose (Q := λ (x : option Z * iree_spsc_queue_t) (v : producer_view), pv_write v = sm_write m ∧ handle_ok cap al x.2 ∧
    match x.1 with
    | Some offset => fits cap al (sm_write m) (pv_cached v) len ∧ reservation cap al x.2 len offset (pv_write v) (pv_cached v)
    | None => ¬ fits cap al (sm_write m) (sm_read m) len
    end).
  destruct (producer_run G None Q (iree_spsc_queue_begin_write q len) m items (sm_read m) Hq) as
    ([result q'] & m' & new & f' & Hrun & Hq' & Hnew & Hread & Hf' & (Ew & Hh' & HQ)); [lia| |].
  { apply (begin_write_safe G); [done..| |].
    - intros v' offset q' Hv' (Ew & _) Hfit Hres. split; [done|]. split; [by destruct Hres|]. cbn. by rewrite Ew.
    - intros v' Hv' (Ew & _) Hno. by split. }
  cbn in Ew. rewrite (nothing_new _ _ _ _ Hq Hq' Hread Ew), app_nil_r in Hq'. exists m', result, q'. repeat (split; [done|]).
  destruct result; [|done]. cbn in HQ. destruct HQ as [Hfit Hres]. split; [|done]. unfold fits in *. lia.
Qed.

(** The rest of [write] after a successful reservation. *)
Lemma publish_run q len offset data m items :
  queue_ok cap al m items → reservation cap al q len offset (sm_write m) (sm_cached m) → len = Z.of_nat (length data) →
  ∃ m' new, run (_ ← store_data offset data; iree_spsc_queue_commit_write q len) m = (tt, m') ∧
    queue_ok cap al m' (items ++ new) ∧ messages new = [data].
Proof.
  intros Hq Hres ->. pose proof (queue_pview _ _ _ _ G Hq) as Hv. pose proof (qo_cached _ _ _ _ Hq).
  set (v := view_of m (sm_read m)) in *. pose proof (reservation_pos G q _ offset v Hv Hres) as Hpos.
  destruct (producer_run G (Some data) (λ _ _, True) (_ ← store_data offset data; iree_spsc_queue_commit_write q (Z.of_nat (length data)))
    m items (sm_read m) Hq) as ([] & m' & new & f' & Hrun & Hq' & Hnew & _); [lia| |].
  { fold v. cbn [mbind prog_bind prog_bind_def store_data producer_safe v view_of]. split.
    - replace offset with (offset + 0) by lia. by eapply (reservation_in_free G q); [done|lia|lia|].
    - rewrite <- (slice_patch (sm_data m) offset data) at 1.
      by apply (commit_write_safe G q _ offset (mk_pview _ _ _ (patch (sm_data m) offset data))); [destruct Hv|..]. }
  exists m', new. split; [done|]. split; [done|]. rewrite Hnew. cbn. unfold iree_spsc_queue_commit_write. by destruct (0 <? _).
Qed.

Lemma write_run q data m msgs :
  handle_ok cap al q → length_ok q (Z.of_nat (length data)) → holds cap al m msgs →
  ∃ ok q' m', run (iree_spsc_queue_write q data) m = ((ok, q'), m') ∧ handle_ok cap al q' ∧
    (ok = true ↔ fits cap al (sm_write m) (sm_read m) (Z.of_nat (length data))) ∧
    holds cap al m' (if ok : bool then msgs ++ [data] else msgs).
Proof.
  intros Hh Hlen (items & Hq & <-). unfold iree_spsc_queue_write.
  destruct (begin_write_run q _ m items Hh Hlen Hq) as (m1 & result & q' & Hrun & Hq1 & Ew & Er & Hh' & Hres).
  rewrite run_bind, Hrun. destruct result as [offset|].
  - destruct Hres as [Hfit Hres]. destruct (publish_run q' _ offset data m1 items Hq1 Hres eq_refl) as (m' & new & Hrun' & Hq' & Hnew).
    exists true, q', m'. rewrite run_bind in Hrun'. rewrite run_bind. destruct (run (store_data offset data) m1) as [u m2].
    rewrite run_bind, Hrun'. split; [done|]. split; [done|]. split; [done|].
    exists (items ++ new). by rewrite messages_app, Hnew.
  - exists false, q', m1. split; [done|]. split; [done|]. split; [by split|]. by exists items.
Qed.

Lemma read_run q room m msgs :
  handle_ok cap al q → 0 <= room → holds cap al m msgs →
  ∃ m', match msgs with
        | [] => run (iree_spsc_queue_read q room) m = (ReadEmpty, m') ∧ holds cap al m' []
        | msg :: msgs =>
            run (iree_spsc_queue_read q room) m = (ReadEntry (Z.of_nat (length msg)) (take (Z.to_nat room) msg), m') ∧
            holds cap al m' msgs
        end.
Proof.
  intros Hh Hroom (items & Hq & <-). set (n := length (messages items)).
  assert (cview_ok cap al (mk_cview (sm_read m) items [])) as Hv.
  { destruct Hq. split; cbn; done || lia. }
  destruct (consumer_run G n 0 (consumer_post cap al 0) (call_read q n room) m items items [] Hq) as
    (st & m' & passed & items' & vis' & Hrun & Hitems & Hq' & _ & Hpost); [done|cbn; lia|by apply (call_read_safe G)|].
  unfold call_read in Hrun. rewrite run_bind in Hrun. destruct (run (iree_spsc_queue_read q room) m) as [result m1].
  cbn in Hrun. injection Hrun as <- <-. exists m1. destruct Hpost as [_ Hpost].
  assert (messages items = messages passed ++ messages items') as Hm by (rewrite Hitems; apply messages_app).
  destruct result as [len bytes| |]; cbn in Hpost; [| |done].
  - destruct Hpost as (msg & Hpop & Hd). destruct Hd as [Hlen Hbytes]. cbn in Hlen, Hbytes. subst len bytes. rewrite Hm, Hpop. cbn. split; [done|]. by exists items'.
  - destruct Hpost as [Hpop Hn]. assert (messages items = []) as E by (apply nil_length_inv; lia). rewrite E. split; [done|].
    exists items'. split; [done|]. rewrite Hm, Hpop in E. done.
Qed.
End calls.

(** ** Refinement *)

(** A bounded sequence of messages: a write appends when it is accepted, a read takes the
    oldest message, cut to the size of the buffer. *)
Definition abstract_write (accept : bool) (data : list Z) (msgs : list (list Z)) : bool * list (list Z) :=
  if accept then (true, msgs ++ [data]) else (false, msgs).

Definition abstract_read (room : Z) (msgs : list (list Z)) : read_result * list (list Z) :=
  match msgs with
  | [] => (ReadEmpty, [])
  | msg :: msgs => (ReadEntry (Z.of_nat (length msg)) (take (Z.to_nat room) msg), msgs)
  end.

Lemma holds_positions cap al m msgs :
  geometry cap al → holds cap al m msgs →
  sm_read m <= sm_write m <= sm_read m + cap ∧ (sm_read m < sm_write m ↔ msgs ≠ []).
Proof.
  intros G (items & [? ? Ha _ Hw Hp] & <-). destruct (after_spec G items _ Ha) as [? _]. split; [lia|].
  destruct items as [|it items]; [cbn in *; split; [lia|done]|]. pose proof (first_item_ahead G _ it items Ha).
  split; [|lia]. intros _. destruct it as [|x]; [|done]. by destruct items as [|[|y] items].
Qed.

Lemma fits_empty_half cap al w len :
  geometry cap al → (al | w) → 0 <= len → 2 * entry_bytes al len <= cap → fits cap al w w len.
Proof.
  intros G Ha Hl Hhalf. destruct (tail_aligned G w Ha). destruct (entry_bytes_spec G len).
  unfold fits, needed. destruct (Z.leb_spec (entry_bytes al len) (cap - w mod cap)); lia.
Qed.

(** Calls that run alone implement a bounded sequence of messages.  [write] appends the data exactly when its entry (the
    length prefix, the payload and the padding to the alignment), together with the tail of the region when the entry does
    not fit before the end, is within the free bytes, and leaves the sequence alone otherwise; [read] takes the oldest message
    or reports an empty queue; the queries report the two positions.  An empty queue accepts every entry of at most half the
    capacity. *)
Theorem spsc_calls_refine cap al q m msgs :
  geometry cap al → handle_ok cap al q → holds cap al m msgs →
  let used := sm_write m - sm_read m in
  (∀ data, length_ok q (Z.of_nat (length data)) →
     ∃ accept, (accept = true ↔ used + needed cap al (sm_write m) (Z.of_nat (length data)) <= cap) ∧
       (msgs = [] → 2 * entry_bytes al (Z.of_nat (length data)) <= cap → accept = true) ∧
       let '((ok, q'), m') := run (iree_spsc_queue_write q data) m in
       handle_ok cap al q' ∧ ok = (abstract_write accept data msgs).1 ∧ holds cap al m' (abstract_write accept data msgs).2) ∧
  (∀ room, 0 <= room →
     let '(result, m') := run (iree_spsc_queue_read q room) m in
     result = (abstract_read room msgs).1 ∧ holds cap al m' (abstract_read room msgs).2) ∧
  run iree_spsc_queue_can_read m = (bool_decide (msgs ≠ []), m) ∧
  run iree_spsc_queue_read_available m = (used, m) ∧
  run (iree_spsc_queue_write_available q) m = (cap - used, m).
Proof.
  intros G Hh Hm used. destruct (holds_positions cap al m msgs G Hm) as [Hpos Hmore]. pose proof (geo_bounds G) as [HB HB'].
  change (2 ^ 31) with 2147483648 in HB'.
  assert (∀ x, 0 <= x <= cap → wrap 64 x = x) as Hwrap.
  { intros x Hx. apply wrap_small. unfold in_width. change (2 ^ 64) with 18446744073709551616. lia. }
  split; [|split; [|split; [|split]]].
  - intros data Hlen. destruct (write_run G q data m msgs Hh Hlen Hm) as (ok & q' & m' & -> & Hh' & Hok & Hm').
    exists ok. split; [by rewrite Hok|]. split.
    + intros -> Hhalf. apply Hok. assert (sm_read m = sm_write m) as -> by (destruct Hmore; destruct (decide (sm_read m < sm_write m)); [tauto|lia]).
      destruct Hm as (items & [_ _ Ha _ Hw _] & _). destruct (after_spec G items _ Ha) as [_ Ha'].
      apply fits_empty_half; [done|by rewrite Hw|lia|done].
    + split; [done|]. by destruct ok.
  - intros room Hroom. destruct (read_run G q room m msgs Hh Hroom Hm) as (m' & Hread).
    destruct msgs as [|msg msgs]; destruct Hread as [-> ?]; done.
  - cbn. f_equal. apply eq_true_iff_eq. rewrite Z.ltb_lt, bool_decide_eq_true. done.
  - cbn. by rewrite Hwrap by lia.
  - cbn. rewrite (handle_capacity _ _ _ Hh). by rewrite Hwrap by lia.
Qed.

(** ** Setup *)

(** [initialize] succeeds exactly for memory that holds the header and a capacity that is a power of two of at least 64
    bytes, and leaves an empty queue whose handle [open] returns as well.  [open] accepts a region exactly when the header has
    the magic number and the version, a valid capacity and entry alignment, and fits the region.  Every other case is
    [INVALID_ARGUMENT]. *)
Theorem spsc_setup_exact memory memory_size capacity :
  in_width 32 capacity →
  match iree_spsc_queue_initialize memory memory_size capacity with
  | Ok (m, q) =>
      memory ≠ None ∧ 64 <= capacity ∧ is_pow2 capacity ∧ 256 + capacity <= memory_size ∧
      geometry capacity 8 ∧ handle_ok capacity 8 q ∧ holds capacity 8 m [] ∧
      iree_spsc_queue_open (Some m) memory_size = Ok q
  | Err code =>
      code = IREE_STATUS_INVALID_ARGUMENT ∧
      (memory = None ∨ capacity < 64 ∨ ¬ is_pow2 capacity ∨ memory_size < 256 + capacity)
  end ∧
  (∀ m, memory = Some m → in_width 32 (sh_capacity (sm_header m)) → in_width 32 (sh_entry_alignment (sm_header m)) →
     match iree_spsc_queue_open memory memory_size with
     | Ok q => header_valid (sm_header m) memory_size ∧ q = iree_spsc_queue_bind m
     | Err code => code = IREE_STATUS_INVALID_ARGUMENT ∧ ¬ header_valid (sm_header m) memory_size
     end).
Proof.
  intros Hc.
  assert (∀ m, in_width 32 (sh_capacity (sm_header m)) → in_width 32 (sh_entry_alignment (sm_header m)) →
     match iree_spsc_queue_open (Some m) memory_size with
     | Ok q => header_valid (sm_header m) memory_size ∧ q = iree_spsc_queue_bind m
     | Err code => code = IREE_STATUS_INVALID_ARGUMENT ∧ ¬ header_valid (sm_header m) memory_size
     end) as Hopen.
  { intros m H1 H2. unfold iree_spsc_queue_open. destruct (Z.ltb_spec memory_size IREE_SPSC_QUEUE_HEADER_SIZE) as [Hs|Hs].
    { split; [done|]. intros [_ _ _ _ ?]. destruct H1. lia. }
    pose proof (validate_header_spec (sm_header m) memory_size H1 H2) as Hv.
    destruct (iree_spsc_queue_validate_header _ _); done. }
  split; [|intros m -> H1 H2; by apply Hopen].
  pose proof (initialize_spec memory memory_size capacity Hc) as Hinit.
  destruct (iree_spsc_queue_initialize memory memory_size capacity) as [[m q]|code]; [|done].
  destruct Hinit as (m0 & -> & Hmin & Hpow & Hsize & (Hh & Hw & Hr & Hca & _) & ->).
  pose proof (initial_geometry capacity Hc Hmin Hpow) as G. unfold IREE_SPSC_QUEUE_MIN_CAPACITY, IREE_SPSC_QUEUE_HEADER_SIZE in *.
  pose proof (bind_handle_ok m) as Hb. specialize (Hopen m). rewrite Hh in Hb, Hopen. cbn [sh_capacity sh_entry_alignment] in Hb, Hopen.
  repeat (split; [done || (destruct Hc; apply Hb; lia)|]). split.
  - exists []. split; [|done]. split; rewrite ?Hw, ?Hr, ?Hca; try apply Z.divide_0_r; done || lia.
  - specialize (Hopen Hc ltac:(done)). destruct (iree_spsc_queue_open (Some m) memory_size); [by destruct Hopen as [_ ->]|].
    destruct Hopen as [_ Hno]. exfalso. apply Hno. split; cbn; try done. split; [done|by exists 3].
Qed.

(** ** Witnesses *)

(** The sample queue with one message. *)
Definition sample_one : spsc_memory := ss_memory (alternate 9 (start_write [10; 20; 30] sample_start)).

Lemma sample_geometry : geometry 64 8.
Proof. apply initial_geometry; [done|done|by exists 6]. Qed.

Lemma sample_one_holds : holds 64 8 sample_one [[10; 20; 30]].
Proof.
  exists [Message [10; 20; 30]]. split; [|done].
  constructor; [by vm_compute|by vm_compute|exists 0; by vm_compute|by vm_compute|by vm_compute|done].
Qed.

Lemma spsc_calls_refine_witness :
  (geometry 64 8 ∧ holds 64 8 sample_one [[10; 20; 30]]) ∧
  run iree_spsc_queue_read_available sample_one = (8, sample_one) ∧
  (run (iree_spsc_queue_read sample_queue 2) sample_one).1 = ReadEntry 3 [10; 20].
Proof.
  pose proof sample_geometry as G. pose proof sample_one_holds as Hm. split; [by split|].
  assert (handle_ok 64 8 sample_queue) as Hq by done.
  destruct (spsc_calls_refine 64 8 sample_queue sample_one _ G Hq Hm) as (_ & Hr & _ & Ha & _). split.
  - rewrite Ha. f_equal.
  - specialize (Hr 2 ltac:(done)). destruct (run (iree_spsc_queue_read sample_queue 2) sample_one) as [r m]. by destruct Hr as [-> _].
Defined.

Lemma spsc_setup_exact_witness :
  iree_spsc_queue_open (Some (ss_memory sample_start)) 320 = Ok sample_queue ∧ in_width 32 64.
Proof.
  assert (in_width 32 64) as H by done. split; [|done].
  by destruct (spsc_setup_exact (Some sample_region) 320 64 H) as [(_ & _ & _ & _ & _ & _ & _ & E) _].
Defined.

(** ** Limits *)

(** The guarantee for an empty queue does not extend to entries of more than half the
    capacity: with both positions at 8, an entry of the whole capacity needs the tail of 56
    bytes as well. *)
Example empty_queue_refuses_large :
  let m := mk_spsc_memory (mk_spsc_header IREE_SPSC_QUEUE_MAGIC IREE_SPSC_QUEUE_VERSION 64 8) 8 8 8 (λ _, 0) in
  holds 64 8 m [] ∧ (run (iree_spsc_queue_write sample_queue (replicate 60 1)) m).1.1 = false.
Proof. split; [|by vm_compute]. exists []. split; [|done]. split; cbn; done || lia || by exists 1. Qed.

(** A length whose entry size wraps around is given a payload pointer. *)
Example wrapped_length_accepted :
  (run (iree_spsc_queue_begin_write sample_queue (2 ^ 64 - 4)) (ss_memory sample_start)).1.1 = Some 4.
Proof. by vm_compute. Qed.
