(* ===== verification/Allocator.v ===== *)
(** * Host allocation

    [iree/base/allocator.c]: the overflow-checked allocation helpers, allocations with an
    alignment and the inline arena.  Addresses are machine words and memory is a map from
    addresses to bytes.  The control routine of an [iree_allocator_t] is a parameter: a
    function from the command, the requested size and the present pointer to its answer. *)

From S2P Require Import Prelude BaseMath.
From stdpp Require Import base numbers list.

Local Open Scope Z_scope.
Local Open Scope machine_scope.

(** ** The allocator interface *)

Inductive iree_allocator_command_t :=
  | IREE_ALLOCATOR_COMMAND_MALLOC
  | IREE_ALLOCATOR_COMMAND_CALLOC
  | IREE_ALLOCATOR_COMMAND_REALLOC
  | IREE_ALLOCATOR_COMMAND_FREE
  | IREE_ALLOCATOR_COMMAND_TRIM.

(** [None] is an allocator without a control routine. *)
Definition iree_allocator_t : Type :=
  option (iree_allocator_command_t → Z → Z → status_or Z).

Definition iree_allocator_issue_alloc (allocator : iree_allocator_t)
    (command : iree_allocator_command_t) (byte_length ptr : Z) : status_or Z :=
  match allocator with
  | None => Err IREE_STATUS_INVALID_ARGUMENT
  | Some ctl => ctl command byte_length ptr
  end.

Definition iree_allocator_malloc (allocator : iree_allocator_t) (byte_length : Z) : status_or Z :=
  iree_allocator_issue_alloc allocator IREE_ALLOCATOR_COMMAND_CALLOC byte_length 0.

Definition iree_allocator_malloc_uninitialized (allocator : iree_allocator_t) (byte_length : Z) : status_or Z :=
  iree_allocator_issue_alloc allocator IREE_ALLOCATOR_COMMAND_MALLOC byte_length 0.

Definition iree_allocator_realloc (allocator : iree_allocator_t) (byte_length ptr : Z) : status_or Z :=
  iree_allocator_issue_alloc allocator IREE_ALLOCATOR_COMMAND_REALLOC byte_length ptr.

(** *** Arrays *)

Definition iree_allocator_malloc_array (allocator : iree_allocator_t)
    (count element_size : Z) : status_or Z :=
  match iree_host_size_checked_mul count element_size with
  | None => Err IREE_STATUS_OUT_OF_RANGE
  | Some byte_length => iree_allocator_malloc allocator byte_length
  end.

Definition iree_allocator_malloc_array_uninitialized (allocator : iree_allocator_t)
    (count element_size : Z) : status_or Z :=
  match iree_host_size_checked_mul count element_size with
  | None => Err IREE_STATUS_OUT_OF_RANGE
  | Some byte_length => iree_allocator_malloc_uninitialized allocator byte_length
  end.

Definition iree_allocator_realloc_array (allocator : iree_allocator_t)
    (count element_size ptr : Z) : status_or Z :=
  match iree_host_size_checked_mul count element_size with
  | None => Err IREE_STATUS_OUT_OF_RANGE
  | Some byte_length => iree_allocator_realloc allocator byte_length ptr
  end.

Definition iree_max_align_t : Z := 16.

Definition iree_allocator_malloc_with_trailing (allocator : iree_allocator_t)
    (struct_size trailing_size : Z) : status_or Z :=
  match iree_host_size_checked_align struct_size iree_max_align_t with
  | None => Err IREE_STATUS_OUT_OF_RANGE
  | Some aligned_struct_size =>
      match iree_host_size_checked_add aligned_struct_size trailing_size with
      | None => Err IREE_STATUS_OUT_OF_RANGE
      | Some total_size => iree_allocator_malloc allocator total_size
      end
  end.

Definition iree_allocator_malloc_struct_array (allocator : iree_allocator_t)
    (struct_size count element_size : Z) : status_or Z :=
  match iree_host_size_checked_align struct_size iree_max_align_t with
  | None => Err IREE_STATUS_OUT_OF_RANGE
  | Some aligned_struct_size =>
      match iree_host_size_checked_mul_add aligned_struct_size count element_size with
      | None => Err IREE_STATUS_OUT_OF_RANGE
      | Some total_size => iree_allocator_malloc allocator total_size
      end
  end.

(** The new capacity and pointer. *)
Definition iree_allocator_grow_array (allocator : iree_allocator_t)
    (minimum_capacity element_size capacity ptr : Z) : status_or (Z * Z) :=
  match iree_host_size_checked_mul capacity 2 with
  | None => Err IREE_STATUS_OUT_OF_RANGE
  | Some doubled_capacity =>
      let new_capacity := iree_max minimum_capacity doubled_capacity in
      new_ptr ← iree_allocator_realloc_array allocator new_capacity element_size ptr;
      Ok (new_capacity, new_ptr)
  end.

(** ** Memory *)

Definition memory : Type := Z → Z.

(** A pointer-sized word stored at an address, least significant byte first. *)
Definition store_word (address value : Z) (m : memory) : memory := λ x,
  if (address <=? x) && (x <? address + 8) then Z.land (Z.shiftr value (8 * (x - address))) 255 else m x.

Definition load_word (address : Z) (m : memory) : Z :=
  foldr (λ k acc, m (address + k) + 256 * acc) 0 (seqZ 0 8).

(** [memmove] *)
Definition memmove (target source length : Z) (m : memory) : memory := λ x,
  if (target <=? x) && (x <? target + length) then m (x - target + source) else m x.

(** ** Aligned allocations *)

Definition iree_aligned_ptr (unaligned_ptr alignment offset : Z) : Z :=
  Z.land (unaligned_ptr +64 (alignment +64 8) +64 offset) (unot 64 (alignment -64 1)) -64 offset.

(** The slot below the aligned pointer that holds the base pointer. *)
Definition base_slot (aligned_ptr : Z) : Z := Z.land aligned_ptr (unot 64 (8 - 1)) -64 8.

Definition iree_aligned_ptr_get_base (aligned_ptr : Z) (m : memory) : Z := load_word (base_slot aligned_ptr) m.

Definition iree_aligned_ptr_set_base (aligned_ptr base_ptr : Z) (m : memory) : memory :=
  store_word (base_slot aligned_ptr) base_ptr m.

(** [sizeof(uintptr_t) + byte_length + alignment], checked. *)
Definition aligned_total (byte_length alignment : Z) : option Z :=
  total_length ← iree_host_size_checked_add 8 byte_length;
  iree_host_size_checked_add total_length alignment.

(** [m] is the memory after the host allocation, which zeroes the new block. *)
Definition iree_allocator_malloc_aligned (allocator : iree_allocator_t)
    (byte_length min_alignment offset : Z) (m : memory) : status_or (Z * memory) :=
  if byte_length =? 0 then Err IREE_STATUS_INVALID_ARGUMENT
  else if negb (iree_host_size_is_valid_alignment min_alignment) then Err IREE_STATUS_INVALID_ARGUMENT
  else
    let alignment := iree_max min_alignment iree_max_align_t in
    match aligned_total byte_length alignment with
    | None => Err IREE_STATUS_OUT_OF_RANGE
    | Some total_length =>
        unaligned_ptr ← iree_allocator_malloc allocator total_length;
        let aligned_ptr := iree_aligned_ptr unaligned_ptr alignment offset in
        Ok (aligned_ptr, iree_aligned_ptr_set_base aligned_ptr unaligned_ptr m)
    end.

(** [m] is the memory before and [m'] the memory after the host reallocation. *)
Definition iree_allocator_realloc_aligned (allocator : iree_allocator_t)
    (byte_length min_alignment offset ptr : Z) (m m' : memory) : status_or (Z * memory) :=
  if ptr =? 0 then iree_allocator_malloc_aligned allocator byte_length min_alignment offset m'
  else if byte_length =? 0 then Err IREE_STATUS_INVALID_ARGUMENT
  else if negb (iree_host_size_is_valid_alignment min_alignment) then Err IREE_STATUS_INVALID_ARGUMENT
  else
    let alignment := iree_max min_alignment iree_max_align_t in
    let unaligned_ptr := iree_aligned_ptr_get_base ptr m in
    if negb (ptr =? iree_aligned_ptr unaligned_ptr alignment offset) then Err IREE_STATUS_INVALID_ARGUMENT
    else
      let old_offset := ptr -64 unaligned_ptr in
      match aligned_total byte_length alignment with
      | None => Err IREE_STATUS_OUT_OF_RANGE
      | Some total_length =>
          unaligned_ptr ← iree_allocator_realloc allocator total_length unaligned_ptr;
          let aligned_ptr := iree_aligned_ptr unaligned_ptr alignment offset in
          let old_data := unaligned_ptr +64 old_offset in
          let m' := if old_data =? aligned_ptr then m' else memmove aligned_ptr old_data byte_length m' in
          Ok (aligned_ptr, iree_aligned_ptr_set_base aligned_ptr unaligned_ptr m')
      end.

(** ** The inline arena *)

Record iree_allocator_inline_storage_t := mk_storage {
  storage_capacity : Z;
  storage_length : Z;
  storage_head_size : Z;
  storage_buffer : Z;
}.

Definition set_used (length head_size : Z) (s : iree_allocator_inline_storage_t) : iree_allocator_inline_storage_t :=
  mk_storage (storage_capacity s) length head_size (storage_buffer s).

(** The answer and the storage afterwards. *)
Definition iree_allocator_inline_arena_alloc (s : iree_allocator_inline_storage_t)
    (command : iree_allocator_command_t) (byte_length existing_ptr : Z)
    : status_or Z * iree_allocator_inline_storage_t :=
  if byte_length =? 0 then (Err IREE_STATUS_INVALID_ARGUMENT, s)
  else
    let is_realloc := match command with IREE_ALLOCATOR_COMMAND_REALLOC => negb (existing_ptr =? 0) | _ => false end in
    let whole := (existing_ptr =? storage_buffer s) && (storage_head_size s =? storage_length s) in
    if is_realloc && negb whole then (Err IREE_STATUS_INTERNAL, s)
    else
      let s := if is_realloc then set_used 0 0 s else s in
      match iree_host_size_checked_align (storage_length s) iree_max_align_t with
      | None => (Err IREE_STATUS_OUT_OF_RANGE, s)
      | Some begin =>
          match iree_host_size_checked_add begin byte_length with
          | None => (Err IREE_STATUS_OUT_OF_RANGE, s)
          | Some end_ =>
              if storage_capacity s <? end_ then (Err IREE_STATUS_RESOURCE_EXHAUSTED, s)
              else
                (Ok (storage_buffer s +64 begin),
                 set_used end_ (if begin =? 0 then byte_length else storage_head_size s) s)
          end
      end.

Definition iree_allocator_inline_arena_free (s : iree_allocator_inline_storage_t) (ptr : Z)
    : iree_allocator_inline_storage_t :=
  if (ptr =? storage_buffer s) && (storage_head_size s =? storage_length s) then set_used 0 0 s else s.

Definition iree_allocator_inline_arena_ctl (s : iree_allocator_inline_storage_t)
    (command : iree_allocator_command_t) (byte_length ptr : Z)
    : status_or Z * iree_allocator_inline_storage_t :=
  match command with
  | IREE_ALLOCATOR_COMMAND_MALLOC | IREE_ALLOCATOR_COMMAND_CALLOC | IREE_ALLOCATOR_COMMAND_REALLOC =>
      iree_allocator_inline_arena_alloc s command byte_length ptr
  | IREE_ALLOCATOR_COMMAND_FREE => (Ok ptr, iree_allocator_inline_arena_free s ptr)
  | IREE_ALLOCATOR_COMMAND_TRIM => (Ok ptr, s)
  end.

(** ** Aligned pointers *)

Lemma aligned_ptr_spec p k offset :
  4 <= k < 64 → 0 <= p → 0 <= offset → p + 2 ^ k + 8 + offset < 2 ^ 64 →
  let q := iree_aligned_ptr p (2 ^ k) offset in
  p + 8 < q <= p + 2 ^ k + 8 ∧ (2 ^ k | q + offset).
Proof.
  intros Hk Hp Ho Hlt. pose proof (pow2_pos k ltac:(lia)) as Hpos. cbv zeta. unfold iree_aligned_ptr.
  rewrite align_mask by lia. rewrite (uadd_small 64 (2 ^ k) 8), (uadd_small 64 p), (uadd_small 64 (p + _)) by lia.
  set (x := p + (2 ^ k + 8) + offset). pose proof (Z.mod_pos_bound x (2 ^ k) Hpos).
  rewrite (land_low_mask 64 k) by (unfold in_width; lia).
  rewrite usub_small by (unfold in_width; lia). split; [lia|].
  exists (x / 2 ^ k). pose proof (Z.div_mod x (2 ^ k)). lia.
Qed.

Lemma base_slot_spec p q :
  (8 | p) → 0 <= p → p + 8 < q < 2 ^ 64 → p <= base_slot q ∧ base_slot q + 8 <= q.
Proof.
  intros [n ->] Hp Hq. unfold base_slot. change (8 - 1) with (2 ^ 3 - 1).
  rewrite (land_low_mask 64 3) by (unfold in_width; lia). change (2 ^ 3) with 8.
  pose proof (Z.mod_pos_bound q 8 ltac:(lia)). pose proof (Z.div_mod q 8 ltac:(lia)).
  rewrite usub_small by (unfold in_width; lia). lia.
Qed.

Lemma byte_eq v k : 0 <= k → Z.land (Z.shiftr v (8 * k)) 255 = (v / 256 ^ k) mod 256.
Proof.
  intros Hk. change 255 with (2 ^ 8 - 1). rewrite land_ones_mod, Z.shiftr_div_pow2 by lia.
  by rewrite Z.pow_mul_r by lia.
Qed.

Lemma load_store a v m : in_width 64 v → load_word a (store_word a v m) = v.
Proof.
  intros [Hv0 Hv]. unfold load_word. change (seqZ 0 8) with [0; 1; 2; 3; 4; 5; 6; 7]. cbn [foldr].
  assert (∀ k, 0 <= k < 8 → store_word a v m (a + k) = (v / 256 ^ k) mod 256) as E.
  { intros k Hk. unfold store_word. rewrite (proj2 (Z.leb_le _ _)), (proj2 (Z.ltb_lt _ _)) by lia. simpl.
    rewrite <- byte_eq by lia. do 2 f_equal. lia. }
  rewrite !E by lia.
  assert (∀ k k', 0 <= k → k' = k + 1 → v / 256 ^ k = (v / 256 ^ k) mod 256 + 256 * (v / 256 ^ k')) as Hd.
  { intros k k' Hk ->. rewrite Z.pow_add_r, Z.pow_1_r by lia.
    rewrite <- Z.div_div by (try apply Z.pow_nonzero; lia). pose proof (Z.div_mod (v / 256 ^ k) 256). lia. }
  pose proof (Hd 0 1 ltac:(lia) eq_refl). pose proof (Hd 1 2 ltac:(lia) eq_refl). pose proof (Hd 2 3 ltac:(lia) eq_refl).
  pose proof (Hd 3 4 ltac:(lia) eq_refl). pose proof (Hd 4 5 ltac:(lia) eq_refl). pose proof (Hd 5 6 ltac:(lia) eq_refl).
  pose proof (Hd 6 7 ltac:(lia) eq_refl). pose proof (Hd 7 8 ltac:(lia) eq_refl).
  assert (v / 256 ^ 8 = 0) by (apply Z.div_small; split; [done|]; by change (256 ^ 8) with (2 ^ 64)).
  assert (v / 256 ^ 0 = v) by (by rewrite Z.pow_0_r, Z.div_1_r). clear Hd E. lia.
Qed.

Lemma store_other a v m x : x < a ∨ a + 8 <= x → store_word a v m x = m x.
Proof.
  intros Hx. unfold store_word. destruct (Z.leb_spec a x); simpl; [|done]. by destruct (Z.ltb_spec x (a + 8)); [lia|].
Qed.

(** Documented answers: a block inside the address space at the system alignment. *)
Definition host_ok (allocator : iree_allocator_t) : Prop :=
  ∀ ctl command n p q, allocator = Some ctl → ctl command n p = Ok q →
    0 < q ∧ (iree_max_align_t | q) ∧ q + n < 2 ^ 64.

(** A request at its machine widths with a valid alignment. *)
Record aligned_request_ok (byte_length min_alignment offset : Z) : Prop := {
  ar_length : 0 < byte_length < 2 ^ 64;
  ar_alignment : in_width 64 min_alignment ∧ (min_alignment = 0 ∨ is_pow2 min_alignment);
  ar_offset : 0 <= offset <= byte_length;
}.

Definition aligned_size (byte_length min_alignment : Z) : Z :=
  8 + byte_length + Z.max min_alignment iree_max_align_t.

(** The requested bytes at [ptr] and the base pointer below them, in the host's block. *)
Record placed (byte_length min_alignment offset base ptr : Z) (m : memory) : Prop := {
  pl_aligned : (Z.max min_alignment iree_max_align_t | ptr + offset);
  pl_block : 0 < base ∧ (iree_max_align_t | base) ∧ base + aligned_size byte_length min_alignment < 2 ^ 64;
  pl_ptr : ptr = iree_aligned_ptr base (Z.max min_alignment iree_max_align_t) offset;
  pl_inside : base + 8 < ptr ∧ ptr + byte_length <= base + aligned_size byte_length min_alignment;
  pl_slot : base <= base_slot ptr ∧ base_slot ptr + 8 <= ptr;
  pl_base : iree_aligned_ptr_get_base ptr m = base;
}.

Lemma effective_alignment_pow2 n a o :
  aligned_request_ok n a o → ∃ k, 4 <= k < 64 ∧ Z.max a iree_max_align_t = 2 ^ k ∧ iree_max a iree_max_align_t = 2 ^ k.
Proof.
  intros [_ [Ha Hv] _]. assert (iree_max a iree_max_align_t = Z.max a iree_max_align_t) as ->.
  { unfold iree_max, iree_max_align_t. destruct (Z.leb_spec a 16); lia. }
  unfold iree_max_align_t. destruct (Z.le_gt_cases a 16) as [Hle|Hgt].
  - exists 4. rewrite Z.max_r by lia. split; [lia|done].
  - destruct Hv as [->|(k & Hk & ->)]; [lia|]. exists k. rewrite Z.max_l by lia. split; [|done]. unfold in_width in Ha.
    split; [apply (Z.pow_le_mono_r_iff 2); lia|apply (Z.pow_lt_mono_r_iff 2); lia].
Qed.

Lemma valid_alignment_iff a : in_width 64 a → iree_host_size_is_valid_alignment a = true ↔ a = 0 ∨ is_pow2 a.
Proof.
  intros Ha. unfold iree_host_size_is_valid_alignment. by rewrite orb_true_iff, Z.eqb_eq, is_power_of_two_iff.
Qed.

Lemma aligned_total_eq n a o :
  aligned_request_ok n a o →
  aligned_total n (iree_max a iree_max_align_t) =
    if decide (aligned_size n a < 2 ^ 64) then Some (aligned_size n a) else None.
Proof.
  intros Hr. destruct (effective_alignment_pow2 n a o Hr) as (k & Hk & E1 & ->). destruct Hr as [Hn _ _].
  unfold aligned_total, aligned_size. rewrite E1. pose proof (pow64_lt k ltac:(lia)) as [? ?].
  rewrite checked_add_u64_eq by (unfold in_width; lia). unfold checked, umax.
  case_decide as H1; cbn [mbind option_bind]; [|case_decide; [lia|done]].
  rewrite checked_add_u64_eq by (unfold in_width; lia). unfold checked, umax. by do 2 case_decide; lia || done.
Qed.

(** Setting the base of a fresh block. *)
Lemma placed_intro n a o base m :
  aligned_request_ok n a o → 0 < base → (iree_max_align_t | base) → base + aligned_size n a < 2 ^ 64 →
  let ptr := iree_aligned_ptr base (Z.max a iree_max_align_t) o in
  placed n a o base ptr (iree_aligned_ptr_set_base ptr base m) ∧
  ∀ x, x < base ∨ ptr <= x → iree_aligned_ptr_set_base ptr base m x = m x.
Proof.
  intros Hr Hb Hd Hlt ptr. destruct (effective_alignment_pow2 n a o Hr) as (k & Hk & E & _).
  destruct Hr as [Hn _ Ho]. unfold aligned_size in Hlt. rewrite E in Hlt.
  destruct (aligned_ptr_spec base k o Hk ltac:(lia) ltac:(lia) ltac:(lia)) as [Hp Hal]. rewrite <- E in Hp, Hal. fold ptr in Hp, Hal.
  assert ((8 | base)) as H8 by (destruct Hd as [q ->]; unfold iree_max_align_t; exists (2 * q); lia).
  rewrite E in Hp. destruct (base_slot_spec base ptr H8 ltac:(lia) ltac:(lia)) as [S1 S2].
  unfold iree_aligned_ptr_set_base. split; [|intros x Hx; apply store_other; lia].
  split; [done|unfold aligned_size; rewrite E; split; [done|]; split; [done|lia]|done| |done|].
  - unfold aligned_size. rewrite E. lia.
  - apply load_store. unfold in_width. lia.
Qed.

(** A successful [iree_allocator_malloc_aligned] returns memory whose byte at [offset]
    is aligned, inside the block of the host allocator, with the base pointer recoverable
    from below it; it fails only when the padded size overflows or the host refuses. *)
Theorem malloc_aligned_placed allocator byte_length min_alignment offset m :
  host_ok allocator → aligned_request_ok byte_length min_alignment offset →
  match iree_allocator_malloc_aligned allocator byte_length min_alignment offset m with
  | Ok (ptr, m') => ∃ base,
      iree_allocator_malloc allocator (aligned_size byte_length min_alignment) = Ok base ∧
      placed byte_length min_alignment offset base ptr m' ∧
      ∀ x, x < base ∨ ptr <= x → m' x = m x
  | Err code =>
      2 ^ 64 <= aligned_size byte_length min_alignment ∧ code = IREE_STATUS_OUT_OF_RANGE ∨
      iree_allocator_malloc allocator (aligned_size byte_length min_alignment) = Err code
  end.
Proof.
  intros Hh Hr. unfold iree_allocator_malloc_aligned. rewrite (aligned_total_eq _ _ _ Hr).
  rewrite (proj2 (Z.eqb_neq byte_length 0)) by (destruct Hr; lia).
  rewrite (proj2 (valid_alignment_iff min_alignment ltac:(apply Hr))) by apply Hr. cbn [negb].
  case_decide as Hlt; [|left; split; [lia|done]].
  destruct (iree_allocator_malloc allocator _) as [base|code] eqn:E; cbn [mbind status_or_bind]; [|by right].
  destruct (effective_alignment_pow2 _ _ _ Hr) as (k & _ & E1 & E2). rewrite E2, <- E1.
  assert (0 < base ∧ (iree_max_align_t | base) ∧ base + aligned_size byte_length min_alignment < 2 ^ 64) as (H1 & H2 & H3).
  { destruct allocator as [ctl|]; [|done]. by apply (Hh ctl IREE_ALLOCATOR_COMMAND_CALLOC _ 0). }
  exists base. split; [done|]. by apply placed_intro.
Qed.

Definition sample_ctl (command : iree_allocator_command_t) (n p : Z) : status_or Z :=
  if n <=? 65536 then Ok 0x10000 else Err IREE_STATUS_RESOURCE_EXHAUSTED.

Lemma sample_host_ok : host_ok (Some sample_ctl).
Proof.
  intros ctl command n p q [= <-]. unfold sample_ctl, iree_max_align_t. destruct (Z.leb_spec n 65536); [|done].
  intros [= <-]. split; [lia|]. split; [by exists 0x1000|lia].
Qed.

Lemma sample_request_ok : aligned_request_ok 100 64 4.
Proof. split; [lia| |lia]. split; [split; lia|]. right. by exists 6. Qed.

Lemma malloc_aligned_placed_witness :
  match iree_allocator_malloc_aligned (Some sample_ctl) 100 64 4 (λ _, 0) with
  | Ok (ptr, m') => ∃ base, iree_allocator_malloc (Some sample_ctl) (aligned_size 100 64) = Ok base ∧
      placed 100 64 4 base ptr m' ∧ ∀ x, x < base ∨ ptr <= x → m' x = 0
  | Err code => False
  end.
Proof. exact (malloc_aligned_placed (Some sample_ctl) 100 64 4 (λ _, 0) sample_host_ok sample_request_ok). Defined.

(** The documented reallocation: the common prefix of the blocks is kept. *)
Definition realloc_keeps (base size base' size' : Z) (m m' : memory) : Prop :=
  ∀ j, 0 <= j < Z.min size size' → m' (base' + j) = m (base + j).

(** [iree_allocator_realloc_aligned] of an aligned block with the same alignment keeps
    its bytes up to the smaller of the old and new lengths, also when the distance of the
    aligned data from the base of the host's block changes, and the result is placed like
    a fresh allocation; it fails only when the padded size overflows or the host refuses. *)
Theorem realloc_aligned_keeps allocator old_length byte_length min_alignment offset base ptr m m' :
  host_ok allocator →
  aligned_request_ok old_length min_alignment offset → aligned_request_ok byte_length min_alignment offset →
  placed old_length min_alignment offset base ptr m →
  (∀ base', iree_allocator_realloc allocator (aligned_size byte_length min_alignment) base = Ok base' →
     realloc_keeps base (aligned_size old_length min_alignment) base' (aligned_size byte_length min_alignment) m m') →
  match iree_allocator_realloc_aligned allocator byte_length min_alignment offset ptr m m' with
  | Ok (ptr', m'') => ∃ base',
      iree_allocator_realloc allocator (aligned_size byte_length min_alignment) base = Ok base' ∧
      placed byte_length min_alignment offset base' ptr' m'' ∧
      ∀ i, 0 <= i < Z.min old_length byte_length → m'' (ptr' + i) = m (ptr + i)
  | Err code =>
      2 ^ 64 <= aligned_size byte_length min_alignment ∧ code = IREE_STATUS_OUT_OF_RANGE ∨
      iree_allocator_realloc allocator (aligned_size byte_length min_alignment) base = Err code
  end.
Proof.
  intros Hh Hro Hr Hpl Hkeep. destruct (effective_alignment_pow2 _ _ _ Hr) as (k & Hk & E1 & E2).
  destruct Hpl as [_ (B1 & _ & B2) Eptr [I1 I2] _ Ebase].
  assert (ptr <= base + 2 ^ k + 8) as I3.
  { rewrite Eptr, E1. destruct Hro as [? _ ?]. unfold aligned_size in B2. rewrite E1 in B2.
    destruct (aligned_ptr_spec base k offset Hk); lia. }
  unfold iree_allocator_realloc_aligned. rewrite Ebase, E2, <- E1, <- Eptr, Z.eqb_refl.
  rewrite (proj2 (Z.eqb_neq ptr 0)), (proj2 (Z.eqb_neq byte_length 0)) by (destruct Hr; lia).
  rewrite (proj2 (valid_alignment_iff min_alignment ltac:(apply Hr))) by apply Hr. cbn [negb].
  rewrite E1, <- E2, (aligned_total_eq _ _ _ Hr), E2, <- E1.
  case_decide as Hlt; [|left; split; [lia|done]]. cbv zeta.
  destruct (iree_allocator_realloc allocator _ base) as [base'|code] eqn:E; cbn [mbind status_or_bind]; [|by right].
  assert (0 < base' ∧ (iree_max_align_t | base') ∧ base' + aligned_size byte_length min_alignment < 2 ^ 64) as (H1 & H2 & H3).
  { destruct allocator as [ctl|]; [|done]. by apply (Hh ctl IREE_ALLOCATOR_COMMAND_REALLOC _ base). }
  specialize (Hkeep base' eq_refl). pose proof Hr as [Hn _ Ho]. exists base'. split; [done|].
  assert (∀ n, aligned_size n min_alignment = 8 + n + 2 ^ k) as Es by (intros n; unfold aligned_size; by rewrite E1).
  rewrite Es in *.
  set (ptr' := iree_aligned_ptr base' (Z.max min_alignment iree_max_align_t) offset).
  pose proof (ar_length _ _ _ Hro). rewrite usub_small, uadd_small by (unfold in_width; lia).
  set (moved := if _ =? ptr' then m' else _). destruct (placed_intro byte_length min_alignment offset base' moved) as [Hp Hout];
    [done|done|done|by rewrite Es|]. fold ptr' in Hp, Hout. split; [done|].
  intros i Hi. rewrite Hout by lia. unfold moved, realloc_keeps in *. rewrite ?Es in Hkeep.
  assert (m' (base' + (ptr - base + i)) = m (ptr + i)) as Hm by (rewrite Hkeep by lia; f_equal; lia).
  destruct (Z.eqb_spec (base' + (ptr - base)) ptr') as [<-|]; [rewrite <- Hm; f_equal; lia|].
  unfold memmove. rewrite (proj2 (Z.leb_le _ _)), (proj2 (Z.ltb_lt _ _)) by lia. simpl. rewrite <- Hm. f_equal. lia.
Qed.

Definition sample_ptr : Z := iree_aligned_ptr 0x10000 64 4.
Definition sample_memory : memory := iree_aligned_ptr_set_base sample_ptr 0x10000 (λ x, x mod 256).

Lemma sample_placed : placed 100 64 4 0x10000 sample_ptr sample_memory.
Proof. apply placed_intro; [apply sample_request_ok|done|by exists 0x1000|done]. Qed.

Lemma realloc_aligned_keeps_witness :
  match iree_allocator_realloc_aligned (Some sample_ctl) 200 64 4 sample_ptr sample_memory sample_memory with
  | Ok (ptr', m'') => ∃ base', iree_allocator_realloc (Some sample_ctl) (aligned_size 200 64) 0x10000 = Ok base' ∧
      placed 200 64 4 base' ptr' m'' ∧
      ∀ i, 0 <= i < Z.min 100 200 → m'' (ptr' + i) = sample_memory (sample_ptr + i)
  | Err code => False
  end.
Proof.
  refine (realloc_aligned_keeps (Some sample_ctl) 100 200 64 4 0x10000 sample_ptr sample_memory sample_memory
    sample_host_ok sample_request_ok _ sample_placed _).
  - split; [lia|apply sample_request_ok|lia].
  - intros base' [= <-] j Hj. done.
Defined.

(** ** Inline arena *)

(** The live allocations of an arena, as offsets and lengths. *)
Definition disjoint_blocks (b c : Z * Z) : Prop := b.1 + b.2 <= c.1 ∨ c.1 + c.2 <= b.1.

Record arena_ok (s : iree_allocator_inline_storage_t) (blocks : list (Z * Z)) : Prop := {
  ao_buffer : 0 < storage_buffer s ∧ storage_buffer s + storage_capacity s < 2 ^ 64;
  ao_length : 0 <= storage_length s <= storage_capacity s;
  ao_head : 0 <= storage_head_size s <= storage_length s ∧ (storage_head_size s = 0 → storage_length s = 0);
  ao_block b : b ∈ blocks → 0 <= b.1 ∧ 0 < b.2 ∧ b.1 + b.2 <= storage_length s ∧ (iree_max_align_t | b.1);
  ao_first b : b ∈ blocks → (b.1 = 0 ∧ b.2 = storage_head_size s) ∨ storage_head_size s <= b.1;
  ao_disjoint : ForallOrdPairs disjoint_blocks blocks;
}.

(** A request succeeds exactly when the padded block fits the capacity. *)
Definition arena_begin (s : iree_allocator_inline_storage_t) : Z := round_up (storage_length s) iree_max_align_t.

Lemma arena_alloc_spec s command n p :
  0 <= storage_length s <= storage_capacity s → storage_capacity s < 2 ^ 64 → 0 < n < 2 ^ 64 →
  (command = IREE_ALLOCATOR_COMMAND_REALLOC → p = 0) →
  iree_allocator_inline_arena_alloc s command n p =
    if decide (arena_begin s + n <= storage_capacity s)
    then (Ok (storage_buffer s +64 arena_begin s),
          set_used (arena_begin s + n) (if arena_begin s =? 0 then n else storage_head_size s) s)
    else (Err (if decide (arena_begin s + n < 2 ^ 64) then IREE_STATUS_RESOURCE_EXHAUSTED
               else IREE_STATUS_OUT_OF_RANGE), s).
Proof.
  intros Hl Hc Hn Hcmd. unfold iree_allocator_inline_arena_alloc, arena_begin.
  rewrite (proj2 (Z.eqb_neq n 0)) by lia.
  replace (match command with IREE_ALLOCATOR_COMMAND_REALLOC => negb (p =? 0) | _ => false end) with false
    by (destruct command; try done; by rewrite Hcmd).
  cbn [andb]. change iree_max_align_t with (2 ^ 4). rewrite checked_align_eq by (unfold in_width; lia).
  destruct (round_up_spec (storage_length s) (2 ^ 4)) as [_ Hru]; [lia|].
  pose proof (aligned_no_wrap (storage_length s) 4 ltac:(lia) ltac:(unfold in_width; lia)) as Hw.
  case_decide as H1.
  - rewrite checked_add_u64_eq by (unfold in_width; lia). unfold checked, umax.
    case_decide as H2; [|repeat case_decide; lia || done].
    destruct (Z.ltb_spec (storage_capacity s) (round_up (storage_length s) (2 ^ 4) + n)); repeat case_decide; lia || done.
  - repeat case_decide; lia || done.
Qed.

(** The next block starts after all live ones. *)
Lemma arena_push s blocks n :
  arena_ok s blocks → 0 < n → arena_begin s + n <= storage_capacity s →
  arena_ok (set_used (arena_begin s + n) (if arena_begin s =? 0 then n else storage_head_size s) s)
    ((arena_begin s, n) :: blocks).
Proof.
  intros [[Hb0 Hb] Hl [Hh Hh0] Hbl Hf Hd] Hn Hc. unfold arena_begin in *.
  destruct (round_up_spec (storage_length s) iree_max_align_t) as [Hdiv Hru]; [done|]. set (o := round_up _ _) in *.
  assert (o = 0 → blocks = []) as Hnil.
  { intros Eo. apply elem_of_nil_inv. intros b Hb'. destruct (Hbl b Hb') as (? & ? & ? & _). lia. }
  split; simpl; [done|lia| | | |].
  - destruct (Z.eqb_spec o 0); [lia|]. split; [lia|]. destruct Hdiv as [q Hq]. unfold iree_max_align_t in *. lia.
  - intros b [->|Hb']%elem_of_cons; [simpl; split_and!; [lia|done|lia|done]|].
    destruct (Hbl b Hb') as (? & ? & ? & ?). split_and!; [done|done|lia|done].
  - intros b [->|Hb']%elem_of_cons; simpl; destruct (Z.eqb_spec o 0) as [Eo|]; [by left|right; lia| |by apply Hf].
    rewrite (Hnil Eo) in Hb'. by apply not_elem_of_nil in Hb'.
  - constructor; [|done]. apply Forall_forall. intros b Hb'. destruct (Hbl b Hb') as (? & ? & ? & ?). right. simpl. lia.
Qed.

(** When the head is the whole content, it is the only live block. *)
Lemma arena_sole s blocks :
  arena_ok s blocks → storage_head_size s = storage_length s → ∀ b, b ∈ blocks → b = (0, storage_head_size s).
Proof.
  intros [_ _ _ Hbl Hf _] E b Hb. destruct b as [o n]. destruct (Hbl _ Hb) as (? & ? & ? & _), (Hf _ Hb) as [[? ?]|?]; simpl in *.
  - by subst.
  - lia.
Qed.

Lemma arena_reset_ok s blocks : arena_ok s blocks → arena_ok (set_used 0 0 s) [].
Proof.
  intros [Hb Hl Hh _ _ _]. split; simpl; try done; try lia; [intros b Hn; by apply not_elem_of_nil in Hn..|constructor].
Qed.

(** The live blocks after a release of the block at [ptr]. *)
Definition arena_released (s : iree_allocator_inline_storage_t) (ptr : Z) (blocks : list (Z * Z)) : list (Z * Z) :=
  filter (λ b, storage_buffer s + b.1 ≠ ptr) blocks.

Lemma ordered_filter {A} (R : A → A → Prop) (P : A → Prop) `{∀ x, Decision (P x)} l :
  ForallOrdPairs R l → ForallOrdPairs R (filter P l).
Proof.
  induction 1 as [|a l Ha _ IH]; [constructor|]. rewrite filter_cons. case_decide; [|done]. constructor; [|done].
  apply Forall_forall. intros x [_ Hx]%list_elem_of_filter. by apply (proj1 (Forall_forall _ _) Ha).
Qed.

(** Reallocating the whole content is an allocation in the emptied arena. *)
Lemma arena_realloc_eq s n ptr :
  n ≠ 0 → ptr ≠ 0 →
  iree_allocator_inline_arena_alloc s IREE_ALLOCATOR_COMMAND_REALLOC n ptr =
    if decide (ptr = storage_buffer s ∧ storage_head_size s = storage_length s)
    then iree_allocator_inline_arena_alloc (set_used 0 0 s) IREE_ALLOCATOR_COMMAND_MALLOC n 0
    else (Err IREE_STATUS_INTERNAL, s).
Proof.
  intros Hn Hp. unfold iree_allocator_inline_arena_alloc. rewrite (proj2 (Z.eqb_neq n 0) Hn), (proj2 (Z.eqb_neq ptr 0) Hp).
  destruct (Z.eqb_spec ptr (storage_buffer s)), (Z.eqb_spec (storage_head_size s) (storage_length s));
    case_decide; simpl; tauto || done.
Qed.

(** Blocks of an inline arena are aligned within the buffer, inside it and disjoint:
    an allocation, the release of a live block and a reallocation that succeeds keep this,
    and a failed allocation changes nothing. *)
Theorem inline_arena_blocks s blocks command n ptr :
  arena_ok s blocks → 0 < n < 2 ^ 64 →
  match command with
  | IREE_ALLOCATOR_COMMAND_MALLOC | IREE_ALLOCATOR_COMMAND_CALLOC => True
  | IREE_ALLOCATOR_COMMAND_REALLOC | IREE_ALLOCATOR_COMMAND_FREE => ∃ b, b ∈ blocks ∧ ptr = storage_buffer s + b.1
  | IREE_ALLOCATOR_COMMAND_TRIM => True
  end →
  let '(result, s') := iree_allocator_inline_arena_ctl s command n ptr in
  match command, result with
  | (IREE_ALLOCATOR_COMMAND_MALLOC | IREE_ALLOCATOR_COMMAND_CALLOC), Ok q =>
      arena_ok s' ((q - storage_buffer s, n) :: blocks)
  | (IREE_ALLOCATOR_COMMAND_MALLOC | IREE_ALLOCATOR_COMMAND_CALLOC), Err _ => s' = s
  | IREE_ALLOCATOR_COMMAND_REALLOC, Ok q => q = ptr ∧ arena_ok s' [(q - storage_buffer s, n)] ∧
      ∀ b, b ∈ blocks → ptr = storage_buffer s + b.1
  | IREE_ALLOCATOR_COMMAND_REALLOC, Err _ => s' = s ∨ s' = set_used 0 0 s
  | IREE_ALLOCATOR_COMMAND_FREE, _ => arena_ok s' (arena_released s ptr blocks)
  | IREE_ALLOCATOR_COMMAND_TRIM, _ => s' = s
  end.
Proof.
  intros Hok Hn Hcmd. pose proof Hok as [[Hb0 Hb] Hl [Hh Hh0] Hbl Hf Hd].
  assert (0 <= arena_begin s) as Ho by (destruct (round_up_spec (storage_length s) iree_max_align_t); [done|unfold arena_begin; lia]).
  destruct command; cbn [iree_allocator_inline_arena_ctl].
  1, 2: rewrite arena_alloc_spec by (lia || done); case_decide as Hfit; [|done].
  1, 2: rewrite uadd_small by lia; replace (_ + arena_begin s - _) with (arena_begin s) by lia.
  1, 2: apply arena_push; [done|lia|lia].
  - destruct Hcmd as (b & Hin & Ep). destruct (Hbl b Hin) as (H0 & _). rewrite arena_realloc_eq by lia.
    case_decide as Hw; [|by left]. destruct Hw as [Ew Eh]. pose proof (arena_reset_ok s blocks Hok) as Hr.
    rewrite arena_alloc_spec by (simpl; lia || done). change (arena_begin (set_used 0 0 s)) with 0. case_decide as Hfit; [|by right].
    cbn [storage_buffer set_used]. rewrite uadd_small by lia. rewrite Z.add_0_r. split; [done|]. split.
    + replace (storage_buffer s - storage_buffer s) with 0 by lia. exact (arena_push (set_used 0 0 s) [] n Hr ltac:(lia) Hfit).
    + intros c Hc. rewrite (arena_sole s blocks Hok Eh c Hc). simpl. lia.
  - unfold iree_allocator_inline_arena_free. destruct (Z.eqb_spec ptr (storage_buffer s)) as [Ep|Ep], (Z.eqb_spec (storage_head_size s) (storage_length s)) as [Eh|Eh]; simpl.
    1: { assert (arena_released s ptr blocks = []) as ->; [|by eapply arena_reset_ok].
      apply elem_of_nil_inv. intros c [Hne Hc]%list_elem_of_filter. apply Hne. rewrite (arena_sole s blocks Hok Eh c Hc). simpl. lia. }
    all: split; try done; [intros c [_ Hc]%list_elem_of_filter; auto..|by apply ordered_filter].
  - done.
Qed.

Definition sample_storage : iree_allocator_inline_storage_t := mk_storage 64 8 8 0x2000.

Lemma sample_arena_ok : arena_ok sample_storage [(0, 8)].
Proof.
  split; simpl; try lia; [intros b ->%list_elem_of_singleton; simpl..|].
  - split_and!; [lia|lia|lia|by exists 0].
  - by left.
  - repeat constructor.
Qed.

Lemma inline_arena_blocks_witness :
  let '(result, s') := iree_allocator_inline_arena_ctl sample_storage IREE_ALLOCATOR_COMMAND_MALLOC 20 0 in
  match result with
  | Ok q => arena_ok s' [(q - 0x2000, 20); (0, 8)]
  | Err _ => False
  end.
Proof.
  exact (inline_arena_blocks sample_storage [(0, 8)] IREE_ALLOCATOR_COMMAND_MALLOC 20 0 sample_arena_ok ltac:(lia) I).
Defined.

(** C33: a reallocation of the only block that exceeds the capacity fails but has already
    emptied the arena: the block, which the interface promises to leave alone, is handed
    out again by the next allocation. *)
Theorem failed_realloc_releases_block s n k :
  arena_ok s [(0, storage_length s)] → 0 < storage_length s → storage_head_size s = storage_length s →
  storage_capacity s < n < 2 ^ 64 → 0 < k <= storage_capacity s →
  let '(result, s') := iree_allocator_inline_arena_ctl s IREE_ALLOCATOR_COMMAND_REALLOC n (storage_buffer s) in
  result = Err IREE_STATUS_RESOURCE_EXHAUSTED ∧
  (iree_allocator_inline_arena_ctl s' IREE_ALLOCATOR_COMMAND_MALLOC k 0).1 = Ok (storage_buffer s).
Proof.
  intros [[Hb0 Hb] Hl _ _ _ _] Hpos Eh Hn Hk. cbn [iree_allocator_inline_arena_ctl].
  rewrite arena_realloc_eq by lia. rewrite decide_True by done.
  rewrite arena_alloc_spec by (simpl; lia || done). change (arena_begin (set_used 0 0 s)) with 0.
  rewrite decide_False by (simpl; lia). rewrite decide_True by lia. split; [done|].
  rewrite arena_alloc_spec by (simpl; lia || done). change (arena_begin (set_used 0 0 s)) with 0.
  rewrite decide_True by (simpl; lia). simpl. by rewrite uadd_small, Z.add_0_r by lia.
Qed.

Lemma failed_realloc_releases_block_witness :
  let '(result, s') := iree_allocator_inline_arena_ctl sample_storage IREE_ALLOCATOR_COMMAND_REALLOC 100 0x2000 in
  result = Err IREE_STATUS_RESOURCE_EXHAUSTED ∧
  (iree_allocator_inline_arena_ctl s' IREE_ALLOCATOR_COMMAND_MALLOC 8 0).1 = Ok 0x2000.
Proof.
  exact (failed_realloc_releases_block sample_storage 100 8 sample_arena_ok ltac:(done) eq_refl ltac:(done) ltac:(done)).
Defined.
