(* ===== verification/Frontier.v ===== *)
(** * Causal frontiers ([runtime/src/iree/async/frontier.h], [frontier.c])

    A frontier is a vector clock: an array of (axis, epoch) entries in ascending axis
    order, with room for more entries behind the live ones.  The file models the axis
    encoding, validation, comparison, the in-place merge, the extraction of undominated
    entries and the satisfaction test, and relates each of them to the clock a frontier
    denotes: the map from an axis to its epoch, 0 where the axis is absent. *)

From S2P Require Import Prelude BaseMath.
From stdpp Require Import base numbers list list_numbers sorting gmap fin_sets.

Local Open Scope Z_scope.

(** ** Axes *)

Definition IREE_ASYNC_CAUSAL_DOMAIN_QUEUE : Z := 0.
Definition IREE_ASYNC_CAUSAL_DOMAIN_COLLECTIVE : Z := 1.
Definition IREE_ASYNC_CAUSAL_DOMAIN_EPILOGUE : Z := 2.
Definition IREE_ASYNC_CAUSAL_DOMAIN_HOST : Z := 3.
Definition IREE_ASYNC_CAUSAL_DOMAIN_JOIN : Z := 4.

Definition IREE_ASYNC_QUEUE_INCARNATION_MAX : Z := 0x00FFFFFF.

Definition iree_async_axis_make (session_epoch machine_index domain ordinal : Z) : Z :=
  Z.lor (Z.lor (Z.lor (ushl 64 session_epoch 56) (ushl 64 machine_index 48))
               (ushl 64 domain 40))
        (Z.land ordinal 0xFFFFFFFFFF).

Definition iree_async_axis_make_queue
    (session_epoch machine_index device_index queue_index queue_incarnation : Z) : Z :=
  let ordinal :=
    Z.lor (Z.lor (ushl 64 device_index 32) (ushl 64 queue_index 24)) queue_incarnation in
  iree_async_axis_make session_epoch machine_index IREE_ASYNC_CAUSAL_DOMAIN_QUEUE ordinal.

Definition iree_async_axis_session (axis : Z) : Z := wrap 8 (Z.shiftr axis 56).

Definition iree_async_axis_machine (axis : Z) : Z := wrap 8 (Z.shiftr axis 48).

Definition iree_async_axis_domain (axis : Z) : Z := wrap 8 (Z.land (Z.shiftr axis 40) 0xFF).

Definition iree_async_axis_ordinal (axis : Z) : Z := Z.land axis 0xFFFFFFFFFF.

Definition iree_async_axis_device_index (axis : Z) : Z :=
  wrap 8 (Z.shiftr (iree_async_axis_ordinal axis) 32).

Definition iree_async_axis_queue_index (axis : Z) : Z :=
  wrap 8 (Z.shiftr (iree_async_axis_ordinal axis) 24).

Definition iree_async_axis_queue_incarnation (axis : Z) : Z :=
  wrap 32 (Z.land (iree_async_axis_ordinal axis) IREE_ASYNC_QUEUE_INCARNATION_MAX).

(** ** Frontiers *)

Record iree_async_frontier_entry_t := entry {
  axis : Z;
  epoch : Z;
}.

#[export] Instance entry_eq_dec : EqDecision iree_async_frontier_entry_t.
Proof. solve_decision. Defined.

#[export] Instance entry_inhabited : Inhabited iree_async_frontier_entry_t :=
  populate (entry 0 0).

(** [entries] is the whole entry storage of the allocation, live entries first. *)
Record iree_async_frontier_t := frontier {
  entry_count : Z;
  reserved : list Z;
  entries : list iree_async_frontier_entry_t;
}.

(** The entries a loop bounded by [entry_count] reads. *)
Definition live (f : iree_async_frontier_t) : list iree_async_frontier_entry_t :=
  take (Z.to_nat (entry_count f)) (entries f).

Definition iree_async_single_frontier_initialize (axis epoch : Z) : iree_async_frontier_t :=
  {| entry_count := 1; reserved := replicate 7 0; entries := [entry axis epoch] |}.

(** [sizeof(iree_async_frontier_t)] is the 8-byte header, an entry is two words. *)
Definition iree_async_frontier_size (entry_count : Z) : status_or Z :=
  match iree_struct_layout_calculate 8
          [ {| field_count0 := entry_count; field_count1 := 1;
               field_element_size := 16; field_alignment := 8 |} ] with
  | Ok (_, total) => Ok total
  | Err code => Err code
  end.

Definition iree_async_frontier_initialize
    (f : iree_async_frontier_t) (count : Z) : iree_async_frontier_t :=
  {| entry_count := count; reserved := replicate 7 0; entries := entries f |}.

(** [memcpy] of a frontier header and its live entries over another frontier. *)
Definition copy_frontier (source target : iree_async_frontier_t) : iree_async_frontier_t :=
  let n := Z.to_nat (entry_count source) in
  frontier (entry_count source) (reserved source)
    (take n (entries source) ++ drop n (entries target)).

(** *** Validation *)

(** The first loop: adjacent entries in strictly ascending axis order. *)
Fixpoint validate_ascending (es : list iree_async_frontier_entry_t) : status_or unit :=
  match es with
  | e0 :: ((e1 :: _) as rest) =>
      if axis e1 <=? axis e0 then Err IREE_STATUS_INVALID_ARGUMENT
      else validate_ascending rest
  | _ => Ok tt
  end.

(** The second loop: no zero epoch. *)
Fixpoint validate_nonzero (es : list iree_async_frontier_entry_t) : status_or unit :=
  match es with
  | [] => Ok tt
  | e :: es =>
      if epoch e =? 0 then Err IREE_STATUS_INVALID_ARGUMENT else validate_nonzero es
  end.

Definition iree_async_frontier_validate (f : iree_async_frontier_t) : status_or unit :=
  _ ← validate_ascending (live f); validate_nonzero (live f).

(** *** Comparison *)

Inductive iree_async_frontier_comparison_t :=
  | IREE_ASYNC_FRONTIER_EQUAL
  | IREE_ASYNC_FRONTIER_BEFORE
  | IREE_ASYNC_FRONTIER_AFTER
  | IREE_ASYNC_FRONTIER_CONCURRENT.

(** The [axes_match] loop shared by the three operations with a fast path. *)
Fixpoint axes_match (a b : list iree_async_frontier_entry_t) : bool :=
  match a, b with
  | x :: a, y :: b => if negb (axis x =? axis y) then false else axes_match a b
  | _, _ => true
  end.

Definition classify (has_less has_greater : bool) : iree_async_frontier_comparison_t :=
  if has_less && has_greater then IREE_ASYNC_FRONTIER_CONCURRENT
  else if has_less then IREE_ASYNC_FRONTIER_BEFORE
  else if has_greater then IREE_ASYNC_FRONTIER_AFTER
  else IREE_ASYNC_FRONTIER_EQUAL.

(** Fast path of [iree_async_frontier_compare]: epochs only, early exit. *)
Fixpoint compare_epochs (has_less has_greater : bool)
    (a b : list iree_async_frontier_entry_t) : iree_async_frontier_comparison_t :=
  match a, b with
  | x :: a, y :: b =>
      let has_less := (epoch x <? epoch y) || has_less in
      let has_greater := (epoch y <? epoch x) || has_greater in
      if has_less && has_greater then IREE_ASYNC_FRONTIER_CONCURRENT
      else compare_epochs has_less has_greater a b
  | _, _ =>
      if has_less then IREE_ASYNC_FRONTIER_BEFORE
      else if has_greater then IREE_ASYNC_FRONTIER_AFTER
      else IREE_ASYNC_FRONTIER_EQUAL
  end.

(** Slow path: the merge-scan; the cursors [i] and [j] are the suffixes [a] and [b]. *)
Fixpoint compare_scan (a : list iree_async_frontier_entry_t) :=
  fix scan (b : list iree_async_frontier_entry_t) (has_less has_greater : bool)
    : iree_async_frontier_comparison_t :=
  match a, b with
  | x :: a', y :: b' =>
      if axis x =? axis y then
        compare_scan a' b' ((epoch x <? epoch y) || has_less)
                           ((epoch y <? epoch x) || has_greater)
      else if axis x <? axis y then compare_scan a' b has_less true
      else scan b' true has_greater
  | _, _ =>
      let has_greater := match a with [] => has_greater | _ => true end in
      let has_less := match b with [] => has_less | _ => true end in
      classify has_less has_greater
  end.

Definition iree_async_frontier_compare
    (a b : iree_async_frontier_t) : iree_async_frontier_comparison_t :=
  if (entry_count a =? entry_count b) && axes_match (live a) (live b)
  then compare_epochs false false (live a) (live b)
  else compare_scan (live a) (live b) false false.

(** *** Merge *)

(** Path 2: the epoch-max loop over the matching entries; also the dominance flag. *)
Fixpoint merge_epochs (target source : list iree_async_frontier_entry_t)
    (source_dominates_target : bool) : list iree_async_frontier_entry_t * bool :=
  match target, source with
  | t :: target, s :: source =>
      let t' := if epoch t <? epoch s then entry (axis t) (epoch s) else t in
      let dominates :=
        if epoch t <? epoch s then source_dominates_target
        else if epoch s <? epoch t then false else source_dominates_target in
      let '(rest, dominates) := merge_epochs target source dominates in
      (t' :: rest, dominates)
  | _, _ => (target, source_dominates_target)
  end.

(** Path 3, first pass: the merged size and the dominance flag. *)
Fixpoint merge_count (target : list iree_async_frontier_entry_t) :=
  fix count (source : list iree_async_frontier_entry_t)
      (merged_count : Z) (source_dominates_target : bool) : Z * bool :=
  match target, source with
  | t :: target', s :: source' =>
      if axis t =? axis s then
        merge_count target' source' (merged_count + 1)
          (if epoch s <? epoch t then false else source_dominates_target)
      else if axis t <? axis s then
        merge_count target' source (merged_count + 1) false
      else count source' (merged_count + 1) source_dominates_target
  | _, _ =>
      (merged_count + (Z.of_nat (length target) + Z.of_nat (length source)),
       match target with [] => source_dominates_target | _ => false end)
  end.

(** [array[i]] and [array[i] = e] at an [int16_t] index. *)
Definition entry_at (es : list iree_async_frontier_entry_t) (i : Z) := es !!! Z.to_nat i.
Definition entry_store (es : list iree_async_frontier_entry_t) (i : Z) e :=
  <[Z.to_nat i := e]> es.

(** Path 3, second pass: the two [while] loops over [ti], [si] and [wi], writing into the
    array they read from; [None] is running out of fuel. *)
Fixpoint merge_backward (fuel : nat) (target source : list iree_async_frontier_entry_t)
    (ti si wi : Z) : option (list iree_async_frontier_entry_t) :=
  match fuel with
  | O => None
  | S fuel =>
      if (0 <=? ti) && (0 <=? si) then
        if axis (entry_at source si) <? axis (entry_at target ti) then
          merge_backward fuel (entry_store target wi (entry_at target ti)) source
            (ti - 1) si (wi - 1)
        else if axis (entry_at target ti) <? axis (entry_at source si) then
          merge_backward fuel (entry_store target wi (entry_at source si)) source
            ti (si - 1) (wi - 1)
        else
          merge_backward fuel
            (entry_store target wi
               (entry (axis (entry_at target ti))
                  (iree_max (epoch (entry_at target ti)) (epoch (entry_at source si)))))
            source (ti - 1) (si - 1) (wi - 1)
      else if 0 <=? si then
        merge_backward fuel (entry_store target wi (entry_at source si)) source
          ti (si - 1) (wi - 1)
      else Some target
  end.

(** The returned [bool], the target afterwards, and [*out_source_dominates_target]. *)
Record merge_result := {
  merge_ok : bool;
  merge_target : iree_async_frontier_t;
  merge_dominates : bool;
}.

Definition iree_async_frontier_merge_impl
    (target : iree_async_frontier_t) (target_capacity : Z)
    (source : iree_async_frontier_t) : option merge_result :=
  if entry_count source =? 0 then
    Some {| merge_ok := true; merge_target := target;
            merge_dominates := entry_count target =? 0 |}
  else if (entry_count target =? entry_count source) &&
          axes_match (live target) (live source) then
    let '(merged, dominates) := merge_epochs (live target) (live source) true in
    Some {| merge_ok := true;
            merge_target :=
              {| entry_count := entry_count target; reserved := reserved target;
                 entries := merged ++ drop (Z.to_nat (entry_count target)) (entries target) |};
            merge_dominates := dominates |}
  else
    let '(merged_count, dominates) := merge_count (live target) (live source) 0 true in
    let merged_count := wrap 16 merged_count in
    if target_capacity <? merged_count then
      Some {| merge_ok := false; merge_target := target; merge_dominates := false |}
    else
      merged ← merge_backward (S (Z.to_nat (entry_count target + entry_count source)))
                 (entries target) (entries source)
                 (entry_count target - 1) (entry_count source - 1) (merged_count - 1);
      Some {| merge_ok := true;
              merge_target :=
                {| entry_count := wrap 8 merged_count; reserved := reserved target;
                   entries := merged |};
              merge_dominates := dominates |}.

Definition iree_async_frontier_merge (target : iree_async_frontier_t) (target_capacity : Z)
    (source : iree_async_frontier_t) : option (bool * iree_async_frontier_t) :=
  r ← iree_async_frontier_merge_impl target target_capacity source;
  Some (merge_ok r, merge_target r).

Definition iree_async_frontier_merge_and_test_source_dominance
    (target : iree_async_frontier_t) (target_capacity : Z)
    (source : iree_async_frontier_t) : option (bool * iree_async_frontier_t * bool) :=
  r ← iree_async_frontier_merge_impl target target_capacity source;
  Some (merge_ok r, merge_target r, merge_dominates r).

(** *** Undominated entries *)

(** [if (count < capacity) out_entries[count] = e; ++count] *)
Definition emit (capacity : Z) (e : iree_async_frontier_entry_t)
    (out : list iree_async_frontier_entry_t * Z) : list iree_async_frontier_entry_t * Z :=
  let '(out_entries, count) := out in
  (if count <? capacity then entry_store out_entries count e else out_entries,
   uadd 8 count 1).

Fixpoint undominated_epochs (capacity : Z) (reference target : list iree_async_frontier_entry_t)
    (out : list iree_async_frontier_entry_t * Z) : list iree_async_frontier_entry_t * Z :=
  match reference, target with
  | r :: reference, t :: target =>
      undominated_epochs capacity reference target
        (if epoch r <? epoch t then emit capacity t out else out)
  | _, _ => out
  end.

Fixpoint undominated_scan (capacity : Z) (reference : list iree_async_frontier_entry_t) :=
  fix scan (target : list iree_async_frontier_entry_t)
      (out : list iree_async_frontier_entry_t * Z) : list iree_async_frontier_entry_t * Z :=
  match target with
  | [] => out
  | t :: target' =>
      match reference with
      | [] => scan target' (emit capacity t out)
      | r :: reference' =>
          if axis r =? axis t then
            undominated_scan capacity reference' target'
              (if epoch r <? epoch t then emit capacity t out else out)
          else if axis r <? axis t then undominated_scan capacity reference' target out
          else scan target' (emit capacity t out)
      end
  end.

(** [out_entries] afterwards, and the count. *)
Definition iree_async_frontier_find_undominated
    (reference target : iree_async_frontier_t) (capacity : Z)
    (out_entries : list iree_async_frontier_entry_t)
    : list iree_async_frontier_entry_t * Z :=
  if (entry_count reference =? entry_count target) && axes_match (live reference) (live target)
  then undominated_epochs capacity (live reference) (live target) (out_entries, 0)
  else undominated_scan capacity (live reference) (live target) (out_entries, 0).

(** *** Satisfaction *)

(** The inner loop: advance past entries with smaller axes. *)
Fixpoint skip_smaller (current : list iree_async_frontier_entry_t) (bound : Z)
    : list iree_async_frontier_entry_t :=
  match current with
  | c :: rest => if axis c <? bound then skip_smaller rest bound else current
  | [] => []
  end.

Fixpoint satisfied_scan (es current : list iree_async_frontier_entry_t) : bool :=
  match es with
  | [] => true
  | e :: es =>
      let current := skip_smaller current (axis e) in
      match current with
      | [] => false
      | c :: _ =>
          if negb (axis c =? axis e) then false
          else if epoch c <? epoch e then false
          else satisfied_scan es current
      end
  end.

Definition iree_async_frontier_is_satisfied (f : iree_async_frontier_t)
    (current_epochs : list iree_async_frontier_entry_t) : bool :=
  if entry_count f =? 0 then true else satisfied_scan (live f) current_epochs.

(** * Clocks *)

Abbreviation entry_t := iree_async_frontier_entry_t.

(** The epoch an entry list gives an axis; 0 where it does not mention it. *)
Fixpoint epoch_of (es : list entry_t) (x : Z) : Z :=
  match es with
  | [] => 0
  | e :: es => if axis e =? x then epoch e else epoch_of es x
  end.

Definition ascending (es : list entry_t) : Prop :=
  StronglySorted (λ e e', axis e < axis e') es.

Definition nonzero (es : list entry_t) : Prop := Forall (λ e, 0 < epoch e) es.

(** What [iree_async_frontier_validate] checks. *)
Definition valid_entries (es : list entry_t) : Prop := ascending es ∧ nonzero es.

(** A frontier object: a [uint8_t] count within the storage, [uint64_t] epochs. *)
Definition frontier_ok (f : iree_async_frontier_t) : Prop :=
  in_width 8 (entry_count f) ∧ entry_count f <= Z.of_nat (length (entries f)) ∧
  valid_entries (live f).

(** [a] is behind [b] on some axis. *)
Definition behind (a b : list entry_t) : Prop := ∃ x, epoch_of a x < epoch_of b x.

Create HintDb frontier.

Lemma ascending_cons e es :
  ascending (e :: es) ↔ Forall (λ e', axis e < axis e') es ∧ ascending es.
Proof.
  split; [intros H; inversion H; by split|]. intros [? ?]. by constructor.
Qed.

Lemma nonzero_cons e es : nonzero (e :: es) ↔ 0 < epoch e ∧ nonzero es.
Proof. unfold nonzero. by rewrite Forall_cons. Qed.

Lemma valid_cons e es :
  valid_entries (e :: es) ↔
  Forall (λ e', axis e < axis e') es ∧ 0 < epoch e ∧ valid_entries es.
Proof. unfold valid_entries. rewrite ascending_cons, nonzero_cons. tauto. Qed.

Lemma epoch_of_above es x : Forall (λ e, x < axis e) es → epoch_of es x = 0.
Proof.
  induction 1 as [|e es He _ IH]; [done|]. simpl. by destruct (Z.eqb_spec (axis e) x); [lia|].
Qed.

Lemma epoch_of_nonneg es x : nonzero es → 0 <= epoch_of es x.
Proof. induction 1; simpl; [done|]. case_match; lia. Qed.

Lemma epoch_of_elem es e : ascending es → e ∈ es → epoch_of es (axis e) = epoch e.
Proof.
  induction es as [|e' es IH]; [by rewrite elem_of_nil|].
  rewrite ascending_cons, elem_of_cons. intros [Hall Has] [->|Hin]; simpl.
  - by rewrite Z.eqb_refl.
  - rewrite Forall_forall in Hall. specialize (Hall e Hin).
    destruct (Z.eqb_spec (axis e') (axis e)); [lia|]. auto.
Qed.

Lemma above_weaken x y es :
  x <= y → Forall (λ e : entry_t, y < axis e) es → Forall (λ e, x < axis e) es.
Proof. intros ? H. eapply Forall_impl; [exact H|]. simpl. lia. Qed.

(** The three steps of a merge-scan, in terms of the clocks. *)
Section scan_steps.
Context (x y : entry_t) (a b : list entry_t).
Context (Ha : Forall (λ e, axis x < axis e) a) (Hb : Forall (λ e, axis y < axis e) b).

Lemma behind_same :
  axis x = axis y → behind (x :: a) (y :: b) ↔ epoch x < epoch y ∨ behind a b.
Proof.
  intros E. rewrite E in Ha. split.
  - intros [z Hz]. simpl in Hz. rewrite E in Hz.
    destruct (Z.eqb_spec (axis y) z); [by left|]. right. by exists z.
  - intros [?|[z Hz]].
    + exists (axis y). simpl. by rewrite E, Z.eqb_refl.
    + exists z. simpl. rewrite E. destruct (Z.eqb_spec (axis y) z) as [<-|]; [|done].
      rewrite !epoch_of_above in Hz by done. lia.
Qed.

Lemma behind_skip_l :
  0 < epoch x → axis x < axis y → behind (x :: a) (y :: b) ↔ behind a (y :: b).
Proof.
  intros ? Hlt. assert (epoch_of (y :: b) (axis x) = 0) as E0.
  { apply epoch_of_above. constructor; [done|]. by apply (above_weaken _ (axis y)); [lia|]. }
  assert (∀ z, epoch_of (x :: a) z = if axis x =? z then epoch x else epoch_of a z) as Ex
    by done.
  split; intros [z Hz]; exists z; rewrite Ex in *; revert Hz;
    destruct (Z.eqb_spec (axis x) z) as [<-|]; try done; rewrite E0; [lia|].
  rewrite (epoch_of_above a) by done. lia.
Qed.

Lemma behind_ahead_l :
  0 < epoch x → axis x < axis y → behind (y :: b) (x :: a).
Proof.
  intros ? Hlt. exists (axis x). rewrite (epoch_of_above (y :: b)).
  - simpl. by rewrite Z.eqb_refl.
  - constructor; [done|]. by apply (above_weaken _ (axis y)); [lia|].
Qed.
End scan_steps.

Lemma behind_nil_r es : nonzero es → ¬ behind es [].
Proof. intros Hp [x Hx]. pose proof (epoch_of_nonneg es x Hp). simpl in Hx. lia. Qed.

Lemma behind_nil_cons e es : 0 < epoch e → behind [] (e :: es).
Proof. intros. exists (axis e). simpl. by rewrite Z.eqb_refl. Qed.

(** ** Comparison *)

(** A result is right when its two flags say whether each clock is behind the other. *)
Definition compares (r : iree_async_frontier_comparison_t) (less greater : Prop) : Prop :=
  match r with
  | IREE_ASYNC_FRONTIER_EQUAL => ¬ less ∧ ¬ greater
  | IREE_ASYNC_FRONTIER_BEFORE => less ∧ ¬ greater
  | IREE_ASYNC_FRONTIER_AFTER => ¬ less ∧ greater
  | IREE_ASYNC_FRONTIER_CONCURRENT => less ∧ greater
  end.

#[export] Instance compares_proper r : Proper (iff ==> iff ==> iff) (compares r).
Proof. intros P P' HP Q Q' HQ. unfold compares. destruct r; tauto. Qed.

Lemma compares_classify hl hg less greater :
  (hl = true ↔ less) → (hg = true ↔ greater) → compares (classify hl hg) less greater.
Proof. intros <- <-. destruct hl, hg; simpl; naive_solver. Qed.

Lemma or_true_ltb p q b (P : Prop) : ((p <? q) || b = true ∨ P) ↔ (b = true ∨ p < q ∨ P).
Proof. rewrite orb_true_iff, Z.ltb_lt. tauto. Qed.

Lemma compare_scan_correct a : ∀ b hl hg,
  valid_entries a → valid_entries b →
  compares (compare_scan a b hl hg) (hl = true ∨ behind a b) (hg = true ∨ behind b a).
Proof.
  induction a as [|x a IHa]; intros b.
  { intros hl hg _ [_ Hb]. destruct b as [|y b]; simpl.
    - apply compares_classify; pose proof (behind_nil_r [] Hb); tauto.
    - pose proof (behind_nil_r _ Hb). apply nonzero_cons in Hb as [Hy _].
      pose proof (behind_nil_cons y b Hy). apply compares_classify; tauto. }
  induction b as [|y b IHb]; intros hl hg Ha Hb.
  { destruct Ha as [_ Ha]. pose proof (behind_nil_r _ Ha). apply nonzero_cons in Ha as [Hx _].
    pose proof (behind_nil_cons x a Hx). simpl. apply compares_classify; tauto. }
  pose proof Ha as (Hxa & Hx & Ha')%valid_cons. pose proof Hb as (Hyb & Hy & Hb')%valid_cons.
  simpl. destruct (Z.eqb_spec (axis x) (axis y)) as [E|NE]; [|destruct (Z.ltb_spec (axis x) (axis y))].
  - rewrite !behind_same, <- !or_true_ltb by done. by apply IHa.
  - rewrite behind_skip_l by done. pose proof (behind_ahead_l x y a b Hyb Hx) as Hah.
    assert (hg = true ∨ behind (y :: b) (x :: a) ↔ true = true ∨ behind (y :: b) a) as ->
      by tauto. by apply IHa.
  - rewrite (behind_skip_l y x b a) by (done || lia).
    pose proof (behind_ahead_l y x b a Hxa Hy ltac:(lia)).
    assert (hl = true ∨ behind (x :: a) (y :: b) ↔ true = true ∨ behind (x :: a) b) as ->
      by tauto. by apply IHb.
Qed.

Lemma axes_match_lengths a b :
  length a = length b → axes_match a b = true ↔ axis <$> a = axis <$> b.
Proof.
  revert b. induction a as [|x a IH]; intros [|y b] Hlen; try done. simpl in *.
  destruct (Z.eqb_spec (axis x) (axis y)) as [->|NE]; simpl.
  - rewrite IH by lia. split; [intros E; f_equal; exact E|by intros [= E]].
  - split; [done|]. by intros [= ? ?].
Qed.

(** On matching axes the early-exit epoch loop gives what the merge-scan gives. *)
Lemma compare_epochs_scan a : ∀ b hl hg,
  hl && hg = false → axis <$> a = axis <$> b →
  compare_epochs hl hg a b = compare_scan a b hl hg.
Proof.
  induction a as [|x a IH]; intros [|y b] hl hg Hflags Haxes; try done.
  { simpl. unfold classify. by rewrite Hflags. }
  injection Haxes as Hxy Haxes. cbn [compare_epochs compare_scan].
  rewrite Hxy, Z.eqb_refl.
  destruct (((epoch x <? epoch y) || hl) && ((epoch y <? epoch x) || hg)) eqn:E; [|by apply IH].
  apply andb_true_iff in E as [-> ->]. clear -Haxes.
  revert b Haxes. induction a as [|x' a IH]; intros [|y' b] Haxes; try done.
  injection Haxes as Hxy Haxes. cbn [compare_scan]. rewrite Hxy, Z.eqb_refl, !orb_true_r.
  by apply IH.
Qed.

Lemma live_length f :
  frontier_ok f → Z.of_nat (length (live f)) = entry_count f.
Proof. intros ([? _] & ? & _). unfold live. rewrite length_take. lia. Qed.

Lemma count_eq_lengths a b :
  frontier_ok a → frontier_ok b →
  entry_count a = entry_count b ↔ length (live a) = length (live b).
Proof. intros Ha%live_length Hb%live_length. lia. Qed.

(** The guard of the three fast paths. *)
Lemma fast_path_axes a b :
  frontier_ok a → frontier_ok b →
  (entry_count a =? entry_count b) && axes_match (live a) (live b) = true →
  axis <$> live a = axis <$> live b.
Proof.
  intros Ha Hb [E%Z.eqb_eq M]%andb_true_iff. apply count_eq_lengths in E; [|done..].
  by apply axes_match_lengths.
Qed.

(** ** Merge *)

(** The merge of two ascending entry lists: the reference for all three paths. *)
Fixpoint fmerge (target : list entry_t) :=
  fix go (source : list entry_t) : list entry_t :=
  match target, source with
  | [], _ => source
  | _, [] => target
  | t :: target', s :: source' =>
      if axis t =? axis s then entry (axis t) (Z.max (epoch t) (epoch s)) :: fmerge target' source'
      else if axis t <? axis s then t :: fmerge target' source
      else s :: go source'
  end.

Lemma fmerge_nil_l s : fmerge [] s = s.
Proof. by destruct s. Qed.

Lemma fmerge_nil_r t : fmerge t [] = t.
Proof. by destruct t. Qed.

Lemma fmerge_cons t ts s ss :
  fmerge (t :: ts) (s :: ss) =
    if axis t =? axis s then entry (axis t) (Z.max (epoch t) (epoch s)) :: fmerge ts ss
    else if axis t <? axis s then t :: fmerge ts (s :: ss)
    else s :: fmerge (t :: ts) ss.
Proof. done. Qed.

(** Induction along the merge-scan. *)
Lemma merge_scan_ind (P : list entry_t → list entry_t → Prop) :
  (∀ s, P [] s) → (∀ t, P t []) →
  (∀ t ts s ss, axis t = axis s → P ts ss → P (t :: ts) (s :: ss)) →
  (∀ t ts s ss, axis t < axis s → P ts (s :: ss) → P (t :: ts) (s :: ss)) →
  (∀ t ts s ss, axis s < axis t → P (t :: ts) ss → P (t :: ts) (s :: ss)) →
  ∀ t s, P t s.
Proof.
  intros Hl Hr Heq Hlt Hgt. induction t as [|t ts IHt]; [done|].
  induction s as [|s ss IHs]; [done|].
  destruct (Z.lt_trichotomy (axis t) (axis s)) as [?|[?|?]]; auto.
Qed.

(** One unfolding step of a scan under a known axis comparison. *)
Ltac scan_step H :=
  rewrite ?fmerge_cons;
  match type of H with
  | axis ?x = axis ?y => rewrite (proj2 (Z.eqb_eq (axis x) (axis y)) H)
  | axis ?x < axis ?y =>
      first [ rewrite (proj2 (Z.eqb_neq (axis x) (axis y)) ltac:(lia)),
                      (proj2 (Z.ltb_lt (axis x) (axis y)) H)
            | rewrite (proj2 (Z.eqb_neq (axis y) (axis x)) ltac:(lia)),
                      (proj2 (Z.ltb_ge (axis y) (axis x)) ltac:(lia)) ]
  end.

Lemma fmerge_above x t s :
  Forall (λ e, x < axis e) t → Forall (λ e, x < axis e) s →
  Forall (λ e, x < axis e) (fmerge t s).
Proof.
  revert t s. apply (merge_scan_ind (λ t s, _ → _ → _)).
  - intros s _ Hs. by rewrite fmerge_nil_l.
  - intros t Ht _. by rewrite fmerge_nil_r.
  - intros t ts s ss E IH [? ?]%Forall_cons [? ?]%Forall_cons. scan_step E. constructor; auto.
  - intros t ts s ss E IH [? ?]%Forall_cons ?. scan_step E. constructor; auto.
  - intros t ts s ss E IH ? [? ?]%Forall_cons. scan_step E. constructor; auto.
Qed.

Lemma fmerge_valid t s :
  valid_entries t → valid_entries s → valid_entries (fmerge t s).
Proof.
  revert t s. apply (merge_scan_ind (λ t s, _ → _ → _)).
  - intros s _ Hs. by rewrite fmerge_nil_l.
  - intros t Ht _. by rewrite fmerge_nil_r.
  - intros t ts s ss E IH (Ht & ? & ?)%valid_cons (Hs & ? & ?)%valid_cons. scan_step E.
    rewrite <- E in Hs. apply valid_cons. simpl. split; [by apply fmerge_above|]. split; [lia|auto].
  - intros t ts s ss E IH (Ht & ? & ?)%valid_cons Hv. pose proof Hv as (Hs & ? & ?)%valid_cons.
    scan_step E. apply valid_cons. split; [|auto]. apply fmerge_above; [done|].
    constructor; [done|]. by apply (above_weaken _ (axis s)); [lia|].
  - intros t ts s ss E IH Hv (Hs & ? & ?)%valid_cons. pose proof Hv as (Ht & ? & ?)%valid_cons.
    scan_step E. apply valid_cons. split; [|auto]. apply fmerge_above; [|done].
    constructor; [done|]. by apply (above_weaken _ (axis t)); [lia|].
Qed.

(** Component-wise maximum. *)
Lemma fmerge_epoch t s x :
  valid_entries t → valid_entries s →
  epoch_of (fmerge t s) x = Z.max (epoch_of t x) (epoch_of s x).
Proof.
  revert t s. apply (merge_scan_ind (λ t s, _ → _ → _)).
  - intros s _ [_ Hs]. rewrite fmerge_nil_l. simpl. pose proof (epoch_of_nonneg s x Hs). lia.
  - intros t [_ Ht] _. rewrite fmerge_nil_r. simpl. pose proof (epoch_of_nonneg t x Ht). lia.
  - intros t ts s ss E IH (Ht & ? & ?)%valid_cons (Hs & ? & ?)%valid_cons. scan_step E.
    simpl. rewrite <- E. destruct (axis t =? x); auto.
  - intros t ts s ss E IH (Ht & ? & ?)%valid_cons Hv. scan_step E. simpl epoch_of at 1 2.
    destruct (Z.eqb_spec (axis t) x) as [<-|]; [|auto].
    rewrite epoch_of_above; [lia|]. apply valid_cons in Hv as (Hs & _).
    constructor; [done|]. by apply (above_weaken _ (axis s)); [lia|].
  - intros t ts s ss E IH Hv (Hs & ? & ?)%valid_cons. scan_step E. simpl epoch_of at 1 3.
    destruct (Z.eqb_spec (axis s) x) as [<-|]; [|auto].
    rewrite epoch_of_above; [lia|]. apply valid_cons in Hv as (Ht & _).
    constructor; [done|]. by apply (above_weaken _ (axis t)); [lia|].
Qed.

Lemma fmerge_length_ge t s : (length t <= length (fmerge t s))%nat.
Proof.
  revert t s. apply merge_scan_ind.
  - intros s. simpl. lia.
  - intros t. by rewrite fmerge_nil_r.
  - intros t ts s ss E IH. scan_step E. simpl. lia.
  - intros t ts s ss E IH. scan_step E. simpl. lia.
  - intros t ts s ss E IH. scan_step E. simpl in *. lia.
Qed.

Lemma fmerge_length_le t s : (length (fmerge t s) <= length t + length s)%nat.
Proof.
  revert t s. apply merge_scan_ind.
  - intros s. rewrite fmerge_nil_l. simpl. lia.
  - intros t. rewrite fmerge_nil_r. simpl. lia.
  - intros t ts s ss E IH. scan_step E. simpl. lia.
  - intros t ts s ss E IH. scan_step E. simpl in *. lia.
  - intros t ts s ss E IH. scan_step E. simpl in *. lia.
Qed.

(** Merging from the back: the greatest axis ends up last. *)
Lemma fmerge_snoc_l t s x :
  Forall (λ e, axis e < axis x) t → Forall (λ e, axis e < axis x) s →
  fmerge (t ++ [x]) s = fmerge t s ++ [x].
Proof.
  revert t s. apply (merge_scan_ind (λ t s, _ → _ → _)).
  - intros s _ Hs. rewrite fmerge_nil_l. simpl app at 1.
    induction Hs as [|y s Hy Hs IH]; [done|]. scan_step Hy. simpl. by f_equal.
  - intros t _ _. by rewrite !fmerge_nil_r.
  - intros t ts s ss E IH [? ?]%Forall_cons [? ?]%Forall_cons. simpl app at 1.
    scan_step E. simpl. f_equal. auto.
  - intros t ts s ss E IH [? ?]%Forall_cons ?. simpl app at 1. scan_step E. simpl. f_equal. auto.
  - intros t ts s ss E IH ? [? ?]%Forall_cons. simpl app at 1. scan_step E.
    rewrite <- app_comm_cons. f_equal. by apply IH.
Qed.

Lemma fmerge_comm t s : fmerge t s = fmerge s t.
Proof.
  revert t s. apply merge_scan_ind.
  - intros s. by rewrite fmerge_nil_l, fmerge_nil_r.
  - intros t. by rewrite fmerge_nil_l, fmerge_nil_r.
  - intros t ts s ss E IH. scan_step E. symmetry in E. scan_step E.
    by rewrite IH, Z.max_comm, E.
  - intros t ts s ss E IH. rewrite !fmerge_cons.
    destruct (Z.eqb_spec (axis t) (axis s)), (Z.eqb_spec (axis s) (axis t)),
      (Z.ltb_spec (axis t) (axis s)), (Z.ltb_spec (axis s) (axis t)); try lia. by rewrite IH.
  - intros t ts s ss E IH. rewrite !fmerge_cons.
    destruct (Z.eqb_spec (axis t) (axis s)), (Z.eqb_spec (axis s) (axis t)),
      (Z.ltb_spec (axis t) (axis s)), (Z.ltb_spec (axis s) (axis t)); try lia. by rewrite IH.
Qed.

Lemma fmerge_snoc_r t s y :
  Forall (λ e, axis e < axis y) t → Forall (λ e, axis e < axis y) s →
  fmerge t (s ++ [y]) = fmerge t s ++ [y].
Proof. intros. rewrite (fmerge_comm t), (fmerge_comm t). by apply fmerge_snoc_l. Qed.

Lemma fmerge_snoc_both t s x y :
  axis x = axis y →
  Forall (λ e, axis e < axis x) t → Forall (λ e, axis e < axis y) s →
  fmerge (t ++ [x]) (s ++ [y]) =
    fmerge t s ++ [entry (axis x) (Z.max (epoch x) (epoch y))].
Proof.
  intros Exy. revert t s. apply (merge_scan_ind (λ t s, _ → _ → _)).
  - intros s _ Hs. rewrite fmerge_nil_l. simpl app at 1. rewrite <- Exy in Hs.
    induction Hs as [|z s Hz Hs IH]; simpl app at 1; [by scan_step Exy|].
    scan_step Hz. simpl. by f_equal.
  - intros t Ht _. rewrite fmerge_nil_r. simpl app at 2. rewrite Exy in Ht.
    induction Ht as [|z t Hz Ht IH]; simpl app at 1; [by scan_step Exy|].
    scan_step Hz. simpl. by f_equal.
  - intros t ts s ss E IH [? ?]%Forall_cons [? ?]%Forall_cons. simpl app at 1 2.
    scan_step E. simpl. f_equal. auto.
  - intros t ts s ss E IH [? ?]%Forall_cons ?. simpl app at 1 2. scan_step E. simpl. f_equal. auto.
  - intros t ts s ss E IH ? [? ?]%Forall_cons. simpl app at 1 2. scan_step E.
    rewrite <- app_comm_cons. f_equal. by apply IH.
Qed.

(** First pass of path 3. *)
Lemma merge_count_size t s : ∀ n d,
  (merge_count t s n d).1 = n + Z.of_nat (length (fmerge t s)).
Proof.
  revert t s. apply (merge_scan_ind (λ t s, ∀ n d, _)).
  - intros [|s ss] n d; simpl; lia.
  - intros [|t ts] n d; simpl; lia.
  - intros t ts s ss E IH n d. cbn [merge_count]. scan_step E. rewrite IH. simpl. lia.
  - intros t ts s ss E IH n d. cbn [merge_count]. scan_step E. rewrite IH. simpl length. lia.
  - intros t ts s ss E IH n d. simpl merge_count. scan_step E.
    etransitivity; [apply IH|]. simpl length. lia.
Qed.

Lemma merge_count_dominates t s : ∀ n d,
  valid_entries t → valid_entries s →
  (merge_count t s n d).2 = true ↔ d = true ∧ ¬ behind s t.
Proof.
  revert t s. apply (merge_scan_ind (λ t s, ∀ n d, _ → _ → _)).
  - intros s n d _ [_ Hs]. pose proof (behind_nil_r s Hs). destruct s; simpl; tauto.
  - intros [|t ts] n d [_ Ht] _; simpl.
    + pose proof (behind_nil_r [] Ht). tauto.
    + apply nonzero_cons in Ht as [Ht _]. pose proof (behind_nil_cons t ts Ht). naive_solver.
  - intros t ts s ss E IH n d (Ht & ? & ?)%valid_cons (Hs & ? & ?)%valid_cons.
    cbn [merge_count]. scan_step E. rewrite IH, behind_same by done.
    destruct (Z.ltb_spec (epoch s) (epoch t)); [naive_solver|]. intuition lia.
  - intros t ts s ss E IH n d (Ht & ? & ?)%valid_cons Hv.
    cbn [merge_count]. scan_step E. rewrite IH by done.
    apply valid_cons in Hv as (Hs & ? & ?).
    pose proof (behind_ahead_l t s ts ss Hs ltac:(done) E). naive_solver.
  - intros t ts s ss E IH n d Hv (Hs & ? & ?)%valid_cons. simpl merge_count. scan_step E.
    etransitivity; [by apply IH|]. apply valid_cons in Hv as (Ht & ? & ?).
    by rewrite (behind_skip_l s t ss ts).
Qed.

(** Path 2. *)
Lemma merge_epochs_fmerge t : ∀ s d,
  axis <$> t = axis <$> s → (merge_epochs t s d).1 = fmerge t s.
Proof.
  induction t as [|t ts IH]; intros [|s ss] d Haxes; try done.
  injection Haxes as E Haxes. specialize (IH ss). cbn [merge_epochs].
  destruct (merge_epochs ts ss _) as [rest d'] eqn:Er. simpl.
  apply (f_equal fst) in Er. simpl in Er. rewrite (proj2 (Z.eqb_eq _ _) E), <- Er. f_equal; [|by apply IH].
  destruct (Z.ltb_spec (epoch t) (epoch s)).
  - by rewrite Z.max_r by lia.
  - rewrite Z.max_l by lia. by destruct t.
Qed.

Lemma merge_epochs_dominates t : ∀ s d,
  axis <$> t = axis <$> s → ascending t → ascending s →
  (merge_epochs t s d).2 = true ↔ d = true ∧ ¬ behind s t.
Proof.
  induction t as [|t ts IH]; intros [|s ss] d Haxes; try done.
  { intros _ _. simpl. split; [|tauto]. intros ->. split; [done|]. by intros [x ?]. }
  injection Haxes as E Haxes. intros [Ht ?]%ascending_cons [Hs ?]%ascending_cons.
  specialize (IH ss). cbn [merge_epochs].
  destruct (merge_epochs ts ss _) as [rest d'] eqn:Er. simpl.
  apply (f_equal snd) in Er. simpl in Er. rewrite <- Er, IH, behind_same by done.
  destruct (Z.ltb_spec (epoch t) (epoch s)), (Z.ltb_spec (epoch s) (epoch t));
    intuition (lia || done).
Qed.

(** Second pass of path 3: writing backwards into the array being read leaves the merge
    of the two prefixes in front of the untouched tail. *)
Lemma ascending_snoc_inv es x :
  ascending (es ++ [x]) → ascending es ∧ Forall (λ e, axis e < axis x) es.
Proof.
  induction es as [|e es IH]; simpl; [intros _; split; constructor|].
  rewrite !ascending_cons. intros [Hall Has]. apply Forall_app in Hall as [Hall Hx].
  rewrite Forall_singleton in Hx. destruct (IH Has). split; [by split|]. by constructor.
Qed.

Lemma take_S_entry es i :
  0 <= i → (Z.to_nat (i + 1) ≤ length es)%nat →
  take (Z.to_nat (i + 1)) es = take (Z.to_nat i) es ++ [entry_at es i].
Proof.
  intros. replace (Z.to_nat (i + 1)) with (S (Z.to_nat i)) by lia.
  apply take_S_r. apply list_lookup_lookup_total_lt. lia.
Qed.

Lemma entry_store_drop es i e :
  0 <= i → (Z.to_nat (i + 1) ≤ length es)%nat →
  drop (Z.to_nat i) (entry_store es i e) = e :: drop (Z.to_nat (i + 1)) es.
Proof.
  intros. unfold entry_store. rewrite insert_take_drop by lia.
  rewrite drop_app_length'; [f_equal; f_equal; lia|]. rewrite length_take. lia.
Qed.

Lemma entry_store_take es i n e :
  (n ≤ Z.to_nat i)%nat → take n (entry_store es i e) = take n es.
Proof. intros. by apply take_insert_ge. Qed.

Lemma iree_max_Zmax a b : iree_max a b = Z.max a b.
Proof. unfold iree_max. destruct (Z.leb_spec a b); lia. Qed.

(** One write: [e] is the last entry of the merge still to be produced. *)
Lemma merge_backward_write es wi e m m' :
  m = m' ++ [e] → wi + 1 = Z.of_nat (length m) → wi + 1 <= Z.of_nat (length es) →
  m' ++ drop (Z.to_nat (wi - 1 + 1)) (entry_store es wi e) = m ++ drop (Z.to_nat (wi + 1)) es ∧
  wi - 1 + 1 = Z.of_nat (length m') ∧
  wi - 1 + 1 <= Z.of_nat (length (entry_store es wi e)).
Proof.
  intros -> Hwi Hcap. rewrite length_app in Hwi. simpl in Hwi.
  replace (wi - 1 + 1) with wi by lia. unfold entry_store at 2. rewrite length_insert.
  rewrite entry_store_drop, <- app_assoc by lia. split; [done|lia].
Qed.

(** The loop with [fuel] merges what is left of both lists into the part up to [wi]. *)
Definition merges_backward (fuel : nat) : Prop :=
  ∀ es source ti si wi t s,
  -1 <= ti → -1 <= si → ti + si + 2 < Z.of_nat fuel →
  t = take (Z.to_nat (ti + 1)) es → s = take (Z.to_nat (si + 1)) source →
  ti + 1 <= Z.of_nat (length es) → si + 1 <= Z.of_nat (length source) →
  ascending t → ascending s →
  wi + 1 = Z.of_nat (length (fmerge t s)) → wi + 1 <= Z.of_nat (length es) →
  merge_backward fuel es source ti si wi =
    Some (fmerge t s ++ drop (Z.to_nat (wi + 1)) es).

Lemma merge_backward_step fuel es source ti si wi t s e ti' si' t' s' :
  merges_backward fuel → ti + si + 2 < Z.of_nat (S fuel) →
  ti + 1 <= Z.of_nat (length es) → si + 1 <= Z.of_nat (length source) →
  wi + 1 = Z.of_nat (length (fmerge t s)) → wi + 1 <= Z.of_nat (length es) →
  -1 <= ti' <= ti → -1 <= si' <= si → ti' + si' < ti + si →
  t' = take (Z.to_nat (ti' + 1)) es → s' = take (Z.to_nat (si' + 1)) source →
  ascending t' → ascending s' → fmerge t s = fmerge t' s' ++ [e] →
  merge_backward fuel (entry_store es wi e) source ti' si' (wi - 1) = Some (fmerge t s ++ drop (Z.to_nat (wi + 1)) es).
Proof.
  intros IH Hfuel Hlt Hls Hwi Hcap ? ? ? Et' Es' Hat' Has' Hm.
  assert (ti' < wi).
  { pose proof (fmerge_length_ge t' s'). rewrite Hm, length_app in Hwi. simpl in Hwi.
    rewrite Et', length_take in *. lia. }
  destruct (merge_backward_write es wi e _ _ Hm Hwi Hcap) as (<- & Hw' & Hc').
  assert (length (entry_store es wi e) = length es) by apply length_insert.
  apply IH; try done; try lia. by rewrite entry_store_take by lia.
Qed.

Lemma merge_backward_correct fuel : merges_backward fuel.
Proof.
  induction fuel as [|fuel IH]; [unfold merges_backward; lia|].
  intros es source ti si wi t s Hti Hsi Hfuel Et Es Hlt Hls Hat Has Hwi Hcap.
  cbn [merge_backward].
  pose proof (λ e ti' si' t' s', merge_backward_step fuel es source ti si wi t s e ti' si' t' s' IH Hfuel Hlt Hls Hwi Hcap) as Hstep.
  assert (0 <= ti → t = take (Z.to_nat ti) es ++ [entry_at es ti]) as Ht
    by (intros; rewrite Et; apply take_S_entry; lia).
  assert (0 <= si → s = take (Z.to_nat si) source ++ [entry_at source si]) as Hs
    by (intros; rewrite Es; apply take_S_entry; lia).
  clear Hfuel IH. destruct (Z.leb_spec 0 ti) as [Ht0|Ht0]; cbn [andb].
  - specialize (Ht Ht0). pose proof Hat as Hat'. rewrite Ht in Hat'.
    apply ascending_snoc_inv in Hat' as [Hat' Htx].
    destruct (Z.leb_spec 0 si) as [Hs0|Hs0].
    + specialize (Hs Hs0). pose proof Has as Has'. rewrite Hs in Has'.
      apply ascending_snoc_inv in Has' as [Has' Hsx].
      destruct (Z.ltb_spec (axis (entry_at source si)) (axis (entry_at es ti))) as [Hlt'|Hge];
        [|destruct (Z.ltb_spec (axis (entry_at es ti)) (axis (entry_at source si)))].
      * apply (Hstep _ _ _ (take (Z.to_nat ti) es) s); try done; try lia; [f_equal; lia|].
        rewrite Ht. apply fmerge_snoc_l; [done|]. rewrite Hs.
        apply Forall_app. split; [|by apply Forall_singleton].
        eapply Forall_impl; [exact Hsx|]. simpl. lia.
      * apply (Hstep _ _ _ t (take (Z.to_nat si) source)); try done; try lia; [f_equal; lia|].
        rewrite Hs. apply fmerge_snoc_r; [|done]. rewrite Ht.
        apply Forall_app. split; [|by apply Forall_singleton].
        eapply Forall_impl; [exact Htx|]. simpl. lia.
      * rewrite iree_max_Zmax.
        apply (Hstep _ _ _ (take (Z.to_nat ti) es) (take (Z.to_nat si) source));
          try done; try lia; [f_equal; lia..|].
        rewrite Ht, Hs at 1. apply fmerge_snoc_both; [lia|done..].
    + rewrite Es in *. replace (si + 1) with 0 in * by lia. rewrite take_0, fmerge_nil_r in *.
      rewrite Et in Hwi. rewrite length_take in Hwi. rewrite Et. f_equal.
      replace (Z.to_nat (wi + 1)) with (Z.to_nat (ti + 1)) by lia. by rewrite take_drop.
  - rewrite Et in *. replace (ti + 1) with 0 in * by lia. rewrite take_0, fmerge_nil_l in *.
    destruct (Z.leb_spec 0 si) as [Hs0|Hs0].
    + specialize (Hs Hs0). pose proof Has as Has'. rewrite Hs in Has'.
      apply ascending_snoc_inv in Has' as [Has' Hsx].
      apply (Hstep _ _ _ [] (take (Z.to_nat si) source)); try done; try lia; [|f_equal; lia|].
      * by replace (ti + 1) with 0 by lia.
      * by rewrite fmerge_nil_l.
    + rewrite Es in *. replace (si + 1) with 0 in * by lia. rewrite take_0 in *.
      simpl in *. by replace (wi + 1) with 0 by lia.
Qed.

(** The axes an entry list mentions. *)
Definition axes (es : list entry_t) : gset Z := list_to_set (axis <$> es).

Lemma elem_of_axes es x : valid_entries es → x ∈ axes es ↔ epoch_of es x ≠ 0.
Proof.
  unfold axes. rewrite elem_of_list_to_set, list_elem_of_fmap.
  intros [Has Hnz]. split.
  - intros (e & -> & Hin). rewrite epoch_of_elem by done.
    unfold nonzero in Hnz. rewrite Forall_forall in Hnz. specialize (Hnz e Hin). lia.
  - clear. induction es as [|e es IH]; simpl; [done|].
    destruct (Z.eqb_spec (axis e) x) as [<-|]; [exists e; split; [done|by left]|].
    intros (e' & -> & ?)%IH. exists e'. split; [done|by right].
Qed.

Lemma ascending_NoDup es : ascending es → NoDup (axis <$> es).
Proof.
  induction es as [|e es IH]; [constructor|]. rewrite ascending_cons. intros [Hall Has].
  rewrite fmap_cons. constructor; [|auto]. intros (e' & E & Hin)%list_elem_of_fmap.
  rewrite Forall_forall in Hall. specialize (Hall e' Hin). lia.
Qed.

Lemma size_axes es : ascending es → size (axes es) = length es.
Proof.
  intros Has. unfold axes. rewrite size_list_to_set by by apply ascending_NoDup.
  apply length_fmap.
Qed.

Lemma fmerge_axes t s :
  valid_entries t → valid_entries s → axes (fmerge t s) = axes t ∪ axes s.
Proof.
  intros Ht Hs. apply set_eq. intros x. rewrite elem_of_union, !elem_of_axes by
    (done || by apply fmerge_valid).
  rewrite fmerge_epoch by done. destruct Ht as [_ Ht], Hs as [_ Hs].
  pose proof (epoch_of_nonneg t x Ht). pose proof (epoch_of_nonneg s x Hs). lia.
Qed.

Lemma fmerge_length t s :
  valid_entries t → valid_entries s → length (fmerge t s) = size (axes t ∪ axes s).
Proof.
  intros Ht Hs. rewrite <- fmerge_axes by done. symmetry. apply size_axes.
  by apply fmerge_valid.
Qed.

Lemma fmerge_same_axes_length t s :
  axis <$> t = axis <$> s → length (fmerge t s) = length t.
Proof.
  revert s. induction t as [|t ts IH]; intros [|s ss] E; try done.
  injection E as Ha E. rewrite fmerge_cons, (proj2 (Z.eqb_eq _ _) Ha). simpl. f_equal. auto.
Qed.

Lemma not_behind a b : ¬ behind a b ↔ ∀ x, epoch_of b x <= epoch_of a x.
Proof.
  split; [|intros H [x Hx]; specialize (H x); lia].
  intros H x. apply Z.nlt_ge. intros ?. apply H. by exists x.
Qed.

(** What a merge into [target] leaves behind: the merged entries in front, the rest of
    the storage and the reserved bytes as they were. *)
Definition merged_into (target source target' : iree_async_frontier_t) : Prop :=
  let m := fmerge (live target) (live source) in
  entry_count target' = Z.of_nat (length m) ∧
  entries target' = m ++ drop (length m) (entries target) ∧
  reserved target' = reserved target.

Lemma merged_into_live target source target' :
  merged_into target source target' → live target' = fmerge (live target) (live source).
Proof.
  intros (Hc & He & _). unfold live at 1. rewrite Hc, He. rewrite Nat2Z.id. apply take_app_length.
Qed.

Lemma live_valid f : frontier_ok f → valid_entries (live f).
Proof. by intros (_ & _ & ?). Qed.

Lemma merged_into_ok target source target' :
  frontier_ok target → frontier_ok source → merged_into target source target' →
  Z.of_nat (length (fmerge (live target) (live source))) < 2 ^ 8 → frontier_ok target'.
Proof.
  intros Ht Hs Hm Hlen. pose proof (merged_into_live _ _ _ Hm) as El.
  destruct Hm as (Hc & He & _). split; [rewrite Hc; split; [lia|done]|]. split.
  - rewrite Hc, He, length_app. lia.
  - rewrite El. apply fmerge_valid; by apply live_valid.
Qed.

(** A frontier object with inline storage for [capacity] entries. *)
Definition frontier_sized (capacity : Z) (f : iree_async_frontier_t) : Prop :=
  frontier_ok f ∧ Z.of_nat (length (entries f)) = capacity.

Lemma copy_frontier_sized capacity s d :
  frontier_ok s → entry_count s <= capacity → Z.of_nat (length (entries d)) = capacity →
  frontier_sized capacity (copy_frontier s d) ∧ live (copy_frontier s d) = live s ∧
  entry_count (copy_frontier s d) = entry_count s.
Proof.
  intros (Hw & Hl & Hv) Hcap Hd. set (n := Z.to_nat (entry_count s)).
  unfold in_width in Hw. assert (live (copy_frontier s d) = live s) as El.
  { unfold live, copy_frontier. simpl. fold n. rewrite take_app_le by (rewrite length_take; lia).
    rewrite take_take. f_equal. lia. }
  assert (Z.of_nat (length (entries (copy_frontier s d))) = capacity) as Ec.
  { simpl. fold n. rewrite length_app, length_take, length_drop. lia. }
  split; [|done]. split; [|done]. split; [done|]. split; [simpl entry_count; lia|]. by rewrite El.
Qed.

Lemma clear_frontier_sized capacity f :
  Z.of_nat (length (entries f)) = capacity →
  frontier_sized capacity (iree_async_frontier_initialize f 0) ∧ live (iree_async_frontier_initialize f 0) = [].
Proof. intros Hf. split; [|done]. split; [|done]. split; [done|]. split; [simpl; lia|]. split; constructor. Qed.

Section merge_impl.
Context (target source : iree_async_frontier_t) (capacity : Z).
Context (Ht : frontier_ok target) (Hs : frontier_ok source).
Context (Hcap : in_width 8 capacity) (Hroom : capacity <= Z.of_nat (length (entries target))).
Context (Hfits : entry_count target <= capacity).

Let m := fmerge (live target) (live source).

(** Success exactly when the merged entries fit the capacity. *)
Definition merge_outcome (r : merge_result) : Prop :=
  if decide (Z.of_nat (length m) <= capacity)
  then merge_ok r = true ∧ merged_into target source (merge_target r) ∧
       (merge_dominates r = true ↔ ¬ behind (live source) (live target))
  else merge_ok r = false ∧ merge_target r = target ∧ merge_dominates r = false.

Lemma merge_empty_source :
  entry_count source = 0 →
  merge_outcome {| merge_ok := true; merge_target := target;
                   merge_dominates := entry_count target =? 0 |}.
Proof using Ht Hs Hfits.
  intros E0. pose proof (live_length _ Ht). pose proof (live_length _ Hs).
  assert (live source = []) as Els by (apply length_zero_iff_nil; lia).
  assert (m = live target) as Em by (unfold m; by rewrite Els, fmerge_nil_r).
  unfold merge_outcome. rewrite decide_True by (rewrite Em; lia). split; [done|]. split.
  - unfold merged_into. fold m. rewrite Em. simpl. split; [lia|]. split; [|done].
    destruct Ht as (? & ? & _). unfold live.
    rewrite length_take, Nat.min_l by lia. by rewrite take_drop.
  - simpl. rewrite Z.eqb_eq, Els. destruct (live target) as [|e es] eqn:El; simpl in *.
    + split; [|lia]. intros _. apply behind_nil_r. constructor.
    + split; [lia|]. intros Hb. exfalso. apply Hb. apply behind_nil_cons.
      pose proof (live_valid _ Ht) as [_ Hnz]. rewrite El in Hnz.
      by apply nonzero_cons in Hnz as [? _].
Qed.

Lemma merge_same_axes merged d :
  axis <$> live target = axis <$> live source →
  merge_epochs (live target) (live source) true = (merged, d) →
  merge_outcome
    {| merge_ok := true;
       merge_target :=
         {| entry_count := entry_count target; reserved := reserved target;
            entries := merged ++ drop (Z.to_nat (entry_count target)) (entries target) |};
       merge_dominates := d |}.
Proof using Ht Hs Hfits.
  intros Haxes E. pose proof (live_length _ Ht).
  pose proof (live_valid _ Ht) as [Vt _]. pose proof (live_valid _ Hs) as [Vs _].
  pose proof (merge_epochs_fmerge _ _ true Haxes) as Em.
  pose proof (merge_epochs_dominates _ _ true Haxes Vt Vs) as Ed.
  rewrite E in Em, Ed. simpl in Em, Ed. subst merged.
  pose proof (fmerge_same_axes_length _ _ Haxes) as El. fold m in El.
  unfold merge_outcome. rewrite decide_True by lia. split; [done|]. split; [|simpl; tauto].
  unfold merged_into. fold m. simpl. split; [lia|]. split; [|done]. do 2 f_equal. lia.
Qed.

(** The merge terminates on all three paths, with the outcome above. *)
Lemma merge_impl_correct : ∃ r,
  iree_async_frontier_merge_impl target capacity source = Some r ∧ merge_outcome r.
Proof using Type*.
  pose proof (live_length _ Ht) as Hlt. pose proof (live_length _ Hs) as Hls.
  pose proof (live_valid _ Ht) as Vt. pose proof (live_valid _ Hs) as Vs.
  pose proof Ht as ([Ht0 Ht8] & Htl & _). pose proof Hs as ([Hs0 Hs8] & Hsl & _).
  unfold iree_async_frontier_merge_impl.
  destruct (Z.eqb_spec (entry_count source) 0) as [E0|NE].
  { eexists; split; [done|]. by apply merge_empty_source. }
  destruct ((entry_count target =? entry_count source) && axes_match (live target) (live source))
    eqn:Efast.
  { pose proof (fast_path_axes _ _ Ht Hs Efast) as Haxes.
    destruct (merge_epochs (live target) (live source) true) as [merged d] eqn:E.
    eexists; split; [done|]. by apply merge_same_axes. }
  pose proof (merge_count_size (live target) (live source) 0 true) as En.
  pose proof (merge_count_dominates (live target) (live source) 0 true Vt Vs) as Ed.
  destruct (merge_count (live target) (live source) 0 true) as [n d]. simpl in En, Ed.
  pose proof (fmerge_length_le (live target) (live source)) as Hle. fold m in En, Hle.
  rewrite (wrap_small 16) by (split; lia). unfold merge_outcome.
  destruct (Z.ltb_spec capacity n) as [Hover|Hok].
  { eexists; split; [done|]. by rewrite decide_False by lia. }
  rewrite (merge_backward_correct _ _ _ _ _ _ (live target) (live source));
    [|lia|lia|lia|unfold live; f_equal; lia|unfold live; f_equal; lia|lia|lia|apply Vt|apply Vs
     |fold m; lia|lia].
  eexists; split; [done|]. rewrite decide_True by lia. simpl. split; [done|].
  split; [|tauto]. unfold merged_into. fold m. simpl. destruct Hcap.
  rewrite (wrap_small 8) by (split; lia).
  split; [lia|]. split; [|done]. do 2 f_equal. lia.
Qed.
End merge_impl.

(** ** Undominated entries *)

Definition undominated (reference target : list entry_t) : list entry_t :=
  filter (λ t, epoch_of reference (axis t) < epoch t) target.

Lemma undominated_cons reference t target :
  undominated reference (t :: target) =
    if epoch_of reference (axis t) <? epoch t then t :: undominated reference target
    else undominated reference target.
Proof.
  unfold undominated. rewrite filter_cons.
  destruct (Z.ltb_spec (epoch_of reference (axis t)) (epoch t)); case_decide; done || lia.
Qed.

(** A reference entry below every target axis is irrelevant. *)
Lemma undominated_skip r reference target :
  Forall (λ t, axis r < axis t) target →
  undominated (r :: reference) target = undominated reference target.
Proof.
  induction 1 as [|t target Ht _ IH]; [done|]. rewrite !undominated_cons, IH. simpl.
  by destruct (Z.eqb_spec (axis r) (axis t)); [lia|].
Qed.

Definition emit_all (capacity : Z) (es : list entry_t) (out : list entry_t * Z) :=
  foldl (λ out e, emit capacity e out) out es.

Lemma undominated_scan_eq capacity reference target : ∀ out,
  valid_entries reference → valid_entries target →
  undominated_scan capacity reference target out =
    emit_all capacity (undominated reference target) out.
Proof.
  revert reference target. apply (merge_scan_ind (λ r t, ∀ out, _ → _ → _)).
  - induction s as [|t ts IH]; intros out Hr Hv; [done|].
    pose proof Hv as (_ & Ht & Hts)%valid_cons. rewrite undominated_cons. simpl epoch_of.
    rewrite (proj2 (Z.ltb_lt _ _) Ht). simpl. by rewrite <- IH.
  - by intros [|r rs] out _ _.
  - intros r rs t ts E IH out (Hr & ? & ?)%valid_cons (Ht & ? & ?)%valid_cons.
    cbn [undominated_scan]. rewrite undominated_cons. simpl epoch_of. rewrite E, Z.eqb_refl.
    rewrite undominated_skip by (by rewrite E). rewrite IH by done.
    by destruct (epoch r <? epoch t).
  - intros r rs t ts E IH out (Hr & ? & ?)%valid_cons Hv.
    cbn [undominated_scan]. scan_step E. rewrite IH by done. f_equal.
    symmetry. apply undominated_skip. apply valid_cons in Hv as (Ht & _).
    constructor; [done|]. by apply (above_weaken _ (axis t)); [lia|].
  - intros r rs t ts E IH out Hv (Ht & Hpos & ?)%valid_cons. simpl undominated_scan. scan_step E.
    rewrite undominated_cons. apply valid_cons in Hv as Hv'. destruct Hv' as (Hr & _ & _).
    rewrite (epoch_of_above (r :: rs)).
    + rewrite (proj2 (Z.ltb_lt _ _) Hpos). simpl. by etransitivity; [apply IH|].
    + constructor; [done|]. by apply (above_weaken _ (axis r)); [lia|].
Qed.

Lemma undominated_epochs_scan capacity reference : ∀ target out,
  axis <$> reference = axis <$> target →
  undominated_epochs capacity reference target out =
    undominated_scan capacity reference target out.
Proof.
  induction reference as [|r rs IH]; intros [|t ts] out E; try done.
  injection E as Ea E. cbn [undominated_epochs undominated_scan].
  by rewrite Ea, Z.eqb_refl, IH.
Qed.

(** Writing a list out through [emit]: positions below the capacity get the entries in
    order, the others keep their contents, and the count is the number of entries. *)
Lemma emit_all_spec capacity es : ∀ out count,
  0 <= count → count + Z.of_nat (length es) < 2 ^ 8 → capacity <= Z.of_nat (length out) →
  let r := emit_all capacity es (out, count) in
  r.2 = count + Z.of_nat (length es) ∧ length r.1 = length out ∧
  ∀ i, r.1 !! i =
    if decide (count <= Z.of_nat i < Z.min capacity (count + Z.of_nat (length es)))
    then es !! (i - Z.to_nat count)%nat else out !! i.
Proof.
  induction es as [|e es IH]; intros out count H0 H8 Hcap.
  { simpl. split; [lia|]. split; [done|]. intros i. by rewrite decide_False by lia. }
  simpl in H8.
  change (emit_all capacity (e :: es) (out, count))
    with (emit_all capacity es (emit capacity e (out, count))). unfold emit.
  rewrite (uadd_small 8 count 1) by lia.
  set (out' := if count <? capacity then entry_store out count e else out).
  assert (length out' = length out) as Hlen.
  { unfold out', entry_store. case_match; [apply length_insert|done]. }
  destruct (IH out' (count + 1)) as (Hc & Hl & Hi); [lia..|]. cbv zeta.
  split; [rewrite Hc; simpl; lia|]. split; [by rewrite Hl|].
  intros i. rewrite Hi. clear Hi Hc Hl IH. simpl length. unfold out', entry_store.
  destruct (decide (Z.of_nat i = count)) as [<-|NE].
  - rewrite decide_False by lia. rewrite Nat2Z.id, Nat.sub_diag.
    destruct (Z.ltb_spec (Z.of_nat i) capacity).
    + rewrite decide_True by lia. simpl. apply list_lookup_insert_eq. lia.
    + by rewrite decide_False by lia.
  - destruct (decide (count <= Z.of_nat i < Z.min capacity (count + Z.of_nat (S (length es))))).
    + rewrite decide_True by lia.
      replace (i - Z.to_nat count)%nat with (S (i - Z.to_nat (count + 1)))%nat by lia. done.
    + rewrite decide_False by lia. case_match; [|done]. apply list_lookup_insert_ne. lia.
Qed.

(** ** Satisfaction and validation *)

Lemma skip_smaller_epoch current b x :
  b <= x → epoch_of (skip_smaller current b) x = epoch_of current x.
Proof.
  intros Hx. induction current as [|c current IH]; simpl; [done|].
  destruct (Z.ltb_spec (axis c) b); [|done].
  by destruct (Z.eqb_spec (axis c) x); [lia|].
Qed.

Lemma skip_smaller_ascending current b :
  ascending current →
  ascending (skip_smaller current b) ∧ Forall (λ c, b <= axis c) (skip_smaller current b).
Proof.
  induction current as [|c current IH]; simpl; [by intros; split|].
  intros Hc. pose proof Hc as [Hall ?]%ascending_cons.
  destruct (Z.ltb_spec (axis c) b); [auto|]. split; [done|]. constructor; [done|].
  eapply Forall_impl; [exact Hall|]. simpl. lia.
Qed.

Lemma satisfied_scan_iff es : ∀ current,
  valid_entries es → ascending current →
  satisfied_scan es current = true ↔
    Forall (λ e, epoch e <= epoch_of current (axis e)) es.
Proof.
  induction es as [|e es IH]; intros current; [by intros; split|].
  intros (Hall & Hpos & Hv)%valid_cons Hc. rewrite Forall_cons. cbn [satisfied_scan].
  destruct (skip_smaller_ascending current (axis e) Hc) as [Hc' Hge].
  rewrite <- (skip_smaller_epoch current (axis e) (axis e)) by lia.
  assert (Forall (λ e0, epoch e0 <= epoch_of current (axis e0)) es ↔
    Forall (λ e0, epoch e0 <= epoch_of (skip_smaller current (axis e)) (axis e0)) es) as ->.
  { rewrite !Forall_forall. rewrite Forall_forall in Hall.
    split; intros Hf e' Hin; specialize (Hall e' Hin); specialize (Hf e' Hin); simpl in *.
    - by rewrite skip_smaller_epoch by lia.
    - by rewrite skip_smaller_epoch in Hf by lia. }
  specialize (IH _ Hv Hc'). destruct (skip_smaller current (axis e)) as [|c rest].
  { simpl. split; [done|]. intros [? _]. lia. }
  apply Forall_cons in Hge as [Hge _]. apply ascending_cons in Hc' as [Hrest _].
  simpl epoch_of at 1. destruct (Z.eqb_spec (axis c) (axis e)) as [Ec|NE]; simpl negb; cbv iota.
  - rewrite <- IH. destruct (Z.ltb_spec (epoch c) (epoch e)); [intuition lia|]. tauto.
  - split; [done|]. rewrite epoch_of_above; [lia|].
    by apply (above_weaken _ (axis c)); [lia|].
Qed.

Lemma validate_ascending_ok es :
  validate_ascending es = Ok tt ∧ ascending es ∨
  validate_ascending es = Err IREE_STATUS_INVALID_ARGUMENT ∧ ¬ ascending es.
Proof.
  induction es as [|e [|e' es] IH]; [left; split; [done|constructor]|left|].
  { split; [done|]. by repeat constructor. }
  change (validate_ascending (e :: e' :: es)) with
    (if axis e' <=? axis e then Err IREE_STATUS_INVALID_ARGUMENT
     else validate_ascending (e' :: es)).
  destruct (Z.leb_spec (axis e') (axis e)).
  - right. split; [done|]. intros [[? _]%Forall_cons _]%ascending_cons. lia.
  - destruct IH as [[-> Has]|[-> Hn]].
    + left. split; [done|]. apply ascending_cons. split; [|done].
      apply ascending_cons in Has as [Hall _]. constructor; [done|].
      by apply (above_weaken _ (axis e')); [lia|].
    + right. split; [done|]. by intros [_ ?]%ascending_cons.
Qed.

Lemma validate_nonzero_ok es :
  Forall (λ e, 0 <= epoch e) es →
  validate_nonzero es = Ok tt ∧ nonzero es ∨
  validate_nonzero es = Err IREE_STATUS_INVALID_ARGUMENT ∧ ¬ nonzero es.
Proof.
  induction 1 as [|e es He _ IH]; [left; split; [done|constructor]|]. simpl.
  destruct (Z.eqb_spec (epoch e) 0).
  - right. split; [done|]. intros [? _]%nonzero_cons. lia.
  - rewrite nonzero_cons. destruct IH as [[-> ?]|[-> ?]]; [left|right]; (split; [done|]);
      [split; [lia|done]|tauto].
Qed.

(** ** The axis encoding *)

Lemma axis_make_eq s m d o :
  in_width 8 s → in_width 8 m → in_width 8 d → in_width 40 o →
  iree_async_axis_make s m d o = ((s * 2 ^ 8 + m) * 2 ^ 8 + d) * 2 ^ 40 + o.
Proof.
  intros [? ?] [? ?] [? ?] [? ?]. unfold iree_async_axis_make.
  change 0xFFFFFFFFFF with (2 ^ 40 - 1). rewrite land_ones_mod, (Z.mod_small o) by lia.
  unfold ushl. rewrite !Z.shiftl_mul_pow2, !wrap_small by (try split; lia).
  rewrite (lor_low_bits s 56) by lia.
  replace (s * 2 ^ 56 + m * 2 ^ 48) with ((s * 2 ^ 8 + m) * 2 ^ 48) by lia.
  rewrite (lor_low_bits _ 48) by lia.
  replace ((s * 2 ^ 8 + m) * 2 ^ 48 + d * 2 ^ 40)
    with (((s * 2 ^ 8 + m) * 2 ^ 8 + d) * 2 ^ 40) by lia.
  by rewrite (lor_low_bits _ 40) by lia.
Qed.

Lemma axis_fields a :
  in_width 64 a →
  iree_async_axis_session a = a / 2 ^ 56 ∧
  iree_async_axis_machine a = a / 2 ^ 48 mod 2 ^ 8 ∧
  iree_async_axis_domain a = a / 2 ^ 40 mod 2 ^ 8 ∧
  iree_async_axis_ordinal a = a mod 2 ^ 40.
Proof.
  intros [? ?]. unfold iree_async_axis_session, iree_async_axis_machine,
    iree_async_axis_domain, iree_async_axis_ordinal.
  change 0xFFFFFFFFFF with (2 ^ 40 - 1). change 0xFF with (2 ^ 8 - 1).
  rewrite !land_ones_mod, !Z.shiftr_div_pow2 by lia. unfold wrap.
  split.
  { apply Z.mod_small. split; [apply Z.div_pos; lia|apply Z.div_lt_upper_bound; lia]. }
  split; [done|]. split; [|done]. by rewrite Z.mod_mod.
Qed.

Lemma queue_ordinal_eq device queue incarnation :
  in_width 8 device → in_width 8 queue → in_width 24 incarnation →
  Z.lor (Z.lor (ushl 64 device 32) (ushl 64 queue 24)) incarnation =
    (device * 2 ^ 8 + queue) * 2 ^ 24 + incarnation.
Proof.
  intros [? ?] [? ?] [? ?]. unfold ushl.
  rewrite !Z.shiftl_mul_pow2, !wrap_small by (try split; lia).
  rewrite (lor_low_bits device 32) by lia.
  replace (device * 2 ^ 32 + queue * 2 ^ 24) with ((device * 2 ^ 8 + queue) * 2 ^ 24) by lia.
  by rewrite (lor_low_bits _ 24) by lia.
Qed.

Lemma axis_make_fields s m d o :
  in_width 8 s → in_width 8 m → in_width 8 d → in_width 40 o →
  let a := iree_async_axis_make s m d o in
  in_width 64 a ∧
  iree_async_axis_session a = s ∧ iree_async_axis_machine a = m ∧
  iree_async_axis_domain a = d ∧ iree_async_axis_ordinal a = o.
Proof.
  intros Hs Hm Hd Ho a. unfold a. rewrite axis_make_eq by done.
  destruct Hs, Hm, Hd, Ho. set (b := _ + o).
  assert (in_width 64 b) as Hb by (unfold b; clear b; split; lia).
  destruct (axis_fields b Hb) as (-> & -> & -> & ->). split; [done|].
  unfold b. repeat split; Z.to_euclidean_division_equations; lia.
Qed.

Lemma queue_fields device queue incarnation :
  0 <= device < 2 ^ 8 → 0 <= queue < 2 ^ 8 → 0 <= incarnation < 2 ^ 24 →
  let o := (device * 2 ^ 8 + queue) * 2 ^ 24 + incarnation in
  (o / 2 ^ 32) mod 2 ^ 8 = device ∧ (o / 2 ^ 24) mod 2 ^ 8 = queue ∧
  (o mod 2 ^ 24) mod 2 ^ 32 = incarnation.
Proof. intros. unfold o. repeat split; Z.to_euclidean_division_equations; lia. Qed.

(** ** Extensionality: the clock determines a valid entry list *)

Lemma valid_head_le x a y b :
  valid_entries (x :: a) → valid_entries (y :: b) →
  epoch_of (y :: b) (axis x) = epoch_of (x :: a) (axis x) → axis y <= axis x.
Proof.
  intros (_ & Hx & _)%valid_cons (Hb & _ & _)%valid_cons E.
  destruct (Z.le_gt_cases (axis y) (axis x)) as [|Hlt]; [done|].
  rewrite epoch_of_above in E; [simpl in E; rewrite Z.eqb_refl in E; lia|].
  constructor; [lia|]. by apply (above_weaken _ (axis y)); [lia|].
Qed.

Lemma valid_ext a : ∀ b,
  valid_entries a → valid_entries b → (∀ x, epoch_of a x = epoch_of b x) → a = b.
Proof.
  induction a as [|x a IH]; intros [|y b] Ha Hb E; [done|..].
  - apply valid_cons in Hb as (_ & Hy & _). specialize (E (axis y)).
    simpl in E. rewrite Z.eqb_refl in E. lia.
  - apply valid_cons in Ha as (_ & Hx & _). specialize (E (axis x)).
    simpl in E. rewrite Z.eqb_refl in E. lia.
  - pose proof (valid_head_le _ _ _ _ Ha Hb (eq_sym (E (axis x)))).
    pose proof (valid_head_le _ _ _ _ Hb Ha (E (axis y))).
    assert (axis x = axis y) as Exy by lia.
    pose proof Ha as (Hxa & _ & Ha')%valid_cons. pose proof Hb as (Hyb & _ & Hb')%valid_cons.
    assert (x = y) as ->.
    { specialize (E (axis x)). simpl in E. rewrite Exy, Z.eqb_refl in E.
      destruct x, y; simpl in *; congruence. }
    f_equal. apply IH; [done..|]. intros z. specialize (E z). simpl in E.
    destruct (Z.eqb_spec (axis y) z) as [Ez|]; [|done]. rewrite Ez in Hxa, Hyb.
    by rewrite !epoch_of_above.
Qed.

Lemma fmerge_dominated t s :
  valid_entries t → valid_entries s → ¬ behind s t → fmerge t s = s.
Proof.
  intros Ht Hs Hb. apply valid_ext; [by apply fmerge_valid|done|]. intros x.
  rewrite fmerge_epoch by done. pose proof (proj1 (not_behind s t) Hb x). lia.
Qed.

Lemma undominated_nil_iff reference target :
  valid_entries target → nonzero reference →
  undominated reference target = [] ↔ ¬ behind reference target.
Proof.
  intros Ht Hr. unfold undominated. rewrite not_behind. split.
  - intros E x. destruct (decide (epoch_of target x = 0)) as [->|NE];
      [by apply epoch_of_nonneg|].
    apply elem_of_axes in NE; [|done]. unfold axes in NE.
    apply elem_of_list_to_set, list_elem_of_fmap in NE as (e & -> & Hin).
    rewrite epoch_of_elem by (done || apply Ht). apply Z.nlt_ge. intros Hlt.
    assert (e ∈ filter (λ t, epoch_of reference (axis t) < epoch t) target) as Hf
      by (by apply list_elem_of_filter).
    rewrite E in Hf. by apply elem_of_nil in Hf.
  - intros H. destruct (filter _ target) as [|e es] eqn:E; [done|].
    assert (e ∈ filter (λ t, epoch_of reference (axis t) < epoch t) target) as Hf
      by (rewrite E; by left).
    apply list_elem_of_filter in Hf as [Hlt Hin]. specialize (H (axis e)).
    rewrite epoch_of_elem in H by (done || apply Ht). lia.
Qed.

(** Both paths of the extraction write out the undominated entries. *)
Lemma find_undominated_eq reference target capacity out :
  frontier_ok reference → frontier_ok target →
  iree_async_frontier_find_undominated reference target capacity out =
    emit_all capacity (undominated (live reference) (live target)) (out, 0).
Proof.
  intros Hr Ht. unfold iree_async_frontier_find_undominated.
  destruct (_ && _) eqn:Efast.
  - rewrite undominated_epochs_scan by by apply fast_path_axes.
    apply undominated_scan_eq; by apply live_valid.
  - apply undominated_scan_eq; by apply live_valid.
Qed.

Lemma undominated_length reference target :
  frontier_ok target → Z.of_nat (length (undominated reference (live target))) < 2 ^ 8.
Proof.
  intros Ht. pose proof (live_length _ Ht). destruct Ht as ([_ ?] & _).
  pose proof (length_filter (λ t, epoch_of reference (axis t) < epoch t) (live target)).
  unfold undominated. lia.
Qed.

Lemma compare_correct a b :
  frontier_ok a → frontier_ok b →
  compares (iree_async_frontier_compare a b)
    (behind (live a) (live b)) (behind (live b) (live a)).
Proof.
  intros Ha Hb. pose proof (compare_scan_correct (live a) (live b) false false
    (live_valid _ Ha) (live_valid _ Hb)) as H.
  assert (∀ P, (false = true ∨ P) ↔ P) as Hf by naive_solver. rewrite !Hf in H.
  unfold iree_async_frontier_compare. destruct (_ && _) eqn:Efast; [|done].
  rewrite compare_epochs_scan; [done|done|]. by apply fast_path_axes.
Qed.

(** * Properties *)

(** Two clocks for the witnesses: {(1,3), (4,5)} and {(1,7), (2,2)} with room for four. *)
Definition sample_target : iree_async_frontier_t :=
  frontier 2 (replicate 7 0) [entry 1 3; entry 4 5; entry 0 0; entry 0 0].
Definition sample_source : iree_async_frontier_t :=
  frontier 2 (replicate 7 0) [entry 1 7; entry 2 2].

Lemma sample_target_ok : frontier_ok sample_target.
Proof. split; [done|]. split; [done|]. split; repeat constructor. Qed.

Lemma sample_source_ok : frontier_ok sample_source.
Proof. split; [done|]. split; [done|]. split; repeat constructor. Qed.

(** [iree_async_frontier_compare] classifies two valid frontiers by the vector-clock
    order on the epochs of all axes, absent axes counting as 0: EQUAL when no axis
    differs, BEFORE / AFTER when only one side is behind somewhere, CONCURRENT when both
    are. *)
Theorem compare_is_causal_order a b :
  frontier_ok a → frontier_ok b →
  match iree_async_frontier_compare a b with
  | IREE_ASYNC_FRONTIER_EQUAL => live a = live b
  | IREE_ASYNC_FRONTIER_BEFORE =>
      (∀ x, epoch_of (live a) x <= epoch_of (live b) x) ∧
      ∃ x, epoch_of (live a) x < epoch_of (live b) x
  | IREE_ASYNC_FRONTIER_AFTER =>
      (∀ x, epoch_of (live b) x <= epoch_of (live a) x) ∧
      ∃ x, epoch_of (live b) x < epoch_of (live a) x
  | IREE_ASYNC_FRONTIER_CONCURRENT =>
      (∃ x, epoch_of (live a) x < epoch_of (live b) x) ∧
      ∃ x, epoch_of (live b) x < epoch_of (live a) x
  end.
Proof.
  intros Ha Hb. pose proof (compare_correct a b Ha Hb) as H.
  destruct (iree_async_frontier_compare a b); simpl in H; rewrite ?not_behind in H;
    destruct H as [H1 H2]; [|by split..].
  apply valid_ext; [by apply live_valid..|]. intros x. specialize (H1 x). specialize (H2 x). lia.
Qed.

Lemma compare_is_causal_order_witness :
  iree_async_frontier_compare sample_target sample_source = IREE_ASYNC_FRONTIER_CONCURRENT ∧
  (∃ x, epoch_of (live sample_target) x < epoch_of (live sample_source) x) ∧
  ∃ x, epoch_of (live sample_source) x < epoch_of (live sample_target) x.
Proof.
  split; [done|].
  exact (compare_is_causal_order sample_target sample_source sample_target_ok sample_source_ok).
Defined.

(** C39: merging into a target whose storage holds the stated capacity always terminates.
    It succeeds exactly when the number of distinct axes fits; then the target is again a
    valid frontier and its clock is the component-wise maximum, the least upper bound;
    the dominance flag says whether the old target was below the source, and in that case
    the merged entries equal the source.  Otherwise the target is unchanged. *)
Theorem merge_is_least_upper_bound target capacity source :
  frontier_ok target → frontier_ok source →
  in_width 8 capacity → capacity <= Z.of_nat (length (entries target)) →
  entry_count target <= capacity →
  ∃ ok target' dominates,
    iree_async_frontier_merge_and_test_source_dominance target capacity source
      = Some (ok, target', dominates) ∧
    (ok = true ↔ Z.of_nat (size (axes (live target) ∪ axes (live source))) <= capacity) ∧
    (ok = true →
       frontier_ok target' ∧
       (∀ x, epoch_of (live target') x =
             Z.max (epoch_of (live target) x) (epoch_of (live source) x)) ∧
       (dominates = true ↔ ∀ x, epoch_of (live target) x <= epoch_of (live source) x) ∧
       (dominates = true → live target' = live source)) ∧
    (ok = false → target' = target ∧ dominates = false).
Proof.
  intros Ht Hs Hcap Hroom Hfits. pose proof (live_valid _ Ht) as Vt.
  pose proof (live_valid _ Hs) as Vs.
  destruct (merge_impl_correct target source capacity Ht Hs Hcap Hroom Hfits) as (r & E & Hr).
  exists (merge_ok r), (merge_target r), (merge_dominates r).
  unfold iree_async_frontier_merge_and_test_source_dominance. rewrite E. split; [done|].
  rewrite <- fmerge_length by done. unfold merge_outcome in Hr. case_decide as Hlen.
  - destruct Hr as (Hok & Hm & Hd). rewrite Hok. split; [done|]. split; [intros _|done].
    rewrite not_behind in Hd. pose proof (merged_into_live _ _ _ Hm) as El.
    split; [apply (merged_into_ok target source); [done..|]; destruct Hcap; lia|]. rewrite El.
    split; [intros x; by apply fmerge_epoch|]. split; [done|].
    intros Hd'. apply fmerge_dominated; [done..|]. apply not_behind. by apply Hd.
  - destruct Hr as (Hok & Hm & Hd). rewrite Hok. split; [done|]. by split.
Qed.

Lemma merge_is_least_upper_bound_witness :
  ∃ ok target' dominates,
    iree_async_frontier_merge_and_test_source_dominance sample_target 4 sample_source
      = Some (ok, target', dominates) ∧ ok = true ∧
    live target' = [entry 1 7; entry 2 2; entry 4 5] ∧ epoch_of (live target') 1 = Z.max 3 7.
Proof.
  destruct (merge_is_least_upper_bound sample_target 4 sample_source sample_target_ok
    sample_source_ok ltac:(done) ltac:(done) ltac:(done)) as (ok & t & d & E & _ & Hok & _).
  exists ok, t, d. split; [done|]. assert (ok = true) as -> by (vm_compute in E; congruence).
  split; [done|]. destruct (Hok eq_refl) as (_ & Hmax & _). split; [|apply Hmax].
  vm_compute in E. injection E as <- _. done.
Defined.

(** [iree_async_frontier_find_undominated] returns the number of target entries whose
    epoch exceeds the reference's, writes them in ascending order to the first
    [min(count, capacity)] output slots and leaves the other slots alone. *)
Theorem find_undominated_exact reference target capacity out :
  frontier_ok reference → frontier_ok target →
  capacity <= Z.of_nat (length out) →
  let found := filter (λ t, epoch_of (live reference) (axis t) < epoch t) (live target) in
  let '(out', count) := iree_async_frontier_find_undominated reference target capacity out in
  count = Z.of_nat (length found) ∧ length out' = length out ∧
  ∀ i, out' !! i = if decide (Z.of_nat i < Z.min capacity count) then found !! i else out !! i.
Proof.
  intros Hr Ht Hcap found. rewrite find_undominated_eq by done.
  pose proof (undominated_length (live reference) target Ht).
  destruct (emit_all_spec capacity (undominated (live reference) (live target)) out 0)
    as (Hc & Hl & Hi); [lia..|].
  destruct (emit_all capacity _ (out, 0)) as [out' count]. simpl in *.
  unfold found, undominated in *. split; [done|]. split; [done|]. intros i. rewrite Hi, Hc.
  rewrite Nat.sub_0_r. do 2 case_decide; done || lia.
Qed.

Lemma find_undominated_exact_witness :
  iree_async_frontier_find_undominated sample_target sample_source 1 [entry 9 9]
    = ([entry 1 7], 2) ∧
  2 = Z.of_nat (length (filter (λ t, epoch_of (live sample_target) (axis t) < epoch t)
                          (live sample_source))).
Proof.
  split; [done|].
  exact (proj1 (find_undominated_exact sample_target sample_source 1 [entry 9 9]
    sample_target_ok sample_source_ok ltac:(done))).
Defined.

(** The undominated count is 0 exactly when the comparison of the reference with the
    target is EQUAL or AFTER, so the two merge-scans agree on dominance. *)
Theorem undominated_none_iff_after reference target capacity out :
  frontier_ok reference → frontier_ok target → capacity <= Z.of_nat (length out) →
  (iree_async_frontier_find_undominated reference target capacity out).2 = 0 ↔
  iree_async_frontier_compare reference target = IREE_ASYNC_FRONTIER_EQUAL ∨
  iree_async_frontier_compare reference target = IREE_ASYNC_FRONTIER_AFTER.
Proof.
  intros Hr Ht Hcap. rewrite find_undominated_eq by done.
  pose proof (undominated_length (live reference) target Ht).
  destruct (emit_all_spec capacity (undominated (live reference) (live target)) out 0)
    as (Hc & _); [lia..|]. rewrite Hc.
  assert (0 + Z.of_nat (length (undominated (live reference) (live target))) = 0 ↔
    ¬ behind (live reference) (live target)) as ->.
  { rewrite <- undominated_nil_iff by (by apply live_valid).
    rewrite <- length_zero_iff_nil. lia. }
  pose proof (compare_correct reference target Hr Ht) as Hcmp.
  destruct (iree_async_frontier_compare reference target); simpl in Hcmp; naive_solver.
Qed.

Lemma undominated_none_iff_after_witness :
  (iree_async_frontier_find_undominated sample_target sample_target 0 []).2 = 0 ↔
  iree_async_frontier_compare sample_target sample_target = IREE_ASYNC_FRONTIER_EQUAL ∨
  iree_async_frontier_compare sample_target sample_target = IREE_ASYNC_FRONTIER_AFTER.
Proof.
  exact (undominated_none_iff_after sample_target sample_target 0 [] sample_target_ok
    sample_target_ok ltac:(done)).
Defined.

(** [iree_async_frontier_is_satisfied] holds of a valid frontier and an ascending
    array of current epochs exactly when every entry's axis has reached its epoch. *)
Theorem is_satisfied_iff_reached f current :
  frontier_ok f → ascending current →
  iree_async_frontier_is_satisfied f current = true ↔
    ∀ e, e ∈ live f → epoch e <= epoch_of current (axis e).
Proof.
  intros Hf Hc. rewrite <- Forall_forall.
  rewrite <- satisfied_scan_iff by (done || by apply live_valid).
  unfold iree_async_frontier_is_satisfied. destruct (Z.eqb_spec (entry_count f) 0); [|done].
  pose proof (live_length f Hf). assert (live f = []) as -> by (apply length_zero_iff_nil; lia).
  done.
Qed.

Lemma is_satisfied_iff_reached_witness :
  iree_async_frontier_is_satisfied sample_target [entry 1 3; entry 3 1; entry 4 9] = true ∧
  (iree_async_frontier_is_satisfied sample_target [entry 1 3; entry 4 4] = true ↔
    ∀ e, e ∈ live sample_target → epoch e <= epoch_of [entry 1 3; entry 4 4] (axis e)).
Proof.
  split; [done|]. refine (is_satisfied_iff_reached sample_target _ sample_target_ok _).
  repeat constructor.
Defined.

(** A zero-epoch entry on an axis missing from the current epochs is reported
    unsatisfied, although the missing axis counts as epoch 0. *)
Theorem is_satisfied_rejects_absent_zero a current :
  Forall (λ c, axis c ≠ a) current →
  iree_async_frontier_is_satisfied (iree_async_single_frontier_initialize a 0) current = false.
Proof.
  intros Hc. change (satisfied_scan [entry a 0] current = false).
  cbn [satisfied_scan axis epoch]. assert (∀ rest, Forall (λ c, axis c ≠ a) rest →
    match skip_smaller rest a with
    | [] => true
    | c :: _ => negb (axis c =? a)
    end = true) as H.
  { induction 1 as [|c rest Hne _ IH]; simpl; [done|].
    destruct (axis c <? a); [done|]. by rewrite (proj2 (Z.eqb_neq _ _) Hne). }
  specialize (H current Hc). destruct (skip_smaller current a) as [|c rest]; [done|].
  by rewrite H.
Qed.

Lemma is_satisfied_rejects_absent_zero_witness :
  iree_async_frontier_is_satisfied (iree_async_single_frontier_initialize 5 0) [entry 3 1]
    = false.
Proof. apply is_satisfied_rejects_absent_zero. repeat constructor. done. Defined.

(** [iree_async_frontier_validate] accepts exactly the frontiers whose live entries
    are in strictly ascending axis order with nonzero epochs, and reports
    INVALID_ARGUMENT for the others. *)
Theorem validate_iff_valid f :
  Forall (λ e, 0 <= epoch e) (live f) →
  (iree_async_frontier_validate f = Ok tt ∧ valid_entries (live f)) ∨
  (iree_async_frontier_validate f = Err IREE_STATUS_INVALID_ARGUMENT ∧
   ¬ valid_entries (live f)).
Proof.
  intros Hnn. unfold iree_async_frontier_validate, valid_entries.
  destruct (validate_ascending_ok (live f)) as [[-> ?]|[-> ?]]; [|right; tauto].
  destruct (validate_nonzero_ok (live f) Hnn) as [[E ?]|[E ?]]; [left|right];
    (split; [exact E|tauto]).
Qed.

Lemma validate_iff_valid_witness :
  iree_async_frontier_validate sample_target = Ok tt ∧ valid_entries (live sample_target).
Proof.
  destruct (validate_iff_valid sample_target) as [H|[H _]]; [repeat constructor; done|done|].
  vm_compute in H. done.
Defined.

(** The axis encoding is a bijection on its fields: every extractor returns the field
    the axis was made from, for the general and for the QUEUE-domain constructor. *)
Theorem axis_round_trip s m d o device queue incarnation :
  in_width 8 s → in_width 8 m → in_width 8 d → in_width 40 o →
  in_width 8 device → in_width 8 queue → in_width 24 incarnation →
  (let a := iree_async_axis_make s m d o in
   in_width 64 a ∧
   iree_async_axis_session a = s ∧ iree_async_axis_machine a = m ∧
   iree_async_axis_domain a = d ∧ iree_async_axis_ordinal a = o) ∧
  (let a := iree_async_axis_make_queue s m device queue incarnation in
   iree_async_axis_session a = s ∧ iree_async_axis_machine a = m ∧
   iree_async_axis_domain a = IREE_ASYNC_CAUSAL_DOMAIN_QUEUE ∧
   iree_async_axis_device_index a = device ∧ iree_async_axis_queue_index a = queue ∧
   iree_async_axis_queue_incarnation a = incarnation).
Proof.
  intros Hs Hm Hd Ho Hdev Hq Hi. split.
  - destruct (axis_make_fields s m d o Hs Hm Hd Ho) as (? & ? & ? & ? & ?). done.
  - unfold iree_async_axis_make_queue. rewrite queue_ordinal_eq by done.
    destruct Hdev, Hq, Hi.
    edestruct (axis_make_fields s m IREE_ASYNC_CAUSAL_DOMAIN_QUEUE
      ((device * 2 ^ 8 + queue) * 2 ^ 24 + incarnation)) as (_ & Es & Em & Ed & Eo);
      [done|done|done|split; lia|]. do 3 (split; [done|]).
    unfold iree_async_axis_device_index, iree_async_axis_queue_index,
      iree_async_axis_queue_incarnation, IREE_ASYNC_QUEUE_INCARNATION_MAX. rewrite !Eo.
    change 0x00FFFFFF with (2 ^ 24 - 1).
    rewrite land_ones_mod, !Z.shiftr_div_pow2 by lia. unfold wrap.
    by apply queue_fields.
Qed.

Lemma axis_round_trip_witness :
  iree_async_axis_make 1 3 IREE_ASYNC_CAUSAL_DOMAIN_HOST 7 = 0x0103030000000007 ∧
  iree_async_axis_machine (iree_async_axis_make 1 3 IREE_ASYNC_CAUSAL_DOMAIN_HOST 7) = 3 ∧
  iree_async_axis_device_index (iree_async_axis_make_queue 1 3 1 0 9) = 1.
Proof.
  destruct (axis_round_trip 1 3 IREE_ASYNC_CAUSAL_DOMAIN_HOST 7 1 0 9 ltac:(done) ltac:(done)
    ltac:(done) ltac:(done) ltac:(done) ltac:(done) ltac:(done))
    as [(_ & _ & Hm & _) (_ & _ & _ & Hd & _)].
  split; [done|]. by split.
Defined.
