(* ===== verification/Tlsf.v ===== *)
(** * The TLSF offset allocator ([runtime/src/iree/hal/memory/tlsf.h], [tlsf.c])

    Two-level segregated fit over an offset range [[0, range_length)]: block nodes in
    segments of fixed-stride storage, addressed by stable 32-bit handles; a doubly linked
    physical list in offset order; a 64 x 32 matrix of doubly linked free lists with two
    levels of bitmaps; a singly linked list of unused nodes; and a death frontier inside
    every node.  This file holds the data and every operation; the invariant and the
    theorems are in the files that require it.

    A [iree_hal_memory_tlsf_block_t*] is the handle it was obtained from: reading a field
    through the pointer is [get_block], writing is [update_block], both through the
    address computation of [iree_hal_memory_tlsf_block_at]. *)

From S2P Require Import Prelude BaseMath Allocator Frontier.
From stdpp Require Import base numbers list list_numbers.

Local Open Scope Z_scope.
Local Open Scope machine_scope.

(** ** Constants *)

Definition IREE_HAL_MEMORY_TLSF_FL_COUNT : Z := 64.
Definition IREE_HAL_MEMORY_TLSF_SL_LOG2 : Z := 5.
Definition IREE_HAL_MEMORY_TLSF_SL_COUNT : Z := 2 ^ IREE_HAL_MEMORY_TLSF_SL_LOG2.
Definition IREE_HAL_MEMORY_TLSF_DEFAULT_FRONTIER_CAPACITY : Z := 8.
Definition IREE_HAL_MEMORY_TLSF_DEFAULT_INITIAL_BLOCK_CAPACITY : Z := 64.
Definition IREE_HAL_MEMORY_TLSF_MIN_ALIGNMENT : Z := 16.

Definition UINT32_MAX : Z := 2 ^ 32 - 1.
Definition IREE_HAL_MEMORY_TLSF_BLOCK_INDEX_NONE : Z := UINT32_MAX.
Abbreviation NONE := IREE_HAL_MEMORY_TLSF_BLOCK_INDEX_NONE.

Definition IREE_HAL_MEMORY_TLSF_BLOCK_FLAG_NONE : Z := 0.
Definition IREE_HAL_MEMORY_TLSF_BLOCK_FLAG_FREE : Z := 1.
Definition IREE_HAL_MEMORY_TLSF_BLOCK_FLAG_LAST : Z := 2.
Definition IREE_HAL_MEMORY_TLSF_BLOCK_FLAG_TAINTED : Z := 4.
Abbreviation FLAG_FREE := IREE_HAL_MEMORY_TLSF_BLOCK_FLAG_FREE.
Abbreviation FLAG_LAST := IREE_HAL_MEMORY_TLSF_BLOCK_FLAG_LAST.
Abbreviation FLAG_TAINTED := IREE_HAL_MEMORY_TLSF_BLOCK_FLAG_TAINTED.

(** [flags & flag], [flags |= flag] and [flags &= ~flag] at 32 bits. *)
Definition has_flag (flags flag : Z) : bool := negb (Z.land flags flag =? 0).
Definition with_flag (flags flag : Z) : Z := Z.lor flags flag.
Definition without_flag (flags flag : Z) : Z := Z.land flags (unot 32 flag).

(** ** Data *)

(** A block node with the inline frontier that follows its fixed fields. *)
Record iree_hal_memory_tlsf_block_t := mk_block {
  blk_offset : Z;
  blk_length : Z;
  prev_physical : Z;
  next_physical : Z;
  prev_free : Z;
  next_free : Z;
  blk_flags : Z;
  blk_frontier : iree_async_frontier_t;
}.

Abbreviation block_t := iree_hal_memory_tlsf_block_t.

(** A node of zero bytes, with room for [capacity] frontier entries. *)
Definition zero_frontier (capacity : Z) : iree_async_frontier_t :=
  frontier 0 (replicate 7 0) (replicate (Z.to_nat capacity) (entry 0 0)).
Definition zero_block (capacity : Z) : block_t :=
  mk_block 0 0 0 0 0 0 0 (zero_frontier capacity).

#[export] Instance block_inhabited : Inhabited block_t := populate (zero_block 0).

(** Single-field writes. *)
Definition set_geometry (offset length : Z) (b : block_t) : block_t :=
  mk_block offset length (prev_physical b) (next_physical b) (prev_free b) (next_free b)
    (blk_flags b) (blk_frontier b).
Definition set_length (v : Z) (b : block_t) : block_t := set_geometry (blk_offset b) v b.
Definition set_prev_physical (v : Z) (b : block_t) : block_t :=
  mk_block (blk_offset b) (blk_length b) v (next_physical b) (prev_free b) (next_free b)
    (blk_flags b) (blk_frontier b).
Definition set_next_physical (v : Z) (b : block_t) : block_t :=
  mk_block (blk_offset b) (blk_length b) (prev_physical b) v (prev_free b) (next_free b)
    (blk_flags b) (blk_frontier b).
Definition set_prev_free (v : Z) (b : block_t) : block_t :=
  mk_block (blk_offset b) (blk_length b) (prev_physical b) (next_physical b) v (next_free b)
    (blk_flags b) (blk_frontier b).
Definition set_next_free (v : Z) (b : block_t) : block_t :=
  mk_block (blk_offset b) (blk_length b) (prev_physical b) (next_physical b) (prev_free b) v
    (blk_flags b) (blk_frontier b).
Definition set_flags (v : Z) (b : block_t) : block_t :=
  mk_block (blk_offset b) (blk_length b) (prev_physical b) (next_physical b) (prev_free b)
    (next_free b) v (blk_frontier b).
Definition set_frontier (v : iree_async_frontier_t) (b : block_t) : block_t :=
  mk_block (blk_offset b) (blk_length b) (prev_physical b) (next_physical b) (prev_free b)
    (next_free b) (blk_flags b) v.

Record iree_hal_memory_tlsf_options_t := {
  opt_range_length : Z;
  opt_alignment : Z;
  opt_initial_block_capacity : Z;
  opt_frontier_capacity : Z;
  opt_initial_frontier : option iree_async_frontier_t;
}.

(** An overflow capture installed by the owner: what it leaves in the target frontier,
    as a function of the inputs it captured before and of the present ones. *)
Definition overflow_handler : Type :=
  list (iree_async_frontier_t * iree_async_frontier_t) →
  iree_async_frontier_t → iree_async_frontier_t → iree_async_frontier_t.

(** The fields fixed at creation. *)
Record tlsf_config := mk_config {
  range_length : Z;
  alignment : Z;
  fl_min : Z;
  frontier_capacity : Z;
  frontier_overflow : option overflow_handler;
  block_stride : Z;
  frontier_offset : Z;
  initial_block_capacity : Z;
  initial_block_shift : Z;
}.

(** The allocator instance.  [frontier_overflow_user_data] is the capture's own record of
    the inputs it was given; [block_segment_count] is the length of [block_segments]. *)
Record iree_hal_memory_tlsf_t := mk_tlsf {
  config : tlsf_config;
  frontier_overflow_user_data : list (iree_async_frontier_t * iree_async_frontier_t);
  fl_bitmap : Z;
  sl_bitmaps : list Z;
  free_lists : list (list Z);
  block_segments : list (list block_t);
  block_capacity : Z;
  unused_node_head : Z;
  bytes_allocated : Z;
  bytes_free : Z;
  allocation_count : Z;
  free_block_count : Z;
  tainted_coalesce_count : Z;
}.

Abbreviation tlsf_t := iree_hal_memory_tlsf_t.

Definition set_captures v (t : tlsf_t) : tlsf_t :=
  mk_tlsf (config t) v (fl_bitmap t) (sl_bitmaps t) (free_lists t) (block_segments t)
    (block_capacity t) (unused_node_head t) (bytes_allocated t) (bytes_free t)
    (allocation_count t) (free_block_count t) (tainted_coalesce_count t).
Definition set_fl_bitmap v (t : tlsf_t) : tlsf_t :=
  mk_tlsf (config t) (frontier_overflow_user_data t) v (sl_bitmaps t) (free_lists t)
    (block_segments t) (block_capacity t) (unused_node_head t) (bytes_allocated t)
    (bytes_free t) (allocation_count t) (free_block_count t) (tainted_coalesce_count t).
Definition set_sl_bitmaps v (t : tlsf_t) : tlsf_t :=
  mk_tlsf (config t) (frontier_overflow_user_data t) (fl_bitmap t) v (free_lists t)
    (block_segments t) (block_capacity t) (unused_node_head t) (bytes_allocated t)
    (bytes_free t) (allocation_count t) (free_block_count t) (tainted_coalesce_count t).
Definition set_free_lists v (t : tlsf_t) : tlsf_t :=
  mk_tlsf (config t) (frontier_overflow_user_data t) (fl_bitmap t) (sl_bitmaps t) v
    (block_segments t) (block_capacity t) (unused_node_head t) (bytes_allocated t)
    (bytes_free t) (allocation_count t) (free_block_count t) (tainted_coalesce_count t).
Definition set_segments v (t : tlsf_t) : tlsf_t :=
  mk_tlsf (config t) (frontier_overflow_user_data t) (fl_bitmap t) (sl_bitmaps t)
    (free_lists t) v (block_capacity t) (unused_node_head t) (bytes_allocated t)
    (bytes_free t) (allocation_count t) (free_block_count t) (tainted_coalesce_count t).
Definition set_block_capacity v (t : tlsf_t) : tlsf_t :=
  mk_tlsf (config t) (frontier_overflow_user_data t) (fl_bitmap t) (sl_bitmaps t)
    (free_lists t) (block_segments t) v (unused_node_head t) (bytes_allocated t)
    (bytes_free t) (allocation_count t) (free_block_count t) (tainted_coalesce_count t).
Definition set_unused_node_head v (t : tlsf_t) : tlsf_t :=
  mk_tlsf (config t) (frontier_overflow_user_data t) (fl_bitmap t) (sl_bitmaps t)
    (free_lists t) (block_segments t) (block_capacity t) v (bytes_allocated t)
    (bytes_free t) (allocation_count t) (free_block_count t) (tainted_coalesce_count t).
Definition set_bytes_allocated v (t : tlsf_t) : tlsf_t :=
  mk_tlsf (config t) (frontier_overflow_user_data t) (fl_bitmap t) (sl_bitmaps t)
    (free_lists t) (block_segments t) (block_capacity t) (unused_node_head t) v
    (bytes_free t) (allocation_count t) (free_block_count t) (tainted_coalesce_count t).
Definition set_bytes_free v (t : tlsf_t) : tlsf_t :=
  mk_tlsf (config t) (frontier_overflow_user_data t) (fl_bitmap t) (sl_bitmaps t)
    (free_lists t) (block_segments t) (block_capacity t) (unused_node_head t)
    (bytes_allocated t) v (allocation_count t) (free_block_count t)
    (tainted_coalesce_count t).
Definition set_allocation_count v (t : tlsf_t) : tlsf_t :=
  mk_tlsf (config t) (frontier_overflow_user_data t) (fl_bitmap t) (sl_bitmaps t)
    (free_lists t) (block_segments t) (block_capacity t) (unused_node_head t)
    (bytes_allocated t) (bytes_free t) v (free_block_count t) (tainted_coalesce_count t).
Definition set_free_block_count v (t : tlsf_t) : tlsf_t :=
  mk_tlsf (config t) (frontier_overflow_user_data t) (fl_bitmap t) (sl_bitmaps t)
    (free_lists t) (block_segments t) (block_capacity t) (unused_node_head t)
    (bytes_allocated t) (bytes_free t) (allocation_count t) v (tainted_coalesce_count t).
Definition set_tainted_coalesce_count v (t : tlsf_t) : tlsf_t :=
  mk_tlsf (config t) (frontier_overflow_user_data t) (fl_bitmap t) (sl_bitmaps t)
    (free_lists t) (block_segments t) (block_capacity t) (unused_node_head t)
    (bytes_allocated t) (bytes_free t) (allocation_count t) (free_block_count t) v.

(** ** Block storage *)

(** The (segment, slot) of a handle. *)
Definition iree_hal_memory_tlsf_block_at (t : tlsf_t) (index : Z) : Z * Z :=
  if initial_block_capacity (config t) <=? index then
    let shift := 31 - iree_math_count_leading_zeros_u32 index in
    let segment := uadd 32 (usub 32 shift (initial_block_shift (config t))) 1 in
    (segment, usub 32 index (ushl 32 1 shift))
  else (0, index).

Definition get_block (t : tlsf_t) (index : Z) : block_t :=
  let address := iree_hal_memory_tlsf_block_at t index in
  (block_segments t !!! Z.to_nat address.1) !!! Z.to_nat address.2.

Definition update_block (index : Z) (f : block_t → block_t) (t : tlsf_t) : tlsf_t :=
  let address := iree_hal_memory_tlsf_block_at t index in
  set_segments (alter (alter f (Z.to_nat address.2)) (Z.to_nat address.1) (block_segments t)) t.

Definition iree_hal_memory_tlsf_alloc_node (t : tlsf_t) : Z * tlsf_t :=
  let index := unused_node_head t in
  let t := set_unused_node_head (next_free (get_block t index)) t in
  let t := update_block index (λ _, zero_block (frontier_capacity (config t))) t in
  (index, t).

Definition iree_hal_memory_tlsf_free_node (index : Z) (t : tlsf_t) : tlsf_t :=
  let t := update_block index (λ _, zero_block (frontier_capacity (config t))) t in
  let t := update_block index (set_next_free (unused_node_head t)) t in
  set_unused_node_head index t.

(** ** Size classes *)

Definition iree_hal_memory_tlsf_mapping_insert (length : Z) : Z * Z :=
  let fl := 63 - iree_math_count_leading_zeros_u64 length in
  let sl_shift :=
    if IREE_HAL_MEMORY_TLSF_SL_LOG2 <? fl then fl - IREE_HAL_MEMORY_TLSF_SL_LOG2 else 0 in
  (wrap 8 fl, wrap 8 (Z.land (Z.shiftr length sl_shift) (IREE_HAL_MEMORY_TLSF_SL_COUNT - 1))).

(** [None] is the [false] return. *)
Definition iree_hal_memory_tlsf_mapping_search (length : Z) : option (Z * Z) :=
  let fl := 63 - iree_math_count_leading_zeros_u64 length in
  if IREE_HAL_MEMORY_TLSF_SL_LOG2 <? fl then
    let sl_shift := fl - IREE_HAL_MEMORY_TLSF_SL_LOG2 in
    let rounding := ushl 64 1 sl_shift -64 1 in
    if IREE_DEVICE_SIZE_MAX -64 rounding <? length then None
    else
      let rounded := length +64 rounding in
      let new_fl := 63 - iree_math_count_leading_zeros_u64 rounded in
      if negb (new_fl =? fl) then Some (wrap 8 new_fl, 0)
      else Some (wrap 8 fl,
                 wrap 8 (Z.land (Z.shiftr rounded sl_shift) (IREE_HAL_MEMORY_TLSF_SL_COUNT - 1)))
  else Some (wrap 8 fl, wrap 8 (Z.land length (IREE_HAL_MEMORY_TLSF_SL_COUNT - 1))).

(** ** Free lists *)

Definition free_list_head (t : tlsf_t) (fl sl : Z) : Z :=
  (free_lists t !!! Z.to_nat fl) !!! Z.to_nat sl.
Definition set_free_list_head (fl sl v : Z) (t : tlsf_t) : tlsf_t :=
  set_free_lists (alter (alter (λ _, v) (Z.to_nat sl)) (Z.to_nat fl) (free_lists t)) t.
Definition sl_bitmap (t : tlsf_t) (fl : Z) : Z := sl_bitmaps t !!! Z.to_nat fl.
Definition set_sl_bitmap (fl v : Z) (t : tlsf_t) : tlsf_t :=
  set_sl_bitmaps (<[Z.to_nat fl := v]> (sl_bitmaps t)) t.

Definition iree_hal_memory_tlsf_insert_free_block (index : Z) (t : tlsf_t) : tlsf_t :=
  let '(fl, sl) := iree_hal_memory_tlsf_mapping_insert (blk_length (get_block t index)) in
  let old_head := free_list_head t fl sl in
  let t := update_block index (set_prev_free NONE) t in
  let t := update_block index (set_next_free old_head) t in
  let t := if negb (old_head =? NONE) then update_block old_head (set_prev_free index) t else t in
  let t := set_free_list_head fl sl index t in
  let t := set_fl_bitmap (Z.lor (fl_bitmap t) (ushl 64 1 fl)) t in
  let t := set_sl_bitmap fl (Z.lor (sl_bitmap t fl) (ushl 32 1 sl)) t in
  set_free_block_count (uadd 32 (free_block_count t) 1) t.

Definition iree_hal_memory_tlsf_remove_free_block (index : Z) (t : tlsf_t) : tlsf_t :=
  let block := get_block t index in
  let '(fl, sl) := iree_hal_memory_tlsf_mapping_insert (blk_length block) in
  let t :=
    if negb (prev_free block =? NONE)
    then update_block (prev_free block) (set_next_free (next_free block)) t
    else set_free_list_head fl sl (next_free block) t in
  let t :=
    if negb (next_free block =? NONE)
    then update_block (next_free block) (set_prev_free (prev_free block)) t else t in
  let t := update_block index (set_prev_free NONE) t in
  let t := update_block index (set_next_free NONE) t in
  let t :=
    if free_list_head t fl sl =? NONE then
      let t := set_sl_bitmap fl (Z.land (sl_bitmap t fl) (unot 32 (ushl 32 1 sl))) t in
      if sl_bitmap t fl =? 0
      then set_fl_bitmap (Z.land (fl_bitmap t) (unot 64 (ushl 64 1 fl))) t else t
    else t in
  set_free_block_count (usub 32 (free_block_count t) 1) t.

Definition iree_hal_memory_tlsf_find_suitable_block (t : tlsf_t) (length : Z) : Z :=
  let '(fl, sl) := iree_hal_memory_tlsf_mapping_insert length in
  let containing_head := free_list_head t fl sl in
  let fits :=
    if negb (containing_head =? NONE)
    then length <=? blk_length (get_block t containing_head) else false in
  if fits then containing_head
  else
    match iree_hal_memory_tlsf_mapping_search length with
    | None => NONE
    | Some (fl, sl) =>
        let sl_map := Z.land (sl_bitmap t fl) (ushl 32 (umax 32) sl) in
        if negb (sl_map =? 0) then
          let found_sl := iree_math_count_trailing_zeros_u32 sl_map in
          free_list_head t fl found_sl
        else
          let fl_map := Z.land (fl_bitmap t) (unot 64 (iree_shr 64 (umax 64) (63 - fl))) in
          if fl_map =? 0 then NONE
          else
            let found_fl := iree_math_count_trailing_zeros_u64 fl_map in
            let found_sl := iree_math_count_trailing_zeros_u32 (sl_bitmap t found_fl) in
            free_list_head t found_fl found_sl
    end.

(** ** Frontiers of blocks *)

(** [frontier->entry_count = 0] *)
Definition clear_entry_count (f : iree_async_frontier_t) : iree_async_frontier_t :=
  frontier 0 (reserved f) (entries f).

(** [iree_hal_memory_tlsf_merge_frontiers] on the block with handle [target].  The merge
    is total; its [None] branch, running out of fuel, is excluded by
    [merge_impl_correct]. *)
Definition iree_hal_memory_tlsf_merge_frontiers
    (target : Z) (source_frontier : option iree_async_frontier_t) (t : tlsf_t) : tlsf_t :=
  match source_frontier with
  | None => t
  | Some source =>
      if entry_count source =? 0 then t
      else if has_flag (blk_flags (get_block t target)) FLAG_TAINTED then t
      else
        let target_frontier := blk_frontier (get_block t target) in
        match iree_async_frontier_merge target_frontier (frontier_capacity (config t)) source with
        | None => t
        | Some (true, merged) => update_block target (set_frontier merged) t
        | Some (false, _) =>
            match frontier_overflow (config t) with
            | Some handler =>
                let captures := frontier_overflow_user_data t in
                let t := update_block target
                           (set_frontier (handler captures target_frontier source)) t in
                set_captures ((target_frontier, source) :: captures) t
            | None =>
                let t := update_block target
                           (λ b, set_flags (with_flag (blk_flags b) FLAG_TAINTED) b) t in
                let t := update_block target
                           (λ b, set_frontier (clear_entry_count (blk_frontier b)) b) t in
                set_tainted_coalesce_count (tainted_coalesce_count t +64 1) t
            end
        end
  end.

(** ** Initialization *)

(** [sizeof(iree_hal_memory_tlsf_block_t)] and its trailing frontier, as laid out by
    [iree_hal_memory_tlsf_initialize]: [(frontier_offset, block_stride)]. *)
Definition tlsf_block_layout (frontier_capacity : Z) : status_or (Z * Z) :=
  match iree_struct_layout_calculate 40
    [ {| field_count0 := 1; field_count1 := 1; field_element_size := 8; field_alignment := 8 |};
      {| field_count0 := frontier_capacity; field_count1 := 1;
         field_element_size := 16; field_alignment := 0 |} ] with
  | Ok (offsets, total) => Ok (hd 0 offsets, total)
  | Err code => Err code
  end.

(** Rounding the initial node capacity to a power of two, or to the handle limit. *)
Definition tlsf_initial_capacity (requested : Z) : status_or Z :=
  let initial_capacity :=
    if requested =? 0 then IREE_HAL_MEMORY_TLSF_DEFAULT_INITIAL_BLOCK_CAPACITY else requested in
  if UINT32_MAX <? initial_capacity then Err IREE_STATUS_INVALID_ARGUMENT
  else if 2 ^ 31 <? initial_capacity then Ok UINT32_MAX
  else if 1 <? initial_capacity then
    Ok (ushl 64 1 (32 - iree_math_count_leading_zeros_u32 (usub 32 initial_capacity 1)))
  else Ok initial_capacity.

(** The option checks, in order; [Ok] is the options with defaults and rounding applied. *)
Definition tlsf_validate_options (options : iree_hal_memory_tlsf_options_t)
    : status_or iree_hal_memory_tlsf_options_t :=
  if opt_range_length options =? 0 then Err IREE_STATUS_INVALID_ARGUMENT
  else
    let alignment :=
      if opt_alignment options =? 0 then IREE_HAL_MEMORY_TLSF_MIN_ALIGNMENT
      else opt_alignment options in
    if alignment <? IREE_HAL_MEMORY_TLSF_MIN_ALIGNMENT then Err IREE_STATUS_INVALID_ARGUMENT
    else if negb (iree_device_size_is_power_of_two alignment) then
      Err IREE_STATUS_INVALID_ARGUMENT
    else if opt_range_length options <? alignment then Err IREE_STATUS_INVALID_ARGUMENT
    else
      let range_length := Z.land (opt_range_length options) (unot 64 (alignment -64 1)) in
      let frontier_capacity :=
        if opt_frontier_capacity options =? 0
        then IREE_HAL_MEMORY_TLSF_DEFAULT_FRONTIER_CAPACITY
        else opt_frontier_capacity options in
      let too_wide :=
        match opt_initial_frontier options with
        | Some f => frontier_capacity <? entry_count f
        | None => false
        end in
      if too_wide then Err IREE_STATUS_OUT_OF_RANGE
      else Ok {| opt_range_length := range_length; opt_alignment := alignment;
                 opt_initial_block_capacity := opt_initial_block_capacity options;
                 opt_frontier_capacity := frontier_capacity;
                 opt_initial_frontier := opt_initial_frontier options |}.

(** The loop that links nodes [1 .. initial_capacity - 1] into the unused list. *)
Definition link_unused_nodes (count : Z) (t : tlsf_t) : tlsf_t :=
  foldl (λ t i, set_unused_node_head i (update_block i (set_next_free (unused_node_head t)) t))
    t (seqZ 1 (count - 1)).

(** The initial block over the whole range, and its insertion. *)
Definition tlsf_initial_block (range_length : Z) (initial_frontier : option iree_async_frontier_t)
    (b : block_t) : block_t :=
  let f := match initial_frontier with
           | Some f => copy_frontier f (blk_frontier b)
           | None => iree_async_frontier_initialize (blk_frontier b) 0
           end in
  mk_block 0 range_length NONE NONE NONE NONE (with_flag FLAG_FREE FLAG_LAST) f.

(** The instance over zeroed block storage, before any node is linked. *)
Definition tlsf_fresh (options : iree_hal_memory_tlsf_options_t)
    (frontier_offset block_stride initial_capacity : Z) : tlsf_t :=
  {| config :=
       {| range_length := opt_range_length options;
          alignment := opt_alignment options;
          fl_min := wrap 8 (iree_math_count_trailing_zeros_u64 (opt_alignment options));
          frontier_capacity := opt_frontier_capacity options;
          frontier_overflow := None;
          block_stride := block_stride;
          frontier_offset := frontier_offset;
          initial_block_capacity := initial_capacity;
          initial_block_shift :=
            wrap 8 (31 - iree_math_count_leading_zeros_u32 initial_capacity) |};
     frontier_overflow_user_data := [];
     fl_bitmap := 0;
     sl_bitmaps := replicate (Z.to_nat IREE_HAL_MEMORY_TLSF_FL_COUNT) 0;
     free_lists := replicate (Z.to_nat IREE_HAL_MEMORY_TLSF_FL_COUNT)
                     (replicate (Z.to_nat IREE_HAL_MEMORY_TLSF_SL_COUNT) NONE);
     block_segments :=
       [replicate (Z.to_nat initial_capacity) (zero_block (opt_frontier_capacity options))];
     block_capacity := initial_capacity;
     unused_node_head := NONE;
     bytes_allocated := 0;
     bytes_free := opt_range_length options;
     allocation_count := 0;
     free_block_count := 0;
     tainted_coalesce_count := 0 |}.

Definition iree_hal_memory_tlsf_initialize (options : iree_hal_memory_tlsf_options_t)
    (host_allocator : iree_allocator_t) : status_or tlsf_t :=
  options ← tlsf_validate_options options;
  '(frontier_offset, block_stride) ← tlsf_block_layout (opt_frontier_capacity options);
  initial_capacity ← tlsf_initial_capacity (opt_initial_block_capacity options);
  _ ← iree_allocator_malloc_array host_allocator initial_capacity block_stride;
  let t := tlsf_fresh options frontier_offset block_stride initial_capacity in
  let t := link_unused_nodes initial_capacity t in
  let t := update_block 0
             (tlsf_initial_block (opt_range_length options) (opt_initial_frontier options)) t in
  Ok (iree_hal_memory_tlsf_insert_free_block 0 t).

(** ** Metadata growth *)

Record iree_hal_memory_tlsf_growth_t := mk_growth {
  growth_storage : list block_t;
  growth_block_stride : Z;
  growth_first_block : Z;
  growth_block_count : Z;
}.

Definition iree_hal_memory_tlsf_query_growth (t : tlsf_t) (block_index aligned_length : Z)
    : iree_hal_memory_tlsf_growth_t :=
  if negb (unused_node_head t =? NONE) ||
     (blk_length (get_block t block_index) -64 aligned_length <? alignment (config t))
  then mk_growth [] 0 0 0
  else mk_growth [] (block_stride (config t)) (block_capacity t)
         (iree_min (block_capacity t) (usub 32 UINT32_MAX (block_capacity t))).

(** Fresh nodes in a detached chain, each linked to the one below it. *)
Definition growth_nodes (capacity first_block count : Z) : list block_t :=
  (λ i, set_next_free (if i =? 0 then NONE else usub 32 (uadd 32 first_block i) 1)
          (zero_block capacity)) <$> seqZ 0 count.

(** [capacity] is the frontier capacity that the stride was computed from. *)
Definition iree_hal_memory_tlsf_prepare_growth (capacity : Z)
    (growth : iree_hal_memory_tlsf_growth_t) (host_allocator : iree_allocator_t)
    : status_or iree_hal_memory_tlsf_growth_t :=
  if growth_block_count growth =? 0 then Err IREE_STATUS_RESOURCE_EXHAUSTED
  else
    _ ← iree_allocator_malloc_array host_allocator
          (growth_block_count growth) (growth_block_stride growth);
    Ok (mk_growth
          (growth_nodes capacity (growth_first_block growth) (growth_block_count growth))
          (growth_block_stride growth) (growth_first_block growth) (growth_block_count growth)).

(** The [bool], the allocator and the growth descriptor afterwards. *)
Definition iree_hal_memory_tlsf_apply_growth (t : tlsf_t)
    (growth : iree_hal_memory_tlsf_growth_t) : bool * tlsf_t * iree_hal_memory_tlsf_growth_t :=
  if negb (growth_first_block growth =? block_capacity t) ||
     negb (growth_block_stride growth =? block_stride (config t))
  then (false, t, growth)
  else
    let storage := alter (set_next_free (unused_node_head t)) 0%nat (growth_storage growth) in
    let t := set_segments (block_segments t ++ [storage]) t in
    let t := set_block_capacity (uadd 32 (block_capacity t) (growth_block_count growth)) t in
    let t := set_unused_node_head (usub 32 (block_capacity t) 1) t in
    (true, t, mk_growth [] (growth_block_stride growth) (growth_first_block growth)
                (growth_block_count growth)).

(** ** Allocation *)

Record iree_hal_memory_tlsf_allocation_t := mk_allocation {
  alloc_offset : Z;
  alloc_length : Z;
  alloc_block_index : Z;
  alloc_death_frontier : option iree_async_frontier_t;
  alloc_block_flags : Z;
}.

(** [frontier->entry_count > 0 ? frontier : NULL] *)
Definition nonempty_frontier (f : iree_async_frontier_t) : option iree_async_frontier_t :=
  if 0 <? entry_count f then Some f else None.

(** The split: the remainder node is linked after the block and inserted. *)
Definition tlsf_split (block_index aligned_length remainder remainder_index : Z) (t : tlsf_t)
    : tlsf_t :=
  let block := get_block t block_index in
  let t := update_block remainder_index
    (set_geometry (blk_offset block +64 aligned_length) remainder) t in
  let t := update_block remainder_index (set_prev_physical block_index) t in
  let t := update_block remainder_index (set_next_physical (next_physical block)) t in
  let t := update_block remainder_index
    (set_flags (with_flag FLAG_FREE (Z.land (blk_flags block) FLAG_TAINTED))) t in
  let t :=
    if has_flag (blk_flags block) FLAG_LAST then
      let t := update_block remainder_index
        (λ b, set_flags (with_flag (blk_flags b) FLAG_LAST) b) t in
      update_block block_index (λ b, set_flags (without_flag (blk_flags b) FLAG_LAST) b) t
    else t in
  let right := next_physical (get_block t remainder_index) in
  let t := if negb (right =? NONE)
           then update_block right (set_prev_physical remainder_index) t else t in
  let t := update_block block_index (set_next_physical remainder_index) t in
  let t := update_block block_index (set_length aligned_length) t in
  let t := update_block remainder_index
    (λ b, set_frontier (copy_frontier (blk_frontier (get_block t block_index))
                                      (blk_frontier b)) b) t in
  let t := iree_hal_memory_tlsf_insert_free_block remainder_index t in
  set_bytes_free (bytes_free t -64 aligned_length) t.

Definition iree_hal_memory_tlsf_allocate_block (t : tlsf_t) (block_index aligned_length : Z)
    : iree_hal_memory_tlsf_allocation_t * tlsf_t :=
  let remainder := blk_length (get_block t block_index) -64 aligned_length in
  let '(remainder_index, t) :=
    if alignment (config t) <=? remainder then iree_hal_memory_tlsf_alloc_node t
    else (NONE, t) in
  let t := iree_hal_memory_tlsf_remove_free_block block_index t in
  let t :=
    if negb (remainder_index =? NONE)
    then tlsf_split block_index aligned_length remainder remainder_index t
    else set_bytes_free (bytes_free t -64 blk_length (get_block t block_index)) t in
  let t := update_block block_index
    (λ b, set_flags (without_flag (blk_flags b) FLAG_FREE) b) t in
  let block := get_block t block_index in
  let allocation :=
    mk_allocation (blk_offset block) (blk_length block) block_index
      (nonempty_frontier (blk_frontier block)) (blk_flags block) in
  let t := set_bytes_allocated (bytes_allocated t +64 blk_length block) t in
  (allocation, set_allocation_count (uadd 32 (allocation_count t) 1) t).

(** [None] is [ALLOCATE_EXHAUSTED], which leaves a zeroed allocation record. *)
Definition iree_hal_memory_tlsf_try_allocate
    (t : tlsf_t) (length : Z) (host_allocator : iree_allocator_t)
    : status_or (option iree_hal_memory_tlsf_allocation_t) * tlsf_t :=
  if length =? 0 then (Err IREE_STATUS_INVALID_ARGUMENT, t)
  else if IREE_DEVICE_SIZE_MAX -64 (alignment (config t) -64 1) <? length then
    (Err IREE_STATUS_OUT_OF_RANGE, t)
  else
    let aligned_length := iree_device_align length (alignment (config t)) in
    let aligned_length :=
      if aligned_length <? alignment (config t) then alignment (config t) else aligned_length in
    let block_index := iree_hal_memory_tlsf_find_suitable_block t aligned_length in
    if block_index =? NONE then (Ok None, t)
    else
      let growth := iree_hal_memory_tlsf_query_growth t block_index aligned_length in
      let grown :=
        if negb (growth_first_block growth =? 0) then
          growth ← iree_hal_memory_tlsf_prepare_growth (frontier_capacity (config t)) growth
                     host_allocator;
          Ok (iree_hal_memory_tlsf_apply_growth t growth).1.2
        else Ok t in
      match grown with
      | Err code => (Err code, t)
      | Ok t =>
          let '(allocation, t) := iree_hal_memory_tlsf_allocate_block t block_index aligned_length in
          (Ok (Some allocation), t)
      end.

Definition iree_hal_memory_tlsf_allocate
    (t : tlsf_t) (length : Z) (host_allocator : iree_allocator_t)
    : status_or iree_hal_memory_tlsf_allocation_t * tlsf_t :=
  match iree_hal_memory_tlsf_try_allocate t length host_allocator with
  | (Err code, t) => (Err code, t)
  | (Ok None, t) => (Err IREE_STATUS_RESOURCE_EXHAUSTED, t)
  | (Ok (Some allocation), t) => (Ok allocation, t)
  end.

(** ** Release *)

(** The metadata of a block that is freed with [death_frontier] (and not restored): taint
    is cleared and the frontier is replaced. *)
Definition tlsf_replace_frontier (block_index : Z)
    (death_frontier : option iree_async_frontier_t) (t : tlsf_t) : tlsf_t :=
  let t := update_block block_index
    (λ b, set_flags (without_flag (blk_flags b) FLAG_TAINTED) b) t in
  let clear t := update_block block_index
    (λ b, set_frontier (iree_async_frontier_initialize (blk_frontier b) 0) b) t in
  match death_frontier with
  | Some death =>
      if 0 <? entry_count death then
        if entry_count death <=? frontier_capacity (config t) then
          update_block block_index (λ b, set_frontier (copy_frontier death (blk_frontier b)) b) t
        else iree_hal_memory_tlsf_merge_frontiers block_index (Some death) (clear t)
      else clear t
  | None => clear t
  end.

(** Absorbs the free block [right_index] into its left neighbor [block_index]: the body
    of both coalescing steps, which differ only in which of the two blocks is current. *)
Definition tlsf_absorb (block_index right_index : Z) (t : tlsf_t) : tlsf_t :=
  let t := iree_hal_memory_tlsf_merge_frontiers block_index
    (Some (blk_frontier (get_block t right_index))) t in
  let right_block := get_block t right_index in
  let t := update_block block_index
    (λ b, set_length (blk_length b +64 blk_length right_block) b) t in
  let t :=
    if has_flag (blk_flags right_block) FLAG_LAST
    then update_block block_index (λ b, set_flags (with_flag (blk_flags b) FLAG_LAST) b) t
    else t in
  let t :=
    if has_flag (blk_flags right_block) FLAG_TAINTED then
      let t := update_block block_index
        (λ b, set_flags (with_flag (blk_flags b) FLAG_TAINTED) b) t in
      update_block block_index (λ b, set_frontier (clear_entry_count (blk_frontier b)) b) t
    else t in
  let t := update_block block_index (set_next_physical (next_physical right_block)) t in
  let t :=
    if negb (next_physical right_block =? NONE)
    then update_block (next_physical right_block) (set_prev_physical block_index) t else t in
  iree_hal_memory_tlsf_free_node right_index t.

(** Right coalescing: a free right neighbor leaves its list and is absorbed. *)
Definition tlsf_coalesce_right (block_index : Z) (t : tlsf_t) : tlsf_t :=
  if negb (has_flag (blk_flags (get_block t block_index)) FLAG_LAST) then
    let right_index := next_physical (get_block t block_index) in
    if negb (right_index =? NONE) then
      if has_flag (blk_flags (get_block t right_index)) FLAG_FREE then
        let t := iree_hal_memory_tlsf_remove_free_block right_index t in
        tlsf_absorb block_index right_index t
      else t
    else t
  else t.

(** Left coalescing: a free left neighbor leaves its list and absorbs the block; also
    the block to insert. *)
Definition tlsf_coalesce_left (block_index : Z) (t : tlsf_t) : Z * tlsf_t :=
  let left_index := prev_physical (get_block t block_index) in
  if negb (left_index =? NONE) then
    if has_flag (blk_flags (get_block t left_index)) FLAG_FREE then
      let t := iree_hal_memory_tlsf_remove_free_block left_index t in
      (left_index, tlsf_absorb left_index block_index t)
    else (block_index, t)
  else (block_index, t).

Definition iree_hal_memory_tlsf_free_impl (t : tlsf_t) (block_index : Z)
    (death_frontier : option iree_async_frontier_t) (preserve_block_metadata : bool) : tlsf_t :=
  let length := blk_length (get_block t block_index) in
  let t := set_bytes_allocated (bytes_allocated t -64 length) t in
  let t := set_bytes_free (bytes_free t +64 length) t in
  let t := set_allocation_count (usub 32 (allocation_count t) 1) t in
  let t := update_block block_index (λ b, set_flags (with_flag (blk_flags b) FLAG_FREE) b) t in
  let t := if negb preserve_block_metadata
           then tlsf_replace_frontier block_index death_frontier t else t in
  let t := tlsf_coalesce_right block_index t in
  let '(block_index, t) := tlsf_coalesce_left block_index t in
  iree_hal_memory_tlsf_insert_free_block block_index t.

Definition iree_hal_memory_tlsf_free (t : tlsf_t) (block_index : Z)
    (death_frontier : option iree_async_frontier_t) : tlsf_t :=
  iree_hal_memory_tlsf_free_impl t block_index death_frontier false.

Definition iree_hal_memory_tlsf_restore (t : tlsf_t) (block_index : Z) : tlsf_t :=
  iree_hal_memory_tlsf_free_impl t block_index None true.

(** ** Queries *)

Record iree_hal_memory_tlsf_stats_t := mk_stats {
  stats_bytes_allocated : Z;
  stats_bytes_free : Z;
  stats_allocation_count : Z;
  stats_free_block_count : Z;
  stats_tainted_coalesce_count : Z;
}.

Definition iree_hal_memory_tlsf_query_stats (t : tlsf_t) : iree_hal_memory_tlsf_stats_t :=
  mk_stats (bytes_allocated t) (bytes_free t) (allocation_count t) (free_block_count t)
    (tainted_coalesce_count t).

Definition iree_hal_memory_tlsf_block_death_frontier (t : tlsf_t) (block_index : Z)
    : option iree_async_frontier_t :=
  nonempty_frontier (blk_frontier (get_block t block_index)).

Definition iree_hal_memory_tlsf_block_flags (t : tlsf_t) (block_index : Z) : Z :=
  blk_flags (get_block t block_index).

(** [None] is [false]; otherwise the frontier and the flags of the block. *)
Definition iree_hal_memory_tlsf_query_full_free_block (t : tlsf_t)
    : option (option iree_async_frontier_t * Z) :=
  if negb (allocation_count t =? 0) || negb (free_block_count t =? 1) ||
     negb (bytes_free t =? range_length (config t))
  then None
  else Some (iree_hal_memory_tlsf_block_death_frontier t 0, blk_flags (get_block t 0)).

Definition iree_hal_memory_tlsf_merge_full_free_frontier (t : tlsf_t)
    (f : option iree_async_frontier_t) : tlsf_t :=
  iree_hal_memory_tlsf_merge_frontiers 0 f t.

Definition iree_hal_memory_tlsf_reset (t : tlsf_t)
    (initial_frontier : option iree_async_frontier_t) : tlsf_t :=
  let t := update_block 0 (set_flags (with_flag FLAG_FREE FLAG_LAST)) t in
  let t := update_block 0
    (λ b, set_frontier
            (match initial_frontier with
             | Some f => copy_frontier f (blk_frontier b)
             | None => iree_async_frontier_initialize (blk_frontier b) 0
             end) b) t in
  set_tainted_coalesce_count 0 t.

Definition iree_hal_memory_tlsf_largest_free_block (t : tlsf_t) : Z :=
  if fl_bitmap t =? 0 then 0
  else
    let fl := 63 - iree_math_count_leading_zeros_u64 (fl_bitmap t) in
    let sl := 31 - iree_math_count_leading_zeros_u32 (sl_bitmap t fl) in
    blk_length (get_block t (free_list_head t fl sl)).

Record iree_hal_memory_tlsf_candidate_t := mk_candidate {
  candidate_block_index : Z;
  candidate_block_flags : Z;
  candidate_death_frontier : option iree_async_frontier_t;
}.

Definition no_candidate : iree_hal_memory_tlsf_candidate_t := mk_candidate NONE 0 None.

(** The next nonempty bin after [(fl, sl)]. *)
Definition tlsf_next_bin (t : tlsf_t) (fl sl : Z) : option (Z * Z) :=
  let sl_map := Z.land (sl_bitmap t fl) (unot 32 (iree_shr 32 (umax 32) (31 - sl))) in
  if sl_map =? 0 then
    let fl_map := Z.land (fl_bitmap t) (unot 64 (iree_shr 64 (umax 64) (63 - fl))) in
    if fl_map =? 0 then None
    else
      let fl := wrap 8 (iree_math_count_trailing_zeros_u64 fl_map) in
      Some (fl, wrap 8 (iree_math_count_trailing_zeros_u32 (sl_bitmap t fl)))
  else Some (fl, wrap 8 (iree_math_count_trailing_zeros_u32 sl_map)).

(** Both loops of the query: along a list, then to the next nonempty bin. *)
Fixpoint query_free_block_loop (fuel : nat) (t : tlsf_t) (minimum_length fl sl block_index : Z)
    : option iree_hal_memory_tlsf_candidate_t :=
  match fuel with
  | O => None
  | S fuel =>
      if negb (block_index =? NONE) then
        let block := get_block t block_index in
        if minimum_length <=? blk_length block then
          Some (mk_candidate block_index (blk_flags block)
                  (if entry_count (blk_frontier block) =? 0 then None
                   else Some (blk_frontier block)))
        else query_free_block_loop fuel t minimum_length fl sl (next_free block)
      else
        match tlsf_next_bin t fl sl with
        | None => Some no_candidate
        | Some (fl, sl) =>
            query_free_block_loop fuel t minimum_length fl sl (free_list_head t fl sl)
        end
  end.

Definition iree_hal_memory_tlsf_query_free_block (fuel : nat) (t : tlsf_t)
    (minimum_length after_block : Z) : option iree_hal_memory_tlsf_candidate_t :=
  if after_block =? NONE then
    let '(fl, sl) := iree_hal_memory_tlsf_mapping_insert minimum_length in
    query_free_block_loop fuel t minimum_length fl sl (free_list_head t fl sl)
  else
    let after := get_block t after_block in
    let '(fl, sl) := iree_hal_memory_tlsf_mapping_insert (blk_length after) in
    query_free_block_loop fuel t minimum_length fl sl (next_free after).
