(* ===== verification/TlsfMapping.v ===== *)
(** * Size classes of the TLSF allocator

    The two-level mapping from block lengths to free lists: the bin of a length, the
    least length of a bin, the order of bins, and what the rounding of the search
    guarantees about every bin at or above the one it names. *)

From S2P Require Import Prelude BaseMath Allocator Frontier Tlsf.
From stdpp Require Import base numbers list.

Local Open Scope Z_scope.

(** Low bits that the second level ignores. *)
Definition sl_shift (n : Z) : Z := Z.max 0 (Z.log2 n - 5).

(** The least length in the bin of [n]. *)
Definition size_floor (n : Z) : Z := n - n mod 2 ^ sl_shift n.

(** Bins in search order. *)
Definition bin_key (bin : Z * Z) : Z := bin.1 * 32 + bin.2.

(** Valid list coordinates. *)
Definition bin_ok (bin : Z * Z) : Prop := 0 <= bin.1 < 64 ∧ 0 <= bin.2 < 32.

Lemma sl_quotient n :
  0 < n → let q := n / 2 ^ sl_shift n in
  if decide (5 <= Z.log2 n) then 32 <= q < 64 else q = n ∧ 0 <= q < 32.
Proof.
  intros Hn q. unfold q, sl_shift. pose proof (Z.log2_spec n Hn) as [Hlo Hhi].
  case_decide as H5.
  - rewrite Z.max_r by lia. set (s := Z.log2 n - 5) in *.
    replace (Z.log2 n) with (s + 5) in * by lia.
    replace (Z.succ (s + 5)) with (s + 6) in * by lia.
    rewrite !Z.pow_add_r in * by lia. pose proof (pow2_pos s ltac:(lia)).
    split; [apply Z.div_le_lower_bound; lia|apply Z.div_lt_upper_bound; lia].
  - rewrite Z.max_l by lia. rewrite Z.div_1_r. split; [done|]. split; [lia|].
    pose proof (Z.pow_le_mono_r 2 (Z.succ (Z.log2 n)) 5). lia.
Qed.

Lemma mod32_high q : 32 <= q < 64 → q mod 32 = q - 32.
Proof. intros. symmetry. apply (Z.mod_unique q 32 1); lia. Qed.

Lemma mapping_insert_eq n :
  0 < n → in_width 64 n →
  iree_hal_memory_tlsf_mapping_insert n = (Z.log2 n, (n / 2 ^ sl_shift n) mod 32).
Proof.
  intros Hn Hw. pose proof (log2_bound 64 n ltac:(lia) Hw).
  unfold iree_hal_memory_tlsf_mapping_insert, IREE_HAL_MEMORY_TLSF_SL_LOG2.
  rewrite clz64_log2 by done.
  replace (if 5 <? Z.log2 n then Z.log2 n - 5 else 0) with (sl_shift n)
    by (unfold sl_shift; destruct (Z.ltb_spec 5 (Z.log2 n)); lia).
  change (IREE_HAL_MEMORY_TLSF_SL_COUNT - 1) with (2 ^ 5 - 1).
  rewrite land_ones_mod, Z.shiftr_div_pow2 by (unfold sl_shift; lia).
  pose proof (Z.mod_pos_bound (n / 2 ^ sl_shift n) (2 ^ 5) ltac:(lia)).
  rewrite !wrap_small by (split; lia). done.
Qed.

Lemma mapping_insert_ok n :
  0 < n → in_width 64 n → bin_ok (iree_hal_memory_tlsf_mapping_insert n).
Proof.
  intros Hn Hw. rewrite mapping_insert_eq by done. split; simpl.
  - by apply log2_bound.
  - apply Z.mod_pos_bound. lia.
Qed.

(** A length below the floor of another is in an earlier bin. *)
Lemma below_floor_key m n :
  0 < m → in_width 64 m → 0 < n → in_width 64 n → m < size_floor n →
  bin_key (iree_hal_memory_tlsf_mapping_insert m) <
  bin_key (iree_hal_memory_tlsf_mapping_insert n).
Proof.
  intros Hm Hmw Hn Hnw Hlt. rewrite !mapping_insert_eq by done. unfold bin_key. cbn [fst snd].
  unfold size_floor in Hlt.
  pose proof (pow2_pos (sl_shift n) ltac:(unfold sl_shift; lia)) as Hp.
  pose proof (Z.mod_pos_bound n (2 ^ sl_shift n) Hp).
  pose proof (Z.log2_le_mono m n ltac:(lia)).
  pose proof (Z.mod_pos_bound (m / 2 ^ sl_shift m) 32 ltac:(lia)).
  pose proof (Z.mod_pos_bound (n / 2 ^ sl_shift n) 32 ltac:(lia)).
  destruct (decide (Z.log2 m = Z.log2 n)) as [E|NE]; [|lia].
  assert (sl_shift m = sl_shift n) as Es by (unfold sl_shift; by rewrite E).
  pose proof (sl_quotient m Hm) as Qm. pose proof (sl_quotient n Hn) as Qn. cbv zeta in Qm, Qn.
  rewrite Es in *. rewrite E in Qm.
  assert (m / 2 ^ sl_shift n < n / 2 ^ sl_shift n) as Hq.
  { apply Z.div_lt_upper_bound; [done|]. pose proof (Z.div_mod n (2 ^ sl_shift n)). lia. }
  set (qm := m / 2 ^ sl_shift n) in *. set (qn := n / 2 ^ sl_shift n) in *.
  case_decide.
  - rewrite !mod32_high by done. lia.
  - rewrite !Z.mod_small by lia. lia.
Qed.

Lemma key_floor m n :
  0 < m → in_width 64 m → 0 < n → in_width 64 n →
  bin_key (iree_hal_memory_tlsf_mapping_insert n) <=
  bin_key (iree_hal_memory_tlsf_mapping_insert m) → size_floor n <= m.
Proof.
  intros Hm Hmw Hn Hnw Hk. destruct (Z.le_gt_cases (size_floor n) m) as [|Hlt]; [done|].
  pose proof (below_floor_key m n Hm Hmw Hn Hnw Hlt). lia.
Qed.

Lemma bin_key_inj b1 b2 : bin_ok b1 → bin_ok b2 → bin_key b1 = bin_key b2 → b1 = b2.
Proof.
  destruct b1, b2. unfold bin_ok, bin_key. simpl. intros [? ?] [? ?] ?. f_equal; lia.
Qed.

(** The bin order follows the length order. *)
Lemma mapping_insert_mono m n :
  0 < m → m <= n → in_width 64 n →
  bin_key (iree_hal_memory_tlsf_mapping_insert m) <=
  bin_key (iree_hal_memory_tlsf_mapping_insert n).
Proof.
  intros Hm Hle Hnw. assert (in_width 64 m) by (destruct Hnw; split; lia).
  rewrite !mapping_insert_eq by (done || lia). unfold bin_key. cbn [fst snd].
  pose proof (Z.log2_le_mono m n ltac:(lia)).
  pose proof (Z.mod_pos_bound (m / 2 ^ sl_shift m) 32 ltac:(lia)).
  pose proof (Z.mod_pos_bound (n / 2 ^ sl_shift n) 32 ltac:(lia)).
  destruct (decide (Z.log2 m = Z.log2 n)) as [E|NE]; [|lia].
  assert (sl_shift m = sl_shift n) as Es by (unfold sl_shift; by rewrite E).
  pose proof (sl_quotient m Hm) as Qm. pose proof (sl_quotient n ltac:(lia)) as Qn.
  cbv zeta in Qm, Qn. rewrite Es in *. rewrite E in Qm |- *.
  pose proof (pow2_pos (sl_shift n) ltac:(unfold sl_shift; lia)).
  pose proof (Z.div_le_mono m n (2 ^ sl_shift n) ltac:(lia) ltac:(lia)).
  set (qm := m / 2 ^ sl_shift n) in *. set (qn := n / 2 ^ sl_shift n) in *.
  case_decide.
  - rewrite !mod32_high by done. lia.
  - rewrite !Z.mod_small by lia. lia.
Qed.

(** *** Search *)

(** The rounded length whose bin the search names. *)
Definition search_length (n : Z) : Z := n + (2 ^ sl_shift n - 1).

Lemma search_length_log2 n :
  0 < n → Z.log2 (search_length n) = Z.log2 n ∨
  (Z.log2 (search_length n) = Z.log2 n + 1 ∧
   search_length n / 2 ^ sl_shift (search_length n) = 32 ∧ n < 2 ^ (Z.log2 n + 1)).
Proof.
  intros Hn. pose proof (Z.log2_spec n Hn) as [Hlo Hhi]. pose proof (Z.log2_nonneg n).
  unfold search_length. pose proof (pow2_pos (sl_shift n) ltac:(unfold sl_shift; lia)).
  rewrite <- Z.add_1_r in Hhi.
  assert (2 ^ sl_shift n <= 2 ^ Z.log2 n) by (apply Z.pow_le_mono_r; unfold sl_shift; lia).
  assert (2 ^ (Z.log2 n + 1) = 2 * 2 ^ Z.log2 n) as E1 by (rewrite Z.pow_add_r by lia; lia).
  set (r := n + (2 ^ sl_shift n - 1)).
  destruct (Z.lt_ge_cases r (2 ^ (Z.log2 n + 1))) as [Hr|Hr].
  { left. apply Z.log2_unique; [done|]. rewrite <- Z.add_1_r. lia. }
  right. assert (Z.log2 r = Z.log2 n + 1) as El.
  { apply Z.log2_unique; [lia|]. rewrite <- Z.add_1_r, (Z.pow_add_r 2 (Z.log2 n + 1)) by lia. lia. }
  split; [done|]. split; [|done].
  assert (5 <= Z.log2 n) as H5.
  { destruct (Z.le_gt_cases 5 (Z.log2 n)); [done|]. exfalso.
    assert (sl_shift n = 0) as Es by (unfold sl_shift; lia). unfold r in Hr.
    rewrite Es in Hr. change (2 ^ 0) with 1 in Hr. lia. }
  unfold sl_shift at 1. rewrite El. rewrite Z.max_r by lia.
  assert (2 ^ (Z.log2 n + 1) = 32 * 2 ^ (Z.log2 n + 1 - 5)) as E2.
  { replace (Z.log2 n + 1) with (5 + (Z.log2 n + 1 - 5)) at 1 by lia.
    rewrite Z.pow_add_r by lia. lia. }
  assert (2 ^ sl_shift n <= 2 ^ (Z.log2 n + 1 - 5))
    by (apply Z.pow_le_mono_r; unfold sl_shift; lia).
  symmetry. apply (Z.div_unique r _ 32 (r - 2 ^ (Z.log2 n + 1))); unfold r; lia.
Qed.

(** The search names the bin of the rounded length, or nothing when rounding leaves
    64 bits. *)
Lemma mapping_search_eq n :
  0 < n → in_width 64 n →
  iree_hal_memory_tlsf_mapping_search n =
    if decide (search_length n < 2 ^ 64)
    then Some (iree_hal_memory_tlsf_mapping_insert (search_length n)) else None.
Proof.
  intros Hn Hw. pose proof (log2_bound 64 n ltac:(lia) Hw) as Hlog.
  unfold iree_hal_memory_tlsf_mapping_search, IREE_HAL_MEMORY_TLSF_SL_LOG2.
  rewrite clz64_log2 by done. destruct Hw as [Hn0 Hn64].
  destruct (Z.ltb_spec 5 (Z.log2 n)) as [H5|H5].
  - assert (sl_shift n = Z.log2 n - 5) as Es by (unfold sl_shift; lia).
    pose proof (pow64_lt (sl_shift n) ltac:(lia)) as Hp. rewrite <- Es.
    assert (usub 64 (ushl 64 1 (sl_shift n)) 1 = 2 ^ sl_shift n - 1) as ->.
    { unfold ushl. rewrite Z.shiftl_1_l, wrap_small by (split; lia). apply usub_small; [lia|split; lia]. }
    unfold IREE_DEVICE_SIZE_MAX. rewrite usub_small by (unfold umax, in_width; lia).
    destruct (Z.ltb_spec (umax 64 - (2 ^ sl_shift n - 1)) n) as [Hov|Hok]; unfold umax in *.
    { by rewrite decide_False by (unfold search_length; lia). }
    rewrite decide_True by (unfold search_length; lia).
    rewrite uadd_small by lia. fold (search_length n).
    assert (in_width 64 (search_length n)) as Hr by (unfold search_length; split; lia).
    assert (0 < search_length n) as Hr0 by (unfold search_length; lia).
    rewrite clz64_log2, (mapping_insert_eq (search_length n)) by done.
    destruct (search_length_log2 n Hn) as [E|(E & Eq & _)]; rewrite E.
    + rewrite Z.eqb_refl. simpl negb. cbv iota.
      change (IREE_HAL_MEMORY_TLSF_SL_COUNT - 1) with (2 ^ 5 - 1).
      rewrite land_ones_mod, Z.shiftr_div_pow2 by lia.
      assert (sl_shift (search_length n) = sl_shift n) as -> by (unfold sl_shift; by rewrite E).
      pose proof (Z.mod_pos_bound (search_length n / 2 ^ sl_shift n) (2 ^ 5) ltac:(lia)).
      rewrite !wrap_small by (split; lia). done.
    + rewrite (proj2 (Z.eqb_neq _ _)) by lia. simpl negb. cbv iota. rewrite Eq.
      pose proof (log2_bound 64 _ ltac:(lia) Hr). rewrite wrap_small by (split; lia). done.
  - assert (sl_shift n = 0) as Es by (unfold sl_shift; lia).
    assert (search_length n = n) as -> by (unfold search_length; rewrite Es; lia).
    rewrite decide_True by done. rewrite mapping_insert_eq by (done || by split).
    rewrite Es, Z.div_1_r. change (IREE_HAL_MEMORY_TLSF_SL_COUNT - 1) with (2 ^ 5 - 1).
    rewrite land_ones_mod by lia. pose proof (Z.mod_pos_bound n (2 ^ 5) ltac:(lia)).
    rewrite !wrap_small by (split; lia). done.
Qed.

(** The floor of the rounded length covers the request. *)
Lemma search_floor n : 0 < n → n <= size_floor (search_length n).
Proof.
  intros Hn. unfold size_floor. pose proof (pow2_pos (sl_shift n) ltac:(unfold sl_shift; lia)).
  destruct (search_length_log2 n Hn) as [E|(E & Eq & Hlt)].
  - assert (sl_shift (search_length n) = sl_shift n) as -> by (unfold sl_shift; by rewrite E).
    pose proof (Z.mod_pos_bound (search_length n) (2 ^ sl_shift n) ltac:(lia)).
    unfold search_length in *. lia.
  - set (r := search_length n) in *.
    pose proof (pow2_pos (sl_shift r) ltac:(unfold sl_shift; lia)).
    pose proof (Z.div_mod r (2 ^ sl_shift r) ltac:(lia)) as Hdm. rewrite Eq in Hdm.
    enough (2 ^ (Z.log2 n + 1) <= 2 ^ sl_shift r * 32) by lia.
    change 32 with (2 ^ 5). unfold sl_shift. rewrite E.
    rewrite <- Z.pow_add_r by lia. apply Z.pow_le_mono_r; lia.
Qed.

(** Every length in a bin at or above the searched one satisfies the request. *)
Lemma search_sound n bin m :
  0 < n → in_width 64 n → 0 < m → in_width 64 m →
  iree_hal_memory_tlsf_mapping_search n = Some bin →
  bin_key bin <= bin_key (iree_hal_memory_tlsf_mapping_insert m) → n <= m.
Proof.
  intros Hn Hnw Hm Hmw. rewrite mapping_search_eq by done. case_decide as Hlt; [|done].
  intros [= <-] Hkey. pose proof (search_floor n Hn).
  pose proof (pow2_pos (sl_shift n) ltac:(unfold sl_shift; lia)).
  enough (size_floor (search_length n) <= m) by lia.
  apply key_floor; [done|done|unfold search_length; lia| |done].
  unfold search_length in *. split; lia.
Qed.

(** Lengths with the same leading bit and second-level quotient share a bin. *)
Lemma same_bin m n :
  0 < m → in_width 64 m → 0 < n → in_width 64 n →
  Z.log2 m = Z.log2 n → m / 2 ^ sl_shift n = n / 2 ^ sl_shift n →
  iree_hal_memory_tlsf_mapping_insert m = iree_hal_memory_tlsf_mapping_insert n.
Proof.
  intros Hm Hmw Hn Hnw El Eq. rewrite !mapping_insert_eq by done.
  assert (sl_shift m = sl_shift n) as -> by (unfold sl_shift; by rewrite El).
  by rewrite El, Eq.
Qed.

Lemma size_floor_spec n :
  0 < n → size_floor n = n / 2 ^ sl_shift n * 2 ^ sl_shift n ∧
  2 ^ Z.log2 n <= size_floor n <= n.
Proof.
  intros Hn. pose proof (pow2_pos (sl_shift n) ltac:(unfold sl_shift; lia)) as Hp.
  unfold size_floor. pose proof (Z.div_mod n (2 ^ sl_shift n) ltac:(lia)) as Hdm.
  pose proof (Z.mod_pos_bound n (2 ^ sl_shift n) Hp). split; [lia|]. split; [|lia].
  pose proof (Z.log2_spec n Hn) as [Hlo _]. pose proof (Z.log2_nonneg n).
  assert (2 ^ Z.log2 n = 2 ^ (Z.log2 n - sl_shift n) * 2 ^ sl_shift n) as E.
  { rewrite <- Z.pow_add_r by (unfold sl_shift; lia). f_equal. lia. }
  rewrite E in *. assert (2 ^ (Z.log2 n - sl_shift n) <= n / 2 ^ sl_shift n).
  { apply Z.div_le_lower_bound; lia. }
  pose proof (Z.mul_le_mono_nonneg_r _ _ (2 ^ sl_shift n) ltac:(lia) H1). lia.
Qed.

Lemma size_floor_bin n :
  0 < n → in_width 64 n →
  0 < size_floor n ∧
  iree_hal_memory_tlsf_mapping_insert (size_floor n) = iree_hal_memory_tlsf_mapping_insert n.
Proof.
  intros Hn [? ?]. destruct (size_floor_spec n Hn) as [E [Hlo Hhi]].
  pose proof (pow2_pos (Z.log2 n) (Z.log2_nonneg n)).
  pose proof (pow2_pos (sl_shift n) ltac:(unfold sl_shift; lia)). split; [lia|].
  apply same_bin; [lia|split; lia|done|by split| |].
  - apply Z.log2_unique; [apply Z.log2_nonneg|]. pose proof (Z.log2_spec n Hn). lia.
  - rewrite E. apply Z.div_mul. lia.
Qed.

(** Between a request and the floor of its rounded length there is only its own bin. *)
Lemma below_search_same m n :
  0 < n → n <= m → in_width 64 m → m < size_floor (search_length n) →
  iree_hal_memory_tlsf_mapping_insert m = iree_hal_memory_tlsf_mapping_insert n.
Proof.
  intros Hn Hle Hmw Hlt. assert (in_width 64 n) as Hnw by (destruct Hmw; split; lia).
  pose proof (pow2_pos (sl_shift n) ltac:(unfold sl_shift; lia)) as Hp.
  assert (0 < search_length n) as Hr by (unfold search_length; lia).
  destruct (size_floor_spec _ Hr) as [Ef [_ Hfr]].
  pose proof (Z.log2_spec n Hn) as [Hlo Hhi]. rewrite <- Z.add_1_r in Hhi.
  pose proof (Z.div_mod n (2 ^ sl_shift n) ltac:(lia)) as Hdn.
  pose proof (Z.mod_pos_bound n (2 ^ sl_shift n) Hp).
  pose proof (Z.div_le_mono n m (2 ^ sl_shift n) Hp Hle).
  destruct (search_length_log2 n Hn) as [E|(E & Eq & _)].
  - assert (sl_shift (search_length n) = sl_shift n) as Es by (unfold sl_shift; by rewrite E).
    assert (Z.log2 m = Z.log2 n) as El.
    { pose proof (Z.log2_le_mono n m Hle). pose proof (Z.log2_le_mono m (search_length n)).
      lia. }
    apply same_bin; [lia|done|done|done|done|]. rewrite Es in Ef.
    enough (m / 2 ^ sl_shift n < n / 2 ^ sl_shift n + 1) by lia.
    apply Z.div_lt_upper_bound; [done|].
    assert (search_length n / 2 ^ sl_shift n < n / 2 ^ sl_shift n + 2) as Hq.
    { apply Z.div_lt_upper_bound; [done|]. unfold search_length. lia. }
    assert (search_length n / 2 ^ sl_shift n <= n / 2 ^ sl_shift n + 1) as Hq' by lia.
    pose proof (Z.mul_le_mono_nonneg_r _ _ (2 ^ sl_shift n) ltac:(lia) Hq'). lia.
  - set (r := search_length n) in *. rewrite Eq in Ef.
    assert (size_floor r = 2 ^ (Z.log2 n + 1)) as Ef'.
    { rewrite Ef. change 32 with (2 ^ 5). rewrite <- Z.pow_add_r by (unfold sl_shift; lia).
      f_equal. unfold sl_shift. rewrite E. pose proof (Z.log2_nonneg n).
      assert (5 <= Z.log2 r) by (apply Z.log2_le_pow2; [lia|]; lia). lia. }
    assert (Z.log2 m = Z.log2 n) as El.
    { apply Z.log2_unique; [apply Z.log2_nonneg|]. rewrite <- Z.add_1_r. lia. }
    apply same_bin; [lia|done|done|done|done|].
    pose proof (sl_quotient m ltac:(lia)) as Qm. pose proof (sl_quotient n Hn) as Qn.
    cbv zeta in Qm, Qn. assert (sl_shift m = sl_shift n) as Es by (unfold sl_shift; by rewrite El).
    rewrite Es, El in Qm. case_decide as H5.
    2: { exfalso. assert (sl_shift n = 0) as E0 by (unfold sl_shift; lia).
      unfold r, search_length in E. rewrite E0 in E.
      replace (n + (2 ^ 0 - 1)) with n in E by lia. lia. }
    enough (63 <= n / 2 ^ sl_shift n) by lia. apply Z.div_le_lower_bound; [done|].
    assert (2 ^ (Z.log2 n + 1) = 64 * 2 ^ sl_shift n) as E64.
    { change 64 with (2 ^ 6). rewrite <- Z.pow_add_r by (unfold sl_shift; lia).
      f_equal. unfold sl_shift. lia. }
    unfold r, search_length in *. lia.
Qed.

(** A length that satisfies the request and lies below the searched bin shares the bin
    of the request. *)
Lemma search_complete n m :
  0 < n → n <= m → in_width 64 m →
  match iree_hal_memory_tlsf_mapping_search n with
  | Some bin => bin_key (iree_hal_memory_tlsf_mapping_insert m) < bin_key bin
  | None => True
  end →
  iree_hal_memory_tlsf_mapping_insert m = iree_hal_memory_tlsf_mapping_insert n.
Proof.
  intros Hn Hle Hmw. assert (in_width 64 n) as Hnw by (destruct Hmw; split; lia).
  assert (0 < search_length n) as Hr0
    by (unfold search_length; pose proof (pow2_pos (sl_shift n) ltac:(unfold sl_shift; lia)); lia).
  rewrite mapping_search_eq by done. case_decide as Hr; intros Hk.
  - apply below_search_same; [done..|]. apply Z.nle_gt. intros Hge.
    destruct (size_floor_bin (search_length n) Hr0) as [? E]; [split; lia|].
    pose proof (mapping_insert_mono (size_floor (search_length n)) m ltac:(done) Hge Hmw).
    rewrite E in *. lia.
  - apply below_search_same; [done..|].
    pose proof (size_floor_spec _ Hr0) as [_ [Hlo _]]. destruct Hmw.
    assert (64 <= Z.log2 (search_length n)) by (apply Z.log2_le_pow2; lia).
    pose proof (Z.pow_le_mono_r 2 64 (Z.log2 (search_length n))). lia.
Qed.
