(* ===== verification/TlsfStore.v ===== *)
(** * Block storage of the TLSF allocator

    Handles address nodes in segments of sizes [N, N, 2N, 4N, ...].  The file proves that
    the address of every handle below the capacity is inside its segment and that no two
    handles share a node, so that [get_block] and [update_block] behave as a map from
    handles to nodes; growth appends a segment without moving a node. *)

From S2P Require Import Prelude BaseMath Allocator Frontier Tlsf.
From stdpp Require Import base numbers list.

Local Open Scope Z_scope.

(** A handle of a published node. *)
Definition valid (t : tlsf_t) (i : Z) : Prop := 0 <= i < block_capacity t.

(** The length of segment [j] when the first one has [2 ^ k] slots: the last one is cut
    at the handle limit. *)
Definition segment_length (k : Z) (j : nat) : Z :=
  match j with
  | O => 2 ^ k
  | S j => Z.min (2 ^ (k + Z.of_nat j)) (UINT32_MAX - 2 ^ (k + Z.of_nat j))
  end.

(** Either a power-of-two first segment and doubling growth, or one segment with every
    possible handle. *)
Inductive storage_ok (t : tlsf_t) : Prop :=
  | storage_growing k :
      0 <= k <= 31 → initial_block_shift (config t) = k →
      initial_block_capacity (config t) = 2 ^ k →
      1 <= Z.of_nat (length (block_segments t)) <= 33 - k →
      (∀ j seg, block_segments t !! j = Some seg →
         Z.of_nat (length seg) = segment_length k j) →
      block_capacity t = Z.min (2 ^ (k + Z.of_nat (length (block_segments t)) - 1)) UINT32_MAX →
      storage_ok t
  | storage_full seg :
      initial_block_capacity (config t) = UINT32_MAX → block_capacity t = UINT32_MAX →
      block_segments t = [seg] → Z.of_nat (length seg) = UINT32_MAX → storage_ok t.

Lemma valid_not_none t i : storage_ok t → valid t i → i ≠ NONE ∧ in_width 32 i.
Proof.
  unfold valid, in_width, IREE_HAL_MEMORY_TLSF_BLOCK_INDEX_NONE, UINT32_MAX.
  intros [k _ _ _ _ _ Hc|seg _ Hc _ _] Hi; unfold UINT32_MAX in Hc; lia.
Qed.

Lemma none_not_valid t : storage_ok t → ¬ valid t NONE.
Proof. intros Hs Hv. by destruct (valid_not_none t NONE Hs Hv). Qed.

(** The address of a handle, without machine arithmetic. *)
Lemma block_at_eq t k i :
  0 <= k <= 31 → initial_block_shift (config t) = k →
  initial_block_capacity (config t) = 2 ^ k → in_width 32 i →
  iree_hal_memory_tlsf_block_at t i =
    if decide (i < 2 ^ k) then (0, i) else (Z.log2 i - k + 1, i - 2 ^ Z.log2 i).
Proof.
  intros Hk Es En [Hi0 Hi]. unfold iree_hal_memory_tlsf_block_at. rewrite En.
  pose proof (pow2_pos k ltac:(lia)).
  destruct (Z.leb_spec (2 ^ k) i); case_decide; try lia; [|done].
  assert (0 < i) as Hpos by lia. rewrite clz32_log2, Es by done.
  pose proof (log2_bound 32 i ltac:(lia) ltac:(by split)).
  assert (k <= Z.log2 i) by (apply Z.log2_le_pow2; lia).
  pose proof (Z.log2_spec i Hpos).
  rewrite usub_small by (unfold in_width; lia). rewrite uadd_small by lia.
  unfold ushl. rewrite Z.shiftl_1_l.
  assert (2 ^ Z.log2 i < 2 ^ 32) by (apply Z.pow_lt_mono_r; lia).
  rewrite wrap_small by (split; lia).
  rewrite usub_small by (unfold in_width; lia). done.
Qed.

Lemma block_at_full t i :
  initial_block_capacity (config t) = UINT32_MAX → i < UINT32_MAX →
  iree_hal_memory_tlsf_block_at t i = (0, i).
Proof.
  intros E Hi. unfold iree_hal_memory_tlsf_block_at. rewrite E.
  by destruct (Z.leb_spec UINT32_MAX i); [lia|].
Qed.

(** Every handle addresses a slot of a published segment. *)
Lemma block_at_slot t i :
  storage_ok t → valid t i →
  let address := iree_hal_memory_tlsf_block_at t i in
  0 <= address.1 ∧ 0 <= address.2 ∧
  ∃ seg, block_segments t !! Z.to_nat address.1 = Some seg ∧
         (Z.to_nat address.2 < length seg)%nat.
Proof.
  intros Hok Hv. pose proof (valid_not_none t i Hok Hv) as [Hn Hw].
  destruct Hok as [k Hk Es En Hlen Hsegs Hcap|seg En Hcap Esegs Hlen].
  2: { unfold valid in Hv. rewrite block_at_full by (done || lia). rewrite Esegs. simpl.
    split; [done|]. split; [lia|]. exists seg. split; [done|]. lia. }
  rewrite (block_at_eq t k) by done. destruct Hv as [Hi0 Hi]. rewrite Hcap in Hi.
  case_decide as Hik; cbn [fst snd].
  - split; [done|]. split; [done|].
    destruct (block_segments t !! 0%nat) as [seg|] eqn:E0.
    + exists seg. split; [done|]. pose proof (Hsegs _ _ E0) as Hl. simpl in Hl. lia.
    + apply lookup_ge_None in E0. simpl in E0. lia.
  - pose proof (pow2_pos k ltac:(lia)). assert (0 < i) as Hpos by lia.
    pose proof (Z.log2_spec i Hpos) as [Hlo Hhi]. rewrite Z.pow_succ_r in Hhi by apply Z.log2_nonneg.
    assert (k <= Z.log2 i) by (apply Z.log2_le_pow2; lia).
    assert (Z.log2 i < k + Z.of_nat (length (block_segments t)) - 1).
    { apply Z.log2_lt_pow2; lia. }
    split; [lia|]. split; [lia|].
    destruct (lookup_lt_is_Some_2 (block_segments t) (Z.to_nat (Z.log2 i - k + 1))) as [seg E];
      [lia|]. exists seg. split; [done|]. pose proof (Hsegs _ _ E) as Hl.
    replace (Z.to_nat (Z.log2 i - k + 1)) with (S (Z.to_nat (Z.log2 i - k))) in Hl by lia.
    simpl in Hl. rewrite Z2Nat.id in Hl by lia. replace (k + (Z.log2 i - k)) with (Z.log2 i) in Hl by lia.
    unfold UINT32_MAX in *. lia.
Qed.

(** Distinct handles have distinct addresses. *)
Lemma block_at_inj t i j :
  storage_ok t → valid t i → valid t j →
  iree_hal_memory_tlsf_block_at t i = iree_hal_memory_tlsf_block_at t j → i = j.
Proof.
  intros Hok Hi Hj. pose proof (valid_not_none t i Hok Hi) as [_ Hiw].
  pose proof (valid_not_none t j Hok Hj) as [_ Hjw].
  destruct Hok as [k Hk Es En _ _ _|seg En Hcap _ _].
  - rewrite !(block_at_eq t k) by done. pose proof (pow2_pos k ltac:(lia)).
    do 2 case_decide; intros [E1 E2]%pair_equal_spec; try lia.
    + pose proof (Z.log2_le_pow2 j k). lia.
    + pose proof (Z.log2_le_pow2 i k). lia.
    + replace (Z.log2 i) with (Z.log2 j) in E2 by lia. lia.
  - unfold valid in *. rewrite !block_at_full by (done || lia). congruence.
Qed.

(** ** Nodes as a map from handles *)

Lemma nested_alter_lookup {A} `{Inhabited A} (segs : list (list A)) s k s' k' f seg :
  segs !! s = Some seg → (k < length seg)%nat →
  (alter (alter f k) s segs !!! s') !!! k' =
    if decide (s = s' ∧ k = k') then f ((segs !!! s) !!! k) else (segs !!! s') !!! k'.
Proof.
  intros Hs Hk. destruct (lookup_lt_is_Some_2 seg k Hk) as [x Hx].
  rewrite (list_lookup_total_correct segs s seg) by done.
  rewrite (list_lookup_total_correct seg k x) by done.
  destruct (decide (s = s')) as [<-|Hne].
  - assert ((alter (alter f k) s segs) !!! s = alter f k seg) as ->.
    { apply list_lookup_total_correct. by rewrite list_lookup_alter_eq, Hs. }
    rewrite (list_lookup_total_correct segs s seg) by done.
    destruct (decide (k = k')) as [<-|Hne].
    + rewrite decide_True by done. apply list_lookup_total_correct.
      by rewrite list_lookup_alter_eq, Hx.
    + rewrite decide_False by tauto. rewrite !list_lookup_total_alt.
      by rewrite list_lookup_alter_ne.
  - rewrite decide_False by tauto. rewrite (list_lookup_total_alt _ s'), list_lookup_alter_ne by done.
    by rewrite <- list_lookup_total_alt.
Qed.

Lemma get_update t i f j :
  storage_ok t → valid t i → valid t j →
  get_block (update_block i f t) j =
    if decide (i = j) then f (get_block t i) else get_block t j.
Proof.
  intros Hok Hi Hj. unfold get_block. cbn [update_block block_segments set_segments].
  change (iree_hal_memory_tlsf_block_at (update_block i f t) j)
    with (iree_hal_memory_tlsf_block_at t j). cbv zeta.
  destruct (block_at_slot t i Hok Hi) as (Hi1 & Hi2 & seg & Hseg & Hslot).
  destruct (block_at_slot t j Hok Hj) as (Hj1 & Hj2 & _).
  rewrite (nested_alter_lookup _ _ _ _ _ _ seg) by done.
  destruct (decide (i = j)) as [<-|Hne]; [by rewrite decide_True|].
  rewrite decide_False; [done|]. intros [E1 E2]. apply Hne, (block_at_inj t); [done..|].
  destruct (iree_hal_memory_tlsf_block_at t i), (iree_hal_memory_tlsf_block_at t j).
  simpl in *. f_equal; lia.
Qed.

Lemma get_update_eq t i f :
  storage_ok t → valid t i → get_block (update_block i f t) i = f (get_block t i).
Proof. intros. rewrite get_update by done. by rewrite decide_True. Qed.

Lemma get_update_ne t i f j :
  storage_ok t → valid t i → valid t j → i ≠ j →
  get_block (update_block i f t) j = get_block t j.
Proof. intros. rewrite get_update by done. by rewrite decide_False. Qed.

(** Storage depends on the segments, the capacity and the configuration only. *)
Lemma storage_ok_ext t t' :
  config t' = config t → block_capacity t' = block_capacity t →
  length (block_segments t') = length (block_segments t) →
  (∀ j seg', block_segments t' !! j = Some seg' →
     ∃ seg, block_segments t !! j = Some seg ∧ length seg' = length seg) →
  storage_ok t → storage_ok t'.
Proof.
  intros Ec Ecap Elen Hsegs [k Hk Es En Hlen Hl Hcap|seg En Hcap Esegs Hl].
  - apply (storage_growing t' k); rewrite ?Ec, ?Ecap, ?Elen; try done.
    intros j seg' (seg & E & ->)%Hsegs. by apply Hl.
  - rewrite Esegs in *. destruct (block_segments t') as [|seg' [|]] eqn:E'; try done.
    destruct (Hsegs 0%nat seg' eq_refl) as (seg0 & [= <-] & El).
    apply (storage_full t' seg'); rewrite ?Ec, ?Ecap; [done|done|done|lia].
Qed.

Lemma storage_same t t' :
  config t' = config t → block_capacity t' = block_capacity t →
  block_segments t' = block_segments t → storage_ok t → storage_ok t'.
Proof.
  intros Hc Hcap Hsegs. apply storage_ok_ext; [done|done|by rewrite Hsegs|].
  rewrite Hsegs. intros j seg ?. by exists seg.
Qed.

Lemma storage_update t i f : storage_ok t → storage_ok (update_block i f t).
Proof.
  apply storage_ok_ext; [done|done|apply length_alter|]. cbn [update_block block_segments set_segments].
  intros j seg'. set (p := Z.to_nat (iree_hal_memory_tlsf_block_at t i).1).
  destruct (decide (p = j)) as [<-|Hne].
  - rewrite list_lookup_alter_eq. intros (seg & Hs & ->)%fmap_Some.
    exists seg. split; [done|]. apply length_alter.
  - rewrite list_lookup_alter_ne by done. by exists seg'.
Qed.

(** ** Growth *)

Section growth.
Context (t : tlsf_t) (storage : list block_t) (count : Z).
Context (Hok : storage_ok t).
Context (Hcount : count = Z.min (block_capacity t) (UINT32_MAX - block_capacity t)).
Context (Hpos : 0 < count) (Hlen : Z.of_nat (length storage) = count).

Definition grown (head : Z) : tlsf_t :=
  set_unused_node_head head
    (set_block_capacity (block_capacity t + count)
      (set_segments (block_segments t ++ [storage]) t)).

(** The capacity is still a power of two when it can grow. *)
Lemma growth_capacity : ∃ k,
  0 <= k <= 31 ∧ initial_block_shift (config t) = k ∧
  initial_block_capacity (config t) = 2 ^ k ∧
  block_capacity t = 2 ^ (k + Z.of_nat (length (block_segments t)) - 1) ∧
  1 <= Z.of_nat (length (block_segments t)) <= 32 - k ∧
  (∀ j seg, block_segments t !! j = Some seg → Z.of_nat (length seg) = segment_length k j).
Proof using All.
  destruct Hok as [k Hk Es En HL Hsegs Hcap|seg _ Hcap _ _]; [|unfold UINT32_MAX in *; lia].
  exists k. set (L := Z.of_nat (length (block_segments t))) in *.
  assert (2 ^ (k + L - 1) < UINT32_MAX) as Hlt by lia.
  assert (k + L - 1 < 32) by (apply (Z.pow_lt_mono_r_iff 2); unfold UINT32_MAX in *; lia).
  do 3 (split; [done|]). split; [lia|]. split; [lia|done].
Qed.

Lemma grown_storage head : storage_ok (grown head).
Proof using All.
  destruct growth_capacity as (k & Hk & Es & En & Hcap & HL & Hsegs).
  apply (storage_growing _ k); try done; cbn [grown block_segments set_segments set_block_capacity
    set_unused_node_head block_capacity]; rewrite ?length_app, ?Nat2Z.inj_add; simpl length.
  - lia.
  - intros j seg [Hj|[Hj Hs]]%lookup_app_Some; [by apply Hsegs|].
    apply list_lookup_singleton_Some in Hs as [Hj0 <-].
    replace j with (S (length (block_segments t) - 1))%nat by lia. simpl.
    rewrite Hlen, Hcount, Hcap.
    replace (k + Z.of_nat (length (block_segments t) - 1)) with
      (k + Z.of_nat (length (block_segments t)) - 1) by lia. done.
  - rewrite Hcount, Hcap.
    replace (k + (Z.of_nat (length (block_segments t)) + Z.of_nat 1) - 1) with
      (Z.succ (k + Z.of_nat (length (block_segments t)) - 1)) by lia.
    rewrite Z.pow_succ_r by lia. lia.
Qed.

(** Published nodes stay where they are. *)
Lemma grown_get_old head i : valid t i → get_block (grown head) i = get_block t i.
Proof using All.
  intros Hi. destruct (block_at_slot t i Hok Hi) as (_ & _ & seg & Hseg & _).
  unfold get_block. change (iree_hal_memory_tlsf_block_at (grown head) i)
    with (iree_hal_memory_tlsf_block_at t i).
  cbn [grown block_segments set_segments set_block_capacity set_unused_node_head].
  f_equal. rewrite lookup_total_app_l; [done|]. by apply lookup_lt_Some in Hseg.
Qed.

(** A new handle addresses the new segment. *)
Lemma grown_get_new head i :
  block_capacity t <= i < block_capacity t + count →
  get_block (grown head) i = storage !!! Z.to_nat (i - block_capacity t).
Proof using All.
  intros Hi. destruct growth_capacity as (k & Hk & Es & En & Hcap & HL & Hsegs).
  assert (in_width 32 i) as Hw by (split; unfold UINT32_MAX in *; lia).
  unfold get_block. change (iree_hal_memory_tlsf_block_at (grown head) i)
    with (iree_hal_memory_tlsf_block_at t i). rewrite (block_at_eq t k) by done.
  set (e := k + Z.of_nat (length (block_segments t)) - 1) in *.
  assert (2 ^ k <= 2 ^ e) by (apply Z.pow_le_mono_r; lia).
  rewrite decide_False by lia. cbn [fst snd].
  assert (Z.log2 i = e) as ->.
  { apply Z.log2_unique; [lia|]. rewrite Z.pow_succ_r by lia. lia. }
  cbn [grown block_segments set_segments set_block_capacity set_unused_node_head].
  rewrite lookup_total_app_r by lia.
  replace (Z.to_nat (e - k + 1) - length (block_segments t))%nat with 0%nat by lia.
  rewrite Hcap. done.
Qed.
End growth.
