(* ===== verification/TlsfLists.v ===== *)
(** * Free lists and bitmaps of the TLSF allocator

    Doubly linked lists over handles, the invariant of the free-list matrix (every list is
    well linked, holds exactly the free blocks of its size class, and both bitmap levels
    say which lists are nonempty), its preservation by insertion and removal, and the
    soundness and completeness of the bitmap search. *)

From S2P Require Import Prelude BaseMath Allocator Frontier Tlsf TlsfMapping TlsfStore.
From stdpp Require Import base numbers list gmap fin_sets.

Local Open Scope Z_scope.

(** ** Doubly linked lists *)

(** [l] is linked from a first node whose predecessor is [p] to a last node whose
    successor is [n]. *)
Fixpoint dll (prv nxt : Z → Z) (p : Z) (l : list Z) (n : Z) : Prop :=
  match l with
  | [] => True
  | i :: l => prv i = p ∧ nxt i = hd n l ∧ dll prv nxt i l n
  end.

Definition last_or (p : Z) (l : list Z) : Z := default p (last l).

Lemma last_or_cons p i l : last_or p (i :: l) = last_or i l.
Proof. destruct l using rev_ind; [done|]. unfold last_or. by rewrite app_comm_cons, !last_snoc. Qed.

Lemma last_or_snoc p l i : last_or p (l ++ [i]) = i.
Proof. unfold last_or. by rewrite last_snoc. Qed.

Lemma dll_app prv nxt l1 l2 : ∀ p n,
  dll prv nxt p (l1 ++ l2) n ↔
  dll prv nxt p l1 (hd n l2) ∧ dll prv nxt (last_or p l1) l2 n.
Proof.
  induction l1 as [|i l1 IH]; intros p n; simpl; [by unfold last_or; simpl; tauto|].
  rewrite IH, last_or_cons.
  assert (hd n (l1 ++ l2) = hd (hd n l2) l1) as -> by (by destruct l1). tauto.
Qed.

Lemma dll_ext prv nxt prv' nxt' l : ∀ p n,
  (∀ i, i ∈ l → prv' i = prv i ∧ nxt' i = nxt i) →
  dll prv nxt p l n → dll prv' nxt' p l n.
Proof.
  induction l as [|i l IH]; intros p n Hext; simpl; [done|]. intros (Hp & Hn & Hl).
  destruct (Hext i ltac:(by left)) as [-> ->]. split; [done|]. split; [done|].
  apply IH; [|done]. intros j Hj. apply Hext. by right.
Qed.

(** Changing only the predecessor of the first node. *)
Lemma dll_repoint_head prv nxt prv' nxt' p p' l n :
  NoDup l →
  (∀ i, i ∈ l → nxt' i = nxt i ∧ prv' i = if decide (hd_error l = Some i) then p' else prv i) →
  dll prv nxt p l n → dll prv' nxt' p' l n.
Proof.
  destruct l as [|i l]; [done|]. intros [Hnin _]%NoDup_cons Hext (Hp & Hn & Hl).
  destruct (Hext i ltac:(by left)) as [En Ep]. rewrite decide_True in Ep by done. simpl.
  split; [done|]. split; [congruence|]. eapply dll_ext; [|exact Hl].
  intros j Hj. destruct (Hext j ltac:(by right)) as [En' Ep'].
  rewrite decide_False in Ep'; [done|]. simpl. intros [= ->]. done.
Qed.

(** Changing only the successor of the last node. *)
Lemma dll_repoint_last prv nxt prv' nxt' l : ∀ p n n',
  NoDup l →
  (∀ i, i ∈ l → prv' i = prv i ∧ nxt' i = if decide (last l = Some i) then n' else nxt i) →
  dll prv nxt p l n → dll prv' nxt' p l n'.
Proof.
  induction l as [|i l IH]; [done|]. intros p n n' [Hnin Hnd]%NoDup_cons Hext (Hp & Hn & Hl).
  destruct (Hext i ltac:(by left)) as [Ep En]. simpl. split; [congruence|].
  assert (∀ j, j ∈ l → (last (i :: l) = Some j ↔ last l = Some j)) as Hlast.
  { intros j Hj. destruct l; [by apply elem_of_nil in Hj|]. done. }
  split.
  - destruct l as [|k l']; simpl; [by rewrite decide_True in En|].
    rewrite decide_False in En; [by rewrite En|]. intros Hl'. apply Hnin.
    change (last (k :: l') = Some i) in Hl'. apply last_Some in Hl' as [l'' ->].
    apply elem_of_app. right. by left.
  - eapply (IH i n n' Hnd); [|done]. intros j Hj.
    destruct (Hext j ltac:(by right)) as [Ep' En']. split; [done|]. rewrite En'.
    apply decide_ext. by apply Hlast.
Qed.

Lemma dll_member prv nxt p l1 i l2 n :
  dll prv nxt p (l1 ++ i :: l2) n → prv i = last_or p l1 ∧ nxt i = hd n l2.
Proof. rewrite dll_app. simpl. tauto. Qed.

(** ** The free-list matrix *)

(** Array shapes of the matrix and its bitmaps. *)
Record matrix_ok (t : tlsf_t) : Prop := {
  mo_rows : length (free_lists t) = 64%nat;
  mo_columns : ∀ j row, free_lists t !! j = Some row → length row = 32%nat;
  mo_bitmaps : length (sl_bitmaps t) = 64%nat;
}.

Lemma matrix_row t fl : matrix_ok t → 0 <= fl < 64 →
  ∃ row, free_lists t !! Z.to_nat fl = Some row ∧ length row = 32%nat.
Proof.
  intros [Hr Hc _] Hfl. destruct (lookup_lt_is_Some_2 (free_lists t) (Z.to_nat fl)) as [row E];
    [lia|]. eauto.
Qed.

Lemma head_set t fl sl v fl' sl' :
  matrix_ok t → bin_ok (fl, sl) → bin_ok (fl', sl') →
  free_list_head (set_free_list_head fl sl v t) fl' sl' =
    if decide ((fl, sl) = (fl', sl')) then v else free_list_head t fl' sl'.
Proof.
  unfold bin_ok. simpl. intros Hm [Hfl Hsl] [Hfl' Hsl'].
  destruct (matrix_row t fl Hm Hfl) as (row & Hrow & Hlen).
  unfold free_list_head. cbn [set_free_list_head free_lists set_free_lists].
  rewrite (nested_alter_lookup _ _ _ _ _ _ row) by (done || lia).
  apply decide_ext. rewrite pair_equal_spec. lia.
Qed.

Lemma sl_bitmap_set t fl v fl' :
  matrix_ok t → 0 <= fl < 64 → 0 <= fl' < 64 →
  sl_bitmap (set_sl_bitmap fl v t) fl' = if decide (fl = fl') then v else sl_bitmap t fl'.
Proof.
  intros [_ _ Hb] Hfl Hfl'. unfold sl_bitmap. cbn [set_sl_bitmap sl_bitmaps set_sl_bitmaps].
  case_decide as E; [subst; apply list_lookup_total_insert_eq; lia|].
  apply list_lookup_total_insert_ne. lia.
Qed.

(** [bins] gives the contents of every list, [F] the blocks in the lists. *)
Record lists_ok (t : tlsf_t) (bins : Z * Z → list Z) (F : gset Z) : Prop := {
  lo_matrix : matrix_ok t;
  lo_head bin : bin_ok bin → free_list_head t bin.1 bin.2 = hd NONE (bins bin);
  lo_links bin : bin_ok bin →
    dll (λ i, prev_free (get_block t i)) (λ i, next_free (get_block t i)) NONE (bins bin) NONE;
  lo_nodup bin : bin_ok bin → NoDup (bins bin);
  lo_mem bin i : bin_ok bin →
    i ∈ bins bin ↔
    i ∈ F ∧ iree_hal_memory_tlsf_mapping_insert (blk_length (get_block t i)) = bin;
  lo_valid i : i ∈ F → valid t i ∧ 0 < blk_length (get_block t i) < 2 ^ 64;
  lo_sl fl sl : bin_ok (fl, sl) →
    Z.testbit (sl_bitmap t fl) sl = bool_decide (bins (fl, sl) ≠ []);
  lo_sl_width fl : 0 <= fl < 64 → in_width 32 (sl_bitmap t fl);
  lo_fl fl : 0 <= fl < 64 → Z.testbit (fl_bitmap t) fl = bool_decide (sl_bitmap t fl ≠ 0);
  lo_fl_width : in_width 64 (fl_bitmap t);
  lo_count : free_block_count t = Z.of_nat (size F);
}.

(** The bin a block belongs to. *)
Abbreviation bin_of t i := (iree_hal_memory_tlsf_mapping_insert (blk_length (get_block t i))).

Lemma bin_of_ok t i : 0 < blk_length (get_block t i) < 2 ^ 64 → bin_ok (bin_of t i).
Proof. intros. apply mapping_insert_ok; [lia|split; lia]. Qed.

(** A node up to its free-list links. *)
Definition geom (b : block_t) : block_t := set_prev_free 0 (set_next_free 0 b).

Lemma geom_fields b b' :
  geom b = geom b' →
  blk_offset b = blk_offset b' ∧ blk_length b = blk_length b' ∧
  prev_physical b = prev_physical b' ∧ next_physical b = next_physical b' ∧
  blk_flags b = blk_flags b' ∧ blk_frontier b = blk_frontier b'.
Proof. destruct b, b'. unfold geom. cbn. by intros [= -> -> -> -> -> ->]. Qed.

(** Fields that list operations leave alone. *)
Record same_scalars (t t' : tlsf_t) : Prop := {
  ss_config : config t' = config t;
  ss_captures : frontier_overflow_user_data t' = frontier_overflow_user_data t;
  ss_capacity : block_capacity t' = block_capacity t;
  ss_unused : unused_node_head t' = unused_node_head t;
  ss_allocated : bytes_allocated t' = bytes_allocated t;
  ss_free : bytes_free t' = bytes_free t;
  ss_allocations : allocation_count t' = allocation_count t;
  ss_tainted : tainted_coalesce_count t' = tainted_coalesce_count t;
}.

(** What a list operation on the blocks of [S] does to the nodes. *)
Definition relinks (t t' : tlsf_t) (S : gset Z) : Prop :=
  (∀ j, valid t j → geom (get_block t' j) = geom (get_block t j)) ∧
  (∀ j, valid t j → j ∉ S → get_block t' j = get_block t j).

(** Sets of handles are bounded by the capacity. *)
Lemma handles_size (X : gset Z) n : (∀ i, i ∈ X → 0 <= i < n) → Z.of_nat (size X) <= Z.max 0 n.
Proof.
  intros Hb. assert (X ⊆ list_to_set (seqZ 0 n)) as Hsub.
  { intros i Hi. apply elem_of_list_to_set, elem_of_seqZ. specialize (Hb i Hi). lia. }
  apply subseteq_size in Hsub. rewrite size_list_to_set in Hsub by apply NoDup_seqZ.
  rewrite length_seqZ in Hsub. lia.
Qed.

Lemma size_remove (X : gset Z) i : i ∈ X → size X = S (size (X ∖ {[i]})).
Proof.
  intros Hi. rewrite (union_difference_singleton_L i X) at 1 by done.
  rewrite size_union by set_solver. by rewrite size_singleton.
Qed.

Lemma lists_count_bound t bins F :
  storage_ok t → lists_ok t bins F → Z.of_nat (size F) <= block_capacity t ∧
  block_capacity t < 2 ^ 32.
Proof.
  intros Hs Hl. assert (block_capacity t < 2 ^ 32 ∧ 0 <= block_capacity t) as [? ?].
  { destruct Hs as [k ? ? ? ? ? Hc|? ? Hc ? ?]; rewrite Hc; unfold UINT32_MAX; [|lia].
    pose proof (Z.pow_nonneg 2 (k + Z.of_nat (length (block_segments t)) - 1)). lia. }
  pose proof (handles_size F (block_capacity t)) as Hsz. split; [|done].
  rewrite Z.max_r in Hsz by done. apply Hsz. intros i Hi. by apply (lo_valid _ _ _ Hl).
Qed.

Lemma bitmap_set_bit w b n i :
  0 <= n < w → 0 <= i → Z.testbit (Z.lor b (ushl w 1 n)) i = bool_decide (i = n) || Z.testbit b i.
Proof.
  intros Hn Hi. rewrite Z.lor_spec, ushl_testbit by lia. change 1 with (2 ^ 0).
  rewrite pow2_testbit by lia. rewrite orb_comm. f_equal.
  destruct (Z.ltb_spec i w); simpl; repeat case_bool_decide; lia || done.
Qed.

Lemma bitmap_clear_bit w b n i :
  0 <= n < w → 0 <= i → in_width w b →
  Z.testbit (Z.land b (unot w (ushl w 1 n))) i = negb (bool_decide (i = n)) && Z.testbit b i.
Proof.
  intros Hn Hi Hb. rewrite Z.land_spec, unot_testbit, ushl_testbit by lia. change 1 with (2 ^ 0).
  rewrite pow2_testbit by lia. rewrite andb_comm.
  destruct (Z.ltb_spec i w); simpl.
  - f_equal. f_equal. repeat case_bool_decide; lia || done.
  - rewrite (testbit_above w) by (done || lia). by rewrite andb_false_r.
Qed.

Lemma ushl_one_width w n : 0 <= n < w → in_width w (ushl w 1 n).
Proof. intros. apply wrap_in_width. lia. Qed.

Lemma nonzero_testbit b i : Z.testbit b i = true → b ≠ 0.
Proof. intros H ->. by rewrite Z.bits_0 in H. Qed.

Lemma zero_iff_no_bits w b :
  0 <= w → in_width w b → b = 0 ↔ ∀ i, 0 <= i < w → Z.testbit b i = false.
Proof.
  intros Hw Hb. split; [intros -> i _; apply Z.bits_0|]. intros H. apply word_ext.
  intros i Hi. rewrite Z.bits_0. destruct (Z.lt_ge_cases i w); [by apply H|].
  by apply (testbit_above w).
Qed.

Lemma get_block_same t t' j :
  block_segments t' = block_segments t → config t' = config t →
  get_block t' j = get_block t j.
Proof. intros Es Ec. unfold get_block, iree_hal_memory_tlsf_block_at. by rewrite Es, Ec. Qed.

(** ** Insertion *)

Section insert.
Context (t : tlsf_t) (bins : Z * Z → list Z) (F : gset Z) (i : Z).
Context (Hs : storage_ok t) (Hl : lists_ok t bins F) (Hv : valid t i) (Hnin : i ∉ F).
Context (Hlen : 0 < blk_length (get_block t i) < 2 ^ 64).

Let bin := bin_of t i.
Let h := hd NONE (bins bin).
Let t' := iree_hal_memory_tlsf_insert_free_block i t.

(** The matrix after insertion at the head of the bin. *)
Definition insert_bins : Z * Z → list Z :=
  λ b, if decide (b = bin) then i :: bins b else bins b.

Local Lemma insert_bin_ok : bin_ok bin.
Proof using Hlen. by apply bin_of_ok. Qed.

Local Lemma insert_head_member : h ≠ NONE → h ∈ bins bin.
Proof using. unfold h. destruct (bins bin); [done|]. by left. Qed.

Local Lemma insert_head_valid : h ≠ NONE → valid t h ∧ h ≠ i.
Proof using Hl Hlen Hnin.
  intros Hh. pose proof (insert_head_member Hh) as Hin.
  apply (lo_mem _ _ _ Hl) in Hin as [HF _]; [|apply insert_bin_ok].
  split; [by apply (lo_valid _ _ _ Hl)|]. by intros ->.
Qed.

Local Lemma insert_eq :
  let t1 := update_block i (set_next_free h) (update_block i (set_prev_free NONE) t) in
  let t2 := if negb (h =? NONE) then update_block h (set_prev_free i) t1 else t1 in
  let t3 := set_free_list_head bin.1 bin.2 i t2 in
  let t4 := set_fl_bitmap (Z.lor (fl_bitmap t3) (ushl 64 1 bin.1)) t3 in
  let t5 := set_sl_bitmap bin.1 (Z.lor (sl_bitmap t4 bin.1) (ushl 32 1 bin.2)) t4 in
  t' = set_free_block_count (uadd 32 (free_block_count t5) 1) t5.
Proof using Hl Hlen.
  cbv zeta. unfold t', iree_hal_memory_tlsf_insert_free_block. fold bin.
  pose proof (lo_head _ _ _ Hl bin insert_bin_ok) as Hh. fold h in Hh.
  destruct bin as [fl sl]. simpl in Hh. rewrite Hh. done.
Qed.

Lemma insert_scalars : same_scalars t t'.
Proof using Hl Hlen. rewrite insert_eq. split; by destruct (negb (h =? NONE)). Qed.

Lemma insert_storage : storage_ok t'.
Proof using Hl Hlen Hs.
  rewrite insert_eq. cbv zeta.
  match goal with |- storage_ok (set_free_block_count _ (set_sl_bitmap _ _ (set_fl_bitmap _
    (set_free_list_head _ _ _ ?t2)))) => assert (storage_ok t2) as H2 end.
  { destruct (negb (h =? NONE)); repeat apply storage_update; done. }
  by eapply storage_same; [| | |exact H2].
Qed.

(** The nodes after insertion. *)
Lemma insert_view j :
  valid t j →
  get_block t' j =
    if decide (j = i) then set_next_free h (set_prev_free NONE (get_block t i))
    else if decide (j = h) then set_prev_free i (get_block t h) else get_block t j.
Proof using Hl Hlen Hnin Hs Hv.
  intros Hj. rewrite insert_eq. cbv zeta.
  set (t1 := update_block i (set_next_free h) (update_block i (set_prev_free NONE) t)).
  rewrite (get_block_same (if negb (h =? NONE) then update_block h (set_prev_free i) t1 else t1))
    by done.
  assert (storage_ok t1) as Hs1 by (by repeat apply storage_update).
  assert (∀ k, valid t k → get_block t1 k = if decide (k = i)
    then set_next_free h (set_prev_free NONE (get_block t i)) else get_block t k) as H1.
  { intros k Hk. unfold t1.
    rewrite get_update by (done || by apply storage_update). rewrite !get_update by done.
    rewrite (decide_True _ _ (eq_refl i)). destruct (decide (i = k)), (decide (k = i)); congruence. }
  destruct (Z.eqb_spec h NONE) as [E|NE]; simpl negb; cbv iota.
  - rewrite H1 by done. case_decide; [done|]. rewrite decide_False; [done|].
    destruct (valid_not_none t j Hs Hj) as [? _]. congruence.
  - destruct (insert_head_valid NE) as [Hhv Hhi]. rewrite get_update by done.
    rewrite !H1 by done. rewrite (decide_False (P := h = i)) by done.
    destruct (decide (h = j)) as [<-|]; [by rewrite decide_False, decide_True|].
    case_decide; [done|]. by rewrite decide_False by congruence.
Qed.

Lemma insert_relinks : relinks t t' ({[i]} ∪ F).
Proof using Hl Hlen Hnin Hs Hv.
  split; intros j Hj; rewrite insert_view by done.
  - case_decide as E; [by subst|]. case_decide as E'; [by subst|done].
  - rewrite elem_of_union, elem_of_singleton. intros Hn. rewrite decide_False by tauto.
    rewrite decide_False; [done|]. intros ->. apply Hn. right.
    destruct (valid_not_none t h Hs Hj) as [NE _].
    pose proof (insert_head_member NE) as Hin.
    by apply (lo_mem _ _ _ Hl) in Hin as [HF _]; [|apply insert_bin_ok].
Qed.

Lemma insert_bin_of j : valid t j → bin_of t' j = bin_of t j.
Proof using Hl Hlen Hnin Hs Hv.
  intros Hj. destruct insert_relinks as [Hg _]. specialize (Hg j Hj).
  apply geom_fields in Hg as (_ & -> & _). done.
Qed.

(** The phases of the insertion that touch the matrix start from [t]'s matrix. *)
Local Lemma insert_matrix :
  matrix_ok t' ∧
  (∀ b, bin_ok b →
     free_list_head t' b.1 b.2 = if decide (b = bin) then i else free_list_head t b.1 b.2) ∧
  (∀ fl, 0 <= fl < 64 →
     sl_bitmap t' fl =
       if decide (fl = bin.1) then Z.lor (sl_bitmap t fl) (ushl 32 1 bin.2) else sl_bitmap t fl) ∧
  fl_bitmap t' = Z.lor (fl_bitmap t) (ushl 64 1 bin.1) ∧
  free_block_count t' = uadd 32 (free_block_count t) 1.
Proof using Hl Hlen.
  pose proof insert_bin_ok as Hb. pose proof (lo_matrix _ _ _ Hl) as Hm.
  rewrite insert_eq. cbv zeta.
  set (t1 := update_block i (set_next_free h) (update_block i (set_prev_free NONE) t)).
  set (t2 := if negb (h =? NONE) then update_block h (set_prev_free i) t1 else t1).
  assert (free_lists t2 = free_lists t ∧ sl_bitmaps t2 = sl_bitmaps t ∧ fl_bitmap t2 = fl_bitmap t ∧
    free_block_count t2 = free_block_count t) as (E1 & E2 & E3 & E4)
    by (unfold t2; by destruct (negb (h =? NONE))).
  assert (matrix_ok t2) as Hm2 by (destruct Hm; split; by rewrite ?E1, ?E2).
  split; [|split; [|split]].
  - destruct Hm as [Hr Hc Hbm]. split.
    + etransitivity; [apply length_alter|]. by rewrite E1.
    + intros j row. change (alter (alter (λ _, i) (Z.to_nat bin.2)) (Z.to_nat bin.1) (free_lists t2) !! j
        = Some row → length row = 32%nat). rewrite E1.
      destruct (decide (Z.to_nat bin.1 = j)) as [<-|].
      * rewrite list_lookup_alter_eq. intros (row' & Hrow & ->)%fmap_Some.
        rewrite length_alter. by apply (Hc _ _ Hrow).
      * rewrite list_lookup_alter_ne by done. apply Hc.
    + etransitivity; [apply length_insert|]. etransitivity; [|exact Hbm]. by rewrite <- E2.
  - intros [fl sl] Hok. etransitivity; [by apply (head_set t2)|].
    unfold free_list_head. rewrite E1. destruct bin as [fl' sl'] eqn:Eb. cbn [fst snd].
    apply decide_ext. by split.
  - intros fl Hfl. etransitivity; [exact (sl_bitmap_set t2 bin.1
      (Z.lor (sl_bitmap t2 bin.1) (ushl 32 1 bin.2)) fl Hm2 (proj1 Hb) Hfl)|]. unfold sl_bitmap. rewrite E2.
    destruct (decide (bin.1 = fl)) as [E|], (decide (fl = bin.1)); congruence.
  - split; [by rewrite <- E3|by rewrite <- E4].
Qed.

Local Lemma insert_not_in b : bin_ok b → i ∉ bins b.
Proof using Hl Hnin. intros Hok [HF _]%(lo_mem _ _ _ Hl); done. Qed.

Local Lemma insert_member_valid b j : bin_ok b → j ∈ bins b → valid t j.
Proof using Hl.
  intros Hok [HF _]%(lo_mem _ _ _ Hl); [|done]. by apply (lo_valid _ _ _ Hl).
Qed.

Local Lemma insert_links b :
  bin_ok b →
  dll (λ j, prev_free (get_block t' j)) (λ j, next_free (get_block t' j)) NONE (insert_bins b) NONE.
Proof using Hl Hlen Hnin Hs Hv.
  intros Hok. pose proof (lo_links _ _ _ Hl b Hok) as Hd.
  pose proof (lo_nodup _ _ _ Hl b Hok) as Hnd. pose proof (insert_not_in b Hok) as Hib.
  unfold insert_bins. case_decide as E.
  - subst b. simpl. rewrite insert_view, decide_True by done. cbn [prev_free next_free
      set_next_free set_prev_free]. split; [done|]. split; [done|].
    eapply dll_repoint_head; [done| |exact Hd]. intros j Hj. simpl.
    rewrite insert_view by by apply (insert_member_valid bin).
    rewrite decide_False by (by intros ->).
    assert (hd_error (bins bin) = Some j ↔ j = h) as Hhd.
    { unfold h. destruct (bins bin); [by apply elem_of_nil in Hj|]. simpl. naive_solver. }
    rewrite (decide_ext _ _ _ _ Hhd). case_decide; [by subst|done].
  - eapply dll_ext; [|exact Hd]. intros j Hj. simpl.
    rewrite insert_view by by apply (insert_member_valid b).
    rewrite decide_False by (by intros ->).
    rewrite decide_False; [done|]. intros ->. apply E.
    assert (h ∈ bins bin) as Hh.
    { apply insert_head_member. by apply (valid_not_none t h Hs), (insert_member_valid b). }
    apply (lo_mem _ _ _ Hl) in Hj as [_ <-]; [|done].
    apply (lo_mem _ _ _ Hl) in Hh as [_ ->]; [done|apply insert_bin_ok].
Qed.

Local Lemma insert_membership b j :
  bin_ok b → j ∈ insert_bins b ↔ j ∈ ({[i]} ∪ F : gset Z) ∧ bin_of t' j = b.
Proof using Hl Hlen Hnin Hs Hv.
  intros Hok. unfold insert_bins. rewrite elem_of_union, elem_of_singleton.
  pose proof (insert_bin_of j) as Hbo. pose proof (lo_mem _ _ _ Hl b j Hok) as Hmem.
  pose proof (insert_member_valid b j Hok) as Hbv. split.
  - case_decide as E; [rewrite elem_of_cons; intros [->|Hj]|intros Hj].
    + rewrite Hbo by done. by split; [left|].
    + rewrite Hbo by auto. apply Hmem in Hj as [? ?]. by split; [right|].
    + rewrite Hbo by auto. apply Hmem in Hj as [? ?]. by split; [right|].
  - intros [[->|HF] E].
    + rewrite Hbo in E by done. rewrite decide_True by done. by left.
    + rewrite Hbo in E by by apply (lo_valid _ _ _ Hl).
      case_decide; [apply elem_of_cons; right|]; by apply Hmem.
Qed.

Local Lemma insert_sl_bits fl sl :
  bin_ok (fl, sl) → Z.testbit (sl_bitmap t' fl) sl = bool_decide (insert_bins (fl, sl) ≠ []).
Proof using Hl Hlen.
  destruct insert_matrix as (_ & _ & Hsl & _). pose proof insert_bin_ok as Hb.
  intros [Hfl' Hsl']. simpl in Hfl', Hsl'. rewrite Hsl by done.
  pose proof (lo_sl _ _ _ Hl fl sl (conj Hfl' Hsl')) as Hbit.
  unfold insert_bins. case_decide as E.
  - rewrite bitmap_set_bit by (lia || apply Hb). rewrite Hbit.
    destruct bin as [fl0 sl0] eqn:Eb. cbn [fst snd] in *. subst fl0.
    destruct (decide (sl = sl0)) as [->|].
    + rewrite decide_True, (bool_decide_true (sl0 = sl0)) by done. done.
    + rewrite decide_False by congruence. by rewrite (bool_decide_false (sl = sl0)).
  - rewrite decide_False; [done|]. intros <-. by apply E.
Qed.

Local Lemma insert_fl_bits fl :
  0 <= fl < 64 → Z.testbit (fl_bitmap t') fl = bool_decide (sl_bitmap t' fl ≠ 0).
Proof using Hl Hlen.
  destruct insert_matrix as (_ & _ & Hsl & Hfl & _). pose proof insert_bin_ok as Hb.
  intros Hfl'. rewrite Hfl, Hsl by done. rewrite bitmap_set_bit by (lia || apply Hb).
  rewrite (lo_fl _ _ _ Hl fl Hfl'). case_decide as E.
  - subst fl. rewrite (bool_decide_true (bin.1 = bin.1)) by done. symmetry.
    apply bool_decide_true, (nonzero_testbit _ bin.2). rewrite bitmap_set_bit by apply Hb.
    by rewrite bool_decide_true.
  - by rewrite (bool_decide_false (fl = bin.1)).
Qed.

Local Lemma insert_count : free_block_count t' = Z.of_nat (size ({[i]} ∪ F : gset Z)).
Proof using Hl Hlen Hnin Hs Hv.
  destruct insert_matrix as (_ & _ & _ & _ & Hcount). rewrite Hcount, (lo_count _ _ _ Hl).
  assert (Z.of_nat (size ({[i]} ∪ F)) = Z.of_nat (size F) + 1) as Esz.
  { rewrite size_union by set_solver. rewrite size_singleton. lia. }
  destruct (lists_count_bound t bins F Hs Hl) as [_ Hc].
  pose proof (handles_size ({[i]} ∪ F) (block_capacity t)) as Hsz. rewrite uadd_small; [lia|].
  assert (Z.of_nat (size ({[i]} ∪ F)) <= Z.max 0 (block_capacity t)).
  { apply Hsz. intros j [->%elem_of_singleton|HF]%elem_of_union; [done|].
    by apply (lo_valid _ _ _ Hl). }
  destruct Hv. lia.
Qed.

(** Insertion adds the block to its list and to both bitmap levels. *)
Lemma insert_lists : lists_ok t' insert_bins ({[i]} ∪ F).
Proof using Hl Hlen Hnin Hs Hv.
  destruct insert_matrix as (Hm & Hhead & Hsl & Hfl & _).
  pose proof insert_bin_ok as Hb. pose proof (ss_capacity _ _ insert_scalars) as Hcap.
  split; [done|..|exact insert_count].
  - intros b Hok. rewrite Hhead by done. unfold insert_bins. case_decide; [done|].
    by apply (lo_head _ _ _ Hl).
  - apply insert_links.
  - intros b Hok. unfold insert_bins. case_decide; [|by apply (lo_nodup _ _ _ Hl)].
    apply NoDup_cons. split; [by apply insert_not_in|by apply (lo_nodup _ _ _ Hl)].
  - apply insert_membership.
  - intros j Hj. assert (valid t j ∧ 0 < blk_length (get_block t j) < 2 ^ 64) as [Hjv Hjl].
    { apply elem_of_union in Hj as [->%elem_of_singleton|HF]; [done|].
      by apply (lo_valid _ _ _ Hl). }
    unfold valid. rewrite Hcap. split; [done|]. destruct insert_relinks as [Hg _].
    specialize (Hg j Hjv). apply geom_fields in Hg as (_ & -> & _). done.
  - apply insert_sl_bits.
  - intros fl Hfl'. rewrite Hsl by done. pose proof (lo_sl_width _ _ _ Hl fl Hfl').
    case_decide; [|done]. apply lor_in_width; [lia|done|]. apply ushl_one_width. apply Hb.
  - apply insert_fl_bits.
  - rewrite Hfl. apply lor_in_width; [lia|apply (lo_fl_width _ _ _ Hl)|]. apply ushl_one_width, Hb.
Qed.
End insert.

(** ** Removal *)

Section remove.
Context (t : tlsf_t) (bins : Z * Z → list Z) (F : gset Z) (i : Z) (l1 l2 : list Z).
Context (Hs : storage_ok t) (Hl : lists_ok t bins F) (Hin : i ∈ F).

Let bin := bin_of t i.
Context (Hsplit : bins bin = l1 ++ i :: l2).

Let p := last_or NONE l1.
Let n := hd NONE l2.
Let t' := iree_hal_memory_tlsf_remove_free_block i t.

(** The matrix after unlinking the block. *)
Definition remove_bins : Z * Z → list Z := λ b, if decide (b = bin) then l1 ++ l2 else bins b.

Local Lemma remove_valid : valid t i ∧ bin_ok bin.
Proof using All. destruct (lo_valid _ _ _ Hl i Hin). split; [done|]. by apply bin_of_ok. Qed.

Local Lemma remove_bin_members j : j ∈ l1 ++ i :: l2 → valid t j.
Proof using All.
  rewrite <- Hsplit. intros [HF _]%(lo_mem _ _ _ Hl); [|apply remove_valid].
  by apply (lo_valid _ _ _ Hl).
Qed.

Local Lemma remove_nodup :
  NoDup l1 ∧ NoDup l2 ∧ i ∉ l1 ∧ i ∉ l2 ∧ (∀ j, j ∈ l1 → j ∉ l2) ∧ NoDup (l1 ++ l2).
Proof using All.
  pose proof (lo_nodup _ _ _ Hl bin (proj2 remove_valid)) as Hnd. rewrite Hsplit in Hnd.
  pose proof Hnd as (H1 & Hd & [Hi2 H2]%NoDup_cons)%NoDup_app.
  assert (i ∉ l1) by (intros Hi; apply (Hd i Hi); by left).
  assert (∀ j, j ∈ l1 → j ∉ l2) by (intros j Hj Hj2; apply (Hd j Hj); by right).
  do 5 (split; [done|]). apply NoDup_app. done.
Qed.

Local Lemma remove_links_at :
  prev_free (get_block t i) = p ∧ next_free (get_block t i) = n.
Proof using All.
  pose proof (lo_links _ _ _ Hl bin (proj2 remove_valid)) as Hd. rewrite Hsplit in Hd.
  by apply dll_member in Hd.
Qed.

Local Lemma remove_prev : p ≠ NONE → p ∈ l1.
Proof using All.
  unfold p, last_or. destruct (last l1) as [k|] eqn:E; [|done]. intros _.
  apply last_Some in E as [l ->]. apply elem_of_app. right. by left.
Qed.

Local Lemma remove_next : n ≠ NONE → n ∈ l2.
Proof using All. unfold n. destruct l2; [done|]. by left. Qed.

Local Lemma remove_neighbors :
  (p ≠ NONE → valid t p ∧ p ≠ i) ∧ (n ≠ NONE → valid t n ∧ n ≠ i) ∧
  (p ≠ NONE → n ≠ NONE → n ≠ p).
Proof using All.
  destruct remove_nodup as (_ & _ & Hi1 & Hi2 & Hd & _). split; [|split].
  - intros NE. pose proof (remove_prev NE) as Hp. split; [|by intros E; rewrite E in Hp].
    apply remove_bin_members, elem_of_app. by left.
  - intros NE. pose proof (remove_next NE) as Hn. split; [|by intros E; rewrite E in Hn].
    apply remove_bin_members, elem_of_app. right. by right.
  - intros NEp NEn E. pose proof (remove_prev NEp) as Hp. pose proof (remove_next NEn) as Hn.
    rewrite E in Hn. by apply (Hd p).
Qed.

(** The allocator after each phase of the unlinking, and after the bitmaps. *)
Let t1 := if negb (p =? NONE) then update_block p (set_next_free n) t
          else set_free_list_head bin.1 bin.2 n t.
Let t2 := if negb (n =? NONE) then update_block n (set_prev_free p) t1 else t1.
Let t3 := update_block i (set_next_free NONE) (update_block i (set_prev_free NONE) t2).
Let t4 := if free_list_head t3 bin.1 bin.2 =? NONE then
            let t4 := set_sl_bitmap bin.1
              (Z.land (sl_bitmap t3 bin.1) (unot 32 (ushl 32 1 bin.2))) t3 in
            if sl_bitmap t4 bin.1 =? 0
            then set_fl_bitmap (Z.land (fl_bitmap t4) (unot 64 (ushl 64 1 bin.1))) t4 else t4
          else t3.

Local Lemma remove_eq : t' = set_free_block_count (usub 32 (free_block_count t4) 1) t4.
Proof using All.
  unfold t', iree_hal_memory_tlsf_remove_free_block. fold bin.
  destruct remove_links_at as [-> ->]. unfold t4, t3, t2, t1. by destruct bin as [fl sl].
Qed.

Local Lemma remove_segments :
  block_segments t' = block_segments t3 ∧ free_lists t' = free_lists t3.
Proof using All.
  rewrite remove_eq. unfold t4. destruct (free_list_head t3 bin.1 bin.2 =? NONE); [|done].
  cbv zeta. by destruct (sl_bitmap _ _ =? 0).
Qed.

Lemma remove_scalars : same_scalars t t'.
Proof using All.
  assert (same_scalars t t3) as [].
  { unfold t3, t2, t1. split; by destruct (negb (n =? NONE)), (negb (p =? NONE)). }
  rewrite remove_eq. unfold t4. destruct (free_list_head t3 bin.1 bin.2 =? NONE); [|done].
  cbv zeta. by destruct (sl_bitmap _ _ =? 0).
Qed.

Local Lemma remove_storage_phases : storage_ok t1 ∧ storage_ok t2 ∧ storage_ok t3.
Proof using All.
  assert (storage_ok t1) as H1.
  { unfold t1. destruct (negb (p =? NONE)); [by apply storage_update|].
    by eapply storage_same; [| | |exact Hs]. }
  assert (storage_ok t2) as H2.
  { unfold t2. destruct (negb (n =? NONE)); [by apply storage_update|done]. }
  split; [done|]. split; [done|]. by repeat apply storage_update.
Qed.

Lemma remove_storage : storage_ok t'.
Proof using All.
  destruct remove_storage_phases as (_ & _ & H3). destruct remove_segments as [E _].
  pose proof remove_scalars as Hsc.
  assert (config t3 = config t ∧ block_capacity t3 = block_capacity t) as [Ec Ecap].
  { unfold t3, t2, t1. by destruct (negb (n =? NONE)), (negb (p =? NONE)). }
  eapply storage_same; [| | |exact H3]; [by rewrite (ss_config _ _ Hsc)| |done].
  by rewrite (ss_capacity _ _ Hsc).
Qed.

(** The nodes after removal. *)
Lemma remove_view j :
  valid t j → get_block t' j =
    if decide (j = i) then set_next_free NONE (set_prev_free NONE (get_block t i))
    else if decide (j = p) then set_next_free n (get_block t p)
    else if decide (j = n) then set_prev_free p (get_block t n) else get_block t j.
Proof using All.
  intros Hj. destruct remove_segments as [Eseg _].
  assert (config t' = config t3) as Ec.
  { rewrite (ss_config _ _ remove_scalars). unfold t3, t2, t1.
    by destruct (negb (n =? NONE)), (negb (p =? NONE)). }
  rewrite (get_block_same t3) by done. clear Eseg Ec.
  destruct remove_storage_phases as (H1 & H2 & _). destruct remove_valid as [Hiv _].
  destruct remove_neighbors as (Hpv & Hnv & Hpn).
  assert (block_capacity t1 = block_capacity t ∧ block_capacity t2 = block_capacity t) as [C1 C2]
    by (unfold t2, t1; by destruct (negb (n =? NONE)), (negb (p =? NONE))).
  assert (∀ k, valid t k → valid t1 k ∧ valid t2 k) as Hvv
    by (intros k Hk; unfold valid; by rewrite C1, C2).
  assert (∀ k, valid t k → k ≠ NONE) as Hnn by (intros k Hk; by apply (valid_not_none t)).
  assert (∀ k, valid t k → get_block t1 k =
    if decide (k = p) then set_next_free n (get_block t p) else get_block t k) as G1.
  { intros k Hk. unfold t1. destruct (Z.eqb_spec p NONE) as [E|NE]; simpl negb; cbv iota.
    - rewrite decide_False by (rewrite E; by apply Hnn). by apply get_block_same.
    - rewrite get_update by (done || by apply Hpv). by destruct (decide (p = k)), (decide (k = p)). }
  assert (∀ k, valid t k → get_block t2 k =
    if decide (k = p) then set_next_free n (get_block t p)
    else if decide (k = n) then set_prev_free p (get_block t n) else get_block t k) as G2.
  { intros k Hk. unfold t2. destruct (Z.eqb_spec n NONE) as [E|NE]; simpl negb; cbv iota.
    - rewrite G1 by done. case_decide; [done|]. by rewrite decide_False by (rewrite E; by apply Hnn).
    - destruct (Hnv NE) as [Hn _]. rewrite get_update by (done || by apply Hvv).
      rewrite !G1 by done. destruct (decide (n = k)) as [<-|].
      + assert (n ≠ p) by (intros E; apply (Hpn ltac:(congruence) NE E)).
        by rewrite !(decide_False (P := n = p)), (decide_True (P := n = n)) by done.
      + case_decide; [done|]. by rewrite decide_False by congruence. }
  unfold t3. rewrite get_update; [|by apply storage_update|by apply Hvv|by apply Hvv].
  rewrite !get_update by (done || by apply Hvv). rewrite !G2 by done.
  assert (i ≠ p) by (intros E; apply (Hpv ltac:(rewrite <- E; by apply Hnn)); done).
  assert (i ≠ n) by (intros E; apply (Hnv ltac:(rewrite <- E; by apply Hnn)); done).
  destruct (decide (i = j)) as [<-|].
  - rewrite !(decide_True (P := i = i)) by done. by rewrite !(decide_False (P := i = p)),
      !(decide_False (P := i = n)) by done.
  - by rewrite (decide_False (P := j = i)) by congruence.
Qed.

Lemma remove_relinks : relinks t t' F.
Proof using All.
  destruct remove_neighbors as (Hpv & Hnv & _). destruct remove_valid as [_ Hb].
  assert (∀ k, k ∈ l1 ++ i :: l2 → k ∈ F) as HF.
  { intros k. rewrite <- Hsplit. intros [? _]%(lo_mem _ _ _ Hl); done. }
  split; intros j Hj; rewrite remove_view by done.
  - repeat case_decide; by subst.
  - intros Hn. assert (∀ k, k ∈ l1 ++ i :: l2 → j ≠ k) as Hne by (intros k Hk ->; auto).
    pose proof (valid_not_none t j Hs Hj) as [Hnn _].
    rewrite !decide_False; [done|..].
    + intros ->. apply (Hne n); [|done]. apply elem_of_app. right. right. by apply remove_next.
    + intros ->. apply (Hne p); [|done]. apply elem_of_app. left. by apply remove_prev.
    + apply Hne, elem_of_app. right. by left.
Qed.

Local Lemma remove_first : p = NONE → l1 = [].
Proof using All.
  unfold p, last_or. destruct (last l1) as [k|] eqn:E; [|by apply last_None in E].
  simpl. intros ->. apply last_Some in E as [l El]. exfalso.
  apply (none_not_valid t Hs), remove_bin_members. rewrite El.
  rewrite <- app_assoc. apply elem_of_app. right. by left.
Qed.

Local Lemma remove_matrix3 : matrix_ok t3 ∧ sl_bitmaps t3 = sl_bitmaps t ∧
  fl_bitmap t3 = fl_bitmap t ∧ free_block_count t3 = free_block_count t.
Proof using All.
  pose proof (lo_matrix _ _ _ Hl) as [Hr Hc Hbm].
  assert (sl_bitmaps t3 = sl_bitmaps t ∧ fl_bitmap t3 = fl_bitmap t ∧
    free_block_count t3 = free_block_count t) as (E1 & E2 & E3)
    by (unfold t3, t2, t1; by destruct (negb (n =? NONE)), (negb (p =? NONE))).
  split; [|done]. assert (free_lists t3 = free_lists t1) as Ef
    by (unfold t3, t2; by destruct (negb (n =? NONE))).
  split; rewrite ?E1, ?Ef; [..|done]; unfold t1; destruct (negb (p =? NONE)); try done.
  - etransitivity; [apply length_alter|done].
  - intros j row. cbn [set_free_list_head free_lists set_free_lists].
    destruct (decide (Z.to_nat bin.1 = j)) as [<-|].
    + rewrite list_lookup_alter_eq. intros (row' & Hrow & ->)%fmap_Some.
      rewrite length_alter. by apply (Hc _ _ Hrow).
    + rewrite list_lookup_alter_ne by done. apply Hc.
Qed.

Local Lemma remove_heads3 b :
  bin_ok b → free_list_head t3 b.1 b.2 = hd NONE (remove_bins b).
Proof using All.
  intros Hok. destruct remove_valid as [_ Hb]. pose proof (lo_matrix _ _ _ Hl) as Hm.
  pose proof remove_first as Hfirst. pose proof remove_prev as Hprev.
  assert (free_list_head t3 b.1 b.2 = free_list_head t1 b.1 b.2) as ->
    by (unfold t3, t2; by destruct (negb (n =? NONE))).
  unfold t1, remove_bins. destruct (Z.eqb_spec p NONE) as [E|NE]; simpl negb; cbv iota.
  - rewrite head_set by (done || by destruct bin, b). rewrite (Hfirst E). simpl app.
    destruct bin as [fl sl], b as [fl' sl']. cbn [fst snd].
    destruct (decide ((fl', sl') = (fl, sl))) as [E'|].
    + by rewrite decide_True by done.
    + rewrite decide_False by congruence. by apply (lo_head _ _ _ Hl (fl', sl')).
  - change (free_list_head t b.1 b.2 = hd NONE (if decide (b = bin) then l1 ++ l2 else bins b)).
    rewrite (lo_head _ _ _ Hl b Hok). case_decide as Eb; [|done]. subst b. rewrite Hsplit.
    pose proof (Hprev NE) as Hp. by destruct l1; [apply elem_of_nil in Hp|].
Qed.

Local Lemma remove_empty_iff : free_list_head t3 bin.1 bin.2 = NONE ↔ remove_bins bin = [].
Proof using All.
  destruct remove_valid as [_ Hb]. rewrite remove_heads3 by done. unfold remove_bins.
  rewrite decide_True by done. destruct (l1 ++ l2) as [|k l] eqn:E; [done|]. simpl.
  split; [|done]. intros ->. exfalso. apply (none_not_valid t Hs).
  apply remove_bin_members. assert (NONE ∈ l1 ++ l2) as Hk by (rewrite E; by left).
  apply elem_of_app in Hk as [?|?]; apply elem_of_app; [by left|right; by right].
Qed.

(** The bitmaps after removal. *)
Local Lemma remove_bitmaps :
  (∀ fl, 0 <= fl < 64 → sl_bitmap t' fl =
     if decide (fl = bin.1 ∧ remove_bins bin = [])
     then Z.land (sl_bitmap t fl) (unot 32 (ushl 32 1 bin.2)) else sl_bitmap t fl) ∧
  fl_bitmap t' =
    (if decide (remove_bins bin = [] ∧ sl_bitmap t' bin.1 = 0)
     then Z.land (fl_bitmap t) (unot 64 (ushl 64 1 bin.1)) else fl_bitmap t) ∧
  matrix_ok t' ∧ free_block_count t' = usub 32 (free_block_count t) 1.
Proof using All.
  destruct remove_matrix3 as (Hm3 & E1 & E2 & E3). destruct remove_valid as [_ [Hfl Hsl]].
  pose proof remove_empty_iff as Hempty.
  assert (matrix_ok t' ∧ free_block_count t' = usub 32 (free_block_count t) 1) as [Hm' Hc'].
  { destruct Hm3. rewrite remove_eq. unfold t4. rewrite <- E3.
    destruct (free_list_head t3 bin.1 bin.2 =? NONE); [|done].
    cbv zeta. destruct (sl_bitmap _ _ =? 0); (split; [|done]); split; try done;
      (etransitivity; [apply length_insert|done]). }
  split; [|split; [|done]].
  - intros fl Hfl'. rewrite remove_eq. unfold t4.
    destruct (Z.eqb_spec (free_list_head t3 bin.1 bin.2) NONE) as [E|NE].
    + apply Hempty in E. cbv zeta.
      set (cleared := set_sl_bitmap bin.1 _ t3).
      assert (∀ c : bool, sl_bitmap (set_free_block_count (usub 32 (free_block_count
        (if c then set_fl_bitmap (Z.land (fl_bitmap cleared) (unot 64 (ushl 64 1 bin.1))) cleared
         else cleared)) 1) (if c then set_fl_bitmap (Z.land (fl_bitmap cleared)
         (unot 64 (ushl 64 1 bin.1))) cleared else cleared)) fl = sl_bitmap cleared fl) as ->
        by (by intros []).
      unfold cleared. rewrite sl_bitmap_set by done.
      unfold sl_bitmap. rewrite E1. destruct (decide (bin.1 = fl)) as [Ef|].
      * rewrite decide_True by done. by rewrite Ef.
      * rewrite decide_False; [done|]. intros [? _]. congruence.
    + rewrite decide_False by (intros [_ ?%Hempty]; done).
      unfold sl_bitmap. by rewrite <- E1.
  - rewrite remove_eq. unfold t4.
    destruct (Z.eqb_spec (free_list_head t3 bin.1 bin.2) NONE) as [E|NE].
    + apply Hempty in E. cbv zeta.
      destruct (Z.eqb_spec (sl_bitmap (set_sl_bitmap bin.1 (Z.land (sl_bitmap t3 bin.1)
        (unot 32 (ushl 32 1 bin.2))) t3) bin.1) 0) as [Ez|Nz].
      * rewrite decide_True by (split; done). by rewrite <- E2.
      * rewrite decide_False by (intros [_ ?]; done). by rewrite <- E2.
    + rewrite decide_False by (intros [?%Hempty _]; done). by rewrite <- E2.
Qed.

Local Lemma remove_bin_of j : valid t j → bin_of t' j = bin_of t j.
Proof using All.
  intros Hj. destruct remove_relinks as [Hg _]. specialize (Hg j Hj).
  apply geom_fields in Hg as (_ & -> & _). done.
Qed.

Local Lemma remove_links b :
  bin_ok b →
  dll (λ j, prev_free (get_block t' j)) (λ j, next_free (get_block t' j)) NONE (remove_bins b) NONE.
Proof using All.
  intros Hok. destruct remove_valid as [Hiv Hb].
  destruct remove_nodup as (Hn1 & Hn2 & Hi1 & Hi2 & Hd & _).
  pose proof (lo_links _ _ _ Hl b Hok) as Hdll. unfold remove_bins. case_decide as E.
  - subst b. rewrite Hsplit in Hdll. apply dll_app in Hdll as [Hd1 (_ & _ & Hd2)].
    pose proof (valid_not_none t i Hs Hiv) as [Hinn _].
    assert (∀ j, j ∈ l1 ++ i :: l2 → j ≠ NONE) as Hnn.
    { intros j Hj%remove_bin_members. by apply (valid_not_none t). }
    apply dll_app. split.
    + eapply dll_repoint_last; [done| |exact Hd1]. intros j Hj. simpl.
      assert (j ∈ l1 ++ i :: l2) as Hj' by (apply elem_of_app; by left).
      rewrite remove_view by by apply remove_bin_members.
      rewrite (decide_False (P := j = i)) by (by intros ->).
      assert (last l1 = Some j ↔ j = p) as Hlast.
      { unfold p, last_or. destruct (last l1) as [k|] eqn:Ek; simpl; [naive_solver|].
        split; [done|]. intros ->. by destruct (Hnn NONE). }
      rewrite (decide_ext _ _ _ _ Hlast). case_decide; [by subst|].
      rewrite decide_False; [done|]. intros ->. apply (Hd n Hj). apply remove_next. by apply Hnn.
    + eapply dll_repoint_head; [done| |exact Hd2]. intros j Hj. simpl.
      assert (j ∈ l1 ++ i :: l2) as Hj' by (apply elem_of_app; right; by right).
      rewrite remove_view by by apply remove_bin_members.
      rewrite (decide_False (P := j = i)) by (by intros ->).
      assert (j ≠ p) as Hjp.
      { intros ->. apply (Hd p); [|done]. apply remove_prev. by apply Hnn. }
      rewrite (decide_False (P := j = p)) by done.
      assert (hd_error l2 = Some j ↔ j = n) as Hhd.
      { unfold n. destruct l2 as [|k ?]; [by apply elem_of_nil in Hj|]. simpl. naive_solver. }
      rewrite (decide_ext _ _ _ _ Hhd). case_decide; [by subst|done].
  - eapply dll_ext; [|exact Hdll]. intros j Hj. simpl.
    pose proof (proj1 (lo_mem _ _ _ Hl b j Hok) Hj) as [HF Ebin].
    assert (j ∉ l1 ++ i :: l2) as Hout.
    { rewrite <- Hsplit. intros [_ E']%(lo_mem _ _ _ Hl); [|done]. congruence. }
    assert (valid t j) as Hjv by by apply (lo_valid _ _ _ Hl).
    pose proof (valid_not_none t j Hs Hjv) as [Hjn _].
    rewrite remove_view by done. rewrite !decide_False; [done|..]; intros ->; apply Hout, elem_of_app.
    + right. right. by apply remove_next.
    + left. by apply remove_prev.
    + right. by left.
Qed.

Local Lemma remove_membership b j :
  bin_ok b → j ∈ remove_bins b ↔ j ∈ F ∖ {[i]} ∧ bin_of t' j = b.
Proof using All.
  intros Hok. destruct remove_nodup as (_ & _ & Hi1 & Hi2 & _ & _).
  pose proof (lo_mem _ _ _ Hl b j Hok) as Hmem. pose proof (remove_bin_of j) as Hbo.
  rewrite elem_of_difference, elem_of_singleton.
  assert (j ∈ remove_bins b ↔ j ∈ bins b ∧ j ≠ i) as ->.
  { unfold remove_bins. case_decide as E.
    - subst b. rewrite Hsplit, !elem_of_app, elem_of_cons. split; [|tauto].
      intros [Hj|Hj]; (split; [tauto|by intros ->]).
    - split; [|tauto]. intros Hj. split; [done|]. intros ->. apply Hmem in Hj as [_ ?]. by apply E. }
  rewrite Hmem. split.
  - intros [[HF E] Hne]. rewrite Hbo by by apply (lo_valid _ _ _ Hl). done.
  - intros [[HF Hne] E]. rewrite Hbo in E by by apply (lo_valid _ _ _ Hl). done.
Qed.

Local Lemma remove_sl_bits fl sl :
  bin_ok (fl, sl) → Z.testbit (sl_bitmap t' fl) sl = bool_decide (remove_bins (fl, sl) ≠ []).
Proof using All.
  intros Hok. pose proof Hok as [Hfl' Hsl']. simpl in Hfl', Hsl'.
  destruct remove_valid as [_ [Hbf Hbs]]. destruct remove_bitmaps as (Hsl & _).
  pose proof (lo_sl _ _ _ Hl fl sl Hok) as Hbit.
  pose proof (lo_sl_width _ _ _ Hl fl Hfl') as Hw. rewrite Hsl by done.
  destruct (decide ((fl, sl) = bin)) as [Eb|Nb].
  - assert (fl = bin.1 ∧ sl = bin.2) as [Ef Esl] by (rewrite <- Eb; done).
    rewrite Eb. case_decide as E.
    + rewrite bitmap_clear_bit by (done || lia). rewrite (bool_decide_true (sl = bin.2)) by done.
      symmetry. apply bool_decide_false. tauto.
    + rewrite Hbit, Eb, Hsplit. rewrite (bool_decide_true (remove_bins bin ≠ [])) by tauto.
      apply bool_decide_true. by destruct l1.
  - assert (remove_bins (fl, sl) = bins (fl, sl)) as -> by (unfold remove_bins; by rewrite decide_False).
    case_decide as E; [|done]. rewrite bitmap_clear_bit by (done || lia). rewrite Hbit.
    rewrite (bool_decide_false (sl = bin.2)); [done|]. intros ->. apply Nb.
    destruct E as [-> _]. by destruct bin.
Qed.

Local Lemma remove_sl_width fl : 0 <= fl < 64 → in_width 32 (sl_bitmap t' fl).
Proof using All.
  intros Hfl. destruct remove_bitmaps as (Hsl & _). rewrite Hsl by done.
  pose proof (lo_sl_width _ _ _ Hl fl Hfl). case_decide; [|done].
  apply land_in_width; [lia|done|]. apply unot_in_width. lia.
Qed.

Local Lemma remove_fl_bits fl :
  0 <= fl < 64 → Z.testbit (fl_bitmap t') fl = bool_decide (sl_bitmap t' fl ≠ 0).
Proof using All.
  intros Hfl. destruct remove_valid as [_ [Hbf Hbs]].
  destruct remove_bitmaps as (Hsl & Hflb & _). pose proof (lo_fl _ _ _ Hl fl Hfl) as Hbit.
  rewrite Hflb. destruct (decide (fl = bin.1)) as [Ef|Nf].
  - rewrite <- Ef in *. case_decide as E.
    + rewrite bitmap_clear_bit by (done || lia || apply (lo_fl_width _ _ _ Hl)).
      rewrite (bool_decide_true (fl = fl)) by done. symmetry. apply bool_decide_false. tauto.
    + rewrite Hbit. apply bool_decide_ext. rewrite Hsl in E |- * by done.
      destruct (decide (remove_bins bin = [])) as [Er|Nr].
      * rewrite decide_True in E |- * by done. split; [tauto|].
        intros Hc E0. apply Hc. rewrite E0. apply Z.land_0_l.
      * by rewrite decide_False by tauto.
  - rewrite (Hsl fl) by done. rewrite (decide_False (P := fl = bin.1 ∧ _)) by tauto.
    rewrite <- Hbit. case_decide; [|done].
    rewrite bitmap_clear_bit by (done || lia || apply (lo_fl_width _ _ _ Hl)).
    by rewrite (bool_decide_false (fl = bin.1)).
Qed.

Local Lemma remove_heads b :
  bin_ok b → free_list_head t' b.1 b.2 = hd NONE (remove_bins b).
Proof using All.
  intros Hok. destruct remove_segments as [_ E]. rewrite <- remove_heads3 by done.
  unfold free_list_head. by rewrite E.
Qed.

Local Lemma remove_bins_nodup b : bin_ok b → NoDup (remove_bins b).
Proof using All.
  intros Hok. unfold remove_bins. destruct (decide (b = bin)).
  - by destruct remove_nodup as (_ & _ & _ & _ & _ & ?).
  - by apply (lo_nodup _ _ _ Hl).
Qed.

Local Lemma remove_rest_valid j :
  j ∈ F ∖ {[i]} → valid t' j ∧ 0 < blk_length (get_block t' j) < 2 ^ 64.
Proof using All.
  intros [HF _]%elem_of_difference. destruct (lo_valid _ _ _ Hl j HF) as [Hjv Hjl].
  unfold valid. rewrite (ss_capacity _ _ remove_scalars). split; [done|].
  destruct remove_relinks as [Hg _].
  specialize (Hg j Hjv). apply geom_fields in Hg as (_ & -> & _). done.
Qed.

Local Lemma remove_fl_width : in_width 64 (fl_bitmap t').
Proof using All.
  destruct remove_bitmaps as (_ & Hflb & _). rewrite Hflb. pose proof (lo_fl_width _ _ _ Hl).
  destruct (decide (remove_bins bin = [] ∧ sl_bitmap t' bin.1 = 0)); [|done].
  apply land_in_width; [lia|done|]. apply unot_in_width. lia.
Qed.

Local Lemma remove_count : free_block_count t' = Z.of_nat (size (F ∖ {[i]})).
Proof using All.
  destruct remove_bitmaps as (_ & _ & _ & Hcount). rewrite Hcount, (lo_count _ _ _ Hl).
  destruct (lists_count_bound t bins F Hs Hl) as [? ?].
  pose proof (size_remove F i Hin) as Esz. rewrite Esz in *.
  clearbody t'. rewrite usub_small by (unfold in_width; lia). lia.
Qed.

(** Removal takes the block out of its list and clears the bits of emptied lists. *)
Lemma remove_lists : lists_ok t' remove_bins (F ∖ {[i]}).
Proof using All.
  split.
  - by destruct remove_bitmaps as (_ & _ & ? & _).
  - exact remove_heads.
  - exact remove_links.
  - exact remove_bins_nodup.
  - exact remove_membership.
  - exact remove_rest_valid.
  - exact remove_sl_bits.
  - exact remove_sl_width.
  - exact remove_fl_bits.
  - exact remove_fl_width.
  - exact remove_count.
Qed.
End remove.

(** ** Search *)

(** [~0u << n] keeps the bits from [n] up. *)
Lemma mask_from_testbit w n i :
  0 <= n → 0 <= i < w → Z.testbit (ushl w (umax w) n) i = (n <=? i).
Proof.
  intros Hn Hi. rewrite ushl_testbit by lia. rewrite (proj2 (Z.ltb_lt i w)) by lia. simpl.
  unfold umax. destruct (Z.leb_spec n i).
  - rewrite ones_testbit by lia. apply Z.ltb_lt. lia.
  - by apply Z.testbit_neg_r; lia.
Qed.

(** [~iree_shr(~0, w - 1 - n)] keeps the bits above [n]. *)
Lemma mask_above_testbit w n i :
  0 <= n < w → 0 <= i < w →
  Z.testbit (unot w (iree_shr w (umax w) (w - 1 - n))) i = (n <? i).
Proof.
  intros Hn Hi. rewrite iree_shr_ones by lia. rewrite unot_testbit, ones_testbit by lia.
  rewrite (proj2 (Z.ltb_lt i w)) by lia. simpl.
  destruct (Z.ltb_spec i (w - (w - 1 - n))), (Z.ltb_spec n i); lia || done.
Qed.

Section search.
Context (t : tlsf_t) (bins : Z * Z → list Z) (F : gset Z).
Context (Hs : storage_ok t) (Hl : lists_ok t bins F).

(** The head of a nonempty list is a listed block. *)
Lemma head_listed b :
  bin_ok b → bins b ≠ [] →
  free_list_head t b.1 b.2 ∈ F ∧ bin_of t (free_list_head t b.1 b.2) = b ∧
  free_list_head t b.1 b.2 ≠ NONE.
Proof using All.
  intros Hok Hne. rewrite (lo_head _ _ _ Hl b Hok).
  assert (hd NONE (bins b) ∈ bins b) as Hin by (destruct (bins b); [done|by left]).
  apply (lo_mem _ _ _ Hl) in Hin as [HF Eb]; [|done]. split; [done|]. split; [done|].
  by apply (valid_not_none t), (lo_valid _ _ _ Hl).
Qed.

(** The first list at or after [sl] within a first-level class. *)
Lemma scan_sl fl sl :
  bin_ok (fl, sl) →
  let sl_map := Z.land (sl_bitmap t fl) (ushl 32 (umax 32) sl) in
  (sl_map = 0 → ∀ sl', sl <= sl' < 32 → bins (fl, sl') = []) ∧
  (sl_map ≠ 0 →
     let found := iree_math_count_trailing_zeros_u32 sl_map in
     sl <= found < 32 ∧ bins (fl, found) ≠ []).
Proof using All.
  intros [Hfl Hsl] sl_map. simpl in Hfl, Hsl. pose proof (lo_sl_width _ _ _ Hl fl Hfl) as Hw.
  assert (in_width 32 sl_map) as Hmw.
  { apply land_in_width; [lia|done|]. apply wrap_in_width. lia. }
  assert (∀ i, 0 <= i < 32 → Z.testbit sl_map i = bool_decide (bins (fl, i) ≠ []) && (sl <=? i)) as Hbit.
  { intros i Hi. unfold sl_map. rewrite Z.land_spec, mask_from_testbit by lia.
    by rewrite (lo_sl _ _ _ Hl fl i) by done. }
  split.
  - intros E sl' Hsl'. specialize (Hbit sl' ltac:(lia)). rewrite E, Z.bits_0 in Hbit.
    rewrite (proj2 (Z.leb_le sl sl')), andb_true_r in Hbit by lia. symmetry in Hbit.
    apply bool_decide_eq_false in Hbit. by apply dec_stable.
  - intros NE. assert (0 < sl_map) as Hpos by (destruct Hmw; lia). cbv zeta.
    rewrite count_trailing_zeros_u32_eq by done.
    pose proof (ctz_nonneg sl_map). pose proof (ctz_bound 32 sl_map ltac:(lia) Hpos Hmw).
    pose proof (ctz_testbit sl_map Hpos) as Hc. rewrite Hbit in Hc by lia.
    apply andb_true_iff in Hc as [Hb%bool_decide_eq_true Hle%Z.leb_le]. done.
Qed.

(** The first nonempty first-level class above [fl]. *)
Lemma scan_fl fl :
  0 <= fl < 64 →
  let fl_map := Z.land (fl_bitmap t) (unot 64 (iree_shr 64 (umax 64) (63 - fl))) in
  (fl_map = 0 → ∀ fl', fl < fl' < 64 → sl_bitmap t fl' = 0) ∧
  (fl_map ≠ 0 →
     let found := iree_math_count_trailing_zeros_u64 fl_map in
     fl < found < 64 ∧ sl_bitmap t found ≠ 0).
Proof using All.
  intros Hfl fl_map. pose proof (lo_fl_width _ _ _ Hl) as Hw.
  assert (in_width 64 fl_map) as Hmw.
  { apply land_in_width; [lia|done|]. apply unot_in_width. lia. }
  assert (∀ i, 0 <= i < 64 →
    Z.testbit fl_map i = bool_decide (sl_bitmap t i ≠ 0) && (fl <? i)) as Hbit.
  { intros i Hi. unfold fl_map. rewrite Z.land_spec.
    rewrite (mask_above_testbit 64) by lia. by rewrite (lo_fl _ _ _ Hl i). }
  split.
  - intros E fl' Hfl'. specialize (Hbit fl' ltac:(lia)). rewrite E, Z.bits_0 in Hbit.
    rewrite (proj2 (Z.ltb_lt fl fl')), andb_true_r in Hbit by lia. symmetry in Hbit.
    apply bool_decide_eq_false in Hbit. by apply dec_stable.
  - intros NE. assert (0 < fl_map) as Hpos by (destruct Hmw; lia). cbv zeta.
    rewrite count_trailing_zeros_u64_eq by done.
    pose proof (ctz_nonneg fl_map). pose proof (ctz_bound 64 fl_map ltac:(lia) Hpos Hmw).
    pose proof (ctz_testbit fl_map Hpos) as Hc. rewrite Hbit in Hc by lia.
    apply andb_true_iff in Hc as [Hb%bool_decide_eq_true Hle%Z.ltb_lt]. done.
Qed.

(** The first list of a nonempty first-level class. *)
Lemma first_sl fl :
  0 <= fl < 64 → sl_bitmap t fl ≠ 0 →
  let found := iree_math_count_trailing_zeros_u32 (sl_bitmap t fl) in
  0 <= found < 32 ∧ bins (fl, found) ≠ [].
Proof using All.
  intros Hfl NE. pose proof (lo_sl_width _ _ _ Hl fl Hfl) as Hw. cbv zeta.
  assert (0 < sl_bitmap t fl) as Hpos by (destruct Hw; lia).
  rewrite count_trailing_zeros_u32_eq by done.
  pose proof (ctz_nonneg (sl_bitmap t fl)). pose proof (ctz_bound 32 _ ltac:(lia) Hpos Hw).
  split; [lia|]. pose proof (ctz_testbit _ Hpos) as Hc.
  rewrite (lo_sl _ _ _ Hl) in Hc by (split; simpl; lia). by apply bool_decide_eq_true in Hc.
Qed.

Lemma empty_class fl sl : bin_ok (fl, sl) → sl_bitmap t fl = 0 → bins (fl, sl) = [].
Proof using All.
  intros Hok E. pose proof (lo_sl _ _ _ Hl fl sl Hok) as Hb. rewrite E, Z.bits_0 in Hb.
  symmetry in Hb. apply bool_decide_eq_false in Hb. by apply dec_stable.
Qed.

(** The two bitmap scans find the first nonempty list at or after a bin. *)
Definition scan_bins (fl sl : Z) : Z :=
  let sl_map := Z.land (sl_bitmap t fl) (ushl 32 (umax 32) sl) in
  if negb (sl_map =? 0) then free_list_head t fl (iree_math_count_trailing_zeros_u32 sl_map)
  else
    let fl_map := Z.land (fl_bitmap t) (unot 64 (iree_shr 64 (umax 64) (63 - fl))) in
    if fl_map =? 0 then NONE
    else
      let found_fl := iree_math_count_trailing_zeros_u64 fl_map in
      free_list_head t found_fl (iree_math_count_trailing_zeros_u32 (sl_bitmap t found_fl)).

Lemma scan_bins_spec fl sl :
  bin_ok (fl, sl) →
  (scan_bins fl sl ≠ NONE →
     scan_bins fl sl ∈ F ∧ bin_key (fl, sl) <= bin_key (bin_of t (scan_bins fl sl))) ∧
  (scan_bins fl sl = NONE → ∀ b, bin_ok b → bin_key (fl, sl) <= bin_key b → bins b = []).
Proof using All.
  intros Hok. pose proof Hok as [Hfl Hsl]. simpl in Hfl, Hsl. unfold scan_bins. cbv zeta.
  destruct (scan_sl fl sl Hok) as [Hsl0 Hsl1]. destruct (scan_fl fl Hfl) as [Hfl0 Hfl1].
  destruct (Z.eqb_spec (Z.land (sl_bitmap t fl) (ushl 32 (umax 32) sl)) 0) as [E|NE];
    simpl negb; cbv iota.
  2: { destruct (Hsl1 NE) as [Hf Hne].
    destruct (head_listed (fl, iree_math_count_trailing_zeros_u32
      (Z.land (sl_bitmap t fl) (ushl 32 (umax 32) sl)))) as (HF & Eb & Hnn); [split; simpl; lia|done|].
    cbn [fst snd] in *. split; [intros _|done]. rewrite Eb. unfold bin_key. simpl. split; [done|lia]. }
  destruct (Z.eqb_spec (Z.land (fl_bitmap t) (unot 64 (iree_shr 64 (umax 64) (63 - fl)))) 0)
    as [E'|NE'].
  - split; [done|]. intros _ [fl' sl'] Hok' Hkey. pose proof Hok' as [Hfl' Hsl'].
    unfold bin_key in Hkey. simpl in Hfl', Hsl', Hkey.
    destruct (decide (fl' = fl)) as [->|]; [apply Hsl0; [done|lia]|].
    apply empty_class; [done|]. apply Hfl0; [done|lia].
  - destruct (Hfl1 NE') as [Hf Hne].
    set (ff := iree_math_count_trailing_zeros_u64 _) in *.
    destruct (first_sl ff ltac:(lia) Hne) as [Hs1 Hs2].
    destruct (head_listed (ff, iree_math_count_trailing_zeros_u32 (sl_bitmap t ff)))
      as (HF & Eb & Hnn); [split; simpl; lia|done|].
    cbn [fst snd] in *. split; [intros _|done]. rewrite Eb. unfold bin_key. simpl. split; [done|lia].
Qed.

Lemma mapping_search_ok n b : 0 < n < 2 ^ 64 → iree_hal_memory_tlsf_mapping_search n = Some b → bin_ok b.
Proof.
  intros Hn Es. assert (in_width 64 n) as Hw by (split; lia). rewrite mapping_search_eq in Es by (done || lia). case_decide; [|done].
  assert (b = iree_hal_memory_tlsf_mapping_insert (search_length n)) as -> by congruence. unfold search_length in *.
  pose proof (pow2_pos (sl_shift n) ltac:(unfold sl_shift; lia)).
  apply mapping_insert_ok; [lia|split; lia].
Qed.

(** A block the search returns is listed and long enough; when it returns none, every
    listed block that is long enough sits behind the head of the request's own list. *)
Lemma find_suitable_spec n :
  0 < n < 2 ^ 64 →
  let r := iree_hal_memory_tlsf_find_suitable_block t n in
  (r ≠ NONE → r ∈ F ∧ n <= blk_length (get_block t r)) ∧
  (r = NONE → ∀ j, j ∈ F → n <= blk_length (get_block t j) →
     bin_of t j = iree_hal_memory_tlsf_mapping_insert n ∧
     blk_length (get_block t (hd NONE (bins (bin_of t j)))) < n).
Proof using All.
  intros Hn r. assert (in_width 64 n) as Hw by (split; lia).
  pose proof (mapping_insert_ok n ltac:(lia) Hw) as Hbin.
  assert (r = if (if negb (hd NONE (bins (iree_hal_memory_tlsf_mapping_insert n)) =? NONE)
                  then n <=? blk_length (get_block t
                         (hd NONE (bins (iree_hal_memory_tlsf_mapping_insert n)))) else false)
              then hd NONE (bins (iree_hal_memory_tlsf_mapping_insert n))
              else match iree_hal_memory_tlsf_mapping_search n with
                   | None => NONE | Some (fl, sl) => scan_bins fl sl end) as Er.
  { unfold r, iree_hal_memory_tlsf_find_suitable_block.
    rewrite <- (lo_head _ _ _ Hl _ Hbin). by destruct (iree_hal_memory_tlsf_mapping_insert n). }
  rewrite Er. clear Er r. set (b0 := iree_hal_memory_tlsf_mapping_insert n) in *.
  set (h := hd NONE (bins b0)).
  assert (h ≠ NONE → h ∈ F) as HhF.
  { intros Hh. assert (h ∈ bins b0) as Hin by (unfold h in *; destruct (bins b0); [done|by left]).
    by apply (lo_mem _ _ _ Hl) in Hin as [? _]. }
  destruct (if negb (h =? NONE) then n <=? blk_length (get_block t h) else false) eqn:Ehead.
  { destruct (Z.eqb_spec h NONE) as [|NE]; [done|]. simpl in Ehead. apply Z.leb_le in Ehead.
    split; [by intros _; split; [apply HhF|]|done]. }
  assert (∀ j, j ∈ F → n <= blk_length (get_block t j) →
    bin_of t j = b0 → blk_length (get_block t h) < n) as Hhead.
  { intros j HF Hj Eb. destruct (Z.eqb_spec h NONE) as [E|NE]; [|by apply Z.leb_gt in Ehead].
    assert (j ∈ bins b0) as Hin by (by apply (lo_mem _ _ _ Hl)).
    unfold h in E. destruct (bins b0) as [|k l] eqn:El; [by apply elem_of_nil in Hin|].
    simpl in E. subst k. exfalso. apply (none_not_valid t Hs), (lo_valid _ _ _ Hl).
    apply (lo_mem _ _ _ Hl b0); [done|]. rewrite El. by left. }
  assert (∀ j, j ∈ F → 0 < blk_length (get_block t j) ∧ in_width 64 (blk_length (get_block t j)))
    as Hlens by (intros j [_ ?]%(lo_valid _ _ _ Hl); unfold in_width; lia).
  pose proof (search_complete n) as Hcomp. pose proof (search_sound n) as Hsound.
  destruct (iree_hal_memory_tlsf_mapping_search n) as [[fl sl]|] eqn:Es.
  - destruct (scan_bins_spec fl sl (mapping_search_ok n _ Hn Es)) as [Hfound Hnone]. split.
    + intros [HF Hkey]%Hfound. split; [done|]. destruct (Hlens _ HF).
      apply (Hsound (fl, sl)); done || lia.
    + intros E j HF Hj. destruct (Hlens j HF) as [? Hjw].
      assert (bin_of t j = b0) as Eb; [|by rewrite Eb; split; [|by apply (Hhead j)]].
      apply Hcomp; [lia|done|done|]. apply Z.nle_gt. intros Hk.
      assert (j ∈ bins (bin_of t j)) as Hin by (apply (lo_mem _ _ _ Hl); [by apply mapping_insert_ok|done]).
      rewrite (Hnone E) in Hin by (done || by apply mapping_insert_ok). by apply elem_of_nil in Hin.
  - split; [done|]. intros _ j HF Hj. destruct (Hlens j HF) as [? Hjw].
    assert (bin_of t j = b0) as Eb by (apply Hcomp; done || lia).
    rewrite Eb. split; [done|]. by apply (Hhead j).
Qed.
End search.
