(* ===== verification/TlsfInvariant.v ===== *)
(** * The invariant of the TLSF allocator

    The physical list tiles the managed range; the unused list, the physical list and at
    most one node in flight partition the handles; the free-list matrix holds the free
    blocks; every inline frontier is a valid frontier within its capacity.  The file
    proves how each internal step (list insertion and removal, node allocation and
    release, splitting, absorbing a neighbor, merging frontiers) transforms it. *)

From S2P Require Import Prelude BaseMath Allocator Frontier Tlsf TlsfMapping TlsfStore TlsfLists.
From stdpp Require Import base numbers list gmap fin_sets.

Local Open Scope Z_scope.

(** ** Flags *)

Definition flags_ok (f : Z) : Prop := 0 <= f < 8.

Abbreviation is_free b := (has_flag (blk_flags b) FLAG_FREE).
Abbreviation is_last b := (has_flag (blk_flags b) FLAG_LAST).
Abbreviation is_tainted b := (has_flag (blk_flags b) FLAG_TAINTED).

Lemma flags_cases f : flags_ok f → f = 0 ∨ f = 1 ∨ f = 2 ∨ f = 3 ∨ f = 4 ∨ f = 5 ∨ f = 6 ∨ f = 7.
Proof. unfold flags_ok. lia. Qed.

(** The three flags are independent bits. *)
Inductive one_flag : Z → Prop :=
  | one_free : one_flag FLAG_FREE
  | one_last : one_flag FLAG_LAST
  | one_tainted : one_flag FLAG_TAINTED.

Lemma has_with f a b :
  flags_ok f → one_flag a → one_flag b →
  has_flag (with_flag f a) b = bool_decide (a = b) || has_flag f b.
Proof. intros Hf%flags_cases [] []; destruct_or! Hf; subst; reflexivity. Qed.

Lemma has_without f a b :
  flags_ok f → one_flag a → one_flag b →
  has_flag (without_flag f a) b = negb (bool_decide (a = b)) && has_flag f b.
Proof. intros Hf%flags_cases [] []; destruct_or! Hf; subst; reflexivity. Qed.

Lemma with_flags_ok f a : flags_ok f → one_flag a → flags_ok (with_flag f a).
Proof. intros Hf%flags_cases []; destruct_or! Hf; subst; done. Qed.

Lemma without_flags_ok f a : flags_ok f → one_flag a → flags_ok (without_flag f a).
Proof. intros Hf%flags_cases []; destruct_or! Hf; subst; done. Qed.

(** The flags of a split remainder. *)
Lemma remainder_flags f :
  flags_ok f →
  let r := with_flag FLAG_FREE (Z.land f FLAG_TAINTED) in
  flags_ok r ∧ has_flag r FLAG_FREE = true ∧ has_flag r FLAG_LAST = false ∧
  has_flag r FLAG_TAINTED = has_flag f FLAG_TAINTED.
Proof. intros Hf%flags_cases; destruct_or! Hf; subst; done. Qed.

Create HintDb tlsf.
#[export] Hint Resolve with_flags_ok without_flags_ok one_free one_last one_tainted : tlsf.

(** ** Frontiers of nodes *)

(** A valid frontier in storage for [frontier_capacity] entries. *)
Definition frontier_in (c : tlsf_config) (f : iree_async_frontier_t) : Prop :=
  frontier_ok f ∧ Z.of_nat (length (entries f)) = frontier_capacity c.

(** An overflow capture leaves a valid frontier behind. *)
Definition handler_ok (c : tlsf_config) : Prop :=
  ∀ handler, frontier_overflow c = Some handler →
  ∀ captures target source,
    frontier_in c target → frontier_ok source → frontier_in c (handler captures target source).

Record config_ok (c : tlsf_config) : Prop := {
  co_alignment : ∃ k, 4 <= k < 64 ∧ alignment c = 2 ^ k;
  co_range : 0 < range_length c < 2 ^ 64;
  co_multiple : (alignment c | range_length c);
  co_capacity : 0 < frontier_capacity c < 2 ^ 8;
  co_handler : handler_ok c;
}.

(** ** Blocks in offset order *)

Definition block_ok (c : tlsf_config) (b : block_t) : Prop :=
  0 < blk_length b ∧ (alignment c | blk_length b) ∧ flags_ok (blk_flags b) ∧
  frontier_in c (blk_frontier b) ∧
  (is_tainted b = true → entry_count (blk_frontier b) = 0).

(** Consecutive ranges from [o] to [e]. *)
Fixpoint tiles (off len : Z → Z) (o : Z) (l : list Z) (e : Z) : Prop :=
  match l with
  | [] => o = e
  | i :: l => off i = o ∧ tiles off len (o + len i) l e
  end.

Lemma tiles_app off len l1 l2 : ∀ o e,
  tiles off len o (l1 ++ l2) e ↔ ∃ m, tiles off len o l1 m ∧ tiles off len m l2 e.
Proof.
  induction l1 as [|i l1 IH]; intros o e; simpl; [naive_solver|].
  rewrite IH. naive_solver.
Qed.

Lemma tiles_ext off len off' len' l : ∀ o e,
  (∀ i, i ∈ l → off' i = off i ∧ len' i = len i) →
  tiles off len o l e → tiles off' len' o l e.
Proof.
  induction l as [|i l IH]; intros o e Hext; simpl; [done|]. intros [Ho Ht].
  destruct (Hext i ltac:(by left)) as [-> ->]. split; [done|]. apply IH; [|done].
  intros j Hj. apply Hext. by right.
Qed.

Lemma tiles_le off len l : ∀ o e,
  (∀ i, i ∈ l → 0 < len i) → tiles off len o l e → o <= e.
Proof.
  induction l as [|i l IH]; intros o e Hpos; simpl; [lia|]. intros [_ Ht].
  pose proof (Hpos i ltac:(by left)).
  apply IH in Ht; [lia|]. intros j Hj. apply Hpos. by right.
Qed.

(** Every tile lies inside the tiled range. *)
Lemma tiles_inside off len l1 i l2 o e :
  (∀ j, j ∈ l1 ++ i :: l2 → 0 < len j) → tiles off len o (l1 ++ i :: l2) e →
  o <= off i ∧ off i + len i <= e.
Proof.
  intros Hpos (m & H1 & Ho & H2)%tiles_app. rewrite Ho. split.
  - apply (tiles_le off len l1); [|done]. intros j Hj. apply Hpos, elem_of_app. by left.
  - apply (tiles_le off len l2); [|done]. intros j Hj. apply Hpos, elem_of_app. right. by right.
Qed.

(** Distinct tiles are disjoint: the earlier one ends where the later one starts or
    before. *)
Lemma tiles_ordered off len l1 i l2 j l3 o e :
  (∀ k, k ∈ l1 ++ i :: l2 ++ j :: l3 → 0 < len k) →
  tiles off len o (l1 ++ i :: l2 ++ j :: l3) e → off i + len i <= off j.
Proof.
  intros Hpos (m & _ & Ho & (m' & H2 & Ho' & _)%tiles_app)%tiles_app. rewrite Ho, Ho'.
  apply (tiles_le off len l2); [|done]. intros k Hk. apply Hpos. set_solver.
Qed.

Definition sum_by (f : Z → Z) (l : list Z) : Z := foldr (λ i s, f i + s) 0 l.

Lemma sum_by_app f l1 l2 : sum_by f (l1 ++ l2) = sum_by f l1 + sum_by f l2.
Proof. induction l1 as [|i l1 IH]; simpl; [done|]. unfold sum_by in *. simpl. lia. Qed.

Lemma sum_by_ext f g l : (∀ i, i ∈ l → f i = g i) → sum_by f l = sum_by g l.
Proof.
  induction l as [|i l IH]; intros H; simpl; [done|]. unfold sum_by in *. simpl.
  rewrite H by by left. rewrite IH; [done|]. intros j Hj. apply H. by right.
Qed.

Lemma tiles_sum off len l : ∀ o e, tiles off len o l e → e = o + sum_by len l.
Proof.
  induction l as [|i l IH]; intros o e; simpl; [unfold sum_by; simpl; lia|].
  intros [_ Ht%IH]. unfold sum_by in *. simpl. lia.
Qed.

(** The physical list over the nodes [g]. *)
Record phys_ok (c : tlsf_config) (g : Z → block_t) (phys : list Z) : Prop := {
  po_links : dll (λ i, prev_physical (g i)) (λ i, next_physical (g i)) NONE phys NONE;
  po_tiles : tiles (λ i, blk_offset (g i)) (λ i, blk_length (g i)) 0 phys (range_length c);
  po_block i : i ∈ phys → block_ok c (g i);
  po_last i : i ∈ phys → is_last (g i) = bool_decide (next_physical (g i) = NONE);
}.

Lemma block_ok_geom c b b' : geom b = geom b' → block_ok c b → block_ok c b'.
Proof.
  intros (_ & El & _ & _ & Ef & Efr)%geom_fields. unfold block_ok. by rewrite El, Ef, Efr.
Qed.

(** The physical list does not see free-list links. *)
Lemma phys_ok_geom c g g' phys :
  (∀ i, i ∈ phys → geom (g' i) = geom (g i)) → phys_ok c g phys → phys_ok c g' phys.
Proof.
  intros Hg [Hl Ht Hb Hla]. split.
  - eapply dll_ext; [|exact Hl]. intros i Hi. by destruct (geom_fields _ _ (Hg i Hi)) as (_ & _ & -> & -> & _).
  - eapply tiles_ext; [|exact Ht]. intros i Hi. by destruct (geom_fields _ _ (Hg i Hi)) as (-> & -> & _).
  - intros i Hi. eapply block_ok_geom; [symmetry; by apply Hg|auto].
  - intros i Hi. destruct (geom_fields _ _ (Hg i Hi)) as (_ & _ & _ & -> & -> & _). auto.
Qed.

(** Singly linked list of unused nodes. *)
Fixpoint chain (nxt : Z → Z) (h : Z) (l : list Z) : Prop :=
  match l with
  | [] => h = NONE
  | i :: l => h = i ∧ chain nxt (nxt i) l
  end.

Lemma chain_ext nxt nxt' l : ∀ h, (∀ i, i ∈ l → nxt' i = nxt i) → chain nxt h l → chain nxt' h l.
Proof.
  induction l as [|i l IH]; intros h Hext; simpl; [done|]. intros [-> Hc]. split; [done|].
  rewrite Hext by by left. apply IH; [|done]. intros j Hj. apply Hext. by right.
Qed.

(** ** The core invariant

    [loose] holds the node that an operation has taken from the unused list and not yet
    linked; [F] the blocks in the free lists. *)
Record core (t : tlsf_t) (phys unused loose : list Z) (bins : Z * Z → list Z) (F : gset Z)
    : Prop := {
  core_config : config_ok (config t);
  core_storage : storage_ok t;
  core_phys : phys_ok (config t) (get_block t) phys;
  core_nodup : NoDup (phys ++ unused ++ loose);
  core_handles i : valid t i ↔ i ∈ phys ++ unused ++ loose;
  core_unused : chain (λ i, next_free (get_block t i)) (unused_node_head t) unused;
  core_lists : lists_ok t bins F;
  core_listed i : i ∈ F → i ∈ phys;
  core_entries i : valid t i →
    Z.of_nat (length (entries (blk_frontier (get_block t i)))) = frontier_capacity (config t);
}.

Lemma core_valid t phys unused loose bins F i :
  core t phys unused loose bins F → i ∈ phys → valid t i.
Proof. intros Hc Hi. apply (core_handles _ _ _ _ _ _ Hc), elem_of_app. by left. Qed.

(** Lengths and offsets of blocks fit the managed range. *)
Lemma core_bounds t phys unused loose bins F i :
  core t phys unused loose bins F → i ∈ phys →
  0 <= blk_offset (get_block t i) ∧ 0 < blk_length (get_block t i) ∧
  blk_offset (get_block t i) + blk_length (get_block t i) <= range_length (config t) ∧
  range_length (config t) < 2 ^ 64.
Proof.
  intros Hc Hi. destruct (core_phys _ _ _ _ _ _ Hc) as [_ Ht Hb _].
  pose proof (co_range _ (core_config _ _ _ _ _ _ Hc)).
  destruct (Hb i Hi) as (Hlen & _). apply list_elem_of_split in Hi as (l1 & l2 & ->).
  apply tiles_inside in Ht; [lia|]. intros j Hj. by destruct (Hb j Hj).
Qed.

(** ** List operations *)

(** Relinking blocks of the physical list keeps everything but the matrix. *)
Lemma core_relink t t' phys unused loose bins bins' F F' (S : gset Z) :
  core t phys unused loose bins F →
  storage_ok t' → same_scalars t t' → relinks t t' S → (∀ i, i ∈ S → i ∈ phys) →
  lists_ok t' bins' F' → (∀ i, i ∈ F' → i ∈ phys) →
  core t' phys unused loose bins' F'.
Proof.
  intros Hc Hst [Ecfg _ Ecap Eun _ _ _ _] [Hg Hsame] HS Hl HF. destruct Hc.
  assert (∀ i, valid t' i ↔ valid t i) as Hv by (intros i; unfold valid; by rewrite Ecap).
  assert (∀ i, i ∈ phys → valid t i) as Hpv
    by (intros i Hi; apply core_handles0, elem_of_app; by left).
  split; rewrite ?Ecfg; try done.
  - eapply phys_ok_geom; [|exact core_phys0]. intros i Hi. apply Hg. auto.
  - intros i. by rewrite Hv.
  - rewrite Eun. eapply chain_ext; [|exact core_unused0]. intros i Hi.
    assert (i ∈ phys ++ unused ++ loose) as Hin by (rewrite !elem_of_app; auto).
    rewrite Hsame; [done|by apply core_handles0|]. intros HiS%HS.
    apply NoDup_app in core_nodup0 as (_ & Hd & _). apply (Hd i HiS). apply elem_of_app. by left.
  - intros i Hi%Hv. destruct (geom_fields _ _ (Hg i Hi)) as (_ & _ & _ & _ & _ & ->). auto.
Qed.

Lemma core_insert t phys unused loose bins F i :
  core t phys unused loose bins F → i ∈ phys → i ∉ F →
  let t' := iree_hal_memory_tlsf_insert_free_block i t in
  ∃ bins', core t' phys unused loose bins' ({[i]} ∪ F) ∧ same_scalars t t' ∧
    (∀ j, valid t j → geom (get_block t' j) = geom (get_block t j)).
Proof.
  intros Hc Hi Hn t'. pose proof (core_valid _ _ _ _ _ _ _ Hc Hi) as Hv.
  pose proof (core_bounds _ _ _ _ _ _ _ Hc Hi) as (_ & ? & ? & ?).
  pose proof (core_bounds _ _ _ _ _ _ _ Hc Hi) as (? & _).
  assert (0 < blk_length (get_block t i) < 2 ^ 64) as Hlen by lia.
  pose proof (core_storage _ _ _ _ _ _ Hc) as Hs. pose proof (core_lists _ _ _ _ _ _ Hc) as Hl.
  pose proof (insert_relinks t bins F i Hs Hl Hv Hn Hlen) as Hr.
  assert (∀ j, j ∈ ({[i]} ∪ F : gset Z) → j ∈ phys) as HF.
  { intros j [->%elem_of_singleton|Hj]%elem_of_union; [done|]. by apply (core_listed _ _ _ _ _ _ Hc). }
  exists (insert_bins t bins i). split; [|split].
  - eapply core_relink; [exact Hc|by eapply insert_storage|by eapply insert_scalars|exact Hr|done| |done].
    by apply insert_lists.
  - by eapply insert_scalars.
  - apply Hr.
Qed.

Lemma core_remove t phys unused loose bins F i :
  core t phys unused loose bins F → i ∈ F →
  let t' := iree_hal_memory_tlsf_remove_free_block i t in
  ∃ bins', core t' phys unused loose bins' (F ∖ {[i]}) ∧ same_scalars t t' ∧
    (∀ j, valid t j → geom (get_block t' j) = geom (get_block t j)).
Proof.
  intros Hc Hi t'. pose proof (core_storage _ _ _ _ _ _ Hc) as Hs.
  pose proof (core_lists _ _ _ _ _ _ Hc) as Hl.
  assert (i ∈ bins (bin_of t i)) as Hin.
  { apply (lo_mem _ _ _ Hl); [|done]. apply bin_of_ok. by apply (lo_valid _ _ _ Hl). }
  apply list_elem_of_split in Hin as (l1 & l2 & Hsplit).
  pose proof (remove_relinks t bins F i l1 l2 Hs Hl Hi Hsplit) as Hr.
  exists (remove_bins t bins i l1 l2). split; [|split].
  - eapply core_relink; [exact Hc|by eapply remove_storage|by eapply remove_scalars|exact Hr|..].
    + intros j. apply (core_listed _ _ _ _ _ _ Hc).
    + by apply remove_lists.
    + intros j [Hj _]%elem_of_difference. by apply (core_listed _ _ _ _ _ _ Hc).
  - by eapply remove_scalars.
  - apply Hr.
Qed.

(** ** Field updates *)

(** Scalar fields that no part of the core reads. *)
Definition same_core (t t' : tlsf_t) : Prop :=
  config t' = config t ∧ block_segments t' = block_segments t ∧
  block_capacity t' = block_capacity t ∧ unused_node_head t' = unused_node_head t ∧
  fl_bitmap t' = fl_bitmap t ∧ sl_bitmaps t' = sl_bitmaps t ∧
  free_lists t' = free_lists t ∧ free_block_count t' = free_block_count t.

Lemma lists_ok_same t t' bins F :
  (∀ i, i ∈ F → valid t i → valid t' i ∧
     blk_length (get_block t' i) = blk_length (get_block t i) ∧
     prev_free (get_block t' i) = prev_free (get_block t i) ∧
     next_free (get_block t' i) = next_free (get_block t i)) →
  fl_bitmap t' = fl_bitmap t → sl_bitmaps t' = sl_bitmaps t →
  free_lists t' = free_lists t → free_block_count t' = free_block_count t →
  lists_ok t bins F → lists_ok t' bins F.
Proof.
  intros Hb E1 E2 E3 E4 Hl.
  assert (∀ b i, bin_ok b → i ∈ bins b → i ∈ F) as HF by (intros b i ? [? _]%(lo_mem _ _ _ Hl); done).
  assert (∀ i, i ∈ F → valid t' i ∧ blk_length (get_block t' i) = blk_length (get_block t i) ∧
     prev_free (get_block t' i) = prev_free (get_block t i) ∧
     next_free (get_block t' i) = next_free (get_block t i)) as Hb'.
  { intros i Hi. apply Hb; [done|]. by apply (lo_valid _ _ _ Hl). }
  assert (∀ fl, sl_bitmap t' fl = sl_bitmap t fl) as Esl by (intros; unfold sl_bitmap; by rewrite E2).
  destruct Hl as [[Hr Hcl Hbm] Hh Hlk Hnd Hm Hv Hsl Hslw Hfl Hflw Hcnt].
  split; rewrite ?E1, ?E4; try done.
  - split; rewrite ?E2, ?E3; done.
  - intros b Hok. unfold free_list_head. rewrite E3. by apply Hh.
  - intros b Hok. eapply dll_ext; [|by apply Hlk]. intros i Hi. simpl.
    destruct (Hb' i) as (_ & _ & -> & ->); eauto.
  - intros b i Hok. rewrite Hm by done. split; intros [Hi E]; (split; [done|]);
      destruct (Hb' i Hi) as (_ & El & _); congruence.
  - intros i Hi. destruct (Hb' i Hi) as (Hv' & -> & _). by split; [|apply Hv].
  - intros fl sl Hok. rewrite Esl. by apply Hsl.
  - intros fl Hok. rewrite Esl. by apply Hslw.
  - intros fl Hok. rewrite Esl. by apply Hfl.
Qed.

Lemma core_same t t' phys unused loose bins F :
  same_core t t' → core t phys unused loose bins F → core t' phys unused loose bins F.
Proof.
  intros (E1 & E2 & E3 & E4 & E5 & E6 & E7 & E8) Hc.
  assert (∀ i, get_block t' i = get_block t i) as Hg by (intros i; by apply get_block_same).
  assert (∀ i, valid t' i ↔ valid t i) as Hv by (intros i; unfold valid; by rewrite E3).
  destruct Hc. split; rewrite ?E1; try done.
  - by eapply storage_same; [| | |exact core_storage0].
  - eapply phys_ok_geom; [|exact core_phys0]. intros i _. by rewrite Hg.
  - intros i. by rewrite Hv.
  - rewrite E4. eapply chain_ext; [|exact core_unused0]. intros i _. by rewrite Hg.
  - apply (lists_ok_same t); [|done..]. intros i _ Hi. by rewrite Hv, Hg.
  - intros i Hi%Hv. rewrite Hg. auto.
Qed.

(** Everything but the nodes, the accounts and the captures. *)
Record same_frame (t t' : tlsf_t) : Prop := {
  sf_config : config t' = config t;
  sf_capacity : block_capacity t' = block_capacity t;
  sf_unused : unused_node_head t' = unused_node_head t;
  sf_fl : fl_bitmap t' = fl_bitmap t;
  sf_sl : sl_bitmaps t' = sl_bitmaps t;
  sf_lists : free_lists t' = free_lists t;
  sf_count : free_block_count t' = free_block_count t;
}.

#[export] Instance same_frame_trans : Transitive same_frame.
Proof. intros t1 t2 t3 [] []. split; congruence. Qed.

(** The node of [i] is [b']; the others are as before. *)
Definition changes_only (t t' : tlsf_t) (i : Z) (b' : block_t) : Prop :=
  ∀ j, valid t j → get_block t' j = if decide (i = j) then b' else get_block t j.

(** [b'] is [b] up to flags other than LAST and the frontier. *)
Definition same_shape (b b' : block_t) : Prop :=
  blk_offset b' = blk_offset b ∧ blk_length b' = blk_length b ∧
  prev_physical b' = prev_physical b ∧ next_physical b' = next_physical b ∧
  prev_free b' = prev_free b ∧ next_free b' = next_free b ∧ is_last b' = is_last b.

(** Changing the flags or the frontier of a block of the physical list, keeping LAST. *)
Lemma core_change_block t t' phys unused loose bins F i b' :
  core t phys unused loose bins F → i ∈ phys →
  storage_ok t' → same_frame t t' → changes_only t t' i b' →
  same_shape (get_block t i) b' → block_ok (config t) b' →
  core t' phys unused loose bins F.
Proof.
  intros Hc Hi Hs' [Ec Ecap Eun Efl Esl Eli Ecnt] Hg (E1 & E2 & E3 & E4 & E5 & E6 & E7) Hbok.
  assert (∀ j, valid t' j ↔ valid t j) as Hv by (intros j; unfold valid; by rewrite Ecap).
  assert (∀ j, j ∈ phys → valid t j) as Hpv by (intros j; by apply (core_valid _ _ _ _ _ _ _ Hc)).
  destruct Hc. split; rewrite ?Ec; try done.
  - destruct core_phys0 as [Hlk Ht Hb Hla]. split.
    + eapply dll_ext; [|exact Hlk]. intros j Hj. simpl. rewrite Hg by auto. case_decide; [by subst|done].
    + eapply tiles_ext; [|exact Ht]. intros j Hj. simpl. rewrite Hg by auto. case_decide; [by subst|done].
    + intros j Hj. rewrite Hg by auto. case_decide; [done|auto].
    + intros j Hj. rewrite Hg by auto. case_decide; [subst; by rewrite E7, E4; apply Hla|auto].
  - intros j. by rewrite Hv.
  - rewrite Eun. eapply chain_ext; [|exact core_unused0]. intros j Hj.
    assert (j ∈ phys ++ unused ++ loose) as Hin by (rewrite !elem_of_app; auto).
    rewrite Hg by by apply core_handles0. case_decide; by subst.
  - apply (lists_ok_same t); [|done..]. intros j _ Hj.
    split; [by apply Hv|]. rewrite Hg by done. case_decide; by subst.
  - intros j Hj%Hv. rewrite Hg by done. case_decide; [|auto]. destruct Hbok as (_ & _ & _ & [_ ?] & _). done.
Qed.

Lemma update_changes_only t i f :
  storage_ok t → valid t i → changes_only t (update_block i f t) i (f (get_block t i)).
Proof. intros Hs Hv j Hj. by apply get_update. Qed.

Lemma update_frame t i f : same_frame t (update_block i f t).
Proof. by split. Qed.

(** Composing changes of one node. *)
Lemma changes_only_trans t t1 t2 i b1 b2 :
  block_capacity t1 = block_capacity t →
  changes_only t t1 i b1 → changes_only t1 t2 i b2 → changes_only t t2 i b2.
Proof.
  intros Ecap H1 H2 j Hj. assert (valid t1 j) as Hj1 by (unfold valid; by rewrite Ecap).
  rewrite H2 by done. case_decide; [done|]. rewrite H1 by done. by rewrite decide_False.
Qed.

(** ** Splitting and absorbing in the physical list *)

(** The node of the right neighbor after its predecessor changed to [p]. *)
Definition repointed (p : Z) (l : list Z) (g : Z → block_t) (j : Z) : block_t :=
  if decide (hd_error l = Some j) then set_prev_physical p (g j) else g j.

Lemma repointed_fields p l g j :
  let b := repointed p l g j in
  blk_offset b = blk_offset (g j) ∧ blk_length b = blk_length (g j) ∧
  next_physical b = next_physical (g j) ∧ blk_flags b = blk_flags (g j) ∧
  blk_frontier b = blk_frontier (g j) ∧
  prev_physical b = (if decide (hd_error l = Some j) then p else prev_physical (g j)).
Proof. unfold repointed. by case_decide. Qed.

Section reshape.
Context (c : tlsf_config) (g g' : Z → block_t) (l1 l2 : list Z) (i r : Z).
Context (Hnd : NoDup (l1 ++ i :: r :: l2)) (Hrn : r ≠ NONE).
Context (H1 : ∀ j, j ∈ l1 → geom (g' j) = geom (g j)).

Local Lemma reshape_nodup :
  NoDup l1 ∧ NoDup l2 ∧ i ∉ l1 ∧ r ∉ l1 ∧ i ∉ l2 ∧ r ∉ l2 ∧ i ≠ r ∧ (∀ j, j ∈ l1 → j ∉ l2).
Proof using All.
  pose proof Hnd as (Hn1 & Hd & [Hi [Hr Hn2]%NoDup_cons]%NoDup_cons)%NoDup_app.
  assert (∀ j, j ∈ l1 → j ≠ i ∧ j ≠ r ∧ j ∉ l2) as Hd' by (intros j Hj; specialize (Hd j Hj); set_solver).
  set_solver.
Qed.

(** The block [i] is cut at [len' i]; [r] becomes its right neighbor. *)
Lemma phys_split :
  phys_ok c g (l1 ++ i :: l2) →
  (∀ j, j ∈ l2 → geom (g' j) = geom (repointed r l2 g j)) →
  blk_offset (g' i) = blk_offset (g i) → prev_physical (g' i) = prev_physical (g i) →
  next_physical (g' i) = r → is_last (g' i) = false →
  blk_offset (g' r) = blk_offset (g i) + blk_length (g' i) →
  blk_length (g' i) + blk_length (g' r) = blk_length (g i) →
  prev_physical (g' r) = i → next_physical (g' r) = next_physical (g i) →
  is_last (g' r) = is_last (g i) →
  block_ok c (g' i) → block_ok c (g' r) →
  phys_ok c g' (l1 ++ i :: r :: l2).
Proof using All.
  intros [Hlk Ht Hb Hla] H2 Eio Eip Ein Eil Ero Elen Erp Ern Erl Hbi Hbr.
  destruct reshape_nodup as (Hn1 & Hn2 & Hi1 & Hr1 & Hi2 & Hr2 & Hir & Hd).
  split.
  - apply dll_app in Hlk as (Hl1 & Hp & Hn & Hl2). apply dll_app. simpl.
    split; [|split; [|split; [|split; [|split]]]].
    + eapply dll_ext; [|exact Hl1]. intros j Hj. by destruct (geom_fields _ _ (H1 j Hj)) as (_ & _ & -> & -> & _).
    + by rewrite Eip.
    + done.
    + done.
    + by rewrite Ern.
    + eapply dll_repoint_head; [done| |exact Hl2]. intros j Hj. simpl.
      destruct (geom_fields _ _ (H2 j Hj)) as (_ & _ & -> & -> & _).
      by destruct (repointed_fields r l2 g j) as (_ & _ & -> & _ & _ & ->).
  - apply tiles_app in Ht as (m & Ht1 & Ho & Ht2). apply tiles_app. exists m. split.
    + eapply tiles_ext; [|exact Ht1]. intros j Hj. by destruct (geom_fields _ _ (H1 j Hj)) as (-> & -> & _).
    + simpl. split; [congruence|]. split; [lia|]. rewrite <- Z.add_assoc, Elen.
      eapply tiles_ext; [|exact Ht2]. intros j Hj. simpl.
      destruct (geom_fields _ _ (H2 j Hj)) as (-> & -> & _).
      by destruct (repointed_fields r l2 g j) as (-> & -> & _).
  - intros j Hj. rewrite elem_of_app, !elem_of_cons in Hj. destruct Hj as [Hj|[->|[->|Hj]]]; [|done..|].
    + eapply block_ok_geom; [symmetry; by apply H1|]. apply Hb. set_solver.
    + eapply block_ok_geom; [symmetry; by apply H2|]. unfold repointed. specialize (Hb j ltac:(set_solver)).
      case_decide; done.
  - intros j Hj. rewrite elem_of_app, !elem_of_cons in Hj. destruct Hj as [Hj|[->|[->|Hj]]].
    + destruct (geom_fields _ _ (H1 j Hj)) as (_ & _ & _ & -> & -> & _). apply Hla. set_solver.
    + rewrite Eil, Ein. symmetry. by apply bool_decide_false.
    + rewrite Erl, Ern. apply Hla. set_solver.
    + destruct (geom_fields _ _ (H2 j Hj)) as (_ & _ & _ & -> & -> & _).
      destruct (repointed_fields r l2 g j) as (_ & _ & -> & -> & _). apply Hla. set_solver.
Qed.

(** The block [i] takes over the range and the right link of its neighbor [r]. *)
Lemma phys_absorb :
  phys_ok c g (l1 ++ i :: r :: l2) →
  (∀ j, j ∈ l2 → geom (g' j) = geom (repointed i l2 g j)) →
  blk_offset (g' i) = blk_offset (g i) → prev_physical (g' i) = prev_physical (g i) →
  blk_length (g' i) = blk_length (g i) + blk_length (g r) →
  next_physical (g' i) = next_physical (g r) → is_last (g' i) = is_last (g r) →
  block_ok c (g' i) →
  phys_ok c g' (l1 ++ i :: l2).
Proof using All.
  intros [Hlk Ht Hb Hla] H2 Eio Eip Elen Ein Eil Hbi.
  destruct reshape_nodup as (Hn1 & Hn2 & Hi1 & Hr1 & Hi2 & Hr2 & Hir & Hd).
  split.
  - apply dll_app in Hlk as (Hl1 & Hp & _ & _ & Hn & Hl2). apply dll_app. simpl.
    split; [|split; [|split]].
    + eapply dll_ext; [|exact Hl1]. intros j Hj. by destruct (geom_fields _ _ (H1 j Hj)) as (_ & _ & -> & -> & _).
    + by rewrite Eip.
    + by rewrite Ein.
    + eapply dll_repoint_head; [done| |exact Hl2]. intros j Hj. simpl.
      destruct (geom_fields _ _ (H2 j Hj)) as (_ & _ & -> & -> & _).
      by destruct (repointed_fields i l2 g j) as (_ & _ & -> & _ & _ & ->).
  - apply tiles_app in Ht as (m & Ht1 & Ho & Hor & Ht2). apply tiles_app. exists m. split.
    + eapply tiles_ext; [|exact Ht1]. intros j Hj. by destruct (geom_fields _ _ (H1 j Hj)) as (-> & -> & _).
    + simpl. split; [congruence|]. rewrite Elen, Z.add_assoc.
      eapply tiles_ext; [|exact Ht2]. intros j Hj. simpl.
      destruct (geom_fields _ _ (H2 j Hj)) as (-> & -> & _).
      by destruct (repointed_fields i l2 g j) as (-> & -> & _).
  - intros j Hj. rewrite elem_of_app, !elem_of_cons in Hj. destruct Hj as [Hj|[->|Hj]]; [|done|].
    + eapply block_ok_geom; [symmetry; by apply H1|]. apply Hb. set_solver.
    + eapply block_ok_geom; [symmetry; by apply H2|]. unfold repointed. specialize (Hb j ltac:(set_solver)).
      case_decide; done.
  - intros j Hj. rewrite elem_of_app, !elem_of_cons in Hj. destruct Hj as [Hj|[->|Hj]].
    + destruct (geom_fields _ _ (H1 j Hj)) as (_ & _ & _ & -> & -> & _). apply Hla. set_solver.
    + rewrite Eil, Ein. apply Hla. set_solver.
    + destruct (geom_fields _ _ (H2 j Hj)) as (_ & _ & _ & -> & -> & _).
      destruct (repointed_fields i l2 g j) as (_ & _ & -> & -> & _). apply Hla. set_solver.
Qed.
End reshape.

(** ** Unused nodes *)

(** The running totals and the configuration. *)
Record same_accounts (t t' : tlsf_t) : Prop := {
  sa_config : config t' = config t;
  sa_capacity : block_capacity t' = block_capacity t;
  sa_allocated : bytes_allocated t' = bytes_allocated t;
  sa_free : bytes_free t' = bytes_free t;
  sa_allocations : allocation_count t' = allocation_count t;
}.

#[export] Instance same_accounts_trans : Transitive same_accounts.
Proof. intros t1 t2 t3 [] []. split; congruence. Qed.

Lemma scalars_accounts t t' : same_scalars t t' → same_accounts t t'.
Proof. by intros []. Qed.

Section nodes.
Context (t : tlsf_t) (phys unused : list Z) (r : Z) (bins : Z * Z → list Z) (F : gset Z).

Lemma zero_block_entries c :
  0 <= frontier_capacity c →
  Z.of_nat (length (entries (blk_frontier (zero_block (frontier_capacity c))))) = frontier_capacity c.
Proof using. intros. simpl. rewrite length_replicate. lia. Qed.

(** A node leaves the unused list. *)
Lemma core_alloc_node :
  core t phys (r :: unused) [] bins F →
  let '(index, t') := iree_hal_memory_tlsf_alloc_node t in
  index = r ∧ core t' phys unused [r] bins F ∧ same_accounts t t' ∧
  changes_only t t' r (zero_block (frontier_capacity (config t))).
Proof using.
  intros Hc. unfold iree_hal_memory_tlsf_alloc_node.
  pose proof (core_unused _ _ _ _ _ _ Hc) as [Eh Hch]. rewrite Eh.
  set (tu := set_unused_node_head (next_free (get_block t r)) t).
  assert (r ∈ phys ++ (r :: unused) ++ []) as Hrin by (rewrite !elem_of_app; right; left; by left).
  assert (valid t r) as Hrv by (by apply (core_handles _ _ _ _ _ _ Hc)).
  assert (storage_ok tu) as Hsu by (by eapply storage_same; [| | |exact (core_storage _ _ _ _ _ _ Hc)]).
  assert (changes_only t (update_block r (λ _, zero_block (frontier_capacity (config t))) tu) r
    (zero_block (frontier_capacity (config t)))) as Hg
    by (intros j Hj; by apply (get_update tu)).
  split; [done|]. split; [|by split; [split|]].
  pose proof (co_capacity _ (core_config _ _ _ _ _ _ Hc)).
  destruct Hc. rewrite app_nil_r in *.
  apply NoDup_app in core_nodup0 as (Hnp & Hdp & [Hru Hnu]%NoDup_cons).
  assert (∀ j, j ∈ phys → j ≠ r) as Hpr by (intros j Hj ->; apply (Hdp r Hj); by left).
  assert (∀ j, j ∈ phys → valid t j) as Hpv by (intros j Hj; apply core_handles0, elem_of_app; by left).
  split; try done.
  - by apply storage_update.
  - eapply phys_ok_geom; [|exact core_phys0]. intros j Hj. rewrite Hg by auto.
    rewrite decide_False; [done|]. intros <-. by apply (Hpr r).
  - rewrite app_assoc. apply NoDup_app. split; [|split; [|apply NoDup_singleton]].
    + apply NoDup_app. split; [done|]. split; [|done]. intros j Hj Hju. apply (Hdp j Hj). by right.
    + intros j Hj ->%list_elem_of_singleton. set_solver.
  - intros j. etransitivity; [apply core_handles0|]. set_solver.
  - eapply chain_ext; [|exact Hch]. intros j Hj. simpl.
    rewrite Hg by (apply core_handles0, elem_of_app; right; by right).
    rewrite decide_False; [done|]. by intros <-.
  - apply (lists_ok_same t); [|done..]. intros j HjF Hj. split; [done|]. rewrite Hg by done.
    rewrite decide_False; [done|]. intros <-. by apply (Hpr r); [apply core_listed0|].
  - intros j Hj. rewrite Hg by done. case_decide; [|auto]. apply (zero_block_entries (config t)). lia.
Qed.

(** A node goes back to the unused list. *)
Lemma core_free_node :
  core t phys unused [r] bins F →
  let t' := iree_hal_memory_tlsf_free_node r t in
  core t' phys (r :: unused) [] bins F ∧ same_accounts t t' ∧
  (∀ j, valid t j → j ≠ r → get_block t' j = get_block t j).
Proof using.
  intros Hc t'. pose proof (core_storage _ _ _ _ _ _ Hc) as Hs.
  assert (r ∈ phys ++ unused ++ [r]) as Hrin by (rewrite !elem_of_app; right; right; by left).
  assert (valid t r) as Hrv by (by apply (core_handles _ _ _ _ _ _ Hc)).
  set (z := zero_block (frontier_capacity (config t))).
  assert (changes_only t t' r (set_next_free (unused_node_head t) z)) as Hg.
  { intros j Hj. etransitivity; [by apply (get_block_same (update_block r
      (set_next_free (unused_node_head t)) (update_block r (λ _, z) t)))|].
    rewrite get_update by (done || by apply storage_update). rewrite !get_update by done.
    rewrite (decide_True (P := r = r)) by done. by case_decide. }
  assert (∀ j, valid t j → j ≠ r → get_block t' j = get_block t j) as Hg'.
  { intros j Hj Hne. rewrite Hg by done. by rewrite decide_False. }
  split; [|by split; [split|]].
  pose proof (co_capacity _ (core_config _ _ _ _ _ _ Hc)).
  destruct Hc. rewrite app_assoc in core_nodup0.
  apply NoDup_app in core_nodup0 as (Hnpu & Hd & _).
  assert (∀ j, j ∈ phys ++ unused → j ≠ r) as Hne
    by (intros j Hj ->; apply (Hd r Hj); by apply list_elem_of_singleton).
  assert (∀ j, j ∈ phys ++ unused → valid t j) as Hpv
    by (intros j Hj; apply core_handles0; rewrite app_assoc; apply elem_of_app; by left).
  assert (∀ j, j ∈ phys ++ unused → get_block t' j = get_block t j) as Hsame by auto.
  rewrite ?app_nil_r. split; try done.
  - unfold t', iree_hal_memory_tlsf_free_node.
    by eapply storage_same; [| | |do 2 apply storage_update; exact Hs].
  - eapply phys_ok_geom; [|exact core_phys0]. intros j Hj. rewrite Hsame; [done|].
    apply elem_of_app. by left.
  - rewrite app_nil_r. apply NoDup_app in Hnpu as (Hnp & Hdu & Hnu). apply NoDup_app.
    split; [done|]. split; [|apply NoDup_cons; split; [|done]].
    + intros j Hj [->|Hj']%elem_of_cons; [|by apply (Hdu j)].
      apply (Hne r); [|done]. apply elem_of_app. by left.
    + intros Hru. apply (Hne r); [|done]. apply elem_of_app. by right.
  - intros j. etransitivity; [apply core_handles0|]. set_solver.
  - simpl. split; [done|]. rewrite Hg, decide_True by done. simpl.
    eapply chain_ext; [|exact core_unused0]. intros j Hj. simpl. rewrite Hsame; [done|].
    apply elem_of_app. by right.
  - apply (lists_ok_same t); [|done..]. intros j HjF Hj. split; [done|].
    rewrite Hsame; [done|]. apply elem_of_app. left. auto.
  - intros j Hj. rewrite Hg by done. case_decide; [|auto]. simpl. rewrite length_replicate.
    change (config t') with (config t). lia.
Qed.
End nodes.

(** ** Merging frontiers *)

(** The five outcomes of merging a frontier into a block. *)
Inductive merge_effect (c : tlsf_config)
    (captures : list (iree_async_frontier_t * iree_async_frontier_t)) (b : block_t)
    : option iree_async_frontier_t → block_t → Prop :=
  | merge_nothing : merge_effect c captures b None b
  | merge_skipped s :
      entry_count s = 0 ∨ is_tainted b = true → merge_effect c captures b (Some s) b
  | merge_joined s b' :
      is_tainted b = false → blk_flags b' = blk_flags b →
      live (blk_frontier b') = fmerge (live (blk_frontier b)) (live s) →
      merge_effect c captures b (Some s) b'
  | merge_captured s handler :
      frontier_overflow c = Some handler → is_tainted b = false →
      frontier_capacity c < Z.of_nat (length (fmerge (live (blk_frontier b)) (live s))) →
      merge_effect c captures b (Some s)
        (set_frontier (handler captures (blk_frontier b) s) b)
  | merge_tainted s b' :
      frontier_overflow c = None → is_tainted b = false →
      frontier_capacity c < Z.of_nat (length (fmerge (live (blk_frontier b)) (live s))) →
      blk_flags b' = with_flag (blk_flags b) FLAG_TAINTED →
      merge_effect c captures b (Some s) b'.

Lemma clear_entry_count_ok c f : frontier_in c f → frontier_in c (clear_entry_count f).
Proof.
  intros [(Hw & Hl & Hv) He]. split; [|done]. split; [done|]. split; [simpl; lia|].
  unfold live. simpl. split; constructor.
Qed.

Section merge.
Context (t : tlsf_t) (phys unused loose : list Z) (bins : Z * Z → list Z) (F : gset Z) (i : Z).
Context (Hc : core t phys unused loose bins F) (Hi : i ∈ phys).

Let b := get_block t i.

Lemma core_block : block_ok (config t) b ∧ valid t i ∧ storage_ok t.
Proof using Hc Hi.
  split; [by apply (po_block _ _ _ (core_phys _ _ _ _ _ _ Hc))|].
  split; [by apply (core_valid _ _ _ _ _ _ _ Hc)|apply (core_storage _ _ _ _ _ _ Hc)].
Qed.

(** What every outcome shares. *)
Definition merge_result_ok (source : option iree_async_frontier_t) (t' : tlsf_t) : Prop :=
  ∃ b', core t' phys unused loose bins F ∧ same_accounts t t' ∧ changes_only t t' i b' ∧
    same_shape b b' ∧ is_free b' = is_free b ∧ block_ok (config t) b' ∧
    merge_effect (config t) (frontier_overflow_user_data t) b source b'.

(** A change of the frontier, and possibly of the taint, of the block. *)
Lemma merge_result_intro source t' b' :
  storage_ok t' → same_frame t t' → same_accounts t t' → changes_only t t' i b' →
  same_shape b b' → is_free b' = is_free b → block_ok (config t) b' →
  merge_effect (config t) (frontier_overflow_user_data t) b source b' →
  merge_result_ok source t'.
Proof using Hc Hi.
  intros Hs Hf Ha Hg Hsh Hfree Hok Heff. exists b'.
  split; [by apply (core_change_block t t' _ _ _ _ _ i b')|]. done.
Qed.

Lemma merge_unchanged source :
  merge_effect (config t) (frontier_overflow_user_data t) b source b →
  merge_result_ok source t.
Proof using Hc Hi.
  intros Heff. destruct core_block as (Hb & Hv & Hs).
  apply (merge_result_intro _ _ b); try done. intros j Hj. by case_decide; subst.
Qed.

(** Without an overflow handler a merge that does not fit taints the block. *)
Lemma merge_taints s :
  frontier_overflow (config t) = None → is_tainted b = false →
  frontier_capacity (config t) < Z.of_nat (length (fmerge (live (blk_frontier b)) (live s))) →
  merge_result_ok (Some s)
    (set_tainted_coalesce_count (uadd 64 (tainted_coalesce_count t) 1)
       (update_block i (λ b, set_frontier (clear_entry_count (blk_frontier b)) b)
          (update_block i (λ b, set_flags (with_flag (blk_flags b) FLAG_TAINTED) b) t))).
Proof using Hc Hi.
  intros Eh Et Hfit. destruct core_block as (Hb & Hv & Hs). pose proof Hb as (Hlen & Hal & Hfl & [Hfr Hent] & Hta).
  set (b1 := set_flags (with_flag (blk_flags b) FLAG_TAINTED) b).
  set (b' := set_frontier (clear_entry_count (blk_frontier b1)) b1).
  set (t1 := update_block i (λ b, set_flags (with_flag (blk_flags b) FLAG_TAINTED) b) t).
  apply (merge_result_intro _ _ b'); try done.
  - by eapply storage_same; [| | |apply (storage_update t1 i (λ b,
      set_frontier (clear_entry_count (blk_frontier b)) b)), storage_update, Hs].
  - apply (changes_only_trans t t1 _ i b1); [done|by apply (update_changes_only t i)|].
    intros j Hj. etransitivity; [by apply (get_block_same (update_block i
      (λ b, set_frontier (clear_entry_count (blk_frontier b)) b) t1))|].
    rewrite get_update by (done || by apply storage_update).
    unfold t1. rewrite (get_update t i) by done. by rewrite (decide_True (P := i = i)).
  - do 6 (split; [done|]). change (has_flag (with_flag (blk_flags b) FLAG_TAINTED) FLAG_LAST = is_last b).
    by rewrite has_with by auto with tlsf.
  - change (has_flag (with_flag (blk_flags b) FLAG_TAINTED) FLAG_FREE = is_free b).
    by rewrite has_with by auto with tlsf.
  - split; [done|]. split; [done|]. split; [by apply with_flags_ok; auto with tlsf|].
    split; [by apply clear_entry_count_ok|done].
  - by apply merge_tainted.
Qed.

Lemma merge_frontiers_ok source :
  (∀ s, source = Some s → frontier_ok s) →
  merge_result_ok source (iree_hal_memory_tlsf_merge_frontiers i source t).
Proof using Hc Hi.
  intros Hsrc. destruct core_block as (Hb & Hv & Hs). pose proof Hb as (Hlen & Hal & Hfl & [Hfr Hent] & Hta).
  destruct source as [s|]; [|by apply merge_unchanged; constructor].
  specialize (Hsrc s eq_refl). unfold iree_hal_memory_tlsf_merge_frontiers. fold b.
  destruct (Z.eqb_spec (entry_count s) 0) as [E0|NE0];
    [apply merge_unchanged; constructor; by left|].
  destruct (is_tainted b) eqn:Et; [apply merge_unchanged; constructor; by right|].
  pose proof (co_capacity _ (core_config _ _ _ _ _ _ Hc)) as Hcap.
  pose proof Hfr as (_ & Hcnt & _).
  destruct (merge_impl_correct (blk_frontier b) s (frontier_capacity (config t)) Hfr Hsrc
    ltac:(split; lia) ltac:(lia) ltac:(lia)) as (r & Er & Hr).
  unfold iree_async_frontier_merge. rewrite Er. cbn [mbind option_bind].
  unfold merge_outcome in Hr. case_decide as Hfit.
  - destruct Hr as (Hok & Hm & _). rewrite Hok.
    pose proof (merged_into_live _ _ _ Hm) as El.
    assert (frontier_in (config t) (merge_target r)) as Hin.
    { split; [by apply (merged_into_ok (blk_frontier b) s); [..|lia]|].
      destruct Hm as (_ & -> & _). rewrite length_app, length_drop. lia. }
    apply (merge_result_intro _ _ (set_frontier (merge_target r) b)); try done.
    + by apply storage_update.
    + by apply update_changes_only.
    + do 3 (split; [done|]). split; [done|]. change (is_tainted b = true → entry_count (merge_target r) = 0).
      by rewrite Et.
    + by apply merge_joined.
  - destruct Hr as (Hok & _). rewrite Hok.
    destruct (frontier_overflow (config t)) as [handler|] eqn:Eh.
    + set (b' := set_frontier (handler (frontier_overflow_user_data t) (blk_frontier b) s) b).
      apply (merge_result_intro _ _ b'); try done.
      * by eapply storage_same; [| | |apply storage_update, Hs].
      * intros j Hj. rewrite (get_block_same (update_block i
          (set_frontier (handler (frontier_overflow_user_data t) (blk_frontier b) s)) t)) by done.
        by apply update_changes_only.
      * do 3 (split; [done|]). split; [|change (is_tainted b = true → entry_count (blk_frontier b') = 0); by rewrite Et].
        by apply (co_handler _ (core_config _ _ _ _ _ _ Hc)).
      * apply merge_captured; [done|done|lia].
    + apply merge_taints; [done|done|lia].
Qed.
End merge.

(** ** Sequences of writes to one node *)

(** [t'] is [t] with the node of [i] replaced by [b']. *)
Record evolves (t t' : tlsf_t) (i : Z) (b' : block_t) : Prop := {
  ev_storage : storage_ok t';
  ev_frame : same_frame t t';
  ev_accounts : same_accounts t t';
  ev_nodes : changes_only t t' i b';
}.

Lemma evolves_refl t i : storage_ok t → evolves t t i (get_block t i).
Proof. intros. split; [done|done|done|]. intros j Hj. by case_decide; subst. Qed.

Lemma evolves_update t t' i b' f :
  valid t i → evolves t t' i b' → evolves t (update_block i f t') i (f b').
Proof.
  intros Hv [Hs Hf Ha Hg]. pose proof (sf_capacity _ _ Hf) as Ecap.
  assert (∀ j, valid t j → valid t' j) as Hv' by (intros j; unfold valid; by rewrite Ecap).
  split; [by apply storage_update|by destruct Hf|by destruct Ha|].
  intros j Hj. rewrite get_update by auto. case_decide.
  - rewrite Hg by done. by rewrite decide_True.
  - rewrite Hg by done. by rewrite decide_False.
Qed.

Lemma evolves_if t t1 t2 i b1 b2 (c : bool) :
  evolves t t1 i b1 → evolves t t2 i b2 → evolves t (if c then t1 else t2) i (if c then b1 else b2).
Proof. by destruct c. Qed.

Lemma evolves_at t t' i b' : valid t i → evolves t t' i b' → get_block t' i = b'.
Proof. intros Hv [_ _ _ Hg]. rewrite Hg by done. by rewrite decide_True. Qed.

Lemma evolves_other t t' i b' j :
  valid t j → j ≠ i → evolves t t' i b' → get_block t' j = get_block t j.
Proof. intros Hv Hne [_ _ _ Hg]. rewrite Hg by done. by rewrite decide_False. Qed.

Lemma evolves_eq t t' i b b' : evolves t t' i b → b = b' → evolves t t' i b'.
Proof. by intros ? <-. Qed.

(** Reads the node off a straight-line sequence of writes to it. *)
Ltac evolve :=
  eapply evolves_eq;
  [repeat first [by apply evolves_refl | eapply evolves_if | eapply evolves_update; [done|]]
  |reflexivity].

(** Relinking the right neighbor, when there is one. *)
Definition repoint_right (n p : Z) (t : tlsf_t) : tlsf_t :=
  if negb (n =? NONE) then update_block n (set_prev_physical p) t else t.

Lemma repoint_right_spec t n p :
  storage_ok t → (n ≠ NONE → valid t n) →
  storage_ok (repoint_right n p t) ∧ same_frame t (repoint_right n p t) ∧
  same_accounts t (repoint_right n p t) ∧
  ∀ j, valid t j → get_block (repoint_right n p t) j =
    if decide (n = j) then set_prev_physical p (get_block t j) else get_block t j.
Proof.
  intros Hs Hn. unfold repoint_right. destruct (Z.eqb_spec n NONE) as [->|NE]; simpl negb; cbv iota.
  - do 3 (split; [done|]). intros j Hj. rewrite decide_False; [done|].
    destruct (valid_not_none t j Hs Hj). congruence.
  - split; [by apply storage_update|]. do 2 (split; [done|]). intros j Hj.
    rewrite get_update by auto. case_decide; by subst.
Qed.

(** ** Absorbing the right neighbor *)

(** The node of the left block after taking over the range of [rb]. *)
Definition absorb_node (m rb : block_t) : block_t :=
  let b := set_length (uadd 64 (blk_length m) (blk_length rb)) m in
  let b := if is_last rb then set_flags (with_flag (blk_flags b) FLAG_LAST) b else b in
  let b := if is_tainted rb
           then (λ b, set_frontier (clear_entry_count (blk_frontier b)) b)
                  (set_flags (with_flag (blk_flags b) FLAG_TAINTED) b) else b in
  set_next_physical (next_physical rb) b.

Definition absorb_flags (flags : Z) (rb : block_t) : Z :=
  let f := if is_last rb then with_flag flags FLAG_LAST else flags in
  if is_tainted rb then with_flag f FLAG_TAINTED else f.

Lemma absorb_flags_spec flags rb :
  flags_ok flags → has_flag flags FLAG_LAST = false →
  let f := absorb_flags flags rb in
  flags_ok f ∧ has_flag f FLAG_FREE = has_flag flags FLAG_FREE ∧
  has_flag f FLAG_LAST = is_last rb ∧
  has_flag f FLAG_TAINTED = has_flag flags FLAG_TAINTED || is_tainted rb.
Proof.
  intros Hf%flags_cases Hl. unfold absorb_flags.
  destruct_or! Hf; subst; by destruct (is_last rb), (is_tainted rb).
Qed.

Lemma absorb_node_eq m rb :
  absorb_node m rb =
    mk_block (blk_offset m) (uadd 64 (blk_length m) (blk_length rb)) (prev_physical m)
      (next_physical rb) (prev_free m) (next_free m) (absorb_flags (blk_flags m) rb)
      (if is_tainted rb then clear_entry_count (blk_frontier m) else blk_frontier m).
Proof. unfold absorb_node, absorb_flags. by destruct (is_last rb), (is_tainted rb). Qed.

Lemma absorb_node_spec c m rb :
  block_ok c m → block_ok c rb → blk_length m + blk_length rb < 2 ^ 64 → is_last m = false →
  let b := absorb_node m rb in
  blk_length b = blk_length m + blk_length rb ∧
  is_free b = is_free m ∧ is_last b = is_last rb ∧
  is_tainted b = is_tainted m || is_tainted rb ∧ block_ok c b.
Proof.
  intros (Hl1 & Ha1 & Hf1 & Hfr1 & Ht1) (Hl2 & Ha2 & Hf2 & Hfr2 & Ht2) Hsum Hlast b. unfold b.
  rewrite absorb_node_eq, uadd_small by lia. cbn [blk_length blk_flags].
  destruct (absorb_flags_spec (blk_flags m) rb Hf1 Hlast) as (Hf & -> & -> & Et).
  rewrite Et. do 4 (split; [done|]). split; [simpl; lia|]. split; [by apply Z.divide_add_r|].
  split; [done|]. cbn [blk_frontier blk_flags]. rewrite Et. split.
  - destruct (is_tainted rb); [by apply clear_entry_count_ok|done].
  - destruct (is_tainted rb); [done|]. by rewrite orb_false_r.
Qed.
