(* ===== verification/TlsfOps.v ===== *)
(** * Operations of the TLSF allocator and the core invariant

    How splitting, absorbing, coalescing, releasing and growing act on the core
    invariant: which blocks the physical list has afterwards, and what the client sees of
    each of them. *)

From S2P Require Import Prelude BaseMath Allocator Frontier Tlsf TlsfMapping TlsfStore TlsfLists.
From S2P Require Import TlsfInvariant.
From stdpp Require Import base numbers list list_numbers gmap sets.

Local Open Scope Z_scope.
Local Open Scope machine_scope.

(** ** Segments: what a client can observe of a block *)

Record segment := Segment {
  seg_offset : Z;
  seg_length : Z;
  seg_free : bool;
  seg_tainted : bool;
  seg_deps : list iree_async_frontier_entry_t;
}.

Definition segment_of (b : block_t) : segment :=
  Segment (blk_offset b) (blk_length b) (is_free b) (is_tainted b) (live (blk_frontier b)).

Definition segment_at (t : tlsf_t) (i : Z) : segment := segment_of (get_block t i).

Lemma segment_geom b b' : geom b' = geom b → segment_of b' = segment_of b.
Proof. intros (E1 & E2 & _ & _ & E3 & E4)%geom_fields. unfold segment_of. by rewrite E1, E2, E3, E4. Qed.

Lemma segment_same t t' j :
  config t' = config t → block_segments t' = block_segments t → segment_at t' j = segment_at t j.
Proof. intros. unfold segment_at. by rewrite (get_block_same t t'). Qed.

(** Taint and dependencies of the union of two adjacent segments: taint spreads, and
    dependencies that do not fit the capacity taint the union. *)
Definition join_deps (capacity : Z) (s1 s2 : segment) : bool * list iree_async_frontier_entry_t :=
  if seg_tainted s1 || seg_tainted s2 then (true, [])
  else
    let deps := fmerge (seg_deps s1) (seg_deps s2) in
    if decide (Z.of_nat (length deps) <= capacity) then (false, deps) else (true, []).

(** [s] is the union of the adjacent [s1] and [s2]; only an overflow capture can choose
    dependencies other than [join_deps], and only when they do not fit. *)
Definition joins (c : tlsf_config) (s1 s2 s : segment) : Prop :=
  seg_offset s = seg_offset s1 ∧ seg_length s = seg_length s1 + seg_length s2 ∧
  seg_free s = seg_free s1 ∧
  (frontier_overflow c = None ∨
   Z.of_nat (length (fmerge (seg_deps s1) (seg_deps s2))) <= frontier_capacity c →
   (seg_tainted s, seg_deps s) = join_deps (frontier_capacity c) s1 s2).

Lemma live_empty f : entry_count f = 0 → live f = [].
Proof. unfold live. by intros ->. Qed.

Lemma live_short c f : frontier_in c f → Z.of_nat (length (live f)) <= frontier_capacity c.
Proof. intros [_ <-]. unfold live. rewrite length_take. lia. Qed.

Lemma absorb_joins c captures b rb m :
  block_ok c b → block_ok c rb → block_ok c m → same_shape b m → is_free m = is_free b →
  is_last b = false → blk_length b + blk_length rb < 2 ^ 64 →
  merge_effect c captures b (Some (blk_frontier rb)) m →
  joins c (segment_of b) (segment_of rb) (segment_of (absorb_node m rb)).
Proof.
  intros Hb Hr Hm (E1 & E2 & _ & _ & _ & _ & E7) Efree Elast Hlen Heff.
  destruct (absorb_node_spec c m rb Hm Hr ltac:(lia) ltac:(by rewrite E7)) as (El & Ef & _ & Et & _).
  assert (∀ x, block_ok c x → is_tainted x = true → live (blk_frontier x) = []) as Hte
    by (intros x (_ & _ & _ & _ & Hx) Htx; apply live_empty; auto).
  unfold joins, segment_of, join_deps. cbn [seg_offset seg_length seg_free seg_tainted seg_deps].
  split; [by rewrite absorb_node_eq|]. split; [by rewrite El, E2|]. split; [by rewrite Ef|].
  intros Hcond. rewrite Et.
  assert (live (blk_frontier (absorb_node m rb)) =
    if is_tainted rb then [] else live (blk_frontier m)) as -> by
    (rewrite absorb_node_eq; cbn [blk_frontier]; by destruct (is_tainted rb)).
  pose proof Hm as (_ & _ & _ & Hmf%live_short & _). pose proof Hb as (_ & _ & _ & Hbf%live_short & _).
  destruct (is_tainted rb) eqn:Etr.
  { by rewrite !orb_true_r. }
  rewrite !orb_false_r. inversion Heff as [|s [E0|Ht]|s b' Ht Efl Elv|s h Eh Ht Hov|s b' Eh Ht Hov Efl]; subst.
  - rewrite (live_empty _ E0), fmerge_nil_r, decide_True by done.
    destruct (is_tainted m) eqn:Etm; [by rewrite Hte|done].
  - by rewrite Ht, Hte.
  - rewrite Efl, Ht, <- Elv, decide_True by done. done.
  - destruct Hcond; [congruence|lia].
  - assert (is_tainted m = true) as Etm.
    { rewrite Efl, has_with; [done| |auto with tlsf..]. by destruct Hb as (_ & _ & ? & _). }
    rewrite Etm, Ht, Hte, decide_False by (done || lia). done.
Qed.

Lemma perm_nodup (l l' : list Z) : l ≡ₚ l' → NoDup l → NoDup l'.
Proof. by intros ->. Qed.

Section absorb.
Context (t : tlsf_t) (l1 l2 : list Z) (i r : Z) (unused : list Z).
Context (bins : Z * Z → list Z) (F : gset Z).
Context (Hc : core t (l1 ++ i :: r :: l2) unused [] bins F) (HiF : i ∉ F) (HrF : r ∉ F).

Let b := get_block t i.
Let rb := get_block t r.

Local Lemma absorb_handles :
  i ≠ r ∧ valid t i ∧ valid t r ∧ (∀ j, j ∈ l1 ∨ j ∈ l2 → valid t j ∧ j ≠ i ∧ j ≠ r) ∧
  NoDup (l1 ++ i :: r :: l2) ∧ (∀ j, j ∈ l1 → j ∉ l2) ∧
  (∀ j, j ∈ unused → valid t j ∧ j ≠ i ∧ j ∉ l2).
Proof using All.
  pose proof (core_nodup _ _ _ _ _ _ Hc) as Hnd. pose proof (core_handles _ _ _ _ _ _ Hc) as Hh.
  rewrite app_nil_r in Hnd. apply NoDup_app in Hnd as (Hnp & Hdu & _).
  pose proof Hnp as (_ & Hd & [Hi [Hr _]%NoDup_cons]%NoDup_cons)%NoDup_app.
  assert (∀ j, j ∈ l1 ++ i :: r :: l2 ∨ j ∈ unused → valid t j) as Hv
    by (intros j Hj; apply Hh; rewrite !elem_of_app in *; tauto).
  assert (∀ j, j ∈ l1 → j ≠ i ∧ j ≠ r ∧ j ∉ l2) as Hd1.
  { intros j Hj. specialize (Hd j Hj). set_solver. }
  split; [set_solver|]. split; [apply Hv; set_solver|]. split; [apply Hv; set_solver|].
  split; [|split; [done|split]].
  - intros j Hj. split; [apply Hv; set_solver|]. destruct Hj as [Hj|Hj]; [by destruct (Hd1 j Hj) as (? & ? & _)|].
    set_solver.
  - intros j Hj. by apply Hd1.
  - intros j Hj. split; [apply Hv; by right|]. split; intros Hx; apply (Hdu j); set_solver.
Qed.

Local Lemma absorb_links :
  next_physical b = r ∧ is_last b = false ∧ next_physical rb = hd NONE l2 ∧
  blk_length b + blk_length rb < 2 ^ 64.
Proof using All.
  destruct absorb_handles as (Hir & Hiv & Hrv & _).
  pose proof (core_phys _ _ _ _ _ _ Hc) as [Hlk Ht Hb Hla].
  apply dll_app in Hlk as (_ & _ & Hn & _ & Hn' & _). simpl in Hn, Hn'. fold b in Hn. fold rb in Hn'.
  split; [done|]. split.
  - unfold b. rewrite Hla by set_solver. fold b. rewrite Hn. apply bool_decide_false.
    by apply (valid_not_none t r (core_storage _ _ _ _ _ _ Hc)).
  - split; [done|]. apply tiles_app in Ht as (m & Ht1 & Ho & Hor & Ht2). simpl in *.
    fold b in Ho, Hor, Ht2. fold rb in Hor, Ht2.
    assert (∀ j, j ∈ l1 ++ i :: r :: l2 → 0 < blk_length (get_block t j)) as Hpos
      by (intros j Hj; by destruct (Hb j Hj)).
    apply tiles_le in Ht1; [|intros j Hj; apply Hpos; set_solver].
    apply tiles_le in Ht2; [|intros j Hj; apply Hpos; set_solver].
    pose proof (co_range _ (core_config _ _ _ _ _ _ Hc)). lia.
Qed.

(** The state before the right node is released. *)
Let t1 := iree_hal_memory_tlsf_merge_frontiers i (Some (blk_frontier rb)) t.

Local Lemma absorb_writes m :
  core t1 (l1 ++ i :: r :: l2) unused [] bins F → same_accounts t t1 →
  changes_only t t1 i m → same_shape b m →
  ∃ t2, tlsf_absorb i r t = iree_hal_memory_tlsf_free_node r t2 ∧
    storage_ok t2 ∧ same_frame t1 t2 ∧ same_accounts t t2 ∧
    get_block t2 i = absorb_node m rb ∧
    (∀ j, valid t j → j ≠ i → get_block t2 j =
      if decide (hd NONE l2 = j) then set_prev_physical i (get_block t j) else get_block t j).
Proof using All.
  intros Hc1 Ha Hg Hsh. destruct absorb_handles as (Hir & Hiv & Hrv & Hl & Hnd & Hd & Hu).
  destruct absorb_links as (En & Ela & Enr & Hlen).
  pose proof (core_storage _ _ _ _ _ _ Hc1) as Hs1. pose proof (sa_capacity _ _ Ha) as Ecap.
  assert (∀ j, valid t1 j ↔ valid t j) as Hv by (intros j; unfold valid; by rewrite Ecap).
  assert (get_block t1 i = m) as Em by (rewrite Hg by done; by rewrite decide_True).
  assert (get_block t1 r = rb) as Erb by (rewrite Hg by done; by rewrite decide_False).
  assert (∃ t2, evolves t1 t2 i (absorb_node m rb) ∧
    tlsf_absorb i r t = iree_hal_memory_tlsf_free_node r (repoint_right (next_physical rb) i t2))
    as (t2 & Hev & ->).
  { eexists. split; [|unfold tlsf_absorb, repoint_right; fold rb t1; rewrite Erb; reflexivity].
    unfold absorb_node. rewrite <- Em. apply Hv in Hiv.
    evolve. }
  destruct Hev as [Hs2 Hf2 Ha2 Hg2].
  destruct (repoint_right_spec t2 (next_physical rb) i Hs2) as (Hs3 & Hf3 & Ha3 & Hg3).
  { rewrite Enr. intros Hne. unfold valid. rewrite (sf_capacity _ _ Hf2). apply Hv.
    destruct l2 as [|n l2']; [done|]. apply Hl. right. by left. }
  assert (∀ j, valid t j → valid t2 j) as Hv2
    by (intros j Hj%Hv; unfold valid; by rewrite (sf_capacity _ _ Hf2)).
  eexists. split; [reflexivity|]. split; [done|]. split; [by transitivity t2|].
  split; [by transitivity t1; [|transitivity t2]|]. split.
  - rewrite Hg3, Hg2 by (auto; by apply Hv). rewrite (decide_True (P := i = i)) by done.
    rewrite decide_False; [done|]. rewrite Enr. destruct l2 as [|n l2']; simpl.
    + intros E. apply (none_not_valid t); [exact (core_storage _ _ _ _ _ _ Hc)|by rewrite E].
    + apply Hl. right. by left.
  - intros j Hj Hne. rewrite Hg3, Hg2, Hg, Enr by (auto; by apply Hv).
    rewrite !(decide_False (P := i = j)) by done. done.
Qed.

(** The absorbed node is in flight; the left block spans both ranges. *)
Local Lemma absorb_core t2 m :
  core t1 (l1 ++ i :: r :: l2) unused [] bins F → same_accounts t t1 →
  changes_only t t1 i m → same_shape b m → block_ok (config t) m →
  storage_ok t2 → same_frame t1 t2 → get_block t2 i = absorb_node m rb →
  (∀ j, valid t j → j ≠ i → get_block t2 j =
     if decide (hd NONE l2 = j) then set_prev_physical i (get_block t j) else get_block t j) →
  core t2 (l1 ++ i :: l2) unused [r] bins F.
Proof using All.
  intros Hc1 Ha Hg Hsh Hm Hs2 [Ec Ecap Eun Efl Esl Eli Ecnt] Ei Hj.
  destruct absorb_handles as (Hir & Hiv & Hrv & Hl & Hnd & Hd & Hu).
  destruct absorb_links as (En & Ela & Enr & Hlen). destruct Hsh as (S1 & S2 & S3 & S4 & S5 & S6 & S7).
  rewrite (sa_config _ _ Ha) in Ec. rewrite (sa_capacity _ _ Ha) in Ecap.
  assert (∀ j, valid t2 j ↔ valid t j) as Hv by (intros j; unfold valid; by rewrite Ecap).
  assert (valid t1 r) as Hr1 by (unfold valid; by rewrite (sa_capacity _ _ Ha)).
  pose proof (po_block _ _ _ (core_phys _ _ _ _ _ _ Hc) r ltac:(set_solver)) as Hbr. fold rb in Hbr.
  destruct (absorb_node_spec (config t) m rb Hm Hbr ltac:(congruence) ltac:(congruence))
    as (Eln & Efree & Elast & Etn & Hok).
  assert (∀ j, valid t j → j ≠ i → geom (get_block t2 j) = geom (repointed i l2 (get_block t) j) ∨ j ∉ l2) as Hrep.
  { intros j Hjv Hne. destruct (decide (j ∈ l2)) as [Hin|]; [left|by right]. rewrite Hj by done.
    unfold repointed. destruct l2 as [|n l]; [by apply not_elem_of_nil in Hin|]. simpl.
    destruct (decide (n = j)) as [->|Hnj]; [by rewrite decide_True|].
    rewrite decide_False; [done|]. congruence. }
  pose proof Hc as [Hcfg Hst Hph Hndp Hh Hun Hls Hlf He]. split; rewrite ?Ec; try done.
  - apply (phys_absorb (config t) (get_block t) (get_block t2) l1 l2 i r); [done| | |done|..].
    + by apply (valid_not_none t).
    + intros j Hjl. destruct (Hl j ltac:(by left)) as (Hjv & Hji & Hjr). rewrite Hj by done.
      rewrite decide_False; [done|]. intros <-. destruct l2 as [|n l]; simpl in *.
      * by apply (none_not_valid t Hst).
      * apply (Hd n Hjl). by left.
    + intros j Hjl. destruct (Hl j ltac:(by right)) as (Hjv & Hji & Hjr). by destruct (Hrep j Hjv Hji).
    + by rewrite Ei, absorb_node_eq.
    + by rewrite Ei, absorb_node_eq.
    + rewrite Ei, Eln. by rewrite S2.
    + by rewrite Ei, absorb_node_eq.
    + by rewrite Ei.
    + by rewrite Ei.
  - eapply perm_nodup; [|exact Hndp]. rewrite app_nil_r. solve_Permutation.
  - intros j. rewrite Hv, Hh. set_solver.
  - rewrite Eun. eapply chain_ext; [|exact (core_unused _ _ _ _ _ _ Hc1)]. intros j Hju.
    destruct (Hu j Hju) as (Hjv & Hji & Hjl). rewrite Hg, Hj by done.
    rewrite (decide_False (P := i = j)) by done. by case_decide.
  - apply (lists_ok_same t1); [|done..|exact (core_lists _ _ _ _ _ _ Hc1)]. intros j HjF Hjv.
    assert (j ≠ i) by (by intros ->). assert (valid t j) by (revert Hjv; unfold valid; by rewrite (sa_capacity _ _ Ha)).
    split; [by apply Hv|]. rewrite Hg, Hj by done. rewrite (decide_False (P := i = j)) by done. by case_decide.
  - intros j HjF. specialize (Hlf j HjF). assert (j ≠ r) by (by intros ->). set_solver.
  - intros j Hjv%Hv. destruct (decide (j = i)) as [->|Hne].
    + rewrite Ei. by destruct Hok as (_ & _ & _ & [_ ?] & _).
    + rewrite Hj by done. specialize (He j Hjv). by case_decide.
Qed.

(** Absorbing the right neighbor. *)
Lemma absorb_ok :
  let t' := tlsf_absorb i r t in
  core t' (l1 ++ i :: l2) (r :: unused) [] bins F ∧ same_accounts t t' ∧
  joins (config t) (segment_at t i) (segment_at t r) (segment_at t' i) ∧
  (∀ j, j ∈ l1 ∨ j ∈ l2 → segment_at t' j = segment_at t j).
Proof using All.
  destruct absorb_handles as (Hir & Hiv & Hrv & Hl & Hnd & Hd & Hu).
  destruct absorb_links as (_ & Ela & _ & Hlen).
  pose proof (po_block _ _ _ (core_phys _ _ _ _ _ _ Hc)) as Hbk.
  pose proof (Hbk i ltac:(set_solver)) as Hbi. pose proof (Hbk r ltac:(set_solver)) as Hbr.
  destruct (merge_frontiers_ok _ _ _ _ _ _ i Hc ltac:(set_solver) (Some (blk_frontier rb)))
    as (m & Hc1 & Ha1 & Hg1 & Hsh & Hfree & Hm & Heff).
  { intros s [= <-]. by destruct Hbr as (_ & _ & _ & [? _] & _). }
  destruct (absorb_writes m Hc1 Ha1 Hg1 Hsh) as (t2 & -> & Hs2 & Hf2 & Ha2 & Ei & Hj).
  pose proof (absorb_core t2 m Hc1 Ha1 Hg1 Hsh Hm Hs2 Hf2 Ei Hj) as Hc2.
  destruct (core_free_node _ _ _ _ _ _ Hc2) as (Hc3 & Ha3 & Hg3).
  assert (∀ j, valid t j → valid t2 j) as Hv2 by (intros j; unfold valid; by rewrite (sa_capacity _ _ Ha2)).
  unfold segment_at. do 2 (split; [done || by transitivity t2|]). split.
  - rewrite Hg3, Ei by auto. by eapply absorb_joins.
  - intros j (Hjv & Hji & Hjr)%Hl. rewrite Hg3, Hj by auto. by case_decide.
Qed.
End absorb.

(** ** Copying frontiers *)

Lemma copy_frontier_ok c s d :
  frontier_ok s → entry_count s <= frontier_capacity c →
  Z.of_nat (length (entries d)) = frontier_capacity c →
  frontier_in c (copy_frontier s d) ∧ live (copy_frontier s d) = live s ∧
  entry_count (copy_frontier s d) = entry_count s.
Proof. apply copy_frontier_sized. Qed.

(** ** Writes to several nodes *)

Definition write_node (n : Z) (f : block_t → block_t) (g : Z → block_t) (j : Z) : block_t :=
  if decide (n = j) then f (g j) else g j.

(** [t'] is [t] with the nodes [g]. *)
Record steps (t t' : tlsf_t) (g : Z → block_t) : Prop := {
  st_storage : storage_ok t';
  st_frame : same_frame t t';
  st_accounts : same_accounts t t';
  st_nodes j : valid t j → get_block t' j = g j;
}.

Lemma steps_refl t : storage_ok t → steps t t (get_block t).
Proof. by split. Qed.

Lemma steps_update t t' g n f :
  valid t n → steps t t' g → steps t (update_block n f t') (write_node n f g).
Proof.
  intros Hn [Hs Hf Ha Hg]. pose proof (sf_capacity _ _ Hf) as Ecap.
  assert (∀ j, valid t j → valid t' j) as Hv by (intros j; unfold valid; by rewrite Ecap).
  split; [by apply storage_update|by destruct Hf|by destruct Ha|].
  intros j Hj. unfold write_node. rewrite get_update by auto. case_decide; subst; by rewrite Hg.
Qed.

Lemma steps_repoint t t' g n p :
  (n ≠ NONE → valid t n) → steps t t' g →
  steps t (repoint_right n p t') (write_node n (set_prev_physical p) g).
Proof.
  intros Hn [Hs Hf Ha Hg]. pose proof (sf_capacity _ _ Hf) as Ecap.
  assert (∀ j, valid t j → valid t' j) as Hv by (intros j; unfold valid; by rewrite Ecap).
  destruct (repoint_right_spec t' n p Hs ltac:(auto)) as (Hs' & Hf' & Ha' & Hg').
  split; [done|by transitivity t'|by transitivity t'|].
  intros j Hj. rewrite Hg' by auto. unfold write_node. case_decide; by rewrite Hg.
Qed.

(** Decides equalities of handles. *)
Ltac simplify_decide :=
  repeat match goal with
  | |- context [@decide (?x = ?y) _] =>
      first [rewrite (decide_True (P := x = y)) by congruence
            |rewrite (decide_False (P := x = y)) by congruence]
  end.

(** ** Splitting a block *)

(** The two nodes of a split: the shortened block and the remainder. *)
Definition split_head (a r : Z) (b : block_t) : block_t :=
  set_length a (set_next_physical r
    (if is_last b then set_flags (without_flag (blk_flags b) FLAG_LAST) b else b)).

Definition split_flags (flags : Z) : Z :=
  let f := with_flag FLAG_FREE (Z.land flags FLAG_TAINTED) in
  if has_flag flags FLAG_LAST then with_flag f FLAG_LAST else f.

Definition split_tail (i a rem : Z) (b z : block_t) : block_t :=
  mk_block (blk_offset b +64 a) rem i (next_physical b) (prev_free z) (next_free z)
    (split_flags (blk_flags b)) (copy_frontier (blk_frontier b) (blk_frontier z)).

Lemma split_flags_spec f :
  flags_ok f →
  flags_ok (split_flags f) ∧ has_flag (split_flags f) FLAG_FREE = true ∧
  has_flag (split_flags f) FLAG_LAST = has_flag f FLAG_LAST ∧
  has_flag (split_flags f) FLAG_TAINTED = has_flag f FLAG_TAINTED.
Proof. intros Hf%flags_cases; destruct_or! Hf; subst; done. Qed.

Section split.
Context (t : tlsf_t) (l1 l2 : list Z) (i r a : Z) (unused : list Z).
Context (bins : Z * Z → list Z) (F : gset Z).
Context (Hc : core t (l1 ++ i :: l2) unused [r] bins F) (HiF : i ∉ F).

Let b := get_block t i.
Let z := get_block t r.

Context (Ha : 0 < a < blk_length b) (Haa : (alignment (config t) | a)).

Local Lemma split_handles :
  i ≠ r ∧ valid t i ∧ valid t r ∧ (∀ j, j ∈ l1 ∨ j ∈ l2 → valid t j ∧ j ≠ i ∧ j ≠ r) ∧
  NoDup (l1 ++ i :: r :: l2) ∧ (∀ j, j ∈ l1 → j ∉ l2) ∧
  (∀ j, j ∈ unused → valid t j ∧ j ≠ i ∧ j ≠ r ∧ j ∉ l2) ∧ r ∉ F ∧
  next_physical b = hd NONE l2.
Proof using All.
  pose proof (core_nodup _ _ _ _ _ _ Hc) as Hnd. pose proof (core_handles _ _ _ _ _ _ Hc) as Hh.
  pose proof (core_listed _ _ _ _ _ _ Hc) as HF.
  pose proof (po_links _ _ _ (core_phys _ _ _ _ _ _ Hc)) as Hlk.
  apply dll_app in Hlk as (_ & _ & Hn & _). simpl in Hn. fold b in Hn.
  assert (∀ j, j ∈ l1 ++ i :: l2 ∨ j ∈ unused ∨ j = r → valid t j) as Hv
    by (intros j Hj; apply Hh; set_solver).
  apply (perm_nodup _ ((l1 ++ i :: r :: l2) ++ unused)) in Hnd; [|solve_Permutation].
  apply NoDup_app in Hnd as (Hnp & Hdu & _).
  pose proof Hnp as (_ & Hd & [Hi [Hr _]%NoDup_cons]%NoDup_cons)%NoDup_app.
  assert (∀ j, j ∈ l1 → j ≠ i ∧ j ≠ r ∧ j ∉ l2) as Hd1 by (intros j Hj; specialize (Hd j Hj); set_solver).
  assert (∀ j, j ∈ l2 → j ≠ i ∧ j ≠ r) as Hd2 by set_solver.
  assert (i ≠ r) as Hir by set_solver.
  split; [done|]. split; [apply Hv; set_solver|]. split; [apply Hv; set_solver|].
  split; [|split; [done|split; [intros j Hj; by apply Hd1|split; [|split; [|done]]]]].
  - intros j Hj. split; [apply Hv; set_solver|]. destruct Hj as [Hj|Hj]; [|by apply Hd2].
    by destruct (Hd1 j Hj) as (? & ? & _).
  - intros j Hj. split; [apply Hv; by auto|]. split_and!; intros Hx; apply (Hdu j); set_solver.
  - intros HrF. specialize (HF r HrF). set_solver.
Qed.

Local Lemma split_writes rem :
  ∃ t2, tlsf_split i a rem r t =
      set_bytes_free (bytes_free (iree_hal_memory_tlsf_insert_free_block r t2) -64 a)
        (iree_hal_memory_tlsf_insert_free_block r t2) ∧
    storage_ok t2 ∧ same_frame t t2 ∧ same_accounts t t2 ∧
    get_block t2 i = split_head a r b ∧ get_block t2 r = split_tail i a rem b z ∧
    (∀ j, valid t j → j ≠ i → j ≠ r → get_block t2 j =
      if decide (hd NONE l2 = j) then set_prev_physical r (get_block t j) else get_block t j).
Proof using All.
  destruct split_handles as (Hir & Hiv & Hrv & Hl & Hnd & Hd & Hu & _ & Hn).
  pose proof (core_storage _ _ _ _ _ _ Hc) as Hs.
  assert (hd NONE l2 ≠ NONE → valid t (hd NONE l2)) as Hnv.
  { destruct l2 as [|n l]; [done|]. intros _. apply Hl. right. by left. }
  assert (hd NONE l2 ≠ i ∧ hd NONE l2 ≠ r) as [Hni Hnr].
  { destruct l2 as [|n l]; [|by destruct (Hl n ltac:(right; by left)) as (_ & ? & ?)].
    split; simpl; intros E; apply (none_not_valid t Hs); by rewrite E. }
  unfold tlsf_split. fold b.
  match goal with |- context [next_physical (get_block ?T r)] => set (T1 := T) end.
  assert (∃ g, steps t T1 g ∧
    g i = (if is_last b then set_flags (without_flag (blk_flags b) FLAG_LAST) b else b) ∧
    g r = mk_block (blk_offset b +64 a) rem i (next_physical b) (prev_free z) (next_free z)
      (split_flags (blk_flags b)) (blk_frontier z) ∧
    (∀ j, j ≠ i → j ≠ r → g j = get_block t j)) as (g & Hst & Egi & Egr & Eg).
  { unfold T1. destruct (is_last b) eqn:El.
    all: eexists; split; [repeat (apply steps_update; [done|]); by apply steps_refl|].
    all: unfold write_node; split_and!; [| |intros j Hji Hjr]; simplify_decide.
    all: unfold split_flags; rewrite ?El; reflexivity. }
  rewrite (st_nodes _ _ _ Hst r Hrv), Egr. cbn [next_physical]. rewrite Hn.
  change (if negb (hd NONE l2 =? NONE) then update_block (hd NONE l2) (set_prev_physical r) T1 else T1)
    with (repoint_right (hd NONE l2) r T1).
  apply (steps_repoint _ _ _ (hd NONE l2) r Hnv) in Hst. set (T2 := repoint_right _ _ _) in *.
  apply (steps_update _ _ _ i (set_next_physical r) Hiv) in Hst.
  apply (steps_update _ _ _ i (set_length a) Hiv) in Hst. set (T3 := update_block i _ (update_block i _ _)) in *.
  pose proof (st_nodes _ _ _ Hst i Hiv) as Ei.
  apply (steps_update _ _ _ r (λ b, set_frontier (copy_frontier (blk_frontier (get_block T3 i))
    (blk_frontier b)) b) Hrv) in Hst. set (T4 := update_block r _ T3) in *.
  exists T4. split; [done|]. destruct Hst as [Hs4 Hf4 Ha4 Hg4]. do 3 (split; [done|]).
  rewrite !Hg4, Ei by done. unfold write_node. split_and!.
  - simplify_decide. by rewrite Egi.
  - simplify_decide. rewrite Egr, Egi. unfold split_tail. simpl. by destruct (is_last b).
  - intros j Hj Hji Hjr. rewrite Hg4 by done. unfold write_node. simplify_decide. by rewrite Eg.
Qed.

Let rem := blk_length b - a.

Local Lemma split_nodes :
  blk_frontier z = zero_frontier (frontier_capacity (config t)) →
  blk_offset b + a < 2 ^ 64 ∧ is_last (split_head a r b) = false ∧
  block_ok (config t) (split_head a r b) ∧ block_ok (config t) (split_tail i a rem b z).
Proof using All.
  intros Ez. destruct (core_bounds _ _ _ _ _ _ i Hc ltac:(set_solver)) as (Ho & Hl & Hr & Hw). fold b in Ho, Hl, Hr.
  pose proof (po_block _ _ _ (core_phys _ _ _ _ _ _ Hc) i ltac:(set_solver)) as (_ & Hal & Hf & Hfr & Ht).
  fold b in Hal, Hf, Hfr, Ht. pose proof (co_capacity _ (core_config _ _ _ _ _ _ Hc)).
  split; [lia|]. split; [|split].
  - unfold split_head. simpl. destruct (is_last b) eqn:El; [|done]. simpl.
    by rewrite has_without by auto with tlsf.
  - split; [simpl; lia|]. split; [done|]. unfold split_head. simpl.
    destruct (is_last b); [|done]. simpl. split; [auto with tlsf|]. split; [done|].
    by rewrite has_without by auto with tlsf.
  - destruct (split_flags_spec _ Hf) as (Hsf & _ & _ & Est).
    assert (entry_count (blk_frontier b) <= frontier_capacity (config t)) as Hec
      by (destruct Hfr as [(_ & ? & _) ?]; lia).
    destruct (copy_frontier_ok (config t) (blk_frontier b) (blk_frontier z)) as (Hin & _ & Ecc);
      [by destruct Hfr|done|rewrite Ez; simpl; rewrite length_replicate; lia|].
    split; [simpl; unfold rem; lia|]. split; [by apply Z.divide_sub_r|].
    split; [done|]. split; [done|]. simpl blk_flags. rewrite Est. intros Htt. simpl blk_frontier.
    rewrite Ecc. auto.
Qed.

Local Lemma split_core t2 :
  blk_frontier z = zero_frontier (frontier_capacity (config t)) →
  storage_ok t2 → same_frame t t2 →
  get_block t2 i = split_head a r b → get_block t2 r = split_tail i a rem b z →
  (∀ j, valid t j → j ≠ i → j ≠ r → get_block t2 j =
     if decide (hd NONE l2 = j) then set_prev_physical r (get_block t j) else get_block t j) →
  core t2 (l1 ++ i :: r :: l2) unused [] bins F.
Proof using All.
  intros Ez Hs2 [Ec Ecap Eun Efl Esl Eli Ecnt] Ei Er Hj.
  destruct split_handles as (Hir & Hiv & Hrv & Hl & Hnd & Hd & Hu & HrF & Hn).
  destruct (split_nodes Ez) as (Hoff & Elh & Hbh & Hbt).
  assert (∀ j, valid t2 j ↔ valid t j) as Hv by (intros j; unfold valid; by rewrite Ecap).
  pose proof Hc as [Hcfg Hst Hph Hndp Hh Hun Hls Hlf He].
  destruct (core_bounds _ _ _ _ _ _ i Hc ltac:(set_solver)) as (Ho & _). fold b in Ho.
  destruct (po_block _ _ _ Hph i ltac:(set_solver)) as (_ & _ & Hfl & _). fold b in Hfl.
  split; rewrite ?Ec; try done.
  - apply (phys_split (config t) (get_block t) (get_block t2) l1 l2 i r); rewrite ?Ei, ?Er; try done.
    + by apply (valid_not_none t).
    + intros j Hjl. destruct (Hl j ltac:(by left)) as (Hjv & Hji & Hjr). rewrite Hj by done.
      rewrite decide_False; [done|]. intros <-. destruct l2 as [|n l]; simpl in *.
      * by apply (none_not_valid t Hst).
      * apply (Hd n Hjl). by left.
    + intros j Hjl. destruct (Hl j ltac:(by right)) as (Hjv & Hji & Hjr). rewrite Hj by done.
      unfold repointed. destruct l2 as [|n l]; [by apply not_elem_of_nil in Hjl|]. simpl.
      destruct (decide (n = j)) as [->|Hnj]; [by rewrite decide_True|].
      rewrite decide_False; [done|]. congruence.
    + fold b. unfold split_head. by destruct (is_last b).
    + fold b. unfold split_head. by destruct (is_last b).
    + simpl. fold b. apply uadd_small. lia.
    + simpl. fold b. unfold rem. lia.
    + fold b. by destruct (split_flags_spec _ Hfl) as (_ & _ & E & _).
  - eapply perm_nodup; [|exact Hndp]. solve_Permutation.
  - intros j. rewrite Hv, Hh. set_solver.
  - rewrite Eun. eapply chain_ext; [|exact Hun]. intros j Hju.
    destruct (Hu j Hju) as (Hjv & Hji & Hjr & Hjl). rewrite Hj by done. by case_decide.
  - apply (lists_ok_same t); [|done..]. intros j HjF Hjv. split; [by apply Hv|].
    rewrite Hj by (done || congruence). by case_decide.
  - intros j HjF. specialize (Hlf j HjF). set_solver.
  - intros j Hjv%Hv. destruct (decide (j = i)) as [->|Hji]; [|destruct (decide (j = r)) as [->|Hjr]].
    + rewrite Ei. by destruct Hbh as (_ & _ & _ & [_ ?] & _).
    + rewrite Er. by destruct Hbt as (_ & _ & _ & [_ ?] & _).
    + rewrite Hj by done. specialize (He j Hjv). by case_decide.
Qed.

(** Cutting the block at [a]: the remainder becomes a listed free block. *)
Lemma split_ok :
  blk_frontier z = zero_frontier (frontier_capacity (config t)) →
  let t' := tlsf_split i a rem r t in
  let s := segment_at t i in
  (∃ bins', core t' (l1 ++ i :: r :: l2) unused [] bins' ({[r]} ∪ F)) ∧
  (config t' = config t ∧ block_capacity t' = block_capacity t ∧
   bytes_allocated t' = bytes_allocated t ∧ allocation_count t' = allocation_count t ∧
   bytes_free t' = bytes_free t -64 a) ∧
  segment_at t' i = Segment (seg_offset s) a (seg_free s) (seg_tainted s) (seg_deps s) ∧
  segment_at t' r = Segment (seg_offset s + a) (seg_length s - a) true (seg_tainted s) (seg_deps s) ∧
  (∀ j, j ∈ l1 ∨ j ∈ l2 → segment_at t' j = segment_at t j).
Proof using All.
  intros Ez. destruct split_handles as (Hir & Hiv & Hrv & Hl & Hnd & Hd & Hu & HrF & Hn).
  destruct (split_nodes Ez) as (Hoff & _ & Hbh & Hbt).
  destruct (core_bounds _ _ _ _ _ _ i Hc ltac:(set_solver)) as (Ho & _ & Hr & Hw). fold b in Ho, Hr.
  pose proof (po_block _ _ _ (core_phys _ _ _ _ _ _ Hc) i ltac:(set_solver)) as (_ & _ & Hf & Hfr & _).
  fold b in Hf, Hfr. pose proof (co_capacity _ (core_config _ _ _ _ _ _ Hc)).
  destruct (split_writes rem) as (t2 & -> & Hs2 & Hf2 & Ha2 & Ei & Er & Hj).
  pose proof (split_core t2 Ez Hs2 Hf2 Ei Er Hj) as Hc2.
  destruct (core_insert _ _ _ _ _ _ r Hc2 ltac:(set_solver) HrF) as (bins' & Hc3 & Hsc & Hg3).
  set (t3 := iree_hal_memory_tlsf_insert_free_block r t2) in *.
  assert (∀ j, valid t j → valid t2 j) as Hv2 by (intros j; unfold valid; by rewrite (sa_capacity _ _ Ha2)).
  assert (∀ j, valid t j → segment_at (set_bytes_free (bytes_free t3 -64 a) t3) j = segment_of (get_block t2 j)) as Hseg.
  { intros j Hjv. etransitivity; [|apply (segment_geom (get_block t2 j) (get_block t3 j)); auto].
    done. }
  split; [|split; [|split; [|split]]].
  - exists bins'. by eapply core_same; [|exact Hc3].
  - apply scalars_accounts in Hsc. pose proof (same_accounts_trans _ _ _ Ha2 Hsc) as [? ? ? Ebf ?].
    split_and!; try done.
    change (bytes_free t3 -64 a = bytes_free t -64 a). by rewrite Ebf.
  - rewrite Hseg, Ei by done. unfold segment_at. fold b. unfold split_head, segment_of. simpl.
    destruct (is_last b); [|done]. simpl. by rewrite !has_without by auto with tlsf.
  - rewrite Hseg, Er by done. unfold segment_at. fold b. unfold split_tail, segment_of. simpl.
    destruct (split_flags_spec _ Hf) as (_ & -> & _ & ->). rewrite uadd_small by lia.
    destruct (copy_frontier_ok (config t) (blk_frontier b) (blk_frontier z)) as (_ & -> & _); [by destruct Hfr| | |done].
    + destruct Hfr as [(_ & ? & _) ?]; lia.
    + rewrite Ez. simpl. rewrite length_replicate. lia.
  - intros j (Hjv & Hji & Hjr)%Hl. rewrite Hseg, Hj by done. unfold segment_at. by case_decide.
Qed.
End split.

(** ** Metadata of one block *)

(** Rewriting flags (other than LAST) and the frontier of one block. *)
Lemma core_evolves t t' phys unused loose bins F i b' :
  core t phys unused loose bins F → i ∈ phys → evolves t t' i b' →
  same_shape (get_block t i) b' → block_ok (config t) b' →
  core t' phys unused loose bins F ∧ segment_at t' i = segment_of b' ∧
  (∀ j, j ∈ phys → j ≠ i → segment_at t' j = segment_at t j).
Proof.
  intros Hc Hi [Hs Hf Ha Hg] Hsh Hb. split; [by eapply core_change_block|]. unfold segment_at. split.
  - rewrite Hg by by apply (core_valid _ _ _ _ _ _ _ Hc). by rewrite decide_True.
  - intros j Hj Hne. rewrite Hg by by apply (core_valid _ _ _ _ _ _ _ Hc). by rewrite decide_False.
Qed.

(** Taint and dependencies of a block released with a death frontier. *)
Definition death_deps (capacity : Z) (death : option iree_async_frontier_t)
    : bool * list iree_async_frontier_entry_t :=
  match death with
  | Some f => if decide (entry_count f <= capacity) then (false, live f) else (true, [])
  | None => (false, [])
  end.

(** [s'] is [s] with the metadata of a release; only an overflow capture can choose other
    dependencies, and only when the death frontier does not fit. *)
Definition replaced (c : tlsf_config) (death : option iree_async_frontier_t) (s s' : segment) : Prop :=
  seg_offset s' = seg_offset s ∧ seg_length s' = seg_length s ∧ seg_free s' = seg_free s ∧
  (frontier_overflow c = None ∨ (∀ d, death = Some d → entry_count d <= frontier_capacity c) →
   (seg_tainted s', seg_deps s') = death_deps (frontier_capacity c) death).

Section metadata.
Context (t : tlsf_t) (phys unused : list Z) (bins : Z * Z → list Z) (F : gset Z) (i : Z).
Context (Hc : core t phys unused [] bins F) (Hi : i ∈ phys).

Let b := get_block t i.

Lemma metadata_block :
  valid t i ∧ storage_ok t ∧ block_ok (config t) b ∧ flags_ok (blk_flags b) ∧
  Z.of_nat (length (entries (blk_frontier b))) = frontier_capacity (config t).
Proof using All.
  destruct (core_block _ _ _ _ _ _ i Hc Hi) as (Hb & Hv & Hs). fold b in Hb.
  split; [done|]. split; [done|]. split; [done|]. destruct Hb as (_ & _ & Hf & [_ Hfr] & _). done.
Qed.

Lemma set_free_ok :
  let t' := update_block i (λ b, set_flags (with_flag (blk_flags b) FLAG_FREE) b) t in
  let s := segment_at t i in
  core t' phys unused [] bins F ∧ same_accounts t t' ∧
  segment_at t' i = Segment (seg_offset s) (seg_length s) true (seg_tainted s) (seg_deps s) ∧
  (∀ j, j ∈ phys → j ≠ i → segment_at t' j = segment_at t j).
Proof using All.
  intros t' s. destruct metadata_block as (Hv & Hs & Hb & Hf & He).
  assert (evolves t t' i (set_flags (with_flag (blk_flags b) FLAG_FREE) b)) as Hev by (unfold t', b; evolve).
  destruct (core_evolves _ _ _ _ _ _ _ _ _ Hc Hi Hev) as (Hc' & Ei & Ej).
  - do 6 (split; [done|]). fold b. cbn [blk_flags set_flags]. by rewrite has_with by auto with tlsf.
  - destruct Hb as (? & ? & ? & ? & Ht). do 2 (split; [done|]). split; [apply with_flags_ok; auto with tlsf|]. split; [done|].
    cbn [blk_flags set_flags]. by rewrite has_with by auto with tlsf.
  - split; [done|]. split; [by destruct Hev|]. split; [|done]. rewrite Ei. unfold segment_of, s, segment_at.
    cbn [seg_offset seg_length seg_tainted seg_deps]. fold b. cbn [blk_flags set_flags]. by rewrite !has_with by auto with tlsf.
Qed.

Lemma clear_used_ok :
  let t' := update_block i (λ b, set_flags (without_flag (blk_flags b) FLAG_FREE) b) t in
  let s := segment_at t i in
  core t' phys unused [] bins F ∧ same_accounts t t' ∧
  segment_at t' i = Segment (seg_offset s) (seg_length s) false (seg_tainted s) (seg_deps s) ∧
  (∀ j, j ∈ phys → j ≠ i → segment_at t' j = segment_at t j).
Proof using All.
  intros t' s. destruct metadata_block as (Hv & Hs & Hb & Hf & He).
  assert (evolves t t' i (set_flags (without_flag (blk_flags b) FLAG_FREE) b)) as Hev by (unfold t', b; evolve).
  destruct (core_evolves _ _ _ _ _ _ _ _ _ Hc Hi Hev) as (Hc' & Ei & Ej).
  - do 6 (split; [done|]). fold b. cbn [blk_flags set_flags]. by rewrite has_without by auto with tlsf.
  - destruct Hb as (? & ? & ? & ? & Ht). do 2 (split; [done|]). split; [apply without_flags_ok; auto with tlsf|]. split; [done|].
    cbn [blk_flags set_flags]. by rewrite has_without by auto with tlsf.
  - split; [done|]. split; [by destruct Hev|]. split; [|done]. rewrite Ei. unfold segment_of, s, segment_at.
    cbn [seg_offset seg_length seg_tainted seg_deps]. fold b. cbn [blk_flags set_flags]. by rewrite !has_without by auto with tlsf.
Qed.

Let u := set_flags (without_flag (blk_flags b) FLAG_TAINTED) b.

Local Lemma untainted_node f :
  frontier_in (config t) f →
  same_shape b (set_frontier f u) ∧ block_ok (config t) (set_frontier f u) ∧
  segment_of (set_frontier f u) = Segment (blk_offset b) (blk_length b) (is_free b) false (live f).
Proof using All.
  intros Hf'. destruct metadata_block as (Hv & Hs & (? & ? & _) & Hf & He).
  assert (has_flag (without_flag (blk_flags b) FLAG_TAINTED) FLAG_TAINTED = false) as Et
    by (by rewrite has_without by auto with tlsf).
  split; [|split].
  - do 6 (split; [done|]). unfold u. cbn [blk_flags set_flags set_frontier].
    by rewrite has_without by auto with tlsf.
  - do 2 (split; [done|]). split; [apply without_flags_ok; auto with tlsf|]. split; [done|].
    unfold u. cbn [blk_flags set_flags set_frontier]. by rewrite Et.
  - unfold segment_of, u. cbn. by rewrite Et, has_without by auto with tlsf.
Qed.

Local Lemma replace_node f t' :
  frontier_in (config t) f → evolves t t' i (set_frontier f u) →
  core t' phys unused [] bins F ∧ same_accounts t t' ∧
  segment_at t' i = Segment (blk_offset b) (blk_length b) (is_free b) false (live f) ∧
  (∀ j, j ∈ phys → j ≠ i → segment_at t' j = segment_at t j).
Proof using All.
  intros Hf Hev. destruct (untainted_node f Hf) as (Hsh & Hb & Eseg).
  destruct (core_evolves _ _ _ _ _ _ _ _ _ Hc Hi Hev Hsh Hb) as (Hc' & Ei & Ej).
  rewrite <- Eseg. split; [done|]. split; [by destruct Hev|done].
Qed.
End metadata.

Section replace.
Context (t : tlsf_t) (phys unused : list Z) (bins : Z * Z → list Z) (F : gset Z) (i : Z).
Context (Hc : core t phys unused [] bins F) (Hi : i ∈ phys).

(** Merging a frontier that does not fit into a cleared one. *)
Local Lemma overflow_ok d :
  frontier_ok d → frontier_capacity (config t) < entry_count d →
  seg_tainted (segment_at t i) = false → seg_deps (segment_at t i) = [] →
  let t' := iree_hal_memory_tlsf_merge_frontiers i (Some d) t in
  core t' phys unused [] bins F ∧ same_accounts t t' ∧
  replaced (config t) (Some d) (segment_at t i) (segment_at t' i) ∧
  (∀ j, j ∈ phys → j ≠ i → segment_at t' j = segment_at t j).
Proof using All.
  intros Hd Hlt Et Ed t'. pose proof (co_capacity _ (core_config _ _ _ _ _ _ Hc)) as Hcap.
  pose proof (core_valid _ _ _ _ _ _ i Hc Hi) as Hv.
  destruct (merge_frontiers_ok _ _ _ _ _ _ i Hc Hi (Some d)) as (m & Hc' & Ha & Hg & Hsh & Hfr & Hm & Heff);
    [by intros s [= <-]|].
  assert (segment_at t' i = segment_of m) as Em
    by (unfold segment_at, t'; rewrite Hg by done; by rewrite decide_True).
  split; [done|]. split; [done|]. split.
  - rewrite Em. destruct Hsh as (E1 & E2 & _). unfold replaced, segment_at, segment_of in *.
    cbn [seg_offset seg_length seg_free seg_tainted seg_deps] in *. do 3 (split; [done|]). intros Hcond.
    simpl. rewrite decide_False by lia. pose proof (live_length d Hd) as El.
    destruct Hm as (_ & _ & Hfl & Hin%live_short & Htm).
    inversion Heff as [|s [E0|Ht]|s b' Ht Efl Elv|s h Eh Ht Hov|s b' Eh Ht Hov Efl]; subst; try lia; try congruence.
    + rewrite Elv, Ed, fmerge_nil_l in Hin. lia.
    + destruct Hcond as [|Hcond]; [congruence|]. specialize (Hcond d eq_refl). lia.
    + assert (is_tainted m = true) as Etm.
      { rewrite Efl, has_with; [done| |auto with tlsf..].
        by destruct (core_block _ _ _ _ _ _ i Hc Hi) as ((_ & _ & ? & _) & _). }
      rewrite Etm, (live_empty (blk_frontier m)) by auto. done.
  - intros j Hj Hne. unfold segment_at, t'. rewrite Hg by by apply (core_valid _ _ _ _ _ _ _ Hc).
    by rewrite decide_False.
Qed.
End replace.

(** The metadata writes of a release. *)
Lemma replace_frontier_ok t phys unused bins F i death :
  core t phys unused [] bins F → i ∈ phys → (∀ d, death = Some d → frontier_ok d) →
  let t' := tlsf_replace_frontier i death t in
  core t' phys unused [] bins F ∧ same_accounts t t' ∧
  replaced (config t) death (segment_at t i) (segment_at t' i) ∧
  (∀ j, j ∈ phys → j ≠ i → segment_at t' j = segment_at t j).
Proof.
  intros Hc Hi Hd t'. set (b := get_block t i).
  destruct (metadata_block _ _ _ _ _ i Hc Hi) as (Hv & Hs & (_ & _ & _ & Hfr & _) & _ & He).
  set (u := set_flags (without_flag (blk_flags b) FLAG_TAINTED) b).
  set (t1 := update_block i (λ b, set_flags (without_flag (blk_flags b) FLAG_TAINTED) b) t).
  set (fc := iree_async_frontier_initialize (blk_frontier b) 0).
  set (tc := update_block i (λ b, set_frontier (iree_async_frontier_initialize (blk_frontier b) 0) b) t1).
  assert (frontier_in (config t) fc) as Hfc by (apply (clear_entry_count_ok _ _ Hfr)).
  assert (evolves t tc i (set_frontier fc u)) as Hevc by (unfold tc, t1, u, fc, b; evolve).
  destruct (replace_node _ _ _ _ _ i Hc Hi fc tc Hfc Hevc) as (Hcc & Hac & Ec & Ejc).
  assert (death_deps (frontier_capacity (config t)) death = (false, []) →
    core tc phys unused [] bins F ∧ same_accounts t tc ∧
    replaced (config t) death (segment_at t i) (segment_at tc i) ∧
    (∀ j, j ∈ phys → j ≠ i → segment_at tc j = segment_at t j)) as Hclear.
  { intros E. split; [done|]. split; [done|]. split; [|done]. rewrite Ec. by split_and!. }
  pose proof (co_capacity _ (core_config _ _ _ _ _ _ Hc)) as Hcap.
  unfold t', tlsf_replace_frontier. fold t1 tc. destruct death as [d|]; [|by apply Hclear].
  pose proof (Hd d eq_refl) as Hdok. pose proof (live_length d Hdok) as Hll.
  destruct (Z.ltb_spec 0 (entry_count d)) as [Hpos|Hzero].
  - change (config t1) with (config t). destruct (Z.leb_spec (entry_count d) (frontier_capacity (config t))) as [Hle|Hgt].
    + destruct (copy_frontier_ok (config t) d (blk_frontier b) Hdok Hle He) as (Hin & El & _).
      set (ta := update_block i _ t1).
      assert (evolves t ta i (set_frontier (copy_frontier d (blk_frontier b)) u)) as Heva
        by (unfold ta, t1, u, b; evolve).
      destruct (replace_node _ _ _ _ _ i Hc Hi _ ta Hin Heva) as (Hca & Haa & Ea & Eja).
      split; [done|]. split; [done|]. split; [|done]. rewrite Ea, El. split_and!; try done.
      intros _. simpl. by rewrite decide_True.
    + assert (config tc = config t) as Ecfg by apply Hac. rewrite <- Ecfg in Hgt.
      destruct (overflow_ok _ _ _ _ _ i Hcc Hi d Hdok Hgt) as (Hco & Hao & Hro & Ejo).
      * by rewrite Ec.
      * by rewrite Ec.
      * split; [done|]. split; [by transitivity tc|]. rewrite Ecfg, Ec in Hro. split; [done|].
        intros j Hj Hne. rewrite Ejo by done. by apply Ejc.
  - apply Hclear. simpl. rewrite decide_True by lia. f_equal. apply nil_length_inv. lia.
Qed.
