(* ===== verification/TlsfRefine.v ===== *)
(** * The TLSF allocator refines an allocator of segments

    The abstract state is the list of segments in offset order.  This file defines the
    global invariant, the abstract allocation and release, and proves that the
    operations of [tlsf.c] preserve the invariant and implement the abstract ones. *)

From S2P Require Import Prelude BaseMath Allocator Frontier Tlsf TlsfMapping TlsfStore TlsfLists.
From S2P Require Import TlsfInvariant TlsfOps.
From stdpp Require Import base numbers list list_numbers gmap sets.

Local Open Scope Z_scope.
Local Open Scope machine_scope.

(** Conversion leaves the block storage folded. *)
#[local] Strategy 1000 [get_block update_block].

(** ** Lists of segments *)

Definition segs (t : tlsf_t) (l : list Z) : list segment := segment_at t <$> l.

Lemma segs_ext t t' l : (∀ j, j ∈ l → segment_at t' j = segment_at t j) → segs t' l = segs t l.
Proof.
  induction l as [|i l IH]; intros H; [done|]. unfold segs. simpl. f_equal; [apply H; by left|].
  apply IH. intros j Hj. apply H. by right.
Qed.

Lemma segs_app t l1 l2 : segs t (l1 ++ l2) = segs t l1 ++ segs t l2.
Proof. apply fmap_app. Qed.

(** No two free segments are adjacent. *)
Fixpoint coalesced (ss : list segment) : Prop :=
  match ss with
  | a :: ((b :: _) as rest) => ¬ (seg_free a = true ∧ seg_free b = true) ∧ coalesced rest
  | _ => True
  end.

(** The boundary between two lists of segments. *)
Definition boundary (ss1 ss2 : list segment) : Prop :=
  ∀ a b, last ss1 = Some a → head ss2 = Some b → ¬ (seg_free a = true ∧ seg_free b = true).

Lemma coalesced_app ss1 ss2 :
  coalesced (ss1 ++ ss2) ↔ coalesced ss1 ∧ coalesced ss2 ∧ boundary ss1 ss2.
Proof.
  unfold boundary. induction ss1 as [|a [|b ss1] IH].
  - simpl. naive_solver.
  - simpl. destruct ss2 as [|b ss2]; simpl; naive_solver.
  - change ((a :: b :: ss1) ++ ss2) with (a :: b :: (ss1 ++ ss2)).
    change (last (a :: b :: ss1)) with (last (b :: ss1)).
    change (coalesced (a :: b :: ss1 ++ ss2)) with
      (¬ (seg_free a = true ∧ seg_free b = true) ∧ coalesced ((b :: ss1) ++ ss2)).
    change (coalesced (a :: b :: ss1)) with
      (¬ (seg_free a = true ∧ seg_free b = true) ∧ coalesced (b :: ss1)).
    rewrite IH. tauto.
Qed.

(** Running totals. *)
Definition seg_sum (f : segment → Z) (ss : list segment) : Z := foldr (λ s n, f s + n) 0 ss.
Definition free_bytes : list segment → Z := seg_sum (λ s, if seg_free s then seg_length s else 0).
Definition allocated_bytes : list segment → Z := seg_sum (λ s, if seg_free s then 0 else seg_length s).
Definition allocated_count : list segment → Z := seg_sum (λ s, if seg_free s then 0 else 1).

Lemma seg_sum_app f ss1 ss2 : seg_sum f (ss1 ++ ss2) = seg_sum f ss1 + seg_sum f ss2.
Proof. induction ss1 as [|s ss1 IH]; simpl; [done|]. unfold seg_sum in *. simpl. lia. Qed.

Lemma seg_sum_cons f s ss : seg_sum f (s :: ss) = f s + seg_sum f ss.
Proof. done. Qed.

Lemma seg_sum_nonneg f ss : (∀ s, s ∈ ss → 0 <= f s) → 0 <= seg_sum f ss.
Proof.
  induction ss as [|s ss IH]; intros H; [done|]. rewrite seg_sum_cons.
  pose proof (H s ltac:(by left)). assert (0 <= seg_sum f ss); [|lia]. apply IH. intros x Hx. apply H. by right.
Qed.

(** ** The global invariant *)

(** [F] holds the free blocks among [l]. *)
Definition free_set (t : tlsf_t) (F : gset Z) (l : list Z) : Prop :=
  ∀ j, j ∈ l → (j ∈ F ↔ seg_free (segment_at t j) = true).

Record state_ok (t : tlsf_t) (phys unused : list Z) (bins : Z * Z → list Z) (F : gset Z) : Prop := {
  so_core : core t phys unused [] bins F;
  so_free : free_set t F phys;
  so_head : head phys = Some 0;
  so_coalesced : coalesced (segs t phys);
  so_allocated : bytes_allocated t = allocated_bytes (segs t phys);
  so_bytes_free : bytes_free t = free_bytes (segs t phys);
  so_count : allocation_count t = allocated_count (segs t phys);
}.

(** The totals of the segments partition the managed range. *)
Lemma totals t phys unused loose bins F :
  core t phys unused loose bins F →
  0 <= allocated_bytes (segs t phys) ∧ 0 <= free_bytes (segs t phys) ∧
  allocated_bytes (segs t phys) + free_bytes (segs t phys) = range_length (config t) ∧
  0 <= allocated_count (segs t phys) <= Z.of_nat (length phys).
Proof.
  intros Hc. assert (∀ s, s ∈ segs t phys → 0 < seg_length s) as Hpos.
  { intros s (i & -> & Hi)%list_elem_of_fmap. by apply (core_bounds _ _ _ _ _ _ i Hc). }
  pose proof (tiles_sum _ _ _ _ _ (po_tiles _ _ _ (core_phys _ _ _ _ _ _ Hc))) as Hsum.
  split_and!.
  - apply seg_sum_nonneg. intros s Hs%Hpos. destruct (seg_free s); lia.
  - apply seg_sum_nonneg. intros s Hs%Hpos. destruct (seg_free s); lia.
  - rewrite Hsum. clear. unfold allocated_bytes, free_bytes. induction phys as [|i l IH]; [done|].
    change (segs t (i :: l)) with (segment_at t i :: segs t l). rewrite !seg_sum_cons.
    unfold sum_by in *. cbn [foldr]. change (blk_length (get_block t i)) with (seg_length (segment_at t i)).
    destruct (seg_free (segment_at t i)); lia.
  - apply seg_sum_nonneg. intros s _. destruct (seg_free s); lia.
  - clear. unfold allocated_count. induction phys as [|i l IH]; [done|].
    change (segs t (i :: l)) with (segment_at t i :: segs t l). rewrite seg_sum_cons. cbn [length].
    destruct (seg_free (segment_at t i)); lia.
Qed.

(** ** Coalescing *)

(** A free segment takes over a free right neighbor. *)
Inductive merge_right (c : tlsf_config) (s : segment) : list segment → segment → list segment → Prop :=
  | merge_right_free r post s' :
      seg_free r = true → joins c s r s' → merge_right c s (r :: post) s' post
  | merge_right_none post :
      (∀ r, head post = Some r → seg_free r = false) → merge_right c s post s post.

(** A free left neighbor takes over a free segment. *)
Inductive merge_left (c : tlsf_config) (s : segment) : list segment → list segment → segment → Prop :=
  | merge_left_free pre l s' :
      seg_free l = true → joins c l s s' → merge_left c s (pre ++ [l]) pre s'
  | merge_left_none pre :
      (∀ l, last pre = Some l → seg_free l = false) → merge_left c s pre pre s.

(** Blocks in use keep their segments. *)
Record same_used (t t' : tlsf_t) (l l' : list Z) : Prop := {
  su_used j : j ∈ l' ∧ seg_free (segment_at t' j) = false ↔ j ∈ l ∧ seg_free (segment_at t j) = false;
  su_same j : j ∈ l → seg_free (segment_at t j) = false → segment_at t' j = segment_at t j;
}.

Lemma same_used_refl t l : same_used t t l l.
Proof. by split. Qed.

Lemma same_used_trans t1 t2 t3 l1 l2 l3 :
  same_used t1 t2 l1 l2 → same_used t2 t3 l2 l3 → same_used t1 t3 l1 l3.
Proof.
  intros [U1 S1] [U2 S2]. split; [intros j; by rewrite U2, U1|].
  intros j Hj Hu. destruct (proj2 (U1 j) (conj Hj Hu)) as [Hj' Hu']. rewrite S2 by done. by apply S1.
Qed.

(** Segments stay and the blocks that come or go are free. *)
Lemma same_used_intro t t' l l' :
  (∀ j, j ∈ l → j ∈ l' → segment_at t' j = segment_at t j) →
  (∀ j, j ∈ l → j ∉ l' → seg_free (segment_at t j) = true) →
  (∀ j, j ∈ l' → j ∉ l → seg_free (segment_at t' j) = true) → same_used t t' l l'.
Proof.
  intros Hs Hg Hc. assert (∀ j, j ∈ l → seg_free (segment_at t j) = false → j ∈ l') as Hin.
  { intros j Hj Hu. destruct (decide (j ∈ l')) as [|Hn]; [done|]. by rewrite (Hg j) in Hu. }
  split; [|by eauto]. intros j. split; intros [Hj Hu].
  - destruct (decide (j ∈ l)) as [Hl|Hn]; [|by rewrite Hc in Hu]. by rewrite <- Hs.
  - split; [auto|]. by rewrite Hs by auto.
Qed.

Lemma core_remove_free t l unused bins F i :
  core t l unused [] bins F → i ∈ F → free_set t F l →
  let t' := iree_hal_memory_tlsf_remove_free_block i t in
  ∃ bins', core t' l unused [] bins' (F ∖ {[i]}) ∧ same_accounts t t' ∧
    (∀ j, j ∈ l → segment_at t' j = segment_at t j).
Proof.
  intros Hc Hi HF t'. destruct (core_remove _ _ _ _ _ _ i Hc Hi) as (bins' & Hc' & Hsc & Hg).
  exists bins'. split; [done|]. split; [by apply scalars_accounts|]. intros j Hj. apply segment_geom, Hg.
  by apply (core_valid _ _ _ _ _ _ _ Hc).
Qed.

Lemma links_around t l1 i l2 unused loose bins F :
  core t (l1 ++ i :: l2) unused loose bins F →
  next_physical (get_block t i) = hd NONE l2 ∧
  prev_physical (get_block t i) = last_or NONE l1 ∧
  is_last (get_block t i) = bool_decide (l2 = []) ∧ NoDup (l1 ++ i :: l2) ∧
  (∀ j, j ∈ l1 ++ i :: l2 → j ≠ NONE).
Proof.
  intros Hc. pose proof (core_phys _ _ _ _ _ _ Hc) as [Hlk _ _ Hla].
  assert (∀ j, j ∈ l1 ++ i :: l2 → j ≠ NONE) as Hnn.
  { intros j Hj. apply (valid_not_none t); [apply (core_storage _ _ _ _ _ _ Hc)|].
    by apply (core_valid _ _ _ _ _ _ _ Hc). }
  apply dll_app in Hlk as (_ & Hp & Hn & _). simpl in Hn, Hp.
  split; [done|]. split; [done|]. split; [|split; [|done]].
  - rewrite Hla, Hn by set_solver. apply bool_decide_ext. destruct l2 as [|n l]; simpl; [done|].
    split; [|done]. intros E. exfalso. apply (Hnn n); [set_solver|done].
  - by apply (NoDup_app _ (unused ++ loose)), (core_nodup _ _ _ _ _ _ Hc).
Qed.

Section coalesce.
Context (t : tlsf_t) (l1 l2 : list Z) (i : Z) (unused : list Z).
Context (bins : Z * Z → list Z) (F : gset Z).
Context (Hc : core t (l1 ++ i :: l2) unused [] bins F) (HiF : i ∉ F).
Context (Hfree : free_set t F (l1 ++ l2)).

Local Lemma coalesce_free_set j : j ∈ F → j ∈ l1 ++ l2 ∧ seg_free (segment_at t j) = true.
Proof using All.
  intros Hj. assert (j ∈ l1 ++ l2) as Hin.
  { pose proof (core_listed _ _ _ _ _ _ Hc j Hj). assert (j ≠ i) by congruence. set_solver. }
  split; [done|]. by apply Hfree.
Qed.

Lemma coalesce_right_ok :
  let t' := tlsf_coalesce_right i t in
  ∃ l2' unused' bins' F', core t' (l1 ++ i :: l2') unused' [] bins' F' ∧ same_accounts t t' ∧
    i ∉ F' ∧ free_set t' F' (l1 ++ l2') ∧ segs t' l1 = segs t l1 ∧
    same_used t t' (l1 ++ l2) (l1 ++ l2') ∧
    merge_right (config t) (segment_at t i) (segs t l2) (segment_at t' i) (segs t' l2').
Proof using All.
  destruct (links_around _ _ _ _ _ _ _ _ Hc) as (En & _ & El & Hnd & Hnn). unfold tlsf_coalesce_right.
  rewrite El, En. destruct l2 as [|r l]; simpl bool_decide; cbv iota beta.
  { exists [], unused, bins, F. do 6 (split; [done|]). by apply merge_right_none. }
  simpl negb. cbv iota. rewrite (proj2 (Z.eqb_neq _ _)) by (apply Hnn; set_solver). cbn [negb hd].
  change (has_flag (blk_flags (get_block t r)) FLAG_FREE) with (seg_free (segment_at t r)).
  destruct (seg_free (segment_at t r)) eqn:Ef; cycle 1.
  { exists (r :: l), unused, bins, F. do 6 (split; [done|]). apply merge_right_none.
    by intros ? [= <-]. }
  assert (r ∈ F) as HrF by (apply Hfree; [set_solver|done]).
  destruct (core_remove _ _ _ _ _ _ r Hc HrF) as (bins' & Hc1 & Ha1%scalars_accounts & Hg1).
  set (t1 := iree_hal_memory_tlsf_remove_free_block r t) in *. clearbody t1.
  destruct (absorb_ok t1 l1 l i r unused bins' (F ∖ {[r]}) Hc1 ltac:(set_solver) ltac:(set_solver))
    as (Hc2 & Ha2 & Hj2 & Hs2).
  assert (∀ j, j ∈ l1 ++ i :: r :: l → segment_at t1 j = segment_at t j) as Hs1.
  { intros j Hj. apply segment_geom, Hg1. by apply (core_valid _ _ _ _ _ _ _ Hc). }
  assert (∀ j, j ∈ l1 ∨ j ∈ l → segment_at (tlsf_absorb i r t1) j = segment_at t j) as Hs.
  { intros j Hj. rewrite Hs2 by done. apply Hs1. set_solver. }
  exists l, (r :: unused), bins', (F ∖ {[r]}). split; [done|]. split; [by transitivity t1|].
  split; [set_solver|]. split; [|split; [|split]].
  - intros j Hj. rewrite Hs by set_solver. rewrite <- (Hfree j) by set_solver.
    assert (j ≠ r); [|set_solver]. intros ->. clear -Hnd Hj. apply NoDup_app in Hnd as (_ & Hd & Hnd).
    apply NoDup_cons in Hnd as [_ Hnd]. apply NoDup_cons in Hnd as [Hr _]. specialize (Hd r). set_solver.
  - apply segs_ext. intros j Hj. apply Hs. by left.
  - apply same_used_intro.
    + intros j _ Hj%elem_of_app. by apply Hs.
    + intros j Hj Hn. assert (j = r) as -> by set_solver. done.
    + set_solver.
  - change (segs t (r :: l)) with (segment_at t r :: segs t l).
    rewrite (segs_ext t (tlsf_absorb i r t1) l) by (intros j Hj; apply Hs; by right).
    apply merge_right_free; [done|]. rewrite <- (Hs1 i), <- (Hs1 r) by set_solver.
    by rewrite <- (sa_config _ _ Ha1).
Qed.

Lemma coalesce_left_ok :
  let '(k, t') := tlsf_coalesce_left i t in
  ∃ l1' unused' bins' F', core t' (l1' ++ k :: l2) unused' [] bins' F' ∧ same_accounts t t' ∧
    k ∉ F' ∧ free_set t' F' (l1' ++ l2) ∧ head (l1' ++ k :: l2) = head (l1 ++ i :: l2) ∧
    segs t' l2 = segs t l2 ∧ same_used t t' (l1 ++ l2) (l1' ++ l2) ∧
    merge_left (config t) (segment_at t i) (segs t l1) (segs t' l1') (segment_at t' k).
Proof using All.
  destruct (links_around _ _ _ _ _ _ _ _ Hc) as (_ & Ep & _ & Hnd & Hnn). unfold tlsf_coalesce_left.
  rewrite Ep. destruct l1 as [|k l _] using rev_ind.
  { simpl. exists [], unused, bins, F. do 7 (split; [done|]). by apply merge_left_none. }
  rewrite last_or_snoc, (proj2 (Z.eqb_neq _ _)) by (apply Hnn; set_solver). cbn [negb].
  change (has_flag (blk_flags (get_block t k)) FLAG_FREE) with (seg_free (segment_at t k)).
  destruct (seg_free (segment_at t k)) eqn:Ef; cycle 1.
  { exists (l ++ [k]), unused, bins, F. do 7 (split; [done|]). apply merge_left_none.
    rewrite segs_app. unfold segs at 2. simpl. rewrite last_snoc. by intros ? [= <-]. }
  assert (k ∈ F) as HkF by (apply Hfree; [set_solver|done]).
  rewrite <- (assoc_L (++)) in Hc, Hnd, Hnn. simpl app in Hc, Hnd, Hnn.
  destruct (core_remove _ _ _ _ _ _ k Hc HkF) as (bins' & Hc1 & Ha1%scalars_accounts & Hg1).
  set (t1 := iree_hal_memory_tlsf_remove_free_block k t) in *. clearbody t1.
  destruct (absorb_ok t1 l l2 k i unused bins' (F ∖ {[k]}) Hc1 ltac:(set_solver) ltac:(set_solver))
    as (Hc2 & Ha2 & Hj2 & Hs2).
  assert (∀ j, j ∈ l ++ k :: i :: l2 → segment_at t1 j = segment_at t j) as Hs1.
  { intros j Hj. apply segment_geom, Hg1. by apply (core_valid _ _ _ _ _ _ _ Hc). }
  assert (∀ j, j ∈ l ∨ j ∈ l2 → segment_at (tlsf_absorb k i t1) j = segment_at t j) as Hs.
  { intros j Hj. rewrite Hs2 by done. apply Hs1. set_solver. }
  exists l, (i :: unused), bins', (F ∖ {[k]}). split; [done|]. split; [by transitivity t1|].
  split; [set_solver|]. split; [|split; [|split; [|split]]].
  - intros j Hj. rewrite Hs by set_solver. rewrite <- (Hfree j) by set_solver.
    assert (j ≠ k); [|set_solver]. intros ->. clear -Hnd Hj. apply NoDup_app in Hnd as (_ & Hd & Hnd).
    apply NoDup_cons in Hnd as [Hk _]. specialize (Hd k). set_solver.
  - by destruct l.
  - apply segs_ext. intros j Hj. apply Hs. by right.
  - apply same_used_intro.
    + intros j _ Hj%elem_of_app. by apply Hs.
    + intros j Hj Hn. assert (j = k) as -> by set_solver. done.
    + set_solver.
  - rewrite segs_app. rewrite (segs_ext t (tlsf_absorb k i t1) l) by (intros j Hj; apply Hs; by left).
    apply merge_left_free; [done|]. rewrite <- (Hs1 i), <- (Hs1 k) by set_solver.
    by rewrite <- (sa_config _ _ Ha1).
Qed.
End coalesce.

(** Fewer blocks than 32-bit handles. *)
Lemma phys_count t phys unused loose bins F :
  core t phys unused loose bins F → Z.of_nat (length phys) <= block_capacity t < 2 ^ 32.
Proof.
  intros Hc. pose proof (core_nodup _ _ _ _ _ _ Hc) as Hnd. apply NoDup_app in Hnd as (Hnd & _).
  destruct (lists_count_bound t bins F) as [_ Hcap];
    [apply (core_storage _ _ _ _ _ _ Hc)|apply (core_lists _ _ _ _ _ _ Hc)|].
  split; [|done]. pose proof (handles_size (list_to_set phys) (block_capacity t)) as Hsz.
  rewrite size_list_to_set in Hsz by done.
  assert (∀ i, i ∈ phys → 0 <= i < block_capacity t) as Hv by (intros i; apply (core_valid _ _ _ _ _ _ i Hc)).
  destruct phys as [|i l]; [|pose proof (Hv i ltac:(by left)); specialize (Hsz ltac:(set_solver)); lia].
  simpl. destruct (core_storage _ _ _ _ _ _ Hc) as [k ? ? ? ? ? E|? ? E ? ?]; rewrite E; [|done].
  pose proof (Z.pow_nonneg 2 (k + Z.of_nat (length (block_segments t)) - 1)). unfold UINT32_MAX. simpl. lia.
Qed.

(** ** Abstract release *)

Definition mark (free : bool) (s : segment) : segment :=
  Segment (seg_offset s) (seg_length s) free (seg_tainted s) (seg_deps s).

(** Releasing [s] between [pre] and [post]: new metadata, then the union with the free
    neighbors, right before left. *)
Inductive released (c : tlsf_config) (preserve : bool) (death : option iree_async_frontier_t)
    (pre : list segment) (s : segment) (post : list segment) : list segment → Prop :=
  | released_intro s0 s1 s2 pre' post' :
      (if preserve then s0 = mark true s else replaced c death (mark true s) s0) →
      merge_right c s0 post s1 post' → merge_left c s1 pre pre' s2 →
      released c preserve death pre s post (pre' ++ s2 :: post').

Lemma merge_right_totals c s post s' post' f :
  merge_right c s post s' post' → seg_free s = true →
  (∀ s1 s2 s3, joins c s1 s2 s3 → seg_free s1 = true → seg_free s2 = true → f s3 = f s1 + f s2) →
  seg_free s' = true ∧ f s' + seg_sum f post' = f s + seg_sum f post.
Proof.
  intros [r p s1 Hr Hj|p Hp] Hs Hf; [|done]. rewrite seg_sum_cons, (Hf _ _ _ Hj Hs Hr). split; [|lia].
  destruct Hj as (_ & _ & -> & _). done.
Qed.

Lemma merge_left_totals c s pre pre' s' f :
  merge_left c s pre pre' s' → seg_free s = true →
  (∀ s1 s2 s3, joins c s1 s2 s3 → seg_free s1 = true → seg_free s2 = true → f s3 = f s1 + f s2) →
  seg_free s' = true ∧ f s' + seg_sum f pre' = f s + seg_sum f pre.
Proof.
  intros [p l s1 Hl Hj|p Hp] Hs Hf; [|done]. rewrite seg_sum_app, seg_sum_cons, (Hf _ _ _ Hj Hl Hs).
  change (seg_sum f []) with 0. split; [|lia]. destruct Hj as (_ & _ & -> & _). done.
Qed.

(** A total that treats unions of free segments additively changes as if only [s] had
    changed. *)
Lemma released_total c preserve death pre s post ss f :
  released c preserve death pre s post ss →
  (∀ s1 s2 s3, joins c s1 s2 s3 → seg_free s1 = true → seg_free s2 = true → f s3 = f s1 + f s2) →
  (∀ s0, seg_free s0 = true → seg_length s0 = seg_length s → f s0 = f (mark true s)) →
  seg_sum f ss = seg_sum f pre + f (mark true s) + seg_sum f post.
Proof.
  intros [s0 s1 s2 pre' post' H0 Hr Hl] Hf H00.
  assert (seg_free s0 = true ∧ seg_length s0 = seg_length s) as [Hs0 Hlen].
  { destruct preserve; [by subst|]. by destruct H0 as (_ & ? & ? & _). }
  destruct (merge_right_totals _ _ _ _ _ f Hr Hs0 Hf) as [Hs1 E1].
  destruct (merge_left_totals _ _ _ _ _ f Hl Hs1 Hf) as [Hs2 E2].
  rewrite seg_sum_app, seg_sum_cons. rewrite <- (H00 s0 Hs0 Hlen). lia.
Qed.

Lemma released_totals c preserve death pre s post ss :
  released c preserve death pre s post ss → seg_free s = false →
  allocated_bytes ss = allocated_bytes (pre ++ s :: post) - seg_length s ∧
  free_bytes ss = free_bytes (pre ++ s :: post) + seg_length s ∧
  allocated_count ss = allocated_count (pre ++ s :: post) - 1.
Proof.
  intros Hr Hs. unfold allocated_bytes, free_bytes, allocated_count.
  rewrite !(released_total _ _ _ _ _ _ _ _ Hr), !seg_sum_app, !seg_sum_cons, Hs; simpl.
  { lia. }
  all: try (intros s1 s2 s3 (_ & El & Ef & _) H1 H2; rewrite Ef, H1, H2; lia).
  all: intros s0 -> E; congruence.
Qed.

Lemma released_coalesced c preserve death pre s post ss :
  released c preserve death pre s post ss → coalesced (pre ++ s :: post) → coalesced ss.
Proof.
  intros [s0 s1 s2 pre' post' H0 Hr Hl] (Hp & Hq & _)%coalesced_app.
  assert (coalesced post' ∧ ∀ r, head post' = Some r → seg_free r = false) as [Hpost Hhead].
  { change (s :: post) with ([s] ++ post) in Hq. apply coalesced_app in Hq as (_ & Hq & _).
    destruct Hr as [r p s' Hrf _|p Hn]; [|done]. change (r :: p) with ([r] ++ p) in Hq.
    apply coalesced_app in Hq as (_ & Hq & Hb). split; [done|]. intros x Hx.
    specialize (Hb r x eq_refl Hx). destruct (seg_free x); [tauto|done]. }
  assert (coalesced pre' ∧ ∀ l, last pre' = Some l → seg_free l = false) as [Hpre Hlast].
  { destruct Hl as [p l s' Hlf _|p Hn]; [|done]. apply coalesced_app in Hp as (Hp & _ & Hb).
    split; [done|]. intros x Hx. specialize (Hb x l Hx eq_refl). destruct (seg_free x); [tauto|done]. }
  apply coalesced_app. split; [done|]. split.
  - change (s2 :: post') with ([s2] ++ post'). apply coalesced_app. split; [done|]. split; [done|].
    intros a b _ Hb. rewrite (Hhead b Hb). by intros [_ ?].
  - intros a b Ha _. rewrite (Hlast a Ha). by intros [? _].
Qed.

(** ** Release *)

(** Flags and frontier of a released block. *)
Lemma release_metadata_ok t phys unused bins F i death (preserve : bool) :
  core t phys unused [] bins F → i ∈ phys → (∀ d, death = Some d → frontier_ok d) →
  let t1 := update_block i (λ b, set_flags (with_flag (blk_flags b) FLAG_FREE) b) t in
  let t' := if negb preserve then tlsf_replace_frontier i death t1 else t1 in
  core t' phys unused [] bins F ∧ same_accounts t t' ∧
  (if preserve then segment_at t' i = mark true (segment_at t i)
   else replaced (config t) death (mark true (segment_at t i)) (segment_at t' i)) ∧
  (∀ j, j ∈ phys → j ≠ i → segment_at t' j = segment_at t j).
Proof.
  intros Hc Hi Hd t1. destruct (set_free_ok _ _ _ _ _ i Hc Hi) as (Hc1 & Ha1 & Ei1 & Ej1).
  fold t1 in Hc1, Ha1, Ei1, Ej1. clearbody t1. destruct preserve; [done|]. simpl negb. cbv iota.
  destruct (replace_frontier_ok _ _ _ _ _ i death Hc1 Hi Hd) as (Hc2 & Ha2 & Hr & Ej2).
  split; [done|]. split; [by transitivity t1|]. rewrite Ei1, (sa_config _ _ Ha1) in Hr. split; [done|].
  intros j Hj Hne. rewrite Ej2 by done. by apply Ej1.
Qed.

(** Coalescing with both neighbors and listing the result. *)
Lemma coalesce_insert_ok t l1 i l2 unused bins F :
  core t (l1 ++ i :: l2) unused [] bins F → i ∉ F → free_set t F (l1 ++ l2) →
  seg_free (segment_at t i) = true →
  let '(k, t1) := tlsf_coalesce_left i (tlsf_coalesce_right i t) in
  let t' := iree_hal_memory_tlsf_insert_free_block k t1 in
  ∃ phys' unused' bins' F' s1 s2 pre' post',
    core t' phys' unused' [] bins' F' ∧ same_accounts t t' ∧ free_set t' F' phys' ∧
    same_used t t' (l1 ++ l2) phys' ∧ head phys' = head (l1 ++ i :: l2) ∧ segs t' phys' = pre' ++ s2 :: post' ∧
    merge_right (config t) (segment_at t i) (segs t l2) s1 post' ∧
    merge_left (config t) s1 (segs t l1) pre' s2.
Proof.
  intros Hc HiF Hfree Hs.
  destruct (coalesce_right_ok t l1 l2 i unused bins F Hc HiF Hfree)
    as (l2' & u1 & b1 & F1 & Hc1 & Ha1 & HiF1 & Hfree1 & El1 & Hu1 & Hr).
  set (tr := tlsf_coalesce_right i t) in *. clearbody tr.
  pose proof (coalesce_left_ok tr l1 l2' i u1 b1 F1 Hc1 HiF1 Hfree1) as Hleft.
  destruct (tlsf_coalesce_left i tr) as [k tl]. destruct Hleft
    as (l1' & u2 & b2 & F2 & Hc2 & Ha2 & HkF2 & Hfree2 & Eh & El2 & Hu2 & Hl).
  destruct (core_insert _ _ _ _ _ _ k Hc2 ltac:(set_solver) HkF2) as (b3 & Hc3 & Ha3%scalars_accounts & Hg3).
  set (t' := iree_hal_memory_tlsf_insert_free_block k tl) in *. clearbody t'. intros ?.
  assert (∀ j, j ∈ l1' ++ k :: l2' → segment_at t' j = segment_at tl j) as Hseg.
  { intros j Hj. apply segment_geom, Hg3. by apply (core_valid _ _ _ _ _ _ _ Hc2). }
  destruct (merge_right_totals _ _ _ _ _ (λ _, 0) Hr Hs) as [Hs1 _]; [done|].
  destruct (merge_left_totals _ _ _ _ _ (λ _, 0) Hl Hs1) as [Hs2 _]; [done|].
  exists (l1' ++ k :: l2'), u2, b3, ({[k]} ∪ F2), (segment_at tr i), (segment_at tl k), (segs tl l1'), (segs tr l2').
  split; [done|]. split; [transitivity tr; [done|by transitivity tl]|]. split_and!.
  - intros j Hj. rewrite Hseg by done. destruct (decide (j = k)) as [->|Hne]; [set_solver|].
    rewrite <- (Hfree2 j) by set_solver. set_solver.
  - eapply same_used_trans; [exact Hu1|]. eapply same_used_trans; [exact Hu2|]. apply same_used_intro.
    + intros j _ Hj. by apply Hseg.
    + set_solver.
    + intros j Hj Hn. rewrite Hseg by done. assert (j = k) as -> by set_solver. done.
  - rewrite Eh. by destruct l1.
  - rewrite (segs_ext tl t') by done. rewrite segs_app. change (segs tl (k :: l2')) with (segment_at tl k :: segs tl l2').
    by rewrite El2.
  - done.
  - by rewrite <- El1, <- (sa_config _ _ Ha1).
Qed.

Theorem free_impl_ok t l1 i l2 unused bins F death preserve :
  state_ok t (l1 ++ i :: l2) unused bins F → seg_free (segment_at t i) = false →
  (∀ d, death = Some d → frontier_ok d) →
  let t' := iree_hal_memory_tlsf_free_impl t i death preserve in
  ∃ phys' unused' bins' F',
    state_ok t' phys' unused' bins' F' ∧ config t' = config t ∧ block_capacity t' = block_capacity t ∧
    same_used t t' (l1 ++ l2) phys' ∧
    released (config t) preserve death (segs t l1) (segment_at t i) (segs t l2) (segs t' phys').
Proof.
  intros [Hc Hfree Hhead Hco Hal Hbf Hcnt] Hs Hd. unfold iree_hal_memory_tlsf_free_impl.
  set (t0 := set_allocation_count _ _).
  assert (core t0 (l1 ++ i :: l2) unused [] bins F) as Hc0 by (by apply (core_same t)).
  assert (i ∉ F) as HiF by (rewrite (Hfree i) by set_solver; by rewrite Hs).
  destruct (release_metadata_ok _ _ _ _ _ i death preserve Hc0 ltac:(set_solver) Hd) as (Hc1 & Ha1 & Hi1 & Hj1).
  set (t1 := if negb preserve then _ else _) in *. clearbody t1.
  destruct (links_around _ _ _ _ _ _ _ _ Hc) as (_ & _ & _ & Hnd & _).
  assert (∀ j, j ∈ l1 ++ l2 → segment_at t1 j = segment_at t j) as Hj1'.
  { intros j Hj. rewrite Hj1; [done|set_solver|]. intros ->. clear -Hnd Hj.
    apply NoDup_app in Hnd as (_ & Hd & [? _]%NoDup_cons). specialize (Hd i). set_solver. }
  pose proof (coalesce_insert_ok t1 l1 i l2 unused bins F Hc1 HiF) as Hcoal.
  destruct (tlsf_coalesce_left i (tlsf_coalesce_right i t1)) as [k t2].
  destruct Hcoal as (phys' & u' & b' & F' & s1 & s2 & pre' & post' & Hc3 & Ha3 & Hf3 & Hu3 & Hh3 & Eseg & Hr & Hl).
  { intros j Hj. rewrite Hj1' by done. apply Hfree. set_solver. }
  { destruct preserve; [by rewrite Hi1|]. by destruct Hi1 as (_ & _ & -> & _). }
  set (t3 := iree_hal_memory_tlsf_insert_free_block k t2) in *. clearbody t3.
  rewrite (segs_ext t t1 l1), (segs_ext t t1 l2), (sa_config _ _ Ha1) in * by (intros j Hj; apply Hj1'; set_solver).
  change (config t0) with (config t) in *.
  assert (released (config t) preserve death (segs t l1) (segment_at t i) (segs t l2) (segs t3 phys')) as Hrel.
  { rewrite Eseg. by apply (released_intro _ _ _ _ _ _ (segment_at t1 i) s1). }
  exists phys', u', b', F'. pose proof (same_accounts_trans _ _ _ Ha1 Ha3) as [Ecfg Ecap Eal Ebf Ecnt].
  split; [|split; [done|]; split; [done|]; split; [|done];
    eapply same_used_trans; [|exact Hu3]; apply same_used_intro; set_solver].
  destruct (released_totals _ _ _ _ _ _ _ Hrel Hs) as (T1 & T2 & T3).
  destruct (totals _ _ _ _ _ _ Hc) as (B1 & B2 & B3 & B4).
  destruct (totals _ _ _ _ _ _ Hc3) as (B1' & B2' & B3' & B4').
  pose proof (phys_count _ _ _ _ _ _ Hc) as Hn. pose proof (co_range _ (core_config _ _ _ _ _ _ Hc)) as Hrg.
  pose proof (core_bounds _ _ _ _ _ _ i Hc ltac:(set_solver)) as (_ & Hlen & _).
  change (blk_length (get_block t i)) with (seg_length (segment_at t i)) in *.
  rewrite segs_app in *. change (segs t (i :: l2)) with (segment_at t i :: segs t l2) in *.
  rewrite Ecfg in B3'. change (config t0) with (config t) in B3'.
  split; [done|done|by rewrite Hh3|by eapply released_coalesced| | |].
  - rewrite Eal. change (bytes_allocated t -64 seg_length (segment_at t i) = allocated_bytes (segs t3 phys')).
    rewrite usub_small; unfold in_width; lia.
  - rewrite Ebf. change (bytes_free t +64 seg_length (segment_at t i) = free_bytes (segs t3 phys')).
    rewrite uadd_small; unfold in_width; lia.
  - rewrite Ecnt. change (usub 32 (allocation_count t) 1 = allocated_count (segs t3 phys')).
    rewrite usub_small; unfold in_width; lia.
Qed.

(** ** Allocation *)

(** The free remainder behind the first [a] bytes of a segment. *)
Definition remainder_of (a : Z) (s : segment) : list segment :=
  if decide (seg_length s = a) then []
  else [Segment (seg_offset s + a) (seg_length s - a) true (seg_tainted s) (seg_deps s)].

(** The first [a] bytes of a segment, allocated. *)
Definition taken (a : Z) (s : segment) : segment :=
  Segment (seg_offset s) a false (seg_tainted s) (seg_deps s).

Lemma set_bytes_free_ok t phys unused loose bins F v :
  core t phys unused loose bins F →
  let t' := set_bytes_free v t in
  core t' phys unused loose bins F ∧ (∀ j, segment_at t' j = segment_at t j) ∧
  (config t' = config t ∧ block_capacity t' = block_capacity t ∧
   bytes_allocated t' = bytes_allocated t ∧ allocation_count t' = allocation_count t ∧
   bytes_free t' = v).
Proof. intros Hc. split; [by apply (core_same t)|]. by split; [intros j; apply segment_same|]. Qed.

Section allocate.
Context (t : tlsf_t) (l1 l2 : list Z) (i a : Z) (unused : list Z).
Context (bins : Z * Z → list Z) (F : gset Z).
Context (Hc : core t (l1 ++ i :: l2) unused [] bins F) (HiF : i ∈ F).
Context (Hfree : free_set t F (l1 ++ i :: l2)).

Let s := segment_at t i.

Context (Ha : 0 < a <= seg_length s) (Haa : (alignment (config t) | a)).
Context (Hnode : a < seg_length s → unused ≠ []).

Local Lemma take_facts :
  seg_free s = true ∧ seg_length s < 2 ^ 64 ∧ (alignment (config t) | seg_length s) ∧
  blk_length (get_block t i) = seg_length s ∧
  NoDup (l1 ++ i :: l2) ∧ (∀ j, j ∈ l1 ++ l2 → j ≠ i).
Proof using All.
  destruct (links_around _ _ _ _ _ _ _ _ Hc) as (_ & _ & _ & Hnd & _).
  pose proof (core_bounds _ _ _ _ _ _ i Hc ltac:(set_solver)) as (? & ? & ? & ?).
  pose proof (po_block _ _ _ (core_phys _ _ _ _ _ _ Hc) i ltac:(set_solver)) as (_ & Hal & _).
  split; [by apply Hfree; [set_solver|]|]. split; [unfold s; simpl; lia|]. split; [done|]. split; [done|].
  split; [done|]. intros j Hj ->. clear -Hnd Hj.
  apply NoDup_app in Hnd as (_ & Hd & [? _]%NoDup_cons). specialize (Hd i). set_solver.
Qed.

Definition take_block (t : tlsf_t) : tlsf_t :=
  let remainder := blk_length (get_block t i) -64 a in
  let '(remainder_index, t) :=
    if alignment (config t) <=? remainder then iree_hal_memory_tlsf_alloc_node t
    else (NONE, t) in
  let t := iree_hal_memory_tlsf_remove_free_block i t in
  if negb (remainder_index =? NONE)
  then tlsf_split i a remainder remainder_index t
  else set_bytes_free (bytes_free t -64 blk_length (get_block t i)) t.

Definition take_result (t' : tlsf_t) : Prop :=
  ∃ rs unused' bins' F', core t' (l1 ++ i :: rs ++ l2) unused' [] bins' F' ∧
    (config t' = config t ∧ block_capacity t' = block_capacity t ∧
     bytes_allocated t' = bytes_allocated t ∧ allocation_count t' = allocation_count t ∧
     bytes_free t' = bytes_free t -64 a) ∧
    i ∉ F' ∧ free_set t' F' (l1 ++ rs ++ l2) ∧
    segment_at t' i = mark true (taken a s) ∧ segs t' rs = remainder_of a s ∧
    segs t' l1 = segs t l1 ∧ segs t' l2 = segs t l2.

(** The whole block is taken. *)
Local Lemma take_whole :
  seg_length s = a →
  let t1 := iree_hal_memory_tlsf_remove_free_block i t in
  take_result (set_bytes_free (bytes_free t1 -64 blk_length (get_block t1 i)) t1).
Proof using All.
  intros E. destruct take_facts as (Hs & Hw & _ & _ & Hnd & Hne).
  destruct (core_remove _ _ _ _ _ _ i Hc HiF) as (bins' & Hc1 & Ha1%scalars_accounts & Hg1).
  cbv zeta. set (t1 := iree_hal_memory_tlsf_remove_free_block i t) in *. clearbody t1.
  assert (∀ j, j ∈ l1 ++ i :: l2 → segment_at t1 j = segment_at t j) as Hs1.
  { intros j Hj. apply segment_geom, Hg1. by apply (core_valid _ _ _ _ _ _ _ Hc). }
  assert (blk_length (get_block t1 i) = a) as El.
  { change (blk_length (get_block t1 i)) with (seg_length (segment_at t1 i)). by rewrite Hs1 by set_solver. }
  rewrite El. destruct (set_bytes_free_ok _ _ _ _ _ _ (bytes_free t1 -64 a) Hc1) as (Hc2 & Hs2 & Hscal).
  set (t2 := set_bytes_free _ t1) in *. clearbody t2. destruct Ha1 as [Ec1 Eca1 Eal1 Ef1 En1].
  exists [], unused, bins', (F ∖ {[i]}). split; [done|]. rewrite Ec1, Eca1, Eal1, Ef1, En1 in Hscal.
  split; [done|]. split; [set_solver|]. split; [|split; [|split; [|split]]].
  - intros j Hj. rewrite Hs2, Hs1 by set_solver. rewrite <- (Hfree j) by set_solver.
    pose proof (Hne j Hj). set_solver.
  - rewrite Hs2, Hs1 by set_solver. fold s. unfold mark, taken. destruct s as [o len f ta de]. simpl in *. by subst.
  - unfold remainder_of. by rewrite decide_True.
  - apply segs_ext. intros j Hj. rewrite Hs2, Hs1 by set_solver. done.
  - apply segs_ext. intros j Hj. rewrite Hs2, Hs1 by set_solver. done.
Qed.

(** A node in hand becomes the remainder. *)
Local Lemma take_split r unused' :
  unused = r :: unused' → a < seg_length s →
  let '(index, t1) := iree_hal_memory_tlsf_alloc_node t in
  index ≠ NONE ∧
  take_result (tlsf_split i a (seg_length s - a) index (iree_hal_memory_tlsf_remove_free_block i t1)).
Proof using All.
  destruct take_facts as (Hs & Hw & Hal & Hlen & Hnd & Hne). intros Eu Hlt. rewrite Eu in Hc.
  pose proof (core_alloc_node t (l1 ++ i :: l2) unused' r bins F Hc) as Halloc.
  destruct (iree_hal_memory_tlsf_alloc_node t) as [index t1].
  destruct Halloc as (-> & Hc1 & Ha1 & Hg1).
  pose proof (core_nodup _ _ _ _ _ _ Hc) as (_ & Hdu & _)%NoDup_app.
  assert (∀ j, j ∈ l1 ++ i :: l2 → j ≠ r) as Hjr by (intros j Hj ->; apply (Hdu r Hj); set_solver).
  assert (valid t r) as Hrv by (apply (core_handles _ _ _ _ _ _ Hc); set_solver).
  assert (valid t1 r) as Hrv1 by (unfold valid; by rewrite (sa_capacity _ _ Ha1)).
  split; [by apply (valid_not_none t); [apply (core_storage _ _ _ _ _ _ Hc)|]|].
  destruct (core_remove _ _ _ _ _ _ i Hc1 HiF) as (bins' & Hc2 & Ha2%scalars_accounts & Hg2).
  set (t2 := iree_hal_memory_tlsf_remove_free_block i t1) in *. clearbody t2.
  assert (∀ j, j ∈ l1 ++ i :: l2 → segment_at t2 j = segment_at t j) as Hs2.
  { intros j Hj. pose proof (core_valid _ _ _ _ _ _ j Hc Hj) as Hv. pose proof (Hjr j Hj).
    etransitivity; [apply segment_geom, Hg2; unfold valid; by rewrite (sa_capacity _ _ Ha1)|].
    unfold segment_at. rewrite Hg1 by done. by rewrite decide_False. }
  pose proof (same_accounts_trans _ _ _ Ha1 Ha2) as [Ec Eca Eal Ebf En].
  assert (segment_at t2 i = s) as Es by (apply Hs2; set_solver).
  assert (blk_length (get_block t2 i) = seg_length s) as El2 by (by rewrite <- Es).
  destruct (split_ok t2 l1 l2 i r a unused' bins' (F ∖ {[i]}) Hc2 ltac:(set_solver)) as
    ([bins'' Hc3] & Hacc & Ei & Er & Hj3).
  { lia. }
  { by rewrite Ec. }
  { destruct (geom_fields _ _ (Hg2 r Hrv1)) as (_ & _ & _ & _ & _ & ->). rewrite Hg1 by done.
    rewrite decide_True by done. by rewrite Ec. }
  rewrite El2 in Hc3, Hacc, Ei, Er, Hj3. rewrite Es in Ei, Er.
  set (t3 := tlsf_split i a _ r t2) in *. clearbody t3. rewrite Ec, Eca, Eal, Ebf, En in Hacc.
  assert (∀ j, j ∈ l1 ∨ j ∈ l2 → segment_at t3 j = segment_at t j) as Hs3.
  { intros j Hj. rewrite Hj3 by done. apply Hs2. set_solver. }
  exists [r], unused', bins'', ({[r]} ∪ F ∖ {[i]}). split; [done|]. split; [done|]. split_and!.
  - pose proof (Hjr i). set_solver.
  - intros j Hj. destruct (decide (j = r)) as [->|Hnr]; [rewrite Er; set_solver|].
    rewrite Hs3 by set_solver. rewrite <- (Hfree j) by set_solver. pose proof (Hne j). set_solver.
  - by rewrite Ei, Hs.
  - unfold remainder_of. rewrite decide_False by lia. unfold segs. simpl. by rewrite Er.
  - apply segs_ext. intros j Hj. apply Hs3. by left.
  - apply segs_ext. intros j Hj. apply Hs3. by right.
Qed.

Lemma take_block_ok : take_result (take_block t).
Proof using All.
  destruct take_facts as (Hs & Hw & Hal & Hlen & _). unfold take_block.
  destruct (co_alignment _ (core_config _ _ _ _ _ _ Hc)) as (k & Hk & Ek).
  assert (0 < alignment (config t)) as Hpos by (rewrite Ek; apply Z.pow_pos_nonneg; lia).
  rewrite Hlen, usub_small by (unfold in_width; lia).
  destruct (decide (seg_length s = a)) as [E|Hne].
  - rewrite E, Z.sub_diag, (proj2 (Z.leb_gt _ _)) by lia. rewrite Z.eqb_refl. by apply take_whole.
  - assert (alignment (config t) <= seg_length s - a) as Hge
      by (apply Z.divide_pos_le; [lia|by apply Z.divide_sub_r]).
    rewrite (proj2 (Z.leb_le _ _) Hge). pose proof take_split as Hsplit.
    assert (∃ r unused', unused = r :: unused') as (r & unused' & Eu)
      by (destruct unused as [|r u]; [by destruct Hnode; [lia|]|by exists r, u]).
    specialize (Hsplit r unused' Eu ltac:(lia)).
    destruct (iree_hal_memory_tlsf_alloc_node t) as [index t1]. destruct Hsplit as [Hi Hr].
    by rewrite (proj2 (Z.eqb_neq _ _) Hi).
Qed.
End allocate.

(** The last part of [iree_hal_memory_tlsf_allocate_block]. *)
Definition finish_allocation (i : Z) (t : tlsf_t) : iree_hal_memory_tlsf_allocation_t * tlsf_t :=
  let t := update_block i (λ b, set_flags (without_flag (blk_flags b) FLAG_FREE) b) t in
  let block := get_block t i in
  (mk_allocation (blk_offset block) (blk_length block) i
     (nonempty_frontier (blk_frontier block)) (blk_flags block),
   set_allocation_count (uadd 32 (allocation_count t) 1)
     (set_bytes_allocated (bytes_allocated t +64 blk_length block) t)).

Lemma allocate_block_eq t i a :
  iree_hal_memory_tlsf_allocate_block t i a = finish_allocation i (take_block i a t).
Proof.
  unfold iree_hal_memory_tlsf_allocate_block, take_block.
  by destruct (if alignment (config t) <=? _ then _ else _) as [r t1].
Qed.

(** Abstract allocation of the first [a] bytes of [s] between [pre] and [post]. *)
Definition allocated (a : Z) (pre : list segment) (s : segment) (post : list segment) : list segment :=
  pre ++ taken a s :: remainder_of a s ++ post.

Lemma allocated_totals a pre s post :
  0 < a <= seg_length s → seg_free s = true →
  allocated_bytes (allocated a pre s post) = allocated_bytes (pre ++ s :: post) + a ∧
  free_bytes (allocated a pre s post) = free_bytes (pre ++ s :: post) - a ∧
  allocated_count (allocated a pre s post) = allocated_count (pre ++ s :: post) + 1.
Proof.
  intros Ha Hs. unfold allocated_bytes, free_bytes, allocated_count, allocated, remainder_of.
  case_decide; rewrite ?seg_sum_app, ?seg_sum_cons, ?seg_sum_app, ?seg_sum_cons, Hs; simpl; lia.
Qed.

Lemma allocated_coalesced a pre s post :
  coalesced (pre ++ s :: post) → seg_free s = true → coalesced (allocated a pre s post).
Proof.
  intros (Hp & Hq & Hb)%coalesced_app Hs. unfold allocated. apply coalesced_app. split; [done|].
  assert (coalesced (remainder_of a s ++ post)) as Hrest.
  { change (s :: post) with ([s] ++ post) in Hq. apply coalesced_app in Hq as (_ & Hq & Hbq).
    unfold remainder_of. case_decide; [done|]. apply coalesced_app. split; [done|]. split; [done|].
    intros x y [= <-] Hy. specialize (Hbq s y eq_refl Hy). simpl. by rewrite Hs in Hbq. }
  split.
  - change (taken a s :: remainder_of a s ++ post) with ([taken a s] ++ (remainder_of a s ++ post)).
    apply coalesced_app. split; [done|]. split; [done|]. intros x y [= <-] _. simpl. by intros [? _].
  - intros x y _ [= <-]. simpl. by intros [_ ?].
Qed.

Theorem allocate_block_ok t l1 i l2 unused bins F a :
  state_ok t (l1 ++ i :: l2) unused bins F → seg_free (segment_at t i) = true →
  0 < a <= seg_length (segment_at t i) → (alignment (config t) | a) →
  (a < seg_length (segment_at t i) → unused ≠ []) →
  let '(allocation, t') := iree_hal_memory_tlsf_allocate_block t i a in
  (∃ rs unused' bins' F', state_ok t' (l1 ++ i :: rs ++ l2) unused' bins' F' ∧
    segs t' (l1 ++ i :: rs ++ l2) = allocated a (segs t l1) (segment_at t i) (segs t l2)) ∧
  config t' = config t ∧ block_capacity t' = block_capacity t ∧
  segment_at t' i = taken a (segment_at t i) ∧
  allocation = mk_allocation (seg_offset (segment_at t i)) a i
    (iree_hal_memory_tlsf_block_death_frontier t' i) (iree_hal_memory_tlsf_block_flags t' i).
Proof.
  intros [Hc Hfree Hhead Hco Hal Hbf Hcnt] Hs Ha Haa Hnode. rewrite allocate_block_eq.
  assert (i ∈ F) as HiF by (apply Hfree; [set_solver|done]).
  destruct (take_block_ok t l1 l2 i a unused bins F Hc HiF Hfree Ha Haa Hnode) as
    (rs & u' & b' & F' & Hc1 & (Ec & Eca & Eal & En & Ebf) & HiF' & Hfree1 & Ei & Ers & El1 & El2).
  set (t1 := take_block i a t) in *. clearbody t1. set (s := segment_at t i) in *.
  destruct (clear_used_ok _ _ _ _ _ i Hc1 ltac:(set_solver)) as (Hc2 & [Ec2 Eca2 Eal2 Ebf2 En2] & Ei2 & Ej2).
  unfold finish_allocation. set (t2 := update_block i _ t1) in *. clearbody t2. rewrite Ei in Ei2.
  set (t3 := set_allocation_count _ _).
  assert (core t3 (l1 ++ i :: rs ++ l2) u' [] b' F') as Hc3 by (by apply (core_same t2)).
  assert (∀ j, segment_at t3 j = segment_at t2 j) as Hs3 by (intros j; by apply segment_same).
  assert (blk_length (get_block t2 i) = a) as Elen by (change (seg_length (segment_at t2 i) = a); by rewrite Ei2).
  assert (blk_offset (get_block t2 i) = seg_offset s) as Eoff
    by (change (seg_offset (segment_at t2 i) = seg_offset s); by rewrite Ei2).
  destruct (links_around _ _ _ _ _ _ _ _ Hc3) as (_ & _ & _ & Hnd & _).
  assert (∀ j, j ∈ l1 ++ rs ++ l2 → segment_at t3 j = segment_at t1 j) as Hj.
  { intros j Hj. rewrite Hs3. apply Ej2; [set_solver|]. intros ->. clear -Hnd Hj.
    apply NoDup_app in Hnd as (_ & Hd & [? _]%NoDup_cons). specialize (Hd i). set_solver. }
  assert (segs t3 (l1 ++ i :: rs ++ l2) = allocated a (segs t l1) s (segs t l2)) as Eseg.
  { rewrite segs_app. change (segs t3 (i :: rs ++ l2)) with (segment_at t3 i :: segs t3 (rs ++ l2)).
    rewrite segs_app, !(segs_ext t1 t3) by (intros j Hjj; apply Hj; set_solver).
    by rewrite Hs3, Ei2, Ers, El1, El2. }
  split; [|rewrite Hs3, Ei2, Elen, Eoff; by rewrite <- Ec, <- Eca].
  exists rs, u', b', F'. split; [|done].
  destruct (allocated_totals a (segs t l1) s (segs t l2) Ha Hs) as (T1 & T2 & T3).
  destruct (totals _ _ _ _ _ _ Hc3) as (B1 & B2 & B3 & B4). pose proof (phys_count _ _ _ _ _ _ Hc3) as Hn.
  destruct (totals _ _ _ _ _ _ Hc) as (B1' & B2' & B3' & B4').
  pose proof (co_range _ (core_config _ _ _ _ _ _ Hc3)) as Hrg. pose proof (co_range _ (core_config _ _ _ _ _ _ Hc)) as Hrg'.
  assert (segs t (l1 ++ i :: l2) = segs t l1 ++ s :: segs t l2) as Eold by apply segs_app.
  rewrite Eold in *. rewrite Eseg in *.
  split; rewrite ?Eseg; try done.
  - intros j Hjj. destruct (decide (j = i)) as [->|Hne]; [rewrite Hs3, Ei2; set_solver|].
    rewrite Hj by set_solver. apply Hfree1. set_solver.
  - by destruct l1.
  - by apply allocated_coalesced.
  - change (bytes_allocated t2 +64 blk_length (get_block t2 i) = allocated_bytes (allocated a (segs t l1) s (segs t l2))).
    rewrite Elen, Eal2, Eal, uadd_small by lia. lia.
  - change (bytes_free t2 = free_bytes (allocated a (segs t l1) s (segs t l2))).
    rewrite Ebf2, Ebf, usub_small by (unfold in_width; lia). lia.
  - change (uadd 32 (allocation_count t2) 1 = allocated_count (allocated a (segs t l1) s (segs t l2))).
    rewrite En2, En, uadd_small by lia. lia.
Qed.
