(* ===== verification/TlsfGrowth.v ===== *)
(** * Metadata growth and initialization of the TLSF allocator

    Growth publishes a segment of unused nodes without touching a block; initialization
    establishes the invariant with one free block over the whole range. *)

From S2P Require Import Prelude BaseMath Allocator Frontier Tlsf TlsfMapping TlsfStore TlsfLists.
From S2P Require Import TlsfInvariant TlsfOps TlsfRefine.
From stdpp Require Import base numbers list list_numbers gmap sets.

Local Open Scope Z_scope.
Local Open Scope machine_scope.

#[local] Strategy 1000 [get_block update_block].

(** ** Chains of consecutive handles *)

(** The handles [first + n - 1, ..., first]. *)
Definition countdown (first : Z) (n : nat) : list Z := reverse (seqZ first (Z.of_nat n)).

Lemma countdown_S first n : countdown first (S n) = (first + Z.of_nat n) :: countdown first n.
Proof. unfold countdown. by rewrite seqZ_S, reverse_app. Qed.

Lemma elem_of_countdown first n i : i ∈ countdown first n ↔ first <= i < first + Z.of_nat n.
Proof. unfold countdown. by rewrite elem_of_reverse, elem_of_seqZ. Qed.

Lemma countdown_nodup first n : NoDup (countdown first n).
Proof. unfold countdown. rewrite reverse_Permutation. apply NoDup_seqZ. Qed.

(** The head of a chain of [n] handles in front of [h]. *)
Definition countdown_head (h first : Z) (n : nat) : Z :=
  match n with O => h | S n => first + Z.of_nat n end.

Lemma chain_countdown nxt h first n l :
  (∀ k, (k < n)%nat → nxt (first + Z.of_nat k) = countdown_head h first k) → chain nxt h l →
  chain nxt (countdown_head h first n) (countdown first n ++ l).
Proof.
  induction n as [|n IH]; intros Hn Hl; [done|]. rewrite countdown_S. simpl. split; [done|].
  rewrite Hn by lia. apply IH; [|done]. intros k Hk. apply Hn. lia.
Qed.

(** ** Growth *)

Section growth.
Context (t : tlsf_t) (phys unused : list Z) (bins : Z * Z → list Z) (F : gset Z).
Context (Hc : core t phys unused [] bins F).

Let cap := block_capacity t.
Let count := Z.min cap (UINT32_MAX - cap).
Let fc := frontier_capacity (config t).

Context (Hpos : 0 < count).

Definition growth_segment : list block_t :=
  alter (set_next_free (unused_node_head t)) 0%nat (growth_nodes fc cap count).

Local Lemma growth_bounds : 0 < cap < 2 ^ 32 ∧ cap + count < 2 ^ 32.
Proof using All.
  pose proof (phys_count _ _ _ _ _ _ Hc) as [_ Hcap]. fold cap in Hcap.
  unfold UINT32_MAX in *. lia.
Qed.

Local Lemma growth_segment_length : Z.of_nat (length growth_segment) = count.
Proof using All.
  unfold growth_segment, growth_nodes. rewrite length_alter, length_fmap, length_seqZ. lia.
Qed.

Local Lemma growth_segment_node k :
  (k < Z.to_nat count)%nat →
  growth_segment !!! k = set_next_free (countdown_head (unused_node_head t) cap k) (zero_block fc).
Proof using All.
  intros Hk. destruct growth_bounds as (Hcap & Hsum). apply list_lookup_total_correct.
  assert (growth_nodes fc cap count !! k = Some (set_next_free (countdown_head NONE cap k) (zero_block fc))) as E.
  { unfold growth_nodes. rewrite list_lookup_fmap, lookup_seqZ_lt by lia. simpl. f_equal. f_equal.
    destruct k as [|k]; [done|]. rewrite (proj2 (Z.eqb_neq _ _)) by lia.
    rewrite uadd_small, usub_small by (unfold in_width; lia). simpl. lia. }
  unfold growth_segment. destruct k as [|k].
  - by rewrite list_lookup_alter_eq, E.
  - by rewrite list_lookup_alter_ne, E by lia.
Qed.

Definition grown_state : tlsf_t := grown t growth_segment count (cap + count - 1).

Lemma grown_core :
  core grown_state phys (countdown cap (Z.to_nat count) ++ unused) [] bins F ∧
  (∀ j, j ∈ phys → segment_at grown_state j = segment_at t j).
Proof using All.
  destruct growth_bounds as (Hcap & Hsum). pose proof growth_segment_length as Hlen.
  pose proof (core_storage _ _ _ _ _ _ Hc) as Hst.
  assert (∀ j, valid t j → get_block grown_state j = get_block t j) as Hold.
  { intros j Hj. by apply grown_get_old. }
  assert (∀ k, (k < Z.to_nat count)%nat →
    get_block grown_state (cap + Z.of_nat k) =
      set_next_free (countdown_head (unused_node_head t) cap k) (zero_block fc)) as Hnew.
  { intros k Hk. unfold grown_state. rewrite grown_get_new by (done || lia). fold cap.
    replace (Z.to_nat (cap + Z.of_nat k - cap)) with k by lia. by apply growth_segment_node. }
  assert (block_capacity grown_state = cap + count) as Ecap by done.
  assert (∀ j, valid grown_state j ↔ valid t j ∨ cap <= j < cap + count) as Hv.
  { intros j. unfold valid. rewrite Ecap. fold cap. lia. }
  assert (∀ j, j ∈ phys → valid t j) as Hpv by (intros j; by apply (core_valid _ _ _ _ _ _ _ Hc)).
  assert (config grown_state = config t) as Ecfg by done.
  split; [|intros j Hj; unfold segment_at; by rewrite Hold by auto].
  pose proof (co_capacity _ (core_config _ _ _ _ _ _ Hc)) as Hfc.
  pose proof Hc as [Hcfg _ Hph Hndp Hh Hun Hls Hlf He]. rewrite app_nil_r in Hndp.
  assert (∀ j, j ∈ phys ++ unused → valid t j) as Hall by (intros j Hj; apply Hh; by rewrite app_nil_r).
  split; rewrite ?Ecfg, ?app_nil_r; try done.
  - by apply grown_storage.
  - eapply phys_ok_geom; [|exact Hph]. intros j Hj. by rewrite Hold by auto.
  - apply (perm_nodup (countdown cap (Z.to_nat count) ++ phys ++ unused)); [solve_Permutation|].
    apply NoDup_app. split; [apply countdown_nodup|]. split; [|done].
    intros j Hjc%elem_of_countdown Hj%Hall. unfold valid in Hj. fold cap in Hj. lia.
  - intros j. rewrite Hv, !elem_of_app, elem_of_countdown, Hh, app_nil_r, elem_of_app.
    rewrite Z2Nat.id by lia. tauto.
  - change (unused_node_head grown_state) with (cap + count - 1).
    replace (cap + count - 1) with (countdown_head (unused_node_head t) cap (Z.to_nat count)).
    + apply chain_countdown; [intros k Hk; by rewrite Hnew|]. eapply chain_ext; [|exact Hun].
      intros j Hj. simpl. rewrite Hold; [done|]. apply Hall. set_solver.
    + destruct (Z.to_nat count) as [|n] eqn:E; simpl; lia.
  - apply (lists_ok_same t); [|done..]. intros j HjF Hj. split; [apply Hv; by left|]. by rewrite Hold.
  - intros j [Hj|Hj]%Hv; [by rewrite Hold; auto|].
    replace j with (cap + Z.of_nat (Z.to_nat (j - cap))) by lia. rewrite Hnew by lia.
    simpl. rewrite length_replicate. fold fc in Hfc. unfold fc. lia.
Qed.
End growth.

(** The growth step of [iree_hal_memory_tlsf_try_allocate]. *)
Definition try_grow (t : tlsf_t) (block_index aligned_length : Z) (host_allocator : iree_allocator_t)
    : status_or tlsf_t :=
  let growth := iree_hal_memory_tlsf_query_growth t block_index aligned_length in
  if negb (growth_first_block growth =? 0) then
    growth ← iree_hal_memory_tlsf_prepare_growth (frontier_capacity (config t)) growth host_allocator;
    Ok (iree_hal_memory_tlsf_apply_growth t growth).1.2
  else Ok t.

(** Publishing a prepared segment. *)
Lemma apply_growth_eq t phys unused bins F :
  core t phys unused [] bins F → 0 < Z.min (block_capacity t) (UINT32_MAX - block_capacity t) →
  let count := Z.min (block_capacity t) (UINT32_MAX - block_capacity t) in
  iree_hal_memory_tlsf_apply_growth t
    (mk_growth (growth_nodes (frontier_capacity (config t)) (block_capacity t) count)
       (block_stride (config t)) (block_capacity t) count) =
  (true, grown_state t, mk_growth [] (block_stride (config t)) (block_capacity t) count).
Proof.
  intros Hc Hpos count. destruct (growth_bounds t phys unused bins F Hc Hpos) as (Hcap & Hsum).
  fold count in Hsum, Hpos. unfold iree_hal_memory_tlsf_apply_growth.
  cbn [growth_first_block growth_block_stride growth_storage growth_block_count].
  rewrite !Z.eqb_refl. cbn [negb orb]. f_equal. f_equal.
  unfold grown_state, grown, growth_segment. fold count.
  change (block_capacity (set_segments ?s t)) with (block_capacity t).
  rewrite uadd_small by lia. change (block_capacity (set_block_capacity ?v ?x)) with v.
  rewrite usub_small by (unfold in_width; lia). done.
Qed.

Lemma grow_state_ok t phys unused bins F :
  state_ok t phys unused bins F → 0 < Z.min (block_capacity t) (UINT32_MAX - block_capacity t) →
  ∃ unused', unused' ≠ [] ∧ state_ok (grown_state t) phys unused' bins F ∧
    (∀ j, j ∈ phys → segment_at (grown_state t) j = segment_at t j).
Proof.
  intros [Hc Hfree Hhead Hco Hal Hbf Hcnt] Hpos. set (count := Z.min _ _) in Hpos.
  destruct (grown_core t phys unused bins F Hc Hpos) as [Hc' Hs].
  exists (countdown (block_capacity t) (Z.to_nat count) ++ unused). split.
  - destruct (Z.to_nat count) as [|n] eqn:E; [lia|]. by rewrite countdown_S.
  - split; [|done]. pose proof (segs_ext _ _ _ Hs) as Es. split; rewrite ?Es; try done.
    intros j Hj. rewrite Hs by done. by apply Hfree.
Qed.

Lemma unused_head t phys unused loose bins F :
  core t phys unused loose bins F → (unused_node_head t = NONE ↔ unused = []).
Proof.
  intros Hc. pose proof (core_unused _ _ _ _ _ _ Hc) as Hch. destruct unused as [|r u]; [done|].
  destruct Hch as [-> _]. split; [|done]. intros E. exfalso.
  destruct (valid_not_none t r) as [Hne _]; [apply (core_storage _ _ _ _ _ _ Hc)| |done].
  apply (core_handles _ _ _ _ _ _ Hc). set_solver.
Qed.

Lemma capacity_bound t : storage_ok t → block_capacity t <= UINT32_MAX.
Proof. intros [? ? ? ? ? ? E|? ? E ? ?]; lia. Qed.

(** A node for the remainder is in hand after the growth step; it fails only when a
    node is needed and none can be had. *)
Lemma try_grow_ok t phys unused bins F i a host_allocator :
  state_ok t phys unused bins F → i ∈ phys → 0 < a <= seg_length (segment_at t i) →
  (alignment (config t) | a) →
  match try_grow t i a host_allocator with
  | Ok t' => ∃ unused', state_ok t' phys unused' bins F ∧ config t' = config t ∧
      (a < seg_length (segment_at t i) → unused' ≠ []) ∧
      (∀ j, j ∈ phys → segment_at t' j = segment_at t j) ∧
      (unused ≠ [] → t' = t) ∧ block_capacity t <= block_capacity t'
  | Err code => unused = [] ∧ a < seg_length (segment_at t i) ∧
      (block_capacity t = UINT32_MAX ∧ code = IREE_STATUS_RESOURCE_EXHAUSTED ∨
       block_capacity t < UINT32_MAX ∧
       iree_allocator_malloc_array host_allocator
         (Z.min (block_capacity t) (UINT32_MAX - block_capacity t)) (block_stride (config t)) = Err code)
  end.
Proof.
  intros Hst Hi Ha Haa. pose proof (so_core _ _ _ _ _ Hst) as Hc.
  destruct (core_bounds _ _ _ _ _ _ i Hc Hi) as (_ & _ & Hr & Hw).
  destruct (core_bounds _ _ _ _ _ _ i Hc Hi) as (Ho & _).
  destruct (po_block _ _ _ (core_phys _ _ _ _ _ _ Hc) i Hi) as (_ & Hal & _).
  destruct (co_alignment _ (core_config _ _ _ _ _ _ Hc)) as (k & Hk & Ek).
  assert (0 < alignment (config t)) as Hpos by (rewrite Ek; apply Z.pow_pos_nonneg; lia).
  change (seg_length (segment_at t i)) with (blk_length (get_block t i)) in *.
  unfold try_grow, iree_hal_memory_tlsf_query_growth. rewrite usub_small by (unfold in_width; lia).
  pose proof (unused_head _ _ _ _ _ _ Hc) as Hun.
  destruct (Z.eqb_spec (unused_node_head t) NONE) as [E|NE]; cbn [negb orb]; cycle 1.
  { simpl. exists unused. do 2 (split; [done|]). split; [intros _ E; by apply NE, Hun|]. by split_and!. }
  assert (unused = []) as -> by by apply Hun.
  destruct (Z.ltb_spec (blk_length (get_block t i) - a) (alignment (config t))) as [Hlt|Hge].
  { simpl. exists []. do 2 (split; [done|]). split; [|by split_and!]. intros Hlt'. exfalso.
    assert (alignment (config t) <= blk_length (get_block t i) - a); [|lia].
    apply Z.divide_pos_le; [lia|by apply Z.divide_sub_r]. }
  pose proof (core_valid _ _ _ _ _ _ i Hc Hi) as Hv. unfold valid in Hv.
  pose proof (capacity_bound t (core_storage _ _ _ _ _ _ Hc)) as Hcap.
  assert (iree_min (block_capacity t) (usub 32 UINT32_MAX (block_capacity t)) =
    Z.min (block_capacity t) (UINT32_MAX - block_capacity t)) as ->.
  { rewrite usub_small by (unfold in_width, UINT32_MAX in *; lia). unfold iree_min.
    destruct (Z.leb_spec (block_capacity t) (UINT32_MAX - block_capacity t)); lia. }
  cbn [growth_first_block]. rewrite (proj2 (Z.eqb_neq _ _)) by lia. cbn [negb].
  unfold iree_hal_memory_tlsf_prepare_growth. cbn [growth_block_count growth_first_block growth_block_stride].
  destruct (Z.eqb_spec (Z.min (block_capacity t) (UINT32_MAX - block_capacity t)) 0) as [E0|NE0].
  { simpl. split; [done|]. split; [lia|]. left. split; [lia|done]. }
  destruct (iree_allocator_malloc_array _ _ _) as [storage|code] eqn:Em; simpl.
  - rewrite (apply_growth_eq t phys [] bins F Hc) by lia. simpl.
    destruct (grow_state_ok t phys [] bins F Hst) as (u' & Hu & Hst' & Hs'); [lia|].
    exists u'. do 2 (split; [done|]). split; [done|]. split; [done|]. split; [done|].
    change (block_capacity (grown_state t)) with
      (block_capacity t + Z.min (block_capacity t) (UINT32_MAX - block_capacity t)). lia.
  - split; [done|]. split; [lia|]. right. split; [lia|done].
Qed.

(** ** Allocation requests *)

(** The request in whole alignment units. *)
Definition request (t : tlsf_t) (length : Z) : Z := round_up length (alignment (config t)).

(** What a request does to the allocator. *)
Inductive request_outcome (t : tlsf_t) (phys unused : list Z) (bins : Z * Z → list Z) (F : gset Z)
    (length : Z) (host_allocator : iree_allocator_t)
    : status_or (option iree_hal_memory_tlsf_allocation_t) → tlsf_t → Prop :=
  | request_empty :
      length = 0 →
      request_outcome t phys unused bins F length host_allocator (Err IREE_STATUS_INVALID_ARGUMENT) t
  | request_overflow :
      2 ^ 64 <= length + (alignment (config t) - 1) →
      request_outcome t phys unused bins F length host_allocator (Err IREE_STATUS_OUT_OF_RANGE) t
  | request_exhausted :
      (∀ j, j ∈ phys → seg_free (segment_at t j) = true →
         request t length <= seg_length (segment_at t j) →
         bin_of t j = iree_hal_memory_tlsf_mapping_insert (request t length) ∧
         seg_length (segment_at t (hd NONE (bins (bin_of t j)))) < request t length) →
      request_outcome t phys unused bins F length host_allocator (Ok None) t
  | request_no_node i code :
      unused = [] → i ∈ phys → seg_free (segment_at t i) = true →
      request t length < seg_length (segment_at t i) →
      (block_capacity t = UINT32_MAX ∧ code = IREE_STATUS_RESOURCE_EXHAUSTED ∨
       iree_allocator_malloc_array host_allocator
         (Z.min (block_capacity t) (UINT32_MAX - block_capacity t)) (block_stride (config t)) = Err code) →
      request_outcome t phys unused bins F length host_allocator (Err code) t
  | request_granted l1 i l2 rs unused' bins' F' t' :
      phys = l1 ++ i :: l2 → seg_free (segment_at t i) = true →
      request t length <= seg_length (segment_at t i) →
      state_ok t' (l1 ++ i :: rs ++ l2) unused' bins' F' →
      segs t' (l1 ++ i :: rs ++ l2) = allocated (request t length) (segs t l1) (segment_at t i) (segs t l2) →
      config t' = config t → segment_at t' i = taken (request t length) (segment_at t i) →
      request_outcome t phys unused bins F length host_allocator
        (Ok (Some (mk_allocation (seg_offset (segment_at t i)) (request t length) i
           (iree_hal_memory_tlsf_block_death_frontier t' i) (iree_hal_memory_tlsf_block_flags t' i)))) t'.

Lemma aligned_request t length :
  config_ok (config t) → 0 < length → in_width 64 length →
  length + (alignment (config t) - 1) < 2 ^ 64 →
  let a := iree_device_align length (alignment (config t)) in
  (if a <? alignment (config t) then alignment (config t) else a) = request t length ∧
  0 < request t length < 2 ^ 64 ∧ (alignment (config t) | request t length) ∧ length <= request t length.
Proof.
  intros Hc Hpos Hw Hlt. destruct (co_alignment _ Hc) as (k & Hk & Ek). unfold request.
  rewrite Ek in *. pose proof (pow2_pos k ltac:(lia)).
  destruct (round_up_spec length (2 ^ k)) as [Hd Hb]; [lia|].
  change (iree_device_align length (2 ^ k)) with (iree_host_align length (2 ^ k)).
  rewrite iree_host_align_round_up by (done || lia). simpl.
  assert (2 ^ k <= round_up length (2 ^ k)) by (apply Z.divide_pos_le; [lia|done]).
  rewrite (proj2 (Z.ltb_ge _ _)) by lia. split; [done|]. split; [lia|]. split; [done|lia].
Qed.

Theorem try_allocate_ok t phys unused bins F length host_allocator :
  state_ok t phys unused bins F → in_width 64 length →
  let '(result, t') := iree_hal_memory_tlsf_try_allocate t length host_allocator in
  request_outcome t phys unused bins F length host_allocator result t'.
Proof.
  intros Hst Hw. pose proof (so_core _ _ _ _ _ Hst) as Hc. pose proof (core_config _ _ _ _ _ _ Hc) as Hcfg.
  pose proof (so_free _ _ _ _ _ Hst) as Hfree. unfold iree_hal_memory_tlsf_try_allocate.
  destruct (Z.eqb_spec length 0) as [E0|NE0]; [by apply request_empty|].
  destruct (co_alignment _ Hcfg) as (k & Hk & Ek). pose proof (pow64_lt k ltac:(lia)) as Hk64.
  rewrite (usub_small 64 (alignment (config t)) 1) by (unfold in_width; rewrite Ek; lia).
  unfold IREE_DEVICE_SIZE_MAX. rewrite usub_small by (unfold umax, in_width; rewrite ?Ek; lia).
  destruct (Z.ltb_spec (umax 64 - (alignment (config t) - 1)) length) as [Hov|Hfit].
  { apply request_overflow. unfold umax in Hov. lia. }
  destruct (aligned_request t length Hcfg ltac:(unfold in_width in Hw; lia) Hw ltac:(unfold umax in Hfit; lia))
    as (-> & Hreq & Hal & Hle).
  set (a := request t length) in *. set (i := iree_hal_memory_tlsf_find_suitable_block t a).
  destruct (find_suitable_spec t bins F (core_storage _ _ _ _ _ _ Hc) (core_lists _ _ _ _ _ _ Hc) a Hreq)
    as [Hfound Hnone]. fold i in Hfound, Hnone.
  destruct (Z.eqb_spec i NONE) as [Ei|NEi].
  { apply request_exhausted. intros j Hj Hf Hl. apply Hnone; [done|by apply Hfree|done]. }
  destruct (Hfound NEi) as [HiF Hlen]. pose proof (core_listed _ _ _ _ _ _ Hc i HiF) as Hi.
  pose proof (proj1 (Hfree i Hi) HiF) as Hfr. clearbody i.
  pose proof (try_grow_ok t phys unused bins F i a host_allocator Hst Hi ltac:(split; [lia|done]) Hal) as Hg.
  fold (try_grow t i a host_allocator). destruct (try_grow t i a host_allocator) as [t1|code] eqn:Eg; cycle 1.
  { destruct Hg as (Hu & Hlt & Hwhy). apply (request_no_node _ _ _ _ _ _ _ i); try done. tauto. }
  destruct Hg as (u1 & Hst1 & Ec1 & Hu1 & Hs1 & _). clear Eg.
  apply list_elem_of_split in Hi as (l1 & l2 & ->).
  assert (segment_at t1 i = segment_at t i) as Ei1 by (apply Hs1; set_solver).
  pose proof (allocate_block_ok t1 l1 i l2 u1 bins F a Hst1) as Hab. rewrite Ei1, Ec1 in Hab.
  specialize (Hab Hfr ltac:(split; [lia|done]) Hal Hu1).
  destruct (iree_hal_memory_tlsf_allocate_block t1 i a) as [al t2].
  destruct Hab as ((rs & u2 & b2 & F2 & Hst2 & Eseg) & Ec2 & _ & Ei2 & ->).
  rewrite !(segs_ext t t1) in Eseg by (intros j Hj; apply Hs1; set_solver).
  by eapply (request_granted _ _ _ _ _ _ _ l1 i l2 rs u2 b2 F2).
Qed.
