(* ===== verification/TlsfInit.v ===== *)
(** * Initialization of the TLSF allocator

    [iree_hal_memory_tlsf_initialize] accepts exactly the documented options and
    establishes the invariant with one free block over the rounded range. *)

From S2P Require Import Prelude BaseMath Allocator Frontier Tlsf TlsfMapping TlsfStore TlsfLists.
From S2P Require Import TlsfInvariant TlsfOps TlsfRefine TlsfGrowth.
From stdpp Require Import base numbers list list_numbers gmap sets.

Local Open Scope Z_scope.
Local Open Scope machine_scope.

#[local] Strategy 1000 [get_block update_block].

Abbreviation options_t := iree_hal_memory_tlsf_options_t.

(** ** Options *)

(** Options at their machine widths, with a valid initial frontier. *)
Record options_typed (o : options_t) : Prop := {
  ot_range : in_width 64 (opt_range_length o);
  ot_alignment : in_width 64 (opt_alignment o);
  ot_blocks : in_width 64 (opt_initial_block_capacity o);
  ot_capacity : in_width 8 (opt_frontier_capacity o);
  ot_frontier f : opt_initial_frontier o = Some f → frontier_ok f;
}.

(** Defaults applied. *)
Definition effective_alignment (o : options_t) : Z :=
  if opt_alignment o =? 0 then IREE_HAL_MEMORY_TLSF_MIN_ALIGNMENT else opt_alignment o.
Definition effective_capacity (o : options_t) : Z :=
  if opt_frontier_capacity o =? 0 then IREE_HAL_MEMORY_TLSF_DEFAULT_FRONTIER_CAPACITY
  else opt_frontier_capacity o.
Definition effective_range (o : options_t) : Z :=
  opt_range_length o - opt_range_length o mod effective_alignment o.

(** The documented requirements. *)
Definition options_accepted (o : options_t) : Prop :=
  is_pow2 (effective_alignment o) ∧ 16 <= effective_alignment o <= opt_range_length o ∧
  opt_initial_block_capacity o <= UINT32_MAX ∧
  (∀ f, opt_initial_frontier o = Some f → entry_count f <= effective_capacity o).

(** Checked options. *)
Record options_ok (o : options_t) : Prop := {
  oo_alignment : ∃ k, 4 <= k < 64 ∧ opt_alignment o = 2 ^ k;
  oo_range : 0 < opt_range_length o < 2 ^ 64;
  oo_multiple : (opt_alignment o | opt_range_length o);
  oo_capacity : 0 < opt_frontier_capacity o < 2 ^ 8;
  oo_frontier f : opt_initial_frontier o = Some f →
    frontier_ok f ∧ entry_count f <= opt_frontier_capacity o;
}.

Lemma pow2_range v : is_pow2 v → 16 <= v → in_width 64 v → ∃ k, 4 <= k < 64 ∧ v = 2 ^ k.
Proof.
  intros (k & Hk & ->) Hge [_ Hlt]. exists k. split; [|done].
  split; [apply (Z.pow_le_mono_r_iff 2); lia|apply (Z.pow_lt_mono_r_iff 2); lia].
Qed.

(** The checks accept the documented requirements, apart from the capacity of the block
    storage, which is checked later. *)
Lemma validate_options_spec o :
  options_typed o →
  match tlsf_validate_options o with
  | Ok o' => options_ok o' ∧ opt_range_length o' = effective_range o ∧
      opt_alignment o' = effective_alignment o ∧ opt_frontier_capacity o' = effective_capacity o ∧
      opt_initial_frontier o' = opt_initial_frontier o ∧
      opt_initial_block_capacity o' = opt_initial_block_capacity o ∧
      (opt_initial_block_capacity o <= UINT32_MAX → options_accepted o)
  | Err _ => ¬ options_accepted o
  end.
Proof.
  intros [Hr Ha Hb Hf Hfr]. unfold tlsf_validate_options.
  fold (effective_alignment o) (effective_capacity o). unfold options_accepted.
  assert (in_width 64 (effective_alignment o)) as Haw
    by (unfold effective_alignment; case_match; [by vm_compute|done]).
  assert (0 < effective_capacity o < 2 ^ 8) as Hcap.
  { unfold effective_capacity. destruct (Z.eqb_spec (opt_frontier_capacity o) 0); [done|].
    unfold in_width in Hf. lia. }
  set (al := effective_alignment o) in *. unfold IREE_HAL_MEMORY_TLSF_MIN_ALIGNMENT.
  destruct (Z.eqb_spec (opt_range_length o) 0) as [E|NE]; [intros (_ & ? & _); lia|].
  destruct (Z.ltb_spec al 16) as [Hlt|Hge]; [intros (_ & ? & _); lia|].
  pose proof (is_power_of_two_iff al Haw) as Hp. change (iree_host_size_is_power_of_two al) with
    (iree_device_size_is_power_of_two al) in Hp.
  destruct (iree_device_size_is_power_of_two al); cbn [negb]; [|by intros (Hp' & _); apply Hp in Hp'].
  destruct (pow2_range al (proj1 Hp eq_refl) Hge Haw) as (k & Hk & Ek).
  destruct (Z.ltb_spec (opt_range_length o) al) as [Hs|Hs]; [intros (_ & ? & _); lia|].
  assert (Z.land (opt_range_length o) (unot 64 (al -64 1)) = effective_range o) as Erange.
  { unfold effective_range. fold al. rewrite Ek, align_mask, land_low_mask by (done || lia). done. }
  rewrite Erange. set (wide := match opt_initial_frontier o with Some f => _ | None => false end).
  destruct wide eqn:Ew.
  { intros (_ & _ & _ & Hfit). unfold wide in Ew. destruct (opt_initial_frontier o) as [f|]; [|done].
    apply Z.ltb_lt in Ew. specialize (Hfit f eq_refl). lia. }
  assert (∀ f, opt_initial_frontier o = Some f → entry_count f <= effective_capacity o) as Hfit.
  { intros f E. unfold wide in Ew. rewrite E in Ew. by apply Z.ltb_ge in Ew. }
  pose proof (Z.mod_pos_bound (opt_range_length o) al ltac:(lia)) as Hm.
  pose proof (Z.mod_le (opt_range_length o) al ltac:(unfold in_width in Hr; lia) ltac:(lia)) as Hml.
  assert (effective_range o = opt_range_length o - opt_range_length o mod al) as Er by done.
  assert (effective_range o = al * (opt_range_length o / al)) as Edm.
  { rewrite Er. pose proof (Z.div_mod (opt_range_length o) al). lia. }
  assert (0 < effective_range o < 2 ^ 64) as Hrng.
  { split; [rewrite Edm; apply Z.mul_pos_pos; [lia|apply Z.div_str_pos; lia]|].
    rewrite Er. unfold in_width in Hr. lia. }
  split; [|split_and!; try done; intros ?; split_and!; try done; by apply Hp].
  split; simpl; [by exists k|done|rewrite Edm; apply Z.divide_factor_l|done|by auto].
Qed.

(** The node layout never fails: 48 bytes of fields and frontier header, 16 per entry. *)
Lemma block_layout_table :
  forallb (λ c, match tlsf_block_layout c with
                | Ok (o, s) => (o =? 40) && (s =? 48 + 16 * c)
                | Err _ => false end) (seqZ 1 255) = true.
Proof. by vm_compute. Qed.

Lemma block_layout_ok c : 0 < c < 2 ^ 8 → tlsf_block_layout c = Ok (40, 48 + 16 * c).
Proof.
  intros Hc. pose proof block_layout_table as H. rewrite forallb_forall in H.
  specialize (H c). destruct (tlsf_block_layout c) as [[o s]|] eqn:E; [|exfalso].
  - assert ((o =? 40) && (s =? 48 + 16 * c) = true) as [? ?]%andb_true_iff; [|f_equal; f_equal; lia].
    apply H, list_elem_of_In, elem_of_seqZ. lia.
  - assert (false = true); [|done]. apply H, list_elem_of_In, elem_of_seqZ. lia.
Qed.

(** The first segment: a power of two up to [2 ^ 31], or every handle. *)
Lemma initial_capacity_spec n :
  in_width 64 n →
  match tlsf_initial_capacity n with
  | Ok c => n <= UINT32_MAX ∧ n <= c ∧ ((∃ k, 0 <= k <= 31 ∧ c = 2 ^ k) ∨ c = UINT32_MAX)
  | Err _ => UINT32_MAX < n
  end.
Proof.
  intros [Hn _]. unfold tlsf_initial_capacity.
  set (m := if n =? 0 then _ else n).
  assert (0 < m ∧ (n <= m) ∧ (UINT32_MAX < m → m = n)) as (Hm & Hle & Hmn).
  { unfold m, IREE_HAL_MEMORY_TLSF_DEFAULT_INITIAL_BLOCK_CAPACITY, UINT32_MAX.
    destruct (Z.eqb_spec n 0); lia. }
  clearbody m. destruct (Z.ltb_spec UINT32_MAX m) as [Hbig|Hfit]; [lia|]. unfold UINT32_MAX in *.
  destruct (Z.ltb_spec (2 ^ 31) m) as [Hhalf|Hsmall]; [split; [lia|]; split; [lia|by right]|].
  destruct (Z.ltb_spec 1 m) as [Hgt|Hone]; cycle 1.
  { split; [lia|]. split; [lia|]. left. exists 0. lia. }
  rewrite usub_small by (unfold in_width; lia).
  replace (32 - iree_math_count_leading_zeros_u32 (m - 1)) with (Z.log2_up m).
  2: { rewrite Z.log2_up_eqn by lia. rewrite <- Z.sub_1_r, <- clz32_log2 by lia. lia. }
  pose proof (Z.log2_up_spec m Hgt) as [_ Hup]. pose proof (Z.log2_up_nonneg m).
  assert (Z.log2_up m <= 31) as H31 by (apply Z.log2_up_le_pow2; lia).
  assert (2 ^ Z.log2_up m <= 2 ^ 31) by (apply Z.pow_le_mono_r; lia).
  unfold ushl. rewrite Z.shiftl_1_l, wrap_small by (unfold in_width; lia).
  split; [lia|]. split; [lia|]. left. by exists (Z.log2_up m).
Qed.

(** ** The fresh instance *)

Section fresh.
Context (o : options_t) (fo bs cap : Z).
Context (Ho : options_ok o).
Context (Hcap : (∃ k, 0 <= k <= 31 ∧ cap = 2 ^ k) ∨ cap = UINT32_MAX).

Let t0 := tlsf_fresh o fo bs cap.
Let fc := opt_frontier_capacity o.

Local Lemma fresh_capacity : 0 < cap < 2 ^ 32.
Proof using All.
  destruct Hcap as [(k & Hk & ->)| ->]; [|unfold UINT32_MAX; lia].
  pose proof (pow2_pos k ltac:(lia)). assert (2 ^ k <= 2 ^ 31) by (apply Z.pow_le_mono_r; lia). lia.
Qed.

Local Lemma fresh_storage : storage_ok t0.
Proof using All.
  pose proof fresh_capacity as Hc. destruct Hcap as [(k & Hk & E)|E].
  - apply (storage_growing _ k); [done| |done|simpl; lia| |].
    + simpl. rewrite clz32_log2, E, Z.log2_pow2 by lia. rewrite wrap_small; [done|unfold in_width; lia].
    + intros j seg Hj. destruct j as [|j]; [|done]. simpl in Hj. injection Hj as <-.
      rewrite length_replicate. change (segment_length k 0) with (2 ^ k). lia.
    + change (cap = Z.min (2 ^ (k + 1 - 1)) UINT32_MAX). replace (k + 1 - 1) with k by lia. rewrite E.
      assert (2 ^ k <= 2 ^ 31) by (apply Z.pow_le_mono_r; lia). unfold UINT32_MAX. lia.
  - apply (storage_full _ (replicate (Z.to_nat cap) (zero_block fc))); try done.
    rewrite length_replicate. lia.
Qed.

Local Lemma fresh_node i : 0 <= i < cap → get_block t0 i = zero_block fc.
Proof using All.
  intros Hi. assert (valid t0 i) as Hv by done.
  destruct (block_at_slot t0 i fresh_storage Hv) as (H1 & H2 & seg & Hs & Hl).
  unfold get_block. rewrite (list_lookup_total_correct _ _ _ Hs). simpl in Hs.
  destruct (Z.to_nat (iree_hal_memory_tlsf_block_at t0 i).1) as [|n]; [|done]. injection Hs as <-. rewrite length_replicate in Hl.
  by apply list_lookup_total_correct, lookup_replicate_2.
Qed.

(** The unused list after [n] iterations. *)
Local Lemma link_nodes n :
  Z.of_nat n < cap →
  let t := foldl (λ t i, set_unused_node_head i
                     (update_block i (set_next_free (unused_node_head t)) t))
             t0 (seqZ 1 (Z.of_nat n)) in
  (∃ segments, t = set_unused_node_head (countdown_head NONE 1 n) (set_segments segments t0)) ∧
  storage_ok t ∧
  (∀ j, 0 <= j < cap → get_block t j =
     if decide (1 <= j <= Z.of_nat n)
     then set_next_free (countdown_head NONE 1 (Z.to_nat (j - 1))) (zero_block fc) else zero_block fc).
Proof using All.
  induction n as [|n IH]; intros Hn.
  { split; [by exists (block_segments t0)|]. split; [exact fresh_storage|].
    intros j Hj. rewrite decide_False by lia. by apply fresh_node. }
  destruct IH as (Hshape & Hs & Hg); [lia|]. rewrite seqZ_S, foldl_app.
  set (t := foldl _ t0 (seqZ 1 (Z.of_nat n))) in *. clearbody t. simpl foldl.
  destruct Hshape as [segments Et].
  assert (unused_node_head t = countdown_head NONE 1 n) as Eh by by rewrite Et.
  assert (block_capacity t = cap) as Ecap by by rewrite Et.
  assert (∀ j, 0 <= j < cap → valid t j) as Hv by (intros j; unfold valid; by rewrite Ecap).
  split; [|split].
  - rewrite Et. eexists. reflexivity.
  - by eapply storage_same; [..|apply storage_update, Hs].
  - intros j Hj. rewrite (get_block_same (update_block (1 + Z.of_nat n) (set_next_free (unused_node_head t)) t)) by done.
    rewrite get_update by (auto; apply Hv; lia). rewrite Eh. case_decide as E.
    + subst j. rewrite Hg by lia. rewrite decide_False, decide_True by lia.
      do 2 f_equal. lia.
    + rewrite Hg by lia. by apply decide_ext; lia.
Qed.

Local Lemma fresh_config : config_ok (config t0).
Proof using All. destruct Ho. split; try done. Qed.

(** The block over the whole range. *)
Let b0 := tlsf_initial_block (opt_range_length o) (opt_initial_frontier o) (zero_block fc).

Definition initial_deps : list iree_async_frontier_entry_t :=
  match opt_initial_frontier o with Some f => live f | None => [] end.

Local Lemma initial_block_ok :
  block_ok (config t0) b0 ∧
  segment_of b0 = Segment 0 (opt_range_length o) true false initial_deps.
Proof using All.
  destruct Ho as [_ Hr Hm Hfc Hf].
  assert (frontier_in (config t0) (blk_frontier b0) ∧ live (blk_frontier b0) = initial_deps) as [Hin Hl].
  { unfold b0, initial_deps. simpl. destruct (opt_initial_frontier o) as [f|].
    - destruct (Hf f eq_refl) as [Hfok Hle].
      destruct (copy_frontier_ok (config t0) f (zero_frontier fc)) as (H1 & H2 & _); [done|done| |done].
      simpl. rewrite length_replicate. fold fc in Hfc. unfold fc in *. lia.
    - split; [|done]. split; [|simpl; rewrite length_replicate; fold fc in Hfc; unfold fc in *; lia].
      split; [done|]. split; [simpl; lia|]. split; constructor. }
  split; [|unfold segment_of; by rewrite Hl]. split; [simpl; lia|]. split; [done|]. split; [done|].
  split; done.
Qed.

Let t1 := link_unused_nodes cap t0.
Let t2 := update_block 0 (tlsf_initial_block (opt_range_length o) (opt_initial_frontier o)) t1.

Local Lemma initial_nodes :
  (∃ segments, t2 = set_unused_node_head (countdown_head NONE 1 (Z.to_nat (cap - 1))) (set_segments segments t0)) ∧
  storage_ok t2 ∧ get_block t2 0 = b0 ∧
  (∀ k, (k < Z.to_nat (cap - 1))%nat →
     get_block t2 (1 + Z.of_nat k) = set_next_free (countdown_head NONE 1 k) (zero_block fc)).
Proof using All.
  pose proof fresh_capacity as Hc. destruct (link_nodes (Z.to_nat (cap - 1))) as (Hshape & Hs & Hg); [lia|].
  rewrite Z2Nat.id in Hshape, Hs, Hg by lia. unfold t2, t1, link_unused_nodes.
  set (t := foldl _ t0 _) in *. clearbody t. destruct Hshape as [segments Et].
  assert (block_capacity t = cap) as Ecap by by rewrite Et.
  assert (∀ j, 0 <= j < cap → valid t j) as Hv by (intros j; unfold valid; by rewrite Ecap).
  split; [rewrite Et; eexists; reflexivity|]. split; [by apply storage_update|]. split.
  - rewrite get_update_eq by (auto; apply Hv; lia). rewrite Hg by lia. by rewrite decide_False by lia.
  - intros k Hk. rewrite get_update_ne by (auto; try apply Hv; lia). rewrite Hg by lia.
    rewrite decide_True by lia. do 2 f_equal. lia.
Qed.

Local Lemma empty_lists t segments h :
  t = set_unused_node_head h (set_segments segments t0) → lists_ok t (λ _, []) ∅.
Proof using All.
  intros Et.
  assert (∀ fl, 0 <= fl < 64 → sl_bitmap t fl = 0) as Hsl.
  { intros fl Hfl. rewrite Et. unfold sl_bitmap. apply list_lookup_total_correct.
    cbn [sl_bitmaps set_unused_node_head set_segments tlsf_fresh t0]. apply lookup_replicate_2.
    unfold IREE_HAL_MEMORY_TLSF_FL_COUNT. lia. }
  split; try done.
  - rewrite Et. split; [done| |done]. intros j row Hrow.
    cbn [free_lists set_unused_node_head set_segments tlsf_fresh t0] in Hrow.
    by apply lookup_replicate_1 in Hrow as [-> _].
  - intros [fl sl] [Hfl Hsl']. rewrite Et. unfold free_list_head. cbn [fst snd] in *.
    apply list_lookup_total_correct.
    rewrite (list_lookup_total_correct _ _ (replicate 32 NONE)); [apply lookup_replicate_2; lia|].
    apply (lookup_replicate_2 64). lia.
  - intros; constructor.
  - set_solver.
  - intros fl sl [Hfl _]. rewrite Hsl by done. rewrite Z.bits_0. symmetry. apply bool_decide_false. tauto.
  - intros fl Hfl. by rewrite Hsl.
  - intros fl Hfl. rewrite Hsl, Et by done. rewrite bool_decide_false by tauto. apply Z.bits_0.
  - by rewrite Et.
  - by rewrite Et.
Qed.

Local Lemma initial_core :
  core t2 [0] (countdown 1 (Z.to_nat (cap - 1))) [] (λ _, []) ∅.
Proof using All.
  destruct initial_nodes as ((segments & Et) & Hs & E0 & Ek). destruct initial_block_ok as [Hb _].
  pose proof fresh_capacity as Hc. pose proof fresh_config as Hcfg.
  pose proof (empty_lists _ _ _ Et) as Hls.
  assert (config t2 = config t0) as Ecfg by by rewrite Et.
  assert (∀ j, valid t2 j ↔ 0 <= j < cap) as Hv by (intros j; unfold valid; by rewrite Et).
  assert (unused_node_head t2 = countdown_head NONE 1 (Z.to_nat (cap - 1))) as Eun by by rewrite Et.
  clearbody t2. split; rewrite ?Ecfg, ?app_nil_r; try done.
  - split; try (intros i ->%list_elem_of_singleton); simpl; rewrite ?E0; try done.
  - apply NoDup_cons. split; [|apply countdown_nodup]. intros Hin%elem_of_countdown. lia.
  - intros i. rewrite Hv, elem_of_app, list_elem_of_singleton, elem_of_countdown. lia.
  - rewrite Eun, <- (app_nil_r (countdown _ _)). apply chain_countdown; [|done]. intros k Hk. by rewrite Ek.
  - intros i Hi%Hv. destruct (decide (i = 0)) as [->|Hne].
    + rewrite E0. by destruct Hb as (_ & _ & _ & [_ ?] & _).
    + replace i with (1 + Z.of_nat (Z.to_nat (i - 1))) by lia. rewrite Ek by lia.
      cbn [blk_frontier set_next_free zero_block zero_frontier entries]. rewrite length_replicate.
      destruct Ho as [_ _ _ Hfc _]. change (frontier_capacity (config t0)) with fc. fold fc in Hfc. lia.
Qed.

Lemma initial_state_ok :
  let t' := iree_hal_memory_tlsf_insert_free_block 0 t2 in
  (∃ unused bins, state_ok t' [0] unused bins {[0]}) ∧ config t' = config t0 ∧
  block_capacity t' = cap ∧
  segs t' [0] = [Segment 0 (opt_range_length o) true false initial_deps].
Proof using All.
  pose proof initial_core as Hc. destruct initial_nodes as ((segments & Et) & _ & E0 & _).
  destruct initial_block_ok as [_ Eseg].
  assert (config t2 = config t0 ∧ block_capacity t2 = cap ∧ bytes_allocated t2 = 0 ∧
    bytes_free t2 = opt_range_length o ∧ allocation_count t2 = 0) as (Ec & Eca & Eal & Ebf & Ecnt) by by rewrite Et.
  clear Et. clearbody t2.
  destruct (core_insert _ _ _ _ _ _ 0 Hc ltac:(set_solver) ltac:(set_solver)) as (bins & Hc' & Hsc & Hg).
  cbv zeta. set (t' := iree_hal_memory_tlsf_insert_free_block 0 t2) in *. clearbody t'.
  assert (segment_at t' 0 = Segment 0 (opt_range_length o) true false initial_deps) as Es.
  { rewrite <- Eseg, <- E0. apply segment_geom, Hg. apply (core_valid _ _ _ _ _ _ _ Hc). set_solver. }
  assert (segs t' [0] = [Segment 0 (opt_range_length o) true false initial_deps]) as Eseg'
    by (unfold segs; simpl; by rewrite Es).
  destruct Hsc as [Sc _ Sca _ Sal Sfr Scn _]. split; [|by rewrite Sc, Sca].
  rewrite (right_id_L ∅ (∪)) in Hc'. eexists _, bins. split; [exact Hc'|..]; rewrite ?Eseg'; try done.
  - intros j ->%list_elem_of_singleton. rewrite Es. set_solver.
  - by rewrite Sal, Eal.
  - rewrite Sfr, Ebf. unfold free_bytes, seg_sum. simpl. lia.
  - by rewrite Scn, Ecnt.
Qed.
End fresh.

(** ** Initialization *)

Theorem initialize_ok o host_allocator :
  options_typed o →
  match iree_hal_memory_tlsf_initialize o host_allocator with
  | Ok t => options_accepted o ∧ (∃ unused bins, state_ok t [0] unused bins {[0]}) ∧
      alignment (config t) = effective_alignment o ∧ range_length (config t) = effective_range o ∧
      frontier_capacity (config t) = effective_capacity o ∧ frontier_overflow (config t) = None ∧
      block_stride (config t) = 48 + 16 * effective_capacity o ∧
      opt_initial_block_capacity o <= block_capacity t ∧
      segs t [0] = [Segment 0 (effective_range o) true false
        (match opt_initial_frontier o with Some f => live f | None => [] end)]
  | Err code => ¬ options_accepted o ∨
      ∃ n, tlsf_initial_capacity (opt_initial_block_capacity o) = Ok n ∧
        iree_allocator_malloc_array host_allocator n (48 + 16 * effective_capacity o) = Err code
  end.
Proof.
  intros Ho. pose proof (validate_options_spec o Ho) as Hv. unfold iree_hal_memory_tlsf_initialize.
  destruct (tlsf_validate_options o) as [o'|code]; cbn [mbind status_or_bind]; [|by left].
  destruct Hv as (Hok & Er & Ea & Ef & Efr & Eb & Hacc).
  rewrite (block_layout_ok (opt_frontier_capacity o')) by apply Hok. cbn [mbind status_or_bind].
  rewrite Eb. pose proof (initial_capacity_spec (opt_initial_block_capacity o) (ot_blocks _ Ho)) as Hcap.
  destruct (tlsf_initial_capacity (opt_initial_block_capacity o)) as [cap|code] eqn:Ecap; cbn [mbind status_or_bind]; cycle 1.
  { left. unfold options_accepted. intros (_ & _ & ? & _). lia. }
  destruct Hcap as (Hn & Hle & Hcap). rewrite Ef.
  destruct (iree_allocator_malloc_array _ _ _) as [storage|code] eqn:Em; cbn [mbind status_or_bind]; [|right; eauto].
  destruct (initial_state_ok o' 40 (48 + 16 * effective_capacity o) cap Hok Hcap) as (Hst & Ec & Eca & Eseg).
  set (t' := iree_hal_memory_tlsf_insert_free_block 0 _) in *. clearbody t'.
  split; [by apply Hacc|]. split; [done|]. rewrite Ec, Eca. split; [done|]. split; [done|]. split; [done|].
  split; [done|]. split; [done|]. split; [done|]. rewrite Eseg, Er. unfold initial_deps. by rewrite Efr.
Qed.
