(* ===== verification/TlsfSystem.v ===== *)
(** * Executions of the TLSF allocator

    An execution starts with [iree_hal_memory_tlsf_initialize] and calls the operations
    of [tlsf.h] in any order, releasing only handles it holds.  The invariant holds in
    every reachable state, for every host allocator and every overflow capture that
    leaves valid frontiers. *)

From S2P Require Import Prelude BaseMath Allocator Frontier Tlsf TlsfMapping TlsfStore TlsfLists.
From S2P Require Import TlsfInvariant TlsfOps TlsfRefine TlsfGrowth TlsfInit.
From stdpp Require Import base numbers list list_numbers gmap sets.

Local Open Scope Z_scope.
Local Open Scope machine_scope.

#[local] Strategy 1000 [get_block update_block].

(** The allocator and the handles its clients hold. *)
Record system := mk_system { sys_tlsf : tlsf_t; outstanding : gset Z }.

(** The owner installs an overflow capture after initialization. *)
Definition install_overflow (handler : option overflow_handler) (t : tlsf_t) : tlsf_t :=
  let c := config t in
  mk_tlsf (mk_config (range_length c) (alignment c) (fl_min c) (frontier_capacity c) handler
             (block_stride c) (frontier_offset c) (initial_block_capacity c) (initial_block_shift c))
    (frontier_overflow_user_data t) (fl_bitmap t) (sl_bitmaps t) (free_lists t) (block_segments t)
    (block_capacity t) (unused_node_head t) (bytes_allocated t) (bytes_free t)
    (allocation_count t) (free_block_count t) (tainted_coalesce_count t).

(** Storage prepared for a capacity that may be stale by now. *)
Definition prepared (t : tlsf_t) (growth : iree_hal_memory_tlsf_growth_t) : Prop :=
  ∃ first host_allocator,
    iree_hal_memory_tlsf_prepare_growth (frontier_capacity (config t))
      (mk_growth [] (block_stride (config t)) first
         (iree_min first (usub 32 UINT32_MAX first))) host_allocator = Ok growth.

(** A frontier that may replace the history of the whole range. *)
Definition fits (t : tlsf_t) (f : option iree_async_frontier_t) : Prop :=
  ∀ d, f = Some d → frontier_ok d ∧ entry_count d <= frontier_capacity (config t).

Definition death_ok (f : option iree_async_frontier_t) : Prop := ∀ d, f = Some d → frontier_ok d.

Inductive sys_init : system → Prop :=
  | sys_initialized o host_allocator t handler :
      options_typed o → iree_hal_memory_tlsf_initialize o host_allocator = Ok t →
      handler_ok (config (install_overflow handler t)) →
      sys_init (mk_system (install_overflow handler t) ∅).

Inductive sys_step : system → system → Prop :=
  | step_granted t O length host_allocator a t' :
      in_width 64 length →
      iree_hal_memory_tlsf_try_allocate t length host_allocator = (Ok (Some a), t') →
      sys_step (mk_system t O) (mk_system t' ({[alloc_block_index a]} ∪ O))
  | step_exhausted t O length host_allocator t' :
      in_width 64 length →
      iree_hal_memory_tlsf_try_allocate t length host_allocator = (Ok None, t') →
      sys_step (mk_system t O) (mk_system t' O)
  | step_failed t O length host_allocator code t' :
      in_width 64 length →
      iree_hal_memory_tlsf_try_allocate t length host_allocator = (Err code, t') →
      sys_step (mk_system t O) (mk_system t' O)
  | step_free t O i death :
      i ∈ O → death_ok death →
      sys_step (mk_system t O) (mk_system (iree_hal_memory_tlsf_free t i death) (O ∖ {[i]}))
  | step_restore t O i :
      i ∈ O → sys_step (mk_system t O) (mk_system (iree_hal_memory_tlsf_restore t i) (O ∖ {[i]}))
  | step_grow t O growth :
      prepared t growth →
      sys_step (mk_system t O) (mk_system (iree_hal_memory_tlsf_apply_growth t growth).1.2 O)
  | step_merge_full t O f :
      iree_hal_memory_tlsf_query_full_free_block t ≠ None → death_ok f →
      sys_step (mk_system t O) (mk_system (iree_hal_memory_tlsf_merge_full_free_frontier t f) O)
  | step_reset t O f :
      iree_hal_memory_tlsf_query_full_free_block t ≠ None → fits t f →
      sys_step (mk_system t O) (mk_system (iree_hal_memory_tlsf_reset t f) O).

(** Reachable states. *)
Inductive reachable : system → Prop :=
  | reachable_init s : sys_init s → reachable s
  | reachable_step s s' : reachable s → sys_step s s' → reachable s'.

(** ** The invariant of executions *)

(** The held handles are the blocks in use. *)
Definition holds (t : tlsf_t) (phys : list Z) (O : gset Z) : Prop :=
  ∀ i, i ∈ O ↔ i ∈ phys ∧ seg_free (segment_at t i) = false.

Definition sys_ok (s : system) : Prop :=
  ∃ phys unused bins F, state_ok (sys_tlsf s) phys unused bins F ∧ holds (sys_tlsf s) phys (outstanding s).

(** ** Steps that keep the geometry *)

Definition same_geometry (s s' : segment) : Prop :=
  seg_offset s' = seg_offset s ∧ seg_length s' = seg_length s ∧ seg_free s' = seg_free s.

Lemma geometry_totals t t' l :
  (∀ j, j ∈ l → same_geometry (segment_at t j) (segment_at t' j)) →
  allocated_bytes (segs t' l) = allocated_bytes (segs t l) ∧ free_bytes (segs t' l) = free_bytes (segs t l) ∧
  allocated_count (segs t' l) = allocated_count (segs t l) ∧
  (coalesced (segs t l) → coalesced (segs t' l)).
Proof.
  induction l as [|i l IH]; intros H; [done|].
  destruct IH as (E1 & E2 & E3 & Hco); [intros j Hj; apply H; by right|].
  destruct (H i ltac:(by left)) as (_ & El & Ef).
  change (segs t' (i :: l)) with (segment_at t' i :: segs t' l).
  change (segs t (i :: l)) with (segment_at t i :: segs t l).
  unfold allocated_bytes, free_bytes, allocated_count in *. rewrite !seg_sum_cons, El, Ef, E1, E2, E3.
  split_and!; [done..|]. destruct l as [|j l]; [done|].
  destruct (H j ltac:(right; by left)) as (_ & _ & Ej).
  change (segs t (j :: l)) with (segment_at t j :: segs t l) in *.
  change (segs t' (j :: l)) with (segment_at t' j :: segs t' l) in *.
  intros [Hn Hr]. split; [by rewrite Ef, Ej|auto].
Qed.

Lemma geometry_state_ok t t' phys unused bins F :
  state_ok t phys unused bins F → core t' phys unused [] bins F → same_accounts t t' →
  (∀ j, j ∈ phys → same_geometry (segment_at t j) (segment_at t' j)) →
  state_ok t' phys unused bins F ∧ ∀ O, holds t phys O → holds t' phys O.
Proof.
  intros [_ Hfree Hhead Hco Hal Hbf Hcnt] Hc [_ _ Eal Ebf Ecnt] Hg.
  destruct (geometry_totals t t' phys Hg) as (E1 & E2 & E3 & Hco').
  split; [split; rewrite ?E1, ?E2, ?E3, ?Eal, ?Ebf, ?Ecnt; auto|].
  - intros j Hj. destruct (Hg j Hj) as (_ & _ & ->). by apply Hfree.
  - intros O HO j. rewrite (HO j). split; intros [Hj Hu]; (split; [done|]);
      destruct (Hg j Hj) as (_ & _ & E); congruence.
Qed.

(** Installing a capture. *)
Lemma install_ok t phys unused bins F handler :
  state_ok t phys unused bins F → handler_ok (config (install_overflow handler t)) →
  state_ok (install_overflow handler t) phys unused bins F.
Proof.
  intros [Hc Hfree Hhead Hco Hal Hbf Hcnt] Hh. set (t' := install_overflow handler t) in *.
  assert (∀ j, get_block t' j = get_block t j) as Hg by done.
  assert (∀ j, segment_at t' j = segment_at t j) as Hs by (intros j; unfold segment_at; by rewrite Hg).
  pose proof (segs_ext t t' phys ltac:(auto)) as Es.
  split; rewrite ?Es; try done.
  destruct Hc as [Hcfg Hst Hph Hnd Hhd Hun Hls Hlf He]. split; try done.
  - by destruct Hcfg.
  - by destruct Hst as [k|seg]; [apply (storage_growing _ k)|apply (storage_full _ seg)].
  - eapply phys_ok_geom; [intros j _; by rewrite Hg|]. by destruct Hph.
  - by apply (lists_ok_same t).
Qed.

(** ** The fully free range *)

Lemma all_free_single ss :
  (∀ s, s ∈ ss → seg_free s = true) → coalesced ss → (length ss <= 1)%nat.
Proof.
  destruct ss as [|a [|b ss]]; simpl; [lia..|]. intros Hf [Hn _]. exfalso. apply Hn.
  split; apply Hf; set_solver.
Qed.

Lemma count_zero_free ss : allocated_count ss = 0 → ∀ s, s ∈ ss → seg_free s = true.
Proof.
  unfold allocated_count. induction ss as [|a ss IH]; intros E s Hs; [by apply not_elem_of_nil in Hs|].
  rewrite seg_sum_cons in E.
  assert (0 <= seg_sum (λ s, if seg_free s then 0 else 1) ss)
    by (apply seg_sum_nonneg; intros x _; destruct (seg_free x); lia).
  destruct (seg_free a) eqn:Ea; [|lia]. apply elem_of_cons in Hs as [->|Hs]; [done|]. apply IH; [lia|done].
Qed.

(** Without blocks in use, block 0 is the whole range. *)
Lemma full_free t phys unused bins F :
  state_ok t phys unused bins F → allocation_count t = 0 →
  phys = [0] ∧ seg_free (segment_at t 0) = true ∧ F = {[0]} ∧
  seg_offset (segment_at t 0) = 0 ∧ seg_length (segment_at t 0) = range_length (config t).
Proof.
  intros [Hc Hfree Hhead Hco Hal Hbf Hcnt] E0. rewrite Hcnt in E0.
  pose proof (count_zero_free _ E0) as Hall. pose proof (all_free_single _ Hall Hco) as Hlen.
  unfold segs in Hlen. rewrite length_fmap in Hlen.
  destruct phys as [|i [|j l]]; simpl in Hlen, Hhead; [done| |lia]. injection Hhead as ->.
  assert (seg_free (segment_at t 0) = true) as Hf by (apply Hall; by left).
  split; [done|]. split; [done|]. split.
  - apply set_eq. intros j. rewrite elem_of_singleton. split.
    + intros Hj%(core_listed _ _ _ _ _ _ Hc). set_solver.
    + intros ->. by apply Hfree; [by left|].
  - pose proof (po_tiles _ _ _ (core_phys _ _ _ _ _ _ Hc)) as [Ho Ht]. simpl in Ht.
    unfold segment_at. simpl. lia.
Qed.

Lemma query_full_free t :
  iree_hal_memory_tlsf_query_full_free_block t ≠ None → allocation_count t = 0.
Proof.
  unfold iree_hal_memory_tlsf_query_full_free_block.
  destruct (Z.eqb_spec (allocation_count t) 0); [done|]. simpl. done.
Qed.

(** ** Preservation *)

Lemma merge_full_ok t phys unused bins F f :
  state_ok t phys unused bins F → death_ok f →
  let t' := iree_hal_memory_tlsf_merge_full_free_frontier t f in
  state_ok t' phys unused bins F ∧ ∀ O, holds t phys O → holds t' phys O.
Proof.
  intros Hst Hf t'. pose proof (so_core _ _ _ _ _ Hst) as Hc.
  assert (0 ∈ phys) as H0.
  { pose proof (so_head _ _ _ _ _ Hst) as Hh. destruct phys as [|i l]; [done|]. injection Hh as ->. by left. }
  destruct (merge_frontiers_ok _ _ _ _ _ _ 0 Hc H0 f Hf) as (m & Hc' & Ha & Hg & Hsh & Hfree & _ & _).
  apply (geometry_state_ok t); [done|done|done|]. intros j Hj. unfold segment_at.
  rewrite Hg by by apply (core_valid _ _ _ _ _ _ _ Hc). case_decide as E; [|by split_and!]. subst j.
  destruct Hsh as (E1 & E2 & _). by split_and!.
Qed.

Lemma reset_ok t phys unused bins F f :
  state_ok t phys unused bins F → allocation_count t = 0 → fits t f →
  let t' := iree_hal_memory_tlsf_reset t f in
  state_ok t' phys unused bins F ∧ (∀ O, holds t phys O → holds t' phys O) ∧
  segment_at t' 0 = Segment 0 (range_length (config t)) true false
    (match f with Some d => live d | None => [] end).
Proof.
  intros Hst E0 Hf t'. destruct (full_free _ _ _ _ _ Hst E0) as (-> & Hfree & -> & Eo & El).
  pose proof (so_core _ _ _ _ _ Hst) as Hc.
  destruct (metadata_block _ _ _ _ _ 0 Hc ltac:(by left)) as (Hv & Hs & Hb & Hfl & He).
  set (fr := match f with Some d => copy_frontier d (blk_frontier (get_block t 0))
             | None => iree_async_frontier_initialize (blk_frontier (get_block t 0)) 0 end).
  set (b' := set_frontier fr (set_flags (with_flag FLAG_FREE FLAG_LAST) (get_block t 0))).
  assert (frontier_in (config t) fr ∧ live fr = match f with Some d => live d | None => [] end) as [Hin Elive].
  { unfold fr. destruct f as [d|].
    - destruct (Hf d eq_refl) as [Hd Hle]. by destruct (copy_frontier_ok (config t) d _ Hd Hle He) as (? & ? & _).
    - split; [|done]. apply (clear_entry_count_ok (config t) (blk_frontier (get_block t 0))).
      by destruct Hb as (_ & _ & _ & ? & _). }
  set (t1 := update_block 0 (λ b, set_frontier (match f with Some d => copy_frontier d (blk_frontier b)
    | None => iree_async_frontier_initialize (blk_frontier b) 0 end) b)
    (update_block 0 (set_flags (with_flag FLAG_FREE FLAG_LAST)) t)).
  assert (evolves t t1 0 b') as Hev by (unfold t1, b', fr; evolve).
  pose proof (po_links _ _ _ (core_phys _ _ _ _ _ _ Hc)) as (_ & Hn & _). simpl in Hn.
  pose proof (po_last _ _ _ (core_phys _ _ _ _ _ _ Hc) 0 ltac:(by left)) as Hla.
  destruct (core_evolves _ _ _ _ _ _ _ _ _ Hc ltac:(by left) Hev) as (Hc1 & Es1 & _).
  { do 6 (split; [done|]). rewrite Hla, Hn. by rewrite bool_decide_true. }
  { destruct Hb as (? & ? & _). do 2 (split; [done|]). split; [done|]. by split. }
  assert (segment_at t' 0 = segment_of b') as Es by (rewrite <- Es1; by apply segment_same).
  assert (segment_of b' = Segment 0 (range_length (config t)) true false
    (match f with Some d => live d | None => [] end)) as Eb.
  { unfold segment_of. rewrite <- Elive, <- Eo, <- El. done. }
  assert (core t' [0] unused [] bins {[0]}) as Hc' by (by apply (core_same t1)).
  destruct (geometry_state_ok t t' [0] unused bins {[0]} Hst Hc') as [Hst' Hh]; [by destruct Hev as [_ _ [] _]| |].
  - intros j ->%list_elem_of_singleton. rewrite Es, Eb. by split_and!.
  - split; [done|]. split; [done|]. by rewrite Es.
Qed.

(** Prepared storage is stale, or it is published as a whole. *)
Lemma prepared_growth t phys unused bins F growth :
  state_ok t phys unused bins F → prepared t growth →
  (growth_first_block growth ≠ block_capacity t ∧ iree_hal_memory_tlsf_apply_growth t growth = (false, t, growth)) ∨
  (growth_first_block growth = block_capacity t ∧ 0 < Z.min (block_capacity t) (UINT32_MAX - block_capacity t) ∧
   ∃ growth', iree_hal_memory_tlsf_apply_growth t growth = (true, grown_state t, growth')).
Proof.
  intros Hst (first & host & Hp). pose proof (so_core _ _ _ _ _ Hst) as Hc.
  unfold iree_hal_memory_tlsf_prepare_growth in Hp. cbn [growth_block_count growth_block_stride growth_first_block] in Hp.
  destruct (Z.eqb_spec (iree_min first (usub 32 UINT32_MAX first)) 0) as [|Hcount]; [done|].
  destruct (iree_allocator_malloc_array _ _ _) as [storage|]; [|done]. simpl in Hp. injection Hp as <-.
  cbn [growth_first_block]. destruct (decide (first = block_capacity t)) as [->|Hne]; [right|left].
  - pose proof (phys_count _ _ _ _ _ _ Hc) as [Hpos Hcap]. pose proof (capacity_bound t (core_storage _ _ _ _ _ _ Hc)).
    assert (iree_min (block_capacity t) (usub 32 UINT32_MAX (block_capacity t)) =
      Z.min (block_capacity t) (UINT32_MAX - block_capacity t)) as E.
    { rewrite usub_small by (unfold in_width, UINT32_MAX in *; lia). unfold iree_min.
      destruct (Z.leb_spec (block_capacity t) (UINT32_MAX - block_capacity t)); lia. }
    rewrite E in *. split; [done|]. split; [lia|]. eexists. by apply (apply_growth_eq t phys unused bins F Hc); lia.
  - split; [done|]. unfold iree_hal_memory_tlsf_apply_growth. cbn [growth_first_block growth_block_stride].
    by rewrite (proj2 (Z.eqb_neq _ _)).
Qed.

Lemma grow_ok t phys unused bins F growth :
  state_ok t phys unused bins F → prepared t growth →
  let t' := (iree_hal_memory_tlsf_apply_growth t growth).1.2 in
  ∃ unused', state_ok t' phys unused' bins F ∧ ∀ O, holds t phys O → holds t' phys O.
Proof.
  intros Hst Hp. destruct (prepared_growth t phys unused bins F growth Hst Hp) as [[_ ->]|(_ & Hpos & g & ->)]; [simpl; eauto|].
  cbn [fst snd]. destruct (grow_state_ok t phys unused bins F Hst Hpos) as (u' & _ & Hst' & Hs).
  exists u'. split; [done|]. intros O HO j. rewrite (HO j).
  split; intros [Hj Hu]; (split; [done|]); by rewrite Hs in *.
Qed.

Lemma segs_pointwise t t' l : segs t' l = segs t l → ∀ j, j ∈ l → segment_at t' j = segment_at t j.
Proof.
  induction l as [|i l IH]; intros E j Hj; [by apply not_elem_of_nil in Hj|].
  change (segment_at t' i :: segs t' l = segment_at t i :: segs t l) in E.
  apply elem_of_cons in Hj as [->|Hj]; [congruence|]. apply IH; [congruence|done].
Qed.

(** The blocks behind an allocation, one by one. *)
Lemma allocated_pointwise t t' l1 i rs l2 a s :
  segs t' (l1 ++ i :: rs ++ l2) = allocated a (segs t l1) s (segs t l2) →
  segment_at t' i = taken a s ∧ segs t' rs = remainder_of a s ∧
  ∀ j, j ∈ l1 ∨ j ∈ l2 → segment_at t' j = segment_at t j.
Proof.
  unfold allocated. rewrite segs_app. intros [E1 E]%app_inj_1; [|unfold segs; by rewrite !length_fmap].
  change (segs t' (i :: rs ++ l2)) with (segment_at t' i :: segs t' (rs ++ l2)) in E. rewrite segs_app in E.
  assert (segment_at t' i = taken a s ∧ segs t' rs ++ segs t' l2 = remainder_of a s ++ segs t l2) as [Ei E2]
    by (split; congruence).
  apply app_inj_2 in E2 as [Er E2]; [|unfold segs; by rewrite !length_fmap].
  split; [done|]. split; [done|]. 
  intros j [Hj|Hj]; [by apply (segs_pointwise t t' l1)|by apply (segs_pointwise t t' l2)].
Qed.

Lemma holds_granted t t' l1 i rs l2 a O :
  NoDup (l1 ++ i :: rs ++ l2) → seg_free (segment_at t i) = true → holds t (l1 ++ i :: l2) O →
  segs t' (l1 ++ i :: rs ++ l2) = allocated a (segs t l1) (segment_at t i) (segs t l2) →
  holds t' (l1 ++ i :: rs ++ l2) ({[i]} ∪ O).
Proof.
  intros Hnd Hf HO (Ei & Er & Ej)%allocated_pointwise j.
  rewrite elem_of_union, elem_of_singleton, (HO j). rewrite !elem_of_app, !elem_of_cons, !elem_of_app.
  assert (∀ k, k ∈ rs → seg_free (segment_at t' k) = true) as Hr.
  { intros k Hk. assert (segment_at t' k ∈ segs t' rs) as Hin by (by apply list_elem_of_fmap_2).
    rewrite Er in Hin. unfold remainder_of in Hin. case_decide; [by apply not_elem_of_nil in Hin|].
    by apply list_elem_of_singleton in Hin as ->. }
  split.
  - intros [->|[Hj Hu]]; [by rewrite Ei; auto|]. destruct Hj as [Hj|[->|Hj]]; [|by rewrite Hf in Hu|].
    + rewrite Ej by auto. auto.
    + rewrite Ej by auto. auto 6.
  - intros [[Hj|[->|[Hj|Hj]]] Hu]; [right|by left|by rewrite Hr in Hu|right].
    + rewrite Ej in Hu by auto. auto.
    + rewrite Ej in Hu by auto. auto.
Qed.

Lemma release_ok t phys unused bins F O i death preserve :
  state_ok t phys unused bins F → holds t phys O → i ∈ O → death_ok death →
  let t' := iree_hal_memory_tlsf_free_impl t i death preserve in
  ∃ l1 l2 phys' unused' bins' F', phys = l1 ++ i :: l2 ∧ state_ok t' phys' unused' bins' F' ∧
    config t' = config t ∧ same_used t t' (l1 ++ l2) phys' ∧ holds t' phys' (O ∖ {[i]}) ∧
    released (config t) preserve death (segs t l1) (segment_at t i) (segs t l2) (segs t' phys').
Proof.
  intros Hst HO Hi Hd. cbv zeta. apply HO in Hi as [Hi Hu]. apply list_elem_of_split in Hi as (l1 & l2 & ->).
  destruct (free_impl_ok _ _ _ _ _ _ _ death preserve Hst Hu Hd) as (p' & u' & b' & F' & Hst' & Ec & _ & Hsu & Hr).
  exists l1, l2, p', u', b', F'. do 4 (split; [done|]). split; [|done].
  destruct (links_around _ _ _ _ _ _ _ _ (so_core _ _ _ _ _ Hst)) as (_ & _ & _ & Hnd & _).
  assert (i ∉ l1 ++ l2) as Hn.
  { apply NoDup_app in Hnd as (_ & Hdis & [? _]%NoDup_cons). specialize (Hdis i). set_solver. }
  intros j. rewrite (su_used _ _ _ _ Hsu j), elem_of_difference, (HO j), elem_of_singleton.
  rewrite !elem_of_app, elem_of_cons. rewrite elem_of_app in Hn.
  split; [intros [[[?|[->|?]] ?] ?]; tauto|]. intros [Hj Hu']. split; [tauto|]. intros ->. tauto.
Qed.

Theorem step_ok s s' : sys_ok s → sys_step s s' → sys_ok s'.
Proof.
  intros (phys & unused & bins & F & Hst & HO) Hstep. destruct Hstep; simpl in *.
  - pose proof (try_allocate_ok t phys unused bins F length host_allocator Hst ltac:(done)) as Hr.
    rewrite H0 in Hr. inversion Hr; subst. simpl. exists (l1 ++ i :: rs ++ l2). do 3 eexists. split; [done|].
    eapply holds_granted; [|done..].
    by destruct (links_around _ _ _ _ _ _ _ _ (so_core _ _ _ _ _ H5)) as (_ & _ & _ & ? & _).
  - pose proof (try_allocate_ok t phys unused bins F length host_allocator Hst ltac:(done)) as Hr.
    rewrite H0 in Hr. inversion Hr; subst. by exists phys, unused, bins, F.
  - pose proof (try_allocate_ok t phys unused bins F length host_allocator Hst ltac:(done)) as Hr.
    rewrite H0 in Hr. inversion Hr; subst; eexists _, _, _, _; (split; [exact Hst|done]).
  - destruct (release_ok _ _ _ _ _ _ i death false Hst HO H H0) as (l1 & l2 & p & u & b & F' & _ & Hst' & _ & _ & HO' & _).
    by exists p, u, b, F'.
  - destruct (release_ok _ _ _ _ _ _ i None true Hst HO H) as (l1 & l2 & p & u & b & F' & _ & Hst' & _ & _ & HO' & _);
      [done|]. by exists p, u, b, F'.
  - destruct (grow_ok _ _ _ _ _ growth Hst H) as (u & Hst' & Hh). exists phys, u, bins, F. auto.
  - destruct (merge_full_ok _ _ _ _ _ f Hst H0) as [Hst' Hh]. exists phys, unused, bins, F. auto.
  - destruct (reset_ok _ _ _ _ _ f Hst (query_full_free t H) H0) as (Hst' & Hh & _). exists phys, unused, bins, F. auto.
Qed.

Lemma init_ok s : sys_init s → sys_ok s.
Proof.
  intros [o host t handler Ho Hi Hh]. pose proof (initialize_ok o host Ho) as Hok. rewrite Hi in Hok.
  destruct Hok as (_ & (unused & bins & Hst) & _ & _ & _ & _ & _ & _ & Es).
  exists [0], unused, bins, {[0]}. split; [by apply install_ok|]. intros j. simpl.
  change (segment_at (install_overflow handler t) j) with (segment_at t j). split; [set_solver|].
  intros [->%list_elem_of_singleton Hu]. unfold segs in Es. simpl in Es.
  assert (segment_at t 0 = Segment 0 (effective_range o) true false
    (match opt_initial_frontier o with Some f => live f | None => [] end)) as E by congruence.
  change (seg_free (segment_at t 0) = false) in Hu. by rewrite E in Hu.
Qed.

Theorem reachable_ok s : reachable s → sys_ok s.
Proof. induction 1; [by apply init_ok|by eapply step_ok]. Qed.

(** The segments that a state stands for. *)
Definition represents (t : tlsf_t) (ss : list segment) : Prop :=
  ∃ phys unused bins F, state_ok t phys unused bins F ∧ segs t phys = ss.

Lemma reachable_represents s : reachable s → ∃ ss, represents (sys_tlsf s) ss.
Proof.
  intros (phys & unused & bins & F & Hst & _)%reachable_ok. by exists (segs (sys_tlsf s) phys), phys, unused, bins, F.
Qed.
