(* ===== verification/TlsfProps.v ===== *)
(** * Properties of the TLSF allocator

    What clients of [tlsf.h] rely on, for every reachable state: blocks are aligned,
    inside the range and disjoint; the statistics are exact; allocation and release
    implement the abstract allocator of segments; released ranges coalesce; dependencies
    are never lost. *)

From S2P Require Import Prelude BaseMath Allocator Frontier Tlsf TlsfMapping TlsfStore TlsfLists.
From S2P Require Import TlsfInvariant TlsfOps TlsfRefine TlsfGrowth TlsfInit TlsfSystem.
From stdpp Require Import base numbers list list_numbers gmap sets.

Local Open Scope Z_scope.
Local Open Scope machine_scope.

#[local] Strategy 1000 [get_block update_block].

(** ** A sample execution *)

Definition sample_options : options_t :=
  {| opt_range_length := 1000; opt_alignment := 0; opt_initial_block_capacity := 3;
     opt_frontier_capacity := 2; opt_initial_frontier := None |}.
Definition sample_host : iree_allocator_t := Some (λ _ _ _, Ok 0x10000).
Definition sample_death : iree_async_frontier_t :=
  frontier 1 (replicate 7 0) [entry 5 7].

Definition sample_t0 : tlsf_t :=
  match iree_hal_memory_tlsf_initialize sample_options sample_host with
  | Ok t => t
  | Err _ => tlsf_fresh sample_options 0 0 0
  end.
Definition sample_t1 : tlsf_t := (iree_hal_memory_tlsf_try_allocate sample_t0 100 sample_host).2.
Definition sample_t2 : tlsf_t := (iree_hal_memory_tlsf_try_allocate sample_t1 50 sample_host).2.
Definition sample_t3 : tlsf_t := iree_hal_memory_tlsf_free sample_t2 0 (Some sample_death).

Lemma sample_options_typed : options_typed sample_options.
Proof. by split. Qed.

Lemma sample_death_ok : frontier_ok sample_death.
Proof. split; [by vm_compute|]. split; [by vm_compute|]. split; repeat constructor. Qed.

Lemma sample_reachable_0 : reachable (mk_system sample_t0 ∅).
Proof.
  apply reachable_init. change sample_t0 with (install_overflow None sample_t0).
  apply (sys_initialized sample_options sample_host); [apply sample_options_typed|by vm_compute|].
  intros ? ?. done.
Qed.

Lemma sample_reachable_1 : reachable (mk_system sample_t1 {[0]}).
Proof.
  apply (reachable_step (mk_system sample_t0 ∅)); [apply sample_reachable_0|].
  change ({[0]} : gset Z) with ({[0]} ∪ ∅ : gset Z).
  eapply (step_granted sample_t0 ∅ 100 sample_host (mk_allocation 0 112 0 None 0)); [done|].
  by vm_compute.
Qed.

Lemma sample_reachable_2 : reachable (mk_system sample_t2 {[0; 3]}).
Proof.
  apply (reachable_step (mk_system sample_t1 {[0]})); [apply sample_reachable_1|].
  replace ({[0; 3]} : gset Z) with ({[3]} ∪ {[0]} : gset Z) by set_solver.
  eapply (step_granted sample_t1 {[0]} 50 sample_host (mk_allocation 112 64 3 None 0)); [done|].
  by vm_compute.
Qed.

Lemma sample_reachable_3 : reachable (mk_system sample_t3 {[3]}).
Proof.
  apply (reachable_step (mk_system sample_t2 {[0; 3]})); [apply sample_reachable_2|].
  replace ({[3]} : gset Z) with ({[0; 3]} ∖ {[0]} : gset Z) by set_solver.
  apply step_free; [set_solver|]. intros d [= <-]. apply sample_death_ok.
Qed.

(** ** Ranges of blocks *)

Definition block_end (t : tlsf_t) (i : Z) : Z := blk_offset (get_block t i) + blk_length (get_block t i).

(** Two blocks of the physical list do not overlap. *)
Lemma phys_disjoint t phys unused loose bins F i j :
  core t phys unused loose bins F → i ∈ phys → j ∈ phys → i ≠ j →
  block_end t i <= blk_offset (get_block t j) ∨ block_end t j <= blk_offset (get_block t i).
Proof.
  intros Hc Hi Hj Hne. pose proof (core_phys _ _ _ _ _ _ Hc) as [_ Ht Hb _].
  assert (∀ k, k ∈ phys → 0 < blk_length (get_block t k)) as Hpos by (intros k Hk; by destruct (Hb k Hk)).
  apply list_elem_of_split in Hi as (l1 & l2 & ->).
  apply elem_of_app in Hj as [Hj|[->|Hj]%elem_of_cons]; [right|done|left].
  - apply list_elem_of_split in Hj as (l3 & l4 & ->). rewrite <- app_assoc in Ht, Hpos. simpl in Ht, Hpos.
    by apply (tiles_ordered _ _ _ _ _ _ _ _ _ Hpos Ht).
  - apply list_elem_of_split in Hj as (l3 & l4 & ->). by apply (tiles_ordered _ _ _ _ _ _ _ _ _ Hpos Ht).
Qed.

(** Offsets of blocks are multiples of the alignment. *)
Lemma tiles_aligned off len l : ∀ o e d,
  tiles off len o l e → (d | o) → (∀ j, j ∈ l → (d | len j)) → ∀ i, i ∈ l → (d | off i).
Proof.
  induction l as [|k l IH]; intros o e d Ht Ho Hl i Hi; [by apply not_elem_of_nil in Hi|].
  destruct Ht as [E Ht]. apply elem_of_cons in Hi as [->|Hi]; [by rewrite E|].
  apply (IH (o + len k) e d); [done| | |done].
  - apply Z.divide_add_r; [done|]. apply Hl. by left.
  - intros j Hj. apply Hl. by right.
Qed.

Definition block_placed (t : tlsf_t) (i : Z) : Prop :=
  0 < blk_length (get_block t i) ∧ 0 <= blk_offset (get_block t i) ∧
  block_end t i <= range_length (config t) ∧
  (alignment (config t) | blk_offset (get_block t i)) ∧ (alignment (config t) | blk_length (get_block t i)).

Lemma phys_placed t phys unused loose bins F i :
  core t phys unused loose bins F → i ∈ phys → block_placed t i.
Proof.
  intros Hc Hi. destruct (core_bounds _ _ _ _ _ _ i Hc Hi) as (H1 & H2 & H3 & _).
  pose proof (core_phys _ _ _ _ _ _ Hc) as [_ Ht Hb _].
  assert (∀ j, j ∈ phys → (alignment (config t) | blk_length (get_block t j))) as Hal
    by (intros j Hj; by destruct (Hb j Hj) as (_ & ? & _)).
  split_and!; [done|done|done| |auto]. 
  by apply (tiles_aligned _ _ _ _ _ _ Ht (Z.divide_0_r _) Hal).
Qed.



(** ** Statistics *)

Definition held_bytes (t : tlsf_t) (O : gset Z) : Z :=
  sum_by (λ i, blk_length (get_block t i)) (elements O).

Lemma sum_by_perm f l l' : l ≡ₚ l' → sum_by f l = sum_by f l'.
Proof. unfold sum_by. induction 1; simpl; lia. Qed.

Lemma used_filter t phys O :
  NoDup phys → holds t phys O →
  elements O ≡ₚ filter (λ i, seg_free (segment_at t i) = false) phys.
Proof.
  intros Hnd HO. apply NoDup_Permutation; [apply NoDup_elements|by apply NoDup_filter|].
  intros i. rewrite elem_of_elements, list_elem_of_filter, (HO i). tauto.
Qed.

Lemma used_sums t l :
  allocated_bytes (segs t l) =
    sum_by (λ i, blk_length (get_block t i)) (filter (λ i, seg_free (segment_at t i) = false) l) ∧
  allocated_count (segs t l) = Z.of_nat (length (filter (λ i, seg_free (segment_at t i) = false) l)).
Proof.
  unfold allocated_bytes, allocated_count. induction l as [|i l [IH1 IH2]]; [done|].
  change (segs t (i :: l)) with (segment_at t i :: segs t l). rewrite !seg_sum_cons, IH1, IH2, filter_cons.
  change (seg_length (segment_at t i)) with (blk_length (get_block t i)).
  destruct (seg_free (segment_at t i)); case_decide; try done; unfold sum_by; simpl; lia.
Qed.

Definition free_count : list segment → Z := seg_sum (λ s, if seg_free s then 1 else 0).

Lemma coalesced_free_count ss :
  coalesced ss →
  free_count ss <= allocated_count ss + match ss with a :: _ => if seg_free a then 1 else 0 | [] => 0 end.
Proof.
  unfold free_count, allocated_count. induction ss as [|a [|b ss] IH]; intros Hco; [done| |].
  - unfold seg_sum. simpl. destruct (seg_free a); lia.
  - destruct Hco as [Hn Hco]. specialize (IH Hco). rewrite (seg_sum_cons _ a), (seg_sum_cons _ a).
    destruct (seg_free a) eqn:Ea; destruct (seg_free b) eqn:Eb; lia.
Qed.

Lemma free_list_count t phys unused bins F :
  state_ok t phys unused bins F → Z.of_nat (size F) = free_count (segs t phys).
Proof.
  intros [Hc Hfree _ _ _ _ _]. pose proof (core_nodup _ _ _ _ _ _ Hc) as (Hnd & _)%NoDup_app.
  assert (elements F ≡ₚ filter (λ i, seg_free (segment_at t i) = true) phys) as Hp.
  { apply NoDup_Permutation; [apply NoDup_elements|by apply NoDup_filter|]. intros i.
    rewrite elem_of_elements, list_elem_of_filter. split.
    - intros Hi. pose proof (core_listed _ _ _ _ _ _ Hc i Hi) as Hin. split; [by apply Hfree|done].
    - intros [Hf Hin]. by apply Hfree. }
  unfold size, set_size. simpl. rewrite Hp. clear. unfold free_count. induction phys as [|i l IH]; [done|].
  change (segs t (i :: l)) with (segment_at t i :: segs t l). rewrite seg_sum_cons, <- IH, filter_cons.
  destruct (seg_free (segment_at t i)); case_decide; try done; simpl length; lia.
Qed.



(** ** Refinement of the allocator of segments *)

(** Abstract allocation of [a] bytes: the front of some free segment that is long enough,
    or nothing when every such segment is of the request's own size class. *)
Inductive spec_allocate (a : Z) (ss : list segment) : option segment → list segment → Prop :=
  | spec_take pre s post :
      ss = pre ++ s :: post → seg_free s = true → a <= seg_length s →
      spec_allocate a ss (Some (taken a s)) (allocated a pre s post)
  | spec_exhausted :
      (∀ s, s ∈ ss → seg_free s = true → a <= seg_length s →
         iree_hal_memory_tlsf_mapping_insert (seg_length s) = iree_hal_memory_tlsf_mapping_insert a) →
      spec_allocate a ss None ss.

(** The segment that an allocation record describes. *)
Definition grant_view (a : iree_hal_memory_tlsf_allocation_t) : segment :=
  Segment (alloc_offset a) (alloc_length a) (has_flag (alloc_block_flags a) FLAG_FREE)
    (has_flag (alloc_block_flags a) FLAG_TAINTED)
    (match alloc_death_frontier a with Some f => live f | None => [] end).

Lemma grant_view_eq t i o n :
  blk_offset (get_block t i) = o → blk_length (get_block t i) = n → 0 <= entry_count (blk_frontier (get_block t i)) →
  grant_view (mk_allocation o n i (iree_hal_memory_tlsf_block_death_frontier t i)
    (iree_hal_memory_tlsf_block_flags t i)) = segment_at t i.
Proof.
  intros <- <- Hn. unfold grant_view, segment_at, segment_of, iree_hal_memory_tlsf_block_death_frontier,
    iree_hal_memory_tlsf_block_flags, nonempty_frontier.
  cbn [alloc_offset alloc_length alloc_block_flags alloc_death_frontier]. f_equal.
  destruct (Z.ltb_spec 0 (entry_count (blk_frontier (get_block t i)))); [done|].
  symmetry. apply live_empty. lia.
Qed.


Lemma sample_represents : represents sample_t0 [Segment 0 992 true false []].
Proof.
  destruct (reachable_ok _ sample_reachable_0) as (phys & unused & bins & F & Hst & _). simpl in Hst.
  destruct (full_free _ _ _ _ _ Hst ltac:(by vm_compute)) as (-> & _).
  exists [0], unused, bins, F. split; [done|]. by vm_compute.
Qed.


(** [t'] is the state after the block [i], held in [s], was released. *)
Definition release_spec (s : system) (i : Z) (preserve : bool) (death : option iree_async_frontier_t)
    (t' : tlsf_t) : Prop :=
  ∃ pre post ss',
    represents (sys_tlsf s) (pre ++ segment_at (sys_tlsf s) i :: post) ∧ represents t' ss' ∧
    config t' = config (sys_tlsf s) ∧
    released (config (sys_tlsf s)) preserve death pre (segment_at (sys_tlsf s) i) post ss' ∧
    (∀ j, j ∈ outstanding s → j ≠ i → segment_at t' j = segment_at (sys_tlsf s) j).

Lemma release_spec_ok s i preserve death :
  reachable s → i ∈ outstanding s → death_ok death →
  release_spec s i preserve death (iree_hal_memory_tlsf_free_impl (sys_tlsf s) i death preserve).
Proof.
  intros (phys & unused & bins & F & Hst & HO)%reachable_ok Hi Hd. destruct s as [t O]. simpl in *.
  destruct (release_ok t phys unused bins F O i death preserve Hst HO Hi Hd) as
    (l1 & l2 & p' & u' & b' & F' & E & Hst' & Ec & Hsu & HO' & Hr).
  exists (segs t l1), (segs t l2), (segs (iree_hal_memory_tlsf_free_impl t i death preserve) p').
  split; [|split; [by eexists _, _, _, _|split; [done|split; [done|]]]].
  - exists phys, unused, bins, F. split; [done|]. rewrite E. apply segs_app.
  - intros j Hj Hne. apply HO in Hj as [Hj Hu]. apply (su_same _ _ _ _ Hsu); [|done]. subst phys. set_solver.
Qed.

(** C3: releasing a held block implements the abstract release: the segment becomes free
    with the history of the death frontier (or keeps its own, for
    [iree_hal_memory_tlsf_restore]) and is united with its free neighbors, and every
    other held block keeps offset, length and history. *)
Theorem release_refines s i death :
  reachable s → i ∈ outstanding s → death_ok death →
  release_spec s i false death (iree_hal_memory_tlsf_free (sys_tlsf s) i death) ∧
  release_spec s i true None (iree_hal_memory_tlsf_restore (sys_tlsf s) i).
Proof. intros Hr Hi Hd. split; by apply release_spec_ok. Qed.

Lemma sample_death_some : death_ok (Some sample_death).
Proof. intros d [= <-]. apply sample_death_ok. Qed.

Lemma release_refines_witness :
  release_spec (mk_system sample_t2 {[0; 3]}) 0 false (Some sample_death)
    (iree_hal_memory_tlsf_free sample_t2 0 (Some sample_death)).
Proof.
  exact (proj1 (release_refines (mk_system sample_t2 {[0; 3]}) 0 (Some sample_death) sample_reachable_2
    ltac:(set_solver) sample_death_some)).
Defined.

(** ** Coalescing of a fully released range *)

Lemma multiple_room x p m : 0 < p → (p | x) → (p | m) → x < m → x + (p - 1) < m.
Proof.
  intros Hp Hx Hm Hlt. pose proof (Z.divide_sub_r p m x Hm Hx) as Hd.
  pose proof (Z.divide_pos_le p (m - x) ltac:(lia) Hd). lia.
Qed.

(** C5: when every held block has been released the whole range is one free block again,
    [iree_hal_memory_tlsf_query_full_free_block] reports it, and a request for the whole
    range is granted at offset 0 without any node storage. *)
Theorem released_range_is_whole s host_allocator :
  reachable s → outstanding s = ∅ →
  let t := sys_tlsf s in
  represents t [segment_at t 0] ∧ seg_offset (segment_at t 0) = 0 ∧
  seg_length (segment_at t 0) = range_length (config t) ∧
  iree_hal_memory_tlsf_query_full_free_block t =
    Some (iree_hal_memory_tlsf_block_death_frontier t 0, iree_hal_memory_tlsf_block_flags t 0) ∧
  ∃ a t', iree_hal_memory_tlsf_try_allocate t (range_length (config t)) host_allocator = (Ok (Some a), t') ∧
    alloc_offset a = 0 ∧ alloc_length a = range_length (config t).
Proof.
  intros (phys & unused & bins & F & Hst & HO)%reachable_ok E. destruct s as [t O]. simpl in *. subst O.
  assert (allocation_count t = 0) as E0.
  { rewrite (so_count _ _ _ _ _ Hst). destruct (used_sums t phys) as [_ ->].
    destruct (filter _ phys) as [|j l] eqn:Ef; [done|].
    assert (j ∈ filter (λ i, seg_free (segment_at t i) = false) phys) as Hj by (rewrite Ef; by left).
    apply list_elem_of_filter in Hj as [Hu Hj]. assert (j ∈ (∅ : gset Z)) as Hin by (apply HO; done). set_solver. }
  destruct (full_free _ _ _ _ _ Hst E0) as (-> & Hf & -> & Eo & El).
  pose proof (so_core _ _ _ _ _ Hst) as Hc.
  split; [by exists [0], unused, bins, {[0]}|]. split; [done|]. split; [done|]. split.
  - unfold iree_hal_memory_tlsf_query_full_free_block.
    rewrite E0, (lo_count _ _ _ (core_lists _ _ _ _ _ _ Hc)), size_singleton.
    rewrite (so_bytes_free _ _ _ _ _ Hst). unfold segs, free_bytes, seg_sum. cbn [fmap list_fmap foldr].
    rewrite Hf, El, Z.add_0_r, !Z.eqb_refl. done.
  - pose proof (co_range _ (core_config _ _ _ _ _ _ Hc)) as Hrg.
    destruct (co_alignment _ (core_config _ _ _ _ _ _ Hc)) as (k & Hk & Ek).
    pose proof (co_multiple _ (core_config _ _ _ _ _ _ Hc)) as [q Hq].
    assert (0 < alignment (config t)) as Hal by (rewrite Ek; apply Z.pow_pos_nonneg; lia).
    assert (request t (range_length (config t)) = range_length (config t)) as Er.
    { pose proof (round_up_spec (range_length (config t)) _ Hal) as [_ ?].
      pose proof (round_up_least (range_length (config t)) _ (range_length (config t)) Hal
        ltac:(by exists q) ltac:(lia)). unfold request. lia. }
    pose proof (try_allocate_ok t [0] unused bins {[0]} (range_length (config t)) host_allocator Hst) as Hr.
    destruct (iree_hal_memory_tlsf_try_allocate t _ host_allocator) as [result t'].
    destruct Hr as [E|E|Hnone|i code Eu Hi Hf' Hlt Hwhy|l1 i l2 rs u' b' F' t' E Hf' Hle Hst' Eseg Ec Ei];
      try rewrite Er in Hnone; try rewrite Er in Hlt; rewrite ?Er; [unfold in_width; lia|lia| | | |].
    + exfalso. assert (alignment (config t) | 2 ^ 64) as H64.
      { exists (2 ^ (64 - k)). rewrite Ek, <- Z.pow_add_r by lia. f_equal. lia. }
      pose proof (multiple_room (range_length (config t)) _ _ Hal ltac:(by exists q) H64). lia.
    + exfalso. destruct (Hnone 0 ltac:(by left) Hf ltac:(lia)) as [_ Hlt].
      pose proof (core_lists _ _ _ _ _ _ Hc) as Hl.
      pose proof (bin_of_ok t 0 (proj2 (lo_valid _ _ _ Hl 0 ltac:(set_solver)))) as Hok.
      assert (0 ∈ bins (bin_of t 0)) as Hin by (apply (lo_mem _ _ _ Hl); [done|]; split; [set_solver|done]).
      destruct (bins (bin_of t 0)) as [|x l] eqn:Eb; [by apply not_elem_of_nil in Hin|]. cbn [hd] in Hlt.
      assert (x ∈ bins (bin_of t 0)) as Hx by (rewrite Eb; by left).
      apply (lo_mem _ _ _ Hl) in Hx as [Hx%elem_of_singleton _]; [|done]. rewrite Hx, El in Hlt. lia.
    + apply list_elem_of_singleton in Hi as ->. lia.
    + do 2 eexists. split; [done|]. simpl. split; [|done].
      assert (i ∈ [0]) as ->%list_elem_of_singleton by (rewrite E; set_solver). done.
Qed.

Lemma released_range_is_whole_witness :
  ∃ a t', iree_hal_memory_tlsf_try_allocate sample_t0 (range_length (config sample_t0)) None = (Ok (Some a), t') ∧
    alloc_offset a = 0.
Proof.
  destruct (released_range_is_whole (mk_system sample_t0 ∅) None sample_reachable_0 eq_refl)
    as (_ & _ & _ & _ & a & t' & E1 & E2 & _).
  exists a, t'. split; [exact E1|exact E2].
Defined.

(** ** Conservation of history *)

Definition covers (s : segment) (x : Z) : Prop := seg_offset s <= x < seg_offset s + seg_length s.

(** The segment demands at least [deps] before its range is reused: it is tainted, or its
    history dominates [deps]. *)
Definition demands (s : segment) (deps : list iree_async_frontier_entry_t) : Prop :=
  seg_tainted s = true ∨ ∀ a, epoch_of deps a <= epoch_of (seg_deps s) a.

(** Whoever is given offset [x] waits for [deps] at least. *)
Definition guarded (ss : list segment) (x : Z) (deps : list iree_async_frontier_entry_t) : Prop :=
  ∃ s, s ∈ ss ∧ covers s x ∧ demands s deps.

(** Segments in offset order without gaps, with valid histories. *)
Fixpoint tiled (o : Z) (ss : list segment) : Prop :=
  match ss with
  | [] => True
  | s :: ss => seg_offset s = o ∧ tiled (o + seg_length s) ss
  end.

Definition well_formed (ss : list segment) : Prop :=
  tiled 0 ss ∧ ∀ s, s ∈ ss → 0 < seg_length s ∧ valid_entries (seg_deps s).

Lemma tiled_app ss1 ss2 : ∀ o,
  tiled o (ss1 ++ ss2) ↔ tiled o ss1 ∧ tiled (o + seg_sum seg_length ss1) ss2.
Proof.
  induction ss1 as [|s ss1 IH]; intros o; [unfold seg_sum; simpl; rewrite Z.add_0_r; tauto|]. cbn [tiled app].
  rewrite IH, seg_sum_cons, Z.add_assoc. tauto.
Qed.

Lemma represents_well_formed t ss : represents t ss → well_formed ss.
Proof.
  intros (phys & unused & bins & F & Hst & <-). pose proof (so_core _ _ _ _ _ Hst) as Hc.
  pose proof (core_phys _ _ _ _ _ _ Hc) as [_ Ht Hb _]. split.
  - revert Ht. generalize 0. clear. induction phys as [|i l IH]; intros o; [done|].
    change (segs t (i :: l)) with (segment_at t i :: segs t l). intros [Ho Ht]. split; [done|by apply IH].
  - intros s (i & -> & Hi)%list_elem_of_fmap. destruct (Hb i Hi) as (Hl & _ & _ & [Hf _] & _).
    split; [done|]. by apply live_valid.
Qed.

Lemma joins_demands c s1 s2 s deps :
  joins c s1 s2 s → frontier_overflow c = None →
  valid_entries (seg_deps s1) → valid_entries (seg_deps s2) →
  demands s1 deps ∨ demands s2 deps → demands s deps.
Proof.
  intros (_ & _ & _ & Hj) Hn Hv1 Hv2 Hd. specialize (Hj (or_introl Hn)). unfold join_deps in Hj.
  destruct (seg_tainted s1) eqn:E1; [left; simpl in Hj; congruence|].
  destruct (seg_tainted s2) eqn:E2; [left; simpl in Hj; congruence|]. simpl in Hj.
  case_decide; [|left; congruence]. right. intros a. assert (seg_deps s = fmerge (seg_deps s1) (seg_deps s2)) as -> by congruence.
  rewrite fmerge_epoch by done. destruct Hd as [[?|Hd]|[?|Hd]]; [congruence| |congruence|]; specialize (Hd a); lia.
Qed.

Lemma joins_valid c s1 s2 s :
  joins c s1 s2 s → frontier_overflow c = None →
  valid_entries (seg_deps s1) → valid_entries (seg_deps s2) → valid_entries (seg_deps s).
Proof.
  intros (_ & _ & _ & Hj) Hn Hv1 Hv2. specialize (Hj (or_introl Hn)). unfold join_deps in Hj.
  destruct (seg_tainted s1 || seg_tainted s2); [assert (seg_deps s = []) as -> by congruence; split; constructor|].
  case_decide; [|assert (seg_deps s = []) as -> by congruence; split; constructor].
  assert (seg_deps s = fmerge (seg_deps s1) (seg_deps s2)) as -> by congruence. by apply fmerge_valid.
Qed.

(** Taking the front of a segment keeps every demand. *)
Lemma allocated_guarded a pre s post x deps :
  a <= seg_length s → guarded (pre ++ s :: post) x deps → guarded (allocated a pre s post) x deps.
Proof.
  intros Ha (s' & Hin & Hc & Hd). unfold allocated. apply elem_of_app in Hin as [Hin|[->|Hin]%elem_of_cons].
  - exists s'. split; [set_solver|done].
  - unfold covers in Hc. destruct (decide (x < seg_offset s + a)) as [Hx|Hx].
    + exists (taken a s). split; [set_solver|]. split; [unfold covers; simpl; lia|done].
    + unfold remainder_of. rewrite decide_False by lia.
      exists (Segment (seg_offset s + a) (seg_length s - a) true (seg_tainted s) (seg_deps s)).
      split; [set_solver|]. split; [unfold covers; simpl; lia|done].
  - exists s'. split; [set_solver|done].
Qed.

(** Uniting with the right neighbor. *)
Lemma merge_right_guarded c s post s' post' x deps :
  merge_right c s post s' post' → frontier_overflow c = None → tiled (seg_offset s) (s :: post) →
  (∀ r, r ∈ s :: post → 0 < seg_length r ∧ valid_entries (seg_deps r)) →
  tiled (seg_offset s) (s' :: post') ∧ valid_entries (seg_deps s') ∧ seg_offset s' = seg_offset s ∧
  (guarded (s :: post) x deps → guarded (s' :: post') x deps).
Proof.
  intros [r p s1 Hr Hj|p Hp] Hn Ht Hv.
  - destruct Ht as (_ & Er & Ht). destruct (Hv s ltac:(by left)) as [Hl1 Hv1].
    destruct (Hv r ltac:(right; by left)) as [Hl2 Hv2]. pose proof (joins_valid _ _ _ _ Hj Hn Hv1 Hv2) as Hvs.
    pose proof (joins_demands c s r s1 deps Hj Hn Hv1 Hv2) as Hd. destruct Hj as (Eo & El & _ & _).
    split; [split; [done|]; by rewrite El, Z.add_assoc|]. split; [done|]. split; [done|].
    intros (q & Hq & Hc & Hdq). unfold covers in *.
    apply elem_of_cons in Hq as [->|[->|Hq]%elem_of_cons].
    + exists s1. split; [by left|]. split; [unfold covers; lia|auto].
    + exists s1. split; [by left|]. split; [unfold covers; lia|auto].
    + exists q. split; [by right|done].
  - split; [done|]. split; [by apply Hv; left|]. done.
Qed.

(** Uniting with the left neighbor. *)
Lemma merge_left_guarded c s pre pre' s' post x deps :
  merge_left c s pre pre' s' → frontier_overflow c = None → tiled 0 (pre ++ s :: post) →
  (∀ r, r ∈ pre → 0 < seg_length r ∧ valid_entries (seg_deps r)) →
  0 < seg_length s → valid_entries (seg_deps s) →
  guarded (pre ++ s :: post) x deps → guarded (pre' ++ s' :: post) x deps.
Proof.
  intros [p l s1 Hl Hj|p Hp] Hn Ht Hv Hls Hvs; [|done]. rewrite <- app_assoc in *. simpl in *.
  apply tiled_app in Ht as (_ & El & Es & _). destruct (Hv l ltac:(set_solver)) as [Hl1 Hv1].
  pose proof (joins_demands c l s s1 deps Hj Hn Hv1 Hvs) as Hd. destruct Hj as (Eo & Elen & _ & _).
  intros (q & Hq & Hc & Hdq). unfold covers in *.
  apply elem_of_app in Hq as [Hq|[->|[->|Hq]%elem_of_cons]%elem_of_cons].
  - exists q. split; [set_solver|done].
  - exists s1. split; [set_solver|]. split; [unfold covers; lia|auto].
  - exists s1. split; [set_solver|]. split; [unfold covers; lia|auto].
  - exists q. split; [set_solver|done].
Qed.

(** The demand on the offsets of a released segment. *)
Definition release_demand (preserve : bool) (death : option iree_async_frontier_t) (s : segment)
    (deps : list iree_async_frontier_entry_t) : Prop :=
  if preserve then demands s deps else deps = match death with Some d => live d | None => [] end.

Lemma released_guarded c preserve death pre s post ss x deps :
  released c preserve death pre s post ss → frontier_overflow c = None → death_ok death →
  well_formed (pre ++ s :: post) →
  (covers s x → release_demand preserve death s deps) →
  (¬ covers s x → guarded (pre ++ s :: post) x deps) → guarded ss x deps.
Proof.
  intros [s0 s1 s2 pre' post' H0 Hr Hl] Hn Hd [Ht Hv] Hin Hout.
  assert (seg_offset s0 = seg_offset s ∧ seg_length s0 = seg_length s ∧ valid_entries (seg_deps s0) ∧
    (release_demand preserve death s deps → demands s0 deps)) as (Eo & El & Hv0 & Hdem).
  { destruct (Hv s ltac:(set_solver)) as [_ Hvs]. destruct preserve; [by subst s0|].
    destruct H0 as (Eo & El & _ & Hdeps). specialize (Hdeps (or_introl Hn)). split; [done|]. split; [done|].
    unfold demands, release_demand. unfold death_deps in Hdeps. destruct death as [d|].
    - specialize (Hd d eq_refl). case_decide.
      + assert (seg_deps s0 = live d) as -> by congruence. split; [by apply live_valid|intros ->; by right].
      + assert (seg_deps s0 = [] ∧ seg_tainted s0 = true) as [-> ->] by (split; congruence). split; [by split; constructor|by left].
    - assert (seg_deps s0 = []) as -> by congruence. split; [by split; constructor|intros ->; by right]. }
  assert (guarded (pre ++ s0 :: post) x deps) as Hg.
  { destruct (decide (seg_offset s <= x < seg_offset s + seg_length s)) as [Hc|Hc].
    - exists s0. split; [set_solver|]. split; [unfold covers; lia|auto].
    - destruct (Hout Hc) as (q & Hq & Hcq & Hdq). exists q. split; [|done].
      assert (q ≠ s) by (by intros ->). set_solver. }
  assert (tiled 0 (pre ++ s0 :: post)) as Ht0.
  { apply tiled_app. apply tiled_app in Ht as (Htp & Hs & Htq). split; [done|]. simpl. rewrite Eo, El. done. }
  pose proof Ht0 as (_ & Eos & Htp)%tiled_app. assert (seg_length s0 > 0) by (destruct (Hv s); [set_solver|lia]).
  assert (∀ r, r ∈ s0 :: post → 0 < seg_length r ∧ valid_entries (seg_deps r)) as Hv'.
  { intros r [->|Hr']%elem_of_cons; [split; [lia|done]|]. apply Hv. set_solver. }
  destruct (merge_right_guarded c s0 post s1 post' x deps Hr Hn ltac:(split; [done|by rewrite Eos]) Hv') as (Ht1 & Hv1 & Eo1 & Hg1).
  apply (merge_left_guarded c s1 pre pre' s2 post' x deps Hl Hn).
  - apply tiled_app. apply tiled_app in Ht as (Htp' & _). split; [done|]. by rewrite <- Eos.
  - intros r Hr'. apply Hv. set_solver.
  - assert (seg_length s0 <= seg_length s1); [|lia]. destruct Hr as [r p q _ (_ & -> & _)|]; [|done].
    destruct (Hv' r); [set_solver|lia].
  - done.
  - destruct Hg as (q & Hq & Hrest). apply elem_of_app in Hq as [Hq|Hq]; [exists q; split; [set_solver|done]|].
    destruct (Hg1 ltac:(by exists q)) as (q' & Hq' & Hrest'). exists q'. split; [set_solver|done].
Qed.

(** ** The segments of a state are determined by it *)

Lemma dll_unique prv nxt l1 : ∀ p l2,
  dll prv nxt p l1 NONE → dll prv nxt p l2 NONE → head l1 = head l2 →
  (∀ i, i ∈ l1 → i ≠ NONE) → (∀ i, i ∈ l2 → i ≠ NONE) → l1 = l2.
Proof.
  induction l1 as [|i l1 IH]; intros p [|j l2] H1 H2 Hh Hn1 Hn2; try done.
  injection Hh as <-. f_equal. destruct H1 as (_ & E1 & H1), H2 as (_ & E2 & H2).
  apply (IH i); [done|done| |set_solver|set_solver].
  destruct l1 as [|a l1], l2 as [|b l2]; simpl in *; [done| | |congruence].
  - exfalso. apply (Hn2 b); [set_solver|congruence].
  - exfalso. apply (Hn1 a); [set_solver|congruence].
Qed.

Lemma phys_unique t p1 u1 b1 F1 p2 u2 b2 F2 :
  state_ok t p1 u1 b1 F1 → state_ok t p2 u2 b2 F2 → p1 = p2.
Proof.
  intros H1 H2. pose proof (so_core _ _ _ _ _ H1) as C1. pose proof (so_core _ _ _ _ _ H2) as C2.
  assert (∀ p u b F, core t p u [] b F → ∀ i, i ∈ p → i ≠ NONE) as Hn.
  { intros p u b F C i Hi. apply (valid_not_none t); [apply (core_storage _ _ _ _ _ _ C)|].
    by apply (core_valid _ _ _ _ _ _ _ C). }
  eapply (dll_unique _ _ _ NONE); [apply (core_phys _ _ _ _ _ _ C1)|apply (core_phys _ _ _ _ _ _ C2)| |by eauto..].
  by rewrite (so_head _ _ _ _ _ H1), (so_head _ _ _ _ _ H2).
Qed.

Lemma represents_unique t ss1 ss2 : represents t ss1 → represents t ss2 → ss1 = ss2.
Proof.
  intros (p1 & u1 & b1 & F1 & H1 & <-) (p2 & u2 & b2 & F2 & H2 & <-). by rewrite (phys_unique _ _ _ _ _ _ _ _ _ H1 H2).
Qed.

Lemma tiled_after ss : ∀ o s, tiled o ss → (∀ s, s ∈ ss → 0 < seg_length s) → s ∈ ss → o <= seg_offset s.
Proof.
  induction ss as [|a ss IH]; intros o s Ht Hp Hs; [by apply not_elem_of_nil in Hs|].
  destruct Ht as [Eo Ht]. apply elem_of_cons in Hs as [->|Hs]; [lia|].
  pose proof (Hp a ltac:(by left)). specialize (IH _ s Ht ltac:(set_solver) Hs). lia.
Qed.

(** An offset belongs to one segment. *)
Lemma covers_unique ss : ∀ o s1 s2 x,
  tiled o ss → (∀ s, s ∈ ss → 0 < seg_length s) → s1 ∈ ss → s2 ∈ ss → covers s1 x → covers s2 x → s1 = s2.
Proof.
  induction ss as [|a ss IH]; intros o s1 s2 x Ht Hp H1 H2 C1 C2; [by apply not_elem_of_nil in H1|].
  destruct Ht as [Eo Ht].
  assert (∀ s, s ∈ ss → 0 < seg_length s) as Hp' by set_solver.
  pose proof (λ s, tiled_after ss _ s Ht Hp') as Ha. unfold covers in *.
  apply elem_of_cons in H1 as [->|H1], H2 as [->|H2]; [done| | |by eapply IH].
  - specialize (Ha s2 H2). lia.
  - specialize (Ha s1 H1). lia.
Qed.

(** Offset [x] of the range cannot be handed out without the history [deps]. *)
Definition history (t : tlsf_t) (x : Z) (deps : list iree_async_frontier_entry_t) : Prop :=
  ∀ ss, represents t ss → guarded ss x deps.

Lemma history_intro t ss x deps : represents t ss → guarded ss x deps → history t x deps.
Proof. intros Hr Hg ss' Hr'. by rewrite (represents_unique t ss' ss). Qed.

Lemma try_allocate_history s length host_allocator x deps :
  reachable s → in_width 64 length → history (sys_tlsf s) x deps →
  history (iree_hal_memory_tlsf_try_allocate (sys_tlsf s) length host_allocator).2 x deps.
Proof.
  intros (phys & unused & bins & F & Hst & _)%reachable_ok Hw Hh. destruct s as [t O]. simpl in *.
  pose proof (try_allocate_ok t phys unused bins F length host_allocator Hst Hw) as Hr.
  destruct (iree_hal_memory_tlsf_try_allocate t length host_allocator) as [result t'].
  destruct Hr as [ | | | |l1 i l2 rs u' b' F' t' E Hf Hle Hst' Eseg Ec Ei]; try done.
  apply (history_intro _ (segs t' (l1 ++ i :: rs ++ l2))); [by eexists _, _, _, _|]. rewrite Eseg.
  apply allocated_guarded; [done|]. apply Hh. exists phys, unused, bins, F. split; [done|]. rewrite E. apply segs_app.
Qed.


