(* ===== verification/TlsfQueries.v ===== *)
(** * Queries of the TLSF allocator

    The precision of the size classes, the enumeration of candidates by
    [iree_hal_memory_tlsf_query_free_block], an execution in which the head of a size
    class hides a longer block, the estimate of
    [iree_hal_memory_tlsf_largest_free_block], and initialization. *)

From S2P Require Import Prelude BaseMath Allocator Frontier Tlsf TlsfMapping TlsfStore TlsfLists.
From S2P Require Import TlsfInvariant TlsfOps TlsfRefine TlsfGrowth TlsfInit TlsfSystem.
From stdpp Require Import base numbers list list_numbers gmap sets.

Local Open Scope Z_scope.
Local Open Scope machine_scope.

#[local] Strategy 1000 [get_block update_block].

(** ** Walking the bins *)

Definition bin_at (k : Z) : Z * Z := (k / 32, k mod 32).

Lemma bin_at_key b : bin_ok b → bin_at (bin_key b) = b.
Proof.
  destruct b as [fl sl]. intros [Hfl Hsl]. simpl in *. unfold bin_at, bin_key. simpl.
  by rewrite Z.div_add_l, Z.div_small, Z.add_0_r, Z.add_comm, Z.mod_add, Z.mod_small by lia.
Qed.

Lemma bin_at_ok k : 0 <= k < 2048 → bin_ok (bin_at k) ∧ bin_key (bin_at k) = k.
Proof.
  intros Hk. pose proof (Z.div_mod k 32 ltac:(lia)). pose proof (Z.mod_pos_bound k 32 ltac:(lia)).
  unfold bin_ok, bin_key, bin_at. simpl. split; [|lia]. split; [|lia].
  split; [apply Z.div_pos; lia|apply Z.div_lt_upper_bound; lia].
Qed.

Lemma bin_key_bound b : bin_ok b → 0 <= bin_key b < 2048.
Proof. destruct b as [fl sl]. unfold bin_ok, bin_key. simpl. lia. Qed.

(** The blocks in the bins after key [k], in search order. *)
Definition after_key (bins : Z * Z → list Z) (k : Z) : list Z :=
  seqZ (k + 1) (2047 - k) ≫= λ j, bins (bin_at j).

Lemma after_key_skip bins k k' :
  0 <= k <= k' → k' < 2048 → (∀ j, k < j <= k' → bins (bin_at j) = []) → after_key bins k = after_key bins k'.
Proof.
  intros Hk Hk' He. unfold after_key. replace (2047 - k) with ((k' - k) + (2047 - k')) by lia.
  rewrite seqZ_app, bind_app by lia. replace (k + 1 + (k' - k)) with (k' + 1) by lia.
  enough (seqZ (k + 1) (k' - k) ≫= (λ j, bins (bin_at j)) = []) as -> by done.
  apply elem_of_nil_inv. intros i (j & Hi & Hj%elem_of_seqZ)%list_elem_of_bind.
  rewrite He in Hi by lia. by apply not_elem_of_nil in Hi.
Qed.

Lemma after_key_step bins k : -1 <= k < 2047 → after_key bins k = bins (bin_at (k + 1)) ++ after_key bins (k + 1).
Proof.
  intros Hk. unfold after_key. rewrite (seqZ_cons (k + 1)), bind_cons by lia.
  by replace (Z.pred (2047 - k)) with (2047 - (k + 1)) by lia; replace (Z.succ (k + 1)) with (k + 1 + 1) by lia.
Qed.

Lemma elem_of_after_key bins k i :
  -1 <= k < 2048 → i ∈ after_key bins k ↔ ∃ b, bin_ok b ∧ k < bin_key b ∧ i ∈ bins b.
Proof.
  intros Hk. unfold after_key. rewrite list_elem_of_bind. split.
  - intros (j & Hi & Hj%elem_of_seqZ). exists (bin_at j).
    destruct (bin_at_ok j) as [? ->]; [lia|]. split; [done|]. split; [lia|done].
  - intros (b & Hb & Hlt & Hi). pose proof (bin_key_bound b Hb). exists (bin_key b).
    rewrite bin_at_key by done. split; [done|]. apply elem_of_seqZ. lia.
Qed.

Section queries.
Context (t : tlsf_t) (bins : Z * Z → list Z) (F : gset Z).
Context (Hs : storage_ok t) (Hl : lists_ok t bins F).

(** The lowest set bit of a map of which the bits are known. *)
Lemma lowest_bit w map (P : Z → bool) :
  0 <= w → in_width w map → (∀ i, 0 <= i < w → Z.testbit map i = P i) → map ≠ 0 →
  0 <= ctz map < w ∧ P (ctz map) = true ∧ ∀ j, 0 <= j < ctz map → P j = false.
Proof using.
  intros Hw [H0 H1] Hb Hne. assert (0 < map) as Hpos by lia. pose proof (ctz_nonneg map).
  pose proof (ctz_bound w map Hw Hpos (conj H0 H1)). split; [lia|]. split.
  - rewrite <- Hb by lia. by apply ctz_testbit.
  - intros j Hj. rewrite <- Hb by lia. apply ctz_low; lia.
Qed.

(** The first nonempty bin of a class above [lo]. *)
Lemma lowest_sl fl lo map :
  0 <= fl < 64 → in_width 32 map →
  (∀ i, 0 <= i < 32 → Z.testbit map i = bool_decide (bins (fl, i) ≠ []) && (lo <? i)) → map ≠ 0 →
  let found := wrap 8 (iree_math_count_trailing_zeros_u32 map) in
  bin_ok (fl, found) ∧ lo < found ∧ bins (fl, found) ≠ [] ∧ ∀ j, lo < j < found → 0 <= j → bins (fl, j) = [].
Proof using.
  intros Hfl Hw Hb Hne. destruct (lowest_bit 32 map _ ltac:(lia) Hw Hb Hne) as (Hc & Hf & Hj).
  cbv zeta. rewrite count_trailing_zeros_u32_eq, wrap_small by (done || (destruct Hw; unfold in_width; lia)).
  apply andb_true_iff in Hf as [Hf%bool_decide_eq_true Hlt%Z.ltb_lt].
  split; [split; simpl; lia|]. split; [done|]. split; [done|]. intros j Hlj Hj0. specialize (Hj j ltac:(lia)).
  rewrite (proj2 (Z.ltb_lt lo j)), andb_true_r in Hj by lia. apply bool_decide_eq_false in Hj. by apply dec_stable.
Qed.

(** A bin is the next one when all bins between are empty. *)
Lemma after_key_next b b' :
  bin_ok b → bin_ok b' → bin_key b < bin_key b' →
  (∀ c, bin_ok c → bin_key b < bin_key c < bin_key b' → bins c = []) →
  after_key bins (bin_key b) = bins b' ++ after_key bins (bin_key b').
Proof using.
  intros Hb Hb' Hlt He. pose proof (bin_key_bound b Hb). pose proof (bin_key_bound b' Hb').
  rewrite (after_key_skip _ _ (bin_key b' - 1)); [|lia|lia|].
  - rewrite after_key_step by lia. replace (bin_key b' - 1 + 1) with (bin_key b') by lia. by rewrite bin_at_key.
  - intros j Hj. destruct (bin_at_ok j) as [Hok E]; [lia|]. apply He; [done|]. rewrite E. lia.
Qed.

(** The bits above [sl] within a class, and the classes above [fl]. *)
Lemma sl_map_above fl sl :
  bin_ok (fl, sl) →
  let map := Z.land (sl_bitmap t fl) (unot 32 (iree_shr 32 (umax 32) (31 - sl))) in
  in_width 32 map ∧ (∀ i, 0 <= i < 32 → Z.testbit map i = bool_decide (bins (fl, i) ≠ []) && (sl <? i)) ∧
  (map = 0 → ∀ j, sl < j < 32 → bins (fl, j) = []).
Proof using Hl.
  intros [Hfl Hsl] map. simpl in Hfl, Hsl. pose proof (lo_sl_width _ _ _ Hl fl Hfl) as Hw.
  assert (∀ i, 0 <= i < 32 → Z.testbit map i = bool_decide (bins (fl, i) ≠ []) && (sl <? i)) as Hbit.
  { intros i Hi. unfold map. rewrite Z.land_spec, (mask_above_testbit 32) by lia.
    by rewrite (lo_sl _ _ _ Hl fl i) by done. }
  split; [apply land_in_width; [lia|done|apply unot_in_width; lia]|]. split; [done|].
  intros E j Hj. specialize (Hbit j ltac:(lia)). rewrite E, Z.bits_0, (proj2 (Z.ltb_lt sl j)), andb_true_r in Hbit by lia.
  symmetry in Hbit. apply bool_decide_eq_false in Hbit. by apply dec_stable.
Qed.

Lemma fl_map_above fl :
  0 <= fl < 64 →
  let map := Z.land (fl_bitmap t) (unot 64 (iree_shr 64 (umax 64) (63 - fl))) in
  (map = 0 → ∀ fl', fl < fl' < 64 → sl_bitmap t fl' = 0) ∧
  (map ≠ 0 → let found := wrap 8 (iree_math_count_trailing_zeros_u64 map) in
     fl < found < 64 ∧ sl_bitmap t found ≠ 0 ∧ ∀ fl', fl < fl' < found → sl_bitmap t fl' = 0).
Proof using Hl.
  intros Hfl map.
  assert (in_width 64 map) as Hw by (apply land_in_width; [lia|apply (lo_fl_width _ _ _ Hl)|apply unot_in_width; lia]).
  assert (∀ i, 0 <= i < 64 → Z.testbit map i = bool_decide (sl_bitmap t i ≠ 0) && (fl <? i)) as Hbit.
  { intros i Hi. unfold map. rewrite Z.land_spec, (mask_above_testbit 64) by lia. by rewrite (lo_fl _ _ _ Hl i). }
  clearbody map. assert (∀ j, fl < j → bool_decide (sl_bitmap t j ≠ 0) && (fl <? j) = false → sl_bitmap t j = 0) as He.
  { intros j Hj E. rewrite (proj2 (Z.ltb_lt fl j)), andb_true_r in E by lia.
    apply bool_decide_eq_false in E. by apply dec_stable. }
  split.
  - intros E j Hj. apply He; [lia|]. rewrite <- Hbit by lia. by rewrite E, Z.bits_0.
  - intros NE. destruct (lowest_bit 64 map _ ltac:(lia) Hw Hbit NE) as (Hc & Hf & Hj). cbv zeta.
    rewrite count_trailing_zeros_u64_eq, wrap_small by (done || (destruct Hw; unfold in_width; lia)).
    apply andb_true_iff in Hf as [Hf%bool_decide_eq_true Hlt%Z.ltb_lt]. split; [lia|]. split; [done|].
    intros j Hlj. apply He; [lia|]. apply Hj. lia.
Qed.

(** [tlsf_next_bin] finds the next nonempty bin. *)
Lemma next_bin_spec fl sl :
  bin_ok (fl, sl) →
  match tlsf_next_bin t fl sl with
  | None => after_key bins (bin_key (fl, sl)) = []
  | Some b => bin_ok b ∧ bins b ≠ [] ∧
      after_key bins (bin_key (fl, sl)) = bins b ++ after_key bins (bin_key b)
  end.
Proof using Hs Hl.
  intros Hok. pose proof Hok as [Hfl Hsl]. simpl in Hfl, Hsl. unfold tlsf_next_bin. cbv zeta.
  destruct (sl_map_above fl sl Hok) as (Hw & Hbit & Hzero). destruct (fl_map_above fl Hfl) as [Hf0 Hf1].
  destruct (Z.eqb_spec (Z.land (sl_bitmap t fl) (unot 32 (iree_shr 32 (umax 32) (31 - sl)))) 0) as [E|NE].
  - specialize (Hzero E). destruct (Z.eqb_spec (Z.land (fl_bitmap t) (unot 64 (iree_shr 64 (umax 64) (63 - fl)))) 0) as [E'|NE'].
    + apply elem_of_nil_inv. intros i ([fl' sl'] & Hb & Hk & Hi)%elem_of_after_key; [|pose proof (bin_key_bound _ Hok); lia].
      pose proof Hb as [Hfl' Hsl']. unfold bin_key in Hk. simpl in *. revert Hi.
      destruct (decide (fl' = fl)) as [->|]; [rewrite Hzero by lia; apply not_elem_of_nil|].
      rewrite (empty_class t bins F Hs Hl) by (done || apply Hf0; lia). apply not_elem_of_nil.
    + destruct (Hf1 NE') as (Hfl' & Hne & Hbetween). set (fl' := wrap 8 _) in *. clearbody fl'.
      destruct (lowest_sl fl' (-1) (sl_bitmap t fl') ltac:(lia) (lo_sl_width _ _ _ Hl fl' ltac:(lia))) as (Hok' & _ & Hnb & Hlow).
      { intros i Hi. rewrite (lo_sl _ _ _ Hl) by (split; simpl; lia). by rewrite (proj2 (Z.ltb_lt (-1) i)), andb_true_r by lia. }
      { done. }
      split; [done|]. split; [done|]. apply after_key_next; [done|done|unfold bin_key; destruct Hok'; simpl in *; lia|].
      intros [fl2 sl2] Hok2 Hk. pose proof Hok2 as [? ?]. destruct Hok'. unfold bin_key in Hk. simpl in *.
      destruct (decide (fl2 = fl)) as [->|]; [apply Hzero; lia|].
      destruct (decide (fl2 = fl')) as [->|]; [apply Hlow; lia|]. apply (empty_class t bins F Hs Hl); [done|]. apply Hbetween. lia.
  - destruct (lowest_sl fl sl _ Hfl Hw Hbit NE) as (Hok' & Hlt & Hne & Hlow). split; [done|]. split; [done|].
    apply after_key_next; [done|done|unfold bin_key; simpl; lia|].
    intros [fl2 sl2] [? ?] Hk. destruct Hok'. unfold bin_key in Hk. simpl in *.
    assert (fl2 = fl) as -> by lia. apply Hlow; lia.
Qed.

(** ** Candidates *)

Definition candidate_of (i : Z) : iree_hal_memory_tlsf_candidate_t :=
  mk_candidate i (blk_flags (get_block t i))
    (if entry_count (blk_frontier (get_block t i)) =? 0 then None else Some (blk_frontier (get_block t i))).

Definition fitting (minimum : Z) (i : Z) : Prop := minimum <= blk_length (get_block t i).

#[global] Instance fitting_dec minimum i : Decision (fitting minimum i).
Proof using. apply Z_le_dec. Defined.

(** A position of the walk: the rest [l] of the bin [b]. *)
Definition position (b : Z * Z) (l : list Z) : Prop := bin_ok b ∧ ∃ pre, bins b = pre ++ l.

(** The blocks from a position on. *)
Definition walk (b : Z * Z) (l : list Z) : list Z := l ++ after_key bins (bin_key b).

(** The first fitting block of the walk from a position, with the position after it. *)
Definition found_at (minimum : Z) (b : Z * Z) (l : list Z) (c : iree_hal_memory_tlsf_candidate_t) : Prop :=
  (Forall (λ i, ¬ fitting minimum i) (walk b l) ∧ c = no_candidate) ∨
  ∃ w i b' l', position b' (i :: l') ∧ walk b l = w ++ i :: walk b' l' ∧
    Forall (λ i, ¬ fitting minimum i) w ∧ fitting minimum i ∧ c = candidate_of i.

Lemma position_member b i l :
  position b (i :: l) → i ∈ F ∧ i ≠ NONE ∧ bin_of t i = b ∧ next_free (get_block t i) = hd NONE l.
Proof using Hs Hl.
  intros (Hb & pre & E). assert (i ∈ bins b) as Hi by (rewrite E; set_solver).
  apply (lo_mem _ _ _ Hl) in Hi as [HF Eb]; [|done]. split; [done|].
  split; [by apply (valid_not_none t), (lo_valid _ _ _ Hl)|]. split; [done|].
  pose proof (lo_links _ _ _ Hl b Hb) as Hd. rewrite E in Hd. by apply dll_member in Hd as [_ ?].
Qed.

Lemma position_tail b i l : position b (i :: l) → position b l.
Proof using. intros (Hb & pre & E). split; [done|]. exists (pre ++ [i]). by rewrite <- app_assoc. Qed.

Lemma query_loop_spec minimum fuel : ∀ b l,
  position b l → (2 * length (walk b l) + (if l is [] then 1 else 0) <= fuel)%nat →
  ∃ c, query_free_block_loop fuel t minimum b.1 b.2 (hd NONE l) = Some c ∧ found_at minimum b l c.
Proof using Hs Hl.
  induction fuel as [|fuel IH]; intros b l Hp Hf; [destruct l; simpl in Hf; lia|]. cbn [query_free_block_loop].
  destruct l as [|i l]; cbn [hd].
  - rewrite Z.eqb_refl. cbn [negb]. destruct b as [fl sl]. destruct Hp as [Hb _].
    pose proof (next_bin_spec fl sl Hb) as Hn. cbn [fst snd]. destruct (tlsf_next_bin t fl sl) as [[fl' sl']|].
    + destruct Hn as (Hb' & Hne & E). pose proof (lo_head _ _ _ Hl _ Hb') as Eh. cbn [fst snd] in Eh. rewrite Eh.
      assert (walk (fl, sl) [] = walk (fl', sl') (bins (fl', sl'))) as Ew by exact E.
      unfold found_at. rewrite Ew in *. apply (IH (fl', sl')); [split; [done|by exists []]|].
      destruct (bins (fl', sl')); [done|lia].
    + exists no_candidate. split; [done|]. left. split; [|done]. unfold walk. by rewrite Hn.
  - destruct (position_member b i l Hp) as (_ & Hi & _ & En). rewrite (proj2 (Z.eqb_neq _ _) Hi). cbn [negb].
    cbv zeta. destruct (Z.leb_spec minimum (blk_length (get_block t i))) as [Hle|Hgt].
    + exists (candidate_of i). split; [done|]. right. by exists [], i, b, l.
    + rewrite En. destruct (IH b l (position_tail b i l Hp)) as (c & Ec & Hc).
      { unfold walk in *. simpl in *. destruct l; simpl in *; lia. }
      exists c. split; [done|]. assert (¬ fitting minimum i) by (unfold fitting; lia).
      destruct Hc as [[Hc ->]|(w & j & b' & l' & Hp' & Ew & Hw & Hj & ->)]; [left|right].
      * split; [|done]. by constructor.
      * exists (i :: w), j, b', l'. split; [done|]. split; [|split; [by constructor|done]].
        change (walk b (i :: l)) with (i :: walk b l). by rewrite Ew.
Qed.

(** The candidates that repeated queries visit. *)
Fixpoint candidates (fuel n : nat) (minimum after : Z) : option (list Z) :=
  match n with
  | O => None
  | S n =>
      c ← iree_hal_memory_tlsf_query_free_block fuel t minimum after;
      let i := candidate_block_index c in
      if i =? NONE then Some [] else (i ::.) <$> candidates fuel n minimum i
  end.

Lemma candidates_step minimum fuel n after b l :
  iree_hal_memory_tlsf_query_free_block fuel t minimum after =
    query_free_block_loop fuel t minimum b.1 b.2 (hd NONE l) →
  position b l → (2 * length (walk b l) < fuel)%nat → (length (walk b l) < n)%nat →
  candidates fuel n minimum after = Some (filter (fitting minimum) (walk b l)).
Proof using Hs Hl.
  revert after b l. induction n as [|n IH]; intros after b l Eq Hp Hf Hn; [lia|]. cbn [candidates].
  destruct (query_loop_spec minimum fuel b l Hp) as (c & Ec & Hc); [destruct l; lia|].
  rewrite Eq, Ec. cbn [mbind option_bind].
  destruct Hc as [[Hc ->]|(w & j & b' & l' & Hp' & Ew & Hw & Hj & ->)].
  - cbv zeta. change (candidate_block_index no_candidate) with NONE. rewrite Z.eqb_refl. f_equal. symmetry. apply elem_of_nil_inv.
    intros i [Hi1 Hi2]%list_elem_of_filter. by apply (proj1 (Forall_forall _ _) Hc i).
  - destruct (position_member b' j l' Hp') as (_ & Hne & Eb & En). simpl candidate_block_index.
    rewrite (proj2 (Z.eqb_neq _ _) Hne). rewrite Ew in *. rewrite length_app in *. simpl in *.
    rewrite (IH j b' l'); [| |by apply position_tail in Hp'|lia|lia].
    + simpl. rewrite filter_app, filter_cons_True by done. f_equal. f_equal.
      rewrite (elem_of_nil_inv (filter (fitting minimum) w)); [done|].
      intros i [Hi1 Hi2]%list_elem_of_filter. by apply (proj1 (Forall_forall _ _) Hw i).
    + unfold iree_hal_memory_tlsf_query_free_block. rewrite (proj2 (Z.eqb_neq _ _) Hne). cbv zeta.
      rewrite En. by destruct (bin_of t j) as [fl sl]; subst b'.
Qed.

Lemma walk_nodup b : bin_ok b → NoDup (walk b (bins b)).
Proof using Hl.
  intros Hb. pose proof (bin_key_bound b Hb). assert (walk b (bins b) = after_key bins (bin_key b - 1)) as ->.
  { rewrite after_key_step by lia. replace (bin_key b - 1 + 1) with (bin_key b) by lia. by rewrite bin_at_key. }
  unfold after_key. apply NoDup_bind; [| |apply NoDup_seqZ].
  - intros j1 j2 i H1%elem_of_seqZ H2%elem_of_seqZ Hi1 Hi2.
    destruct (bin_at_ok j1) as [B1 E1]; [lia|]. destruct (bin_at_ok j2) as [B2 E2]; [lia|].
    apply (lo_mem _ _ _ Hl) in Hi1 as [_ Hi1]; [|done]. apply (lo_mem _ _ _ Hl) in Hi2 as [_ Hi2]; [|done].
    rewrite <- E1, <- E2. congruence.
  - intros j Hj%elem_of_seqZ. apply (lo_nodup _ _ _ Hl). apply bin_at_ok. lia.
Qed.

Lemma elem_of_walk b i :
  bin_ok b → i ∈ walk b (bins b) ↔ i ∈ F ∧ bin_key b <= bin_key (bin_of t i).
Proof using Hl.
  intros Hb. pose proof (bin_key_bound b Hb). unfold walk. rewrite elem_of_app, elem_of_after_key by lia. split.
  - intros [[? <-]%(lo_mem _ _ _ Hl)|(b' & Hb' & Hlt & [? <-]%(lo_mem _ _ _ Hl))]; try done. split; [done|lia].
  - intros [Hi Hle]. destruct (lo_valid _ _ _ Hl i Hi) as [_ Hlen]. pose proof (bin_of_ok t i Hlen) as Hok.
    assert (i ∈ bins (bin_of t i)) as Hin by by apply (lo_mem _ _ _ Hl).
    destruct (decide (bin_of t i = b)) as [<-|Hne]; [by left|right]. exists (bin_of t i). split; [done|]. split; [|done].
    assert (bin_key b ≠ bin_key (bin_of t i)) by (intros ?; by apply Hne, bin_key_inj). lia.
Qed.

Lemma walk_length b : bin_ok b → (length (walk b (bins b)) <= size F)%nat.
Proof using Hl.
  intros Hb. rewrite <- (size_list_to_set (C := gset Z)) by by apply walk_nodup.
  apply subseteq_size. intros i Hi%elem_of_list_to_set. by apply elem_of_walk in Hi as [? _].
Qed.
End queries.

Arguments candidates : clear implicits.

(** ** Precision of the size classes *)

Lemma sl_shift_width n : 0 < n → 32 * 2 ^ sl_shift n <= Z.max n 32.
Proof.
  intros Hn. unfold sl_shift. pose proof (Z.log2_spec n Hn) as [Hlo _].
  destruct (Z.le_gt_cases 5 (Z.log2 n)) as [Hge|Hlt]; [|rewrite Z.max_l by lia; lia].
  rewrite Z.max_r by lia. change 32 with (2 ^ 5) at 1. rewrite <- Z.pow_add_r by lia.
  replace (5 + (Z.log2 n - 5)) with (Z.log2 n) by lia. lia.
Qed.

(** Lengths of one bin differ by less than the width of the bin. *)
Lemma bin_width m r :
  0 < m → in_width 64 m → 0 < r → in_width 64 r →
  bin_key (iree_hal_memory_tlsf_mapping_insert m) <= bin_key (iree_hal_memory_tlsf_mapping_insert r) →
  32 * (m - r) < Z.max r 32.
Proof.
  intros Hm Hmw Hr Hrw Hk. destruct (Z.le_gt_cases r m) as [Hle|]; [|lia].
  pose proof (mapping_insert_mono r m Hr Hle Hmw) as Hk'.
  assert (iree_hal_memory_tlsf_mapping_insert m = iree_hal_memory_tlsf_mapping_insert r) as E
    by (apply bin_key_inj; [by apply mapping_insert_ok..|lia]).
  assert (Z.log2 m = Z.log2 r) as El by (rewrite !mapping_insert_eq in E by done; congruence).
  pose proof (key_floor r m Hr Hrw Hm Hmw Hk) as Hf. pose proof (sl_shift_width r Hr).
  unfold size_floor in Hf. assert (sl_shift m = sl_shift r) as Es by (unfold sl_shift; by rewrite El). rewrite Es in Hf.
  pose proof (pow2_pos (sl_shift r) ltac:(unfold sl_shift; lia)) as Hp.
  pose proof (Z.mod_pos_bound m (2 ^ sl_shift r) Hp). lia.
Qed.

(** The search for a request of [n] bytes is sound and misses little: every length of
    a bin at or after the searched one satisfies the request, and a satisfying length
    that the search passes over is in the request's own bin and exceeds the request by
    less than 1/32 (or one byte for requests below 32). *)
Theorem mapping_search_sound_tight n m :
  0 < n → in_width 64 n → 0 < m → in_width 64 m →
  match iree_hal_memory_tlsf_mapping_search n with
  | Some bin =>
      (bin_key bin <= bin_key (iree_hal_memory_tlsf_mapping_insert m) → n <= m) ∧
      (bin_key (iree_hal_memory_tlsf_mapping_insert m) < bin_key bin → n <= m →
         iree_hal_memory_tlsf_mapping_insert m = iree_hal_memory_tlsf_mapping_insert n ∧ 32 * (m - n) < Z.max n 32)
  | None => n <= m →
      iree_hal_memory_tlsf_mapping_insert m = iree_hal_memory_tlsf_mapping_insert n ∧ 32 * (m - n) < Z.max n 32
  end.
Proof.
  intros Hn Hnw Hm Hmw. pose proof (λ H, search_complete n m Hn H Hmw) as Hc.
  assert (iree_hal_memory_tlsf_mapping_insert m = iree_hal_memory_tlsf_mapping_insert n →
    32 * (m - n) < Z.max n 32) as Hw by (intros E; apply bin_width; [done..|by rewrite E]).
  destruct (iree_hal_memory_tlsf_mapping_search n) as [bin|] eqn:E; [split|]; auto.
  intros Hk. by apply (search_sound n bin m).
Qed.

Lemma mapping_search_sound_tight_witness :
  iree_hal_memory_tlsf_mapping_search 1040 = Some (10, 1) ∧
  (bin_key (10, 1) <= bin_key (iree_hal_memory_tlsf_mapping_insert 1056) → 1040 <= 1056).
Proof.
  assert (iree_hal_memory_tlsf_mapping_search 1040 = Some (10, 1)) as E by by vm_compute. split; [done|].
  pose proof (mapping_search_sound_tight 1040 1056 ltac:(done) ltac:(done) ltac:(done) ltac:(done)) as H.
  rewrite E in H. exact (proj1 H).
Defined.

(** ** Enumeration of candidates *)

(** Repeated [iree_hal_memory_tlsf_query_free_block] calls, starting after no block and
    continuing after the last candidate, terminate and visit every free block of the
    minimum length exactly once and no other block.  With [n] free blocks, [2 n + 1]
    loop steps suffice for each query. *)
Theorem query_free_block_enumerates s minimum :
  reachable s → 0 < minimum → in_width 64 minimum →
  let t := sys_tlsf s in
  let n := Z.to_nat (free_block_count t) in
  ∃ l phys unused bins F,
    state_ok t phys unused bins F ∧
    candidates t (2 * n + 1) (n + 1) minimum NONE = Some l ∧ NoDup l ∧
    ∀ i, i ∈ l ↔ i ∈ phys ∧ seg_free (segment_at t i) = true ∧ minimum <= seg_length (segment_at t i).
Proof.
  intros (phys & unused & bins & F & Hst & _)%reachable_ok Hm Hmw. cbv zeta. destruct s as [t O]. simpl in *.
  pose proof (so_core _ _ _ _ _ Hst) as Hc. pose proof (core_lists _ _ _ _ _ _ Hc) as Hl.
  pose proof (core_storage _ _ _ _ _ _ Hc) as Hs. rewrite (lo_count _ _ _ Hl), Nat2Z.id.
  set (b := iree_hal_memory_tlsf_mapping_insert minimum). assert (bin_ok b) as Hb by by apply mapping_insert_ok.
  pose proof (walk_length t bins F Hl b Hb) as Hlen.
  exists (filter (fitting t minimum) (walk bins b (bins b))), phys, unused, bins, F. split; [done|]. split.
  - apply (candidates_step t bins F Hs Hl minimum _ _ _ b); [|split; [done|by exists []]|lia|lia].
    unfold iree_hal_memory_tlsf_query_free_block. rewrite Z.eqb_refl. fold b.
    rewrite <- (lo_head _ _ _ Hl b Hb). by destruct b.
  - split; [by apply NoDup_filter, (walk_nodup t bins F Hl)|]. intros i.
    rewrite list_elem_of_filter, (elem_of_walk t bins F Hl) by done.
    unfold fitting. change (seg_length (segment_at t i)) with (blk_length (get_block t i)).
    pose proof (core_listed _ _ _ _ _ _ Hc i) as Hin. pose proof (so_free _ _ _ _ _ Hst i) as Hfree. split.
    + intros (Hle & Hi & _). specialize (Hin Hi). split; [done|]. split; [by apply Hfree|done].
    + intros (Hi & Hf & Hle). apply Hfree in Hf; [|done]. split; [done|]. split; [done|].
      destruct (lo_valid _ _ _ Hl i Hf) as [_ Hpos]. apply mapping_insert_mono; [lia|lia|]. split; lia.
Qed.

(** ** An execution in which the head of a bin hides a longer block *)

Definition hidden_options : options_t :=
  {| opt_range_length := 2096; opt_alignment := 16; opt_initial_block_capacity := 8;
     opt_frontier_capacity := 1; opt_initial_frontier := None |}.
Definition hidden_host : iree_allocator_t := Some (λ _ _ _, Ok 0x10000).

Definition hidden_t0 : tlsf_t :=
  match iree_hal_memory_tlsf_initialize hidden_options hidden_host with
  | Ok t => t
  | Err _ => tlsf_fresh hidden_options 0 0 0
  end.

(** Blocks of 1040, 16, 1024 and 16 bytes fill the range. *)
Definition hidden_t1 : tlsf_t := (iree_hal_memory_tlsf_try_allocate hidden_t0 1040 hidden_host).2.
Definition hidden_t2 : tlsf_t := (iree_hal_memory_tlsf_try_allocate hidden_t1 16 hidden_host).2.
Definition hidden_t3 : tlsf_t := (iree_hal_memory_tlsf_try_allocate hidden_t2 1024 hidden_host).2.
Definition hidden_t4 : tlsf_t := (iree_hal_memory_tlsf_try_allocate hidden_t3 16 hidden_host).2.
(** The block of 1040 bytes is released first, the block of 1024 bytes second. *)
Definition hidden_t5 : tlsf_t := iree_hal_memory_tlsf_free hidden_t4 0 None.
Definition hidden_t6 : tlsf_t := iree_hal_memory_tlsf_free hidden_t5 6 None.

Lemma hidden_reachable_0 : reachable (mk_system hidden_t0 ∅).
Proof.
  apply reachable_init. change hidden_t0 with (install_overflow None hidden_t0).
  apply (sys_initialized hidden_options hidden_host); [by split|by vm_compute|]. intros ? ?. done.
Qed.

Lemma hidden_grant t O length offset n i flags t' :
  reachable (mk_system t O) → in_width 64 length →
  iree_hal_memory_tlsf_try_allocate t length hidden_host = (Ok (Some (mk_allocation offset n i None flags)), t') →
  reachable (mk_system t' ({[i]} ∪ O)).
Proof. intros Hr Hw E. eapply reachable_step; [exact Hr|]. by apply (step_granted t O length hidden_host _ t' Hw E). Qed.

Lemma hidden_release t O i :
  reachable (mk_system t O) → i ∈ O → reachable (mk_system (iree_hal_memory_tlsf_free t i None) (O ∖ {[i]})).
Proof. intros Hr Hi. eapply reachable_step; [exact Hr|]. by apply step_free. Qed.

Definition hidden_held : gset Z := {[5]} ∪ ({[6]} ∪ ({[7]} ∪ ({[0]} ∪ ∅))).

Lemma hidden_reachable_4 : reachable (mk_system hidden_t4 hidden_held).
Proof.
  apply (hidden_grant hidden_t3 _ 16 2080 16 5 2); [|done|by vm_compute].
  apply (hidden_grant hidden_t2 _ 1024 1056 1024 6 0); [|done|by vm_compute].
  apply (hidden_grant hidden_t1 _ 16 1040 16 7 0); [|done|by vm_compute].
  apply (hidden_grant hidden_t0 _ 1040 0 1040 0 0); [|done|by vm_compute].
  apply hidden_reachable_0.
Qed.

Lemma hidden_reachable_6 : reachable (mk_system hidden_t6 (hidden_held ∖ {[0]} ∖ {[6]})).
Proof.
  apply (hidden_release hidden_t5); [|by vm_compute].
  apply (hidden_release hidden_t4); [apply hidden_reachable_4|by vm_compute].
Qed.

Lemma query_free_block_enumerates_witness :
  ∃ l phys unused bins F,
    state_ok hidden_t6 phys unused bins F ∧
    candidates hidden_t6 (2 * Z.to_nat (free_block_count hidden_t6) + 1)
      (Z.to_nat (free_block_count hidden_t6) + 1) 1030 NONE = Some l ∧ NoDup l ∧
    ∀ i, i ∈ l ↔ i ∈ phys ∧ seg_free (segment_at hidden_t6 i) = true ∧ 1030 <= seg_length (segment_at hidden_t6 i).
Proof.
  exact (query_free_block_enumerates (mk_system hidden_t6 (hidden_held ∖ {[0]} ∖ {[6]})) 1030 hidden_reachable_6
    ltac:(done) ltac:(done)).
Defined.


(** ** The largest block *)

Section largest.
Context (t : tlsf_t) (bins : Z * Z → list Z) (F : gset Z).
Context (Hs : storage_ok t) (Hl : lists_ok t bins F).

(** The occupied bins are marked in both bitmaps. *)
Lemma marked i :
  i ∈ F → 0 <= (bin_of t i).1 <= Z.log2 (fl_bitmap t) ∧ 0 < fl_bitmap t ∧
  0 < sl_bitmap t (bin_of t i).1 ∧ 0 <= (bin_of t i).2 <= Z.log2 (sl_bitmap t (bin_of t i).1).
Proof using Hl.
  intros Hi. destruct (lo_valid _ _ _ Hl i Hi) as [_ Hlen]. pose proof (bin_of_ok t i Hlen) as Hok.
  assert (i ∈ bins (bin_of t i)) as Hin by by apply (lo_mem _ _ _ Hl).
  destruct (bin_of t i) as [fl sl]. pose proof Hok as [Hfl Hsl]. simpl in *.
  assert (Z.testbit (sl_bitmap t fl) sl = true) as Hb.
  { rewrite (lo_sl _ _ _ Hl) by done. apply bool_decide_eq_true. intros E. rewrite E in Hin. by apply not_elem_of_nil in Hin. }
  assert (sl_bitmap t fl ≠ 0) as Hne by (intros E; by rewrite E, Z.bits_0 in Hb).
  assert (Z.testbit (fl_bitmap t) fl = true) as Hb' by (rewrite (lo_fl _ _ _ Hl) by done; by apply bool_decide_eq_true).
  destruct (lo_sl_width _ _ _ Hl fl Hfl), (lo_fl_width _ _ _ Hl).
  assert (∀ n k, 0 <= n → 0 <= k → Z.testbit n k = true → 0 < n ∧ k <= Z.log2 n) as Hlog.
  { intros n k Hn Hk Ht. assert (n ≠ 0) by (intros ->; by rewrite Z.bits_0 in Ht). split; [lia|].
    destruct (Z.le_gt_cases k (Z.log2 n)); [done|]. by rewrite Z.bits_above_log2 in Ht by lia. }
  destruct (Hlog (fl_bitmap t) fl), (Hlog (sl_bitmap t fl) sl); lia || done.
Qed.

(** The answer is the head of the last occupied bin. *)
Lemma largest_spec :
  (F = ∅ ∧ iree_hal_memory_tlsf_largest_free_block t = 0) ∨
  ∃ i, i ∈ F ∧ iree_hal_memory_tlsf_largest_free_block t = blk_length (get_block t i) ∧
    ∀ j, j ∈ F → bin_key (bin_of t j) <= bin_key (bin_of t i).
Proof using Hs Hl.
  unfold iree_hal_memory_tlsf_largest_free_block. destruct (Z.eqb_spec (fl_bitmap t) 0) as [E|NE].
  - left. split; [|done]. apply leibniz_equiv, elem_of_equiv_empty. intros j Hj%marked. lia.
  - right. destruct (lo_fl_width _ _ _ Hl). assert (0 < fl_bitmap t) as Hpos by lia. cbv zeta. rewrite clz64_log2 by done.
    set (fl := Z.log2 (fl_bitmap t)).
    assert (0 <= fl < 64) as Hfl by (apply log2_bound; [lia|by split]).
    assert (sl_bitmap t fl ≠ 0) as Hne.
    { pose proof (Z.bit_log2 (fl_bitmap t) Hpos) as Hb. fold fl in Hb. rewrite (lo_fl _ _ _ Hl) in Hb by done.
      by apply bool_decide_eq_true in Hb. }
    pose proof (lo_sl_width _ _ _ Hl fl Hfl) as Hw. assert (0 < sl_bitmap t fl) as Hpos' by (destruct Hw; lia).
    rewrite clz32_log2 by done. set (sl := Z.log2 (sl_bitmap t fl)).
    assert (0 <= sl < 32) as Hsl by (apply log2_bound; [lia|done]).
    assert (bins (fl, sl) ≠ []) as Hnb.
    { pose proof (Z.bit_log2 (sl_bitmap t fl) Hpos') as Hb. fold sl in Hb. rewrite (lo_sl _ _ _ Hl) in Hb by done.
      by apply bool_decide_eq_true in Hb. }
    destruct (head_listed t bins F Hs Hl (fl, sl) ltac:(done) Hnb) as (HF & Eb & _). simpl in HF, Eb.
    exists (free_list_head t fl sl). split; [done|]. split; [done|]. rewrite Eb.
    intros j Hj. destruct (marked j Hj) as (H1 & _ & _ & H2). unfold bin_key. cbn [fst snd]. fold fl in H1.
    destruct (decide ((bin_of t j).1 = fl)) as [Ej|]; [rewrite Ej in *; fold sl in H2; lia|].
    destruct (lo_valid _ _ _ Hl j Hj) as [_ Hlen]. pose proof (bin_of_ok t j Hlen) as [_ ?]. lia.
Qed.
End largest.

(** [iree_hal_memory_tlsf_largest_free_block] returns 0 exactly when nothing is free,
    and otherwise the length of a free block that no other free block exceeds by 1/32
    (or by a byte below 32). *)
Theorem largest_free_block_estimate t ss :
  represents t ss →
  let largest := iree_hal_memory_tlsf_largest_free_block t in
  (largest = 0 ↔ ∀ s, s ∈ ss → seg_free s = false) ∧
  (largest ≠ 0 → ∃ s, s ∈ ss ∧ seg_free s = true ∧ seg_length s = largest) ∧
  ∀ s, s ∈ ss → seg_free s = true → 32 * (seg_length s - largest) < Z.max largest 32.
Proof.
  intros (phys & unused & bins & F & Hst & <-) largest. subst largest. pose proof (so_core _ _ _ _ _ Hst) as Hc.
  pose proof (core_lists _ _ _ _ _ _ Hc) as Hl. pose proof (core_storage _ _ _ _ _ _ Hc) as Hs.
  pose proof (so_free _ _ _ _ _ Hst) as Hfree. unfold segs.
  destruct (largest_spec t bins F Hs Hl) as [[-> E]|(i & Hi & E & Hmax)]; rewrite E.
  - assert (∀ s, s ∈ segment_at t <$> phys → seg_free s = false) as Hnone.
    { intros s (j & -> & Hj)%list_elem_of_fmap. apply not_true_iff_false. intros Hf. apply Hfree in Hf; [|done]. set_solver. }
    split; [done|]. split; [done|]. intros s Hs' Hf. rewrite Hnone in Hf by done. done.
  - pose proof (core_listed _ _ _ _ _ _ Hc i Hi) as Hin. destruct (lo_valid _ _ _ Hl i Hi) as [_ Hlen].
    assert (segment_at t i ∈ segment_at t <$> phys) as Hsi by (by apply list_elem_of_fmap_2).
    assert (seg_free (segment_at t i) = true) as Hfi by by apply Hfree.
    split; [split; [lia|intros Hn; specialize (Hn _ Hsi); congruence]|]. split; [intros _; by exists (segment_at t i)|].
    intros s (j & -> & Hj)%list_elem_of_fmap Hf. apply Hfree in Hf; [|done].
    destruct (lo_valid _ _ _ Hl j Hf) as [_ Hlj]. change (seg_length (segment_at t j)) with (blk_length (get_block t j)).
    apply bin_width; [lia|split; lia|lia|split; lia|by apply Hmax].
Qed.

Lemma largest_free_block_estimate_witness :
  ∃ ss, represents hidden_t6 ss ∧
    ∀ s, s ∈ ss → seg_free s = true → 32 * (seg_length s - 1024) < Z.max 1024 32.
Proof.
  destruct (reachable_represents _ hidden_reachable_6) as [ss Hss]. simpl in Hss. exists ss. split; [done|].
  assert (iree_hal_memory_tlsf_largest_free_block hidden_t6 = 1024) as <- by by vm_compute.
  exact (proj2 (proj2 (largest_free_block_estimate hidden_t6 ss Hss))).
Defined.

(** ** Initialization *)

(** [iree_hal_memory_tlsf_initialize] succeeds exactly on the documented options when
    the host allocator provides the block storage, and then the allocator manages the
    range, rounded down to the alignment, as one free block with the initial frontier;
    it fails otherwise. *)
Theorem initialize_exact o host_allocator :
  options_typed o →
  match iree_hal_memory_tlsf_initialize o host_allocator with
  | Ok t =>
      options_accepted o ∧ alignment (config t) = effective_alignment o ∧
      range_length (config t) = effective_range o ∧ frontier_capacity (config t) = effective_capacity o ∧
      opt_initial_block_capacity o <= block_capacity t ∧
      represents t [Segment 0 (effective_range o) true false
        (match opt_initial_frontier o with Some f => live f | None => [] end)]
  | Err code => ¬ options_accepted o ∨
      ∃ n, tlsf_initial_capacity (opt_initial_block_capacity o) = Ok n ∧
        iree_allocator_malloc_array host_allocator n (48 + 16 * effective_capacity o) = Err code
  end.
Proof.
  intros Ho. pose proof (initialize_ok o host_allocator Ho) as Hi.
  destruct (iree_hal_memory_tlsf_initialize o host_allocator) as [t|code]; [|done].
  destruct Hi as (Ha & (unused & bins & Hst) & E1 & E2 & E3 & _ & _ & E4 & Es).
  split_and!; try done. by exists [0], unused, bins, {[0]}.
Qed.

Lemma initialize_exact_witness :
  represents hidden_t0 [Segment 0 2096 true false []].
Proof.
  pose proof (initialize_exact hidden_options hidden_host ltac:(by split)) as H.
  assert (iree_hal_memory_tlsf_initialize hidden_options hidden_host = Ok hidden_t0) as E by by vm_compute.
  rewrite E in H. exact (proj2 (proj2 (proj2 (proj2 (proj2 H))))).
Defined.

(** ** Block storage *)

(** In every reachable state the 33 entries of [block_segments] suffice, and every
    handle below the capacity addresses a slot of a published segment that no other
    handle addresses. *)
Theorem handle_storage_sound s i :
  reachable s → valid (sys_tlsf s) i →
  let t := sys_tlsf s in
  (length (block_segments t) <= 33)%nat ∧ block_capacity t <= UINT32_MAX ∧
  (∃ seg, block_segments t !! Z.to_nat (iree_hal_memory_tlsf_block_at t i).1 = Some seg ∧
     0 <= (iree_hal_memory_tlsf_block_at t i).2 < Z.of_nat (length seg)) ∧
  ∀ j, valid t j → iree_hal_memory_tlsf_block_at t i = iree_hal_memory_tlsf_block_at t j → i = j.
Proof.
  intros (phys & unused & bins & F & Hst & _)%reachable_ok Hi. cbv zeta.
  pose proof (core_storage _ _ _ _ _ _ (so_core _ _ _ _ _ Hst)) as Hs.
  split; [destruct Hs as [k ? ? ? ? ? ?|? ? ? E ?]; [lia|rewrite E; simpl; lia]|].
  split; [by apply capacity_bound|]. split; [|intros j Hj; by apply block_at_inj].
  destruct (block_at_slot _ i Hs Hi) as (_ & H0 & seg & Hseg & Hlt). exists seg. split; [done|lia].
Qed.

Lemma handle_storage_sound_witness :
  (length (block_segments hidden_t6) <= 33)%nat ∧ block_capacity hidden_t6 <= UINT32_MAX.
Proof.
  destruct (handle_storage_sound (mk_system hidden_t6 (hidden_held ∖ {[0]} ∖ {[6]})) 5 hidden_reachable_6
    ltac:(by vm_compute)) as (H1 & H2 & _).
  split; [exact H1|exact H2].
Defined.

(** Publishing prepared block storage either rejects a stale preparation without any
    change, or doubles the capacity (up to the handle limit) without moving a handle and
    without changing the segments. *)
Theorem apply_growth_publishes t growth ss :
  prepared t growth → represents t ss →
  let '(published, t', growth') := iree_hal_memory_tlsf_apply_growth t growth in
  published = bool_decide (growth_first_block growth = block_capacity t) ∧ represents t' ss ∧
  if published then
    block_capacity t' = Z.min (2 * block_capacity t) UINT32_MAX ∧
    ∀ i, iree_hal_memory_tlsf_block_at t' i = iree_hal_memory_tlsf_block_at t i
  else t' = t ∧ growth' = growth.
Proof.
  intros Hp (phys & unused & bins & F & Hst & <-).
  destruct (prepared_growth _ phys unused bins F growth Hst Hp) as [[Hne ->]|(E & Hpos & g & ->)].
  - split; [by rewrite bool_decide_eq_false_2|]. split; [by exists phys, unused, bins, F|done].
  - split; [by rewrite bool_decide_eq_true_2|].
    destruct (grow_state_ok _ phys unused bins F Hst Hpos) as (u' & _ & Hst' & Hs).
    split; [exists phys, u', bins, F; split; [done|by apply segs_ext]|]. split; [|done].
    pose proof (capacity_bound _ (core_storage _ _ _ _ _ _ (so_core _ _ _ _ _ Hst))).
    change (block_capacity (grown_state t)) with (block_capacity t +
      Z.min (block_capacity t) (UINT32_MAX - block_capacity t)). lia.
Qed.

Definition hidden_growth : iree_hal_memory_tlsf_growth_t := mk_growth (growth_nodes 1 8 8) 64 8 8.

Lemma apply_growth_publishes_witness :
  ∃ ss, let '(published, t', _) := iree_hal_memory_tlsf_apply_growth hidden_t6 hidden_growth in
    published = true ∧ represents t' ss.
Proof.
  destruct (reachable_represents _ hidden_reachable_6) as [ss Hss]. exists ss.
  assert (prepared hidden_t6 hidden_growth) as Hp by (exists 8, hidden_host; by vm_compute).
  pose proof (apply_growth_publishes hidden_t6 hidden_growth ss Hp Hss) as H.
  destruct (iree_hal_memory_tlsf_apply_growth hidden_t6 hidden_growth) as [[published t'] g].
  destruct H as (Hpub & Hr & _). split; [|exact Hr]. rewrite Hpub. by vm_compute.
Defined.
