(* ===== verification/FixedBlock.v ===== *)
(** * The fixed-block allocator

    [iree/hal/memory/fixed_block_allocator.h] and [.c]: every operation run by one thread
    at a time.  Atomic words are plain fields here; [FixedBlockThreads] interleaves the
    atomic accesses of the acquire and release paths.  The per-block metadata is a list of
    records in place of stride arithmetic over trailing storage. *)

From S2P Require Import Prelude BaseMath BitWords Allocator Frontier Tlsf.
From stdpp Require Import base numbers list list_numbers.

Local Open Scope Z_scope.
Local Open Scope machine_scope.

(** ** Data *)

Definition IREE_HAL_MEMORY_FIXED_BLOCK_ALLOCATOR_MAX_BLOCKS : Z := 4096.
Definition IREE_HAL_MEMORY_FIXED_BLOCK_ALLOCATOR_DEFAULT_FRONTIER_CAPACITY : Z := 4.
Definition IREE_HAL_MEMORY_FIXED_BLOCK_ALLOCATOR_BITMAP_WORDS : Z := 64.
Definition IREE_HAL_MEMORY_FIXED_BLOCK_ALLOCATOR_BLOCK_FLAG_NONE : Z := 0.
Definition IREE_HAL_MEMORY_FIXED_BLOCK_ALLOCATOR_BLOCK_FLAG_TAINTED : Z := 1.

Record iree_hal_memory_fixed_block_allocator_block_t := mk_fixed_block {
  fb_flags : Z;
  fb_generation : Z;
  fb_frontier : iree_async_frontier_t;
}.
Abbreviation fixed_block := iree_hal_memory_fixed_block_allocator_block_t.

#[export] Instance fixed_block_inhabited : Inhabited fixed_block :=
  populate (mk_fixed_block 0 0 (zero_frontier 0)).

Record iree_hal_memory_fixed_block_allocator_options_t := mk_fixed_options {
  fo_block_size : Z;
  fo_block_count : Z;
  fo_frontier_capacity : Z;
  fo_initial_frontier : option iree_async_frontier_t;
}.

(** [death_frontier] is a copy of the frontier that the source's pointer refers to. *)
Record iree_hal_memory_fixed_block_allocator_allocation_t := mk_fixed_allocation {
  fa_offset : Z;
  fa_block_index : Z;
  fa_death_frontier : option iree_async_frontier_t;
  fa_block_flags : Z;
}.
Abbreviation fixed_allocation := iree_hal_memory_fixed_block_allocator_allocation_t.

Record iree_hal_memory_fixed_block_allocator_stats_t := mk_fixed_stats {
  fs_block_count : Z;
  fs_allocation_count : Z;
}.

(** The instance; [fp_blocks] is the metadata behind [block_storage]. *)
Record iree_hal_memory_fixed_block_allocator_t := mk_pool {
  fp_block_size : Z;
  fp_block_count : Z;
  fp_frontier_capacity : Z;
  fp_word_count : Z;
  fp_block_stride : Z;
  fp_frontier_offset : Z;
  fp_generation : Z;
  fp_initial_frontier : iree_async_frontier_t;
  fp_returned_bitmap : list Z;
  fp_alloc_hint_word : Z;
  fp_allocation_count : Z;
  fp_bitmap : list Z;
  fp_blocks : list fixed_block;
}.
Abbreviation pool_t := iree_hal_memory_fixed_block_allocator_t.

Definition set_generation v (p : pool_t) : pool_t :=
  mk_pool (fp_block_size p) (fp_block_count p) (fp_frontier_capacity p) (fp_word_count p) (fp_block_stride p)
    (fp_frontier_offset p) v (fp_initial_frontier p) (fp_returned_bitmap p) (fp_alloc_hint_word p)
    (fp_allocation_count p) (fp_bitmap p) (fp_blocks p).
Definition set_initial_frontier v (p : pool_t) : pool_t :=
  mk_pool (fp_block_size p) (fp_block_count p) (fp_frontier_capacity p) (fp_word_count p) (fp_block_stride p)
    (fp_frontier_offset p) (fp_generation p) v (fp_returned_bitmap p) (fp_alloc_hint_word p)
    (fp_allocation_count p) (fp_bitmap p) (fp_blocks p).
Definition set_returned_bitmap v (p : pool_t) : pool_t :=
  mk_pool (fp_block_size p) (fp_block_count p) (fp_frontier_capacity p) (fp_word_count p) (fp_block_stride p)
    (fp_frontier_offset p) (fp_generation p) (fp_initial_frontier p) v (fp_alloc_hint_word p)
    (fp_allocation_count p) (fp_bitmap p) (fp_blocks p).
Definition set_alloc_hint_word v (p : pool_t) : pool_t :=
  mk_pool (fp_block_size p) (fp_block_count p) (fp_frontier_capacity p) (fp_word_count p) (fp_block_stride p)
    (fp_frontier_offset p) (fp_generation p) (fp_initial_frontier p) (fp_returned_bitmap p) v
    (fp_allocation_count p) (fp_bitmap p) (fp_blocks p).
Definition set_fixed_count v (p : pool_t) : pool_t :=
  mk_pool (fp_block_size p) (fp_block_count p) (fp_frontier_capacity p) (fp_word_count p) (fp_block_stride p)
    (fp_frontier_offset p) (fp_generation p) (fp_initial_frontier p) (fp_returned_bitmap p)
    (fp_alloc_hint_word p) v (fp_bitmap p) (fp_blocks p).
Definition set_bitmap v (p : pool_t) : pool_t :=
  mk_pool (fp_block_size p) (fp_block_count p) (fp_frontier_capacity p) (fp_word_count p) (fp_block_stride p)
    (fp_frontier_offset p) (fp_generation p) (fp_initial_frontier p) (fp_returned_bitmap p)
    (fp_alloc_hint_word p) (fp_allocation_count p) v (fp_blocks p).
Definition set_blocks v (p : pool_t) : pool_t :=
  mk_pool (fp_block_size p) (fp_block_count p) (fp_frontier_capacity p) (fp_word_count p) (fp_block_stride p)
    (fp_frontier_offset p) (fp_generation p) (fp_initial_frontier p) (fp_returned_bitmap p)
    (fp_alloc_hint_word p) (fp_allocation_count p) (fp_bitmap p) v.

(** [iree_atomic_fetch_or] and [iree_atomic_fetch_and] on a word. *)
Definition fetch_or (words : list Z) (i mask : Z) : list Z := alter_word (λ w, Z.lor w mask) i words.
Definition fetch_and (words : list Z) (i mask : Z) : list Z := alter_word (λ w, Z.land w mask) i words.

Definition iree_hal_memory_fixed_block_allocator_block_at (p : pool_t) (block_index : Z) : fixed_block :=
  fp_blocks p !!! Z.to_nat block_index.
Abbreviation fixed_block_at := iree_hal_memory_fixed_block_allocator_block_at.

Definition update_fixed_block (block_index : Z) (f : fixed_block → fixed_block) (p : pool_t) : pool_t :=
  set_blocks (alter f (Z.to_nat block_index) (fp_blocks p)) p.
Definition set_fb_flags v (b : fixed_block) : fixed_block := mk_fixed_block v (fb_generation b) (fb_frontier b).
Definition set_fb_generation v (b : fixed_block) : fixed_block := mk_fixed_block (fb_flags b) v (fb_frontier b).
Definition set_fb_frontier v (b : fixed_block) : fixed_block := mk_fixed_block (fb_flags b) (fb_generation b) v.

(** ** Blocks *)

Definition iree_hal_memory_fixed_block_allocator_read_block (p : pool_t) (block_index : Z) : fixed_allocation :=
  let block := fixed_block_at p block_index in
  let returned := fb_generation block =? fp_generation p in
  let frontier := if returned then fb_frontier block else fp_initial_frontier p in
  mk_fixed_allocation (block_index *64 fp_block_size p) block_index
    (if entry_count frontier =? 0 then None else Some frontier)
    (if returned then fb_flags block else 0).

Definition iree_hal_memory_fixed_block_allocator_release_bit (block_index : Z) (p : pool_t) : pool_t :=
  let word_index := wrap 16 (block_index / 64) in
  let bit_mask := ushl 64 1 (block_index mod 64) in
  let p := set_bitmap (fetch_and (fp_bitmap p) word_index (unot 64 bit_mask)) p in
  set_fixed_count (usub 32 (fp_allocation_count p) 1) p.

(** ** Reset *)

Definition iree_hal_memory_fixed_block_allocator_reset (p : pool_t)
    (initial_frontier : option iree_async_frontier_t) : pool_t :=
  let p := set_generation (uadd 32 (fp_generation p) 1) p in
  let p :=
    if fp_generation p =? 0
    then set_generation 1 (set_blocks (set_fb_generation 0 <$> fp_blocks p) p)
    else p in
  let p :=
    set_initial_frontier
      (match initial_frontier with
       | Some f => copy_frontier f (fp_initial_frontier p)
       | None => iree_async_frontier_initialize (fp_initial_frontier p) 0
       end) p in
  let p := set_returned_bitmap ((λ _, 0) <$> fp_returned_bitmap p) p in
  set_alloc_hint_word 0 p.

(** ** Creation *)

(** The option checks, in order; [Ok] is the frontier capacity with its default. *)
Definition fixed_validate_options (o : iree_hal_memory_fixed_block_allocator_options_t) : status_or Z :=
  if fo_block_size o =? 0 then Err IREE_STATUS_INVALID_ARGUMENT
  else if fo_block_count o =? 0 then Err IREE_STATUS_INVALID_ARGUMENT
  else if IREE_HAL_MEMORY_FIXED_BLOCK_ALLOCATOR_MAX_BLOCKS <? fo_block_count o then Err IREE_STATUS_INVALID_ARGUMENT
  else
    match iree_device_size_checked_mul (fo_block_count o) (fo_block_size o) with
    | None => Err IREE_STATUS_INVALID_ARGUMENT
    | Some _ =>
        let capacity :=
          if fo_frontier_capacity o =? 0
          then IREE_HAL_MEMORY_FIXED_BLOCK_ALLOCATOR_DEFAULT_FRONTIER_CAPACITY else fo_frontier_capacity o in
        match fo_initial_frontier o with
        | Some f => if capacity <? entry_count f then Err IREE_STATUS_OUT_OF_RANGE else Ok capacity
        | None => Ok capacity
        end
    end.

(** [(frontier_offset, block_stride)] behind an 8-byte block header. *)
Definition fixed_block_layout (capacity : Z) : status_or (Z * Z) :=
  match iree_struct_layout_calculate 8
    [ {| field_count0 := 1; field_count1 := 1; field_element_size := 8; field_alignment := 8 |};
      {| field_count0 := capacity; field_count1 := 1; field_element_size := 16; field_alignment := 0 |} ] with
  | Ok (offsets, total) => Ok (hd 0 offsets, total)
  | Err code => Err code
  end.

(** [sizeof(iree_hal_memory_fixed_block_allocator_t)] with 64-byte cache lines: the
    read-only line, a line each for the hint and the count, and the bitmap. *)
Definition fixed_pool_size : Z := 704.

(** The total size of the single allocation. *)
Definition fixed_total_size (block_count block_stride capacity word_count : Z) : status_or Z :=
  match iree_struct_layout_calculate fixed_pool_size
    [ {| field_count0 := block_count; field_count1 := block_stride; field_element_size := 1; field_alignment := 0 |};
      {| field_count0 := 1; field_count1 := 1; field_element_size := 8; field_alignment := 8 |};
      {| field_count0 := capacity; field_count1 := 1; field_element_size := 16; field_alignment := 0 |};
      {| field_count0 := word_count; field_count1 := 1; field_element_size := 8; field_alignment := 0 |} ] with
  | Ok (_, total) => Ok total
  | Err code => Err code
  end.

(** The bitmap words with the bits past the last block set. *)
Definition fixed_initial_bitmap (block_count word_count : Z) : list Z :=
  let words := replicate (Z.to_nat IREE_HAL_MEMORY_FIXED_BLOCK_ALLOCATOR_BITMAP_WORDS) 0 in
  let blocks_in_last_word := block_count mod 64 in
  if blocks_in_last_word =? 0 then words
  else <[Z.to_nat (word_count - 1) := unot 64 (ushl 64 1 blocks_in_last_word -64 1)]> words.

Definition iree_hal_memory_fixed_block_allocator_allocate
    (options : iree_hal_memory_fixed_block_allocator_options_t) (host_allocator : iree_allocator_t) : status_or pool_t :=
  capacity ← fixed_validate_options options;
  '(frontier_offset, block_stride) ← fixed_block_layout capacity;
  let word_count := wrap 16 (uadd 32 (fo_block_count options) 63 / 64) in
  total_size ← fixed_total_size (fo_block_count options) block_stride capacity word_count;
  _ ← iree_allocator_malloc_aligned host_allocator total_size 64 0 (λ _, 0);
  let pool :=
    mk_pool (fo_block_size options) (fo_block_count options) capacity word_count block_stride frontier_offset
      0 (zero_frontier capacity) (replicate (Z.to_nat word_count) 0) 0 0
      (fixed_initial_bitmap (fo_block_count options) word_count)
      (replicate (Z.to_nat (fo_block_count options)) (mk_fixed_block 0 0 (zero_frontier capacity))) in
  Ok (iree_hal_memory_fixed_block_allocator_reset pool (fo_initial_frontier options)).

(** ** Histories of a free pool *)

(** [if (!merge(out, capacity, source)) { if (!overflow) return false; overflow(...); }]:
    [None] when the fuel of the merge runs out, otherwise the continuation flag, the
    accumulated frontier and the inputs captured by the overflow handler. *)
Definition merge_history (capacity : Z) (overflow : option overflow_handler) (source : iree_async_frontier_t)
    (acc : iree_async_frontier_t * list (iree_async_frontier_t * iree_async_frontier_t))
    : option (bool * (iree_async_frontier_t * list (iree_async_frontier_t * iree_async_frontier_t))) :=
  let '(out, captures) := acc in
  '(merged, out') ← iree_async_frontier_merge out capacity source;
  if (merged : bool) then Some (true, (out', captures))
  else
    match overflow with
    | None => Some (false, (out', captures))
    | Some handler => Some (true, (handler captures out' source, (out', source) :: captures))
    end.

(** The blocks of one word whose bits are set in [returned]. *)
Fixpoint merge_returned (fuel : nat) (p : pool_t) (capacity : Z) (overflow : option overflow_handler)
    (word_index returned : Z) acc :=
  if returned =? 0 then Some (true, acc)
  else
    match fuel with
    | O => None
    | S fuel =>
        let block_index := uadd 32 (word_index * 64) (iree_math_count_trailing_zeros_u64 returned) in
        let returned := Z.land returned (returned -64 1) in
        let block := fixed_block_at p block_index in
        if negb (fb_flags block =? 0) then Some (false, acc)
        else
          '(continue, acc) ← merge_history capacity overflow (fb_frontier block) acc;
          if (continue : bool) then merge_returned fuel p capacity overflow word_index returned acc
          else Some (false, acc)
    end.

(** The words from [word_index] on, and whether any valid block was untouched. *)
Fixpoint merge_words (n : nat) (p : pool_t) (capacity : Z) (overflow : option overflow_handler)
    (word_index : Z) (has_untouched_blocks : bool) acc :=
  match n with
  | O => Some (true, has_untouched_blocks, acc)
  | S n =>
      let returned := word_at (fp_returned_bitmap p) word_index in
      let valid :=
        if word_index + 1 =? fp_word_count p
        then Z.shiftr (umax 64) (Z.land (usub 32 0 (fp_block_count p)) 63) else umax 64 in
      let has_untouched_blocks := has_untouched_blocks || negb (returned =? valid) in
      '(continue, acc) ← merge_returned 64 p capacity overflow word_index returned acc;
      if (continue : bool) then merge_words n p capacity overflow (word_index + 1) has_untouched_blocks acc
      else Some (false, has_untouched_blocks, acc)
  end.

Definition iree_hal_memory_fixed_block_allocator_merge_free_frontiers (p : pool_t) (capacity : Z)
    (overflow : option overflow_handler) (out_frontier : iree_async_frontier_t)
    : option (bool * iree_async_frontier_t) :=
  let acc := (iree_async_frontier_initialize out_frontier 0, []) in
  '(continue, has_untouched_blocks, acc) ←
    merge_words (Z.to_nat (fp_word_count p)) p capacity overflow 0 false acc;
  if negb continue then Some (false, acc.1)
  else if (has_untouched_blocks : bool) then
    '(merged, acc) ← merge_history capacity overflow (fp_initial_frontier p) acc;
    Some (merged, acc.1)
  else Some (true, acc.1).

(** ** Candidates *)

Fixpoint query_words (n : nat) (p : pool_t) (word_index candidate_mask : Z) : option fixed_allocation :=
  match n with
  | O => None
  | S n =>
      let available := Z.land (unot 64 (word_at (fp_bitmap p) word_index)) candidate_mask in
      if negb (available =? 0) then
        Some (iree_hal_memory_fixed_block_allocator_read_block p
                (uadd 32 (word_index * 64) (iree_math_count_trailing_zeros_u64 available)))
      else query_words n p (word_index + 1) (umax 64)
  end.

(** [None] is [false]. *)
Definition iree_hal_memory_fixed_block_allocator_query_candidate (p : pool_t) (start_block_index : Z)
    : option fixed_allocation :=
  let word_index := start_block_index / 64 in
  query_words (Z.to_nat (fp_word_count p - word_index)) p word_index (ushl 64 (umax 64) (start_block_index mod 64)).

Definition iree_hal_memory_fixed_block_allocator_candidate_is_current (p : pool_t)
    (candidate : fixed_allocation) : bool :=
  let block_index := fa_block_index candidate in
  let bitmap := word_at (fp_bitmap p) (block_index / 64) in
  if negb (Z.land bitmap (ushl 64 1 (block_index mod 64)) =? 0) then false
  else
    let current := iree_hal_memory_fixed_block_allocator_read_block p block_index in
    if negb (fa_block_flags current =? fa_block_flags candidate) then false
    else
      match fa_death_frontier current, fa_death_frontier candidate with
      | Some current_frontier, Some snapshot =>
          (entry_count current_frontier =? entry_count snapshot) &&
          bool_decide (take (Z.to_nat (entry_count snapshot)) (entries current_frontier) =
                       take (Z.to_nat (entry_count snapshot)) (entries snapshot))
      | None, None => true
      | _, _ => false
      end.

Definition iree_hal_memory_fixed_block_allocator_acquire_candidate (p : pool_t) (block_index : Z)
    : fixed_allocation * pool_t :=
  let word_index := block_index / 64 in
  let bit_mask := ushl 64 1 (block_index mod 64) in
  let p := set_bitmap (fetch_or (fp_bitmap p) word_index bit_mask) p in
  let p := set_alloc_hint_word word_index p in
  let p := set_fixed_count (uadd 32 (fp_allocation_count p) 1) p in
  (iree_hal_memory_fixed_block_allocator_read_block p block_index, p).

(** ** Acquire *)

(** The inner loop on one word: the claimed bit, or no free bit. *)
Fixpoint claim_bit (fuel : nat) (word_index word : Z) (p : pool_t) : option (option Z * pool_t) :=
  if word =? umax 64 then Some (None, p)
  else
    match fuel with
    | O => None
    | S fuel =>
        let bit := iree_math_count_trailing_zeros_u64 (unot 64 word) in
        let bit_mask := ushl 64 1 bit in
        let old := word_at (fp_bitmap p) word_index in
        let p := set_bitmap (fetch_or (fp_bitmap p) word_index bit_mask) p in
        if Z.land old bit_mask =? 0 then Some (Some bit, p)
        else claim_bit fuel word_index (Z.lor old bit_mask) p
    end.

(** The outer loop for the remaining passes. *)
Fixpoint acquire_passes (passes : nat) (word_index : Z) (p : pool_t) : option (option fixed_allocation * pool_t) :=
  match passes with
  | O => Some (None, p)
  | S passes =>
      '(bit, p) ← claim_bit 65 word_index (word_at (fp_bitmap p) word_index) p;
      match bit with
      | Some bit =>
          let block_index := uadd 32 (word_index * 64) bit in
          let p := set_alloc_hint_word word_index p in
          let allocation := iree_hal_memory_fixed_block_allocator_read_block p block_index in
          let p := set_fixed_count (uadd 32 (fp_allocation_count p) 1) p in
          Some (Some allocation, p)
      | None =>
          let word_index := uadd 16 word_index 1 in
          acquire_passes passes (if fp_word_count p <=? word_index then 0 else word_index) p
      end
  end.

(** The outer option is the fuel of [claim_bit]; the inner one is [ACQUIRE_EXHAUSTED]. *)
Definition iree_hal_memory_fixed_block_allocator_try_acquire (p : pool_t) : option (option fixed_allocation * pool_t) :=
  let word_count := fp_word_count p in
  let start_word := wrap 16 (fp_alloc_hint_word p) in
  let start_word := if word_count <=? start_word then 0 else start_word in
  acquire_passes (Z.to_nat word_count) start_word p.

Definition iree_hal_memory_fixed_block_allocator_acquire (p : pool_t) : option (status_or fixed_allocation * pool_t) :=
  '(result, p) ← iree_hal_memory_fixed_block_allocator_try_acquire p;
  Some (match result with Some a => Ok a | None => Err IREE_STATUS_RESOURCE_EXHAUSTED end, p).

(** ** Release *)

(** The frontier and flags left by a release. *)
Definition fixed_replace_frontier (capacity : Z) (death_frontier : option iree_async_frontier_t)
    (b : fixed_block) : fixed_block :=
  let b := set_fb_flags IREE_HAL_MEMORY_FIXED_BLOCK_ALLOCATOR_BLOCK_FLAG_NONE b in
  match death_frontier with
  | Some death =>
      if 0 <? entry_count death then
        if entry_count death <=? capacity then set_fb_frontier (copy_frontier death (fb_frontier b)) b
        else
          let b := set_fb_frontier (iree_async_frontier_initialize (fb_frontier b) 0) b in
          set_fb_flags (Z.lor (fb_flags b) IREE_HAL_MEMORY_FIXED_BLOCK_ALLOCATOR_BLOCK_FLAG_TAINTED) b
      else set_fb_frontier (iree_async_frontier_initialize (fb_frontier b) 0) b
  | None => set_fb_frontier (iree_async_frontier_initialize (fb_frontier b) 0) b
  end.

(** The first return of a block in this generation is recorded. *)
Definition fixed_mark_returned (block_index : Z) (p : pool_t) : pool_t :=
  if fb_generation (fixed_block_at p block_index) =? fp_generation p then p
  else
    let p := update_fixed_block block_index (set_fb_generation (fp_generation p)) p in
    set_returned_bitmap (fetch_or (fp_returned_bitmap p) (block_index / 64) (ushl 64 1 (block_index mod 64))) p.

Definition iree_hal_memory_fixed_block_allocator_release (p : pool_t) (block_index : Z)
    (death_frontier : option iree_async_frontier_t) : pool_t :=
  let p := update_fixed_block block_index (fixed_replace_frontier (fp_frontier_capacity p) death_frontier) p in
  let p := fixed_mark_returned block_index p in
  iree_hal_memory_fixed_block_allocator_release_bit block_index p.

Definition iree_hal_memory_fixed_block_allocator_restore (p : pool_t) (block_index : Z) : pool_t :=
  iree_hal_memory_fixed_block_allocator_release_bit block_index p.

(** ** Queries *)

Definition iree_hal_memory_fixed_block_allocator_query_stats (p : pool_t)
    : iree_hal_memory_fixed_block_allocator_stats_t :=
  mk_fixed_stats (fp_block_count p) (fp_allocation_count p).

Definition iree_hal_memory_fixed_block_allocator_block_death_frontier (p : pool_t) (block_index : Z)
    : option iree_async_frontier_t :=
  fa_death_frontier (iree_hal_memory_fixed_block_allocator_read_block p block_index).

Definition iree_hal_memory_fixed_block_allocator_block_flags (p : pool_t) (block_index : Z) : Z :=
  let block := fixed_block_at p block_index in
  if fb_generation block =? fp_generation p then fb_flags block else 0.
