(* ===== verification/FixedBlockProps.v ===== *)
(** * Correctness of the fixed-block allocator

    The invariant [pool_ok] of the allocator of [FixedBlock], the abstract view of a pool
    (which blocks are acquired and which history each block carries), and the effect of
    every operation on that view. *)

From S2P Require Import Prelude BaseMath BitWords Allocator Frontier Tlsf FixedBlock.
From stdpp Require Import base numbers list list_numbers gmap.

Local Open Scope Z_scope.
Local Open Scope machine_scope.

(** ** View *)

Definition acquired (p : pool_t) (i : Z) : bool := bit_at (fp_bitmap p) i.

(** The block's own history has been written in the current generation. *)
Definition touched (p : pool_t) (i : Z) : Prop := fb_generation (fixed_block_at p i) = fp_generation p.

#[export] Instance touched_decision p i : Decision (touched p i) := decide (_ = _).

(** What a block says about its last use: [None] is a tainted history. *)
Definition own_history (b : fixed_block) : option (list entry_t) :=
  if fb_flags b =? 0 then Some (live (fb_frontier b)) else None.

Definition block_history (generation : Z) (initial : iree_async_frontier_t) (b : fixed_block) : option (list entry_t) :=
  if fb_generation b =? generation then own_history b else Some (live initial).

Definition history (p : pool_t) (i : Z) : option (list entry_t) :=
  block_history (fp_generation p) (fp_initial_frontier p) (fixed_block_at p i).

(** The history an allocation record carries. *)
Definition allocation_history (a : fixed_allocation) : option (list entry_t) :=
  if fa_block_flags a =? 0 then Some (from_option live [] (fa_death_frontier a)) else None.

(** The history a release leaves. *)
Definition released_history (capacity : Z) (death : option iree_async_frontier_t) : option (list entry_t) :=
  match death with
  | None => Some []
  | Some f => if entry_count f <=? capacity then Some (live f) else None
  end.

(** ** Invariant *)

Definition block_ok (capacity generation : Z) (b : fixed_block) : Prop :=
  frontier_sized capacity (fb_frontier b) ∧ 0 <= fb_generation b <= generation ∧
  (fb_flags b = 0 ∨ fb_flags b = 1 ∧ entry_count (fb_frontier b) = 0).

Record pool_ok (p : pool_t) : Prop := {
  po_size : 0 < fp_block_size p;
  po_count : 0 < fp_block_count p <= IREE_HAL_MEMORY_FIXED_BLOCK_ALLOCATOR_MAX_BLOCKS;
  po_range : fp_block_count p * fp_block_size p < 2 ^ 64;
  po_words : fp_word_count p = (fp_block_count p + 63) / 64;
  po_capacity : 0 <= fp_frontier_capacity p;
  po_bitmap : length (fp_bitmap p) = 64%nat ∧ words_ok (fp_bitmap p);
  po_trailing i : fp_block_count p <= i < 64 * fp_word_count p → acquired p i = true;
  po_allocations : fp_allocation_count p = count_from (acquired p) 0 (Z.to_nat (fp_block_count p));
  po_generation : 0 < fp_generation p < 2 ^ 32;
  po_initial : frontier_sized (fp_frontier_capacity p) (fp_initial_frontier p);
  po_length : length (fp_blocks p) = Z.to_nat (fp_block_count p);
  po_blocks : Forall (block_ok (fp_frontier_capacity p) (fp_generation p)) (fp_blocks p);
  po_returned : Z.of_nat (length (fp_returned_bitmap p)) = fp_word_count p ∧ words_ok (fp_returned_bitmap p);
  po_touched i : 0 <= i < fp_block_count p → bit_at (fp_returned_bitmap p) i = true ↔ touched p i;
  po_untouched i : fp_block_count p <= i < 64 * fp_word_count p → bit_at (fp_returned_bitmap p) i = false;
}.

Definition block_index_ok (p : pool_t) (i : Z) : Prop := 0 <= i < fp_block_count p.

#[export] Instance block_index_decision p i : Decision (block_index_ok p i).
Proof. unfold block_index_ok. apply _. Defined.

Section facts.
Context (p : pool_t) (Hp : pool_ok p).

Lemma word_count_bounds :
  1 <= fp_word_count p <= 64 ∧ fp_block_count p <= 64 * fp_word_count p < fp_block_count p + 64.
Proof using Hp.
  pose proof (po_count p Hp) as Hc. unfold IREE_HAL_MEMORY_FIXED_BLOCK_ALLOCATOR_MAX_BLOCKS in Hc.
  rewrite (po_words p Hp). pose proof (Z.div_mod (fp_block_count p + 63) 64). pose proof (Z.mod_pos_bound (fp_block_count p + 63) 64).
  lia.
Qed.

Lemma bitmap_size : bit_size (fp_bitmap p) = 4096.
Proof using Hp. unfold bit_size. by rewrite (proj1 (po_bitmap p Hp)). Qed.

Lemma returned_size : bit_size (fp_returned_bitmap p) = 64 * fp_word_count p.
Proof using Hp. unfold bit_size. by rewrite (proj1 (po_returned p Hp)). Qed.

Lemma fixed_block_lookup i :
  block_index_ok p i → fp_blocks p !! Z.to_nat i = Some (fixed_block_at p i).
Proof using Hp.
  intros Hi. unfold block_index_ok in Hi. apply list_lookup_lookup_total_lt. rewrite (po_length p Hp). lia.
Qed.

Lemma fixed_block_ok i :
  block_index_ok p i → block_ok (fp_frontier_capacity p) (fp_generation p) (fixed_block_at p i).
Proof using Hp. intros Hi%fixed_block_lookup. by apply (Forall_lookup_1 _ _ _ _ (po_blocks p Hp) Hi). Qed.

Lemma block_offset i : block_index_ok p i → i *64 fp_block_size p = i * fp_block_size p.
Proof using Hp.
  intros Hi. unfold block_index_ok in Hi. pose proof (po_range p Hp). pose proof (po_size p Hp).
  unfold umul. apply wrap_small. split; nia.
Qed.

(** Reading a block delivers its history. *)
Lemma read_block_history i :
  block_index_ok p i →
  let a := iree_hal_memory_fixed_block_allocator_read_block p i in
  fa_offset a = i * fp_block_size p ∧ fa_block_index a = i ∧ allocation_history a = history p i.
Proof using Hp.
  intros Hi. cbv zeta. split; [by apply block_offset|]. split; [done|].
  destruct (fixed_block_ok i Hi) as ([Hf _] & _ & Hfl). pose proof (po_initial p Hp) as [Hf0 _].
  assert (∀ f, frontier_ok f → from_option live [] (if entry_count f =? 0 then None else Some f) = live f) as Hl.
  { intros f Hok. destruct (Z.eqb_spec (entry_count f) 0) as [E|]; [|done]. simpl. unfold live. by rewrite E. }
  unfold allocation_history, history, block_history, own_history, iree_hal_memory_fixed_block_allocator_read_block. simpl.
  destruct (Z.eqb_spec (fb_generation (fixed_block_at p i)) (fp_generation p)) as [E|NE].
  - destruct Hfl as [->|[-> _]]; [|done]. simpl. by rewrite Hl.
  - simpl. by rewrite Hl.
Qed.
End facts.

(** ** Setting and clearing bits *)

(** The state after a claim of block [i]: its bit set, the hint moved, the count raised. *)
Definition claimed (i : Z) (p : pool_t) : pool_t :=
  set_fixed_count (uadd 32 (fp_allocation_count p) 1)
    (set_alloc_hint_word (i / 64) (set_bitmap (fetch_or (fp_bitmap p) (i / 64) (ushl 64 1 (i mod 64))) p)).

Section bits.
Context (p : pool_t) (Hp : pool_ok p) (i : Z) (Hi : block_index_ok p i).

Lemma block_bit_range : 0 <= i < bit_size (fp_bitmap p).
Proof using Hp Hi.
  rewrite (bitmap_size p Hp). pose proof (po_count p Hp). unfold block_index_ok, IREE_HAL_MEMORY_FIXED_BLOCK_ALLOCATOR_MAX_BLOCKS in *.
  lia.
Qed.

Lemma claimed_bit j : 0 <= j → acquired (claimed i p) j = bool_decide (j = i) || acquired p j.
Proof using Hp Hi. intros Hj. apply (bit_at_set (fp_bitmap p) i j block_bit_range Hj). Qed.

Lemma count_bounds : 0 <= fp_allocation_count p <= 4096.
Proof using Hp.
  rewrite (po_allocations p Hp). pose proof (count_from_bounds (acquired p) (Z.to_nat (fp_block_count p)) 0).
  pose proof (po_count p Hp). unfold IREE_HAL_MEMORY_FIXED_BLOCK_ALLOCATOR_MAX_BLOCKS in *. lia.
Qed.

Lemma claimed_ok : acquired p i = false → pool_ok (claimed i p).
Proof using Hp Hi.
  intros Hfree. pose proof count_bounds. pose proof (word_count_bounds p Hp).
  destruct (po_bitmap p Hp) as [Hlen Hok].
  destruct Hp. split; try done; cbn [fp_block_size fp_block_count fp_frontier_capacity fp_word_count fp_bitmap
    fp_allocation_count claimed set_fixed_count set_alloc_hint_word set_bitmap].
  - unfold fetch_or. rewrite length_alter_word. split; [done|]. apply alter_word_ok; [done|].
    intros w Hw. apply lor_in_width; [lia|done|apply bit_mask_width].
  - intros j Hj. rewrite claimed_bit by lia. rewrite po_trailing0 by done. apply orb_true_r.
  - rewrite uadd_small by lia. rewrite po_allocations0 at 1. symmetry.
    set (n := Z.to_nat (fp_block_count p)). unfold block_index_ok in Hi.
    rewrite (count_from_ext (acquired (claimed i p)) (λ j, bool_decide (j = i) || acquired p j) n 0 0)
      by (intros k Hk; by rewrite claimed_bit by lia).
    rewrite (count_from_update (acquired p) _ i n 0); [|intros j Hj; by rewrite bool_decide_eq_false_2|unfold n; lia].
    rewrite Hfree, bool_decide_eq_true_2 by done. simpl. lia.
Qed.

Lemma released_bit j :
  0 <= j →
  acquired (iree_hal_memory_fixed_block_allocator_release_bit i p) j = negb (bool_decide (j = i)) && acquired p j.
Proof using Hp Hi.
  intros Hj. pose proof block_bit_range. rewrite (bitmap_size p Hp) in *.
  unfold acquired, iree_hal_memory_fixed_block_allocator_release_bit. simpl.
  rewrite (wrap_small 16).
  - by apply (bit_at_clear (fp_bitmap p) i j block_bit_range).
  - pose proof (index_split i). split; lia.
Qed.

Lemma release_bit_ok : acquired p i = true → pool_ok (iree_hal_memory_fixed_block_allocator_release_bit i p).
Proof using Hp Hi.
  intros Hheld. pose proof count_bounds. pose proof (word_count_bounds p Hp).
  destruct (po_bitmap p Hp) as [Hlen Hok]. unfold block_index_ok in Hi.
  assert (count_from (acquired (iree_hal_memory_fixed_block_allocator_release_bit i p)) 0 (Z.to_nat (fp_block_count p)) =
    fp_allocation_count p - 1) as Hcount.
  { rewrite (po_allocations p Hp). set (n := Z.to_nat (fp_block_count p)).
    rewrite (count_from_ext _ (λ j, negb (bool_decide (j = i)) && acquired p j) n 0 0)
      by (intros k Hk; by rewrite released_bit by lia).
    rewrite (count_from_update (acquired p) _ i n 0); [|intros j Hj; by rewrite bool_decide_eq_false_2|unfold n; lia].
    rewrite Hheld, bool_decide_eq_true_2 by done. simpl. lia. }
  pose proof (count_from_bounds (acquired (iree_hal_memory_fixed_block_allocator_release_bit i p))
    (Z.to_nat (fp_block_count p)) 0).
  destruct Hp. split; try done; cbn [fp_block_size fp_block_count fp_frontier_capacity fp_word_count fp_bitmap
    fp_allocation_count iree_hal_memory_fixed_block_allocator_release_bit set_fixed_count set_bitmap].
  - unfold fetch_and. rewrite length_alter_word. split; [done|]. apply alter_word_ok; [done|].
    intros w Hw. apply land_in_width; [lia|done|]. apply unot_in_width. lia.
  - intros j Hj. rewrite released_bit by lia. rewrite po_trailing0, bool_decide_eq_false_2 by lia. done.
  - rewrite usub_small by (unfold in_width; lia). by rewrite Hcount.
Qed.
End bits.

(** ** Acquire *)

Definition word_full (p : pool_t) (w : Z) : Prop := word_at (fp_bitmap p) w = umax 64.

Lemma full_word_acquired p i : 0 <= i → word_full p (i / 64) → acquired p i = true.
Proof.
  intros Hi Hw. unfold acquired, bit_at. rewrite Hw. pose proof (index_split i). unfold umax.
  rewrite ones_testbit by lia. apply Z.ltb_lt. lia.
Qed.

(** The least clear bit of a word that is not full. *)
Lemma first_clear word :
  in_width 64 word → word ≠ umax 64 →
  let k := iree_math_count_trailing_zeros_u64 (unot 64 word) in
  0 <= k < 64 ∧ Z.testbit word k = false ∧ ∀ j, 0 <= j < k → Z.testbit word j = true.
Proof.
  intros Hw Hne. unfold umax in Hne. assert (0 < unot 64 word) as Hpos.
  { rewrite unot_eq by (done || lia). unfold in_width in Hw. lia. }
  destruct (lowest_set (unot 64 word) Hpos) as (Hk & Hb & Hlow); [apply unot_in_width; lia|].
  cbv zeta. set (k := iree_math_count_trailing_zeros_u64 _) in *. split; [done|].
  rewrite unot_testbit, (proj2 (Z.ltb_lt k 64)) in Hb by lia. split; [by destruct (Z.testbit word k)|].
  intros j Hj. specialize (Hlow j Hj). rewrite unot_testbit, (proj2 (Z.ltb_lt j 64)) in Hlow by lia.
  by destruct (Z.testbit word j).
Qed.

Section acquire.
Context (p : pool_t) (Hp : pool_ok p).

Lemma clear_bit_is_block i : 0 <= i < 64 * fp_word_count p → acquired p i = false → block_index_ok p i.
Proof using Hp.
  intros Hi Hfree. unfold block_index_ok. destruct (Z.lt_ge_cases i (fp_block_count p)); [lia|].
  by rewrite (po_trailing p Hp) in Hfree by lia.
Qed.

Lemma claim_bit_spec w fuel :
  0 <= w < fp_word_count p →
  let r := claim_bit (S fuel) w (word_at (fp_bitmap p) w) p in
  (word_full p w ∧ r = Some (None, p)) ∨
  ∃ i, block_index_ok p i ∧ acquired p i = false ∧ i / 64 = w ∧
    r = Some (Some (i mod 64), set_bitmap (fetch_or (fp_bitmap p) (i / 64) (ushl 64 1 (i mod 64))) p).
Proof using Hp.
  intros Hw. cbv zeta. cbn [claim_bit]. destruct (Z.eqb_spec (word_at (fp_bitmap p) w) (umax 64)) as [E|NE]; [by left|].
  right. pose proof (word_at_width (fp_bitmap p) w (proj2 (po_bitmap p Hp))) as Hwd.
  destruct (first_clear _ Hwd NE) as (Hk & Hb & _). set (k := iree_math_count_trailing_zeros_u64 _) in *.
  destruct (index_join w k Hk) as [Eq Er]. exists (64 * w + k). rewrite Eq, Er.
  assert (acquired p (64 * w + k) = false) as Hfree by (unfold acquired, bit_at; by rewrite Eq, Er).
  split; [apply clear_bit_is_block; [lia|done]|]. do 2 (split; [done|]).
  pose proof (mask_test (fp_bitmap p) (64 * w + k) ltac:(lia)) as Ht. rewrite Eq, Er in Ht.
  change (bit_at _ _) with (acquired p (64 * w + k)) in Ht. rewrite Hfree in Ht.
  apply negb_false_iff in Ht. by rewrite Ht.
Qed.

(** The scan of [n] words from [w] on, around the end. *)
Lemma acquire_passes_spec n : ∀ w,
  0 <= w < fp_word_count p → Z.of_nat n <= fp_word_count p →
  (∃ i, block_index_ok p i ∧ acquired p i = false ∧
    acquire_passes n w p = Some (Some (iree_hal_memory_fixed_block_allocator_read_block p i), claimed i p)) ∨
  (acquire_passes n w p = Some (None, p) ∧ ∀ k, 0 <= k < Z.of_nat n → word_full p ((w + k) mod fp_word_count p)).
Proof using Hp.
  pose proof (word_count_bounds p Hp) as [Hwc _].
  induction n as [|n IH]; intros w Hw Hn; [right; split; [done|intros; lia]|].
  cbn [acquire_passes]. destruct (claim_bit_spec w 64 Hw) as [[Hfull ->]|(i & Hi & Hfree & <- & ->)].
  - simpl mbind. unfold uadd. rewrite (wrap_small 16) by (split; lia).
    set (w' := if fp_word_count p <=? w + 1 then 0 else w + 1).
    assert (0 <= w' < fp_word_count p ∧ w' = (w + 1) mod fp_word_count p) as [Hw' Ew'].
    { unfold w'. destruct (Z.leb_spec (fp_word_count p) (w + 1)).
      - replace (w + 1) with (fp_word_count p) by lia. rewrite Z.mod_same by lia. lia.
      - rewrite Z.mod_small by lia. lia. }
    destruct (IH w' Hw' ltac:(lia)) as [?|[E Hk]]; [by left|]. right. split; [done|]. intros k Hk'.
    destruct (decide (k = 0)) as [->|]; [by rewrite Z.add_0_r, Z.mod_small by lia|].
    specialize (Hk (k - 1) ltac:(lia)). rewrite Ew', Zplus_mod_idemp_l in Hk.
    by replace (w + 1 + (k - 1)) with (w + k) in Hk by lia.
  - left. exists i. split; [done|]. split; [done|]. simpl mbind. pose proof (index_split i) as [Ei Hr].
    unfold block_index_ok in Hi. pose proof (po_count p Hp).
    unfold IREE_HAL_MEMORY_FIXED_BLOCK_ALLOCATOR_MAX_BLOCKS in *.
    rewrite uadd_small by lia. by replace (i / 64 * 64 + i mod 64) with i by lia.
Qed.

Lemma try_acquire_spec :
  (∃ i, block_index_ok p i ∧ acquired p i = false ∧
    iree_hal_memory_fixed_block_allocator_try_acquire p =
      Some (Some (iree_hal_memory_fixed_block_allocator_read_block p i), claimed i p)) ∨
  (iree_hal_memory_fixed_block_allocator_try_acquire p = Some (None, p) ∧
    ∀ i, block_index_ok p i → acquired p i = true).
Proof using Hp.
  pose proof (word_count_bounds p Hp) as [Hwc Hbc]. unfold iree_hal_memory_fixed_block_allocator_try_acquire.
  set (w := if fp_word_count p <=? wrap 16 (fp_alloc_hint_word p) then 0 else wrap 16 (fp_alloc_hint_word p)).
  assert (0 <= w < fp_word_count p) as Hw.
  { unfold w. pose proof (wrap_in_width 16 ltac:(lia) (fp_alloc_hint_word p)) as [? _].
    destruct (Z.leb_spec (fp_word_count p) (wrap 16 (fp_alloc_hint_word p))); lia. }
  destruct (acquire_passes_spec (Z.to_nat (fp_word_count p)) w Hw ltac:(lia)) as [?|[E Hk]]; [by left|].
  right. split; [done|]. intros i Hi. unfold block_index_ok in Hi. apply full_word_acquired; [lia|].
  pose proof (index_split i) as [Ei Hr].
  specialize (Hk ((i / 64 - w) mod fp_word_count p)). rewrite Zplus_mod_idemp_r in Hk.
  replace (w + (i / 64 - w)) with (i / 64) in Hk by lia. rewrite (Z.mod_small (i / 64)) in Hk by lia.
  apply Hk. rewrite Z2Nat.id by lia. apply Z.mod_pos_bound. lia.
Qed.
End acquire.

(** ** Release *)

Lemma block_at_update p i f j :
  0 <= i < Z.of_nat (length (fp_blocks p)) → 0 <= j →
  fixed_block_at (update_fixed_block i f p) j = if decide (j = i) then f (fixed_block_at p j) else fixed_block_at p j.
Proof.
  intros Hi Hj. unfold iree_hal_memory_fixed_block_allocator_block_at, update_fixed_block. simpl.
  case_decide as E; [subst j|].
  - rewrite !list_lookup_total_alt, list_lookup_alter_eq.
    destruct (lookup_lt_is_Some_2 (fp_blocks p) (Z.to_nat i) ltac:(lia)) as [b ->]. done.
  - rewrite !list_lookup_total_alt, list_lookup_alter_ne by lia. done.
Qed.

Lemma Forall_alter_block (P : fixed_block → Prop) i f l :
  Forall P l → (∀ b, P b → P (f b)) → Forall P (alter f i l).
Proof.
  intros Hl Hf. apply Forall_lookup. intros j b Hb. destruct (decide (i = j)) as [->|NE].
  - rewrite list_lookup_alter_eq in Hb. destruct (l !! j) as [b'|] eqn:E; [|done]. injection Hb as <-.
    apply Hf. by apply (Forall_lookup_1 _ _ _ _ Hl E).
  - rewrite list_lookup_alter_ne in Hb by done. by apply (Forall_lookup_1 _ _ _ _ Hl Hb).
Qed.

Definition death_ok (death : option iree_async_frontier_t) : Prop := ∀ f, death = Some f → frontier_ok f.

(** The replaced frontier carries the history of the release. *)
Lemma replace_frontier_spec capacity generation death b :
  death_ok death → 0 <= capacity → block_ok capacity generation b →
  let b' := fixed_replace_frontier capacity death b in
  block_ok capacity generation b' ∧ fb_generation b' = fb_generation b ∧
  own_history b' = released_history capacity death.
Proof.
  intros Hd Hcap ((Hf & Hlen) & Hg & _). cbv zeta.
  destruct (clear_frontier_sized capacity (fb_frontier b) Hlen) as [Hc El].
  unfold own_history, fixed_replace_frontier, released_history. destruct death as [f|].
  - pose proof (Hd f eq_refl) as Hfok. destruct (Z.ltb_spec 0 (entry_count f)) as [Hpos|Hnon].
    + destruct (Z.leb_spec (entry_count f) capacity) as [Hle|Hgt].
      * destruct (copy_frontier_sized capacity f (fb_frontier b) Hfok Hle Hlen) as (Hs & El' & _).
        split; [split; [done|]; split; [done|by left]|]. split; [done|]. simpl. by rewrite El'.
      * split; [split; [done|]; split; [done|by right]|]. done.
    + assert (entry_count f = 0) as E0 by (destruct Hfok as ([? _] & _); lia).
      rewrite E0, (proj2 (Z.leb_le 0 capacity)) by lia.
      split; [split; [done|]; split; [done|by left]|]. split; [done|]. simpl. unfold live at 2. by rewrite E0.
  - split; [split; [done|]; split; [done|by left]|]. done.
Qed.

Section release.
Context (p : pool_t) (Hp : pool_ok p) (i : Z) (Hi : block_index_ok p i).

Lemma block_storage_range : 0 <= i < Z.of_nat (length (fp_blocks p)).
Proof using Hp Hi. rewrite (po_length p Hp). unfold block_index_ok in Hi. lia. Qed.

(** A write to a block's history that keeps its generation. *)
Lemma update_history_ok f :
  (∀ b, block_ok (fp_frontier_capacity p) (fp_generation p) b →
    block_ok (fp_frontier_capacity p) (fp_generation p) (f b) ∧ fb_generation (f b) = fb_generation b) →
  pool_ok (update_fixed_block i f p).
Proof using Hp Hi.
  intros Hf. pose proof block_storage_range as Hs. pose proof (fixed_block_ok p Hp i Hi) as Hb.
  assert (∀ j, 0 <= j → touched (update_fixed_block i f p) j ↔ touched p j) as Ht.
  { intros j Hj. unfold touched. rewrite block_at_update by done. case_decide; [|done]. subst j.
    by rewrite (proj2 (Hf _ Hb)). }
  destruct Hp. split; try done.
  - simpl. by rewrite length_alter.
  - simpl. apply Forall_alter_block; [done|]. intros b Hb'. by apply Hf.
  - intros j Hj. rewrite Ht by (simpl in Hj; lia). by apply po_touched0.
Qed.

Lemma marked_bit j :
  0 <= j →
  bit_at (fp_returned_bitmap (fixed_mark_returned i p)) j =
    bool_decide (j = i ∧ ¬ touched p i) || bit_at (fp_returned_bitmap p) j.
Proof using Hp Hi.
  intros Hj. unfold fixed_mark_returned, touched.
  destruct (Z.eqb_spec (fb_generation (fixed_block_at p i)) (fp_generation p)) as [E|NE].
  - rewrite bool_decide_eq_false_2; [done|]. tauto.
  - simpl. unfold fetch_or. rewrite bit_at_set.
    + f_equal. apply bool_decide_ext. tauto.
    + rewrite (returned_size p Hp). pose proof (word_count_bounds p Hp). unfold block_index_ok in Hi. lia.
    + done.
Qed.

Lemma marked_block j :
  0 <= j →
  fixed_block_at (fixed_mark_returned i p) j =
    if decide (j = i) then set_fb_generation (fp_generation p) (fixed_block_at p j) else fixed_block_at p j.
Proof using Hp Hi.
  intros Hj. unfold fixed_mark_returned.
  destruct (Z.eqb_spec (fb_generation (fixed_block_at p i)) (fp_generation p)) as [E|NE].
  - case_decide; [subst j|done]. rewrite <- E. by destruct (fixed_block_at p i).
  - apply (block_at_update p i (set_fb_generation (fp_generation p)) j block_storage_range Hj).
Qed.

(** Marking leaves every other field. *)
Lemma mark_returned_frame (A : Type) (get : pool_t → A) :
  (∀ bs rs, get (set_returned_bitmap rs (set_blocks bs p)) = get p) → get (fixed_mark_returned i p) = get p.
Proof using. intros H. unfold fixed_mark_returned. case_match; [done|]. apply H. Qed.

Lemma mark_returned_ok : pool_ok (fixed_mark_returned i p).
Proof using Hp Hi.
  pose proof (word_count_bounds p Hp). pose proof (po_generation p Hp) as Hgen.
  assert (∀ j, block_index_ok p j → touched (fixed_mark_returned i p) j ↔ j = i ∨ touched p j) as Ht.
  { intros j Hj. unfold touched. unfold block_index_ok in Hj. rewrite marked_block by lia.
    rewrite (mark_returned_frame _ fp_generation) by done. case_decide; simpl; tauto. }
  pose proof (po_touched p Hp) as Ht0. unfold block_index_ok in Hi.
  split; unfold acquired; rewrite ?(mark_returned_frame _ fp_block_size), ?(mark_returned_frame _ fp_block_count),
    ?(mark_returned_frame _ fp_word_count), ?(mark_returned_frame _ fp_frontier_capacity), ?(mark_returned_frame _ fp_bitmap),
    ?(mark_returned_frame _ fp_allocation_count), ?(mark_returned_frame _ fp_generation),
    ?(mark_returned_frame _ fp_initial_frontier) by done; try by destruct Hp.
  - rewrite <- (po_length p Hp). unfold fixed_mark_returned. case_match; [done|]. simpl. by rewrite length_alter.
  - unfold fixed_mark_returned. case_match; [by destruct Hp|]. simpl. apply Forall_alter_block; [by destruct Hp|].
    intros b (Hb & Hg & Hfl). split; [done|]. split; [simpl; lia|done].
  - destruct (po_returned p Hp) as [Hl Hok]. unfold fixed_mark_returned. case_match; [done|]. simpl.
    unfold fetch_or. rewrite length_alter_word. split; [done|]. apply alter_word_ok; [done|].
    intros w Hw. apply lor_in_width; [lia|done|apply bit_mask_width].
  - intros j Hj. rewrite marked_bit by lia. rewrite (Ht j) by (unfold block_index_ok; lia).
    rewrite orb_true_iff, bool_decide_eq_true, Ht0 by lia.
    destruct (decide (touched p i)); naive_solver.
  - intros j Hj. rewrite marked_bit by lia. rewrite bool_decide_eq_false_2 by lia. by apply (po_untouched p Hp).
Qed.

Lemma marked_history j :
  block_index_ok p j →
  history (fixed_mark_returned i p) j = if decide (j = i) then own_history (fixed_block_at p i) else history p j.
Proof using Hp Hi.
  intros Hj. unfold block_index_ok in Hj. unfold history. rewrite marked_block by lia.
  rewrite (mark_returned_frame _ fp_generation), (mark_returned_frame _ fp_initial_frontier) by done.
  case_decide; [subst j|done]. unfold block_history. simpl. by rewrite Z.eqb_refl.
Qed.
End release.

Lemma release_spec p i death :
  pool_ok p → block_index_ok p i → acquired p i = true → death_ok death →
  let p' := iree_hal_memory_fixed_block_allocator_release p i death in
  pool_ok p' ∧
  (∀ j, 0 <= j → acquired p' j = negb (bool_decide (j = i)) && acquired p j) ∧
  (∀ j, block_index_ok p j →
    history p' j = if decide (j = i) then released_history (fp_frontier_capacity p) death else history p j).
Proof.
  intros Hp Hi Hheld Hd. cbv zeta. unfold iree_hal_memory_fixed_block_allocator_release.
  set (f := fixed_replace_frontier (fp_frontier_capacity p) death).
  pose proof (po_capacity p Hp) as Hcap.
  assert (∀ b, block_ok (fp_frontier_capacity p) (fp_generation p) b →
    block_ok (fp_frontier_capacity p) (fp_generation p) (f b) ∧ fb_generation (f b) = fb_generation b) as Hf
    by (intros b Hb; by destruct (replace_frontier_spec _ _ death b Hd Hcap Hb) as (? & ? & _)).
  pose proof (update_history_ok p Hp i Hi f Hf) as Hp1. set (p1 := update_fixed_block i f p) in *.
  pose proof (mark_returned_ok p1 Hp1 i Hi) as Hp2. set (p2 := fixed_mark_returned i p1) in *.
  assert (acquired p2 = acquired p) as Ea by (unfold p2, acquired; by rewrite (mark_returned_frame p1 i _ fp_bitmap)).
  assert (fp_block_count p2 = fp_block_count p) as Ec by by apply (mark_returned_frame p1 i _ fp_block_count).
  assert (block_index_ok p2 i) as Hi2 by (unfold block_index_ok in *; by rewrite Ec).
  split; [apply release_bit_ok; [done|done|by rewrite Ea]|]. split.
  - intros j Hj. rewrite released_bit by done. by rewrite Ea.
  - intros j Hj. change (history (iree_hal_memory_fixed_block_allocator_release_bit i p2) j) with (history p2 j).
    unfold p2. rewrite (marked_history p1 Hp1 i Hi j Hj). unfold history, p1. unfold block_index_ok in Hj.
    pose proof (block_storage_range p Hp i Hi). rewrite !block_at_update by lia. case_decide; [|done]. rewrite decide_True by done.
    by destruct (replace_frontier_spec _ _ death _ Hd Hcap (fixed_block_ok p Hp i Hi)) as (_ & _ & ?).
Qed.
