(* ===== verification/FixedBlockInit.v ===== *)
(** * Creation and rebinding of the fixed-block allocator

    The reset of a pool to a new backing generation, across the wrap of the generation
    counter, and the creation of a pool from its options. *)

From S2P Require Import Prelude BaseMath BitWords Allocator Frontier Tlsf FixedBlock FixedBlockProps.
From stdpp Require Import base numbers list list_numbers.

Local Open Scope Z_scope.
Local Open Scope machine_scope.

(** ** Reset *)

(** The part of [pool_ok] that a reset relies on. *)
Record pool_base (p : pool_t) : Prop := {
  pb_size : 0 < fp_block_size p;
  pb_count : 0 < fp_block_count p <= IREE_HAL_MEMORY_FIXED_BLOCK_ALLOCATOR_MAX_BLOCKS;
  pb_range : fp_block_count p * fp_block_size p < 2 ^ 64;
  pb_words : fp_word_count p = (fp_block_count p + 63) / 64;
  pb_capacity : 0 <= fp_frontier_capacity p;
  pb_bitmap : length (fp_bitmap p) = 64%nat ∧ words_ok (fp_bitmap p);
  pb_trailing i : fp_block_count p <= i < 64 * fp_word_count p → acquired p i = true;
  pb_allocations : fp_allocation_count p = count_from (acquired p) 0 (Z.to_nat (fp_block_count p));
  pb_generation : 0 <= fp_generation p < 2 ^ 32;
  pb_initial : Z.of_nat (length (entries (fp_initial_frontier p))) = fp_frontier_capacity p;
  pb_length : length (fp_blocks p) = Z.to_nat (fp_block_count p);
  pb_blocks : Forall (block_ok (fp_frontier_capacity p) (fp_generation p)) (fp_blocks p);
  pb_returned : Z.of_nat (length (fp_returned_bitmap p)) = fp_word_count p;
}.

Lemma pool_ok_base p : pool_ok p → pool_base p.
Proof. intros []. split; try done; [lia|apply po_initial|apply po_returned]. Qed.

(** The history of a backing. *)
Definition initial_history (initial : option iree_async_frontier_t) : list entry_t := from_option live [] initial.

Definition initial_fits (capacity : Z) (initial : option iree_async_frontier_t) : Prop :=
  ∀ f, initial = Some f → frontier_ok f ∧ entry_count f <= capacity.

(** The generations of the blocks differ from the new one. *)
Lemma reset_generation g (bs : list fixed_block) capacity :
  0 <= g < 2 ^ 32 → Forall (block_ok capacity g) bs →
  let wrapped := uadd 32 g 1 =? 0 in
  let g' := if wrapped then 1 else uadd 32 g 1 in
  let bs' := if wrapped then set_fb_generation 0 <$> bs else bs in
  0 < g' < 2 ^ 32 ∧ length bs' = length bs ∧ Forall (block_ok capacity g') bs' ∧
  Forall (λ b, fb_generation b ≠ g') bs'.
Proof.
  intros Hg Hbs. cbv zeta. destruct (decide (g + 1 = 2 ^ 32)) as [E|NE].
  - assert (uadd 32 g 1 = 0) as -> by (unfold uadd; by rewrite E). simpl. rewrite length_fmap.
    split; [lia|]. split; [done|]. split; apply Forall_fmap; (eapply Forall_impl; [exact Hbs|]); intros b (Hf & Hb & Hfl).
    + split; [done|]. split; [simpl; lia|done].
    + simpl. lia.
  - rewrite uadd_small by lia. rewrite (proj2 (Z.eqb_neq (g + 1) 0)) by lia. split; [lia|]. split; [done|].
    split; (eapply Forall_impl; [exact Hbs|]); intros b (Hf & Hb & Hfl); [split; [done|]; split; [lia|done]|lia].
Qed.

Lemma reset_fields p initial :
  let p' := iree_hal_memory_fixed_block_allocator_reset p initial in
  let wrapped := uadd 32 (fp_generation p) 1 =? 0 in
  p' = mk_pool (fp_block_size p) (fp_block_count p) (fp_frontier_capacity p) (fp_word_count p) (fp_block_stride p)
    (fp_frontier_offset p) (if wrapped then 1 else uadd 32 (fp_generation p) 1)
    (match initial with
     | Some f => copy_frontier f (fp_initial_frontier p)
     | None => iree_async_frontier_initialize (fp_initial_frontier p) 0
     end) ((λ _, 0) <$> fp_returned_bitmap p) 0 (fp_allocation_count p) (fp_bitmap p)
    (if wrapped then set_fb_generation 0 <$> fp_blocks p else fp_blocks p).
Proof. unfold iree_hal_memory_fixed_block_allocator_reset. cbv zeta. simpl. by destruct (_ =? 0). Qed.

Lemma word_at_zeros (l : list Z) i : word_at ((λ _, 0) <$> l) i = 0.
Proof. unfold word_at. rewrite list_lookup_fmap. by destruct (l !! _). Qed.

Section reset.
Context (p : pool_t) (Hp : pool_base p).
Context (initial : option iree_async_frontier_t) (Hin : initial_fits (fp_frontier_capacity p) initial).

Let p' := iree_hal_memory_fixed_block_allocator_reset p initial.

Lemma reset_initial :
  frontier_sized (fp_frontier_capacity p) (fp_initial_frontier p') ∧ live (fp_initial_frontier p') = initial_history initial.
Proof using All.
  unfold p'. rewrite reset_fields. simpl. unfold initial_history. destruct initial as [f|].
  - destruct (Hin f eq_refl) as [Hf Hle]. by destruct (copy_frontier_sized _ f _ Hf Hle (pb_initial p Hp)) as (? & ? & _).
  - by apply clear_frontier_sized, (pb_initial p Hp).
Qed.

Lemma reset_untouched i : 0 <= i < fp_block_count p → ¬ touched p' i.
Proof using Hp.
  intros Hi. destruct (reset_generation _ _ _ (pb_generation p Hp) (pb_blocks p Hp)) as (_ & Hl & _ & Hne).
  rewrite Forall_lookup in Hne. unfold p', touched, iree_hal_memory_fixed_block_allocator_block_at.
  rewrite reset_fields. apply (Hne (Z.to_nat i)).
  apply list_lookup_lookup_total_lt. cbn [fp_blocks]. rewrite Hl, (pb_length p Hp). lia.
Qed.

Lemma fixed_reset_ok : pool_ok p'.
Proof using All.
  destruct (reset_generation _ _ _ (pb_generation p Hp) (pb_blocks p Hp)) as (Hg & Hl & Hb & _).
  pose proof reset_initial as [Hs _]. pose proof reset_untouched as Hu. unfold p' in *. rewrite reset_fields in *.
  destruct Hp. split; try done.
  - simpl. by rewrite Hl.
  - simpl. rewrite length_fmap. split; [done|]. apply Forall_fmap, Forall_true. by split.
  - intros i Hi. simpl in Hi. unfold bit_at. simpl. rewrite word_at_zeros, Z.bits_0. specialize (Hu i Hi). naive_solver.
  - intros i Hi. unfold bit_at. simpl. by rewrite word_at_zeros, Z.bits_0.
Qed.

Lemma reset_history i : 0 <= i < fp_block_count p → history p' i = Some (initial_history initial).
Proof using All.
  intros Hi. pose proof (reset_untouched i Hi) as Hu. pose proof reset_initial as [_ El].
  unfold history, block_history. unfold touched in Hu. rewrite (proj2 (Z.eqb_neq _ _) Hu). by rewrite El.
Qed.

Lemma reset_acquired i : acquired p' i = acquired p i.
Proof using. unfold acquired, p'. by rewrite reset_fields. Qed.
End reset.

(** Rebinding a pool starts every block with the history of the new backing and keeps
    which blocks are acquired, also when the 32-bit generation counter wraps around. *)
Theorem fixed_reset_exact p initial :
  pool_ok p → initial_fits (fp_frontier_capacity p) initial →
  let p' := iree_hal_memory_fixed_block_allocator_reset p initial in
  pool_ok p' ∧ (∀ i, acquired p' i = acquired p i) ∧
  ∀ i, block_index_ok p i → history p' i = Some (initial_history initial).
Proof.
  intros Hp%pool_ok_base Hin. split; [by apply fixed_reset_ok|]. split; [apply reset_acquired|].
  intros i Hi. by apply reset_history.
Qed.

(** ** Creation *)

(** The options at their machine widths. *)
Record fixed_options_typed (o : iree_hal_memory_fixed_block_allocator_options_t) : Prop := {
  fot_size : in_width 64 (fo_block_size o);
  fot_count : in_width 32 (fo_block_count o);
  fot_capacity : in_width 16 (fo_frontier_capacity o);
  fot_initial f : fo_initial_frontier o = Some f → frontier_ok f;
}.

Definition fixed_capacity (o : iree_hal_memory_fixed_block_allocator_options_t) : Z :=
  if fo_frontier_capacity o =? 0 then 4 else fo_frontier_capacity o.

(** The options that creation accepts. *)
Record fixed_options_accepted (o : iree_hal_memory_fixed_block_allocator_options_t) : Prop := {
  foa_size : 0 < fo_block_size o;
  foa_count : 0 < fo_block_count o <= 4096;
  foa_range : fo_block_count o * fo_block_size o < 2 ^ 64;
  foa_initial f : fo_initial_frontier o = Some f → entry_count f <= fixed_capacity o;
}.

Lemma fixed_validate_spec o :
  fixed_options_typed o →
  match fixed_validate_options o with
  | Ok capacity => fixed_options_accepted o ∧ capacity = fixed_capacity o
  | Err code => ¬ fixed_options_accepted o ∧
      (code = IREE_STATUS_INVALID_ARGUMENT ∨ code = IREE_STATUS_OUT_OF_RANGE)
  end.
Proof.
  intros [[Hs0 Hs] [Hc0 Hc] _ _]. unfold fixed_validate_options, IREE_HAL_MEMORY_FIXED_BLOCK_ALLOCATOR_MAX_BLOCKS,
    IREE_HAL_MEMORY_FIXED_BLOCK_ALLOCATOR_DEFAULT_FRONTIER_CAPACITY. fold (fixed_capacity o).
  destruct (Z.eqb_spec (fo_block_size o) 0); [split; [intros []; lia|by left]|].
  destruct (Z.eqb_spec (fo_block_count o) 0); [split; [intros []; lia|by left]|].
  destruct (Z.ltb_spec 4096 (fo_block_count o)); [split; [intros []; lia|by left]|].
  change (iree_device_size_checked_mul (fo_block_count o) (fo_block_size o)) with
    (iree_host_size_checked_mul (fo_block_count o) (fo_block_size o)).
  rewrite checked_mul_u64_eq, checked_u64_if by (unfold in_width; nia).
  case_decide as Hr; [|split; [intros []; lia|by left]].
  destruct (fo_initial_frontier o) as [f|] eqn:Ef.
  - destruct (Z.ltb_spec (fixed_capacity o) (entry_count f)) as [Hlt|Hge].
    + split; [|by right]. intros [_ _ _ Hi]. specialize (Hi f Ef). lia.
    + split; [|done]. split; [lia|lia|done|]. intros f' Hf'. congruence.
  - split; [|done]. split; [lia|lia|done|]. intros f' Hf'. congruence.
Qed.

(** Field descriptors with an alignment of 8 or none. *)
Ltac fields_ok :=
  repeat first [apply Forall_nil_2 | apply Forall_cons_2; [split_and!; cbn; unfold in_width; try lia|]];
  first [by left | by right; exists 3].

Section layout.
Context (capacity : Z) (Hc : 0 <= capacity < 2 ^ 16).

Lemma block_layout_eq : fixed_block_layout capacity = Ok (8, 16 + 16 * capacity).
Proof using Hc.
  unfold fixed_block_layout, iree_struct_layout_calculate. rewrite struct_layout_loop_eq.
  - rewrite decide_True; [|cbn; change (round_up 8 8) with 8; unfold field_size; simpl; lia].
    cbn. change (round_up 8 8) with 8. unfold field_size. simpl. do 2 f_equal. lia.
  - by split.
  - fields_ok.
Qed.

Lemma total_size_eq count words :
  0 <= count <= 4096 → 0 <= words <= 64 →
  ∃ total, fixed_total_size count (16 + 16 * capacity) capacity words = Ok total ∧ 0 < total < 2 ^ 62.
Proof using Hc.
  intros Hn Hw. set (size := 704 + count * (16 + 16 * capacity)).
  assert (0 <= count * (16 + 16 * capacity) < 2 ^ 60) as Hs by nia.
  assert (round_up size 8 = size) as Er.
  { unfold size, round_up. replace (704 + count * (16 + 16 * capacity) + (8 - 1)) with
      (7 + (88 + count * (2 + 2 * capacity)) * 8) by lia.
    rewrite Z.div_add by lia. change (7 / 8) with 0. lia. }
  unfold fixed_total_size, fixed_pool_size, iree_struct_layout_calculate. rewrite struct_layout_loop_eq.
  - assert (field_size {| field_count0 := count; field_count1 := 16 + 16 * capacity; field_element_size := 1;
      field_alignment := 0 |} = count * (16 + 16 * capacity)) as E1 by (unfold field_size; simpl; lia).
    rewrite decide_True.
    + eexists. cbn -[Z.mul]. rewrite E1. fold size. rewrite Er. split; [done|]. unfold field_size, size. simpl. lia.
    + cbn -[Z.mul]. rewrite E1. fold size. rewrite Er. unfold field_size, size. simpl. lia.
  - by split.
  - fields_ok.
Qed.
End layout.

(** The bitmap of a fresh pool marks exactly the bits past the last block. *)
Section initial_bitmap.
Context (count words : Z) (Hn : 0 < count <= 4096) (Hw : words = (count + 63) / 64).

Lemma words_of_count : count <= 64 * words < count + 64 ∧ 1 <= words <= 64.
Proof using All.
  pose proof (Z.div_mod (count + 63) 64). pose proof (Z.mod_pos_bound (count + 63) 64). lia.
Qed.

Lemma initial_bitmap_ok : length (fixed_initial_bitmap count words) = 64%nat ∧ words_ok (fixed_initial_bitmap count words).
Proof using.
  assert (words_ok (replicate 64 0)) as Hz by (by apply Forall_replicate).
  unfold fixed_initial_bitmap. destruct (count mod 64 =? 0); [done|]. rewrite length_insert. split; [done|].
  apply Forall_insert; [done|]. apply unot_in_width. lia.
Qed.

Lemma initial_bitmap_bit i : 0 <= i < 4096 → bit_at (fixed_initial_bitmap count words) i = bool_decide (count <= i < 64 * words).
Proof using All.
  intros Hi. pose proof words_of_count as [Hb Hwr]. pose proof (index_split i) as [Ei Hr]. pose proof (index_split count) as [Ec Hrc].
  assert (word_at (replicate 64 0) (i / 64) = 0) as Hz.
  { unfold word_at. destruct (_ !! _) as [x|] eqn:E; [|done]. by apply lookup_replicate in E as [-> _]. }
  unfold fixed_initial_bitmap, bit_at. destruct (Z.eqb_spec (count mod 64) 0) as [E0|NE].
  - change (Z.to_nat _) with 64%nat. rewrite Hz, Z.bits_0, bool_decide_eq_false_2 by lia. done.
  - change (Z.to_nat IREE_HAL_MEMORY_FIXED_BLOCK_ALLOCATOR_BITMAP_WORDS) with 64%nat. unfold word_at.
    destruct (decide (i / 64 = words - 1)) as [E|Hne].
    + rewrite E, list_lookup_insert_eq by (rewrite length_replicate; lia). cbn [default from_option id].
      unfold ushl. rewrite Z.shiftl_1_l. pose proof (pow64_lt (count mod 64) ltac:(lia)) as [? ?].
      rewrite (wrap_small 64), usub_small by (unfold in_width; lia).
      rewrite unot_testbit, ones_testbit, (proj2 (Z.ltb_lt (i mod 64) 64)) by lia. simpl.
      destruct (Z.ltb_spec (i mod 64) (count mod 64)); [rewrite bool_decide_eq_false_2 by lia|rewrite bool_decide_eq_true_2 by lia]; done.
    + rewrite list_lookup_insert_ne by lia. unfold word_at in Hz. rewrite Hz, Z.bits_0, bool_decide_eq_false_2 by lia. done.
Qed.
End initial_bitmap.

Lemma malloc_aligned_outcome host n m :
  0 < n < 2 ^ 62 →
  match iree_allocator_malloc host (aligned_size n 64) with
  | Ok _ => ∃ r, iree_allocator_malloc_aligned host n 64 0 m = Ok r
  | Err code => iree_allocator_malloc_aligned host n 64 0 m = Err code
  end.
Proof.
  intros Hn. unfold iree_allocator_malloc_aligned. rewrite (proj2 (Z.eqb_neq n 0)) by lia.
  rewrite (aligned_total_eq n 64 0) by (split; [lia|split; [by split|right; by exists 6]|lia]).
  rewrite decide_True by (unfold aligned_size, iree_max_align_t; lia). simpl negb. cbn iota.
  destruct (iree_allocator_malloc host _); [by eexists|done].
Qed.

(** The pool before its first reset. *)
Definition fresh_pool (o : iree_hal_memory_fixed_block_allocator_options_t) (capacity words : Z) : pool_t :=
  mk_pool (fo_block_size o) (fo_block_count o) capacity words (16 + 16 * capacity) 8 0 (zero_frontier capacity)
    (replicate (Z.to_nat words) 0) 0 0 (fixed_initial_bitmap (fo_block_count o) words)
    (replicate (Z.to_nat (fo_block_count o)) (mk_fixed_block 0 0 (zero_frontier capacity))).

Lemma fresh_pool_base o :
  fixed_options_typed o → fixed_options_accepted o →
  let p := fresh_pool o (fixed_capacity o) ((fo_block_count o + 63) / 64) in
  pool_base p ∧ ∀ i, block_index_ok p i → acquired p i = false.
Proof.
  intros [_ _ Hcap _] [Hs Hn Hr _]. set (words := (fo_block_count o + 63) / 64). cbv zeta.
  destruct (words_of_count (fo_block_count o) words Hn eq_refl) as [Hb Hw].
  assert (0 <= fixed_capacity o) as Hc by (unfold fixed_capacity; destruct (_ =? 0); destruct Hcap; lia).
  pose proof (initial_bitmap_bit (fo_block_count o) words Hn eq_refl) as Hbit.
  assert (∀ i, 0 <= i < fo_block_count o → acquired (fresh_pool o (fixed_capacity o) words) i = false) as Hfree.
  { intros i Hi. unfold acquired. simpl. rewrite Hbit, bool_decide_eq_false_2 by lia. done. }
  split; [|intros i Hi; by apply Hfree]. split; try done.
  - apply initial_bitmap_ok.
  - intros i Hi. simpl in Hi. unfold acquired. simpl. rewrite Hbit, bool_decide_eq_true_2 by lia. done.
  - simpl fp_allocation_count. symmetry. apply count_from_zero. intros j Hj. apply Hfree. simpl in Hj. lia.
  - simpl. rewrite length_replicate. lia.
  - simpl. by rewrite length_replicate.
  - simpl. apply Forall_replicate. split; [|split; [simpl; lia|by left]].
    split; [split; [done|]; split; [simpl; lia|split; constructor]|simpl; rewrite length_replicate; lia].
  - simpl. rewrite length_replicate. lia.
Qed.

Lemma allocate_fresh o host :
  fixed_options_typed o → fixed_options_accepted o →
  ∃ n, 0 < n < 2 ^ 63 ∧
  iree_hal_memory_fixed_block_allocator_allocate o host =
    match iree_allocator_malloc host n with
    | Ok _ => Ok (iree_hal_memory_fixed_block_allocator_reset
                    (fresh_pool o (fixed_capacity o) ((fo_block_count o + 63) / 64)) (fo_initial_frontier o))
    | Err code => Err code
    end.
Proof.
  intros Ht Ha. pose proof (fixed_validate_spec o Ht) as Hv. pose proof Ha as [_ Hn _ _]. pose proof Ht as [_ _ [Hc0 Hc1] _].
  set (words := (fo_block_count o + 63) / 64). destruct (words_of_count (fo_block_count o) words Hn eq_refl) as [_ Hw].
  assert (0 <= fixed_capacity o < 2 ^ 16) as Hc by (unfold fixed_capacity; destruct (_ =? 0); lia).
  destruct (total_size_eq (fixed_capacity o) Hc (fo_block_count o) words ltac:(lia) ltac:(lia)) as (total & Etot & Htot).
  exists (aligned_size total 64). split; [unfold aligned_size, iree_max_align_t; lia|].
  unfold iree_hal_memory_fixed_block_allocator_allocate.
  destruct (fixed_validate_options o) as [capacity|]; [|by destruct Hv]. destruct Hv as [_ ->].
  cbn [mbind status_or_bind]. rewrite block_layout_eq by done. cbn [mbind status_or_bind].
  assert (wrap 16 (uadd 32 (fo_block_count o) 63 / 64) = words) as Ew.
  { rewrite uadd_small by lia. apply wrap_small. fold words. split; lia. }
  rewrite !Ew, Etot. cbn [mbind status_or_bind].
  pose proof (malloc_aligned_outcome host total (λ _, 0) Htot) as Hm.
  destruct (iree_allocator_malloc host (aligned_size total 64)) as [base|code]; [destruct Hm as [r ->]|rewrite Hm]; done.
Qed.

(** Creation succeeds exactly for accepted options when the host provides the memory:
    the layout computation never overflows.  The new pool satisfies the invariant, every
    block is free and carries the initial history. *)
Theorem fixed_allocate_exact o host :
  fixed_options_typed o →
  match iree_hal_memory_fixed_block_allocator_allocate o host with
  | Ok p =>
      fixed_options_accepted o ∧ pool_ok p ∧
      fp_block_size p = fo_block_size o ∧ fp_block_count p = fo_block_count o ∧
      fp_frontier_capacity p = fixed_capacity o ∧
      ∀ i, block_index_ok p i →
        acquired p i = false ∧ history p i = Some (initial_history (fo_initial_frontier o))
  | Err code =>
      ¬ fixed_options_accepted o ∧ (code = IREE_STATUS_INVALID_ARGUMENT ∨ code = IREE_STATUS_OUT_OF_RANGE) ∨
      ∃ n, 0 < n < 2 ^ 63 ∧ iree_allocator_malloc host n = Err code
  end.
Proof.
  intros Ht. pose proof (fixed_validate_spec o Ht) as Hv. destruct (fixed_validate_options o) as [c|code] eqn:Ev.
  - destruct Hv as [Ha _]. destruct (allocate_fresh o host Ht Ha) as (n & Hn & ->).
    destruct (iree_allocator_malloc host n) as [base|code] eqn:Em; [|right; by exists n].
    destruct (fresh_pool_base o Ht Ha) as [Hb Hfree]. set (p := fresh_pool _ _ _) in *.
    assert (initial_fits (fp_frontier_capacity p) (fo_initial_frontier o)) as Hin
      by (intros f Hf; split; [by apply (fot_initial o Ht)|by apply (foa_initial o Ha)]).
    pose proof (fixed_reset_ok p Hb _ Hin) as Hok. pose proof (reset_history p Hb _ Hin) as Hh.
    pose proof (reset_acquired p (fo_initial_frontier o)) as Hacq. rewrite reset_fields in *.
    do 5 (split; [done|]). intros i Hi. split; [|by apply Hh]. rewrite Hacq. by apply Hfree.
  - unfold iree_hal_memory_fixed_block_allocator_allocate. rewrite Ev. by left.
Qed.

(** ** A sample pool *)

Definition sample_fixed_frontier : iree_async_frontier_t := frontier 1 (replicate 7 0) [entry 3 10].

Definition sample_fixed_options : iree_hal_memory_fixed_block_allocator_options_t :=
  mk_fixed_options 4096 70 2 (Some sample_fixed_frontier).

Definition sample_pool : pool_t :=
  iree_hal_memory_fixed_block_allocator_reset (fresh_pool sample_fixed_options 2 2) (Some sample_fixed_frontier).

Lemma sample_fixed_typed : fixed_options_typed sample_fixed_options.
Proof.
  split; try by split. intros f [= <-]. split; [done|]. split; [done|]. split; [constructor; constructor|]. by repeat constructor.
Qed.

Lemma fixed_allocate_exact_witness :
  iree_hal_memory_fixed_block_allocator_allocate sample_fixed_options (Some (λ _ _ _, Ok 0x10000)) = Ok sample_pool ∧
  pool_ok sample_pool ∧ acquired sample_pool 69 = false ∧ history sample_pool 69 = Some [entry 3 10].
Proof.
  pose proof (fixed_allocate_exact sample_fixed_options (Some (λ _ _ _, Ok 0x10000)) sample_fixed_typed) as H.
  assert (iree_hal_memory_fixed_block_allocator_allocate sample_fixed_options (Some (λ _ _ _, Ok 0x10000)) = Ok sample_pool)
    as E by by vm_compute.
  rewrite E in H. split; [exact E|]. destruct H as (_ & Hok & _ & _ & _ & Hi). split; [exact Hok|].
  apply (Hi 69). by split.
Defined.

Lemma sample_pool_ok : pool_ok sample_pool.
Proof.
  assert (fixed_options_accepted sample_fixed_options) as Ha by (split; [done|done|done|]; intros f [= <-]; done).
  destruct (fresh_pool_base _ sample_fixed_typed Ha) as [Hb _]. apply (fixed_reset_ok _ Hb).
  intros f [= <-]. split; [by apply (fot_initial _ sample_fixed_typed)|done].
Qed.

(** The last generation before the counter wraps. *)
Definition last_generation_pool : pool_t := set_generation (2 ^ 32 - 1) sample_pool.

Lemma last_generation_ok : pool_ok last_generation_pool.
Proof.
  pose proof sample_pool_ok as [? ? ? ? ? ? ? ? ? ? ? Hbl ? ? ?]. split; try done.
  - eapply Forall_impl; [exact Hbl|]. intros b (? & Hg & ?). split; [done|]. split; [|done].
    change (fp_generation sample_pool) with 1 in Hg. simpl. lia.
  - intros i Hi. destruct (fixed_block_ok sample_pool sample_pool_ok i Hi) as (_ & Hg & _).
    change (fp_generation sample_pool) with 1 in Hg. unfold touched.
    change (fixed_block_at last_generation_pool i) with (fixed_block_at sample_pool i).
    simpl fp_generation. split; [|lia]. unfold bit_at. simpl fp_returned_bitmap.
    assert (∀ w, word_at [0; 0] w = 0) as -> by (intros w; unfold word_at; by destruct (Z.to_nat w) as [|[|[|]]]).
    by rewrite Z.bits_0.
Qed.

Lemma fixed_reset_exact_witness :
  history (iree_hal_memory_fixed_block_allocator_reset last_generation_pool None) 5 = Some [].
Proof. apply (fixed_reset_exact last_generation_pool None last_generation_ok); [done|by split]. Defined.
