(* ===== verification/FixedBlockTheorems.v ===== *)
(** * What the fixed-block allocator promises

    The contracts of acquisition, release, candidates and history collection in terms of
    the view of [FixedBlockProps]. *)

From S2P Require Import Prelude BaseMath BitWords Allocator Frontier Tlsf FixedBlock FixedBlockProps.
From S2P Require Import FixedBlockInit.
From stdpp Require Import base numbers list list_numbers gmap.

Local Open Scope Z_scope.
Local Open Scope machine_scope.

(** ** Acquire and release *)

(** Acquire terminates.  It returns a block that was free, at its offset and with the
    history of its last release, or the backing's initial history, and marks only that
    block acquired; it reports exhaustion only when every block is acquired, and then
    changes nothing. *)
Theorem fixed_acquire_exact p :
  pool_ok p →
  ∃ r p', iree_hal_memory_fixed_block_allocator_acquire p = Some (r, p') ∧ pool_ok p' ∧
  match r with
  | Ok a =>
      let i := fa_block_index a in
      block_index_ok p i ∧ acquired p i = false ∧
      fa_offset a = i * fp_block_size p ∧ fa_offset a + fp_block_size p <= fp_block_count p * fp_block_size p ∧
      allocation_history a = history p i ∧
      (∀ j, 0 <= j → acquired p' j = bool_decide (j = i) || acquired p j) ∧
      (∀ j, history p' j = history p j) ∧
      fs_allocation_count (iree_hal_memory_fixed_block_allocator_query_stats p') =
        fs_allocation_count (iree_hal_memory_fixed_block_allocator_query_stats p) + 1
  | Err code => code = IREE_STATUS_RESOURCE_EXHAUSTED ∧ p' = p ∧ ∀ i, block_index_ok p i → acquired p i = true
  end.
Proof.
  intros Hp. unfold iree_hal_memory_fixed_block_allocator_acquire.
  destruct (try_acquire_spec p Hp) as [(i & Hi & Hfree & ->)|[-> Hfull]]; simpl mbind.
  - eexists _, _. split; [done|]. split; [by apply claimed_ok|].
    destruct (read_block_history p Hp i Hi) as (Ho & Ei & Eh). cbv zeta. rewrite Ei, Ho, Eh.
    do 3 (split; [done|]). split.
    + pose proof (po_size p Hp). unfold block_index_ok in Hi. nia.
    + split; [done|]. split; [intros j Hj; by apply claimed_bit|]. split; [done|].
      pose proof (count_bounds p Hp). simpl. by rewrite uadd_small by lia.
  - by eexists _, _.
Qed.

Lemma fixed_acquire_exact_witness :
  ∃ a p', iree_hal_memory_fixed_block_allocator_acquire sample_pool = Some (Ok a, p') ∧ pool_ok p' ∧
    acquired sample_pool (fa_block_index a) = false ∧ allocation_history a = history sample_pool (fa_block_index a).
Proof.
  destruct (fixed_acquire_exact sample_pool sample_pool_ok) as ([a|code] & p' & E & Hok & Hr).
  - destruct Hr as (_ & Hf & _ & _ & Hh & _). exists a, p'. split_and!; assumption.
  - exfalso. vm_compute in E. discriminate E.
Defined.

(** Release frees exactly the named block and replaces its history by the death
    frontier, by the empty history when there is none, or by taint when the frontier is
    wider than the block's storage; restore frees the block and keeps its history. *)
Theorem fixed_release_exact p i death :
  pool_ok p → block_index_ok p i → acquired p i = true → death_ok death →
  let frees p' history_of :=
    pool_ok p' ∧
    (∀ j, 0 <= j → acquired p' j = negb (bool_decide (j = i)) && acquired p j) ∧
    (∀ j, block_index_ok p j → history p' j = if decide (j = i) then history_of else history p j) in
  frees (iree_hal_memory_fixed_block_allocator_release p i death) (released_history (fp_frontier_capacity p) death) ∧
  frees (iree_hal_memory_fixed_block_allocator_restore p i) (history p i).
Proof.
  intros Hp Hi Hheld Hd. cbv zeta. split; [by apply release_spec|].
  split; [by apply release_bit_ok|]. split; [intros j Hj; by apply released_bit|].
  intros j Hj. by case_decide; subst.
Qed.

Lemma fixed_release_exact_witness :
  history (iree_hal_memory_fixed_block_allocator_release (claimed 3 sample_pool) 3 (Some sample_fixed_frontier)) 3 =
    Some [entry 3 10].
Proof.
  assert (block_index_ok sample_pool 3) as Hi by by split.
  pose proof (claimed_ok sample_pool sample_pool_ok 3 Hi eq_refl) as Hok.
  assert (death_ok (Some sample_fixed_frontier)) as Hd by (intros f Hf; by apply (fot_initial _ sample_fixed_typed)).
  apply (fixed_release_exact (claimed 3 sample_pool) 3 (Some sample_fixed_frontier) Hok Hi eq_refl Hd). exact Hi.
Defined.

(** ** Candidates *)

Section query.
Context (p : pool_t) (Hp : pool_ok p) (start : Z) (Hstart : 0 <= start).

(** A free bit of [lo, 64 * word_count) at or after [start] and the first of them. *)
Definition first_free (lo i : Z) : Prop :=
  lo <= i < 64 * fp_word_count p ∧ start <= i ∧ acquired p i = false ∧
  ∀ j, lo <= j < i → start <= j → acquired p j = true.

Definition none_free (lo hi : Z) : Prop := ∀ j, lo <= j < hi → start <= j → acquired p j = true.

Lemma available_bits w mask k :
  0 <= w → 0 <= k < 64 → (∀ k, 0 <= k < 64 → Z.testbit mask k = (start <=? 64 * w + k)) →
  Z.testbit (Z.land (unot 64 (word_at (fp_bitmap p) w)) mask) k =
    negb (acquired p (64 * w + k)) && (start <=? 64 * w + k).
Proof using.
  intros Hw Hk Hm. destruct (index_join w k Hk) as [Eq Er]. unfold acquired, bit_at. rewrite Eq, Er.
  rewrite Z.land_spec, unot_testbit, Hm, (proj2 (Z.ltb_lt k 64)) by lia. done.
Qed.

Lemma query_words_spec n : ∀ w mask,
  0 <= w → w + Z.of_nat n = fp_word_count p → in_width 64 mask →
  (∀ k, 0 <= k < 64 → Z.testbit mask k = (start <=? 64 * w + k)) → start < 64 * (w + 1) →
  (∃ i, first_free (64 * w) i ∧
    query_words n p w mask = Some (iree_hal_memory_fixed_block_allocator_read_block p i)) ∨
  (query_words n p w mask = None ∧ none_free (64 * w) (64 * fp_word_count p)).
Proof using Hp Hstart.
  induction n as [|n IH]; intros w mask Hw Hn Hmw Hm Hs; [right; split; [done|intros j ?; lia]|].
  cbn [query_words]. set (available := Z.land _ mask).
  assert (in_width 64 available) as Hav by (apply land_in_width; [lia|by apply unot_in_width|by destruct Hmw]).
  assert (∀ k, 0 <= k < 64 → Z.testbit available k = negb (acquired p (64 * w + k)) && (start <=? 64 * w + k)) as Hbits
    by (intros k Hk; by apply available_bits).
  destruct (Z.eqb_spec available 0) as [E0|NE]; simpl negb; cbn iota.
  - assert (none_free (64 * w) (64 * (w + 1))) as Hnone.
    { intros j Hj Hjs. specialize (Hbits (j - 64 * w) ltac:(lia)). rewrite E0, Z.bits_0 in Hbits.
      replace (64 * w + (j - 64 * w)) with j in Hbits by lia. rewrite (proj2 (Z.leb_le start j)) in Hbits by done.
      by destruct (acquired p j). }
    destruct (IH (w + 1) (umax 64)) as [(i & (Hi & Hsi & Hf & Hmin) & ->)|[-> Hno]]; [lia|lia|by split| |lia| |].
    + intros k Hk. unfold umax. rewrite ones_testbit by lia. rewrite (proj2 (Z.ltb_lt k 64)) by lia.
      symmetry. apply Z.leb_le. lia.
    + left. exists i. split; [|done]. split; [lia|]. split; [done|]. split; [done|]. intros j Hj Hjs.
      destruct (Z.lt_ge_cases j (64 * (w + 1))); [apply Hnone; lia|apply Hmin; lia].
    + right. split; [done|]. intros j Hj Hjs.
      destruct (Z.lt_ge_cases j (64 * (w + 1))); [apply Hnone; lia|apply Hno; lia].
  - destruct (lowest_set available ltac:(destruct Hav; lia) Hav) as (Hk & Hb & Hlow).
    set (k := iree_math_count_trailing_zeros_u64 available) in *. left. exists (64 * w + k).
    pose proof (word_count_bounds p Hp). rewrite Hbits in Hb by done. apply andb_true_iff in Hb as [Hb1 Hb2].
    split.
    + split; [lia|]. split; [by apply Z.leb_le|]. split; [by apply negb_true_iff|]. intros j Hj Hjs.
      specialize (Hlow (j - 64 * w) ltac:(lia)). rewrite Hbits in Hlow by lia.
      replace (64 * w + (j - 64 * w)) with j in Hlow by lia. rewrite (proj2 (Z.leb_le start j)) in Hlow by done.
      by destruct (acquired p j).
    + rewrite uadd_small by lia. by rewrite Z.mul_comm.
Qed.

Lemma query_candidate_spec :
  (∃ i, block_index_ok p i ∧ start <= i ∧ acquired p i = false ∧ (∀ j, start <= j < i → acquired p j = true) ∧
    iree_hal_memory_fixed_block_allocator_query_candidate p start =
      Some (iree_hal_memory_fixed_block_allocator_read_block p i)) ∨
  (iree_hal_memory_fixed_block_allocator_query_candidate p start = None ∧
    ∀ j, block_index_ok p j → start <= j → acquired p j = true).
Proof using Hp Hstart.
  pose proof (word_count_bounds p Hp). pose proof (index_split start) as [Es Hr].
  unfold iree_hal_memory_fixed_block_allocator_query_candidate.
  destruct (Z.lt_ge_cases (start / 64) (fp_word_count p)) as [Hlt|Hge].
  - destruct (query_words_spec (Z.to_nat (fp_word_count p - start / 64)) (start / 64)
      (ushl 64 (umax 64) (start mod 64))) as [(i & (Hi & Hsi & Hf & Hmin) & ->)|[-> Hno]];
      [lia|lia|by apply wrap_in_width| |lia| |].
    + intros k Hk. rewrite ushl_testbit, (proj2 (Z.ltb_lt k 64)) by lia. simpl.
      destruct (Z.leb_spec start (64 * (start / 64) + k)).
      * unfold umax. rewrite ones_testbit by lia. apply Z.ltb_lt. lia.
      * apply Z.testbit_neg_r. lia.
    + left. exists i. split; [by apply clear_bit_is_block; [|lia|]|]. split_and!; try done. intros j Hj. apply Hmin; lia.
    + right. split; [done|]. intros j Hj Hjs. unfold block_index_ok in Hj. apply Hno; lia.
  - right. rewrite Z2Nat.nonpos by lia. split; [done|]. intros j Hj Hjs. unfold block_index_ok in Hj. lia.
Qed.
End query.

(** An allocation record as [read_block] writes it. *)
Definition candidate_ok (c : fixed_allocation) : Prop :=
  (fa_block_flags c = 0 ∨ fa_block_flags c = 1 ∧ fa_death_frontier c = None) ∧
  ∀ f, fa_death_frontier c = Some f → frontier_ok f ∧ entry_count f ≠ 0.

Lemma read_block_candidate p i :
  pool_ok p → block_index_ok p i → candidate_ok (iree_hal_memory_fixed_block_allocator_read_block p i).
Proof.
  intros Hp Hi. destruct (fixed_block_ok p Hp i Hi) as ([Hf _] & _ & Hfl). destruct (po_initial p Hp) as [Hf0 _].
  unfold candidate_ok, iree_hal_memory_fixed_block_allocator_read_block. simpl. split.
  - destruct (_ =? fp_generation p); [|by left]. destruct Hfl as [?|[? ->]]; [by left|]. by right.
  - intros f. destruct (_ =? fp_generation p);
      (match goal with |- context [?c =? 0] => destruct (Z.eqb_spec c 0) as [|Hne] end); intros [= <-]; done.
Qed.

Lemma live_nonempty f : frontier_ok f → entry_count f ≠ 0 → live f ≠ [].
Proof. intros Hf Hne E. apply Hne. by rewrite <- (live_length f Hf), E. Qed.

(** Two records agree exactly when their histories do. *)
Lemma same_history_iff c d :
  candidate_ok c → candidate_ok d →
  allocation_history c = allocation_history d ↔
  (fa_block_flags c =? fa_block_flags d) = true ∧
  match fa_death_frontier c, fa_death_frontier d with
  | Some f, Some g => live f = live g
  | None, None => True
  | _, _ => False
  end.
Proof.
  intros [Hcf Hcd] [Hdf Hdd]. unfold allocation_history. rewrite Z.eqb_eq.
  assert (∀ f, fa_death_frontier c = Some f → live f ≠ []) as Hc by (intros f Hf; apply live_nonempty; by apply Hcd).
  assert (∀ f, fa_death_frontier d = Some f → live f ≠ []) as Hd by (intros f Hf; apply live_nonempty; by apply Hdd).
  destruct Hcf as [->|[-> Ec]], Hdf as [->|[-> Ed]]; simpl; try (split; [done|by intros [? _]]).
  - destruct (fa_death_frontier c) as [f|], (fa_death_frontier d) as [g|]; simpl; clear Hcd Hdd.
    + split; [by intros [= ->]|by intros [_ ->]].
    + specialize (Hc f eq_refl). split; [congruence|by intros [_ []]].
    + specialize (Hd g eq_refl). split; [congruence|by intros [_ []]].
    + done.
  - by rewrite Ec, Ed.
Qed.

Lemma candidate_is_current_spec p c :
  pool_ok p → block_index_ok p (fa_block_index c) → candidate_ok c →
  iree_hal_memory_fixed_block_allocator_candidate_is_current p c = true ↔
  acquired p (fa_block_index c) = false ∧ history p (fa_block_index c) = allocation_history c.
Proof.
  intros Hp Hi Hc. set (i := fa_block_index c) in *.
  pose proof (read_block_candidate p i Hp Hi) as Hr. destruct (read_block_history p Hp i Hi) as (_ & _ & <-).
  unfold iree_hal_memory_fixed_block_allocator_candidate_is_current. fold i.
  set (r := iree_hal_memory_fixed_block_allocator_read_block p i) in *.
  rewrite mask_test by (unfold block_index_ok in Hi; lia). change (bit_at _ _) with (acquired p i).
  rewrite (same_history_iff r c Hr Hc). clearbody r. destruct (acquired p i); [split; [done|by intros [? _]]|].
  destruct (fa_block_flags r =? fa_block_flags c); simpl; [|split; [done|by intros (_ & ? & _)]].
  destruct Hr as [_ Hr], Hc as [_ Hc].
  destruct (fa_death_frontier r) as [f|], (fa_death_frontier c) as [g|]; [|tauto || (split; [done|tauto])..].
  destruct (Hr f eq_refl) as [Hf _], (Hc g eq_refl) as [Hg _].
  rewrite andb_true_iff, Z.eqb_eq, bool_decide_eq_true. unfold live. split.
  - intros [E1 E2]. rewrite E1. by split_and!.
  - intros (_ & _ & E). assert (entry_count f = entry_count g) as En.
    { rewrite <- (live_length f Hf), <- (live_length g Hg). unfold live. by rewrite E. }
    split; [done|]. by rewrite <- E, En.
Qed.

(** The candidate query returns the first free block at or after the start, with its
    history, and no candidate only when every such block is acquired.  A snapshot of any
    time is current exactly when its block is free with the same history, and claiming a
    current candidate acquires that block only, delivering the same history. *)
Theorem fixed_candidates_exact p start snapshot :
  pool_ok p → 0 <= start → candidate_ok snapshot → block_index_ok p (fa_block_index snapshot) →
  match iree_hal_memory_fixed_block_allocator_query_candidate p start with
  | Some c =>
      let i := fa_block_index c in
      block_index_ok p i ∧ start <= i ∧ acquired p i = false ∧ (∀ j, start <= j < i → acquired p j = true) ∧
      allocation_history c = history p i ∧
      iree_hal_memory_fixed_block_allocator_candidate_is_current p c = true
  | None => ∀ j, block_index_ok p j → start <= j → acquired p j = true
  end ∧
  (let i := fa_block_index snapshot in
   (iree_hal_memory_fixed_block_allocator_candidate_is_current p snapshot = true ↔
      acquired p i = false ∧ history p i = allocation_history snapshot) ∧
   (iree_hal_memory_fixed_block_allocator_candidate_is_current p snapshot = true →
      let '(a, p') := iree_hal_memory_fixed_block_allocator_acquire_candidate p i in
      pool_ok p' ∧ fa_block_index a = i ∧ allocation_history a = allocation_history snapshot ∧
      (∀ j, 0 <= j → acquired p' j = bool_decide (j = i) || acquired p j) ∧ ∀ j, history p' j = history p j)).
Proof.
  intros Hp Hs Hc Hi. split.
  - destruct (query_candidate_spec p Hp start Hs) as [(i & Hok & Hsi & Hf & Hmin & ->)|[-> Hno]]; [|done].
    destruct (read_block_history p Hp i Hok) as (_ & Ei & Eh). cbv zeta. rewrite Ei. split_and!; try done.
    apply candidate_is_current_spec; [done|by rewrite Ei|by apply read_block_candidate|by rewrite Ei].
  - cbv zeta. split; [by apply candidate_is_current_spec|].
    intros [Hf Eh]%candidate_is_current_spec; [|done..]. set (i := fa_block_index snapshot) in *.
    change (iree_hal_memory_fixed_block_allocator_acquire_candidate p i) with
      (iree_hal_memory_fixed_block_allocator_read_block (claimed i p) i, claimed i p). cbv iota beta.
    destruct (read_block_history p Hp i Hi) as (_ & Ei & Er).
    change (iree_hal_memory_fixed_block_allocator_read_block (claimed i p) i) with
      (iree_hal_memory_fixed_block_allocator_read_block p i).
    split; [by apply claimed_ok|]. split; [done|]. split; [by rewrite Er|]. split; [|done].
    intros j Hj. by apply claimed_bit.
Qed.

Lemma fixed_candidates_exact_witness :
  iree_hal_memory_fixed_block_allocator_candidate_is_current (claimed 3 sample_pool)
    (iree_hal_memory_fixed_block_allocator_read_block sample_pool 3) = true ↔
  acquired (claimed 3 sample_pool) 3 = false ∧
  history (claimed 3 sample_pool) 3 =
    allocation_history (iree_hal_memory_fixed_block_allocator_read_block sample_pool 3).
Proof.
  assert (block_index_ok sample_pool 3) as Hi by by split.
  pose proof (claimed_ok sample_pool sample_pool_ok 3 Hi eq_refl) as Hok.
  apply (fixed_candidates_exact (claimed 3 sample_pool) 0 _ Hok ltac:(lia) (read_block_candidate _ _ sample_pool_ok Hi) Hi).
Defined.
