(* ===== verification/FixedBlockMerge.v ===== *)
(** * Collecting the histories of a free pool

    [iree_hal_memory_fixed_block_allocator_merge_free_frontiers] walks the words of the
    returned bitmap; it is related to a fold over the list of the returned blocks, and
    that fold to the union of the histories of all blocks. *)

From S2P Require Import Prelude BaseMath BitWords Allocator Frontier Tlsf FixedBlock FixedBlockProps.
From S2P Require Import FixedBlockInit.
From stdpp Require Import base numbers list list_numbers gmap.

Local Open Scope Z_scope.
Local Open Scope machine_scope.

(** ** Unions of histories *)

Definition union_all (hs : list (list entry_t)) : list entry_t := foldl fmerge [] hs.

Lemma fold_valid hs : ∀ a, valid_entries a → Forall valid_entries hs → valid_entries (foldl fmerge a hs).
Proof.
  induction hs as [|h hs IH]; intros a Ha Hv; [done|]. apply Forall_cons in Hv as [Hh Hv]. apply IH; [|done].
  by apply fmerge_valid.
Qed.

(** The epochs of a union are the least upper bounds. *)
Lemma fold_epoch_le hs x m : ∀ a,
  valid_entries a → Forall valid_entries hs →
  epoch_of (foldl fmerge a hs) x <= m ↔ epoch_of a x <= m ∧ Forall (λ h, epoch_of h x <= m) hs.
Proof.
  induction hs as [|h hs IH]; intros a Ha Hv; simpl; [rewrite Forall_nil; tauto|].
  apply Forall_cons in Hv as [Hh Hv]. rewrite IH by (done || by apply fmerge_valid).
  rewrite fmerge_epoch, Z.max_lub_iff, Forall_cons by done. tauto.
Qed.

Lemma union_epoch_le hs x m :
  Forall valid_entries hs → 0 <= m → epoch_of (union_all hs) x <= m ↔ Forall (λ h, epoch_of h x <= m) hs.
Proof.
  intros Hv Hm. unfold union_all. rewrite fold_epoch_le by (done || by split; constructor). simpl. tauto.
Qed.

Lemma fold_length_ge hs : ∀ a, (length a <= length (foldl fmerge a hs))%nat.
Proof.
  induction hs as [|h hs IH]; intros a; simpl; [done|]. pose proof (fmerge_length_ge a h). specialize (IH (fmerge a h)). lia.
Qed.

Lemma fold_app_length a hs h : (length (foldl fmerge a hs) <= length (foldl fmerge a (hs ++ [h])))%nat.
Proof. rewrite foldl_app. simpl. apply fmerge_length_ge. Qed.

Lemma union_valid hs : Forall valid_entries hs → valid_entries (union_all hs).
Proof. intros. apply fold_valid; [split; constructor|done]. Qed.

Lemma union_covers hs h x : Forall valid_entries hs → h ∈ hs → epoch_of h x <= epoch_of (union_all hs) x.
Proof.
  intros Hv Hh. pose proof (epoch_of_nonneg _ x (proj2 (union_valid hs Hv))) as Hn.
  pose proof (proj1 (union_epoch_le hs x _ Hv Hn) ltac:(lia)) as H. rewrite Forall_forall in H. by apply H.
Qed.

Lemma union_mono hs hs' x :
  Forall valid_entries hs → Forall valid_entries hs' → (∀ h, h ∈ hs → h ∈ hs') →
  epoch_of (union_all hs) x <= epoch_of (union_all hs') x.
Proof.
  intros Hv Hv' Hm. apply union_epoch_le; [done|apply epoch_of_nonneg, union_valid, Hv'|].
  rewrite Forall_forall. intros h Hh. by apply union_covers, Hm.
Qed.

(** Unions of lists with the same members agree. *)
Lemma union_same_members hs hs' :
  Forall valid_entries hs → (∀ h, h ∈ hs ↔ h ∈ hs') →
  (∀ x, epoch_of (union_all hs) x = epoch_of (union_all hs') x) ∧ length (union_all hs) = length (union_all hs').
Proof.
  intros Hv Hm. assert (Forall valid_entries hs') as Hv'.
  { rewrite Forall_forall in *. intros h Hh. by apply Hv, Hm. }
  pose proof (union_valid hs Hv) as Vu. pose proof (union_valid hs' Hv') as Vu'.
  assert (∀ x, epoch_of (union_all hs) x = epoch_of (union_all hs') x) as He.
  { intros x. apply Z.le_antisymm; apply union_mono; try done; intros h; apply Hm. }
  split; [done|]. rewrite <- (size_axes _ (proj1 Vu)), <- (size_axes _ (proj1 Vu')). f_equal. apply set_eq. intros x.
  by rewrite !elem_of_axes, He.
Qed.

(** ** The bits of a word *)

(** [x & (x - 1)] drops the lowest set bit. *)
Lemma drop_lowest_testbit x j :
  0 < x → 0 <= j → Z.testbit (Z.land x (x - 1)) j = Z.testbit x j && negb (bool_decide (j = ctz x)).
Proof.
  intros Hx Hj. destruct (ctz_divide x Hx) as [q Hq]. set (k := ctz x) in *. pose proof (ctz_nonneg x : 0 <= k) as Hk.
  pose proof (pow2_pos k Hk) as Hpow. rewrite Z.land_spec.
  destruct (Z.lt_trichotomy j k) as [Hlt|[->|Hgt]].
  - by rewrite (ctz_low x j Hx Hlt).
  - rewrite bool_decide_eq_true_2 by done. simpl. rewrite <- (Z.add_0_l k) at 2. rewrite <- Z.div_pow2_bits by lia.
    replace ((x - 1) / 2 ^ k) with (2 * q).
    + rewrite Z.testbit_even_0. done.
    + apply (Z.div_unique_pos _ _ _ (2 ^ k - 1)); nia.
  - rewrite bool_decide_eq_false_2 by lia. simpl. rewrite andb_true_r.
    assert (Z.testbit (x - 1) j = Z.testbit x j) as ->; [|by destruct (Z.testbit x j)].
    replace j with ((j - k - 1) + (k + 1)) by lia. rewrite <- !Z.div_pow2_bits by lia. f_equal.
    rewrite Z.pow_add_r by lia. trans q; [|symmetry].
    + symmetry. apply (Z.div_unique_pos _ _ _ (2 ^ k - 1)); nia.
    + symmetry. apply (Z.div_unique_pos _ _ _ (2 ^ k)); nia.
Qed.

Lemma drop_lowest_width x : in_width 64 x → 0 < x → in_width 64 (Z.land x (x -64 1)) ∧ Z.land x (x -64 1) = Z.land x (x - 1).
Proof.
  intros Hw Hx. unfold in_width in Hw. rewrite usub_small by (unfold in_width; lia). split; [|done].
  apply land_in_width; [lia|done|lia].
Qed.

Lemma list_filter_iff' {A} (P Q : A → Prop) `{∀ x, Decision (P x), ∀ x, Decision (Q x)} (l : list A) :
  (∀ x, x ∈ l → P x ↔ Q x) → filter P l = filter Q l.
Proof.
  induction l as [|x l IH]; intros Hn; [done|]. rewrite !filter_cons, IH by (intros y Hy; apply Hn; by right).
  pose proof (Hn x ltac:(by left)). by do 2 case_decide; tauto || done.
Qed.

Lemma filter_of_fmap {A B} (f : A → B) (P : B → Prop) `{∀ x, Decision (P x)} (l : list A) :
  filter P (f <$> l) = f <$> filter (λ x, P (f x)) l.
Proof. induction l as [|x l IH]; [done|]. rewrite fmap_cons, !filter_cons, IH. by case_decide. Qed.

Lemma filter_none {A} (P : A → Prop) `{∀ x, Decision (P x)} (l : list A) : (∀ x, x ∈ l → ¬ P x) → filter P l = [].
Proof.
  induction l as [|x l IH]; intros Hn; [done|]. rewrite filter_cons_False by (apply Hn; by left).
  apply IH. intros y Hy. apply Hn. by right.
Qed.

(** The positions of the set bits of [word] from [k] on, as block indices of word [w]. *)
Definition set_positions (w word k : Z) : list Z :=
  (λ j, w * 64 + j) <$> filter (λ j, Z.testbit word j = true) (seqZ k (64 - k)).

Lemma set_positions_skip w word k k' :
  0 <= k <= k' → k' <= 64 → (∀ j, k <= j < k' → Z.testbit word j = false) → set_positions w word k = set_positions w word k'.
Proof.
  intros Hk Hk' Hb. unfold set_positions. f_equal. replace (64 - k) with ((k' - k) + (64 - k')) by lia.
  rewrite seqZ_app, filter_app by lia. replace (k + (k' - k)) with k' by lia.
  rewrite filter_none; [done|]. intros j Hj%elem_of_seqZ. rewrite Hb by lia. done.
Qed.

Lemma set_positions_first w word :
  in_width 64 word → 0 < word → ∀ k, 0 <= k → (∀ j, 0 <= j < k → Z.testbit word j = false) →
  let c := ctz word in
  k <= c < 64 ∧ set_positions w word k = (w * 64 + c) :: set_positions w (Z.land word (word - 1)) (c + 1).
Proof.
  intros Hw Hpos k Hk Hlow. cbv zeta. pose proof (ctz_bound 64 word ltac:(lia) Hpos Hw). pose proof (ctz_nonneg word).
  pose proof (ctz_testbit word Hpos) as Hb. set (c := ctz word) in *.
  assert (k <= c) as Hkc by (apply Z.nlt_ge; intros Hlt; by rewrite (Hlow c) in Hb).
  split; [done|]. rewrite (set_positions_skip w word k c); [|done|lia|intros j Hj; apply ctz_low; [done|lia]].
  unfold set_positions. rewrite seqZ_cons, filter_cons_True, fmap_cons by (done || lia). f_equal. f_equal.
  replace (Z.pred (64 - c)) with (64 - (c + 1)) by lia. replace (Z.succ c) with (c + 1) by lia.
  apply list_filter_iff'. intros j Hj%elem_of_seqZ. rewrite drop_lowest_testbit, bool_decide_eq_false_2, andb_true_r by lia. done.
Qed.

(** ** From words to blocks *)

Section walk.
Context (p : pool_t) (capacity : Z) (overflow : option overflow_handler).

Definition accumulator : Type := iree_async_frontier_t * list (iree_async_frontier_t * iree_async_frontier_t).

(** The walk over a list of returned blocks. *)
Fixpoint merge_blocks (bs : list Z) (acc : accumulator) : option (bool * accumulator) :=
  match bs with
  | [] => Some (true, acc)
  | i :: bs =>
      if negb (fb_flags (fixed_block_at p i) =? 0) then Some (false, acc)
      else
        '(continue, acc) ← merge_history capacity overflow (fb_frontier (fixed_block_at p i)) acc;
        if (continue : bool) then merge_blocks bs acc else Some (false, acc)
  end.

Lemma merge_blocks_app bs bs' : ∀ acc,
  merge_blocks (bs ++ bs') acc =
    ('(continue, acc) ← merge_blocks bs acc; if (continue : bool) then merge_blocks bs' acc else Some (false, acc)).
Proof using.
  induction bs as [|i bs IH]; intros acc; [done|]. cbn [app merge_blocks].
  destruct (negb _); [done|]. destruct (merge_history _ _ _ acc) as [[[] acc']|]; [apply IH|done|done].
Qed.

Lemma merge_returned_eq w fuel : ∀ word k acc,
  0 <= w < 64 → in_width 64 word → 0 <= k → 64 - k <= Z.of_nat fuel →
  (∀ j, 0 <= j < k → Z.testbit word j = false) →
  merge_returned fuel p capacity overflow w word acc = merge_blocks (set_positions w word k) acc.
Proof using.
  induction fuel as [|fuel IH]; intros word k acc Hw Hword Hk Hfuel Hlow.
  - assert (word = 0) as -> by (apply word_zero_iff; [done|]; intros j Hj; apply Hlow; lia).
    unfold set_positions. by rewrite filter_none by (intros j _; by rewrite Z.bits_0).
  - cbn [merge_returned]. destruct (Z.eqb_spec word 0) as [->|NE].
    { unfold set_positions. by rewrite filter_none by (intros j _; by rewrite Z.bits_0). }
    assert (0 < word) as Hpos by (destruct Hword; lia).
    destruct (set_positions_first w word Hword Hpos k Hk Hlow) as [Hc ->]. destruct (drop_lowest_width word Hword Hpos) as [Hw' ->].
    rewrite count_trailing_zeros_u64_eq by done. set (c := ctz word) in *. rewrite uadd_small by lia. cbn [merge_blocks].
    destruct (negb _); [done|]. destruct (merge_history _ _ _ acc) as [[[] acc']|]; [|done|done].
    cbn [mbind option_bind]. apply IH; [done| |lia|lia|].
    + by destruct (drop_lowest_width word Hword Hpos) as [H1 <-].
    + intros j Hj. rewrite drop_lowest_testbit by lia. fold c. case_bool_decide; [by rewrite andb_false_r|].
      rewrite ctz_low by lia. done.
Qed.

(** The returned blocks of the words [w, w + n). *)
Definition returned_in (lo n : Z) : list Z := filter (λ i, bit_at (fp_returned_bitmap p) i = true) (seqZ lo n).

Lemma set_positions_word w :
  0 <= w → set_positions w (word_at (fp_returned_bitmap p) w) 0 = returned_in (64 * w) 64.
Proof using.
  intros Hw. unfold set_positions, returned_in. rewrite Z.sub_0_r.
  assert (seqZ (64 * w) 64 = (λ j, w * 64 + j) <$> seqZ 0 64) as ->.
  { rewrite <- (Z.add_0_r (64 * w)), <- fmap_add_seqZ. apply list_fmap_ext. intros _ j _. lia. }
  rewrite filter_of_fmap. f_equal. apply list_filter_iff'. intros j Hj%elem_of_seqZ.
  simpl. unfold bit_at. destruct (index_join w j ltac:(lia)) as [Eq Er].
  rewrite (Z.mul_comm w 64), Eq, Er. done.
Qed.

Definition valid_word (w : Z) : Z :=
  if w + 1 =? fp_word_count p then Z.shiftr (umax 64) (Z.land (usub 32 0 (fp_block_count p)) 63) else umax 64.

Definition partial_words (w : Z) (n : nat) : bool :=
  existsb (λ w, negb (word_at (fp_returned_bitmap p) w =? valid_word w)) (seqZ w (Z.of_nat n)).

Lemma merge_words_eq n : ∀ w untouched acc,
  words_ok (fp_returned_bitmap p) → 0 <= w → w + Z.of_nat n <= 64 →
  ∃ untouched',
  merge_words n p capacity overflow w untouched acc =
    ('(continue, acc) ← merge_blocks (returned_in (64 * w) (64 * Z.of_nat n)) acc; Some (continue, untouched', acc)) ∧
  ((∃ acc', merge_blocks (returned_in (64 * w) (64 * Z.of_nat n)) acc = Some (true, acc')) →
    untouched' = untouched || partial_words w n).
Proof using.
  induction n as [|n IH]; intros w untouched acc Hok Hw Hn.
  { exists untouched. split; [done|]. intros _. unfold partial_words. by rewrite orb_false_r. }
  cbn [merge_words]. fold (valid_word w).
  rewrite (merge_returned_eq w 64 _ 0) by (lia || by apply word_at_width || (intros j Hj; lia)).
  rewrite set_positions_word by done.
  assert (returned_in (64 * w) (64 * Z.of_nat (S n)) = returned_in (64 * w) 64 ++ returned_in (64 * (w + 1)) (64 * Z.of_nat n)) as ->.
  { unfold returned_in. replace (64 * Z.of_nat (S n)) with (64 + 64 * Z.of_nat n) by lia.
    rewrite seqZ_app, filter_app by lia. by replace (64 * w + 64) with (64 * (w + 1)) by lia. }
  rewrite !merge_blocks_app. destruct (merge_blocks (returned_in (64 * w) 64) acc) as [[[] acc']|]; cbn [mbind option_bind].
  - destruct (IH (w + 1) (untouched || negb (word_at (fp_returned_bitmap p) w =? valid_word w)) acc') as (u & -> & Hu);
      [done|lia|lia|]. exists u. split; [done|]. intros H. rewrite Hu by done. unfold partial_words.
    rewrite (seqZ_cons w) by lia. cbn [existsb]. rewrite <- orb_assoc.
    by replace (Z.pred (Z.of_nat (S n))) with (Z.of_nat n) by lia.
  - eexists. split; [done|]. by intros [? ?].
  - exists false. split; [done|]. by intros [? ?].
Qed.
End walk.

(** ** The accumulated frontier *)

(** What the owner of an overflow handler means by [covers h h']: waiting for [h'] is
    enough for [h].  It extends the order of the clocks. *)
Class HistoryCover (covers : list entry_t → list entry_t → Prop) := {
  cover_trans h1 h2 h3 : covers h1 h2 → covers h2 h3 → covers h1 h3;
  cover_clock h h' : valid_entries h → valid_entries h' → (∀ x, epoch_of h x <= epoch_of h' x) → covers h h';
}.

Section accumulate.
Context (p : pool_t) (Hp : pool_ok p) (capacity : Z) (Hcap : in_width 8 capacity).

Definition target_ok (out : iree_async_frontier_t) : Prop :=
  frontier_ok out ∧ entry_count out <= capacity <= Z.of_nat (length (entries out)).

Lemma merge_target out source :
  target_ok out → frontier_ok source →
  ∃ out', iree_async_frontier_merge out capacity source =
    Some (bool_decide (Z.of_nat (length (fmerge (live out) (live source))) <= capacity), out') ∧ target_ok out' ∧
  if decide (Z.of_nat (length (fmerge (live out) (live source))) <= capacity)
  then live out' = fmerge (live out) (live source) else out' = out.
Proof using Hcap.
  intros (Hf & Hc & Hl) Hs. destruct (merge_impl_correct out source capacity Hf Hs Hcap Hl Hc) as (r & E & Ho).
  exists (merge_target r). unfold iree_async_frontier_merge. rewrite E. cbn [mbind option_bind].
  unfold merge_outcome in Ho. case_decide as Hlen.
  - destruct Ho as (-> & Hm & _). rewrite bool_decide_eq_true_2 by done. split; [done|].
    split; [|by apply merged_into_live]. destruct Hcap. split.
    + apply (merged_into_ok out source); [done|done|done|lia].
    + destruct Hm as (-> & -> & _). rewrite length_app, length_drop. lia.
  - destruct Ho as (-> & -> & _). rewrite bool_decide_eq_false_2 by done. done.
Qed.

Lemma clear_target out : capacity <= Z.of_nat (length (entries out)) → target_ok (iree_async_frontier_initialize out 0) ∧
  live (iree_async_frontier_initialize out 0) = [].
Proof using Hcap.
  intros Hl. destruct Hcap. split; [|done]. split; [|simpl; lia]. by apply (clear_frontier_sized (Z.of_nat (length (entries out)))).
Qed.

Definition frontier_at (i : Z) : iree_async_frontier_t := fb_frontier (fixed_block_at p i).

Lemma frontier_at_ok i : block_index_ok p i → frontier_ok (frontier_at i).
Proof using Hp. intros Hi. by destruct (fixed_block_ok p Hp i Hi) as ([? _] & _). Qed.

Definition unflagged (i : Z) : Prop := fb_flags (fixed_block_at p i) = 0.

(** Without an overflow handler: the exact union, as long as it fits. *)
Lemma merge_blocks_exact cs bs : ∀ out,
  Forall (block_index_ok p) bs → target_ok out →
  let u := foldl fmerge (live out) ((λ i, live (frontier_at i)) <$> bs) in
  ∃ ok out', merge_blocks p capacity None bs (out, cs) = Some (ok, (out', cs)) ∧ target_ok out' ∧
  (ok = true ↔ Forall unflagged bs ∧ Z.of_nat (length u) <= capacity) ∧ (ok = true → live out' = u).
Proof using All.
  induction bs as [|i bs IH]; intros out Hbs Ht; cbv zeta.
  { exists true, out. split_and!; try done. split; [|done]. intros _. split; [done|]. simpl.
    destruct Ht as (Hf & ? & _). rewrite live_length by done. lia. }
  apply Forall_cons in Hbs as [Hi Hbs]. cbn [merge_blocks fmap list_fmap foldl]. fold (frontier_at i).
  destruct (Z.eqb_spec (fb_flags (fixed_block_at p i)) 0) as [E|NE]; simpl negb; cbn iota.
  2:{ exists false, out. split_and!; try done. split; [done|]. by intros [[? _]%Forall_cons _]. }
  destruct (merge_target out (frontier_at i) Ht (frontier_at_ok i Hi)) as (out1 & Em & Ht1 & Hl).
  unfold merge_history. rewrite Em. cbn [mbind option_bind]. case_decide as Hlen.
  - rewrite bool_decide_eq_true_2 by done. cbn [mbind option_bind]. destruct (IH out1 Hbs Ht1) as (ok & out' & -> & Ht' & Hok & Hl').
    rewrite Hl in Hok, Hl'. exists ok, out'. split_and!; try done. rewrite Hok, Forall_cons. unfold unflagged at 3. tauto.
  - rewrite bool_decide_eq_false_2 by done. exists false, out1. split_and!; try done. split; [done|]. intros [_ Hu].
    pose proof (fold_length_ge ((λ i, live (frontier_at i)) <$> bs) (fmerge (live out) (live (frontier_at i)))). lia.
Qed.

Context (covers : list entry_t → list entry_t → Prop) `{!HistoryCover covers}.

(** An overflow handler that leaves a frontier covering both of its inputs. *)
Definition handler_covers (h : overflow_handler) : Prop :=
  ∀ captures target source, target_ok target → frontier_ok source →
    target_ok (h captures target source) ∧
    covers (live target) (live (h captures target source)) ∧ covers (live source) (live (h captures target source)).

Lemma cover_merge a b : valid_entries a → valid_entries b → covers a (fmerge a b) ∧ covers b (fmerge a b).
Proof using HistoryCover0.
  intros Ha Hb. pose proof (fmerge_valid a b Ha Hb).
  split; (apply cover_clock; [done|done|]); intros x; rewrite fmerge_epoch by done; lia.
Qed.

Lemma merge_history_covers h source out cs :
  handler_covers h → target_ok out → frontier_ok source →
  ∃ out' cs', merge_history capacity (Some h) source (out, cs) = Some (true, (out', cs')) ∧ target_ok out' ∧
    covers (live out) (live out') ∧ covers (live source) (live out').
Proof using Hcap HistoryCover0.
  intros Hh Ht Hs. destruct (merge_target out source Ht Hs) as (out1 & Em & Ht1 & Hl).
  unfold merge_history. rewrite Em. cbn [mbind option_bind]. case_decide as Hlen.
  - rewrite bool_decide_eq_true_2 by done. exists out1, cs. split; [done|]. split; [done|].
    rewrite Hl. apply cover_merge; apply live_valid; [apply Ht|done].
  - rewrite bool_decide_eq_false_2 by done. subst out1. eexists _, _. split; [done|]. by apply Hh.
Qed.

Lemma merge_blocks_covers h bs : ∀ out cs,
  handler_covers h → Forall (block_index_ok p) bs → target_ok out →
  ∃ ok out' cs', merge_blocks p capacity (Some h) bs (out, cs) = Some (ok, (out', cs')) ∧ target_ok out' ∧
  (ok = true ↔ Forall unflagged bs) ∧
  (ok = true → covers (live out) (live out') ∧ Forall (λ i, covers (live (frontier_at i)) (live out')) bs).
Proof using All.
  induction bs as [|i bs IH]; intros out cs Hh Hbs Ht.
  { exists true, out, cs. do 3 (split; [done|]). intros _. split; [|done].
    apply cover_clock; [apply live_valid, Ht..|done]. }
  apply Forall_cons in Hbs as [Hi Hbs]. cbn [merge_blocks]. fold (frontier_at i).
  destruct (Z.eqb_spec (fb_flags (fixed_block_at p i)) 0) as [E|NE]; simpl negb; cbn iota.
  2:{ exists false, out, cs. split_and!; try done. split; [done|]. by intros [? _]%Forall_cons. }
  destruct (merge_history_covers h (frontier_at i) out cs Hh Ht (frontier_at_ok i Hi)) as (out1 & cs1 & -> & Ht1 & Hx & Hy).
  cbn [mbind option_bind]. destruct (IH out1 cs1 Hh Hbs Ht1) as (ok & out' & cs' & -> & Ht' & Hok & Hc).
  exists ok, out', cs'. split_and!; try done; [rewrite Hok, Forall_cons; unfold unflagged at 3; tauto|].
  intros Eok. destruct (Hc Eok) as [H1 H2]. split; [by apply (cover_trans _ (live out1))|].
  apply Forall_cons. split; [by apply (cover_trans _ (live out1))|done].
Qed.
End accumulate.

(** ** Untouched blocks *)

Section untouched.
Context (p : pool_t) (Hp : pool_ok p).

Lemma tail_shift : Z.land (usub 32 0 (fp_block_count p)) 63 = 64 * fp_word_count p - fp_block_count p.
Proof using Hp.
  pose proof (word_count_bounds p Hp). pose proof (po_count p Hp) as Hc.
  unfold IREE_HAL_MEMORY_FIXED_BLOCK_ALLOCATOR_MAX_BLOCKS in Hc. change 63 with (2 ^ 6 - 1). rewrite land_ones_mod by lia.
  assert (usub 32 0 (fp_block_count p) = 2 ^ 32 - fp_block_count p) as ->.
  { unfold usub, wrap. symmetry. apply (Z.mod_unique_pos _ _ (-1)); lia. }
  symmetry. apply (Z.mod_unique_pos _ _ (2 ^ 26 - fp_word_count p)); lia.
Qed.

Lemma valid_word_bit w k :
  0 <= w < fp_word_count p → 0 <= k < 64 →
  Z.testbit (valid_word p w) k = bool_decide (64 * w + k < fp_block_count p).
Proof using Hp.
  intros Hw Hk. pose proof (word_count_bounds p Hp). unfold valid_word, umax.
  destruct (Z.eqb_spec (w + 1) (fp_word_count p)) as [E|NE].
  - rewrite tail_shift, Z.shiftr_spec, ones_testbit by lia.
    destruct (Z.ltb_spec (k + (64 * fp_word_count p - fp_block_count p)) 64);
      [rewrite bool_decide_eq_true_2 by lia|rewrite bool_decide_eq_false_2 by lia]; done.
  - rewrite ones_testbit by lia. rewrite bool_decide_eq_true_2 by lia. apply Z.ltb_lt. lia.
Qed.

Lemma valid_word_width w : in_width 64 (valid_word p w).
Proof using Hp.
  unfold valid_word. destruct (_ =? _); [|by split]. apply shiftr_in_width; [lia|by split|].
  rewrite tail_shift. pose proof (word_count_bounds p Hp). lia.
Qed.

Lemma word_complete_iff w :
  0 <= w < fp_word_count p →
  word_at (fp_returned_bitmap p) w = valid_word p w ↔ ∀ i, block_index_ok p i → i / 64 = w → touched p i.
Proof using Hp.
  intros Hw. pose proof (po_returned p Hp) as [_ Hok]. pose proof (word_count_bounds p Hp). split.
  - intros E i Hi <-. pose proof (index_split i) as [Ei Hr]. unfold block_index_ok in Hi. apply (po_touched p Hp i Hi).
    unfold bit_at. rewrite E, valid_word_bit by lia. apply bool_decide_eq_true. lia.
  - intros Ht. apply word_ext. intros k Hk. destruct (Z.lt_ge_cases k 64) as [Hlt|Hge].
    2:{ rewrite !(testbit_above 64) by (lia || apply valid_word_width || by apply word_at_width). done. }
    rewrite valid_word_bit by lia. destruct (index_join w k ltac:(lia)) as [Eq Er].
    assert (Z.testbit (word_at (fp_returned_bitmap p) w) k = bit_at (fp_returned_bitmap p) (64 * w + k)) as ->
      by (unfold bit_at; by rewrite Eq, Er).
    case_bool_decide as Hb; [|apply (po_untouched p Hp); lia]. apply (po_touched p Hp); [lia|].
    apply Ht; [split; lia|done].
Qed.

Lemma partial_words_iff :
  partial_words p 0 (Z.to_nat (fp_word_count p)) = true ↔ ∃ i, block_index_ok p i ∧ ¬ touched p i.
Proof using Hp.
  pose proof (word_count_bounds p Hp). unfold partial_words. rewrite existsb_exists. setoid_rewrite <- list_elem_of_In.
  setoid_rewrite elem_of_seqZ. setoid_rewrite negb_true_iff. setoid_rewrite Z.eqb_neq. split.
  - intros (w & Hw & Hne). destruct (decide (Exists (λ i, block_index_ok p i ∧ ¬ touched p i) (seqZ (64 * w) 64))) as [Hex|Hno];
      [apply Exists_exists in Hex as (i & _ & ?); by exists i|]. exfalso. apply Hne, word_complete_iff; [lia|]. intros i Hi Hiw.
    destruct (decide (touched p i)); [done|]. exfalso. apply Hno, Exists_exists. exists i. split; [|done]. apply elem_of_seqZ.
    pose proof (index_split i). lia.
  - intros (i & Hi & Hu). exists (i / 64). pose proof (index_split i). unfold block_index_ok in Hi. split; [lia|].
    intros E. apply Hu. eapply word_complete_iff; [|exact E|done|done]. lia.
Qed.

(** The returned blocks are the touched ones. *)
Lemma returned_all i : i ∈ returned_in p 0 (64 * fp_word_count p) ↔ block_index_ok p i ∧ touched p i.
Proof using Hp.
  pose proof (word_count_bounds p Hp). unfold returned_in. rewrite list_elem_of_filter, elem_of_seqZ. split.
  - intros [Hb Hi]. destruct (Z.lt_ge_cases i (fp_block_count p)).
    + split; [split; lia|]. apply (po_touched p Hp); [lia|done].
    + rewrite (po_untouched p Hp) in Hb by lia. done.
  - intros [Hi Ht]. unfold block_index_ok in Hi. split; [by apply (po_touched p Hp)|lia].
Qed.
End untouched.

(** ** The union of all histories *)

(** The histories of the blocks that are not tainted. *)
Definition histories (p : pool_t) : list (list entry_t) := omap (history p) (seqZ 0 (fp_block_count p)).

Section collect.
Context (p : pool_t) (Hp : pool_ok p).

Definition untainted : Prop := ∀ i, block_index_ok p i → is_Some (history p i).

Definition some_untouched : Prop := ∃ i, block_index_ok p i ∧ ¬ touched p i.

(** The returned blocks. *)
Definition returned_blocks : list Z := returned_in p 0 (64 * fp_word_count p).

(** The frontiers that the walk reads. *)
Definition sources (untouched : bool) : list (list entry_t) :=
  ((λ i, live (frontier_at p i)) <$> returned_blocks) ++ (if untouched then [live (fp_initial_frontier p)] else []).

Lemma touched_history i : touched p i → history p i = own_history (fixed_block_at p i).
Proof using. intros E. unfold history, block_history. by rewrite E, Z.eqb_refl. Qed.

Lemma untouched_history i : ¬ touched p i → history p i = Some (live (fp_initial_frontier p)).
Proof using. intros NE. unfold history, block_history. by rewrite (proj2 (Z.eqb_neq _ _) NE). Qed.

Lemma returned_blocks_ok : Forall (block_index_ok p) returned_blocks.
Proof using Hp. apply Forall_forall. by intros i [? _]%returned_all. Qed.

Lemma untainted_iff : untainted ↔ Forall (unflagged p) returned_blocks.
Proof using Hp.
  rewrite Forall_forall. unfold unflagged. split.
  - intros Hu i [Hi Ht]%returned_all; [|done]. specialize (Hu i Hi). rewrite touched_history in Hu by done.
    unfold own_history in Hu. destruct (Z.eqb_spec (fb_flags (fixed_block_at p i)) 0); [done|by destruct Hu].
  - intros Hu i Hi. destruct (decide (touched p i)) as [Ht|Ht]; [|by rewrite untouched_history].
    rewrite touched_history by done. unfold own_history. rewrite Hu by (apply returned_all; done). done.
Qed.

Lemma sources_valid u : Forall valid_entries (sources u).
Proof using Hp.
  apply Forall_app. split.
  - apply Forall_fmap, Forall_forall. intros i [Hi _]%returned_all; [|done]. by apply live_valid, frontier_at_ok.
  - destruct u; repeat constructor; apply live_valid, (po_initial p Hp).
Qed.

Lemma elem_of_sources (u : bool) h :
  (u = true ↔ some_untouched) → untainted → h ∈ sources u ↔ h ∈ histories p.
Proof using Hp.
  intros Hu Ht. pose proof (proj1 (Forall_forall _ _) (proj1 untainted_iff Ht)) as Hfl. unfold sources, histories.
  rewrite elem_of_app, list_elem_of_fmap, list_elem_of_omap. setoid_rewrite elem_of_seqZ. split.
  - intros [(i & -> & Hi)|Hin].
    + pose proof (Hfl i Hi) as Ef. apply returned_all in Hi as [Hi Hti]; [|done]. exists i. split; [unfold block_index_ok in Hi; lia|].
      rewrite touched_history by done. unfold own_history. by rewrite Ef.
    + destruct u; [|by apply elem_of_nil in Hin]. apply list_elem_of_singleton in Hin as ->.
      destruct (proj1 Hu eq_refl) as (i & Hi & Hne). exists i. split; [unfold block_index_ok in Hi; lia|]. by apply untouched_history.
  - intros (i & Hi & Eh). assert (block_index_ok p i) as Hok by (split; lia). destruct (decide (touched p i)) as [Hti|Hti].
    + left. exists i. rewrite touched_history in Eh by done. unfold own_history in Eh. split; [|by apply returned_all].
      destruct (_ =? 0); [by injection Eh as <-|done].
    + right. rewrite untouched_history in Eh by done. injection Eh as <-.
      rewrite (proj2 Hu) by by exists i. by apply list_elem_of_singleton.
Qed.

Lemma union_of_sources (u : bool) :
  (u = true ↔ some_untouched) → untainted →
  (∀ x, epoch_of (union_all (sources u)) x = epoch_of (union_all (histories p)) x) ∧
  length (union_all (sources u)) = length (union_all (histories p)).
Proof using Hp. intros Hu Ht. apply union_same_members; [apply sources_valid|]. intros h. by apply elem_of_sources. Qed.

(** The word walk as the walk over the returned blocks. *)
Lemma merge_words_blocks capacity overflow acc :
  ∃ u, merge_words (Z.to_nat (fp_word_count p)) p capacity overflow 0 false acc =
    ('(continue, acc) ← merge_blocks p capacity overflow returned_blocks acc; Some (continue, u, acc)) ∧
  ((∃ acc', merge_blocks p capacity overflow returned_blocks acc = Some (true, acc')) → u = true ↔ some_untouched).
Proof using Hp.
  pose proof (word_count_bounds p Hp). destruct (po_returned p Hp) as [_ Hok].
  destruct (merge_words_eq p capacity overflow (Z.to_nat (fp_word_count p)) 0 false acc Hok ltac:(lia) ltac:(lia)) as (u & E & Hu).
  rewrite Z2Nat.id in E, Hu by lia. exists u. split; [exact E|]. intros H'. rewrite Hu by done. by apply partial_words_iff.
Qed.
End collect.

Lemma union_sources_touched p : union_all (sources p false) = foldl fmerge [] ((λ i, live (frontier_at p i)) <$> returned_blocks p).
Proof. unfold union_all, sources. by rewrite app_nil_r. Qed.

Lemma union_sources_untouched p :
  union_all (sources p true) =
    fmerge (foldl fmerge [] ((λ i, live (frontier_at p i)) <$> returned_blocks p)) (live (fp_initial_frontier p)).
Proof. unfold union_all, sources. by rewrite foldl_app. Qed.

(** Collecting the histories of a pool without an overflow handler terminates and
    succeeds exactly when no block is tainted and the union of the histories of all blocks
    fits the capacity; the output is then that union, the history of blocks that were not
    returned in this generation being the initial one. *)
Theorem merge_free_frontiers_exact p capacity out :
  pool_ok p → in_width 8 capacity → capacity <= Z.of_nat (length (entries out)) →
  ∃ ok out', iree_hal_memory_fixed_block_allocator_merge_free_frontiers p capacity None out = Some (ok, out') ∧
  (ok = true ↔ untainted p ∧ Z.of_nat (length (union_all (histories p))) <= capacity) ∧
  (ok = true → frontier_ok out' ∧ ∀ x, epoch_of (live out') x = epoch_of (union_all (histories p)) x).
Proof.
  intros Hp Hcap Hlen. destruct (clear_target capacity Hcap out Hlen) as [Ht E0].
  unfold iree_hal_memory_fixed_block_allocator_merge_free_frontiers.
  destruct (merge_words_blocks p Hp capacity None (iree_async_frontier_initialize out 0, [])) as (u & -> & Hu).
  destruct (merge_blocks_exact p Hp capacity Hcap [] (returned_blocks p) _ (returned_blocks_ok p Hp) Ht)
    as (ok & out1 & E & Ht1 & Hok & Hl). rewrite E0 in Hok, Hl. rewrite <- untainted_iff in Hok by done. rewrite E in *.
  cbn [mbind option_bind]. set (v := foldl fmerge [] _) in *.
  pose proof (union_sources_touched p : _ = v) as Ev. pose proof (union_sources_untouched p : _ = fmerge v _) as Ev'.
  destruct ok; cbn [negb fst].
  - specialize (Hu ltac:(by eexists)). destruct (proj1 Hok eq_refl) as [Hun Hlv]. specialize (Hl eq_refl).
    destruct (union_of_sources p Hp u Hu Hun) as [He El]. destruct u.
    + destruct (merge_target capacity Hcap out1 (fp_initial_frontier p) Ht1 (proj1 (po_initial p Hp))) as (out2 & Em & Ht2 & Hl2).
      unfold merge_history. rewrite Em. rewrite Hl in *. rewrite <- Ev', El in *. cbn [mbind option_bind].
      case_decide as Hfit; [rewrite bool_decide_eq_true_2 by done|rewrite bool_decide_eq_false_2 by done];
        cbn [mbind option_bind fst]; eexists _, _; (split; [done|]).
      * split; [tauto|]. intros _. rewrite Hl2. split; [apply Ht2|done].
      * split; [|done]. split; [done|tauto].
    + rewrite Ev in *. eexists _, _. split; [done|]. split; [rewrite <- El; tauto|]. intros _. rewrite Hl.
      split; [apply Ht1|done].
  - eexists _, _. split; [done|]. split; [|done]. split; [done|]. intros [Hun Hlen'].
    assert (∃ u' : bool, u' = true ↔ some_untouched p) as [u' Hu'].
    { exists (partial_words p 0 (Z.to_nat (fp_word_count p))). by apply partial_words_iff. }
    destruct (union_of_sources p Hp u' Hu' Hun) as [_ El].
    assert (length v <= length (union_all (sources p u')))%nat as Hge
      by (destruct u'; [rewrite Ev'; apply fmerge_length_ge|by rewrite Ev]).
    apply Hok. split; [done|]. lia.
Qed.

(** With an overflow handler that leaves a frontier covering its two inputs, in any
    sense of covering that extends the order of the clocks, collection succeeds exactly
    when no block is tainted, and the output covers the history of every block. *)
Theorem merge_free_frontiers_covers covers `{!HistoryCover covers} p capacity h out :
  pool_ok p → in_width 8 capacity → capacity <= Z.of_nat (length (entries out)) → handler_covers capacity covers h →
  ∃ ok out', iree_hal_memory_fixed_block_allocator_merge_free_frontiers p capacity (Some h) out = Some (ok, out') ∧
  (ok = true ↔ untainted p) ∧
  (ok = true → frontier_ok out' ∧ ∀ i hist, block_index_ok p i → history p i = Some hist → covers hist (live out')).
Proof.
  intros Hp Hcap Hlen Hh. destruct (clear_target capacity Hcap out Hlen) as [Ht _].
  unfold iree_hal_memory_fixed_block_allocator_merge_free_frontiers.
  destruct (merge_words_blocks p Hp capacity (Some h) (iree_async_frontier_initialize out 0, [])) as (u & -> & Hu).
  destruct (merge_blocks_covers p Hp capacity Hcap covers h (returned_blocks p) _ [] Hh (returned_blocks_ok p Hp) Ht)
    as (ok & out1 & cs & E & Ht1 & Hok & Hc). rewrite <- untainted_iff in Hok by done. rewrite E in *.
  cbn [mbind option_bind]. destruct ok; cbn [negb fst]; [|by eexists _, _].
  specialize (Hu ltac:(by eexists)). pose proof (proj1 Hok eq_refl) as Hun. destruct (Hc eq_refl) as [_ Hall].
  rewrite Forall_forall in Hall.
  assert (∀ out', covers (live out1) (live out') →
    (u = true → covers (live (fp_initial_frontier p)) (live out')) →
    ∀ i hist, block_index_ok p i → history p i = Some hist → covers hist (live out')) as Hcov.
  { intros out' H1 H2 i hist Hi Ehist. destruct (decide (touched p i)) as [Hti|Hti].
    - rewrite touched_history in Ehist by done. unfold own_history in Ehist. destruct (_ =? 0); [|done]. injection Ehist as <-.
      apply (cover_trans _ (live out1)); [|done]. by apply Hall, returned_all.
    - rewrite untouched_history in Ehist by done. injection Ehist as <-. apply H2, Hu. by exists i. }
  destruct u.
  - destruct (merge_history_covers capacity Hcap covers h (fp_initial_frontier p) out1 cs Hh Ht1 (proj1 (po_initial p Hp)))
      as (out2 & cs2 & -> & Ht2 & Hx & Hy). cbn [mbind option_bind fst]. eexists _, _. split; [done|]. split; [done|]. intros _.
    split; [apply Ht2|]. by apply Hcov.
  - eexists _, _. split; [done|]. split; [done|]. intros _. split; [apply Ht1|]. apply Hcov; [|done].
    apply cover_clock; [apply live_valid, Ht1..|done].
Qed.

(** A handler that keeps one join axis, and what its owner means by covering: the join
    axis stands for every history joined before it. *)
Definition join_axis : Z := iree_async_axis_make 1 0 IREE_ASYNC_CAUSAL_DOMAIN_JOIN 0.

Definition join_covers (h h' : list entry_t) : Prop :=
  0 < epoch_of h' join_axis ∨ ∀ x, epoch_of h x <= epoch_of h' x.

#[export] Instance join_cover : HistoryCover join_covers.
Proof.
  split; [|by right]. intros h1 h2 h3 [H|H] [H'|H']; try (by left); [specialize (H' join_axis); left; lia|].
  right. intros x. specialize (H x). specialize (H' x). lia.
Qed.

Definition join_handler : overflow_handler :=
  λ captures target source, copy_frontier (iree_async_single_frontier_initialize join_axis 1) target.

Lemma join_handler_covers capacity : 1 <= capacity → handler_covers capacity join_covers join_handler.
Proof.
  intros Hcap captures target source (Hf & Hc & Hl) Hs. unfold join_handler.
  assert (frontier_ok (iree_async_single_frontier_initialize join_axis 1)) as Hj.
  { split; [done|]. split; [done|]. split; [constructor; constructor|]. by repeat constructor. }
  destruct (copy_frontier_sized (Z.of_nat (length (entries target))) _ target Hj ltac:(simpl; lia) eq_refl) as ([H1 H2] & El & Ec).
  rewrite El. split; [split; [done|]; rewrite Ec, H2; simpl; lia|]. split; left; by vm_compute.
Qed.

(** Two blocks returned with different axes: a capacity of one entry needs the handler. *)
Definition merge_sample : pool_t :=
  let single a e := Some (iree_async_single_frontier_initialize a e) in
  iree_hal_memory_fixed_block_allocator_release
    (claimed 65 (iree_hal_memory_fixed_block_allocator_release (claimed 3 sample_pool) 3 (single 3 12))) 65 (single 5 1).

Lemma single_ok a e : 0 < e → death_ok (Some (iree_async_single_frontier_initialize a e)).
Proof.
  intros He f [= <-]. split; [done|]. split; [done|]. split; [constructor; constructor|]. by repeat constructor.
Qed.

Lemma merge_sample_ok : pool_ok merge_sample.
Proof.
  assert (pool_ok (claimed 3 sample_pool)) as H1 by (apply claimed_ok; [apply sample_pool_ok|done|by vm_compute]).
  destruct (release_spec (claimed 3 sample_pool) 3 (Some (iree_async_single_frontier_initialize 3 12)) H1
    ltac:(done) ltac:(by vm_compute) ltac:(by apply single_ok)) as [H2 _].
  apply release_spec; [|done|by vm_compute|by apply single_ok]. apply claimed_ok; [done|done|by vm_compute].
Qed.

Lemma merge_free_frontiers_exact_witness :
  ∃ out', iree_hal_memory_fixed_block_allocator_merge_free_frontiers merge_sample 2 None (zero_frontier 2) = Some (true, out') ∧
    frontier_ok out' ∧ epoch_of (live out') 3 = epoch_of (union_all (histories merge_sample)) 3.
Proof.
  destruct (merge_free_frontiers_exact merge_sample 2 (zero_frontier 2) merge_sample_ok ltac:(by split) ltac:(by vm_compute))
    as (ok & out' & E & _ & H). assert (ok = true) as -> by (vm_compute in E; by injection E).
  destruct (H eq_refl) as [H1 H2]. exists out'. split; [exact E|]. split; [exact H1|apply H2].
Defined.

Lemma merge_free_frontiers_covers_witness :
  ∃ ok out', iree_hal_memory_fixed_block_allocator_merge_free_frontiers merge_sample 1 (Some join_handler) (zero_frontier 1) =
    Some (ok, out') ∧ (ok = true ↔ untainted merge_sample) ∧ (ok = true → frontier_ok out').
Proof.
  destruct (merge_free_frontiers_covers join_covers merge_sample 1 join_handler (zero_frontier 1) merge_sample_ok
    ltac:(by split) ltac:(by vm_compute) (join_handler_covers 1 ltac:(done))) as (ok & out' & E & Hok & H).
  exists ok, out'. split; [exact E|]. split; [exact Hok|]. intros Eok. by destruct (H Eok).
Defined.
