(* ===== verification/FixedBlockThreads.v ===== *)
(** * Concurrent use of the fixed-block allocator

    Any number of threads run acquire, release and restore on one pool.  Each atomic
    access of [iree/hal/memory/fixed_block_allocator.c] is one step, and so is each access
    to the plain metadata of a block, which the code leaves to the owner of the block.
    Steps of different threads interleave arbitrarily in a single order: the memory-order
    arguments of the atomics are not modelled. *)

From S2P Require Import Prelude BaseMath BitWords Allocator Frontier Tlsf FixedBlock FixedBlockProps.
From S2P Require Import FixedBlockInit.
From stdpp Require Import base numbers list list_numbers.

Local Open Scope Z_scope.
Local Open Scope machine_scope.

(** ** Threads *)

(** Where a thread is.  [passes] words are still to be scanned. *)
Inductive phase :=
  | Idle
  | AcquireStart
  | AcquireLoad (passes : nat) (word_index : Z)
  | AcquireClaim (passes : nat) (word_index word : Z)
  | AcquireHint (block_index : Z)
  | AcquireRead (block_index : Z)
  | AcquireCount (allocation : fixed_allocation)
  | Acquired (allocation : fixed_allocation)
  | Exhausted
  | ReleaseWrite (block_index : Z) (death_frontier : option iree_async_frontier_t)
  | ReleaseMark (block_index : Z)
  | ReleaseClear (block_index : Z)
  | ReleaseCount.

(** [++word_index], wrapping around. *)
Definition next_word (p : pool_t) (word_index : Z) : Z :=
  let word_index := uadd 16 word_index 1 in
  if fp_word_count p <=? word_index then 0 else word_index.

(** The head of the inner loop. *)
Definition examine (p : pool_t) (passes : nat) (word_index word : Z) : phase :=
  if word =? umax 64 then AcquireLoad passes (next_word p word_index) else AcquireClaim passes word_index word.

(** One step of a thread inside a call. *)
Definition advance (p : pool_t) (ph : phase) : pool_t * phase :=
  match ph with
  | AcquireStart =>
      let start_word := wrap 16 (fp_alloc_hint_word p) in
      (p, AcquireLoad (Z.to_nat (fp_word_count p)) (if fp_word_count p <=? start_word then 0 else start_word))
  | AcquireLoad O _ => (p, Exhausted)
  | AcquireLoad (S passes) w => (p, examine p passes w (word_at (fp_bitmap p) w))
  | AcquireClaim passes w word =>
      let bit := iree_math_count_trailing_zeros_u64 (unot 64 word) in
      let bit_mask := ushl 64 1 bit in
      let old := word_at (fp_bitmap p) w in
      let p := set_bitmap (fetch_or (fp_bitmap p) w bit_mask) p in
      (p, if Z.land old bit_mask =? 0 then AcquireHint (uadd 32 (w * 64) bit)
          else examine p passes w (Z.lor old bit_mask))
  | AcquireHint i => (set_alloc_hint_word (i / 64) p, AcquireRead i)
  | AcquireRead i => (p, AcquireCount (iree_hal_memory_fixed_block_allocator_read_block p i))
  | AcquireCount a => (set_fixed_count (uadd 32 (fp_allocation_count p) 1) p, Acquired a)
  | ReleaseWrite i death =>
      (update_fixed_block i (fixed_replace_frontier (fp_frontier_capacity p) death) p, ReleaseMark i)
  | ReleaseMark i => (fixed_mark_returned i p, ReleaseClear i)
  | ReleaseClear i =>
      (set_bitmap (fetch_and (fp_bitmap p) (wrap 16 (i / 64)) (unot 64 (ushl 64 1 (i mod 64)))) p, ReleaseCount)
  | ReleaseCount => (set_fixed_count (usub 32 (fp_allocation_count p) 1) p, Idle)
  | Idle | Acquired _ | Exhausted => (p, ph)
  end.

Definition in_call (ph : phase) : bool :=
  match ph with Idle | Acquired _ | Exhausted => false | _ => true end.

(** ** The system *)

(** [held] are the blocks that clients own; [last_history] records, per block, what the
    latest release of it said, starting from the histories of the initial pool. *)
Record pool_system := mk_system {
  pool : pool_t;
  threads : list phase;
  held : list Z;
  last_history : Z → option (list entry_t);
}.

Definition record_history (i : Z) (h : option (list entry_t)) (log : Z → option (list entry_t)) :
    Z → option (list entry_t) :=
  λ j, if decide (j = i) then h else log j.

Inductive pool_step : pool_system → pool_system → Prop :=
  | step_advance s t ph p' ph' :
      threads s !! t = Some ph → in_call ph = true → advance (pool s) ph = (p', ph') →
      pool_step s (mk_system p' (<[t := ph']> (threads s)) (held s) (last_history s))
  | step_call_acquire s t :
      threads s !! t = Some Idle →
      pool_step s (mk_system (pool s) (<[t := AcquireStart]> (threads s)) (held s) (last_history s))
  | step_return_acquired s t a :
      threads s !! t = Some (Acquired a) →
      pool_step s (mk_system (pool s) (<[t := Idle]> (threads s)) (fa_block_index a :: held s) (last_history s))
  | step_return_exhausted s t :
      threads s !! t = Some Exhausted →
      pool_step s (mk_system (pool s) (<[t := Idle]> (threads s)) (held s) (last_history s))
  | step_call_release s t h1 i h2 death :
      threads s !! t = Some Idle → held s = h1 ++ i :: h2 → death_ok death →
      pool_step s (mk_system (pool s) (<[t := ReleaseWrite i death]> (threads s)) (h1 ++ h2)
               (record_history i (released_history (fp_frontier_capacity (pool s)) death) (last_history s)))
  | step_call_restore s t h1 i h2 :
      threads s !! t = Some Idle → held s = h1 ++ i :: h2 →
      pool_step s (mk_system (pool s) (<[t := ReleaseClear i]> (threads s)) (h1 ++ h2) (last_history s)).

(** A pool with no acquired block, and idle threads. *)
Inductive pool_reachable : pool_system → Prop :=
  | pool_reachable_start p n :
      pool_ok p → (∀ i, block_index_ok p i → acquired p i = false) →
      pool_reachable (mk_system p (replicate n Idle) [] (history p))
  | pool_reachable_step s s' : pool_reachable s → pool_step s s' → pool_reachable s'.

(** ** Ownership *)

(** The block a thread owns inside a call. *)
Definition claims (ph : phase) : option Z :=
  match ph with
  | AcquireHint i | AcquireRead i | ReleaseWrite i _ | ReleaseMark i | ReleaseClear i => Some i
  | AcquireCount a | Acquired a => Some (fa_block_index a)
  | _ => None
  end.

(** The block whose history a thread is replacing. *)
Definition writes (ph : phase) : option Z :=
  match ph with ReleaseWrite i _ | ReleaseMark i => Some i | _ => None end.

(** Set bits that the count does not contain yet, and cleared bits that it still does. *)
Definition pending (ph : phase) : Z :=
  match ph with
  | AcquireHint _ | AcquireRead _ | AcquireCount _ => -1
  | ReleaseCount => 1
  | _ => 0
  end.

Definition pending_sum (phs : list phase) : Z := foldr (λ ph n, pending ph + n) 0 phs.

(** Every owner, thread or client. *)
Definition owners (s : pool_system) : list Z := omap claims (threads s) ++ held s.

(** The pool with the count of its set bits and no hint. *)
Definition bit_count (p : pool_t) : Z := count_from (acquired p) 0 (Z.to_nat (fp_block_count p)).
Definition settled (p : pool_t) : pool_t := set_alloc_hint_word 0 (set_fixed_count (bit_count p) p).

Definition delivers (p : pool_t) (log : Z → option (list entry_t)) (a : fixed_allocation) : Prop :=
  fa_offset a = fa_block_index a * fp_block_size p ∧ allocation_history a = log (fa_block_index a).

Definition phase_ok (p : pool_t) (log : Z → option (list entry_t)) (ph : phase) : Prop :=
  match ph with
  | AcquireLoad _ w => 0 <= w < fp_word_count p
  | AcquireClaim _ w word => 0 <= w < fp_word_count p ∧ in_width 64 word ∧ word ≠ umax 64
  | AcquireCount a | Acquired a => delivers p log a
  | ReleaseWrite i death => death_ok death ∧ log i = released_history (fp_frontier_capacity p) death
  | ReleaseMark i => own_history (fixed_block_at p i) = log i
  | _ => True
  end.

Record system_ok (s : pool_system) : Prop := {
  sys_pool : pool_ok (settled (pool s));
  sys_phases : Forall (phase_ok (pool s) (last_history s)) (threads s);
  sys_nodup : NoDup (owners s);
  sys_owners i : i ∈ owners s ↔ block_index_ok (pool s) i ∧ acquired (pool s) i = true;
  sys_count : fp_allocation_count (pool s) = wrap 32 (bit_count (pool s) + pending_sum (threads s));
  sys_history i : block_index_ok (pool s) i → i ∉ omap writes (threads s) → history (pool s) i = last_history s i;
}.

(** ** Replacing one thread *)

Section replace.
Context (phs : list phase) (t : nat) (old new : phase) (Ht : phs !! t = Some old).

Lemma replace_split : ∃ l1 l2, phs = l1 ++ old :: l2 ∧ <[t := new]> phs = l1 ++ new :: l2.
Proof using Ht.
  exists (take t phs), (drop (S t) phs). split; [by rewrite take_drop_middle|].
  apply insert_take_drop. by eapply lookup_lt_Some.
Qed.

Lemma pending_replace : pending_sum (<[t := new]> phs) = pending_sum phs - pending old + pending new.
Proof using Ht.
  destruct replace_split as (l1 & l2 & E & ->). rewrite E. unfold pending_sum. clear.
  induction l1 as [|x l1 IH]; cbn [app foldr]; lia.
Qed.

Lemma omap_replace (f : phase → option Z) :
  ∃ rest, omap f phs ≡ₚ option_list (f old) ++ rest ∧ omap f (<[t := new]> phs) ≡ₚ option_list (f new) ++ rest.
Proof using Ht.
  destruct replace_split as (l1 & l2 & -> & ->). exists (omap f l1 ++ omap f l2).
  rewrite !omap_app. assert (∀ ph, omap f (ph :: l2) = option_list (f ph) ++ omap f l2) as E
    by (intros ph; simpl; by destruct (f ph)).
  rewrite !E. split; by rewrite Permutation_app_swap_app.
Qed.
End replace.

Lemma member_of (f : phase → option Z) (phs : list phase) t ph i :
  phs !! t = Some ph → f ph = Some i → i ∈ omap f phs.
Proof. intros Ht Hc. apply list_elem_of_omap. exists ph. split; [by eapply list_elem_of_lookup_2|done]. Qed.

(** A writer claims the block it writes. *)
Lemma writes_claims ph i : writes ph = Some i → claims ph = Some i.
Proof. by destruct ph. Qed.

Lemma phases_replace (P Q : phase → Prop) phs t old new :
  Forall P phs → phs !! t = Some old → Q new →
  (∀ t' ph, t' ≠ t → phs !! t' = Some ph → P ph → Q ph) → Forall Q (<[t := new]> phs).
Proof.
  intros HP Ht Hnew Hkeep. apply Forall_lookup. intros t' ph Hl.
  destruct (decide (t' = t)) as [->|Hne].
  - rewrite list_lookup_insert_eq in Hl by (by eapply lookup_lt_Some). by injection Hl as <-.
  - rewrite list_lookup_insert_ne in Hl by done. apply (Hkeep t'); [done|done|]. by apply (Forall_lookup_1 _ _ _ _ HP Hl).
Qed.

Section owners.
Context (s : pool_system) (Hs : system_ok s) (t : nat) (old : phase) (Ht : threads s !! t = Some old).

(** The claim of a thread is its own. *)
Lemma claim_exclusive i t' ph :
  claims old = Some i → t' ≠ t → threads s !! t' = Some ph → claims ph ≠ Some i.
Proof using All.
  intros Hc Hne Ht' Hc'. pose proof (sys_nodup s Hs) as Hnd. unfold owners in Hnd. apply NoDup_app in Hnd as (Hnd & _ & _).
  destruct (omap_replace (threads s) t old Idle Ht claims) as (rest & E1 & E2). rewrite E1, Hc in Hnd.
  apply NoDup_cons in Hnd as [Hnot _]. apply Hnot. simpl in E2. rewrite <- E2.
  apply (member_of claims _ t' ph); [by rewrite list_lookup_insert_ne|done].
Qed.

Lemma claim_not_held i : claims old = Some i → i ∉ held s.
Proof using All.
  intros Hc. pose proof (sys_nodup s Hs) as Hnd. apply NoDup_app in Hnd as (_ & Hd & _). apply Hd.
  by apply (member_of claims _ t old).
Qed.

Lemma claim_acquired i : claims old = Some i → block_index_ok (pool s) i ∧ acquired (pool s) i = true.
Proof using All.
  intros Hc. apply (sys_owners s Hs). apply elem_of_app. left. by apply (member_of claims _ t old).
Qed.

Lemma claims_same new : claims new = claims old → omap claims (<[t := new]> (threads s)) ≡ₚ omap claims (threads s).
Proof using Ht.
  intros E. destruct (omap_replace (threads s) t old new Ht claims) as (rest & E1 & E2). by rewrite E1, E2, E.
Qed.

Lemma writes_same new : writes new = writes old → omap writes (<[t := new]> (threads s)) ≡ₚ omap writes (threads s).
Proof using Ht.
  intros E. destruct (omap_replace (threads s) t old new Ht writes) as (rest & E1 & E2). by rewrite E1, E2, E.
Qed.
End owners.

(** What a phase depends on. *)
Lemma phase_ok_settled p p' log ph : settled p' = settled p → phase_ok p log ph → phase_ok p' log ph.
Proof.
  intros E. assert (fp_word_count p' = fp_word_count p ∧ fp_block_size p' = fp_block_size p ∧
    fp_frontier_capacity p' = fp_frontier_capacity p ∧ fp_blocks p' = fp_blocks p) as (E1 & E2 & E3 & E4).
  { by pose proof (f_equal fp_word_count E); pose proof (f_equal fp_block_size E); pose proof (f_equal fp_frontier_capacity E);
      pose proof (f_equal fp_blocks E). }
  destruct ph; simpl; unfold delivers, iree_hal_memory_fixed_block_allocator_block_at; by rewrite ?E1, ?E2, ?E3, ?E4.
Qed.

Lemma wrap_adjust w x y a b : wrap w (wrap w (x + y) - a + b) = wrap w (x + (y - a + b)).
Proof.
  unfold wrap. replace ((x + y) mod 2 ^ w - a + b) with ((x + y) mod 2 ^ w + (b - a)) by lia.
  rewrite Zplus_mod_idemp_l. f_equal. lia.
Qed.

(** Steps that keep the bits, the blocks and the ownership. *)
Lemma quiet_step s t old new p' :
  system_ok s → threads s !! t = Some old → settled p' = settled (pool s) →
  claims new = claims old → writes new = writes old →
  fp_allocation_count p' = wrap 32 (fp_allocation_count (pool s) - pending old + pending new) →
  phase_ok p' (last_history s) new →
  system_ok (mk_system p' (<[t := new]> (threads s)) (held s) (last_history s)).
Proof.
  intros Hs Ht Ep Ec Ew Ecount Hph.
  assert (acquired p' = acquired (pool s)) as Ea by (unfold acquired; by rewrite (f_equal fp_bitmap Ep : fp_bitmap p' = fp_bitmap (pool s))).
  pose proof (f_equal fp_block_count Ep : fp_block_count p' = fp_block_count (pool s)) as En.
  assert (∀ i, history p' i = history (pool s) i) as Eh.
  { intros i. change (history p' i) with (history (settled p') i). by rewrite Ep. }
  pose proof (claims_same s t old Ht new Ec) as Pc. pose proof (writes_same s t old Ht new Ew) as Pw.
  split; unfold owners, block_index_ok; simpl.
  - rewrite Ep. apply Hs.
  - eapply phases_replace; [apply Hs|done|done|]. intros t' ph _ _. by apply phase_ok_settled.
  - rewrite Pc. apply Hs.
  - intros i. rewrite Pc, Ea, En. apply (sys_owners s Hs).
  - rewrite Ecount, (pending_replace _ _ _ _ Ht), (sys_count s Hs).
    assert (bit_count p' = bit_count (pool s)) as -> by (unfold bit_count; by rewrite Ea, En).
    apply wrap_adjust.
  - intros i Hi Hw. rewrite Pw in Hw. rewrite En in Hi. rewrite Eh. by apply (sys_history s Hs).
Qed.

Lemma settled_ok p : pool_ok p → pool_ok (settled p).
Proof. intros []. by split. Qed.

Lemma phase_ok_log p log i h ph :
  claims ph ≠ Some i → phase_ok p log ph → phase_ok p (record_history i h log) ph.
Proof.
  intros Hc. assert (∀ j, claims ph = Some j → record_history i h log j = log j) as E.
  { intros j Hj. unfold record_history. rewrite decide_False; [done|congruence]. }
  destruct ph; simpl in *; unfold delivers; try rewrite (E _ eq_refl); done.
Qed.

(** A write to the metadata of block [i] leaves the threads that do not claim it. *)
Lemma phase_ok_blocks p p' log i ph :
  fp_word_count p' = fp_word_count p → fp_block_size p' = fp_block_size p →
  fp_frontier_capacity p' = fp_frontier_capacity p →
  (∀ j, block_index_ok p j → j ≠ i → fixed_block_at p' j = fixed_block_at p j) →
  (∀ j, claims ph = Some j → block_index_ok p j) → claims ph ≠ Some i → phase_ok p log ph → phase_ok p' log ph.
Proof.
  intros E1 E2 E3 E4 Hj Hc. destruct ph; simpl in *; unfold delivers; rewrite ?E1, ?E2, ?E3; try done.
  rewrite E4; [done|by apply Hj|congruence].
Qed.

(** Handing a block over between a thread and the clients. *)
Lemma handover_step s t old new held' log' :
  system_ok s → threads s !! t = Some old →
  option_list (claims new) ++ held' ≡ₚ option_list (claims old) ++ held s →
  pending new = pending old → writes old = None →
  (∀ i, (∀ j, writes new = Some j → i ≠ j) → log' i = last_history s i) →
  (∀ t' ph, t' ≠ t → threads s !! t' = Some ph → phase_ok (pool s) (last_history s) ph → phase_ok (pool s) log' ph) →
  phase_ok (pool s) log' new →
  system_ok (mk_system (pool s) (<[t := new]> (threads s)) held' log').
Proof.
  intros Hs Ht Eh Ep Ew Elog Hothers Hnew.
  assert (omap claims (<[t := new]> (threads s)) ++ held' ≡ₚ owners s) as Eo.
  { destruct (omap_replace (threads s) t old new Ht claims) as (rest & E1 & E2). unfold owners. rewrite E1, E2.
    rewrite (Permutation_app_comm (option_list (claims new)) rest), (Permutation_app_comm (option_list (claims old)) rest).
    by rewrite <- !app_assoc, Eh. }
  split; unfold owners; simpl.
  - apply Hs.
  - eapply phases_replace; [apply Hs|done|done|done].
  - rewrite Eo. apply Hs.
  - intros i. rewrite Eo. apply (sys_owners s Hs).
  - rewrite (pending_replace _ _ _ _ Ht), Ep, (sys_count s Hs). f_equal. lia.
  - intros i Hi Hw. destruct (omap_replace (threads s) t old new Ht writes) as (rest & E1 & E2).
    rewrite Ew in E1. rewrite E2 in Hw. apply not_elem_of_app in Hw as [Hw1 Hw2]. rewrite Elog.
    + apply (sys_history s Hs); [done|]. by rewrite E1.
    + intros j Hj ->. apply Hw1. rewrite Hj. by apply list_elem_of_singleton.
Qed.

(** ** The steps of a release *)

Section release_steps.
Context (s : pool_system) (Hs : system_ok s) (t : nat) (i : Z).

Let q := settled (pool s).
Let Hq : pool_ok q := sys_pool s Hs.

Lemma others_ok p' old t' ph :
  threads s !! t = Some old → claims old = Some i → t' ≠ t → threads s !! t' = Some ph →
  fp_word_count p' = fp_word_count (pool s) → fp_block_size p' = fp_block_size (pool s) →
  fp_frontier_capacity p' = fp_frontier_capacity (pool s) →
  (∀ j, block_index_ok (pool s) j → j ≠ i → fixed_block_at p' j = fixed_block_at (pool s) j) →
  phase_ok (pool s) (last_history s) ph → phase_ok p' (last_history s) ph.
Proof using Hs.
  intros Ht Hc Hne Ht' E1 E2 E3 E4. apply (phase_ok_blocks (pool s) p' _ i); try done.
  - intros j Hj. by apply (claim_acquired s Hs t' ph Ht').
  - by apply (claim_exclusive s Hs t old Ht i t' ph).
Qed.

Lemma write_step death :
  threads s !! t = Some (ReleaseWrite i death) →
  let f := fixed_replace_frontier (fp_frontier_capacity (pool s)) death in
  system_ok (mk_system (update_fixed_block i f (pool s)) (<[t := ReleaseMark i]> (threads s)) (held s) (last_history s)).
Proof using All.
  intros Ht f. destruct (claim_acquired s Hs t _ Ht i eq_refl) as [Hi _].
  pose proof (Forall_lookup_1 _ _ _ _ (sys_phases s Hs) Ht) as [Hd El].
  pose proof (fixed_block_ok q Hq i Hi) as Hb. pose proof (po_capacity q Hq) as Hcap.
  pose proof (block_storage_range q Hq i Hi) as Hr.
  assert (∀ b, block_ok (fp_frontier_capacity q) (fp_generation q) b →
    block_ok (fp_frontier_capacity q) (fp_generation q) (f b) ∧ fb_generation (f b) = fb_generation b) as Hf
    by (intros b Hb'; by destruct (replace_frontier_spec _ _ death b Hd Hcap Hb') as (? & ? & _)).
  pose proof (block_at_update (pool s) i f) as Hat. change (fp_blocks q) with (fp_blocks (pool s)) in Hr.
  set (p' := update_fixed_block i f (pool s)) in *.
  pose proof (claims_same s t _ Ht (ReleaseMark i) eq_refl) as Pc.
  pose proof (writes_same s t _ Ht (ReleaseMark i) eq_refl) as Pw.
  split; unfold owners; simpl pool; simpl threads; simpl held; simpl last_history.
  - change (settled p') with (settled (update_fixed_block i f q)). by apply settled_ok, update_history_ok.
  - eapply phases_replace; [apply Hs|exact Ht| |].
    + simpl. rewrite (Hat i Hr) by (destruct Hi; lia). rewrite decide_True by done. rewrite El.
      by destruct (replace_frontier_spec _ _ death _ Hd Hcap Hb) as (_ & _ & ?).
    + intros t' ph Hne Ht'. apply (others_ok p' _ t' ph Ht); try done. intros j Hj Hji.
      rewrite (Hat j Hr), decide_False by (destruct Hj; done || lia). done.
  - rewrite Pc. apply Hs.
  - intros j. rewrite Pc. apply (sys_owners s Hs).
  - rewrite (pending_replace _ _ _ _ Ht). rewrite Z.sub_0_r, Z.add_0_r. apply (sys_count s Hs).
  - intros j Hj Hw. rewrite Pw in Hw.
    assert (j ≠ i) as Hji by (intros ->; apply Hw; by apply (member_of writes _ t _ i Ht)).
    rewrite <- (sys_history s Hs j Hj Hw). unfold history. rewrite (Hat j Hr), decide_False by (destruct Hj; done || lia). done.
Qed.

Lemma mark_step :
  threads s !! t = Some (ReleaseMark i) →
  system_ok (mk_system (fixed_mark_returned i (pool s)) (<[t := ReleaseClear i]> (threads s)) (held s) (last_history s)).
Proof using All.
  intros Ht. destruct (claim_acquired s Hs t _ Ht i eq_refl) as [Hi _].
  pose proof (Forall_lookup_1 _ _ _ _ (sys_phases s Hs) Ht) as El. simpl in El.
  set (p' := fixed_mark_returned i (pool s)).
  assert (settled p' = settled (fixed_mark_returned i q)) as Eset
    by (unfold p', fixed_mark_returned, q; simpl; by destruct (_ =? _)).
  assert (∀ (A : Type) (get : pool_t → A), (∀ bs rs, get (set_returned_bitmap rs (set_blocks bs (pool s))) = get (pool s)) →
    get p' = get (pool s)) as Hframe by (intros A get; apply mark_returned_frame).
  assert (∀ j, block_index_ok (pool s) j → history p' j = if decide (j = i) then own_history (fixed_block_at (pool s) i) else history (pool s) j)
    as Hhist.
  { intros j Hj. change (history p' j) with (history (settled p') j). rewrite Eset. by apply (marked_history q Hq i Hi j). }
  assert (∀ j, block_index_ok (pool s) j → j ≠ i → fixed_block_at p' j = fixed_block_at (pool s) j) as Hblk.
  { intros j Hj Hji. change (fixed_block_at p' j) with (fixed_block_at (settled p') j). rewrite Eset.
    pose proof (marked_block q Hq i Hi j ltac:(destruct Hj; done)) as E. by rewrite decide_False in E. }
  pose proof (claims_same s t _ Ht (ReleaseClear i) eq_refl) as Pc.
  split; unfold owners, block_index_ok, acquired, bit_count; simpl pool; simpl threads; simpl held; simpl last_history;
    rewrite ?(Hframe _ fp_block_count), ?(Hframe _ fp_bitmap), ?(Hframe _ fp_allocation_count) by done.
  - rewrite Eset. by apply settled_ok, mark_returned_ok.
  - eapply phases_replace; [apply Hs|exact Ht|done|]. intros t' ph Hne Ht'.
    by apply (others_ok p' _ t' ph Ht); try done; apply Hframe.
  - rewrite Pc. apply Hs.
  - intros j. rewrite Pc. apply (sys_owners s Hs).
  - rewrite (pending_replace _ _ _ _ Ht). rewrite Z.sub_0_r, Z.add_0_r. rewrite (sys_count s Hs). unfold bit_count, acquired.
    by rewrite (Hframe _ fp_bitmap).
  - intros j Hj Hw. destruct (omap_replace (threads s) t _ (ReleaseClear i) Ht writes) as (rest & E1 & E2). rewrite E2 in Hw.
    rewrite Hhist by done. case_decide as Hji; [by subst|]. apply (sys_history s Hs); [done|]. rewrite E1. by apply not_elem_of_cons.
Qed.
End release_steps.

(** ** The steps that set and clear a bit *)

Lemma bit_count_update p words i :
  block_index_ok p i →
  (∀ j, 0 <= j → bit_at words j = if decide (j = i) then negb (acquired p i) else acquired p j) →
  bit_count (set_bitmap words p) = bit_count p + (if acquired p i then -1 else 1).
Proof.
  intros Hi Hb. unfold block_index_ok in Hi. unfold bit_count. simpl fp_block_count. set (n := Z.to_nat (fp_block_count p)).
  rewrite (count_from_ext (acquired (set_bitmap words p)) (λ j, if decide (j = i) then negb (acquired p i) else acquired p j) n 0 0)
    by (intros k Hk; apply Hb; lia).
  rewrite (count_from_update (acquired p) _ i n 0); [|intros j Hj; by rewrite decide_False|unfold n; lia].
  rewrite decide_True by done. destruct (acquired p i); simpl; lia.
Qed.

Lemma bit_step s t old new i words :
  let p' := set_bitmap words (pool s) in
  system_ok s → threads s !! t = Some old → pool_ok (settled p') → block_index_ok (pool s) i →
  (∀ j, 0 <= j → bit_at words j = if decide (j = i) then negb (acquired (pool s) i) else acquired (pool s) j) →
  (if acquired (pool s) i then claims old = Some i ∧ claims new = None ∧ pending new = pending old + 1
   else claims old = None ∧ claims new = Some i ∧ pending new = pending old - 1) →
  writes old = None → writes new = None → phase_ok (pool s) (last_history s) new →
  system_ok (mk_system p' (<[t := new]> (threads s)) (held s) (last_history s)).
Proof.
  intros p' Hs Ht Hp' Hi Hbits Hown Ew Ew' Hnew.
  destruct (omap_replace (threads s) t old new Ht claims) as (rest & E1 & E2).
  pose proof (writes_same s t old Ht new ltac:(congruence)) as Pw.
  pose proof (sys_nodup s Hs) as Hnd. pose proof (sys_owners s Hs) as Hown'. unfold owners in Hnd, Hown'. rewrite E1 in Hnd.
  setoid_rewrite E1 in Hown'.
  assert (NoDup (omap claims (<[t := new]> (threads s)) ++ held s) ∧
    ∀ j, j ∈ omap claims (<[t := new]> (threads s)) ++ held s ↔ block_index_ok (pool s) j ∧ acquired p' j = true) as [Hnd2 Hel2].
  { assert (∀ j, block_index_ok (pool s) j → acquired p' j = if decide (j = i) then negb (acquired (pool s) i) else acquired (pool s) j)
      as Hb by (intros j Hj; apply Hbits; destruct Hj; done).
    rewrite E2. setoid_rewrite E2. destruct (acquired (pool s) i) eqn:Ei; destruct Hown as (Ho & Hn & _); rewrite Ho in Hnd, Hown'; rewrite Hn; simpl in *.
    - apply NoDup_cons in Hnd as [Hni Hnd]. split; [done|]. intros j. specialize (Hown' j). rewrite elem_of_cons in Hown'.
      destruct (decide (j = i)) as [->|Hji].
      + split; [done|]. intros [_ H]. by rewrite Hb, decide_True in H by done.
      + split; [intros H; destruct (proj1 Hown' (or_intror H)); split; [done|by rewrite Hb, decide_False by done]|].
        intros [Hj H]. rewrite Hb, decide_False in H by done. destruct (proj2 Hown' (conj Hj H)); done.
    - assert (i ∉ rest ++ held s) as Hni by (intros H; apply Hown' in H as [_ H]; congruence).
      split; [by apply NoDup_cons|]. intros j. rewrite elem_of_cons, Hown'. destruct (decide (j = i)) as [->|Hji].
      + split; [intros _; split; [done|by rewrite Hb, decide_True by done]|by left].
      + split; [intros [?|[Hj H]]; [done|]; split; [done|by rewrite Hb, decide_False by done]|].
        intros [Hj H]. rewrite Hb, decide_False in H by done. by right. }
  split; simpl pool; simpl threads; simpl held; simpl last_history; try done.
  - eapply phases_replace; [apply Hs|done|by apply Hnew|]. intros t' ph _ _. done.
  - rewrite (pending_replace _ _ _ _ Ht). change (fp_allocation_count p') with (fp_allocation_count (pool s)).
    rewrite (sys_count s Hs). unfold p'. rewrite (bit_count_update (pool s) words i Hi Hbits). f_equal.
    destruct (acquired (pool s) i); destruct Hown as (_ & _ & ->); lia.
  - intros j Hj Hw. rewrite Pw in Hw. by apply (sys_history s Hs).
Qed.

Lemma clear_step s t i :
  system_ok s → threads s !! t = Some (ReleaseClear i) →
  let words := fetch_and (fp_bitmap (pool s)) (wrap 16 (i / 64)) (unot 64 (ushl 64 1 (i mod 64))) in
  system_ok (mk_system (set_bitmap words (pool s)) (<[t := ReleaseCount]> (threads s)) (held s) (last_history s)).
Proof.
  intros Hs Ht words. destruct (claim_acquired s Hs t _ Ht i eq_refl) as [Hi Ha].
  pose proof (sys_pool s Hs) as Hq. set (q := settled (pool s)) in *.
  apply (bit_step s t _ ReleaseCount i words Hs Ht); try done.
  - change (settled (set_bitmap words (pool s))) with (settled (iree_hal_memory_fixed_block_allocator_release_bit i q)).
    by apply settled_ok, release_bit_ok.
  - intros j Hj. change (bit_at words j) with (acquired (iree_hal_memory_fixed_block_allocator_release_bit i q) j).
    rewrite released_bit by done. change (acquired q j) with (acquired (pool s) j). rewrite Ha.
    case_decide; [by rewrite bool_decide_eq_true_2|by rewrite bool_decide_eq_false_2].
  - by rewrite Ha.
Qed.

(** The state of a thread at the head of the inner loop. *)
Lemma examine_ok p log passes w word :
  0 <= w < fp_word_count p → fp_word_count p <= 64 → in_width 64 word →
  let ph := examine p passes w word in
  phase_ok p log ph ∧ claims ph = None ∧ writes ph = None ∧ pending ph = 0.
Proof.
  intros Hw Hwc Hword. unfold examine. destruct (Z.eqb_spec word (umax 64)); [|done]. split; [|done]. simpl.
  unfold next_word. rewrite uadd_small by lia. destruct (Z.leb_spec (fp_word_count p) (w + 1)); lia.
Qed.

(** Setting a bit that is set changes nothing. *)
Lemma fetch_or_set words i :
  0 <= i < bit_size words → words_ok words → bit_at words i = true →
  fetch_or words (i / 64) (ushl 64 1 (i mod 64)) = words ∧
  Z.lor (word_at words (i / 64)) (ushl 64 1 (i mod 64)) = word_at words (i / 64).
Proof.
  intros Hi Hok Hb. pose proof (word_index words i Hi). pose proof (index_split i) as [_ Hr].
  assert (Z.lor (word_at words (i / 64)) (ushl 64 1 (i mod 64)) = word_at words (i / 64)) as Hlor.
  { apply word_ext. intros k Hk. rewrite Z.lor_spec. destruct (Z.lt_ge_cases k 64) as [Hlt|Hge].
    - rewrite bit_mask_testbit by lia. case_bool_decide as E; [|apply orb_false_r]. subst k. unfold bit_at in Hb. by rewrite Hb.
    - rewrite (testbit_above 64 ltac:(lia) (ushl 64 1 _)), orb_false_r by (done || apply bit_mask_width). done. }
  split; [|done]. unfold fetch_or, alter_word. apply list_eq. intros j. destruct (decide (Z.to_nat (i / 64) = j)) as [<-|Hne].
  - rewrite list_lookup_alter_eq. unfold word_at in Hlor. destruct (words !! Z.to_nat (i / 64)) as [w|]; [|done].
    simpl in *. by rewrite Hlor.
  - by rewrite list_lookup_alter_ne.
Qed.

Lemma claim_step s t passes w word p' ph' :
  system_ok s → threads s !! t = Some (AcquireClaim passes w word) →
  advance (pool s) (AcquireClaim passes w word) = (p', ph') →
  system_ok (mk_system p' (<[t := ph']> (threads s)) (held s) (last_history s)).
Proof.
  intros Hs Ht Ead. pose proof (Forall_lookup_1 _ _ _ _ (sys_phases s Hs) Ht) as (Hw & Hword & Hne).
  pose proof (sys_pool s Hs) as Hq. set (q := settled (pool s)) in *.
  pose proof (word_count_bounds q Hq : 1 <= fp_word_count (pool s) <= 64 ∧ _) as [Hwc _].
  pose proof (bitmap_size q Hq : bit_size (fp_bitmap (pool s)) = 4096) as Hsz. pose proof (po_bitmap q Hq) as [_ Hok].
  destruct (first_clear word Hword Hne) as (Hk & _ & _). unfold advance in Ead. cbv zeta in Ead.
  set (k := iree_math_count_trailing_zeros_u64 (unot 64 word)) in *.
  destruct (index_join w k Hk) as [Eq Er]. set (i := 64 * w + k) in *.
  rewrite uadd_small in Ead by lia. rewrite (Z.mul_comm w 64) in Ead. fold i in Ead. rewrite <- Eq, <- Er in Ead.
  pose proof (mask_test (fp_bitmap (pool s)) i ltac:(lia)) as Htest. change (bit_at _ i) with (acquired (pool s) i) in Htest.
  destruct (acquired (pool s) i) eqn:Ei.
  - apply negb_true_iff in Htest. rewrite Htest in Ead. destruct (fetch_or_set (fp_bitmap (pool s)) i) as [E1 E2]; [lia|done|done|].
    rewrite E1, E2, Eq in Ead. injection Ead as <- <-.
    destruct (examine_ok (set_bitmap (fp_bitmap (pool s)) (pool s)) (last_history s) passes w (word_at (fp_bitmap (pool s)) w))
      as (H1 & H2 & H3 & H4); [done|simpl; lia|by apply word_at_width|].
    apply (quiet_step s t (AcquireClaim passes w word)); try done. rewrite H4. simpl. rewrite Z.sub_0_r, Z.add_0_r.
    rewrite (sys_count s Hs) at 1. rewrite (sys_count s Hs). unfold wrap. by rewrite Zmod_mod.
  - apply negb_false_iff in Htest. rewrite Htest in Ead. injection Ead as <- <-.
    assert (block_index_ok (pool s) i) as Hi by (apply (clear_bit_is_block q Hq); [simpl; lia|done]).
    apply (bit_step s t _ (AcquireHint i) i _ Hs Ht); try done.
    + change (settled (set_bitmap (fetch_or (fp_bitmap (pool s)) (i / 64) (ushl 64 1 (i mod 64))) (pool s))) with (settled (claimed i q)).
      by apply settled_ok, claimed_ok.
    + intros j Hj. change (bit_at (fetch_or _ _ _) j) with (acquired (claimed i q) j). rewrite claimed_bit by done.
      change (acquired q j) with (acquired (pool s) j). rewrite Ei.
      case_decide; [by rewrite bool_decide_eq_true_2|by rewrite bool_decide_eq_false_2].
    + by rewrite Ei.
Qed.

(** ** Invariance *)

Lemma count_in_width s : system_ok s → wrap 32 (fp_allocation_count (pool s)) = fp_allocation_count (pool s).
Proof. intros Hs. rewrite (sys_count s Hs). unfold wrap. apply Zmod_mod. Qed.

(** A quiet step that keeps the count. *)
Lemma quiet_step_same s t old new p' :
  system_ok s → threads s !! t = Some old → settled p' = settled (pool s) →
  fp_allocation_count p' = fp_allocation_count (pool s) →
  claims new = claims old → writes new = writes old → pending new = pending old →
  phase_ok p' (last_history s) new →
  system_ok (mk_system p' (<[t := new]> (threads s)) (held s) (last_history s)).
Proof.
  intros Hs Ht Eset Ecount Ec Ew Ep Hph. apply (quiet_step s t old new); try done.
  rewrite Ep, Ecount. replace (_ - pending old + pending old) with (fp_allocation_count (pool s)) by lia.
  by rewrite count_in_width.
Qed.

(** A thread that owns a block reads the history of its last release. *)
Lemma read_delivers s t i :
  system_ok s → threads s !! t = Some (AcquireRead i) →
  delivers (pool s) (last_history s) (iree_hal_memory_fixed_block_allocator_read_block (pool s) i).
Proof.
  intros Hs Ht. destruct (claim_acquired s Hs t _ Ht i eq_refl) as [Hi _].
  destruct (read_block_history (settled (pool s)) (sys_pool s Hs) i Hi) as (Eo & Ei & Eh). split; [exact Eo|].
  etrans; [exact Eh|]. apply (sys_history s Hs i Hi). intros (ph & Hph & Hw)%list_elem_of_omap.
  apply list_elem_of_lookup_1 in Hph as [t' Ht']. destruct (decide (t' = t)) as [->|Hne].
  { rewrite Ht in Ht'. by injection Ht' as <-. }
  by apply (claim_exclusive s Hs t _ Ht i t' ph eq_refl Hne Ht'), writes_claims.
Qed.

Lemma advance_ok s t ph p' ph' :
  system_ok s → threads s !! t = Some ph → advance (pool s) ph = (p', ph') → in_call ph = true →
  system_ok (mk_system p' (<[t := ph']> (threads s)) (held s) (last_history s)).
Proof.
  intros Hs Ht Ead Hcall. pose proof (Forall_lookup_1 _ _ _ _ (sys_phases s Hs) Ht) as Hph.
  pose proof (word_count_bounds _ (sys_pool s Hs) : 1 <= fp_word_count (pool s) <= 64 ∧ _) as [Hwc _].
  destruct ph as [| |passes w|passes w word|i|i|a|a| |i death|i|i|]; try done.
  - injection Ead as <- <-. apply (quiet_step_same s t AcquireStart); try done. simpl.
    pose proof (wrap_in_width 16 ltac:(lia) (fp_alloc_hint_word (pool s))) as [? _].
    destruct (Z.leb_spec (fp_word_count (pool s)) (wrap 16 (fp_alloc_hint_word (pool s)))); lia.
  - destruct passes as [|passes]; injection Ead as <- <-; [by apply (quiet_step_same s t (AcquireLoad 0 w))|].
    destruct (examine_ok (pool s) (last_history s) passes w (word_at (fp_bitmap (pool s)) w)) as (H1 & H2 & H3 & H4);
      [done|lia|apply word_at_width, (po_bitmap _ (sys_pool s Hs))|].
    by apply (quiet_step_same s t (AcquireLoad (S passes) w)).
  - by apply (claim_step s t passes w word).
  - injection Ead as <- <-. by apply (quiet_step_same s t (AcquireHint i)).
  - injection Ead as <- <-. apply (quiet_step_same s t (AcquireRead i)); try done. by apply (read_delivers s t).
  - injection Ead as <- <-. apply (quiet_step s t (AcquireCount a)); try done. simpl. unfold uadd. f_equal. lia.
  - injection Ead as <- <-. by apply write_step.
  - injection Ead as <- <-. by apply mark_step.
  - injection Ead as <- <-. by apply clear_step.
  - injection Ead as <- <-. apply (quiet_step s t ReleaseCount); try done. simpl. unfold usub. f_equal. lia.
Qed.

Lemma held_exclusive s t ph h1 i h2 :
  system_ok s → held s = h1 ++ i :: h2 → threads s !! t = Some ph → claims ph ≠ Some i.
Proof.
  intros Hs Eh Ht Hc. apply (claim_not_held s Hs t ph Ht i Hc). rewrite Eh. apply elem_of_app. right. by left.
Qed.

Lemma pool_step_ok s s' : system_ok s → pool_step s s' → system_ok s'.
Proof.
  intros Hs Hstep. revert Hs.
  destruct Hstep as [s1 t ph p' ph' Ht Hcall Ead|s1 t Ht|s1 t a Ht|s1 t Ht|s1 t h1 i h2 death Ht Eh Hd|s1 t h1 i h2 Ht Eh]; intros Hs.
  - by apply (advance_ok s1 t ph).
  - by apply (quiet_step_same s1 t Idle).
  - apply (handover_step s1 t (Acquired a)); try done; reflexivity.
  - by apply (quiet_step_same s1 t Exhausted).
  - assert (i ∈ owners s1) as Hi by (unfold owners; rewrite Eh, !elem_of_app; right; right; by left).
    apply (handover_step s1 t Idle); try done.
    + rewrite Eh. simpl. by rewrite Permutation_middle.
    + intros j Hj. unfold record_history. rewrite decide_False; [done|]. by apply Hj.
    + intros t' ph _ Ht'. apply phase_ok_log. by apply (held_exclusive s1 t' ph h1 i h2).
    + split; [done|]. unfold record_history. by rewrite decide_True.
  - apply (handover_step s1 t Idle); try done. rewrite Eh. simpl. by rewrite Permutation_middle.
Qed.

Lemma start_ok p n :
  pool_ok p → (∀ i, block_index_ok p i → acquired p i = false) →
  system_ok (mk_system p (replicate n Idle) [] (history p)).
Proof.
  intros Hp Hfree. assert (∀ f : phase → option Z, f Idle = None → omap f (replicate n Idle) = []) as Enil
    by (intros f Hf; induction n; simpl; [done|by rewrite Hf]).
  split; unfold owners; simpl; rewrite ?Enil by done; try done.
  - by apply settled_ok.
  - apply Forall_replicate. done.
  - constructor.
  - intros i. rewrite app_nil_r, elem_of_nil. split; [done|]. intros [Hi Ha]. by rewrite Hfree in Ha.
  - assert (pending_sum (replicate n Idle) = 0) as -> by (clear; unfold pending_sum; induction n; [done|simpl; lia]).
    rewrite Z.add_0_r. pose proof (count_bounds p Hp). rewrite (po_allocations p Hp) in *. unfold bit_count.
    symmetry. apply wrap_small. split; lia.
Qed.

Lemma pool_reachable_ok s : pool_reachable s → system_ok s.
Proof. induction 1 as [p n Hp Hf|s s' _ IH Hstep]; [by apply start_ok|by apply (pool_step_ok s)]. Qed.

(** ** A call without interference *)

Fixpoint run (n : nat) (c : pool_t * phase) : pool_t * phase :=
  match n with
  | O => c
  | S n => run n (advance c.1 c.2)
  end.

Lemma run_add m n c : run (m + n) c = run n (run m c).
Proof. revert c. induction m as [|m IH]; intros c; [done|]. apply IH. Qed.

Definition outcome (r : option fixed_allocation) : phase :=
  match r with Some a => Acquired a | None => Exhausted end.

(** The claim of the first clear bit of an up-to-date word succeeds at once. *)
Lemma run_claim p passes w :
  pool_ok p → 0 <= w < fp_word_count p → word_at (fp_bitmap p) w ≠ umax 64 →
  ∃ a p', run 6 (p, AcquireLoad (S passes) w) = (p', Acquired a) ∧ acquire_passes (S passes) w p = Some (Some a, p').
Proof.
  intros Hp Hw Hne. set (word := word_at (fp_bitmap p) w) in *.
  assert (in_width 64 word) as Hword by (apply word_at_width, (po_bitmap p Hp)).
  destruct (first_clear word Hword Hne) as (Hk & Hb & _). set (k := iree_math_count_trailing_zeros_u64 (unot 64 word)) in *.
  assert (Z.land word (ushl 64 1 k) =? 0 = true) as Hland.
  { destruct (index_join w k Hk) as [Eq Er]. pose proof (mask_test (fp_bitmap p) (64 * w + k) ltac:(lia)) as Ht.
    unfold bit_at in Ht. rewrite Eq, Er in Ht. fold word in Ht. rewrite Hb in Ht. by apply negb_false_iff in Ht. }
  pose proof (word_count_bounds p Hp). assert (uadd 32 (w * 64) k = 64 * w + k) as Ei by (rewrite uadd_small by lia; lia).
  eexists _, _. split.
  - cbn [run fst snd advance]. fold word. unfold examine. rewrite (proj2 (Z.eqb_neq word (umax 64)) Hne).
    cbn [run fst snd advance]. fold word k. rewrite Hland. cbn [run fst snd advance]. reflexivity.
  - cbn [acquire_passes]. fold word. change 65%nat with (S 64). generalize 64%nat as fuel. intros fuel. cbn [claim_bit]. rewrite (proj2 (Z.eqb_neq word (umax 64)) Hne).
    fold word k. rewrite Hland. cbn [mbind option_bind]. rewrite Ei. destruct (index_join w k Hk) as [Eq _]. by rewrite Eq.
Qed.

Lemma run_passes p n : ∀ w,
  pool_ok p → 0 <= w < fp_word_count p →
  ∃ m r p', (m <= n + 6)%nat ∧ acquire_passes n w p = Some (r, p') ∧ run m (p, AcquireLoad n w) = (p', outcome r).
Proof.
  induction n as [|n IH]; intros w Hp Hw.
  { exists 1%nat, None, p. split; [lia|done]. }
  destruct (decide (word_at (fp_bitmap p) w = umax 64)) as [E|NE].
  - pose proof (word_count_bounds p Hp) as [Hwc _]. destruct (examine_ok p (history p) n w (umax 64) Hw ltac:(lia) ltac:(by split)) as (Hn & _).
    unfold examine in Hn. rewrite Z.eqb_refl in Hn. simpl in Hn. destruct (IH (next_word p w) Hp Hn) as (m & r & p' & Hm & Ea & Er).
    exists (S m), r, p'. split; [lia|]. split.
    + cbn [acquire_passes]. rewrite E. change 65%nat with (S 64). generalize 64%nat as fuel. intros fuel.
      cbn [claim_bit]. rewrite Z.eqb_refl. exact Ea.
    + cbn [run advance fst snd]. unfold examine. rewrite E, Z.eqb_refl. exact Er.
  - destruct (run_claim p n w Hp Hw NE) as (a & p' & Er & Ea). exists 6%nat, (Some a), p'. split; [lia|done].
Qed.

Lemma run_acquire p :
  pool_ok p →
  ∃ m r p', (m <= 71)%nat ∧ iree_hal_memory_fixed_block_allocator_try_acquire p = Some (r, p') ∧
    run m (p, AcquireStart) = (p', outcome r).
Proof.
  intros Hp. pose proof (word_count_bounds p Hp) as [Hwc _]. unfold iree_hal_memory_fixed_block_allocator_try_acquire.
  set (w := if fp_word_count p <=? wrap 16 (fp_alloc_hint_word p) then 0 else wrap 16 (fp_alloc_hint_word p)).
  assert (0 <= w < fp_word_count p) as Hw.
  { unfold w. pose proof (wrap_in_width 16 ltac:(lia) (fp_alloc_hint_word p)) as [? _].
    destruct (Z.leb_spec (fp_word_count p) (wrap 16 (fp_alloc_hint_word p))); lia. }
  destruct (run_passes p (Z.to_nat (fp_word_count p)) w Hp Hw) as (m & r & p' & Hm & Ea & Er).
  exists (S m), r, p'. split; [lia|]. done.
Qed.

(** ** Counting the held blocks *)

Lemma count_from_filter f n : ∀ lo,
  count_from f lo n = Z.of_nat (length (filter (λ i, f i = true) (seqZ lo (Z.of_nat n)))).
Proof.
  induction n as [|n IH]; intros lo; [done|]. rewrite seqZ_cons by lia. cbn [count_from]. rewrite filter_cons, IH.
  replace (Z.pred (Z.of_nat (S n))) with (Z.of_nat n) by lia. replace (Z.succ lo) with (lo + 1) by lia.
  destruct (f lo); simpl; lia.
Qed.

Lemma held_count p held :
  NoDup held → 0 <= fp_block_count p → (∀ i, i ∈ held ↔ block_index_ok p i ∧ acquired p i = true) →
  bit_count p = Z.of_nat (length held).
Proof.
  intros Hnd Hn Hh. unfold bit_count. rewrite count_from_filter. f_equal. apply Permutation_length, NoDup_Permutation; [|done|].
  - apply NoDup_filter, NoDup_seqZ.
  - intros i. rewrite list_elem_of_filter, elem_of_seqZ, Hh. unfold block_index_ok. rewrite Z2Nat.id by lia. tauto.
Qed.

(** ** What concurrent clients rely on *)

(** C7: under every interleaving of acquire, release and restore each block has at most
    one owner, a thread inside a call or a client, the set bits of the bitmap are exactly
    the owned blocks, and an acquire returns a block at its offset with the history that
    the latest release of that block left, or the history of the initial pool. *)
Theorem concurrent_ownership s :
  pool_reachable s →
  NoDup (owners s) ∧
  (∀ i, i ∈ owners s ↔ block_index_ok (pool s) i ∧ acquired (pool s) i = true) ∧
  (∀ t ph i, threads s !! t = Some ph → claims ph = Some i →
    i ∉ held s ∧ ∀ t' ph', t' ≠ t → threads s !! t' = Some ph' → claims ph' ≠ Some i) ∧
  (∀ t a, threads s !! t = Some (Acquired a) →
    fa_offset a = fa_block_index a * fp_block_size (pool s) ∧
    allocation_history a = last_history s (fa_block_index a)).
Proof.
  intros Hs%pool_reachable_ok. split; [apply Hs|]. split; [apply Hs|]. split.
  - intros t ph i Ht Hc. split; [by apply (claim_not_held s Hs t ph)|]. intros t' ph' Hne Ht'.
    by apply (claim_exclusive s Hs t ph Ht i t').
  - intros t a Ht. exact (Forall_lookup_1 _ _ _ _ (sys_phases s Hs) Ht).
Qed.

(** C8: whenever no thread is inside a call the pool satisfies the sequential invariant,
    its set bits are the held blocks, its allocation count is their number although the
    counter is updated apart from the bitmap, and the history of every block is the one
    its latest release left. *)
Theorem quiescent_pool_exact s :
  pool_reachable s → Forall (λ ph, ph = Idle) (threads s) →
  pool_ok (pool s) ∧ NoDup (held s) ∧
  (∀ i, i ∈ held s ↔ block_index_ok (pool s) i ∧ acquired (pool s) i = true) ∧
  fs_allocation_count (iree_hal_memory_fixed_block_allocator_query_stats (pool s)) = Z.of_nat (length (held s)) ∧
  ∀ i, block_index_ok (pool s) i → history (pool s) i = last_history s i.
Proof.
  intros Hs%pool_reachable_ok Hidle. assert (∀ f : phase → option Z, f Idle = None → omap f (threads s) = []) as Enil
    by (intros f Hf; induction Hidle as [|ph phs -> _ IH]; simpl; [done|by rewrite Hf]).
  pose proof (sys_nodup s Hs) as Hnd. pose proof (sys_owners s Hs) as Hown. unfold owners in *. rewrite Enil in * by done.
  pose proof (sys_pool s Hs) as Hq. assert (bit_count (pool s) = Z.of_nat (length (held s))) as Eb
    by (apply held_count; [done|pose proof (po_count _ Hq) as [? _]; simpl in *; lia|done]).
  assert (fp_allocation_count (pool s) = bit_count (pool s)) as Ec.
  { rewrite (sys_count s Hs). assert (pending_sum (threads s) = 0) as ->.
    { clear -Hidle. induction Hidle as [|ph phs -> _ IH]; [done|]. unfold pending_sum in *. simpl. lia. }
    rewrite Z.add_0_r. apply wrap_small. pose proof (count_bounds _ Hq : 0 <= bit_count (pool s) <= 4096). split; lia. }
  split; [|split; [done|]; split; [done|]; split; [simpl; by rewrite Ec|]].
  - destruct Hq. split; done.
  - intros i Hi. apply (sys_history s Hs i Hi). rewrite Enil by done. apply not_elem_of_nil.
Qed.

(** C9: a thread that is not disturbed finishes its call within 71 steps and computes what
    the sequential operation computes. *)
Theorem undisturbed_calls_agree p i death :
  pool_ok p →
  (∃ m r p', (m <= 71)%nat ∧ iree_hal_memory_fixed_block_allocator_try_acquire p = Some (r, p') ∧
    run m (p, AcquireStart) = (p', outcome r)) ∧
  run 4 (p, ReleaseWrite i death) = (iree_hal_memory_fixed_block_allocator_release p i death, Idle) ∧
  run 2 (p, ReleaseClear i) = (iree_hal_memory_fixed_block_allocator_restore p i, Idle).
Proof. intros Hp. split; [by apply run_acquire|]. done. Qed.

Lemma undisturbed_calls_agree_witness :
  run 4 (claimed 3 sample_pool, ReleaseWrite 3 None) =
    (iree_hal_memory_fixed_block_allocator_release (claimed 3 sample_pool) 3 None, Idle).
Proof.
  assert (pool_ok (claimed 3 sample_pool)) as Hp by (apply claimed_ok; [apply sample_pool_ok|done|by vm_compute]).
  exact (proj1 (proj2 (undisturbed_calls_agree (claimed 3 sample_pool) 3 None Hp))).
Defined.

(** *** An interleaving *)

(** A choice of the scheduler: advance a thread, or let it return or call. *)
Inductive choice :=
  | Advance (t : nat)
  | CallAcquire (t : nat)
  | Return (t : nat)
  | CallRelease (t : nat) (death : option iree_async_frontier_t)
  | CallRestore (t : nat).

Definition with_thread (s : pool_system) (t : nat) (p : pool_t) (ph : phase) (held : list Z) log : pool_system :=
  mk_system p (<[t := ph]> (threads s)) held log.

(** Releases take the block at the head of [held]. *)
Definition choose (s : pool_system) (c : choice) : option pool_system :=
  match c with
  | Advance t =>
      ph ← threads s !! t;
      if in_call ph then let '(p', ph') := advance (pool s) ph in Some (with_thread s t p' ph' (held s) (last_history s)) else None
  | CallAcquire t =>
      match threads s !! t with
      | Some Idle => Some (with_thread s t (pool s) AcquireStart (held s) (last_history s))
      | _ => None
      end
  | Return t =>
      match threads s !! t with
      | Some (Acquired a) => Some (with_thread s t (pool s) Idle (fa_block_index a :: held s) (last_history s))
      | Some Exhausted => Some (with_thread s t (pool s) Idle (held s) (last_history s))
      | _ => None
      end
  | CallRelease t death =>
      match threads s !! t, held s with
      | Some Idle, i :: rest =>
          Some (with_thread s t (pool s) (ReleaseWrite i death) rest
                  (record_history i (released_history (fp_frontier_capacity (pool s)) death) (last_history s)))
      | _, _ => None
      end
  | CallRestore t =>
      match threads s !! t, held s with
      | Some Idle, i :: rest => Some (with_thread s t (pool s) (ReleaseClear i) rest (last_history s))
      | _, _ => None
      end
  end.

Definition choice_ok (c : choice) : Prop := match c with CallRelease _ death => death_ok death | _ => True end.

Lemma choose_step s c s' : choice_ok c → choose s c = Some s' → pool_step s s'.
Proof.
  intros Hc E. destruct c as [t|t|t|t death|t]; simpl in E.
  - destruct (threads s !! t) as [ph|] eqn:Ht; [|done]. simpl in E. destruct (in_call ph) eqn:Hcall; [|done].
    destruct (advance (pool s) ph) as [p' ph'] eqn:Ead. injection E as <-. by apply (step_advance s t ph).
  - destruct (threads s !! t) as [[]|] eqn:Ht; try done. injection E as <-. by apply step_call_acquire.
  - destruct (threads s !! t) as [[]|] eqn:Ht; try done; injection E as <-; [by apply step_return_acquired|by apply step_return_exhausted].
  - destruct (threads s !! t) as [[]|] eqn:Ht; try done. destruct (held s) as [|i rest] eqn:Eh; [done|]. injection E as <-.
    by apply (step_call_release s t [] i rest death).
  - destruct (threads s !! t) as [[]|] eqn:Ht; try done. destruct (held s) as [|i rest] eqn:Eh; [done|]. injection E as <-.
    by apply (step_call_restore s t [] i rest).
Qed.

Fixpoint run_schedule (s : pool_system) (cs : list choice) : option pool_system :=
  match cs with [] => Some s | c :: cs => s ← choose s c; run_schedule s cs end.

Lemma schedule_reachable cs : ∀ s s', Forall choice_ok cs → pool_reachable s → run_schedule s cs = Some s' → pool_reachable s'.
Proof.
  induction cs as [|c cs IH]; intros s s' Hok Hs E; [by injection E as <-|]. apply Forall_cons in Hok as [Hc Hok].
  simpl in E. destruct (choose s c) as [s1|] eqn:E1; [|done]. apply (IH s1 s' Hok); [|done].
  eapply pool_reachable_step; [exact Hs|]. by apply (choose_step s c).
Qed.

Definition schedule_end (s : pool_system) (cs : list choice) : pool_system := default s (run_schedule s cs).

Lemma schedule_end_reachable s cs :
  Forall choice_ok cs → pool_reachable s → bool_decide (is_Some (run_schedule s cs)) = true → pool_reachable (schedule_end s cs).
Proof.
  intros Hok Hs [s' E]%bool_decide_eq_true. unfold schedule_end. rewrite E. by apply (schedule_reachable cs s).
Qed.

Definition two_threads : pool_system := mk_system sample_pool [Idle; Idle] [] (history sample_pool).

Lemma two_threads_reachable : pool_reachable two_threads.
Proof.
  apply (pool_reachable_start sample_pool 2 sample_pool_ok). intros i Hi.
  assert (acquired sample_pool i = acquired (fresh_pool sample_fixed_options 2 2) i) as -> by done.
  apply (fresh_pool_base sample_fixed_options sample_fixed_typed); [|done]. split; [done|done|done|]. by intros f [= <-].
Qed.

(** Both threads load the first word before either claims: the second loses the race for
    block 0 and takes block 1. *)
Definition race : list choice :=
  [CallAcquire 0; CallAcquire 1; Advance 0; Advance 1; Advance 0; Advance 1; Advance 0; Advance 1; Advance 1;
   Advance 0; Advance 1; Advance 0; Advance 1; Advance 0; Advance 1].

(** Both return, and one of the blocks is released by the other thread. *)
Definition race_then_release : list choice :=
  race ++ [Return 0; Return 1; CallRelease 0 (Some sample_fixed_frontier); Advance 0; Advance 0; Advance 0; Advance 0].

Lemma race_ok : Forall choice_ok race.
Proof. by repeat constructor. Qed.

Lemma race_then_release_ok : Forall choice_ok race_then_release.
Proof.
  apply Forall_app. split; [apply race_ok|]. do 2 (constructor; [done|]). constructor; [|by repeat constructor].
  intros f Hf. by apply (fot_initial _ sample_fixed_typed).
Qed.

Lemma concurrent_ownership_witness :
  NoDup (owners (schedule_end two_threads race)) ∧ owners (schedule_end two_threads race) = [0; 1].
Proof.
  assert (bool_decide (is_Some (run_schedule two_threads race)) = true) as E by by vm_compute.
  split; [|by vm_compute].
  exact (proj1 (concurrent_ownership _ (schedule_end_reachable _ _ race_ok two_threads_reachable E))).
Defined.

Lemma quiescent_pool_exact_witness :
  pool_ok (pool (schedule_end two_threads race_then_release)) ∧
  held (schedule_end two_threads race_then_release) = [0] ∧
  fp_allocation_count (pool (schedule_end two_threads race_then_release)) = 1.
Proof.
  assert (bool_decide (is_Some (run_schedule two_threads race_then_release)) = true) as E by by vm_compute.
  assert (threads (schedule_end two_threads race_then_release) = [Idle; Idle]) as Et by by vm_compute.
  destruct (quiescent_pool_exact _ (schedule_end_reachable _ _ race_then_release_ok two_threads_reachable E)) as (H & _).
  { rewrite Et. by repeat constructor. }
  split; [exact H|]. split; by vm_compute.
Defined.
