(* ===== verification/EndpointLifecycle.v ===== *)
(** * Endpoint lifecycles and the connection barrier

    [iree/net/endpoint_lifecycle.h] and [endpoint_lifecycle.c]: the states of an endpoint,
    the operations that hold it, and the barrier that joins the drains of all endpoints of
    a connection.  What a function does while it holds the lifecycle's mutex is one step;
    the callbacks it delivers afterwards are steps of their own ([connection_step]). *)

From S2P Require Import Prelude.
From stdpp Require Import base numbers list.

Local Open Scope Z_scope.
Local Open Scope machine_scope.

(** ** Data *)

Inductive iree_net_endpoint_lifecycle_state_t :=
  | LIFECYCLE_STATE_CREATED
  | LIFECYCLE_STATE_ACTIVE
  | LIFECYCLE_STATE_DRAINING
  | LIFECYCLE_STATE_DEACTIVATED.

#[export] Instance lifecycle_state_eq_dec : EqDecision iree_net_endpoint_lifecycle_state_t.
Proof. solve_decision. Defined.

(** A callback is the number of its user data; [None] is a null function. *)
Definition callback_t : Type := option Z.

Record iree_net_endpoint_deactivation_barrier_t := mk_barrier {
  br_pending_count : Z;
  br_callback : callback_t;
}.

(** [lc_connection_barrier] is whether the lifecycle is bound to the barrier. *)
Record iree_net_endpoint_lifecycle_t := mk_lifecycle {
  lc_state : iree_net_endpoint_lifecycle_state_t;
  lc_pending_operation_count : Z;
  lc_owner_drain_complete : bool;
  lc_endpoint_callback : callback_t;
  lc_connection_barrier : bool;
}.

Definition set_state (st : iree_net_endpoint_lifecycle_state_t) (l : iree_net_endpoint_lifecycle_t) :
    iree_net_endpoint_lifecycle_t :=
  mk_lifecycle st (lc_pending_operation_count l) (lc_owner_drain_complete l) (lc_endpoint_callback l) (lc_connection_barrier l).
Definition set_pending_operations (n : Z) (l : iree_net_endpoint_lifecycle_t) : iree_net_endpoint_lifecycle_t :=
  mk_lifecycle (lc_state l) n (lc_owner_drain_complete l) (lc_endpoint_callback l) (lc_connection_barrier l).
Definition set_owner_drain (b : bool) (l : iree_net_endpoint_lifecycle_t) : iree_net_endpoint_lifecycle_t :=
  mk_lifecycle (lc_state l) (lc_pending_operation_count l) b (lc_endpoint_callback l) (lc_connection_barrier l).
Definition set_endpoint_callback (c : callback_t) (l : iree_net_endpoint_lifecycle_t) : iree_net_endpoint_lifecycle_t :=
  mk_lifecycle (lc_state l) (lc_pending_operation_count l) (lc_owner_drain_complete l) c (lc_connection_barrier l).

(** The callbacks to deliver once a lifecycle has finished. *)
Record iree_net_endpoint_lifecycle_completion_t := mk_completion {
  cp_endpoint_callback : callback_t;
  cp_connection_barrier : bool;
}.

(** ** Helpers *)

Definition iree_net_endpoint_lifecycle_try_finish_locked (l : iree_net_endpoint_lifecycle_t) :
    iree_net_endpoint_lifecycle_t * option iree_net_endpoint_lifecycle_completion_t :=
  if negb (bool_decide (lc_state l = LIFECYCLE_STATE_DRAINING)) || negb (lc_owner_drain_complete l)
     || negb (lc_pending_operation_count l =? 0)
  then (l, None)
  else
    (set_endpoint_callback None (set_state LIFECYCLE_STATE_DEACTIVATED l),
     Some (mk_completion (lc_endpoint_callback l) (lc_connection_barrier l))).

(** [fetch_add] and [fetch_sub] on a 32-bit signed count. *)
Definition signed_wrap (w x : Z) : Z := wrap w (x + 2 ^ (w - 1)) - 2 ^ (w - 1).

Definition iree_net_endpoint_lifecycle_begin_drain_locked (l : iree_net_endpoint_lifecycle_t)
    (b : iree_net_endpoint_deactivation_barrier_t) :
    iree_net_endpoint_lifecycle_t * iree_net_endpoint_deactivation_barrier_t :=
  let l := set_state LIFECYCLE_STATE_DRAINING l in
  if lc_connection_barrier l then (l, mk_barrier (signed_wrap 32 (br_pending_count b + 1)) (br_callback b)) else (l, b).

(** The barrier, and the connection callback if this arrival was the last. *)
Definition iree_net_endpoint_deactivation_barrier_arrive (b : iree_net_endpoint_deactivation_barrier_t) :
    iree_net_endpoint_deactivation_barrier_t * option callback_t :=
  let old := br_pending_count b in
  let b := mk_barrier (signed_wrap 32 (old - 1)) (br_callback b) in
  if old =? 1 then (b, Some (br_callback b)) else (b, None).

(** ** Operations *)

Definition iree_net_endpoint_lifecycle_initialize (connection_barrier : bool) : iree_net_endpoint_lifecycle_t :=
  mk_lifecycle LIFECYCLE_STATE_CREATED 0 false None connection_barrier.

Definition iree_net_endpoint_lifecycle_activate (l : iree_net_endpoint_lifecycle_t) :
    status_or iree_net_endpoint_lifecycle_t :=
  if bool_decide (lc_state l = LIFECYCLE_STATE_CREATED) then Ok (set_state LIFECYCLE_STATE_ACTIVE l)
  else Err IREE_STATUS_FAILED_PRECONDITION.

Definition iree_net_endpoint_lifecycle_rollback_activation (l : iree_net_endpoint_lifecycle_t) :
    iree_net_endpoint_lifecycle_t :=
  set_state LIFECYCLE_STATE_CREATED l.

Definition iree_net_endpoint_lifecycle_try_begin_operation (l : iree_net_endpoint_lifecycle_t) :
    bool * iree_net_endpoint_lifecycle_t :=
  let accepted := bool_decide (lc_state l = LIFECYCLE_STATE_ACTIVE) in
  (accepted, if accepted then set_pending_operations (lc_pending_operation_count l +64 1) l else l).

(** The part under the mutex; the completion is dispatched afterwards. *)
Definition iree_net_endpoint_lifecycle_end_operation (l : iree_net_endpoint_lifecycle_t) :
    iree_net_endpoint_lifecycle_t * option iree_net_endpoint_lifecycle_completion_t :=
  iree_net_endpoint_lifecycle_try_finish_locked (set_pending_operations (lc_pending_operation_count l -64 1) l).

Definition iree_net_endpoint_lifecycle_request_deactivation (callback : callback_t) (l : iree_net_endpoint_lifecycle_t)
    (b : iree_net_endpoint_deactivation_barrier_t) :
    status_or (iree_net_endpoint_lifecycle_t * iree_net_endpoint_deactivation_barrier_t) :=
  if negb (bool_decide (lc_state l = LIFECYCLE_STATE_ACTIVE)) then Err IREE_STATUS_FAILED_PRECONDITION
  else
    let '(l, b) := iree_net_endpoint_lifecycle_begin_drain_locked l b in
    Ok (set_endpoint_callback callback l, b).

Definition iree_net_endpoint_deactivation_barrier_initialize : iree_net_endpoint_deactivation_barrier_t :=
  mk_barrier 1 None.

(** [true] is [IREE_NET_ENDPOINT_LIFECYCLE_ACTION_BEGIN_DEACTIVATION]. *)
Definition iree_net_endpoint_lifecycle_join_deactivation (l : iree_net_endpoint_lifecycle_t)
    (b : iree_net_endpoint_deactivation_barrier_t) :
    bool * iree_net_endpoint_lifecycle_t * iree_net_endpoint_deactivation_barrier_t :=
  if bool_decide (lc_state l = LIFECYCLE_STATE_ACTIVE) then
    let '(l, b) := iree_net_endpoint_lifecycle_begin_drain_locked l b in (true, l, b)
  else (false, l, b).

(** [barrier->callback = callback]; the arrival of the commit follows. *)
Definition barrier_publish (callback : callback_t) (b : iree_net_endpoint_deactivation_barrier_t) :
    iree_net_endpoint_deactivation_barrier_t :=
  mk_barrier (br_pending_count b) callback.

Definition iree_net_endpoint_deactivation_barrier_commit (callback : callback_t)
    (b : iree_net_endpoint_deactivation_barrier_t) : iree_net_endpoint_deactivation_barrier_t * option callback_t :=
  iree_net_endpoint_deactivation_barrier_arrive (barrier_publish callback b).

Definition iree_net_endpoint_lifecycle_complete_deactivation (l : iree_net_endpoint_lifecycle_t) :
    iree_net_endpoint_lifecycle_t * option iree_net_endpoint_lifecycle_completion_t :=
  iree_net_endpoint_lifecycle_try_finish_locked (set_owner_drain true l).

(** ** A connection and its endpoints *)

Inductive event :=
  | EndpointRequested (i : nat) (callback : Z)
  | EndpointCallback (i : nat) (callback : Z)
  | ConnectionCallback (callback : Z).

(** Where [dispatch_completion] is: before the endpoint callback, or before the arrival. *)
Inductive dispatch :=
  | DispatchCallback (c : iree_net_endpoint_lifecycle_completion_t)
  | DispatchArrive (c : iree_net_endpoint_lifecycle_completion_t).

(** How far the connection's deactivation is: it visits the endpoints in order, publishes
    its callback and arrives. *)
Inductive connection_phase :=
  | ConnectionOpen
  | ConnectionJoining (next : nat)
  | ConnectionPublished
  | ConnectionCommitted.

Record connection_system := mk_connection {
  cn_endpoints : list iree_net_endpoint_lifecycle_t;
  cn_barrier : iree_net_endpoint_deactivation_barrier_t;
  cn_phase : connection_phase;
  cn_dispatches : list (nat * dispatch);
  cn_events : list event;
}.

Definition set_endpoint (i : nat) (l : iree_net_endpoint_lifecycle_t) (s : connection_system) : connection_system :=
  mk_connection (<[i := l]> (cn_endpoints s)) (cn_barrier s) (cn_phase s) (cn_dispatches s) (cn_events s).
Definition set_barrier (b : iree_net_endpoint_deactivation_barrier_t) (s : connection_system) : connection_system :=
  mk_connection (cn_endpoints s) b (cn_phase s) (cn_dispatches s) (cn_events s).
Definition set_phase (p : connection_phase) (s : connection_system) : connection_system :=
  mk_connection (cn_endpoints s) (cn_barrier s) p (cn_dispatches s) (cn_events s).
Definition set_dispatches (ds : list (nat * dispatch)) (s : connection_system) : connection_system :=
  mk_connection (cn_endpoints s) (cn_barrier s) (cn_phase s) ds (cn_events s).
Definition log (es : list event) (s : connection_system) : connection_system :=
  mk_connection (cn_endpoints s) (cn_barrier s) (cn_phase s) (cn_dispatches s) (cn_events s ++ es).

(** A non-null callback is delivered. *)
Definition deliver (f : Z → event) (c : callback_t) : list event := match c with Some u => [f u] | None => [] end.

(** The completion of a lifecycle that finished is dispatched by the same thread. *)
Definition start_dispatch (i : nat) (c : option iree_net_endpoint_lifecycle_completion_t) (s : connection_system) : connection_system :=
  match c with
  | Some c => set_dispatches (cn_dispatches s ++ [(i, DispatchCallback c)]) s
  | None => s
  end.

(** An arrival at the barrier, with the connection callback when it was the last. *)
Definition arrive (s : connection_system) : connection_system :=
  let '(b, fired) := iree_net_endpoint_deactivation_barrier_arrive (cn_barrier s) in
  log (match fired with Some c => deliver ConnectionCallback c | None => [] end) (set_barrier b s).

(** Calls follow the contracts of the header: activation is serialized with the connection's
    deactivation, an operation is ended by its holder, an owner completes its drain once. *)
Inductive connection_step : connection_system → connection_system → Prop :=
  | step_activate s i l l' :
      cn_endpoints s !! i = Some l → cn_phase s = ConnectionOpen →
      iree_net_endpoint_lifecycle_activate l = Ok l' →
      connection_step s (set_endpoint i l' s)
  | step_rollback s i l :
      cn_endpoints s !! i = Some l → cn_phase s = ConnectionOpen →
      lc_state l = LIFECYCLE_STATE_ACTIVE → lc_pending_operation_count l = 0 →
      connection_step s (set_endpoint i (iree_net_endpoint_lifecycle_rollback_activation l) s)
  | step_begin_operation s i l :
      cn_endpoints s !! i = Some l → lc_pending_operation_count l < umax 64 →
      connection_step s (set_endpoint i (iree_net_endpoint_lifecycle_try_begin_operation l).2 s)
  | step_end_operation s i l l' c :
      cn_endpoints s !! i = Some l → 0 < lc_pending_operation_count l →
      iree_net_endpoint_lifecycle_end_operation l = (l', c) →
      connection_step s (start_dispatch i c (set_endpoint i l' s))
  | step_request s i l callback l' b' :
      cn_endpoints s !! i = Some l →
      iree_net_endpoint_lifecycle_request_deactivation callback l (cn_barrier s) = Ok (l', b') →
      connection_step s (log (deliver (EndpointRequested i) callback) (set_barrier b' (set_endpoint i l' s)))
  | step_complete s i l l' c :
      cn_endpoints s !! i = Some l → lc_state l = LIFECYCLE_STATE_DRAINING → lc_owner_drain_complete l = false →
      iree_net_endpoint_lifecycle_complete_deactivation l = (l', c) →
      connection_step s (start_dispatch i c (set_endpoint i l' s))
  | step_dispatch_callback s i c ds1 ds2 :
      cn_dispatches s = ds1 ++ (i, DispatchCallback c) :: ds2 →
      connection_step s
        (log (deliver (EndpointCallback i) (cp_endpoint_callback c)) (set_dispatches (ds1 ++ (i, DispatchArrive c) :: ds2) s))
  | step_dispatch_arrive s i c ds1 ds2 :
      cn_dispatches s = ds1 ++ (i, DispatchArrive c) :: ds2 →
      connection_step s
        (let s := set_dispatches (ds1 ++ ds2) s in if cp_connection_barrier c then arrive s else s)
  | step_deactivate s :
      cn_phase s = ConnectionOpen → connection_step s (set_phase (ConnectionJoining 0) s)
  | step_join s i l started l' b' :
      cn_phase s = ConnectionJoining i → cn_endpoints s !! i = Some l →
      iree_net_endpoint_lifecycle_join_deactivation l (cn_barrier s) = (started, l', b') →
      connection_step s (set_phase (ConnectionJoining (S i)) (set_barrier b' (set_endpoint i l' s)))
  | step_publish s callback :
      cn_phase s = ConnectionJoining (length (cn_endpoints s)) →
      connection_step s (set_phase ConnectionPublished (set_barrier (barrier_publish (Some callback) (cn_barrier s)) s))
  | step_commit_arrive s :
      cn_phase s = ConnectionPublished → connection_step s (arrive (set_phase ConnectionCommitted s)).

(** A connection of [n] endpoints. *)
Inductive connection_reachable : connection_system → Prop :=
  | connection_start n :
      Z.of_nat n < 2 ^ 31 - 1 →
      connection_reachable
        (mk_connection (replicate n (iree_net_endpoint_lifecycle_initialize true))
           iree_net_endpoint_deactivation_barrier_initialize ConnectionOpen [] [])
  | connection_next s s' : connection_reachable s → connection_step s s' → connection_reachable s'.
