(* ===== verification/EndpointTheorems.v ===== *)
(** * Theorems on endpoint lifecycles

    The invariant of the connections of [EndpointLifecycle]: the barrier counts the setup
    hold, the draining endpoints and the completions under way, and every callback that was
    requested is delivered once. *)

From S2P Require Import Prelude EndpointLifecycle.
From stdpp Require Import base numbers list.

Local Open Scope Z_scope.
Local Open Scope machine_scope.

(** ** Measures *)

Definition is_draining (l : iree_net_endpoint_lifecycle_t) : nat :=
  if bool_decide (lc_state l = LIFECYCLE_STATE_DRAINING) then 1 else 0.
Definition is_deactivated (l : iree_net_endpoint_lifecycle_t) : nat :=
  if bool_decide (lc_state l = LIFECYCLE_STATE_DEACTIVATED) then 1 else 0.

Definition draining (ls : list iree_net_endpoint_lifecycle_t) : nat := sum_list_with is_draining ls.
Definition deactivated (ls : list iree_net_endpoint_lifecycle_t) : nat := sum_list_with is_deactivated ls.

(** Callbacks that are still to be delivered, as the events of their delivery. *)
Fixpoint registered (i : nat) (ls : list iree_net_endpoint_lifecycle_t) : list event :=
  match ls with
  | [] => []
  | l :: ls => deliver (EndpointCallback i) (lc_endpoint_callback l) ++ registered (S i) ls
  end.

Definition dispatch_owed (d : nat * dispatch) : list event :=
  match d with
  | (i, DispatchCallback c) => deliver (EndpointCallback i) (cp_endpoint_callback c)
  | (_, DispatchArrive _) => []
  end.

Definition dispatches_owed (ds : list (nat * dispatch)) : list event := concat (dispatch_owed <$> ds).

(** The events of a log by kind: requests, as the deliveries they ask for; deliveries; calls
    of the connection callback. *)
Definition requested (es : list event) : list event :=
  omap (λ e, match e with EndpointRequested i c => Some (EndpointCallback i c) | _ => None end) es.
Definition delivered (es : list event) : list event :=
  omap (λ e, match e with EndpointCallback i c => Some e | _ => None end) es.
Definition connection_calls (es : list event) : list event :=
  omap (λ e, match e with ConnectionCallback c => Some e | _ => None end) es.

(** Replacing one endpoint. *)
Lemma update_measures ls i l l' :
  ls !! i = Some l →
  (draining (<[i := l']> ls) + is_draining l = draining ls + is_draining l')%nat ∧
  (deactivated (<[i := l']> ls) + is_deactivated l = deactivated ls + is_deactivated l')%nat ∧
  registered 0 (<[i := l']> ls) ++ deliver (EndpointCallback i) (lc_endpoint_callback l) ≡ₚ
    registered 0 ls ++ deliver (EndpointCallback i) (lc_endpoint_callback l').
Proof.
  intros Hi. pose proof (lookup_lt_Some _ _ _ Hi). rewrite <- (take_drop_middle ls i l Hi) at 2 4 6.
  rewrite insert_take_drop by done. unfold draining, deactivated. rewrite !sum_list_with_app. cbn [sum_list_with].
  split; [lia|]. split; [lia|].
  assert (∀ xs ys n, registered n (xs ++ ys) = registered n xs ++ registered (n + length xs) ys) as Happ.
  { induction xs as [|x xs IH]; intros ys n; simpl; [by rewrite Nat.add_0_r|]. rewrite IH, <- app_assoc. by rewrite Nat.add_succ_r. }
  rewrite !Happ, length_take_le by lia. cbn [registered]. rewrite !Nat.add_0_l. solve_Permutation.
Qed.

Lemma draining_deactivated_le ls : (draining ls + deactivated ls <= length ls)%nat.
Proof.
  induction ls as [|l ls IH]; [done|]. unfold draining, deactivated in *. cbn [sum_list_with length].
  unfold is_draining at 1, is_deactivated at 1. destruct (lc_state l); simpl; lia.
Qed.

(** ** The invariant *)

Record endpoint_ok (l : iree_net_endpoint_lifecycle_t) : Prop := mk_endpoint_ok {
  eo_bound : lc_connection_barrier l = true;
  eo_pending : in_width 64 (lc_pending_operation_count l);
  eo_idle : lc_state l = LIFECYCLE_STATE_CREATED ∨ lc_state l = LIFECYCLE_STATE_DEACTIVATED → lc_pending_operation_count l = 0;
  eo_callback : lc_state l ≠ LIFECYCLE_STATE_DRAINING → lc_endpoint_callback l = None;
  eo_undrained : lc_state l = LIFECYCLE_STATE_CREATED ∨ lc_state l = LIFECYCLE_STATE_ACTIVE → lc_owner_drain_complete l = false;
  eo_unfinished : lc_state l = LIFECYCLE_STATE_DRAINING → lc_owner_drain_complete l = true → lc_pending_operation_count l ≠ 0;
}.

Definition setup_hold (p : connection_phase) : Z := match p with ConnectionCommitted => 0 | _ => 1 end.

(** Endpoints that the connection's deactivation has visited are not active. *)
Definition visited (p : connection_phase) (ls : list iree_net_endpoint_lifecycle_t) : Prop :=
  match p with
  | ConnectionOpen => True
  | ConnectionJoining k => (k <= length ls)%nat ∧ Forall (λ l, lc_state l ≠ LIFECYCLE_STATE_ACTIVE) (take k ls)
  | ConnectionPublished | ConnectionCommitted => Forall (λ l, lc_state l ≠ LIFECYCLE_STATE_ACTIVE) ls
  end.

Definition phase_callback (p : connection_phase) (c : callback_t) : Prop :=
  match p with ConnectionPublished | ConnectionCommitted => is_Some c | _ => c = None end.

(** [extra] holds of the barrier belong to a call that is about to arrive. *)
Record connection_ok (extra : Z) (s : connection_system) : Prop := mk_connection_ok {
  co_endpoints : Forall endpoint_ok (cn_endpoints s);
  co_size : Z.of_nat (length (cn_endpoints s)) < 2 ^ 31 - 1;
  co_bound : Forall (λ d, match d.2 with DispatchCallback c | DispatchArrive c => cp_connection_barrier c = true end) (cn_dispatches s);
  co_few : (length (cn_dispatches s) <= deactivated (cn_endpoints s))%nat;
  co_count : br_pending_count (cn_barrier s) =
    extra + setup_hold (cn_phase s) + Z.of_nat (draining (cn_endpoints s)) + Z.of_nat (length (cn_dispatches s));
  co_visited : visited (cn_phase s) (cn_endpoints s);
  co_callback : phase_callback (cn_phase s) (br_callback (cn_barrier s));
  co_ledger : requested (cn_events s) ≡ₚ
    delivered (cn_events s) ++ registered 0 (cn_endpoints s) ++ dispatches_owed (cn_dispatches s);
  co_fired : if decide (br_pending_count (cn_barrier s) = 0)
    then ∃ es c, cn_events s = es ++ [ConnectionCallback c] ∧ connection_calls es = []
    else connection_calls (cn_events s) = [];
}.

(** ** Preservation *)

Ltac system_cbn :=
  cbn [cn_endpoints cn_barrier cn_phase cn_dispatches cn_events set_endpoint set_barrier set_phase set_dispatches log
    start_dispatch br_pending_count br_callback setup_hold].

Lemma Forall_unless {A} (P : A → Prop) ls i l l' : ls !! i = Some l → Forall P ls → (P l → P l') → Forall P (<[i := l']> ls).
Proof. intros Hi Hf Hp. apply Forall_insert; [done|]. apply Hp. by eapply Forall_lookup_1. Qed.

Lemma visited_update p ls i l l' :
  ls !! i = Some l → (lc_state l' = LIFECYCLE_STATE_ACTIVE → p = ConnectionOpen ∨ lc_state l = LIFECYCLE_STATE_ACTIVE) →
  visited p ls → visited p (<[i := l']> ls).
Proof.
  intros Hi Hact. assert (p ≠ ConnectionOpen → lc_state l ≠ LIFECYCLE_STATE_ACTIVE → lc_state l' ≠ LIFECYCLE_STATE_ACTIVE) as Hn
    by (intros Hp Hl Hl'; by destruct (Hact Hl')).
  destruct p as [|k| |]; cbn [visited]; [done| |intros Hf; by eapply Forall_unless; eauto..].
  rewrite length_insert. intros [Hk Hf]. split; [done|]. destruct (decide (i < k)%nat).
  - rewrite take_insert_lt by done. eapply Forall_unless; [by rewrite lookup_take_lt|done|]. by apply Hn.
  - by rewrite take_insert_ge by lia.
Qed.

(** Connection callbacks are not affected by other events. *)
Lemma fired_log pending es new :
  connection_calls new = [] → (pending = 0 → new = []) →
  (if decide (pending = 0) then ∃ es' c, es = es' ++ [ConnectionCallback c] ∧ connection_calls es' = [] else connection_calls es = []) →
  (if decide (pending = 0) then ∃ es' c, es ++ new = es' ++ [ConnectionCallback c] ∧ connection_calls es' = []
   else connection_calls (es ++ new) = []).
Proof.
  intros Hn Hz. case_decide as E; [by rewrite (Hz E), app_nil_r|]. intros H. unfold connection_calls in *.
  by rewrite omap_app, H, Hn.
Qed.

(** A step that changes neither the drains nor the callbacks. *)
Lemma quiet_ok s i l l' :
  connection_ok 0 s → cn_endpoints s !! i = Some l → endpoint_ok l' →
  is_draining l' = is_draining l → is_deactivated l' = is_deactivated l → lc_endpoint_callback l' = lc_endpoint_callback l →
  (lc_state l' = LIFECYCLE_STATE_ACTIVE → cn_phase s = ConnectionOpen ∨ lc_state l = LIFECYCLE_STATE_ACTIVE) →
  connection_ok 0 (set_endpoint i l' s).
Proof.
  intros [He Hs Hb Hf Hc Hv Hcb Hl Hfire] Hi Hl' Ed Ea Ec Hact.
  destruct (update_measures _ _ _ l' Hi) as (Md & Ma & Mr). rewrite Ec in Mr. apply Permutation_app_inv_r in Mr.
  split; system_cbn; try done.
  - by apply Forall_insert.
  - by rewrite length_insert.
  - lia.
  - rewrite Hc. lia.
  - by eapply visited_update.
  - by rewrite Mr.
Qed.

Lemma state_measures l :
  is_draining l = (match lc_state l with LIFECYCLE_STATE_DRAINING => 1 | _ => 0 end)%nat ∧
  is_deactivated l = (match lc_state l with LIFECYCLE_STATE_DEACTIVATED => 1 | _ => 0 end)%nat.
Proof. unfold is_draining, is_deactivated. by destruct (lc_state l). Qed.

(** A lifecycle finishes: its completion is dispatched. *)
Lemma finish_ok s i l l' :
  connection_ok 0 s → cn_endpoints s !! i = Some l → lc_state l = LIFECYCLE_STATE_DRAINING →
  endpoint_ok l' → lc_state l' = LIFECYCLE_STATE_DEACTIVATED →
  connection_ok 0 (start_dispatch i (Some (mk_completion (lc_endpoint_callback l) true)) (set_endpoint i l' s)).
Proof.
  intros [He Hs Hb Hf Hc Hv Hcb Hl Hfire] Hi Hst Hl' Hst'.
  destruct (update_measures _ _ _ l' Hi) as (Md & Ma & Mr). destruct (state_measures l) as [Sd Sa], (state_measures l') as [Sd' Sa'].
  rewrite Hst in Sd, Sa. rewrite Hst' in Sd', Sa'. rewrite (eo_callback _ Hl') in Mr by by rewrite Hst'.
  cbn [deliver] in Mr. rewrite app_nil_r in Mr.
  split; system_cbn; try done.
  - by apply Forall_insert.
  - by rewrite length_insert.
  - apply Forall_app_2; [done|by repeat constructor].
  - rewrite length_app. cbn [length]. lia.
  - rewrite Hc, length_app. cbn [length]. lia.
  - eapply visited_update; [done| |done]. by rewrite Hst'.
  - rewrite Hl. unfold dispatches_owed. rewrite fmap_app, concat_app. cbn. rewrite app_nil_r, <- Mr. solve_Permutation.
Qed.

(** A drain begins: the barrier gains a hold. *)
Lemma drain_ok s i l l' callback :
  connection_ok 0 s → cn_endpoints s !! i = Some l → lc_state l = LIFECYCLE_STATE_ACTIVE →
  endpoint_ok l' → lc_state l' = LIFECYCLE_STATE_DRAINING → lc_endpoint_callback l' = callback →
  connection_ok 0
    (log (deliver (EndpointRequested i) callback)
       (set_barrier (mk_barrier (signed_wrap 32 (br_pending_count (cn_barrier s) + 1)) (br_callback (cn_barrier s))) (set_endpoint i l' s))).
Proof.
  intros [He Hs Hb Hf Hc Hv Hcb Hl Hfire] Hi Hst Hl' Hst' Ecb.
  destruct (update_measures _ _ _ l' Hi) as (Md & Ma & Mr). destruct (state_measures l) as [Sd Sa], (state_measures l') as [Sd' Sa'].
  rewrite Hst in Sd, Sa. rewrite Hst' in Sd', Sa'. pose proof (eo_callback _ (Forall_lookup_1 _ _ _ _ He Hi)) as En. rewrite Hst in En. rewrite (En ltac:(done)), Ecb, app_nil_r in Mr.
  pose proof (draining_deactivated_le (<[i := l']> (cn_endpoints s))) as Hle. rewrite length_insert in Hle.
  assert (0 <= setup_hold (cn_phase s) <= 1) as Hset by (destruct (cn_phase s); simpl; lia).
  assert (setup_hold (cn_phase s) = 1) as Hset1.
  { destruct (cn_phase s); try done. exfalso. by apply (Forall_lookup_1 _ _ _ _ Hv Hi). }
  assert (signed_wrap 32 (br_pending_count (cn_barrier s) + 1) = br_pending_count (cn_barrier s) + 1) as Hw.
  { unfold signed_wrap. rewrite wrap_small; [lia|]. unfold in_width. change (2 ^ (32 - 1)) with 2147483648. change (2 ^ 32) with 4294967296.
    change (2 ^ 31) with 2147483648 in Hs. lia. }
  split; system_cbn; try done.
  - by apply Forall_insert.
  - by rewrite length_insert.
  - lia.
  - rewrite Hw, Hc. lia.
  - eapply visited_update; [done| |done]. by rewrite Hst'.
  - unfold requested, delivered in *. rewrite !omap_app, Hl. subst callback. destruct (lc_endpoint_callback l'); cbn in *.
    + rewrite Mr. solve_Permutation.
    + by rewrite Mr, !app_nil_r.
  - rewrite Hw. rewrite decide_False by lia. rewrite decide_False in Hfire by lia. unfold connection_calls in *.
    rewrite omap_app, Hfire. by destruct callback.
Qed.

(** An arrival gives up its hold; the last one calls the connection. *)
Lemma arrive_ok s : connection_ok 1 s → connection_ok 0 (arrive s).
Proof.
  intros [He Hs Hb Hf Hc Hv Hcb Hl Hfire]. pose proof (draining_deactivated_le (cn_endpoints s)) as Hle.
  assert (0 <= setup_hold (cn_phase s) <= 1) as Hset by (destruct (cn_phase s); simpl; lia).
  assert (signed_wrap 32 (br_pending_count (cn_barrier s) - 1) = br_pending_count (cn_barrier s) - 1) as Hw.
  { unfold signed_wrap. rewrite wrap_small; [lia|]. unfold in_width. change (2 ^ (32 - 1)) with 2147483648. change (2 ^ 32) with 4294967296.
    change (2 ^ 31) with 2147483648 in Hs. lia. }
  rewrite decide_False in Hfire by lia. unfold arrive, iree_net_endpoint_deactivation_barrier_arrive.
  destruct (Z.eqb_spec (br_pending_count (cn_barrier s)) 1) as [E|E]; system_cbn.
  - assert (cn_phase s = ConnectionCommitted) as Hp by (destruct (cn_phase s); simpl in Hc; done || lia).
    rewrite Hp in Hcb. destruct Hcb as [c Ecb]. rewrite Ecb. cbn [deliver]. split; system_cbn; try done.
    + rewrite Hw. lia.
    + rewrite Hp. cbn. rewrite ?Ecb. by eexists.
    + unfold requested, delivered in *. by rewrite !omap_app, Hl, !app_nil_r.
    + rewrite Hw, decide_True by lia. by exists (cn_events s), c.
  - split; system_cbn; try done.
    + rewrite Hw. lia.
    + by rewrite app_nil_r.
    + rewrite Hw, decide_False, app_nil_r by lia. done.
Qed.

(** The part of a call after its changes to the lifecycle. *)
Lemma try_finish_ok s i l l1 l' c :
  connection_ok 0 s → cn_endpoints s !! i = Some l → lc_state l1 = lc_state l → lc_endpoint_callback l1 = lc_endpoint_callback l →
  lc_connection_barrier l1 = true → in_width 64 (lc_pending_operation_count l1) →
  (lc_state l = LIFECYCLE_STATE_DRAINING ∨ (lc_state l = LIFECYCLE_STATE_ACTIVE ∧ lc_owner_drain_complete l1 = false)) →
  iree_net_endpoint_lifecycle_try_finish_locked l1 = (l', c) →
  connection_ok 0 (start_dispatch i c (set_endpoint i l' s)).
Proof.
  intros Hok Hi Est Ecb Eb Hw Hst. pose proof (Forall_lookup_1 _ _ _ _ (co_endpoints _ _ Hok) Hi) as Hl.
  unfold iree_net_endpoint_lifecycle_try_finish_locked.
  destruct (bool_decide_reflect (lc_state l1 = LIFECYCLE_STATE_DRAINING)) as [Hd|Hd];
  destruct (lc_owner_drain_complete l1) eqn:Eo; destruct (Z.eqb_spec (lc_pending_operation_count l1) 0) as [E0|E0]; cbn [negb orb];
    intros [= <- <-]; try (apply (quiet_ok s i l); try done; [|unfold is_draining; by rewrite Est|unfold is_deactivated; by rewrite Est|
      rewrite Est; by right]; split; rewrite ?Est, ?Ecb; try done; try (by apply Hl); by intuition congruence).
  rewrite Ecb, Eb. apply finish_ok; [done|done|congruence| |done]. split; cbn; try done; by intuition congruence.
Qed.

Ltac endpoint_solve := split; cbn; try done; intros; intuition congruence.
Ltac measure_solve := unfold is_draining, is_deactivated; cbn [lc_state set_state]; match goal with H : lc_state _ = _ |- _ => by rewrite H end.

Lemma start_dispatch_ok n :
  Z.of_nat n < 2 ^ 31 - 1 →
  connection_ok 0 (mk_connection (replicate n (iree_net_endpoint_lifecycle_initialize true))
    iree_net_endpoint_deactivation_barrier_initialize ConnectionOpen [] []).
Proof.
  intros Hn. set (l := iree_net_endpoint_lifecycle_initialize true). assert (endpoint_ok l) as Hl by by split; cbn; intuition.
  assert (draining (replicate n l) = 0%nat ∧ ∀ i, registered i (replicate n l) = []) as [Hd Hr].
  { clear Hn. induction n as [|n [IHd IHr]]; [done|]. split; [done|]. intros i. by rewrite replicate_S; cbn. }
  split; system_cbn; try done.
  - by apply Forall_replicate.
  - by rewrite length_replicate.
  - simpl. lia.
  - by rewrite Hd.
  - by rewrite Hr.
Qed.

Lemma log_nil s : log [] s = s.
Proof. destruct s. unfold log. cbn. by rewrite app_nil_r. Qed.

(** The connection's deactivation goes on to the next endpoint. *)
Lemma joined_ok s i l :
  connection_ok 0 s → cn_phase s = ConnectionJoining i → cn_endpoints s !! i = Some l → lc_state l ≠ LIFECYCLE_STATE_ACTIVE →
  connection_ok 0 (set_phase (ConnectionJoining (S i)) s).
Proof.
  intros [He Hs Hb Hf Hc Hv Hcb Hl Hfire] Hp Hi Hst. rewrite Hp in *. destruct Hv as [Hk Hv]. split; system_cbn; try done.
  pose proof (lookup_lt_Some _ _ _ Hi). split; [lia|]. rewrite (take_S_r _ _ l Hi). by apply Forall_app_2, Forall_cons_2.
Qed.

(** [dispatch_completion] up to and including the endpoint callback, and its arrival. *)
Lemma dispatch_callback_ok s i c ds1 ds2 :
  connection_ok 0 s → cn_dispatches s = ds1 ++ (i, DispatchCallback c) :: ds2 →
  connection_ok 0
    (log (deliver (EndpointCallback i) (cp_endpoint_callback c)) (set_dispatches (ds1 ++ (i, DispatchArrive c) :: ds2) s)).
Proof.
  intros Hok Hds.
  destruct Hok as [He Hs Hb Hf Hc Hv Hcb Hl Hfire]. rewrite Hds in *. apply Forall_app in Hb as [Hb1 Hb2]. apply Forall_cons in Hb2 as [Hbc Hb2].
  rewrite length_app in *. split; system_cbn; try done.
  - by apply Forall_app_2, Forall_cons_2.
  - by rewrite length_app.
  - by rewrite length_app.
  - unfold requested, delivered, dispatches_owed in *. rewrite !omap_app, Hl, !fmap_app, !concat_app. cbn.
    destruct (cp_endpoint_callback c); cbn; solve_Permutation.
  - apply fired_log; [by destruct (cp_endpoint_callback c)| |done]. intros E. rewrite E in Hc.
    assert (0 <= setup_hold (cn_phase s)) by (destruct (cn_phase s); simpl; lia). simpl in Hc. exfalso. lia.
Qed.

Lemma dispatch_arrive_ok s i c ds1 ds2 :
  connection_ok 0 s → cn_dispatches s = ds1 ++ (i, DispatchArrive c) :: ds2 →
  connection_ok 0 (let s := set_dispatches (ds1 ++ ds2) s in if cp_connection_barrier c then arrive s else s).
Proof.
  intros Hok Hds.
  assert (cp_connection_barrier c = true) as ->.
  { pose proof (co_bound _ _ Hok) as Hb. rewrite Hds in Hb. apply Forall_app in Hb as [_ Hb]. by apply Forall_cons in Hb as [? _]. }
  apply arrive_ok. destruct Hok as [He Hs Hb Hf Hc Hv Hcb Hl Hfire]. rewrite Hds in *. rewrite length_app in *. cbn [length] in *.
  apply Forall_app in Hb as [Hb1 Hb2]. apply Forall_cons in Hb2 as [_ Hb2].
  split; system_cbn; try done.
  - by apply Forall_app_2.
  - rewrite length_app. lia.
  - rewrite length_app. lia.
  - unfold dispatches_owed in *. by rewrite fmap_app, concat_app in *.
Qed.

Lemma join_ok s i l started l' b' :
  connection_ok 0 s → cn_phase s = ConnectionJoining i → cn_endpoints s !! i = Some l →
  iree_net_endpoint_lifecycle_join_deactivation l (cn_barrier s) = (started, l', b') →
  connection_ok 0 (set_phase (ConnectionJoining (S i)) (set_barrier b' (set_endpoint i l' s))).
Proof.
  intros Hok Hp Hi Hjoin. pose proof (λ i l, Forall_lookup_1 _ _ i l (co_endpoints _ _ Hok)) as Hep.
  unfold iree_net_endpoint_lifecycle_join_deactivation in Hjoin. pose proof (lookup_lt_Some _ _ _ Hi).
  case_bool_decide as Hst.
  - unfold iree_net_endpoint_lifecycle_begin_drain_locked in Hjoin. cbn in Hjoin. destruct (Hep i l Hi) as [Hb ? ? Hcb Hun ?].
    rewrite Hb in Hjoin. injection Hjoin as <- <- <-. apply (joined_ok _ i (set_state LIFECYCLE_STATE_DRAINING l));
      [|done|by system_cbn; apply list_lookup_insert_eq|done].
    rewrite <- (log_nil (set_barrier _ _)). change [] with (deliver (EndpointRequested i) None).
    apply (drain_ok s i l); try done; [|cbn; apply Hcb; by rewrite Hst].
    by endpoint_solve.
  - injection Hjoin as <- <- <-. apply (joined_ok _ i l); [|done|by system_cbn; apply list_lookup_insert_eq|done].
    apply (quiet_ok s i l); try done; (by eapply Hep) || by right.
Qed.

Lemma step_ok_lifecycle s s' : connection_step s s' → connection_ok 0 s → connection_ok 0 s'.
Proof.
  intros Hstep Hok. pose proof (λ i l, Forall_lookup_1 _ _ i l (co_endpoints _ _ Hok)) as Hep.
  destruct Hstep as [s i l l' Hi Hp Hact|s i l Hi Hp Hst H0|s i l Hi Hmax|s i l l' c Hi H0 Hend|s i l callback l' b' Hi Hreq
    |s i l l' c Hi Hst Ho Hcomp|s i c ds1 ds2 Hds|s i c ds1 ds2 Hds|s Hp|s i l started l' b' Hp Hi Hjoin|s callback Hp|s Hp].
  - unfold iree_net_endpoint_lifecycle_activate in Hact. case_bool_decide as Hst; [|done]. injection Hact as <-.
    destruct (Hep i l Hi). apply (quiet_ok s i l); try done; [by endpoint_solve|by measure_solve|by measure_solve|by left].
  - destruct (Hep i l Hi). apply (quiet_ok s i l); try done; [by endpoint_solve|by measure_solve|by measure_solve].
  - destruct (Hep i l Hi) as [? Hw ? ? ? ?]. unfold iree_net_endpoint_lifecycle_try_begin_operation.
    case_bool_decide as Hst; cbn [snd].
    + apply (quiet_ok s i l); try done; [|by right].
      split; cbn; try done; [apply wrap_in_width; lia|intros; intuition congruence..].
    + apply (quiet_ok s i l); try done; by right.
  - destruct (Hep i l Hi) as [? Hw Hidle ? Hun ?].
    apply (try_finish_ok s i l (set_pending_operations (lc_pending_operation_count l -64 1) l)); try done.
    + cbn. apply wrap_in_width. lia.
    + destruct (lc_state l) eqn:E; [exfalso; rewrite Hidle in H0 by intuition; lia|right; split; [done|cbn; by intuition]|by left|
        exfalso; rewrite Hidle in H0 by intuition; lia].
  - unfold iree_net_endpoint_lifecycle_request_deactivation in Hreq. case_bool_decide as Hst; [|done].
    unfold iree_net_endpoint_lifecycle_begin_drain_locked in Hreq. cbn in Hreq.
    destruct (Hep i l Hi) as [Hb ? ? ? Hun ?]. rewrite Hb in Hreq. injection Hreq as <- <-.
    apply (drain_ok s i l); try done. by endpoint_solve.
  - destruct (Hep i l Hi). apply (try_finish_ok s i l (set_owner_drain true l)); try done. by left.
  - by eapply dispatch_callback_ok.
  - by eapply dispatch_arrive_ok.
  - destruct Hok as [He Hs Hb Hf Hc Hv Hcb Hl Hfire]. rewrite Hp in *. split; system_cbn; try done. split; [lia|constructor].
  - by eapply join_ok.
  - destruct Hok as [He Hs Hb Hf Hc Hv Hcb Hl Hfire]. rewrite Hp in *. destruct Hv as [_ Hv]. rewrite firstn_all in Hv.
    split; system_cbn; try done. by eexists.
  - apply arrive_ok. destruct Hok as [He Hs Hb Hf Hc Hv Hcb Hl Hfire]. rewrite Hp in *. by split.
Qed.

Lemma connection_inv s : connection_reachable s → connection_ok 0 s.
Proof. induction 1; [by apply start_dispatch_ok|by eapply step_ok_lifecycle]. Qed.

(** ** Properties *)

(** The connection callback was called. *)
Definition fired (s : connection_system) : Prop := connection_calls (cn_events s) ≠ [].

Lemma draining_zero ls : draining ls = 0%nat → Forall (λ l, lc_state l ≠ LIFECYCLE_STATE_DRAINING) ls.
Proof.
  induction ls as [|l ls IH]; [constructor|]. unfold draining in *. cbn [sum_list_with]. intros H.
  destruct (state_measures l) as [Sd _]. constructor; [|apply IH; lia]. intros E. rewrite E in Sd. lia.
Qed.

Lemma registered_quiet ls : Forall (λ l, lc_endpoint_callback l = None) ls → ∀ i, registered i ls = [].
Proof. induction 1 as [|l ls Hl _ IH]; intros i; cbn; [done|]. by rewrite Hl, IH. Qed.

(** What holds once the barrier is at zero. *)
Lemma fired_state s :
  connection_ok 0 s → br_pending_count (cn_barrier s) = 0 →
  cn_phase s = ConnectionCommitted ∧ cn_dispatches s = [] ∧ requested (cn_events s) ≡ₚ delivered (cn_events s) ∧
  Forall (λ l, (lc_state l = LIFECYCLE_STATE_CREATED ∨ lc_state l = LIFECYCLE_STATE_DEACTIVATED) ∧
    lc_pending_operation_count l = 0) (cn_endpoints s).
Proof.
  intros [He _ _ _ Hc Hv _ Hl _] E0. rewrite E0 in Hc.
  assert (cn_phase s = ConnectionCommitted) as Hp by (destruct (cn_phase s); cbn [setup_hold] in Hc; done || (exfalso; lia)).
  rewrite Hp in Hc, Hv. cbn [setup_hold visited] in Hc, Hv. assert (cn_dispatches s = []) as Hd by (apply nil_length_inv; lia).
  assert (draining (cn_endpoints s) = 0%nat) as Hz by lia. apply draining_zero in Hz. split; [done|]. split; [done|].
  rewrite Hd in Hl. rewrite registered_quiet, !app_nil_r in Hl.
  - split; [done|]. rewrite Forall_lookup in *. intros i l Hi. specialize (He i l Hi). specialize (Hv i l Hi). specialize (Hz i l Hi).
    destruct (lc_state l) eqn:E; try done; (split; [tauto|]); apply (eo_idle _ He); tauto.
  - rewrite Forall_lookup in *. intros i l Hi. apply (eo_callback _ (He i l Hi)), (Hz i l Hi).
Qed.

Lemma fired_iff s : connection_ok 0 s → fired s ↔ br_pending_count (cn_barrier s) = 0.
Proof.
  intros Hok. pose proof (co_fired _ _ Hok) as Hf. unfold fired. case_decide as E; [|by rewrite Hf].
  destruct Hf as (es & c & -> & Hes). split; [done|]. intros _. unfold connection_calls. rewrite omap_app. by destruct (omap _ es).
Qed.


(** C38: once the connection has committed its deactivation, its callback has been called or the drain of an endpoint is still
    under way: its owner has not completed it, an accepted operation has not ended, or a completion is being dispatched.  So
    nothing can be stuck: the callback is called as soon as these have happened. *)
Theorem connection_callback_reached s :
  connection_reachable s → cn_phase s = ConnectionCommitted →
  fired s ∨ cn_dispatches s ≠ [] ∨
  ∃ i l, cn_endpoints s !! i = Some l ∧ lc_state l = LIFECYCLE_STATE_DRAINING ∧
    (lc_owner_drain_complete l = false ∨ 0 < lc_pending_operation_count l).
Proof.
  intros Hok%connection_inv Hp. destruct (decide (br_pending_count (cn_barrier s) = 0)) as [E|E].
  { left. by apply fired_iff. }
  right. pose proof (co_count _ _ Hok) as Hc. rewrite Hp in Hc. cbn [setup_hold] in Hc.
  destruct (cn_dispatches s) as [|d ds] eqn:Ed; [right|by left]. cbn [length] in Hc.
  destruct (decide (Forall (λ l, lc_state l ≠ LIFECYCLE_STATE_DRAINING) (cn_endpoints s))) as [Hn|Hn].
  { exfalso. assert (draining (cn_endpoints s) = 0%nat) as Hz; [|lia]. clear -Hn. unfold draining.
    induction Hn as [|l ls Hl _ IH]; [done|]. cbn [sum_list_with]. destruct (state_measures l) as [-> _]. by destruct (lc_state l). }
  apply not_Forall_Exists in Hn; [|apply _]. apply Exists_exists in Hn as (l & Hin & Hst).
  apply list_elem_of_lookup_1 in Hin as (i & Hi). exists i, l. split; [done|].
  assert (lc_state l = LIFECYCLE_STATE_DRAINING) as Hd by (destruct (decide (lc_state l = LIFECYCLE_STATE_DRAINING)) as [|Hno]; [done|by destruct (Hst Hno)]).
  split; [done|]. pose proof (Forall_lookup_1 _ _ _ _ (co_endpoints _ _ Hok) Hi) as Hl. destruct (eo_pending _ Hl).
  destruct (lc_owner_drain_complete l) eqn:Eo; [right|by left]. pose proof (eo_unfinished _ Hl Hd Eo). lia.
Qed.

(** ** Concrete runs *)

Inductive action :=
  | Activate (i : nat)
  | Begin (i : nat)
  | End (i : nat)
  | Request (i : nat) (callback : Z)
  | Complete (i : nat)
  | Callback
  | Arrive
  | Deactivate
  | Join
  | Publish (callback : Z)
  | Commit.

(** Dispatches are taken in order. *)
Definition perform (a : action) (s : connection_system) : option connection_system :=
  match a, cn_phase s, cn_dispatches s with
  | Activate i, ConnectionOpen, _ =>
      l ← cn_endpoints s !! i;
      match iree_net_endpoint_lifecycle_activate l with Ok l' => Some (set_endpoint i l' s) | Err _ => None end
  | Begin i, _, _ =>
      l ← cn_endpoints s !! i;
      if lc_pending_operation_count l <? umax 64
      then Some (set_endpoint i (iree_net_endpoint_lifecycle_try_begin_operation l).2 s) else None
  | End i, _, _ =>
      l ← cn_endpoints s !! i;
      if 0 <? lc_pending_operation_count l
      then let '(l', c) := iree_net_endpoint_lifecycle_end_operation l in Some (start_dispatch i c (set_endpoint i l' s)) else None
  | Request i callback, _, _ =>
      l ← cn_endpoints s !! i;
      match iree_net_endpoint_lifecycle_request_deactivation (Some callback) l (cn_barrier s) with
      | Ok (l', b') => Some (log [EndpointRequested i callback] (set_barrier b' (set_endpoint i l' s)))
      | Err _ => None
      end
  | Complete i, _, _ =>
      l ← cn_endpoints s !! i;
      if bool_decide (lc_state l = LIFECYCLE_STATE_DRAINING) && negb (lc_owner_drain_complete l)
      then let '(l', c) := iree_net_endpoint_lifecycle_complete_deactivation l in Some (start_dispatch i c (set_endpoint i l' s))
      else None
  | Callback, _, (i, DispatchCallback c) :: ds =>
      Some (log (deliver (EndpointCallback i) (cp_endpoint_callback c)) (set_dispatches ((i, DispatchArrive c) :: ds) s))
  | Arrive, _, (i, DispatchArrive c) :: ds =>
      Some (let s := set_dispatches ds s in if cp_connection_barrier c then arrive s else s)
  | Deactivate, ConnectionOpen, _ => Some (set_phase (ConnectionJoining 0) s)
  | Join, ConnectionJoining i, _ =>
      l ← cn_endpoints s !! i;
      let '(_, l', b') := iree_net_endpoint_lifecycle_join_deactivation l (cn_barrier s) in
      Some (set_phase (ConnectionJoining (S i)) (set_barrier b' (set_endpoint i l' s)))
  | Publish callback, ConnectionJoining i, _ =>
      if bool_decide (i = length (cn_endpoints s))
      then Some (set_phase ConnectionPublished (set_barrier (barrier_publish (Some callback) (cn_barrier s)) s)) else None
  | Commit, ConnectionPublished, _ => Some (arrive (set_phase ConnectionCommitted s))
  | _, _, _ => None
  end.

Lemma perform_step a s s' : perform a s = Some s' → connection_step s s'.
Proof.
  unfold perform. destruct a as [i|i|i|i c|i| | | | |c|].
  - destruct (cn_phase s) eqn:Ep; try done. destruct (cn_endpoints s !! i) as [l|] eqn:El; [|done]. cbn.
    destruct (iree_net_endpoint_lifecycle_activate l) eqn:Ea; [|done]. intros [= <-]. by eapply step_activate.
  - destruct (cn_endpoints s !! i) as [l|] eqn:El; [|done]. cbn [mbind option_bind].
    destruct (Z.ltb_spec (lc_pending_operation_count l) (umax 64)); [|done]. intros [= <-]. by apply step_begin_operation.
  - destruct (cn_endpoints s !! i) as [l|] eqn:El; [|done]. cbn [mbind option_bind].
    destruct (Z.ltb_spec 0 (lc_pending_operation_count l)); [|done].
    destruct (iree_net_endpoint_lifecycle_end_operation l) as [l' c] eqn:Ee. intros [= <-]. by eapply step_end_operation.
  - destruct (cn_endpoints s !! i) as [l|] eqn:El; [|done]. cbn [mbind option_bind].
    destruct (iree_net_endpoint_lifecycle_request_deactivation (Some c) l (cn_barrier s)) as [[l' b']|] eqn:Er; [|done].
    intros [= <-]. by apply (step_request s i l (Some c)).
  - destruct (cn_endpoints s !! i) as [l|] eqn:El; [|done]. cbn [mbind option_bind].
    case_bool_decide; [|done]. destruct (lc_owner_drain_complete l) eqn:Eo; [done|]. cbn [andb negb].
    destruct (iree_net_endpoint_lifecycle_complete_deactivation l) as [l' c] eqn:Ec. intros [= <-]. by eapply step_complete.
  - destruct (cn_dispatches s) as [|[i [c|c]] ds] eqn:Ed; try done. intros [= <-]. by apply (step_dispatch_callback s i c []).
  - destruct (cn_dispatches s) as [|[i [c|c]] ds] eqn:Ed; try done. intros [= <-]. by apply (step_dispatch_arrive s i c []).
  - destruct (cn_phase s) eqn:Ep; try done. intros [= <-]. by apply step_deactivate.
  - destruct (cn_phase s) as [|i| |] eqn:Ep; try done. destruct (cn_endpoints s !! i) as [l|] eqn:El; [|done]. cbn [mbind option_bind].
    destruct (iree_net_endpoint_lifecycle_join_deactivation l (cn_barrier s)) as [[b l'] b'] eqn:Ej. intros [= <-].
    by eapply step_join.
  - destruct (cn_phase s) as [|i| |] eqn:Ep; try done. case_bool_decide; [|done]. subst. intros [= <-]. by apply step_publish.
  - destruct (cn_phase s) eqn:Ep; try done. intros [= <-]. by apply step_commit_arrive.
Qed.

Fixpoint perform_all (al : list action) (s : connection_system) : option connection_system :=
  match al with [] => Some s | a :: al => s' ← perform a s; perform_all al s' end.

Lemma perform_all_reachable al : ∀ s s', connection_reachable s → perform_all al s = Some s' → connection_reachable s'.
Proof.
  induction al as [|a al IH]; intros s s' Hs E; simpl in E; [by injection E as <-|].
  destruct (perform a s) as [s1|] eqn:Ea; [|done]. eapply IH; [|done]. eapply connection_next; [done|by eapply perform_step].
Qed.

Definition sample_connection : connection_system :=
  mk_connection (replicate 2 (iree_net_endpoint_lifecycle_initialize true)) iree_net_endpoint_deactivation_barrier_initialize
    ConnectionOpen [] [].

(** Two endpoints: the first is deactivated by its consumer with an operation pending, the
    second by the connection. *)
Definition sample_actions : list action :=
  [Activate 0; Activate 1; Begin 0; Begin 1; Request 0 7; Begin 0; Complete 0; Deactivate; Join; Join; Publish 9; End 1; Commit].
Definition sample_finish : list action := [End 0; Callback; Complete 1; Arrive; Callback; Arrive].

Definition sample_draining : connection_system := default sample_connection (perform_all sample_actions sample_connection).
Definition sample_finished : connection_system := default sample_connection (perform_all sample_finish sample_draining).

Lemma sample_draining_reachable : connection_reachable sample_draining.
Proof. apply (perform_all_reachable sample_actions sample_connection); [by apply (connection_start 2)|by vm_compute]. Qed.

Lemma sample_finished_reachable : connection_reachable sample_finished.
Proof. apply (perform_all_reachable sample_finish sample_draining); [apply sample_draining_reachable|by vm_compute]. Qed.


Lemma connection_callback_reached_witness :
  cn_phase sample_draining = ConnectionCommitted ∧ cn_dispatches sample_draining = [] ∧
  (fired sample_draining ∨ cn_dispatches sample_draining ≠ [] ∨
   ∃ i l, cn_endpoints sample_draining !! i = Some l ∧ lc_state l = LIFECYCLE_STATE_DRAINING ∧
     (lc_owner_drain_complete l = false ∨ 0 < lc_pending_operation_count l)).
Proof.
  split; [by vm_compute|]. split; [by vm_compute|].
  apply (connection_callback_reached sample_draining sample_draining_reachable). by vm_compute.
Defined.
