(* ===== verification/ReceiveQueue.v ===== *)
(** * Posted message receives

    [iree/net/message_receive.h], [message_receive_queue.h] and [message_receive_queue.c]:
    operations that wait for a message with a given prefix, the queue that matches them,
    and the endpoint lifecycle they hold ([EndpointLifecycle]).  Operations are records of
    a store, linked through their [next] fields; the part of a call under the queue's mutex
    is one step, as are the completion callback and the end of the lifecycle's hold that
    follow it ([receive_step]). *)

From S2P Require Import Prelude EndpointLifecycle.
From stdpp Require Import base numbers list relations.

Local Open Scope Z_scope.
Local Open Scope machine_scope.

(** ** Data *)

Definition IREE_NET_MESSAGE_RECEIVE_PREFIX_CAPACITY : Z := 64.

(** Statuses by their code; the text of later failures is an annotation of the first. *)
Definition iree_status_join (base_status new_status : iree_status_code) : iree_status_code :=
  if bool_decide (base_status = IREE_STATUS_OK) then new_status else base_status.

(** An operation refers to others by their index.  [ro_queue] is whether the owner is set,
    [ro_data] the bytes of the borrowed destination. *)
Record iree_net_message_receive_operation_t := mk_receive_operation {
  ro_claimed : Z;
  ro_queue : bool;
  ro_next : option nat;
  ro_data : list Z;
  ro_completion_callback : callback_t;
  ro_prefix : list Z;
}.

Record iree_net_message_endpoint_receive_params_t := mk_receive_params {
  rp_prefix : list Z;
  rp_data : list Z;
  rp_completion_callback : callback_t;
}.

Record iree_net_message_receive_queue_t := mk_receive_queue {
  rq_head : option nat;
  rq_active : option nat;
  rq_prefix_length : Z;
  rq_closed : bool;
  rq_status : iree_status_code;
}.

(** A queue with the lifecycle it borrows and the operations that callers own. *)
Record receive_state := mk_receive_state {
  rs_queue : iree_net_message_receive_queue_t;
  rs_operations : list iree_net_message_receive_operation_t;
  rs_lifecycle : iree_net_endpoint_lifecycle_t;
}.

Definition set_claimed (v : Z) (o : iree_net_message_receive_operation_t) : iree_net_message_receive_operation_t :=
  mk_receive_operation v (ro_queue o) (ro_next o) (ro_data o) (ro_completion_callback o) (ro_prefix o).
Definition set_next (p : option nat) (o : iree_net_message_receive_operation_t) : iree_net_message_receive_operation_t :=
  mk_receive_operation (ro_claimed o) (ro_queue o) p (ro_data o) (ro_completion_callback o) (ro_prefix o).
Definition set_data (bytes : list Z) (o : iree_net_message_receive_operation_t) : iree_net_message_receive_operation_t :=
  mk_receive_operation (ro_claimed o) (ro_queue o) (ro_next o) bytes (ro_completion_callback o) (ro_prefix o).
Definition clear_queue (o : iree_net_message_receive_operation_t) : iree_net_message_receive_operation_t :=
  mk_receive_operation (ro_claimed o) false (ro_next o) (ro_data o) (ro_completion_callback o) (ro_prefix o).

Definition set_head (p : option nat) (q : iree_net_message_receive_queue_t) : iree_net_message_receive_queue_t :=
  mk_receive_queue p (rq_active q) (rq_prefix_length q) (rq_closed q) (rq_status q).
Definition set_active (p : option nat) (q : iree_net_message_receive_queue_t) : iree_net_message_receive_queue_t :=
  mk_receive_queue (rq_head q) p (rq_prefix_length q) (rq_closed q) (rq_status q).

Definition with_queue (q : iree_net_message_receive_queue_t) (s : receive_state) : receive_state :=
  mk_receive_state q (rs_operations s) (rs_lifecycle s).
Definition with_operations (ops : list iree_net_message_receive_operation_t) (s : receive_state) : receive_state :=
  mk_receive_state (rs_queue s) ops (rs_lifecycle s).
Definition with_lifecycle (l : iree_net_endpoint_lifecycle_t) (s : receive_state) : receive_state :=
  mk_receive_state (rs_queue s) (rs_operations s) l.

Definition byte_length (bytes : list Z) : Z := Z.of_nat (length bytes).

(** [memcmp(operation->prefix, prefix.data, prefix.data_length) == 0]. *)
Definition prefix_equal (prefix : list Z) (o : iree_net_message_receive_operation_t) : bool :=
  bool_decide (take (length prefix) (ro_prefix o) = prefix).

(** ** Operations of the queue *)

Definition iree_net_message_receive_queue_initialize : iree_net_message_receive_queue_t :=
  mk_receive_queue None None 0 false IREE_STATUS_OK.

(** The compare-and-exchange of [claimed]. *)
Definition claim_operation (i : nat) (ops : list iree_net_message_receive_operation_t) :
    status_or (list iree_net_message_receive_operation_t) :=
  match ops !! i with
  | Some o => if ro_claimed o =? 0 then Ok (<[i := set_claimed 1 o]> ops) else Err IREE_STATUS_RESOURCE_EXHAUSTED
  | None => Err IREE_STATUS_RESOURCE_EXHAUSTED
  end.

(** The walk over the unmatched operations; the list has at most as many as the store. *)
Fixpoint prefix_posted (fuel : nat) (ops : list iree_net_message_receive_operation_t) (pending : option nat)
    (prefix : list Z) : bool :=
  match fuel, pending with
  | S fuel, Some i =>
      match ops !! i with
      | Some o => prefix_equal prefix o || prefix_posted fuel ops (ro_next o) prefix
      | None => false
      end
  | _, _ => false
  end.

(** What [submit] finds before it asks for the lifecycle's hold. *)
Definition submit_status (s : receive_state) (prefix : list Z) : iree_status_code :=
  let q := rs_queue s in
  let ops := rs_operations s in
  if rq_closed q then rq_status q
  else if negb (rq_prefix_length q =? 0) && negb (rq_prefix_length q =? byte_length prefix) then
    IREE_STATUS_INVALID_ARGUMENT
  else if prefix_posted (length ops) ops (rq_head q) prefix then IREE_STATUS_ALREADY_EXISTS
  else if match rq_active q ≫= (ops !!.) with Some o => prefix_equal prefix o | None => false end then
    IREE_STATUS_ALREADY_EXISTS
  else IREE_STATUS_OK.

(** [memcpy] into the start of the captured prefix. *)
Definition copy_prefix (prefix captured : list Z) : list Z := prefix ++ drop (length prefix) captured.

Definition admit_operation (i : nat) (params : iree_net_message_endpoint_receive_params_t) (s : receive_state) :
    receive_state :=
  let q := rs_queue s in
  let capture o :=
    mk_receive_operation (ro_claimed o) true (rq_head q) (rp_data params) (rp_completion_callback params)
      (copy_prefix (rp_prefix params) (ro_prefix o)) in
  mk_receive_state (mk_receive_queue (Some i) (rq_active q) (byte_length (rp_prefix params)) (rq_closed q) (rq_status q))
    (alter capture i (rs_operations s)) (rs_lifecycle s).

(** [submit] after its claim. *)
Definition submit_locked (i : nat) (params : iree_net_message_endpoint_receive_params_t) (s : receive_state) :
    iree_status_code * receive_state :=
  let release s := with_operations (alter (set_claimed 0) i (rs_operations s)) s in
  match submit_status s (rp_prefix params) with
  | IREE_STATUS_OK =>
      let '(accepted, l) := iree_net_endpoint_lifecycle_try_begin_operation (rs_lifecycle s) in
      let s := with_lifecycle l s in
      if accepted then (IREE_STATUS_OK, admit_operation i params s) else (IREE_STATUS_FAILED_PRECONDITION, release s)
  | code => (code, release s)
  end.

Definition iree_net_message_receive_queue_submit (i : nat) (params : iree_net_message_endpoint_receive_params_t)
    (s : receive_state) : iree_status_code * receive_state :=
  match claim_operation i (rs_operations s) with
  | Err code => (code, s)
  | Ok ops => submit_locked i params (with_operations ops s)
  end.

Definition iree_net_message_receive_queue_prefix_length (s : receive_state) : Z := rq_prefix_length (rs_queue s).

(** The link whose target has the prefix: the operation before it, or [None] for the head. *)
Fixpoint find_link (fuel : nat) (ops : list iree_net_message_receive_operation_t) (before link : option nat)
    (prefix : list Z) : option (option nat * nat) :=
  match fuel, link with
  | S fuel, Some i =>
      match ops !! i with
      | Some o => if prefix_equal prefix o then Some (before, i) else find_link fuel ops (Some i) (ro_next o) prefix
      | None => None
      end
  | _, _ => None
  end.

(** [*link = target]. *)
Definition set_link (before target : option nat) (s : receive_state) : receive_state :=
  match before with
  | None => with_queue (set_head target (rs_queue s)) s
  | Some b => with_operations (alter (set_next target) b (rs_operations s)) s
  end.

Definition iree_net_message_receive_queue_match (prefix : list Z) (body_length : Z) (s : receive_state) :
    status_or (option nat) * receive_state :=
  let q := rs_queue s in
  let ops := rs_operations s in
  if negb (rq_closed q) && (byte_length prefix =? rq_prefix_length q) then
    match find_link (length ops) ops None (rq_head q) prefix with
    | None => (Ok None, s)
    | Some (before, i) =>
        match ops !! i with
        | None => (Ok None, s)
        | Some o =>
            if negb (byte_length (ro_data o) =? body_length) then (Err IREE_STATUS_DATA_LOSS, s)
            else
              let s := set_link before (ro_next o) s in
              let s := with_operations (alter (set_next None) i (rs_operations s)) s in
              (Ok (Some i), with_queue (set_active (Some i) (rs_queue s)) s)
        end
    end
  else (Ok None, s).

(** A completion callback and its arguments. *)
Record receive_completion := mk_receive_completion {
  rc_callback : callback_t;
  rc_status : iree_status_code;
  rc_bytes : Z;
}.

(** [complete] up to the callback, which is called without the mutex and followed by
    [iree_net_endpoint_lifecycle_end_operation]. *)
Definition complete_locked (i : nat) (status : iree_status_code) (bytes_transferred : Z) (s : receive_state) :
    receive_completion * receive_state :=
  let q := rs_queue s in
  let callback := match rs_operations s !! i with Some o => ro_completion_callback o | None => None end in
  let q' := if bool_decide (rq_active q = Some i) then set_active None q else q in
  (mk_receive_completion callback (iree_status_join status (rq_status q)) bytes_transferred,
   with_operations (alter (λ o, set_claimed 0 (clear_queue o)) i (rs_operations s)) (with_queue q' s)).

(** [close] up to its loop: the detached list is completed one operation at a time. *)
Definition close_locked (status : iree_status_code) (s : receive_state) : option nat * receive_state :=
  let q := rs_queue s in
  let joined := iree_status_join (rq_status q) status in
  let final := if bool_decide (joined = IREE_STATUS_OK) then IREE_STATUS_CANCELLED else joined in
  (rq_head q, with_queue (mk_receive_queue None (rq_active q) (rq_prefix_length q) true final) s).

(** One iteration of that loop: the operation is unlinked and completed. *)
Definition close_next (i : nat) (s : receive_state) : option nat * receive_completion * receive_state :=
  let next := rs_operations s !! i ≫= ro_next in
  let s := with_operations (alter (set_next None) i (rs_operations s)) s in
  let '(c, s) := complete_locked i IREE_STATUS_OK 0 s in
  (next, c, s).

(** ** Threads

    Any thread posts receives, closes the queue, holds the endpoint for other operations or
    drives its lifecycle; one receive cursor matches, fills and completes operations. *)

Inductive receive_event :=
  | ReceiveAdmitted (i : nat) (callback : callback_t)
  | ReceiveReturned (c : receive_completion)
  | EndpointFinished (c : iree_net_endpoint_lifecycle_completion_t).

(** [sy_claiming] holds the submissions between the claim and the mutex, [sy_closers] the
    lists that calls of [close] still have to complete, [sy_returning] the completions whose
    callback is to be called, [sy_ending] those whose hold is to be ended, and [sy_others]
    the holds of sends and deliveries. *)
Record receive_system := mk_receive_system {
  sy_state : receive_state;
  sy_claiming : list (nat * iree_net_message_endpoint_receive_params_t);
  sy_closers : list (option nat);
  sy_returning : list receive_completion;
  sy_ending : nat;
  sy_others : nat;
  sy_events : list receive_event;
}.

Definition with_state (s : receive_state) (y : receive_system) : receive_system :=
  mk_receive_system s (sy_claiming y) (sy_closers y) (sy_returning y) (sy_ending y) (sy_others y) (sy_events y).
Definition with_claiming (l : list (nat * iree_net_message_endpoint_receive_params_t)) (y : receive_system) : receive_system :=
  mk_receive_system (sy_state y) l (sy_closers y) (sy_returning y) (sy_ending y) (sy_others y) (sy_events y).
Definition with_closers (l : list (option nat)) (y : receive_system) : receive_system :=
  mk_receive_system (sy_state y) (sy_claiming y) l (sy_returning y) (sy_ending y) (sy_others y) (sy_events y).
Definition with_returning (l : list receive_completion) (y : receive_system) : receive_system :=
  mk_receive_system (sy_state y) (sy_claiming y) (sy_closers y) l (sy_ending y) (sy_others y) (sy_events y).
Definition with_ending (n : nat) (y : receive_system) : receive_system :=
  mk_receive_system (sy_state y) (sy_claiming y) (sy_closers y) (sy_returning y) n (sy_others y) (sy_events y).
Definition with_others (n : nat) (y : receive_system) : receive_system :=
  mk_receive_system (sy_state y) (sy_claiming y) (sy_closers y) (sy_returning y) (sy_ending y) n (sy_events y).
Definition with_event (es : list receive_event) (y : receive_system) : receive_system :=
  mk_receive_system (sy_state y) (sy_claiming y) (sy_closers y) (sy_returning y) (sy_ending y) (sy_others y) (sy_events y ++ es).

Definition sy_queue (y : receive_system) : iree_net_message_receive_queue_t := rs_queue (sy_state y).
Definition sy_operations (y : receive_system) : list iree_net_message_receive_operation_t := rs_operations (sy_state y).
Definition sy_lifecycle (y : receive_system) : iree_net_endpoint_lifecycle_t := rs_lifecycle (sy_state y).

Definition finished_event (c : option iree_net_endpoint_lifecycle_completion_t) : list receive_event :=
  match c with Some c => [EndpointFinished c] | None => [] end.

(** The lifecycle changes, and a completion it delivers is an event. *)
Definition move_lifecycle (r : iree_net_endpoint_lifecycle_t * option iree_net_endpoint_lifecycle_completion_t)
    (y : receive_system) : receive_system :=
  with_event (finished_event r.2) (with_state (with_lifecycle r.1 (sy_state y)) y).

(** Parameters that [iree_net_message_endpoint_receive] has validated. *)
Definition params_ok (params : iree_net_message_endpoint_receive_params_t) : Prop :=
  0 < byte_length (rp_prefix params) <= IREE_NET_MESSAGE_RECEIVE_PREFIX_CAPACITY ∧
  byte_length (rp_data params) <= umax 64 ∧ is_Some (rp_completion_callback params).

Inductive other_step : receive_system → receive_system → Prop :=
  | other_claim y i params ops :
      params_ok params → claim_operation i (sy_operations y) = Ok ops →
      other_step y (with_claiming ((i, params) :: sy_claiming y) (with_state (with_operations ops (sy_state y)) y))
  | other_submit y i params before after code s :
      sy_claiming y = before ++ (i, params) :: after →
      lc_pending_operation_count (sy_lifecycle y) < umax 64 →
      submit_locked i params (sy_state y) = (code, s) →
      other_step y
        (with_event (match code with IREE_STATUS_OK => [ReceiveAdmitted i (rp_completion_callback params)] | _ => [] end)
           (with_claiming (before ++ after) (with_state s y)))
  | other_close y status pending s :
      close_locked status (sy_state y) = (pending, s) →
      other_step y (with_closers (pending :: sy_closers y) (with_state s y))
  | other_close_next y i before after next c s :
      sy_closers y = before ++ Some i :: after → close_next i (sy_state y) = (next, c, s) →
      other_step y
        (with_returning (c :: sy_returning y) (with_closers (before ++ next :: after) (with_state s y)))
  | other_return y before c after :
      sy_returning y = before ++ c :: after →
      other_step y
        (with_event [ReceiveReturned c] (with_ending (S (sy_ending y)) (with_returning (before ++ after) y)))
  | other_end y n :
      sy_ending y = S n →
      other_step y (move_lifecycle (iree_net_endpoint_lifecycle_end_operation (sy_lifecycle y)) (with_ending n y))
  | other_hold y :
      lc_pending_operation_count (sy_lifecycle y) < umax 64 →
      (iree_net_endpoint_lifecycle_try_begin_operation (sy_lifecycle y)).1 = true →
      other_step y
        (with_others (S (sy_others y))
           (with_state (with_lifecycle (iree_net_endpoint_lifecycle_try_begin_operation (sy_lifecycle y)).2 (sy_state y)) y))
  | other_unhold y n :
      sy_others y = S n →
      other_step y (move_lifecycle (iree_net_endpoint_lifecycle_end_operation (sy_lifecycle y)) (with_others n y))
  | other_activate y l :
      iree_net_endpoint_lifecycle_activate (sy_lifecycle y) = Ok l → other_step y (move_lifecycle (l, None) y)
  | other_rollback y :
      lc_state (sy_lifecycle y) = LIFECYCLE_STATE_ACTIVE → lc_pending_operation_count (sy_lifecycle y) = 0 →
      other_step y (move_lifecycle (iree_net_endpoint_lifecycle_rollback_activation (sy_lifecycle y), None) y)
  | other_request y callback b l b' :
      iree_net_endpoint_lifecycle_request_deactivation callback (sy_lifecycle y) b = Ok (l, b') →
      other_step y (move_lifecycle (l, None) y)
  | other_join y b started l b' :
      iree_net_endpoint_lifecycle_join_deactivation (sy_lifecycle y) b = (started, l, b') →
      other_step y (move_lifecycle (l, None) y)
  | other_drained y :
      lc_state (sy_lifecycle y) = LIFECYCLE_STATE_DRAINING → lc_owner_drain_complete (sy_lifecycle y) = false →
      other_step y (move_lifecycle (iree_net_endpoint_lifecycle_complete_deactivation (sy_lifecycle y)) y).

(** Bytes written at an offset of a destination. *)
Definition write_bytes (offset : nat) (bytes target : list Z) : list Z :=
  take offset target ++ bytes ++ drop (offset + length bytes) target.

Definition place (i : nat) (offset : nat) (bytes : list Z) (s : receive_state) : receive_state :=
  with_operations (alter (λ o, set_data (write_bytes offset bytes (ro_data o)) o) i (rs_operations s)) s.

(** The cursor owns one operation at a time. *)
Inductive cursor_step : receive_system → receive_system → Prop :=
  | cursor_match y prefix body_length r s :
      rq_active (sy_queue y) = None →
      iree_net_message_receive_queue_match prefix body_length (sy_state y) = (r, s) →
      cursor_step y (with_state s y)
  | cursor_place y i o offset bytes :
      rq_active (sy_queue y) = Some i → sy_operations y !! i = Some o →
      (offset + length bytes <= length (ro_data o))%nat →
      cursor_step y (with_state (place i offset bytes (sy_state y)) y)
  | cursor_complete y i status bytes c s :
      rq_active (sy_queue y) = Some i → complete_locked i status bytes (sy_state y) = (c, s) →
      cursor_step y (with_returning (c :: sy_returning y) (with_state s y)).

Definition receive_step (y y' : receive_system) : Prop := other_step y y' ∨ cursor_step y y'.

(** An endpoint is created with its queue; the operations are zero-initialized. *)
Definition receive_start (connection_barrier : bool) (n : nat) : receive_system :=
  let zero := mk_receive_operation 0 false None [] None (replicate (Z.to_nat IREE_NET_MESSAGE_RECEIVE_PREFIX_CAPACITY) 0) in
  mk_receive_system
    (mk_receive_state iree_net_message_receive_queue_initialize (replicate n zero)
       (iree_net_endpoint_lifecycle_initialize connection_barrier))
    [] [] [] 0 0 [].

Definition receive_reachable (y : receive_system) : Prop :=
  ∃ connection_barrier n, rtc receive_step (receive_start connection_barrier n) y.
