(* ===== verification/ReceiveInvariant.v ===== *)
(** * The invariant of posted receives

    The parts of the invariant of [ReceiveQueue]: the holds of the endpoint lifecycle, the
    lists through the operations, the claims and the prefixes that are in use; and how each
    operation of the queue keeps it. *)

From S2P Require Import Prelude EndpointLifecycle ReceiveQueue.
From stdpp Require Import base numbers list relations gmap.

Local Open Scope Z_scope.
Local Open Scope machine_scope.

(** ** Holds of a lifecycle *)

(** A lifecycle with [n] operations that have not ended. *)
Record lifecycle_ok (l : iree_net_endpoint_lifecycle_t) (n : Z) : Prop := mk_lifecycle_ok {
  lo_count : lc_pending_operation_count l = n;
  lo_width : 0 <= n <= umax 64;
  lo_idle : lc_state l = LIFECYCLE_STATE_CREATED ∨ lc_state l = LIFECYCLE_STATE_DEACTIVATED → n = 0;
  lo_undrained : lc_state l = LIFECYCLE_STATE_CREATED ∨ lc_state l = LIFECYCLE_STATE_ACTIVE → lc_owner_drain_complete l = false;
  lo_unfinished : lc_state l = LIFECYCLE_STATE_DRAINING → lc_owner_drain_complete l = true → n ≠ 0;
}.

(** A move to [l'] with [n'] operations that may finish the lifecycle: only without
    operations, and only once. *)
Definition moves_to (l l' : iree_net_endpoint_lifecycle_t) (n' : Z) (c : option iree_net_endpoint_lifecycle_completion_t) : Prop :=
  lifecycle_ok l' n' ∧
  match c with
  | None => lc_state l' = LIFECYCLE_STATE_DEACTIVATED ↔ lc_state l = LIFECYCLE_STATE_DEACTIVATED
  | Some _ => n' = 0 ∧ lc_state l' = LIFECYCLE_STATE_DEACTIVATED ∧ lc_state l ≠ LIFECYCLE_STATE_DEACTIVATED
  end.

Lemma begin_moves l n accepted l' :
  lifecycle_ok l n → n < umax 64 → iree_net_endpoint_lifecycle_try_begin_operation l = (accepted, l') →
  if accepted then moves_to l l' (n + 1) None ∧ lc_state l = LIFECYCLE_STATE_ACTIVE else l' = l ∧ lc_state l ≠ LIFECYCLE_STATE_ACTIVE.
Proof.
  intros [Hc Hw Hi Hu Hf] Hlt [= <- <-]. case_bool_decide as E; [|done]. split; [|done]. split; [|by cbn].
  split; cbn; try tauto.
  - rewrite Hc. unfold uadd. apply wrap_small. unfold umax, in_width in *. lia.
  - lia.
  - rewrite E. by intros [?|?].
  - rewrite E. done.
Qed.

Lemma try_finish_moves l n l' c :
  lc_pending_operation_count l = n → 0 <= n <= umax 64 →
  (lc_state l = LIFECYCLE_STATE_CREATED ∨ lc_state l = LIFECYCLE_STATE_DEACTIVATED → n = 0) →
  (lc_state l = LIFECYCLE_STATE_CREATED ∨ lc_state l = LIFECYCLE_STATE_ACTIVE → lc_owner_drain_complete l = false) →
  iree_net_endpoint_lifecycle_try_finish_locked l = (l', c) → moves_to l l' n c.
Proof.
  intros Hc Hw Hi Hu. unfold iree_net_endpoint_lifecycle_try_finish_locked.
  destruct (bool_decide_reflect (lc_state l = LIFECYCLE_STATE_DRAINING)) as [E|E]; cbn [negb orb].
  2: { intros [= <- <-]. split; [|done]. split; done. }
  destruct (lc_owner_drain_complete l) eqn:Eo; cbn [negb orb].
  2: { intros [= <- <-]. split; [|done]. split; try done; intros; congruence. }
  destruct (Z.eqb_spec (lc_pending_operation_count l) 0) as [E0|E0]; cbn [negb]; intros [= <- <-].
  - split; [|split; [lia|split; [done|congruence]]]. split; cbn; try done; try lia. by intros [?|?].
  - split; [|done]. split; try done; intuition congruence.
Qed.

Lemma end_moves l n l' c :
  lifecycle_ok l n → 0 < n → iree_net_endpoint_lifecycle_end_operation l = (l', c) → moves_to l l' (n - 1) c.
Proof.
  intros [Hc Hw Hi Hu Hf] Hn E. apply (try_finish_moves (set_pending_operations (lc_pending_operation_count l -64 1) l)); cbn; try done.
  - rewrite Hc. unfold usub. apply wrap_small. unfold in_width, umax in *. lia.
  - lia.
  - intros Hs. specialize (Hi Hs). lia.
Qed.

Lemma drained_moves l n l' c :
  lifecycle_ok l n → lc_state l = LIFECYCLE_STATE_DRAINING →
  iree_net_endpoint_lifecycle_complete_deactivation l = (l', c) → moves_to l l' n c.
Proof.
  intros [Hc Hw Hi Hu Hf] Hs E. apply (try_finish_moves (set_owner_drain true l)); cbn; try done. rewrite Hs. by intros [?|?].
Qed.

Lemma activate_moves l n l' : lifecycle_ok l n → iree_net_endpoint_lifecycle_activate l = Ok l' → moves_to l l' n None.
Proof.
  intros [Hc Hw Hi Hu Hf]. unfold iree_net_endpoint_lifecycle_activate. case_bool_decide as E; intros [= <-].
  split; [split; cbn; try done|]; cbn; rewrite ?E; try done; [by intros [?|?]|auto].
Qed.

Lemma rollback_moves l : lifecycle_ok l 0 → lc_state l = LIFECYCLE_STATE_ACTIVE →
  moves_to l (iree_net_endpoint_lifecycle_rollback_activation l) 0 None.
Proof. intros [Hc Hw Hi Hu Hf] E. split; [split; cbn; try done; auto|]. cbn. by rewrite E. Qed.

Lemma begin_drain_moves l n b callback :
  lifecycle_ok l n → lc_state l = LIFECYCLE_STATE_ACTIVE →
  moves_to l (set_endpoint_callback callback (iree_net_endpoint_lifecycle_begin_drain_locked l b).1) n None.
Proof.
  intros [Hc Hw Hi Hu Hf] E. unfold iree_net_endpoint_lifecycle_begin_drain_locked.
  destruct (lc_connection_barrier _); (split; [split; cbn; try done|]); cbn; rewrite ?E; try done; (by intros [?|?]) || (by rewrite Hu by auto).
Qed.

Lemma request_moves l n callback b l' b' :
  lifecycle_ok l n → iree_net_endpoint_lifecycle_request_deactivation callback l b = Ok (l', b') → moves_to l l' n None.
Proof.
  intros Hl. unfold iree_net_endpoint_lifecycle_request_deactivation. case_bool_decide as E; cbn [negb]; [|done].
  pose proof (begin_drain_moves l n b callback Hl E) as Hm.
  destruct (iree_net_endpoint_lifecycle_begin_drain_locked l b) as [l1 b1]. by intros [= <- <-].
Qed.

Lemma join_moves l n b started l' b' :
  lifecycle_ok l n → iree_net_endpoint_lifecycle_join_deactivation l b = (started, l', b') → moves_to l l' n None.
Proof.
  intros Hl. unfold iree_net_endpoint_lifecycle_join_deactivation. case_bool_decide as E; [|by intros [= <- <- <-]].
  pose proof (begin_drain_moves l n b (lc_endpoint_callback l) Hl E) as Hm. revert Hm.
  unfold iree_net_endpoint_lifecycle_begin_drain_locked. by destruct (lc_connection_barrier _), l; intros ? [= <- <- <-].
Qed.

(** ** Lists through the operations *)

Notation operations := (list iree_net_message_receive_operation_t).

Fixpoint linked (ops : operations) (p : option nat) (l : list nat) : Prop :=
  match l with
  | [] => p = None
  | i :: l => p = Some i ∧ ∃ o, ops !! i = Some o ∧ linked ops (ro_next o) l
  end.

Lemma linked_alter ops f i p l :
  (i ∈ l → ∀ o, ro_next (f o) = ro_next o) → linked ops p l → linked (alter f i ops) p l.
Proof.
  revert p. induction l as [|j l IH]; intros p Hf; [done|]. intros (-> & o & Ho & Hl). split; [done|].
  destruct (decide (i = j)) as [->|Hne].
  - exists (f o). split; [by rewrite list_lookup_alter_eq, Ho|]. rewrite Hf by left. apply IH; [|done]. intros ?. apply Hf. by right.
  - exists o. split; [by rewrite list_lookup_alter_ne|]. apply IH; [|done]. intros ?. apply Hf. by right.
Qed.

Lemma linked_all_alter ops f i ps ls :
  (i ∈ concat ls → ∀ o, ro_next (f o) = ro_next o) → Forall2 (linked ops) ps ls → Forall2 (linked (alter f i ops)) ps ls.
Proof.
  intros Hf. induction 1 as [|p l ps ls Hl _ IH]; [done|]. cbn in Hf. constructor.
  - apply linked_alter; [|done]. intros ?. apply Hf, elem_of_app. by left.
  - apply IH. intros ?. apply Hf, elem_of_app. by right.
Qed.

Lemma linked_elem ops p l i : linked ops p l → i ∈ l → is_Some (ops !! i).
Proof.
  revert p. induction l as [|j l IH]; intros p; [by intros _ ?%elem_of_nil|].
  intros (_ & o & Ho & Hl) [->|Hi]%elem_of_cons; [by eexists|by eapply IH].
Qed.

Lemma linked_length ops p l : linked ops p l → NoDup l → (length l <= length ops)%nat.
Proof.
  intros Hl Hn. replace (length ops) with (length (seq 0 (length ops))) by apply length_seq.
  apply submseteq_length, NoDup_submseteq; [done|]. intros i Hi. apply elem_of_seq.
  destruct (linked_elem _ _ _ _ Hl Hi) as [o ?%lookup_lt_Some]. lia.
Qed.

(** The captured prefix of an operation, at the width of the queue. *)
Definition captured (ops : operations) (width : Z) (i : nat) : list Z :=
  match ops !! i with Some o => take (Z.to_nat width) (ro_prefix o) | None => [] end.

Lemma captured_alter ops width f i j :
  (i = j → ∀ o, ro_prefix (f o) = ro_prefix o) → captured (alter f i ops) width j = captured ops width j.
Proof.
  intros Hf. unfold captured. destruct (decide (i = j)) as [->|Hne]; [|by rewrite list_lookup_alter_ne].
  rewrite list_lookup_alter_eq. destruct (ops !! j) as [o|]; [|done]. cbn. by rewrite Hf.
Qed.

Lemma prefix_equal_captured ops prefix i o :
  ops !! i = Some o → prefix_equal prefix o = bool_decide (captured ops (byte_length prefix) i = prefix).
Proof. intros Ho. unfold prefix_equal, captured, byte_length. by rewrite Ho, Nat2Z.id. Qed.

Lemma prefix_posted_spec ops prefix l p fuel :
  linked ops p l → (length l <= fuel)%nat →
  prefix_posted fuel ops p prefix = bool_decide (prefix ∈ captured ops (byte_length prefix) <$> l).
Proof.
  revert p fuel. induction l as [|i l IH]; intros p fuel Hl Hf.
  { cbn in Hl. subst p. destruct fuel; by rewrite bool_decide_eq_false_2 by apply not_elem_of_nil. }
  destruct Hl as (-> & o & Ho & Hl). destruct fuel as [|fuel]; cbn in Hf; [lia|]. cbn [prefix_posted fmap list_fmap].
  rewrite Ho, (prefix_equal_captured _ _ _ _ Ho), (IH _ _ Hl) by lia. rewrite <- bool_decide_or.
  apply bool_decide_ext. rewrite elem_of_cons. by split; (intros [?|?]; [left|right]).
Qed.

Lemma find_link_spec ops prefix l p fuel before :
  linked ops p l → (length l <= fuel)%nat →
  match find_link fuel ops before p prefix with
  | None => prefix ∉ captured ops (byte_length prefix) <$> l
  | Some (b, i) => ∃ l1 l2, l = l1 ++ i :: l2 ∧ captured ops (byte_length prefix) i = prefix ∧
      prefix ∉ captured ops (byte_length prefix) <$> l1 ∧ b = match last l1 with Some j => Some j | None => before end
  end.
Proof.
  revert p fuel before. induction l as [|i l IH]; intros p fuel before Hl Hf.
  { cbn in Hl. subst p. destruct fuel; cbn; apply not_elem_of_nil. }
  destruct Hl as (-> & o & Ho & Hl). destruct fuel as [|fuel]; cbn in Hf; [lia|]. cbn [find_link].
  rewrite Ho, (prefix_equal_captured _ _ _ _ Ho). case_bool_decide as E.
  { exists [], l. split; [done|]. split; [done|]. split; [apply not_elem_of_nil|done]. }
  specialize (IH _ fuel (Some i) Hl ltac:(lia)). destruct (find_link fuel ops (Some i) (ro_next o) prefix) as [[b j]|].
  - destruct IH as (l1 & l2 & -> & Hj & Hn & ->). exists (i :: l1), l2. split; [done|]. split; [done|]. split.
    + cbn. intros [?|?]%elem_of_cons; [congruence|done].
    + rewrite last_cons. by destruct (last l1).
  - cbn. intros [?|?]%elem_of_cons; [congruence|done].
Qed.

Lemma linked_app ops p l1 l2 :
  linked ops p (l1 ++ l2) → ∃ p', linked ops p' l2 ∧ (l1 = [] → p' = p).
Proof.
  revert p. induction l1 as [|j l1 IH]; intros p Hl; [by exists p|]. destruct Hl as (_ & o & _ & Hl).
  destruct (IH _ Hl) as (p' & ? & _). by exists p'.
Qed.

(** Unlinking behind an operation. *)
Lemma linked_unlink ops p l1 i l2 o b :
  linked ops p (l1 ++ i :: l2) → NoDup (l1 ++ i :: l2) → ops !! i = Some o → last l1 = Some b →
  linked (alter (set_next (ro_next o)) b ops) p (l1 ++ l2).
Proof.
  revert p. induction l1 as [|j l1 IH]; intros p; [done|]. intros (-> & o' & Ho' & Hl) [Hj Hn]%NoDup_cons Ho Hb. split; [done|].
  destruct l1 as [|k l1].
  - cbn in Hb. simplify_eq. exists (set_next (ro_next o) o'). split; [by rewrite list_lookup_alter_eq, Ho'|]. cbn [set_next ro_next].
    destruct Hl as (_ & o2 & Ho2 & Hl). simplify_eq. apply linked_alter; [|done]. intros Hin. destruct Hj. cbn. by right.
  - assert (b ≠ j) by (intros ->; apply Hj; change (j ∈ (k :: l1) ++ i :: l2); apply elem_of_app; left; by apply last_Some_elem_of).
    exists o'. split; [by rewrite list_lookup_alter_ne|]. by apply IH.
Qed.

(** ** The invariant of the queue *)

Definition option_elems {A} (x : option A) : list A := match x with Some x => [x] | None => [] end.

(** The operations that are claimed: unmatched, matched, being closed, being submitted. *)
Definition owners (q : iree_net_message_receive_queue_t) (claiming posted : list nat) (closing : list (list nat)) : list nat :=
  posted ++ option_elems (rq_active q) ++ concat closing ++ claiming.

Record queue_ok (s : receive_state) (claiming : list nat) (closers : list (option nat)) (posted : list nat)
    (closing : list (list nat)) : Prop := mk_queue_ok {
  qo_posted : linked (rs_operations s) (rq_head (rs_queue s)) posted;
  qo_closing : Forall2 (linked (rs_operations s)) closers closing;
  qo_nodup : NoDup (owners (rs_queue s) claiming posted closing);
  qo_claimed i o : rs_operations s !! i = Some o →
    ro_claimed o = (if decide (i ∈ owners (rs_queue s) claiming posted closing) then 1 else 0) ∧ length (ro_prefix o) = 64%nat;
  qo_range i : i ∈ owners (rs_queue s) claiming posted closing → is_Some (rs_operations s !! i);
  qo_width : 0 <= rq_prefix_length (rs_queue s) <= IREE_NET_MESSAGE_RECEIVE_PREFIX_CAPACITY;
  qo_unset : rq_prefix_length (rs_queue s) = 0 → posted = [] ∧ rq_active (rs_queue s) = None;
  qo_distinct : NoDup (captured (rs_operations s) (rq_prefix_length (rs_queue s)) <$> posted ++ option_elems (rq_active (rs_queue s)));
  qo_open : rq_closed (rs_queue s) = false → rq_status (rs_queue s) = IREE_STATUS_OK ∧ concat closing = [];
  qo_shut : rq_closed (rs_queue s) = true → posted = [] ∧ rq_status (rs_queue s) ≠ IREE_STATUS_OK;
}.

Create HintDb receive.

(** A change of one operation that keeps its link and its prefix. *)
Definition keeps_links (f : iree_net_message_receive_operation_t → iree_net_message_receive_operation_t) : Prop :=
  ∀ o, ro_next (f o) = ro_next o ∧ ro_prefix (f o) = ro_prefix o.

Lemma set_claimed_keeps v : keeps_links (set_claimed v).
Proof. done. Qed.
Lemma release_keeps : keeps_links (λ o, set_claimed 0 (clear_queue o)).
Proof. done. Qed.
Lemma set_data_keeps (g : list Z → list Z) : keeps_links (λ o, set_data (g (ro_data o)) o).
Proof. done. Qed.
#[export] Hint Resolve set_claimed_keeps release_keeps set_data_keeps : receive.

Lemma captured_map_alter ops width f i (l : list nat) :
  (i ∈ l → ∀ o, ro_prefix (f o) = ro_prefix o) → captured (alter f i ops) width <$> l = captured ops width <$> l.
Proof. intros Hf. apply list_fmap_ext. intros k j Hj%list_elem_of_lookup_2. apply captured_alter. intros ->. auto. Qed.

(** Such a change, with another set of claims: the claims of the other operations stay. *)
Lemma queue_ok_alter s claiming closers posted closing f i o q claiming' closing' closers' :
  queue_ok s claiming closers posted closing → keeps_links f → rs_operations s !! i = Some o →
  rq_head q = rq_head (rs_queue s) → rq_prefix_length q = rq_prefix_length (rs_queue s) →
  rq_closed q = rq_closed (rs_queue s) → rq_status q = rq_status (rs_queue s) →
  (rq_active q = rq_active (rs_queue s) ∨ rq_active q = None) →
  Forall2 (linked (rs_operations s)) closers' closing' →
  (concat closing = [] → concat closing' = []) →
  NoDup (owners q claiming' posted closing') →
  (∀ j, j ≠ i → j ∈ owners q claiming' posted closing' ↔ j ∈ owners (rs_queue s) claiming posted closing) →
  ro_claimed (f o) = (if decide (i ∈ owners q claiming' posted closing') then 1 else 0) →
  queue_ok (with_operations (alter f i (rs_operations s)) (with_queue q s)) claiming' closers' posted closing'.
Proof.
  intros [] Hf Ho Eh Ew Ec Es Ea Hc Hcl Hn Hj Hi. destruct s as [q0 ops l]. cbn in *.
  split; cbn; rewrite ?Eh, ?Ew, ?Ec, ?Es; try done.
  - apply linked_alter; [|done]. intros _ o'. apply Hf.
  - apply linked_all_alter; [|done]. intros _ o'. apply Hf.
  - intros j o' Hl. destruct (decide (j = i)) as [->|Hne].
    + rewrite list_lookup_alter_eq, Ho in Hl. injection Hl as <-. split; [done|]. rewrite (proj2 (Hf o)). by eapply qo_claimed0.
    + rewrite list_lookup_alter_ne in Hl by done. rewrite (decide_ext _ _ _ _ (Hj j Hne)). by apply qo_claimed0.
  - intros j Hin. destruct (decide (j = i)) as [->|Hne].
    + rewrite list_lookup_alter_eq, Ho. by eexists.
    + rewrite list_lookup_alter_ne by done. by apply qo_range0, Hj.
  - intros E. destruct (qo_unset0 E) as [-> Hnone]. split; [done|]. by destruct Ea as [-> |].
  - rewrite captured_map_alter by (intros _ o'; apply Hf). destruct Ea as [-> | ->]; [done|].
    cbn. rewrite app_nil_r. rewrite fmap_app in qo_distinct0. by apply NoDup_app in qo_distinct0 as [? _].
  - intros E. destruct (qo_open0 E). auto.
Qed.

Lemma not_owner s claiming closers posted closing i o :
  queue_ok s claiming closers posted closing → rs_operations s !! i = Some o → ro_claimed o = 0 →
  i ∉ owners (rs_queue s) claiming posted closing.
Proof. intros Hq Ho Hc Hi. destruct (qo_claimed _ _ _ _ _ Hq i o Ho) as [E _]. rewrite decide_True in E by done. lia. Qed.

Lemma elem_of_owners q claiming posted closing i :
  i ∈ owners q claiming posted closing ↔ i ∈ posted ∨ rq_active q = Some i ∨ i ∈ concat closing ∨ i ∈ claiming.
Proof.
  unfold owners. rewrite !elem_of_app. assert (i ∈ option_elems (rq_active q) ↔ rq_active q = Some i) as ->; [|done].
  destruct (rq_active q); cbn; [rewrite list_elem_of_singleton; naive_solver|split; [by intros ?%elem_of_nil|done]].
Qed.

Lemma with_same_queue s ops : with_operations ops (with_queue (rs_queue s) s) = with_operations ops s.
Proof. by destruct s. Qed.

Lemma insert_as_alter {A} (l : list A) i x f : l !! i = Some x → <[i := f x]> l = alter f i l.
Proof. intros Hi. rewrite list_insert_alter. apply list_alter_ext; [|done]. intros y Hy. by simplify_eq. Qed.

Lemma Permutation_elem_of {A} {l k : list A} {x} : l ≡ₚ k → x ∈ l ↔ x ∈ k.
Proof. by intros ->. Qed.

Lemma claim_queue_ok s claiming closers posted closing i ops :
  queue_ok s claiming closers posted closing → claim_operation i (rs_operations s) = Ok ops →
  queue_ok (with_operations ops s) (i :: claiming) closers posted closing.
Proof.
  intros Hq. unfold claim_operation. destruct (rs_operations s !! i) as [o|] eqn:Ho; [|done].
  destruct (Z.eqb_spec (ro_claimed o) 0) as [E0|]; [|done]. intros [= <-].
  pose proof (not_owner _ _ _ _ _ _ _ Hq Ho E0) as Hi.
  assert (owners (rs_queue s) (i :: claiming) posted closing ≡ₚ i :: owners (rs_queue s) claiming posted closing) as Hp
    by (unfold owners; solve_Permutation).
  rewrite (insert_as_alter _ i o (set_claimed 1) Ho).
  rewrite <- with_same_queue. eapply queue_ok_alter; eauto with receive; try apply Hq.
  - rewrite Hp. apply NoDup_cons. split; [done|apply Hq].
  - intros j Hne. rewrite Hp, elem_of_cons. naive_solver.
  - cbn. rewrite decide_True; [done|]. rewrite Hp. by left.
Qed.

Lemma release_queue_ok s before i after closers posted closing f :
  queue_ok s (before ++ i :: after) closers posted closing → keeps_links f → (∀ o, ro_claimed (f o) = 0) →
  queue_ok (with_operations (alter f i (rs_operations s)) s) (before ++ after) closers posted closing.
Proof.
  intros Hq Hf H0.
  assert (owners (rs_queue s) (before ++ i :: after) posted closing ≡ₚ i :: owners (rs_queue s) (before ++ after) posted closing) as Hp
    by (unfold owners; solve_Permutation).
  pose proof (qo_nodup _ _ _ _ _ Hq) as Hn. rewrite Hp in Hn. apply NoDup_cons in Hn as [Hi Hn].
  destruct (qo_range _ _ _ _ _ Hq i) as [o Ho]; [rewrite Hp; by left|].
  rewrite <- with_same_queue. eapply queue_ok_alter; eauto with receive; try apply Hq.
  - intros j Hne. rewrite Hp, elem_of_cons. naive_solver.
  - by rewrite decide_False.
Qed.

Lemma claiming_not_held s before i after closers posted closing :
  queue_ok s (before ++ i :: after) closers posted closing → i ∉ posted ++ option_elems (rq_active (rs_queue s)) ++ concat closing.
Proof.
  intros Hq. pose proof (qo_nodup _ _ _ _ _ Hq) as Hn.
  assert (owners (rs_queue s) (before ++ i :: after) posted closing ≡ₚ i :: owners (rs_queue s) (before ++ after) posted closing) as Hp
    by (unfold owners; solve_Permutation).
  rewrite Hp in Hn. apply NoDup_cons in Hn as [Hi _]. unfold owners in Hi. rewrite !elem_of_app in *. tauto.
Qed.

Lemma place_queue_ok s claiming closers posted closing i offset bytes :
  queue_ok s claiming closers posted closing → rq_active (rs_queue s) = Some i →
  queue_ok (place i offset bytes s) claiming closers posted closing.
Proof.
  intros Hq Ha. assert (i ∈ owners (rs_queue s) claiming posted closing) as Hi by (apply elem_of_owners; auto).
  destruct (qo_range _ _ _ _ _ Hq i Hi) as [o Ho]. unfold place.
  rewrite <- with_same_queue. eapply queue_ok_alter; eauto with receive; first [exact (proj1 (qo_claimed _ _ _ _ _ Hq i o Ho))|apply Hq|done].
Qed.

Lemma complete_queue_ok s claiming closers posted closing i status bytes c s' :
  queue_ok s claiming closers posted closing → rq_active (rs_queue s) = Some i →
  complete_locked i status bytes s = (c, s') → queue_ok s' claiming closers posted closing ∧ rq_active (rs_queue s') = None.
Proof.
  intros Hq Ha [= <- <-]. rewrite bool_decide_eq_true_2 by done. split; [|done].
  assert (owners (rs_queue s) claiming posted closing ≡ₚ i :: owners (set_active None (rs_queue s)) claiming posted closing) as Hp
    by (unfold owners; rewrite Ha; cbn [rq_active set_active option_elems]; solve_Permutation).
  pose proof (qo_nodup _ _ _ _ _ Hq) as Hn. rewrite Hp in Hn. apply NoDup_cons in Hn as [Hi Hn].
  destruct (qo_range _ _ _ _ _ Hq i) as [o Ho]; [rewrite Hp; by left|].
  eapply queue_ok_alter; eauto with receive; try apply Hq; try done.
  - intros j Hne. rewrite Hp, elem_of_cons. naive_solver.
  - cbn. by rewrite decide_False.
Qed.

(** [close] detaches the unmatched operations. *)
Lemma close_queue_ok s claiming closers posted closing status pending s' :
  queue_ok s claiming closers posted closing → close_locked status s = (pending, s') →
  queue_ok s' claiming (pending :: closers) [] (posted :: closing).
Proof.
  intros Hq [= <- <-]. destruct s as [q ops l]. destruct Hq. cbn in *.
  assert (owners q claiming posted closing ≡ₚ
    owners (mk_receive_queue None (rq_active q) (rq_prefix_length q) true
      (if bool_decide (iree_status_join (rq_status q) status = IREE_STATUS_OK) then IREE_STATUS_CANCELLED
       else iree_status_join (rq_status q) status)) claiming [] (posted :: closing)) as Hp
    by (unfold owners; cbn [rq_active concat app]; solve_Permutation).
  split; cbn; try done.
  - by constructor.
  - by rewrite <- Hp.
  - intros i o Ho. assert (i ∈ owners q claiming posted closing ↔ i ∈ _) as Hi by exact (Permutation_elem_of Hp).
    rewrite <- (decide_ext _ _ 1 0 Hi). by apply qo_claimed0.
  - intros i. rewrite <- Hp. apply qo_range0.
  - intros E. by destruct (qo_unset0 E).
  - rewrite fmap_app in qo_distinct0. by apply NoDup_app in qo_distinct0 as (_ & _ & ?).
  - intros _. split; [done|]. by case_bool_decide.
Qed.

(** Operations move between the lists: everything but their links stays. *)
Definition same_capture (ops ops' : operations) : Prop := ∀ i, set_next None <$> ops' !! i = set_next None <$> ops !! i.

Lemma same_capture_next ops p i : same_capture ops (alter (set_next p) i ops).
Proof.
  intros j. destruct (decide (i = j)) as [->|]; [|by rewrite list_lookup_alter_ne].
  rewrite list_lookup_alter_eq. by destruct (ops !! j).
Qed.

Lemma same_capture_trans ops1 ops2 ops3 : same_capture ops1 ops2 → same_capture ops2 ops3 → same_capture ops1 ops3.
Proof. intros H1 H2 i. by rewrite H2. Qed.

Lemma same_capture_captured ops ops' width i : same_capture ops ops' → captured ops' width i = captured ops width i.
Proof. intros H. specialize (H i). unfold captured. destruct (ops !! i), (ops' !! i); simplify_eq/=; congruence. Qed.

Lemma queue_ok_relink s s' claiming closers posted closing claiming' closers' posted' closing' :
  queue_ok s claiming closers posted closing → same_capture (rs_operations s) (rs_operations s') →
  rq_prefix_length (rs_queue s') = rq_prefix_length (rs_queue s) → rq_closed (rs_queue s') = rq_closed (rs_queue s) →
  rq_status (rs_queue s') = rq_status (rs_queue s) →
  linked (rs_operations s') (rq_head (rs_queue s')) posted' → Forall2 (linked (rs_operations s')) closers' closing' →
  owners (rs_queue s') claiming' posted' closing' ≡ₚ owners (rs_queue s) claiming posted closing →
  posted' ++ option_elems (rq_active (rs_queue s')) ⊆+ posted ++ option_elems (rq_active (rs_queue s)) →
  (concat closing = [] → concat closing' = []) → (posted = [] → posted' = []) →
  queue_ok s' claiming' closers' posted' closing'.
Proof.
  intros Hq Hs Ew Ec Es Hl Hls Hp Hsub Hc Hpo. split; rewrite ?Ew, ?Ec, ?Es; try apply Hq; try done.
  - rewrite Hp. apply Hq.
  - intros i o Ho. rewrite (decide_ext _ _ 1 0 (Permutation_elem_of Hp)). specialize (Hs i). rewrite Ho in Hs.
    destruct (rs_operations s !! i) as [o'|] eqn:Ho'; [|done]. injection Hs as -> _ _ _ ->. by eapply qo_claimed.
  - intros i Hi. rewrite Hp in Hi. destruct (qo_range _ _ _ _ _ Hq i Hi) as [o Ho]. specialize (Hs i). rewrite Ho in Hs.
    destruct (rs_operations s' !! i); [by eexists|done].
  - intros E. destruct (qo_unset _ _ _ _ _ Hq E) as [-> E']. rewrite E' in Hsub. cbn in Hsub. apply submseteq_nil_r in Hsub.
    apply app_eq_nil in Hsub as [-> Hn]. split; [done|]. by destruct (rq_active (rs_queue s')).
  - rewrite (list_fmap_ext _ (captured (rs_operations s) (rq_prefix_length (rs_queue s))) _ (λ _ _ _, same_capture_captured _ _ _ _ Hs)).
    apply (fmap_submseteq (captured (rs_operations s) (rq_prefix_length (rs_queue s)))) in Hsub as [k Hk]%submseteq_Permutation.
    pose proof (qo_distinct _ _ _ _ _ Hq) as Hd. rewrite Hk in Hd. by apply NoDup_app in Hd as [? _].
  - intros E. destruct (qo_open _ _ _ _ _ Hq E). auto.
  - intros E. destruct (qo_shut _ _ _ _ _ Hq E). auto.
Qed.

Lemma Forall2_split {A B} (P : A → B → Prop) l1 x l2 k :
  Forall2 P (l1 ++ x :: l2) k → ∃ k1 y k2, k = k1 ++ y :: k2 ∧ Forall2 P l1 k1 ∧ P x y ∧ Forall2 P l2 k2.
Proof. intros (k1 & k' & H1 & H2 & ->)%Forall2_app_inv_l. inversion H2; subst. by eauto 10. Qed.

(** One iteration of the loop of [close]. *)
Lemma close_next_queue_ok s claiming before i after posted closing next c s' :
  queue_ok s claiming (before ++ Some i :: after) posted closing → close_next i s = (next, c, s') →
  ∃ closing1 l closing2 o, closing = closing1 ++ (i :: l) :: closing2 ∧ rs_operations s !! i = Some o ∧
    c = mk_receive_completion (ro_completion_callback o) (rq_status (rs_queue s)) 0 ∧
    queue_ok s' claiming (before ++ next :: after) posted (closing1 ++ l :: closing2) ∧
    rs_queue s' = rs_queue s ∧ rs_lifecycle s' = rs_lifecycle s.
Proof.
  intros Hq E. destruct (Forall2_split _ _ _ _ _ (qo_closing _ _ _ _ _ Hq)) as (c1 & l' & c2 & -> & H1 & Hi & H2).
  destruct l' as [|i' l]; [done|]. destruct Hi as ([= <-] & o & Ho & Hl). exists c1, l, c2, o. split; [done|]. split; [done|].
  pose proof (qo_nodup _ _ _ _ _ Hq) as Hn.
  set (s1 := with_operations (alter (set_next None) i (rs_operations s)) s).
  assert (owners (rs_queue s) (i :: claiming) posted (c1 ++ l :: c2) ≡ₚ owners (rs_queue s) claiming posted (c1 ++ (i :: l) :: c2)) as Hp
    by (unfold owners; rewrite !concat_app; cbn [concat]; solve_Permutation).
  rewrite <- Hp in Hn.
  assert (i ∉ owners (rs_queue s) claiming posted (c1 ++ l :: c2)) as Hni.
  { revert Hn. assert (owners (rs_queue s) (i :: claiming) posted (c1 ++ l :: c2) ≡ₚ i :: owners (rs_queue s) claiming posted (c1 ++ l :: c2)) as ->
      by (unfold owners; solve_Permutation). by intros [? _]%NoDup_cons. }
  rewrite elem_of_owners in Hni.
  assert (queue_ok s1 (i :: claiming) (before ++ ro_next o :: after) posted (c1 ++ l :: c2)) as Hq1.
  { apply (queue_ok_relink s s1 claiming (before ++ Some i :: after) posted (c1 ++ (i :: l) :: c2)); try done.
    - apply same_capture_next.
    - apply linked_alter; [tauto|apply Hq].
    - apply linked_all_alter; [tauto|]. apply Forall2_app; [done|]. by constructor.
    - rewrite !concat_app. cbn [concat]. intros E0. apply app_eq_nil in E0 as [-> E0]. done. }
  unfold close_next in E. rewrite Ho in E. cbn [mbind option_bind] in E. unfold complete_locked in E. cbn [rs_queue with_operations] in E.
  rewrite bool_decide_eq_false_2 in E by tauto. cbn [rs_operations with_operations] in E.
  rewrite list_lookup_alter_eq, Ho in E. cbn in E. injection E as <- <- <-.
  split; [done|]. split; [|done].
  apply (release_queue_ok s1 [] i claiming _ _ _ (λ o, set_claimed 0 (clear_queue o))); [done|apply release_keeps|done].
Qed.

(** [match] when no operation is matched: the operation with the prefix is taken from the
    list, unless its destination has another length. *)
Definition match_outcome (s : receive_state) (claiming : list nat) (closers : list (option nat)) (posted : list nat)
    (closing : list (list nat)) (prefix : list Z) (body_length : Z) (r : status_or (option nat)) (s' : receive_state) : Prop :=
  let width := rq_prefix_length (rs_queue s) in
  match r with
  | Ok None => s' = s ∧
      (rq_closed (rs_queue s) = true ∨ byte_length prefix ≠ width ∨ prefix ∉ captured (rs_operations s) width <$> posted)
  | Err code => s' = s ∧ code = IREE_STATUS_DATA_LOSS ∧ rq_closed (rs_queue s) = false ∧
      ∃ i o, i ∈ posted ∧ captured (rs_operations s) width i = prefix ∧ rs_operations s !! i = Some o ∧
        byte_length (ro_data o) ≠ body_length
  | Ok (Some i) => rq_closed (rs_queue s) = false ∧
      ∃ l1 l2 o, posted = l1 ++ i :: l2 ∧ captured (rs_operations s) width i = prefix ∧ rs_operations s !! i = Some o ∧
        byte_length (ro_data o) = body_length ∧ queue_ok s' claiming closers (l1 ++ l2) closing ∧
        rq_active (rs_queue s') = Some i ∧ rq_closed (rs_queue s') = false ∧ rq_prefix_length (rs_queue s') = width ∧
        same_capture (rs_operations s) (rs_operations s') ∧ rs_lifecycle s' = rs_lifecycle s
  end.

Lemma take_posted s claiming closers l1 i l2 closing o b :
  queue_ok s claiming closers (l1 ++ i :: l2) closing → rq_active (rs_queue s) = None → rs_operations s !! i = Some o →
  b = match last l1 with Some j => Some j | None => None end →
  let s1 := set_link b (ro_next o) s in
  let s2 := with_operations (alter (set_next None) i (rs_operations s1)) s1 in
  queue_ok (with_queue (set_active (Some i) (rs_queue s2)) s2) claiming closers (l1 ++ l2) closing ∧
  same_capture (rs_operations s) (rs_operations s2).
Proof.
  intros Hq Ha Ho Hb s1 s2. pose proof (qo_posted _ _ _ _ _ Hq) as Hl. pose proof (qo_nodup _ _ _ _ _ Hq) as Hn.
  assert (NoDup (l1 ++ i :: l2)) as Hnp by (unfold owners in Hn; by apply NoDup_app in Hn as [? _]).
  assert (owners (rs_queue s) claiming (l1 ++ i :: l2) closing ≡ₚ i :: l1 ++ l2 ++ concat closing ++ claiming) as Hp
    by (unfold owners; rewrite Ha; solve_Permutation).
  rewrite Hp in Hn. apply NoDup_cons in Hn as [Hi Hn]. rewrite !elem_of_app in Hi.
  assert (same_capture (rs_operations s) (rs_operations s2)) as Hsame.
  { eapply same_capture_trans, same_capture_next. subst s1. destruct b; [apply same_capture_next|done]. }
  split; [|done].
  assert (linked (rs_operations s1) (rq_head (rs_queue s1)) (l1 ++ l2) ∧ Forall2 (linked (rs_operations s1)) closers closing) as [Hl' Hls'].
  { subst s1. destruct (last l1) as [j|] eqn:Ej; rewrite Hb; cbn.
    - split; [by eapply linked_unlink|]. apply linked_all_alter; [|apply Hq]. intros Hj. apply NoDup_app in Hn as (_ & Hd & _).
      destruct (Hd j (last_Some_elem_of _ _ Ej)). rewrite !elem_of_app. auto.
    - apply last_None in Ej. subst l1. destruct Hl as (_ & o' & Ho' & Hl). simplify_eq. split; [done|apply Hq]. }
  apply (queue_ok_relink s _ claiming closers (l1 ++ i :: l2) closing claiming closers (l1 ++ l2) closing Hq); try done.
  1-3: by subst s1 s2; destruct b.
  - apply linked_alter; [rewrite elem_of_app; tauto|by subst s1; destruct b].
  - apply linked_all_alter; [tauto|done].
  - rewrite Hp. unfold owners. cbn. solve_Permutation.
  - cbn [rs_queue with_queue rq_active set_active option_elems]. rewrite Ha. cbn. rewrite app_nil_r. apply Permutation_submseteq. solve_Permutation.
  - intros E. by destruct l1.
Qed.

Lemma match_spec s claiming closers posted closing prefix body_length r s' :
  queue_ok s claiming closers posted closing → rq_active (rs_queue s) = None →
  iree_net_message_receive_queue_match prefix body_length s = (r, s') →
  match_outcome s claiming closers posted closing prefix body_length r s'.
Proof.
  intros Hq Ha. unfold iree_net_message_receive_queue_match. pose proof (qo_posted _ _ _ _ _ Hq) as Hl.
  assert (NoDup posted) as Hnp by (pose proof (qo_nodup _ _ _ _ _ Hq) as Hn; unfold owners in Hn; by apply NoDup_app in Hn as [? _]).
  destruct (rq_closed (rs_queue s)) eqn:Ec; cbn [negb andb]. { intros [= <- <-]. split; [done|by left]. }
  destruct (Z.eqb_spec (byte_length prefix) (rq_prefix_length (rs_queue s))) as [Ew|]. 2: { intros [= <- <-]. split; [done|auto]. }
  pose proof (find_link_spec _ prefix _ _ (length (rs_operations s)) None Hl (linked_length _ _ _ Hl Hnp)) as Hf. rewrite Ew in Hf.
  destruct (find_link _ _ _ _ _) as [[b i]|]. 2: { intros [= <- <-]. split; [done|auto]. }
  destruct Hf as (l1 & l2 & -> & Hi & _ & Hb).
  destruct (linked_elem _ _ _ i Hl) as [o Ho]; [apply elem_of_app; right; by left|].
  rewrite Ho. destruct (Z.eqb_spec (byte_length (ro_data o)) body_length) as [El|Hne]; cbn [negb]; intros [= <- <-].
  - split; [done|]. exists l1, l2, o. do 4 (split; [done|]). destruct (take_posted _ _ _ _ _ _ _ _ _ Hq Ha Ho Hb) as [Hq' Hs].
    split; [done|]. by rewrite <- Ec; destruct b.
  - do 3 (split; [done|]). exists i, o. split; [apply elem_of_app; right; by left|done].
Qed.

(** What decides a submission. *)
Definition submit_code (s : receive_state) (posted : list nat) (prefix : list Z) : iree_status_code :=
  let q := rs_queue s in
  if rq_closed q then rq_status q
  else if bool_decide (rq_prefix_length q ≠ 0 ∧ rq_prefix_length q ≠ byte_length prefix) then IREE_STATUS_INVALID_ARGUMENT
  else if bool_decide (prefix ∈ captured (rs_operations s) (rq_prefix_length q) <$> posted ++ option_elems (rq_active q)) then
    IREE_STATUS_ALREADY_EXISTS
  else IREE_STATUS_OK.

Lemma submit_status_eq s claiming closers posted closing prefix :
  queue_ok s claiming closers posted closing → submit_status s prefix = submit_code s posted prefix.
Proof.
  intros Hq. unfold submit_status, submit_code. destruct (rq_closed (rs_queue s)); [done|].
  pose proof (qo_posted _ _ _ _ _ Hq) as Hl.
  assert (NoDup posted) as Hnp by (pose proof (qo_nodup _ _ _ _ _ Hq) as Hn; unfold owners in Hn; by apply NoDup_app in Hn as [? _]).
  assert (negb (rq_prefix_length (rs_queue s) =? 0) && negb (rq_prefix_length (rs_queue s) =? byte_length prefix) =
    bool_decide (rq_prefix_length (rs_queue s) ≠ 0 ∧ rq_prefix_length (rs_queue s) ≠ byte_length prefix)) as ->.
  { destruct (Z.eqb_spec (rq_prefix_length (rs_queue s)) 0), (Z.eqb_spec (rq_prefix_length (rs_queue s)) (byte_length prefix)); cbn;
      case_bool_decide; tauto. }
  case_bool_decide as Hw; [done|].
  assert (posted = [] ∧ rq_active (rs_queue s) = None ∨ rq_prefix_length (rs_queue s) = byte_length prefix) as Hc.
  { destruct (decide (rq_prefix_length (rs_queue s) = 0)) as [E|]; [left; by apply (qo_unset _ _ _ _ _ Hq)|right; lia]. }
  rewrite (prefix_posted_spec _ prefix _ _ _ Hl (linked_length _ _ _ Hl Hnp)).
  destruct Hc as [[-> ->]| ->]; [done|]. rewrite fmap_app.
  destruct (rq_active (rs_queue s)) as [i|] eqn:Ea; cbn [mbind option_bind option_elems fmap list_fmap].
  2: { rewrite app_nil_r. by destruct (bool_decide _). }
  destruct (qo_range _ _ _ _ _ Hq i) as [o Ho]; [apply elem_of_owners; auto|].
  rewrite Ho, (prefix_equal_captured _ _ _ _ Ho). repeat case_bool_decide; set_solver.
Qed.

Lemma copy_prefix_captured prefix bytes : take (length prefix) (copy_prefix prefix bytes) = prefix.
Proof. unfold copy_prefix. by rewrite take_app_length. Qed.

Lemma admit_captured s i o params :
  rs_operations s !! i = Some o →
  captured (rs_operations (admit_operation i params s)) (byte_length (rp_prefix params)) i = rp_prefix params.
Proof.
  intros Ho. unfold captured, byte_length. cbn. rewrite list_lookup_alter_eq, Ho. cbn. by rewrite Nat2Z.id, copy_prefix_captured.
Qed.

(** The prefixes in use stay distinct. *)
Lemma admit_distinct s claiming closers posted closing i o params :
  queue_ok s claiming closers posted closing → rs_operations s !! i = Some o →
  i ∉ posted → rq_active (rs_queue s) ≠ Some i → rq_closed (rs_queue s) = false →
  submit_code s posted (rp_prefix params) = IREE_STATUS_OK →
  NoDup (captured (rs_operations (admit_operation i params s)) (byte_length (rp_prefix params)) <$>
    (i :: posted) ++ option_elems (rq_active (rs_queue s))).
Proof.
  intros Hq Ho Hi Ha Ec Hs. unfold submit_code in Hs. rewrite Ec in Hs. case_bool_decide as Hw; [done|]. case_bool_decide as Hd; [done|].
  assert (i ∉ posted ++ option_elems (rq_active (rs_queue s))) as Hno.
  { rewrite elem_of_app. intros [?|E]; [done|]. destruct (rq_active (rs_queue s)); [|by apply elem_of_nil in E].
    apply list_elem_of_singleton in E. congruence. }
  assert (captured (rs_operations (admit_operation i params s)) (byte_length (rp_prefix params)) <$> posted ++ option_elems (rq_active (rs_queue s)) =
    captured (rs_operations s) (byte_length (rp_prefix params)) <$> posted ++ option_elems (rq_active (rs_queue s))) as E'
    by (by apply captured_map_alter).
  rewrite <- app_comm_cons, fmap_cons, E'. apply NoDup_cons. clear E'.
  rewrite (admit_captured _ _ _ _ Ho).
  destruct (decide (rq_prefix_length (rs_queue s) = 0)) as [E|E].
  - destruct (qo_unset _ _ _ _ _ Hq E) as [-> ->]. split; [apply not_elem_of_nil|constructor].
  - assert (rq_prefix_length (rs_queue s) = byte_length (rp_prefix params)) as <- by lia. split; [done|apply Hq].
Qed.

Lemma admit_queue_ok s before i after closers posted closing params :
  queue_ok s (before ++ i :: after) closers posted closing → params_ok params →
  submit_status s (rp_prefix params) = IREE_STATUS_OK →
  queue_ok (admit_operation i params s) (before ++ after) closers (i :: posted) closing.
Proof.
  intros Hq [Hlen _] Hs. rewrite (submit_status_eq _ _ _ _ _ _ Hq) in Hs.
  assert (rq_closed (rs_queue s) = false) as Ec.
  { destruct (rq_closed (rs_queue s)) eqn:Ec; [|done]. unfold submit_code in Hs. rewrite Ec in Hs. by destruct (qo_shut _ _ _ _ _ Hq Ec). }
  assert (owners (rs_queue s) (before ++ i :: after) posted closing ≡ₚ i :: owners (rs_queue s) (before ++ after) posted closing) as Hp
    by (unfold owners; solve_Permutation).
  pose proof (qo_nodup _ _ _ _ _ Hq) as Hn. rewrite Hp in Hn. apply NoDup_cons in Hn as [Hi Hn]. rewrite elem_of_owners in Hi.
  destruct (qo_range _ _ _ _ _ Hq i) as [o Ho]; [rewrite Hp; by left|]. destruct (qo_claimed _ _ _ _ _ Hq i o Ho) as [Hc Hlo].
  rewrite decide_True in Hc by (rewrite Hp; by left). set (s' := admit_operation i params s).
  assert (∀ j, j ≠ i → rs_operations s' !! j = rs_operations s !! j) as Hne by (intros j Hj; by apply list_lookup_alter_ne).
  assert (∃ o', rs_operations s' !! i = Some o' ∧ ro_claimed o' = 1 ∧ ro_next o' = rq_head (rs_queue s) ∧
    length (ro_prefix o') = 64%nat) as (o' & Ho' & Hc' & Hn' & Hp').
  { subst s'. cbn. rewrite list_lookup_alter_eq, Ho. eexists. split; [done|]. split; [done|]. split; [done|]. cbn. unfold copy_prefix.
    rewrite length_app, length_drop, Hlo. unfold byte_length, IREE_NET_MESSAGE_RECEIVE_PREFIX_CAPACITY in *. lia. }
  assert (owners (rs_queue s') (before ++ after) (i :: posted) closing ≡ₚ owners (rs_queue s) (before ++ i :: after) posted closing) as Hown
    by (rewrite Hp; unfold owners; cbn; done).
  split; try done.
  - cbn [linked]. split; [done|]. exists o'. split; [done|]. rewrite Hn'. apply linked_alter; [tauto|apply Hq].
  - apply linked_all_alter; [tauto|apply Hq].
  - rewrite Hown. apply Hq.
  - intros j oj Hj. rewrite (decide_ext _ _ 1 0 (Permutation_elem_of Hown)). destruct (decide (j = i)) as [->|Hji].
    + simplify_eq. by rewrite decide_True by (rewrite Hp; by left).
    + rewrite Hne in Hj by done. by apply (qo_claimed _ _ _ _ _ Hq).
  - intros j. rewrite Hown. intros Hj. destruct (decide (j = i)) as [->|Hji]; [by eexists|]. rewrite Hne by done. by apply (qo_range _ _ _ _ _ Hq).
  - subst s'. cbn. lia.
  - intros E. cbn in E. lia.
  - apply (admit_distinct s _ _ _ _ i o params Hq); try done; tauto.
  - exact (qo_open _ _ _ _ _ Hq).
  - cbn. congruence.
Qed.
