(* ===== verification/ReceiveTheorems.v ===== *)
(** * Theorems on posted receives

    The systems of [ReceiveQueue] under every interleaving: each accepted receive is
    returned once, before the endpoint is reported drained.  Calls that run alone refine a
    map from prefixes to destinations. *)

From S2P Require Import Prelude EndpointLifecycle ReceiveQueue ReceiveInvariant.
From stdpp Require Import base numbers list relations gmap.

Local Open Scope Z_scope.
Local Open Scope machine_scope.

(** ** The invariant of the system *)

Definition admissions (es : list receive_event) : list callback_t :=
  omap (λ e, match e with ReceiveAdmitted _ c => Some c | _ => None end) es.
Definition returns (es : list receive_event) : list callback_t :=
  omap (λ e, match e with ReceiveReturned c => Some (rc_callback c) | _ => None end) es.
Definition finishes (es : list receive_event) : list receive_event :=
  omap (λ e, match e with EndpointFinished _ => Some e | _ => None end) es.

(** Operations that the endpoint owns. *)
Definition held (y : receive_system) (posted : list nat) (closing : list (list nat)) : list nat :=
  posted ++ option_elems (rq_active (sy_queue y)) ++ concat closing.

Definition callback_of (ops : operations) (i : nat) : callback_t :=
  match ops !! i with Some o => ro_completion_callback o | None => None end.

(** The holds of the lifecycle, apart from the operations in the lists. *)
Definition outside_holds (y : receive_system) : nat := (length (sy_returning y) + sy_ending y + sy_others y)%nat.

Definition finished_last (l : iree_net_endpoint_lifecycle_t) (es : list receive_event) : Prop :=
  if decide (lc_state l = LIFECYCLE_STATE_DEACTIVATED) then ∃ es' c, es = es' ++ [EndpointFinished c] ∧ finishes es' = []
  else finishes es = [].

Record receive_ok (y : receive_system) (posted : list nat) (closing : list (list nat)) : Prop := mk_receive_ok {
  ro_structure : queue_ok (sy_state y) (sy_claiming y).*1 (sy_closers y) posted closing;
  ro_params : Forall (λ p, params_ok p.2) (sy_claiming y);
  ro_holds : lifecycle_ok (sy_lifecycle y) (Z.of_nat (length (held y posted closing) + outside_holds y));
  ro_ledger : admissions (sy_events y) ≡ₚ
    returns (sy_events y) ++ (rc_callback <$> sy_returning y) ++ (callback_of (sy_operations y) <$> held y posted closing);
  ro_finished : finished_last (sy_lifecycle y) (sy_events y);
}.

Lemma finishes_app es es' : finishes (es ++ es') = finishes es ++ finishes es'.
Proof. apply omap_app. Qed.
Lemma admissions_app es es' : admissions (es ++ es') = admissions es ++ admissions es'.
Proof. apply omap_app. Qed.
Lemma returns_app es es' : returns (es ++ es') = returns es ++ returns es'.
Proof. apply omap_app. Qed.

(** Events of an endpoint that is not drained. *)
Lemma finished_last_log l l' es new :
  lc_state l ≠ LIFECYCLE_STATE_DEACTIVATED → lc_state l' ≠ LIFECYCLE_STATE_DEACTIVATED → finishes new = [] →
  finished_last l es → finished_last l' (es ++ new).
Proof. intros H H' Hn. unfold finished_last. rewrite !decide_False by done. intros E. by rewrite finishes_app, E, Hn. Qed.

Lemma finished_last_move l l' n c es :
  moves_to l l' n c → finished_last l es → finished_last l' (es ++ finished_event c).
Proof.
  intros [_ Hm]. unfold finished_last. destruct c as [c|]; cbn [finished_event].
  - destruct Hm as (_ & E' & E). rewrite decide_False, decide_True by done. intros Hf. by exists es, c.
  - rewrite app_nil_r. by rewrite (decide_ext _ _ _ _ Hm).
Qed.

(** A lifecycle with operations is not drained. *)
Lemma holds_alive y posted closing :
  receive_ok y posted closing → (0 < length (held y posted closing) + outside_holds y)%nat →
  lc_state (sy_lifecycle y) ≠ LIFECYCLE_STATE_DEACTIVATED.
Proof. intros Hy Hn E. pose proof (lo_idle _ _ (ro_holds _ _ _ Hy) (or_intror E)). lia. Qed.

Lemma callback_of_alter ops f i j :
  (i = j → ∀ o, ro_completion_callback (f o) = ro_completion_callback o) → callback_of (alter f i ops) j = callback_of ops j.
Proof.
  intros Hf. unfold callback_of. destruct (decide (i = j)) as [->|]; [|by rewrite list_lookup_alter_ne].
  rewrite list_lookup_alter_eq. destruct (ops !! j); cbn; [by rewrite Hf|done].
Qed.

Lemma callbacks_alter ops f i (l : list nat) :
  (i ∈ l → ∀ o, ro_completion_callback (f o) = ro_completion_callback o) → callback_of (alter f i ops) <$> l = callback_of ops <$> l.
Proof.
  intros Hf. apply list_fmap_ext. intros k j Hj%list_elem_of_lookup_2. apply callback_of_alter. intros ->. auto.
Qed.

Lemma callbacks_same ops ops' (l : list nat) : same_capture ops ops' → callback_of ops' <$> l = callback_of ops <$> l.
Proof.
  intros Hs. apply list_fmap_ext. intros _ i _. specialize (Hs i). unfold callback_of.
  destruct (ops !! i), (ops' !! i); simplify_eq/=; congruence.
Qed.

(** The start. *)
Lemma receive_start_ok connection_barrier n : receive_ok (receive_start connection_barrier n) [] [].
Proof.
  split; cbn.
  - split; cbn; try done; try by constructor.
    + intros i o [-> _]%lookup_replicate. cbn. done.
    + by intros i ?%elem_of_nil.
  - constructor.
  - split; cbn; try done; lia.
  - done.
  - done.
Qed.

Ltac sys_cbn :=
  cbn [sy_state sy_claiming sy_closers sy_returning sy_ending sy_others sy_events with_state with_claiming with_closers
    with_returning with_ending with_others with_event move_lifecycle with_lifecycle with_operations with_queue
    rs_queue rs_operations rs_lifecycle].

(** Submission. *)
Lemma claim_step_ok y posted closing i params ops :
  receive_ok y posted closing → params_ok params → claim_operation i (sy_operations y) = Ok ops →
  receive_ok (with_claiming ((i, params) :: sy_claiming y) (with_state (with_operations ops (sy_state y)) y)) posted closing.
Proof.
  intros [Hq Hp Hh Hl Hf] Hpar Hc. split; sys_cbn; try done.
  - by eapply (claim_queue_ok _ _ _ _ _ _ _ Hq).
  - by constructor.
  - rewrite Hl. unfold sy_operations at 1 2. sys_cbn. unfold claim_operation in Hc. destruct (sy_operations y !! i) as [o|] eqn:Ho; [|done].
    destruct (ro_claimed o =? 0); [|done]. injection Hc as <-. rewrite (insert_as_alter _ i o (set_claimed 1) Ho).
    by rewrite (callbacks_alter (sy_operations y)).
Qed.

(** The code of a submission under the mutex, and its two outcomes. *)
Definition locked_code (s : receive_state) (prefix : list Z) : iree_status_code :=
  if bool_decide (submit_status s prefix = IREE_STATUS_OK ∧ lc_state (rs_lifecycle s) ≠ LIFECYCLE_STATE_ACTIVE)
  then IREE_STATUS_FAILED_PRECONDITION else submit_status s prefix.

Lemma submit_locked_cases i params s :
  (locked_code s (rp_prefix params) ≠ IREE_STATUS_OK ∧
   submit_locked i params s =
     (locked_code s (rp_prefix params), with_operations (alter (set_claimed 0) i (rs_operations s)) s)) ∨
  (submit_status s (rp_prefix params) = IREE_STATUS_OK ∧ lc_state (rs_lifecycle s) = LIFECYCLE_STATE_ACTIVE ∧
   locked_code s (rp_prefix params) = IREE_STATUS_OK ∧
   submit_locked i params s =
     (IREE_STATUS_OK, admit_operation i params (with_lifecycle (iree_net_endpoint_lifecycle_try_begin_operation (rs_lifecycle s)).2 s))).
Proof.
  unfold submit_locked, locked_code. destruct (submit_status s (rp_prefix params)) eqn:Es.
  2-19: left; rewrite bool_decide_eq_false_2 by (by intros [? _]); by split.
  unfold iree_net_endpoint_lifecycle_try_begin_operation. destruct (decide (lc_state (rs_lifecycle s) = LIFECYCLE_STATE_ACTIVE)) as [E|E].
  - right. rewrite bool_decide_eq_false_2, (bool_decide_eq_true_2 (_ = LIFECYCLE_STATE_ACTIVE)) by tauto. done.
  - left. rewrite bool_decide_eq_true_2, (bool_decide_eq_false_2 (_ = LIFECYCLE_STATE_ACTIVE)) by tauto. split; [done|by destruct s].
Qed.

Lemma submit_step_ok y posted closing i params before after code s :
  receive_ok y posted closing → sy_claiming y = before ++ (i, params) :: after →
  lc_pending_operation_count (sy_lifecycle y) < umax 64 → submit_locked i params (sy_state y) = (code, s) →
  ∃ posted', receive_ok
    (with_event (match code with IREE_STATUS_OK => [ReceiveAdmitted i (rp_completion_callback params)] | _ => [] end)
       (with_claiming (before ++ after) (with_state s y))) posted' closing.
Proof.
  intros [Hq Hp Hh Hl Hf] Ec Hlt Hs. rewrite Ec in Hq, Hp. rewrite fmap_app, fmap_cons in Hq. cbn [fst] in Hq.
  apply Forall_app in Hp as [Hp1 [Hpar Hp2]%Forall_cons]. cbn [snd] in Hpar.
  destruct (submit_locked_cases i params (sy_state y)) as [(Hne & E)|(Est & Eact & _ & E)]; rewrite E in Hs; injection Hs as <- <-.
  - exists posted. assert (match locked_code (sy_state y) (rp_prefix params) with
      IREE_STATUS_OK => [ReceiveAdmitted i (rp_completion_callback params)] | _ => [] end = []) as -> by by destruct (locked_code _ _).
    split; sys_cbn; rewrite ?app_nil_r; try done.
    + rewrite fmap_app. by apply release_queue_ok.
    + by apply Forall_app.
    + rewrite Hl. unfold sy_operations at 1 2. sys_cbn. by rewrite callbacks_alter.
  - exists (i :: posted). set (l' := (iree_net_endpoint_lifecycle_try_begin_operation (rs_lifecycle (sy_state y))).2).
    assert (Hm := begin_moves _ _ true l' Hh). rewrite (lo_count _ _ Hh) in Hlt. destruct Hm as [Hm _]; [done| |].
    { unfold l', iree_net_endpoint_lifecycle_try_begin_operation, sy_lifecycle. by rewrite bool_decide_eq_true_2. }
    assert (queue_ok (admit_operation i params (sy_state y)) (before ++ after).*1 (sy_closers y) (i :: posted) closing) as Hq'
      by (rewrite fmap_app; by eapply admit_queue_ok).
    pose proof (claiming_not_held _ _ _ _ _ _ _ Hq) as Hi.
    destruct (qo_range _ _ _ _ _ Hq i) as [o Ho]; [apply elem_of_owners; rewrite elem_of_app; right; right; right; right; by left|].
    split; sys_cbn; try done.
    + destruct Hq'. by split.
    + by apply Forall_app.
    + replace (Z.of_nat _) with (Z.of_nat (length (held y posted closing) + outside_holds y) + 1); [apply Hm|].
      unfold held, outside_holds, sy_queue. sys_cbn. cbn. rewrite !length_app. lia.
    + rewrite admissions_app, returns_app, Hl.
      change (held _ (i :: posted) closing) with (i :: held y posted closing). rewrite fmap_cons.
      unfold sy_operations at 2 3. cbn [sy_state with_event with_claiming with_state admit_operation with_lifecycle rs_operations].
      rewrite callbacks_alter by done.
      assert (∀ f, callback_of (alter f i (rs_operations (sy_state y))) i = ro_completion_callback (f o)) as ->
        by (intros f; unfold callback_of; by rewrite list_lookup_alter_eq, Ho).
      cbn. rewrite app_nil_r. unfold sy_operations. solve_Permutation.
    + apply (finished_last_log (sy_lifecycle y)); try done; [unfold sy_lifecycle; by rewrite Eact|].
      destruct Hm as [_ Hm]. intros E'. apply (proj1 Hm) in E'. unfold sy_lifecycle in E'. congruence.
Qed.

(** Closing. *)
Lemma close_step_ok y posted closing status pending s :
  receive_ok y posted closing → close_locked status (sy_state y) = (pending, s) →
  receive_ok (with_closers (pending :: sy_closers y) (with_state s y)) [] (posted :: closing).
Proof.
  intros [Hq Hp Hh Hl Hf] Hs. pose proof (close_queue_ok _ _ _ _ _ _ _ _ Hq Hs) as Hq'. injection Hs as <- <-.
  assert (∀ q, rq_active q = rq_active (sy_queue y) →
    [] ++ option_elems (rq_active q) ++ concat (posted :: closing) ≡ₚ held y posted closing) as Hheld.
  { intros q E. unfold held. rewrite E. cbn [concat app]. solve_Permutation. }
  split; sys_cbn; try done.
  - unfold held, sy_queue. sys_cbn. rewrite Hheld by done. done.
  - unfold held, sy_queue, sy_operations. sys_cbn. rewrite Hheld by done. done.
Qed.

Lemma close_next_step_ok y posted closing i before after next c s :
  receive_ok y posted closing → sy_closers y = before ++ Some i :: after → close_next i (sy_state y) = (next, c, s) →
  ∃ closing', receive_ok (with_returning (c :: sy_returning y) (with_closers (before ++ next :: after) (with_state s y))) posted closing'.
Proof.
  intros [Hq Hp Hh Hl Hf] Ec Hs. rewrite Ec in Hq.
  destruct (close_next_queue_ok _ _ _ _ _ _ _ _ _ _ Hq Hs) as (c1 & l & c2 & o & -> & Ho & -> & Hq' & Eq & El).
  exists (c1 ++ l :: c2).
  assert (held y posted (c1 ++ (i :: l) :: c2) ≡ₚ i :: held y posted (c1 ++ l :: c2)) as Hheld
    by (unfold held; rewrite !concat_app; cbn [concat]; solve_Permutation).
  assert (∀ j, callback_of (rs_operations s) j = callback_of (sy_operations y) j) as Hcb.
  { intros j. unfold close_next, complete_locked in Hs. injection Hs as _ _ <-. sys_cbn. by rewrite !callback_of_alter. }
  rewrite Hheld in Hh, Hl. split; sys_cbn; try done.
  - unfold sy_lifecycle in *. sys_cbn. rewrite El.
    replace (Z.of_nat _) with (Z.of_nat (length (i :: held y posted (c1 ++ l :: c2)) + outside_holds y)); [done|].
    unfold held, outside_holds, sy_queue. sys_cbn. rewrite Eq. cbn. lia.
  - rewrite Hl. unfold held, sy_operations, sy_queue. sys_cbn. rewrite Eq. rewrite (list_fmap_ext _ _ _ (λ _ j _, Hcb j)), !fmap_cons.
    unfold callback_of at 1, sy_operations. rewrite Ho. cbn. solve_Permutation.
  - unfold finished_last, sy_lifecycle in *. sys_cbn. by rewrite El.
Qed.

(** Returning and ending. *)
Lemma return_step_ok y posted closing before c after :
  receive_ok y posted closing → sy_returning y = before ++ c :: after →
  receive_ok (with_event [ReceiveReturned c] (with_ending (S (sy_ending y)) (with_returning (before ++ after) y))) posted closing.
Proof.
  intros Hy Er. pose proof (holds_alive _ _ _ Hy) as Hal. destruct Hy as [Hq Hp Hh Hl Hf]. unfold outside_holds in Hal. rewrite Er in Hal.
  rewrite length_app in Hal. cbn in Hal. split; sys_cbn; try done.
  - replace (Z.of_nat _) with (Z.of_nat (length (held y posted closing) + outside_holds y)); [done|].
    unfold outside_holds, held, sy_queue. sys_cbn. rewrite Er, !length_app. cbn. lia.
  - rewrite admissions_app, returns_app, Hl, Er, !fmap_app, fmap_cons. cbn. rewrite app_nil_r.
    unfold held, sy_queue, sy_operations. sys_cbn. solve_Permutation.
  - apply (finished_last_log (sy_lifecycle y)); try done; apply Hal; lia.
Qed.

(** Moves of the lifecycle; [n] is the number of holds afterwards. *)
Lemma move_step_ok y y0 posted closing l c :
  receive_ok y posted closing → sy_state y0 = sy_state y → sy_claiming y0 = sy_claiming y → sy_closers y0 = sy_closers y →
  sy_returning y0 = sy_returning y → sy_events y0 = sy_events y →
  moves_to (sy_lifecycle y) l (Z.of_nat (length (held y posted closing) + outside_holds y0)) c →
  receive_ok (move_lifecycle (l, c) y0) posted closing.
Proof.
  intros [Hq Hp Hh Hl Hf] Es Ec Ecl Er Ee Hm. split; sys_cbn; rewrite ?Es, ?Ec, ?Ecl, ?Er, ?Ee; try done.
  - destruct Hq. by split.
  - unfold held, sy_queue. sys_cbn. rewrite Es. apply Hm.
  - unfold held, sy_queue, sy_operations. sys_cbn. rewrite Es, admissions_app, returns_app, Hl. destruct c; cbn; by rewrite !app_nil_r.
  - by eapply finished_last_move.
Qed.

Lemma move_quiet l y : move_lifecycle (l, None) y = with_state (with_lifecycle l (sy_state y)) y.
Proof. destruct y. unfold move_lifecycle, with_event, with_state. sys_cbn. by rewrite app_nil_r. Qed.

Lemma other_step_ok y y' posted closing :
  receive_ok y posted closing → other_step y y' → ∃ posted' closing', receive_ok y' posted' closing'.
Proof.
  intros Hy Hstep. pose proof (ro_holds _ _ _ Hy) as Hh.
  destruct Hstep as [y i params ops Hpar Hc|y i params before after code s Hcl Hlt Hs|y status pending s Hs|y i before after next c s Hcl Hs
    |y before c after Hr|y n En|y Hlt Hacc|y n En|y l Hl|y Hst H0|y callback b l b' Hr|y b started l b' Hj|y Hst Ho].
  - exists posted, closing. by apply claim_step_ok.
  - destruct (submit_step_ok _ _ _ _ _ _ _ _ _ Hy Hcl Hlt Hs) as [posted' ?]. by exists posted', closing.
  - exists [], (posted :: closing). by eapply close_step_ok.
  - destruct (close_next_step_ok _ _ _ _ _ _ _ _ _ Hy Hcl Hs) as [closing' ?]. by exists posted, closing'.
  - exists posted, closing. by apply return_step_ok.
  - exists posted, closing. destruct (iree_net_endpoint_lifecycle_end_operation (sy_lifecycle y)) as [l c] eqn:E.
    apply (move_step_ok y); try done. unfold outside_holds in *. sys_cbn. rewrite En in Hh.
    replace (Z.of_nat _) with (Z.of_nat (length (held y posted closing) + (length (sy_returning y) + S n + sy_others y)) - 1) by lia.
    eapply end_moves; [done|lia|done].
  - exists posted, closing. rewrite (lo_count _ _ Hh) in Hlt.
    destruct (iree_net_endpoint_lifecycle_try_begin_operation (sy_lifecycle y)) as [accepted l] eqn:E. cbn in Hacc. subst accepted.
    destruct (begin_moves _ _ true _ Hh Hlt E) as [Hm' _]. cbn [snd].
    replace (with_others _ _) with (move_lifecycle (l, None) (with_others (S (sy_others y)) y)) by by rewrite move_quiet.
    apply (move_step_ok y); try done. unfold outside_holds in *. sys_cbn.
    by replace (Z.of_nat _) with (Z.of_nat (length (held y posted closing) + (length (sy_returning y) + sy_ending y + sy_others y)) + 1) by lia.
  - exists posted, closing. destruct (iree_net_endpoint_lifecycle_end_operation (sy_lifecycle y)) as [l c] eqn:E.
    apply (move_step_ok y); try done. unfold outside_holds in *. sys_cbn. rewrite En in Hh.
    replace (Z.of_nat _) with (Z.of_nat (length (held y posted closing) + (length (sy_returning y) + sy_ending y + S n)) - 1) by lia.
    eapply end_moves; [done|lia|done].
  - exists posted, closing. apply (move_step_ok y); try done. by apply activate_moves.
  - exists posted, closing. apply (move_step_ok y); try done. rewrite (lo_count _ _ Hh) in H0. rewrite H0 in Hh |- *. by apply rollback_moves.
  - exists posted, closing. apply (move_step_ok y); try done. by eapply request_moves.
  - exists posted, closing. apply (move_step_ok y); try done. by eapply join_moves.
  - exists posted, closing. destruct (iree_net_endpoint_lifecycle_complete_deactivation (sy_lifecycle y)) as [l c] eqn:E.
    apply (move_step_ok y); try done. by eapply drained_moves.
Qed.

(** The cursor. *)
Lemma cursor_step_ok y y' posted closing :
  receive_ok y posted closing → cursor_step y y' → ∃ posted', receive_ok y' posted' closing.
Proof.
  intros [Hq Hp Hh Hl Hf]. destruct 1 as [y prefix len r s Ha Hm|y i o offset bytes Ha Ho Hlen|y i status bytes c s Ha Hc].
  - pose proof (match_spec _ _ _ _ _ _ _ _ _ Hq Ha Hm) as Ho. destruct r as [[i|]|code]; cbn in Ho.
    2-3: destruct Ho as [-> _]; exists posted; split; sys_cbn; done.
    destruct Ho as (Ec & l1 & l2 & o & -> & Hi & Ho & Hlen & Hq' & Ha' & Ec' & Ew & Hs & El). exists (l1 ++ l2).
    assert (held (with_state s y) (l1 ++ l2) closing ≡ₚ held y (l1 ++ i :: l2) closing) as Hheld.
    { unfold held, sy_queue in *. sys_cbn. rewrite Ha, Ha'. cbn. solve_Permutation. }
    split; sys_cbn; try done.
    + unfold sy_lifecycle in *. sys_cbn. by rewrite El, Hheld.
    + rewrite Hheld, Hl. unfold sy_operations in *. sys_cbn. by rewrite (callbacks_same _ _ _ Hs).
    + unfold finished_last, sy_lifecycle in *. sys_cbn. by rewrite El.
  - exists posted. split; sys_cbn; try done; [by apply place_queue_ok|].
    rewrite Hl. unfold sy_operations, place. sys_cbn. by rewrite callbacks_alter.
  - exists posted. destruct (complete_queue_ok _ _ _ _ _ _ _ _ _ _ Hq Ha Hc) as [Hq' Ha'].
    destruct (qo_range _ _ _ _ _ Hq i) as [o Ho]; [apply elem_of_owners; auto|].
    unfold complete_locked in Hc. rewrite Ho in Hc. injection Hc as <- <-.
    assert (held y posted closing ≡ₚ i :: posted ++ concat closing) as Hheld by (unfold held; rewrite Ha; cbn; solve_Permutation).
    rewrite Hheld in Hh, Hl. split; sys_cbn; try done.
    + unfold held, sy_queue, outside_holds in *. sys_cbn. rewrite bool_decide_eq_true_2 by done. cbn in Hh |- *.
      by replace (Z.of_nat _) with (Z.of_nat (S (length (posted ++ concat closing) + (length (sy_returning y) + sy_ending y + sy_others y)))) by lia.
    + rewrite Hl. unfold held, sy_queue, sy_operations. sys_cbn. rewrite bool_decide_eq_true_2, callbacks_alter by done. cbn.
      unfold callback_of at 1. rewrite Ho. solve_Permutation.
Qed.

Lemma receive_inv y : receive_reachable y → ∃ posted closing, receive_ok y posted closing.
Proof.
  intros (b & n & Hr). assert (∃ posted closing, receive_ok (receive_start b n) posted closing) as Hs by (exists [], []; apply receive_start_ok).
  induction Hr as [|y1 y2 y3 [Hstep|Hstep] _ IH]; [done|..]; apply IH; destruct Hs as (posted & closing & Hy).
  - by eapply other_step_ok.
  - destruct (cursor_step_ok _ _ _ _ Hy Hstep) as [posted' ?]. by exists posted', closing.
Qed.

(** ** Every accepted receive is returned once *)

Definition endpoint_finished (y : receive_system) : Prop := finishes (sy_events y) ≠ [].

Lemma finished_drained y posted closing :
  receive_ok y posted closing → endpoint_finished y →
  lc_state (sy_lifecycle y) = LIFECYCLE_STATE_DEACTIVATED ∧ held y posted closing = [] ∧ sy_returning y = [] ∧
  sy_ending y = 0%nat ∧ sy_others y = 0%nat.
Proof.
  intros [_ _ Hh _ Hf] Hfin. unfold finished_last in Hf. case_decide as E; [|done].
  pose proof (lo_idle _ _ Hh (or_intror E)) as H0. unfold outside_holds in H0.
  destruct (held y posted closing), (sy_returning y); cbn in H0; try lia. repeat (split; [done|]). lia.
Qed.

Lemma held_empty y posted closing : held y posted closing = [] → posted = [] ∧ rq_active (sy_queue y) = None ∧ concat closing = [].
Proof. intros [-> [E ->]%app_eq_nil]%app_eq_nil. by destruct (rq_active (sy_queue y)). Qed.

(** A drained endpoint produces no further event. *)
Lemma finished_quiet y y' posted closing :
  receive_ok y posted closing → endpoint_finished y → receive_step y y' → sy_events y' = sy_events y.
Proof.
  intros Hy Hfin. destruct (finished_drained _ _ _ Hy Hfin) as (Est & Hheld & Er & Een & Eot).
  apply held_empty in Hheld as (-> & Ea & Ec). intros [Hstep|Hstep].
  - destruct Hstep as [y i params ops Hpar Hc|y i params before after code s Hcl Hlt Hs|y status pending s Hs|y i before after next c s Hcl Hs
    |y before c after Hr|y n En|y Hlt Hacc|y n En|y l Hl|y Hst H0|y callback b l b' Hr|y b started l b' Hj|y Hst Ho]; sys_cbn; try done;
    try by rewrite app_nil_r.
    + destruct (submit_locked_cases i params (sy_state y)) as [(Hne & E)|(_ & Eact & _)].
      * rewrite E in Hs. injection Hs as <- _. destruct (locked_code _ _); by rewrite ?app_nil_r.
      * unfold sy_lifecycle in Est. congruence.
    + rewrite Er in Hr. by destruct before.
    + congruence.
    + congruence.
    + congruence.
  - destruct Hstep; done.
Qed.

(** C11: under every interleaving of submissions, closes, lifecycle calls and the receive cursor, a callback is called at most
    as often as receives with it were accepted.  Once the endpoint has been reported drained, every accepted receive has been
    returned, the endpoint owns no operation, and no step of any thread returns a receive, accepts one or reports again. *)
Theorem receives_returned_once y :
  receive_reachable y →
  returns (sy_events y) ⊆+ admissions (sy_events y) ∧
  (endpoint_finished y →
     (∃ es c, sy_events y = es ++ [EndpointFinished c] ∧ finishes es = []) ∧
     admissions (sy_events y) ≡ₚ returns (sy_events y) ∧
     rq_head (sy_queue y) = None ∧ rq_active (sy_queue y) = None ∧
     lc_pending_operation_count (sy_lifecycle y) = 0 ∧
     ∀ y', receive_step y y' → sy_events y' = sy_events y).
Proof.
  intros (posted & closing & Hy)%receive_inv. split.
  { rewrite (ro_ledger _ _ _ Hy). by apply submseteq_inserts_r. }
  intros Hfin. destruct (finished_drained _ _ _ Hy Hfin) as (Est & Hheld & Er & Een & Eot).
  pose proof (ro_ledger _ _ _ Hy) as Hl. pose proof (ro_finished _ _ _ Hy) as Hf. unfold finished_last in Hf. rewrite decide_True in Hf by done.
  rewrite Hheld, Er in Hl. cbn in Hl. rewrite app_nil_r in Hl.
  pose proof (held_empty _ _ _ Hheld) as (-> & Ea & _). pose proof (qo_posted _ _ _ _ _ (ro_structure _ _ _ Hy)) as Hp. cbn in Hp.
  repeat (split; [done|]). split; [|intros y' Hstep; by eapply finished_quiet].
  rewrite (lo_count _ _ (ro_holds _ _ _ Hy)). unfold outside_holds. rewrite Hheld, Er, Een, Eot. done.
Qed.

(** Nothing accepted is forgotten.  When the queue has been closed, the cursor holds no operation, every closer has finished
    its list and no callback is outstanding, every accepted receive has been returned; when moreover every hold has been ended
    and the owner has completed its drain, the endpoint has been reported drained. *)
Theorem closed_queue_returns_all y :
  receive_reachable y → rq_closed (sy_queue y) = true → rq_active (sy_queue y) = None →
  Forall (λ p, p = None) (sy_closers y) → sy_returning y = [] →
  admissions (sy_events y) ≡ₚ returns (sy_events y) ∧
  (sy_ending y = 0%nat → sy_others y = 0%nat → lc_owner_drain_complete (sy_lifecycle y) = true → endpoint_finished y).
Proof.
  intros (posted & closing & [Hq Hp Hh Hl Hf])%receive_inv Ec Ea Hcl Er.
  destruct (qo_shut _ _ _ _ _ Hq Ec) as [-> _].
  assert (concat closing = []) as Ecc.
  { pose proof (qo_closing _ _ _ _ _ Hq) as H2. clear -H2 Hcl. induction H2 as [|p l ps ls Hpl _ IH]; [done|].
    apply Forall_cons in Hcl as [-> Hcl]. destruct l; [by apply IH|by destruct Hpl as [? _]]. }
  assert (held y [] closing = []) as Hheld by (unfold held; by rewrite Ea, Ecc).
  rewrite Hheld, Er in Hl. cbn in Hl. rewrite app_nil_r in Hl. split; [done|]. intros Een Eot Eow.
  unfold outside_holds in Hh. rewrite Hheld, Er, Een, Eot in Hh. destruct Hh as [Hc Hw Hi Hu Hun].
  unfold finished_last in Hf. case_decide as E.
  - destruct Hf as (es & c & Ees & _). unfold endpoint_finished. rewrite Ees, finishes_app. by destruct (finishes es).
  - exfalso. destruct (lc_state (sy_lifecycle y)) eqn:Est; try done; [by rewrite Hu in Eow by auto..|]. by apply (Hun eq_refl Eow).
Qed.

(** ** The queue as a map from prefixes *)

Definition posted_map (s : receive_state) (posted : list nat) : gmap (list Z) nat :=
  list_to_map ((λ i, (captured (rs_operations s) (rq_prefix_length (rs_queue s)) i, i)) <$> posted).

(** The unmatched receives of a queue, by prefix. *)
Definition represents (s : receive_state) (claiming : list nat) (closers : list (option nat)) (closing : list (list nat))
    (M : gmap (list Z) nat) : Prop :=
  ∃ posted, queue_ok s claiming closers posted closing ∧ M = posted_map s posted.

Lemma posted_keys_distinct s claiming closers posted closing :
  queue_ok s claiming closers posted closing →
  NoDup ((λ i, (captured (rs_operations s) (rq_prefix_length (rs_queue s)) i, i)) <$> posted).*1.
Proof.
  intros Hq. rewrite <- list_fmap_compose. pose proof (qo_distinct _ _ _ _ _ Hq) as Hd. rewrite fmap_app in Hd. by apply NoDup_app in Hd as [? _].
Qed.

Lemma posted_map_lookup s claiming closers posted closing prefix i :
  queue_ok s claiming closers posted closing →
  posted_map s posted !! prefix = Some i ↔ i ∈ posted ∧ captured (rs_operations s) (rq_prefix_length (rs_queue s)) i = prefix.
Proof.
  intros Hq. unfold posted_map. rewrite <- elem_of_list_to_map by (by eapply posted_keys_distinct). rewrite list_elem_of_fmap. naive_solver.
Qed.

Lemma posted_map_char (M : gmap (list Z) nat) s claiming closers posted closing :
  queue_ok s claiming closers posted closing →
  (∀ prefix i, M !! prefix = Some i ↔ i ∈ posted ∧ captured (rs_operations s) (rq_prefix_length (rs_queue s)) i = prefix) →
  M = posted_map s posted.
Proof.
  intros Hq HM. apply map_eq. intros prefix. apply option_eq. intros i. by rewrite HM, (posted_map_lookup _ _ _ _ _ _ _ Hq).
Qed.

(** The body extent that a posted operation accepts. *)
Definition posted_length (s : receive_state) (i : nat) : Z :=
  match rs_operations s !! i with Some o => byte_length (ro_data o) | None => 0 end.

(** The answer to a submission: the first reason against it. *)
Definition abstract_submit (s : receive_state) (M : gmap (list Z) nat) (prefix : list Z) : iree_status_code :=
  let q := rs_queue s in
  let active := (λ i, captured (rs_operations s) (rq_prefix_length q) i) <$> rq_active q in
  if rq_closed q then rq_status q
  else if bool_decide (rq_prefix_length q ≠ 0 ∧ rq_prefix_length q ≠ byte_length prefix) then IREE_STATUS_INVALID_ARGUMENT
  else if bool_decide (is_Some (M !! prefix) ∨ active = Some prefix) then IREE_STATUS_ALREADY_EXISTS
  else if bool_decide (lc_state (rs_lifecycle s) ≠ LIFECYCLE_STATE_ACTIVE) then IREE_STATUS_FAILED_PRECONDITION
  else IREE_STATUS_OK.

Lemma prefix_in_use s claiming closers posted closing prefix :
  queue_ok s claiming closers posted closing →
  is_Some (posted_map s posted !! prefix) ∨
    (λ i, captured (rs_operations s) (rq_prefix_length (rs_queue s)) i) <$> rq_active (rs_queue s) = Some prefix ↔
  prefix ∈ captured (rs_operations s) (rq_prefix_length (rs_queue s)) <$> posted ++ option_elems (rq_active (rs_queue s)).
Proof.
  intros Hq. rewrite fmap_app, elem_of_app, list_elem_of_fmap.
  assert (is_Some (posted_map s posted !! prefix) ↔
    ∃ j, prefix = captured (rs_operations s) (rq_prefix_length (rs_queue s)) j ∧ j ∈ posted) as ->.
  { split; [intros [j Hj]|intros (j & Hj & Hjp)].
    - apply (posted_map_lookup _ _ _ _ _ _ _ Hq) in Hj as [? ?]. by exists j.
    - exists j. by apply (posted_map_lookup _ _ _ _ _ _ _ Hq). }
  destruct (rq_active (rs_queue s)) as [j|]; cbn; [rewrite list_elem_of_singleton; naive_solver|].
  pose proof (not_elem_of_nil prefix). naive_solver.
Qed.

Lemma abstract_submit_eq s claiming closers posted closing prefix :
  queue_ok s claiming closers posted closing → abstract_submit s (posted_map s posted) prefix = locked_code s prefix.
Proof.
  intros Hq. unfold locked_code. rewrite (submit_status_eq _ _ _ _ _ _ Hq). unfold abstract_submit, submit_code.
  rewrite (bool_decide_ext _ _ (prefix_in_use _ _ _ _ _ _ Hq)). destruct (rq_closed (rs_queue s)) eqn:Ec.
  { destruct (qo_shut _ _ _ _ _ Hq Ec) as [_ Hne]. by rewrite bool_decide_eq_false_2 by tauto. }
  destruct (bool_decide (rq_prefix_length _ ≠ 0 ∧ _)); [done|]. destruct (bool_decide (prefix ∈ _)); [done|].
  repeat case_bool_decide; tauto.
Qed.

Lemma submit_width s claiming closers posted closing prefix :
  queue_ok s claiming closers posted closing → submit_status s prefix = IREE_STATUS_OK → posted ≠ [] →
  rq_prefix_length (rs_queue s) = byte_length prefix.
Proof.
  intros Hq Es Hp. rewrite (submit_status_eq _ _ _ _ _ _ Hq) in Es. unfold submit_code in Es.
  destruct (rq_closed (rs_queue s)) eqn:Ec; [by destruct (qo_shut _ _ _ _ _ Hq Ec)|]. case_bool_decide as Hw; [done|].
  destruct (decide (rq_prefix_length (rs_queue s) = 0)) as [E0|E0]; [by destruct (qo_unset _ _ _ _ _ Hq E0)|lia].
Qed.

Lemma captured_length s claiming closers posted closing i :
  queue_ok s claiming closers posted closing → i ∈ owners (rs_queue s) claiming posted closing →
  byte_length (captured (rs_operations s) (rq_prefix_length (rs_queue s)) i) = rq_prefix_length (rs_queue s).
Proof.
  intros Hq Hi. destruct (qo_range _ _ _ _ _ Hq i Hi) as [o Ho]. destruct (qo_claimed _ _ _ _ _ Hq i o Ho) as [_ Hl].
  pose proof (qo_width _ _ _ _ _ Hq) as Hw. unfold IREE_NET_MESSAGE_RECEIVE_PREFIX_CAPACITY in Hw.
  unfold captured, byte_length. rewrite Ho, length_take. lia.
Qed.

Lemma submit_refines s before i after closers closing M params code s' :
  represents s (before ++ i :: after) closers closing M → params_ok params → submit_locked i params s = (code, s') →
  code = abstract_submit s M (rp_prefix params) ∧
  represents s' (before ++ after) closers closing
    (if bool_decide (code = IREE_STATUS_OK) then <[rp_prefix params := i]> M else M).
Proof.
  intros (posted & Hq & ->) Hpar Hs. rewrite (abstract_submit_eq _ _ _ _ _ _ Hq).
  destruct (submit_locked_cases i params s) as [(Hne & E)|(Est & Eact & Eco & E)]; rewrite E in Hs; injection Hs as <- <-.
  - split; [done|]. rewrite bool_decide_eq_false_2 by done. exists posted. split; [by apply release_queue_ok|].
    eapply posted_map_char; [by apply release_queue_ok|]. intros prefix j. rewrite (posted_map_lookup _ _ _ _ _ _ _ Hq). sys_cbn.
    by rewrite captured_alter.
  - split; [done|]. rewrite (bool_decide_eq_true_2 (IREE_STATUS_OK = IREE_STATUS_OK)) by done. exists (i :: posted).
    pose proof (admit_queue_ok _ _ _ _ _ _ _ _ Hq Hpar Est) as Hq'. split; [by destruct Hq'; split|].
    change (posted_map _ (i :: posted)) with (posted_map (admit_operation i params s) (i :: posted)). apply (posted_map_char _ _ _ _ _ _ Hq').
    pose proof (claiming_not_held _ _ _ _ _ _ _ Hq) as Hi. rewrite elem_of_app in Hi.
    destruct (qo_range _ _ _ _ _ Hq i) as [o Ho]; [apply elem_of_owners; rewrite elem_of_app; right; right; right; right; by left|].
    assert (∀ j, j ∈ posted → captured (rs_operations (admit_operation i params s)) (byte_length (rp_prefix params)) j =
      captured (rs_operations s) (rq_prefix_length (rs_queue s)) j) as Hsame.
    { intros j Hj. assert (rq_prefix_length (rs_queue s) = byte_length (rp_prefix params)) as ->
        by (apply (submit_width _ _ _ _ _ _ Hq Est); intros ->; by apply elem_of_nil in Hj). apply captured_alter. intros ->. tauto. }
    pose proof (qo_distinct _ _ _ _ _ Hq') as Hd. rewrite fmap_app, fmap_cons in Hd. cbn [app] in Hd. apply NoDup_cons in Hd as [Hd _].
    cbn [rq_prefix_length rs_queue admit_operation] in Hd. rewrite (admit_captured _ _ _ _ Ho), elem_of_app in Hd.
    intros prefix j. rewrite lookup_insert_Some, (posted_map_lookup _ _ _ _ _ _ _ Hq), elem_of_cons.
    cbn [rq_prefix_length rs_queue admit_operation]. split.
    + intros [[<- <-]|(Hne & Hj & <-)]; [split; [by left|by eapply admit_captured]|]. split; [by right|by apply Hsame].
    + intros [[->|Hj] <-]; [left; split; [symmetry; by eapply admit_captured|done]|]. right. rewrite Hsame by done. split; [|done].
      intros E'. apply Hd. left. apply list_elem_of_fmap. exists j. split; [by rewrite Hsame|done].
Qed.

Lemma match_refines s claiming closers closing M prefix body_length r s' :
  represents s claiming closers closing M → rq_active (rs_queue s) = None →
  iree_net_message_receive_queue_match prefix body_length s = (r, s') →
  match M !! prefix with
  | None => r = Ok None ∧ s' = s
  | Some i =>
      if posted_length s i =? body_length
      then r = Ok (Some i) ∧ rq_active (rs_queue s') = Some i ∧ represents s' claiming closers closing (delete prefix M)
      else r = Err IREE_STATUS_DATA_LOSS ∧ s' = s
  end.
Proof.
  intros (posted & Hq & ->) Ha Hm. pose proof (match_spec _ _ _ _ _ _ _ _ _ Hq Ha Hm) as Ho. unfold posted_length.
  assert (∀ i, i ∈ posted → captured (rs_operations s) (rq_prefix_length (rs_queue s)) i = prefix →
    posted_map s posted !! prefix = Some i) as Hin by (intros i ? ?; by apply (posted_map_lookup _ _ _ _ _ _ _ Hq)).
  destruct r as [[i|]|code]; cbn in Ho.
  - destruct Ho as (Ec & l1 & l2 & o & -> & Hi & Ho & Hlen & Hq' & Ha' & Ec' & Ew & Hs & El).
    rewrite (Hin i) by (done || apply elem_of_app; right; by left). rewrite Ho, Hlen, Z.eqb_refl. do 2 (split; [done|]).
    exists (l1 ++ l2). split; [done|]. apply (posted_map_char _ _ _ _ _ _ Hq'). intros k j. rewrite Ew, (same_capture_captured _ _ _ _ Hs).
    rewrite lookup_delete_Some, (posted_map_lookup _ _ _ _ _ _ _ Hq), <- Hi.
    pose proof (qo_distinct _ _ _ _ _ Hq) as Hd. rewrite Ha in Hd. cbn in Hd. rewrite app_nil_r, fmap_app, fmap_cons in Hd.
    apply NoDup_app in Hd as (_ & Hd1 & [Hd2 _]%NoDup_cons).
    pose proof (qo_nodup _ _ _ _ _ Hq) as Hn.
    split.
    + intros (Hne & Hj & <-). split; [|done]. rewrite elem_of_app, elem_of_cons in *. destruct Hj as [?|[->|?]]; auto. done.
    + intros [Hj <-]. rewrite elem_of_app, elem_of_cons in *. split; [|naive_solver]. intros E. destruct Hj as [Hj|Hj].
      * apply (Hd1 (captured (rs_operations s) (rq_prefix_length (rs_queue s)) j)); [by apply list_elem_of_fmap_2|]. rewrite <- E. by left.
      * apply Hd2. rewrite E. by apply list_elem_of_fmap_2.
  - destruct Ho as [-> Hno]. destruct (posted_map s posted !! prefix) as [i|] eqn:E; [|done]. exfalso.
    apply (posted_map_lookup _ _ _ _ _ _ _ Hq) in E as [Hi <-]. destruct Hno as [Hcl|[Hlen|Hno]].
    + destruct (qo_shut _ _ _ _ _ Hq Hcl) as [-> _]. by apply elem_of_nil in Hi.
    + apply Hlen. eapply captured_length; [done|]. apply elem_of_owners. by left.
    + apply Hno. by apply list_elem_of_fmap_2.
  - destruct Ho as (-> & -> & Ec & i & o & Hi & Hp & Ho & Hne). rewrite (Hin i Hi Hp), Ho. by rewrite (proj2 (Z.eqb_neq _ _) Hne).
Qed.

Lemma close_refines s claiming closers closing M status pending s' :
  represents s claiming closers closing M → close_locked status s = (pending, s') →
  rq_closed (rs_queue s') = true ∧ rq_status (rs_queue s') ≠ IREE_STATUS_OK ∧
  ∃ l, l ≡ₚ (map_to_list M).*2 ∧ represents s' claiming (pending :: closers) (l :: closing) ∅.
Proof.
  intros (posted & Hq & ->) Hs. pose proof (close_queue_ok _ _ _ _ _ _ _ _ Hq Hs) as Hq'. injection Hs as <- <-.
  split; [done|]. split; [by apply (qo_shut _ _ _ _ _ Hq')|]. exists posted. split; [|by exists []].
  unfold posted_map. rewrite map_to_list_to_map by (by eapply posted_keys_distinct). by rewrite <- list_fmap_compose, list_fmap_id.
Qed.

(** C15: the queue implements a map from prefixes to posted receives.  A submission is accepted or answered with the first
    reason against it (closed, another width, the prefix in use, the endpoint not active), and adds its prefix only when
    accepted.  Matching looks the prefix up: a receive whose destination has the body's length is removed and becomes the active
    one, another length is [DATA_LOSS] and changes nothing, and so does an unknown prefix.  Closing hands exactly the posted
    receives to the closer. *)
Theorem receive_queue_refines s claiming closers closing M :
  represents s claiming closers closing M →
  (∀ before i after params, claiming = before ++ i :: after → params_ok params →
     let '(code, s') := submit_locked i params s in
     code = abstract_submit s M (rp_prefix params) ∧
     represents s' (before ++ after) closers closing (if bool_decide (code = IREE_STATUS_OK) then <[rp_prefix params := i]> M else M)) ∧
  (rq_active (rs_queue s) = None → ∀ prefix body_length,
     let '(r, s') := iree_net_message_receive_queue_match prefix body_length s in
     match M !! prefix with
     | None => r = Ok None ∧ s' = s
     | Some i =>
         if posted_length s i =? body_length
         then r = Ok (Some i) ∧ rq_active (rs_queue s') = Some i ∧ represents s' claiming closers closing (delete prefix M)
         else r = Err IREE_STATUS_DATA_LOSS ∧ s' = s
     end) ∧
  (∀ status, let '(pending, s') := close_locked status s in
     rq_closed (rs_queue s') = true ∧ rq_status (rs_queue s') ≠ IREE_STATUS_OK ∧
     ∃ l, l ≡ₚ (map_to_list M).*2 ∧ represents s' claiming (pending :: closers) (l :: closing) ∅).
Proof.
  intros Hr. split; [|split].
  - intros before i after params -> Hpar. destruct (submit_locked i params s) eqn:E. by eapply submit_refines.
  - intros Ha prefix len. destruct (iree_net_message_receive_queue_match prefix len s) eqn:E. by eapply match_refines.
  - intros status. destruct (close_locked status s) eqn:E. by eapply close_refines.
Qed.

(** ** Concrete runs *)

Definition sample_params : iree_net_message_endpoint_receive_params_t := mk_receive_params [7; 1] [0; 0; 0] (Some 5).

Definition sample_claimed : receive_system :=
  let y := receive_start true 2 in
  let y := move_lifecycle (set_state LIFECYCLE_STATE_ACTIVE (sy_lifecycle y), None) y in
  match claim_operation 0 (sy_operations y) with
  | Ok ops => with_claiming [(0%nat, sample_params)] (with_state (with_operations ops (sy_state y)) y)
  | Err _ => y
  end.

Lemma sample_params_ok : params_ok sample_params.
Proof. by repeat split. Qed.

Lemma sample_claimed_reachable : receive_reachable sample_claimed.
Proof.
  exists true, 2%nat. eapply rtc_l; [left; by apply other_activate|].
  eapply rtc_l; [left; apply (other_claim _ 0 sample_params); [apply sample_params_ok|vm_compute; reflexivity]|]. apply rtc_refl.
Qed.

Definition sample_posted : receive_system :=
  let '(_, s) := submit_locked 0 sample_params (sy_state sample_claimed) in
  with_event [ReceiveAdmitted 0 (Some 5)] (with_claiming [] (with_state s sample_claimed)).

Lemma sample_posted_reachable : receive_reachable sample_posted.
Proof.
  destruct sample_claimed_reachable as (b & n & Hr). exists b, n. eapply rtc_r; [exact Hr|]. left.
  exact (other_submit sample_claimed 0 sample_params [] [] IREE_STATUS_OK _ eq_refl eq_refl eq_refl).
Qed.

(** A queue that is closed with one receive posted, up to the report of the endpoint. *)
Definition sample_drained : receive_system :=
  let y := sample_posted in
  let y := with_closers [Some 0%nat] (with_state (close_locked IREE_STATUS_OK (sy_state y)).2 y) in
  let '(_, c, s) := close_next 0 (sy_state y) in
  let y := with_returning [c] (with_closers [None] (with_state s y)) in
  let y := with_event [ReceiveReturned c] (with_ending 1 (with_returning [] y)) in
  let y := move_lifecycle (set_state LIFECYCLE_STATE_DRAINING (sy_lifecycle y), None) y in
  let y := move_lifecycle (iree_net_endpoint_lifecycle_complete_deactivation (sy_lifecycle y)) y in
  move_lifecycle (iree_net_endpoint_lifecycle_end_operation (sy_lifecycle y)) (with_ending 0 y).

Lemma sample_drained_reachable : receive_reachable sample_drained.
Proof.
  destruct sample_posted_reachable as (b & n & Hr). exists b, n. etrans; [exact Hr|].
  eapply rtc_l; [left; apply (other_close _ IREE_STATUS_OK (Some 0%nat)); vm_compute; reflexivity|].
  eapply rtc_l; [left; eapply (other_close_next _ 0 [] []); [vm_compute; reflexivity..]|].
  eapply rtc_l; [left; eapply (other_return _ [] _ []); vm_compute; reflexivity|].
  eapply rtc_l; [left; eapply (other_join _ iree_net_endpoint_deactivation_barrier_initialize); vm_compute; reflexivity|].
  eapply rtc_l; [left; apply other_drained; vm_compute; reflexivity|].
  eapply rtc_l; [left; apply (other_end _ 0); vm_compute; reflexivity|].
  vm_compute. apply rtc_refl.
Qed.

Lemma receives_returned_once_witness :
  endpoint_finished sample_drained ∧
  admissions (sy_events sample_drained) ≡ₚ [Some 5] ∧ returns (sy_events sample_drained) = [Some 5].
Proof.
  assert (endpoint_finished sample_drained) as Hf by (vm_compute; congruence). split; [done|].
  destruct (receives_returned_once sample_drained sample_drained_reachable) as [_ H]. destruct (H Hf) as (_ & Hp & _).
  split; [rewrite Hp; vm_compute; reflexivity|vm_compute; reflexivity].
Defined.

Lemma closed_queue_returns_all_witness :
  admissions (sy_events sample_drained) ≡ₚ returns (sy_events sample_drained) ∧ endpoint_finished sample_drained.
Proof.
  destruct (closed_queue_returns_all sample_drained sample_drained_reachable) as [Hp Hf]; [vm_compute; reflexivity..| | |].
  - vm_compute. repeat constructor.
  - vm_compute. reflexivity.
  - split; [exact Hp|]. apply Hf; vm_compute; reflexivity.
Defined.

Lemma sample_unposted : represents (sy_state sample_claimed) [0%nat] [] [] ∅.
Proof.
  exists []. split; [|done].
  pose proof (claim_queue_ok _ _ _ _ _ 0 (sy_operations sample_claimed) (ro_structure _ _ _ (receive_start_ok true 2)) eq_refl) as Hq.
  destruct Hq. split; assumption.
Qed.

Lemma receive_queue_refines_witness :
  (submit_locked 0 sample_params (sy_state sample_claimed)).1 = IREE_STATUS_OK ∧
  represents (sy_state sample_posted) [] [] [] (<[[7; 1] := 0%nat]> ∅).
Proof.
  destruct (receive_queue_refines _ _ _ _ _ sample_unposted) as (Hs & _ & _).
  specialize (Hs [] 0%nat [] sample_params eq_refl sample_params_ok).
  destruct (submit_locked 0 sample_params (sy_state sample_claimed)) as [code s] eqn:E. destruct Hs as [Hc Hr].
  split; [exact Hc|]. revert Hr. vm_compute in E. injection E as <- <-. exact (λ x, x).
Defined.
