(* ===== verification/FrameAccumulator.v ===== *)
(** * Frame reassembly

    [iree/net/frame_accumulator.h], [frame_accumulator.c] and [buffer_lease.c]: the bytes of
    a stream, which arrive in pieces of any size, are cut into frames.  A frame is delivered
    to a callback, from the incoming bytes or from a buffer of its own, or its body is placed
    into the destination of a posted receive.

    The receive queues are an interface ([ReceiveQueues]); the host allocator and the
    callbacks are parameters.  The state [W] of the rest of the program is threaded through
    all of them, and what the accumulator asks of them is recorded ([ma_calls]). *)

From S2P Require Import Prelude BaseMath EndpointLifecycle ReceiveQueue.
From stdpp Require Import base numbers list.

Local Open Scope Z_scope.
Local Open Scope machine_scope.

(** ** Interfaces *)

(** What the accumulator uses of receive queues [Q] and their operations [O], and the
    destination and prefix of an operation. *)
Class ReceiveQueues (W Q O : Type) := mk_receive_queues {
  queue_prefix_length : Q → W → Z * W;
  queue_match : Q → list Z → Z → W → status_or (option O) * W;
  queue_complete : O → iree_status_code → Z → W → W;
  operation_length : O → W → Z;
  operation_write : O → nat → list Z → W → W;
  operation_data : O → W → list Z;
  operation_prefix : O → W → list Z;
}.

(** A frame callback returns its status and whether it moved the lease it was given. *)
Record frame_result (W : Type) := mk_frame_result {
  fr_status : iree_status_code;
  fr_moved : bool;
  fr_world : W;
}.
Arguments mk_frame_result {W} _ _ _.
Arguments fr_status {W} _.
Arguments fr_moved {W} _.
Arguments fr_world {W} _.

(** The fields of an accumulator that do not change while frames arrive.  Allocation returns
    an address and the bytes of the block, which are not initialized. *)
Record accumulator_config (W Q : Type) := mk_accumulator_config {
  ac_frame_length : list Z → status_or Z;
  ac_header_size : Z;
  ac_on_frame_complete : list Z → option Z → W → frame_result W;
  ac_receive_router : option (list Z → option Q);
  ac_host_allocate : Z → W → status_or (Z * list Z) * W;
  ac_release : Z → W → W;
  ac_max_frame_size : Z;
}.
Arguments mk_accumulator_config {W Q} _ _ _ _ _ _ _.
Arguments ac_frame_length {W Q} _ _.
Arguments ac_header_size {W Q} _.
Arguments ac_on_frame_complete {W Q} _ _ _ _.
Arguments ac_receive_router {W Q} _.
Arguments ac_host_allocate {W Q} _ _ _.
Arguments ac_release {W Q} _ _ _.
Arguments ac_max_frame_size {W Q} _.

(** ** Data *)

(** A lease that was not moved or released: its storage and the bytes of its span. *)
Record buffer_lease := mk_buffer_lease {
  bl_storage : Z;
  bl_bytes : list Z;
}.

Record iree_net_frame_accumulator_t (Q O : Type) := mk_frame_accumulator {
  fa_header_used : Z;
  fa_prefix_length : Z;
  fa_receive_queue : option Q;
  fa_receive_operation : option O;
  fa_frame_size : Z;
  fa_frame_used : Z;
  fa_frame_lease : option buffer_lease;
  fa_header : list Z;
}.
Arguments mk_frame_accumulator {Q O} _ _ _ _ _ _ _ _.
Arguments fa_header_used {Q O} _.
Arguments fa_prefix_length {Q O} _.
Arguments fa_receive_queue {Q O} _.
Arguments fa_receive_operation {Q O} _.
Arguments fa_frame_size {Q O} _.
Arguments fa_frame_used {Q O} _.
Arguments fa_frame_lease {Q O} _.
Arguments fa_header {Q O} _.

(** A pointer into the carrier's storage, the header, a lease or a destination. *)
Inductive pointer (O : Type) :=
  | PointerCarrier (offset : Z)
  | PointerHeader (offset : Z)
  | PointerLease (storage offset : Z)
  | PointerBody (o : O) (offset : Z).
Arguments PointerCarrier {O} _.
Arguments PointerHeader {O} _.
Arguments PointerLease {O} _ _.
Arguments PointerBody {O} _ _.

#[export] Instance pointer_eq_dec {O} `{EqDecision O} : EqDecision (pointer O).
Proof. solve_decision. Defined.

Definition pointer_add {O} (p : pointer O) (n : Z) : pointer O :=
  match p with
  | PointerCarrier offset => PointerCarrier (offset + n)
  | PointerHeader offset => PointerHeader (offset + n)
  | PointerLease storage offset => PointerLease storage (offset + n)
  | PointerBody o offset => PointerBody o (offset + n)
  end.

(** What the accumulator asked for: a frame delivered with a lease or without, and whether
    the lease was moved; an operation returned, with its prefix and the frame of which it
    has the body; buffers allocated and released. *)
Inductive accumulator_call (O : Type) :=
  | CallFrame (frame : list Z) (lease : option Z) (moved : bool)
  | CallComplete (o : O) (status : iree_status_code) (bytes_transferred : Z) (prefix frame : list Z)
  | CallAllocate (storage : Z)
  | CallRelease (storage : Z).
Arguments CallFrame {O} _ _ _.
Arguments CallComplete {O} _ _ _ _ _.
Arguments CallAllocate {O} _.
Arguments CallRelease {O} _.

(** The accumulator, the rest of the program, the lease of the bytes being processed and
    the calls made. *)
Record machine (W Q O : Type) := mk_machine {
  ma_accumulator : iree_net_frame_accumulator_t Q O;
  ma_world : W;
  ma_input : option Z;
  ma_calls : list (accumulator_call O);
}.
Arguments mk_machine {W Q O} _ _ _ _.
Arguments ma_accumulator {W Q O} _.
Arguments ma_world {W Q O} _.
Arguments ma_input {W Q O} _.
Arguments ma_calls {W Q O} _.

(** The bytes of a span, its region (and whether that is mapped), its offset and the
    pointer it resolves to. *)
Record carrier_span (O : Type) := mk_carrier_span {
  cs_region : option (Z * bool);
  cs_offset : Z;
  cs_pointer : pointer O;
  cs_bytes : list Z;
}.
Arguments mk_carrier_span {O} _ _ _ _.
Arguments cs_region {O} _.
Arguments cs_offset {O} _.
Arguments cs_pointer {O} _.
Arguments cs_bytes {O} _.

(** A lease of carrier storage. *)
Record carrier_lease := mk_carrier_lease {
  cl_storage : Z;
  cl_region : option (Z * bool);
  cl_offset : Z;
  cl_length : Z;
}.

Definition iree_async_span_is_cpu_accessible {O} (span : carrier_span O) : bool :=
  match cs_region span with None => true | Some (_, mapped) => mapped end.

(** [!iree_async_span_ptr(span)]: a raw pointer span stores the pointer as its offset. *)
Definition span_is_null {O} (span : carrier_span O) : bool :=
  match cs_region span with None => cs_offset span =? 0 | Some _ => false end.

(** ** Operations *)

Section accumulator.
Context {W Q O : Type} `{RQ : ReceiveQueues W Q O} `{EqDecision O}.
Context (cfg : accumulator_config W Q).

Notation accumulator := (iree_net_frame_accumulator_t Q O).
Notation machine := (machine W Q O).
Notation outcome := (iree_status_code * machine)%type.

Definition with_accumulator (a : accumulator) (m : machine) : machine :=
  mk_machine a (ma_world m) (ma_input m) (ma_calls m).
Definition with_world (w : W) (m : machine) : machine :=
  mk_machine (ma_accumulator m) w (ma_input m) (ma_calls m).
Definition with_input (lease : option Z) (m : machine) : machine :=
  mk_machine (ma_accumulator m) (ma_world m) lease (ma_calls m).
Definition record_call (c : accumulator_call O) (m : machine) : machine :=
  mk_machine (ma_accumulator m) (ma_world m) (ma_input m) (ma_calls m ++ [c]).

Definition set_header_used (n : Z) (a : accumulator) : accumulator :=
  mk_frame_accumulator n (fa_prefix_length a) (fa_receive_queue a) (fa_receive_operation a) (fa_frame_size a) (fa_frame_used a)
    (fa_frame_lease a) (fa_header a).
Definition set_frame_used (n : Z) (a : accumulator) : accumulator :=
  mk_frame_accumulator (fa_header_used a) (fa_prefix_length a) (fa_receive_queue a) (fa_receive_operation a) (fa_frame_size a) n
    (fa_frame_lease a) (fa_header a).
Definition set_frame_lease (l : option buffer_lease) (a : accumulator) : accumulator :=
  mk_frame_accumulator (fa_header_used a) (fa_prefix_length a) (fa_receive_queue a) (fa_receive_operation a) (fa_frame_size a)
    (fa_frame_used a) l (fa_header a).
Definition set_header (bytes : list Z) (a : accumulator) : accumulator :=
  mk_frame_accumulator (fa_header_used a) (fa_prefix_length a) (fa_receive_queue a) (fa_receive_operation a) (fa_frame_size a)
    (fa_frame_used a) (fa_frame_lease a) bytes.
Definition set_receive_operation (o : option O) (a : accumulator) : accumulator :=
  mk_frame_accumulator (fa_header_used a) (fa_prefix_length a) (fa_receive_queue a) o (fa_frame_size a) (fa_frame_used a)
    (fa_frame_lease a) (fa_header a).

Definition iree_net_frame_accumulator_clear_frame (a : accumulator) : accumulator :=
  mk_frame_accumulator 0 0 None None 0 0 None (fa_header a).

(** The checks of [begin_frame] on the resolved size. *)
Definition resolve_frame_size (header : list Z) : status_or Z :=
  frame_size ← ac_frame_length cfg header;
  if frame_size =? 0 then Err IREE_STATUS_RESOURCE_EXHAUSTED
  else if frame_size <? byte_length header then Err IREE_STATUS_DATA_LOSS
  else if ac_max_frame_size cfg <? frame_size then Err IREE_STATUS_RESOURCE_EXHAUSTED
  else Ok frame_size.

Definition iree_net_frame_accumulator_begin_frame (header : list Z) (m : machine) : outcome :=
  match resolve_frame_size header with
  | Err code => (code, m)
  | Ok frame_size =>
      let a := ma_accumulator m in
      let queue := router ← ac_receive_router cfg; router header in
      let '(prefix_length, w) :=
        match queue with
        | Some q => let '(n, w) := queue_prefix_length q (ma_world m) in (Z.min n (frame_size -64 byte_length header), w)
        | None => (0, ma_world m)
        end in
      (IREE_STATUS_OK,
       with_world w
         (with_accumulator
            (mk_frame_accumulator (fa_header_used a) prefix_length queue (fa_receive_operation a) frame_size (fa_frame_used a)
               (fa_frame_lease a) (fa_header a)) m))
  end.

(** The sub-span of [length] bytes at an offset. *)
Definition span_slice (offset length : Z) (bytes : list Z) : list Z := take (Z.to_nat length) (drop (Z.to_nat offset) bytes).

Definition iree_net_frame_accumulator_match_receive (lookahead : list Z) (m : machine) : outcome :=
  let a := ma_accumulator m in
  match fa_receive_queue a with
  | None => (IREE_STATUS_OK, m)
  | Some q =>
      let header_size := ac_header_size cfg in
      let '(r, w) :=
        queue_match q (span_slice header_size (fa_prefix_length a) lookahead)
          (fa_frame_size a -64 header_size -64 fa_prefix_length a) (ma_world m) in
      let m := with_world w m in
      match r with
      | Ok o => (IREE_STATUS_OK, with_accumulator (set_receive_operation o a) m)
      | Err code => (code, with_accumulator (set_receive_operation None a) m)
      end
  end.

(** [sizeof(iree_net_buffer_lease_storage_t)]: the allocator that owns the storage. *)
Definition lease_storage_size : Z := 16.

Definition iree_net_buffer_lease_allocate (capacity : Z) (m : machine) : status_or buffer_lease * machine :=
  if capacity =? 0 then (Err IREE_STATUS_INVALID_ARGUMENT, m)
  else
    match iree_struct_layout_calculate lease_storage_size [Build_iree_struct_field_t capacity 1 1 1] with
    | Err code => (Err code, m)
    | Ok (_, total_size) =>
        let '(r, w) := ac_host_allocate cfg total_size (ma_world m) in
        match r with
        | Err code => (Err code, with_world w m)
        | Ok (storage, bytes) =>
            (Ok (mk_buffer_lease storage (span_slice lease_storage_size capacity bytes)),
             record_call (CallAllocate storage) (with_world w m))
        end
    end.

Definition iree_async_buffer_lease_release (storage : option Z) (m : machine) : machine :=
  match storage with
  | None => m
  | Some storage => record_call (CallRelease storage) (with_world (ac_release cfg storage (ma_world m)) m)
  end.

Definition iree_net_frame_accumulator_begin_body (m : machine) : outcome :=
  let start (m : machine) :=
    let a := ma_accumulator m in
    (IREE_STATUS_OK, with_accumulator (set_header_used 0 (set_frame_used (fa_header_used a) a)) m) in
  let a := ma_accumulator m in
  match fa_receive_operation a with
  | Some _ => start m
  | None =>
      match iree_net_buffer_lease_allocate (fa_frame_size a) m with
      | (Err code, m) => (code, with_accumulator (iree_net_frame_accumulator_clear_frame a) m)
      | (Ok lease, m) =>
          let copied := take (Z.to_nat (fa_header_used a)) (fa_header a) in
          let lease := mk_buffer_lease (bl_storage lease) (write_bytes 0 copied (bl_bytes lease)) in
          start (with_accumulator (set_frame_lease (Some lease) a) m)
      end
  end.

(** The frame of a matched operation: the header and prefix, then the destination. *)
Definition placed_frame (a : accumulator) (o : O) (w : W) : list Z :=
  take (Z.to_nat (ac_header_size cfg +64 fa_prefix_length a)) (fa_header a) ++ operation_data o w.

(** A frame callback, with the lease it may move. *)
Definition deliver_frame (frame : list Z) (lease : option Z) (m : machine) : iree_status_code * option Z * machine :=
  let r := ac_on_frame_complete cfg frame lease (ma_world m) in
  let moved := match lease with Some _ => fr_moved r | None => false end in
  (fr_status r, if moved then None else lease, record_call (CallFrame frame lease moved) (with_world (fr_world r) m)).

Definition iree_net_frame_accumulator_complete_frame (m : machine) : outcome :=
  let a := ma_accumulator m in
  let m := with_accumulator (iree_net_frame_accumulator_clear_frame a) m in
  match fa_receive_operation a with
  | Some o =>
      let length := operation_length o (ma_world m) in
      (IREE_STATUS_OK,
       record_call (CallComplete o IREE_STATUS_OK length (operation_prefix o (ma_world m)) (placed_frame a o (ma_world m)))
         (with_world (queue_complete o IREE_STATUS_OK length (ma_world m)) m))
  | None =>
      let lease := fa_frame_lease a in
      let frame := match lease with Some l => take (Z.to_nat (fa_frame_size a)) (bl_bytes l) | None => [] end in
      let '(status, lease, m) := deliver_frame frame (bl_storage <$> lease) m in
      (status, iree_async_buffer_lease_release lease m)
  end.

(** The pointer and the length of the next writable span. *)
Definition iree_net_frame_accumulator_query_receive_buffer (a : accumulator) : pointer O * Z :=
  let header_size := ac_header_size cfg in
  if fa_frame_size a =? 0 then (PointerHeader (fa_header_used a), header_size -64 fa_header_used a)
  else if fa_frame_used a =? 0 then
    (PointerHeader (fa_header_used a), header_size +64 fa_prefix_length a -64 fa_header_used a)
  else
    (match fa_receive_operation a with
     | Some o => PointerBody o (fa_frame_used a -64 header_size -64 fa_prefix_length a)
     | None => PointerLease (match fa_frame_lease a with Some l => bl_storage l | None => 0 end) (fa_frame_used a)
     end, fa_frame_size a -64 fa_frame_used a).

(** Bytes written through a pointer. *)
Definition store_bytes (p : pointer O) (bytes : list Z) (m : machine) : machine :=
  let a := ma_accumulator m in
  match p with
  | PointerCarrier _ => m
  | PointerHeader offset => with_accumulator (set_header (write_bytes (Z.to_nat offset) bytes (fa_header a)) a) m
  | PointerLease _ offset =>
      match fa_frame_lease a with
      | Some l =>
          with_accumulator
            (set_frame_lease (Some (mk_buffer_lease (bl_storage l) (write_bytes (Z.to_nat offset) bytes (bl_bytes l)))) a) m
      | None => m
      end
  | PointerBody o offset => with_world (operation_write o (Z.to_nat offset) bytes (ma_world m)) m
  end.

(** [if (source != destination) memcpy(destination, source, length)]. *)
Definition copy_bytes (destination source : pointer O) (bytes : list Z) (m : machine) : machine :=
  if decide (source = destination) then m else store_bytes destination bytes m.

(** The rest of the input after [length] bytes. *)
Record cursor := mk_cursor {
  cu_status : iree_status_code;
  cu_source : pointer O;
  cu_data : list Z;
  cu_machine : machine;
}.

Definition advance_cursor (status : iree_status_code) (source : pointer O) (data : list Z) (length : Z) (m : machine) : cursor :=
  mk_cursor status (pointer_add source length) (drop (Z.to_nat length) data) m.

(** The branch of the loop for a frame whose body is under way. *)
Definition process_frame_bytes (source : pointer O) (data : list Z) (m : machine) : cursor :=
  let '(target, available) := iree_net_frame_accumulator_query_receive_buffer (ma_accumulator m) in
  let length := Z.min (byte_length data) available in
  let m := copy_bytes target source (take (Z.to_nat length) data) m in
  let a := ma_accumulator m in
  let m := with_accumulator (set_frame_used (fa_frame_used a +64 length) a) m in
  let a := ma_accumulator m in
  let '(status, m) :=
    if fa_frame_used a =? fa_frame_size a then iree_net_frame_accumulator_complete_frame m else (IREE_STATUS_OK, m) in
  advance_cursor status source data length m.

(** The check at the end of the other branches. *)
Definition complete_if_full (c : cursor) : cursor :=
  let a := ma_accumulator (cu_machine c) in
  if bool_decide (cu_status c = IREE_STATUS_OK) && negb (fa_frame_used a =? 0) && (fa_frame_used a =? fa_frame_size a) then
    let '(status, m) := iree_net_frame_accumulator_complete_frame (cu_machine c) in
    mk_cursor status (cu_source c) (cu_data c) m
  else c.

(** A header that starts and ends in the input. *)
Definition process_whole_header (source : pointer O) (data : list Z) (m : machine) : cursor :=
  let header_size := ac_header_size cfg in
  let stay status m := mk_cursor status source data m in
  match iree_net_frame_accumulator_begin_frame (take (Z.to_nat header_size) data) m with
  | (IREE_STATUS_OK, m) =>
      let lookahead_size := header_size +64 fa_prefix_length (ma_accumulator m) in
      let capture (m : machine) :=
        let length := Z.min (byte_length data) lookahead_size in
        let m := copy_bytes (PointerHeader 0) source (take (Z.to_nat length) data) m in
        let m := with_accumulator (set_header_used length (ma_accumulator m)) m in
        let '(status, m) := if length =? lookahead_size then iree_net_frame_accumulator_begin_body m else (IREE_STATUS_OK, m) in
        complete_if_full (advance_cursor status source data length m) in
      if lookahead_size <=? byte_length data then
        match iree_net_frame_accumulator_match_receive data m with
        | (IREE_STATUS_OK, m) =>
            let a := ma_accumulator m in
            if bool_decide (fa_receive_operation a = None) && (fa_frame_size a <=? byte_length data) then
              let frame := take (Z.to_nat (fa_frame_size a)) data in
              let frame_lease := if fa_frame_size a =? byte_length data then ma_input m else None in
              let m := with_accumulator (iree_net_frame_accumulator_clear_frame a) m in
              let '(status, lease, m) := deliver_frame frame frame_lease m in
              let m := if fa_frame_size a =? byte_length data then with_input lease m else m in
              advance_cursor status source data (fa_frame_size a) m
            else capture m
        | (status, m) => stay status m
        end
      else capture m
  | (status, m) => stay status m
  end.

(** After bytes were collected: the header may now resolve, and the prefix be complete. *)
Definition finish_header (m : machine) : outcome :=
  let header_size := ac_header_size cfg in
  let a := ma_accumulator m in
  let '(status, m) :=
    if (fa_frame_size a =? 0) && (fa_header_used a =? header_size)
    then iree_net_frame_accumulator_begin_frame (take (Z.to_nat header_size) (fa_header a)) m else (IREE_STATUS_OK, m) in
  let a := ma_accumulator m in
  if bool_decide (status = IREE_STATUS_OK) && negb (fa_frame_size a =? 0) && (fa_header_used a =? header_size +64 fa_prefix_length a)
  then
    match iree_net_frame_accumulator_match_receive (fa_header a) m with
    | (IREE_STATUS_OK, m) => iree_net_frame_accumulator_begin_body m
    | r => r
    end
  else (status, m).

(** A header or prefix that is collected in the accumulator. *)
Definition process_header_bytes (source : pointer O) (data : list Z) (m : machine) : cursor :=
  let header_size := ac_header_size cfg in
  let a := ma_accumulator m in
  let lookahead_size := if fa_frame_size a =? 0 then header_size else header_size +64 fa_prefix_length a in
  let length := Z.min (byte_length data) (lookahead_size -64 fa_header_used a) in
  let m := copy_bytes (PointerHeader (fa_header_used a)) source (take (Z.to_nat length) data) m in
  let m := with_accumulator (set_header_used (fa_header_used a +64 length) (ma_accumulator m)) m in
  let '(status, m) := finish_header m in
  complete_if_full (advance_cursor status source data length m).

(** One iteration of the loop of [process]. *)
Definition process_iteration (source : pointer O) (data : list Z) (m : machine) : cursor :=
  let a := ma_accumulator m in
  if negb (fa_frame_used a =? 0) then process_frame_bytes source data m
  else if (fa_frame_size a =? 0) && (fa_header_used a =? 0) && (ac_header_size cfg <=? byte_length data) then
    process_whole_header source data m
  else process_header_bytes source data m.

(** [None] when the fuel runs out; every iteration that succeeds consumes a byte. *)
Fixpoint process_loop (fuel : nat) (source : pointer O) (data : list Z) (m : machine) : option outcome :=
  match data with
  | [] => Some (IREE_STATUS_OK, m)
  | _ =>
      match fuel with
      | 0%nat => None
      | S fuel =>
          let c := process_iteration source data m in
          if bool_decide (cu_status c = IREE_STATUS_OK) then process_loop fuel (cu_source c) (cu_data c) (cu_machine c)
          else Some (cu_status c, cu_machine c)
      end
  end.

Definition iree_net_frame_accumulator_process (span : carrier_span O) (m : machine) : option outcome :=
  if byte_length (cs_bytes span) =? 0 then Some (IREE_STATUS_OK, m)
  else if negb (iree_async_span_is_cpu_accessible span) then Some (IREE_STATUS_FAILED_PRECONDITION, m)
  else if span_is_null span then Some (IREE_STATUS_INVALID_ARGUMENT, m)
  else process_loop (length (cs_bytes span)) (cs_pointer span) (cs_bytes span) m.

Definition iree_net_frame_accumulator_abort (status : iree_status_code) (m : machine) : machine :=
  let a := ma_accumulator m in
  let operation := fa_receive_operation a in
  let bytes_transferred :=
    match operation with Some _ => fa_frame_used a -64 ac_header_size cfg -64 fa_prefix_length a | None => 0 end in
  let m := iree_async_buffer_lease_release (bl_storage <$> fa_frame_lease a) m in
  let m := with_accumulator (iree_net_frame_accumulator_clear_frame a) m in
  match operation with
  | Some o =>
      record_call (CallComplete o status bytes_transferred (operation_prefix o (ma_world m)) (placed_frame a o (ma_world m)))
        (with_world (queue_complete o status bytes_transferred (ma_world m)) m)
  | None => m
  end.

Definition iree_net_frame_accumulator_reset (m : machine) : machine :=
  let a := ma_accumulator m in
  match fa_receive_operation a with
  | Some _ => iree_net_frame_accumulator_abort IREE_STATUS_CANCELLED m
  | None =>
      with_accumulator (iree_net_frame_accumulator_clear_frame a)
        (iree_async_buffer_lease_release (bl_storage <$> fa_frame_lease a) m)
  end.

Definition iree_net_frame_accumulator_push_span (span : carrier_span O) (m : machine) : option outcome :=
  iree_net_frame_accumulator_process span (with_input None m).

(** The lease is released on every path unless the frame callback moved it. *)
Definition iree_net_frame_accumulator_push_lease (span : carrier_span O) (lease : carrier_lease) (m : machine) :
    option outcome :=
  let m := with_input (Some (cl_storage lease)) m in
  let release (r : outcome) := let '(status, m) := r in (status, with_input None (iree_async_buffer_lease_release (ma_input m) m)) in
  let relative_offset := cs_offset span -64 cl_offset lease in
  if negb (bool_decide (cs_region span = cl_region lease)) || (cs_offset span <? cl_offset lease)
     || (cl_length lease <? relative_offset) || (cl_length lease -64 relative_offset <? byte_length (cs_bytes span))
  then Some (release (IREE_STATUS_OUT_OF_RANGE, m))
  else release <$> iree_net_frame_accumulator_process span m.

Definition iree_net_frame_accumulator_buffered_bytes (a : accumulator) : Z := fa_header_used a +64 fa_frame_used a.

Definition iree_net_frame_accumulator_has_partial_frame (a : accumulator) : bool :=
  0 <? iree_net_frame_accumulator_buffered_bytes a.

End accumulator.

(** [sizeof(iree_net_frame_accumulator_t)] is a parameter. *)
Definition iree_net_frame_accumulator_calculate_storage_size (accumulator_size header_size : Z) : status_or Z :=
  match iree_host_size_checked_add header_size IREE_NET_MESSAGE_RECEIVE_PREFIX_CAPACITY with
  | None => Err IREE_STATUS_OUT_OF_RANGE
  | Some lookahead_size =>
      '(_, total_size) ← iree_struct_layout_calculate accumulator_size [Build_iree_struct_field_t lookahead_size 1 1 1];
      Ok total_size
  end.

(** [has_length] and [has_callback] are whether the function pointers are set; [storage] is
    what the flexible array held before. *)
Definition iree_net_frame_accumulator_initialize {W Q O} (has_length has_callback : bool) (cfg : accumulator_config W Q)
    (storage : list Z) : status_or (iree_net_frame_accumulator_t Q O) :=
  if ac_max_frame_size cfg =? 0 then Err IREE_STATUS_INVALID_ARGUMENT
  else if negb has_length || (ac_header_size cfg =? 0) || negb has_callback then Err IREE_STATUS_INVALID_ARGUMENT
  else if ac_max_frame_size cfg <? ac_header_size cfg then Err IREE_STATUS_INVALID_ARGUMENT
  else Ok (mk_frame_accumulator 0 0 None None 0 0 None storage).

Definition iree_net_frame_accumulator_set_receive_router {W Q} (router : option (list Z → option Q))
    (cfg : accumulator_config W Q) : accumulator_config W Q :=
  mk_accumulator_config (ac_frame_length cfg) (ac_header_size cfg) (ac_on_frame_complete cfg) router (ac_host_allocate cfg)
    (ac_release cfg) (ac_max_frame_size cfg).
