(* ===== verification/FrameInvariant.v ===== *)
(** * The invariant of frame reassembly

    What the accumulator of [FrameAccumulator] relies on ([CursorLaws], [config_ok]), the
    invariant of its three phases, the bytes it holds, and how one iteration of its loop
    turns held and incoming bytes into frames. *)

From S2P Require Import Prelude BaseMath EndpointLifecycle ReceiveQueue FrameAccumulator.
From stdpp Require Import base numbers list.

Local Open Scope Z_scope.
Local Open Scope machine_scope.

(** ** Bytes *)

Lemma length_write_bytes offset bytes target :
  (offset + length bytes <= length target)%nat → length (write_bytes offset bytes target) = length target.
Proof. intros H. unfold write_bytes. rewrite !length_app, length_take, length_drop. lia. Qed.

Lemma take_write_bytes offset bytes target :
  (offset + length bytes <= length target)%nat →
  take (offset + length bytes) (write_bytes offset bytes target) = take offset target ++ bytes.
Proof.
  intros H. unfold write_bytes. rewrite app_assoc. rewrite take_app_le by (rewrite length_app, length_take; lia).
  apply take_ge. rewrite length_app, length_take. lia.
Qed.

Lemma take_write_bytes_before n offset bytes target :
  (n <= offset)%nat → (offset + length bytes <= length target)%nat → take n (write_bytes offset bytes target) = take n target.
Proof.
  intros Hn H. unfold write_bytes. rewrite take_app_le by (rewrite length_take; lia). rewrite take_take. f_equal. lia.
Qed.

Lemma write_bytes_same offset bytes target :
  take (length bytes) (drop offset target) = bytes → write_bytes offset bytes target = target.
Proof.
  intros H. unfold write_bytes. rewrite <- H at 1. rewrite <- drop_drop. by rewrite take_drop, take_drop.
Qed.

Lemma byte_length_nonneg bytes : 0 <= byte_length bytes.
Proof. unfold byte_length. lia. Qed.

Lemma byte_length_app a b : byte_length (a ++ b) = byte_length a + byte_length b.
Proof. unfold byte_length. rewrite length_app. lia. Qed.

Lemma length_byte_length bytes : length bytes = Z.to_nat (byte_length bytes).
Proof. unfold byte_length. lia. Qed.

Lemma span_slice_take offset n k bytes :
  0 <= offset → 0 <= n → offset + n <= k → span_slice offset n (take (Z.to_nat k) bytes) = span_slice offset n bytes.
Proof. intros. unfold span_slice. rewrite !take_drop_commute, take_take. do 2 f_equal. lia. Qed.

Lemma byte_length_take n bytes : 0 <= n <= byte_length bytes → byte_length (take (Z.to_nat n) bytes) = n.
Proof. unfold byte_length. rewrite length_take. lia. Qed.

(** ** Assumptions *)

(** The promises of receive queues to the cursor that reads the stream: what others do
    ([interferes]) leaves the operation it owns alone. *)
Class CursorLaws (W Q O : Type) `{RQ : ReceiveQueues W Q O} := mk_cursor_laws {
  cursor_owns : W → option O → Prop;
  interferes : W → W → Prop;
  interferes_law w w' cur :
    interferes w w' → cursor_owns w cur →
    cursor_owns w' cur ∧
    ∀ o, cur = Some o → operation_data o w' = operation_data o w ∧ operation_prefix o w' = operation_prefix o w;
  prefix_length_law q w n w' :
    cursor_owns w None → queue_prefix_length q w = (n, w') →
    cursor_owns w' None ∧ 0 <= n <= IREE_NET_MESSAGE_RECEIVE_PREFIX_CAPACITY;
  match_law q prefix n w r w' :
    cursor_owns w None → queue_match q prefix n w = (r, w') →
    match r with
    | Ok (Some o) => cursor_owns w' (Some o) ∧ operation_length o w' = n ∧ operation_prefix o w' = prefix
    | Ok None => cursor_owns w' None
    | Err code => cursor_owns w' None ∧ code ≠ IREE_STATUS_OK
    end;
  length_law w o : cursor_owns w (Some o) → byte_length (operation_data o w) = operation_length o w;
  write_law w o offset bytes :
    cursor_owns w (Some o) → Z.of_nat offset + byte_length bytes <= operation_length o w →
    cursor_owns (operation_write o offset bytes w) (Some o) ∧
    operation_data o (operation_write o offset bytes w) = write_bytes offset bytes (operation_data o w) ∧
    operation_prefix o (operation_write o offset bytes w) = operation_prefix o w;
  complete_law w o status n : cursor_owns w (Some o) → cursor_owns (queue_complete o status n w) None;
}.

Section invariant.
Context {W Q O : Type} `{RQ : ReceiveQueues W Q O} `{!CursorLaws W Q O} `{EqDecision O}.

(** A configuration with valid sizes, a host allocator that returns blocks of the requested
    size, and callbacks that respect the operation the cursor owns. *)
Record config_ok (cfg : accumulator_config W Q) : Prop := mk_config_ok {
  co_sizes : 0 < ac_header_size cfg <= ac_max_frame_size cfg;
  co_width : in_width 64 (ac_max_frame_size cfg);
  co_length header : match ac_frame_length cfg header with Ok n => 0 <= n | Err code => code ≠ IREE_STATUS_OK end;
  co_frame frame lease w : interferes w (fr_world (ac_on_frame_complete cfg frame lease w));
  co_release storage w : interferes w (ac_release cfg storage w);
  co_allocate n w r w' : 0 <= n → ac_host_allocate cfg n w = (r, w') →
    interferes w w' ∧ match r with Ok (_, bytes) => byte_length bytes = n | Err code => code ≠ IREE_STATUS_OK end;
}.

Context (cfg : accumulator_config W Q) (Hcfg : config_ok cfg).

Notation accumulator := (iree_net_frame_accumulator_t Q O).
Notation machine := (machine W Q O).
Notation header_size := (ac_header_size cfg).

(** ** Phases *)

Definition lookahead (a : accumulator) : Z := header_size + fa_prefix_length a.

(** Nothing of a frame is known beyond fewer bytes than a header. *)
Definition in_header (a : accumulator) : Prop :=
  fa_frame_size a = 0 ∧ 0 <= fa_header_used a < header_size ∧ fa_prefix_length a = 0 ∧ fa_frame_used a = 0 ∧
  fa_receive_operation a = None ∧ fa_frame_lease a = None ∧ fa_receive_queue a = None.

(** The sizes of a frame whose length is resolved. *)
Definition sized (a : accumulator) : Prop :=
  header_size <= fa_frame_size a <= ac_max_frame_size cfg ∧
  0 <= fa_prefix_length a <= IREE_NET_MESSAGE_RECEIVE_PREFIX_CAPACITY ∧ lookahead a <= fa_frame_size a.

(** The header is complete and its length resolved. *)
Definition resolved (a : accumulator) : Prop :=
  resolve_frame_size cfg (take (Z.to_nat header_size) (fa_header a)) = Ok (fa_frame_size a) ∧ sized a.

Definition in_prefix (a : accumulator) : Prop :=
  resolved a ∧ header_size <= fa_header_used a < lookahead a ∧ fa_frame_used a = 0 ∧ fa_receive_operation a = None ∧
  fa_frame_lease a = None.

(** The prefix of the frame, between the header and the body. *)
Definition frame_prefix (a : accumulator) (bytes : list Z) : list Z := span_slice header_size (fa_prefix_length a) bytes.

(** An operation that was matched: its destination is as long as the body, and the frame
    has its prefix. *)
Definition matched (a : accumulator) (w : W) (o : O) (bytes : list Z) : Prop :=
  operation_length o w = fa_frame_size a - lookahead a ∧ operation_prefix o w = frame_prefix a bytes.

(** The storage of a body: the destination, or a lease that starts with the header. *)
Definition body_storage (a : accumulator) (w : W) : Prop :=
  match fa_receive_operation a with
  | Some o => fa_frame_lease a = None ∧ matched a w o (fa_header a)
  | None => ∃ l, fa_frame_lease a = Some l ∧ byte_length (bl_bytes l) = fa_frame_size a ∧
      take (Z.to_nat (lookahead a)) (bl_bytes l) = take (Z.to_nat (lookahead a)) (fa_header a)
  end.

(** A body of which all bytes may have arrived. *)
Definition in_body (a : accumulator) (w : W) : Prop :=
  resolved a ∧ fa_header_used a = 0 ∧ lookahead a <= fa_frame_used a <= fa_frame_size a ∧ body_storage a w.

Definition header_storage (a : accumulator) : Prop :=
  byte_length (fa_header a) = header_size + IREE_NET_MESSAGE_RECEIVE_PREFIX_CAPACITY.

Record accumulator_ok (a : accumulator) (w : W) : Prop := mk_accumulator_ok {
  ao_header : header_storage a;
  ao_owns : cursor_owns w (fa_receive_operation a);
  ao_phase : in_header a ∨ in_prefix a ∨ (in_body a w ∧ fa_frame_used a < fa_frame_size a);
}.

(** The bytes of the frame under way. *)
Definition held_bytes (a : accumulator) (w : W) : list Z :=
  if fa_frame_used a =? 0 then take (Z.to_nat (fa_header_used a)) (fa_header a)
  else
    match fa_receive_operation a, fa_frame_lease a with
    | Some o, _ =>
        take (Z.to_nat (lookahead a)) (fa_header a) ++ take (Z.to_nat (fa_frame_used a - lookahead a)) (operation_data o w)
    | None, Some l => take (Z.to_nat (fa_frame_used a)) (bl_bytes l)
    | None, None => []
    end.

(** A frame of the stream: a header that gives its length, and what follows. *)
Definition frame_valid (frame : list Z) : Prop :=
  header_size <= byte_length frame ∧ resolve_frame_size cfg (take (Z.to_nat header_size) frame) = Ok (byte_length frame).

(** The frames that were delivered or placed. *)
Definition frames (calls : list (accumulator_call O)) : list (list Z) :=
  omap (λ c, match c with
    | CallFrame frame _ _ => Some frame
    | CallComplete _ IREE_STATUS_OK _ _ frame => Some frame
    | _ => None
    end) calls.

(** A call with a frame: the frame is one of the stream, and an operation that is returned
    has the body of a frame with its prefix. *)
Definition call_ok (c : accumulator_call O) : Prop :=
  match c with
  | CallFrame frame _ _ => frame_valid frame
  | CallComplete _ IREE_STATUS_OK n prefix frame =>
      frame_valid frame ∧ byte_length frame = header_size + byte_length prefix + n ∧
      span_slice header_size (byte_length prefix) frame = prefix
  | _ => True
  end.

Lemma calls_frames_valid calls : Forall call_ok calls → Forall frame_valid (frames calls).
Proof.
  induction 1 as [|c calls Hc _ IH]; [constructor|]. destruct c as [| | |]; cbn in *; try done; [by constructor|].
  destruct status; try done. constructor; [apply Hc|done].
Qed.

Lemma no_frames_ok calls : frames calls = [] → Forall call_ok calls.
Proof.
  induction calls as [|c calls IH]; intros E; [constructor|].
  destruct c as [| | |]; cbn in E; [done| |by constructor; auto..]. destruct status; try done; constructor; auto; done.
Qed.

Lemma frames_app calls calls' : frames (calls ++ calls') = frames calls ++ frames calls'.
Proof. apply omap_app. Qed.

(** ** The parts of an iteration *)

Lemma resolve_frame_size_spec header :
  match resolve_frame_size cfg header with
  | Ok n => 0 < n ∧ byte_length header <= n <= ac_max_frame_size cfg
  | Err code => code ≠ IREE_STATUS_OK
  end.
Proof.
  unfold resolve_frame_size. pose proof (co_length _ Hcfg header) as Hl. destruct (ac_frame_length cfg header) as [n|code]; [|done].
  cbn. destruct (Z.eqb_spec n 0); [done|]. destruct (Z.ltb_spec n (byte_length header)); [done|].
  destruct (Z.ltb_spec (ac_max_frame_size cfg) n); [done|]. lia.
Qed.

(** Failures that come from the callbacks, the queues or the host. *)
Definition external_failure (code : iree_status_code) : Prop :=
  (∃ frame lease w, fr_status (ac_on_frame_complete cfg frame lease w) = code) ∨
  (∃ q prefix n w, (queue_match q prefix n w).1 = Err code) ∨
  (∃ n (m : machine), (iree_net_buffer_lease_allocate cfg n m).1 = Err code).

Lemma begin_frame_spec header (m : machine) st m' :
  byte_length header = header_size → cursor_owns (ma_world m) None →
  iree_net_frame_accumulator_begin_frame cfg header m = (st, m') →
  (st ≠ IREE_STATUS_OK ∧ resolve_frame_size cfg header = Err st ∧ m' = m) ∨
  (st = IREE_STATUS_OK ∧ ∃ n prefix_length queue w, resolve_frame_size cfg header = Ok n ∧
    m' = with_world w (with_accumulator (mk_frame_accumulator (fa_header_used (ma_accumulator m)) prefix_length queue
      (fa_receive_operation (ma_accumulator m)) n (fa_frame_used (ma_accumulator m)) (fa_frame_lease (ma_accumulator m))
      (fa_header (ma_accumulator m))) m) ∧
    cursor_owns w None ∧ header_size <= n <= ac_max_frame_size cfg ∧
    0 <= prefix_length <= IREE_NET_MESSAGE_RECEIVE_PREFIX_CAPACITY ∧ header_size + prefix_length <= n).
Proof.
  intros Hlen Hown. unfold iree_net_frame_accumulator_begin_frame. pose proof (resolve_frame_size_spec header) as Hr.
  destruct (resolve_frame_size cfg header) as [n|code]; [|intros [= <- <-]; by left]. intros E. right.
  destruct Hr as [Hn Hle]. rewrite Hlen in *. pose proof (co_width _ Hcfg) as [_ Hw]. pose proof (co_sizes _ Hcfg).
  assert (n -64 header_size = n - header_size) as Hsub by (apply usub_small; unfold in_width; lia). rewrite Hsub in E.
  destruct (ac_receive_router cfg ≫= _) as [q|].
  - destruct (queue_prefix_length q (ma_world m)) as [k w] eqn:Eq. destruct (prefix_length_law _ _ _ _ Hown Eq) as [Hown' Hk].
    injection E as <- <-. split; [done|]. exists n, (Z.min k (n - header_size)), (Some q), w. repeat (split; [done || lia|]). lia.
  - injection E as <- <-. split; [done|]. exists n, 0, None, (ma_world m). unfold IREE_NET_MESSAGE_RECEIVE_PREFIX_CAPACITY.
    repeat (split; [done || lia|]). lia.
Qed.

Lemma match_receive_spec bytes (m : machine) st m' :
  let a := ma_accumulator m in
  sized a → fa_receive_operation a = None → cursor_owns (ma_world m) None →
  iree_net_frame_accumulator_match_receive cfg bytes m = (st, m') →
  ∃ op w, m' = with_world w (with_accumulator (set_receive_operation op a) m) ∧ cursor_owns w op ∧
    (∀ o, op = Some o → matched a w o bytes) ∧
    (st ≠ IREE_STATUS_OK → op = None ∧ external_failure st).
Proof.
  intros a (Hn & Hp & Hl) Hop Hown. unfold iree_net_frame_accumulator_match_receive. fold a. unfold lookahead in *.
  pose proof (co_width _ Hcfg) as [_ Hw]. pose proof (co_sizes _ Hcfg).
  destruct (fa_receive_queue a) as [q|] eqn:Eq.
  2: { intros [= <- <-]. exists None, (ma_world m). split; [|done]. subst a. destruct m as [a w i c], a. cbn in *. by subst. }
  assert (fa_frame_size a -64 header_size -64 fa_prefix_length a = fa_frame_size a - (header_size + fa_prefix_length a)) as ->.
  { rewrite (usub_small 64 (fa_frame_size a)) by (unfold in_width; lia). rewrite usub_small by (unfold in_width; lia). lia. }
  destruct (queue_match q _ _ (ma_world m)) as [r w] eqn:Em. pose proof (match_law _ _ _ _ _ _ Hown Em) as Hm.
  destruct r as [[o|]|code]; intros [= <- <-].
  - destruct Hm as (Hown' & Hlen & Hpre). exists (Some o), w. split; [done|]. split; [done|]. split; [|done]. by intros o' [= <-].
  - exists None, w. done.
  - destruct Hm as [Hown' Hne]. exists None, w. do 3 (split; [done|]). intros _. split; [done|]. right. left.
    by do 4 eexists; rewrite Em.
Qed.

Lemma lease_layout n :
  0 < n <= ac_max_frame_size cfg →
  iree_struct_layout_calculate lease_storage_size [Build_iree_struct_field_t n 1 1 1] =
    if decide (16 + n < 2 ^ 64) then Ok ([16], 16 + n) else Err IREE_STATUS_OUT_OF_RANGE.
Proof.
  intros Hn. pose proof (co_width _ Hcfg) as [_ Hw]. unfold iree_struct_layout_calculate. rewrite struct_layout_loop_eq.
  - assert (field_offset lease_storage_size (Build_iree_struct_field_t n 1 1 1) = 16) as Ho by done.
    assert (field_size (Build_iree_struct_field_t n 1 1 1) = n) as Hs by (unfold field_size; cbn; lia).
    destruct (decide (layout_fits _ _)) as [Hf|Hf]; cbn [layout_spec layout_fits field_count0 field_count1] in Hf |- *; rewrite Ho, Hs in *.
    + by rewrite decide_True by lia.
    + rewrite decide_False; [done|]. intros ?. apply Hf. lia.
  - done.
  - constructor; [|constructor]. unfold field_ok, in_width. cbn. do 3 (split; [lia|]). right. by exists 0.
Qed.

Lemma lease_allocate_spec n (m : machine) r m' :
  0 < n <= ac_max_frame_size cfg → iree_net_buffer_lease_allocate cfg n m = (r, m') →
  ∃ w, (w = ma_world m ∨ interferes (ma_world m) w) ∧
  match r with
  | Ok l => byte_length (bl_bytes l) = n ∧ m' = record_call (CallAllocate (bl_storage l)) (with_world w m)
  | Err code => code ≠ IREE_STATUS_OK ∧ m' = with_world w m
  end.
Proof.
  intros Hn. unfold iree_net_buffer_lease_allocate. destruct (Z.eqb_spec n 0); [lia|]. rewrite lease_layout by done.
  case_decide. 2: { intros [= <- <-]. exists (ma_world m). split; [by left|]. split; [done|]. by destruct m. }
  destruct (ac_host_allocate cfg _ _) as [r0 w] eqn:E. destruct (co_allocate _ Hcfg (16 + n) _ _ _ ltac:(lia) E) as [Hi Hb].
  destruct r0 as [[storage bytes]|code]; intros [= <- <-]; exists w; (split; [by right|]); [|done]. split; [|done].
  cbn [bl_bytes]. unfold span_slice. rewrite byte_length_take; [done|]. unfold byte_length in *. rewrite length_drop. unfold lease_storage_size. lia.
Qed.

Lemma take_header a (bytes bytes' : list Z) :
  sized a → take (Z.to_nat (lookahead a)) bytes = take (Z.to_nat (lookahead a)) bytes' →
  take (Z.to_nat header_size) bytes = take (Z.to_nat header_size) bytes'.
Proof.
  intros (_ & Hp & _) E. pose proof (co_sizes _ Hcfg).
  assert (∀ l : list Z, take (Z.to_nat header_size) l = take (Z.to_nat header_size) (take (Z.to_nat (lookahead a)) l)) as Ht
    by (intros l; rewrite take_take; f_equal; unfold lookahead; lia).
  by rewrite Ht, E, <- Ht.
Qed.

(** Matching looks at the header and the prefix only. *)
Lemma matched_take a w o bytes bytes' :
  sized a → take (Z.to_nat (lookahead a)) bytes' = take (Z.to_nat (lookahead a)) bytes → matched a w o bytes → matched a w o bytes'.
Proof.
  intros (_ & Hp & _) E [Hl Hpre]. split; [done|]. rewrite Hpre. unfold frame_prefix. pose proof (co_sizes _ Hcfg). unfold lookahead in E.
  rewrite <- (span_slice_take header_size _ (header_size + fa_prefix_length a)) by lia. rewrite <- E. apply span_slice_take; lia.
Qed.

(** An operation that the cursor owns, if any, with its body under way. *)
Definition abort_safe (a : accumulator) (w : W) : Prop :=
  header_storage a ∧ cursor_owns w (fa_receive_operation a) ∧ (fa_receive_operation a ≠ None → in_body a w).

Lemma owns_step w w' cur : w' = w ∨ interferes w w' → cursor_owns w cur → cursor_owns w' cur.
Proof. intros [->|Hi] Hc; [done|]. by apply (interferes_law _ _ _ Hi) in Hc as [? _]. Qed.

(** The facts of an accumulator whose header and prefix are complete. *)
Definition body_ready (a : accumulator) (w : W) : Prop :=
  header_storage a ∧ resolved a ∧ fa_header_used a = lookahead a ∧ fa_frame_used a = 0 ∧ fa_frame_lease a = None ∧
  cursor_owns w (fa_receive_operation a) ∧
  ∀ o, fa_receive_operation a = Some o → matched a w o (fa_header a).

Lemma begin_body_spec (m : machine) st m' :
  let a := ma_accumulator m in
  body_ready a (ma_world m) → iree_net_frame_accumulator_begin_body cfg m = (st, m') →
  let a' := ma_accumulator m' in
  ∃ new, ma_calls m' = ma_calls m ++ new ∧ frames new = [] ∧ ma_input m' = ma_input m ∧
    abort_safe a' (ma_world m') ∧
    if bool_decide (st = IREE_STATUS_OK)
    then header_storage a' ∧ cursor_owns (ma_world m') (fa_receive_operation a') ∧ in_body a' (ma_world m') ∧
      held_bytes a' (ma_world m') = take (Z.to_nat (lookahead a)) (fa_header a)
    else external_failure st.
Proof.
  intros a (Hh & Hr & Hu & Hf & Hl & Hown & Hop). pose proof Hr as (Hres & Hn & Hp & Hle). pose proof (co_sizes _ Hcfg).
  assert (0 < lookahead a) as Hpos by (unfold lookahead; lia).
  unfold iree_net_frame_accumulator_begin_body. fold a. destruct (fa_receive_operation a) as [o|] eqn:Eo.
  - intros [= <- <-]. exists []. rewrite app_nil_r. cbn. do 3 (split; [done|]). fold a.
    assert (in_body (set_header_used 0 (set_frame_used (fa_header_used a) a)) (ma_world m)) as Hb.
    { split; [done|]. split; [done|]. unfold lookahead in *. cbn. split; [lia|]. unfold body_storage. cbn. rewrite Eo.
      split; [done|]. exact (Hop o eq_refl). }
    split; [split; cbn; by rewrite ?Eo|]. do 2 (split; [by rewrite ?Eo|]). split; [done|].
    unfold held_bytes. cbn. rewrite Eo, Hu. destruct (Z.eqb_spec (lookahead a) 0); [lia|]. unfold lookahead. cbn.
    by rewrite Z.sub_diag, app_nil_r.
  - destruct (iree_net_buffer_lease_allocate cfg (fa_frame_size a) m) as [r m1] eqn:E.
    assert (0 < fa_frame_size a <= ac_max_frame_size cfg) as Hsize by lia.
    destruct (lease_allocate_spec _ _ _ _ Hsize E) as (w & Hw & Hcase). pose proof (owns_step _ _ _ Hw Hown) as Hown'.
    destruct r as [l|code]; destruct Hcase as [Hlen ->]; intros [= <- <-].
    + exists [CallAllocate (bl_storage l)]. cbn. do 3 (split; [done|]). fold a. set (copied := take (Z.to_nat (fa_header_used a)) (fa_header a)).
      assert (length copied = Z.to_nat (lookahead a)) as Hc.
      { unfold copied. rewrite length_take, Hu. unfold header_storage, byte_length, lookahead in *. lia. }
      assert (0 + length copied <= length (bl_bytes l))%nat as Hfit by (unfold byte_length in Hlen; lia).
      assert (take (Z.to_nat (lookahead a)) (write_bytes 0 copied (bl_bytes l)) = copied) as Ht
        by (rewrite <- Hc; exact (take_write_bytes 0 copied (bl_bytes l) Hfit)).
      set (a' := set_header_used 0 _). assert (in_body a' w) as Hb.
      { split; [done|]. split; [done|]. split; [cbn; unfold lookahead in *; cbn; lia|]. unfold body_storage. cbn. rewrite Eo. eexists. split; [done|].
        cbn. split; [unfold byte_length; by rewrite length_write_bytes|]. etrans; [exact Ht|]. unfold copied. by rewrite Hu. }
      split; [split; cbn; by rewrite ?Eo|]. split; [done|]. split; [cbn; by rewrite Eo|]. split; [done|].
      unfold held_bytes. cbn. rewrite Eo, Hu. destruct (Z.eqb_spec (lookahead a) 0); [lia|]. rewrite Ht. unfold copied. by rewrite Hu.
    + exists []. rewrite app_nil_r. cbn. do 3 (split; [done|]). split; [by split|]. rewrite bool_decide_eq_false_2 by done.
      right. right. exists (fa_frame_size a), m. by rewrite E.
Qed.

Lemma lookahead_add a : sized a → header_size +64 fa_prefix_length a = lookahead a.
Proof.
  intros (Hn & Hp & Hl). pose proof (co_sizes _ Hcfg). pose proof (co_width _ Hcfg) as [_ Hw]. unfold lookahead in *. apply uadd_small. lia.
Qed.

(** The bytes held in the body phase start with the header and the prefix, and are as many as
    were used. *)
Lemma held_body a w :
  header_storage a → cursor_owns w (fa_receive_operation a) → in_body a w →
  byte_length (held_bytes a w) = fa_frame_used a ∧
  take (Z.to_nat (lookahead a)) (held_bytes a w) = take (Z.to_nat (lookahead a)) (fa_header a).
Proof.
  intros Hh Hown (Hr & Hu & Hf & Hs). destruct Hr as (_ & Hn & Hp & Hl). pose proof (co_sizes _ Hcfg).
  unfold held_bytes, body_storage, header_storage, lookahead, byte_length in *.
  destruct (Z.eqb_spec (fa_frame_used a) 0); [lia|]. destruct (fa_receive_operation a) as [o|].
  - destruct Hs as [_ [Hlen _]]. pose proof (length_law _ _ Hown) as Hd. unfold byte_length, lookahead in *. split.
    + rewrite length_app, !length_take. lia.
    + rewrite take_app_le by (rewrite length_take; lia). rewrite take_take. f_equal. lia.
  - destruct Hs as (l & -> & Hlen & Ht). split; [rewrite length_take; lia|]. by rewrite take_take, Nat.min_l by lia.
Qed.

(** The frame of a full body, and what a matched operation has of it. *)
Lemma full_body a w :
  header_storage a → cursor_owns w (fa_receive_operation a) → in_body a w → fa_frame_used a = fa_frame_size a →
  frame_valid (held_bytes a w) ∧
  ∀ o, fa_receive_operation a = Some o →
    held_bytes a w = placed_frame cfg a o w ∧
    call_ok (CallComplete o IREE_STATUS_OK (operation_length o w) (operation_prefix o w) (held_bytes a w)).
Proof.
  intros Hh Hown Hb Hfull. destruct (held_body a _ Hh Hown Hb) as [Hlen Htake]. pose proof (co_sizes _ Hcfg).
  pose proof Hb as (Hr & Hu & Hf & Hs). pose proof Hr as (Hres & Hsz). pose proof Hsz as (Hn & Hp & Hl).
  assert (frame_valid (held_bytes a w)) as Hv.
  { unfold frame_valid. rewrite Hlen, Hfull, <- Hres. split; [lia|]. f_equal.
    by apply (take_header a). }
  split; [done|]. intros o Eo. unfold body_storage in Hs. rewrite Eo in Hs, Hown. destruct Hs as (_ & Hol & Hpre). split.
  - unfold placed_frame, held_bytes. rewrite Eo, (lookahead_add _ Hsz), Hfull. destruct (Z.eqb_spec (fa_frame_size a) 0); [lia|].
    f_equal. apply take_ge. rewrite length_byte_length, (length_law _ _ Hown). lia.
  - assert (byte_length (operation_prefix o w) = fa_prefix_length a) as Hpl.
    { rewrite Hpre. apply byte_length_take. unfold header_storage, byte_length in *. rewrite length_drop. lia. }
    split; [done|]. rewrite Hpl, Hlen, Hfull, Hol. unfold lookahead in *. split; [lia|]. rewrite Hpre. unfold frame_prefix.
    rewrite <- (span_slice_take _ _ (header_size + fa_prefix_length a)) by lia. rewrite Htake. apply span_slice_take; lia.
Qed.

Lemma complete_frame_spec (m : machine) st m' :
  let a := ma_accumulator m in
  header_storage a → cursor_owns (ma_world m) (fa_receive_operation a) → in_body a (ma_world m) → fa_frame_used a = fa_frame_size a →
  iree_net_frame_accumulator_complete_frame cfg m = (st, m') →
  ∃ new, ma_calls m' = ma_calls m ++ new ∧ frames new = [held_bytes a (ma_world m)] ∧ Forall call_ok new ∧
    ma_input m' = ma_input m ∧ ma_accumulator m' = iree_net_frame_accumulator_clear_frame a ∧ cursor_owns (ma_world m') None ∧
    (st ≠ IREE_STATUS_OK → external_failure st).
Proof.
  intros a Hh Hown Hb Hfull. destruct (full_body a _ Hh Hown Hb Hfull) as [Hv Hplaced].
  pose proof Hb as (Hr & Hu & Hf & Hs). unfold iree_net_frame_accumulator_complete_frame. fold a.
  unfold body_storage in Hs. destruct (fa_receive_operation a) as [o|] eqn:Eo.
  - destruct (Hplaced o eq_refl) as [Hfr Hcall]. cbn [ma_world with_accumulator]. rewrite <- Hfr. intros [= <- <-]. eexists.
    split; [done|]. split; [done|]. split; [by constructor|]. do 2 (split; [done|]). split; [by apply complete_law|done].
  - destruct Hs as (l & El & Hl & Ht). rewrite El. cbn [fmap option_fmap option_map]. unfold deliver_frame. cbn [ma_world with_accumulator].
    assert (held_bytes a (ma_world m) = take (Z.to_nat (fa_frame_size a)) (bl_bytes l)) as Eframe.
    { unfold held_bytes. rewrite Eo, El, Hfull.
      destruct (Z.eqb_spec (fa_frame_size a) 0); [destruct Hr as (_ & ? & _); pose proof (co_sizes _ Hcfg); lia|done]. }
    rewrite <- Eframe. set (r := ac_on_frame_complete cfg _ _ _). pose proof (co_frame _ Hcfg (held_bytes a (ma_world m)) (Some (bl_storage l)) (ma_world m)) as Hi.
    fold r in Hi. pose proof (owns_step _ _ _ (or_intror Hi) Hown) as Hown'.
    assert (fr_status r ≠ IREE_STATUS_OK → external_failure (fr_status r)) as Hfail by (intros _; left; by eexists _, _, _).
    destruct (fr_moved r); intros [= <- <-].
    + eexists. split; [done|]. split; [done|]. split; [by repeat (constructor; try done)|]. by repeat (split; [done|]).
    + exists [CallFrame (held_bytes a (ma_world m)) (Some (bl_storage l)) false; CallRelease (bl_storage l)].
      split; [cbn; by rewrite <- app_assoc|]. split; [done|]. split; [by repeat (constructor; try done)|]. do 2 (split; [done|]). split; [|done].
      cbn. eapply owns_step; [right; apply (co_release _ Hcfg)|done].
Qed.

Lemma cleared_ok a w :
  header_storage a → cursor_owns w None →
  accumulator_ok (iree_net_frame_accumulator_clear_frame a) w ∧ held_bytes (iree_net_frame_accumulator_clear_frame a) w = [].
Proof.
  intros Hh Hown. pose proof (co_sizes _ Hcfg). split; [|done]. split; [done|done|]. left.
  repeat (split; [done || (cbn; lia)|]). done.
Qed.

(** Between the parts of an iteration a body may be complete. *)
Definition between_ok (a : accumulator) (w : W) : Prop :=
  header_storage a ∧ cursor_owns w (fa_receive_operation a) ∧ (in_header a ∨ in_prefix a ∨ in_body a w).

Lemma between_abort_safe a w : between_ok a w → abort_safe a w.
Proof.
  intros (Hh & Hown & Hph). split; [done|]. split; [done|]. intros Hne. destruct Hph as [Hp|[Hp|Hp]]; [destruct Hp as (_ & _ & _ & _ & ? & _)|
    destruct Hp as (_ & _ & _ & ? & _)|]; done.
Qed.

Lemma accumulator_between a w : accumulator_ok a w → between_ok a w.
Proof. intros [Hh Hown Hph]. split; [done|]. split; [done|]. tauto. Qed.

(** The new frames and what is held afterwards make up what was held before. *)
Definition yields (m : machine) (held : list Z) (st : iree_status_code) (m' : machine) : Prop :=
  ∃ new, ma_calls m' = ma_calls m ++ new ∧ Forall call_ok new ∧ ma_input m' = ma_input m ∧
    if bool_decide (st = IREE_STATUS_OK)
    then accumulator_ok (ma_accumulator m') (ma_world m') ∧
      concat (frames new) ++ held_bytes (ma_accumulator m') (ma_world m') = held
    else abort_safe (ma_accumulator m') (ma_world m') ∧ external_failure st ∧ ∃ rest, concat (frames new) ++ rest = held.

Definition full_frame (a : accumulator) : bool := negb (fa_frame_used a =? 0) && (fa_frame_used a =? fa_frame_size a).

Lemma complete_full_yields (m : machine) st m' :
  let a := ma_accumulator m in
  between_ok a (ma_world m) →
  (if full_frame a then iree_net_frame_accumulator_complete_frame cfg m else (IREE_STATUS_OK, m)) = (st, m') →
  yields m (held_bytes a (ma_world m)) st m'.
Proof.
  intros a Hbet. pose proof Hbet as (Hh & Hown & Hph). pose proof (co_sizes _ Hcfg). unfold full_frame.
  destruct (Z.eqb_spec (fa_frame_used a) 0) as [E0|E0]; cbn [negb andb].
  - intros [= <- <-]. exists []. rewrite app_nil_r. do 3 (split; [done|]). cbn. split; [|done]. split; [done|done|].
    destruct Hph as [Hp|[Hp|Hp]]; [by left|by right; left|]. destruct Hp as ((_ & ? & ? & _) & _ & ? & _). unfold lookahead in *. lia.
  - assert (in_body a (ma_world m)) as Hb.
    { destruct Hph as [(_ & _ & _ & ? & _)|[(_ & _ & ? & _)|Hb]]; [lia|lia|done]. }
    destruct (Z.eqb_spec (fa_frame_used a) (fa_frame_size a)) as [Ef|Ef]; intros E.
    + destruct (complete_frame_spec _ _ _ Hh Hown Hb Ef E) as (new & Hc & Hf & Hv & Hin & Hacc & Hown' & Hfail).
      destruct (cleared_ok a (ma_world m') Hh Hown') as [Hok Hheld]. fold a in Hacc, Hf. rewrite <- Hacc in Hok, Hheld.
      exists new. rewrite Hf. do 3 (split; [done|]). case_bool_decide as Es.
      * split; [done|]. rewrite Hheld. cbn. by rewrite !app_nil_r.
      * split; [by apply between_abort_safe, accumulator_between|]. split; [auto|]. exists []. cbn. by rewrite !app_nil_r.
    + injection E as <- <-. exists []. rewrite app_nil_r. do 3 (split; [done|]). cbn. split; [|done]. split; [done|done|]. right. right.
      split; [done|]. destruct Hb as (_ & _ & ? & _). fold a. lia.
Qed.

(** ** Copies *)

Definition stored (m : machine) (p : pointer O) (n : Z) : list Z :=
  match p with
  | PointerCarrier _ => []
  | PointerHeader offset => span_slice offset n (fa_header (ma_accumulator m))
  | PointerLease _ offset => match fa_frame_lease (ma_accumulator m) with Some l => span_slice offset n (bl_bytes l) | None => [] end
  | PointerBody o offset => span_slice offset n (operation_data o (ma_world m))
  end.

(** The source is outside the accumulator, or the bytes are already in the span that the
    accumulator offers. *)
Definition source_ok (source : pointer O) (data : list Z) (m : machine) : Prop :=
  let '(target, available) := iree_net_frame_accumulator_query_receive_buffer cfg (ma_accumulator m) in
  (∃ offset, source = PointerCarrier offset) ∨
  (source = target ∧ byte_length data <= available ∧ stored m target (byte_length data) = data).

Lemma copy_header offset source bytes (m : machine) :
  (source = PointerHeader offset → span_slice offset (byte_length bytes) (fa_header (ma_accumulator m)) = bytes) →
  copy_bytes (PointerHeader offset) source bytes m =
    with_accumulator (set_header (write_bytes (Z.to_nat offset) bytes (fa_header (ma_accumulator m))) (ma_accumulator m)) m.
Proof.
  intros Hs. unfold copy_bytes. case_decide as E; [|done]. specialize (Hs E). unfold span_slice in Hs.
  rewrite write_bytes_same by (by rewrite length_byte_length). destruct m as [a w i c], a. done.
Qed.

Lemma copy_lease l offset source bytes (m : machine) :
  fa_frame_lease (ma_accumulator m) = Some l →
  (source = PointerLease (bl_storage l) offset → span_slice offset (byte_length bytes) (bl_bytes l) = bytes) →
  copy_bytes (PointerLease (bl_storage l) offset) source bytes m =
    with_accumulator (set_frame_lease (Some (mk_buffer_lease (bl_storage l) (write_bytes (Z.to_nat offset) bytes (bl_bytes l))))
      (ma_accumulator m)) m.
Proof.
  intros El Hs. unfold copy_bytes. case_decide as E; [|cbn; by rewrite El]. specialize (Hs E). unfold span_slice in Hs.
  rewrite write_bytes_same by (by rewrite length_byte_length). destruct m as [a w i c], a, l. cbn in *. by subst.
Qed.

Lemma copy_body o offset source bytes (m : machine) :
  cursor_owns (ma_world m) (Some o) → 0 <= offset → offset + byte_length bytes <= operation_length o (ma_world m) →
  (source = PointerBody o offset → span_slice offset (byte_length bytes) (operation_data o (ma_world m)) = bytes) →
  ∃ w, copy_bytes (PointerBody o offset) source bytes m = with_world w m ∧ cursor_owns w (Some o) ∧
    operation_data o w = write_bytes (Z.to_nat offset) bytes (operation_data o (ma_world m)) ∧
    operation_prefix o w = operation_prefix o (ma_world m).
Proof.
  intros Hown Ho Hlen Hs. unfold copy_bytes. case_decide as E.
  - specialize (Hs E). unfold span_slice in Hs. exists (ma_world m). split; [by destruct m|]. split; [done|]. split; [|done].
    symmetry. apply write_bytes_same. by rewrite length_byte_length.
  - eexists. split; [done|]. apply write_law; [done|lia].
Qed.

(** ** One iteration *)

Notation cursor := (cursor (W := W) (Q := Q) (O := O)).

(** A successful iteration consumes input and keeps every byte; a failed one is explained by
    a callback, a queue, the host, or the header at the start of the remaining bytes. *)
Definition iteration_ok (m : machine) (data : list Z) (c : cursor) : Prop :=
  let held := held_bytes (ma_accumulator m) (ma_world m) in
  let m' := cu_machine c in
  ∃ new, ma_calls m' = ma_calls m ++ new ∧ Forall call_ok new ∧
    if bool_decide (cu_status c = IREE_STATUS_OK)
    then accumulator_ok (ma_accumulator m') (ma_world m') ∧ (length (cu_data c) < length data)%nat ∧
      concat (frames new) ++ held_bytes (ma_accumulator m') (ma_world m') ++ cu_data c = held ++ data ∧
      ((∃ offset, cu_source c = PointerCarrier offset) ∨ cu_data c = [])
    else abort_safe (ma_accumulator m') (ma_world m') ∧ ∃ rest, concat (frames new) ++ rest = held ++ data ∧
      (external_failure (cu_status c) ∨
       header_size <= byte_length rest ∧ resolve_frame_size cfg (take (Z.to_nat header_size) rest) = Err (cu_status c)).

(** After [n] bytes of input were taken into what is held. *)
Lemma yields_iteration (m m1 : machine) data source n st m2 held1 new1 :
  yields m1 held1 st m2 → ma_calls m1 = ma_calls m ++ new1 → frames new1 = [] →
  held1 = held_bytes (ma_accumulator m) (ma_world m) ++ take (Z.to_nat n) data → 0 < n <= byte_length data →
  ((∃ offset, source = PointerCarrier offset) ∨ n = byte_length data) →
  iteration_ok m data (advance_cursor st source data n m2).
Proof.
  intros (new & Hc & Hv & _ & Hcase) Ec Ef -> Hn Hsrc. exists (new1 ++ new). cbn. rewrite Hc, Ec, <- app_assoc, frames_app, Ef.
  split; [done|]. split; [by apply Forall_app; split; [apply no_frames_ok|]|]. unfold byte_length in Hn. case_bool_decide as Es.
  - destruct Hcase as [Hok Heq]. split; [done|]. split; [rewrite length_drop; lia|]. split.
    + by rewrite app_nil_l, app_assoc, Heq, <- app_assoc, take_drop.
    + destruct Hsrc as [[offset ->]| ->]; [left; by eexists|]. right. apply drop_ge. unfold byte_length. lia.
  - destruct Hcase as (Hs & Hf & rest & Heq). split; [done|]. exists (rest ++ drop (Z.to_nat n) data).
    split; [by rewrite app_nil_l, app_assoc, Heq, <- app_assoc, take_drop|by left].
Qed.

(** The end of the branches that collect a header. *)
Lemma collected_iteration (m m1 : machine) data source n st new1 :
  ma_calls m1 = ma_calls m ++ new1 → frames new1 = [] → 0 < n <= byte_length data →
  ((∃ offset, source = PointerCarrier offset) ∨ n = byte_length data) →
  (if bool_decide (st = IREE_STATUS_OK)
   then between_ok (ma_accumulator m1) (ma_world m1) ∧
     held_bytes (ma_accumulator m1) (ma_world m1) = held_bytes (ma_accumulator m) (ma_world m) ++ take (Z.to_nat n) data
   else abort_safe (ma_accumulator m1) (ma_world m1) ∧
     (external_failure st ∨
      let all := held_bytes (ma_accumulator m) (ma_world m) ++ data in
      header_size <= byte_length all ∧ resolve_frame_size cfg (take (Z.to_nat header_size) all) = Err st)) →
  iteration_ok m data (complete_if_full cfg (advance_cursor st source data n m1)).
Proof.
  intros Ec Ef Hn Hsrc. case_bool_decide as Es.
  - subst st. intros [Hbet Hheld]. unfold complete_if_full. cbn [cu_status cu_machine advance_cursor andb].
    rewrite bool_decide_eq_true_2 by done. cbn [andb]. fold (full_frame (ma_accumulator m1)).
    pose proof (λ st' m', complete_full_yields m1 st' m' Hbet) as Hy. destruct (full_frame (ma_accumulator m1)).
    + destruct (iree_net_frame_accumulator_complete_frame cfg m1) as [st' m'].
      exact (yields_iteration m m1 data source n st' m' _ new1 (Hy _ _ eq_refl) Ec Ef Hheld Hn Hsrc).
    + exact (yields_iteration m m1 data source n _ _ _ new1 (Hy _ _ eq_refl) Ec Ef Hheld Hn Hsrc).
  - intros [Hs Hcause]. unfold complete_if_full. cbn [cu_status cu_machine advance_cursor]. rewrite bool_decide_eq_false_2 by done. cbn [andb].
    exists new1. cbn. rewrite Ef. split; [done|]. split; [by apply no_frames_ok|]. rewrite bool_decide_eq_false_2 by done. split; [done|].
    eexists. split; [reflexivity|]. done.
Qed.

Lemma source_slice target source available data n (m : machine) :
  iree_net_frame_accumulator_query_receive_buffer cfg (ma_accumulator m) = (target, available) →
  source_ok source data m → 0 <= n <= byte_length data → (∀ offset, target ≠ PointerCarrier offset) →
  source = target → stored m target n = take (Z.to_nat n) data.
Proof.
  intros Eq Hs Hn Hne ->. unfold source_ok in Hs. rewrite Eq in Hs. destruct Hs as [[offset ->]|(_ & _ & Hs)]; [by destruct (Hne offset)|].
  assert (∀ offset bytes, span_slice offset n bytes = take (Z.to_nat n) (span_slice offset (byte_length data) bytes)) as Hspan
    by (intros; unfold span_slice; rewrite take_take; f_equal; lia).
  rewrite <- Hs. destruct target; cbn in *; [by destruct (Hne offset)|apply Hspan| |apply Hspan].
  destruct (fa_frame_lease (ma_accumulator m)); [apply Hspan|by rewrite take_nil].
Qed.

Lemma source_consumed target source available data n (m : machine) :
  iree_net_frame_accumulator_query_receive_buffer cfg (ma_accumulator m) = (target, available) →
  source_ok source data m → n = Z.min (byte_length data) available →
  (∃ offset, source = PointerCarrier offset) ∨ n = byte_length data.
Proof. intros Eq Hs ->. unfold source_ok in Hs. rewrite Eq in Hs. destruct Hs as [?|(_ & Hle & _)]; [by left|right; lia]. Qed.

(** Input bytes were stored at the end of the body: the state once they are counted. *)
Definition body_grew (m m1 : machine) (bytes : list Z) : Prop :=
  let a1 := set_frame_used (fa_frame_used (ma_accumulator m1) +64 byte_length bytes) (ma_accumulator m1) in
  between_ok a1 (ma_world m1) ∧ ma_calls m1 = ma_calls m ∧ ma_input m1 = ma_input m ∧ fa_frame_used a1 ≠ 0 ∧
  held_bytes a1 (ma_world m1) = held_bytes (ma_accumulator m) (ma_world m) ++ bytes.

Lemma grow_destination o w bytes (m : machine) :
  let a := ma_accumulator m in
  header_storage a → fa_receive_operation a = Some o → cursor_owns (ma_world m) (Some o) → in_body a (ma_world m) →
  fa_frame_used a + byte_length bytes <= fa_frame_size a → cursor_owns w (Some o) →
  operation_data o w = write_bytes (Z.to_nat (fa_frame_used a - lookahead a)) bytes (operation_data o (ma_world m)) →
  operation_prefix o w = operation_prefix o (ma_world m) →
  body_grew m (with_world w m) bytes.
Proof.
  intros a Hh Eo Hown Hb Hfit Hown' Hdata Hpre. pose proof Hb as (Hr & Hu & Hf & Hs). pose proof Hr as (_ & Hsz & Hp & Hle).
  pose proof (co_sizes _ Hcfg). pose proof (co_width _ Hcfg) as [_ Hw]. pose proof (byte_length_nonneg bytes) as Hpos.
  unfold body_storage in Hs. rewrite Eo in Hs. destruct Hs as (El & Hol & Hpr). pose proof (length_law _ _ Hown) as Hlaw.
  assert (Z.to_nat (fa_frame_used a - lookahead a) + length bytes <= length (operation_data o (ma_world m)))%nat as Hroom.
  { rewrite !length_byte_length, Hlaw. lia. }
  pose proof (length_law _ _ Hown') as Hlaw'. rewrite Hdata in Hlaw'. unfold byte_length in Hlaw'. rewrite length_write_bytes in Hlaw' by done.
  fold (byte_length (operation_data o (ma_world m))) in Hlaw'.
  unfold body_grew. cbn. fold a. rewrite (uadd_small 64) by (unfold lookahead in *; lia). unfold lookahead in *.
  split; [|split; [done|split; [done|split; [lia|]]]].
  - split; [done|]. cbn. rewrite Eo. split; [done|]. right. right. split; [done|]. split; [done|]. unfold lookahead. cbn.
    split; [lia|]. unfold body_storage, matched, lookahead. cbn. rewrite Eo. split; [done|]. split; [lia|by rewrite Hpre].
  - unfold held_bytes, lookahead. cbn. rewrite Eo. destruct (Z.eqb_spec (fa_frame_used a) 0); [lia|].
    destruct (Z.eqb_spec (fa_frame_used a + byte_length bytes) 0); [lia|]. rewrite <- app_assoc. f_equal. rewrite Hdata.
    replace (Z.to_nat (fa_frame_used a + byte_length bytes - (header_size + fa_prefix_length a)))
      with (Z.to_nat (fa_frame_used a - (header_size + fa_prefix_length a)) + length bytes)%nat by (rewrite length_byte_length; lia).
    by rewrite take_write_bytes.
Qed.

Lemma grow_lease l bytes (m : machine) :
  let a := ma_accumulator m in
  header_storage a → fa_receive_operation a = None → cursor_owns (ma_world m) None → in_body a (ma_world m) →
  fa_frame_used a + byte_length bytes <= fa_frame_size a → fa_frame_lease a = Some l →
  body_grew m (with_accumulator (set_frame_lease (Some (mk_buffer_lease (bl_storage l)
    (write_bytes (Z.to_nat (fa_frame_used a)) bytes (bl_bytes l)))) a) m) bytes.
Proof.
  intros a Hh Eo Hown Hb Hfit El. pose proof Hb as (Hr & Hu & Hf & Hs). pose proof Hr as (_ & Hsz & Hp & Hle).
  pose proof (co_sizes _ Hcfg). pose proof (co_width _ Hcfg) as [_ Hw]. pose proof (byte_length_nonneg bytes) as Hpos.
  unfold body_storage in Hs. rewrite Eo in Hs. destruct Hs as (l' & El' & Hl & Ht). rewrite El in El'. injection El' as <-.
  assert (Z.to_nat (fa_frame_used a) + length bytes <= length (bl_bytes l))%nat as Hroom.
  { rewrite !length_byte_length, Hl. unfold lookahead in *. lia. }
  unfold body_grew. cbn. fold a. unfold lookahead in *. rewrite (uadd_small 64) by lia. split; [|split; [done|split; [done|split; [lia|]]]].
  - split; [done|]. cbn. rewrite Eo. split; [done|]. right. right. split; [done|]. split; [done|]. unfold lookahead. cbn.
    split; [lia|]. unfold body_storage. cbn. rewrite Eo. eexists. split; [done|]. cbn. unfold lookahead. cbn. split.
    + unfold byte_length. by rewrite length_write_bytes.
    + by rewrite take_write_bytes_before by (done || lia).
  - unfold held_bytes. cbn. rewrite Eo, El. destruct (Z.eqb_spec (fa_frame_used a) 0); [lia|].
    destruct (Z.eqb_spec (fa_frame_used a + byte_length bytes) 0); [lia|].
    replace (Z.to_nat (fa_frame_used a + byte_length bytes)) with (Z.to_nat (fa_frame_used a) + length bytes)%nat
      by (rewrite length_byte_length; lia).
    by rewrite take_write_bytes.
Qed.

(** The span that the accumulator offers for a body. *)
Lemma body_query a w :
  in_body a w → fa_frame_used a < fa_frame_size a →
  iree_net_frame_accumulator_query_receive_buffer cfg a =
    (match fa_receive_operation a with
     | Some o => PointerBody o (fa_frame_used a - lookahead a)
     | None => PointerLease (match fa_frame_lease a with Some l => bl_storage l | None => 0 end) (fa_frame_used a)
     end, fa_frame_size a - fa_frame_used a).
Proof.
  intros ((_ & Hsz & Hp & Hle) & _ & Hf & _) Hlt. pose proof (co_sizes _ Hcfg). pose proof (co_width _ Hcfg) as [_ Hw].
  unfold lookahead, iree_net_frame_accumulator_query_receive_buffer in *.
  destruct (Z.eqb_spec (fa_frame_size a) 0); [lia|]. destruct (Z.eqb_spec (fa_frame_used a) 0); [lia|].
  rewrite (usub_small 64 (fa_frame_size a)), (usub_small 64 (fa_frame_used a)) by (unfold in_width; lia).
  rewrite usub_small by (unfold in_width; lia). f_equal. destruct (fa_receive_operation a); [|done]. f_equal. lia.
Qed.

(** A copy of [n] input bytes to the end of the body. *)
Lemma copy_to_body source data n (m : machine) :
  let a := ma_accumulator m in
  let target := iree_net_frame_accumulator_query_receive_buffer cfg a in
  header_storage a → cursor_owns (ma_world m) (fa_receive_operation a) → in_body a (ma_world m) → fa_frame_used a < fa_frame_size a →
  source_ok source data m → 0 <= n <= byte_length data → n <= fa_frame_size a - fa_frame_used a →
  body_grew m (copy_bytes target.1 source (take (Z.to_nat n) data) m) (take (Z.to_nat n) data).
Proof.
  intros a target Hh Hown Hb Hlt Hsrc Hn Hroom. assert (byte_length (take (Z.to_nat n) data) = n) as Hbl by (by apply byte_length_take).
  pose proof (body_query _ _ Hb Hlt) as Hq. pose proof (source_slice _ _ _ _ _ _ Hq Hsrc Hn) as Hslice. unfold target. rewrite Hq. cbn [fst].
  pose proof Hb as ((_ & Hsz) & _ & Hf & Hs). unfold body_storage in Hs. destruct (fa_receive_operation a) as [o|] eqn:Eo.
  - destruct Hs as (El & Hol & _).
    destruct (copy_body o (fa_frame_used a - lookahead a) source (take (Z.to_nat n) data) m Hown) as (w & -> & Hown' & Hdata & Hpre);
      rewrite ?Hbl; [lia|lia|by apply Hslice|].
    apply (grow_destination o); try done. fold a. lia.
  - destruct Hs as (l & El & Hl & Ht). rewrite El in Hslice |- *.
    rewrite (copy_lease l) by (done || (rewrite Hbl; cbn in Hslice; fold a in Hslice; rewrite El in Hslice; by apply Hslice)).
    apply grow_lease; try done. fold a. lia.
Qed.

Lemma process_frame_bytes_ok source data (m : machine) :
  let a := ma_accumulator m in
  header_storage a → cursor_owns (ma_world m) (fa_receive_operation a) → in_body a (ma_world m) → fa_frame_used a < fa_frame_size a →
  data ≠ [] → source_ok source data m → iteration_ok m data (process_frame_bytes cfg source data m).
Proof.
  intros a Hh Hown Hb Hlt Hne Hsrc. unfold process_frame_bytes. fold a.
  destruct (iree_net_frame_accumulator_query_receive_buffer cfg a) as [t available] eqn:Et.
  set (n := Z.min (byte_length data) available).
  assert (0 < byte_length data) as Hpos by (destruct data; [done|unfold byte_length; cbn; lia]).
  pose proof (body_query _ _ Hb Hlt) as Hq. rewrite Et in Hq. injection Hq as _ Hav.
  destruct (copy_to_body source data n m Hh Hown Hb Hlt Hsrc) as (Hbet & Hcalls & _ & Hnz & Hheld); [lia|fold a; lia|].
  fold a in Hbet, Hcalls, Hnz, Hheld. rewrite Et in Hbet, Hcalls, Hnz, Hheld. rewrite byte_length_take in Hbet, Hnz, Hheld by lia. cbn [fst] in Hbet, Hcalls, Hnz, Hheld.
  set (m2 := with_accumulator _ _). change (between_ok (ma_accumulator m2) (ma_world m2)) in Hbet.
  change (ma_calls m2 = ma_calls m) in Hcalls. change (fa_frame_used (ma_accumulator m2) ≠ 0) in Hnz.
  change (held_bytes (ma_accumulator m2) (ma_world m2) = held_bytes a (ma_world m) ++ take (Z.to_nat n) data) in Hheld.
  assert ((fa_frame_used (ma_accumulator m2) =? fa_frame_size (ma_accumulator m2)) = full_frame (ma_accumulator m2)) as ->.
  { unfold full_frame. by rewrite (proj2 (Z.eqb_neq _ _) Hnz). }
  destruct (if full_frame _ then _ else _) as [st m'] eqn:E. apply (complete_full_yields m2 st m' Hbet) in E.
  eapply (yields_iteration _ _ _ _ _ _ _ _ []); [done|by rewrite app_nil_r|done|done|lia|]. by eapply source_consumed.
Qed.

(** Matching and the start of the body, once the header and the prefix are complete. *)
Lemma match_begin_spec (m : machine) st m' :
  let a := ma_accumulator m in
  header_storage a → resolved a → fa_header_used a = lookahead a → fa_frame_used a = 0 → fa_frame_lease a = None →
  fa_receive_operation a = None → cursor_owns (ma_world m) None →
  match iree_net_frame_accumulator_match_receive cfg (fa_header a) m with
  | (IREE_STATUS_OK, m) => iree_net_frame_accumulator_begin_body cfg m
  | r => r
  end = (st, m') →
  ∃ new, ma_calls m' = ma_calls m ++ new ∧ frames new = [] ∧ ma_input m' = ma_input m ∧
    abort_safe (ma_accumulator m') (ma_world m') ∧
    if bool_decide (st = IREE_STATUS_OK)
    then between_ok (ma_accumulator m') (ma_world m') ∧
      held_bytes (ma_accumulator m') (ma_world m') = take (Z.to_nat (lookahead a)) (fa_header a)
    else external_failure st.
Proof.
  intros a Hh Hr Hu Hf Hl Hop Hown E. destruct (iree_net_frame_accumulator_match_receive cfg (fa_header a) m) as [st1 m1] eqn:E1.
  destruct (match_receive_spec _ _ _ _ (proj2 Hr) Hop Hown E1) as (op & w & -> & Hown' & Hlen & Hfail). fold a in Hlen |- *.
  destruct (decide (st1 = IREE_STATUS_OK)) as [->|Hne].
  - assert (body_ready (set_receive_operation op a) w) as Hready by (repeat (split; [done|]); exact Hlen).
    destruct (begin_body_spec (with_world w (with_accumulator (set_receive_operation op a) m)) _ _ Hready E)
      as (new & Hc & Hnew & Hin & Hs & Hcase).
    exists new. do 4 (split; [done|]). case_bool_decide; [|done]. destruct Hcase as (Hh' & Hown2 & Hb & Hheld). split; [|done].
    split; [done|]. split; [done|]. auto.
  - assert (st = st1 ∧ m' = with_world w (with_accumulator (set_receive_operation op a) m)) as [-> ->] by (destruct st1; by simplify_eq).
    destruct (Hfail Hne) as [-> Hext]. exists []. rewrite app_nil_r. do 3 (split; [done|]). rewrite bool_decide_eq_false_2 by done.
    split; [by split|done].
Qed.

(** What the two phases that collect bytes in the header have in common. *)
Record collecting (a : accumulator) : Prop := mk_collecting {
  cl_frame_used : fa_frame_used a = 0;
  cl_operation : fa_receive_operation a = None;
  cl_lease : fa_frame_lease a = None;
  cl_used : 0 <= fa_header_used a < lookahead a;
  cl_prefix : 0 <= fa_prefix_length a <= IREE_NET_MESSAGE_RECEIVE_PREFIX_CAPACITY;
  cl_max : lookahead a <= ac_max_frame_size cfg;
  cl_size : (if fa_frame_size a =? 0 then header_size else header_size +64 fa_prefix_length a) = lookahead a;
}.

Lemma phase_collecting a : in_header a ∨ in_prefix a → collecting a.
Proof.
  pose proof (co_sizes _ Hcfg). intros [(E0 & ? & E1 & ? & ? & ? & ?)|([_ Hs] & ? & ? & ? & ?)].
  - split; unfold lookahead, IREE_NET_MESSAGE_RECEIVE_PREFIX_CAPACITY; rewrite ?E0, ?E1; cbn; done || lia.
  - pose proof Hs as (? & Hp & ?). split; unfold lookahead in *; try done; try lia.
    destruct (Z.eqb_spec (fa_frame_size a) 0); [lia|]. by apply lookahead_add.
Qed.

Lemma collecting_query a :
  collecting a → iree_net_frame_accumulator_query_receive_buffer cfg a = (PointerHeader (fa_header_used a), lookahead a - fa_header_used a).
Proof.
  intros [Hf Hop Hl Hu Hp Hm Hs]. pose proof (co_width _ Hcfg) as [_ Hw]. unfold iree_net_frame_accumulator_query_receive_buffer.
  rewrite Hf. cbn [Z.eqb]. assert (lookahead a -64 fa_header_used a = lookahead a - fa_header_used a) as <- by (apply usub_small; unfold in_width; lia).
  rewrite <- Hs. by destruct (fa_frame_size a =? 0).
Qed.

(** [n] input bytes added to the header. *)
Lemma collect_bytes source data n (m : machine) :
  let a := ma_accumulator m in
  header_storage a → collecting a → source_ok source data m → 0 <= n <= byte_length data → n <= lookahead a - fa_header_used a →
  ∃ header, copy_bytes (PointerHeader (fa_header_used a)) source (take (Z.to_nat n) data) m = with_accumulator (set_header header a) m ∧
    byte_length header = byte_length (fa_header a) ∧
    take (Z.to_nat (fa_header_used a + n)) header = held_bytes a (ma_world m) ++ take (Z.to_nat n) data.
Proof.
  intros a Hh Hc Hsrc Hn Hroom. pose proof (collecting_query _ Hc) as Hq. pose proof (source_slice _ _ _ _ _ _ Hq Hsrc Hn) as Hslice.
  destruct Hc as [Hf Hop Hl Hu Hp Hm Hs]. assert (byte_length (take (Z.to_nat n) data) = n) as Hbl by (by apply byte_length_take).
  eexists. split; [apply copy_header; rewrite Hbl; by apply Hslice|]. fold a.
  assert (Z.to_nat (fa_header_used a) + length (take (Z.to_nat n) data) <= length (fa_header a))%nat as Hfit.
  { rewrite !length_byte_length, Hbl. unfold header_storage, lookahead in *. lia. }
  split; [unfold byte_length; by rewrite length_write_bytes|]. unfold held_bytes. rewrite Hf. cbn [Z.eqb].
  replace (Z.to_nat (fa_header_used a + n)) with (Z.to_nat (fa_header_used a) + length (take (Z.to_nat n) data))%nat
    by (rewrite length_byte_length, Hbl; lia).
  by rewrite take_write_bytes.
Qed.

(** What the second half of that branch leaves. *)
Definition finished_header (m : machine) (st : iree_status_code) (m' : machine) : Prop :=
  let a := ma_accumulator m in
  let all := take (Z.to_nat (fa_header_used a)) (fa_header a) in
  ∃ new, ma_calls m' = ma_calls m ++ new ∧ frames new = [] ∧
    if bool_decide (st = IREE_STATUS_OK)
    then between_ok (ma_accumulator m') (ma_world m') ∧ held_bytes (ma_accumulator m') (ma_world m') = all
    else abort_safe (ma_accumulator m') (ma_world m') ∧
      (external_failure st ∨ fa_header_used a = header_size ∧ resolve_frame_size cfg all = Err st).

(** With the length resolved. *)
Lemma finish_prefix (m : machine) st m' :
  let a := ma_accumulator m in
  header_storage a → resolved a → header_size <= fa_header_used a <= lookahead a → fa_frame_used a = 0 → fa_frame_lease a = None →
  fa_receive_operation a = None → cursor_owns (ma_world m) None →
  (if negb (fa_frame_size a =? 0) && (fa_header_used a =? header_size +64 fa_prefix_length a)
   then
     match iree_net_frame_accumulator_match_receive cfg (fa_header a) m with
     | (IREE_STATUS_OK, m) => iree_net_frame_accumulator_begin_body cfg m
     | r => r
     end
   else (IREE_STATUS_OK, m)) = (st, m') →
  finished_header m st m'.
Proof.
  intros a Hh Hr Hu Hf Hl Hop Hown. pose proof (co_sizes _ Hcfg). rewrite (lookahead_add _ (proj2 Hr)).
  pose proof Hr as (_ & Hs & _). destruct (Z.eqb_spec (fa_frame_size a) 0); [lia|]. cbn [negb andb].
  destruct (Z.eqb_spec (fa_header_used a) (lookahead a)) as [E|E]; intros Em.
  - destruct (match_begin_spec m st m' Hh Hr E Hf Hl Hop Hown Em) as (new & Hc & Hn & _ & Hs' & Hcase). exists new. do 2 (split; [done|]).
    case_bool_decide; [|split; [done|by left]]. destruct Hcase as [Hb Hheld]. split; [done|]. fold a. rewrite E. exact Hheld.
  - injection Em as <- <-. exists []. rewrite app_nil_r. do 2 (split; [done|]). cbn. fold a. split.
    + split; [done|]. split; [by rewrite Hop|]. right. left. repeat (split; [done || lia|]). done.
    + unfold held_bytes. by rewrite Hf.
Qed.

Lemma finish_header_spec (m : machine) st m' :
  let a := ma_accumulator m in
  header_storage a → fa_frame_used a = 0 → fa_frame_lease a = None → fa_receive_operation a = None → cursor_owns (ma_world m) None →
  0 <= fa_header_used a <= lookahead a →
  (fa_frame_size a = 0 ∧ fa_prefix_length a = 0 ∧ fa_receive_queue a = None ∨ resolved a ∧ header_size <= fa_header_used a) →
  finish_header cfg m = (st, m') → finished_header m st m'.
Proof.
  intros a Hh Hf Hl Hop Hown Hu Hcase. pose proof (co_sizes _ Hcfg). unfold finish_header. fold a.
  destruct Hcase as [(E0 & E1 & E2)|[Hr Hle]].
  2: { destruct (Z.eqb_spec (fa_frame_size a) 0) as [E0|E0]; [destruct Hr as (_ & ? & _); lia|]. cbn [andb]. fold a.
    rewrite bool_decide_eq_true_2 by done. cbn [andb]. apply finish_prefix; try done; fold a; try lia. }
  rewrite E0. cbn [Z.eqb andb]. unfold lookahead in Hu. rewrite E1 in Hu.
  destruct (Z.eqb_spec (fa_header_used a) header_size) as [Eu|Eu].
  2: { fold a. rewrite E0. cbn [Z.eqb negb]. rewrite andb_false_r. cbn [andb]. intros [= <- <-]. exists []. rewrite app_nil_r.
    do 2 (split; [done|]). cbn. fold a. split; [|unfold held_bytes; by rewrite Hf]. split; [done|]. split; [by rewrite Hop|]. left.
    repeat (split; [done || lia|]). done. }
  assert (byte_length (take (Z.to_nat header_size) (fa_header a)) = header_size) as Hlen.
  { apply byte_length_take. unfold header_storage, IREE_NET_MESSAGE_RECEIVE_PREFIX_CAPACITY in *. lia. }
  destruct (iree_net_frame_accumulator_begin_frame cfg _ m) as [st1 m1] eqn:E.
  destruct (begin_frame_spec _ _ _ _ Hlen Hown E) as [(Hne & Hres & ->)|(-> & n & k & q & w & Hres & -> & Hown' & Hn & Hk & Hnk)].
  - rewrite bool_decide_eq_false_2 by done. cbn [andb]. intros [= <- <-]. exists []. rewrite app_nil_r. do 2 (split; [done|]).
    rewrite bool_decide_eq_false_2 by done. split; [split; [done|]; fold a; by rewrite Hop|]. right. fold a. by rewrite Eu.
  - rewrite bool_decide_eq_true_2 by done. cbn [andb]. intros Em.
    refine (finish_prefix (with_world w (with_accumulator _ m)) st m' _ _ _ _ _ _ _ Em); cbn; fold a; try done.
    unfold lookahead. cbn. lia.
Qed.

Lemma process_header_bytes_ok source data (m : machine) :
  let a := ma_accumulator m in
  header_storage a → cursor_owns (ma_world m) (fa_receive_operation a) → in_header a ∨ in_prefix a →
  data ≠ [] → source_ok source data m → iteration_ok m data (process_header_bytes cfg source data m).
Proof.
  intros a Hh Hown Hph Hne Hsrc. pose proof (co_sizes _ Hcfg). pose proof (co_width _ Hcfg) as [_ Hw].
  assert (0 < byte_length data) as Hpos by (destruct data; [done|unfold byte_length; cbn; lia]).
  pose proof (phase_collecting _ Hph) as Hc. pose proof Hc as [Hf Hop Hl Hu Hp Hm Hs]. rewrite Hop in Hown.
  unfold process_header_bytes. fold a. rewrite Hs, (usub_small 64 (lookahead a)) by (unfold in_width; lia).
  set (n := Z.min (byte_length data) (lookahead a - fa_header_used a)).
  destruct (collect_bytes source data n m Hh Hc Hsrc) as (header & Hcopy & Hlen & Htake); [lia|fold a; lia|]. fold a in Hcopy, Hlen, Htake.
  rewrite Hcopy. cbn [ma_accumulator with_accumulator]. rewrite uadd_small by lia.
  assert (byte_length (held_bytes a (ma_world m)) = fa_header_used a) as Hheld.
  { unfold held_bytes. rewrite Hf. apply byte_length_take. unfold header_storage, lookahead in *. lia. }
  set (m1 := with_accumulator (set_header_used (fa_header_used a + n) (set_header header a)) m).
  change (with_accumulator (set_header_used _ _) (with_accumulator _ m)) with m1.
  destruct (finish_header cfg m1) as [st m2] eqn:E.
  assert (finished_header m1 st m2) as (new & Hcalls & Hfr & Hcase).
  { apply finish_header_spec; try done; cbn.
    - unfold header_storage. cbn. by rewrite Hlen.
    - unfold lookahead in *. cbn. lia.
    - destruct Hph as [(? & ? & ? & _ & _ & _ & ?)|(Hr & ? & _)]; [by left|right]. split; [|lia].
      destruct Hr as [Hres Hsz]. split; [|done]. cbn. rewrite <- Hres. f_equal.
      assert (take (Z.to_nat header_size) header = take (Z.to_nat header_size) (take (Z.to_nat (fa_header_used a + n)) header)) as ->
        by (rewrite take_take; f_equal; lia).
      rewrite Htake, take_app_le by (rewrite length_byte_length, Hheld; lia). unfold held_bytes. rewrite Hf. cbn [Z.eqb].
      rewrite take_take. f_equal. lia. }
  eapply collected_iteration; [exact Hcalls|done|lia| |].
  { eapply source_consumed; [by apply collecting_query|done|done]. }
  cbn in Hcase. rewrite Htake in Hcase. case_bool_decide; [done|]. destruct Hcase as [Hs' [Hext|[Hsz Hres]]]; (split; [done|]); [by left|right].
  cbn zeta. fold a. unfold byte_length in Hheld, Hpos, n. rewrite byte_length_app. unfold byte_length. split; [lia|].
  rewrite <- Hres. f_equal. rewrite take_app_ge by lia. do 2 f_equal. lia.
Qed.

(** A header that is complete in the input: the state after its length was resolved and,
    when the prefix is there too, it was matched. *)
Record whole_header (m : machine) (data : list Z) (m1 : machine) : Prop := mk_whole_header {
  wh_start : in_header (ma_accumulator m) ∧ fa_header_used (ma_accumulator m) = 0;
  wh_data : header_size <= byte_length data;
  wh_resolve : resolve_frame_size cfg (take (Z.to_nat header_size) data) = Ok (fa_frame_size (ma_accumulator m1));
  wh_sized : sized (ma_accumulator m1);
  wh_header : fa_header (ma_accumulator m1) = fa_header (ma_accumulator m);
  wh_fields : fa_frame_used (ma_accumulator m1) = 0 ∧ fa_frame_lease (ma_accumulator m1) = None;
  wh_owns : cursor_owns (ma_world m1) (fa_receive_operation (ma_accumulator m1));
  wh_operation o : fa_receive_operation (ma_accumulator m1) = Some o →
    matched (ma_accumulator m1) (ma_world m1) o data;
  wh_matched : fa_receive_operation (ma_accumulator m1) ≠ None → lookahead (ma_accumulator m1) <= byte_length data;
  wh_calls : ma_calls m1 = ma_calls m;
}.

(** In-place input is exactly the header. *)
Lemma whole_header_source source data (m m1 : machine) n :
  whole_header m data m1 → source_ok source data m → header_size <= n <= byte_length data →
  ((∃ offset, source = PointerCarrier offset) ∨ n = byte_length data) ∧
  (source = PointerHeader 0 → span_slice 0 n (fa_header (ma_accumulator m)) = take (Z.to_nat n) data).
Proof.
  intros Hw Hsrc Hn. destruct (wh_start _ _ _ Hw) as [Hp Hu]. pose proof (phase_collecting _ (or_introl Hp)) as Hc.
  pose proof (collecting_query _ Hc) as Hq. rewrite Hu in Hq. pose proof (co_sizes _ Hcfg). split.
  - pose proof (source_consumed _ _ _ _ _ _ Hq Hsrc eq_refl) as [?|E]; [by left|right]. unfold lookahead in E.
    destruct Hp as (_ & _ & Ek & _). rewrite Ek in E. lia.
  - intros E. apply (source_slice _ _ _ _ n _ Hq Hsrc); [lia|done|done].
Qed.

Lemma capture_header source data (m m1 : machine) n :
  header_storage (ma_accumulator m) → whole_header m data m1 → source_ok source data m →
  header_size <= n <= byte_length data → n <= lookahead (ma_accumulator m1) →
  ∃ header, copy_bytes (PointerHeader 0) source (take (Z.to_nat n) data) m1 = with_accumulator (set_header header (ma_accumulator m1)) m1 ∧
    take (Z.to_nat n) header = take (Z.to_nat n) data ∧
    header_storage (set_header header (ma_accumulator m1)) ∧ resolved (set_header header (ma_accumulator m1)).
Proof.
  intros Hh Hw Hsrc Hn Hns. destruct (whole_header_source source data m m1 n Hw Hsrc Hn) as [_ Hslice].
  pose proof (co_sizes _ Hcfg). destruct Hw as [_ _ Hres Hsz Hhdr _ _ _ _ _].
  assert (byte_length (take (Z.to_nat n) data) = n) as Hbl by (apply byte_length_take; lia).
  assert (0 + length (take (Z.to_nat n) data) <= length (fa_header (ma_accumulator m1)))%nat as Hfit.
  { rewrite !length_byte_length, Hbl, Hhdr. destruct Hsz as (_ & ? & _). unfold header_storage, lookahead in *. lia. }
  assert (take (Z.to_nat n) (write_bytes 0 (take (Z.to_nat n) data) (fa_header (ma_accumulator m1))) = take (Z.to_nat n) data) as Htake.
  { rewrite <- (take_write_bytes 0 _ _ Hfit) at 2. f_equal. rewrite length_byte_length, Hbl. lia. }
  exists (write_bytes 0 (take (Z.to_nat n) data) (fa_header (ma_accumulator m1))). split; [|split; [done|split; [|split; [|done]]]].
  - apply copy_header. by rewrite Hbl, Hhdr.
  - unfold header_storage, byte_length in *. cbn. by rewrite length_write_bytes, Hhdr.
  - cbn [fa_header set_header fa_frame_size]. rewrite <- Hres. f_equal. set (header := write_bytes _ _ _) in *.
    transitivity (take (Z.to_nat header_size) (take (Z.to_nat n) header)); [rewrite take_take; f_equal; lia|].
    rewrite Htake, take_take. f_equal. lia.
Qed.

Lemma capture_iteration source data (m m1 : machine) :
  header_storage (ma_accumulator m) → whole_header m data m1 → source_ok source data m →
  let size := header_size +64 fa_prefix_length (ma_accumulator m1) in
  let n := Z.min (byte_length data) size in
  let m2 := copy_bytes (PointerHeader 0) source (take (Z.to_nat n) data) m1 in
  let m3 := with_accumulator (set_header_used n (ma_accumulator m2)) m2 in
  iteration_ok m data
    (let '(status, m') := if n =? size then iree_net_frame_accumulator_begin_body cfg m3 else (IREE_STATUS_OK, m3) in
     complete_if_full cfg (advance_cursor status source data n m')).
Proof.
  intros Hh Hw Hsrc. pose proof Hw as [[Hp Hu] Hdata Hres Hsz Hhdr [Hf Hl] Hown Hop Hmat Hcalls]. rewrite (lookahead_add _ Hsz).
  set (a1 := ma_accumulator m1) in *. intros size n m2 m3. pose proof (co_sizes _ Hcfg).
  assert (header_size <= n <= byte_length data ∧ n <= size) as [Hn Hns] by (destruct Hsz as (_ & ? & _); unfold n, size, lookahead; lia).
  destruct (whole_header_source source data m m1 n Hw Hsrc Hn) as [Hcons _].
  destruct (capture_header source data m m1 n Hh Hw Hsrc Hn Hns) as (header & Hcopy & Htake & Hh' & Hr'). fold a1 in Hcopy, Hh', Hr'.
  assert (m3 = with_accumulator (set_header_used n (set_header header a1)) m1) as -> by (unfold m3, m2; by rewrite Hcopy).
  assert (held_bytes (ma_accumulator m) (ma_world m) = []) as Hheld.
  { destruct Hp as (_ & _ & _ & E & _). unfold held_bytes. by rewrite E, Hu. }
  destruct (Z.eqb_spec n size) as [E|E].
  - destruct (iree_net_frame_accumulator_begin_body cfg _) as [st m'] eqn:Eb.
    destruct (begin_body_spec (with_accumulator (set_header_used n (set_header header a1)) m1) st m') as (new & Hc & Hnew & _ & Hs & Hcase);
      [|done|].
    { split; [done|]. split; [exact Hr'|]. split; [exact E|]. do 3 (split; [done|]).
      intros o Eo. apply (matched_take a1 _ _ data); [done| |by apply Hop]. cbn. fold size. by rewrite <- E. }
    cbn in Hc. rewrite Hcalls in Hc. eapply collected_iteration; [exact Hc|done|lia|done|].
    case_bool_decide; [|split; [done|by left]]. destruct Hcase as (? & ? & ? & Hheld'). split; [by split; auto|].
    rewrite Hheld, app_nil_l, <- Htake, Hheld'. cbn [ma_accumulator with_accumulator fa_header set_header_used set_header]. by rewrite E.
  - apply (collected_iteration m _ data source n IREE_STATUS_OK []); cbn; [by rewrite app_nil_r|done|lia|done|].
    assert (fa_receive_operation a1 = None) as Hnone.
    { destruct (fa_receive_operation a1) eqn:Eo; [|done]. exfalso. apply E. unfold n, size in *. specialize (Hmat ltac:(done)). lia. }
    split.
    + split; [done|]. split; [done|]. right. left. split; [exact Hr'|]. unfold size in *. cbn. split; [unfold lookahead in *; cbn; lia|done].
    + rewrite Hheld. unfold held_bytes. cbn. by rewrite Hf.
Qed.

(** A whole ordinary frame in the input. *)
Lemma deliver_iteration source data (m m1 : machine) lease :
  header_storage (ma_accumulator m) → whole_header m data m1 → source_ok source data m →
  let a := ma_accumulator m1 in
  fa_receive_operation a = None → fa_frame_size a <= byte_length data →
  let '(status, lease', m2) :=
    deliver_frame cfg (take (Z.to_nat (fa_frame_size a)) data) lease (with_accumulator (iree_net_frame_accumulator_clear_frame a) m1) in
  ∀ m3, ma_accumulator m3 = ma_accumulator m2 → ma_world m3 = ma_world m2 → ma_calls m3 = ma_calls m2 →
  iteration_ok m data (advance_cursor status source data (fa_frame_size a) m3).
Proof.
  intros Hh Hw Hsrc a Hop Hle. pose proof Hw as [[Hp Hu] Hdata Hres Hsz Hhdr _ Hown _ _ Hcalls]. pose proof (co_sizes _ Hcfg).
  fold a in Hres, Hsz, Hown. rewrite Hop in Hown. destruct Hsz as (Hn & _ & _).
  destruct (whole_header_source source data m m1 (fa_frame_size a) Hw Hsrc) as [Hcons _]; [lia|].
  unfold deliver_frame. cbn [ma_world with_accumulator]. set (frame := take _ data).
  set (r := ac_on_frame_complete cfg frame lease (ma_world m1)). intros m3 Ea Ew Ec. cbn in Ea, Ew, Ec.
  pose proof (owns_step _ _ _ (or_intror (co_frame _ Hcfg frame lease (ma_world m1))) Hown) as Hown'. fold r in Hown'.
  destruct (cleared_ok a (fr_world r)) as [Hok Hheld']; [unfold header_storage in *; fold a in Hhdr; by rewrite Hhdr|done|].
  rewrite <- Ea, <- Ew in Hok, Hheld'. rewrite Hcalls in Ec.
  assert (held_bytes (ma_accumulator m) (ma_world m) = []) as Hheld.
  { destruct Hp as (_ & _ & _ & E & _). unfold held_bytes. by rewrite E, Hu. }
  assert (byte_length frame = fa_frame_size a) as Hlen by (apply byte_length_take; lia).
  assert (frame_valid frame) as Hv.
  { unfold frame_valid. rewrite Hlen, <- Hres. split; [lia|]. f_equal. unfold frame. rewrite take_take. f_equal. lia. }
  eexists. split; [exact Ec|]. split; [by repeat (constructor; try done)|]. cbn [cu_status cu_data cu_source cu_machine advance_cursor frames omap list_omap concat].
  rewrite Hheld, Hheld'. case_bool_decide as Es.
  - split; [done|]. split; [rewrite length_drop, (length_byte_length data); lia|]. split; [by rewrite app_nil_r, app_nil_l; apply take_drop|].
    destruct Hcons as [[offset ->]|E]; [left; by eexists|]. right. apply drop_ge. rewrite length_byte_length. lia.
  - split; [by apply between_abort_safe, accumulator_between|]. exists (drop (Z.to_nat (fa_frame_size a)) data).
    split; [by rewrite app_nil_r; apply take_drop|]. left. left. by eexists _, _, _.
Qed.

Lemma process_whole_header_ok source data (m : machine) :
  let a := ma_accumulator m in
  header_storage a → cursor_owns (ma_world m) None → in_header a → fa_header_used a = 0 → header_size <= byte_length data →
  source_ok source data m → iteration_ok m data (process_whole_header cfg source data m).
Proof.
  intros a Hh Hown Hp Hu Hdata Hsrc. pose proof (co_sizes _ Hcfg). unfold process_whole_header.
  assert (byte_length (take (Z.to_nat header_size) data) = header_size) as Hlen by (apply byte_length_take; lia).
  destruct Hp as (E1 & E2 & E3 & E4 & E5 & E6 & E7).
  assert (held_bytes a (ma_world m) = []) as Hheld by (unfold held_bytes; by rewrite E4, Hu).
  destruct (iree_net_frame_accumulator_begin_frame cfg _ m) as [st1 m1] eqn:Eb.
  destruct (begin_frame_spec _ _ _ _ Hlen Hown Eb) as [(Hne & Hres & ->)|(-> & n & k & q & w & Hres & -> & Hown' & Hn & Hk & Hnk)].
  { assert (iteration_ok m data (mk_cursor st1 source data m)) as Hit; [|by destruct st1].
    exists []. rewrite app_nil_r. cbn. do 2 (split; [done|]). rewrite bool_decide_eq_false_2 by done.
    split; [split; [done|]; fold a; by rewrite E5|]. exists data. fold a. rewrite Hheld. split; [done|]. by right. }
  set (m1 := with_world w _). cbn [ma_accumulator]. fold a in m1.
  assert (sized (ma_accumulator m1)) as Hsz by (split; [done|]; split; [done|]; unfold lookahead; cbn; done).
  rewrite (lookahead_add _ Hsz). set (size := lookahead (ma_accumulator m1)).
  assert (whole_header m data m1) as Hw1.
  { split; try done; cbn; rewrite ?E4, ?E5, ?E6; done. }
  pose proof (capture_iteration source data m m1 Hh Hw1 Hsrc) as Hcap. cbn zeta in Hcap. rewrite (lookahead_add _ Hsz) in Hcap.
  destruct (Z.leb_spec size (byte_length data)) as [Hla|Hla]; [|exact Hcap]. clear Hcap.
  destruct (iree_net_frame_accumulator_match_receive cfg data m1) as [st2 m2] eqn:Em.
  destruct (match_receive_spec _ _ _ _ Hsz E5 Hown' Em) as (op & w2 & -> & Hown2 & Hop & Hfail).
  destruct (decide (st2 = IREE_STATUS_OK)) as [->|Hne].
  2: { destruct (Hfail Hne) as [-> Hext]. assert (iteration_ok m data (mk_cursor st2 source data (with_world w2
      (with_accumulator (set_receive_operation None (ma_accumulator m1)) m1)))) as Hit; [|by destruct st2].
    exists []. rewrite app_nil_r. cbn. do 2 (split; [done|]). rewrite bool_decide_eq_false_2 by done.
    split; [by split|]. exists data. fold a. rewrite Hheld. split; [done|]. by left. }
  set (m2 := with_world w2 _). assert (whole_header m data m2) as Hw2.
  { split; try done; cbn; rewrite ?E4, ?E6; done. }
  pose proof (capture_iteration source data m m2 Hh Hw2 Hsrc) as Hcap. cbn zeta in Hcap.
  rewrite (lookahead_add (ma_accumulator m2) Hsz) in Hcap. change (lookahead (ma_accumulator m2)) with size in Hcap.
  destruct (bool_decide_reflect (fa_receive_operation (ma_accumulator m2) = None)) as [Eop|Eop]; cbn [andb]; [|exact Hcap].
  destruct (Z.leb_spec (fa_frame_size (ma_accumulator m2)) (byte_length data)) as [Hfs|Hfs]; [|exact Hcap].
  pose proof (deliver_iteration source data m m2
    (if fa_frame_size (ma_accumulator m2) =? byte_length data then ma_input m2 else None) Hh Hw2 Hsrc Eop Hfs) as Hd.
  destruct (deliver_frame cfg _ _ _) as [[st3 lease] m3]. apply Hd; by destruct (fa_frame_size (ma_accumulator m2) =? byte_length data).
Qed.

(** Every iteration on a well-formed accumulator. *)
Lemma process_iteration_ok source data (m : machine) :
  accumulator_ok (ma_accumulator m) (ma_world m) → data ≠ [] → source_ok source data m →
  iteration_ok m data (process_iteration cfg source data m).
Proof.
  intros [Hh Hown Hph] Hne Hsrc. pose proof (co_sizes _ Hcfg). unfold process_iteration. set (a := ma_accumulator m) in *.
  destruct (Z.eqb_spec (fa_frame_used a) 0) as [Ef|Ef]; cbn [negb].
  - assert (in_header a ∨ in_prefix a) as Hcol.
    { destruct Hph as [?|[?|[(Hr & _ & ? & _) _]]]; auto. destruct Hr as (_ & ? & ? & _). unfold lookahead in *. lia. }
    destruct (Z.eqb_spec (fa_frame_size a) 0) as [Es|Es]; cbn [andb]; [|by apply process_header_bytes_ok].
    destruct (Z.eqb_spec (fa_header_used a) 0) as [Eu|Eu]; cbn [andb]; [|by apply process_header_bytes_ok].
    destruct (Z.leb_spec header_size (byte_length data)); [|by apply process_header_bytes_ok].
    destruct Hcol as [Hp|(Hr & _)]; [|destruct Hr as (_ & ? & _); lia]. apply process_whole_header_ok; try done.
    destruct Hp as (_ & _ & _ & _ & E & _). by rewrite E in Hown.
  - destruct Hph as [(_ & _ & _ & ? & _)|[(_ & _ & ? & _)|[Hb Hlt]]]; [done|done|]. by apply process_frame_bytes_ok.
Qed.

(** ** The loop *)

(** What processing [data] leaves: frames and held bytes make up the stream. *)
Definition processed (m : machine) (data : list Z) (st : iree_status_code) (m' : machine) : Prop :=
  let stream := held_bytes (ma_accumulator m) (ma_world m) ++ data in
  ∃ new, ma_calls m' = ma_calls m ++ new ∧ Forall call_ok new ∧
    if bool_decide (st = IREE_STATUS_OK)
    then accumulator_ok (ma_accumulator m') (ma_world m') ∧
      concat (frames new) ++ held_bytes (ma_accumulator m') (ma_world m') = stream
    else abort_safe (ma_accumulator m') (ma_world m') ∧ ∃ rest, concat (frames new) ++ rest = stream ∧
      (external_failure st ∨
       header_size <= byte_length rest ∧ resolve_frame_size cfg (take (Z.to_nat header_size) rest) = Err st).

Lemma process_loop_ok fuel source data (m : machine) :
  accumulator_ok (ma_accumulator m) (ma_world m) → data = [] ∨ source_ok source data m → (length data <= fuel)%nat →
  ∃ st m', process_loop cfg fuel source data m = Some (st, m') ∧ processed m data st m'.
Proof.
  revert source data m. induction fuel as [|fuel IH]; intros source data m Hok Hsrc Hfuel.
  all: destruct data as [|b data0]; [exists IREE_STATUS_OK, m; split; [done|]; exists []; rewrite !app_nil_r; do 2 (split; [done|]); done|].
  { cbn in Hfuel. lia. }
  set (data := b :: data0) in *. cbn [process_loop]. fold data.
  destruct Hsrc as [?|Hsrc]; [done|]. pose proof (process_iteration_ok source data m Hok ltac:(done) Hsrc) as (new & Hc & Hv & Hcase).
  set (c := process_iteration cfg source data m) in *. case_bool_decide as Es.
  - destruct Hcase as (Hok' & Hlt & Heq & Hsrc'). destruct (IH (cu_source c) (cu_data c) (cu_machine c)) as (st & m' & -> & Hp); [done| |lia|].
    { destruct Hsrc' as [?|?]; [right|by left]. unfold source_ok.
      destruct (iree_net_frame_accumulator_query_receive_buffer _ _). by left. }
    exists st, m'. split; [done|]. destruct Hp as (new' & Hc' & Hv' & Hcase'). exists (new ++ new').
    rewrite Hc', Hc, <- app_assoc, frames_app, concat_app, Forall_app. do 2 (split; [done|]). case_bool_decide.
    + destruct Hcase' as [? Heq']. split; [done|]. by rewrite <- app_assoc, Heq'.
    + destruct Hcase' as (? & rest & Heq' & ?). split; [done|]. exists rest. split; [|done]. by rewrite <- app_assoc, Heq'.
  - exists (cu_status c), (cu_machine c). split; [done|]. exists new. rewrite bool_decide_eq_false_2 by done. done.
Qed.

End invariant.
