(* ===== verification/ReceiveCursor.v ===== *)
(** * Receive queues as seen by a frame accumulator

    The receive queues of [ReceiveQueue], one per endpoint of a connection, implement the
    interface of [FrameAccumulator] and keep the promises of [FrameInvariant]: while the
    cursor holds an operation, no step of another thread touches its destination. *)

From S2P Require Import Prelude EndpointLifecycle ReceiveQueue ReceiveInvariant ReceiveTheorems FrameAccumulator FrameInvariant.
From stdpp Require Import base numbers list relations gmap.

Local Open Scope Z_scope.
Local Open Scope machine_scope.

(** ** The interface *)

(** The queues of the endpoints; [cw_env] is what the other threads do before each call that
    takes a queue's mutex. *)
Record cursor_world := mk_cursor_world {
  cw_systems : list receive_system;
  cw_env : nat → list receive_system → list receive_system;
  cw_tick : nat;
}.

Definition with_systems (ys : list receive_system) (w : cursor_world) : cursor_world := mk_cursor_world ys (cw_env w) (cw_tick w).

Definition interleave (w : cursor_world) : cursor_world :=
  mk_cursor_world (cw_env w (cw_tick w) (cw_systems w)) (cw_env w) (S (cw_tick w)).

(** An operation of a queue. *)
Definition operation_of (o : nat * nat) (w : cursor_world) : option iree_net_message_receive_operation_t :=
  y ← cw_systems w !! o.1; sy_operations y !! o.2.

Definition world_prefix_length (q : nat) (w : cursor_world) : Z * cursor_world :=
  let w := interleave w in
  (match cw_systems w !! q with Some y => iree_net_message_receive_queue_prefix_length (sy_state y) | None => 0 end, w).

Definition world_match (q : nat) (prefix : list Z) (body_length : Z) (w : cursor_world) :
    status_or (option (nat * nat)) * cursor_world :=
  let w := interleave w in
  match cw_systems w !! q with
  | None => (Ok None, w)
  | Some y =>
      let '(r, s) := iree_net_message_receive_queue_match prefix body_length (sy_state y) in
      (match r with Ok i => Ok (pair q <$> i) | Err code => Err code end,
       with_systems (<[q := with_state s y]> (cw_systems w)) w)
  end.

Definition world_complete (o : nat * nat) (status : iree_status_code) (bytes_transferred : Z) (w : cursor_world) : cursor_world :=
  let w := interleave w in
  match cw_systems w !! o.1 with
  | None => w
  | Some y =>
      let '(c, s) := complete_locked o.2 status bytes_transferred (sy_state y) in
      with_systems (<[o.1 := with_returning (c :: sy_returning y) (with_state s y)]> (cw_systems w)) w
  end.

Definition world_write (o : nat * nat) (offset : nat) (bytes : list Z) (w : cursor_world) : cursor_world :=
  match cw_systems w !! o.1 with
  | None => w
  | Some y => with_systems (<[o.1 := with_state (place o.2 offset bytes (sy_state y)) y]> (cw_systems w)) w
  end.

Definition world_data (o : nat * nat) (w : cursor_world) : list Z := match operation_of o w with Some r => ro_data r | None => [] end.

Definition world_captured (o : nat * nat) (w : cursor_world) : list Z :=
  match cw_systems w !! o.1 with
  | Some y => captured (sy_operations y) (iree_net_message_receive_queue_prefix_length (sy_state y)) o.2
  | None => []
  end.

#[export] Instance receive_queues : ReceiveQueues cursor_world nat (nat * nat) := {|
  queue_prefix_length := world_prefix_length;
  queue_match := world_match;
  queue_complete := world_complete;
  operation_length o w := byte_length (world_data o w);
  operation_write := world_write;
  operation_data := world_data;
  operation_prefix := world_captured;
|}.

(** ** Steps of other threads *)

(** The destination and the prefix of the operation that the cursor holds stay. *)
Definition same_view (s s' : receive_state) : Prop :=
  rq_active (rs_queue s') = rq_active (rs_queue s) ∧
  ∀ j o, rq_active (rs_queue s) = Some j → rs_operations s !! j = Some o →
    ∃ o', rs_operations s' !! j = Some o' ∧ ro_data o' = ro_data o ∧
      captured (rs_operations s') (rq_prefix_length (rs_queue s')) j = captured (rs_operations s) (rq_prefix_length (rs_queue s)) j.

Lemma same_view_refl s s' : rs_queue s' = rs_queue s → rs_operations s' = rs_operations s → same_view s s'.
Proof. intros Eq Eo. split; [by rewrite Eq|]. intros j o _ Ho. exists o. by rewrite Eq, Eo. Qed.

Lemma same_view_trans s1 s2 s3 : same_view s1 s2 → same_view s2 s3 → same_view s1 s3.
Proof.
  intros [Ha1 H1] [Ha2 H2]. split; [by rewrite Ha2|]. intros j o Ha Ho. destruct (H1 j o Ha Ho) as (o1 & Ho1 & Hd1 & Hc1).
  rewrite <- Ha1 in Ha. destruct (H2 j o1 Ha Ho1) as (o2 & Ho2 & Hd2 & Hc2). exists o2. by rewrite Hd2, Hc2.
Qed.

(** A change of another operation, or of a field that the cursor does not use. *)
Lemma same_view_alter s s' f i :
  rs_operations s' = alter f i (rs_operations s) → rq_active (rs_queue s') = rq_active (rs_queue s) →
  (∀ j, rq_active (rs_queue s) = Some j → rq_prefix_length (rs_queue s') = rq_prefix_length (rs_queue s)) →
  (rq_active (rs_queue s) = Some i → ∀ o, ro_data (f o) = ro_data o ∧ ro_prefix (f o) = ro_prefix o) →
  same_view s s'.
Proof.
  intros Eo Eq El Hf. split; [done|]. intros j o Ha Ho. rewrite Eo, (El j Ha). unfold captured. destruct (decide (i = j)) as [->|Hne].
  - destruct (Hf Ha o) as [Hd Hp]. exists (f o). rewrite list_lookup_alter_eq, Ho. cbn. by rewrite Hp.
  - exists o. by rewrite list_lookup_alter_ne, Ho.
Qed.

Lemma submit_view s before i after closers posted closing params code s' :
  queue_ok s (before ++ i :: after) closers posted closing → submit_locked i params s = (code, s') → same_view s s'.
Proof.
  intros Hq Hs. destruct (submit_locked_cases i params s) as [(_ & E)|(Est & _ & _ & E)]; rewrite E in Hs; injection Hs as _ <-.
  - by apply (same_view_alter _ _ (set_claimed 0) i).
  - pose proof (claiming_not_held _ _ _ _ _ _ _ Hq) as Hi. rewrite (submit_status_eq _ _ _ _ _ _ Hq) in Est.
    eapply same_view_alter; [done|done| |].
    + intros j Ha. unfold submit_code in Est. destruct (rq_closed (rs_queue s)) eqn:Ec; [by destruct (qo_shut _ _ _ _ _ Hq Ec)|].
      case_bool_decide as Hw; [done|]. destruct (decide (rq_prefix_length (rs_queue s) = 0)) as [E0|E0]; [|cbn; lia].
      destruct (qo_unset _ _ _ _ _ Hq E0). congruence.
    + intros Ha. destruct Hi. rewrite Ha. apply elem_of_app. right. by left.
Qed.

Lemma other_step_view y y' : receive_reachable y → other_step y y' → same_view (sy_state y) (sy_state y').
Proof.
  intros Hy Hstep. destruct (receive_inv y Hy) as (posted & closing & Hok). pose proof (ro_structure _ _ _ Hok) as Hq.
  destruct Hstep as [y i params ops Hpar Hc|y i params before after code s Hcl Hlt Hs|y status pending s Hs|y i before after next c s Hcl Hs
    | | | | | | | | | ]; try by apply same_view_refl.
  - unfold claim_operation in Hc. destruct (sy_operations y !! i) as [o|] eqn:Ho; [|done]. destruct (ro_claimed o =? 0); [|done].
    injection Hc as <-. rewrite (insert_as_alter _ i o (set_claimed 1) Ho). by apply (same_view_alter _ _ (set_claimed 1) i).
  - rewrite Hcl, fmap_app, fmap_cons in Hq. eapply submit_view; [exact Hq|exact Hs].
  - injection Hs as <- <-. split; [done|]. intros j o _ Ho. by exists o.
  - rewrite Hcl in Hq. destruct (close_next_queue_ok _ _ _ _ _ _ _ _ _ _ Hq Hs) as (_ & _ & _ & _ & _ & _ & _ & _ & Eq & _). sys_cbn.
    injection Hs as _ _ <-. apply (same_view_trans _ (with_operations (alter (set_next None) i (rs_operations (sy_state y))) (sy_state y))).
    + by apply (same_view_alter _ _ (set_next None) i).
    + eapply same_view_alter; [done|exact (f_equal rq_active Eq)| |done]. intros j _. exact (f_equal rq_prefix_length Eq).
Qed.

Lemma other_steps_view y y' :
  receive_reachable y → rtc other_step y y' → receive_reachable y' ∧ same_view (sy_state y) (sy_state y').
Proof.
  intros Hy Hsteps. induction Hsteps as [y|y y1 y2 Hstep _ IH]; [by split; [|apply same_view_refl]|].
  destruct IH as [Hy2 Hv]. { destruct Hy as (b & n & Hr). exists b, n. eapply rtc_r; [done|by left]. }
  split; [done|]. eapply same_view_trans; [by eapply other_step_view|done].
Qed.

(** ** The promises *)

Definition active_of (w : cursor_world) (q : nat) : option nat := y ← cw_systems w !! q; rq_active (sy_queue y).

(** Queues in reachable states, of which the cursor holds at most one operation. *)
Record cursor_holds (w : cursor_world) (cur : option (nat * nat)) : Prop := mk_cursor_holds {
  ch_reachable : Forall receive_reachable (cw_systems w);
  ch_env n ys : Forall2 (rtc other_step) ys (cw_env w n ys);
  ch_active q i : active_of w q = Some i ↔ cur = Some (q, i);
}.

Definition cursor_interferes (w w' : cursor_world) : Prop :=
  Forall2 (rtc other_step) (cw_systems w) (cw_systems w') ∧ cw_env w' = cw_env w.

Lemma holds_lookup w cur q y : cursor_holds w cur → cw_systems w !! q = Some y → receive_reachable y.
Proof. intros Hw Hy. exact (proj1 (Forall_lookup _ _) (ch_reachable _ _ Hw) q y Hy). Qed.

(** The operation that the cursor holds. *)
Lemma holds_operation w q i :
  cursor_holds w (Some (q, i)) →
  ∃ y o, cw_systems w !! q = Some y ∧ rq_active (sy_queue y) = Some i ∧ sy_operations y !! i = Some o ∧ world_data (q, i) w = ro_data o.
Proof.
  intros Hw. pose proof (proj2 (ch_active _ _ Hw q i) eq_refl) as Ha. unfold active_of in Ha.
  destruct (cw_systems w !! q) as [y|] eqn:Hy; [|done]. cbn in Ha.
  destruct (receive_inv y (holds_lookup _ _ _ _ Hw Hy)) as (posted & closing & Hok).
  destruct (qo_range _ _ _ _ _ (ro_structure _ _ _ Hok) i) as [o Ho]; [apply elem_of_owners; auto|].
  exists y, o. do 3 (split; [done|]). unfold world_data, operation_of. cbn. rewrite Hy. cbn. unfold sy_operations. by rewrite Ho.
Qed.

Lemma interferes_holds w w' cur :
  cursor_interferes w w' → cursor_holds w cur →
  cursor_holds w' cur ∧
  ∀ o, cur = Some o → world_data o w' = world_data o w ∧ world_captured o w' = world_captured o w.
Proof.
  intros [Hf He] Hw.
  assert (∀ q y, cw_systems w !! q = Some y → ∃ y', cw_systems w' !! q = Some y' ∧ receive_reachable y' ∧ same_view (sy_state y) (sy_state y')) as Hq.
  { intros q y Hy. destruct (Forall2_lookup_l _ _ _ _ _ Hf Hy) as (y' & Hy' & Hsteps). exists y'. split; [done|].
    by apply other_steps_view; [eapply holds_lookup|]. }
  assert (∀ q, active_of w' q = active_of w q) as Hact.
  { intros q. unfold active_of. destruct (cw_systems w !! q) as [y|] eqn:Hy.
    - destruct (Hq q y Hy) as (y' & -> & _ & [Ha _]). exact Ha.
    - pose proof (Forall2_length _ _ _ Hf) as Hl. apply lookup_ge_None in Hy. by rewrite lookup_ge_None_2 by lia. }
  split; [split|].
  - apply Forall_lookup. intros q y' Hy'. destruct (Forall2_lookup_r _ _ _ _ _ Hf Hy') as (y & Hy & _).
    destruct (Hq q y Hy) as (y2 & Hy2 & ? & _). by simplify_eq.
  - rewrite He. apply Hw.
  - intros q i. rewrite Hact. apply Hw.
  - intros [q i] ->. destruct (holds_operation _ _ _ Hw) as (y & o & Hy & Ha & Ho & Hd). destruct (Hq q y Hy) as (y' & Hy' & _ & [_ Hv]).
    destruct (Hv i o Ha Ho) as (o' & Ho' & Hd' & Hc'). rewrite Hd. unfold world_data, world_captured, operation_of. cbn.
    rewrite Hy, Hy'. cbn. unfold sy_operations. rewrite Ho'. done.
Qed.

Lemma interleave_holds w cur :
  cursor_holds w cur →
  cursor_holds (interleave w) cur ∧
  ∀ o, cur = Some o → world_data o (interleave w) = world_data o w ∧ world_captured o (interleave w) = world_captured o w.
Proof. intros Hw. apply interferes_holds; [|done]. split; [apply Hw|done]. Qed.

(** A step of the cursor on one queue, which holds no operation elsewhere. *)
Lemma update_holds w cur q y y' :
  cursor_holds w cur → cw_systems w !! q = Some y → cursor_step y y' → (∀ q' i, cur = Some (q', i) → q' = q) →
  cursor_holds (with_systems (<[q := y']> (cw_systems w)) w) (pair q <$> rq_active (sy_queue y')).
Proof.
  intros Hw Hy Hstep Hcur. pose proof (lookup_lt_Some _ _ _ Hy) as Hlt. split; [|apply Hw|].
  - apply Forall_insert; [apply Hw|]. destruct (holds_lookup _ _ _ _ Hw Hy) as (b & n & Hr). exists b, n. eapply rtc_r; [done|by right].
  - intros q' i. unfold active_of. cbn. destruct (decide (q' = q)) as [->|Hne].
    + rewrite list_lookup_insert_eq by done. cbn. destruct (rq_active (sy_queue y')); cbn; naive_solver.
    + rewrite list_lookup_insert_ne by done. split.
      * intros Ha. apply (ch_active _ _ Hw) in Ha. by apply Hcur in Ha.
      * destruct (rq_active (sy_queue y')); cbn; [|done]. intros [= ? _]. congruence.
Qed.

Lemma lookup_updated w q y' : (q < length (cw_systems w))%nat → cw_systems (with_systems (<[q := y']> (cw_systems w)) w) !! q = Some y'.
Proof. apply list_lookup_insert_eq. Qed.

Lemma prefix_length_holds q w n w' :
  cursor_holds w None → world_prefix_length q w = (n, w') → cursor_holds w' None ∧ 0 <= n <= IREE_NET_MESSAGE_RECEIVE_PREFIX_CAPACITY.
Proof.
  intros Hw. destruct (interleave_holds _ _ Hw) as [Hw' _]. unfold world_prefix_length. set (w1 := interleave w) in *.
  intros [<- <-]%pair_equal_spec. split; [done|].
  destruct (cw_systems w1 !! q) as [y|] eqn:Hy; [|unfold IREE_NET_MESSAGE_RECEIVE_PREFIX_CAPACITY; lia].
  destruct (receive_inv y (holds_lookup _ _ _ _ Hw' Hy)) as (posted & closing & Hok). apply (qo_width _ _ _ _ _ (ro_structure _ _ _ Hok)).
Qed.

Lemma match_holds q prefix n w r w' :
  cursor_holds w None → world_match q prefix n w = (r, w') →
  match r with
  | Ok (Some o) => cursor_holds w' (Some o) ∧ byte_length (world_data o w') = n ∧ world_captured o w' = prefix
  | Ok None => cursor_holds w' None
  | Err code => cursor_holds w' None ∧ code ≠ IREE_STATUS_OK
  end.
Proof.
  intros Hw. destruct (interleave_holds _ _ Hw) as [Hw' _]. unfold world_match. set (w1 := interleave w) in *.
  destruct (cw_systems w1 !! q) as [y|] eqn:Hy; [|by intros [= <- <-]].
  destruct (receive_inv y (holds_lookup _ _ _ _ Hw' Hy)) as (posted & closing & Hok).
  assert (rq_active (sy_queue y) = None) as Ha.
  { destruct (rq_active (sy_queue y)) as [i|] eqn:Ha; [|done]. assert (active_of w1 q = Some i) as Hc by (unfold active_of; by rewrite Hy).
    by apply (ch_active _ _ Hw') in Hc. }
  destruct (iree_net_message_receive_queue_match prefix n (sy_state y)) as [r0 s] eqn:Em.
  pose proof (match_spec _ _ _ _ _ _ _ _ _ (ro_structure _ _ _ Hok) Ha Em) as Hm.
  pose proof (update_holds w1 None q y (with_state s y) Hw' Hy (cursor_match y prefix n r0 s Ha Em) ltac:(done)) as Hu.
  pose proof (lookup_updated w1 q (with_state s y) (lookup_lt_Some _ _ _ Hy)) as Hl.
  destruct r0 as [[i|]|code]; intros [<- <-]%pair_equal_spec; cbn in Hm; cbn [fmap option_fmap option_map].
  - destruct Hm as (_ & l1 & l2 & o & _ & Hc & Ho & Hlen & _ & Ha' & _ & Ew & Hsame & _). unfold sy_queue in Hu. cbn in Hu. rewrite Ha' in Hu.
    split; [exact Hu|]. unfold world_data, world_captured, operation_of. cbn [fst snd]. rewrite Hl. cbn.
    unfold sy_operations, iree_net_message_receive_queue_prefix_length. cbn. split.
    + specialize (Hsame i). rewrite Ho in Hsame. destruct (rs_operations s !! i) as [o'|]; [|done]. cbn in Hsame. injection Hsame as _ _ Hd _ _.
      by rewrite Hd.
    + by rewrite (same_capture_captured _ _ _ _ Hsame), Ew.
  - destruct Hm as [-> _]. unfold sy_queue in Hu, Ha. cbn in Hu. by rewrite Ha in Hu.
  - destruct Hm as (-> & -> & _). unfold sy_queue in Hu, Ha. cbn in Hu. by rewrite Ha in Hu.
Qed.

Lemma write_holds w o offset bytes :
  cursor_holds w (Some o) → Z.of_nat offset + byte_length bytes <= byte_length (world_data o w) →
  cursor_holds (world_write o offset bytes w) (Some o) ∧
  world_data o (world_write o offset bytes w) = write_bytes offset bytes (world_data o w) ∧
  world_captured o (world_write o offset bytes w) = world_captured o w.
Proof.
  destruct o as [q i]. intros Hw Hlen. destruct (holds_operation _ _ _ Hw) as (y & r & Hy & Ha & Hr & Hd). rewrite Hd in *.
  unfold world_write. cbn [fst snd]. rewrite Hy. set (y' := with_state _ y).
  assert (cursor_step y y') as Hstep by (apply (cursor_place y i r); [done|done|unfold byte_length in Hlen; lia]).
  pose proof (update_holds w _ q y y' Hw Hy Hstep ltac:(by intros ? ? [= -> _])) as Hu.
  pose proof (lookup_updated w q y' (lookup_lt_Some _ _ _ Hy)) as Hl.
  split; [|unfold world_data, world_captured, operation_of; cbn [fst snd]; rewrite Hl, Hy; cbn; split].
  - change (rq_active (sy_queue y')) with (rq_active (sy_queue y)) in Hu. by rewrite Ha in Hu.
  - unfold sy_operations in *. cbn. by rewrite list_lookup_alter_eq, Hr.
  - unfold sy_operations, iree_net_message_receive_queue_prefix_length. cbn. by apply captured_alter.
Qed.

Lemma complete_holds w o status n : cursor_holds w (Some o) → cursor_holds (world_complete o status n w) None.
Proof.
  destruct o as [q i]. intros Hw. destruct (interleave_holds _ _ Hw) as [Hw' _]. unfold world_complete. set (w1 := interleave w) in *.
  destruct (holds_operation _ _ _ Hw') as (y & r & Hy & Ha & Hr & _). cbn [fst snd]. rewrite Hy.
  destruct (complete_locked i status n (sy_state y)) as [c s] eqn:Ec.
  destruct (receive_inv y (holds_lookup _ _ _ _ Hw' Hy)) as (posted & closing & Hok).
  destruct (complete_queue_ok _ _ _ _ _ _ _ _ _ _ (ro_structure _ _ _ Hok) Ha Ec) as [_ Hnone].
  pose proof (update_holds w1 _ q y _ Hw' Hy (cursor_complete y i status n c s Ha Ec) ltac:(by intros ? ? [= -> _])) as Hu.
  unfold sy_queue in Hu. cbn in Hu. by rewrite Hnone in Hu.
Qed.

(** The receive queues keep what the accumulator relies on. *)
#[export] Instance receive_cursor_laws : CursorLaws cursor_world nat (nat * nat) := {|
  cursor_owns := cursor_holds;
  interferes := cursor_interferes;
  interferes_law := interferes_holds;
  prefix_length_law := prefix_length_holds;
  match_law := match_holds;
  length_law _ _ _ := eq_refl;
  write_law := write_holds;
  complete_law := complete_holds;
|}.
