(* ===== verification/FrameTheorems.v ===== *)
(** * Properties of frame reassembly

    The frames and bytes of a stream are those of a reference parser on all of its bytes
    ([cut_frames]), in whatever pieces and through whatever entry point they arrive; every
    push returns, and its failures are explained; an aborted receive is returned with the
    number of bytes that were placed. *)

From S2P Require Import Prelude BaseMath EndpointLifecycle ReceiveQueue ReceiveInvariant ReceiveTheorems.
From S2P Require Import FrameAccumulator FrameInvariant ReceiveCursor.
From stdpp Require Import base numbers list relations.

Local Open Scope Z_scope.
Local Open Scope machine_scope.

Section theorems.
Context {W Q O : Type} `{RQ : ReceiveQueues W Q O} `{!CursorLaws W Q O} `{EqDecision O}.
Context (cfg : accumulator_config W Q).

Notation accumulator := (iree_net_frame_accumulator_t Q O).
Notation machine := (machine W Q O).
Notation header_size := (ac_header_size cfg).

(** ** The reference parser *)

(** The frames at the start of [bytes] and the rest; the fuel is the number of bytes. *)
Fixpoint cut_frames (fuel : nat) (bytes : list Z) : list (list Z) * list Z :=
  match fuel with
  | 0%nat => ([], bytes)
  | S fuel =>
      if byte_length bytes <? header_size then ([], bytes)
      else
        match resolve_frame_size cfg (take (Z.to_nat header_size) bytes) with
        | Err _ => ([], bytes)
        | Ok n =>
            if byte_length bytes <? n then ([], bytes)
            else
              let '(frames, rest) := cut_frames fuel (drop (Z.to_nat n) bytes) in
              (take (Z.to_nat n) bytes :: frames, rest)
        end
  end.

(** ** Streams *)

(** The bytes that arrive: in storage of the carrier, with a lease of it or without, or
    written by the carrier into the span that the accumulator offers. *)
Inductive arrival :=
  | ArrivalSpan (span : carrier_span O)
  | ArrivalLease (span : carrier_span O) (lease : carrier_lease)
  | ArrivalNative (region : option (Z * bool)) (offset : Z) (bytes : list Z).

Definition arrival_bytes (v : arrival) : list Z :=
  match v with ArrivalSpan span => cs_bytes span | ArrivalLease span _ => cs_bytes span | ArrivalNative _ _ bytes => bytes end.

(** What the carrier provides: its own storage, and no more bytes than were offered. *)
Definition arrival_ok (v : arrival) (m : machine) : Prop :=
  match v with
  | ArrivalSpan span => ∃ offset, cs_pointer span = PointerCarrier offset
  | ArrivalLease span lease => (∃ offset, cs_pointer span = PointerCarrier offset) ∧
      in_width 64 (cs_offset span) ∧ in_width 64 (cl_offset lease) ∧ in_width 64 (cl_length lease)
  | ArrivalNative _ _ bytes => byte_length bytes <= (iree_net_frame_accumulator_query_receive_buffer cfg (ma_accumulator m)).2
  end.

Definition push (v : arrival) (m : machine) : option (iree_status_code * machine) :=
  match v with
  | ArrivalSpan span => iree_net_frame_accumulator_push_span cfg span m
  | ArrivalLease span lease => iree_net_frame_accumulator_push_lease cfg span lease m
  | ArrivalNative region offset bytes =>
      let target := (iree_net_frame_accumulator_query_receive_buffer cfg (ma_accumulator m)).1 in
      iree_net_frame_accumulator_push_span cfg (mk_carrier_span region offset target bytes) (store_bytes target bytes m)
  end.

(** Arrivals that were processed, with the steps of others between the pushes. *)
Inductive stream_run (m : machine) : list arrival → machine → Prop :=
  | stream_start : stream_run m [] m
  | stream_push vs m1 v m2 :
      stream_run m vs m1 → arrival_ok v m1 → push v m1 = Some (IREE_STATUS_OK, m2) → stream_run m (vs ++ [v]) m2
  | stream_other vs m1 w :
      stream_run m vs m1 → interferes (ma_world m1) w → stream_run m vs (with_world w m1).

Definition stream_bytes (vs : list arrival) : list Z := concat (arrival_bytes <$> vs).

(** A new accumulator in storage of the size that [calculate_storage_size] gives. *)
Definition starts (m : machine) : Prop :=
  ∃ storage w, byte_length storage = header_size + IREE_NET_MESSAGE_RECEIVE_PREFIX_CAPACITY ∧
    iree_net_frame_accumulator_initialize true true cfg storage = Ok (ma_accumulator m) ∧
    m = mk_machine (ma_accumulator m) w None [] ∧ cursor_owns w None.

Context (Hcfg : config_ok cfg).

(** ** Uniqueness of the cut *)

(** Bytes that do not contain a whole frame. *)
Definition incomplete (bytes : list Z) : Prop :=
  byte_length bytes < header_size ∨
  ∃ n, resolve_frame_size cfg (take (Z.to_nat header_size) bytes) = Ok n ∧ byte_length bytes < n.

Lemma cut_incomplete fuel bytes : incomplete bytes → cut_frames fuel bytes = ([], bytes).
Proof.
  destruct fuel as [|fuel]; [done|]. intros H. cbn. destruct (Z.ltb_spec (byte_length bytes) header_size); [done|].
  destruct H as [?|(n & -> & Hn)]; [lia|]. by destruct (Z.ltb_spec (byte_length bytes) n); [|lia].
Qed.

Lemma cut_frames_unique fuel frames rest :
  Forall (frame_valid cfg) frames → incomplete rest → (length (concat frames ++ rest) <= fuel)%nat →
  cut_frames fuel (concat frames ++ rest) = (frames, rest).
Proof.
  intros Hv Hrest. revert fuel. pose proof (co_sizes _ Hcfg). induction Hv as [|frame frames [Hlen Hres] _ IH]; intros fuel Hfuel.
  - by apply cut_incomplete.
  - cbn [concat app] in *. rewrite <- app_assoc in *. set (tail := concat frames ++ rest) in *. rewrite length_app in Hfuel.
    unfold byte_length in Hlen. destruct fuel as [|fuel]; [lia|]. cbn [cut_frames]. rewrite byte_length_app.
    pose proof (byte_length_nonneg tail). destruct (Z.ltb_spec (byte_length frame + byte_length tail) header_size); [unfold byte_length in *; lia|].
    rewrite take_app_le, Hres by lia. destruct (Z.ltb_spec (byte_length frame + byte_length tail) (byte_length frame)); [lia|].
    rewrite <- length_byte_length, drop_app_length, take_app_length, IH by lia. done.
Qed.

Lemma held_incomplete (a : accumulator) w : accumulator_ok cfg a w → incomplete (held_bytes cfg a w).
Proof.
  intros [Hh Hown Hph]. pose proof (co_sizes _ Hcfg). destruct Hph as [Hp|[Hp|[Hb Hlt]]].
  - destruct Hp as (_ & Hu & _ & Hf & _). left. unfold held_bytes. rewrite Hf. cbn. rewrite byte_length_take; [lia|].
    unfold header_storage, IREE_NET_MESSAGE_RECEIVE_PREFIX_CAPACITY in *. lia.
  - destruct Hp as ([Hres Hsz] & Hu & Hf & _). destruct Hsz as (Hn & Hp & Hl). right. exists (fa_frame_size a).
    unfold held_bytes, header_storage, lookahead in *. rewrite Hf. cbn [Z.eqb]. rewrite take_take, Nat.min_l by lia. split; [done|].
    rewrite byte_length_take by lia. lia.
  - destruct (held_body cfg Hcfg a w Hh Hown Hb) as [Hlen Htake]. pose proof Hb as ([Hres Hsz] & _ & Hf & _).
    destruct Hsz as (Hn & Hp & Hl). right. exists (fa_frame_size a). rewrite Hlen. split; [|done]. rewrite <- Hres. f_equal.
    by apply (take_header cfg Hcfg a).
Qed.

(** ** Steps of others *)

Lemma body_interferes (a : accumulator) w w' :
  interferes w w' → cursor_owns w (fa_receive_operation a) → in_body cfg a w → in_body cfg a w' ∧ held_bytes cfg a w' = held_bytes cfg a w.
Proof.
  intros Hi Hown (Hr & Hu & Hf & Hs). destruct (interferes_law _ _ _ Hi Hown) as [Hown' Hsame]. split.
  - do 3 (split; [done|]). unfold body_storage in *. destruct (fa_receive_operation a) as [o|]; [|done].
    destruct (Hsame o eq_refl) as [Hd Hp]. destruct Hs as (? & Hl & ?). split; [done|]. split; [|by rewrite Hp].
    by rewrite <- (length_law _ _ Hown'), Hd, (length_law _ _ Hown).
  - unfold held_bytes. destruct (fa_receive_operation a) as [o|]; [|done]. by destruct (Hsame o eq_refl) as [-> _].
Qed.

Lemma accumulator_interferes (a : accumulator) w w' :
  interferes w w' → accumulator_ok cfg a w → accumulator_ok cfg a w' ∧ held_bytes cfg a w' = held_bytes cfg a w.
Proof.
  intros Hi [Hh Hown Hph]. destruct (interferes_law _ _ _ Hi Hown) as [Hown' Hsame].
  assert (held_bytes cfg a w' = held_bytes cfg a w) as Hheld.
  { unfold held_bytes. destruct (fa_receive_operation a) as [o|]; [|done]. by destruct (Hsame o eq_refl) as [-> _]. }
  split; [|done]. split; [done|done|]. destruct Hph as [?|[?|[Hb ?]]]; [auto..|]. right. right. split; [|done].
  by apply (body_interferes a w w' Hi Hown Hb).
Qed.

Lemma abort_interferes (a : accumulator) w w' : interferes w w' → abort_safe cfg a w → abort_safe cfg a w'.
Proof.
  intros Hi (Hh & Hown & Hb). destruct (interferes_law _ _ _ Hi Hown) as [Hown' _]. do 2 (split; [done|]). intros Hne.
  by apply (body_interferes a w w' Hi Hown), Hb.
Qed.

(** ** Native writes *)

Lemma slice_write_bytes offset bytes target :
  0 <= offset → offset + byte_length bytes <= byte_length target →
  span_slice offset (byte_length bytes) (write_bytes (Z.to_nat offset) bytes target) = bytes.
Proof.
  intros Ho Hl. unfold span_slice, write_bytes, byte_length in *. rewrite drop_app_length' by (rewrite length_take; lia).
  apply take_app_length'. lia.
Qed.

(** Bytes written into the offered span change nothing until they are pushed. *)
Definition native_written (m m1 : machine) (target : pointer O) (bytes : list Z) : Prop :=
  accumulator_ok cfg (ma_accumulator m1) (ma_world m1) ∧ source_ok cfg target bytes m1 ∧ ma_calls m1 = ma_calls m ∧
  held_bytes cfg (ma_accumulator m1) (ma_world m1) = held_bytes cfg (ma_accumulator m) (ma_world m).

Lemma native_header bytes (m : machine) :
  let a := ma_accumulator m in
  header_storage cfg a → cursor_owns (ma_world m) None → in_header cfg a ∨ in_prefix cfg a →
  byte_length bytes <= lookahead cfg a - fa_header_used a →
  native_written m (store_bytes (PointerHeader (fa_header_used a)) bytes m) (PointerHeader (fa_header_used a)) bytes.
Proof.
  intros a Hh Hown Hph Hlen. pose proof (phase_collecting cfg Hcfg _ Hph) as Hc. pose proof (collecting_query cfg Hcfg _ Hc) as Hq.
  destruct Hc as [Hf Hop Hl Hu Hp Hm Hs]. pose proof (byte_length_nonneg bytes). cbn [store_bytes]. fold a.
  assert (Z.to_nat (fa_header_used a) + length bytes <= length (fa_header a))%nat as Hfit.
  { rewrite !length_byte_length. unfold header_storage, lookahead in *. lia. }
  set (header := write_bytes _ bytes _).
  assert (∀ n, n <= fa_header_used a → take (Z.to_nat n) header = take (Z.to_nat n) (fa_header a)) as Htake.
  { intros n Hn. apply take_write_bytes_before; [lia|done]. }
  assert (held_bytes cfg (set_header header a) (ma_world m) = held_bytes cfg a (ma_world m)) as Hheld.
  { unfold held_bytes. cbn. rewrite Hf. by apply Htake. }
  split; [|split; [|by split]].
  - split; cbn; [unfold header_storage, byte_length in *; cbn; unfold header; by rewrite length_write_bytes|by rewrite Hop|].
    destruct Hph as [Hph|(Hr & Hu' & Hrest)]; [by left|]. right. left. split; [|done]. destruct Hr as [Hres Hsz]. split; [|done]. cbn.
    by rewrite Htake by lia.
  - unfold source_ok. cbn [ma_accumulator with_accumulator].
    change (iree_net_frame_accumulator_query_receive_buffer cfg (set_header header a)) with (iree_net_frame_accumulator_query_receive_buffer cfg a).
    rewrite Hq. right. split; [done|]. split; [done|]. cbn. apply slice_write_bytes; [lia|]. unfold header_storage, lookahead in *. lia.
Qed.

Lemma native_destination o bytes (m : machine) :
  let a := ma_accumulator m in
  header_storage cfg a → fa_receive_operation a = Some o → cursor_owns (ma_world m) (Some o) → in_body cfg a (ma_world m) →
  fa_frame_used a < fa_frame_size a → byte_length bytes <= fa_frame_size a - fa_frame_used a →
  let p := PointerBody o (fa_frame_used a - lookahead cfg a) in native_written m (store_bytes p bytes m) p bytes.
Proof.
  intros a Hh Eo Hown Hb Hlt Hlen. pose proof (body_query cfg Hcfg _ _ Hb Hlt) as Hq. rewrite Eo in Hq.
  pose proof Hb as (Hr & Hu & Hf & Hs). unfold body_storage in Hs. rewrite Eo in Hs. destruct Hs as (El & Hol & Hpre).
  pose proof (length_law _ _ Hown) as Hlaw. set (off := fa_frame_used a - lookahead cfg a) in *. cbn [store_bytes].
  destruct (write_law (ma_world m) o (Z.to_nat off) bytes Hown) as (Hown' & Hdata & Hpre'); [lia|].
  set (w := operation_write o _ bytes _) in *. pose proof (length_law _ _ Hown') as Hlaw'.
  assert (Z.to_nat off + length bytes <= length (operation_data o (ma_world m)))%nat as Hfit by (rewrite !length_byte_length; lia).
  rewrite Hdata in Hlaw'. unfold byte_length in Hlaw'. rewrite length_write_bytes in Hlaw' by done.
  fold (byte_length (operation_data o (ma_world m))) in Hlaw'.
  split; [|split; [|split; [done|]]]; cbn; fold a.
  - split; [done|by rewrite Eo|]. right. right. split; [|done]. do 3 (split; [done|]). unfold body_storage, matched. rewrite Eo, Hpre'.
    split; [done|]. split; [lia|done].
  - unfold source_ok. cbn [ma_accumulator with_world]. fold a. rewrite Hq. right. split; [done|]. split; [done|]. cbn. rewrite Hdata.
    apply slice_write_bytes; lia.
  - unfold held_bytes. rewrite Eo, Hdata. destruct (fa_frame_used a =? 0); [done|]. f_equal. fold off. by apply take_write_bytes_before.
Qed.

Lemma native_lease l bytes (m : machine) :
  let a := ma_accumulator m in
  header_storage cfg a → fa_receive_operation a = None → cursor_owns (ma_world m) None → in_body cfg a (ma_world m) →
  fa_frame_used a < fa_frame_size a → byte_length bytes <= fa_frame_size a - fa_frame_used a → fa_frame_lease a = Some l →
  let p := PointerLease (bl_storage l) (fa_frame_used a) in native_written m (store_bytes p bytes m) p bytes.
Proof.
  intros a Hh Eo Hown Hb Hlt Hlen El. pose proof (body_query cfg Hcfg _ _ Hb Hlt) as Hq. rewrite Eo, El in Hq.
  pose proof Hb as (Hr & Hu & Hf & Hs). pose proof Hr as (_ & Hsz & Hp & Hle). pose proof (co_sizes _ Hcfg).
  unfold body_storage in Hs. rewrite Eo in Hs. destruct Hs as (l' & El' & Hl & Ht). rewrite El in El'. injection El' as <-.
  assert (Z.to_nat (fa_frame_used a) + length bytes <= length (bl_bytes l))%nat as Hfit.
  { rewrite !length_byte_length, Hl. unfold lookahead in *. lia. }
  cbn [store_bytes]. fold a. rewrite El. set (l1 := mk_buffer_lease _ _). set (a1 := set_frame_lease (Some l1) a).
  assert (iree_net_frame_accumulator_query_receive_buffer cfg a1 = iree_net_frame_accumulator_query_receive_buffer cfg a) as Hq1.
  { unfold iree_net_frame_accumulator_query_receive_buffer. cbn. by rewrite El. }
  split; [|split; [|split; [done|]]]; cbn; fold a.
  - split; [done|cbn; by rewrite Eo|]. right. right. split; [|done]. do 3 (split; [done|]). unfold body_storage. cbn. rewrite Eo.
    exists l1. split; [done|]. cbn. split; [unfold byte_length; by rewrite length_write_bytes|].
    rewrite take_write_bytes_before; [done| |done]. unfold lookahead in *. cbn. lia.
  - unfold source_ok. cbn [ma_accumulator with_accumulator]. rewrite Hq1, Hq. right. split; [done|]. split; [done|]. cbn.
    apply slice_write_bytes; unfold lookahead in *; lia.
  - unfold held_bytes. cbn. rewrite Eo, El. destruct (fa_frame_used a =? 0); [done|]. by apply take_write_bytes_before.
Qed.

Lemma native_store_ok bytes (m : machine) :
  let a := ma_accumulator m in
  let offered := iree_net_frame_accumulator_query_receive_buffer cfg a in
  accumulator_ok cfg a (ma_world m) → byte_length bytes <= offered.2 →
  native_written m (store_bytes offered.1 bytes m) offered.1 bytes.
Proof.
  intros a offered [Hh Hown Hph] Hlen. assert ((in_header cfg a ∨ in_prefix cfg a) ∨ (in_body cfg a (ma_world m) ∧ fa_frame_used a < fa_frame_size a))
    as [Hcol|[Hb Hlt]] by tauto.
  - pose proof (phase_collecting cfg Hcfg _ Hcol) as Hc. unfold offered in *. rewrite (collecting_query cfg Hcfg _ Hc) in *.
    rewrite (cl_operation _ _ Hc) in Hown. by apply native_header.
  - unfold offered in *. rewrite (body_query cfg Hcfg _ _ Hb Hlt) in *. destruct (fa_receive_operation a) as [o|] eqn:Eo; cbn in *.
    + by apply native_destination.
    + pose proof Hb as (_ & _ & _ & Hs). unfold body_storage in Hs. rewrite Eo in Hs. destruct Hs as (l & El & _). rewrite El.
      by apply native_lease.
Qed.

(** ** Pushes *)

(** The checks of a push that do not look at the bytes. *)
Definition span_failure (v : arrival) (m : machine) : iree_status_code → Prop :=
  let check (span : carrier_span O) code :=
    (code = IREE_STATUS_FAILED_PRECONDITION ∧ iree_async_span_is_cpu_accessible span = false) ∨
    (code = IREE_STATUS_INVALID_ARGUMENT ∧ span_is_null span = true) in
  match v with
  | ArrivalSpan span => check span
  | ArrivalLease span lease => λ code, check span code ∨
      code = IREE_STATUS_OUT_OF_RANGE ∧
      (cs_region span ≠ cl_region lease ∨ cs_offset span < cl_offset lease ∨
       cl_offset lease + cl_length lease < cs_offset span + byte_length (cs_bytes span))
  | ArrivalNative region offset bytes =>
      check (mk_carrier_span region offset (iree_net_frame_accumulator_query_receive_buffer cfg (ma_accumulator m)).1 bytes)
  end.

(** What a push does: all bytes are in the new frames and in what is held, or it fails for
    a reason that is named, after frames of the bytes before. *)
Definition pushed (explained : iree_status_code → Prop) (held bytes : list Z) (calls : list (accumulator_call O))
    (st : iree_status_code) (m' : machine) : Prop :=
  ∃ new, ma_calls m' = calls ++ new ∧ Forall (call_ok cfg) new ∧
    if bool_decide (st = IREE_STATUS_OK)
    then accumulator_ok cfg (ma_accumulator m') (ma_world m') ∧
      concat (frames new) ++ held_bytes cfg (ma_accumulator m') (ma_world m') = held ++ bytes
    else abort_safe cfg (ma_accumulator m') (ma_world m') ∧ ∃ rest, concat (frames new) ++ rest = held ++ bytes ∧
      (explained st ∨ external_failure (O := O) cfg st ∨
       header_size <= byte_length rest ∧ resolve_frame_size cfg (take (Z.to_nat header_size) rest) = Err st).

Lemma pushed_weaken (P P' : iree_status_code → Prop) held bytes calls st m' :
  (∀ code, P code → P' code) → pushed P held bytes calls st m' → pushed P' held bytes calls st m'.
Proof.
  intros HP (new & Hc & Hok & Hcase). exists new. do 2 (split; [done|]). case_bool_decide; [done|].
  destruct Hcase as (Hs & rest & Heq & Hwhy). split; [done|]. exists rest. split; [done|]. destruct Hwhy as [?|[?|?]]; auto.
Qed.

Lemma process_ok (span : carrier_span O) (m : machine) :
  accumulator_ok cfg (ma_accumulator m) (ma_world m) → cs_bytes span = [] ∨ source_ok cfg (cs_pointer span) (cs_bytes span) m →
  ∃ st m', iree_net_frame_accumulator_process cfg span m = Some (st, m') ∧
    pushed (λ code, (code = IREE_STATUS_FAILED_PRECONDITION ∧ iree_async_span_is_cpu_accessible span = false) ∨
                    (code = IREE_STATUS_INVALID_ARGUMENT ∧ span_is_null span = true))
      (held_bytes cfg (ma_accumulator m) (ma_world m)) (cs_bytes span) (ma_calls m) st m'.
Proof.
  intros Hok Hsrc. pose proof (between_abort_safe _ _ _ (accumulator_between _ _ _ Hok)) as Habort.
  unfold iree_net_frame_accumulator_process. destruct (Z.eqb_spec (byte_length (cs_bytes span)) 0) as [E|E].
  { assert (cs_bytes span = []) as -> by (destruct (cs_bytes span); [done|unfold byte_length in E; cbn in E; lia]).
    exists IREE_STATUS_OK, m. split; [done|]. exists []. rewrite !app_nil_r. do 2 (split; [done|]). done. }
  destruct (iree_async_span_is_cpu_accessible span) eqn:Ea; cbn [negb].
  2: { eexists _, m. split; [done|]. exists []. rewrite app_nil_r. do 3 (split; [done|]). eexists. split; [done|]. by left; left. }
  destruct (span_is_null span) eqn:En.
  { eexists _, m. split; [done|]. exists []. rewrite app_nil_r. do 3 (split; [done|]). eexists. split; [done|]. by left; right. }
  destruct (process_loop_ok cfg Hcfg (length (cs_bytes span)) (cs_pointer span) (cs_bytes span) m Hok Hsrc) as (st & m' & -> & Hp); [done|].
  exists st, m'. split; [done|]. destruct Hp as (new & Hc & Hcalls & Hcase). exists new. do 2 (split; [done|]).
  case_bool_decide; [done|]. destruct Hcase as (? & rest & ? & Hwhy). split; [done|]. exists rest. split; [done|]. tauto.
Qed.

(** The release of the lease at the end of [push_lease]. *)
Lemma pushed_release P held bytes calls st (m' : machine) lease :
  pushed P held bytes calls st m' → pushed P held bytes calls st (with_input None (iree_async_buffer_lease_release cfg lease m')).
Proof.
  intros (new & Hc & Hok & Hcase). destruct lease as [storage|]; [|by exists new]. exists (new ++ [CallRelease storage]). cbn.
  rewrite Hc, <- app_assoc, frames_app, Forall_app, app_nil_r. split; [done|]. split; [by repeat (constructor; try done)|].
  pose proof (co_release _ Hcfg storage (ma_world m')) as Hi. case_bool_decide.
  - destruct Hcase as [Ha Heq]. destruct (accumulator_interferes _ _ _ Hi Ha) as [Ha' ->]. done.
  - destruct Hcase as [Ha Hrest]. split; [|done]. by eapply abort_interferes.
Qed.

Lemma carrier_source_ok (span : carrier_span O) (m : machine) :
  (∃ offset, cs_pointer span = PointerCarrier offset) → source_ok cfg (cs_pointer span) (cs_bytes span) m.
Proof. intros H. unfold source_ok. destruct (iree_net_frame_accumulator_query_receive_buffer _ _). by left. Qed.

(** Every push returns. *)
Lemma push_ok v (m : machine) :
  accumulator_ok cfg (ma_accumulator m) (ma_world m) → arrival_ok v m →
  ∃ st m', push v m = Some (st, m') ∧
    pushed (span_failure v m) (held_bytes cfg (ma_accumulator m) (ma_world m)) (arrival_bytes v) (ma_calls m) st m'.
Proof.
  intros Hok Hv. destruct v as [span|span lease|region offset bytes]; cbn [push arrival_bytes] in *.
  - unfold iree_net_frame_accumulator_push_span. exact (process_ok span (with_input None m) Hok (or_intror (carrier_source_ok span _ Hv))).
  - destruct Hv as (Hp & Ho & Hlo & Hll). unfold iree_net_frame_accumulator_push_lease. set (m1 := with_input _ m).
    pose proof (between_abort_safe _ _ _ (accumulator_between _ _ _ Hok)) as Habort.
    destruct (negb _ || _ || _ || _) eqn:Eg.
    + eexists _, _. split; [done|]. apply pushed_release. exists []. rewrite app_nil_r. do 3 (split; [done|]). eexists. split; [done|].
      left. right. split; [done|]. rewrite !orb_true_iff, negb_true_iff, bool_decide_eq_false, !Z.ltb_lt in Eg.
      destruct (Z.lt_ge_cases (cs_offset span) (cl_offset lease)) as [?|Hge]; [by right; left|].
      unfold in_width in *. rewrite (usub_small 64 (cs_offset span)) in Eg by (unfold in_width; lia).
      pose proof (byte_length_nonneg (cs_bytes span)).
      destruct (Z.lt_ge_cases (cl_length lease) (cs_offset span - cl_offset lease)) as [?|Hge']; [right; right; lia|].
      rewrite usub_small in Eg by (unfold in_width; lia). destruct Eg as [[[?|?]|?]|?]; [by left|lia|lia|right; right; lia].
    + destruct (process_ok span m1 Hok (or_intror (carrier_source_ok span _ Hp))) as (st & m2 & -> & Hpush). cbn.
      eexists _, _. split; [done|]. apply pushed_release. eapply pushed_weaken; [|exact Hpush]. intros code Hcode. by left.
  - destruct (native_store_ok bytes m Hok Hv) as (Hok1 & Hsrc & Hcalls & Hheld).
    set (offered := iree_net_frame_accumulator_query_receive_buffer cfg (ma_accumulator m)) in *.
    set (m1 := store_bytes _ _ m) in *. rewrite <- Hheld, <- Hcalls.
    exact (process_ok (mk_carrier_span region offset offered.1 bytes) (with_input None m1) Hok1 (or_intror Hsrc)).
Qed.

(** ** Runs *)

(** The calls and held bytes of a machine are a cut of the stream. *)
Definition stream_ok (stream : list Z) (m : machine) : Prop :=
  accumulator_ok cfg (ma_accumulator m) (ma_world m) ∧ Forall (call_ok cfg) (ma_calls m) ∧
  concat (frames (ma_calls m)) ++ held_bytes cfg (ma_accumulator m) (ma_world m) = stream.

Lemma starts_ok (m : machine) : starts m → stream_ok [] m.
Proof.
  intros (storage & w & Hs & Hi & -> & Hown). unfold iree_net_frame_accumulator_initialize in Hi. cbn in Hi.
  destruct (_ =? 0); [done|]. destruct (_ || _); [done|]. destruct (_ <? _); [done|]. injection Hi as <-.
  pose proof (co_sizes _ Hcfg). split; [|split; [constructor|done]]. split; [done|done|]. left. repeat (split; [done || (cbn; lia)|]). done.
Qed.

Lemma stream_run_ok (m m' : machine) vs : starts m → stream_run m vs m' → stream_ok (stream_bytes vs) m'.
Proof.
  intros Hstart. induction 1 as [|vs m1 v m2 _ (Hok & Hcalls & Heq) Hv Hpush|vs m1 w _ (Hok & Hcalls & Heq) Hi].
  - by apply starts_ok.
  - destruct (push_ok v m1 Hok Hv) as (st & m' & Hpush' & new & Hnew & Hok' & Hcase). rewrite Hpush in Hpush'. injection Hpush' as <- <-.
    destruct Hcase as [Ha Hcut]. split; [done|]. rewrite Hnew, frames_app, concat_app, Forall_app. split; [done|].
    unfold stream_bytes in *. rewrite fmap_app, concat_app, <- Heq. cbn. by rewrite app_nil_r, <- !app_assoc, Hcut.
  - destruct (accumulator_interferes _ _ _ Hi Hok) as [Ha Hheld]. split; [done|]. cbn. by rewrite Hheld.
Qed.

(** ** Aborts *)

(** The bytes of the body that were placed in the destination. *)
Definition placed_bytes (a : accumulator) : Z := fa_frame_used a - lookahead cfg a.

Lemma abort_spec status (m : machine) :
  let a := ma_accumulator m in
  let m' := iree_net_frame_accumulator_abort cfg status m in
  abort_safe cfg a (ma_world m) →
  accumulator_ok cfg (ma_accumulator m') (ma_world m') ∧ held_bytes cfg (ma_accumulator m') (ma_world m') = [] ∧
  ∃ w, ma_calls m' = ma_calls m ++ (CallRelease ∘ bl_storage <$> option_elems (fa_frame_lease a)) ++
      match fa_receive_operation a with
      | Some o => [CallComplete o status (placed_bytes a) (operation_prefix o w) (placed_frame cfg a o w)]
      | None => []
      end ∧
    (w = ma_world m ∨ interferes (ma_world m) w) ∧ ∀ o, fa_receive_operation a = Some o → 0 <= placed_bytes a <= operation_length o w.
Proof.
  intros a m' (Hh & Hown & Hbody). unfold m', iree_net_frame_accumulator_abort. fold a.
  set (m1 := iree_async_buffer_lease_release cfg _ m).
  assert (ma_accumulator m1 = a ∧ ma_calls m1 = ma_calls m ++ (CallRelease ∘ bl_storage <$> option_elems (fa_frame_lease a)) ∧
    (ma_world m1 = ma_world m ∨ interferes (ma_world m) (ma_world m1))) as (Ea & Ec & Hw).
  { unfold m1. destruct (fa_frame_lease a); cbn; [|rewrite app_nil_r; auto]. do 2 (split; [done|]). right. apply (co_release _ Hcfg). }
  pose proof (owns_step _ _ _ Hw Hown) as Hown1. destruct (fa_receive_operation a) as [o|] eqn:Eo.
  - assert (in_body cfg a (ma_world m1)) as Hb.
    { destruct Hw as [->|Hi]; [by apply Hbody|]. apply (body_interferes a _ _ Hi); [by rewrite Eo|by apply Hbody]. }
    pose proof Hb as ((_ & Hsz) & _ & Hf & Hs). unfold body_storage in Hs. rewrite Eo in Hs. destruct Hs as (_ & Hl & _).
    pose proof Hsz as (Hn & Hp & Hle). pose proof (co_sizes _ Hcfg). pose proof (co_width _ Hcfg) as [_ Hmax].
    assert (fa_frame_used a -64 header_size -64 fa_prefix_length a = placed_bytes a) as ->.
    { unfold placed_bytes, lookahead in *. rewrite (usub_small 64 (fa_frame_used a)) by (unfold in_width; lia).
      rewrite usub_small by (unfold in_width; lia). lia. }
    destruct (cleared_ok cfg Hcfg a (queue_complete o status (placed_bytes a) (ma_world m1))) as [Hok Hheld]; [done|by apply complete_law|].
    split; [exact Hok|]. split; [exact Hheld|]. exists (ma_world m1). cbn. rewrite Ec, <- app_assoc. split; [done|]. split; [done|].
    intros o' [= <-]. unfold placed_bytes in *. lia.
  - destruct (cleared_ok cfg Hcfg a (ma_world m1) Hh Hown1) as [Hok Hheld]. split; [exact Hok|]. split; [exact Hheld|].
    exists (ma_world m1). cbn. by rewrite Ec, app_nil_r.
Qed.

(** What an aborted operation got: the bytes that arrived, at the start of its destination. *)
Lemma placed_held (a : accumulator) w o :
  header_storage cfg a → cursor_owns w (Some o) → fa_receive_operation a = Some o → in_body cfg a w →
  placed_bytes a = byte_length (held_bytes cfg a w) - header_size - byte_length (operation_prefix o w) ∧
  take (length (held_bytes cfg a w)) (placed_frame cfg a o w) = held_bytes cfg a w.
Proof.
  intros Hh Hown Eo Hb. pose proof Hown as Hown'. rewrite <- Eo in Hown'. destruct (held_body cfg Hcfg a w Hh Hown' Hb) as [Hlen _].
  pose proof Hb as ((_ & Hsz) & _ & Hf & Hs). pose proof Hsz as (Hn & Hp & Hle). unfold body_storage in Hs. rewrite Eo in Hs.
  destruct Hs as (_ & Hl & Hpre). pose proof (co_sizes _ Hcfg). pose proof (length_law _ _ Hown) as Hlaw. split.
  - rewrite Hlen, Hpre. unfold placed_bytes, frame_prefix, span_slice, lookahead. rewrite byte_length_take; [lia|].
    unfold header_storage, byte_length in *. rewrite length_drop. lia.
  - rewrite length_byte_length, Hlen. unfold placed_frame, held_bytes. rewrite (lookahead_add cfg Hcfg _ Hsz), Eo.
    unfold lookahead, header_storage, byte_length in *. destruct (Z.eqb_spec (fa_frame_used a) 0); [lia|].
    rewrite take_app, length_take. rewrite take_ge by (rewrite length_take; lia). do 2 f_equal. lia.
Qed.

Lemma reset_abort (m : machine) : iree_net_frame_accumulator_reset cfg m = iree_net_frame_accumulator_abort cfg IREE_STATUS_CANCELLED m.
Proof.
  unfold iree_net_frame_accumulator_reset, iree_net_frame_accumulator_abort. by destruct (fa_receive_operation (ma_accumulator m)).
Qed.

(** The count of buffered bytes. *)
Lemma buffered_held (a : accumulator) w :
  accumulator_ok cfg a w → iree_net_frame_accumulator_buffered_bytes a = byte_length (held_bytes cfg a w).
Proof.
  intros [Hh Hown Hph]. pose proof (co_sizes _ Hcfg). pose proof (co_width _ Hcfg) as [_ Hw]. unfold iree_net_frame_accumulator_buffered_bytes.
  assert ((in_header cfg a ∨ in_prefix cfg a) ∨ in_body cfg a w ∧ fa_frame_used a < fa_frame_size a) as [Hcol|[Hb Hlt]] by tauto.
  - destruct (phase_collecting cfg Hcfg _ Hcol) as [Hf _ _ Hu Hp Hm _]. unfold held_bytes. rewrite Hf. cbn [Z.eqb].
    rewrite byte_length_take by (unfold header_storage, lookahead in *; lia). rewrite uadd_small by lia. lia.
  - destruct (held_body cfg Hcfg a w Hh Hown Hb) as [-> _]. pose proof Hb as ((_ & Hn & Hp & Hl) & -> & Hf & _).
    unfold lookahead in *. rewrite uadd_small by lia. lia.
Qed.

End theorems.

(** ** The theorems *)

Section statements.
Context {W Q O : Type} `{RQ : ReceiveQueues W Q O} `{!CursorLaws W Q O} `{EqDecision O}.
Context (cfg : accumulator_config W Q) (Hcfg : config_ok cfg).
Context (m m' : machine W Q O) (vs : list (arrival (O := O))).
Context (Hstart : starts cfg m) (Hrun : stream_run cfg m vs m').

(** C10: However the bytes of a stream are cut into pieces, whether a piece arrives in the
    carrier's storage, with a lease of it or in the span that the accumulator offered, and
    whatever other threads do between the pieces, the frames that were delivered or placed are
    exactly those that the reference parser cuts from all bytes, in order, and the bytes held
    (as many as [buffered_bytes] says) are the incomplete rest.  Every operation that was
    returned has the whole body of one of those frames, whose prefix is the operation's. *)
Theorem frames_any_chunking :
  let bytes := stream_bytes vs in
  let held := held_bytes cfg (ma_accumulator m') (ma_world m') in
  cut_frames cfg (length bytes) bytes = (frames (ma_calls m'), held) ∧
  iree_net_frame_accumulator_buffered_bytes (ma_accumulator m') = byte_length held ∧
  Forall (call_ok cfg) (ma_calls m').
Proof.
  cbn zeta. destruct (stream_run_ok cfg Hcfg _ _ _ Hstart Hrun) as (Hok & Hcalls & <-). split; [|split; [by apply buffered_held|done]].
  apply cut_frames_unique; [done|by apply calls_frames_valid|by apply held_incomplete|done].
Qed.


(** Aborting, between pushes or after one that failed, returns the operation that the
    cursor holds, once, with the given status and the number of body bytes that arrived;
    these bytes are at the start of its destination, within its bounds.  The storage of the
    frame is released and nothing is held any more.  A reset is an abort with CANCELLED. *)
Theorem abort_returns_operation status m2 :
  (m2 = m' ∨ ∃ v st, arrival_ok cfg v m' ∧ push cfg v m' = Some (st, m2)) →
  let a := ma_accumulator m2 in
  let m3 := iree_net_frame_accumulator_abort cfg status m2 in
  held_bytes cfg (ma_accumulator m3) (ma_world m3) = [] ∧
  iree_net_frame_accumulator_has_partial_frame (ma_accumulator m3) = false ∧
  iree_net_frame_accumulator_reset cfg m2 = iree_net_frame_accumulator_abort cfg IREE_STATUS_CANCELLED m2 ∧
  ∃ w, ma_calls m3 = ma_calls m2 ++ (CallRelease ∘ bl_storage <$> option_elems (fa_frame_lease a)) ++
      match fa_receive_operation a with
      | Some o => [CallComplete o status (placed_bytes cfg a) (operation_prefix o w) (placed_frame cfg a o w)]
      | None => []
      end ∧
    ∀ o, fa_receive_operation a = Some o →
      0 <= placed_bytes cfg a <= operation_length o w ∧
      placed_bytes cfg a = byte_length (held_bytes cfg a w) - ac_header_size cfg - byte_length (operation_prefix o w) ∧
      take (length (held_bytes cfg a w)) (placed_frame cfg a o w) = held_bytes cfg a w.
Proof.
  intros Hm2 a m3. destruct (stream_run_ok cfg Hcfg _ _ _ Hstart Hrun) as (Hok & _ & _).
  assert (abort_safe cfg a (ma_world m2)) as Hsafe.
  { pose proof (λ m, between_abort_safe cfg _ (ma_world m) ∘ accumulator_between cfg (ma_accumulator m) _) as Hbet.
    destruct Hm2 as [->|(v & st & Hv & Hpush)]; [by apply Hbet|].
    destruct (push_ok cfg Hcfg v m' Hok Hv) as (st' & m2' & Hpush' & new & _ & _ & Hcase). rewrite Hpush in Hpush'. injection Hpush' as <- <-.
    case_bool_decide; [by apply Hbet, Hcase|by apply Hcase]. }
  destruct (abort_spec cfg Hcfg status m2 Hsafe) as (Hok3 & Hheld & w & Hcalls & Hw & Hn). split; [done|].
  split; [unfold m3, iree_net_frame_accumulator_has_partial_frame; by rewrite (buffered_held cfg Hcfg _ _ Hok3), Hheld|].
  split; [apply reset_abort|]. exists w. split; [done|]. intros o Eo. fold a in Eo. split; [by apply Hn|]. destruct Hsafe as (Hh & Hown & Hb).
  apply placed_held; [done|done|rewrite <- Eo; by eapply owns_step|done|].
  destruct Hw as [->|Hi]; [apply Hb|apply (body_interferes cfg a _ _ Hi Hown), Hb]; by rewrite Eo.
Qed.

End statements.

(** C12: Frames over the receive queues of a connection's endpoints: every queue stays in a
    state that its own threads can reach, so what holds of the receives of such a queue holds
    here; the operation that the accumulator writes to is the one that its queue has matched;
    and once an endpoint is reported drained, the accumulator holds none of its operations
    and every receive that was accepted has been returned. *)
Theorem framed_receives_complete (cfg : accumulator_config cursor_world nat) m m' vs q y :
  config_ok cfg → starts cfg m → stream_run cfg m vs m' → cw_systems (ma_world m') !! q = Some y →
  receive_reachable y ∧
  (∀ i, rq_active (sy_queue y) = Some i ↔ fa_receive_operation (ma_accumulator m') = Some (q, i)) ∧
  (endpoint_finished y →
   (∀ i, fa_receive_operation (ma_accumulator m') ≠ Some (q, i)) ∧ admissions (sy_events y) ≡ₚ returns (sy_events y)).
Proof.
  intros Hcfg Hstart Hrun Hy. destruct (stream_run_ok cfg Hcfg _ _ _ Hstart Hrun) as (Hok & _ & _).
  pose proof (ao_owns _ _ _ Hok) as Hown. cbn in Hown.
  assert (∀ i, rq_active (sy_queue y) = Some i ↔ fa_receive_operation (ma_accumulator m') = Some (q, i)) as Hact.
  { intros i. rewrite <- (ch_active _ _ Hown). unfold active_of. by rewrite Hy. }
  pose proof (holds_lookup _ _ _ _ Hown Hy) as Hr. split; [done|]. split; [done|]. intros Hfin.
  destruct (receive_inv y Hr) as (posted & closing & Hinv). destruct (finished_drained _ _ _ Hinv Hfin) as (_ & Hheld & Hret & _).
  split.
  - intros i Hi. apply Hact in Hi. destruct (held_empty _ _ _ Hheld) as (_ & Hn & _). congruence.
  - rewrite (ro_ledger _ _ _ Hinv), Hret, Hheld. cbn. by rewrite app_nil_r.
Qed.

(** ** A concrete stream *)

(** Frames of up to 16 bytes whose first byte is their length, routed to one receive queue
    with an operation for the prefix [7; 1]. *)
Definition sample_config : accumulator_config cursor_world nat :=
  mk_accumulator_config
    (λ header, match header with n :: _ => if 0 <=? n then Ok n else Err IREE_STATUS_DATA_LOSS | [] => Err IREE_STATUS_DATA_LOSS end)
    1 (λ _ _ w, mk_frame_result IREE_STATUS_OK true w) (Some (λ _, Some 0%nat))
    (λ n w, (Ok (100, replicate (Z.to_nat n) 0), w)) (λ _ w, w) 16.

Definition sample_world : cursor_world := mk_cursor_world [sample_posted] (λ _ ys, ys) 0.

Definition sample_machine : machine cursor_world nat (nat * nat) :=
  mk_machine (mk_frame_accumulator 0 0 None None 0 0 None (replicate 65 0)) sample_world None [].

Lemma refl_interferes w : cursor_interferes w w.
Proof. split; [|done]. by apply Forall_Forall2_diag, Forall_forall. Qed.

Lemma sample_config_ok : config_ok sample_config.
Proof.
  split; cbn; try (intros; apply refl_interferes); try (unfold in_width; lia).
  - intros [|n header]; [done|]. by destruct (Z.leb_spec 0 n).
  - intros n w r w' Hn [= <- <-]. split; [apply refl_interferes|]. unfold byte_length. rewrite length_replicate. lia.
Qed.

Definition sample_arrivals : list (arrival (O := nat * nat)) :=
  [ArrivalSpan (mk_carrier_span None 1 (PointerCarrier 0) [3]);
   ArrivalLease (mk_carrier_span (Some (1, true)) 8 (PointerCarrier 8) [9; 9; 6; 7]) (mk_carrier_lease 50 (Some (1, true)) 8 4);
   ArrivalNative None 1 [1]].

Definition push_all (vs : list (arrival (O := nat * nat))) (m : machine cursor_world nat (nat * nat)) : machine cursor_world nat (nat * nat) :=
  fold_left (λ m v, match push sample_config v m with Some (IREE_STATUS_OK, m') => m' | _ => m end) vs m.

Definition sample_matched := push_all sample_arrivals sample_machine.

(** Another thread closes the queue while the cursor holds the operation. *)
Definition close_world (w : cursor_world) : cursor_world :=
  with_systems ((λ y, with_closers ((close_locked IREE_STATUS_OK (sy_state y)).1 :: sy_closers y)
    (with_state (close_locked IREE_STATUS_OK (sy_state y)).2 y)) <$> cw_systems w) w.

Definition sample_closed := with_world (close_world (ma_world sample_matched)) sample_matched.

Definition sample_body : arrival (O := nat * nat) := ArrivalNative None 1 [40; 41; 42].

Definition sample_done := push_all [sample_body] sample_closed.

Lemma close_interferes w : cursor_interferes w (close_world w).
Proof.
  split; [|done]. cbn. apply Forall2_fmap_r, Forall_Forall2_diag, Forall_forall. intros y _. apply rtc_once.
  by apply (other_close y IREE_STATUS_OK).
Qed.

Lemma sample_starts : starts sample_config sample_machine.
Proof.
  exists (replicate 65 0), sample_world. do 3 (split; [done|]). split; cbn.
  - apply Forall_singleton, sample_posted_reachable.
  - intros _ ys. by apply Forall_Forall2_diag, Forall_forall.
  - intros q i. split; [|done]. unfold active_of. cbn. destruct q as [|q]; cbn; by vm_compute.
Qed.

Lemma sample_run_matched : stream_run sample_config sample_machine sample_arrivals sample_matched.
Proof.
  refine (stream_push _ _ [_; _] _ (ArrivalNative None 1 [1]) _
    (stream_push _ _ [_] _ _ _ (stream_push _ _ [] _ _ _ (stream_start _ _) _ _) _ _) _ _).
  - by exists 0.
  - vm_compute. reflexivity.
  - split; [by exists 8|]. by vm_compute.
  - vm_compute. reflexivity.
  - by vm_compute.
  - vm_compute. reflexivity.
Qed.

Lemma sample_run : stream_run sample_config sample_machine (sample_arrivals ++ [sample_body]) sample_done.
Proof.
  eapply stream_push; [eapply (stream_other _ _ _ _ _ sample_run_matched), close_interferes|by vm_compute|].
  vm_compute. reflexivity.
Qed.

Lemma frames_any_chunking_witness :
  cut_frames sample_config 9 [3; 9; 9; 6; 7; 1; 40; 41; 42] = ([[3; 9; 9]; [6; 7; 1; 40; 41; 42]], []) ∧
  frames (ma_calls sample_done) = [[3; 9; 9]; [6; 7; 1; 40; 41; 42]] ∧ Forall (call_ok sample_config) (ma_calls sample_done).
Proof.
  destruct (frames_any_chunking sample_config sample_config_ok _ _ _ sample_starts sample_run) as (Hcut & _ & Hcalls).
  split; [|split; [vm_compute; reflexivity|exact Hcalls]]. etrans; [exact Hcut|]. vm_compute. reflexivity.
Defined.

(** A header that announces more than the largest frame. *)
Definition sample_oversized : arrival (O := nat * nat) := ArrivalSpan (mk_carrier_span None 1 (PointerCarrier 0) [20]).


(** Two of the three bytes of a body. *)
Definition sample_partial : arrival (O := nat * nat) := ArrivalNative None 1 [40; 41].

Definition sample_aborted := iree_net_frame_accumulator_abort sample_config IREE_STATUS_ABORTED (push_all [sample_partial] sample_matched).

Lemma abort_returns_operation_witness :
  last (ma_calls sample_aborted) = Some (CallComplete (0%nat, 0%nat) IREE_STATUS_ABORTED 2 [7; 1] [6; 7; 1; 40; 41; 0]) ∧
  held_bytes sample_config (ma_accumulator sample_aborted) (ma_world sample_aborted) = [].
Proof.
  split; [vm_compute; reflexivity|].
  apply (abort_returns_operation sample_config sample_config_ok _ _ _ sample_starts sample_run_matched IREE_STATUS_ABORTED).
  right. exists sample_partial, IREE_STATUS_OK. split; [by vm_compute|vm_compute; reflexivity].
Defined.

Definition sample_endpoint : receive_system := match cw_systems (ma_world sample_done) with y :: _ => y | [] => sample_posted end.

Lemma framed_receives_complete_witness :
  receive_reachable sample_endpoint ∧ sy_returning sample_endpoint = [mk_receive_completion (Some 5) IREE_STATUS_CANCELLED 3].
Proof.
  split; [|vm_compute; reflexivity].
  apply (framed_receives_complete sample_config _ _ _ 0 sample_endpoint sample_config_ok sample_starts sample_run).
  vm_compute. reflexivity.
Defined.
