(* ===== verification/FrameLeases.v ===== *)
(** * Leases of frame reassembly

    Every buffer that the accumulator allocates, and every lease that it is given, is moved
    to a frame callback or released, once, or is the storage of the frame under way. *)

From S2P Require Import Prelude BaseMath EndpointLifecycle ReceiveQueue ReceiveInvariant FrameAccumulator FrameInvariant ReceiveCursor FrameTheorems.
From stdpp Require Import base numbers list.

Local Open Scope Z_scope.
Local Open Scope machine_scope.

Section leases.
Context {W Q O : Type} `{RQ : ReceiveQueues W Q O} `{!CursorLaws W Q O} `{EqDecision O}.
Context (cfg : accumulator_config W Q).

Notation accumulator := (iree_net_frame_accumulator_t Q O).
Notation machine := (machine W Q O).

Definition allocated (calls : list (accumulator_call O)) : list Z :=
  omap (λ c, match c with CallAllocate storage => Some storage | _ => None end) calls.

(** Leases that were released, or moved to a callback. *)
Definition given_back (calls : list (accumulator_call O)) : list Z :=
  omap (λ c, match c with CallRelease storage => Some storage | CallFrame _ lease true => lease | _ => None end) calls.

Lemma allocated_app calls calls' : allocated (calls ++ calls') = allocated calls ++ allocated calls'.
Proof. apply omap_app. Qed.
Lemma given_back_app calls calls' : given_back (calls ++ calls') = given_back calls ++ given_back calls'.
Proof. apply omap_app. Qed.

Definition frame_storage (m : machine) : list Z := option_elems (bl_storage <$> fa_frame_lease (ma_accumulator m)).

Definition owned (m : machine) : list Z := option_elems (ma_input m) ++ frame_storage m.

Definition conserved (m m' : machine) : Prop :=
  (ma_input m = None → ma_input m' = None) ∧
  ∃ new, ma_calls m' = ma_calls m ++ new ∧ owned m ++ allocated new ≡ₚ given_back new ++ owned m'.

(** Changes that do not concern leases. *)
Definition same_leases (m m' : machine) : Prop :=
  ma_calls m' = ma_calls m ∧ ma_input m' = ma_input m ∧
  bl_storage <$> fa_frame_lease (ma_accumulator m') = bl_storage <$> fa_frame_lease (ma_accumulator m).

Lemma same_conserved m m' : same_leases m m' → conserved m m'.
Proof.
  intros (Ec & Ei & El). split; [by rewrite Ei|]. exists []. split; [by rewrite Ec, app_nil_r|]. unfold owned, frame_storage. rewrite Ei, El. by rewrite app_nil_r.
Qed.

Lemma conserved_trans m1 m2 m3 : conserved m1 m2 → conserved m2 m3 → conserved m1 m3.
Proof.
  intros (H1 & n1 & E1 & P1) (H2 & n2 & E2 & P2). split; [auto|]. exists (n1 ++ n2). split; [by rewrite E2, E1, app_assoc|].
  rewrite allocated_app, given_back_app, app_assoc, P1, <- app_assoc, P2. by rewrite app_assoc.
Qed.

Lemma same_leases_trans m1 m2 m3 : same_leases m1 m2 → same_leases m2 m3 → same_leases m1 m3.
Proof. intros (? & ? & ?) (? & ? & ?). repeat split; congruence. Qed.

(** A matched operation has no lease. *)
Definition lease_shape (m : machine) : Prop :=
  fa_receive_operation (ma_accumulator m) ≠ None → fa_frame_lease (ma_accumulator m) = None.

Lemma begin_frame_leases header (m : machine) :
  let m' := (iree_net_frame_accumulator_begin_frame cfg header m).2 in
  same_leases m m' ∧ fa_receive_operation (ma_accumulator m') = fa_receive_operation (ma_accumulator m).
Proof.
  unfold iree_net_frame_accumulator_begin_frame. destruct (resolve_frame_size cfg header); [|done].
  destruct (match router ← _; _ with Some q => _ | None => _ end) as [k w]. done.
Qed.

Lemma match_receive_leases bytes (m : machine) : same_leases m (iree_net_frame_accumulator_match_receive cfg bytes m).2.
Proof.
  unfold iree_net_frame_accumulator_match_receive. destruct (fa_receive_queue (ma_accumulator m)); [|done].
  destruct (queue_match _ _ _ _) as [[o|code] w]; done.
Qed.

Lemma copy_bytes_leases destination source bytes (m : machine) :
  let m' := copy_bytes destination source bytes m in
  same_leases m m' ∧ fa_receive_operation (ma_accumulator m') = fa_receive_operation (ma_accumulator m).
Proof.
  unfold copy_bytes, store_bytes. case_decide; [done|]. destruct destination; try done.
  unfold same_leases. destruct (fa_frame_lease (ma_accumulator m)) as [l|] eqn:E; [done|by rewrite E].
Qed.

Lemma begin_body_leases (m : machine) :
  fa_frame_lease (ma_accumulator m) = None →
  let m' := (iree_net_frame_accumulator_begin_body cfg m).2 in conserved m m' ∧ lease_shape m'.
Proof.
  intros El. unfold iree_net_frame_accumulator_begin_body. destruct (fa_receive_operation (ma_accumulator m)) eqn:Eo.
  - split; [by apply same_conserved|]. intros _. exact El.
  - unfold iree_net_buffer_lease_allocate. destruct (_ =? 0); cbn [snd].
    { split; [apply same_conserved; unfold same_leases; cbn; by rewrite El|done]. }
    destruct (iree_struct_layout_calculate _ _) as [[? total]|]; cbn [snd].
    2: { split; [apply same_conserved; unfold same_leases; cbn; by rewrite El|done]. }
    destruct (ac_host_allocate cfg total (ma_world m)) as [[[storage bytes]|code] w]; cbn [snd].
    2: { split; [apply same_conserved; unfold same_leases; cbn; by rewrite El|done]. }
    split; [|unfold lease_shape; cbn; by rewrite Eo]. split; [done|]. exists [CallAllocate storage]. split; [done|].
    unfold owned, frame_storage. cbn. rewrite El. cbn. by rewrite app_nil_r.
Qed.

(** A lease that is delivered is moved or comes back. *)
Lemma deliver_leases frame lease (m : machine) :
  let '(_, lease', m') := deliver_frame cfg frame lease m in
  ma_accumulator m' = ma_accumulator m ∧ ma_input m' = ma_input m ∧
  ∃ c, ma_calls m' = ma_calls m ++ [c] ∧ allocated [c] = [] ∧ option_elems lease ≡ₚ given_back [c] ++ option_elems lease'.
Proof.
  unfold deliver_frame. do 2 (split; [done|]). eexists. split; [done|]. split; [done|].
  destruct lease as [storage|]; [|done]. by destruct (fr_moved _).
Qed.

Lemma release_leases lease (m : machine) :
  let m' := iree_async_buffer_lease_release cfg lease m in
  ma_accumulator m' = ma_accumulator m ∧ ma_input m' = ma_input m ∧
  ∃ new, ma_calls m' = ma_calls m ++ new ∧ allocated new = [] ∧ given_back new = option_elems lease.
Proof. destruct lease as [storage|]; cbn; do 2 (split; [done|]); [by eexists|]. exists []. by rewrite app_nil_r. Qed.

Lemma complete_frame_leases (m : machine) :
  lease_shape m → conserved m (iree_net_frame_accumulator_complete_frame cfg m).2.
Proof.
  intros Hs. unfold iree_net_frame_accumulator_complete_frame. destruct (fa_receive_operation (ma_accumulator m)) as [o|] eqn:Eo.
  - split; [done|]. eexists. split; [done|]. unfold owned, frame_storage. rewrite Hs by (by rewrite Eo). cbn. by rewrite !app_nil_r.
  - set (m1 := with_accumulator _ m). set (lease := bl_storage <$> _).
    destruct (deliver_frame cfg _ lease m1) as [[st lease'] m2] eqn:E.
    pose proof (deliver_leases (match fa_frame_lease (ma_accumulator m) with
      | Some l => take (Z.to_nat (fa_frame_size (ma_accumulator m))) (bl_bytes l) | None => [] end) lease m1) as Hd. rewrite E in Hd.
    destruct Hd as (Ha & Hi & c & Hc & Hal & Hg). cbn [snd]. destruct (release_leases lease' m2) as (Ha' & Hi' & new & Hn & Hal' & Hg').
    split; [by rewrite Hi', Hi|]. exists ([c] ++ new). split; [by rewrite Hn, Hc, <- app_assoc|]. unfold owned, frame_storage in *.
    rewrite allocated_app, given_back_app, Hal, Hal', Ha', Ha, Hi', Hi, Hg'. fold lease. rewrite Hg. cbn. solve_Permutation.
Qed.

(** ** One iteration *)

(** Nothing of a frame has storage yet. *)
Definition no_lease (m : machine) : Prop := fa_frame_lease (ma_accumulator m) = None.

Lemma same_no_lease m m' : same_leases m m' → no_lease m → no_lease m'.
Proof. intros (_ & _ & E) Hn. unfold no_lease in *. rewrite Hn in E. by destruct (fa_frame_lease (ma_accumulator m')). Qed.

Lemma no_lease_shape m : no_lease m → lease_shape m.
Proof. intros H _. exact H. Qed.

Lemma same_shape m m' :
  same_leases m m' → fa_receive_operation (ma_accumulator m') = fa_receive_operation (ma_accumulator m) → lease_shape m → lease_shape m'.
Proof. intros Hs Eo Hm. unfold lease_shape. rewrite Eo. intros Hne. by apply (same_no_lease m), Hm. Qed.

Lemma process_frame_bytes_leases source data (m : machine) :
  lease_shape m → conserved m (cu_machine (process_frame_bytes cfg source data m)).
Proof.
  intros Hs. unfold process_frame_bytes. destruct (iree_net_frame_accumulator_query_receive_buffer cfg _) as [target available].
  set (n := Z.min _ _). destruct (copy_bytes_leases target source (take (Z.to_nat n) data) m) as [Hsame Eo].
  set (m1 := copy_bytes _ _ _ m) in *. set (m2 := with_accumulator _ m1).
  assert (same_leases m m2) as Hm2 by exact Hsame. assert (lease_shape m2) as Hs2 by (eapply same_shape; [exact Hm2|exact Eo|done]).
  pose proof (complete_frame_leases m2 Hs2) as Hc. destruct (_ =? _).
  - destruct (iree_net_frame_accumulator_complete_frame cfg m2) as [st m3]. cbn in *. eapply conserved_trans; [by apply same_conserved|done].
  - by apply same_conserved.
Qed.

Lemma complete_if_full_leases c (m : machine) :
  conserved m (cu_machine c) → lease_shape (cu_machine c) → conserved m (cu_machine (complete_if_full cfg c)).
Proof.
  intros Hm Hs. unfold complete_if_full. destruct (_ && _); [|done]. pose proof (complete_frame_leases _ Hs) as Hc.
  destruct (iree_net_frame_accumulator_complete_frame cfg (cu_machine c)) as [st m']. cbn in *. by eapply conserved_trans.
Qed.

Lemma match_begin_leases bytes (m : machine) :
  no_lease m →
  let m' := (match iree_net_frame_accumulator_match_receive cfg bytes m with
    | (IREE_STATUS_OK, m) => iree_net_frame_accumulator_begin_body cfg m | r => r end).2 in
  conserved m m' ∧ lease_shape m'.
Proof.
  intros Hn. pose proof (match_receive_leases bytes m) as Hm. destruct (iree_net_frame_accumulator_match_receive cfg bytes m) as [st m1]. cbn in Hm.
  pose proof (same_no_lease _ _ Hm Hn) as Hn1. destruct (begin_body_leases m1 Hn1) as [Hc Hs].
  destruct st; [split; [eapply conserved_trans; [by apply same_conserved|exact Hc]|exact Hs]|split; [by apply same_conserved|by apply no_lease_shape]..].
Qed.

Lemma finish_header_leases (m : machine) :
  no_lease m → let m' := (finish_header cfg m).2 in conserved m m' ∧ lease_shape m'.
Proof.
  intros Hn. unfold finish_header. destruct (if _ && _ then _ else _) as [st m1] eqn:E.
  assert (same_leases m m1) as Hm1.
  { destruct ((_ =? _) && (_ =? _)); [|by injection E as <- <-].
    pose proof (begin_frame_leases (take (Z.to_nat (ac_header_size cfg)) (fa_header (ma_accumulator m))) m) as [Hb _]. by rewrite E in Hb. }
  pose proof (same_no_lease _ _ Hm1 Hn) as Hn1. destruct (_ && _ && _).
  - destruct (match_begin_leases (fa_header (ma_accumulator m1)) m1 Hn1) as [Hc Hs]. split; [|done].
    eapply conserved_trans; [by apply same_conserved|done].
  - split; [by apply same_conserved|by apply no_lease_shape].
Qed.

Lemma process_header_bytes_leases source data (m : machine) :
  no_lease m → conserved m (cu_machine (process_header_bytes cfg source data m)).
Proof.
  intros Hn. unfold process_header_bytes. set (n := Z.min _ _). set (p := PointerHeader _).
  destruct (copy_bytes_leases p source (take (Z.to_nat n) data) m) as [Hsame _]. set (m1 := copy_bytes _ _ _ m) in *.
  set (m2 := with_accumulator _ m1). assert (same_leases m m2) as Hm2 by exact Hsame.
  destruct (finish_header_leases m2 (same_no_lease _ _ Hm2 Hn)) as [Hc Hs]. destruct (finish_header cfg m2) as [st m3]. cbn in Hc, Hs.
  apply complete_if_full_leases; [|done]. cbn. eapply conserved_trans; [by apply same_conserved|done].
Qed.

(** The capture of a header that is in the input. *)
Lemma capture_leases source data size (m : machine) :
  no_lease m →
  let n := Z.min (byte_length data) size in
  let m1 := copy_bytes (PointerHeader 0) source (take (Z.to_nat n) data) m in
  let m2 := with_accumulator (set_header_used n (ma_accumulator m1)) m1 in
  conserved m (cu_machine
    (let '(status, m') := if n =? size then iree_net_frame_accumulator_begin_body cfg m2 else (IREE_STATUS_OK, m2) in
     complete_if_full cfg (advance_cursor status source data n m'))).
Proof.
  intros Hn n m1 m2. assert (same_leases m m2) as Hm2 by apply (copy_bytes_leases (PointerHeader 0) source (take (Z.to_nat n) data) m).
  pose proof (same_no_lease _ _ Hm2 Hn) as Hn2. destruct (begin_body_leases m2 Hn2) as [Hc Hs]. destruct (n =? size).
  - destruct (iree_net_frame_accumulator_begin_body cfg m2) as [st m3]. cbn in Hc, Hs. apply complete_if_full_leases; [|done]. cbn.
    eapply conserved_trans; [by apply same_conserved|done].
  - apply complete_if_full_leases; [by apply same_conserved|by apply no_lease_shape].
Qed.

(** A whole frame in the input is delivered with the input's lease, if it is the last. *)
Lemma deliver_input_leases frame (last : bool) (m : machine) :
  no_lease m →
  let '(_, lease, m1) :=
    deliver_frame cfg frame (if last then ma_input m else None) (with_accumulator (iree_net_frame_accumulator_clear_frame (ma_accumulator m)) m) in
  conserved m (if last then with_input lease m1 else m1).
Proof.
  intros Hn. set (m0 := with_accumulator _ m). pose proof (deliver_leases frame (if last then ma_input m else None) m0) as Hd.
  destruct (deliver_frame cfg frame _ m0) as [[st lease] m1]. destruct Hd as (Ha & Hi & c & Hc & Hal & Hg). split.
  { destruct last; [|by rewrite Hi]. intros E. rewrite E in Hg. cbn. by destruct (given_back [c]), lease; try (by apply Permutation_length in Hg). }
  exists [c]. assert (frame_storage m = [] ∧ frame_storage m1 = []) as [E E1] by (unfold frame_storage; rewrite Ha, Hn; done).
  split; [by destruct last|]. rewrite Hal, app_nil_r. unfold owned. rewrite E. destruct last.
  - change (frame_storage (with_input lease m1)) with (frame_storage m1). rewrite E1, !app_nil_r. exact Hg.
  - rewrite E1, Hi, !app_nil_r. by destruct (given_back [c]), lease; try (by apply Permutation_length in Hg).
Qed.

Lemma process_whole_header_leases source data (m : machine) :
  no_lease m → conserved m (cu_machine (process_whole_header cfg source data m)).
Proof.
  intros Hn. unfold process_whole_header. pose proof (begin_frame_leases (take (Z.to_nat (ac_header_size cfg)) data) m) as [Hb _].
  destruct (iree_net_frame_accumulator_begin_frame cfg _ m) as [st m1]. cbn in Hb. pose proof (same_no_lease _ _ Hb Hn) as Hn1.
  destruct st; try (by apply same_conserved). set (size := _ +64 _).
  destruct (size <=? byte_length data).
  2: { eapply conserved_trans; [by apply same_conserved|]. by apply (capture_leases source data size m1). }
  pose proof (match_receive_leases data m1) as Hm. destruct (iree_net_frame_accumulator_match_receive cfg data m1) as [st m2]. cbn in Hm.
  pose proof (same_no_lease _ _ Hm Hn1) as Hn2. pose proof (same_leases_trans _ _ _ Hb Hm) as H12.
  destruct st; try (by apply same_conserved). destruct (_ && _).
  2: { eapply conserved_trans; [by apply same_conserved|]. by apply (capture_leases source data size m2). }
  pose proof (deliver_input_leases (take (Z.to_nat (fa_frame_size (ma_accumulator m2))) data)
    (fa_frame_size (ma_accumulator m2) =? byte_length data) m2 Hn2) as Hd.
  destruct (deliver_frame cfg _ _ _) as [[st lease] m3]. eapply conserved_trans; [by apply same_conserved|exact Hd].
Qed.

Context (Hcfg : config_ok cfg).

Lemma process_iteration_leases source data (m : machine) :
  accumulator_ok cfg (ma_accumulator m) (ma_world m) → conserved m (cu_machine (process_iteration cfg source data m)).
Proof.
  intros [Hh Hown Hph]. pose proof (co_sizes _ Hcfg). unfold process_iteration.
  destruct (Z.eqb_spec (fa_frame_used (ma_accumulator m)) 0) as [E|E]; cbn [negb].
  - assert (no_lease m) as Hn.
    { destruct Hph as [(_ & _ & _ & _ & _ & ? & _)|[(_ & _ & _ & _ & ?)|[(Hr & _ & Hf & _) _]]]; [done|done|].
      destruct Hr as (_ & _ & ? & _). unfold lookahead in Hf. lia. }
    destruct (_ && _); [by apply process_whole_header_leases|by apply process_header_bytes_leases].
  - apply process_frame_bytes_leases. intros Hne. destruct Hph as [(_ & _ & _ & ? & _)|[(_ & _ & ? & _)|[(_ & _ & _ & Hs) _]]]; [done|done|].
    unfold body_storage in Hs. destruct (fa_receive_operation (ma_accumulator m)); [apply Hs|done].
Qed.

Lemma process_loop_leases fuel source data (m : machine) st m' :
  accumulator_ok cfg (ma_accumulator m) (ma_world m) → data = [] ∨ source_ok cfg source data m →
  process_loop cfg fuel source data m = Some (st, m') → conserved m m'.
Proof.
  revert source data m. induction fuel as [|fuel IH]; intros source data m Hok Hsrc.
  all: destruct data as [|b data0]; [intros [= _ <-]; by apply same_conserved|].
  { done. }
  set (data := b :: data0) in *. cbn [process_loop]. fold data. destruct Hsrc as [?|Hsrc]; [done|].
  pose proof (process_iteration_ok cfg Hcfg source data m Hok ltac:(done) Hsrc) as (new & _ & _ & Hcase).
  pose proof (process_iteration_leases source data m Hok) as Hc. set (c := process_iteration cfg source data m) in *. case_bool_decide as Es.
  - destruct Hcase as (Hok' & _ & _ & Hsrc'). intros Hl. eapply conserved_trans; [exact Hc|]. eapply IH; [exact Hok'| |exact Hl].
    destruct Hsrc' as [?|?]; [right|by left]. unfold source_ok. destruct (iree_net_frame_accumulator_query_receive_buffer _ _). by left.
  - by intros [= _ <-].
Qed.

Lemma process_leases (span : carrier_span O) (m : machine) st m' :
  accumulator_ok cfg (ma_accumulator m) (ma_world m) → source_ok cfg (cs_pointer span) (cs_bytes span) m →
  iree_net_frame_accumulator_process cfg span m = Some (st, m') → conserved m m'.
Proof.
  intros Hok Hsrc. unfold iree_net_frame_accumulator_process. destruct (_ =? 0); [intros [= _ <-]; by apply same_conserved|].
  destruct (negb _); [intros [= _ <-]; by apply same_conserved|]. destruct (span_is_null _); [intros [= _ <-]; by apply same_conserved|].
  apply process_loop_leases; auto.
Qed.

(** ** Pushes, aborts and resets *)

Definition arrival_leases (v : arrival (O := O)) : list Z := match v with ArrivalLease _ lease => [cl_storage lease] | _ => [] end.

(** The balance of a call that returns with no input lease. *)
Definition balanced (given : list Z) (m m' : machine) : Prop :=
  ma_input m' = None ∧
  ∃ new, ma_calls m' = ma_calls m ++ new ∧ given ++ frame_storage m ++ allocated new ≡ₚ given_back new ++ frame_storage m'.

Lemma conserved_balanced (m m1 m' : machine) :
  same_leases m m1 → ma_input m1 = None → conserved m1 m' → balanced [] m m'.
Proof.
  intros (Ec & _ & El) Ei (Hi & new & Hn & Hp). split; [auto|]. exists new. split; [by rewrite Hn, Ec|].
  unfold owned, frame_storage in *. rewrite Ei, (Hi Ei) in Hp. rewrite El in Hp. exact Hp.
Qed.

(** The lease of [push_lease] is released at its end, unless it was moved. *)
Lemma conserved_release storage (m m' : machine) :
  conserved (with_input (Some storage) m) m' →
  balanced [storage] m (with_input None (iree_async_buffer_lease_release cfg (ma_input m') m')).
Proof.
  intros (_ & new & Hn & Hp). split; [done|]. destruct (release_leases (ma_input m') m') as (Ha & _ & new' & Hn' & Hal & Hg).
  exists (new ++ new'). split; [cbn; by rewrite Hn', Hn, app_assoc|]. rewrite allocated_app, given_back_app, Hal, Hg, app_nil_r.
  unfold owned, frame_storage in *. cbn in Hp |- *. rewrite Ha. cbn in *. rewrite Hp. by rewrite app_assoc.
Qed.

Lemma store_bytes_leases p bytes (m : machine) : ma_input m = None → same_leases m (store_bytes p bytes m) ∧ ma_input (store_bytes p bytes m) = None.
Proof.
  intros Hi. unfold same_leases. destruct p; cbn; try done. destruct (fa_frame_lease (ma_accumulator m)) eqn:E; cbn; [done|by rewrite E].
Qed.

Lemma push_balanced v (m : machine) st m' :
  accumulator_ok cfg (ma_accumulator m) (ma_world m) → arrival_ok cfg v m → ma_input m = None → push cfg v m = Some (st, m') →
  balanced (arrival_leases v) m m'.
Proof.
  intros Hok Hv Hin. destruct v as [span|span lease|region offset bytes]; cbn [push arrival_leases].
  - unfold iree_net_frame_accumulator_push_span. intros Hp. apply (conserved_balanced m (with_input None m)); [by destruct m; cbn in *; subst|done|].
    by eapply (process_leases span); [..|exact Hp]; [|apply carrier_source_ok].
  - destruct Hv as (Hp & _). unfold iree_net_frame_accumulator_push_lease. set (m1 := with_input _ m).
    destruct (_ || _); [intros [= _ <-]; by apply (conserved_release _ m m1), same_conserved|].
    destruct (iree_net_frame_accumulator_process cfg span m1) as [[st1 m2]|] eqn:E; [|done]. intros [= _ <-].
    apply (conserved_release _ m m2). by eapply (process_leases span m1); [done|apply carrier_source_ok|].
  - destruct (native_store_ok cfg Hcfg bytes m Hok Hv) as (Hok1 & Hsrc & _ & _). intros Hp. set (p := (_ : pointer O * Z).1) in *.
    destruct (store_bytes_leases p bytes m Hin) as [Hs Hi]. set (m1 := store_bytes p bytes m) in *.
    apply (conserved_balanced m (with_input None m1)); [|done|].
    + destruct Hs as (? & ? & ?). split; [done|]. split; [by rewrite Hin|done].
    + by eapply (process_leases (mk_carrier_span region offset p bytes) (with_input None m1)); [..|exact Hp].
Qed.

Lemma reset_balanced (m : machine) :
  ma_input m = None → let m' := iree_net_frame_accumulator_reset cfg m in balanced [] m m' ∧ no_lease m'.
Proof.
  intros Hi. rewrite (reset_abort cfg). unfold iree_net_frame_accumulator_abort. set (lease := bl_storage <$> _).
  destruct (release_leases lease m) as (Ha & Hi' & new & Hn & Hal & Hg). set (m1 := iree_async_buffer_lease_release cfg lease m) in *.
  destruct (fa_receive_operation (ma_accumulator m)) as [o|]; (split; [|done]); (split; [by cbn; rewrite Hi'|]).
  - eexists. split; [cbn; by rewrite Hn, <- app_assoc|]. rewrite allocated_app, given_back_app, Hal, Hg. unfold frame_storage.
    fold lease. cbn. by rewrite !app_nil_r.
  - exists new. split; [done|]. rewrite Hal, Hg. unfold frame_storage. fold lease. cbn. by rewrite !app_nil_r.
Qed.

(** All leases of a run. *)
Definition stream_leases (vs : list (arrival (O := O))) : list Z := concat (arrival_leases <$> vs).

Lemma balanced_app given vs_leases (m0 m m' : machine) :
  balanced vs_leases m0 m → balanced given m m' → balanced (vs_leases ++ given) m0 m'.
Proof.
  intros (_ & n1 & E1 & P1) (Hi & n2 & E2 & P2). split; [done|]. exists (n1 ++ n2). split; [by rewrite E2, E1, app_assoc|].
  rewrite allocated_app, given_back_app, <- (app_assoc (given_back n1)), <- P2.
  transitivity (given ++ (vs_leases ++ frame_storage m0 ++ allocated n1) ++ allocated n2); [solve_Permutation|].
  rewrite P1. solve_Permutation.
Qed.

Lemma run_balanced (m m' : machine) vs : starts cfg m → stream_run cfg m vs m' → balanced (stream_leases vs) m m'.
Proof.
  intros Hstart. induction 1 as [|vs m1 v m2 Hrun IH Hv Hpush|vs m1 w Hrun (Hi & new & Hn & Hp) _].
  - destruct Hstart as (storage & w & _ & _ & -> & _). split; [done|]. exists []. by rewrite !app_nil_r.
  - destruct (stream_run_ok cfg Hcfg _ _ _ Hstart Hrun) as (Hok & _ & _). unfold stream_leases. rewrite fmap_app, concat_app. cbn. rewrite app_nil_r.
    eapply balanced_app; [exact IH|]. eapply push_balanced; [exact Hok|exact Hv|apply IH|exact Hpush].
  - by split; [|exists new].
Qed.

End leases.

(** C14: Over any run of pushes, the leases that were given with them and the buffers that
    were allocated are, each once, moved to a frame callback, released, or the storage of the
    frame under way; and a reset, also after a push that failed, leaves none. *)
Theorem leases_given_back_once {W Q O} `{RQ : ReceiveQueues W Q O} `{!CursorLaws W Q O} `{EqDecision O}
    (cfg : accumulator_config W Q) (m m' m2 : machine W Q O) vs v st :
  config_ok cfg → starts cfg m → stream_run cfg m vs m' → arrival_ok cfg v m' → push cfg v m' = Some (st, m2) →
  stream_leases vs ++ allocated (ma_calls m') ≡ₚ given_back (ma_calls m') ++ frame_storage m' ∧
  let m3 := iree_net_frame_accumulator_reset cfg m2 in
  stream_leases (vs ++ [v]) ++ allocated (ma_calls m3) ≡ₚ given_back (ma_calls m3).
Proof.
  intros Hcfg Hstart Hrun Hv Hpush. pose proof (run_balanced cfg Hcfg _ _ _ Hstart Hrun) as Hb.
  destruct (stream_run_ok cfg Hcfg _ _ _ Hstart Hrun) as (Hok & _ & _). pose proof Hb as (Hin & new & Hn & Hp).
  pose proof (push_balanced cfg Hcfg v m' st m2 Hok Hv Hin Hpush) as Hb2. destruct (reset_balanced cfg m2 (proj1 Hb2)) as [Hb3 Hnone].
  assert (ma_calls m = [] ∧ frame_storage m = []) as [Ec Es].
  { destruct Hstart as (storage & w & _ & Hini & -> & _). split; [done|]. unfold iree_net_frame_accumulator_initialize in Hini.
    destruct (_ =? 0); [done|]. destruct (_ || _); [done|]. destruct (_ <? _); [done|]. injection Hini as E. unfold frame_storage. cbn.
    by rewrite <- E. }
  split; [by rewrite Hn, Ec; rewrite Es in Hp|]. cbn zeta.
  destruct (balanced_app _ _ _ _ _ (balanced_app _ _ _ _ _ Hb Hb2) Hb3) as (_ & new3 & Hn3 & Hp3). rewrite Hn3, Ec. unfold no_lease in Hnone.
  unfold frame_storage at 2 in Hp3. rewrite Es, Hnone in Hp3. cbn in Hp3. rewrite !app_nil_r in Hp3. unfold stream_leases in *.
  by rewrite fmap_app, concat_app; cbn; rewrite app_nil_r.
Qed.

Lemma leases_given_back_once_witness :
  stream_leases (sample_arrivals ++ [sample_partial]) = [50] ∧
  let m3 := iree_net_frame_accumulator_reset sample_config (push_all [sample_partial] sample_matched) in
  allocated (ma_calls m3) = [100] ∧ [50] ++ allocated (ma_calls m3) ≡ₚ given_back (ma_calls m3).
Proof.
  split; [done|]. split; [vm_compute; reflexivity|].
  apply (leases_given_back_once sample_config _ _ (push_all [sample_partial] sample_matched) sample_arrivals sample_partial IREE_STATUS_OK
    sample_config_ok sample_starts sample_run_matched); [by vm_compute|vm_compute; reflexivity].
Defined.
