(* ===== verification/FramedEndpoint.v ===== *)
(** * Framed messages over a byte stream

    [iree/net/framed_endpoint.c] and [framing_adapter.c]: the header that a message gets on
    the wire, how a receiver resolves it, and what the adapter does with received bytes, with
    the end of the stream and with a partial frame when the carrier stops.  The sends of an
    endpoint are in [FramedSends]. *)

From S2P Require Import Prelude BaseMath WireBytes EndpointLifecycle ReceiveQueue ReceiveInvariant ReceiveTheorems.
From S2P Require Import FrameAccumulator FrameInvariant ReceiveCursor FrameTheorems.
From stdpp Require Import base numbers list relations.

Local Open Scope Z_scope.
Local Open Scope machine_scope.

(** ** Messages to send *)

(** A prefix is written into storage of its length; [None] is a null writer. *)
Record iree_net_send_prefix_t := mk_send_prefix {
  sp_length : Z;
  sp_write : option (Z → status_or (list Z));
  sp_user_data : bool;
}.

Record iree_net_message_endpoint_send_params_t := mk_send_params {
  ps_generated_prefix : iree_net_send_prefix_t;
  ps_data : list (list Z);
  ps_completion_callback : callback_t;
}.

(** The loop over the spans that adds their lengths. *)
Fixpoint add_lengths (total : Z) (data : list (list Z)) : option Z :=
  match data with
  | [] => Some total
  | span :: data => total ← iree_host_size_checked_add total (byte_length span); add_lengths total data
  end.

(** [iree_net_message_endpoint_send] before it calls the endpoint's [send]. *)
Definition iree_net_message_endpoint_send (params : iree_net_message_endpoint_send_params_t) : iree_status_code :=
  let prefix := ps_generated_prefix params in
  match ps_completion_callback params with
  | None => IREE_STATUS_INVALID_ARGUMENT
  | Some _ =>
      if negb (Bool.eqb (sp_length prefix =? 0) (match sp_write prefix with None => true | Some _ => false end)) then
        IREE_STATUS_INVALID_ARGUMENT
      else if (sp_length prefix =? 0) && sp_user_data prefix then IREE_STATUS_INVALID_ARGUMENT
      else
        match add_lengths (sp_length prefix) (ps_data params) with
        | None => IREE_STATUS_OUT_OF_RANGE
        | Some total => if total =? 0 then IREE_STATUS_INVALID_ARGUMENT else IREE_STATUS_OK
        end
  end.

(** ** The wire header *)

(** The bytes IRN1. *)
Definition IREE_NET_FRAMED_ENDPOINT_FRAME_MAGIC : Z := 0x314E5249.

Definition IREE_NET_FRAMED_ENDPOINT_FRAME_HEADER_SIZE : Z := 8.

Definition iree_net_framed_endpoint_encode_frame_header (frame_length : Z) : list Z :=
  iree_unaligned_store_le_u32 IREE_NET_FRAMED_ENDPOINT_FRAME_MAGIC ++ iree_unaligned_store_le_u32 frame_length.

Definition iree_net_framed_endpoint_write_frame_prefix (frame_length : Z) (message_prefix : iree_net_send_prefix_t) :
    status_or (list Z) :=
  let header := iree_net_framed_endpoint_encode_frame_header frame_length in
  if sp_length message_prefix =? 0 then Ok header
  else
    match sp_write message_prefix with
    | None => Ok header
    | Some write => prefix ← write (sp_length message_prefix); Ok (header ++ prefix)
    end.

Definition iree_net_framed_endpoint_calculate_frame_length (payload_length : Z) : status_or Z :=
  if payload_length =? 0 then Err IREE_STATUS_INVALID_ARGUMENT
  else if umax 32 - IREE_NET_FRAMED_ENDPOINT_FRAME_HEADER_SIZE <? payload_length then Err IREE_STATUS_OUT_OF_RANGE
  else Ok (wrap 32 (payload_length +64 IREE_NET_FRAMED_ENDPOINT_FRAME_HEADER_SIZE)).

Definition iree_net_framed_endpoint_resolve_frame_length (available : list Z) : status_or Z :=
  if byte_length available <? IREE_NET_FRAMED_ENDPOINT_FRAME_HEADER_SIZE then Ok 0
  else
    let magic := iree_unaligned_load_le_u32 available 0 in
    if negb (magic =? IREE_NET_FRAMED_ENDPOINT_FRAME_MAGIC) then Err IREE_STATUS_DATA_LOSS
    else
      let frame_length := iree_unaligned_load_le_u32 available 4 in
      if frame_length <=? IREE_NET_FRAMED_ENDPOINT_FRAME_HEADER_SIZE then Err IREE_STATUS_DATA_LOSS else Ok frame_length.

Definition iree_net_framed_endpoint_calculate_payload_length (params : iree_net_message_endpoint_send_params_t) : status_or Z :=
  match add_lengths (sp_length (ps_generated_prefix params)) (ps_data params) with
  | None => Err IREE_STATUS_OUT_OF_RANGE
  | Some payload_length => Ok payload_length
  end.

(** The bytes of a send on the wire: the generated prefix, which starts with the header, and
    the data. *)
Definition send_wire_bytes (params : iree_net_message_endpoint_send_params_t) : status_or (list Z) :=
  payload_length ← iree_net_framed_endpoint_calculate_payload_length params;
  frame_length ← iree_net_framed_endpoint_calculate_frame_length payload_length;
  prefix ← iree_net_framed_endpoint_write_frame_prefix frame_length (ps_generated_prefix params);
  Ok (prefix ++ concat (ps_data params)).

(** The receive of an endpoint checks that the message fits a frame, then submits. *)
Definition iree_net_framed_endpoint_receive (i : nat) (params : iree_net_message_endpoint_receive_params_t) (s : receive_state) :
    iree_status_code * receive_state :=
  if umax 32 - IREE_NET_FRAMED_ENDPOINT_FRAME_HEADER_SIZE -64 byte_length (rp_prefix params) <? byte_length (rp_data params)
  then (IREE_STATUS_OUT_OF_RANGE, s)
  else iree_net_message_receive_queue_submit i params s.

(** ** The accumulator of a framed endpoint *)

(** Frames of up to [UINT32_MAX] bytes, routed to the endpoint's own queue. *)
Definition framed_config {W Q} (queue : Q) (on_frame_complete : list Z → option Z → W → frame_result W)
    (host_allocate : Z → W → status_or (Z * list Z) * W) (release : Z → W → W) : accumulator_config W Q :=
  mk_accumulator_config iree_net_framed_endpoint_resolve_frame_length IREE_NET_FRAMED_ENDPOINT_FRAME_HEADER_SIZE on_frame_complete
    (Some (λ _, Some queue)) host_allocate release (umax 32).

(** The payload of a frame: what [on_wire_message] hands on. *)
Definition frame_payload (frame : list Z) : list Z := drop (Z.to_nat IREE_NET_FRAMED_ENDPOINT_FRAME_HEADER_SIZE) frame.

(** ** The adapter *)

Section adapter.
Context {W Q O : Type} `{RQ : ReceiveQueues W Q O} `{EqDecision O}.
Context (cfg : accumulator_config W Q).

(** The adapter's terminal status and lifecycle, with its accumulator. *)
Record iree_net_framing_adapter_t := mk_framing_adapter {
  ad_terminal_status : iree_status_code;
  ad_lifecycle : iree_net_endpoint_lifecycle_t;
  ad_machine : machine W Q O;
}.

Definition iree_net_framing_adapter_on_recv (data : carrier_span O) (lease : option carrier_lease) (m : machine W Q O) :
    option (iree_status_code * machine W Q O) :=
  if byte_length (cs_bytes data) =? 0 then
    if 0 <? iree_net_frame_accumulator_buffered_bytes (ma_accumulator m) then Some (IREE_STATUS_DATA_LOSS, m)
    else Some (IREE_STATUS_UNAVAILABLE, m)
  else
    match lease with
    | Some lease => iree_net_frame_accumulator_push_lease cfg data lease m
    | None => iree_net_frame_accumulator_push_span cfg data m
    end.

(** [on_carrier_error] up to the call of the error callback. *)
Definition iree_net_framing_adapter_on_carrier_error (status : iree_status_code) (ad : iree_net_framing_adapter_t) :
    iree_net_framing_adapter_t :=
  mk_framing_adapter (iree_status_join (ad_terminal_status ad) status) (ad_lifecycle ad) (ad_machine ad).

Definition iree_net_framing_adapter_on_carrier_deactivated (ad : iree_net_framing_adapter_t) :
    iree_net_framing_adapter_t * option iree_net_endpoint_lifecycle_completion_t :=
  let m := ad_machine ad in
  let m :=
    match fa_receive_operation (ma_accumulator m) with
    | Some _ =>
        let status := ad_terminal_status ad in
        iree_net_frame_accumulator_abort cfg (if bool_decide (status = IREE_STATUS_OK) then IREE_STATUS_CANCELLED else status) m
    | None => iree_net_frame_accumulator_reset cfg m
    end in
  let '(l, c) := iree_net_endpoint_lifecycle_complete_deactivation (ad_lifecycle ad) in
  (mk_framing_adapter (ad_terminal_status ad) l m, c).

End adapter.

(** ** The header *)

Definition frame_of (message : list Z) : list Z :=
  iree_net_framed_endpoint_encode_frame_header (byte_length message + 8) ++ message.

Definition message_ok (message : list Z) : Prop := 0 < byte_length message <= umax 32 - 8.

Lemma length_frame_header n : length (iree_net_framed_endpoint_encode_frame_header n) = 8%nat.
Proof. done. Qed.

Lemma byte_length_frame_of message : byte_length (frame_of message) = byte_length message + 8.
Proof. unfold frame_of. rewrite byte_length_app. unfold byte_length at 1. rewrite length_frame_header. lia. Qed.

Lemma frame_payload_of message : frame_payload (frame_of message) = message.
Proof. done. Qed.

Lemma resolve_frame_of message rest :
  message_ok message → iree_net_framed_endpoint_resolve_frame_length (take 8 (frame_of message ++ rest)) = Ok (byte_length (frame_of message)).
Proof.
  intros Hm. unfold message_ok, umax in Hm. unfold frame_of. rewrite <- app_assoc, take_app_le by done.
  rewrite (take_ge _ 8) by done. unfold iree_net_framed_endpoint_resolve_frame_length, iree_net_framed_endpoint_encode_frame_header.
  set (magic := iree_unaligned_store_le_u32 IREE_NET_FRAMED_ENDPOINT_FRAME_MAGIC). set (n := byte_length message + 8).
  change (byte_length (magic ++ iree_unaligned_store_le_u32 n) <? IREE_NET_FRAMED_ENDPOINT_FRAME_HEADER_SIZE) with false. cbv iota.
  change (iree_unaligned_load_le_u32 (magic ++ iree_unaligned_store_le_u32 n) 0) with IREE_NET_FRAMED_ENDPOINT_FRAME_MAGIC.
  rewrite Z.eqb_refl. cbn [negb].
  assert (iree_unaligned_load_le_u32 (magic ++ iree_unaligned_store_le_u32 n) 4 = n) as ->.
  { rewrite <- (app_nil_r (iree_unaligned_store_le_u32 n)). apply (load_le_app magic 4 n []); [unfold n; lia|done]. }
  destruct (Z.leb_spec n IREE_NET_FRAMED_ENDPOINT_FRAME_HEADER_SIZE) as [H|H];
    [unfold IREE_NET_FRAMED_ENDPOINT_FRAME_HEADER_SIZE, n in H; lia|].
  f_equal. symmetry. exact (byte_length_frame_of message).
Qed.

(** ** What a send puts on the wire *)

(** The message of a send: its generated prefix and its data. *)
Definition send_message (params : iree_net_message_endpoint_send_params_t) : status_or (list Z) :=
  let prefix := ps_generated_prefix params in
  match sp_write prefix with
  | None => Ok (concat (ps_data params))
  | Some write => bytes ← write (sp_length prefix); Ok (bytes ++ concat (ps_data params))
  end.

(** Sizes that the host can represent, and a writer that fills the storage it is given. *)
Definition send_params_ok (params : iree_net_message_endpoint_send_params_t) : Prop :=
  let prefix := ps_generated_prefix params in
  in_width 64 (sp_length prefix) ∧ Forall (λ span, in_width 64 (byte_length span)) (ps_data params) ∧
  (∀ write bytes, sp_write prefix = Some write → write (sp_length prefix) = Ok bytes → byte_length bytes = sp_length prefix) ∧
  iree_net_message_endpoint_send params = IREE_STATUS_OK.

Lemma byte_length_concat_cons span data : byte_length (concat (span :: data)) = byte_length span + byte_length (concat data).
Proof. cbn [concat]. apply byte_length_app. Qed.

Lemma add_lengths_spec total data :
  in_width 64 total → Forall (λ span, in_width 64 (byte_length span)) data →
  add_lengths total data = if decide (total + byte_length (concat data) <= umax 64) then Some (total + byte_length (concat data)) else None.
Proof.
  intros Ht Hd. revert total Ht. induction Hd as [|span data Hs _ IH]; intros total Ht.
  - cbn. unfold byte_length. cbn. unfold in_width, umax in *. rewrite decide_True by lia. by rewrite Z.add_0_r.
  - cbn [add_lengths]. rewrite byte_length_concat_cons, checked_add_u64_eq by done. pose proof (byte_length_nonneg (concat data)).
    unfold checked. unfold in_width, umax in *. case_decide; cbn [mbind option_bind].
    + rewrite IH by lia. by rewrite Z.add_assoc.
    + rewrite decide_False by lia. done.
Qed.

Lemma send_wire_bytes_frame params bytes :
  send_params_ok params → send_wire_bytes params = Ok bytes →
  ∃ message, send_message params = Ok message ∧ bytes = frame_of message ∧ message_ok message.
Proof.
  intros (Hp & Hd & Hw & Hv) Hs. unfold send_wire_bytes, iree_net_framed_endpoint_calculate_payload_length in Hs.
  set (prefix := ps_generated_prefix params) in *. rewrite add_lengths_spec in Hs by done. case_decide as Hfit; [|done]. cbn in Hs.
  set (n := sp_length prefix + byte_length (concat (ps_data params))) in *.
  unfold iree_net_framed_endpoint_calculate_frame_length in Hs. destruct (Z.eqb_spec n 0) as [|Hn]; [done|].
  destruct (Z.ltb_spec (umax 32 - IREE_NET_FRAMED_ENDPOINT_FRAME_HEADER_SIZE) n) as [|Hmax]; [done|]. cbn [mbind status_or_bind] in Hs.
  unfold IREE_NET_FRAMED_ENDPOINT_FRAME_HEADER_SIZE, umax, in_width in *. pose proof (byte_length_nonneg (concat (ps_data params))).
  rewrite uadd_small, wrap_small in Hs by (unfold in_width; lia).
  unfold iree_net_framed_endpoint_write_frame_prefix in Hs. unfold send_message. fold prefix in Hs |- *.
  unfold iree_net_message_endpoint_send in Hv. fold prefix in Hv. destruct (ps_completion_callback params); [|done].
  destruct (Z.eqb_spec (sp_length prefix) 0) as [E0|E0]; destruct (sp_write prefix) as [write|]; try done.
  - cbn in Hs. injection Hs as <-. eexists. split; [done|]. assert (byte_length (concat (ps_data params)) = n) as <- by (unfold n; lia).
    split; [done|]. unfold message_ok, umax. lia.
  - destruct (write (sp_length prefix)) as [pre|] eqn:Ew; [|done]. cbn in Hs |- *. injection Hs as <-. eexists. split; [done|].
    assert (byte_length (pre ++ concat (ps_data params)) = n) as Hn' by (rewrite byte_length_app, (Hw _ _ eq_refl Ew); done).
    unfold frame_of, message_ok, umax. rewrite Hn'. split; [done|lia].
Qed.

(** ** Round trip *)

Section round_trip.
Context {W Q O : Type} `{RQ : ReceiveQueues W Q O} `{!CursorLaws W Q O} `{EqDecision O}.
Context (queue : Q) (on_frame_complete : list Z → option Z → W → frame_result W).
Context (host_allocate : Z → W → status_or (Z * list Z) * W) (release : Z → W → W).

Notation cfg := (framed_config queue on_frame_complete host_allocate release).

Lemma frame_of_resolves message rest :
  message_ok message → resolve_frame_size cfg (take 8 (frame_of message ++ rest)) = Ok (byte_length (frame_of message)).
Proof.
  intros Hm. unfold resolve_frame_size. cbn [ac_frame_length framed_config]. rewrite resolve_frame_of by done. cbn [mbind status_or_bind].
  rewrite byte_length_frame_of.
  assert (byte_length (take 8 (frame_of message ++ rest)) = 8) as -> by done.
  unfold message_ok in Hm. cbn [ac_max_frame_size framed_config].
  destruct (Z.eqb_spec (byte_length message + 8) 0); [lia|]. destruct (Z.ltb_spec (byte_length message + 8) 8); [lia|].
  destruct (Z.ltb_spec (umax 32) (byte_length message + 8)); [lia|done].
Qed.

Lemma frame_of_valid message : message_ok message → frame_valid cfg (frame_of message).
Proof.
  intros Hm. split; [rewrite byte_length_frame_of; unfold message_ok in Hm; change (ac_header_size cfg) with 8; lia|]. rewrite <- (app_nil_r (frame_of message)) at 1. by apply frame_of_resolves.
Qed.

(** Where the bytes that arrived end: after whole messages, inside the next one. *)
Lemma split_messages messages bytes rest :
  bytes ++ rest = concat (frame_of <$> messages) →
  ∃ received pending held, messages = received ++ pending ∧ bytes = concat (frame_of <$> received) ++ held ∧
    held ++ rest = concat (frame_of <$> pending) ∧
    match pending with [] => held = [] | p :: _ => (length held < length (frame_of p))%nat end.
Proof.
  revert bytes. induction messages as [|message messages IH]; intros bytes E.
  - apply app_eq_nil in E as [-> ->]. exists [], [], []. done.
  - cbn [fmap list_fmap concat] in E. destruct (decide (length bytes < length (frame_of message))%nat) as [Hlt|Hge].
    + exists [], (message :: messages), bytes. done.
    + assert (take (length (frame_of message)) bytes = frame_of message) as Ht.
      { apply (f_equal (take (length (frame_of message)))) in E. rewrite take_app_le, take_app_length in E by lia. done. }
      rewrite <- (take_drop (length (frame_of message)) bytes), Ht, <- app_assoc in E. apply app_inv_head in E.
      destruct (IH _ E) as (received & pending & held & -> & Hb & Hh & Hp). exists (message :: received), pending, held.
      split; [done|]. split; [|done]. cbn [fmap list_fmap concat]. rewrite <- app_assoc, <- Hb.
      transitivity (take (length (frame_of message)) bytes ++ drop (length (frame_of message)) bytes); [by rewrite take_drop|by rewrite Ht].
Qed.

Lemma held_message_incomplete held rest pending :
  Forall message_ok pending → held ++ rest = concat (frame_of <$> pending) →
  match pending with [] => held = [] | p :: _ => (length held < length (frame_of p))%nat end →
  incomplete cfg held.
Proof.
  intros Hok E Hp. destruct pending as [|p pending].
  - subst held. left. done.
  - apply Forall_cons in Hok as [Hm _]. cbn [fmap list_fmap concat] in E.
    destruct (decide (length held < 8)%nat) as [|Hge]; [left; change (ac_header_size cfg) with 8; unfold byte_length; lia|].
    right. exists (byte_length (frame_of p)). split; [|unfold byte_length; lia]. rewrite <- (frame_of_resolves p (concat (frame_of <$> pending)) Hm).
    f_equal. change (Z.to_nat (ac_header_size cfg)) with 8%nat. rewrite <- E. by rewrite take_app_le by lia.
Qed.

Lemma received_messages (m m' : machine W Q O) vs messages rest :
  config_ok cfg → starts cfg m → stream_run cfg m vs m' → Forall message_ok messages →
  stream_bytes vs ++ rest = concat (frame_of <$> messages) →
  ∃ received pending, messages = received ++ pending ∧ frame_payload <$> frames (ma_calls m') = received ∧
    held_bytes cfg (ma_accumulator m') (ma_world m') ++ rest = concat (frame_of <$> pending) ∧
    (rest = [] → pending = [] ∧ held_bytes cfg (ma_accumulator m') (ma_world m') = []).
Proof.
  intros Hcfg Hstart Hrun Hok E. destruct (stream_run_ok cfg Hcfg _ _ _ Hstart Hrun) as (Ha & Hc & Heq).
  destruct (split_messages _ _ _ E) as (received & pending & held & -> & Hb & Hh & Hp). apply Forall_app in Hok as [Hr Hpend].
  pose proof (held_message_incomplete held rest pending Hpend Hh Hp) as Hinc. set (fuel := length (stream_bytes vs)).
  assert (Forall (frame_valid cfg) (frame_of <$> received)) as Hv.
  { apply Forall_fmap. eapply Forall_impl; [exact Hr|]. intros x. apply frame_of_valid. }
  assert (cut_frames cfg fuel (stream_bytes vs) = (frame_of <$> received, held)) as E1.
  { rewrite Hb. apply cut_frames_unique; [done|done|done|]. unfold fuel. by rewrite Hb. }
  assert (cut_frames cfg fuel (stream_bytes vs) = (frames (ma_calls m'), held_bytes cfg (ma_accumulator m') (ma_world m'))) as E2.
  { rewrite <- Heq. apply cut_frames_unique; [done|by apply calls_frames_valid|by apply held_incomplete|]. unfold fuel. by rewrite Heq. }
  rewrite E1 in E2. injection E2 as <- <-. exists received, pending. split; [done|]. split.
  { rewrite <- list_fmap_compose. transitivity (id <$> received); [by apply list_fmap_ext|apply list_fmap_id]. }
  split; [done|]. intros ->. rewrite app_nil_r in Hh. destruct pending as [|p pending]; [done|]. exfalso. cbn [fmap list_fmap concat] in Hh.
  apply (f_equal length) in Hh. rewrite length_app in Hh. lia.
Qed.

Lemma framed_messages_arrive (m m' : machine W Q O) vs sends wires rest :
  config_ok cfg → starts cfg m → stream_run cfg m vs m' →
  Forall send_params_ok sends → Forall2 (λ params bytes, send_wire_bytes params = Ok bytes) sends wires →
  stream_bytes vs ++ rest = concat wires →
  ∃ received pending, Forall2 (λ params message, send_message params = Ok message) sends (received ++ pending) ∧
    frame_payload <$> frames (ma_calls m') = received ∧
    (rest = [] → pending = [] ∧ iree_net_frame_accumulator_has_partial_frame (ma_accumulator m') = false).
Proof.
  intros Hcfg Hstart Hrun Hsends Hwires E.
  assert (∃ messages, Forall2 (λ params message, send_message params = Ok message) sends messages ∧ Forall message_ok messages ∧
    wires = frame_of <$> messages) as (messages & Hm & Hok & ->).
  { clear -Hsends Hwires. induction Hwires as [|params bytes sends wires Hs _ IH]; [by exists []|].
    apply Forall_cons in Hsends as [Hp Hsends]. destruct (IH Hsends) as (messages & ? & ? & ->).
    destruct (send_wire_bytes_frame _ _ Hp Hs) as (message & ? & -> & ?). exists (message :: messages).
    split; [by constructor|]. split; [by constructor|done]. }
  destruct (received_messages m m' vs messages rest Hcfg Hstart Hrun Hok E) as (received & pending & -> & Hr & _ & Hall).
  exists received, pending. do 2 (split; [done|]). intros Hrest. destruct (Hall Hrest) as [-> Hheld]. split; [done|].
  destruct (stream_run_ok cfg Hcfg _ _ _ Hstart Hrun) as (Ha & _ & _).
  unfold iree_net_frame_accumulator_has_partial_frame. by rewrite (buffered_held cfg Hcfg _ _ Ha), Hheld.
Qed.

(** C16: Messages that are sent through a framed endpoint arrive with their boundaries: however
    the carrier cuts the bytes of the sends, and whatever part of them has arrived, the
    payloads of the frames delivered or placed at the receiver are, in order and unchanged,
    the messages (generated prefix and data) of the first sends; once all bytes have arrived
    they are all of them and nothing is held. *)
Theorem framed_messages_round_trip (m m' : machine W Q O) vs sends wires rest :
  config_ok cfg → starts cfg m → stream_run cfg m vs m' →
  Forall send_params_ok sends → Forall2 (λ params bytes, send_wire_bytes params = Ok bytes) sends wires →
  stream_bytes vs ++ rest = concat wires →
  ∃ received pending, Forall2 (λ params message, send_message params = Ok message) sends (received ++ pending) ∧
    frame_payload <$> frames (ma_calls m') = received ∧
    (rest = [] → pending = [] ∧ iree_net_frame_accumulator_has_partial_frame (ma_accumulator m') = false).
Proof. apply framed_messages_arrive. Qed.

End round_trip.

(** ** The adapter at the end of a stream *)

Section ends.
Context {W Q O : Type} `{RQ : ReceiveQueues W Q O} `{!CursorLaws W Q O} `{EqDecision O}.
Context (cfg : accumulator_config W Q).

(** C17: An empty receive, with which the carrier reports that the peer closed the stream,
    returns DATA_LOSS exactly when the stream ended inside a frame, by the reference parser on
    all bytes, and UNAVAILABLE when it ended between frames; any other receive is a push. *)
Theorem end_of_stream_exact (m m' : machine W Q O) vs data lease :
  config_ok cfg → starts cfg m → stream_run cfg m vs m' →
  iree_net_framing_adapter_on_recv cfg data lease m' =
    if decide (cs_bytes data = []) then
      Some (if decide ((cut_frames cfg (length (stream_bytes vs)) (stream_bytes vs)).2 = []) then IREE_STATUS_UNAVAILABLE
            else IREE_STATUS_DATA_LOSS, m')
    else push cfg (match lease with Some lease => ArrivalLease data lease | None => ArrivalSpan data end) m'.
Proof.
  intros Hcfg Hstart Hrun. destruct (stream_run_ok cfg Hcfg _ _ _ Hstart Hrun) as (Ha & Hc & Heq).
  unfold iree_net_framing_adapter_on_recv. destruct (cs_bytes data) as [|b bytes] eqn:Eb.
  2: { rewrite decide_False by done. destruct (Z.eqb_spec (byte_length (b :: bytes)) 0); [done|]. by destruct lease. }
  rewrite decide_True by done. rewrite (buffered_held cfg Hcfg _ _ Ha), <- Heq.
  rewrite (cut_frames_unique cfg Hcfg); [|by apply calls_frames_valid|by apply held_incomplete|done]. cbn [snd].
  change (byte_length [] =? 0) with true. cbv iota.
  destruct (held_bytes cfg (ma_accumulator m') (ma_world m')) as [|h held]; [done|]. rewrite decide_False by done.
  by destruct (Z.ltb_spec 0 (byte_length (h :: held))); [|unfold byte_length in *; cbn in *; lia].
Qed.

(** When the carrier has stopped, the operation that holds a partial body is returned with
    the terminal status, which is CANCELLED if there was none, and nothing is held. *)
Lemma carrier_stop_returns ad m vs :
  config_ok cfg → starts cfg m → stream_run cfg m vs (ad_machine ad) →
  let ad' := (iree_net_framing_adapter_on_carrier_deactivated cfg ad).1 in
  let status := if bool_decide (ad_terminal_status ad = IREE_STATUS_OK) then IREE_STATUS_CANCELLED else ad_terminal_status ad in
  held_bytes cfg (ma_accumulator (ad_machine ad')) (ma_world (ad_machine ad')) = [] ∧ status ≠ IREE_STATUS_OK ∧
  ad_machine ad' = match fa_receive_operation (ma_accumulator (ad_machine ad)) with
    | Some _ => iree_net_frame_accumulator_abort cfg status (ad_machine ad)
    | None => iree_net_frame_accumulator_reset cfg (ad_machine ad)
    end.
Proof.
  intros Hcfg Hstart Hrun ad' status. destruct (stream_run_ok cfg Hcfg _ _ _ Hstart Hrun) as (Ha & _ & _).
  pose proof (between_abort_safe cfg _ _ (accumulator_between cfg _ _ Ha)) as Hsafe.
  assert (ad_machine ad' = match fa_receive_operation (ma_accumulator (ad_machine ad)) with
    | Some _ => iree_net_frame_accumulator_abort cfg status (ad_machine ad)
    | None => iree_net_frame_accumulator_reset cfg (ad_machine ad)
    end) as E.
  { unfold ad', iree_net_framing_adapter_on_carrier_deactivated.
    by destruct (iree_net_endpoint_lifecycle_complete_deactivation (ad_lifecycle ad)). }
  rewrite E. split; [|split; [unfold status; by case_bool_decide|done]].
  destruct (fa_receive_operation _); [|rewrite (reset_abort cfg)]; by apply (abort_spec cfg Hcfg).
Qed.

End ends.

(** ** Concrete messages *)

Definition sample_framed : accumulator_config cursor_world nat :=
  framed_config 0%nat (λ _ _ w, mk_frame_result IREE_STATUS_OK true w)
    (λ n w, (Ok (100, replicate (Z.to_nat n) 0), w)) (λ _ w, w).

Definition sample_receiver : machine cursor_world nat (nat * nat) :=
  mk_machine (mk_frame_accumulator 0 0 None None 0 0 None (replicate 72 0)) sample_world None [].

Definition sample_sends : list iree_net_message_endpoint_send_params_t :=
  [mk_send_params (mk_send_prefix 0 None false) [[9]; [9]] (Some 1);
   mk_send_params (mk_send_prefix 2 (Some (λ _, Ok [7; 1])) true) [[40; 41]; [42]] (Some 2)].

Definition sample_wires : list (list Z) := [frame_of [9; 9]; frame_of [7; 1; 40; 41; 42]].

Definition sample_chunk (bytes : list Z) : arrival (O := nat * nat) := ArrivalSpan (mk_carrier_span None 1 (PointerCarrier 0) bytes).

(** The second frame is cut inside its header and its body. *)
Definition sample_chunks : list (arrival (O := nat * nat)) :=
  sample_chunk <$> [take 13 (concat sample_wires); take 9 (drop 13 (concat sample_wires)); drop 22 (concat sample_wires)].

Definition receive_all (vs : list (arrival (O := nat * nat))) (m : machine cursor_world nat (nat * nat)) : machine cursor_world nat (nat * nat) :=
  fold_left (λ m v, match push sample_framed v m with Some (IREE_STATUS_OK, m') => m' | _ => m end) vs m.

Lemma sample_framed_ok : config_ok sample_framed.
Proof.
  split; cbn; try (intros; apply refl_interferes); try (unfold IREE_NET_FRAMED_ENDPOINT_FRAME_HEADER_SIZE, in_width, umax; lia).
  - intros header. unfold iree_net_framed_endpoint_resolve_frame_length. destruct (_ <? _); [done|]. destruct (negb _); [done|].
    destruct (Z.leb_spec (iree_unaligned_load_le_u32 header 4) IREE_NET_FRAMED_ENDPOINT_FRAME_HEADER_SIZE); [done|].
    unfold IREE_NET_FRAMED_ENDPOINT_FRAME_HEADER_SIZE in *. lia.
  - intros n w r w' Hn [= <- <-]. split; [apply refl_interferes|]. unfold byte_length. rewrite length_replicate. lia.
Qed.

Lemma sample_receiver_starts : starts sample_framed sample_receiver.
Proof. destruct sample_starts as (_ & w & _ & _ & [= <-] & Hown). by exists (replicate 72 0), sample_world. Qed.

Lemma sample_received : stream_run sample_framed sample_receiver sample_chunks (receive_all sample_chunks sample_receiver).
Proof.
  refine (stream_push _ _ [_; _] _ _ _ (stream_push _ _ [_] _ _ _ (stream_push _ _ [] _ _ _ (stream_start _ _) _ _) _ _) _ _);
    first [by exists 0|vm_compute; reflexivity].
Qed.

Lemma framed_messages_round_trip_witness :
  frame_payload <$> frames (ma_calls (receive_all sample_chunks sample_receiver)) = [[9; 9]; [7; 1; 40; 41; 42]] ∧
  iree_net_frame_accumulator_has_partial_frame (ma_accumulator (receive_all sample_chunks sample_receiver)) = false.
Proof.
  destruct (framed_messages_round_trip 0%nat _ _ _ _ _ sample_chunks sample_sends sample_wires []
    sample_framed_ok sample_receiver_starts sample_received) as (received & pending & Hm & Hr & Hall).
  - repeat constructor; unfold in_width, byte_length; cbn; try lia; try done. by intros write bytes [= <-] [= <-].
  - by repeat constructor.
  - vm_compute. reflexivity.
  - destruct (Hall eq_refl) as [-> Hpartial]. split; [|exact Hpartial]. rewrite Hr. rewrite app_nil_r in Hm.
    apply Forall2_cons_inv_l in Hm as (m1 & l1 & E1 & Hm & ->). apply Forall2_cons_inv_l in Hm as (m2 & l2 & E2 & Hm & ->).
    apply Forall2_nil_inv_l in Hm as ->. cbn in E1, E2. by injection E1 as <-; injection E2 as <-.
Defined.

Lemma end_of_stream_exact_witness :
  iree_net_framing_adapter_on_recv sample_framed (mk_carrier_span None 1 (PointerCarrier 0) []) None (receive_all sample_chunks sample_receiver) =
    Some (IREE_STATUS_UNAVAILABLE, receive_all sample_chunks sample_receiver).
Proof.
  rewrite (end_of_stream_exact sample_framed _ _ sample_chunks _ _ sample_framed_ok sample_receiver_starts sample_received).
  rewrite decide_True by done. vm_compute. reflexivity.
Defined.
