(* ===== verification/FramedSends.v ===== *)
(** * Sends of a framed endpoint

    [iree/net/framed_endpoint.c]: the pool of send states behind a free list, admission,
    completion by the carrier or by the endpoint's proactor, activation and deactivation.
    What a function does while it holds the endpoint's mutex is one step; calls of many
    threads interleave in [send_step]. *)

From S2P Require Import Prelude BaseMath EndpointLifecycle ReceiveQueue FramedEndpoint.
From stdpp Require Import base numbers list list_numbers.

Local Open Scope Z_scope.
Local Open Scope machine_scope.

(** ** Data *)

Definition IREE_NET_FRAMED_ENDPOINT_SEND_STATE_NONE : Z := umax 32.

Inductive iree_net_framed_endpoint_state_t :=
  | FRAMED_ENDPOINT_STATE_CREATED
  | FRAMED_ENDPOINT_STATE_ACTIVE
  | FRAMED_ENDPOINT_STATE_DRAINING
  | FRAMED_ENDPOINT_STATE_DEACTIVATED.

#[export] Instance framed_endpoint_state_eq_dec : EqDecision iree_net_framed_endpoint_state_t.
Proof. solve_decision. Defined.

Inductive iree_net_framed_endpoint_send_state_phase_t :=
  | SEND_STATE_PHASE_FREE
  | SEND_STATE_PHASE_IN_FLIGHT.

Record iree_net_framed_endpoint_send_state_t := mk_send_state {
  fs_index : Z;
  fs_next_free : Z;
  fs_phase : iree_net_framed_endpoint_send_state_phase_t;
  fs_payload_length : Z;
  fs_completion_callback : callback_t;
  fs_local_completion_status : iree_status_code;
}.

(** [fe_on_message] and [fe_on_error] are whether the callbacks are installed. *)
Record iree_net_framed_endpoint_t := mk_framed_endpoint {
  fe_state : iree_net_framed_endpoint_state_t;
  fe_on_message : bool;
  fe_on_error : bool;
  fe_lifecycle : iree_net_endpoint_lifecycle_t;
  fe_send_state_count : Z;
  fe_free_send_state_count : Z;
  fe_free_send_state_head : Z;
  fe_send_states : list iree_net_framed_endpoint_send_state_t;
}.

Definition with_endpoint_state (st : iree_net_framed_endpoint_state_t) (e : iree_net_framed_endpoint_t) : iree_net_framed_endpoint_t :=
  mk_framed_endpoint st (fe_on_message e) (fe_on_error e) (fe_lifecycle e) (fe_send_state_count e) (fe_free_send_state_count e)
    (fe_free_send_state_head e) (fe_send_states e).
Definition with_endpoint_lifecycle (l : iree_net_endpoint_lifecycle_t) (e : iree_net_framed_endpoint_t) : iree_net_framed_endpoint_t :=
  mk_framed_endpoint (fe_state e) (fe_on_message e) (fe_on_error e) l (fe_send_state_count e) (fe_free_send_state_count e)
    (fe_free_send_state_head e) (fe_send_states e).
Definition with_free (count head : Z) (states : list iree_net_framed_endpoint_send_state_t) (e : iree_net_framed_endpoint_t) :
    iree_net_framed_endpoint_t :=
  mk_framed_endpoint (fe_state e) (fe_on_message e) (fe_on_error e) (fe_lifecycle e) (fe_send_state_count e) count head states.
Definition with_states (states : list iree_net_framed_endpoint_send_state_t) (e : iree_net_framed_endpoint_t) : iree_net_framed_endpoint_t :=
  with_free (fe_free_send_state_count e) (fe_free_send_state_head e) states e.

Definition iree_net_framed_endpoint_set_callbacks (on_message on_error : bool) (e : iree_net_framed_endpoint_t) : iree_net_framed_endpoint_t :=
  mk_framed_endpoint (fe_state e) on_message on_error (fe_lifecycle e) (fe_send_state_count e) (fe_free_send_state_count e)
    (fe_free_send_state_head e) (fe_send_states e).

Definition get_send_state (i : nat) (e : iree_net_framed_endpoint_t) : iree_net_framed_endpoint_send_state_t :=
  nth i (fe_send_states e) (mk_send_state 0 IREE_NET_FRAMED_ENDPOINT_SEND_STATE_NONE SEND_STATE_PHASE_FREE 0 None IREE_STATUS_OK).

Definition update_send_state (i : nat) (f : iree_net_framed_endpoint_send_state_t → iree_net_framed_endpoint_send_state_t)
    (e : iree_net_framed_endpoint_t) : iree_net_framed_endpoint_t :=
  with_states (alter f i (fe_send_states e)) e.

(** ** The pool of send states *)

(** The index of the state; [None] is a null pointer. *)
Definition iree_net_framed_endpoint_acquire_send_state_locked (e : iree_net_framed_endpoint_t) :
    option nat * iree_net_framed_endpoint_t :=
  if fe_free_send_state_head e =? IREE_NET_FRAMED_ENDPOINT_SEND_STATE_NONE then (None, e)
  else
    let i := Z.to_nat (fe_free_send_state_head e) in
    let head := fs_next_free (get_send_state i e) in
    let acquire s :=
      mk_send_state (fs_index s) IREE_NET_FRAMED_ENDPOINT_SEND_STATE_NONE SEND_STATE_PHASE_IN_FLIGHT (fs_payload_length s)
        (fs_completion_callback s) (fs_local_completion_status s) in
    (Some i, with_free (usub 32 (fe_free_send_state_count e) 1) head (alter acquire i (fe_send_states e)) e).

Definition iree_net_framed_endpoint_release_send_state_locked (i : nat) (e : iree_net_framed_endpoint_t) : iree_net_framed_endpoint_t :=
  let release s :=
    mk_send_state (fs_index s) (fe_free_send_state_head e) SEND_STATE_PHASE_FREE 0 None (fs_local_completion_status s) in
  with_free (uadd 32 (fe_free_send_state_count e) 1) (fs_index (get_send_state i e)) (alter release i (fe_send_states e)) e.

(** ** Completion *)

(** The payload bytes among the bytes on the wire. *)
Definition payload_bytes_transferred (payload_length wire_bytes_transferred : Z) : Z :=
  if IREE_NET_FRAMED_ENDPOINT_FRAME_HEADER_SIZE <? wire_bytes_transferred
  then Z.min payload_length (wire_bytes_transferred -64 IREE_NET_FRAMED_ENDPOINT_FRAME_HEADER_SIZE)
  else 0.

(** A completion whose callback is to be called. *)
Record send_completion := mk_send_completion {
  sc_callback : callback_t;
  sc_payload_length : Z;
  sc_status : iree_status_code;
  sc_bytes : Z;
}.

(** [send_complete] up to its callback; the end of the operation follows. *)
Definition iree_net_framed_endpoint_send_complete (i : nat) (status : iree_status_code) (wire_bytes_transferred : Z)
    (e : iree_net_framed_endpoint_t) : send_completion * iree_net_framed_endpoint_t :=
  let s := get_send_state i e in
  let payload_length := fs_payload_length s in
  let completion_callback := fs_completion_callback s in
  (mk_send_completion completion_callback payload_length status (payload_bytes_transferred payload_length wire_bytes_transferred),
   iree_net_framed_endpoint_release_send_state_locked i e).

Definition set_local_status (status : iree_status_code) (s : iree_net_framed_endpoint_send_state_t) : iree_net_framed_endpoint_send_state_t :=
  mk_send_state (fs_index s) (fs_next_free s) (fs_phase s) (fs_payload_length s) (fs_completion_callback s) status.

Definition iree_net_framed_endpoint_local_send_complete (i : nat) (status : iree_status_code) (e : iree_net_framed_endpoint_t) :
    send_completion * iree_net_framed_endpoint_t :=
  let completion_status := fs_local_completion_status (get_send_state i e) in
  let e := update_send_state i (set_local_status IREE_STATUS_OK) e in
  iree_net_framed_endpoint_send_complete i (iree_status_join completion_status status) 0 e.

(** ** Admission *)

(** [acquire_send_state] under the mutex, after the lifecycle has admitted the operation. *)
Definition acquire_admitted (e : iree_net_framed_endpoint_t) : status_or nat * iree_net_framed_endpoint_t :=
  if negb (bool_decide (fe_state e = FRAMED_ENDPOINT_STATE_ACTIVE)) then (Err IREE_STATUS_FAILED_PRECONDITION, e)
  else
    match iree_net_framed_endpoint_acquire_send_state_locked e with
    | (None, e) => (Err IREE_STATUS_RESOURCE_EXHAUSTED, e)
    | (Some i, e) => (Ok i, e)
    end.

(** A call that ends its operation returns what the lifecycle delivers. *)
Definition end_operation (e : iree_net_framed_endpoint_t) :
    iree_net_framed_endpoint_t * option iree_net_endpoint_lifecycle_completion_t :=
  let '(l, c) := iree_net_endpoint_lifecycle_end_operation (fe_lifecycle e) in (with_endpoint_lifecycle l e, c).

Definition begin_operation (e : iree_net_framed_endpoint_t) : bool * iree_net_framed_endpoint_t :=
  let '(accepted, l) := iree_net_endpoint_lifecycle_try_begin_operation (fe_lifecycle e) in (accepted, with_endpoint_lifecycle l e).

Definition iree_net_framed_endpoint_acquire_send_state (e : iree_net_framed_endpoint_t) :
    status_or nat * iree_net_framed_endpoint_t * option iree_net_endpoint_lifecycle_completion_t :=
  let '(accepted, e) := begin_operation e in
  if negb accepted then (Err IREE_STATUS_FAILED_PRECONDITION, e, None)
  else
    match acquire_admitted e with
    | (Err code, e) => let '(e, c) := end_operation e in (Err code, e, c)
    | (Ok i, e) => (Ok i, e, None)
    end.

Definition iree_net_framed_endpoint_reject_send_state (i : nat) (e : iree_net_framed_endpoint_t) :
    iree_net_framed_endpoint_t * option iree_net_endpoint_lifecycle_completion_t :=
  end_operation (iree_net_framed_endpoint_release_send_state_locked i e).

(** [submit_status] is what the proactor reports. *)
Definition iree_net_framed_endpoint_schedule_local_send_completion (i : nat) (status submit_status : iree_status_code)
    (e : iree_net_framed_endpoint_t) : iree_status_code * iree_net_framed_endpoint_t * option iree_net_endpoint_lifecycle_completion_t :=
  let e := update_send_state i (set_local_status status) e in
  if bool_decide (submit_status = IREE_STATUS_OK) then (IREE_STATUS_OK, e, None)
  else
    let status := fs_local_completion_status (get_send_state i e) in
    let e := update_send_state i (set_local_status IREE_STATUS_OK) e in
    let '(e, c) := iree_net_framed_endpoint_reject_send_state i e in
    (iree_status_join status submit_status, e, c).

(** The parameters that the wire endpoint gets; the state is the user data of the callback. *)
Definition wire_params (i : nat) (frame_length : Z) (params : iree_net_message_endpoint_send_params_t) :
    iree_net_message_endpoint_send_params_t :=
  let prefix := ps_generated_prefix params in
  mk_send_params
    (mk_send_prefix (IREE_NET_FRAMED_ENDPOINT_FRAME_HEADER_SIZE +64 sp_length prefix)
       (Some (λ _, iree_net_framed_endpoint_write_frame_prefix frame_length prefix)) true)
    (ps_data params) (Some (Z.of_nat i)).

(** The send of the wire endpoint: its validation, then what the carrier reports. *)
Definition wire_send (params : iree_net_message_endpoint_send_params_t) (carrier_status : iree_status_code) : iree_status_code :=
  match iree_net_message_endpoint_send params with IREE_STATUS_OK => carrier_status | code => code end.

Definition fill_send_state (payload_length : Z) (callback : callback_t) (s : iree_net_framed_endpoint_send_state_t) :
    iree_net_framed_endpoint_send_state_t :=
  mk_send_state (fs_index s) (fs_next_free s) (fs_phase s) payload_length callback (fs_local_completion_status s).

Definition iree_net_framed_endpoint_send (params : iree_net_message_endpoint_send_params_t) (carrier_status submit_status : iree_status_code)
    (e : iree_net_framed_endpoint_t) : iree_status_code * iree_net_framed_endpoint_t * option iree_net_endpoint_lifecycle_completion_t :=
  match iree_net_framed_endpoint_calculate_payload_length params with
  | Err code => (code, e, None)
  | Ok payload_length =>
      match iree_net_framed_endpoint_calculate_frame_length payload_length with
      | Err code => (code, e, None)
      | Ok frame_length =>
          match iree_net_framed_endpoint_acquire_send_state e with
          | (Err code, e, c) => (code, e, c)
          | (Ok i, e, _) =>
              let e := update_send_state i (fill_send_state payload_length (ps_completion_callback params)) e in
              let status := wire_send (wire_params i frame_length params) carrier_status in
              if negb (bool_decide (status = IREE_STATUS_OK)) then
                iree_net_framed_endpoint_schedule_local_send_completion i status submit_status e
              else (IREE_STATUS_OK, e, None)
          end
      end
  end.

(** Bytes and slots, with what the wire endpoint reports. *)
Definition iree_net_framed_endpoint_query_send_budget (wire_bytes wire_slots : Z) (e : iree_net_framed_endpoint_t) : Z * Z :=
  if bool_decide (fe_state e = FRAMED_ENDPOINT_STATE_ACTIVE) && (0 <? fe_free_send_state_count e) then
    (if negb (wire_bytes =? umax 64) then
       if IREE_NET_FRAMED_ENDPOINT_FRAME_HEADER_SIZE <? wire_bytes then wire_bytes -64 IREE_NET_FRAMED_ENDPOINT_FRAME_HEADER_SIZE else 0
     else wire_bytes,
     Z.min wire_slots (fe_free_send_state_count e))
  else (0, 0).

(** ** Lifecycle of the endpoint *)

(** [activate] under the mutex, before the wire endpoint is activated. *)
Definition activate_locked (e : iree_net_framed_endpoint_t) : status_or iree_net_framed_endpoint_t :=
  if negb (bool_decide (fe_state e = FRAMED_ENDPOINT_STATE_CREATED)) then Err IREE_STATUS_FAILED_PRECONDITION
  else if negb (fe_on_message e) || negb (fe_on_error e) then Err IREE_STATUS_FAILED_PRECONDITION
  else
    l ← iree_net_endpoint_lifecycle_activate (fe_lifecycle e);
    Ok (with_endpoint_state FRAMED_ENDPOINT_STATE_ACTIVE (with_endpoint_lifecycle l e)).

Definition rollback_locked (e : iree_net_framed_endpoint_t) : iree_net_framed_endpoint_t :=
  with_endpoint_lifecycle (iree_net_endpoint_lifecycle_rollback_activation (fe_lifecycle e))
    (with_endpoint_state FRAMED_ENDPOINT_STATE_CREATED e).

(** [wire_status] is what the activation of the wire endpoint reports. *)
Definition iree_net_framed_endpoint_activate (wire_status : iree_status_code) (e : iree_net_framed_endpoint_t) :
    iree_status_code * iree_net_framed_endpoint_t :=
  match activate_locked e with
  | Err code => (code, e)
  | Ok e => (wire_status, if bool_decide (wire_status = IREE_STATUS_OK) then e else rollback_locked e)
  end.

(** [deactivate] under the mutex; the receives are closed and the wire endpoint is
    deactivated afterwards. *)
Definition deactivate_locked (callback : callback_t) (e : iree_net_framed_endpoint_t) (b : iree_net_endpoint_deactivation_barrier_t) :
    status_or (iree_net_framed_endpoint_t * iree_net_endpoint_deactivation_barrier_t) :=
  if negb (bool_decide (fe_state e = FRAMED_ENDPOINT_STATE_ACTIVE)) then Err IREE_STATUS_FAILED_PRECONDITION
  else
    '(l, b) ← iree_net_endpoint_lifecycle_request_deactivation callback (fe_lifecycle e) b;
    Ok (with_endpoint_state FRAMED_ENDPOINT_STATE_DRAINING (with_endpoint_lifecycle l e), b).

(** [on_wire_deactivated] under the mutex; [complete_drain] follows. *)
Definition wire_deactivated_locked (e : iree_net_framed_endpoint_t) : iree_net_framed_endpoint_t :=
  with_endpoint_state FRAMED_ENDPOINT_STATE_DEACTIVATED e.

Definition complete_drain (e : iree_net_framed_endpoint_t) :
    iree_net_framed_endpoint_t * option iree_net_endpoint_lifecycle_completion_t :=
  let '(l, c) := iree_net_endpoint_lifecycle_complete_deactivation (fe_lifecycle e) in (with_endpoint_lifecycle l e, c).

Definition iree_net_framed_endpoint_on_wire_deactivated (e : iree_net_framed_endpoint_t) :
    iree_net_framed_endpoint_t * option iree_net_endpoint_lifecycle_completion_t :=
  complete_drain (wire_deactivated_locked e).

(** [join_deactivation] under the mutex. The receives are closed and the adapter joins
    afterwards; with [true] [complete_drain] follows them. *)
Definition join_locked (e : iree_net_framed_endpoint_t) (b : iree_net_endpoint_deactivation_barrier_t) :
    bool * iree_net_framed_endpoint_t * iree_net_endpoint_deactivation_barrier_t :=
  if bool_decide (fe_state e = FRAMED_ENDPOINT_STATE_ACTIVE) then
    let '(started, l, b) := iree_net_endpoint_lifecycle_join_deactivation (fe_lifecycle e) b in
    (started, with_endpoint_state FRAMED_ENDPOINT_STATE_DRAINING (with_endpoint_lifecycle l e), b)
  else (false, e, b).

(** Whether [on_wire_message] delivers a message. *)
Definition admit_message (e : iree_net_framed_endpoint_t) : bool * iree_net_framed_endpoint_t :=
  if bool_decide (fe_state e = FRAMED_ENDPOINT_STATE_ACTIVE) then begin_operation e else (false, e).

(** [on_message] gets the payload of the frame and reports a status. *)
Definition iree_net_framed_endpoint_on_wire_message (on_message : list Z → iree_status_code) (frame : list Z) (e : iree_net_framed_endpoint_t) :
    iree_status_code * iree_net_framed_endpoint_t * option iree_net_endpoint_lifecycle_completion_t :=
  let '(admitted, e) := admit_message e in
  if negb admitted then (IREE_STATUS_OK, e, None)
  else
    let status := on_message (frame_payload frame) in
    let '(e, c) := end_operation e in (status, e, c).

(** ** Creation *)

Definition initial_send_state (max_send_operations : Z) (i : nat) : iree_net_framed_endpoint_send_state_t :=
  mk_send_state (Z.of_nat i)
    (if uadd 32 (Z.of_nat i) 1 <? max_send_operations then uadd 32 (Z.of_nat i) 1 else IREE_NET_FRAMED_ENDPOINT_SEND_STATE_NONE)
    SEND_STATE_PHASE_FREE 0 None IREE_STATUS_OK.

(** An endpoint over a carrier and a proactor; [host_malloc] and [adapter_status] are what
    the host and the allocation of the framing adapter report, and the sizes are those of the
    endpoint and of a send state. *)
Definition iree_net_framed_endpoint_allocate (endpoint_size state_size : Z) (host_malloc : Z → iree_status_code) (adapter_status : iree_status_code)
    (max_send_operations : Z) (connection_barrier : bool) : status_or iree_net_framed_endpoint_t :=
  if max_send_operations =? 0 then Err IREE_STATUS_INVALID_ARGUMENT
  else
    '(_, allocation_size) ← iree_struct_layout_calculate endpoint_size [Build_iree_struct_field_t max_send_operations 1 state_size 8];
    match host_malloc allocation_size, adapter_status with
    | IREE_STATUS_OK, IREE_STATUS_OK =>
        Ok (mk_framed_endpoint FRAMED_ENDPOINT_STATE_CREATED false false (iree_net_endpoint_lifecycle_initialize connection_barrier)
              max_send_operations max_send_operations 0 (initial_send_state max_send_operations <$> seq 0 (Z.to_nat max_send_operations)))
    | IREE_STATUS_OK, code => Err code
    | code, _ => Err code
    end.

(** ** Threads

    A call of [send] is a thread until it returns; the carrier and the proactor hold the
    states whose completion they still have to report. *)

(** Every thread holds one operation of the lifecycle. *)
Inductive send_thread :=
  | SendBegun (params : iree_net_message_endpoint_send_params_t)
  | SendAcquired (i : nat) (params : iree_net_message_endpoint_send_params_t)
  | SendRefused (i : nat) (status : iree_status_code)
  | SendRejecting (i : nat) (status : iree_status_code)
  | SendReturning (c : send_completion)
  | SendEnding.

Inductive send_event :=
  | SendAdmitted (callback : callback_t) (payload_length : Z)
  | SendRejected (status : iree_status_code)
  | SendCompleted (c : send_completion)
  | SendsFinished (c : iree_net_endpoint_lifecycle_completion_t).

(** How far a drain of the endpoint is that has begun. *)
Inductive drain_phase :=
  | DrainWire
  | DrainCompleting.

(** [ys_others] counts the operations of receives and deliveries. *)
Record send_system := mk_send_system {
  ys_endpoint : iree_net_framed_endpoint_t;
  ys_threads : list send_thread;
  ys_carrier : list nat;
  ys_proactor : list nat;
  ys_others : nat;
  ys_drain : option drain_phase;
  ys_events : list send_event;
}.

Definition send_finished (c : option iree_net_endpoint_lifecycle_completion_t) : list send_event :=
  match c with Some c => [SendsFinished c] | None => [] end.

(** The payload length of a send that its lengths allow. *)
Definition send_lengths (params : iree_net_message_endpoint_send_params_t) : status_or (Z * Z) :=
  payload_length ← iree_net_framed_endpoint_calculate_payload_length params;
  frame_length ← iree_net_framed_endpoint_calculate_frame_length payload_length;
  Ok (payload_length, frame_length).

(** The carrier and the proactor complete what they accepted once; a send that succeeded has
    transferred its frame. *)
Inductive send_step : send_system → send_system → Prop :=
  | send_begin e ts cs ps n d es params lengths e' :
      send_params_ok params → send_lengths params = Ok lengths → lc_pending_operation_count (fe_lifecycle e) < umax 64 →
      begin_operation e = (true, e') →
      send_step (mk_send_system e ts cs ps n d es) (mk_send_system e' (SendBegun params :: ts) cs ps n d es)
  | send_inactive e ts cs ps n d es e' :
      begin_operation e = (false, e') →
      send_step (mk_send_system e ts cs ps n d es) (mk_send_system e' ts cs ps n d (es ++ [SendRejected IREE_STATUS_FAILED_PRECONDITION]))
  | send_acquire e ts1 ts2 cs ps n d es params i e' :
      acquire_admitted e = (Ok i, e') →
      send_step (mk_send_system e (ts1 ++ SendBegun params :: ts2) cs ps n d es)
        (mk_send_system e' (ts1 ++ SendAcquired i params :: ts2) cs ps n d es)
  | send_unavailable e ts1 ts2 cs ps n d es params code e' :
      acquire_admitted e = (Err code, e') →
      send_step (mk_send_system e (ts1 ++ SendBegun params :: ts2) cs ps n d es)
        (mk_send_system e' (ts1 ++ SendEnding :: ts2) cs ps n d (es ++ [SendRejected code]))
  | send_wire e ts1 ts2 cs ps n d es params i payload_length frame_length carrier_status :
      send_lengths params = Ok (payload_length, frame_length) →
      let status := wire_send (wire_params i frame_length params) carrier_status in
      let e' := update_send_state i (fill_send_state payload_length (ps_completion_callback params)) e in
      send_step (mk_send_system e (ts1 ++ SendAcquired i params :: ts2) cs ps n d es)
        (if bool_decide (status = IREE_STATUS_OK)
         then mk_send_system e' (ts1 ++ ts2) (i :: cs) ps n d (es ++ [SendAdmitted (ps_completion_callback params) payload_length])
         else mk_send_system e' (ts1 ++ SendRefused i status :: ts2) cs ps n d es)
  | send_local e ts1 ts2 cs ps n d es i status :
      let e' := update_send_state i (set_local_status status) e in
      send_step (mk_send_system e (ts1 ++ SendRefused i status :: ts2) cs ps n d es)
        (mk_send_system e' (ts1 ++ ts2) cs (i :: ps) n d
           (es ++ [SendAdmitted (fs_completion_callback (get_send_state i e)) (fs_payload_length (get_send_state i e))]))
  | send_local_refused e ts1 ts2 cs ps n d es i status submit_status :
      submit_status ≠ IREE_STATUS_OK →
      let e' := update_send_state i (set_local_status IREE_STATUS_OK) (update_send_state i (set_local_status status) e) in
      send_step (mk_send_system e (ts1 ++ SendRefused i status :: ts2) cs ps n d es)
        (mk_send_system e' (ts1 ++ SendRejecting i (iree_status_join status submit_status) :: ts2) cs ps n d es)
  | send_reject e ts1 ts2 cs ps n d es i status :
      send_step (mk_send_system e (ts1 ++ SendRejecting i status :: ts2) cs ps n d es)
        (mk_send_system (iree_net_framed_endpoint_release_send_state_locked i e) (ts1 ++ SendEnding :: ts2) cs ps n d (es ++ [SendRejected status]))
  | send_carrier_complete e ts cs1 cs2 ps n d es i status wire_bytes c e' :
      0 <= wire_bytes <= umax 64 →
      (status = IREE_STATUS_OK → wire_bytes = fs_payload_length (get_send_state i e) + IREE_NET_FRAMED_ENDPOINT_FRAME_HEADER_SIZE) →
      iree_net_framed_endpoint_send_complete i status wire_bytes e = (c, e') →
      send_step (mk_send_system e ts (cs1 ++ i :: cs2) ps n d es) (mk_send_system e' (SendReturning c :: ts) (cs1 ++ cs2) ps n d es)
  | send_local_complete e ts cs ps1 ps2 n d es i status c e' :
      iree_net_framed_endpoint_local_send_complete i status e = (c, e') →
      send_step (mk_send_system e ts cs (ps1 ++ i :: ps2) n d es) (mk_send_system e' (SendReturning c :: ts) cs (ps1 ++ ps2) n d es)
  | send_return e ts1 ts2 cs ps n d es c :
      send_step (mk_send_system e (ts1 ++ SendReturning c :: ts2) cs ps n d es)
        (mk_send_system e (ts1 ++ SendEnding :: ts2) cs ps n d (es ++ [SendCompleted c]))
  | send_end e ts1 ts2 cs ps n d es e' c :
      end_operation e = (e', c) →
      send_step (mk_send_system e (ts1 ++ SendEnding :: ts2) cs ps n d es)
        (mk_send_system e' (ts1 ++ ts2) cs ps n d (es ++ send_finished c))
  | send_hold e ts cs ps n d es e' :
      lc_pending_operation_count (fe_lifecycle e) < umax 64 → begin_operation e = (true, e') ∨ admit_message e = (true, e') →
      send_step (mk_send_system e ts cs ps n d es) (mk_send_system e' ts cs ps (S n) d es)
  | send_unhold e ts cs ps n d es e' c :
      end_operation e = (e', c) →
      send_step (mk_send_system e ts cs ps (S n) d es) (mk_send_system e' ts cs ps n d (es ++ send_finished c))
  | send_set_callbacks e ts cs ps n d es on_message on_error :
      send_step (mk_send_system e ts cs ps n d es)
        (mk_send_system (iree_net_framed_endpoint_set_callbacks on_message on_error e) ts cs ps n d es)
  | send_activate e ts cs ps n d es e' :
      activate_locked e = Ok e' → send_step (mk_send_system e ts cs ps n d es) (mk_send_system e' ts cs ps n d es)
  | send_rollback e ts cs ps n d es :
      fe_state e = FRAMED_ENDPOINT_STATE_ACTIVE → lc_pending_operation_count (fe_lifecycle e) = 0 →
      send_step (mk_send_system e ts cs ps n d es) (mk_send_system (rollback_locked e) ts cs ps n d es)
  | send_deactivate e ts cs ps n d es callback b e' b' :
      deactivate_locked callback e b = Ok (e', b') →
      send_step (mk_send_system e ts cs ps n d es) (mk_send_system e' ts cs ps n (Some DrainWire) es)
  | send_wire_deactivated e ts cs ps n es :
      send_step (mk_send_system e ts cs ps n (Some DrainWire) es)
        (mk_send_system (wire_deactivated_locked e) ts cs ps n (Some DrainCompleting) es)
  | send_join e ts cs ps n d es b started e' b' :
      join_locked e b = (started, e', b') →
      send_step (mk_send_system e ts cs ps n d es) (mk_send_system e' ts cs ps n (if started then Some DrainCompleting else d) es)
  | send_drained e ts cs ps n es e' c :
      complete_drain e = (e', c) →
      send_step (mk_send_system e ts cs ps n (Some DrainCompleting) es) (mk_send_system e' ts cs ps n None (es ++ send_finished c)).

Inductive send_reachable : send_system → Prop :=
  | send_start endpoint_size state_size host_malloc max_send_operations connection_barrier e :
      0 <= max_send_operations <= umax 32 →
      iree_net_framed_endpoint_allocate endpoint_size state_size host_malloc IREE_STATUS_OK max_send_operations connection_barrier = Ok e →
      send_reachable (mk_send_system e [] [] [] 0 None [])
  | send_next y y' : send_reachable y → send_step y y' → send_reachable y'.
