(* ===== verification/FramedSendPool.v ===== *)
(** * The pool of send states

    The free list of [FramedSends] and the states in use partition the pool; what acquiring,
    releasing and filling a state keeps. *)

From S2P Require Import Prelude BaseMath EndpointLifecycle ReceiveQueue FramedEndpoint FramedSends.
From stdpp Require Import base numbers list list_numbers.

Local Open Scope Z_scope.
Local Open Scope machine_scope.

Notation send_states := (list iree_net_framed_endpoint_send_state_t).

(** ** The free list *)

Fixpoint free_linked (states : send_states) (head : Z) (l : list nat) : Prop :=
  match l with
  | [] => head = IREE_NET_FRAMED_ENDPOINT_SEND_STATE_NONE
  | i :: l =>
      head = Z.of_nat i ∧ ∃ s, states !! i = Some s ∧ fs_phase s = SEND_STATE_PHASE_FREE ∧ free_linked states (fs_next_free s) l
  end.

Lemma free_linked_alter states f i head l : i ∉ l → free_linked states head l → free_linked (alter f i states) head l.
Proof.
  revert head. induction l as [|j l IH]; intros head Hi; [done|]. intros (-> & s & Hs & Hp & Hl). apply not_elem_of_cons in Hi as [Hne Hi].
  split; [done|]. exists s. rewrite list_lookup_alter_ne by done. auto.
Qed.

Lemma lookup_alter_inv {A} (f : A → A) i j (l : list A) y :
  alter f i l !! j = Some y → (j = i ∧ ∃ x, l !! j = Some x ∧ y = f x) ∨ (j ≠ i ∧ l !! j = Some y).
Proof.
  destruct (decide (j = i)) as [->|Hne]; [|rewrite list_lookup_alter_ne by done; auto].
  rewrite list_lookup_alter_eq. intros (x & Hx & ->)%fmap_Some. left. eauto.
Qed.

Lemma alter_alter {A} (f g : A → A) i (l : list A) : alter f i (alter g i l) = alter (f ∘ g) i l.
Proof.
  apply list_eq. intros j. destruct (decide (j = i)) as [->|Hne]; [|by rewrite !list_lookup_alter_ne by done].
  rewrite !list_lookup_alter_eq. by destruct (l !! i).
Qed.

(** Every state is in the free list or in use, once. *)
Record pool_ok (e : iree_net_framed_endpoint_t) (owned : list nat) : Prop := mk_pool_ok {
  po_free : ∃ free,
    free_linked (fe_send_states e) (fe_free_send_state_head e) free ∧ fe_free_send_state_count e = Z.of_nat (length free) ∧
    free ++ owned ≡ₚ seq 0 (length (fe_send_states e));
  po_count : fe_send_state_count e = Z.of_nat (length (fe_send_states e));
  po_width : fe_send_state_count e <= umax 32;
  po_index : ∀ i s, fe_send_states e !! i = Some s → fs_index s = Z.of_nat i;
  po_phase : ∀ i s, i ∈ owned → fe_send_states e !! i = Some s → fs_phase s = SEND_STATE_PHASE_IN_FLIGHT;
}.

#[export] Instance pool_ok_proper e : Proper ((≡ₚ) ==> iff) (pool_ok e).
Proof.
  assert (∀ l l', l ≡ₚ l' → pool_ok e l → pool_ok e l') as H; [|intros l l' Hl; split; apply H; done].
  intros l l' Hl [(free & Hf & Hn & Hp) Hc Hw Hi Hph]. split; try done; [|by intros i s; rewrite <- Hl; apply Hph].
  exists free. do 2 (split; [done|]). by rewrite <- Hl.
Qed.

(** The pool depends on the states and the free list only. *)
Lemma pool_ok_same e e' owned :
  fe_send_states e' = fe_send_states e → fe_free_send_state_head e' = fe_free_send_state_head e →
  fe_free_send_state_count e' = fe_free_send_state_count e → fe_send_state_count e' = fe_send_state_count e →
  pool_ok e owned → pool_ok e' owned.
Proof. intros H1 H2 H3 H4 [Hf Hc Hw Hi Hph]. split; rewrite ?H1, ?H2, ?H3, ?H4; done. Qed.

Section pool.
Context (e : iree_net_framed_endpoint_t) (owned : list nat).
Hypothesis Hpool : pool_ok e owned.

Lemma pool_counts : fe_free_send_state_count e + Z.of_nat (length owned) = fe_send_state_count e.
Proof.
  destruct Hpool as [(free & _ & Hn & Hp) Hc _ _ _]. apply Permutation_length in Hp. rewrite length_app, length_seq in Hp. lia.
Qed.

Lemma pool_NoDup : NoDup owned.
Proof.
  destruct (po_free _ _ Hpool) as (free & _ & _ & Hp). pose proof (NoDup_seq 0 (length (fe_send_states e))) as H. rewrite <- Hp in H.
  by apply NoDup_app in H as (_ & _ & H).
Qed.

Lemma pool_lookup i : i ∈ owned → ∃ s, fe_send_states e !! i = Some s ∧ get_send_state i e = s ∧
  fs_index s = Z.of_nat i ∧ fs_phase s = SEND_STATE_PHASE_IN_FLIGHT.
Proof.
  intros Hi. destruct Hpool as [(free & _ & _ & Hp) _ _ Hx Hph].
  assert (i ∈ seq 0 (length (fe_send_states e))) as [_ Hlt]%elem_of_seq by (rewrite <- Hp; apply elem_of_app; auto).
  destruct (lookup_lt_is_Some_2 (fe_send_states e) i) as [s Hs]; [lia|]. exists s. split; [done|]. split; [by apply nth_lookup_Some|]. eauto.
Qed.

Lemma acquire_pool r e' :
  iree_net_framed_endpoint_acquire_send_state_locked e = (r, e') →
  match r with
  | None => e' = e ∧ Z.of_nat (length owned) = fe_send_state_count e
  | Some i => pool_ok e' (i :: owned) ∧ Z.of_nat (length owned) < fe_send_state_count e
  end.
Proof.
  pose proof pool_counts as Hcounts. destruct Hpool as [(free & Hf & Hn & Hp) Hc Hw Hx Hph].
  unfold iree_net_framed_endpoint_acquire_send_state_locked. destruct (Z.eqb_spec (fe_free_send_state_head e) IREE_NET_FRAMED_ENDPOINT_SEND_STATE_NONE) as [E|E].
  - intros [= <- <-]. split; [done|]. destruct free as [|i free]; [cbn in Hn; lia|]. destruct Hf as (Hh & s & Hs & _).
    apply lookup_lt_Some in Hs. rewrite E in Hh. unfold IREE_NET_FRAMED_ENDPOINT_SEND_STATE_NONE in Hh. lia.
  - destruct free as [|i free]; [done|]. destruct Hf as (Hh & s & Hs & Hphase & Hf). rewrite Hh, Nat2Z.id. intros [= <- <-].
    assert (get_send_state i e = s) as -> by (by apply nth_lookup_Some). cbn [length] in Hn. rewrite Nat2Z.inj_succ in Hn.
    split; [|lia]. apply lookup_lt_Some in Hs as Hlt.
    assert (i ∉ free) as Hi.
    { pose proof (NoDup_seq 0 (length (fe_send_states e))) as Hd. rewrite <- Hp in Hd. cbn in Hd. apply NoDup_cons in Hd as [Hd _].
      rewrite not_elem_of_app in Hd. tauto. }
    split; cbn [with_free fe_send_states fe_free_send_state_head fe_free_send_state_count fe_send_state_count]; rewrite ?length_alter; try done.
    + exists free. split; [by apply free_linked_alter|]. split; [|rewrite <- Hp; cbn; by rewrite Permutation_middle].
      unfold umax in *. rewrite usub_small by (unfold in_width; lia). lia.
    + intros j s'. intros [(-> & s0 & Hs0 & ->)|[_ Hj]]%lookup_alter_inv; [|eauto]. cbn. eauto.
    + intros j s' Hj [(-> & s0 & Hs0 & ->)|[Hne Hj']]%lookup_alter_inv; [done|]. apply elem_of_cons in Hj as [->|Hj]; [done|]. eauto.
Qed.

Lemma release_pool i rest :
  owned ≡ₚ i :: rest → pool_ok (iree_net_framed_endpoint_release_send_state_locked i e) rest.
Proof.
  intros Ho. pose proof pool_counts as Hcounts. pose proof pool_NoDup as Hd. rewrite Ho in Hd. apply NoDup_cons in Hd as [Hi _].
  destruct (pool_lookup i) as (s & Hs & Hget & Hindex & _); [rewrite Ho; by left|].
  destruct Hpool as [(free & Hf & Hn & Hp) Hc Hw Hx Hph]. unfold iree_net_framed_endpoint_release_send_state_locked. rewrite Hget, Hindex.
  assert (i ∉ free) as Hif.
  { pose proof (NoDup_seq 0 (length (fe_send_states e))) as Hd. rewrite <- Hp in Hd. apply NoDup_app in Hd as (_ & Hd & _).
    intros Hin. apply (Hd i Hin). rewrite Ho. by left. }
  rewrite Ho in Hcounts. cbn [length] in Hcounts.
  split; cbn [with_free fe_send_states fe_free_send_state_head fe_free_send_state_count fe_send_state_count]; rewrite ?length_alter; try done.
  - exists (i :: free). split; [|split; [|rewrite <- Hp, Ho; cbn; by rewrite Permutation_middle]].
    + split; [done|]. rewrite list_lookup_alter_eq, Hs. eexists. split; [done|]. split; [done|]. by apply free_linked_alter.
    + cbn [length]. unfold umax in *. rewrite uadd_small by (unfold in_width; lia). lia.
  - intros j s'. intros [(-> & s0 & Hs0 & ->)|[_ Hj]]%lookup_alter_inv; [|eauto]. cbn. eauto.
  - intros j s' Hj. intros [(-> & _)|[Hne Hj']]%lookup_alter_inv; [done|]. eapply Hph; [|done]. rewrite Ho. by right.
Qed.

Lemma update_pool i f :
  i ∈ owned → (∀ s, fs_index (f s) = fs_index s) → (∀ s, fs_phase (f s) = fs_phase s) → pool_ok (update_send_state i f e) owned.
Proof.
  intros Hi Hfi Hfp. destruct Hpool as [(free & Hf & Hn & Hp) Hc Hw Hx Hph]. unfold update_send_state, with_states.
  split; cbn [with_free fe_send_states fe_free_send_state_head fe_free_send_state_count fe_send_state_count]; rewrite ?length_alter; try done.
  - exists free. split; [|done]. apply free_linked_alter; [|done].
    pose proof (NoDup_seq 0 (length (fe_send_states e))) as Hd. rewrite <- Hp in Hd. apply NoDup_app in Hd as (_ & Hd & _). intros Hin. by apply (Hd i Hin).
  - intros j s'. intros [(-> & s0 & Hs0 & ->)|[_ Hj]]%lookup_alter_inv; rewrite ?Hfi; eauto.
  - intros j s' Hj. intros [(-> & s0 & Hs0 & ->)|[_ Hj']]%lookup_alter_inv; rewrite ?Hfp; eauto.
Qed.

End pool.
