(* ===== verification/FramedSendInvariant.v ===== *)
(** * The invariant of framed sends

    What the threads, the carrier and the proactor of [FramedSends] hold, the conservation of
    admitted sends, the lifecycle of the endpoint, and that every step keeps them. *)

From S2P Require Import Prelude BaseMath EndpointLifecycle ReceiveQueue ReceiveInvariant FrameInvariant FramedEndpoint FramedSends FramedSendPool.
From stdpp Require Import base numbers list list_numbers relations.

Local Open Scope Z_scope.
Local Open Scope machine_scope.

(** ** What sends hold *)

Definition thread_slot (t : send_thread) : option nat :=
  match t with SendAcquired i _ | SendRefused i _ | SendRejecting i _ => Some i | _ => None end.

Definition owned_slots (ts : list send_thread) (cs ps : list nat) : list nat := omap thread_slot ts ++ cs ++ ps.

#[export] Instance owned_slots_proper : Proper ((≡ₚ) ==> (≡ₚ) ==> (≡ₚ) ==> (≡ₚ)) owned_slots.
Proof. intros ts ts' Ht cs cs' Hc ps ps' Hp. unfold owned_slots. by rewrite Ht, Hc, Hp. Qed.

(** A send by its callback and its length. *)
Definition send_item : Type := callback_t * Z.

Definition state_item (e : iree_net_framed_endpoint_t) (i : nat) : send_item :=
  (fs_completion_callback (get_send_state i e), fs_payload_length (get_send_state i e)).

Definition completion_item (c : send_completion) : send_item := (sc_callback c, sc_payload_length c).

Definition returning_item (t : send_thread) : option send_item :=
  match t with SendReturning c => Some (completion_item c) | _ => None end.

Definition admitted_item (ev : send_event) : option send_item :=
  match ev with SendAdmitted callback payload_length => Some (callback, payload_length) | _ => None end.

Definition completed_send (ev : send_event) : option send_completion := match ev with SendCompleted c => Some c | _ => None end.

Definition admitted (es : list send_event) : list send_item := omap admitted_item es.
Definition completed (es : list send_event) : list send_completion := omap completed_send es.

Lemma admitted_app a b : admitted (a ++ b) = admitted a ++ admitted b.
Proof. apply omap_app. Qed.

Lemma completed_app a b : completed (a ++ b) = completed a ++ completed b.
Proof. apply omap_app. Qed.

(** Admitted sends that are not completed yet. *)
Definition outstanding (y : send_system) : list send_item :=
  (state_item (ys_endpoint y) <$> ys_carrier y ++ ys_proactor y) ++ omap returning_item (ys_threads y).

(** A completion reports at most the payload, and all of it on success. *)
Definition completion_ok (c : send_completion) : Prop :=
  0 <= sc_bytes c <= sc_payload_length c ∧ (sc_status c = IREE_STATUS_OK → sc_bytes c = sc_payload_length c).

(** ** States *)

Lemma get_alter_ne e e' f i j :
  fe_send_states e' = alter f i (fe_send_states e) → j ≠ i → get_send_state j e' = get_send_state j e.
Proof. intros He Hne. unfold get_send_state. by rewrite He, !nth_lookup, list_lookup_alter_ne. Qed.

Lemma get_alter_eq e e' f i s :
  fe_send_states e' = alter f i (fe_send_states e) → fe_send_states e !! i = Some s → get_send_state i e' = f s.
Proof. intros He Hs. unfold get_send_state. by rewrite He, nth_lookup, list_lookup_alter_eq, Hs. Qed.

Lemma items_alter e e' f i (l : list nat) :
  fe_send_states e' = alter f i (fe_send_states e) → i ∉ l → state_item e' <$> l = state_item e <$> l.
Proof.
  intros He Hi. apply list_fmap_ext. intros k j Hj. unfold state_item. rewrite (get_alter_ne e e' f i j He); [done|].
  intros ->. apply Hi. by eapply list_elem_of_lookup_2.
Qed.

(** Lengths are within a frame; only the proactor's states carry a status, a failure. *)
Record states_ok (e : iree_net_framed_endpoint_t) (ps : list nat) : Prop := mk_states_ok {
  st_sized : ∀ i, 0 <= fs_payload_length (get_send_state i e) <= umax 32;
  st_quiet : ∀ i, i ∉ ps → fs_local_completion_status (get_send_state i e) = IREE_STATUS_OK;
  st_failed : ∀ i, i ∈ ps → fs_local_completion_status (get_send_state i e) ≠ IREE_STATUS_OK;
}.

Lemma states_ok_alter e e' f i s ps ps' :
  fe_send_states e' = alter f i (fe_send_states e) → fe_send_states e !! i = Some s → states_ok e ps →
  0 <= fs_payload_length (f s) <= umax 32 → (∀ j, j ≠ i → j ∈ ps' ↔ j ∈ ps) →
  (i ∉ ps' ∧ fs_local_completion_status (f s) = IREE_STATUS_OK ∨ i ∈ ps' ∧ fs_local_completion_status (f s) ≠ IREE_STATUS_OK) →
  states_ok e' ps'.
Proof.
  intros He Hs [Hsz Hq Hf] Hlen Hps Hi. pose proof (get_alter_eq e e' f i s He Hs) as Hget.
  split; intros j; destruct (decide (j = i)) as [->|Hne]; rewrite ?Hget, ?(get_alter_ne e e' f i j He Hne), ?Hps by done; auto; tauto.
Qed.

Definition thread_ok (t : send_thread) : Prop :=
  match t with
  | SendBegun params | SendAcquired _ params => send_params_ok params ∧ ∃ lengths, send_lengths params = Ok lengths
  | SendRefused _ status => status ≠ IREE_STATUS_OK
  | SendReturning c => completion_ok c
  | _ => True
  end.

Record data_ok (e : iree_net_framed_endpoint_t) (ts : list send_thread) (cs ps : list nat) (es : list send_event) : Prop := mk_data_ok {
  da_pool : pool_ok e (owned_slots ts cs ps);
  da_states : states_ok e ps;
  da_threads : Forall thread_ok ts;
  da_conserved :
    admitted es ≡ₚ (completion_item <$> completed es) ++ (state_item e <$> cs ++ ps) ++ omap returning_item ts;
  da_completed : Forall completion_ok (completed es);
}.

Lemma data_ok_perm e ts ts' cs cs' ps ps' es :
  ts ≡ₚ ts' → cs ≡ₚ cs' → ps ≡ₚ ps' → data_ok e ts cs ps es → data_ok e ts' cs' ps' es.
Proof.
  intros Ht Hc Hp [Hpool [Hsz Hq Hf] Hth Hcon Hcom].
  split; [by rewrite <- Ht, <- Hc, <- Hp| |by rewrite <- Ht|by rewrite <- Ht, <- Hc, <- Hp|done].
  split; [done| |]; intros i; rewrite <- Hp; auto.
Qed.

(** What only the lifecycle, the state or the callbacks of the endpoint distinguish. *)
Lemma data_ok_same e e' ts cs ps es :
  fe_send_states e' = fe_send_states e → fe_free_send_state_head e' = fe_free_send_state_head e →
  fe_free_send_state_count e' = fe_free_send_state_count e → fe_send_state_count e' = fe_send_state_count e →
  data_ok e ts cs ps es → data_ok e' ts cs ps es.
Proof.
  intros H1 H2 H3 H4 [Hpool [Hsz Hq Hf] Hth Hcon Hcom].
  assert (∀ i, get_send_state i e' = get_send_state i e) as Hg by (intros i; unfold get_send_state; by rewrite H1).
  split; [by eapply pool_ok_same|split; intros i; rewrite Hg; auto|done| |done].
  assert (state_item e' <$> cs ++ ps = state_item e <$> cs ++ ps) as ->; [|done].
  apply list_fmap_ext. intros. unfold state_item. by rewrite Hg.
Qed.

(** Events that neither admit nor complete a send. *)
Lemma data_ok_log e ts cs ps es ev :
  admitted ev = [] → completed ev = [] → data_ok e ts cs ps es → data_ok e ts cs ps (es ++ ev).
Proof.
  intros Ha Hc [Hpool Hst Hth Hcon Hcom]. split; try done; rewrite ?admitted_app, ?completed_app, ?Ha, ?Hc, ?app_nil_r; done.
Qed.

(** The lengths that a send writes into its state. *)
Lemma send_lengths_inv params payload_length frame_length :
  send_params_ok params → send_lengths params = Ok (payload_length, frame_length) →
  payload_length = sp_length (ps_generated_prefix params) + byte_length (concat (ps_data params)) ∧
  0 <= sp_length (ps_generated_prefix params) ∧ 0 < payload_length <= umax 32 - 8 ∧ frame_length = payload_length + 8.
Proof.
  intros (Hw & Hspans & _ & _). unfold send_lengths, iree_net_framed_endpoint_calculate_payload_length.
  rewrite add_lengths_spec by done. case_decide as Hfit; [|done]. cbn [mbind status_or_bind].
  set (n := sp_length (ps_generated_prefix params) + byte_length (concat (ps_data params))) in *.
  unfold iree_net_framed_endpoint_calculate_frame_length, IREE_NET_FRAMED_ENDPOINT_FRAME_HEADER_SIZE. destruct (Z.eqb_spec n 0); [done|].
  destruct (Z.ltb_spec (umax 32 - 8) n); [done|]. cbn [mbind status_or_bind]. intros [= <- <-].
  pose proof (byte_length_nonneg (concat (ps_data params))). unfold in_width, umax in *.
  rewrite uadd_small by (unfold in_width; lia). rewrite wrap_small by (unfold in_width; lia). lia.
Qed.

Lemma send_lengths_sized params payload_length frame_length :
  send_params_ok params → send_lengths params = Ok (payload_length, frame_length) → 0 <= payload_length <= umax 32.
Proof. intros Hp Hl. destruct (send_lengths_inv _ _ _ Hp Hl) as (_ & _ & H & _). lia. Qed.

(** The wire endpoint never refuses the parameters of an admitted send. *)
Lemma wire_params_accepted i params payload_length frame_length carrier_status :
  send_params_ok params → send_lengths params = Ok (payload_length, frame_length) →
  wire_send (wire_params i frame_length params) carrier_status = carrier_status.
Proof.
  intros Hp Hl. destruct (send_lengths_inv _ _ _ Hp Hl) as (Hn & H0 & Hlen & _). destruct Hp as (Hw & Hspans & _ & _).
  pose proof (byte_length_nonneg (concat (ps_data params))). unfold umax in *.
  unfold wire_send, iree_net_message_endpoint_send, wire_params. cbn [ps_completion_callback ps_generated_prefix sp_length sp_write sp_user_data ps_data].
  unfold IREE_NET_FRAMED_ENDPOINT_FRAME_HEADER_SIZE. rewrite uadd_small by (unfold in_width; lia). rewrite (proj2 (Z.eqb_neq _ _)) by lia. cbn [Bool.eqb negb andb].
  rewrite add_lengths_spec by (done || (unfold in_width; lia)). unfold umax. rewrite decide_True by lia. by rewrite (proj2 (Z.eqb_neq _ _)) by lia.
Qed.

(** ** Steps of a send *)

Section data_steps.
Context (e : iree_net_framed_endpoint_t) (ts : list send_thread) (cs ps : list nat) (es : list send_event).

Lemma data_begin params :
  send_params_ok params → (∃ lengths, send_lengths params = Ok lengths) → data_ok e ts cs ps es → data_ok e (SendBegun params :: ts) cs ps es.
Proof. intros Hp Hl [Hpool Hst Hth Hcon Hcom]. split; try done. by constructor. Qed.

Lemma data_acquire params i e' :
  acquire_admitted e = (Ok i, e') → data_ok e (SendBegun params :: ts) cs ps es → data_ok e' (SendAcquired i params :: ts) cs ps es.
Proof.
  unfold acquire_admitted. case_bool_decide; [cbn [negb]|done]. intros Hacq [Hpool Hst Hth Hcon Hcom].
  destruct (iree_net_framed_endpoint_acquire_send_state_locked e) as [[j|] e1] eqn:Ha; [|done]. injection Hacq as -> ->.
  destruct (acquire_pool e _ Hpool _ _ Ha) as [Hpool' _]. pose proof (pool_NoDup _ _ Hpool') as Hd. apply NoDup_cons in Hd as [Hi _].
  destruct (pool_lookup _ _ Hpool' i) as (s' & Hs' & _); [by left|].
  unfold iree_net_framed_endpoint_acquire_send_state_locked in Ha. case_match; [done|]. injection Ha as Hi0 He.
  set (f := λ s, _) in He. assert (fe_send_states e' = alter f i (fe_send_states e)) as Halt by (by rewrite <- He, <- Hi0).
  rewrite Halt in Hs'. apply lookup_alter_inv in Hs' as [(_ & s & Hs & ->)|[]]; [|done].
  assert (get_send_state i e = s) as Hget by (by apply nth_lookup_Some).
  unfold owned_slots in Hi. cbn [omap list_omap thread_slot] in Hi. rewrite !not_elem_of_app in Hi. destruct Hi as (_ & Hic & Hip).
  split; [done| |by inversion Hth; constructor| |done].
  - eapply (states_ok_alter e e' f i s ps ps Halt Hs Hst); [rewrite <- Hget; apply (st_sized _ _ Hst)|done|].
    left. split; [done|]. cbn. rewrite <- Hget. by apply (st_quiet _ _ Hst).
  - rewrite (items_alter e e' f i _ Halt); [done|]. rewrite not_elem_of_app. done.
Qed.

Lemma data_unavailable params code e' :
  acquire_admitted e = (Err code, e') → data_ok e (SendBegun params :: ts) cs ps es →
  data_ok e' (SendEnding :: ts) cs ps (es ++ [SendRejected code]).
Proof.
  intros Ha Hd. assert (e' = e) as ->.
  { unfold acquire_admitted in Ha. case_bool_decide; cbn [negb] in Ha; [|by injection Ha as _ ->].
    unfold iree_net_framed_endpoint_acquire_send_state_locked in Ha. destruct (_ =? _); by simplify_eq. }
  apply data_ok_log; [done..|]. destruct Hd as [Hpool Hst Hth Hcon Hcom]. split; try done. by inversion Hth; constructor.
Qed.

(** A thread's state is in nobody else's hands. *)
Lemma thread_state t i :
  thread_slot t = Some i → data_ok e (t :: ts) cs ps es →
  ∃ s, fe_send_states e !! i = Some s ∧ get_send_state i e = s ∧ i ∉ cs ∧ i ∉ ps.
Proof.
  intros Ht [Hpool _ _ _ _]. unfold owned_slots in Hpool. cbn [omap list_omap] in Hpool. rewrite Ht in Hpool.
  pose proof (pool_NoDup _ _ Hpool) as Hd. cbn [app] in Hd. apply NoDup_cons in Hd as [Hi _]. rewrite !not_elem_of_app in Hi.
  destruct (pool_lookup _ _ Hpool i) as (s & Hs & Hget & _); [by left|]. exists s. tauto.
Qed.

(** Writes to the thread's state that keep it in use. *)
Lemma data_update t t' i f :
  thread_slot t = Some i → thread_slot t' = Some i → thread_ok t' → returning_item t = None → returning_item t' = None →
  (∀ s, fs_index (f s) = fs_index s) → (∀ s, fs_phase (f s) = fs_phase s) →
  0 <= fs_payload_length (f (get_send_state i e)) <= umax 32 → fs_local_completion_status (f (get_send_state i e)) = IREE_STATUS_OK →
  data_ok e (t :: ts) cs ps es → data_ok (update_send_state i f e) (t' :: ts) cs ps es.
Proof.
  intros Ht Ht' Hok Hr Hr' Hfi Hfp Hlen Hl Hd. destruct (thread_state t i Ht Hd) as (s & Hs & Hget & Hc & Hp). rewrite Hget in *.
  destruct Hd as [Hpool Hst Hth Hcon Hcom]. unfold owned_slots in *. cbn [omap list_omap] in *. rewrite Ht, Hr in *.
  assert (fe_send_states (update_send_state i f e) = alter f i (fe_send_states e)) as Halt by done.
  split; [| |by inversion Hth; constructor| |done].
  - unfold owned_slots. cbn [omap list_omap]. rewrite Ht'. apply update_pool; [done|by left|done|done].
  - eapply (states_ok_alter e _ f i s ps ps Halt Hs Hst); [done..|]. by left.
  - cbn [omap list_omap]. rewrite Hr'. rewrite (items_alter e _ f i _ Halt); [done|]. rewrite not_elem_of_app. done.
Qed.

(** The thread passes its state on to the carrier or the proactor; the send is admitted. *)
Lemma data_admit t i f cs' ps' :
  thread_slot t = Some i → returning_item t = None →
  (∀ s, fs_index (f s) = fs_index s) → (∀ s, fs_phase (f s) = fs_phase s) →
  0 <= fs_payload_length (f (get_send_state i e)) <= umax 32 →
  (cs' = i :: cs ∧ ps' = ps ∧ fs_local_completion_status (f (get_send_state i e)) = IREE_STATUS_OK ∨
   cs' = cs ∧ ps' = i :: ps ∧ fs_local_completion_status (f (get_send_state i e)) ≠ IREE_STATUS_OK) →
  data_ok e (t :: ts) cs ps es →
  data_ok (update_send_state i f e) ts cs' ps'
    (es ++ [SendAdmitted (fs_completion_callback (f (get_send_state i e))) (fs_payload_length (f (get_send_state i e)))]).
Proof.
  intros Ht Hr Hfi Hfp Hlen Hwho Hd. destruct (thread_state t i Ht Hd) as (s & Hs & Hget & Hc & Hp).
  assert (cs' ++ ps' ≡ₚ i :: cs ++ ps) as Hperm by (destruct Hwho as [(-> & -> & _)|(-> & -> & _)]; [done|by rewrite Permutation_middle]).
  rewrite Hget in *. destruct Hd as [Hpool Hst Hth Hcon Hcom]. unfold owned_slots in *. cbn [omap list_omap] in *. rewrite Ht, Hr in *.
  assert (fe_send_states (update_send_state i f e) = alter f i (fe_send_states e)) as Halt by done.
  split; [| |by inversion Hth| |].
  - unfold owned_slots. rewrite Hperm, <- Permutation_middle. apply update_pool; [done|by left|done|done].
  - eapply (states_ok_alter e _ f i s ps ps' Halt Hs Hst); [done| |].
    + intros j Hj. destruct Hwho as [(-> & -> & _)|(-> & -> & _)]; [done|]. rewrite elem_of_cons. tauto.
    + destruct Hwho as [(-> & -> & H)|(-> & -> & H)]; [by left|]. right. split; [by left|done].
  - rewrite admitted_app, completed_app, Hcon, Hperm. cbn [fmap list_fmap]. rewrite (items_alter e _ f i _ Halt) by (rewrite not_elem_of_app; done).
    unfold state_item at 2. rewrite (get_alter_eq e _ f i s Halt Hs). cbn [admitted completed omap list_omap admitted_item completed_send].
    rewrite app_nil_r. cbn [app]. solve_Permutation.
  - by rewrite completed_app, app_nil_r.
Qed.

(** The thread gives its state back. *)
Lemma data_reject i status :
  data_ok e (SendRejecting i status :: ts) cs ps es →
  data_ok (iree_net_framed_endpoint_release_send_state_locked i e) (SendEnding :: ts) cs ps (es ++ [SendRejected status]).
Proof.
  intros Hd. apply data_ok_log; [done..|]. destruct (thread_state (SendRejecting i status) i eq_refl Hd) as (s & Hs & Hget & Hc & Hp).
  destruct Hd as [Hpool Hst Hth Hcon Hcom]. unfold iree_net_framed_endpoint_release_send_state_locked. set (f := λ s, _).
  assert (∀ n h, fe_send_states (with_free n h (alter f i (fe_send_states e)) e) = alter f i (fe_send_states e)) as Halt by done.
  split; [| |by inversion Hth; constructor| |done].
  - by apply (release_pool e _ Hpool i).
  - eapply (states_ok_alter e _ f i s ps ps (Halt _ _) Hs Hst); [done|done|]. left. split; [done|]. cbn. rewrite <- Hget. by apply (st_quiet _ _ Hst).
  - by rewrite (items_alter e _ f i _ (Halt _ _)) by (rewrite not_elem_of_app; done).
Qed.

(** A completion takes the state from the carrier or the proactor. *)
Lemma data_completion i e' f c cs' ps' :
  cs ++ ps ≡ₚ i :: cs' ++ ps' → (∀ j, j ≠ i → j ∈ ps' ↔ j ∈ ps) → pool_ok e' (owned_slots ts cs' ps') →
  fe_send_states e' = alter f i (fe_send_states e) → (∀ s, fs_payload_length (f s) = 0) →
  fs_local_completion_status (f (get_send_state i e)) = IREE_STATUS_OK → completion_item c = state_item e i → completion_ok c →
  data_ok e ts cs ps es → data_ok e' (SendReturning c :: ts) cs' ps' es.
Proof.
  intros Hperm Hps Hpool' Halt Hlen Hl Hitem Hok [Hpool Hst Hth Hcon Hcom].
  assert (NoDup (i :: cs' ++ ps')) as [Hi _]%NoDup_cons.
  { rewrite <- Hperm. pose proof (pool_NoDup _ _ Hpool) as Hd. unfold owned_slots in Hd. by apply NoDup_app in Hd as (_ & _ & Hd). }
  destruct (pool_lookup _ _ Hpool i) as (s & Hs & Hget & _); [unfold owned_slots; rewrite Hperm; apply elem_of_app; right; by left|].
  rewrite Hget in Hl. split; [done| |by constructor| |done].
  - eapply (states_ok_alter e e' f i s ps ps' Halt Hs Hst); [rewrite Hlen; unfold umax; lia|done|]. left. rewrite not_elem_of_app in Hi. tauto.
  - rewrite Hcon, Hperm. cbn [fmap list_fmap omap list_omap returning_item]. rewrite (items_alter e e' f i _ Halt Hi), Hitem. solve_Permutation.
Qed.

End data_steps.

Lemma payload_bytes_ok payload_length wire_bytes :
  0 <= payload_length <= umax 32 → 0 <= wire_bytes <= umax 64 →
  0 <= payload_bytes_transferred payload_length wire_bytes <= payload_length ∧
  (wire_bytes = payload_length + 8 → payload_bytes_transferred payload_length wire_bytes = payload_length).
Proof.
  intros Hp Hw. unfold payload_bytes_transferred, IREE_NET_FRAMED_ENDPOINT_FRAME_HEADER_SIZE. unfold umax in *.
  destruct (Z.ltb_spec 8 wire_bytes); [rewrite usub_small by (unfold in_width; lia)|]; lia.
Qed.

Lemma data_carrier_complete e ts i cs ps es status wire_bytes c e' :
  0 <= wire_bytes <= umax 64 → (status = IREE_STATUS_OK → wire_bytes = fs_payload_length (get_send_state i e) + 8) →
  iree_net_framed_endpoint_send_complete i status wire_bytes e = (c, e') →
  data_ok e ts (i :: cs) ps es → data_ok e' (SendReturning c :: ts) cs ps es.
Proof.
  intros Hw Hst [= <- <-] Hd. pose proof (da_states _ _ _ _ _ Hd) as Hs.
  destruct (payload_bytes_ok (fs_payload_length (get_send_state i e)) wire_bytes) as [Hb Hfull]; [apply (st_sized _ _ Hs)|done|].
  assert (i ∉ ps) as Hi.
  { pose proof (pool_NoDup _ _ (da_pool _ _ _ _ _ Hd)) as Hnd. unfold owned_slots in Hnd. apply NoDup_app in Hnd as (_ & _ & Hnd).
    cbn in Hnd. apply NoDup_cons in Hnd as [Hnd _]. rewrite not_elem_of_app in Hnd. tauto. }
  eapply (data_completion e ts (i :: cs) ps es i); try done.
  - apply (release_pool e (owned_slots ts (i :: cs) ps)); [apply Hd|]. unfold owned_slots. solve_Permutation.
  - cbn. by apply (st_quiet _ _ Hs).
  - split; [done|]. cbn. auto.
Qed.

Lemma join_failure (a b : iree_status_code) : a ≠ IREE_STATUS_OK → iree_status_join a b ≠ IREE_STATUS_OK.
Proof. intros H. unfold iree_status_join. by destruct a. Qed.

Lemma data_local_complete e ts i cs ps es status c e' :
  iree_net_framed_endpoint_local_send_complete i status e = (c, e') →
  data_ok e ts cs (i :: ps) es → data_ok e' (SendReturning c :: ts) cs ps es.
Proof.
  unfold iree_net_framed_endpoint_local_send_complete, iree_net_framed_endpoint_send_complete. intros [= <- <-] Hd.
  pose proof (da_states _ _ _ _ _ Hd) as Hs. pose proof (da_pool _ _ _ _ _ Hd) as Hpool.
  assert (i ∈ owned_slots ts cs (i :: ps)) as Hi by (unfold owned_slots; rewrite !elem_of_app; right; right; by left).
  destruct (pool_lookup _ _ Hpool i Hi) as (s & Hlk & Hget & Hindex & _). set (e1 := update_send_state i (set_local_status IREE_STATUS_OK) e).
  assert (get_send_state i e1 = set_local_status IREE_STATUS_OK s) as Hget1 by (by apply (get_alter_eq e e1 _ i s)).
  set (r := λ s, mk_send_state (fs_index s) (fe_free_send_state_head e) SEND_STATE_PHASE_FREE 0 None (fs_local_completion_status s)).
  eapply (data_completion e ts cs (i :: ps) es i _ (r ∘ set_local_status IREE_STATUS_OK)); try done.
  - by rewrite Permutation_middle.
  - intros j Hj. rewrite elem_of_cons. tauto.
  - apply (release_pool e1 (owned_slots ts cs (i :: ps))); [by apply update_pool|]. unfold owned_slots. solve_Permutation.
  - apply alter_alter.
  - unfold completion_item, state_item. cbn [sc_callback sc_payload_length]. by rewrite Hget1, Hget.
  - rewrite Hget1. destruct (st_sized _ _ Hs i) as [H0 H1]. rewrite Hget in H0, H1. split; cbn; [done|].
    intros Hok. exfalso. revert Hok. apply join_failure. apply (st_failed _ _ Hs i). by left.
Qed.

Lemma data_return e ts cs ps es c :
  data_ok e (SendReturning c :: ts) cs ps es → data_ok e (SendEnding :: ts) cs ps (es ++ [SendCompleted c]).
Proof.
  intros [Hpool Hst Hth Hcon Hcom]. apply Forall_cons in Hth as [Hc Hth]. split; [done|done|by constructor| |].
  - rewrite admitted_app, completed_app, fmap_app, Hcon. cbn. rewrite app_nil_r. solve_Permutation.
  - rewrite completed_app. apply Forall_app. split; [done|]. by constructor.
Qed.

Lemma data_end e ts cs ps es : data_ok e (SendEnding :: ts) cs ps es → data_ok e ts cs ps es.
Proof. intros [Hpool Hst Hth Hcon Hcom]. split; try done. by inversion Hth. Qed.

(** ** The lifecycle *)

Definition finished_send (ev : send_event) : option iree_net_endpoint_lifecycle_completion_t :=
  match ev with SendsFinished c => Some c | _ => None end.

Definition finished (es : list send_event) : list iree_net_endpoint_lifecycle_completion_t := omap finished_send es.

(** [n] operations, and the drain [d] that is under way. *)
Record life_ok (e : iree_net_framed_endpoint_t) (n : nat) (d : option drain_phase) (es : list send_event) : Prop := mk_life_ok {
  li_holds : lifecycle_ok (fe_lifecycle e) (Z.of_nat n);
  li_active : fe_state e = FRAMED_ENDPOINT_STATE_ACTIVE ↔ lc_state (fe_lifecycle e) = LIFECYCLE_STATE_ACTIVE;
  li_drain : d ≠ None → lc_state (fe_lifecycle e) = LIFECYCLE_STATE_DRAINING ∧ lc_owner_drain_complete (fe_lifecycle e) = false;
  li_wire : d = Some DrainWire → fe_state e = FRAMED_ENDPOINT_STATE_DRAINING;
  li_drained : lc_state (fe_lifecycle e) = LIFECYCLE_STATE_DRAINING → d = None → lc_owner_drain_complete (fe_lifecycle e) = true;
  li_finished : length (finished es) = if decide (lc_state (fe_lifecycle e) = LIFECYCLE_STATE_DEACTIVATED) then 1%nat else 0%nat;
}.

Lemma life_same e e' n d es :
  fe_lifecycle e' = fe_lifecycle e → fe_state e' = fe_state e → life_ok e n d es → life_ok e' n d es.
Proof. intros H1 H2 [Hh Ha Hd Hw Hdr Hf]. by split; rewrite ?H1, ?H2. Qed.

Lemma life_log e n d es ev : finished ev = [] → life_ok e n d es → life_ok e n d (es ++ ev).
Proof.
  intros Hev [Hh Ha Hd Hw Hdr Hf]. split; try done. unfold finished in *. by rewrite omap_app, Hev, app_nil_r.
Qed.

Lemma finish_cases l l' c :
  iree_net_endpoint_lifecycle_try_finish_locked l = (l', c) →
  match c with
  | None => l' = l
  | Some _ => lc_state l = LIFECYCLE_STATE_DRAINING ∧ lc_owner_drain_complete l = true ∧ lc_state l' = LIFECYCLE_STATE_DEACTIVATED
  end.
Proof.
  unfold iree_net_endpoint_lifecycle_try_finish_locked. case_bool_decide; cbn [negb orb]; [|by intros [= <- <-]].
  destruct (lc_owner_drain_complete l) eqn:E; cbn [negb orb]; [|by intros [= <- <-]].
  destruct (_ =? 0); cbn [negb]; by intros [= <- <-].
Qed.

(** A lifecycle may finish when the drain is complete and the last operation ends. *)
Lemma life_finish e l l0 l' n n' d d' es c :
  life_ok e n d es → fe_lifecycle e = l → moves_to l0 l' (Z.of_nat n') c → iree_net_endpoint_lifecycle_try_finish_locked l0 = (l', c) →
  lc_state l0 = lc_state l → (d' ≠ None → d' = d ∧ lc_owner_drain_complete l0 = lc_owner_drain_complete l) →
  (d' = None → lc_state l0 = LIFECYCLE_STATE_DRAINING → lc_owner_drain_complete l0 = true) →
  life_ok (with_endpoint_lifecycle l' e) n' d' (es ++ send_finished c).
Proof.
  intros [Hh Ha Hd Hw Hdr Hf] <- [Hl' Hm] Hfin Hst Hdd Hdone. apply finish_cases in Hfin.
  assert (finished (es ++ send_finished c) = finished es ++ finished (send_finished c)) as Happ by apply omap_app.
  destruct c as [c|].
  - destruct Hfin as (Hs & Ho & Hs'). rewrite Hst in Hs. split; cbn [fe_lifecycle fe_state with_endpoint_lifecycle]; rewrite ?Hs'; try done.
    + rewrite Ha, Hs. done.
    + intros Hne. exfalso. destruct (Hdd Hne) as [-> Hoo]. destruct (Hd Hne) as [_ ?]. congruence.
    + intros ->. destruct Hdd as [<- _]; [done|]. by apply Hw.
    + rewrite Happ, length_app, Hf, Hs. done.
  - subst l'. split; cbn [fe_lifecycle fe_state with_endpoint_lifecycle]; rewrite ?Hst; try done.
    + intros Hne. destruct (Hdd Hne) as [-> ->]. by apply Hd.
    + intros ->. destruct Hdd as [<- _]; [done|]. by apply Hw.
    + rewrite <- Hst. auto.
    + rewrite Happ. cbn. by rewrite app_nil_r.
Qed.

Lemma life_end e n d es e' c :
  end_operation e = (e', c) → life_ok e (S n) d es → life_ok e' n d (es ++ send_finished c).
Proof.
  unfold end_operation. destruct (iree_net_endpoint_lifecycle_end_operation (fe_lifecycle e)) as [l' c'] eqn:E. intros [= <- <-] Hl.
  pose proof (end_moves _ _ _ _ (li_holds _ _ _ _ Hl) ltac:(lia) E) as Hm. replace (Z.of_nat (S n) - 1) with (Z.of_nat n) in Hm by lia.
  unfold iree_net_endpoint_lifecycle_end_operation in E. eapply (life_finish e _ _ l' (S n) n d d es c' Hl eq_refl); [|exact E|done|done|].
  - destruct Hm as [Hl' Hc]. split; [done|]. by destruct c'.
  - intros -> Hst. by apply (li_drained _ _ _ _ Hl).
Qed.

Lemma life_begin e n d es e' :
  lc_pending_operation_count (fe_lifecycle e) < umax 64 → begin_operation e = (true, e') → life_ok e n d es → life_ok e' (S n) d es.
Proof.
  intros Hlt. unfold begin_operation. destruct (iree_net_endpoint_lifecycle_try_begin_operation (fe_lifecycle e)) as [acc l'] eqn:E.
  intros [= -> <-] [Hh Ha Hd Hw Hdr Hf]. rewrite (lo_count _ _ Hh) in Hlt.
  destruct (begin_moves _ _ _ _ Hh Hlt E) as [[Hm _] Hst]. replace (Z.of_nat n + 1) with (Z.of_nat (S n)) in Hm by lia.
  unfold iree_net_endpoint_lifecycle_try_begin_operation in E. rewrite bool_decide_true in E by done. injection E as <-.
  split; cbn [fe_lifecycle fe_state with_endpoint_lifecycle]; done.
Qed.

Lemma begin_refused e e' : begin_operation e = (false, e') → e' = e.
Proof.
  unfold begin_operation, iree_net_endpoint_lifecycle_try_begin_operation. case_bool_decide; intros [= <-]. by destruct e.
Qed.

Lemma life_activate e n d es e' : activate_locked e = Ok e' → life_ok e n d es → life_ok e' n d es.
Proof.
  unfold activate_locked. case_bool_decide as Hc; [cbn [negb]|done]. case_match; [done|].
  destruct (iree_net_endpoint_lifecycle_activate (fe_lifecycle e)) as [l|] eqn:E; [|done]. cbn [mbind status_or_bind].
  intros [= <-] [Hh Ha Hd Hw Hdr Hf]. destruct (activate_moves _ _ _ Hh E) as [Hm _].
  unfold iree_net_endpoint_lifecycle_activate in E. case_bool_decide as Hst; [|done]. injection E as <-.
  split; cbn [fe_lifecycle fe_state with_endpoint_lifecycle with_endpoint_state set_state lc_state lc_owner_drain_complete]; try done.
  - intros Hne. destruct (Hd Hne). congruence.
  - intros ->. by destruct Hd; congruence.
  - rewrite Hf, Hst. done.
Qed.

Lemma life_rollback e n d es :
  fe_state e = FRAMED_ENDPOINT_STATE_ACTIVE → lc_pending_operation_count (fe_lifecycle e) = 0 →
  life_ok e n d es → life_ok (rollback_locked e) n d es.
Proof.
  intros Hst Hp [Hh Ha Hd Hw Hdr Hf]. assert (n = 0%nat) as -> by (pose proof (lo_count _ _ Hh); lia). apply Ha in Hst as Hl.
  destruct (rollback_moves _ Hh Hl) as [Hm _].
  split; cbn [fe_lifecycle fe_state with_endpoint_lifecycle with_endpoint_state rollback_locked]; try done.
  - intros Hne. destruct (Hd Hne). congruence.
  - intros ->. destruct Hd; congruence.
  - by rewrite Hf, Hl.
Qed.

(** A drain begins in an active endpoint. *)
Lemma life_drain e n d d' es l' :
  d' ≠ None → fe_state e = FRAMED_ENDPOINT_STATE_ACTIVE → lifecycle_ok l' (Z.of_nat n) → lc_state l' = LIFECYCLE_STATE_DRAINING →
  lc_owner_drain_complete l' = lc_owner_drain_complete (fe_lifecycle e) → life_ok e n d es →
  life_ok (with_endpoint_state FRAMED_ENDPOINT_STATE_DRAINING (with_endpoint_lifecycle l' e)) n d' es.
Proof.
  intros Hne Hst Hl' Hs' Ho [Hh Ha Hd Hw Hdr Hf]. apply Ha in Hst as Hl.
  split; cbn [fe_lifecycle fe_state with_endpoint_lifecycle with_endpoint_state]; rewrite ?Hs', ?Ho; try done.
  - intros _. split; [done|]. apply (lo_undrained _ _ Hh). auto.
  - by rewrite Hf, Hl.
Qed.

Lemma life_deactivate callback e b e' b' n d es :
  deactivate_locked callback e b = Ok (e', b') → life_ok e n d es → life_ok e' n (Some DrainWire) es.
Proof.
  unfold deactivate_locked. case_bool_decide as Hst; cbn [negb]; [|done].
  destruct (iree_net_endpoint_lifecycle_request_deactivation callback (fe_lifecycle e) b) as [[l' b1]|] eqn:E; [|done].
  cbn [mbind status_or_bind]. intros [= <- <-] Hl. destruct (request_moves _ _ _ _ _ _ (li_holds _ _ _ _ Hl) E) as [Hm _].
  unfold iree_net_endpoint_lifecycle_request_deactivation in E. case_bool_decide as Hs; cbn [negb] in E; [|done].
  unfold iree_net_endpoint_lifecycle_begin_drain_locked in E. eapply life_drain; try done; by destruct (lc_connection_barrier _); injection E as <- <-.
Qed.

Lemma life_join e b started e' b' n d es :
  join_locked e b = (started, e', b') → life_ok e n d es → life_ok e' n (if started then Some DrainCompleting else d) es.
Proof.
  unfold join_locked. case_bool_decide as Hst; [|by intros [= <- <- <-]].
  destruct (iree_net_endpoint_lifecycle_join_deactivation (fe_lifecycle e) b) as [[st l'] b1] eqn:E. intros [= <- <- <-] Hl.
  destruct (join_moves _ _ _ _ _ _ (li_holds _ _ _ _ Hl) E) as [Hm _]. apply (li_active _ _ _ _ Hl) in Hst as Hact.
  unfold iree_net_endpoint_lifecycle_join_deactivation in E. rewrite bool_decide_true in E by done.
  unfold iree_net_endpoint_lifecycle_begin_drain_locked in E.
  destruct (lc_connection_barrier _); injection E as <- <- <-; by eapply life_drain.
Qed.

Lemma life_wire_deactivated e n es :
  life_ok e n (Some DrainWire) es → life_ok (wire_deactivated_locked e) n (Some DrainCompleting) es.
Proof.
  intros [Hh Ha Hd Hw Hdr Hf]. destruct (Hd ltac:(done)) as [Hs Ho]. split; try done. cbn. by rewrite Hs.
Qed.

Lemma life_drained e n es e' c :
  complete_drain e = (e', c) → life_ok e n (Some DrainCompleting) es → life_ok e' n None (es ++ send_finished c).
Proof.
  unfold complete_drain. destruct (iree_net_endpoint_lifecycle_complete_deactivation (fe_lifecycle e)) as [l' c'] eqn:E. intros [= <- <-] Hl.
  destruct (li_drain _ _ _ _ Hl) as [Hs Ho]; [done|]. pose proof (drained_moves _ _ _ _ (li_holds _ _ _ _ Hl) Hs E) as Hm.
  unfold iree_net_endpoint_lifecycle_complete_deactivation in E.
  eapply (life_finish e _ _ l' n n _ None es c' Hl eq_refl); [|exact E|done|done|done].
  destruct Hm as [Hl' Hc]. split; [done|]. by destruct c'.
Qed.

(** ** The invariant *)

Definition holds (y : send_system) : nat := length (ys_threads y) + length (ys_carrier y) + length (ys_proactor y) + ys_others y.

Record sends_ok (y : send_system) : Prop := mk_sends_ok {
  se_data : data_ok (ys_endpoint y) (ys_threads y) (ys_carrier y) (ys_proactor y) (ys_events y);
  se_life : life_ok (ys_endpoint y) (holds y) (ys_drain y) (ys_events y);
}.

Lemma life_count e n n' d es : n = n' → life_ok e n d es → life_ok e n' d es.
Proof. by intros ->. Qed.

(** What the lifecycle operations leave alone. *)
Definition same_states (e e' : iree_net_framed_endpoint_t) : Prop :=
  fe_send_states e' = fe_send_states e ∧ fe_free_send_state_head e' = fe_free_send_state_head e ∧
  fe_free_send_state_count e' = fe_free_send_state_count e ∧ fe_send_state_count e' = fe_send_state_count e.

Definition same_lifecycle (e e' : iree_net_framed_endpoint_t) : Prop := fe_lifecycle e' = fe_lifecycle e ∧ fe_state e' = fe_state e.

Lemma begin_same e a e' : begin_operation e = (a, e') → same_states e e'.
Proof. unfold begin_operation. destruct (iree_net_endpoint_lifecycle_try_begin_operation _). by intros [= _ <-]. Qed.

Lemma admit_same e a e' : admit_message e = (a, e') → same_states e e'.
Proof. unfold admit_message. case_bool_decide; [apply begin_same|]. by intros [= _ <-]. Qed.

Lemma end_same e e' c : end_operation e = (e', c) → same_states e e'.
Proof. unfold end_operation. destruct (iree_net_endpoint_lifecycle_end_operation _). by intros [= <- _]. Qed.

Lemma activate_same e e' : activate_locked e = Ok e' → same_states e e'.
Proof.
  unfold activate_locked. do 2 (case_match; [done|]). destruct (iree_net_endpoint_lifecycle_activate _); [|done]. by intros [= <-].
Qed.

Lemma deactivate_same callback e b e' b' : deactivate_locked callback e b = Ok (e', b') → same_states e e'.
Proof.
  unfold deactivate_locked. case_match; [done|]. destruct (iree_net_endpoint_lifecycle_request_deactivation _ _ _) as [[]|]; [|done].
  by intros [= <- _].
Qed.

Lemma join_same e b started e' b' : join_locked e b = (started, e', b') → same_states e e'.
Proof.
  unfold join_locked. case_bool_decide; [|by intros [= _ <- _]]. destruct (iree_net_endpoint_lifecycle_join_deactivation _ _) as [[]].
  by intros [= _ <- _].
Qed.

Lemma drain_same e e' c : complete_drain e = (e', c) → same_states e e'.
Proof. unfold complete_drain. destruct (iree_net_endpoint_lifecycle_complete_deactivation _). by intros [= <- _]. Qed.

Lemma acquire_same e r e' : acquire_admitted e = (r, e') → same_lifecycle e e'.
Proof.
  unfold acquire_admitted. case_bool_decide; cbn [negb]; [|by intros [= _ <-]].
  unfold iree_net_framed_endpoint_acquire_send_state_locked. destruct (_ =? _); by intros [= _ <-].
Qed.

Lemma data_same e e' ts cs ps es : same_states e e' → data_ok e ts cs ps es → data_ok e' ts cs ps es.
Proof. intros (H1 & H2 & H3 & H4). by apply data_ok_same. Qed.

Lemma data_finish e ts cs ps es c : data_ok e ts cs ps es → data_ok e ts cs ps (es ++ send_finished c).
Proof. by destruct c; apply data_ok_log. Qed.

(** Brings the thread that moves to the front. *)
Lemma data_front e ts1 t ts2 cs ps es : data_ok e (ts1 ++ t :: ts2) cs ps es ↔ data_ok e (t :: ts1 ++ ts2) cs ps es.
Proof. split; apply data_ok_perm; try done; by rewrite Permutation_middle. Qed.

Lemma data_wire e ts cs ps es params i payload_length frame_length status :
  send_lengths params = Ok (payload_length, frame_length) → data_ok e (SendAcquired i params :: ts) cs ps es →
  let e' := update_send_state i (fill_send_state payload_length (ps_completion_callback params)) e in
  if bool_decide (status = IREE_STATUS_OK)
  then data_ok e' ts (i :: cs) ps (es ++ [SendAdmitted (ps_completion_callback params) payload_length])
  else data_ok e' (SendRefused i status :: ts) cs ps es.
Proof.
  intros Hl Hd e'. pose proof (da_threads _ _ _ _ _ Hd) as Hth. apply Forall_cons in Hth as [[Hp _] _].
  pose proof (send_lengths_sized _ _ _ Hp Hl) as Hsz. destruct (thread_state e ts cs ps es (SendAcquired i params) i eq_refl Hd) as (s & Hs & Hget & Hc & Hpr).
  assert (fs_local_completion_status (fill_send_state payload_length (ps_completion_callback params) (get_send_state i e)) = IREE_STATUS_OK) as Hq
    by (by apply (st_quiet _ _ (da_states _ _ _ _ _ Hd))).
  case_bool_decide.
  - eapply (data_admit e ts cs ps es (SendAcquired i params) i (fill_send_state payload_length (ps_completion_callback params))); try done. by left.
  - by eapply (data_update e ts cs ps es (SendAcquired i params)).
Qed.

Lemma update_update i f g e : update_send_state i g (update_send_state i f e) = update_send_state i (g ∘ f) e.
Proof. unfold update_send_state, with_states, with_free. cbn [fe_send_states]. by rewrite alter_alter. Qed.

Lemma data_local e ts cs ps es i status :
  data_ok e (SendRefused i status :: ts) cs ps es →
  data_ok (update_send_state i (set_local_status status) e) ts cs (i :: ps)
    (es ++ [SendAdmitted (fs_completion_callback (get_send_state i e)) (fs_payload_length (get_send_state i e))]).
Proof.
  intros Hd. pose proof (da_threads _ _ _ _ _ Hd) as Hth. apply Forall_cons in Hth as [Hst _].
  apply (data_admit e ts cs ps es (SendRefused i status) i (set_local_status status)); try done.
  - apply (st_sized _ _ (da_states _ _ _ _ _ Hd)).
  - by right.
Qed.

Lemma data_local_refused e ts cs ps es i status status' :
  data_ok e (SendRefused i status :: ts) cs ps es →
  data_ok (update_send_state i (set_local_status IREE_STATUS_OK) (update_send_state i (set_local_status status) e)) (SendRejecting i status' :: ts) cs ps es.
Proof.
  intros Hd. rewrite update_update. apply (data_update e ts cs ps es (SendRefused i status)); try done. apply (st_sized _ _ (da_states _ _ _ _ _ Hd)).
Qed.

Lemma data_step y y' :
  send_step y y' → data_ok (ys_endpoint y) (ys_threads y) (ys_carrier y) (ys_proactor y) (ys_events y) →
  data_ok (ys_endpoint y') (ys_threads y') (ys_carrier y') (ys_proactor y') (ys_events y').
Proof.
  destruct 1; cbn [ys_endpoint ys_threads ys_carrier ys_proactor ys_events]; rewrite ?data_front; intros Hd.
  - eapply data_begin; [done|by eexists|]. by eapply data_same; [eapply begin_same|].
  - apply data_ok_log; [done..|]. by eapply data_same; [eapply begin_same|].
  - by eapply data_acquire.
  - by eapply data_unavailable.
  - subst status e'. pose proof (data_wire e (ts1 ++ ts2) cs ps es params i payload_length frame_length
      (wire_send (wire_params i frame_length params) carrier_status) H Hd) as Hw. cbv zeta in Hw. case_bool_decide; cbn; [done|]. by apply data_front.
  - by apply data_local.
  - by eapply data_local_refused.
  - by apply data_reject.
  - eapply data_carrier_complete; [done..|]. eapply data_ok_perm; [done| |done|exact Hd]. by rewrite Permutation_middle.
  - eapply data_local_complete; [done|]. eapply data_ok_perm; [done|done| |exact Hd]. by rewrite Permutation_middle.
  - by apply data_return.
  - apply data_finish. eapply data_same; [by eapply end_same|]. by apply data_end.
  - eapply data_same; [|exact Hd]. destruct H0; [by eapply begin_same|by eapply admit_same].
  - apply data_finish. by eapply data_same; [eapply end_same|].
  - by apply (data_same e).
  - by eapply data_same; [eapply activate_same|].
  - by apply (data_same e).
  - by eapply data_same; [eapply deactivate_same|].
  - by apply (data_same e).
  - by eapply data_same; [eapply join_same|].
  - apply data_finish. by eapply data_same; [eapply drain_same|].
Qed.

Lemma admit_begin e e' : admit_message e = (true, e') → begin_operation e = (true, e').
Proof. unfold admit_message. by case_bool_decide. Qed.

Lemma life_step y y' :
  send_step y y' → life_ok (ys_endpoint y) (holds y) (ys_drain y) (ys_events y) →
  life_ok (ys_endpoint y') (holds y') (ys_drain y') (ys_events y').
Proof.
  unfold holds. destruct 1; cbn [ys_endpoint ys_threads ys_carrier ys_proactor ys_others ys_drain ys_events]; rewrite ?length_app; cbn [length]; intros Hl.
  - by eapply life_begin.
  - apply life_log; [done|]. by rewrite (begin_refused e e').
  - destruct (acquire_same _ _ _ H) as [H1 H2]. by eapply life_same.
  - destruct (acquire_same _ _ _ H) as [H1 H2]. apply life_log; [done|]. by eapply life_same.
  - case_bool_decide; cbn [ys_endpoint ys_threads ys_carrier ys_proactor ys_others ys_drain ys_events].
    + apply life_log; [done|]. eapply (life_same e); [done..|]. eapply life_count; [|exact Hl]. rewrite length_app. cbn. lia.
    + eapply (life_same e); [done..|]. eapply life_count; [|exact Hl]. rewrite length_app. cbn. lia.
  - apply life_log; [done|]. eapply (life_same e); [done..|]. eapply life_count; [|exact Hl]. lia.
  - by eapply (life_same e).
  - apply life_log; [done|]. by eapply (life_same e).
  - injection H1 as <- <-. eapply (life_same e); [done..|]. eapply life_count; [|exact Hl]. lia.
  - unfold iree_net_framed_endpoint_local_send_complete, iree_net_framed_endpoint_send_complete in H. injection H as <- <-.
    eapply (life_same e); [done..|]. eapply life_count; [|exact Hl]. lia.
  - by apply life_log.
  - eapply life_end; [done|]. eapply life_count; [|exact Hl]. lia.
  - eapply life_count; [|eapply life_begin; [exact H| |exact Hl]]; [lia|]. destruct H0; [done|]. by apply admit_begin.
  - eapply life_end; [done|]. eapply life_count; [|exact Hl]. lia.
  - by eapply (life_same e).
  - by eapply life_activate.
  - by apply life_rollback.
  - by eapply life_deactivate.
  - by apply life_wire_deactivated.
  - by eapply life_join.
  - by eapply life_drained.
Qed.

(** ** Creation *)

Lemma initial_linked max (n k : nat) :
  Z.of_nat n = max → max <= umax 32 → (k <= n)%nat →
  free_linked (initial_send_state max <$> seq 0 n) (if decide (k = n) then IREE_NET_FRAMED_ENDPOINT_SEND_STATE_NONE else Z.of_nat k) (seq k (n - k)).
Proof.
  intros Hn Hmax Hk. remember (n - k)%nat as m eqn:Hm. revert k Hk Hm. induction m as [|m IH]; intros k Hk Hm.
  - by rewrite decide_True by lia.
  - rewrite decide_False by lia. cbn [seq free_linked]. split; [done|]. exists (initial_send_state max k). split.
    { rewrite list_lookup_fmap, lookup_seq_lt by lia. done. }
    split; [done|]. specialize (IH (S k) ltac:(lia) ltac:(lia)). cbn [fs_next_free initial_send_state].
    unfold umax in *. rewrite uadd_small by (unfold in_width; lia). replace (Z.of_nat k + 1) with (Z.of_nat (S k)) by lia.
    destruct (Z.ltb_spec (Z.of_nat (S k)) max); [rewrite decide_False in IH by lia|rewrite decide_True in IH by lia]; done.
Qed.

Lemma allocate_ok endpoint_size state_size host_malloc max connection_barrier e :
  0 <= max <= umax 32 →
  iree_net_framed_endpoint_allocate endpoint_size state_size host_malloc IREE_STATUS_OK max connection_barrier = Ok e →
  sends_ok (mk_send_system e [] [] [] 0 None []).
Proof.
  intros Hmax. unfold iree_net_framed_endpoint_allocate. destruct (Z.eqb_spec max 0); [done|].
  destruct (iree_struct_layout_calculate _ _) as [[offsets size]|]; [|done]. cbn [mbind status_or_bind].
  destruct (host_malloc size); try done. intros [= <-]. set (e := mk_framed_endpoint _ _ _ _ _ _ _ _).
  assert (∀ i s, fe_send_states e !! i = Some s → s = initial_send_state max i) as Hstate.
  { intros i s. cbn. rewrite list_lookup_fmap. intros (j & Hj & ->)%fmap_Some. apply lookup_seq in Hj as [-> _]. done. }
  split; cbn [ys_endpoint ys_threads ys_carrier ys_proactor ys_events ys_drain holds length ys_others].
  - split; try done.
    + split; cbn [e fe_send_states fe_free_send_state_head fe_free_send_state_count fe_send_state_count]; rewrite ?length_fmap, ?length_seq; try lia.
      * exists (seq 0 (Z.to_nat max)). split; [|split; [rewrite length_seq; lia|by rewrite app_nil_r]].
        pose proof (initial_linked max (Z.to_nat max) 0 ltac:(lia) ltac:(lia) ltac:(lia)) as H. rewrite decide_False in H by lia. by rewrite Nat.sub_0_r in H.
      * intros i s ->%Hstate. done.
      * intros i s Hi. by apply elem_of_nil in Hi.
    + split; [| |intros i Hi; by apply elem_of_nil in Hi]; intros i; unfold get_send_state; rewrite nth_lookup;
        destruct (fe_send_states e !! i) as [s|] eqn:E; cbn [default from_option]; try (apply Hstate in E as ->); done.
  - by split.
Qed.

Lemma send_reachable_ok y : send_reachable y → sends_ok y.
Proof.
  induction 1 as [? ? ? ? ? e Hmax He|y y' _ [Hd Hl] Hstep]; [by eapply allocate_ok|]. split; [by eapply data_step|by eapply life_step].
Qed.
