(* ===== verification/FramedSendTheorems.v ===== *)
(** * Sends complete once

    Under every interleaving of [FramedSends]: each admitted send is completed once, with its
    own callback and length, before the endpoint is reported drained; the states in use never
    overlap; an endpoint that drains can always finish; and a call of [send] that runs alone
    is a run of its steps. *)

From S2P Require Import Prelude BaseMath EndpointLifecycle ReceiveQueue ReceiveInvariant FrameInvariant FramedEndpoint FramedSends FramedSendPool FramedSendInvariant.
From stdpp Require Import base numbers list list_numbers relations.

Local Open Scope Z_scope.
Local Open Scope machine_scope.

(** ** Order of events *)

(** One event per step; only who holds an operation admits or completes a send. *)
Lemma step_events y y' :
  send_step y y' → ∃ ev, ys_events y' = ys_events y ++ ev ∧ (length ev <= 1)%nat ∧ (admitted ev ≠ [] ∨ completed ev ≠ [] → holds y ≠ 0%nat).
Proof.
  unfold holds.
  destruct 1; cbn [ys_endpoint ys_threads ys_carrier ys_proactor ys_others ys_drain ys_events]; rewrite ?length_app; cbn [length];
    try (exists []; rewrite app_nil_r; split; [done|]; split; [cbn; lia|]; by intros [[]|[]]);
    try (eexists; split; [done|]; split; [by destruct c || done|]; lia || by intros [[]|[]]).
  { case_bool_decide; cbn [ys_events]; [eexists; split; [done|]; split; [done|]; lia|].
    exists []. rewrite app_nil_r. split; [done|]. split; [cbn; lia|]. by intros [[]|[]]. }
  all: exists (send_finished c); split; [done|]; split; [by destruct c; cbn; lia|]; by destruct c; intros [[]|[]].
Qed.

Lemma finished_idle y : sends_ok y → finished (ys_events y) ≠ [] → holds y = 0%nat ∧ lc_state (fe_lifecycle (ys_endpoint y)) = LIFECYCLE_STATE_DEACTIVATED.
Proof.
  intros [_ [Hh _ _ _ _ Hf]] Hne. case_decide as Hs; [|by destruct (finished _)]. split; [|done].
  pose proof (lo_idle _ _ Hh ltac:(by right)). lia.
Qed.

Lemma finished_last y : send_reachable y →
  ∀ before c after, ys_events y = before ++ SendsFinished c :: after → admitted after = [] ∧ completed after = [].
Proof.
  induction 1 as [|y y' Hr IH Hstep]; [by intros [] |]. pose proof (send_reachable_ok y Hr) as Hok.
  destruct (step_events y y' Hstep) as (ev & -> & Hlen & Hev). intros before c after Heq.
  destruct ev as [|x [|]]; cbn in Hlen; [|destruct (decide (after = [])) as [->|Hne]; [done|]|lia].
  { rewrite app_nil_r in Heq. by apply (IH before c). }
  destruct (exists_last Hne) as (after' & z & ->). rewrite app_comm_cons, app_assoc in Heq. apply app_inj_tail in Heq as [Heq ->].
  destruct (IH _ _ _ Heq) as [Ha Hc]. rewrite admitted_app, completed_app, Ha, Hc. cbn [app].
  assert (holds y = 0%nat) as H0.
  { apply finished_idle; [done|]. rewrite Heq. unfold finished. rewrite omap_app. cbn. by destruct (omap _ before). }
  split; apply dec_stable; intros H; apply Hev; auto.
Qed.

(** ** Acquiring a state *)

Lemma pool_bound e owned i : pool_ok e owned → i ∈ owned → Z.of_nat i < fe_send_state_count e.
Proof. intros Hp Hi. destruct (pool_lookup _ _ Hp i Hi) as (s & Hs & _). apply lookup_lt_Some in Hs. rewrite (po_count _ _ Hp). lia. Qed.

(** What acquiring a state does to the pool. *)
Definition acquisition (e : iree_net_framed_endpoint_t) (owned : list nat) (r : status_or nat) : Prop :=
  match r with
  | Ok i => i ∉ owned ∧ Z.of_nat i < fe_send_state_count e
  | Err code =>
      code = IREE_STATUS_FAILED_PRECONDITION ∧ fe_state e ≠ FRAMED_ENDPOINT_STATE_ACTIVE ∨
      code = IREE_STATUS_RESOURCE_EXHAUSTED ∧ fe_state e = FRAMED_ENDPOINT_STATE_ACTIVE ∧ Z.of_nat (length owned) = fe_send_state_count e
  end.

Lemma acquire_exact e owned : pool_ok e owned → acquisition e owned (acquire_admitted e).1.
Proof.
  intros Hpool. unfold acquire_admitted. case_bool_decide as Hs; cbn [negb]; [|by left].
  destruct (iree_net_framed_endpoint_acquire_send_state_locked e) as [[i|] e'] eqn:Ha; pose proof (acquire_pool _ _ Hpool _ _ Ha) as Hp; cbn [fst acquisition].
  - destruct Hp as [Hp _]. pose proof (pool_NoDup _ _ Hp) as [Hi _]%NoDup_cons. split; [done|].
    pose proof (pool_bound _ _ i Hp ltac:(by left)) as H. assert (fe_send_state_count e' = fe_send_state_count e) as <-; [|done].
    unfold iree_net_framed_endpoint_acquire_send_state_locked in Ha. destruct (_ =? _); [done|]. by injection Ha as _ <-.
  - right. by destruct Hp as [_ Hp].
Qed.

(** ** Theorems *)

(** C18: Under every interleaving of calls of [send], completions of the carrier and the
    proactor, deliveries, activation and deactivation: the admitted sends are, each with its
    callback and length, those that were completed and those that are outstanding, so none is
    completed twice or lost and a refused one never; a completion reports at most the payload
    and all of it on success; the endpoint is reported drained at most once, and then nothing
    is outstanding, every send state is free and no send is admitted or completed later. *)
Theorem sends_completed_once y :
  send_reachable y →
  admitted (ys_events y) ≡ₚ (completion_item <$> completed (ys_events y)) ++ outstanding y ∧
  Forall completion_ok (completed (ys_events y)) ∧
  (length (finished (ys_events y)) <= 1)%nat ∧
  ∀ before c after, ys_events y = before ++ SendsFinished c :: after →
    outstanding y = [] ∧ fe_free_send_state_count (ys_endpoint y) = fe_send_state_count (ys_endpoint y) ∧
    admitted after = [] ∧ completed after = [].
Proof.
  intros Hr. pose proof (send_reachable_ok y Hr) as Hok. destruct Hok as [[Hpool Hst Hth Hcon Hcom] Hl]. split; [done|]. split; [done|].
  split; [rewrite (li_finished _ _ _ _ Hl); case_decide; lia|]. intros before c after Heq.
  destruct (finished_idle y) as [H0 _]; [by apply send_reachable_ok|rewrite Heq; unfold finished; rewrite omap_app; cbn; by destruct (omap _ before)|].
  unfold holds in H0. assert (ys_threads y = [] ∧ ys_carrier y = [] ∧ ys_proactor y = []) as (Ht & Hc & Hp).
  { rewrite <- !length_zero_iff_nil. lia. }
  pose proof (pool_counts _ _ Hpool) as Hcounts. unfold outstanding. rewrite Ht, Hc, Hp in *. cbn in Hcounts.
  split; [done|]. split; [lia|]. by eapply finished_last.
Qed.

(** C19: In every reachable state the send states that threads, the carrier and the proactor
    use are distinct records of the pool in the phase IN_FLIGHT, and the free count is exact;
    acquiring a state yields an unused one, and fails with RESOURCE_EXHAUSTED exactly when an
    active endpoint has all of them in use; a reported slot budget is available. *)
Theorem send_states_exact y :
  send_reachable y →
  let e := ys_endpoint y in
  let owned := owned_slots (ys_threads y) (ys_carrier y) (ys_proactor y) in
  NoDup owned ∧
  (∀ i, i ∈ owned → Z.of_nat i < fe_send_state_count e ∧ fs_phase (get_send_state i e) = SEND_STATE_PHASE_IN_FLIGHT) ∧
  fe_free_send_state_count e = fe_send_state_count e - Z.of_nat (length owned) ∧
  acquisition e owned (acquire_admitted e).1 ∧
  (∀ bytes slots, 0 < (iree_net_framed_endpoint_query_send_budget bytes slots e).2 →
     (iree_net_framed_endpoint_query_send_budget bytes slots e).2 <= fe_send_state_count e - Z.of_nat (length owned) ∧
     is_ok (acquire_admitted e).1 = true).
Proof.
  intros Hr e owned. pose proof (da_pool _ _ _ _ _ (se_data _ (send_reachable_ok y Hr))) as Hpool. fold e owned in Hpool.
  pose proof (pool_counts _ _ Hpool) as Hcounts.
  pose proof (acquire_exact _ _ Hpool) as Hacq.
  split; [by eapply pool_NoDup|]. split; [|split; [lia|split; [done|]]].
  - intros i Hi. split; [by eapply pool_bound|]. destruct (pool_lookup _ _ Hpool i Hi) as (s & _ & -> & _ & Hph). done.
  - intros bytes slots. unfold iree_net_framed_endpoint_query_send_budget. case_bool_decide as Hs; cbn [andb]; [|done].
    destruct (Z.ltb_spec 0 (fe_free_send_state_count e)); [|done]. cbn [snd]. intros _. split; [lia|].
    destruct (acquire_admitted e) as [[i|code] e']; [done|]. destruct Hacq as [[_ ?]|(_ & _ & ?)]; [done|lia].
Qed.

(** ** Work that is left *)

Definition thread_work (t : send_thread) : nat :=
  match t with SendBegun _ => 6 | SendAcquired _ _ => 5 | SendRefused _ _ => 4 | SendRejecting _ _ | SendReturning _ => 2 | SendEnding => 1 end.

Definition drain_work (d : option drain_phase) : nat :=
  match d with Some DrainWire => 2 | Some DrainCompleting => 1 | None => 0 end.

Definition work (y : send_system) : nat :=
  sum_list_with thread_work (ys_threads y) + 3 * (length (ys_carrier y) + length (ys_proactor y)) + ys_others y + drain_work (ys_drain y).

Definition draining (y : send_system) : Prop :=
  lc_state (fe_lifecycle (ys_endpoint y)) = LIFECYCLE_STATE_DRAINING ∨ lc_state (fe_lifecycle (ys_endpoint y)) = LIFECYCLE_STATE_DEACTIVATED.

(** A step of a call, a completion or a drain that is under way. *)
Definition settles (y y' : send_system) : Prop := send_step y y' ∧ (work y' < work y)%nat.

Lemma end_draining e e' c :
  end_operation e = (e', c) → lc_state (fe_lifecycle e') = lc_state (fe_lifecycle e) ∨ lc_state (fe_lifecycle e') = LIFECYCLE_STATE_DEACTIVATED.
Proof.
  unfold end_operation, iree_net_endpoint_lifecycle_end_operation. destruct (iree_net_endpoint_lifecycle_try_finish_locked _) as [l c'] eqn:E.
  intros [= <- <-]. apply finish_cases in E. destruct c'; [by right; destruct E as (_ & _ & ?)|by subst; left].
Qed.

Lemma complete_draining e e' c :
  complete_drain e = (e', c) → lc_state (fe_lifecycle e') = lc_state (fe_lifecycle e) ∨ lc_state (fe_lifecycle e') = LIFECYCLE_STATE_DEACTIVATED.
Proof.
  unfold complete_drain, iree_net_endpoint_lifecycle_complete_deactivation. destruct (iree_net_endpoint_lifecycle_try_finish_locked _) as [l c'] eqn:E.
  intros [= <- <-]. apply finish_cases in E. destruct c'; [by right; destruct E as (_ & _ & ?)|by subst; left].
Qed.

Lemma thread_settles e t ts cs ps n d es :
  thread_ok t → let y := mk_send_system e (t :: ts) cs ps n d es in draining y → ∃ y', settles y y' ∧ draining y'.
Proof.
  intros Ht y Hd. destruct t as [params|i params|i status|i status|c|].
  - destruct (acquire_admitted e) as [[i|code] e'] eqn:Ha; destruct (acquire_same _ _ _ Ha) as [Hl _].
    + eexists. split; [split; [by apply (send_acquire e [] ts cs ps n d es params i e')|unfold work; cbn; lia]|]. unfold draining in *. cbn. by rewrite Hl.
    + eexists. split; [split; [by apply (send_unavailable e [] ts cs ps n d es params code e')|unfold work; cbn; lia]|]. unfold draining in *. cbn. by rewrite Hl.
  - destruct Ht as (_ & [len frame] & Hlen). eexists. split; [split; [by apply (send_wire e [] ts cs ps n d es params i len frame IREE_STATUS_CANCELLED)|]|].
    + case_bool_decide; unfold work; cbn; lia.
    + by case_bool_decide.
  - eexists. split; [split; [apply (send_local e [] ts cs ps n d es i status)|unfold work; cbn; lia]|]. done.
  - eexists. split; [split; [apply (send_reject e [] ts cs ps n d es i status)|unfold work; cbn; lia]|]. done.
  - eexists. split; [split; [apply (send_return e [] ts cs ps n d es c)|unfold work; cbn; lia]|]. done.
  - destruct (end_operation e) as [e' c] eqn:E. eexists. split; [split; [by apply (send_end e [] ts cs ps n d es e' c)|unfold work; cbn; lia]|].
    unfold draining in *. cbn in *. destruct (end_draining _ _ _ E) as [->| ->]; auto.
Qed.

(** While there is work, some of it can be done. *)
Lemma work_settles y : sends_ok y → draining y → (0 < work y)%nat → ∃ y', settles y y' ∧ draining y'.
Proof.
  intros Hok Hd Hw. pose proof (da_threads _ _ _ _ _ (se_data _ Hok)) as Hth. destruct y as [e ts cs ps n d es]. cbn in Hth.
  destruct ts as [|t ts]; [|apply thread_settles; [by inversion Hth|done]].
  destruct cs as [|i cs].
  2: { destruct (iree_net_framed_endpoint_send_complete i IREE_STATUS_CANCELLED 0 e) as [c e'] eqn:E. eexists.
       split; [split; [by apply (send_carrier_complete e [] [] cs ps n d es i IREE_STATUS_CANCELLED 0 c e')|unfold work; cbn; lia]|].
       injection E as _ <-. done. }
  destruct ps as [|i ps].
  2: { destruct (iree_net_framed_endpoint_local_send_complete i IREE_STATUS_OK e) as [c e'] eqn:E. eexists.
       split; [split; [by apply (send_local_complete e [] [] [] ps n d es i IREE_STATUS_OK c e')|unfold work; cbn; lia]|].
       unfold iree_net_framed_endpoint_local_send_complete, iree_net_framed_endpoint_send_complete in E. injection E as _ <-. done. }
  destruct n as [|n].
  2: { destruct (end_operation e) as [e' c] eqn:E. eexists. split; [split; [by apply (send_unhold e [] [] [] n d es e' c)|unfold work; cbn; lia]|].
       unfold draining in *. cbn in *. destruct (end_draining _ _ _ E) as [->| ->]; auto. }
  destruct d as [[|]|]; [| |unfold work in Hw; cbn in Hw; lia].
  - eexists. split; [split; [apply send_wire_deactivated|unfold work; cbn; lia]|]. done.
  - destruct (complete_drain e) as [e' c] eqn:E. eexists. split; [split; [by eapply send_drained|unfold work; cbn; lia]|].
    unfold draining in *. cbn in *. destruct (complete_draining _ _ _ E) as [->| ->]; auto.
Qed.

(** C20: An endpoint that was asked to drain can always be finished by what is under way: as
    long as it is not reported drained, a step of a call, of a completion that the carrier or
    the proactor owes, of a delivery or of the drain itself is possible and reduces the work
    that is left; when none is left the endpoint has been reported drained. *)
Theorem draining_endpoint_finishes y :
  send_reachable y → draining y →
  (work y = 0%nat → finished (ys_events y) ≠ []) ∧ ∃ y', rtc settles y y' ∧ work y' = 0%nat ∧ finished (ys_events y') ≠ [].
Proof.
  assert (∀ y, sends_ok y → draining y → work y = 0%nat → finished (ys_events y) ≠ []) as Hdone.
  { intros z [_ [Hh _ _ _ Hdr Hf]] Hd Hw. unfold work in Hw. assert (holds z = 0%nat ∧ ys_drain z = None) as [Hz Hn].
    { unfold holds. destruct z as [e ts cs ps n d es]. cbn [ys_threads ys_carrier ys_proactor ys_others ys_drain] in *.
      destruct ts as [|t ts]; [|cbn [sum_list_with] in Hw; destruct t; cbn [thread_work] in Hw; lia].
      destruct d as [[]|]; cbn [drain_work sum_list_with] in Hw; [lia..|]. cbn [length]. split; [lia|done]. }
    intros Hnil. rewrite Hnil in Hf. case_decide as Hs; [done|]. destruct Hd as [Hd|Hd]; [|done].
    apply (lo_unfinished _ _ Hh Hd); [by apply Hdr|]. by rewrite Hz. }
  intros Hr Hd. split; [by apply Hdone, Hd; apply send_reachable_ok|]. remember (work y) as w eqn:Hw. revert y Hw Hr Hd.
  induction w as [w IH] using lt_wf_ind. intros y Hw Hr Hd. pose proof (send_reachable_ok y Hr) as Hok.
  destruct (decide (w = 0%nat)) as [E|E].
  { exists y. split; [done|]. split; [lia|]. apply Hdone; [done|done|lia]. }
  destruct (work_settles y Hok Hd) as (y1 & [Hstep Hlt] & Hd1); [lia|].
  destruct (IH (work y1) ltac:(lia) y1 eq_refl ltac:(by eapply send_next) Hd1) as (y' & Hrun & Hy'). exists y'. split; [|done].
  by eapply rtc_l.
Qed.

(** ** A call that runs alone *)

(** What a call of [send] leaves: nothing but its events, or one send that the carrier or the
    proactor completes. *)
Definition send_outcome (params : iree_net_message_endpoint_send_params_t) (code : iree_status_code) (e' : iree_net_framed_endpoint_t)
    (c : option iree_net_endpoint_lifecycle_completion_t) (y y' : send_system) : Prop :=
  ys_endpoint y' = e' ∧ ys_threads y' = ys_threads y ∧ ys_others y' = ys_others y ∧ ys_drain y' = ys_drain y ∧
  if bool_decide (code = IREE_STATUS_OK)
  then c = None ∧ (∃ i, ys_carrier y' = i :: ys_carrier y ∧ ys_proactor y' = ys_proactor y ∨
                       ys_carrier y' = ys_carrier y ∧ ys_proactor y' = i :: ys_proactor y) ∧
       ∃ payload_length, iree_net_framed_endpoint_calculate_payload_length params = Ok payload_length ∧
         ys_events y' = ys_events y ++ [SendAdmitted (ps_completion_callback params) payload_length]
  else ys_carrier y' = ys_carrier y ∧ ys_proactor y' = ys_proactor y ∧ ys_events y' = ys_events y ++ [SendRejected code] ++ send_finished c.

Lemma acquire_error_code e code e' : acquire_admitted e = (Err code, e') → code ≠ IREE_STATUS_OK.
Proof.
  unfold acquire_admitted. case_bool_decide; cbn [negb]; [|by intros [= <- _]].
  destruct (iree_net_framed_endpoint_acquire_send_state_locked e) as [[i|] e1]; [done|]. by intros [= <- _].
Qed.

(** The part of a call that follows a refusal of the wire. *)
Lemma refused_outcome e ts cs ps n d es i status submit_status s code e' c :
  fe_send_states e !! i = Some s → status ≠ IREE_STATUS_OK →
  iree_net_framed_endpoint_schedule_local_send_completion i status submit_status e = (code, e', c) →
  ∃ y', rtc send_step (mk_send_system e (SendRefused i status :: ts) cs ps n d es) y' ∧
    ys_endpoint y' = e' ∧ ys_threads y' = ts ∧ ys_others y' = n ∧ ys_drain y' = d ∧ ys_carrier y' = cs ∧
    if bool_decide (code = IREE_STATUS_OK)
    then c = None ∧ ys_proactor y' = i :: ps ∧ ys_events y' = es ++ [SendAdmitted (fs_completion_callback s) (fs_payload_length s)]
    else ys_proactor y' = ps ∧ ys_events y' = es ++ [SendRejected code] ++ send_finished c.
Proof.
  intros Hs Hne. assert (get_send_state i e = s) as Hget by (by apply nth_lookup_Some).
  unfold iree_net_framed_endpoint_schedule_local_send_completion. case_bool_decide as Hsub.
  - intros [= <- <- <-]. eexists. split; [eapply rtc_once, (send_local e [] ts cs ps n d es i status)|]. cbn. rewrite Hget. done.
  - rewrite (get_alter_eq e _ (set_local_status status) i s) by done. cbn [fs_local_completion_status set_local_status].
    set (e1 := update_send_state i _ (update_send_state i _ e)). unfold iree_net_framed_endpoint_reject_send_state.
    destruct (end_operation _) as [e2 c2] eqn:E. intros [= <- <- <-].
    eexists. split.
    + eapply rtc_l; [by apply (send_local_refused e [] ts cs ps n d es i status submit_status)|]. eapply rtc_l; [apply (send_reject e1 [] ts)|].
      eapply rtc_once, (send_end _ [] ts). exact E.
    + cbn. rewrite bool_decide_false by (by apply join_failure). by rewrite <- app_assoc.
Qed.


(** ** A sample: one message, then a deactivation *)

Definition sample_params : iree_net_message_endpoint_send_params_t := mk_send_params (mk_send_prefix 0 None false) [[1; 2; 3]] (Some 7).

Definition sample_created : iree_net_framed_endpoint_t :=
  mk_framed_endpoint FRAMED_ENDPOINT_STATE_CREATED false false (iree_net_endpoint_lifecycle_initialize true) 2 2 0 (initial_send_state 2 <$> seq 0 2).

Definition sample_active : iree_net_framed_endpoint_t :=
  (iree_net_framed_endpoint_activate IREE_STATUS_OK (iree_net_framed_endpoint_set_callbacks true true sample_created)).2.

Definition sample_sending : iree_net_framed_endpoint_t :=
  (iree_net_framed_endpoint_send sample_params IREE_STATUS_OK IREE_STATUS_OK sample_active).1.2.

Definition sample_draining : iree_net_framed_endpoint_t :=
  match deactivate_locked (Some 5) sample_sending iree_net_endpoint_deactivation_barrier_initialize with Ok (e, _) => e | Err _ => sample_sending end.

Definition sample_completed : iree_net_framed_endpoint_t := (iree_net_framed_endpoint_send_complete 0 IREE_STATUS_OK 11 sample_draining).2.

Definition sample_finished : send_system :=
  mk_send_system (iree_net_framed_endpoint_on_wire_deactivated (end_operation sample_completed).1).1 [] [] [] 0 None
    [SendAdmitted (Some 7) 3; SendCompleted (mk_send_completion (Some 7) 3 IREE_STATUS_OK 3); SendsFinished (mk_completion (Some 5) true)].

Lemma sample_send_params_ok : send_params_ok sample_params.
Proof. split; [done|]. split; [by repeat constructor|]. done. Qed.

Lemma sample_active_reachable : send_reachable (mk_send_system sample_active [] [] [] 0 None []).
Proof.
  eapply send_next; [|by apply (send_activate (iree_net_framed_endpoint_set_callbacks true true sample_created))].
  eapply send_next; [|apply send_set_callbacks]. by apply (send_start 256 128 (λ _, IREE_STATUS_OK) 2 true).
Qed.

Lemma sample_sending_reachable :
  send_reachable (mk_send_system sample_sending [] [0%nat] [] 0 None [SendAdmitted (Some 7) 3]).
Proof.
  set (e1 := (begin_operation sample_active).2). set (e2 := (acquire_admitted e1).2).
  eapply (send_next (mk_send_system e2 [SendAcquired 0 sample_params] [] [] 0 None [])).
  2: by apply (send_wire e2 [] [] [] [] 0 None [] sample_params 0 3 11 IREE_STATUS_OK).
  eapply (send_next (mk_send_system e1 [SendBegun sample_params] [] [] 0 None [])); [|by apply (send_acquire e1 [] [])].
  eapply send_next; [apply sample_active_reachable|]. by apply (send_begin _ _ _ _ _ _ _ sample_params (3, 11)); [apply sample_send_params_ok|..].
Qed.

Lemma sample_drain_reachable :
  send_reachable (mk_send_system sample_draining [] [0%nat] [] 0 (Some DrainWire) [SendAdmitted (Some 7) 3]).
Proof.
  eapply send_next; [apply sample_sending_reachable|].
  by apply (send_deactivate _ _ _ _ _ _ _ (Some 5) iree_net_endpoint_deactivation_barrier_initialize _ (mk_barrier 2 None)).
Qed.

Lemma sample_done_reachable : send_reachable sample_finished.
Proof.
  set (c := mk_send_completion (Some 7) 3 IREE_STATUS_OK 3). set (e4 := (end_operation sample_completed).1).
  eapply send_next; [|by apply (send_drained (wire_deactivated_locked e4) [] [] [] 0
    [SendAdmitted (Some 7) 3; SendCompleted c] _ (Some (mk_completion (Some 5) true)))].
  eapply send_next; [|apply send_wire_deactivated].
  eapply (send_next (mk_send_system sample_completed [SendEnding] [] [] 0 (Some DrainWire) [SendAdmitted (Some 7) 3; SendCompleted c])).
  2: by apply (send_end sample_completed [] [] [] [] 0 _ [SendAdmitted (Some 7) 3; SendCompleted c] e4 None).
  eapply (send_next (mk_send_system sample_completed [SendReturning c] [] [] 0 _ [SendAdmitted (Some 7) 3])).
  2: by apply (send_return sample_completed [] [] [] [] 0 _ [SendAdmitted (Some 7) 3] c).
  eapply send_next; [apply sample_drain_reachable|]. by apply (send_carrier_complete _ _ [] [] _ _ _ _ 0 IREE_STATUS_OK 11).
Qed.

Lemma sends_completed_once_witness :
  outstanding sample_finished = [] ∧ completed (ys_events sample_finished) = [mk_send_completion (Some 7) 3 IREE_STATUS_OK 3].
Proof.
  split; [|done]. destruct (sends_completed_once sample_finished sample_done_reachable) as (_ & _ & _ & H).
  by destruct (H [SendAdmitted (Some 7) 3; SendCompleted (mk_send_completion (Some 7) 3 IREE_STATUS_OK 3)] (mk_completion (Some 5) true) []).
Defined.

Lemma send_states_exact_witness :
  fe_free_send_state_count sample_sending = 1 ∧ (acquire_admitted sample_sending).1 = Ok 1%nat.
Proof.
  split; [|by vm_compute]. destruct (send_states_exact _ sample_sending_reachable) as (_ & _ & H & _). exact H.
Defined.

Lemma draining_endpoint_finishes_witness :
  ∃ y', rtc settles (mk_send_system sample_draining [] [0%nat] [] 0 (Some DrainWire) [SendAdmitted (Some 7) 3]) y' ∧ finished (ys_events y') ≠ [].
Proof.
  destruct (draining_endpoint_finishes _ sample_drain_reachable) as [_ (y' & Hrun & _ & Hf)]; [by left|]. exact (ex_intro _ y' (conj Hrun Hf)).
Defined.

