(* ===== verification/StatusWire.v ===== *)
(** * Statuses on the wire

    [iree/net/status_wire.c]: a status with its source location, message and payloads is
    written as a header and typed text entries, and read back into a new status; with the
    functions of [iree/base/status.c] that build and inspect statuses. *)

From S2P Require Import Prelude BaseMath WireBytes ReceiveQueue FrameInvariant.
From stdpp Require Import base numbers list list_numbers.

Local Open Scope Z_scope.
Local Open Scope machine_scope.

(** ** Statuses *)

Definition IREE_STATUS_CODE_MASK : Z := 0x1F.

(** The types that the library reserves; every other value is a user type. *)
Definition IREE_STATUS_PAYLOAD_TYPE_OPAQUE : Z := 0.
Definition IREE_STATUS_PAYLOAD_TYPE_MESSAGE : Z := 1.
Definition IREE_STATUS_PAYLOAD_TYPE_STACK_TRACE : Z := 2.

(** A formatter takes the capacity of its buffer, 0 without one, and returns the length it
    reports with the bytes it writes. *)
Definition iree_status_payload_formatter_t : Type := Z → Z * list Z.

Record iree_status_payload_t := mk_status_payload {
  pl_type : Z;
  pl_formatter : option iree_status_payload_formatter_t;
}.

Definition iree_status_payload_message_formatter (message : list Z) : iree_status_payload_formatter_t :=
  λ buffer_capacity,
    (byte_length message,
     if 0 <? buffer_capacity then take (Z.to_nat (Z.min (byte_length message) (buffer_capacity - 1))) message ++ [0] else []).

Definition message_payload (message : list Z) : iree_status_payload_t :=
  mk_status_payload IREE_STATUS_PAYLOAD_TYPE_MESSAGE (Some (iree_status_payload_message_formatter message)).

(** [ss_file] is [None] for a null pointer; the terminator is not part of it. *)
Record iree_status_storage_t := mk_status_storage {
  ss_payloads : list iree_status_payload_t;
  ss_file : option (list Z);
  ss_line : Z;
  ss_message : list Z;
}.

(** A status is a code and, if it is not OK, optional storage. *)
Record status_t := mk_status {
  st_code : Z;
  st_storage : option iree_status_storage_t;
}.

Definition iree_ok_status : status_t := mk_status 0 None.

(** An OK status is the null handle. *)
Definition iree_status_is_ok (s : status_t) : bool :=
  match st_storage s with None => st_code s =? 0 | Some _ => false end.

Definition iree_status_from_code (code : Z) : status_t := mk_status (Z.land code IREE_STATUS_CODE_MASK) None.

Definition iree_status_source_location (s : status_t) : option (list Z) * Z :=
  match st_storage s with Some storage => (ss_file storage, ss_line storage) | None => (None, 0) end.

Definition iree_status_message (s : status_t) : list Z := match st_storage s with Some storage => ss_message storage | None => [] end.

(** The visitor threads its state; its first failure is returned. *)
Fixpoint visit_payloads {A} (visitor : iree_status_payload_t → A → status_or A) (payloads : list iree_status_payload_t) (a : A) : status_or A :=
  match payloads with [] => Ok a | p :: payloads => a ← visitor p a; visit_payloads visitor payloads a end.

Definition iree_status_enumerate_payloads {A} (visitor : iree_status_payload_t → A → status_or A) (s : status_t) (a : A) : status_or A :=
  match st_storage s with None => Ok a | Some storage => visit_payloads visitor (ss_payloads storage) a end.

Definition iree_status_payload_format (p : iree_status_payload_t) (buffer_capacity : Z) : Z * list Z :=
  match pl_formatter p with None => (0, []) | Some formatter => formatter buffer_capacity end.

(** Whether the C library serves one request: [malloc] by size, [aligned_alloc] by alignment
    and size. *)
Record host_allocator_t := mk_host_allocator {
  host_malloc : Z → bool;
  host_aligned_alloc : Z → Z → bool;
}.

Section status.
Context (host : host_allocator_t).

(** Of a text and its terminator, or nothing for an empty text. *)
Definition text_alloc_size (text : list Z) : option Z :=
  if 0 <? byte_length text then iree_host_size_checked_add (byte_length text) 1 else Some 0.

(** [sizeof(iree_status_storage_t)] is 48. *)
Definition iree_status_allocate_copy (code : Z) (file : list Z) (line : Z) (message : list Z) : status_t :=
  if code =? 0 then iree_ok_status
  else
    match text_alloc_size file, text_alloc_size message with
    | Some file_alloc_size, Some message_alloc_size =>
        match iree_struct_layout_calculate 48
                [Build_iree_struct_field_t file_alloc_size 1 1 0; Build_iree_struct_field_t message_alloc_size 1 1 0] with
        | Err _ => iree_status_from_code code
        | Ok (_, unaligned_size) =>
            match iree_host_size_checked_align unaligned_size (IREE_STATUS_CODE_MASK + 1) with
            | None => iree_status_from_code code
            | Some storage_size =>
                if host_aligned_alloc host (IREE_STATUS_CODE_MASK + 1) storage_size then
                  mk_status (Z.land code IREE_STATUS_CODE_MASK)
                    (Some (mk_status_storage [] (if 0 <? byte_length file then Some file else None) line message))
                else iree_status_from_code code
            end
        end
    | _, _ => iree_status_from_code code
    end.

Definition iree_status_append_payload (s : status_t) (p : iree_status_payload_t) : status_t :=
  mk_status (st_code s)
    ((λ storage, mk_status_storage (ss_payloads storage ++ [p]) (ss_file storage) (ss_line storage) (ss_message storage)) <$> st_storage s).

(** [sizeof(iree_status_payload_message_t)] is 56, 64 with its padding. *)
Definition iree_status_annotate_copy_parts (base : status_t) (prefix message : list Z) : status_t :=
  if iree_status_is_ok base || bool_decide (prefix = [] ∧ message = []) then base
  else if bool_decide (st_storage base = None ∧ prefix = []) then iree_status_allocate_copy (st_code base) [] 0 message
  else
    match iree_host_size_checked_add (byte_length prefix) (byte_length message) ≫= λ n, iree_host_size_checked_add n 1 with
    | None => base
    | Some message_storage_size =>
        match iree_struct_layout_calculate 64 [Build_iree_struct_field_t message_storage_size 1 1 0] with
        | Err _ => base
        | Ok (_, allocation_size) =>
            if host_malloc host allocation_size then
              match st_storage base with
              | None => iree_status_allocate_copy (st_code base) [] 0 (prefix ++ message)
              | Some _ => iree_status_append_payload base (message_payload (prefix ++ message))
              end
            else base
        end
    end.

Definition iree_status_annotate_copy (base : status_t) (message : list Z) : status_t := iree_status_annotate_copy_parts base [] message.

End status.

(** ** Writing *)

Definition IREE_NET_STATUS_WIRE_VERSION : Z := 1.
Definition IREE_NET_STATUS_WIRE_HEADER_SIZE : Z := 8.
Definition IREE_NET_STATUS_WIRE_ENTRY_HEADER_SIZE : Z := 16.
Definition IREE_NET_STATUS_WIRE_ALIGNMENT : Z := 8.

(** The types of entries, as they are on the wire. *)
Definition IREE_NET_STATUS_WIRE_ENTRY_TYPE_SOURCE_LOCATION : Z := 1.
Definition IREE_NET_STATUS_WIRE_ENTRY_TYPE_MESSAGE : Z := 2.
Definition IREE_NET_STATUS_WIRE_ENTRY_TYPE_ANNOTATION : Z := 3.
Definition IREE_NET_STATUS_WIRE_ENTRY_TYPE_STACK_TRACE : Z := 4.

Definition INT_MAX : Z := 2 ^ 31 - 1.

(** The storage of a text and the size of its entry. *)
Definition iree_net_status_wire_calculate_entry_layout (text_length : Z) : status_or (Z * Z) :=
  if text_length =? 0 then Err IREE_STATUS_INVALID_ARGUMENT
  else if umax 32 <? text_length then Err IREE_STATUS_OUT_OF_RANGE
  else
    match
      (terminated_length ← iree_host_size_checked_add text_length 1;
       storage_length ← iree_host_size_checked_align terminated_length IREE_NET_STATUS_WIRE_ALIGNMENT;
       entry_size ← iree_host_size_checked_add IREE_NET_STATUS_WIRE_ENTRY_HEADER_SIZE storage_length;
       Some (storage_length, entry_size))
    with
    | Some layout => Ok layout
    | None => Err IREE_STATUS_OUT_OF_RANGE
    end.

Record iree_net_status_wire_layout_t := mk_wire_layout {
  wl_total_size : Z;
  wl_entry_count : Z;
}.

Definition iree_net_status_wire_layout_add_entry (text_length : Z) (layout : iree_net_status_wire_layout_t) :
    status_or iree_net_status_wire_layout_t :=
  if wl_entry_count layout =? umax 16 then Err IREE_STATUS_OUT_OF_RANGE
  else
    '(_, entry_size) ← iree_net_status_wire_calculate_entry_layout text_length;
    match iree_host_size_checked_add (wl_total_size layout) entry_size with
    | None => Err IREE_STATUS_OUT_OF_RANGE
    | Some total_size =>
        if umax 32 <? total_size then Err IREE_STATUS_OUT_OF_RANGE
        else Ok (mk_wire_layout total_size (wrap 16 (wl_entry_count layout + 1)))
    end.

Definition iree_net_status_wire_size_payload (p : iree_status_payload_t) (layout : iree_net_status_wire_layout_t) :
    status_or iree_net_status_wire_layout_t :=
  let '(text_length, _) := iree_status_payload_format p 0 in
  if text_length =? 0 then Ok layout
  else if INT_MAX <? text_length then Err IREE_STATUS_OUT_OF_RANGE
  else iree_net_status_wire_layout_add_entry text_length layout.

Definition iree_net_status_wire_calculate_size (s : status_t) : status_or Z :=
  let layout := mk_wire_layout IREE_NET_STATUS_WIRE_HEADER_SIZE 0 in
  layout ←
    (if iree_status_is_ok s then Ok layout
     else
       layout ←
         match iree_status_source_location s with
         | (Some (c :: file), _) => iree_net_status_wire_layout_add_entry (byte_length (c :: file)) layout
         | _ => Ok layout
         end;
       layout ←
         (if byte_length (iree_status_message s) =? 0 then Ok layout
          else iree_net_status_wire_layout_add_entry (byte_length (iree_status_message s)) layout);
       iree_status_enumerate_payloads iree_net_status_wire_size_payload s layout);
  Ok (wl_total_size layout).

Record iree_net_status_wire_serialize_context_t := mk_wire_context {
  wc_data : list Z;
  wc_capacity : Z;
  wc_offset : Z;
  wc_entry_count : Z;
}.

(** Stores at an offset of the output. *)
Definition store_at (offset : Z) (bytes : list Z) (context : iree_net_status_wire_serialize_context_t) :
    iree_net_status_wire_serialize_context_t :=
  mk_wire_context (write_bytes (Z.to_nat offset) bytes (wc_data context)) (wc_capacity context) (wc_offset context) (wc_entry_count context).

(** The offset and the length of the text's storage. *)
Definition iree_net_status_wire_begin_entry (type aux text_length : Z) (context : iree_net_status_wire_serialize_context_t) :
    status_or (Z * Z * iree_net_status_wire_serialize_context_t) :=
  if wc_entry_count context =? umax 16 then Err IREE_STATUS_OUT_OF_RANGE
  else
    '(storage_length, entry_size) ← iree_net_status_wire_calculate_entry_layout text_length;
    if wc_capacity context -64 wc_offset context <? entry_size then Err IREE_STATUS_DATA_LOSS
    else
      let entry := wc_offset context in
      let context := store_at entry [type] context in
      let context := store_at (entry + 4) (iree_unaligned_store_le_u32 text_length) context in
      let context := store_at (entry + 8) (iree_unaligned_store_le_u32 aux) context in
      Ok (entry + IREE_NET_STATUS_WIRE_ENTRY_HEADER_SIZE, storage_length, context).

Definition iree_net_status_wire_commit_entry (storage_length : Z) (context : iree_net_status_wire_serialize_context_t) :
    iree_net_status_wire_serialize_context_t :=
  mk_wire_context (wc_data context) (wc_capacity context)
    (wc_offset context +64 (IREE_NET_STATUS_WIRE_ENTRY_HEADER_SIZE +64 storage_length)) (wrap 16 (wc_entry_count context + 1)).

Definition iree_net_status_wire_write_text_entry (type aux : Z) (text : list Z) (context : iree_net_status_wire_serialize_context_t) :
    status_or iree_net_status_wire_serialize_context_t :=
  if bool_decide (0 ∈ text) then Err IREE_STATUS_INVALID_ARGUMENT
  else
    '(output_text, storage_length, context) ← iree_net_status_wire_begin_entry type aux (byte_length text) context;
    Ok (iree_net_status_wire_commit_entry storage_length (store_at output_text text context)).

Definition payload_entry_type (p : iree_status_payload_t) : Z :=
  if pl_type p =? IREE_STATUS_PAYLOAD_TYPE_STACK_TRACE then IREE_NET_STATUS_WIRE_ENTRY_TYPE_STACK_TRACE
  else IREE_NET_STATUS_WIRE_ENTRY_TYPE_ANNOTATION.

Definition iree_net_status_wire_serialize_payload (p : iree_status_payload_t) (context : iree_net_status_wire_serialize_context_t) :
    status_or iree_net_status_wire_serialize_context_t :=
  let '(text_length, _) := iree_status_payload_format p 0 in
  if text_length =? 0 then Ok context
  else
    '(output_text, storage_length, context) ← iree_net_status_wire_begin_entry (payload_entry_type p) 0 text_length context;
    let '(written_length, written) := iree_status_payload_format p storage_length in
    let context := store_at output_text written context in
    if negb (written_length =? text_length) then Err IREE_STATUS_DATA_LOSS
    else if bool_decide (0 ∈ take (Z.to_nat text_length) (drop (Z.to_nat output_text) (wc_data context))) then
      Err IREE_STATUS_INVALID_ARGUMENT
    else
      let context := store_at (output_text + text_length) (replicate (Z.to_nat (storage_length -64 text_length)) 0) context in
      Ok (iree_net_status_wire_commit_entry storage_length context).

(** The buffer after a successful call; [None] is a null pointer. *)
Definition iree_net_status_wire_serialize (s : status_t) (buffer : option (list Z)) : status_or (list Z) :=
  required_size ← iree_net_status_wire_calculate_size s;
  match buffer with
  | None => Err IREE_STATUS_INVALID_ARGUMENT
  | Some data =>
      if byte_length data <? required_size then Err IREE_STATUS_RESOURCE_EXHAUSTED
      else
        let data := write_bytes 0 (replicate (Z.to_nat required_size) 0) data in
        let context := mk_wire_context data required_size IREE_NET_STATUS_WIRE_HEADER_SIZE 0 in
        context ←
          (if iree_status_is_ok s then Ok context
           else
             context ←
               match iree_status_source_location s with
               | (Some (c :: file), line) =>
                   iree_net_status_wire_write_text_entry IREE_NET_STATUS_WIRE_ENTRY_TYPE_SOURCE_LOCATION line (c :: file) context
               | _ => Ok context
               end;
             context ←
               (if byte_length (iree_status_message s) =? 0 then Ok context
                else iree_net_status_wire_write_text_entry IREE_NET_STATUS_WIRE_ENTRY_TYPE_MESSAGE 0 (iree_status_message s) context);
             iree_status_enumerate_payloads iree_net_status_wire_serialize_payload s context);
        if negb (wc_offset context =? required_size) then Err IREE_STATUS_DATA_LOSS
        else
          let context := store_at 0 [IREE_NET_STATUS_WIRE_VERSION] context in
          let context := store_at 1 [wrap 8 (st_code s)] context in
          let context := store_at 2 (iree_unaligned_store_le_u16 (wc_entry_count context)) context in
          let context := store_at 4 (iree_unaligned_store_le_u32 (wrap 32 required_size)) context in
          Ok (wc_data context)
  end.

(** ** Reading *)

Record iree_net_status_wire_parse_result_t := mk_parse_result {
  pr_status_code : Z;
  pr_entry_count : Z;
  pr_source_file : list Z;
  pr_source_line : Z;
  pr_message : list Z;
}.

(** The locals of the validation loop. *)
Record validate_state := mk_validate_state {
  vs_has_source : bool;
  vs_has_message : bool;
  vs_has_diagnostics : bool;
  vs_source_file : list Z;
  vs_source_line : Z;
  vs_message : list Z;
}.

Definition byte_at (data : list Z) (offset : Z) : Z := nth (Z.to_nat offset) data 0.
Definition text_at (data : list Z) (offset length : Z) : list Z := take (Z.to_nat length) (drop (Z.to_nat offset) data).

(** The switch over the type of an entry. *)
Definition validate_entry_type (type text_length aux : Z) (text_view : list Z) (st : validate_state) : status_or validate_state :=
  let '(mk_validate_state has_source has_message has_diagnostics source_file source_line message) := st in
  if type =? IREE_NET_STATUS_WIRE_ENTRY_TYPE_SOURCE_LOCATION then
    if has_source || has_message || has_diagnostics then Err IREE_STATUS_INVALID_ARGUMENT
    else Ok (mk_validate_state true has_message has_diagnostics text_view aux message)
  else if type =? IREE_NET_STATUS_WIRE_ENTRY_TYPE_MESSAGE then
    if negb (aux =? 0) || has_message || has_diagnostics then Err IREE_STATUS_INVALID_ARGUMENT
    else Ok (mk_validate_state has_source true has_diagnostics source_file source_line text_view)
  else if (type =? IREE_NET_STATUS_WIRE_ENTRY_TYPE_ANNOTATION) || (type =? IREE_NET_STATUS_WIRE_ENTRY_TYPE_STACK_TRACE) then
    if negb (aux =? 0) || (INT_MAX <? text_length) then Err IREE_STATUS_INVALID_ARGUMENT
    else Ok (mk_validate_state has_source has_message true source_file source_line message)
  else Err IREE_STATUS_INVALID_ARGUMENT.

(** One iteration of the validation loop: the offset of the next entry. *)
Definition validate_entry (data : list Z) (total_size offset : Z) (st : validate_state) : status_or (Z * validate_state) :=
  if (total_size <? offset) || (total_size -64 offset <? IREE_NET_STATUS_WIRE_ENTRY_HEADER_SIZE) then Err IREE_STATUS_INVALID_ARGUMENT
  else
    let entry := Z.to_nat offset in
    let type := byte_at data offset in
    let flags := byte_at data (offset + 1) in
    let reserved_0 := iree_unaligned_load_le_u16 data (entry + 2) in
    let text_length := iree_unaligned_load_le_u32 data (entry + 4) in
    let aux := iree_unaligned_load_le_u32 data (entry + 8) in
    let reserved_1 := iree_unaligned_load_le_u32 data (entry + 12) in
    if negb (flags =? 0) || negb (reserved_0 =? 0) || negb (reserved_1 =? 0) then Err IREE_STATUS_INVALID_ARGUMENT
    else
      match iree_net_status_wire_calculate_entry_layout text_length with
      | Err _ => Err IREE_STATUS_INVALID_ARGUMENT
      | Ok (storage_length, entry_size) =>
          if total_size -64 offset <? entry_size then Err IREE_STATUS_INVALID_ARGUMENT
          else
            let text := offset + IREE_NET_STATUS_WIRE_ENTRY_HEADER_SIZE in
            if bool_decide (0 ∈ text_at data text text_length) then Err IREE_STATUS_INVALID_ARGUMENT
            else if negb (forallb (Z.eqb 0) (text_at data (text + text_length) (storage_length - text_length))) then
              Err IREE_STATUS_INVALID_ARGUMENT
            else
              st ← validate_entry_type type text_length aux (text_at data text text_length) st;
              Ok (offset +64 entry_size, st)
      end.

Fixpoint validate_entries (data : list Z) (total_size : Z) (entry_count : nat) (offset : Z) (st : validate_state) :
    status_or (Z * validate_state) :=
  match entry_count with
  | 0%nat => Ok (offset, st)
  | S entry_count => '(offset, st) ← validate_entry data total_size offset st; validate_entries data total_size entry_count offset st
  end.

Definition iree_net_status_wire_validate (data : list Z) : status_or iree_net_status_wire_parse_result_t :=
  if byte_length data <? IREE_NET_STATUS_WIRE_HEADER_SIZE then Err IREE_STATUS_INVALID_ARGUMENT
  else
    let version := byte_at data 0 in
    let status_code := byte_at data 1 in
    let entry_count := iree_unaligned_load_le_u16 data 2 in
    let total_size := iree_unaligned_load_le_u32 data 4 in
    if negb (version =? IREE_NET_STATUS_WIRE_VERSION) then Err IREE_STATUS_INVALID_ARGUMENT
    else if IREE_STATUS_CODE_MASK <? status_code then Err IREE_STATUS_INVALID_ARGUMENT
    else if negb (total_size =? byte_length data) then Err IREE_STATUS_INVALID_ARGUMENT
    else if negb (total_size mod IREE_NET_STATUS_WIRE_ALIGNMENT =? 0) then Err IREE_STATUS_INVALID_ARGUMENT
    else if (status_code =? 0) && negb (entry_count =? 0) then Err IREE_STATUS_INVALID_ARGUMENT
    else
      '(offset, st) ← validate_entries data total_size (Z.to_nat entry_count) IREE_NET_STATUS_WIRE_HEADER_SIZE
                        (mk_validate_state false false false [] 0 []);
      if negb (offset =? total_size) then Err IREE_STATUS_INVALID_ARGUMENT
      else Ok (mk_parse_result status_code entry_count (vs_source_file st) (vs_source_line st) (vs_message st)).

(** The annotation loop; [host i] serves the request of its call [i]. *)
Fixpoint annotate_entries (host : nat → host_allocator_t) (data : list Z) (entry_count i : nat) (offset : Z) (result : status_t) : status_t :=
  match entry_count with
  | 0%nat => result
  | S entry_count =>
      let type := byte_at data offset in
      let text_length := iree_unaligned_load_le_u32 data (Z.to_nat offset + 4) in
      let entry_size := IREE_NET_STATUS_WIRE_ENTRY_HEADER_SIZE +64 iree_host_align (text_length +64 1) IREE_NET_STATUS_WIRE_ALIGNMENT in
      let result :=
        if (type =? IREE_NET_STATUS_WIRE_ENTRY_TYPE_ANNOTATION) || (type =? IREE_NET_STATUS_WIRE_ENTRY_TYPE_STACK_TRACE) then
          iree_status_annotate_copy (host i) result (text_at data (offset + IREE_NET_STATUS_WIRE_ENTRY_HEADER_SIZE) text_length)
        else result in
      annotate_entries host data entry_count (S i) (offset +64 entry_size) result
  end.

(** The decoded status; [host 0] serves its storage. *)
Definition iree_net_status_wire_deserialize (host : nat → host_allocator_t) (data : list Z) : status_or status_t :=
  parse_result ← iree_net_status_wire_validate data;
  if pr_status_code parse_result =? 0 then Ok iree_ok_status
  else
    let result :=
      iree_status_allocate_copy (host 0%nat) (pr_status_code parse_result) (pr_source_file parse_result)
        (pr_source_line parse_result) (pr_message parse_result) in
    Ok (annotate_entries host data (Z.to_nat (pr_entry_count parse_result)) 1 IREE_NET_STATUS_WIRE_HEADER_SIZE result).
