(* ===== verification/StatusWrite.v ===== *)
(** * The encoding of statuses

    A reference encoding of the entries of a status, and that sizing and serialization
    produce exactly this encoding or the error that is due. *)

From S2P Require Import Prelude BaseMath WireBytes ReceiveQueue FrameInvariant StatusWire.
From stdpp Require Import base numbers list list_numbers.

Local Open Scope Z_scope.
Local Open Scope machine_scope.

(** ** Reference encoding *)

Record entry := mk_entry {
  en_type : Z;
  en_aux : Z;
  en_text : list Z;
}.

(** A text with its terminator and padding. *)
Definition storage_size (text : list Z) : Z := round_up (byte_length text + 1) 8.

Definition entry_size (e : entry) : Z := 16 + storage_size (en_text e).

Definition encode_entry (e : entry) : list Z :=
  [en_type e; 0; 0; 0] ++ le_bytes 4 (byte_length (en_text e)) ++ le_bytes 4 (en_aux e) ++ [0; 0; 0; 0] ++
  en_text e ++ replicate (Z.to_nat (storage_size (en_text e) - byte_length (en_text e))) 0.

Definition encode_entries (es : list entry) : list Z := concat (encode_entry <$> es).

Definition entries_size (es : list entry) : Z := foldr (λ e n, entry_size e + n) 0 es.

Definition encode_status (code : Z) (es : list entry) : list Z :=
  [1; code] ++ le_bytes 2 (Z.of_nat (length es)) ++ le_bytes 4 (8 + entries_size es) ++ encode_entries es.

(** What a formatter promises: a length that is the same in every call, and the text when
    the buffer has room for it and a terminator. *)
Definition formats (p : iree_status_payload_t) (text : list Z) : Prop :=
  (iree_status_payload_format p 0).1 = byte_length text ∧
  ∀ capacity, byte_length text < capacity →
    ∃ rest, iree_status_payload_format p capacity = (byte_length text, text ++ rest) ∧ byte_length (text ++ rest) <= capacity.

Lemma message_formats message : formats (message_payload message) message.
Proof.
  split; [done|]. intros capacity H. exists [0]. unfold iree_status_payload_format, message_payload. cbn [pl_formatter].
  unfold iree_status_payload_message_formatter, byte_length in *.
  rewrite (proj2 (Z.ltb_lt 0 capacity)), Z.min_l, Nat2Z.id, firstn_all by lia. split; [done|]. rewrite length_app. cbn. lia.
Qed.

Definition payload_entry (p : iree_status_payload_t) (text : list Z) : list entry :=
  if bool_decide (text = []) then [] else [mk_entry (payload_entry_type p) 0 text].

Definition payload_entries (ps : list iree_status_payload_t) (texts : list (list Z)) : list entry :=
  concat (zip_with payload_entry ps texts).

Definition source_entries (s : status_t) : list entry :=
  match iree_status_source_location s with (Some (c :: file), line) => [mk_entry 1 line (c :: file)] | _ => [] end.

Definition message_entries (s : status_t) : list entry :=
  if bool_decide (iree_status_message s = []) then [] else [mk_entry 2 0 (iree_status_message s)].

Definition status_payloads (s : status_t) : list iree_status_payload_t :=
  match st_storage s with Some storage => ss_payloads storage | None => [] end.

(** The entries of a status whose payloads format as [texts]. *)
Definition status_entries (s : status_t) (texts : list (list Z)) : list entry :=
  if iree_status_is_ok s then [] else source_entries s ++ message_entries s ++ payload_entries (status_payloads s) texts.

(** A status as the library builds it: a failure if it has storage, with a C string as its
    file and texts that fit in memory. *)
Definition status_ok (s : status_t) (texts : list (list Z)) : Prop :=
  0 <= st_code s < 32 ∧ Forall2 formats (status_payloads s) texts ∧ Forall (λ t, in_width 64 (byte_length t)) texts ∧
  match st_storage s with
  | None => True
  | Some storage =>
      st_code s ≠ 0 ∧ 0 <= ss_line storage < 2 ^ 32 ∧ in_width 64 (byte_length (ss_message storage)) ∧
      match ss_file storage with None => True | Some file => in_width 64 (byte_length file) ∧ 0 ∉ file end
  end.

(** The entries have a representation: texts, count and size are within their fields. *)
Definition representable (s : status_t) (texts : list (list Z)) : Prop :=
  Z.of_nat (length (status_entries s texts)) <= umax 16 ∧ 8 + entries_size (status_entries s texts) <= umax 32 ∧
  (iree_status_is_ok s = false → Forall (λ t, byte_length t <= INT_MAX) texts).

#[export] Instance representable_dec s texts : Decision (representable s texts).
Proof. unfold representable. apply _. Defined.

(** ** Sizes *)

Lemma storage_size_spec text : byte_length text < storage_size text <= byte_length text + 8 ∧ (8 | storage_size text).
Proof. unfold storage_size. destruct (round_up_spec (byte_length text + 1) 8 ltac:(lia)) as (H1 & H2 & H3). split; [lia|done]. Qed.

Lemma entry_size_pos e : 16 < entry_size e.
Proof. unfold entry_size. pose proof (storage_size_spec (en_text e)). pose proof (byte_length_nonneg (en_text e)). lia. Qed.

Lemma entries_size_nonneg es : 0 <= entries_size es.
Proof. induction es as [|e es IH]; [done|]. cbn. fold (entries_size es). pose proof (entry_size_pos e). lia. Qed.

Lemma entries_size_app a b : entries_size (a ++ b) = entries_size a + entries_size b.
Proof. induction a as [|e a IH]; [done|]. cbn. fold (entries_size (a ++ b)) (entries_size a). lia. Qed.

Lemma entries_size_aligned es : (8 | entries_size es).
Proof.
  induction es as [|e es IH]; [by exists 0|]. cbn. fold (entries_size es). apply Z.divide_add_r; [|done].
  unfold entry_size. apply Z.divide_add_r; [by exists 2|apply storage_size_spec].
Qed.

Lemma byte_length_le n v : byte_length (le_bytes n v) = Z.of_nat n.
Proof. unfold byte_length. by rewrite length_le_bytes. Qed.

Lemma byte_length_zeros n : 0 <= n → byte_length (replicate (Z.to_nat n) 0) = n.
Proof. unfold byte_length. rewrite length_replicate. lia. Qed.

Lemma byte_length_encode_entry e : byte_length (encode_entry e) = entry_size e.
Proof.
  unfold encode_entry, entry_size. pose proof (storage_size_spec (en_text e)).
  rewrite !byte_length_app, !byte_length_le, byte_length_zeros by lia. unfold byte_length. cbn [length]. lia.
Qed.

Lemma byte_length_encode_entries es : byte_length (encode_entries es) = entries_size es.
Proof.
  induction es as [|e es IH]; [done|]. unfold encode_entries in *. cbn [fmap list_fmap concat]. rewrite byte_length_app, byte_length_encode_entry.
  cbn. by f_equal.
Qed.

Lemma encode_entries_app a b : encode_entries (a ++ b) = encode_entries a ++ encode_entries b.
Proof. unfold encode_entries. by rewrite fmap_app, concat_app. Qed.

Lemma checked_add_some a b : 0 <= a → 0 <= b → a + b < 2 ^ 64 → iree_host_size_checked_add a b = Some (a + b).
Proof. intros. rewrite checked_add_u64_eq by (unfold in_width; lia). unfold checked, umax. by rewrite decide_True by lia. Qed.

Lemma byte_length_pos text : text ≠ [] → 0 < byte_length text.
Proof. destruct text; [done|]. unfold byte_length. cbn. lia. Qed.

Lemma byte_length_zero text : (byte_length text =? 0) = bool_decide (text = []).
Proof. destruct text; [done|]. rewrite bool_decide_false by done. apply Z.eqb_neq. unfold byte_length. cbn. lia. Qed.

(** The layout of an entry. *)
Lemma entry_layout_eq text :
  text ≠ [] →
  iree_net_status_wire_calculate_entry_layout (byte_length text) =
    if decide (byte_length text <= umax 32) then Ok (storage_size text, 16 + storage_size text) else Err IREE_STATUS_OUT_OF_RANGE.
Proof.
  intros Hne%byte_length_pos. unfold iree_net_status_wire_calculate_entry_layout. rewrite (proj2 (Z.eqb_neq _ 0)) by lia.
  case_decide as Hle; [rewrite (proj2 (Z.ltb_ge _ _)) by lia|by rewrite (proj2 (Z.ltb_lt _ _)) by lia].
  pose proof (storage_size_spec text) as [Hs _]. unfold umax in *. rewrite checked_add_some by lia. cbn [mbind option_bind].
  change IREE_NET_STATUS_WIRE_ALIGNMENT with (2 ^ 3). rewrite checked_align_eq by (unfold in_width; lia).
  rewrite decide_True by lia. cbn [mbind option_bind]. change (round_up _ (2 ^ 3)) with (storage_size text).
  by rewrite checked_add_some by (unfold IREE_NET_STATUS_WIRE_ENTRY_HEADER_SIZE; lia).
Qed.

(** The layout after some entries, while they have a representation. *)
Definition layout_of (es : list entry) : iree_net_status_wire_layout_t := mk_wire_layout (8 + entries_size es) (Z.of_nat (length es)).

Definition fits (es : list entry) : Prop := Z.of_nat (length es) <= umax 16 ∧ 8 + entries_size es <= umax 32.

#[export] Instance fits_dec es : Decision (fits es).
Proof. unfold fits. apply _. Defined.

Lemma fits_prefix a b : fits (a ++ b) → fits a.
Proof. unfold fits. rewrite length_app, entries_size_app. pose proof (entries_size_nonneg b). lia. Qed.

Lemma fits_text es e : fits (es ++ [e]) → byte_length (en_text e) <= umax 32.
Proof.
  unfold fits. rewrite entries_size_app. cbn. unfold entry_size. pose proof (entries_size_nonneg es).
  pose proof (storage_size_spec (en_text e)). lia.
Qed.

(** What sizing returns for entries appended to those that it has counted. *)
Definition sized (es : list entry) : status_or iree_net_status_wire_layout_t :=
  if decide (fits es) then Ok (layout_of es) else Err IREE_STATUS_OUT_OF_RANGE.

Lemma sized_ok es : fits es → Ok (layout_of es) = sized es.
Proof. intros. unfold sized. by rewrite decide_True. Qed.

Lemma sized_bind es es' {A} (k : iree_net_status_wire_layout_t → status_or A) (r : status_or A) :
  (fits es → k (layout_of es) = r) → (¬ fits es → r = Err IREE_STATUS_OUT_OF_RANGE) → es' = es → (sized es' ≫= k) = r.
Proof. intros Hk Hr ->. unfold sized. case_decide; cbn [mbind status_or_bind]; [by apply Hk|]. symmetry. by apply Hr. Qed.

Lemma entries_size_snoc es e : entries_size (es ++ [e]) = entries_size es + (16 + storage_size (en_text e)).
Proof. rewrite entries_size_app. cbn. unfold entry_size. lia. Qed.

Lemma length_snoc (es : list entry) e : Z.of_nat (length (es ++ [e])) = Z.of_nat (length es) + 1.
Proof. rewrite length_app. cbn. lia. Qed.

Lemma add_entry_eq es e :
  en_text e ≠ [] → fits es → iree_net_status_wire_layout_add_entry (byte_length (en_text e)) (layout_of es) = sized (es ++ [e]).
Proof.
  intros Hne [Hc Hs]. unfold iree_net_status_wire_layout_add_entry, sized. cbn [layout_of wl_entry_count wl_total_size].
  pose proof (entries_size_nonneg es). pose proof (entries_size_snoc es e) as Hsz. pose proof (length_snoc es e) as Hlen.
  pose proof (storage_size_spec (en_text e)) as [Hst _]. pose proof (byte_length_nonneg (en_text e)).
  assert (fits (es ++ [e]) ↔ Z.of_nat (length es) < umax 16 ∧ 8 + (entries_size es + (16 + storage_size (en_text e))) <= umax 32) as Hfit
    by (unfold fits; rewrite Hsz, Hlen; lia).
  rewrite entry_layout_eq by done. unfold umax in *.
  destruct (Z.eqb_spec (Z.of_nat (length es)) (2 ^ 16 - 1)); [by rewrite decide_False by (rewrite Hfit; lia)|].
  destruct (decide (byte_length (en_text e) <= _)); [|by rewrite decide_False by (rewrite Hfit; lia)]. cbn [mbind status_or_bind].
  rewrite checked_add_some by lia.
  destruct (Z.ltb_spec (2 ^ 32 - 1) (8 + entries_size es + (16 + storage_size (en_text e)))); [by rewrite decide_False by (rewrite Hfit; lia)|].
  rewrite decide_True by (rewrite Hfit; lia). rewrite wrap_small by (unfold in_width; lia). unfold layout_of. rewrite Hsz, Hlen. do 2 f_equal. lia.
Qed.

Lemma size_payload_eq es p text :
  formats p text → fits es →
  iree_net_status_wire_size_payload p (layout_of es) =
    if decide (byte_length text <= INT_MAX) then sized (es ++ payload_entry p text) else Err IREE_STATUS_OUT_OF_RANGE.
Proof.
  intros [Hf _] Hfit. unfold iree_net_status_wire_size_payload, payload_entry.
  destruct (iree_status_payload_format p 0) as [n w]. cbn in Hf. subst n. rewrite byte_length_zero. case_bool_decide as Hne.
  - subst. rewrite app_nil_r, decide_True by done. by apply sized_ok.
  - destruct (Z.ltb_spec INT_MAX (byte_length text)); [by rewrite decide_False by lia|]. rewrite decide_True by lia.
    by apply (add_entry_eq es (mk_entry (payload_entry_type p) 0 text)).
Qed.

Lemma size_payloads_eq ps texts : ∀ es,
  Forall2 formats ps texts → fits es →
  visit_payloads iree_net_status_wire_size_payload ps (layout_of es) =
    if decide (Forall (λ t, byte_length t <= INT_MAX) texts) then sized (es ++ payload_entries ps texts) else Err IREE_STATUS_OUT_OF_RANGE.
Proof.
  intros es Hf. revert es. induction Hf as [|p text ps texts Hp Hps IH]; intros es Hfit.
  - unfold payload_entries. cbn [visit_payloads zip_with concat]. rewrite app_nil_r, decide_True by constructor. by apply sized_ok.
  - cbn [visit_payloads]. rewrite (size_payload_eq es p text) by done.
    change (payload_entries (p :: ps) (text :: texts)) with (payload_entry p text ++ payload_entries ps texts). rewrite app_assoc.
    destruct (decide (byte_length text <= INT_MAX)); [|by rewrite decide_False by (rewrite Forall_cons; tauto)].
    apply (sized_bind (es ++ payload_entry p text)); [intros Hd| |done].
    + rewrite IH by done. apply decide_ext. rewrite Forall_cons. tauto.
    + clear IH. intros Hd. case_decide; [|done]. unfold sized. rewrite decide_False; [done|]. by intros ?%fits_prefix.
Qed.

(** The locations and messages of a status are sized as its first entries. *)
Lemma size_source_eq s es :
  fits es →
  match iree_status_source_location s with
  | (Some (c :: file), _) => iree_net_status_wire_layout_add_entry (byte_length (c :: file)) (layout_of es)
  | _ => Ok (layout_of es)
  end = sized (es ++ source_entries s).
Proof.
  intros Hfit. unfold source_entries. destruct (iree_status_source_location s) as [[[|c file]|] line];
    [rewrite app_nil_r; by apply sized_ok| |rewrite app_nil_r; by apply sized_ok].
  by apply (add_entry_eq es (mk_entry 1 line (c :: file))).
Qed.

Lemma size_message_eq s es :
  fits es →
  (if byte_length (iree_status_message s) =? 0 then Ok (layout_of es)
   else iree_net_status_wire_layout_add_entry (byte_length (iree_status_message s)) (layout_of es)) = sized (es ++ message_entries s).
Proof.
  intros Hfit. unfold message_entries. rewrite byte_length_zero. case_bool_decide as Hm; [rewrite app_nil_r; by apply sized_ok|].
  by apply (add_entry_eq es (mk_entry 2 0 (iree_status_message s))).
Qed.

Lemma enumerate_payloads_eq {A} (visitor : iree_status_payload_t → A → status_or A) s a :
  iree_status_enumerate_payloads visitor s a = visit_payloads visitor (status_payloads s) a.
Proof. unfold iree_status_enumerate_payloads, status_payloads. by destruct (st_storage s). Qed.

Lemma status_entries_ok s texts : iree_status_is_ok s = true → status_entries s texts = [].
Proof. intros H. unfold status_entries. by rewrite H. Qed.

Lemma status_entries_failure s texts :
  iree_status_is_ok s = false →
  status_entries s texts = (source_entries s ++ message_entries s) ++ payload_entries (status_payloads s) texts.
Proof. intros H. unfold status_entries. by rewrite H, app_assoc. Qed.

Lemma representable_iff s texts :
  representable s texts ↔
    fits (status_entries s texts) ∧ (iree_status_is_ok s = false → Forall (λ t, byte_length t <= INT_MAX) texts).
Proof. unfold representable, fits. tauto. Qed.

(** The size is exactly that of the encoding, or the status has none. *)
Lemma calculate_size_eq s texts :
  status_ok s texts →
  iree_net_status_wire_calculate_size s =
    if decide (representable s texts) then Ok (8 + entries_size (status_entries s texts)) else Err IREE_STATUS_OUT_OF_RANGE.
Proof.
  intros (_ & Hps & _ & _). unfold iree_net_status_wire_calculate_size. pose proof (representable_iff s texts) as Hrep.
  change (mk_wire_layout IREE_NET_STATUS_WIRE_HEADER_SIZE 0) with (layout_of []).
  destruct (iree_status_is_ok s) eqn:Hok.
  { rewrite status_entries_ok in * by done. by rewrite decide_True by (apply Hrep; done). }
  rewrite status_entries_failure in * by done. rewrite size_source_eq by done. cbn [app].
  set (es := (source_entries s ++ message_entries s) ++ payload_entries (status_payloads s) texts) in *.
  set (r := if decide (Forall (λ t, byte_length t <= INT_MAX) texts) then sized es else Err IREE_STATUS_OUT_OF_RANGE).
  assert (¬ fits es → r = Err IREE_STATUS_OUT_OF_RANGE) as Hno.
  { intros Hn. unfold r, sized. case_decide; [|done]. by rewrite decide_False. }
  rewrite (sized_bind (source_entries s) _ _ r);
    [|intros Hs|intros Hs; apply Hno; unfold es; rewrite <- app_assoc; by intros ?%fits_prefix|done].
  { unfold r, sized. repeat case_decide; cbn [mbind status_or_bind]; try done; tauto. }
  rewrite size_message_eq by done.
  apply (sized_bind (source_entries s ++ message_entries s)); [intros Hm|intros Hm; apply Hno; unfold es; by intros ?%fits_prefix|done].
  by rewrite enumerate_payloads_eq, (size_payloads_eq _ texts) by done.
Qed.

(** ** Writing entries *)

(** A context whose output holds [pre], then [k] zeros to fill, then bytes out of reach. *)
Definition context_at (pre : list Z) (k : nat) (rest : list Z) (n : Z) : iree_net_status_wire_serialize_context_t :=
  mk_wire_context (pre ++ replicate k 0 ++ rest) (byte_length pre + Z.of_nat k) (byte_length pre) n.

Definition entry_header (e : entry) : list Z :=
  [en_type e; 0; 0; 0] ++ le_bytes 4 (byte_length (en_text e)) ++ le_bytes 4 (en_aux e) ++ [0; 0; 0; 0].

Definition entry_padding (e : entry) : list Z := replicate (Z.to_nat (storage_size (en_text e) - byte_length (en_text e))) 0.

Lemma encode_entry_split e : encode_entry e = entry_header e ++ en_text e ++ entry_padding e.
Proof. unfold encode_entry, entry_header, entry_padding. by rewrite <- !app_assoc. Qed.

Lemma length_entry_header e : length (entry_header e) = 16%nat.
Proof. unfold entry_header. rewrite !length_app, !length_le_bytes. done. Qed.

Lemma byte_length_entry_header e : byte_length (entry_header e) = 16.
Proof. unfold byte_length. by rewrite length_entry_header. Qed.

Lemma write_bytes_app offset before bytes old after :
  offset = length before → length old = length bytes → write_bytes offset bytes (before ++ old ++ after) = before ++ bytes ++ after.
Proof.
  intros -> Hl. unfold write_bytes. rewrite take_app_length, <- Hl. by rewrite <- drop_drop, drop_app_length, drop_app_length.
Qed.

Lemma byte_length_to_nat bytes n : Z.to_nat (byte_length bytes + Z.of_nat n) = (length bytes + n)%nat.
Proof. unfold byte_length. lia. Qed.

Lemma write_header pre k rest e :
  (16 <= k)%nat →
  write_bytes (length pre + 8) (le_bytes 4 (en_aux e))
    (write_bytes (length pre + 4) (le_bytes 4 (byte_length (en_text e))) (write_bytes (length pre) [en_type e] (pre ++ replicate k 0 ++ rest))) =
  pre ++ entry_header e ++ replicate (k - 16) 0 ++ rest.
Proof.
  intros Hk.
  assert (replicate k 0 = [0] ++ [0; 0; 0] ++ replicate 4 0 ++ replicate 4 0 ++ [0; 0; 0; 0] ++ replicate (k - 16) 0) as ->.
  { change [0; 0; 0; 0] with (replicate 4 0). change [0; 0; 0] with (replicate 3 0). change [0] with (replicate 1 0).
    rewrite <- !replicate_add. f_equal. lia. }
  rewrite <- !app_assoc. rewrite (write_bytes_app _ pre [en_type e] [0]) by done.
  rewrite (app_assoc pre), (app_assoc (pre ++ _)), (write_bytes_app _ (_ ++ [0; 0; 0]) _ (replicate 4 0)) by (rewrite ?length_app, ?length_le_bytes; cbn; lia).
  rewrite (app_assoc _ (le_bytes _ _)), (write_bytes_app _ (_ ++ le_bytes _ _) _ (replicate 4 0)) by (rewrite ?length_app, ?length_le_bytes; cbn; lia).
  unfold entry_header. by rewrite <- !app_assoc.
Qed.

(** There is room for the entry, whose text is representable. *)
Definition has_room (e : entry) (pre : list Z) (k : nat) (n : Z) : Prop :=
  en_text e ≠ [] ∧ byte_length (en_text e) <= umax 32 ∧ entry_size e <= Z.of_nat k ∧ 0 <= n < umax 16 ∧
  byte_length pre + Z.of_nat k <= umax 32.

Lemma begin_entry_eq e pre k rest n :
  has_room e pre k n →
  iree_net_status_wire_begin_entry (en_type e) (en_aux e) (byte_length (en_text e)) (context_at pre k rest n) =
    Ok (byte_length pre + 16, storage_size (en_text e),
        mk_wire_context (pre ++ entry_header e ++ replicate (k - 16) 0 ++ rest) (byte_length pre + Z.of_nat k) (byte_length pre) n).
Proof.
  intros (Hne & Hlen & Hk & Hn & Hb). pose proof (entry_size_pos e) as Hpos. pose proof (byte_length_nonneg pre).
  unfold iree_net_status_wire_begin_entry. cbn [context_at wc_entry_count wc_capacity wc_offset].
  rewrite (proj2 (Z.eqb_neq _ _)) by lia. rewrite entry_layout_eq, decide_True by done. cbn [mbind status_or_bind].
  unfold umax in *. rewrite usub_small by (unfold in_width; lia).
  rewrite (proj2 (Z.ltb_ge _ _)) by (change (16 + storage_size (en_text e)) with (entry_size e); lia).
  unfold store_at. cbn [wc_data wc_capacity wc_offset wc_entry_count]. do 3 f_equal.
  change (byte_length pre + 4) with (byte_length pre + Z.of_nat 4). change (byte_length pre + 8) with (byte_length pre + Z.of_nat 8).
  rewrite !byte_length_to_nat, <- length_byte_length. apply write_header. lia.
Qed.

Lemma replicate_split (a b : nat) : (a <= b)%nat → replicate b 0 = replicate a 0 ++ replicate (b - a) 0.
Proof. intros. rewrite <- replicate_add. f_equal. lia. Qed.

(** The context after an entry. *)
Definition context_after (e : entry) (pre : list Z) (k : nat) (rest : list Z) (n : Z) : iree_net_status_wire_serialize_context_t :=
  context_at (pre ++ encode_entry e) (k - Z.to_nat (entry_size e)) rest (n + 1).

Lemma commit_entry_eq e pre k rest n :
  has_room e pre k n →
  iree_net_status_wire_commit_entry (storage_size (en_text e))
    (mk_wire_context (pre ++ encode_entry e ++ replicate (k - Z.to_nat (entry_size e)) 0 ++ rest) (byte_length pre + Z.of_nat k) (byte_length pre) n) =
  context_after e pre k rest n.
Proof.
  intros (Hne & Hlen & Hk & Hn & Hb). pose proof (entry_size_pos e). pose proof (byte_length_nonneg pre).
  unfold iree_net_status_wire_commit_entry, context_after, context_at, IREE_NET_STATUS_WIRE_ENTRY_HEADER_SIZE. cbn [wc_data wc_capacity wc_offset wc_entry_count].
  rewrite byte_length_app, byte_length_encode_entry, <- app_assoc. unfold umax, entry_size in *.
  rewrite (uadd_small 64 16) by (unfold in_width; lia). rewrite uadd_small by (unfold in_width; lia). rewrite wrap_small by (unfold in_width; lia).
  f_equal. lia.
Qed.

Lemma encoded_split e pre k rest :
  entry_size e <= Z.of_nat k →
  pre ++ entry_header e ++ en_text e ++ replicate (k - 16 - length (en_text e)) 0 ++ rest =
  pre ++ encode_entry e ++ replicate (k - Z.to_nat (entry_size e)) 0 ++ rest.
Proof.
  intros Hk. rewrite encode_entry_split, <- !app_assoc. unfold entry_padding. do 3 f_equal. rewrite app_assoc. f_equal.
  pose proof (storage_size_spec (en_text e)). unfold entry_size, byte_length in *. rewrite <- replicate_add. f_equal. lia.
Qed.

Lemma write_text_entry_eq e pre k rest n :
  has_room e pre k n →
  iree_net_status_wire_write_text_entry (en_type e) (en_aux e) (en_text e) (context_at pre k rest n) =
    if decide (0 ∈ en_text e) then Err IREE_STATUS_INVALID_ARGUMENT else Ok (context_after e pre k rest n).
Proof.
  intros Hr. unfold iree_net_status_wire_write_text_entry. destruct (decide (0 ∈ en_text e)); [by rewrite bool_decide_true|].
  rewrite bool_decide_false, begin_entry_eq by done. cbn [mbind status_or_bind]. f_equal.
  rewrite <- commit_entry_eq by done. destruct Hr as (_ & _ & Hk & _). f_equal. rewrite <- encoded_split by done.
  unfold store_at. cbn [wc_data wc_capacity wc_offset wc_entry_count]. f_equal.
  pose proof (storage_size_spec (en_text e)). unfold entry_size, byte_length in *.
  rewrite (replicate_split (length (en_text e)) (k - 16)) by lia. rewrite <- app_assoc, app_assoc.
  rewrite write_bytes_app; [by rewrite <- app_assoc| |by rewrite length_replicate].
  rewrite length_app, length_entry_header. lia.
Qed.

(** A formatter that writes past the text is overwritten by the padding. *)
Lemma format_and_pad e pre k rest written :
  entry_size e <= Z.of_nat k → byte_length (en_text e ++ written) <= storage_size (en_text e) →
  let formatted := write_bytes (length pre + 16) (en_text e ++ written) (pre ++ entry_header e ++ replicate (k - 16) 0 ++ rest) in
  text_at formatted (byte_length pre + 16) (byte_length (en_text e)) = en_text e ∧
  write_bytes (length pre + 16 + length (en_text e)) (entry_padding e) formatted =
    pre ++ encode_entry e ++ replicate (k - Z.to_nat (entry_size e)) 0 ++ rest.
Proof.
  intros Hk Hw formatted. unfold byte_length in Hw. rewrite length_app in Hw. pose proof (storage_size_spec (en_text e)) as [Hs _].
  unfold entry_size, byte_length in *.
  assert (formatted = (pre ++ entry_header e) ++ en_text e ++ written ++ replicate (k - 16 - length (en_text e ++ written)) 0 ++ rest) as ->.
  { unfold formatted. rewrite (replicate_split (length (en_text e ++ written)) (k - 16)) by (rewrite length_app; lia).
    rewrite <- app_assoc, app_assoc. rewrite write_bytes_app; [by rewrite <- !app_assoc| |by rewrite length_replicate].
    by rewrite length_app, length_entry_header. }
  split.
  { unfold text_at. rewrite drop_app_length' by (rewrite length_app, length_entry_header; lia). apply take_app_length'. lia. }
  rewrite encode_entry_split, <- !app_assoc. unfold entry_padding, byte_length.
  rewrite (replicate_split (Z.to_nat (storage_size (en_text e)) - length (en_text e) - length written) (k - 16 - length (en_text e ++ written)))
    by (rewrite length_app; lia).
  rewrite <- app_assoc, (app_assoc written), !(app_assoc _ _ ((written ++ _) ++ _)).
  rewrite write_bytes_app; [| |rewrite length_app, !length_replicate; lia].
  - rewrite <- !app_assoc. do 5 f_equal. rewrite length_app. unfold entry_size. f_equal. lia.
  - rewrite !length_app, length_entry_header. lia.
Qed.

Lemma serialize_payload_eq p text pre k rest n :
  formats p text → text ≠ [] → let e := mk_entry (payload_entry_type p) 0 text in
  has_room e pre k n →
  iree_net_status_wire_serialize_payload p (context_at pre k rest n) =
    if decide (0 ∈ text) then Err IREE_STATUS_INVALID_ARGUMENT else Ok (context_after e pre k rest n).
Proof.
  intros [Hf Hformat] Hne e Hr. unfold iree_net_status_wire_serialize_payload. destruct (iree_status_payload_format p 0) as [l0 w0].
  cbn in Hf. subst l0. rewrite byte_length_zero, bool_decide_false by done.
  pose proof (begin_entry_eq e pre k rest n Hr) as Hbegin. cbn [en_type en_aux en_text e] in Hbegin. rewrite Hbegin. cbn [mbind status_or_bind].
  pose proof (storage_size_spec text) as [Hs _]. destruct (Hformat (storage_size text) ltac:(lia)) as (written & -> & Hw).
  rewrite Z.eqb_refl. cbn [negb]. assert (entry_size e <= Z.of_nat k) as Hk by apply Hr.
  destruct (format_and_pad e pre k rest written Hk Hw) as [Htext Hpad]. cbn [en_text e] in Htext, Hpad.
  assert (Z.to_nat (byte_length pre + 16) = (length pre + 16)%nat) as Ho by (unfold byte_length; lia).
  unfold store_at. cbn [wc_data wc_capacity wc_offset wc_entry_count]. unfold text_at in Htext. rewrite Ho in Htext |- *. rewrite Htext.
  destruct (decide (0 ∈ text)); [by rewrite bool_decide_true|]. rewrite bool_decide_false by done. f_equal. rewrite <- commit_entry_eq by done.
  f_equal. f_equal. rewrite <- Hpad. replace (Z.to_nat (byte_length pre + 16 + byte_length text)) with (length pre + 16 + length text)%nat
    by (unfold byte_length; lia).
  unfold entry_padding. cbn [en_text e]. do 3 f_equal. pose proof (byte_length_nonneg text).
  destruct Hr as (_ & Hlen & _ & _ & Hb). cbn [en_text e] in Hlen. unfold umax in *. rewrite usub_small by (unfold in_width; lia). done.
Qed.

(** ** Writing a status *)

Definition nul_free (e : entry) : Prop := 0 ∉ en_text e.

#[export] Instance nul_free_dec e : Decision (nul_free e).
Proof. unfold nul_free. apply _. Defined.

(** Entries are written in order into space that was sized for all of them. *)
Section write_entries.
Context (es : list entry) (rest : list Z).
Hypothesis Hfits : fits es.
Hypothesis Htexts : Forall (λ e, en_text e ≠ []) es.

Definition context_of (prior : list entry) : iree_net_status_wire_serialize_context_t :=
  context_at (replicate 8 0 ++ encode_entries prior) (Z.to_nat (entries_size es - entries_size prior)) rest (Z.of_nat (length prior)).

(** What writing [todo] after [prior] returns. *)
Definition wrote (prior todo : list entry) : status_or iree_net_status_wire_serialize_context_t :=
  if decide (Forall nul_free todo) then Ok (context_of (prior ++ todo)) else Err IREE_STATUS_INVALID_ARGUMENT.

Lemma wrote_nil prior : Ok (context_of prior) = wrote prior [].
Proof. unfold wrote. by rewrite app_nil_r, decide_True by constructor. Qed.

Lemma wrote_bind {B} prior todo k (r : status_or B) (f : iree_net_status_wire_serialize_context_t → status_or B) :
  (k = wrote prior todo) → (Forall nul_free todo → f (context_of (prior ++ todo)) = r) →
  (¬ Forall nul_free todo → r = Err IREE_STATUS_INVALID_ARGUMENT) → (k ≫= f) = r.
Proof. intros -> Hf Hr. unfold wrote. case_decide; cbn [mbind status_or_bind]; [by apply Hf|]. symmetry. by apply Hr. Qed.

Lemma room_for prior e todo :
  prior ++ e :: todo = es →
  has_room e (replicate 8 0 ++ encode_entries prior) (Z.to_nat (entries_size es - entries_size prior)) (Z.of_nat (length prior)).
Proof.
  intros He. destruct Hfits as [Hc Hs]. rewrite <- He in Htexts, Hc, Hs |- *. rewrite Forall_app, Forall_cons in Htexts.
  destruct Htexts as (_ & Hne & _). rewrite length_app in Hc. cbn [length] in Hc. rewrite entries_size_app in *. cbn [entries_size foldr] in *.
  fold (entries_size todo) in *. pose proof (entries_size_nonneg prior). pose proof (entries_size_nonneg todo). pose proof (entry_size_pos e).
  pose proof (storage_size_spec (en_text e)). assert (byte_length (en_text e) <= umax 32) by (unfold entry_size in *; lia).
  unfold has_room. rewrite byte_length_app, byte_length_encode_entries. change (byte_length (replicate 8 0)) with 8.
  repeat split; try done; lia.
Qed.

Lemma context_after_of prior e todo :
  prior ++ e :: todo = es →
  context_after e (replicate 8 0 ++ encode_entries prior) (Z.to_nat (entries_size es - entries_size prior)) rest (Z.of_nat (length prior)) =
  context_of (prior ++ [e]).
Proof.
  intros He. unfold context_after, context_of. rewrite encode_entries_app, length_snoc, entries_size_app, <- app_assoc.
  assert (encode_entries [e] = encode_entry e) as -> by apply app_nil_r. f_equal. cbn. pose proof (entry_size_pos e). lia.
Qed.

Lemma wrote_single prior e todo :
  prior ++ e :: todo = es →
  (if decide (0 ∈ en_text e) then Err IREE_STATUS_INVALID_ARGUMENT
   else Ok (context_after e (replicate 8 0 ++ encode_entries prior) (Z.to_nat (entries_size es - entries_size prior)) rest (Z.of_nat (length prior)))) =
  wrote prior [e].
Proof.
  intros He. unfold wrote. rewrite (context_after_of prior e todo) by done.
  destruct (decide (0 ∈ en_text e)) as [Hn|Hn]; [rewrite decide_False|rewrite decide_True]; rewrite ?Forall_singleton; unfold nul_free; tauto || done.
Qed.

Lemma write_text_step prior e todo :
  prior ++ e :: todo = es →
  iree_net_status_wire_write_text_entry (en_type e) (en_aux e) (en_text e) (context_of prior) = wrote prior [e].
Proof. intros He. unfold context_of at 1. by rewrite write_text_entry_eq, (wrote_single prior e todo) by eauto using room_for. Qed.

Lemma serialize_payload_step p text prior todo :
  formats p text → prior ++ payload_entry p text ++ todo = es →
  iree_net_status_wire_serialize_payload p (context_of prior) = wrote prior (payload_entry p text).
Proof.
  intros Hf. unfold payload_entry. case_bool_decide as Hne; intros He.
  - subst text. rewrite <- wrote_nil. unfold iree_net_status_wire_serialize_payload. destruct Hf as [Hf _].
    destruct (iree_status_payload_format p 0) as [l w]. cbn in Hf. by subst l.
  - unfold context_of at 1. rewrite (serialize_payload_eq p text) by eauto using room_for.
    by apply (wrote_single prior (mk_entry (payload_entry_type p) 0 text) todo).
Qed.

Lemma serialize_payloads_eq ps texts : ∀ prior,
  Forall2 formats ps texts → prior ++ payload_entries ps texts = es →
  visit_payloads iree_net_status_wire_serialize_payload ps (context_of prior) = wrote prior (payload_entries ps texts).
Proof.
  intros prior Hf. revert prior. induction Hf as [|p text ps texts Hp Hps IH]; intros prior He; [apply wrote_nil|].
  change (payload_entries (p :: ps) (text :: texts)) with (payload_entry p text ++ payload_entries ps texts) in *.
  cbn [visit_payloads]. eapply wrote_bind; [by eapply serialize_payload_step| |].
  - intros Hn. rewrite IH by (by rewrite <- app_assoc). unfold wrote. rewrite <- app_assoc. apply decide_ext. rewrite Forall_app. tauto.
  - intros Hn. unfold wrote. rewrite decide_False; [done|]. rewrite Forall_app. tauto.
Qed.

End write_entries.

Lemma payload_entries_texts ps texts : Forall (λ e, en_text e ≠ []) (payload_entries ps texts).
Proof.
  revert texts. induction ps as [|p ps IH]; intros [|text texts]; try constructor.
  change (payload_entries (p :: ps) (text :: texts)) with (payload_entry p text ++ payload_entries ps texts).
  apply Forall_app. split; [|done]. unfold payload_entry. case_bool_decide; [constructor|by apply Forall_singleton].
Qed.

Lemma status_entries_texts s texts : Forall (λ e, en_text e ≠ []) (status_entries s texts).
Proof.
  unfold status_entries. destruct (iree_status_is_ok s); [constructor|]. rewrite !Forall_app. split_and!; [| |apply payload_entries_texts].
  - unfold source_entries. destruct (iree_status_source_location s) as [[[|c file]|] line]; try constructor; [done|constructor].
  - unfold message_entries. case_bool_decide; [constructor|by apply Forall_singleton].
Qed.

Lemma write_source_eq s rest es :
  fits es → Forall (λ e, en_text e ≠ []) es → (∃ todo, source_entries s ++ todo = es) →
  match iree_status_source_location s with
  | (Some (c :: file), line) =>
      iree_net_status_wire_write_text_entry IREE_NET_STATUS_WIRE_ENTRY_TYPE_SOURCE_LOCATION line (c :: file) (context_of es rest [])
  | _ => Ok (context_of es rest [])
  end = wrote es rest [] (source_entries s).
Proof.
  intros Hf Ht [todo He]. unfold source_entries in *.
  destruct (iree_status_source_location s) as [[[|c file]|] line]; [apply wrote_nil| |apply wrote_nil].
  by apply (write_text_step es rest Hf Ht [] (mk_entry 1 line (c :: file)) todo).
Qed.

Lemma write_message_eq s rest es prior :
  fits es → Forall (λ e, en_text e ≠ []) es → (∃ todo, prior ++ message_entries s ++ todo = es) →
  (if byte_length (iree_status_message s) =? 0 then Ok (context_of es rest prior)
   else iree_net_status_wire_write_text_entry IREE_NET_STATUS_WIRE_ENTRY_TYPE_MESSAGE 0 (iree_status_message s) (context_of es rest prior)) =
  wrote es rest prior (message_entries s).
Proof.
  intros Hf Ht [todo He]. unfold message_entries in *. rewrite byte_length_zero. case_bool_decide; [apply wrote_nil|].
  by apply (write_text_step es rest Hf Ht prior (mk_entry 2 0 (iree_status_message s)) todo).
Qed.

(** The output when all entries are written. *)
Lemma context_of_all es rest :
  context_of es rest es =
    mk_wire_context (replicate 8 0 ++ encode_entries es ++ rest) (8 + entries_size es) (8 + entries_size es) (Z.of_nat (length es)).
Proof.
  unfold context_of, context_at. rewrite Z.sub_diag, byte_length_app, byte_length_encode_entries, <- app_assoc.
  change (byte_length (replicate 8 0)) with 8. cbn [Z.to_nat replicate app]. f_equal. lia.
Qed.

Lemma write_status_header s es rest :
  fits es → 0 <= st_code s < 32 →
  let context := context_of es rest es in
  let context := store_at 0 [IREE_NET_STATUS_WIRE_VERSION] context in
  let context := store_at 1 [wrap 8 (st_code s)] context in
  let context := store_at 2 (iree_unaligned_store_le_u16 (wc_entry_count context)) context in
  let context := store_at 4 (iree_unaligned_store_le_u32 (wrap 32 (8 + entries_size es))) context in
  wc_data context = encode_status (st_code s) es ++ rest.
Proof.
  intros [_ Hs] Hc. rewrite context_of_all. pose proof (entries_size_nonneg es). unfold umax in Hs.
  unfold store_at. cbn [wc_data wc_entry_count wc_capacity wc_offset]. rewrite !wrap_small by (unfold in_width; lia).
  unfold encode_status. rewrite <- !app_assoc. generalize (encode_entries es ++ rest) as tail. intros tail.
  done.
Qed.

(** The output before the first entry. *)
Lemma context_of_none es data :
  mk_wire_context (write_bytes 0 (replicate (Z.to_nat (8 + entries_size es)) 0) data) (8 + entries_size es) IREE_NET_STATUS_WIRE_HEADER_SIZE 0 =
  context_of es (drop (Z.to_nat (8 + entries_size es)) data) [].
Proof.
  pose proof (entries_size_nonneg es). unfold context_of, context_at, write_bytes. rewrite length_replicate.
  change (encode_entries []) with (@nil Z). change (entries_size []) with 0. rewrite app_nil_r, Z.sub_0_r.
  change (byte_length (replicate 8 0)) with 8. f_equal; [|lia].
  assert (replicate (Z.to_nat (8 + entries_size es)) 0 = replicate 8 0 ++ replicate (Z.to_nat (entries_size es)) 0) as ->; [|by rewrite <- app_assoc].
  rewrite <- replicate_add. f_equal. lia.
Qed.

Lemma write_entries_eq s texts rest :
  Forall2 formats (status_payloads s) texts → fits (status_entries s texts) →
  let es := status_entries s texts in
  (if iree_status_is_ok s then Ok (context_of es rest [])
   else
     context ←
       match iree_status_source_location s with
       | (Some (c :: file), line) =>
           iree_net_status_wire_write_text_entry IREE_NET_STATUS_WIRE_ENTRY_TYPE_SOURCE_LOCATION line (c :: file) (context_of es rest [])
       | _ => Ok (context_of es rest [])
       end;
     context ←
       (if byte_length (iree_status_message s) =? 0 then Ok context
        else iree_net_status_wire_write_text_entry IREE_NET_STATUS_WIRE_ENTRY_TYPE_MESSAGE 0 (iree_status_message s) context);
     iree_status_enumerate_payloads iree_net_status_wire_serialize_payload s context) = wrote es rest [] es.
Proof.
  intros Hps Hfits es. pose proof (status_entries_texts s texts) as Ht. fold es in Hfits, Ht.
  destruct (iree_status_is_ok s) eqn:Hs; [unfold es; rewrite status_entries_ok by done; apply wrote_nil|].
  assert (es = (source_entries s ++ message_entries s) ++ payload_entries (status_payloads s) texts) as He by by apply status_entries_failure.
  assert (es = source_entries s ++ message_entries s ++ payload_entries (status_payloads s) texts) as He' by by rewrite He, <- app_assoc.
  assert (∀ a b, es = a ++ b → ¬ Forall nul_free a → wrote es rest [] es = Err IREE_STATUS_INVALID_ARGUMENT) as Hno.
  { intros a b Hab Ha. unfold wrote. rewrite decide_False; [done|]. rewrite Hab, Forall_app. tauto. }
  eapply wrote_bind; [by apply write_source_eq; eauto|intros H1|by eapply Hno].
  eapply wrote_bind; [by apply write_message_eq; eauto|intros H2|].
  2:{ intros H2. apply (Hno _ _ He). rewrite Forall_app. tauto. }
  rewrite enumerate_payloads_eq, (serialize_payloads_eq es rest Hfits Ht _ texts) by done.
  unfold wrote. cbn [app]. rewrite <- He. apply decide_ext. rewrite He, !Forall_app. tauto.
Qed.

(** What serialization writes or returns. *)
Definition serialize_spec (s : status_t) (texts : list (list Z)) (buffer : option (list Z)) : status_or (list Z) :=
  let es := status_entries s texts in
  if decide (representable s texts) then
    match buffer with
    | None => Err IREE_STATUS_INVALID_ARGUMENT
    | Some data =>
        if decide (byte_length data < 8 + entries_size es) then Err IREE_STATUS_RESOURCE_EXHAUSTED
        else if decide (Forall nul_free es) then Ok (encode_status (st_code s) es ++ drop (Z.to_nat (8 + entries_size es)) data)
        else Err IREE_STATUS_INVALID_ARGUMENT
    end
  else Err IREE_STATUS_OUT_OF_RANGE.

Lemma serialize_eq s texts buffer : status_ok s texts → iree_net_status_wire_serialize s buffer = serialize_spec s texts buffer.
Proof.
  intros Hok. unfold iree_net_status_wire_serialize, serialize_spec. rewrite (calculate_size_eq s texts) by done.
  case_decide as Hrep; cbn [mbind status_or_bind]; [|done]. destruct buffer as [data|]; [|done].
  apply representable_iff in Hrep as [Hfits _]. destruct Hok as (Hcode & Hps & _).
  pose proof (status_entries_texts s texts) as Ht. set (es := status_entries s texts) in *. pose proof (entries_size_nonneg es).
  destruct (Z.ltb_spec (byte_length data) (8 + entries_size es)); [by rewrite decide_True|]. rewrite decide_False by lia.
  pose proof (write_entries_eq s texts (drop (Z.to_nat (8 + entries_size es)) data) Hps Hfits) as Hw. cbv zeta in Hw. fold es in Hw.
  rewrite context_of_none, Hw. unfold wrote. case_decide; cbn [mbind status_or_bind app]; [|done].
  rewrite context_of_all at 1. cbn [wc_offset]. rewrite Z.eqb_refl. cbn [negb]. f_equal. by apply write_status_header.
Qed.
