(* ===== verification/StatusRead.v ===== *)
(** * Reading statuses

    Validation accepts exactly the encodings of well-formed entry lists, and deserialization
    rebuilds what they hold. *)

From S2P Require Import Prelude BaseMath WireBytes ReceiveQueue FrameInvariant StatusWire StatusWrite.
From stdpp Require Import base numbers list list_numbers.

Local Open Scope Z_scope.
Local Open Scope machine_scope.

(** ** Entries *)

(** An entry that its encoding determines. *)
Definition entry_ok (e : entry) : Prop :=
  en_text e ≠ [] ∧ byte_length (en_text e) <= umax 32 ∧ 0 <= en_aux e < 2 ^ 32 ∧ nul_free e.

#[export] Instance entry_ok_dec e : Decision (entry_ok e).
Proof. unfold entry_ok. apply _. Defined.

(** The fields of an encoded entry. *)
Record reads (data : list Z) (offset : Z) (e : entry) : Prop := mk_reads {
  reads_type : byte_at data offset = en_type e;
  reads_flags : byte_at data (offset + 1) = 0;
  reads_reserved_0 : iree_unaligned_load_le_u16 data (Z.to_nat offset + 2) = 0;
  reads_length : iree_unaligned_load_le_u32 data (Z.to_nat offset + 4) = byte_length (en_text e);
  reads_aux : iree_unaligned_load_le_u32 data (Z.to_nat offset + 8) = en_aux e;
  reads_reserved_1 : iree_unaligned_load_le_u32 data (Z.to_nat offset + 12) = 0;
  reads_text : text_at data (offset + 16) (byte_length (en_text e)) = en_text e;
  reads_padding :
    text_at data (offset + 16 + byte_length (en_text e)) (storage_size (en_text e) - byte_length (en_text e)) = entry_padding e;
}.

Lemma load_le_at n pre tail k : load_le n (pre ++ tail) (length pre + k) = load_le n tail k.
Proof. unfold load_le. by rewrite <- drop_drop, drop_app_length. Qed.

Lemma byte_at_app pre tail k : 0 <= k → byte_at (pre ++ tail) (byte_length pre + k) = byte_at tail k.
Proof. intros. unfold byte_at, byte_length. rewrite app_nth2 by lia. f_equal. lia. Qed.

Lemma text_at_app pre tail k n : 0 <= k → text_at (pre ++ tail) (byte_length pre + k) n = text_at tail k n.
Proof.
  intros. unfold text_at. f_equal. replace (Z.to_nat (byte_length pre + k)) with (length pre + Z.to_nat k)%nat by (unfold byte_length; lia).
  by rewrite <- drop_drop, drop_app_length.
Qed.

Lemma text_at_exact pre text post offset n : offset = byte_length pre → n = byte_length text → text_at (pre ++ text ++ post) offset n = text.
Proof. intros -> ->. unfold text_at, byte_length. rewrite !Nat2Z.id, drop_app_length. apply take_app_length. Qed.

Lemma encoded_reads pre e post : entry_ok e → reads (pre ++ encode_entry e ++ post) (byte_length pre) e.
Proof.
  intros (Hne & Hlen & Haux & _). pose proof (byte_length_nonneg (en_text e)). unfold umax in Hlen.
  assert (0 <= byte_length (en_text e) < 256 ^ Z.of_nat 4 ∧ 0 <= en_aux e < 256 ^ Z.of_nat 4) as [Hl Ha] by (cbn; lia).
  pose proof (storage_size_spec (en_text e)). rewrite encode_entry_split, <- !app_assoc.
  split; rewrite <- ?length_byte_length; unfold iree_unaligned_load_le_u16, iree_unaligned_load_le_u32; rewrite ?load_le_at.
  - rewrite <- (Z.add_0_r (byte_length pre)), byte_at_app by done. done.
  - by rewrite byte_at_app.
  - done.
  - unfold entry_header. rewrite <- !app_assoc. by apply load_le_app.
  - unfold entry_header. rewrite <- !app_assoc. rewrite (app_assoc [_; _; _; _]). apply load_le_app; [done|]. by rewrite length_app, length_le_bytes.
  - unfold entry_header. rewrite <- !app_assoc. rewrite (app_assoc (le_bytes _ _)), (app_assoc [en_type e; 0; 0; 0]).
    change [0; 0; 0; 0] with (le_bytes 4 0). apply load_le_app; [done|]. by rewrite !length_app, !length_le_bytes.
  - rewrite app_assoc. apply text_at_exact; [|done]. by rewrite byte_length_app, byte_length_entry_header.
  - rewrite !(app_assoc _ _ (entry_padding e ++ _)), (app_assoc pre). apply text_at_exact;
      [rewrite !byte_length_app, byte_length_entry_header; lia|]. unfold entry_padding. rewrite byte_length_zeros; lia.
Qed.

Lemma drop_split k n (l : list Z) : drop k l = take n (drop k l) ++ drop (k + n) l.
Proof. by rewrite <- drop_drop, take_drop. Qed.

Lemma le_value_zero bytes : Forall is_byte bytes → le_value bytes = 0 → bytes = replicate (length bytes) 0.
Proof.
  intros Hb Hz. pose proof (le_bytes_value bytes Hb) as H. rewrite Hz in H. rewrite <- H at 1. generalize (length bytes) as n.
  intros n. clear. induction n as [|n IH]; [done|]. cbn. by f_equal.
Qed.

(** The first bytes of an entry. *)
Lemma first_bytes tail e :
  Forall is_byte tail → (4 <= length tail)%nat → byte_at tail 0 = en_type e → byte_at tail 1 = 0 → load_le 2 tail 2 = 0 →
  take 4 tail = [en_type e; 0; 0; 0].
Proof.
  intros Hb Hl Ht Hf Hr. destruct tail as [|b0 [|b1 [|b2 [|b3 tail]]]]; cbn in Hl; try lia.
  rewrite !Forall_cons in Hb. destruct Hb as (_ & _ & H2 & H3 & _). change (b0 = en_type e) in Ht. change (b1 = 0) in Hf.
  change (b2 + 256 * (b3 + 256 * 0) = 0) in Hr. unfold is_byte in *. subst b0 b1. assert (b2 = 0 ∧ b3 = 0) as [-> ->] by lia. done.
Qed.

Lemma reads_encoded pre tail e :
  Forall is_byte tail → entry_size e <= byte_length tail → reads (pre ++ tail) (byte_length pre) e → ∃ post, tail = encode_entry e ++ post.
Proof.
  intros Hb Hl [Ht Hf Hr0 Hlen Haux Hr1 Htext Hpad]. pose proof (byte_length_nonneg (en_text e)). pose proof (storage_size_spec (en_text e)).
  rewrite <- (Z.add_0_r (byte_length pre)), byte_at_app in Ht by done. rewrite byte_at_app in Hf by done.
  rewrite <- Z.add_assoc, text_at_app in Hpad by lia. rewrite text_at_app in Htext by done.
  unfold iree_unaligned_load_le_u16, iree_unaligned_load_le_u32 in *. rewrite <- length_byte_length, load_le_at in *.
  unfold entry_size, byte_length in Hl. exists (drop (16 + length (en_text e) + length (entry_padding e)) tail).
  assert (length (entry_padding e) = Z.to_nat (storage_size (en_text e) - byte_length (en_text e))) as Hpl by apply length_replicate.
  unfold text_at in Htext, Hpad. rewrite <- length_byte_length in Htext.
  replace (Z.to_nat (16 + byte_length (en_text e))) with (16 + length (en_text e))%nat in Hpad by (unfold byte_length; lia).
  change (Z.to_nat 16) with 16%nat in Htext. rewrite <- Hpl in Hpad. rewrite encode_entry_split, <- !app_assoc.
  assert (drop 16 tail = en_text e ++ entry_padding e ++ drop (16 + length (en_text e) + length (entry_padding e)) tail) as <-.
  { by rewrite (drop_split 16 (length (en_text e))), Htext, (drop_split _ (length (entry_padding e))), Hpad. }
  unfold entry_header. rewrite <- !app_assoc. rewrite <- Hlen, <- Haux, <- (first_bytes tail e Hb) by (done || lia).
  assert ([0; 0; 0; 0] = take 4 (drop 12 tail)) as ->.
  { rewrite (load_le_split tail 4 12 Hb), Hr1 by lia. done. }
  rewrite <- !load_le_split by (done || lia). rewrite <- (drop_split 12 4), <- (drop_split 8 4), <- (drop_split 4 4). by rewrite take_drop.
Qed.

(** The layout of a length that is loaded. *)
Lemma entry_layout_inv n storage size :
  0 <= n → iree_net_status_wire_calculate_entry_layout n = Ok (storage, size) →
  0 < n <= umax 32 ∧ storage = round_up (n + 1) 8 ∧ size = 16 + storage.
Proof.
  intros Hn H. destruct (decide (n = 0)) as [->|]; [done|].
  assert (n = byte_length (replicate (Z.to_nat n) 1)) as Hb by (unfold byte_length; rewrite length_replicate; lia).
  rewrite Hb, entry_layout_eq in H by (intros [=He]; apply (f_equal length) in He; rewrite length_replicate in He; cbn in He; lia).
  rewrite <- Hb in H. unfold storage_size in H. rewrite <- Hb in H. case_decide; [|done]. injection H as <- <-. lia.
Qed.

Lemma padding_zeros bytes : forallb (Z.eqb 0) bytes = true ↔ bytes = replicate (length bytes) 0.
Proof.
  induction bytes as [|b bytes IH]; [done|]. cbn [forallb length replicate]. rewrite andb_true_iff, IH, Z.eqb_eq. split.
  - intros [<- H]. by f_equal.
  - intros [= -> H]. done.
Qed.

(** ** Validation *)

Definition check_type (e : entry) (st : validate_state) : status_or validate_state :=
  validate_entry_type (en_type e) (byte_length (en_text e)) (en_aux e) (en_text e) st.

Lemma validate_entry_encoded pre e post st :
  entry_ok e → byte_length (pre ++ encode_entry e ++ post) <= umax 32 →
  validate_entry (pre ++ encode_entry e ++ post) (byte_length (pre ++ encode_entry e ++ post)) (byte_length pre) st =
    (st ← check_type e st; Ok (byte_length pre + entry_size e, st)).
Proof.
  intros He Hb. destruct (encoded_reads pre e post He) as [Ht Hf Hr0 Hlen Haux Hr1 Htext Hpad]. destruct He as (Hne & Hl & Ha & Hn).
  set (data := pre ++ encode_entry e ++ post) in *.
  assert (byte_length data = byte_length pre + (entry_size e + byte_length post)) as Hd
    by (unfold data; by rewrite !byte_length_app, byte_length_encode_entry).
  pose proof (byte_length_nonneg pre). pose proof (byte_length_nonneg post). pose proof (entry_size_pos e). unfold umax in *.
  unfold validate_entry, IREE_NET_STATUS_WIRE_ENTRY_HEADER_SIZE. rewrite usub_small by (unfold in_width; lia).
  rewrite (proj2 (Z.ltb_ge _ _)), (proj2 (Z.ltb_ge _ _)) by lia. cbn [orb].
  rewrite Ht, Hf, Hr0, Hlen, Haux, Hr1. cbn [Z.eqb negb orb]. rewrite entry_layout_eq, decide_True by (done || (unfold umax; lia)).
  change (16 + storage_size (en_text e)) with (entry_size e). rewrite (proj2 (Z.ltb_ge _ _)) by lia.
  rewrite Htext, Hpad, bool_decide_false by done.
  rewrite (proj2 (padding_zeros (entry_padding e))) by (unfold entry_padding; by rewrite length_replicate). cbn [negb].
  rewrite uadd_small by (unfold in_width; lia). done.
Qed.

Lemma validate_entry_accepts pre tail st offset' st' :
  Forall is_byte tail → byte_length (pre ++ tail) <= umax 32 →
  validate_entry (pre ++ tail) (byte_length (pre ++ tail)) (byte_length pre) st = Ok (offset', st') →
  ∃ e post, tail = encode_entry e ++ post ∧ entry_ok e.
Proof.
  intros Hb Hl. pose proof (byte_length_nonneg pre). pose proof (byte_length_nonneg tail). set (data := pre ++ tail).
  assert (byte_length data = byte_length pre + byte_length tail) as Hd by apply byte_length_app. fold data in Hl. unfold umax in Hl.
  unfold validate_entry, IREE_NET_STATUS_WIRE_ENTRY_HEADER_SIZE. rewrite usub_small by (unfold in_width; lia).
  rewrite (proj2 (Z.ltb_ge _ _)) by lia. cbn [orb]. destruct (Z.ltb_spec (byte_length data - byte_length pre) 16); [done|].
  set (n := iree_unaligned_load_le_u32 data (Z.to_nat (byte_length pre) + 4)).
  set (aux := iree_unaligned_load_le_u32 data (Z.to_nat (byte_length pre) + 8)).
  assert (∀ k, (k + 4 <= length tail)%nat → 0 <= load_le 4 data (length pre + k) < 2 ^ 32) as Hload.
  { intros k Hk. unfold data. rewrite load_le_at. by apply (load_le_bound 4). }
  assert (4 + 4 <= length tail ∧ 8 + 4 <= length tail)%nat as [H4 H8] by (unfold byte_length in *; lia).
  assert (0 <= n < 2 ^ 32 ∧ 0 <= aux < 2 ^ 32) as [Hn Haux].
  { unfold n, aux. rewrite <- !length_byte_length. split; by apply Hload. }
  destruct (negb _ || negb _ || negb _) eqn:Hres; [done|]. rewrite !orb_false_iff, !negb_false_iff, !Z.eqb_eq in Hres.
  destruct Hres as [[Hf Hr0] Hr1].
  destruct (iree_net_status_wire_calculate_entry_layout n) as [[storage size]|] eqn:Hlayout; [|done].
  apply entry_layout_inv in Hlayout as (Hn' & Hst & Hsz); [|lia].
  destruct (Z.ltb_spec (byte_length data - byte_length pre) size); [done|]. case_bool_decide as Hnul; [done|].
  destruct (forallb _ _) eqn:Hz; [|done]. cbn [negb]. intros _.
  set (e := mk_entry (byte_at data (byte_length pre)) aux (text_at data (byte_length pre + 16) n)).
  destruct (round_up_spec (n + 1) 8 ltac:(lia)) as (_ & Hge & _).
  assert (byte_length (en_text e) = n) as Hen.
  { cbn [e en_text]. unfold text_at. apply byte_length_take. unfold byte_length in *. rewrite length_drop. lia. }
  assert (storage_size (en_text e) = storage) as Hes by (unfold storage_size; by rewrite Hen).
  assert (entry_ok e) as Hok.
  { unfold entry_ok. rewrite Hen. split; [intros Hnil; rewrite Hnil in Hen; change (0 = n) in Hen; rewrite <- Hen in Hn'; lia|]. split; [lia|done]. }
  destruct (reads_encoded pre tail e Hb) as [post Hpost]; [unfold entry_size; lia| |by exists e, post].
  fold data. split; rewrite ?Hen, ?Hes; try done. apply padding_zeros in Hz. rewrite Hz at 1. unfold entry_padding. rewrite Hen, Hes. f_equal.
  apply Nat2Z.inj. change (Z.of_nat (length ?l)) with (byte_length l). unfold text_at. rewrite byte_length_take; [lia|].
  unfold byte_length in *. rewrite length_drop. lia.
Qed.

(** ** Lists of entries *)

Fixpoint check_types (es : list entry) (st : validate_state) : status_or validate_state :=
  match es with [] => Ok st | e :: es => st ← check_type e st; check_types es st end.

Lemma encode_entries_cons e es : encode_entries (e :: es) = encode_entry e ++ encode_entries es.
Proof. done. Qed.

Lemma entries_size_cons e es : entries_size (e :: es) = entry_size e + entries_size es.
Proof. done. Qed.

Lemma validate_entries_encoded es : ∀ pre post st,
  Forall entry_ok es → let data := pre ++ encode_entries es ++ post in
  byte_length data <= umax 32 →
  validate_entries data (byte_length data) (length es) (byte_length pre) st =
    (st ← check_types es st; Ok (byte_length pre + entries_size es, st)).
Proof.
  induction es as [|e es IH]; intros pre post st Hok data Hb; [cbn; by rewrite Z.add_0_r|].
  apply Forall_cons in Hok as [He Hes]. unfold data in *. rewrite encode_entries_cons, <- app_assoc in *. cbn [length validate_entries check_types].
  rewrite validate_entry_encoded by done. destruct (check_type e st) as [st'|]; cbn [mbind status_or_bind]; [|done].
  rewrite app_assoc in *. rewrite <- byte_length_encode_entry, <- byte_length_app.
  rewrite IH by done. rewrite byte_length_app, byte_length_encode_entry, entries_size_cons. destruct (check_types es st'); cbn; [|done].
  by rewrite Z.add_assoc.
Qed.

Lemma validate_entries_accepts n : ∀ pre tail st r,
  Forall is_byte tail → byte_length (pre ++ tail) <= umax 32 →
  validate_entries (pre ++ tail) (byte_length (pre ++ tail)) n (byte_length pre) st = Ok r →
  ∃ es post, tail = encode_entries es ++ post ∧ Forall entry_ok es ∧ length es = n.
Proof.
  induction n as [|n IH]; intros pre tail st r Hb Hl Hv; [by exists [], tail|]. cbn [validate_entries] in Hv.
  destruct (validate_entry (pre ++ tail) (byte_length (pre ++ tail)) (byte_length pre) st) as [[offset st']|] eqn:He; [|done].
  destruct (validate_entry_accepts pre tail st offset st' Hb Hl He) as (e & post & -> & Hok).
  rewrite validate_entry_encoded in He by done. destruct (check_type e st); [|done]. injection He as <- <-.
  cbn [mbind status_or_bind] in Hv. rewrite app_assoc in Hv, Hl. rewrite <- byte_length_encode_entry, <- byte_length_app in Hv.
  apply IH in Hv as (es & post' & -> & Hes & <-); [|by apply Forall_app in Hb as [_ ?]|done].
  exists (e :: es), post'. rewrite encode_entries_cons, <- app_assoc. split; [done|]. by split; [constructor|].
Qed.

(** ** The order of entries *)

Definition is_source (e : entry) : Prop := en_type e = 1.
Definition is_message (e : entry) : Prop := en_type e = 2 ∧ en_aux e = 0.
Definition is_diagnostic (e : entry) : Prop := (en_type e = 3 ∨ en_type e = 4) ∧ en_aux e = 0 ∧ byte_length (en_text e) <= INT_MAX.

Definition optional (e : option entry) : list entry := match e with Some e => [e] | None => [] end.

(** At most one location, at most one message, then diagnostics. *)
Record parts := mk_parts {
  pa_source : option entry;
  pa_message : option entry;
  pa_diagnostics : list entry;
}.

Definition parts_ok (p : parts) : Prop :=
  (∀ e, pa_source p = Some e → is_source e) ∧ (∀ e, pa_message p = Some e → is_message e) ∧ Forall is_diagnostic (pa_diagnostics p).

Definition parts_entries (p : parts) : list entry := optional (pa_source p) ++ optional (pa_message p) ++ pa_diagnostics p.

Definition parts_file (p : parts) : list Z := from_option en_text [] (pa_source p).
Definition parts_line (p : parts) : Z := from_option en_aux 0 (pa_source p).
Definition parts_message (p : parts) : list Z := from_option en_text [] (pa_message p).

Definition initial_state : validate_state := mk_validate_state false false false [] 0 [].

Lemma check_diagnostic e hs hm hd f l m : is_diagnostic e → check_type e (mk_validate_state hs hm hd f l m) = Ok (mk_validate_state hs hm true f l m).
Proof.
  intros ([Ht|Ht] & Ha & Hl); unfold check_type, validate_entry_type; rewrite Ht, Ha; cbn; by rewrite (proj2 (Z.ltb_ge _ _)).
Qed.

Lemma check_diagnostics es : ∀ hs hm hd f l m,
  Forall is_diagnostic es → ∃ hd', check_types es (mk_validate_state hs hm hd f l m) = Ok (mk_validate_state hs hm hd' f l m).
Proof.
  induction es as [|e es IH]; intros hs hm hd f l m H; [by exists hd|]. apply Forall_cons in H as [He Hes]. cbn [check_types].
  rewrite check_diagnostic by done. by apply IH.
Qed.

Lemma check_source e : is_source e → check_type e initial_state = Ok (mk_validate_state true false false (en_text e) (en_aux e) []).
Proof. intros H. unfold check_type. by rewrite H. Qed.

Lemma check_message e hs f l : is_message e → check_type e (mk_validate_state hs false false f l []) = Ok (mk_validate_state hs true false f l (en_text e)).
Proof. intros [Ht Ha]. unfold check_type. by rewrite Ht, Ha. Qed.

Lemma check_parts p :
  parts_ok p → ∃ hs hm hd, check_types (parts_entries p) initial_state = Ok (mk_validate_state hs hm hd (parts_file p) (parts_line p) (parts_message p)).
Proof.
  intros (Hs & Hm & Hd). destruct p as [s m d]. unfold parts_entries, parts_file, parts_line, parts_message, initial_state in *.
  cbn [pa_source pa_message pa_diagnostics] in *.
  assert (∀ hs f l, ∃ hm hd, check_types (optional m ++ d) (mk_validate_state hs false false f l []) =
    Ok (mk_validate_state hs hm hd f l (from_option en_text [] m))) as Hrest.
  { intros hs f l. destruct m as [m|]; cbn [optional app from_option check_types]; [rewrite check_message by auto; cbn [mbind status_or_bind]|];
      edestruct check_diagnostics as [hd ->]; eauto. }
  destruct s as [s|]; cbn [optional app from_option check_types]; [|eauto].
  change (mk_validate_state false false false [] 0 []) with initial_state. rewrite check_source by auto. cbn [mbind status_or_bind]. eauto.
Qed.

Lemma check_type_inv e st st' :
  check_type e st = Ok st' →
  (is_source e ∧ vs_has_source st = false ∧ vs_has_message st = false ∧ vs_has_diagnostics st = false ∧ vs_has_source st' = true) ∨
  (is_message e ∧ vs_has_message st = false ∧ vs_has_diagnostics st = false ∧ vs_has_message st' = true) ∨
  (is_diagnostic e ∧ vs_has_diagnostics st' = true).
Proof.
  destruct st as [hs hm hd f l m]. unfold check_type, validate_entry_type. cbn [vs_has_source vs_has_message vs_has_diagnostics].
  destruct (Z.eqb_spec (en_type e) IREE_NET_STATUS_WIRE_ENTRY_TYPE_SOURCE_LOCATION) as [Ht|_].
  { destruct hs, hm, hd; try done. intros [= <-]. left. done. }
  destruct (Z.eqb_spec (en_type e) IREE_NET_STATUS_WIRE_ENTRY_TYPE_MESSAGE) as [Ht|_].
  { destruct (Z.eqb_spec (en_aux e) 0); [|done]. destruct hm, hd; try done. intros [= <-]. right. left. done. }
  destruct (_ || _) eqn:Ht; [|done]. rewrite orb_true_iff, !Z.eqb_eq in Ht.
  destruct (Z.eqb_spec (en_aux e) 0); [|done]. destruct (Z.ltb_spec INT_MAX (byte_length (en_text e))); [done|]. intros [= <-]. by right; right.
Qed.

(** After a message or a diagnostic only diagnostics follow. *)
Lemma check_types_late es : ∀ st st',
  vs_has_message st = true ∨ vs_has_diagnostics st = true → check_types es st = Ok st' → Forall is_diagnostic es.
Proof.
  induction es as [|e es IH]; intros st st' Hlate; [constructor|]. cbn [check_types].
  destruct (check_type e st) as [st1|] eqn:He; [|done]. cbn [mbind status_or_bind]. intros Hes.
  apply check_type_inv in He as [(_ & _ & Hm & Hd & _)|[(_ & Hm & Hd & _)|[He Hd]]]; [destruct Hlate; congruence..|].
  constructor; [done|]. eapply IH; [|exact Hes]. by right.
Qed.

(** After a location there is no other. *)
Lemma check_types_located es st st' :
  vs_has_source st = true → check_types es st = Ok st' →
  ∃ m d, es = optional m ++ d ∧ (∀ e, m = Some e → is_message e) ∧ Forall is_diagnostic d.
Proof.
  intros Hs. destruct es as [|e es]; [by exists None, []|]. cbn [check_types].
  destruct (check_type e st) as [st1|] eqn:He; [|done]. cbn [mbind status_or_bind]. intros Hes.
  apply check_type_inv in He as [(_ & Hs' & _)|[(He & _ & _ & Hm)|[He Hd]]]; [congruence| |].
  - exists (Some e), es. split; [done|]. split; [by intros ? [= <-]|]. eapply check_types_late; [|exact Hes]. by left.
  - exists None, (e :: es). split; [done|]. split; [done|]. constructor; [done|]. eapply check_types_late; [|exact Hes]. by right.
Qed.

Lemma check_types_parts es st :
  check_types es initial_state = Ok st → ∃ p, parts_ok p ∧ es = parts_entries p.
Proof.
  destruct es as [|e es]; [by exists (mk_parts None None [])|]. cbn [check_types].
  destruct (check_type e initial_state) as [st1|] eqn:He; [|done]. cbn [mbind status_or_bind]. intros Hes.
  apply check_type_inv in He as [(He & _ & _ & _ & Hs)|[(He & _ & _ & Hm)|[He Hd]]].
  - destruct (check_types_located es st1 st Hs Hes) as (m & d & -> & Hm & Hd). exists (mk_parts (Some e) m d). split; [|done].
    split; [by intros ? [= <-]|done].
  - exists (mk_parts None (Some e) es). split; [|done]. split; [done|]. split; [by intros ? [= <-]|].
    eapply check_types_late; [|exact Hes]. by left.
  - exists (mk_parts None None (e :: es)). split; [|done]. do 2 (split; [done|]). constructor; [done|].
    eapply check_types_late; [|exact Hes]. by right.
Qed.

(** ** Validation of a status *)

(** A code and parts that have an encoding; only failures have parts. *)
Record wire_ok (code : Z) (p : parts) : Prop := mk_wire_ok {
  wire_code : 0 <= code < 32;
  wire_parts : parts_ok p;
  wire_entries : Forall entry_ok (parts_entries p);
  wire_fits : fits (parts_entries p);
  wire_failure : code = 0 → parts_entries p = [];
}.

Definition parse_of (code : Z) (p : parts) : iree_net_status_wire_parse_result_t :=
  mk_parse_result code (Z.of_nat (length (parts_entries p))) (parts_file p) (parts_line p) (parts_message p).

Lemma byte_length_encode_status code es : byte_length (encode_status code es) = 8 + entries_size es.
Proof. unfold encode_status. rewrite !byte_length_app, !byte_length_le, byte_length_encode_entries. change (byte_length [1; code]) with 2. lia. Qed.

Lemma encode_status_header code es :
  fits es → let data := encode_status code es in
  byte_at data 0 = 1 ∧ byte_at data 1 = code ∧ iree_unaligned_load_le_u16 data 2 = Z.of_nat (length es) ∧
  iree_unaligned_load_le_u32 data 4 = 8 + entries_size es.
Proof.
  intros [Hc Hs] data. unfold umax in *. pose proof (entries_size_nonneg es). unfold data, encode_status. split_and!; [done|done| |].
  - apply load_le_app; [cbn; lia|done].
  - rewrite app_assoc. apply load_le_app; [cbn; lia|]. by rewrite length_app, length_le_bytes.
Qed.

Lemma validate_encoded code p : wire_ok code p → iree_net_status_wire_validate (encode_status code (parts_entries p)) = Ok (parse_of code p).
Proof.
  intros [Hcode Hp Hes Hfits Hfail]. destruct (encode_status_header code _ Hfits) as (Hv & Hc & Hn & Ht). unfold iree_net_status_wire_validate.
  rewrite Hv, Hc, Hn, Ht, byte_length_encode_status. pose proof (entries_size_nonneg (parts_entries p)).
  rewrite (proj2 (Z.ltb_ge _ IREE_NET_STATUS_WIRE_HEADER_SIZE)) by (unfold IREE_NET_STATUS_WIRE_HEADER_SIZE; lia). cbn [Z.eqb negb].
  change (1 =? IREE_NET_STATUS_WIRE_VERSION) with true. cbn [negb].
  rewrite (proj2 (Z.ltb_ge IREE_STATUS_CODE_MASK _)) by (unfold IREE_STATUS_CODE_MASK; lia). rewrite Z.eqb_refl. cbn [negb].
  assert ((8 + entries_size (parts_entries p)) mod IREE_NET_STATUS_WIRE_ALIGNMENT = 0) as ->.
  { apply Z.mod_divide; [done|]. apply Z.divide_add_r; [by exists 1|apply entries_size_aligned]. }
  cbn [Z.eqb negb].
  assert ((code =? 0) && negb (Z.of_nat (length (parts_entries p)) =? 0) = false) as ->.
  { destruct (Z.eqb_spec code 0) as [H0|]; [by rewrite Hfail|done]. }
  rewrite Nat2Z.id. destruct (check_parts p Hp) as (hs & hm & hd & Hchk).
  pose proof (validate_entries_encoded (parts_entries p)
    ([1; code] ++ le_bytes 2 (Z.of_nat (length (parts_entries p))) ++ le_bytes 4 (8 + entries_size (parts_entries p))) [] initial_state Hes) as Hval.
  cbv zeta in Hval. rewrite app_nil_r in Hval. rewrite <- !app_assoc in Hval. fold (encode_status code (parts_entries p)) in Hval.
  rewrite byte_length_encode_status, !byte_length_app, !byte_length_le in Hval. change (byte_length [1; code] + (Z.of_nat 2 + Z.of_nat 4)) with 8 in Hval.
  unfold IREE_NET_STATUS_WIRE_HEADER_SIZE. fold initial_state. rewrite Hval by apply Hfits. rewrite Hchk. cbn [mbind status_or_bind].
  by rewrite Z.eqb_refl.
Qed.

(** The header of accepted data. *)
Lemma header_split data code :
  Forall is_byte data → 8 <= byte_length data → byte_at data 0 = 1 → byte_at data 1 = code →
  data = ([1; code] ++ le_bytes 2 (iree_unaligned_load_le_u16 data 2) ++ le_bytes 4 (iree_unaligned_load_le_u32 data 4)) ++ drop 8 data.
Proof.
  intros Hb Hl Hv Hc. unfold iree_unaligned_load_le_u16, iree_unaligned_load_le_u32. unfold byte_length in Hl.
  rewrite <- !load_le_split by (done || lia). rewrite <- !app_assoc, <- (drop_split 4 4), <- (drop_split 2 2).
  destruct data as [|b0 [|b1 data]]; cbn in Hl; [lia..|]. change (b0 = 1) in Hv. change (b1 = code) in Hc. by subst.
Qed.

Lemma validate_inv data r :
  iree_net_status_wire_validate data = Ok r →
  8 <= byte_length data ∧ byte_at data 0 = 1 ∧ byte_at data 1 < 32 ∧ iree_unaligned_load_le_u32 data 4 = byte_length data ∧
  (byte_at data 1 = 0 → iree_unaligned_load_le_u16 data 2 = 0) ∧
  ∃ st, validate_entries data (byte_length data) (Z.to_nat (iree_unaligned_load_le_u16 data 2)) 8 initial_state = Ok (byte_length data, st).
Proof.
  unfold iree_net_status_wire_validate. destruct (Z.ltb_spec (byte_length data) IREE_NET_STATUS_WIRE_HEADER_SIZE) as [|Hl]; [done|].
  destruct (Z.eqb_spec (byte_at data 0) IREE_NET_STATUS_WIRE_VERSION) as [Hv|]; [|done].
  destruct (Z.ltb_spec IREE_STATUS_CODE_MASK (byte_at data 1)) as [|Hc]; [done|]. cbn [negb].
  destruct (Z.eqb_spec (iree_unaligned_load_le_u32 data 4) (byte_length data)) as [Ht|]; [|done]. cbn [negb].
  destruct (Z.eqb_spec (iree_unaligned_load_le_u32 data 4 mod IREE_NET_STATUS_WIRE_ALIGNMENT) 0); [|done]. cbn [negb].
  destruct ((byte_at data 1 =? 0) && _) eqn:Hzero; [done|].
  unfold IREE_NET_STATUS_WIRE_HEADER_SIZE, IREE_STATUS_CODE_MASK in *. rewrite Ht. fold initial_state.
  destruct (validate_entries _ _ _ _ _) as [[offset st]|] eqn:Hval; [|done]. cbn [mbind status_or_bind].
  destruct (Z.eqb_spec offset (byte_length data)) as [->|]; [|done]. intros _.
  do 2 (split; [done|]). split; [lia|]. split; [done|]. split; [|by exists st].
  intros H0. rewrite H0 in Hzero. cbn in Hzero. by apply negb_false_iff, Z.eqb_eq in Hzero.
Qed.

Lemma validated_parts pre tail n st :
  Forall is_byte tail → byte_length (pre ++ tail) <= umax 32 →
  validate_entries (pre ++ tail) (byte_length (pre ++ tail)) n (byte_length pre) initial_state = Ok (byte_length (pre ++ tail), st) →
  ∃ p, parts_ok p ∧ Forall entry_ok (parts_entries p) ∧ length (parts_entries p) = n ∧ tail = encode_entries (parts_entries p).
Proof.
  intros Hb Hl Hv. destruct (validate_entries_accepts n pre tail initial_state _ Hb Hl Hv) as (es & post & -> & Hes & <-).
  rewrite validate_entries_encoded in Hv by done. destruct (check_types es initial_state) as [st1|] eqn:Hchk; [|done].
  cbn [mbind status_or_bind] in Hv. injection Hv as Hsize _. rewrite !byte_length_app, byte_length_encode_entries in Hsize.
  assert (post = []) as ->. { destruct post; [done|]. unfold byte_length in Hsize. cbn in Hsize. lia. }
  apply check_types_parts in Hchk as (p & Hp & ->). exists p. by rewrite app_nil_r.
Qed.

Lemma validate_accepts data r :
  Forall is_byte data → iree_net_status_wire_validate data = Ok r →
  ∃ code p, wire_ok code p ∧ data = encode_status code (parts_entries p).
Proof.
  intros Hb (Hl & Hv & Hc & Ht & Hzero & st & Hval)%validate_inv.
  pose proof (header_split data (byte_at data 1) Hb Hl Hv eq_refl) as Hsplit.
  assert (is_byte (byte_at data 1)) as Hc0.
  { unfold byte_at. rewrite Forall_lookup in Hb. destruct (lookup_lt_is_Some_2 data 1) as [x Hx]; [unfold byte_length in *; lia|].
    rewrite (nth_lookup_Some data (Z.to_nat 1) 0 x Hx). by apply (Hb 1%nat). }
  pose proof (load_le_bound 2 data 2 Hb ltac:(unfold byte_length in *; lia)) as Hn. fold (iree_unaligned_load_le_u16 data 2) in Hn.
  pose proof (load_le_bound 4 data 4 Hb ltac:(unfold byte_length in *; lia)) as Hs. fold (iree_unaligned_load_le_u32 data 4) in Hs.
  set (code := byte_at data 1) in *. set (n := iree_unaligned_load_le_u16 data 2) in *. set (size := iree_unaligned_load_le_u32 data 4) in *.
  set (pre := [1; code] ++ le_bytes 2 n ++ le_bytes 4 size) in *.
  assert (byte_length pre = 8) as Hpre by (unfold pre; rewrite !byte_length_app, !byte_length_le; done).
  rewrite Hsplit, <- Hpre in Hval. change (256 ^ Z.of_nat 4) with (2 ^ 32) in Hs. change (256 ^ Z.of_nat 2) with (2 ^ 16) in Hn.
  apply validated_parts in Hval as (p & Hp & Hes & Hlen & Htail); [|by apply Forall_drop|rewrite <- Hsplit; unfold umax; lia].
  assert (byte_length data = 8 + entries_size (parts_entries p)) as Hsize
    by (by rewrite Hsplit, byte_length_app, Hpre, Htail, byte_length_encode_entries).
  exists code, p. split.
  - unfold is_byte in Hc0. split; try done; [lia|unfold fits, umax; lia|]. intros H0. apply length_zero_iff_nil. rewrite Hlen, Hzero; done.
  - rewrite Hsplit at 1. unfold pre, encode_status. rewrite Htail, <- !app_assoc, Ht, Hsize. repeat f_equal. lia.
Qed.

Lemma validate_entry_error data total_size offset st c : validate_entry data total_size offset st = Err c → c = IREE_STATUS_INVALID_ARGUMENT.
Proof.
  unfold validate_entry, validate_entry_type. destruct st.
  repeat (case_match; try (by intros [= <-]); cbn [mbind status_or_bind] in *; try done); simplify_eq; done.
Qed.

Lemma validate_error data c : iree_net_status_wire_validate data = Err c → c = IREE_STATUS_INVALID_ARGUMENT.
Proof.
  assert (∀ n offset st c, validate_entries data (iree_unaligned_load_le_u32 data 4) n offset st = Err c → c = IREE_STATUS_INVALID_ARGUMENT) as Hn.
  { induction n as [|n IH]; intros offset st c'; [done|]. cbn [validate_entries].
    destruct (validate_entry _ _ offset st) as [[o st']|c''] eqn:He; cbn [mbind status_or_bind]; [apply IH|]. intros [= <-]. by eapply validate_entry_error. }
  unfold iree_net_status_wire_validate. do 6 (case_match; [by intros [= <-]|]). destruct (validate_entries _ _ _ _ _) as [[o st]|c'] eqn:He; cbn [mbind status_or_bind].
  - by case_match; intros [= <-].
  - intros [= <-]. by eapply Hn.
Qed.

(** ** Rebuilding a status *)

Definition is_annotation_type (e : entry) : bool :=
  (en_type e =? IREE_NET_STATUS_WIRE_ENTRY_TYPE_ANNOTATION) || (en_type e =? IREE_NET_STATUS_WIRE_ENTRY_TYPE_STACK_TRACE).

(** The annotations of entries, whatever the host serves. *)
Fixpoint annotate_all (host : nat → host_allocator_t) (i : nat) (es : list entry) (result : status_t) : status_t :=
  match es with
  | [] => result
  | e :: es =>
      annotate_all host (S i) es (if is_annotation_type e then iree_status_annotate_copy (host i) result (en_text e) else result)
  end.

Lemma annotate_entries_encoded host es : ∀ pre post i result,
  Forall entry_ok es → let data := pre ++ encode_entries es ++ post in
  byte_length data <= umax 32 →
  annotate_entries host data (length es) i (byte_length pre) result = annotate_all host i es result.
Proof.
  induction es as [|e es IH]; intros pre post i result Hok data Hb; [done|]. apply Forall_cons in Hok as [He Hes].
  unfold data in *. rewrite encode_entries_cons, <- app_assoc in *. destruct (encoded_reads pre e (encode_entries es ++ post) He) as [Ht _ _ Hlen _ _ Htext _].
  cbn [length annotate_entries annotate_all]. unfold IREE_NET_STATUS_WIRE_ENTRY_HEADER_SIZE. rewrite Ht, Hlen, Htext. fold (is_annotation_type e).
  assert (byte_length pre +64 (16 +64 iree_host_align (byte_length (en_text e) +64 1) IREE_NET_STATUS_WIRE_ALIGNMENT) = byte_length (pre ++ encode_entry e)) as ->.
  { rewrite (byte_length_app pre), (byte_length_app (encode_entry e)), (byte_length_app (encode_entries es)), byte_length_encode_entry in Hb.
    rewrite byte_length_app, byte_length_encode_entry. pose proof (byte_length_nonneg pre). pose proof (byte_length_nonneg (en_text e)).
    pose proof (byte_length_nonneg (encode_entries es)). pose proof (byte_length_nonneg post). pose proof (storage_size_spec (en_text e)).
    unfold umax, entry_size in *. rewrite (uadd_small 64 (byte_length (en_text e))) by (unfold in_width; lia).
    change IREE_NET_STATUS_WIRE_ALIGNMENT with (2 ^ 3). rewrite iree_host_align_round_up by (unfold in_width; lia).
    change (round_up _ (2 ^ 3)) with (storage_size (en_text e)). rewrite (uadd_small 64 16) by (unfold in_width; lia). rewrite uadd_small by (unfold in_width; lia). done. }
  rewrite app_assoc in Hb |- *. by apply IH.
Qed.

Definition rebuild (host : nat → host_allocator_t) (code : Z) (p : parts) : status_t :=
  if code =? 0 then iree_ok_status
  else annotate_all host 1 (parts_entries p) (iree_status_allocate_copy (host 0%nat) code (parts_file p) (parts_line p) (parts_message p)).

Lemma deserialize_encoded host code p :
  wire_ok code p → iree_net_status_wire_deserialize host (encode_status code (parts_entries p)) = Ok (rebuild host code p).
Proof.
  intros Hw. unfold iree_net_status_wire_deserialize. rewrite validate_encoded by done. cbn [mbind status_or_bind parse_of pr_status_code].
  unfold rebuild. destruct (code =? 0); [done|]. f_equal. unfold parse_of. cbn [pr_entry_count pr_source_file pr_source_line pr_message]. rewrite Nat2Z.id.
  destruct Hw as [_ _ Hes [_ Hfits] _]. unfold IREE_NET_STATUS_WIRE_HEADER_SIZE.
  set (es := parts_entries p) in *. set (pre := [1; code] ++ le_bytes 2 (Z.of_nat (length es)) ++ le_bytes 4 (8 + entries_size es)).
  assert (encode_status code es = pre ++ encode_entries es ++ []) as Hdata
    by (unfold pre, encode_status; by rewrite app_nil_r, <- !app_assoc).
  assert (8 = byte_length pre) as -> by (unfold pre; by rewrite !byte_length_app, !byte_length_le).
  rewrite Hdata. apply annotate_entries_encoded; [done|]. by rewrite <- Hdata, byte_length_encode_status.
Qed.

(** Allocations may fail, but the code stays. *)
Lemma allocate_copy_code host code file line message :
  0 <= code < 32 → st_code (iree_status_allocate_copy host code file line message) = code.
Proof.
  intros Hc. assert (Z.land code IREE_STATUS_CODE_MASK = code) as Hmask.
  { change IREE_STATUS_CODE_MASK with (Z.ones 5). rewrite Z.land_ones by lia. by apply Z.mod_small. }
  unfold iree_status_allocate_copy, iree_status_from_code. rewrite Hmask. destruct (Z.eqb_spec code 0) as [->|]; [done|].
  by repeat case_match.
Qed.

Lemma annotate_copy_code host s message : 0 <= st_code s < 32 → st_code (iree_status_annotate_copy host s message) = st_code s.
Proof.
  intros Hc. unfold iree_status_annotate_copy, iree_status_annotate_copy_parts. by repeat case_match; rewrite ?allocate_copy_code.
Qed.

Lemma rebuild_code host code p : 0 <= code < 32 → st_code (rebuild host code p) = code.
Proof.
  intros Hc. unfold rebuild. destruct (Z.eqb_spec code 0) as [->|]; [done|].
  pose proof (allocate_copy_code (host 0%nat) code (parts_file p) (parts_line p) (parts_message p) Hc) as H0.
  revert H0. generalize (iree_status_allocate_copy (host 0%nat) code (parts_file p) (parts_line p) (parts_message p)) 1%nat.
  induction (parts_entries p) as [|e es IH]; intros s i Hs; [done|]. cbn [annotate_all]. apply IH.
  destruct (is_annotation_type e); [|done]. by rewrite annotate_copy_code; rewrite Hs.
Qed.
