(* ===== verification/StatusTheorems.v ===== *)
(** * Statuses across the wire

    What serialization writes, what deserialization accepts, and that a status arrives with
    its code, location, message and the text of every payload. *)

From S2P Require Import Prelude BaseMath WireBytes ReceiveQueue FrameInvariant StatusWire StatusWrite StatusRead.
From stdpp Require Import base numbers list list_numbers.

Local Open Scope Z_scope.
Local Open Scope machine_scope.

(** ** Allocations that succeed *)

(** A host that serves every request below 16 GiB. *)
Definition generous (host : host_allocator_t) : Prop :=
  ∀ n, 0 <= n < 2 ^ 34 → host_malloc host n = true ∧ host_aligned_alloc host 32 n = true.

Definition text_size (text : list Z) : Z := if bool_decide (text = []) then 0 else byte_length text + 1.

Lemma text_size_bound text : byte_length text <= umax 32 → 0 <= text_size text <= 2 ^ 32.
Proof. intros H. pose proof (byte_length_nonneg text). unfold text_size, umax in *. case_bool_decide; lia. Qed.

Lemma text_alloc_size_eq text : byte_length text <= umax 32 → text_alloc_size text = Some (text_size text).
Proof.
  intros H. pose proof (byte_length_nonneg text). unfold text_alloc_size, text_size, umax in *. case_bool_decide as Hne; [by subst|].
  apply byte_length_pos in Hne. rewrite (proj2 (Z.ltb_lt _ _)) by lia. apply checked_add_some; lia.
Qed.

Definition char_field (n : Z) : iree_struct_field_t := Build_iree_struct_field_t n 1 1 0.

Lemma char_field_ok n : in_width 64 n → field_ok (char_field n).
Proof. intros. split_and!; [done..|]. by left. Qed.

Lemma char_field_layout base n : field_offset base (char_field n) = base ∧ field_size (char_field n) = n.
Proof. unfold field_offset, field_size. cbn [char_field field_count0 field_count1 field_element_size field_alignment]. split; [done|lia]. Qed.

Lemma allocate_copy_generous host code file line message :
  generous host → 0 < code < 32 → byte_length file <= umax 32 → byte_length message <= umax 32 →
  iree_status_allocate_copy host code file line message =
    mk_status code (Some (mk_status_storage [] (if bool_decide (file = []) then None else Some file) line message)).
Proof.
  intros Hhost Hc Hf Hm. pose proof (text_size_bound file Hf). pose proof (text_size_bound message Hm).
  unfold iree_status_allocate_copy. rewrite (proj2 (Z.eqb_neq _ _)) by lia. rewrite !text_alloc_size_eq by done.
  fold (char_field (text_size file)) (char_field (text_size message)).
  unfold iree_struct_layout_calculate. rewrite struct_layout_loop_eq; [|done|do 2 (constructor; [apply char_field_ok; unfold in_width; lia|]); constructor].
  assert (layout_fits 48 [char_field (text_size file); char_field (text_size message)]) as Hfit.
  { cbn [layout_fits]. rewrite !(proj1 (char_field_layout _ _)), !(proj2 (char_field_layout 0 _)). cbn. lia. }
  rewrite decide_True by done. cbn [layout_spec]. rewrite !(proj1 (char_field_layout _ _)), !(proj2 (char_field_layout 0 _)).
  change (IREE_STATUS_CODE_MASK + 1) with (2 ^ 5). rewrite checked_align_eq by (unfold in_width; lia). rewrite decide_True by lia.
  destruct (round_up_spec (48 + text_size file + text_size message) (2 ^ 5) ltac:(lia)) as (_ & Hr1 & Hr2).
  destruct (Hhost (round_up (48 + text_size file + text_size message) (2 ^ 5))) as [_ Halloc]; [lia|]. change (2 ^ 5) with 32 in *. rewrite Halloc.
  assert (Z.land code IREE_STATUS_CODE_MASK = code) as ->.
  { change IREE_STATUS_CODE_MASK with (Z.ones 5). rewrite Z.land_ones by lia. apply Z.mod_small. lia. }
  do 3 f_equal. case_bool_decide as Hne; [by subst|]. apply byte_length_pos in Hne. by rewrite (proj2 (Z.ltb_lt _ _)) by lia.
Qed.

Lemma annotate_copy_generous host code storage message :
  generous host → message ≠ [] → byte_length message <= umax 32 →
  iree_status_annotate_copy host (mk_status code (Some storage)) message =
    mk_status code (Some (mk_status_storage (ss_payloads storage ++ [message_payload message]) (ss_file storage) (ss_line storage) (ss_message storage))).
Proof.
  intros Hhost Hne Hm. pose proof (byte_length_pos message Hne). unfold umax in Hm.
  unfold iree_status_annotate_copy, iree_status_annotate_copy_parts. cbn [iree_status_is_ok st_storage orb].
  rewrite bool_decide_false by tauto. rewrite bool_decide_false by (by intros []).
  change (byte_length []) with 0. rewrite checked_add_some by lia. cbn [mbind option_bind Z.add]. rewrite checked_add_some by lia.
  change (Build_iree_struct_field_t _ 1 1 0) with (char_field (byte_length message + 1)). unfold iree_struct_layout_calculate.
  rewrite struct_layout_loop_eq; [|done|constructor; [apply char_field_ok; unfold in_width; lia|constructor]].
  assert (layout_fits 64 [char_field (byte_length message + 1)]) as Hfit.
  { cbn [layout_fits]. rewrite !(proj1 (char_field_layout _ _)), !(proj2 (char_field_layout 0 _)). cbn. lia. }
  rewrite decide_True by done. cbn [layout_spec]. rewrite !(proj1 (char_field_layout _ _)), !(proj2 (char_field_layout 0 _)).
  destruct (Hhost (64 + (byte_length message + 1))) as [Hmalloc _]; [lia|]. by rewrite Hmalloc.
Qed.

(** ** What arrives *)

Lemma annotate_all_app host a : ∀ i b result, annotate_all host i (a ++ b) result = annotate_all host (i + length a) b (annotate_all host i a result).
Proof.
  induction a as [|e a IH]; intros i b result; [cbn; by rewrite Nat.add_0_r|]. cbn [app annotate_all length]. rewrite IH. f_equal. lia.
Qed.

Lemma annotate_all_skips host i (e : option entry) result :
  (∀ x, e = Some x → is_source x ∨ is_message x) → annotate_all host i (optional e) result = result.
Proof.
  intros H. destruct e as [e|]; [|done]. cbn [optional annotate_all]. unfold is_annotation_type.
  by destruct (H e eq_refl) as [->|[-> _]].
Qed.

Lemma annotate_all_diagnostics host es : ∀ i code storage,
  (∀ i, generous (host i)) → Forall is_diagnostic es → Forall entry_ok es →
  annotate_all host i es (mk_status code (Some storage)) =
    mk_status code (Some (mk_status_storage (ss_payloads storage ++ (message_payload ∘ en_text <$> es)) (ss_file storage) (ss_line storage) (ss_message storage))).
Proof.
  induction es as [|e es IH]; intros i code storage Hhost Hd Hok; [cbn; rewrite app_nil_r; by destruct storage|].
  apply Forall_cons in Hd as [[Ht _] Hd]. apply Forall_cons in Hok as [(Hne & Hlen & _) Hok]. cbn [annotate_all].
  assert (is_annotation_type e = true) as -> by (unfold is_annotation_type; by destruct Ht as [->| ->]).
  rewrite annotate_copy_generous, IH by done. cbn [ss_payloads ss_file ss_line ss_message fmap list_fmap]. by rewrite <- app_assoc.
Qed.

Lemma optional_text (e : option entry) : Forall entry_ok (optional e) → byte_length (from_option en_text [] e) <= umax 32.
Proof. intros H. destruct e as [e|]; [|done]. apply Forall_singleton in H as (_ & H & _). done. Qed.

Lemma rebuild_generous host code p :
  (∀ i, generous (host i)) → wire_ok code p → code ≠ 0 →
  rebuild host code p =
    mk_status code
      (Some (mk_status_storage (message_payload ∘ en_text <$> pa_diagnostics p)
               (if bool_decide (parts_file p = []) then None else Some (parts_file p)) (parts_line p) (parts_message p))).
Proof.
  intros Hhost [Hc (Hs & Hm & Hd) Hes _ _] Hne. unfold rebuild. rewrite (proj2 (Z.eqb_neq _ _)) by done. unfold parts_entries in *.
  rewrite !Forall_app in Hes. destruct Hes as (Hes & Hem & Hed).
  rewrite allocate_copy_generous by (done || lia || by apply optional_text). rewrite !annotate_all_app.
  rewrite !annotate_all_skips by eauto. by rewrite annotate_all_diagnostics.
Qed.

(** A status as the wire carries it: payloads with text become messages, and a line is kept
    with its file. *)
Definition has_text (text : list Z) : bool := negb (bool_decide (text = [])).

Definition arrived (s : status_t) (texts : list (list Z)) : status_t :=
  if iree_status_is_ok s then iree_ok_status
  else
    let '(file, line) :=
      match iree_status_source_location s with (Some (c :: file), line) => (Some (c :: file), line) | _ => (None, 0) end in
    mk_status (st_code s) (Some (mk_status_storage (message_payload <$> filter has_text texts) file line (iree_status_message s))).

Definition status_parts (s : status_t) (texts : list (list Z)) : parts :=
  if iree_status_is_ok s then mk_parts None None []
  else mk_parts (head (source_entries s)) (head (message_entries s)) (payload_entries (status_payloads s) texts).

Lemma status_parts_entries s texts : parts_entries (status_parts s texts) = status_entries s texts.
Proof.
  unfold status_parts, status_entries, parts_entries. destruct (iree_status_is_ok s); [done|]. cbn [pa_source pa_message pa_diagnostics].
  f_equal; [|f_equal].
  - unfold source_entries. by destruct (iree_status_source_location s) as [[[|c file]|] line].
  - unfold message_entries. by case_bool_decide.
Qed.

Lemma payload_entries_diagnostic ps texts :
  Forall2 formats ps texts → Forall (λ t, byte_length t <= INT_MAX) texts → Forall is_diagnostic (payload_entries ps texts).
Proof.
  induction 1 as [|p text ps texts _ _ IH]; [constructor|]. intros [Hl Hls]%Forall_cons.
  change (payload_entries (p :: ps) (text :: texts)) with (payload_entry p text ++ payload_entries ps texts). apply Forall_app. split; [|auto].
  unfold payload_entry. case_bool_decide; [constructor|]. apply Forall_singleton. split; [|done].
  cbn [en_type]. unfold payload_entry_type. case_match; [by right|by left].
Qed.

Lemma payload_entries_kept ps texts : Forall2 formats ps texts → en_text <$> payload_entries ps texts = filter has_text texts.
Proof.
  induction 1 as [|p text ps texts _ _ IH]; [done|].
  change (payload_entries (p :: ps) (text :: texts)) with (payload_entry p text ++ payload_entries ps texts). rewrite fmap_app, IH, filter_cons.
  unfold payload_entry, has_text. by case_bool_decide.
Qed.

Lemma status_parts_ok s texts :
  Forall2 formats (status_payloads s) texts → representable s texts → parts_ok (status_parts s texts).
Proof.
  intros Hps (_ & _ & Hl). unfold status_parts. destruct (iree_status_is_ok s) eqn:Hok; [done|]. split_and!; cbn [pa_source pa_message pa_diagnostics].
  - unfold source_entries. destruct (iree_status_source_location s) as [[[|c file]|] line]; try done. by intros e [= <-].
  - unfold message_entries. case_bool_decide; [done|]. by intros e [= <-].
  - by apply payload_entries_diagnostic, Hl.
Qed.

Lemma fits_texts es : fits es → Forall (λ e, byte_length (en_text e) <= umax 32) es.
Proof.
  intros [_ Hs]. assert (entries_size es <= umax 32) as H by lia. clear Hs. induction es as [|e es IH]; [constructor|].
  rewrite entries_size_cons in H. pose proof (entries_size_nonneg es). pose proof (entry_size_pos e). pose proof (storage_size_spec (en_text e)).
  constructor; [unfold entry_size in *; lia|]. apply IH. lia.
Qed.

Lemma status_entries_aux s texts : status_ok s texts → Forall (λ e, 0 <= en_aux e < 2 ^ 32) (status_entries s texts).
Proof.
  intros (_ & Hps & _ & Hst). unfold status_entries. destruct (iree_status_is_ok s); [constructor|]. rewrite !Forall_app. split_and!.
  - unfold source_entries, iree_status_source_location. destruct (st_storage s) as [[ps [[|c file]|] line m]|]; try constructor; [|constructor].
    apply Hst.
  - unfold message_entries. case_bool_decide; [constructor|by apply Forall_singleton].
  - clear Hst. induction Hps as [|p text ps' texts' _ _ IH]; [constructor|].
    change (payload_entries (p :: ps') (text :: texts')) with (payload_entry p text ++ payload_entries ps' texts'). apply Forall_app. split; [|done].
    unfold payload_entry. case_bool_decide; [constructor|by apply Forall_singleton].
Qed.

Lemma status_ok_code s texts : status_ok s texts → iree_status_is_ok s = (st_code s =? 0).
Proof.
  intros (_ & _ & _ & Hst). unfold iree_status_is_ok. destruct (st_storage s); [|done]. symmetry. apply Z.eqb_neq. apply Hst.
Qed.

Lemma status_wire_ok s texts :
  status_ok s texts → representable s texts → Forall nul_free (status_entries s texts) → wire_ok (st_code s) (status_parts s texts).
Proof.
  intros Hok Hrep Hnul. pose proof (status_ok_code s texts Hok) as Hcode. pose proof Hrep as [Hfits _]%representable_iff.
  split; rewrite ?status_parts_entries; try done; [apply Hok|by apply status_parts_ok; [apply Hok|]| |].
  - pose proof (status_entries_texts s texts) as Ht. pose proof (status_entries_aux s texts Hok) as Ha. pose proof (fits_texts _ Hfits) as Hl.
    rewrite !Forall_forall in *. intros e He. unfold entry_ok. auto.
  - intros H0. apply status_entries_ok. by rewrite Hcode, H0.
Qed.

Lemma rebuild_arrived host s texts :
  (∀ i, generous (host i)) → status_ok s texts → representable s texts → Forall nul_free (status_entries s texts) →
  rebuild host (st_code s) (status_parts s texts) = arrived s texts.
Proof.
  intros Hhost Hok Hrep Hnul. pose proof (status_ok_code s texts Hok) as Hcode. pose proof (status_wire_ok s texts Hok Hrep Hnul) as Hw.
  unfold arrived. rewrite Hcode. destruct (Z.eqb_spec (st_code s) 0) as [H0|Hne]; [unfold rebuild; by rewrite H0|].
  rewrite rebuild_generous by done.
  unfold parts_file, parts_line, parts_message, status_parts. rewrite Hcode. cbn [pa_source pa_message pa_diagnostics].
  rewrite list_fmap_compose, payload_entries_kept by apply Hok.
  assert (from_option en_text [] (head (message_entries s)) = iree_status_message s) as -> by (unfold message_entries; by case_bool_decide).
  unfold source_entries. by destruct (iree_status_source_location s) as [[[|c file]|] line].
Qed.

(** An arrived status is one that the library builds, and sending it on changes nothing. *)
Lemma filter_texts_messages (texts : list (list Z)) :
  Forall2 formats (message_payload <$> filter has_text texts) (filter has_text texts).
Proof. induction (filter has_text texts) as [|t ts IH]; constructor; [apply message_formats|done]. Qed.

Lemma filter_has_text (texts : list (list Z)) : filter has_text (filter has_text texts) = filter has_text texts.
Proof. rewrite list_filter_filter. apply list_filter_iff. intros x. tauto. Qed.

Lemma arrived_stable s texts :
  status_ok s texts → status_ok (arrived s texts) (filter has_text texts) ∧ arrived (arrived s texts) (filter has_text texts) = arrived s texts.
Proof.
  intros Hok. pose proof (status_ok_code s texts Hok) as Hcode. destruct Hok as (Hc & Hps & Hw & Hst). unfold arrived. rewrite Hcode.
  destruct (Z.eqb_spec (st_code s) 0) as [H0|Hne].
  { assert (texts = []) as ->; [|done]. unfold iree_status_is_ok in Hcode. unfold status_payloads in Hps.
    destruct (st_storage s) as [st|]; [tauto|by inversion Hps]. }
  assert (Forall (λ t, in_width 64 (byte_length t)) (filter has_text texts)) as Hw'.
  { rewrite Forall_forall in Hw |- *. intros t [_ Ht]%list_elem_of_filter. auto. }
  unfold iree_status_source_location, iree_status_message, iree_status_is_ok.
  destruct (st_storage s) as [[ps [[|c file]|] line m]|] eqn:Hs; cbn [ss_file ss_line ss_message st_storage st_code];
    rewrite ?filter_has_text; (split; [|done]); unfold status_ok; cbn [st_code status_payloads st_storage ss_payloads ss_file ss_line ss_message];
    (split; [done|]; split; [apply filter_texts_messages|]; split; [done|]); cbn in Hst; tauto || (split_and!; done || lia || tauto).
Qed.

(** ** Theorems *)

(** For a status whose formatters report the same text in every call, the size is exactly
    that of the reference encoding and OUT_OF_RANGE is reported exactly when there is none;
    serialization writes exactly this encoding and leaves the rest of the buffer alone, or
    fails with the error that is due: a buffer that is missing or too small, or a text with
    an embedded NUL. The checks for a status that changed meanwhile never fire. *)
Theorem status_serialize_exact s texts buffer :
  status_ok s texts →
  iree_net_status_wire_calculate_size s =
    (if decide (representable s texts) then Ok (byte_length (encode_status (st_code s) (status_entries s texts)))
     else Err IREE_STATUS_OUT_OF_RANGE) ∧
  iree_net_status_wire_serialize s buffer = serialize_spec s texts buffer.
Proof.
  intros Hok. rewrite (calculate_size_eq s texts) by done. rewrite byte_length_encode_status. split; [done|by apply serialize_eq].
Qed.

(** C31: Deserialization of arbitrary bytes accepts exactly the encodings of a code with
    entries in order (one location, one message, diagnostics) that are nonempty, free of
    NULs and within their fields, and reports INVALID_ARGUMENT for everything else. Whatever
    allocations fail, an accepted status keeps its code. *)
Theorem status_deserialize_exact host data :
  Forall is_byte data →
  match iree_net_status_wire_deserialize host data with
  | Ok s => ∃ code p, wire_ok code p ∧ data = encode_status code (parts_entries p) ∧ s = rebuild host code p ∧ st_code s = code
  | Err c => c = IREE_STATUS_INVALID_ARGUMENT ∧ ∀ code p, wire_ok code p → data ≠ encode_status code (parts_entries p)
  end.
Proof.
  intros Hb. destruct (iree_net_status_wire_validate data) as [r|c] eqn:Hv.
  - destruct (validate_accepts data r Hb Hv) as (code & p & Hw & ->). rewrite deserialize_encoded by done.
    exists code, p. do 3 (split; [done|]). apply rebuild_code, Hw.
  - assert (iree_net_status_wire_deserialize host data = Err c) as -> by (unfold iree_net_status_wire_deserialize; by rewrite Hv).
    split; [by eapply validate_error|]. intros code p Hw ->. by rewrite validate_encoded in Hv.
Qed.

(** C30: A status that was serialized arrives, when allocations succeed, with its code, file
    and line, message and the text of every payload that has one, in order; and what arrived
    can be sent on without further change. *)
Theorem status_round_trip host s texts buffer out :
  status_ok s texts → (∀ i, generous (host i)) → iree_net_status_wire_serialize s buffer = Ok out →
  (∃ size, iree_net_status_wire_calculate_size s = Ok size ∧
     iree_net_status_wire_deserialize host (take (Z.to_nat size) out) = Ok (arrived s texts)) ∧
  status_ok (arrived s texts) (filter has_text texts) ∧ arrived (arrived s texts) (filter has_text texts) = arrived s texts.
Proof.
  intros Hok Hhost Hs. split; [|by apply arrived_stable]. rewrite (serialize_eq s texts) in Hs by done. unfold serialize_spec in Hs.
  rewrite (calculate_size_eq s texts) by done. destruct (decide (representable s texts)) as [Hrep|]; [|done]. destruct buffer as [data|]; [|done].
  case_decide; [done|]. case_decide as Hnul; [|done].
  assert (out = encode_status (st_code s) (status_entries s texts) ++ drop (Z.to_nat (8 + entries_size (status_entries s texts))) data) as -> by congruence.
  eexists. split; [done|].
  rewrite take_app_length' by (rewrite length_byte_length, byte_length_encode_status; done).
  rewrite <- status_parts_entries, deserialize_encoded by (by apply status_wire_ok). f_equal. by apply rebuild_arrived.
Qed.

(** ** A sample *)

Definition sample_status : status_t :=
  mk_status 5 (Some (mk_status_storage [message_payload [104; 105]; mk_status_payload 7 None;
    mk_status_payload 2 (Some (iree_status_payload_message_formatter [102]))] (Some [97; 46; 99]) 7 [111; 111; 112; 115])).

Definition sample_texts : list (list Z) := [[104; 105]; []; [102]].

Definition sample_host : nat → host_allocator_t := λ _, mk_host_allocator (λ _, true) (λ _ _, true).

Lemma sample_status_ok : status_ok sample_status sample_texts.
Proof.
  split; [done|]. split; [|split; [by repeat constructor|]].
  - cbn. constructor; [apply message_formats|]. constructor; [|constructor; [apply (message_formats [102])|constructor]].
    split; [done|]. intros capacity H. by exists []; split; [|cbn in *; lia].
  - cbn. split; [done|]. split; [done|]. split; [done|]. split; [done|]. by vm_compute; intros H; repeat (apply elem_of_cons in H as [H|H]); inversion H.
Qed.

Definition sample_wire : list Z := encode_status 5 (status_entries sample_status sample_texts).

Lemma status_serialize_exact_witness :
  iree_net_status_wire_serialize sample_status (Some (replicate 140 9)) = Ok (sample_wire ++ replicate 36 9).
Proof. etransitivity; [apply (status_serialize_exact sample_status sample_texts), sample_status_ok|]. vm_compute. done. Defined.

Lemma status_round_trip_witness :
  iree_net_status_wire_deserialize sample_host sample_wire = Ok (arrived sample_status sample_texts).
Proof.
  destruct (status_round_trip sample_host sample_status sample_texts (Some (replicate 104 9)) sample_wire) as [(size & Hsize & Hd) _].
  - apply sample_status_ok.
  - by intros i n Hn.
  - vm_compute. done.
  - vm_compute in Hsize. injection Hsize as <-. exact Hd.
Defined.

Lemma status_deserialize_exact_witness :
  (∃ code p, wire_ok code p ∧ sample_wire = encode_status code (parts_entries p)) ∧
  (∀ code p, wire_ok code p → [1; 0; 0; 0; 9; 0; 0; 0] ≠ encode_status code (parts_entries p)).
Proof.
  split.
  - pose proof (status_deserialize_exact sample_host sample_wire) as H.
    assert (∃ s, iree_net_status_wire_deserialize sample_host sample_wire = Ok s) as [s Hs] by (eexists; vm_compute; reflexivity).
    rewrite Hs in H. destruct H as (code & p & Hw & Hd & _); [apply (bool_decide_unpack _); vm_compute; exact I|]. exists code, p. exact (conj Hw Hd).
  - pose proof (status_deserialize_exact sample_host [1; 0; 0; 0; 9; 0; 0; 0]) as H.
    assert (iree_net_status_wire_deserialize sample_host [1; 0; 0; 0; 9; 0; 0; 0] = Err IREE_STATUS_INVALID_ARGUMENT) as Hs by (vm_compute; reflexivity).
    rewrite Hs in H. apply H. apply (bool_decide_unpack _). vm_compute. exact I.
Defined.
