(* ===== verification/ControlChannel.v ===== *)
(** * Control channels

    [iree/net/channel/control/control_channel.c]: DATA, GOAWAY and ERROR messages over a
    message endpoint.  A send builds the parameters that it hands to the endpoint
    ([FramedEndpoint]); a received message is decoded and handed to the callbacks. *)

From S2P Require Import Prelude BaseMath WireBytes ReceiveQueue FrameAccumulator FrameInvariant EndpointLifecycle FramedEndpoint.
From S2P Require Import StatusWire.
From stdpp Require Import base numbers list list_numbers.

Local Open Scope Z_scope.
Local Open Scope machine_scope.

Definition IREE_NET_CONTROL_MESSAGE_VERSION : Z := 1.
Definition IREE_NET_CONTROL_MESSAGE_HEADER_SIZE : Z := 8.

Definition IREE_NET_CONTROL_MESSAGE_TYPE_GOAWAY : Z := 0x03.
Definition IREE_NET_CONTROL_MESSAGE_TYPE_ERROR : Z := 0x04.
Definition IREE_NET_CONTROL_MESSAGE_TYPE_DATA : Z := 0x80.

(** ** The header *)

Definition iree_net_control_message_encode_header (type flags value : Z) : list Z :=
  [IREE_NET_CONTROL_MESSAGE_VERSION; wrap 8 type; flags; 0] ++ iree_unaligned_store_le_u32 value.

(** The type, flags, value and payload. *)
Definition iree_net_control_message_decode_header (message : list Z) : status_or (Z * Z * Z * list Z) :=
  if byte_length message <? IREE_NET_CONTROL_MESSAGE_HEADER_SIZE then Err IREE_STATUS_DATA_LOSS
  else if negb (byte_at message 0 =? IREE_NET_CONTROL_MESSAGE_VERSION) then Err IREE_STATUS_DATA_LOSS
  else if negb (byte_at message 3 =? 0) then Err IREE_STATUS_DATA_LOSS
  else Ok (byte_at message 1, byte_at message 2, iree_unaligned_load_le_u32 message 4, drop 8 message).

(** ** Receiving *)

(** A call of a callback. *)
Inductive control_event :=
  | ControlData (flags : Z) (payload : list Z)
  | ControlGoaway (reason_code : Z).

(** What a received message returns to the endpoint: a code or the status of the peer. *)
Inductive control_result :=
  | ReturnCode (code : iree_status_code)
  | ReturnStatus (status : status_t).

(** [on_data] is what the callback for DATA returns, [host] serves a received status. *)
Definition iree_net_control_channel_on_message (host : nat → host_allocator_t) (on_data : Z → list Z → iree_status_code) (message : list Z) :
    list control_event * control_result :=
  match iree_net_control_message_decode_header message with
  | Err code => ([], ReturnCode code)
  | Ok (type, flags, value, payload) =>
      if type =? IREE_NET_CONTROL_MESSAGE_TYPE_DATA then
        if negb (value =? 0) then ([], ReturnCode IREE_STATUS_DATA_LOSS)
        else ([ControlData flags payload], ReturnCode (on_data flags payload))
      else if type =? IREE_NET_CONTROL_MESSAGE_TYPE_GOAWAY then
        if negb (flags =? 0) || negb (byte_length payload =? 0) then ([], ReturnCode IREE_STATUS_DATA_LOSS)
        else ([ControlGoaway value], ReturnCode IREE_STATUS_OK)
      else if type =? IREE_NET_CONTROL_MESSAGE_TYPE_ERROR then
        if negb (flags =? 0) || negb (value =? 0) then ([], ReturnCode IREE_STATUS_DATA_LOSS)
        else
          match iree_net_status_wire_deserialize host payload with
          | Err _ => ([], ReturnCode IREE_STATUS_DATA_LOSS)
          | Ok remote_status => if iree_status_is_ok remote_status then ([], ReturnCode IREE_STATUS_DATA_LOSS) else ([], ReturnStatus remote_status)
          end
      else ([], ReturnCode IREE_STATUS_DATA_LOSS)
  end.

(** Whether the endpoint and all callbacks are given, and what the host allocator reports. *)
Definition iree_net_control_channel_allocate (endpoint_given callbacks_given : bool) (host_malloc : iree_status_code) : iree_status_code :=
  if negb endpoint_given then IREE_STATUS_INVALID_ARGUMENT
  else if negb callbacks_given then IREE_STATUS_INVALID_ARGUMENT
  else host_malloc.

(** ** Sending *)

Definition iree_net_control_channel_validate_flags (flags : Z) : status_or () := if umax 8 <? flags then Err IREE_STATUS_OUT_OF_RANGE else Ok ().

Definition iree_net_control_channel_validate_completion (completion_callback : callback_t) : status_or () :=
  match completion_callback with None => Err IREE_STATUS_INVALID_ARGUMENT | Some _ => Ok () end.

(** A nonempty source is copied into the storage of the send. *)
Definition iree_net_send_prefix_from_bytes (source : list Z) : iree_net_send_prefix_t :=
  if byte_length source =? 0 then mk_send_prefix 0 None false
  else mk_send_prefix (byte_length source) (Some (λ length, Ok (take (Z.to_nat length) source))) true.

(** The parameters of a send are checked before the endpoint sees them; [endpoint] is what
    its [send] returns. *)
Definition endpoint_send (endpoint : iree_net_message_endpoint_send_params_t → iree_status_code) (params : iree_net_message_endpoint_send_params_t) :
    iree_status_code :=
  match iree_net_message_endpoint_send params with IREE_STATUS_OK => endpoint params | code => code end.

Definition data_params (flags : Z) (payload : list (list Z)) (completion_callback : callback_t) : status_or iree_net_message_endpoint_send_params_t :=
  _ ← iree_net_control_channel_validate_flags flags;
  let header := iree_net_control_message_encode_header IREE_NET_CONTROL_MESSAGE_TYPE_DATA (wrap 8 flags) 0 in
  Ok (mk_send_params (iree_net_send_prefix_from_bytes header) payload completion_callback).

(** A span with its region (its length and whether it is mapped), its offset, which is the
    pointer without a region, its length and the bytes it refers to. *)
Record data_span := mk_data_span {
  ds_region : option (Z * bool);
  ds_offset : Z;
  ds_length : Z;
  ds_bytes : list Z;
}.

(** The loop that checks and adds the spans. *)
Fixpoint measure_spans (message_size : Z) (spans : list data_span) : status_or Z :=
  match spans with
  | [] => Ok message_size
  | span :: spans =>
      if match ds_region span with Some (_, false) => true | _ => false end then Err IREE_STATUS_INVALID_ARGUMENT
      else if match ds_region span with
              | Some (length, _) => (length <? ds_offset span) || (length -64 ds_offset span <? ds_length span)
              | None => false
              end then Err IREE_STATUS_OUT_OF_RANGE
      else if (0 <? ds_length span) && match ds_region span with None => ds_offset span =? 0 | Some _ => false end then
        Err IREE_STATUS_INVALID_ARGUMENT
      else
        match iree_host_size_checked_add message_size (ds_length span) with
        | None => Err IREE_STATUS_OUT_OF_RANGE
        | Some message_size => measure_spans message_size spans
        end
  end.

(** [None] is a list with a count but null storage. *)
Definition iree_net_control_channel_measure_copy_payload (payload : option (list data_span)) : status_or Z :=
  match payload with
  | None => Err IREE_STATUS_INVALID_ARGUMENT
  | Some spans => measure_spans IREE_NET_CONTROL_MESSAGE_HEADER_SIZE spans
  end.

(** The loop that copies the spans one after the other. *)
Fixpoint copy_spans (spans : list data_span) : list Z :=
  match spans with
  | [] => []
  | span :: spans =>
      if ds_length span =? 0 then copy_spans spans else take (Z.to_nat (ds_length span)) (ds_bytes span) ++ copy_spans spans
  end.

Definition iree_net_control_channel_write_data_copy (flags : Z) (spans : list data_span) : status_or (list Z) :=
  Ok (iree_net_control_message_encode_header IREE_NET_CONTROL_MESSAGE_TYPE_DATA flags 0 ++ copy_spans spans).

Definition data_copy_params (flags : Z) (payload : option (list data_span)) (completion_callback : callback_t) :
    status_or iree_net_message_endpoint_send_params_t :=
  _ ← iree_net_control_channel_validate_flags flags;
  _ ← iree_net_control_channel_validate_completion completion_callback;
  message_size ← iree_net_control_channel_measure_copy_payload payload;
  let write := λ _, iree_net_control_channel_write_data_copy (wrap 8 flags) (default [] payload) in
  Ok (mk_send_params (mk_send_prefix message_size (Some write) true) [] completion_callback).

Definition goaway_params (reason_code : Z) (completion_callback : callback_t) : status_or iree_net_message_endpoint_send_params_t :=
  let header := iree_net_control_message_encode_header IREE_NET_CONTROL_MESSAGE_TYPE_GOAWAY 0 reason_code in
  Ok (mk_send_params (iree_net_send_prefix_from_bytes header) [] completion_callback).

(** The storage behind the header has the size of the status. *)
Definition iree_net_control_channel_write_error (status : status_t) (status_wire_size : Z) : status_or (list Z) :=
  payload ← iree_net_status_wire_serialize status (Some (replicate (Z.to_nat status_wire_size) 0));
  Ok (iree_net_control_message_encode_header IREE_NET_CONTROL_MESSAGE_TYPE_ERROR 0 0 ++ payload).

Definition error_params (error_status : status_t) (completion_callback : callback_t) : status_or iree_net_message_endpoint_send_params_t :=
  if iree_status_is_ok error_status then Err IREE_STATUS_INVALID_ARGUMENT
  else
    _ ← iree_net_control_channel_validate_completion completion_callback;
    status_wire_size ← iree_net_status_wire_calculate_size error_status;
    match iree_host_size_checked_add IREE_NET_CONTROL_MESSAGE_HEADER_SIZE status_wire_size with
    | None => Err IREE_STATUS_OUT_OF_RANGE
    | Some message_size =>
        let write := λ _, iree_net_control_channel_write_error error_status status_wire_size in
        Ok (mk_send_params (mk_send_prefix message_size (Some write) true) [] completion_callback)
    end.

(** A call of a sender. *)
Inductive control_call :=
  | SendData (flags : Z) (payload : list (list Z)) (completion_callback : callback_t)
  | SendDataCopy (flags : Z) (payload : option (list data_span)) (completion_callback : callback_t)
  | SendGoaway (reason_code : Z) (completion_callback : callback_t)
  | SendError (error_status : status_t) (completion_callback : callback_t).

Definition control_params (call : control_call) : status_or iree_net_message_endpoint_send_params_t :=
  match call with
  | SendData flags payload completion_callback => data_params flags payload completion_callback
  | SendDataCopy flags payload completion_callback => data_copy_params flags payload completion_callback
  | SendGoaway reason_code completion_callback => goaway_params reason_code completion_callback
  | SendError error_status completion_callback => error_params error_status completion_callback
  end.

(** The functions themselves: the parameters go to the endpoint. *)
Definition iree_net_control_channel_send_data (endpoint : iree_net_message_endpoint_send_params_t → iree_status_code) (flags : Z)
    (payload : list (list Z)) (completion_callback : callback_t) : iree_status_code :=
  match data_params flags payload completion_callback with Ok params => endpoint_send endpoint params | Err code => code end.

Definition iree_net_control_channel_send_data_copy (endpoint : iree_net_message_endpoint_send_params_t → iree_status_code) (flags : Z)
    (payload : option (list data_span)) (completion_callback : callback_t) : iree_status_code :=
  match data_copy_params flags payload completion_callback with Ok params => endpoint_send endpoint params | Err code => code end.

Definition iree_net_control_channel_send_goaway (endpoint : iree_net_message_endpoint_send_params_t → iree_status_code) (reason_code : Z)
    (completion_callback : callback_t) : iree_status_code :=
  match goaway_params reason_code completion_callback with Ok params => endpoint_send endpoint params | Err code => code end.

Definition iree_net_control_channel_send_error (endpoint : iree_net_message_endpoint_send_params_t → iree_status_code) (error_status : status_t)
    (completion_callback : callback_t) : iree_status_code :=
  match error_params error_status completion_callback with Ok params => endpoint_send endpoint params | Err code => code end.

Definition control_send (endpoint : iree_net_message_endpoint_send_params_t → iree_status_code) (call : control_call) : iree_status_code :=
  match call with
  | SendData flags payload completion_callback => iree_net_control_channel_send_data endpoint flags payload completion_callback
  | SendDataCopy flags payload completion_callback => iree_net_control_channel_send_data_copy endpoint flags payload completion_callback
  | SendGoaway reason_code completion_callback => iree_net_control_channel_send_goaway endpoint reason_code completion_callback
  | SendError error_status completion_callback => iree_net_control_channel_send_error endpoint error_status completion_callback
  end.
