(* ===== verification/ControlTheorems.v ===== *)
(** * Properties of control channels

    What a channel sends, the channel of the peer delivers, also through the framed endpoint
    of [FramedEndpoint]; and a channel accepts nothing else. *)

From S2P Require Import Prelude BaseMath WireBytes EndpointLifecycle ReceiveQueue ReceiveInvariant ReceiveTheorems.
From S2P Require Import FrameAccumulator FrameInvariant ReceiveCursor FrameTheorems FramedEndpoint.
From S2P Require Import StatusWire StatusWrite StatusRead StatusTheorems ControlChannel.
From stdpp Require Import base numbers list list_numbers relations.

Local Open Scope Z_scope.
Local Open Scope machine_scope.

(** ** Messages *)

Inductive control_message :=
  | MessageData (flags : Z) (payload : list Z)
  | MessageGoaway (reason_code : Z)
  | MessageError (code : Z) (p : parts).

Definition control_message_ok (m : control_message) : Prop :=
  match m with
  | MessageData flags payload => is_byte flags ∧ Forall is_byte payload
  | MessageGoaway reason_code => in_width 32 reason_code
  | MessageError code p => wire_ok code p ∧ code ≠ 0
  end.

Definition encode_control (m : control_message) : list Z :=
  match m with
  | MessageData flags payload => [1; 128; flags; 0] ++ le_bytes 4 0 ++ payload
  | MessageGoaway reason_code => [1; 3; 0; 0] ++ le_bytes 4 reason_code
  | MessageError code p => [1; 4; 0; 0] ++ le_bytes 4 0 ++ encode_status code (parts_entries p)
  end.

(** What the receiver does with a message. *)
Definition delivered (host : nat → host_allocator_t) (on_data : Z → list Z → iree_status_code) (m : control_message) :
    list control_event * control_result :=
  match m with
  | MessageData flags payload => ([ControlData flags payload], ReturnCode (on_data flags payload))
  | MessageGoaway reason_code => ([ControlGoaway reason_code], ReturnCode IREE_STATUS_OK)
  | MessageError code p => ([], ReturnStatus (rebuild host code p))
  end.

(** ** Receiving *)

Section receive.
Context (host : nat → host_allocator_t) (on_data : Z → list Z → iree_status_code).

Lemma decode_encoded type flags value payload :
  0 <= value < 2 ^ 32 →
  iree_net_control_message_decode_header ([1; type; flags; 0] ++ le_bytes 4 value ++ payload) = Ok (type, flags, value, payload).
Proof.
  intros Hv. unfold iree_net_control_message_decode_header. rewrite !byte_length_app.
  pose proof (byte_length_nonneg payload). change (byte_length [1; type; flags; 0]) with 4. change (byte_length (le_bytes 4 value)) with 4.
  destruct (Z.ltb_spec (4 + (4 + byte_length payload)) IREE_NET_CONTROL_MESSAGE_HEADER_SIZE) as [H8|_]; [unfold IREE_NET_CONTROL_MESSAGE_HEADER_SIZE in H8; lia|].
  change (byte_at ([1; type; flags; 0] ++ le_bytes 4 value ++ payload) 0) with 1.
  change (byte_at ([1; type; flags; 0] ++ le_bytes 4 value ++ payload) 3) with 0. cbn [negb Z.eqb].
  unfold iree_unaligned_load_le_u32. rewrite (load_le_app [1; type; flags; 0] 4 value payload 4) by done. done.
Qed.

Lemma rebuild_not_ok code p : 0 <= code < 32 → code ≠ 0 → iree_status_is_ok (rebuild host code p) = false.
Proof.
  intros Hc Hne. pose proof (rebuild_code host code p Hc) as H. unfold iree_status_is_ok. rewrite H. destruct (st_storage _); [done|].
  by apply Z.eqb_neq.
Qed.

Lemma on_message_encoded m : control_message_ok m → iree_net_control_channel_on_message host on_data (encode_control m) = delivered host on_data m.
Proof.
  intros Hm. unfold iree_net_control_channel_on_message. destruct m as [flags payload|reason_code|code p]; cbn [encode_control delivered].
  - by rewrite decode_encoded.
  - rewrite <- (app_nil_r (le_bytes 4 reason_code)), decode_encoded by exact Hm. done.
  - destruct Hm as [Hw Hne]. rewrite decode_encoded by done. cbn [Z.eqb negb orb].
    change (4 =? IREE_NET_CONTROL_MESSAGE_TYPE_DATA) with false. change (4 =? IREE_NET_CONTROL_MESSAGE_TYPE_GOAWAY) with false.
    change (4 =? IREE_NET_CONTROL_MESSAGE_TYPE_ERROR) with true. cbv iota. rewrite deserialize_encoded by done.
    rewrite rebuild_not_ok; [done|apply Hw|done].
Qed.

Lemma decode_split message type flags value payload :
  Forall is_byte message → iree_net_control_message_decode_header message = Ok (type, flags, value, payload) →
  message = [1; type; flags; 0] ++ le_bytes 4 value ++ payload ∧ is_byte type ∧ is_byte flags ∧ 0 <= value < 2 ^ 32 ∧ Forall is_byte payload.
Proof.
  intros Hb. unfold iree_net_control_message_decode_header.
  destruct (Z.ltb_spec (byte_length message) IREE_NET_CONTROL_MESSAGE_HEADER_SIZE) as [|Hl]; [done|].
  destruct (Z.eqb_spec (byte_at message 0) IREE_NET_CONTROL_MESSAGE_VERSION) as [H0|]; [|done]. cbn [negb].
  destruct (Z.eqb_spec (byte_at message 3) 0) as [H3|]; [|done]. cbn [negb]. intros [= <- <- <- <-].
  unfold byte_length, IREE_NET_CONTROL_MESSAGE_HEADER_SIZE in Hl.
  assert (8 <= length message)%nat as Hl' by lia.
  pose proof (load_le_split message 4 4 Hb ltac:(lia)) as Hv. pose proof (load_le_bound 4 message 4 Hb ltac:(lia)) as Hbound.
  split; [|split; [|split; [|split; [exact Hbound|by apply Forall_drop]]]].
  - unfold iree_unaligned_load_le_u32. rewrite <- Hv. destruct message as [|b0 [|b1 [|b2 [|b3 rest]]]]; try (cbn in Hl'; lia).
    change (byte_at (b0 :: b1 :: b2 :: b3 :: rest) 0) with b0 in H0. change (byte_at (b0 :: b1 :: b2 :: b3 :: rest) 3) with b3 in H3.
    unfold IREE_NET_CONTROL_MESSAGE_VERSION in H0. subst b0 b3. cbn [drop app]. change (byte_at (1 :: b1 :: b2 :: 0 :: rest) 1) with b1.
    change (byte_at (1 :: b1 :: b2 :: 0 :: rest) 2) with b2. do 4 f_equal. symmetry. apply (take_drop 4 rest).
  - rewrite Forall_forall in Hb. apply Hb. apply list_elem_of_In, nth_In. lia.
  - rewrite Forall_forall in Hb. apply Hb. apply list_elem_of_In, nth_In. lia.
Qed.

(** Whatever is accepted was encoded. *)
Lemma on_message_decoded message :
  Forall is_byte message →
  iree_net_control_channel_on_message host on_data message = ([], ReturnCode IREE_STATUS_DATA_LOSS) ∨
  ∃ m, control_message_ok m ∧ message = encode_control m.
Proof.
  intros Hb. unfold iree_net_control_channel_on_message.
  destruct (iree_net_control_message_decode_header message) as [[[[type flags] value] payload]|code] eqn:Hd.
  2: { left. unfold iree_net_control_message_decode_header in Hd. by repeat case_match; simplify_eq. }
  destruct (decode_split _ _ _ _ _ Hb Hd) as (-> & Ht & Hf & Hv & Hp).
  destruct (Z.eqb_spec type IREE_NET_CONTROL_MESSAGE_TYPE_DATA) as [->|_].
  { destruct (Z.eqb_spec value 0) as [->|]; [|by left]. right. by exists (MessageData flags payload). }
  destruct (Z.eqb_spec type IREE_NET_CONTROL_MESSAGE_TYPE_GOAWAY) as [->|_].
  { destruct (Z.eqb_spec flags 0) as [->|]; [|by left]. destruct (Z.eqb_spec (byte_length payload) 0) as [H0|]; [|by left].
    right. exists (MessageGoaway value). split; [done|]. destruct payload; [by rewrite app_nil_r|]. unfold byte_length in H0. cbn in H0. lia. }
  destruct (Z.eqb_spec type IREE_NET_CONTROL_MESSAGE_TYPE_ERROR) as [->|_]; [|by left].
  destruct (Z.eqb_spec flags 0) as [->|]; [|by left]. destruct (Z.eqb_spec value 0) as [->|]; [|by left]. cbn [negb orb].
  destruct (iree_net_status_wire_deserialize host payload) as [s|c] eqn:Hs; [|by left].
  destruct (iree_status_is_ok s) eqn:Hok; [by left|]. right.
  assert (∃ r, iree_net_status_wire_validate payload = Ok r) as [r Hr].
  { unfold iree_net_status_wire_deserialize in Hs. destruct (iree_net_status_wire_validate payload) as [r|]; [by exists r|done]. }
  destruct (validate_accepts payload r Hp Hr) as (code & p & Hw & ->). exists (MessageError code p). split; [|done]. split; [done|].
  intros ->. rewrite deserialize_encoded in Hs by done. injection Hs as <-. done.
Qed.

(** C28: A received message that is one of the encodings of DATA, GOAWAY or ERROR is handed on
    with exactly its flags and payload, its reason code or its status; everything else is
    refused with DATA_LOSS and calls nothing. *)
Theorem control_receive_exact message :
  Forall is_byte message →
  (∃ m, control_message_ok m ∧ message = encode_control m ∧
     iree_net_control_channel_on_message host on_data message = delivered host on_data m) ∨
  ((∀ m, control_message_ok m → message ≠ encode_control m) ∧
   iree_net_control_channel_on_message host on_data message = ([], ReturnCode IREE_STATUS_DATA_LOSS)).
Proof.
  intros Hb. destruct (on_message_decoded message Hb) as [Hloss|(m & Hm & ->)].
  - right. split; [|done]. intros m Hm ->. rewrite on_message_encoded in Hloss by done. by destruct m.
  - left. exists m. do 2 (split; [done|]). by apply on_message_encoded.
Qed.

End receive.

(** ** Sending *)

Definition span_typed (span : data_span) : Prop :=
  in_width 64 (ds_length span) ∧ byte_length (ds_bytes span) = ds_length span ∧ Forall is_byte (ds_bytes span).

(** Values of the types of the parameters; a status describes its payloads consistently. *)
Definition call_typed (call : control_call) : Prop :=
  match call with
  | SendData flags payload _ => in_width 32 flags ∧ Forall (λ bytes, in_width 64 (byte_length bytes) ∧ Forall is_byte bytes) payload
  | SendDataCopy flags payload _ => in_width 32 flags ∧ Forall span_typed (default [] payload)
  | SendGoaway reason_code _ => in_width 32 reason_code
  | SendError error_status _ => ∃ texts, status_ok error_status texts
  end.

(** What the peer of a call gets. *)
Definition call_delivered (on_data : Z → list Z → iree_status_code) (call : control_call) (result : list control_event * control_result) : Prop :=
  match call with
  | SendData flags payload _ => result = ([ControlData flags (concat payload)], ReturnCode (on_data flags (concat payload)))
  | SendDataCopy flags payload _ =>
      let bytes := concat (ds_bytes <$> default [] payload) in result = ([ControlData flags bytes], ReturnCode (on_data flags bytes))
  | SendGoaway reason_code _ => result = ([ControlGoaway reason_code], ReturnCode IREE_STATUS_OK)
  | SendError error_status _ => ∃ texts, status_ok error_status texts ∧ result = ([], ReturnStatus (arrived error_status texts))
  end.

Lemma Ok_inj {A} (x y : A) : Ok x = Ok y → x = y.
Proof. congruence. Qed.

Lemma copy_spans_concat spans : Forall span_typed spans → copy_spans spans = concat (ds_bytes <$> spans).
Proof.
  induction 1 as [|span spans (_ & Hl & _) _ IH]; [done|]. cbn [copy_spans fmap list_fmap concat]. rewrite IH.
  destruct (Z.eqb_spec (ds_length span) 0) as [H0|_].
  - destruct (ds_bytes span); [done|]. unfold byte_length in Hl. cbn in Hl. lia.
  - rewrite take_ge; [done|]. unfold byte_length in Hl. lia.
Qed.

Lemma measure_spans_size spans size total :
  in_width 64 size → Forall span_typed spans → measure_spans size spans = Ok total →
  total = size + byte_length (concat (ds_bytes <$> spans)) ∧ in_width 64 total.
Proof.
  intros Hs Hsp. revert size Hs. induction Hsp as [|span spans (Hw & Hl & _) _ IH]; intros size Hs Hm.
  - injection Hm as <-. change (byte_length (concat (ds_bytes <$> []))) with 0. split; [lia|done].
  - cbn [measure_spans] in Hm. repeat (match type of Hm with (if ?b then _ else _) = _ => destruct b; [done|] end).
    rewrite checked_add_u64_eq in Hm by done. unfold checked in Hm. unfold in_width, umax in *. case_decide; [|done].
    assert (0 <= size + ds_length span < 2 ^ 64) as Hsum by lia. destruct (IH _ Hsum Hm) as [-> Ht]. cbn [fmap list_fmap concat]. rewrite byte_length_app, Hl. split; [lia|done].
Qed.

Lemma header_prefix_ok type flags value :
  let header := iree_net_control_message_encode_header type flags value in
  iree_net_send_prefix_from_bytes header = mk_send_prefix 8 (Some (λ length, Ok (take (Z.to_nat length) header))) true ∧ byte_length header = 8.
Proof. done. Qed.

Lemma flags_byte flags : in_width 32 flags → iree_net_control_channel_validate_flags flags = Ok () → is_byte flags ∧ wrap 8 flags = flags.
Proof.
  intros Hf. unfold iree_net_control_channel_validate_flags. destruct (Z.ltb_spec (umax 8) flags) as [|Hle]; [done|]. intros _.
  unfold umax, in_width, is_byte in *. split; [lia|]. apply wrap_small. unfold in_width. lia.
Qed.

(** The sizes and the writer of an accepted call, and the message it writes. *)
Definition call_written (call : control_call) (params : iree_net_message_endpoint_send_params_t) : Prop :=
  in_width 64 (sp_length (ps_generated_prefix params)) ∧ Forall (λ span, in_width 64 (byte_length span)) (ps_data params) ∧
  ∃ write, sp_write (ps_generated_prefix params) = Some write ∧
  ∀ bytes, write (sp_length (ps_generated_prefix params)) = Ok bytes →
    byte_length bytes = sp_length (ps_generated_prefix params) ∧
    match call with
    | SendError error_status _ =>
        ∃ texts, status_ok error_status texts ∧ representable error_status texts ∧ Forall nul_free (status_entries error_status texts) ∧
          iree_status_is_ok error_status = false ∧
          bytes ++ concat (ps_data params) = encode_control (MessageError (st_code error_status) (status_parts error_status texts))
    | SendData flags payload _ => is_byte flags ∧ bytes ++ concat (ps_data params) = encode_control (MessageData flags (concat payload))
    | SendDataCopy flags payload _ =>
        is_byte flags ∧ bytes ++ concat (ps_data params) = encode_control (MessageData flags (concat (ds_bytes <$> default [] payload)))
    | SendGoaway reason_code _ => bytes ++ concat (ps_data params) = encode_control (MessageGoaway reason_code)
    end.

Lemma error_written error_status completion_callback params :
  call_typed (SendError error_status completion_callback) → error_params error_status completion_callback = Ok params →
  call_written (SendError error_status completion_callback) params.
Proof.
  intros [texts Hok]. unfold error_params. destruct (iree_status_is_ok error_status) eqn:Hne; [done|].
  destruct completion_callback; cbn [iree_net_control_channel_validate_completion mbind status_or_bind]; [|done].
  rewrite (calculate_size_eq error_status texts) by done. destruct (decide (representable error_status texts)) as [Hrep|]; [|done].
  cbn [mbind status_or_bind]. pose proof (entries_size_nonneg (status_entries error_status texts)).
  pose proof (proj1 (proj2 Hrep)) as Hsize. unfold umax in Hsize.
  rewrite checked_add_u64_eq by (unfold in_width, IREE_NET_CONTROL_MESSAGE_HEADER_SIZE; lia). unfold checked, umax, IREE_NET_CONTROL_MESSAGE_HEADER_SIZE.
  rewrite decide_True by lia. intros [= <-]. unfold call_written. cbn [ps_generated_prefix ps_data sp_length sp_write].
  split; [unfold in_width; lia|]. split; [done|]. eexists. split; [done|]. intros bytes. unfold iree_net_control_channel_write_error.
  rewrite (serialize_eq error_status texts) by done. unfold serialize_spec. rewrite (decide_True (P := representable _ _)) by done.
  rewrite decide_False by (unfold byte_length; rewrite length_replicate; lia).
  destruct (decide (Forall nul_free _)) as [Hnul|]; [|done]. cbn [mbind status_or_bind]. intros H'. apply Ok_inj in H' as <-.
  rewrite drop_ge, app_nil_r by (rewrite length_replicate; lia). rewrite byte_length_app, byte_length_encode_status.
  split; [change (byte_length (iree_net_control_message_encode_header IREE_NET_CONTROL_MESSAGE_TYPE_ERROR 0 0)) with 8; lia|].
  exists texts. do 4 (split; [done|]). cbn [encode_control concat]. by rewrite app_nil_r, status_parts_entries.
Qed.

Lemma copy_written flags payload completion_callback params :
  call_typed (SendDataCopy flags payload completion_callback) → data_copy_params flags payload completion_callback = Ok params →
  call_written (SendDataCopy flags payload completion_callback) params.
Proof.
  intros [Hf Hsp]. unfold data_copy_params. destruct (iree_net_control_channel_validate_flags flags) as [[]|] eqn:Hv; [|done].
  destruct (flags_byte flags Hf Hv) as [Hb Hwrap]. cbn [mbind status_or_bind].
  destruct completion_callback; cbn [iree_net_control_channel_validate_completion mbind status_or_bind]; [|done].
  destruct payload as [spans|]; [|done]. cbn [iree_net_control_channel_measure_copy_payload default] in *.
  destruct (measure_spans _ spans) as [total|] eqn:Hm; [|done]. cbn [mbind status_or_bind]. intros [= <-]. rewrite Hwrap.
  apply measure_spans_size in Hm as [-> Hw]; [|unfold in_width, IREE_NET_CONTROL_MESSAGE_HEADER_SIZE; lia|done].
  unfold call_written. cbn [ps_generated_prefix ps_data sp_length sp_write default]. split; [done|]. split; [done|]. eexists. split; [done|].
  unfold iree_net_control_channel_write_data_copy. intros bytes H'. apply Ok_inj in H' as <-. rewrite copy_spans_concat by done. split; [by rewrite byte_length_app|].
  split; [done|]. cbn [concat]. by rewrite app_nil_r.
Qed.

Lemma params_written call params : call_typed call → control_params call = Ok params → call_written call params.
Proof.
  destruct call as [flags payload cb|flags payload cb|reason_code cb|error_status cb]; cbn [control_params].
  - intros [Hf Hp]. unfold data_params. destruct (iree_net_control_channel_validate_flags flags) as [[]|] eqn:Hv; [|done].
    destruct (flags_byte flags Hf Hv) as [Hb Hwrap]. cbn [mbind status_or_bind]. intros [= <-]. rewrite Hwrap.
    split; [change (in_width 64 8); unfold in_width; lia|]. split; [eapply Forall_impl; [exact Hp|by intros ? []]|]. eexists. split; [done|].
    intros bytes H'; apply Ok_inj in H' as <-. split; [done|]. split; [done|]. done.
  - apply copy_written.
  - intros Hr [= <-]. split; [change (in_width 64 8); unfold in_width; lia|]. split; [done|]. eexists. split; [done|]. intros bytes H'; apply Ok_inj in H' as <-. split; [done|].
    cbn [concat ps_data]. by rewrite app_nil_r.
  - apply error_written.
Qed.

Lemma written_params_ok call params :
  call_written call params → iree_net_message_endpoint_send params = IREE_STATUS_OK → send_params_ok params.
Proof.
  intros (Hl & Hd & write & Hw & Hbytes) Hs. split; [done|]. split; [done|]. split; [|done].
  intros write' bytes Hw' Hb. rewrite Hw in Hw'. injection Hw' as <-. by apply Hbytes.
Qed.

Lemma written_delivered host on_data call params bytes :
  (∀ i, generous (host i)) → call_typed call → call_written call params → send_message params = Ok bytes →
  call_delivered on_data call (iree_net_control_channel_on_message host on_data bytes).
Proof.
  intros Hhost Hty (_ & _ & write & Hw & Hbytes) Hs. unfold send_message in Hs. rewrite Hw in Hs.
  destruct (write (sp_length (ps_generated_prefix params))) as [prefix|]; [|done]. cbn [mbind status_or_bind] in Hs. apply Ok_inj in Hs as <-.
  destruct (Hbytes prefix eq_refl) as [_ H]. destruct call as [flags payload cb|flags payload cb|reason_code cb|error_status cb]; cbn [call_delivered].
  - destruct H as [Hf ->]. rewrite on_message_encoded; [done|]. split; [done|]. apply Forall_concat. eapply Forall_impl; [apply Hty|by intros ? []].
  - destruct H as [Hf ->]. rewrite on_message_encoded; [done|]. split; [done|]. apply Forall_concat, Forall_fmap.
    eapply Forall_impl; [apply Hty|by intros ? (_ & _ & ?)].
  - rewrite H. by rewrite on_message_encoded.
  - destruct H as (texts & Hok & Hrep & Hnul & Hne & ->). exists texts. split; [done|]. rewrite on_message_encoded.
    + cbn [delivered]. by rewrite rebuild_arrived.
    + split; [by apply status_wire_ok|]. rewrite (status_ok_code _ _ Hok) in Hne. by apply Z.eqb_neq.
Qed.

Lemma measure_spans_error spans size code : measure_spans size spans = Err code → code ≠ IREE_STATUS_OK.
Proof.
  revert size. induction spans as [|span spans IH]; intros size; [done|]. cbn [measure_spans].
  do 3 (match goal with |- (if ?b then _ else _) = _ → _ => destruct b; [by intros [= <-]|] end).
  destruct (iree_host_size_checked_add _ _); [apply IH|by intros [= <-]].
Qed.

Lemma params_error call code : call_typed call → control_params call = Err code → code ≠ IREE_STATUS_OK.
Proof.
  destruct call as [flags payload cb|flags payload cb|reason_code cb|error_status cb]; cbn [control_params]; intros Hty.
  - unfold data_params, iree_net_control_channel_validate_flags. by destruct (_ <? _); intros [= <-].
  - unfold data_copy_params, iree_net_control_channel_validate_flags. destruct (_ <? _); [by intros [= <-]|].
    destruct cb; [|by intros [= <-]]. destruct payload as [spans|]; [|by intros [= <-]]. cbn.
    destruct (measure_spans _ spans) eqn:Hm; [done|]. intros [= <-]. by eapply measure_spans_error.
  - done.
  - destruct Hty as [texts Hok]. unfold error_params. destruct (iree_status_is_ok error_status); [by intros [= <-]|].
    destruct cb; [|by intros [= <-]]. rewrite (calculate_size_eq error_status texts) by done.
    destruct (decide (representable _ _)); [|by intros [= <-]]. cbn [mbind status_or_bind iree_net_control_channel_validate_completion].
    destruct (iree_host_size_checked_add _ _); [done|by intros [= <-]].
Qed.

(** ** Over a framed endpoint *)

Section arrive.
Context {W Q O : Type} `{RQ : ReceiveQueues W Q O} `{!CursorLaws W Q O} `{EqDecision O}.
Context (queue : Q) (on_frame_complete : list Z → option Z → W → frame_result W).
Context (host_allocate : Z → W → status_or (Z * list Z) * W) (release : Z → W → W).

Notation cfg := (framed_config queue on_frame_complete host_allocate release).

Context (endpoint : iree_net_message_endpoint_send_params_t → iree_status_code).

(** A call that returned OK, with what it put on the wire. *)
Definition call_accepted (call : control_call) (wire : list Z) : Prop :=
  call_typed call ∧ control_send endpoint call = IREE_STATUS_OK ∧ ∀ params, control_params call = Ok params → send_wire_bytes params = Ok wire.

Lemma send_accepted call :
  call_typed call → control_send endpoint call = IREE_STATUS_OK →
  ∃ params, control_params call = Ok params ∧ iree_net_message_endpoint_send params = IREE_STATUS_OK ∧ endpoint params = IREE_STATUS_OK.
Proof.
  intros Hty Hs.
  assert (control_send endpoint call = match control_params call with Ok params => endpoint_send endpoint params | Err code => code end) as E
    by (by destruct call).
  rewrite E in Hs. destruct (control_params call) as [params|code] eqn:Hp; [|by destruct (params_error _ _ Hty Hp)].
  exists params. split; [done|]. unfold endpoint_send in Hs. by destruct (iree_net_message_endpoint_send params).
Qed.

(** C27: Control messages that are sent over a framed endpoint arrive: however the carrier cuts
    the bytes, the frames that reached the peer give its control channel, in order, the flags
    and bytes of each DATA call, copied or not, the reason of each GOAWAY and the status of
    each ERROR; once all bytes have arrived, of all calls. *)
Theorem control_messages_arrive host on_data (m m' : machine W Q O) vs calls wires rest :
  (∀ i, generous (host i)) → config_ok cfg → starts cfg m → stream_run cfg m vs m' →
  Forall2 call_accepted calls wires → stream_bytes vs ++ rest = concat wires →
  ∃ sent later, calls = sent ++ later ∧
    Forall2 (call_delivered on_data) sent
      (iree_net_control_channel_on_message host on_data ∘ frame_payload <$> frames (ma_calls m')) ∧
    (rest = [] → later = []).
Proof.
  intros Hhost Hcfg Hstart Hrun Hcalls Hbytes.
  assert (∃ sends, Forall2 (λ call params, call_typed call ∧ call_written call params) calls sends ∧
    Forall send_params_ok sends ∧ Forall2 (λ params bytes, send_wire_bytes params = Ok bytes) sends wires) as (sends & Hw & Hp & Hwires).
  { clear -Hcalls. induction Hcalls as [|call wire calls wires (Hty & Hs & Hwire) _ (sends & ? & ? & ?)]; [by exists []|].
    destruct (send_accepted call Hty Hs) as (params & Hpar & Hv & _).
    pose proof (params_written _ _ Hty Hpar) as Hwr. exists (params :: sends).
    split; [by constructor|]. split; [constructor; [by eapply written_params_ok|done]|constructor; [by apply Hwire|done]]. }
  destruct (framed_messages_arrive queue on_frame_complete host_allocate release m m' vs sends wires rest Hcfg Hstart Hrun Hp Hwires Hbytes)
    as (received & pending & Hm & Hr & Hall).
  assert (Forall2 (λ call message, call_delivered on_data call (iree_net_control_channel_on_message host on_data message)) calls (received ++ pending)) as Hdel.
  { clear -Hhost Hw Hm. revert Hm. generalize (received ++ pending) as messages. induction Hw as [|call params calls sends [Hty Hwr] _ IH]; intros messages Hm.
    - apply Forall2_nil_inv_l in Hm as ->. constructor.
    - apply Forall2_cons_inv_l in Hm as (message & messages' & Hmsg & Hm & ->). constructor; [by eapply written_delivered|by apply IH]. }
  apply Forall2_app_inv_r in Hdel as (sent & later & Hsent & Hlater & ->). exists sent, later. split; [done|]. split.
  - rewrite list_fmap_compose, Hr. by apply Forall2_fmap_r.
  - intros Hrest. destruct (Hall Hrest) as [-> _]. by apply Forall2_nil_inv_r in Hlater.
Qed.

End arrive.

(** ** Concrete messages *)

Definition sample_control_calls : list control_call :=
  [SendData 5 [[10]; [20; 30]] (Some 1); SendDataCopy 6 (Some [mk_data_span (Some (9, true)) 2 2 [8; 9]]) (Some 2); SendGoaway 7 (Some 3);
   SendError sample_status (Some 4)].

Definition sample_control_wires : list (list Z) :=
  frame_of <$> [encode_control (MessageData 5 [10; 20; 30]); encode_control (MessageData 6 [8; 9]); encode_control (MessageGoaway 7);
    encode_control (MessageError 5 (status_parts sample_status sample_texts))].

Definition sample_control_chunks : list (arrival (O := nat * nat)) :=
  sample_chunk <$> [take 11 (concat sample_control_wires); drop 11 (concat sample_control_wires)].

Lemma sample_control_accepted : Forall2 (call_accepted (λ _, IREE_STATUS_OK)) sample_control_calls sample_control_wires.
Proof.
  repeat constructor; try (apply (bool_decide_unpack _); vm_compute; exact I); try (unfold in_width; cbn; lia).
  all: try (intros params Hp; vm_compute in Hp; injection Hp as <-; vm_compute; reflexivity).
  exists sample_texts. apply sample_status_ok.
Qed.

Lemma sample_control_received :
  stream_run sample_framed sample_receiver sample_control_chunks (receive_all sample_control_chunks sample_receiver).
Proof.
  refine (stream_push _ _ [_] _ _ _ (stream_push _ _ [] _ _ _ (stream_start _ _) _ _) _ _); first [by exists 0|vm_compute; reflexivity].
Qed.

Lemma control_messages_arrive_witness :
  Forall2 (call_delivered (λ _ _, IREE_STATUS_OK)) sample_control_calls
    (iree_net_control_channel_on_message sample_host (λ _ _, IREE_STATUS_OK) ∘ frame_payload
       <$> frames (ma_calls (receive_all sample_control_chunks sample_receiver))).
Proof.
  destruct (control_messages_arrive 0%nat _ _ _ (λ _, IREE_STATUS_OK) sample_host (λ _ _, IREE_STATUS_OK) _ _ sample_control_chunks
    sample_control_calls sample_control_wires [] ltac:(by intros i n Hn) sample_framed_ok sample_receiver_starts sample_control_received
    sample_control_accepted) as (sent & later & Hc & Hd & Hall).
  - vm_compute. reflexivity.
  - rewrite (Hall eq_refl), app_nil_r in Hc. rewrite Hc. exact Hd.
Defined.

Lemma control_receive_exact_witness :
  (∃ m, control_message_ok m ∧ encode_control (MessageGoaway 7) = encode_control m) ∧
  (∀ m, control_message_ok m → [1; 3; 0; 0; 7; 0; 0; 0; 9] ≠ encode_control m).
Proof.
  split.
  - destruct (control_receive_exact sample_host (λ _ _, IREE_STATUS_OK) (encode_control (MessageGoaway 7))) as [(m & Hm & He & _)|[_ H]].
    + apply (bool_decide_unpack _). vm_compute. exact I.
    + exists m. exact (conj Hm He).
    + vm_compute in H. discriminate H.
  - destruct (control_receive_exact sample_host (λ _ _, IREE_STATUS_OK) [1; 3; 0; 0; 7; 0; 0; 0; 9]) as [(m & Hm & He & H)|[H _]].
    + apply (bool_decide_unpack _). vm_compute. exact I.
    + assert (iree_net_control_channel_on_message sample_host (λ _ _, IREE_STATUS_OK) [1; 3; 0; 0; 7; 0; 0; 0; 9] =
        ([], ReturnCode IREE_STATUS_DATA_LOSS)) as E by (vm_compute; reflexivity).
      rewrite E in H. destruct m; discriminate H.
    + exact H.
Defined.
