(* ===== verification/Bootstrap.v ===== *)
(** * Bootstrap messages

    [iree/net/bootstrap.c]: the messages that two peers exchange on the first endpoint of a
    connection, with the sizing, serialization and parsing of their wire format. *)

From S2P Require Import Prelude BaseMath WireBytes ReceiveQueue Frontier StatusWire.
From stdpp Require Import base numbers list list_numbers.

Local Open Scope Z_scope.
Local Open Scope machine_scope.

(** ** Messages *)

Definition IREE_NET_BOOTSTRAP_PROTOCOL_VERSION : Z := 3.
Definition IREE_NET_BOOTSTRAP_HEADER_SIZE : Z := 8.
Definition IREE_NET_BOOTSTRAP_PEER_INFO_SIZE : Z := 32.
Definition IREE_NET_BOOTSTRAP_REJECT_SIZE : Z := 16.
Definition IREE_NET_BOOTSTRAP_AXIS_ENTRY_SIZE : Z := 16.
Definition IREE_NET_BOOTSTRAP_ALIGNMENT : Z := 8.

Definition IREE_NET_BOOTSTRAP_TYPE_HELLO : Z := 1.
Definition IREE_NET_BOOTSTRAP_TYPE_HELLO_ACK : Z := 2.
Definition IREE_NET_BOOTSTRAP_TYPE_REJECT : Z := 3.

Definition IREE_NET_BOOTSTRAP_CAPABILITY_NONE : Z := 0.
Definition IREE_NET_BOOTSTRAP_CAPABILITY_BULK_TRANSFER : Z := Z.shiftl 1 0.
Definition IREE_NET_BOOTSTRAP_CAPABILITY_RDMA : Z := Z.shiftl 1 1.
Definition IREE_NET_BOOTSTRAP_CAPABILITY_ALL_RECOGNIZED : Z :=
  Z.lor IREE_NET_BOOTSTRAP_CAPABILITY_BULK_TRANSFER IREE_NET_BOOTSTRAP_CAPABILITY_RDMA.

(** A pointer with a count: storage with its elements, or a null pointer with any count. *)
Inductive span (A : Type) :=
  | NullSpan (count : Z)
  | Span (elements : list A).
Arguments NullSpan {A} count.
Arguments Span {A} elements.

Definition span_length {A} (s : span A) : Z := match s with NullSpan count => count | Span l => Z.of_nat (length l) end.
Definition span_elements {A} (s : span A) : list A := match s with NullSpan _ => [] | Span l => l end.
Definition span_missing {A} (s : span A) : bool := match s with NullSpan _ => true | Span _ => false end.

(** [pi_axes] is the pointer with [axis_count]. *)
Record iree_net_bootstrap_peer_info_t := mk_peer_info {
  pi_capabilities : Z;
  pi_application_endpoint_count : Z;
  pi_axes : span iree_async_frontier_entry_t;
  pi_application_data : span Z;
  pi_machine_index : Z;
  pi_session_epoch : Z;
}.

Record iree_net_bootstrap_reject_t := mk_reject {
  rj_status_code : Z;
  rj_reason : span Z;
}.

(** A type selects the member of the union; other types have none. *)
Inductive iree_net_bootstrap_message_t :=
  | BootstrapHello (hello : iree_net_bootstrap_peer_info_t)
  | BootstrapHelloAck (hello_ack : iree_net_bootstrap_peer_info_t)
  | BootstrapReject (reject : iree_net_bootstrap_reject_t)
  | BootstrapOther (type : Z).

Definition message_type (message : iree_net_bootstrap_message_t) : Z :=
  match message with
  | BootstrapHello _ => IREE_NET_BOOTSTRAP_TYPE_HELLO
  | BootstrapHelloAck _ => IREE_NET_BOOTSTRAP_TYPE_HELLO_ACK
  | BootstrapReject _ => IREE_NET_BOOTSTRAP_TYPE_REJECT
  | BootstrapOther type => type
  end.

(** ** Layout and validation *)

Record iree_net_bootstrap_layout_t := mk_bootstrap_layout {
  bl_variable_data_offset : Z;
  bl_variable_data_length : Z;
  bl_total_size : Z;
}.

Definition iree_net_bootstrap_try_calculate_layout (fixed_size prefix_count prefix_element_size variable_data_length : Z) :
    option iree_net_bootstrap_layout_t :=
  prefix_size ← iree_host_size_checked_mul prefix_count prefix_element_size;
  variable_data_offset ← iree_host_size_checked_add fixed_size prefix_size;
  unaligned_total_size ← iree_host_size_checked_add variable_data_offset variable_data_length;
  total_size ← iree_host_size_checked_align unaligned_total_size IREE_NET_BOOTSTRAP_ALIGNMENT;
  if umax 32 <? total_size then None
  else Some (mk_bootstrap_layout variable_data_offset variable_data_length total_size).

Definition iree_net_bootstrap_validate_capabilities (capabilities : Z) : status_or () :=
  if negb (Z.land capabilities (unot 32 IREE_NET_BOOTSTRAP_CAPABILITY_ALL_RECOGNIZED) =? 0) then Err IREE_STATUS_INVALID_ARGUMENT
  else Ok ().

Definition iree_net_bootstrap_validate_axis (axis machine_index session_epoch : Z) : status_or () :=
  let domain := iree_async_axis_domain axis in
  if negb ((domain =? IREE_ASYNC_CAUSAL_DOMAIN_QUEUE) || (domain =? IREE_ASYNC_CAUSAL_DOMAIN_COLLECTIVE) ||
           (domain =? IREE_ASYNC_CAUSAL_DOMAIN_EPILOGUE) || (domain =? IREE_ASYNC_CAUSAL_DOMAIN_HOST))
  then Err IREE_STATUS_INVALID_ARGUMENT
  else if negb (iree_async_axis_machine axis =? machine_index) then Err IREE_STATUS_INVALID_ARGUMENT
  else if negb (iree_async_axis_session axis =? session_epoch) then Err IREE_STATUS_INVALID_ARGUMENT
  else Ok ().

Fixpoint validate_axes (axes : list iree_async_frontier_entry_t) (machine_index session_epoch : Z) : status_or () :=
  match axes with
  | [] => Ok ()
  | e :: axes =>
      _ ← iree_net_bootstrap_validate_axis (axis e) machine_index session_epoch;
      validate_axes axes machine_index session_epoch
  end.

Definition iree_net_bootstrap_calculate_peer_layout (peer : iree_net_bootstrap_peer_info_t) : status_or iree_net_bootstrap_layout_t :=
  _ ← iree_net_bootstrap_validate_capabilities (pi_capabilities peer);
  if (0 <? span_length (pi_axes peer)) && span_missing (pi_axes peer) then Err IREE_STATUS_INVALID_ARGUMENT
  else if umax 32 <? span_length (pi_application_data peer) then Err IREE_STATUS_OUT_OF_RANGE
  else if (0 <? span_length (pi_application_data peer)) && span_missing (pi_application_data peer) then Err IREE_STATUS_INVALID_ARGUMENT
  else
    match iree_net_bootstrap_try_calculate_layout IREE_NET_BOOTSTRAP_PEER_INFO_SIZE (span_length (pi_axes peer))
            IREE_NET_BOOTSTRAP_AXIS_ENTRY_SIZE (span_length (pi_application_data peer)) with
    | None => Err IREE_STATUS_OUT_OF_RANGE
    | Some layout =>
        _ ← validate_axes (span_elements (pi_axes peer)) (pi_machine_index peer) (pi_session_epoch peer);
        Ok layout
    end.

Definition iree_net_bootstrap_calculate_reject_layout (reject : iree_net_bootstrap_reject_t) : status_or iree_net_bootstrap_layout_t :=
  let status_code := wrap 32 (rj_status_code reject) in
  if (status_code =? 0) || (IREE_STATUS_CODE_MASK <? status_code) then Err IREE_STATUS_INVALID_ARGUMENT
  else if umax 32 <? span_length (rj_reason reject) then Err IREE_STATUS_OUT_OF_RANGE
  else if (0 <? span_length (rj_reason reject)) && span_missing (rj_reason reject) then Err IREE_STATUS_INVALID_ARGUMENT
  else if (0 <? span_length (rj_reason reject)) && bool_decide (0 ∈ span_elements (rj_reason reject)) then Err IREE_STATUS_INVALID_ARGUMENT
  else
    match iree_net_bootstrap_try_calculate_layout IREE_NET_BOOTSTRAP_REJECT_SIZE 0 0 (span_length (rj_reason reject)) with
    | None => Err IREE_STATUS_OUT_OF_RANGE
    | Some layout => Ok layout
    end.

(** [None] is a null pointer. *)
Definition iree_net_bootstrap_message_calculate_layout (message : option iree_net_bootstrap_message_t) :
    status_or iree_net_bootstrap_layout_t :=
  match message with
  | None => Err IREE_STATUS_INVALID_ARGUMENT
  | Some (BootstrapHello peer) | Some (BootstrapHelloAck peer) => iree_net_bootstrap_calculate_peer_layout peer
  | Some (BootstrapReject reject) => iree_net_bootstrap_calculate_reject_layout reject
  | Some (BootstrapOther _) => Err IREE_STATUS_INVALID_ARGUMENT
  end.

Definition iree_net_bootstrap_message_calculate_size (message : option iree_net_bootstrap_message_t) : status_or Z :=
  layout ← iree_net_bootstrap_message_calculate_layout message;
  Ok (bl_total_size layout).

(** ** Writing *)

Definition iree_net_bootstrap_serialize_header (type total_size : Z) (output : list Z) : list Z :=
  let output := write_bytes 0 [wrap 8 type] output in
  let output := write_bytes 1 [IREE_NET_BOOTSTRAP_PROTOCOL_VERSION] output in
  write_bytes 4 (iree_unaligned_store_le_u32 (wrap 32 total_size)) output.

Fixpoint serialize_axes (axes : list iree_async_frontier_entry_t) (encoded_axis : nat) (output : list Z) : list Z :=
  match axes with
  | [] => output
  | e :: axes =>
      let output := write_bytes encoded_axis (iree_unaligned_store_le_u64 (axis e)) output in
      let output := write_bytes (encoded_axis + 8) (iree_unaligned_store_le_u64 (epoch e)) output in
      serialize_axes axes (encoded_axis + Z.to_nat IREE_NET_BOOTSTRAP_AXIS_ENTRY_SIZE) output
  end.

Definition iree_net_bootstrap_serialize_peer (peer : iree_net_bootstrap_peer_info_t) (layout : iree_net_bootstrap_layout_t)
    (output : list Z) : list Z :=
  let output := write_bytes 8 (iree_unaligned_store_le_u32 (pi_capabilities peer)) output in
  let output := write_bytes 12 (iree_unaligned_store_le_u32 (pi_application_endpoint_count peer)) output in
  let output := write_bytes 16 (iree_unaligned_store_le_u32 (span_length (pi_axes peer))) output in
  let output := write_bytes 20 (iree_unaligned_store_le_u32 (wrap 32 (span_length (pi_application_data peer)))) output in
  let output := write_bytes 24 [pi_machine_index peer] output in
  let output := write_bytes 25 [pi_session_epoch peer] output in
  let output := serialize_axes (span_elements (pi_axes peer)) (Z.to_nat IREE_NET_BOOTSTRAP_PEER_INFO_SIZE) output in
  if 0 <? span_length (pi_application_data peer)
  then write_bytes (Z.to_nat (bl_variable_data_offset layout)) (span_elements (pi_application_data peer)) output
  else output.

Definition iree_net_bootstrap_serialize_reject (reject : iree_net_bootstrap_reject_t) (layout : iree_net_bootstrap_layout_t)
    (output : list Z) : list Z :=
  let output := write_bytes 8 [wrap 8 (rj_status_code reject)] output in
  let output := write_bytes 12 (iree_unaligned_store_le_u32 (wrap 32 (span_length (rj_reason reject)))) output in
  if 0 <? span_length (rj_reason reject)
  then write_bytes (Z.to_nat (bl_variable_data_offset layout)) (span_elements (rj_reason reject)) output
  else output.

(** The buffer after a successful call. *)
Definition iree_net_bootstrap_message_serialize (message : option iree_net_bootstrap_message_t) (buffer : span Z) : status_or (list Z) :=
  layout ← iree_net_bootstrap_message_calculate_layout message;
  match message, buffer with
  | _, NullSpan _ => Err IREE_STATUS_INVALID_ARGUMENT
  | None, _ => Err IREE_STATUS_INVALID_ARGUMENT
  | Some message, Span data =>
      if span_length buffer <? bl_total_size layout then Err IREE_STATUS_RESOURCE_EXHAUSTED
      else
        let data := write_bytes 0 (replicate (Z.to_nat (bl_total_size layout)) 0) data in
        let data := iree_net_bootstrap_serialize_header (message_type message) (bl_total_size layout) data in
        Ok match message with
           | BootstrapHello peer | BootstrapHelloAck peer => iree_net_bootstrap_serialize_peer peer layout data
           | BootstrapReject reject => iree_net_bootstrap_serialize_reject reject layout data
           | BootstrapOther _ => data
           end
  end.

(** ** Reading *)

(** Encoded entries in the message's storage. *)
Record iree_net_bootstrap_axis_list_t := mk_axis_list {
  al_encoded_entries : list Z;
  al_count : Z;
}.

Definition iree_net_bootstrap_axis_list_get (axis_list : iree_net_bootstrap_axis_list_t) (index : nat) : iree_async_frontier_entry_t :=
  let offset := (index * Z.to_nat IREE_NET_BOOTSTRAP_AXIS_ENTRY_SIZE)%nat in
  entry (iree_unaligned_load_le_u64 (al_encoded_entries axis_list) offset)
        (iree_unaligned_load_le_u64 (al_encoded_entries axis_list) (offset + 8)).

Record iree_net_bootstrap_peer_info_view_t := mk_peer_info_view {
  pv_capabilities : Z;
  pv_application_endpoint_count : Z;
  pv_axes : iree_net_bootstrap_axis_list_t;
  pv_application_data : list Z;
  pv_machine_index : Z;
  pv_session_epoch : Z;
}.

Record iree_net_bootstrap_reject_view_t := mk_reject_view {
  rv_status_code : Z;
  rv_reason : list Z;
}.

Inductive iree_net_bootstrap_message_view_t :=
  | ViewHello (hello : iree_net_bootstrap_peer_info_view_t)
  | ViewHelloAck (hello_ack : iree_net_bootstrap_peer_info_view_t)
  | ViewReject (reject : iree_net_bootstrap_reject_view_t).

(** The loop from [i] with [count] iterations left. *)
Fixpoint padding_is_zero (data : list Z) (i : Z) (count : nat) : bool :=
  match count with
  | 0%nat => true
  | S count => if negb (byte_at data i =? 0) then false else padding_is_zero data (i +64 1) count
  end.

Definition iree_net_bootstrap_validate_zero_padding (data : list Z) (layout : iree_net_bootstrap_layout_t) : status_or () :=
  let padding_offset := bl_variable_data_offset layout +64 bl_variable_data_length layout in
  if padding_is_zero data padding_offset (Z.to_nat (bl_total_size layout - padding_offset)) then Ok ()
  else Err IREE_STATUS_INVALID_ARGUMENT.

(** The loop from entry [i] with [count] iterations left. *)
Fixpoint validate_encoded_axes (axes : iree_net_bootstrap_axis_list_t) (machine_index session_epoch : Z) (i count : nat) : status_or () :=
  match count with
  | 0%nat => Ok ()
  | S count =>
      _ ← iree_net_bootstrap_validate_axis (axis (iree_net_bootstrap_axis_list_get axes i)) machine_index session_epoch;
      validate_encoded_axes axes machine_index session_epoch (S i) count
  end.

Definition iree_net_bootstrap_parse_peer (data : list Z) : status_or iree_net_bootstrap_peer_info_view_t :=
  if byte_length data <? IREE_NET_BOOTSTRAP_PEER_INFO_SIZE then Err IREE_STATUS_INVALID_ARGUMENT
  else
    let capabilities := iree_unaligned_load_le_u32 data 8 in
    _ ← iree_net_bootstrap_validate_capabilities capabilities;
    let application_endpoint_count := iree_unaligned_load_le_u32 data 12 in
    let axis_count := iree_unaligned_load_le_u32 data 16 in
    let application_data_length := iree_unaligned_load_le_u32 data 20 in
    let machine_index := byte_at data 24 in
    let session_epoch := byte_at data 25 in
    let reserved_0 := iree_unaligned_load_le_u16 data 26 in
    let reserved_1 := iree_unaligned_load_le_u32 data 28 in
    if negb (reserved_0 =? 0) || negb (reserved_1 =? 0) then Err IREE_STATUS_INVALID_ARGUMENT
    else
      match iree_net_bootstrap_try_calculate_layout IREE_NET_BOOTSTRAP_PEER_INFO_SIZE axis_count
              IREE_NET_BOOTSTRAP_AXIS_ENTRY_SIZE application_data_length with
      | None => Err IREE_STATUS_INVALID_ARGUMENT
      | Some layout =>
          if negb (bl_total_size layout =? byte_length data) then Err IREE_STATUS_INVALID_ARGUMENT
          else
            let axes :=
              mk_axis_list (text_at data IREE_NET_BOOTSTRAP_PEER_INFO_SIZE (bl_variable_data_offset layout -64 IREE_NET_BOOTSTRAP_PEER_INFO_SIZE))
                axis_count in
            _ ← validate_encoded_axes axes machine_index session_epoch 0 (Z.to_nat axis_count);
            _ ← iree_net_bootstrap_validate_zero_padding data layout;
            Ok (mk_peer_info_view capabilities application_endpoint_count axes
                  (text_at data (bl_variable_data_offset layout) application_data_length) machine_index session_epoch)
      end.

Definition iree_net_bootstrap_parse_reject (data : list Z) : status_or iree_net_bootstrap_reject_view_t :=
  if byte_length data <? IREE_NET_BOOTSTRAP_REJECT_SIZE then Err IREE_STATUS_INVALID_ARGUMENT
  else
    let status_code := byte_at data 8 in
    if (status_code =? 0) || (IREE_STATUS_CODE_MASK <? status_code) then Err IREE_STATUS_INVALID_ARGUMENT
    else if negb (byte_at data 9 =? 0) || negb (byte_at data 10 =? 0) || negb (byte_at data 11 =? 0) then Err IREE_STATUS_INVALID_ARGUMENT
    else
      let reason_length := iree_unaligned_load_le_u32 data 12 in
      match iree_net_bootstrap_try_calculate_layout IREE_NET_BOOTSTRAP_REJECT_SIZE 0 0 reason_length with
      | None => Err IREE_STATUS_INVALID_ARGUMENT
      | Some layout =>
          if negb (bl_total_size layout =? byte_length data) then Err IREE_STATUS_INVALID_ARGUMENT
          else
            let reason := text_at data (bl_variable_data_offset layout) reason_length in
            if (0 <? reason_length) && bool_decide (0 ∈ reason) then Err IREE_STATUS_INVALID_ARGUMENT
            else
              _ ← iree_net_bootstrap_validate_zero_padding data layout;
              Ok (mk_reject_view status_code reason)
      end.

Definition iree_net_bootstrap_message_parse (data : span Z) : status_or iree_net_bootstrap_message_view_t :=
  if span_length data <? IREE_NET_BOOTSTRAP_HEADER_SIZE then Err IREE_STATUS_INVALID_ARGUMENT
  else
    match data with
    | NullSpan _ => Err IREE_STATUS_INVALID_ARGUMENT
    | Span data =>
        let type := byte_at data 0 in
        let version := byte_at data 1 in
        if negb (version =? IREE_NET_BOOTSTRAP_PROTOCOL_VERSION) then Err IREE_STATUS_INVALID_ARGUMENT
        else
          let flags := iree_unaligned_load_le_u16 data 2 in
          if negb (flags =? 0) then Err IREE_STATUS_INVALID_ARGUMENT
          else
            let total_size := iree_unaligned_load_le_u32 data 4 in
            if negb (total_size =? byte_length data) then Err IREE_STATUS_INVALID_ARGUMENT
            else if negb (total_size mod IREE_NET_BOOTSTRAP_ALIGNMENT =? 0) then Err IREE_STATUS_INVALID_ARGUMENT
            else if type =? IREE_NET_BOOTSTRAP_TYPE_HELLO then
              peer ← iree_net_bootstrap_parse_peer data; Ok (ViewHello peer)
            else if type =? IREE_NET_BOOTSTRAP_TYPE_HELLO_ACK then
              peer ← iree_net_bootstrap_parse_peer data; Ok (ViewHelloAck peer)
            else if type =? IREE_NET_BOOTSTRAP_TYPE_REJECT then
              reject ← iree_net_bootstrap_parse_reject data; Ok (ViewReject reject)
            else Err IREE_STATUS_INVALID_ARGUMENT
    end.
