(* ===== verification/BootstrapWrite.v ===== *)
(** * The encoding of bootstrap messages

    A reference encoding, and that sizing and serialization produce exactly this encoding or
    the error that is due. *)

From S2P Require Import Prelude BaseMath WireBytes ReceiveQueue FrameInvariant Frontier StatusWire StatusWrite Bootstrap.
From stdpp Require Import base numbers list list_numbers.

Local Open Scope Z_scope.
Local Open Scope machine_scope.

(** ** Reference encoding *)

Definition encode_axis (e : iree_async_frontier_entry_t) : list Z := le_bytes 8 (axis e) ++ le_bytes 8 (epoch e).

Definition encode_axes (axes : list iree_async_frontier_entry_t) : list Z := concat (encode_axis <$> axes).

(** Zeros up to the next multiple of the alignment. *)
Definition zero_padding (n : Z) : list Z := replicate (Z.to_nat (round_up n 8 - n)) 0.

Definition peer_extent (axis_count data_length : Z) : Z := 32 + 16 * axis_count + data_length.

Definition encode_peer (type : Z) (peer : iree_net_bootstrap_peer_info_t) : list Z :=
  let axes := span_elements (pi_axes peer) in
  let data := span_elements (pi_application_data peer) in
  let extent := peer_extent (Z.of_nat (length axes)) (byte_length data) in
  [type; 3; 0; 0] ++ le_bytes 4 (round_up extent 8) ++ le_bytes 4 (pi_capabilities peer) ++
  le_bytes 4 (pi_application_endpoint_count peer) ++ le_bytes 4 (Z.of_nat (length axes)) ++ le_bytes 4 (byte_length data) ++
  [pi_machine_index peer; pi_session_epoch peer; 0; 0; 0; 0; 0; 0] ++ encode_axes axes ++ data ++ zero_padding extent.

Definition encode_reject (reject : iree_net_bootstrap_reject_t) : list Z :=
  let reason := span_elements (rj_reason reject) in
  [3; 3; 0; 0] ++ le_bytes 4 (round_up (16 + byte_length reason) 8) ++ [rj_status_code reject; 0; 0; 0] ++
  le_bytes 4 (byte_length reason) ++ reason ++ zero_padding (16 + byte_length reason).

Definition encode_message (m : iree_net_bootstrap_message_t) : list Z :=
  match m with
  | BootstrapHello peer => encode_peer 1 peer
  | BootstrapHelloAck peer => encode_peer 2 peer
  | BootstrapReject reject => encode_reject reject
  | BootstrapOther _ => []
  end.

(** ** Well-typed messages *)

Definition span_typed {A} (P : A → Prop) (width : Z) (s : span A) : Prop := in_width width (span_length s) ∧ Forall P (span_elements s).

Definition axis_typed (e : iree_async_frontier_entry_t) : Prop := in_width 64 (axis e) ∧ in_width 64 (epoch e).

Definition peer_typed (peer : iree_net_bootstrap_peer_info_t) : Prop :=
  in_width 32 (pi_capabilities peer) ∧ in_width 32 (pi_application_endpoint_count peer) ∧ span_typed axis_typed 32 (pi_axes peer) ∧
  span_typed is_byte 64 (pi_application_data peer) ∧ is_byte (pi_machine_index peer) ∧ is_byte (pi_session_epoch peer).

Definition reject_typed (reject : iree_net_bootstrap_reject_t) : Prop :=
  in_width 32 (rj_status_code reject) ∧ span_typed is_byte 64 (rj_reason reject).

Definition message_typed (m : iree_net_bootstrap_message_t) : Prop :=
  match m with
  | BootstrapHello peer | BootstrapHelloAck peer => peer_typed peer
  | BootstrapReject reject => reject_typed reject
  | BootstrapOther type => type ∉ [1; 2; 3]
  end.

(** ** The error that is due *)

(** The axis belongs to the peer. *)
Definition axis_of_peer (machine_index session_epoch : Z) (e : iree_async_frontier_entry_t) : Prop :=
  0 <= iree_async_axis_domain (axis e) <= 3 ∧ iree_async_axis_machine (axis e) = machine_index ∧
  iree_async_axis_session (axis e) = session_epoch.

#[export] Instance axis_of_peer_dec machine_index session_epoch e : Decision (axis_of_peer machine_index session_epoch e).
Proof. unfold axis_of_peer. apply _. Defined.

(** A count without storage. *)
Definition span_absent {A} (s : span A) : Prop := match s with NullSpan count => count ≠ 0 | Span _ => False end.

#[export] Instance span_absent_dec {A} (s : span A) : Decision (span_absent s).
Proof. destruct s; cbn; apply _. Defined.

(** Capabilities are a set of the two known bits. *)
Definition peer_error (peer : iree_net_bootstrap_peer_info_t) : option iree_status_code :=
  if decide (pi_capabilities peer ∉ [0; 1; 2; 3] ∨ span_absent (pi_axes peer)) then Some IREE_STATUS_INVALID_ARGUMENT
  else if decide (2 ^ 32 <= span_length (pi_application_data peer)) then Some IREE_STATUS_OUT_OF_RANGE
  else if decide (span_absent (pi_application_data peer)) then Some IREE_STATUS_INVALID_ARGUMENT
  else if decide (2 ^ 32 <= round_up (peer_extent (span_length (pi_axes peer)) (span_length (pi_application_data peer))) 8)
    then Some IREE_STATUS_OUT_OF_RANGE
  else if decide (Forall (axis_of_peer (pi_machine_index peer) (pi_session_epoch peer)) (span_elements (pi_axes peer))) then None
  else Some IREE_STATUS_INVALID_ARGUMENT.

Definition reject_error (reject : iree_net_bootstrap_reject_t) : option iree_status_code :=
  if decide (¬ 1 <= rj_status_code reject <= 31) then Some IREE_STATUS_INVALID_ARGUMENT
  else if decide (2 ^ 32 <= span_length (rj_reason reject)) then Some IREE_STATUS_OUT_OF_RANGE
  else if decide (span_absent (rj_reason reject) ∨ 0 ∈ span_elements (rj_reason reject)) then Some IREE_STATUS_INVALID_ARGUMENT
  else if decide (2 ^ 32 <= round_up (16 + span_length (rj_reason reject)) 8) then Some IREE_STATUS_OUT_OF_RANGE
  else None.

Definition message_error (m : iree_net_bootstrap_message_t) : option iree_status_code :=
  match m with
  | BootstrapHello peer | BootstrapHelloAck peer => peer_error peer
  | BootstrapReject reject => reject_error reject
  | BootstrapOther _ => Some IREE_STATUS_INVALID_ARGUMENT
  end.

(** A message that has an encoding. *)
Definition message_ok (m : iree_net_bootstrap_message_t) : Prop := message_typed m ∧ message_error m = None.

(** ** Sizes *)

Lemma length_encode_axis e : length (encode_axis e) = 16%nat.
Proof. unfold encode_axis. by rewrite length_app, !length_le_bytes. Qed.

Lemma length_encode_axes axes : length (encode_axes axes) = (16 * length axes)%nat.
Proof.
  unfold encode_axes. induction axes as [|e axes IH]; [done|]. cbn [fmap list_fmap concat length]. rewrite length_app, length_encode_axis, IH. lia.
Qed.

Lemma round_up_8 n : n <= round_up n 8 < n + 8 ∧ (round_up n 8) mod 8 = 0.
Proof.
  destruct (round_up_spec n 8 eq_refl) as [[q Hq] H]. split; [done|]. rewrite Hq. by apply Z.mod_mul.
Qed.

Lemma length_zero_padding n : Z.of_nat (length (zero_padding n)) = round_up n 8 - n.
Proof. unfold zero_padding. rewrite length_replicate. pose proof (round_up_8 n). lia. Qed.

Lemma byte_length_encode_peer type peer :
  byte_length (encode_peer type peer) =
    round_up (peer_extent (Z.of_nat (length (span_elements (pi_axes peer)))) (byte_length (span_elements (pi_application_data peer)))) 8.
Proof.
  unfold encode_peer. set (extent := peer_extent _ _). pose proof (length_zero_padding extent) as H. unfold byte_length in *.
  rewrite !length_app, !length_le_bytes, length_encode_axes. cbn [length]. unfold extent, peer_extent in *. lia.
Qed.

Lemma byte_length_encode_reject reject :
  byte_length (encode_reject reject) = round_up (16 + byte_length (span_elements (rj_reason reject))) 8.
Proof.
  unfold encode_reject. pose proof (length_zero_padding (16 + byte_length (span_elements (rj_reason reject)))) as H. unfold byte_length in *.
  rewrite !length_app, !length_le_bytes. cbn [length]. lia.
Qed.

(** ** Layout *)

(** A layout of at most 32 fixed bytes and entries of at most 16 bytes. *)
Lemma layout_eq fixed count size len :
  0 <= fixed <= 32 → in_width 32 count → 0 <= size <= 16 → 0 <= len < 2 ^ 32 →
  iree_net_bootstrap_try_calculate_layout fixed count size len =
    if decide (2 ^ 32 <= round_up (fixed + count * size + len) 8) then None
    else Some (mk_bootstrap_layout (fixed + count * size) len (round_up (fixed + count * size + len) 8)).
Proof.
  unfold in_width. intros Hf Hc Hs Hl. assert (0 <= count * size <= 2 ^ 32 * 16) by nia.
  unfold iree_net_bootstrap_try_calculate_layout. rewrite checked_mul_u64_eq by (unfold in_width; lia).
  unfold checked at 1. rewrite decide_True by (unfold umax; lia). cbn [mbind option_bind].
  rewrite checked_add_u64_eq by (unfold in_width; lia). unfold checked at 1. rewrite decide_True by (unfold umax; lia). cbn [mbind option_bind].
  rewrite checked_add_u64_eq by (unfold in_width; lia). unfold checked at 1. rewrite decide_True by (unfold umax; lia). cbn [mbind option_bind].
  change IREE_NET_BOOTSTRAP_ALIGNMENT with (2 ^ 3). rewrite checked_align_eq by (unfold in_width; lia).
  rewrite decide_True by lia. cbn [mbind option_bind]. change (2 ^ 3) with 8. unfold umax.
  destruct (Z.ltb_spec (2 ^ 32 - 1) (round_up (fixed + count * size + len) 8)); case_decide; (done || lia).
Qed.

Lemma validate_capabilities_eq c :
  in_width 32 c → iree_net_bootstrap_validate_capabilities c = if decide (c ∈ [0; 1; 2; 3]) then Ok () else Err IREE_STATUS_INVALID_ARGUMENT.
Proof.
  intros Hc. unfold iree_net_bootstrap_validate_capabilities. change IREE_NET_BOOTSTRAP_CAPABILITY_ALL_RECOGNIZED with (2 ^ 2 - 1).
  rewrite land_low_mask by (done || lia). unfold in_width in Hc. pose proof (Z.mod_pos_bound c (2 ^ 2)). pose proof (Z.div_mod c (2 ^ 2)).
  destruct (Z.eqb_spec (c - c mod 2 ^ 2) 0); cbn [negb]; case_decide as Hin; try done; rewrite !elem_of_cons, elem_of_nil in Hin; lia.
Qed.

Lemma validate_axis_eq e machine session :
  iree_net_bootstrap_validate_axis (axis e) machine session =
    if decide (axis_of_peer machine session e) then Ok () else Err IREE_STATUS_INVALID_ARGUMENT.
Proof.
  unfold iree_net_bootstrap_validate_axis, axis_of_peer.
  change IREE_ASYNC_CAUSAL_DOMAIN_QUEUE with 0. change IREE_ASYNC_CAUSAL_DOMAIN_COLLECTIVE with 1.
  change IREE_ASYNC_CAUSAL_DOMAIN_EPILOGUE with 2. change IREE_ASYNC_CAUSAL_DOMAIN_HOST with 3.
  destruct (Z.eqb_spec (iree_async_axis_domain (axis e)) 0), (Z.eqb_spec (iree_async_axis_domain (axis e)) 1),
    (Z.eqb_spec (iree_async_axis_domain (axis e)) 2), (Z.eqb_spec (iree_async_axis_domain (axis e)) 3); cbn [negb orb];
    destruct (Z.eqb_spec (iree_async_axis_machine (axis e)) machine), (Z.eqb_spec (iree_async_axis_session (axis e)) session); cbn [negb];
    case_decide as Hd; first [done | exfalso; apply Hd; lia | exfalso; lia].
Qed.

Lemma validate_axes_eq axes machine session :
  validate_axes axes machine session =
    if decide (Forall (axis_of_peer machine session) axes) then Ok () else Err IREE_STATUS_INVALID_ARGUMENT.
Proof.
  induction axes as [|e axes IH]; [by rewrite decide_True by constructor|]. cbn [validate_axes]. rewrite validate_axis_eq.
  rewrite IH. clear IH. destruct (decide (axis_of_peer machine session e)) as [He|He]; cbn [mbind status_or_bind].
  - by apply decide_ext; rewrite Forall_cons; naive_solver.
  - rewrite decide_False; [done|]. rewrite Forall_cons. naive_solver.
Qed.

Lemma span_missing_spec {A} (P : A → Prop) width (s : span A) :
  span_typed P width s → (0 <? span_length s) && span_missing s = bool_decide (span_absent s).
Proof.
  intros [Hw _]. unfold in_width in Hw. destruct s as [count|l]; cbn [span_length span_missing span_absent] in *; [|by rewrite andb_false_r].
  rewrite andb_true_r. case_bool_decide; [apply Z.ltb_lt|apply Z.ltb_ge]; lia.
Qed.

Lemma present_length {A} (s : span A) : ¬ span_absent s → Z.of_nat (length (span_elements s)) = span_length s.
Proof. destruct s; cbn; lia. Qed.

(** The layout of a message, or the error that is due. *)
Lemma peer_layout_eq peer :
  peer_typed peer →
  iree_net_bootstrap_calculate_peer_layout peer =
    match peer_error peer with
    | Some code => Err code
    | None =>
        let offset := 32 + 16 * span_length (pi_axes peer) in
        let len := span_length (pi_application_data peer) in
        Ok (mk_bootstrap_layout offset len (round_up (offset + len) 8))
    end.
Proof.
  intros (Hcap & _ & Haxes & Hdata & _). unfold iree_net_bootstrap_calculate_peer_layout, peer_error.
  rewrite validate_capabilities_eq by done. destruct (decide (pi_capabilities peer ∈ _)); cbn [mbind status_or_bind];
    [|by rewrite decide_True by auto].
  rewrite (span_missing_spec axis_typed 32), (span_missing_spec is_byte 64) by done. case_bool_decide; [by rewrite decide_True by auto|].
  rewrite decide_False by naive_solver. pose proof (proj1 Hdata) as Hd. pose proof (proj1 Haxes) as Ha. unfold in_width, umax in *.
  destruct (Z.ltb_spec (2 ^ 32 - 1) (span_length (pi_application_data peer))); case_decide; try lia; [done|].
  rewrite decide_bool_decide. case_bool_decide; [done|]. rewrite layout_eq by (unfold in_width, IREE_NET_BOOTSTRAP_PEER_INFO_SIZE, IREE_NET_BOOTSTRAP_AXIS_ENTRY_SIZE; lia).
  unfold peer_extent, IREE_NET_BOOTSTRAP_PEER_INFO_SIZE, IREE_NET_BOOTSTRAP_AXIS_ENTRY_SIZE. rewrite (Z.mul_comm _ 16).
  case_decide; [done|]. rewrite validate_axes_eq. by case_decide.
Qed.

Lemma reject_layout_eq reject :
  reject_typed reject →
  iree_net_bootstrap_calculate_reject_layout reject =
    match reject_error reject with
    | Some code => Err code
    | None => Ok (mk_bootstrap_layout 16 (span_length (rj_reason reject)) (round_up (16 + span_length (rj_reason reject)) 8))
    end.
Proof.
  intros [Hc Hr]. pose proof (proj1 Hr) as Hl. unfold iree_net_bootstrap_calculate_reject_layout, reject_error.
  rewrite wrap_small by done. unfold in_width, umax in *. change IREE_STATUS_CODE_MASK with 31.
  destruct (Z.eqb_spec (rj_status_code reject) 0), (Z.ltb_spec 31 (rj_status_code reject)); cbn [orb]; case_decide; try lia; try done.
  destruct (Z.ltb_spec (2 ^ 32 - 1) (span_length (rj_reason reject))); case_decide; try lia; [done|].
  rewrite (span_missing_spec is_byte 64) by done. case_bool_decide; [by rewrite decide_True by auto|].
  rewrite layout_eq by (unfold in_width, IREE_NET_BOOTSTRAP_REJECT_SIZE; lia). unfold IREE_NET_BOOTSTRAP_REJECT_SIZE. rewrite Z.mul_0_l, Z.add_0_r.
  case_bool_decide as Hin.
  - rewrite (decide_True (P := span_absent (rj_reason reject) ∨ _)) by auto. destruct (Z.ltb_spec 0 (span_length (rj_reason reject))) as [|Hz]; [done|]. exfalso.
    destruct (rj_reason reject) as [|[|b l]]; cbn in Hin, Hz; [by apply elem_of_nil in Hin..|lia].
  - rewrite andb_false_r, (decide_False (P := span_absent (rj_reason reject) ∨ _)) by naive_solver. by case_decide.
Qed.

(** ** Buffers as fields *)

Lemma concat_lookup (fs : list (list Z)) k f : fs !! k = Some f → concat fs = concat (take k fs) ++ f ++ concat (drop (S k) fs).
Proof. intros H. rewrite <- (take_drop_middle fs k f H) at 1. by rewrite concat_app. Qed.

Lemma concat_insert (fs : list (list Z)) k f : (k < length fs)%nat → concat (<[k:=f]> fs) = concat (take k fs) ++ f ++ concat (drop (S k) fs).
Proof. intros H. rewrite insert_take_drop by done. by rewrite concat_app. Qed.

Lemma write_app before old bytes after offset :
  length old = length bytes → offset = length before → write_bytes offset bytes (before ++ old ++ after) = before ++ bytes ++ after.
Proof.
  intros Hl ->. unfold write_bytes. rewrite take_app_length, <- Hl. by rewrite <- drop_drop, drop_app_length, drop_app_length.
Qed.

(** Writing over a whole field replaces it. *)
Lemma write_field fs k old bytes offset :
  fs !! k = Some old → length old = length bytes → offset = length (concat (take k fs)) →
  write_bytes offset bytes (concat fs) = concat (<[k:=bytes]> fs).
Proof.
  intros Hk Hl ->. rewrite (concat_lookup fs k old Hk), concat_insert by (by eapply lookup_lt_Some). by apply write_app.
Qed.

Lemma serialize_axes_app axes : ∀ before old after offset,
  length old = length (encode_axes axes) → offset = length before →
  serialize_axes axes offset (before ++ old ++ after) = before ++ encode_axes axes ++ after.
Proof.
  induction axes as [|e axes IH]; intros before old after offset Hl ->; [by destruct old|].
  change (encode_axes (e :: axes)) with (encode_axis e ++ encode_axes axes) in *. rewrite length_app, length_encode_axis in Hl.
  cbn [serialize_axes]. rewrite <- (take_drop 8 old), <- (take_drop 8 (drop 8 old)).
  set (a := take 8 old). set (b := take 8 (drop 8 old)). set (c := drop 8 (drop 8 old)).
  assert (length a = 8%nat ∧ length b = 8%nat ∧ length c = length (encode_axes axes)) as (Ha & Hb & Hc).
  { unfold a, b, c. rewrite !length_take, !length_drop. lia. }
  rewrite <- !app_assoc, write_app by (unfold iree_unaligned_store_le_u64; by rewrite ?length_le_bytes).
  rewrite (app_assoc before), write_app by (unfold iree_unaligned_store_le_u64; rewrite ?length_app, ?length_le_bytes; (done || lia)).
  rewrite (app_assoc (before ++ _)), IH; [|done|].
  - unfold encode_axis. by rewrite <- !app_assoc.
  - unfold iree_unaligned_store_le_u64. rewrite !length_app, !length_le_bytes. change (Z.to_nat IREE_NET_BOOTSTRAP_AXIS_ENTRY_SIZE) with 16%nat. lia.
Qed.

Lemma serialize_axes_field fs k old axes offset :
  fs !! k = Some old → length old = length (encode_axes axes) → offset = length (concat (take k fs)) →
  serialize_axes axes offset (concat fs) = concat (<[k:=encode_axes axes]> fs).
Proof.
  intros Hk Hl ->. rewrite (concat_lookup fs k old Hk), concat_insert by (by eapply lookup_lt_Some). by apply serialize_axes_app.
Qed.

(** An optional copy of a field. *)
Lemma copy_field fs k old (bytes : span Z) offset :
  ¬ span_absent bytes → fs !! k = Some old → length old = length (span_elements bytes) → offset = length (concat (take k fs)) →
  (if 0 <? span_length bytes then write_bytes offset (span_elements bytes) (concat fs) else concat fs) =
    concat (<[k:=span_elements bytes]> fs).
Proof.
  intros Ha Hk Hl Ho. rewrite <- (present_length bytes) by done. destruct (Z.ltb_spec 0 (Z.of_nat (length (span_elements bytes)))).
  - by eapply write_field.
  - destruct (span_elements bytes); cbn in *; [|lia]. destruct old; [|done]. by rewrite list_insert_id.
Qed.

(** The zeroed buffer of a message whose fields have the given sizes. *)
Lemma zero_fields sizes total rest :
  sum_list sizes = total → replicate total 0 ++ rest = concat (((λ n, replicate n 0) <$> sizes) ++ [rest]).
Proof.
  intros <-. rewrite concat_app. cbn [concat]. rewrite app_nil_r. f_equal.
  induction sizes as [|n sizes IH]; [done|]. cbn [sum_list sum_list_with fmap list_fmap concat]. by rewrite replicate_add, <- IH.
Qed.

Ltac field_length := unfold iree_unaligned_store_le_u32; rewrite ?length_app, ?length_le_bytes, ?length_replicate; cbn [length]; (done || lia).
Ltac write_step k := erewrite (write_field _ k); [|reflexivity|field_length|done]; cbn [insert list_insert].

Lemma peer_error_None peer :
  peer_typed peer → peer_error peer = None →
  ¬ span_absent (pi_axes peer) ∧ ¬ span_absent (pi_application_data peer) ∧ 0 <= span_length (pi_application_data peer) < 2 ^ 32 ∧
  0 <= span_length (pi_axes peer) ∧ round_up (peer_extent (span_length (pi_axes peer)) (span_length (pi_application_data peer))) 8 < 2 ^ 32 ∧
  pi_capabilities peer ∈ [0; 1; 2; 3] ∧ Forall (axis_of_peer (pi_machine_index peer) (pi_session_epoch peer)) (span_elements (pi_axes peer)).
Proof.
  intros (_ & _ & [Hn _] & [Hl _] & _). unfold peer_error, in_width in *. repeat (case_decide; [done|]).
  case_decide; [|done]. intros _. destruct (decide (pi_capabilities peer ∈ [0; 1; 2; 3])); [|tauto]. split_and!; (done || tauto || lia).
Qed.

Lemma serialize_peer_eq type peer rest :
  is_byte type → peer_typed peer → peer_error peer = None →
  let offset := 32 + 16 * span_length (pi_axes peer) in
  let total := round_up (offset + span_length (pi_application_data peer)) 8 in
  iree_net_bootstrap_serialize_peer peer (mk_bootstrap_layout offset (span_length (pi_application_data peer)) total)
    (iree_net_bootstrap_serialize_header type total (replicate (Z.to_nat total) 0 ++ rest)) = encode_peer type peer ++ rest.
Proof.
  intros Ht Hty He offset total. destruct (peer_error_None peer Hty He) as (Ha & Hd & Hl & Hc & Htot & _).
  set (n := length (span_elements (pi_axes peer))). set (m := length (span_elements (pi_application_data peer))).
  pose proof (present_length _ Ha) as Hn. pose proof (present_length _ Hd) as Hm. fold n in Hn. fold m in Hm.
  pose proof (round_up_8 (offset + span_length (pi_application_data peer))) as Hr. fold total in Hr. unfold peer_extent in Htot. fold offset total in Htot. unfold is_byte in Ht.
  rewrite (zero_fields [1; 1; 2; 4; 4; 4; 4; 4; 1; 1; 6; 16 * n; m; Z.to_nat (total - (offset + span_length (pi_application_data peer)))]%nat) by (cbn; lia).
  cbn [fmap list_fmap app]. unfold iree_net_bootstrap_serialize_header, iree_net_bootstrap_serialize_peer.
  rewrite !wrap_small by (unfold in_width; lia).
  write_step 0%nat. write_step 1%nat. write_step 3%nat. write_step 4%nat. write_step 5%nat. write_step 6%nat. write_step 7%nat.
  write_step 8%nat. write_step 9%nat.
  erewrite (serialize_axes_field _ 11); [|reflexivity|rewrite length_replicate, length_encode_axes; lia|done]. cbn [insert list_insert].
  erewrite (copy_field _ 12); [|done|reflexivity|by rewrite length_replicate|].
  - unfold encode_peer, zero_padding, byte_length. fold n m. rewrite Hn, Hm. change (peer_extent _ _) with (offset + span_length (pi_application_data peer)).
    fold total. cbn [insert list_insert concat]. rewrite app_nil_r, <- !app_assoc. done.
  - cbn [take concat]. rewrite !length_app, length_encode_axes. cbn [length]. unfold iree_unaligned_store_le_u32. rewrite !length_le_bytes.
    cbn [bl_variable_data_offset length]. fold n. unfold offset. rewrite !length_replicate. lia.
Qed.

Lemma reject_error_None reject :
  reject_typed reject → reject_error reject = None →
  1 <= rj_status_code reject <= 31 ∧ ¬ span_absent (rj_reason reject) ∧ 0 ∉ span_elements (rj_reason reject) ∧
  0 <= span_length (rj_reason reject) < 2 ^ 32 ∧ round_up (16 + span_length (rj_reason reject)) 8 < 2 ^ 32.
Proof.
  intros [_ [Hl _]]. unfold reject_error, in_width in *. repeat (case_decide; [done|]). intros _. split_and!; (done || tauto || lia).
Qed.

Lemma serialize_reject_eq reject rest :
  reject_typed reject → reject_error reject = None →
  let total := round_up (16 + span_length (rj_reason reject)) 8 in
  iree_net_bootstrap_serialize_reject reject (mk_bootstrap_layout 16 (span_length (rj_reason reject)) total)
    (iree_net_bootstrap_serialize_header 3 total (replicate (Z.to_nat total) 0 ++ rest)) = encode_reject reject ++ rest.
Proof.
  intros Hty He total. destruct (reject_error_None reject Hty He) as (Hc & Ha & _ & Hl & Htot).
  set (m := length (span_elements (rj_reason reject))). pose proof (present_length _ Ha) as Hm. fold m in Hm.
  pose proof (round_up_8 (16 + span_length (rj_reason reject))) as Hr. fold total in Hr, Htot.
  rewrite (zero_fields [1; 1; 2; 4; 1; 3; 4; m; Z.to_nat (total - (16 + span_length (rj_reason reject)))]%nat) by (cbn; lia).
  cbn [fmap list_fmap app]. unfold iree_net_bootstrap_serialize_header, iree_net_bootstrap_serialize_reject.
  rewrite !wrap_small by (unfold in_width; lia).
  write_step 0%nat. write_step 1%nat. write_step 3%nat. write_step 4%nat. write_step 6%nat.
  erewrite (copy_field _ 7); [|done|reflexivity|by rewrite length_replicate|].
  - unfold encode_reject, zero_padding, byte_length. fold m. rewrite Hm.
    fold total. cbn [insert list_insert concat]. rewrite app_nil_r, <- !app_assoc. done.
  - done.
Qed.

(** The layout of a message is that of its encoding. *)
Lemma message_layout_eq m :
  message_typed m →
  match message_error m with
  | Some code => iree_net_bootstrap_message_calculate_layout (Some m) = Err code
  | None =>
      ∃ layout, iree_net_bootstrap_message_calculate_layout (Some m) = Ok layout ∧ bl_total_size layout = byte_length (encode_message m) ∧
        ∀ rest,
          let data :=
            iree_net_bootstrap_serialize_header (message_type m) (bl_total_size layout) (replicate (Z.to_nat (bl_total_size layout)) 0 ++ rest) in
          match m with
          | BootstrapHello peer | BootstrapHelloAck peer => iree_net_bootstrap_serialize_peer peer layout data
          | BootstrapReject reject => iree_net_bootstrap_serialize_reject reject layout data
          | BootstrapOther _ => data
          end = encode_message m ++ rest
  end.
Proof.
  intros Hty.
  assert (∀ type peer, is_byte type → peer_typed peer →
    match peer_error peer with
    | Some code => iree_net_bootstrap_calculate_peer_layout peer = Err code
    | None =>
        ∃ layout, iree_net_bootstrap_calculate_peer_layout peer = Ok layout ∧ bl_total_size layout = byte_length (encode_peer type peer) ∧
          ∀ rest, iree_net_bootstrap_serialize_peer peer layout
            (iree_net_bootstrap_serialize_header type (bl_total_size layout) (replicate (Z.to_nat (bl_total_size layout)) 0 ++ rest)) =
            encode_peer type peer ++ rest
    end) as Hpeer.
  { intros type peer Ht Hp. rewrite peer_layout_eq by done. destruct (peer_error peer) eqn:He; [done|]. eexists. split; [done|].
    cbn [bl_total_size]. split; [|intros rest; by apply serialize_peer_eq].
    destruct (peer_error_None peer Hp He) as (Ha & Hd & _). rewrite byte_length_encode_peer. unfold byte_length. by rewrite !present_length. }
  destruct m as [peer|peer|reject|type]; cbn [message_typed message_error encode_message message_type] in *; [by apply Hpeer..| |done].
  cbn [iree_net_bootstrap_message_calculate_layout]. rewrite reject_layout_eq by done. destruct (reject_error reject) eqn:He; [done|].
  eexists. split; [done|]. cbn [bl_total_size]. split; [|intros rest; by apply serialize_reject_eq].
  destruct (reject_error_None reject Hty He) as (_ & Ha & _). rewrite byte_length_encode_reject. unfold byte_length. by rewrite present_length.
Qed.
