(* ===== verification/BootstrapRead.v ===== *)
(** * Reading bootstrap messages

    Parsing accepts exactly the encodings of messages. *)

From S2P Require Import Prelude BaseMath WireBytes ReceiveQueue FrameInvariant Frontier StatusWire StatusWrite StatusRead Bootstrap BootstrapWrite.
From stdpp Require Import base numbers list list_numbers.

Local Open Scope Z_scope.
Local Open Scope machine_scope.

(** ** What a view stands for *)

(** The entries that a reader of the list gets. *)
Definition axis_list_entries (l : iree_net_bootstrap_axis_list_t) : list iree_async_frontier_entry_t :=
  iree_net_bootstrap_axis_list_get l <$> seq 0 (Z.to_nat (al_count l)).

Definition represents_peer (v : iree_net_bootstrap_peer_info_view_t) (peer : iree_net_bootstrap_peer_info_t) : Prop :=
  pv_capabilities v = pi_capabilities peer ∧ pv_application_endpoint_count v = pi_application_endpoint_count peer ∧
  al_count (pv_axes v) = span_length (pi_axes peer) ∧ axis_list_entries (pv_axes v) = span_elements (pi_axes peer) ∧
  pv_application_data v = span_elements (pi_application_data peer) ∧ pv_machine_index v = pi_machine_index peer ∧
  pv_session_epoch v = pi_session_epoch peer.

Definition represents (v : iree_net_bootstrap_message_view_t) (m : iree_net_bootstrap_message_t) : Prop :=
  match v, m with
  | ViewHello v, BootstrapHello peer | ViewHelloAck v, BootstrapHelloAck peer => represents_peer v peer
  | ViewReject v, BootstrapReject reject => rv_status_code v = rj_status_code reject ∧ rv_reason v = span_elements (rj_reason reject)
  | _, _ => False
  end.

(** ** Parts of a message *)

Lemma le_bytes_4 v : 0 <= v < 2 ^ 32 → ∃ a b c d, le_bytes 4 v = [a; b; c; d] ∧ le_value [a; b; c; d] = v.
Proof. intros Hv. pose proof (le_value_bytes 4 v Hv) as H. cbn [le_bytes] in *. eauto 10. Qed.

Lemma axis_get_encoded axes i e count :
  axes !! i = Some e → axis_typed e → iree_net_bootstrap_axis_list_get (mk_axis_list (encode_axes axes) count) i = e.
Proof.
  intros Hi [Ha He]. unfold in_width in *. unfold iree_net_bootstrap_axis_list_get. cbn [al_encoded_entries].
  change (Z.to_nat IREE_NET_BOOTSTRAP_AXIS_ENTRY_SIZE) with 16%nat.
  rewrite <- (take_drop_middle axes i e Hi). unfold encode_axes. rewrite fmap_app, concat_app. cbn [fmap list_fmap concat].
  fold (encode_axes (take i axes)). assert (length (encode_axes (take i axes)) = (i * 16)%nat) as Hl.
  { apply lookup_lt_Some in Hi. rewrite length_encode_axes, length_take. lia. }
  generalize dependent (encode_axes (take i axes)). generalize (concat (encode_axis <$> drop (S i) axes)). intros tail before Hl.
  unfold encode_axis. rewrite <- !app_assoc. destruct e as [a ep]. cbn [axis epoch] in *. f_equal.
  - by apply load_le_app.
  - rewrite (app_assoc _ (le_bytes 8 a)). apply load_le_app; [done|]. rewrite length_app, length_le_bytes. lia.
Qed.

Lemma axis_entries_encoded axes :
  Forall axis_typed axes → axis_list_entries (mk_axis_list (encode_axes axes) (Z.of_nat (length axes))) = axes.
Proof.
  intros H. unfold axis_list_entries. cbn [al_count]. rewrite Nat2Z.id. apply list_eq. intros i. rewrite list_lookup_fmap.
  destruct (axes !! i) as [e|] eqn:Hi.
  - pose proof (lookup_lt_Some _ _ _ Hi). rewrite lookup_seq_lt by done. cbn. f_equal. apply axis_get_encoded; [done|].
    by eapply Forall_lookup_1.
  - apply lookup_ge_None in Hi. by rewrite lookup_seq_ge.
Qed.

(** Every byte sequence of the right length is an encoding. *)
Lemma encode_axes_surjective n bytes :
  Forall is_byte bytes → length bytes = (16 * n)%nat → ∃ axes, bytes = encode_axes axes ∧ length axes = n ∧ Forall axis_typed axes.
Proof.
  revert bytes. induction n as [|n IH]; intros bytes Hb Hl; [by exists []; destruct bytes|].
  destruct (IH (drop 16 bytes)) as (axes & Hd & Hn & Hok); [by apply Forall_drop|rewrite length_drop; lia|].
  exists (Frontier.entry (load_le 8 bytes 0) (load_le 8 bytes 8) :: axes). split_and!; [|cbn; lia|].
  - change (encode_axes (?e :: axes)) with (encode_axis e ++ encode_axes axes). unfold encode_axis. cbn [axis epoch].
    rewrite <- !load_le_split, <- Hd by (done || lia). change (drop 0 bytes) with bytes.
    rewrite <- app_assoc. change 16%nat with (8 + 8)%nat. rewrite <- (drop_split 8 8 bytes). by rewrite take_drop.
  - constructor; [|done]. split; cbn [axis epoch]; apply (load_le_bound 8); (done || lia).
Qed.

Lemma validate_encoded_eq l machine session n : ∀ i,
  validate_encoded_axes l machine session i n = validate_axes (iree_net_bootstrap_axis_list_get l <$> seq i n) machine session.
Proof. induction n as [|n IH]; intros i; [done|]. cbn [validate_encoded_axes seq fmap list_fmap validate_axes]. by rewrite IH. Qed.

Lemma padding_is_zero_eq n : ∀ data i,
  0 <= i → i + Z.of_nat n <= byte_length data → byte_length data < 2 ^ 64 →
  padding_is_zero data i n = bool_decide (text_at data i (Z.of_nat n) = replicate n 0).
Proof.
  induction n as [|n IH]; intros data i Hi Hn Hd; [done|]. cbn [padding_is_zero].
  unfold byte_length in *. destruct (lookup_lt_is_Some_2 data (Z.to_nat i)) as [b Hb]; [lia|].
  assert (text_at data i (Z.of_nat (S n)) = b :: text_at data (i + 1) (Z.of_nat n)) as ->.
  { unfold text_at. rewrite !Nat2Z.id. rewrite (drop_S _ _ _ Hb). cbn [take]. do 3 f_equal. lia. }
  unfold byte_at. rewrite (nth_lookup_Some _ _ _ _ Hb). destruct (Z.eqb_spec b 0) as [->|]; cbn [negb].
  - rewrite uadd_small by lia. rewrite IH by (unfold byte_length; lia). apply bool_decide_ext. cbn [replicate].
    split; [by intros ->|by intros [=]].
  - rewrite bool_decide_false; [done|]. intros [=]. done.
Qed.

Lemma zero_padding_eq data offset len total :
  0 <= offset → 0 <= len → total = byte_length data → offset + len <= total → total < 2 ^ 32 →
  iree_net_bootstrap_validate_zero_padding data (mk_bootstrap_layout offset len total) =
    if decide (drop (Z.to_nat (offset + len)) data = replicate (Z.to_nat (total - (offset + len))) 0) then Ok () else Err IREE_STATUS_INVALID_ARGUMENT.
Proof.
  intros Ho Hl -> Hle Ht. unfold iree_net_bootstrap_validate_zero_padding.
  cbn [bl_variable_data_offset bl_variable_data_length bl_total_size]. rewrite uadd_small by lia.
  rewrite padding_is_zero_eq by lia. rewrite Z2Nat.id by lia. unfold text_at. rewrite take_ge by (rewrite length_drop; unfold byte_length in *; lia).
  by rewrite decide_bool_decide.
Qed.

(** ** Peer information *)

Section parse_peer.
Context (data : list Z) (cap ep ac dl mi se r0 r1 : Z).
Context (Hlen : 32 <= byte_length data < 2 ^ 32) (Hcap : in_width 32 cap) (Hac : in_width 32 ac) (Hdl : in_width 32 dl).
Context (Rcap : iree_unaligned_load_le_u32 data 8 = cap) (Rep : iree_unaligned_load_le_u32 data 12 = ep)
  (Rac : iree_unaligned_load_le_u32 data 16 = ac) (Rdl : iree_unaligned_load_le_u32 data 20 = dl)
  (Rmi : byte_at data 24 = mi) (Rse : byte_at data 25 = se)
  (Rr0 : iree_unaligned_load_le_u16 data 26 = r0) (Rr1 : iree_unaligned_load_le_u32 data 28 = r1).

Let axes := mk_axis_list (text_at data 32 (16 * ac)) ac.

Definition peer_fields_ok : Prop :=
  cap ∈ [0; 1; 2; 3] ∧ r0 = 0 ∧ r1 = 0 ∧ round_up (peer_extent ac dl) 8 = byte_length data ∧
  Forall (axis_of_peer mi se) (axis_list_entries axes) ∧
  drop (Z.to_nat (peer_extent ac dl)) data = replicate (Z.to_nat (round_up (peer_extent ac dl) 8 - peer_extent ac dl)) 0.

Lemma parse_peer_eq :
  (peer_fields_ok ∧ iree_net_bootstrap_parse_peer data = Ok (mk_peer_info_view cap ep axes (text_at data (32 + 16 * ac) dl) mi se)) ∨
  (¬ peer_fields_ok ∧ iree_net_bootstrap_parse_peer data = Err IREE_STATUS_INVALID_ARGUMENT).
Proof using All.
  unfold iree_net_bootstrap_parse_peer, peer_fields_ok, in_width in *. change IREE_NET_BOOTSTRAP_PEER_INFO_SIZE with 32.
  change IREE_NET_BOOTSTRAP_AXIS_ENTRY_SIZE with 16. rewrite (proj2 (Z.ltb_ge _ _)) by lia. rewrite Rcap, Rep, Rac, Rdl, Rmi, Rse, Rr0, Rr1.
  rewrite validate_capabilities_eq by done. destruct (decide (cap ∈ _)); cbn [mbind status_or_bind]; [|right; tauto].
  destruct (Z.eqb_spec r0 0); cbn [negb orb]; [|right; tauto]. destruct (Z.eqb_spec r1 0); cbn [negb orb]; [|right; tauto].
  rewrite layout_eq by (unfold in_width; lia). rewrite (Z.mul_comm ac 16). change (32 + 16 * ac + dl) with (peer_extent ac dl).
  pose proof (round_up_8 (peer_extent ac dl)) as Hr.
  case_decide; [right; split; [lia|done]|]. cbn [bl_total_size bl_variable_data_offset].
  destruct (Z.eqb_spec (round_up (peer_extent ac dl) 8) (byte_length data)) as [Heq|]; cbn [negb]; [|right; tauto].
  assert (peer_extent ac dl <= byte_length data) as Hle by lia. unfold peer_extent in Hle.
  rewrite usub_small by (unfold in_width; lia). replace (32 + 16 * ac - 32) with (16 * ac) by lia. fold axes.
  rewrite validate_encoded_eq. change (iree_net_bootstrap_axis_list_get axes <$> seq 0 (Z.to_nat ac)) with (axis_list_entries axes).
  rewrite validate_axes_eq. case_decide; cbn [mbind status_or_bind]; [|right; tauto].
  rewrite zero_padding_eq by (unfold peer_extent in *; lia). change (32 + 16 * ac + dl) with (peer_extent ac dl).
  case_decide; cbn [mbind status_or_bind]; [left; tauto|right; tauto].
Qed.

End parse_peer.

(** The reads of an encoded peer. *)
Lemma encode_peer_reads type peer :
  peer_typed peer → peer_error peer = None →
  ∃ head, length head = 32%nat ∧
    encode_peer type peer = head ++ encode_axes (span_elements (pi_axes peer)) ++ span_elements (pi_application_data peer) ++
      zero_padding (peer_extent (span_length (pi_axes peer)) (span_length (pi_application_data peer))) ∧
    ∀ tail, let data := head ++ tail in
      iree_unaligned_load_le_u32 data 8 = pi_capabilities peer ∧ iree_unaligned_load_le_u32 data 12 = pi_application_endpoint_count peer ∧
      iree_unaligned_load_le_u32 data 16 = span_length (pi_axes peer) ∧
      iree_unaligned_load_le_u32 data 20 = span_length (pi_application_data peer) ∧
      byte_at data 24 = pi_machine_index peer ∧ byte_at data 25 = pi_session_epoch peer ∧
      iree_unaligned_load_le_u16 data 26 = 0 ∧ iree_unaligned_load_le_u32 data 28 = 0.
Proof.
  intros Hty He. destruct (peer_error_None peer Hty He) as (Ha & Hd & Hl & Hc & Htot & _).
  destruct Hty as (Tcap & Tep & [Tac _] & _). unfold in_width in *. unfold encode_peer, byte_length. rewrite !present_length by done.
  set (extent := peer_extent _ _) in *. assert (32 <= extent) as Hext by (unfold extent, peer_extent; lia). pose proof (round_up_8 extent).
  destruct (le_bytes_4 (round_up extent 8)) as (a0 & a1 & a2 & a3 & -> & _); [lia|].
  destruct (le_bytes_4 (pi_capabilities peer)) as (b0 & b1 & b2 & b3 & -> & Ecap); [lia|].
  destruct (le_bytes_4 (pi_application_endpoint_count peer)) as (c0 & c1 & c2 & c3 & -> & Eep); [lia|].
  destruct (le_bytes_4 (span_length (pi_axes peer))) as (d0 & d1 & d2 & d3 & -> & Eac); [lia|].
  destruct (le_bytes_4 (span_length (pi_application_data peer))) as (e0 & e1 & e2 & e3 & -> & Edl); [lia|].
  exists [type; 3; 0; 0; a0; a1; a2; a3; b0; b1; b2; b3; c0; c1; c2; c3; d0; d1; d2; d3; e0; e1; e2; e3;
          pi_machine_index peer; pi_session_epoch peer; 0; 0; 0; 0; 0; 0]. split; [done|]. split; [done|]. intros tail. split_and!; done.
Qed.

Lemma parse_encoded_peer type peer :
  peer_typed peer → peer_error peer = None →
  ∃ v, iree_net_bootstrap_parse_peer (encode_peer type peer) = Ok v ∧ represents_peer v peer.
Proof.
  intros Hty He. destruct (encode_peer_reads type peer Hty He) as (head & Hhead & Heq & Hreads).
  destruct (peer_error_None peer Hty He) as (Ha & Hd & Hl & Hc & Htot & Hcap & Hax).
  destruct Hty as (Tcap & Tep & [Tac Taxes] & _). pose proof (present_length _ Ha) as La. pose proof (present_length _ Hd) as Ld.
  pose proof (byte_length_encode_peer type peer) as Hlen. unfold byte_length at 2 in Hlen. rewrite La, Ld in Hlen. rewrite Heq in Hlen |- *.
  clear Heq. set (extent := peer_extent _ _) in *. pose proof (round_up_8 extent) as Hr. assert (32 <= extent) as Hext by (unfold extent, peer_extent; lia).
  set (tail := encode_axes _ ++ _) in *. destruct (Hreads tail) as (R1 & R2 & R3 & R4 & R5 & R6 & R7 & R8).
  assert (text_at (head ++ tail) 32 (16 * span_length (pi_axes peer)) = encode_axes (span_elements (pi_axes peer))) as Haxes.
  { apply text_at_exact; unfold byte_length; rewrite ?length_encode_axes; lia. }
  assert (text_at (head ++ tail) (32 + 16 * span_length (pi_axes peer)) (span_length (pi_application_data peer)) =
    span_elements (pi_application_data peer)) as Hdata.
  { unfold tail. rewrite app_assoc. apply text_at_exact; unfold byte_length; rewrite ?length_app, ?length_encode_axes; lia. }
  assert (in_width 32 (span_length (pi_application_data peer))) as Tdl by (unfold in_width; lia).
  destruct (parse_peer_eq (head ++ tail) _ _ _ _ _ _ _ _ ltac:(lia) Tcap Tac Tdl R1 R2 R3 R4 R5 R6 R7 R8) as [[_ ->]|[Hno _]].
  - eexists. split; [done|]. unfold represents_peer.
    cbn [pv_capabilities pv_application_endpoint_count pv_axes pv_application_data pv_machine_index pv_session_epoch al_count].
    rewrite Haxes, Hdata. split_and!; try done. rewrite <- La. by apply axis_entries_encoded.
  - destruct Hno. unfold peer_fields_ok. rewrite Haxes. fold extent. split_and!; try done.
    + rewrite <- La. by rewrite axis_entries_encoded.
    + unfold tail. rewrite !app_assoc. rewrite drop_app_length'; [done|]. rewrite !length_app, length_encode_axes. unfold extent, peer_extent. lia.
Qed.

Lemma cut_join k n m (data : list Z) : m = (k + n)%nat → take n (drop k data) ++ drop m data = drop k data.
Proof. intros ->. symmetry. apply drop_split. Qed.

Lemma byte_split (data : list Z) k : (k < length data)%nat → take 1 (drop k data) = [byte_at data (Z.of_nat k)].
Proof.
  intros Hk. destruct (lookup_lt_is_Some_2 data k Hk) as [b Hb]. unfold byte_at. rewrite Nat2Z.id, (nth_lookup_Some _ _ _ _ Hb), (drop_S _ _ _ Hb). done.
Qed.

Lemma byte_at_byte data k : Forall is_byte data → is_byte (byte_at data k).
Proof.
  intros H. unfold byte_at. destruct (nth_in_or_default (Z.to_nat k) data 0) as [Hin| ->]; [|unfold is_byte; lia].
  rewrite Forall_forall in H. apply H. by apply list_elem_of_In.
Qed.

(** The header that all messages share. *)
Definition header_ok (data : list Z) : Prop :=
  byte_at data 1 = 3 ∧ iree_unaligned_load_le_u16 data 2 = 0 ∧ iree_unaligned_load_le_u32 data 4 = byte_length data.

Lemma bootstrap_header_split data :
  Forall is_byte data → (8 <= length data)%nat → header_ok data →
  data = [byte_at data 0; 3; 0; 0] ++ le_bytes 4 (byte_length data) ++ drop 8 data.
Proof.
  intros Hb Hl (H1 & H2 & H4).
  transitivity (take 1 (drop 0 data) ++ take 1 (drop 1 data) ++ take 2 (drop 2 data) ++ take 4 (drop 4 data) ++ drop 8 data);
    [by rewrite !cut_join by done|].
  rewrite (byte_split data 0), (byte_split data 1), (load_le_split data 2 2), (load_le_split data 4 4) by (done || lia).
  change (load_le 2 data 2) with (iree_unaligned_load_le_u16 data 2). change (load_le 4 data 4) with (iree_unaligned_load_le_u32 data 4).
  change (Z.of_nat 1) with 1. by rewrite H1, H2, H4.
Qed.

(** The fields of peer information behind the header. *)
Lemma peer_split data ac dl :
  Forall is_byte data → 0 <= ac → 0 <= dl → (32 <= length data)%nat → peer_extent ac dl <= byte_length data →
  iree_unaligned_load_le_u16 data 26 = 0 → iree_unaligned_load_le_u32 data 28 = 0 →
  drop 8 data =
    le_bytes 4 (iree_unaligned_load_le_u32 data 8) ++ le_bytes 4 (iree_unaligned_load_le_u32 data 12) ++
    le_bytes 4 (iree_unaligned_load_le_u32 data 16) ++ le_bytes 4 (iree_unaligned_load_le_u32 data 20) ++
    [byte_at data 24; byte_at data 25; 0; 0; 0; 0; 0; 0] ++ text_at data 32 (16 * ac) ++ text_at data (32 + 16 * ac) dl ++
    drop (Z.to_nat (peer_extent ac dl)) data.
Proof.
  unfold peer_extent, byte_length. intros Hb Ha Hd Hl Hle H26 H28.
  transitivity (take 4 (drop 8 data) ++ take 4 (drop 12 data) ++ take 4 (drop 16 data) ++ take 4 (drop 20 data) ++ take 1 (drop 24 data) ++
    take 1 (drop 25 data) ++ take 2 (drop 26 data) ++ take 4 (drop 28 data) ++ text_at data 32 (16 * ac) ++
    text_at data (32 + 16 * ac) dl ++ drop (Z.to_nat (32 + 16 * ac + dl)) data).
  { unfold text_at. rewrite !cut_join by lia. done. }
  rewrite (byte_split data 24), (byte_split data 25) by lia. rewrite (load_le_split data 4 8), (load_le_split data 4 12), (load_le_split data 4 16),
    (load_le_split data 4 20), (load_le_split data 2 26), (load_le_split data 4 28) by (done || lia).
  unfold iree_unaligned_load_le_u16, iree_unaligned_load_le_u32 in *. by rewrite H26, H28.
Qed.

Lemma parsed_peer_encoded data v :
  Forall is_byte data → (8 <= length data)%nat → byte_length data < 2 ^ 32 → header_ok data → iree_net_bootstrap_parse_peer data = Ok v →
  ∃ peer, peer_typed peer ∧ peer_error peer = None ∧ data = encode_peer (byte_at data 0) peer.
Proof.
  intros Hb H8 Hl Hh Hv. destruct (decide (32 <= byte_length data)) as [H32|H32].
  2:{ unfold iree_net_bootstrap_parse_peer in Hv. change IREE_NET_BOOTSTRAP_PEER_INFO_SIZE with 32 in Hv. by rewrite (proj2 (Z.ltb_lt _ _)) in Hv by lia. }
  set (cap := iree_unaligned_load_le_u32 data 8). set (ep := iree_unaligned_load_le_u32 data 12).
  set (ac := iree_unaligned_load_le_u32 data 16). set (dl := iree_unaligned_load_le_u32 data 20).
  unfold byte_length in H32, Hl.
  assert (in_width 32 cap ∧ in_width 32 ep ∧ in_width 32 ac ∧ in_width 32 dl) as (Wcap & Wep & Wac & Wdl).
  { unfold cap, ep, ac, dl, in_width. split_and!; apply (load_le_bound 4); (done || lia). }
  destruct (parse_peer_eq data cap ep ac dl _ _ _ _ ltac:(unfold byte_length; lia) Wcap Wac Wdl eq_refl eq_refl eq_refl eq_refl eq_refl eq_refl
    eq_refl eq_refl) as [[(Hcap & Hr0 & Hr1 & Htot & Hax & Hpad) _]|[_ He]]; [|congruence].
  pose proof (round_up_8 (peer_extent ac dl)) as Hr. unfold in_width in *. pose proof (byte_length_nonneg data).
  assert (peer_extent ac dl <= byte_length data) as Hle by lia. unfold peer_extent, byte_length in Hle.
  destruct (encode_axes_surjective (Z.to_nat ac) (text_at data 32 (16 * ac))) as (axes & Ea & La & Ta).
  { unfold text_at. by apply Forall_take, Forall_drop. }
  { unfold text_at. rewrite length_take, length_drop. lia. }
  exists (mk_peer_info cap ep (Span axes) (Span (text_at data (32 + 16 * ac) dl)) (byte_at data 24) (byte_at data 25)).
  assert (byte_length (text_at data (32 + 16 * ac) dl) = dl) as Ld by (unfold text_at, byte_length; rewrite length_take, length_drop; lia).
  unfold peer_typed, peer_error, span_typed, encode_peer.
  cbn [pi_capabilities pi_application_endpoint_count pi_axes pi_application_data pi_machine_index pi_session_epoch span_elements span_length span_absent].
  change (Z.of_nat (length (text_at data (32 + 16 * ac) dl))) with (byte_length (text_at data (32 + 16 * ac) dl)).
  rewrite Ld, La, Z2Nat.id by lia. split_and!; unfold in_width; try done; try lia; [by apply Forall_take, Forall_drop|by apply byte_at_byte..| |].
  - rewrite Ea in Hax. assert (ac = Z.of_nat (length axes)) as Hac by lia. rewrite Hac, axis_entries_encoded in Hax by done.
    unfold byte_length in Htot. do 4 (case_decide; [first [tauto | lia]|]). by rewrite decide_True.
  - rewrite (bootstrap_header_split data) at 1 by done. do 2 f_equal. rewrite <- Htot. f_equal.
    rewrite (peer_split data ac dl) by (done || unfold peer_extent, byte_length; lia). fold cap ep ac dl. by rewrite Ea, Hpad.
Qed.

(** ** Rejections *)

Section parse_reject.
Context (data : list Z) (code z0 z1 z2 rl : Z).
Context (Hlen : 16 <= byte_length data < 2 ^ 32) (Hcode : is_byte code) (Hrl : in_width 32 rl).
Context (Rcode : byte_at data 8 = code) (R0 : byte_at data 9 = z0) (R1 : byte_at data 10 = z1) (R2 : byte_at data 11 = z2)
  (Rrl : iree_unaligned_load_le_u32 data 12 = rl).

Definition reject_fields_ok : Prop :=
  1 <= code <= 31 ∧ z0 = 0 ∧ z1 = 0 ∧ z2 = 0 ∧ round_up (16 + rl) 8 = byte_length data ∧ 0 ∉ text_at data 16 rl ∧
  drop (Z.to_nat (16 + rl)) data = replicate (Z.to_nat (round_up (16 + rl) 8 - (16 + rl))) 0.

Lemma parse_reject_eq :
  (reject_fields_ok ∧ iree_net_bootstrap_parse_reject data = Ok (mk_reject_view code (text_at data 16 rl))) ∨
  (¬ reject_fields_ok ∧ iree_net_bootstrap_parse_reject data = Err IREE_STATUS_INVALID_ARGUMENT).
Proof using All.
  unfold iree_net_bootstrap_parse_reject, reject_fields_ok, in_width, is_byte in *. change IREE_NET_BOOTSTRAP_REJECT_SIZE with 16.
  change IREE_STATUS_CODE_MASK with 31. rewrite (proj2 (Z.ltb_ge _ _)) by lia. rewrite Rcode, R0, R1, R2, Rrl.
  destruct (Z.eqb_spec code 0); cbn [orb]; [right; split; [lia|done]|]. destruct (Z.ltb_spec 31 code); [right; split; [lia|done]|].
  destruct (Z.eqb_spec z0 0), (Z.eqb_spec z1 0), (Z.eqb_spec z2 0); cbn [negb orb]; try (right; tauto).
  rewrite layout_eq by (unfold in_width; lia). rewrite Z.mul_0_l, Z.add_0_r. pose proof (round_up_8 (16 + rl)) as Hr.
  case_decide; [right; split; [lia|done]|]. cbn [bl_total_size bl_variable_data_offset].
  destruct (Z.eqb_spec (round_up (16 + rl) 8) (byte_length data)) as [Heq|]; cbn [negb]; [|right; tauto].
  assert ((0 <? rl) && bool_decide (0 ∈ text_at data 16 rl) = bool_decide (0 ∈ text_at data 16 rl)) as ->.
  { destruct (Z.ltb_spec 0 rl); [done|]. rewrite bool_decide_false; [done|]. replace rl with 0 by lia. apply not_elem_of_nil. }
  case_bool_decide; [right; tauto|].
  rewrite zero_padding_eq by lia. case_decide; cbn [mbind status_or_bind]; [left; split_and!; (done || lia)|right; tauto].
Qed.

End parse_reject.

Lemma parse_encoded_reject reject :
  reject_typed reject → reject_error reject = None →
  iree_net_bootstrap_parse_reject (encode_reject reject) = Ok (mk_reject_view (rj_status_code reject) (span_elements (rj_reason reject))).
Proof.
  intros Hty He. destruct (reject_error_None reject Hty He) as (Hc & Ha & Hn & Hl & Htot). pose proof (present_length _ Ha) as La.
  pose proof (byte_length_encode_reject reject) as Hlen. unfold byte_length at 2 in Hlen. rewrite La in Hlen.
  pose proof (round_up_8 (16 + span_length (rj_reason reject))) as Hr. unfold encode_reject, byte_length in *. rewrite La in *.
  set (total := round_up _ _) in *. set (pad := zero_padding _) in *.
  destruct (le_bytes_4 total) as (a0 & a1 & a2 & a3 & Ea & _); [lia|]. rewrite Ea in *.
  destruct (le_bytes_4 (span_length (rj_reason reject))) as (b0 & b1 & b2 & b3 & Eb & Erl); [lia|]. rewrite Eb in *.
  set (head := [3; 3; 0; 0; a0; a1; a2; a3; rj_status_code reject; 0; 0; 0; b0; b1; b2; b3]).
  match goal with |- iree_net_bootstrap_parse_reject ?d = _ => change d with (head ++ span_elements (rj_reason reject) ++ pad) in * end.
  assert (text_at (head ++ span_elements (rj_reason reject) ++ pad) 16 (span_length (rj_reason reject)) = span_elements (rj_reason reject)) as Ht.
  { by apply text_at_exact; unfold byte_length. }
  destruct (parse_reject_eq (head ++ span_elements (rj_reason reject) ++ pad) (rj_status_code reject) 0 0 0 (span_length (rj_reason reject)))
    as [[_ ->]|[Hno _]]; [unfold byte_length; lia|unfold is_byte; lia|unfold in_width; lia|done..| |].
  - by rewrite Ht.
  - destruct Hno. unfold reject_fields_ok, byte_length. rewrite Ht. split_and!; try (done || lia).
    rewrite app_assoc, drop_app_length'; [done|]. rewrite length_app. cbn [length head]. lia.
Qed.

Lemma parsed_reject_encoded data v :
  Forall is_byte data → (8 <= length data)%nat → byte_length data < 2 ^ 32 → header_ok data → byte_at data 0 = 3 →
  iree_net_bootstrap_parse_reject data = Ok v → ∃ reject, reject_typed reject ∧ reject_error reject = None ∧ data = encode_reject reject.
Proof.
  intros Hb H8 Hl Hh H0 Hv. destruct (decide (16 <= byte_length data)) as [H16|H16].
  2:{ unfold iree_net_bootstrap_parse_reject in Hv. change IREE_NET_BOOTSTRAP_REJECT_SIZE with 16 in Hv. by rewrite (proj2 (Z.ltb_lt _ _)) in Hv by lia. }
  set (rl := iree_unaligned_load_le_u32 data 12). unfold byte_length in H16, Hl.
  assert (in_width 32 rl) as Wrl by (unfold rl, in_width; apply (load_le_bound 4); (done || lia)).
  destruct (parse_reject_eq data (byte_at data 8) (byte_at data 9) (byte_at data 10) (byte_at data 11) rl) as [[(Hcode & Hz0 & Hz1 & Hz2 & Htot & Hnul & Hpad) _]|[_ He]];
    [unfold byte_length; lia|by apply byte_at_byte|done|done..| |congruence].
  pose proof (round_up_8 (16 + rl)) as Hr. unfold in_width in *.
  exists (mk_reject (byte_at data 8) (Span (text_at data 16 rl))).
  assert (byte_length (text_at data 16 rl) = rl) as Ld by (unfold text_at, byte_length in *; rewrite length_take, length_drop; lia).
  unfold reject_typed, reject_error, span_typed, encode_reject. cbn [rj_status_code rj_reason span_elements span_length span_absent].
  change (Z.of_nat (length (text_at data 16 rl))) with (byte_length (text_at data 16 rl)). rewrite Ld.
  split_and!; unfold in_width; try done; try lia; [by apply Forall_take, Forall_drop| |].
  - unfold byte_length in Htot. do 4 (case_decide; [first [tauto | lia]|]). done.
  - rewrite (bootstrap_header_split data), H0 at 1 by done. do 2 f_equal. rewrite <- Htot. f_equal.
    transitivity (take 1 (drop 8 data) ++ take 1 (drop 9 data) ++ take 1 (drop 10 data) ++ take 1 (drop 11 data) ++ take 4 (drop 12 data) ++
      text_at data 16 rl ++ drop (Z.to_nat (16 + rl)) data); [unfold text_at; by rewrite !cut_join by lia|].
    rewrite !byte_split, (load_le_split data 4 12), Hpad by (done || lia).
    change (Z.of_nat 8) with 8. change (Z.of_nat 9) with 9. change (Z.of_nat 10) with 10. change (Z.of_nat 11) with 11. by rewrite Hz0, Hz1, Hz2.
Qed.

(** ** Whole messages *)

Definition header_bool (data : list Z) : bool :=
  (byte_at data 1 =? 3) && (iree_unaligned_load_le_u16 data 2 =? 0) && (iree_unaligned_load_le_u32 data 4 =? byte_length data) &&
  (byte_length data mod 8 =? 0).

Lemma message_parse_eq data :
  iree_net_bootstrap_message_parse (Span data) =
    if (8 <=? byte_length data) && header_bool data then
      if byte_at data 0 =? 1 then peer ← iree_net_bootstrap_parse_peer data; Ok (ViewHello peer)
      else if byte_at data 0 =? 2 then peer ← iree_net_bootstrap_parse_peer data; Ok (ViewHelloAck peer)
      else if byte_at data 0 =? 3 then reject ← iree_net_bootstrap_parse_reject data; Ok (ViewReject reject)
      else Err IREE_STATUS_INVALID_ARGUMENT
    else Err IREE_STATUS_INVALID_ARGUMENT.
Proof.
  unfold iree_net_bootstrap_message_parse, header_bool. cbn [span_length]. change (Z.of_nat (length data)) with (byte_length data).
  change IREE_NET_BOOTSTRAP_HEADER_SIZE with 8. rewrite Z.leb_antisym. destruct (byte_length data <? 8); [done|]. cbn [negb andb].
  change IREE_NET_BOOTSTRAP_PROTOCOL_VERSION with 3. destruct (byte_at data 1 =? 3); [|done].
  destruct (iree_unaligned_load_le_u16 data 2 =? 0); [|done]. cbn [negb andb].
  destruct (Z.eqb_spec (iree_unaligned_load_le_u32 data 4) (byte_length data)) as [->|]; [|done]. cbn [negb andb].
  change IREE_NET_BOOTSTRAP_ALIGNMENT with 8. by destruct (byte_length data mod 8 =? 0).
Qed.

Lemma header_encoded type total tail :
  0 <= total < 2 ^ 32 → total mod 8 = 0 → byte_length ([type; 3; 0; 0] ++ le_bytes 4 total ++ tail) = total →
  header_bool ([type; 3; 0; 0] ++ le_bytes 4 total ++ tail) = true.
Proof.
  intros Ht Hm Hl. unfold header_bool. rewrite Hl, Hm. destruct (le_bytes_4 total Ht) as (a & b & c & d & -> & Hv).
  assert (iree_unaligned_load_le_u32 ([type; 3; 0; 0] ++ [a; b; c; d] ++ tail) 4 = total) as -> by exact Hv. by rewrite (Z.eqb_refl total).
Qed.

(** The encoding of a message is accepted. *)
Lemma parse_encoded m : message_ok m → ∃ v, iree_net_bootstrap_message_parse (Span (encode_message m)) = Ok v ∧ represents v m.
Proof.
  intros [Hty He]. rewrite message_parse_eq.
  assert (∀ type peer, peer_typed peer → peer_error peer = None →
    (8 <=? byte_length (encode_peer type peer)) && header_bool (encode_peer type peer) = true) as Hpeer.
  { intros type peer Tp Ep. pose proof (byte_length_encode_peer type peer) as Hl. destruct (peer_error_None peer Tp Ep) as (Ha & Hd & H1 & H2 & H3 & _).
    pose proof (present_length _ Ha) as La. pose proof (present_length _ Hd) as Ld. rewrite La in Hl. unfold byte_length at 2 in Hl. rewrite Ld in Hl.
    pose proof (round_up_8 (peer_extent (span_length (pi_axes peer)) (span_length (pi_application_data peer)))) as Hr.
    apply andb_true_intro. split; [apply Z.leb_le; unfold peer_extent in *; lia|].
    unfold encode_peer, byte_length in *. rewrite La, Ld in *. apply header_encoded; [unfold peer_extent in *; lia|lia|exact Hl]. }
  destruct m as [peer|peer|reject|type]; cbn [message_typed message_error encode_message] in *; [..|done].
  - rewrite Hpeer by done. change (byte_at (encode_peer 1 peer) 0) with 1. cbn [Z.eqb Pos.eqb].
    destruct (parse_encoded_peer 1 peer Hty He) as (v & -> & Hv). by exists (ViewHello v).
  - rewrite Hpeer by done. change (byte_at (encode_peer 2 peer) 0) with 2. cbn [Z.eqb Pos.eqb].
    destruct (parse_encoded_peer 2 peer Hty He) as (v & -> & Hv). by exists (ViewHelloAck v).
  - assert ((8 <=? byte_length (encode_reject reject)) && header_bool (encode_reject reject) = true) as ->.
    { pose proof (byte_length_encode_reject reject) as Hl. destruct (reject_error_None reject Hty He) as (_ & Ha & _ & H1 & H2).
      pose proof (present_length _ Ha) as La. unfold byte_length at 2 in Hl. rewrite La in Hl.
      pose proof (round_up_8 (16 + span_length (rj_reason reject))) as Hr.
      apply andb_true_intro. split; [apply Z.leb_le; lia|].
      unfold encode_reject, byte_length in *. rewrite La in *. apply header_encoded; [lia|lia|exact Hl]. }
    change (byte_at (encode_reject reject) 0) with 3. cbn [Z.eqb Pos.eqb]. rewrite parse_encoded_reject by done. by eexists.
Qed.
