(* ===== verification/BootstrapTheorems.v ===== *)
(** * Properties of bootstrap messages *)

From S2P Require Import Prelude BaseMath WireBytes ReceiveQueue FrameInvariant Frontier StatusWire StatusWrite StatusRead.
From S2P Require Import Bootstrap BootstrapWrite BootstrapRead.
From stdpp Require Import base numbers list list_numbers.

Local Open Scope Z_scope.
Local Open Scope machine_scope.

Lemma header_bool_ok data :
  Forall is_byte data → 8 <= byte_length data → header_bool data = true → header_ok data ∧ byte_length data < 2 ^ 32.
Proof.
  unfold header_bool, header_ok, byte_length. intros Hb Hl. rewrite !andb_true_iff, !Z.eqb_eq. intros [[[H1 H2] H4] _]. split; [done|].
  rewrite <- H4. apply (load_le_bound 4); [done|lia].
Qed.

(** What is accepted is the encoding of a message. *)
Lemma parsed_encoded data v :
  Forall is_byte data → iree_net_bootstrap_message_parse (Span data) = Ok v → ∃ m, message_ok m ∧ data = encode_message m.
Proof.
  intros Hb. rewrite message_parse_eq. destruct (Z.leb_spec 8 (byte_length data)) as [Hl|]; [|done]. cbn [andb].
  destruct (header_bool data) eqn:Hh; [|done]. destruct (header_bool_ok data Hb Hl Hh) as [Hok Hlt].
  assert (8 <= length data)%nat as Hn by (unfold byte_length in Hl; lia).
  destruct (Z.eqb_spec (byte_at data 0) 1) as [H0|]; [|destruct (Z.eqb_spec (byte_at data 0) 2) as [H0|];
    [|destruct (Z.eqb_spec (byte_at data 0) 3) as [H0|]; [|done]]].
  - destruct (iree_net_bootstrap_parse_peer data) as [p|] eqn:Hp; [|done]. intros _.
    destruct (parsed_peer_encoded data p Hb Hn Hlt Hok Hp) as (peer & Ht & He & Heq). exists (BootstrapHello peer). by rewrite H0 in Heq.
  - destruct (iree_net_bootstrap_parse_peer data) as [p|] eqn:Hp; [|done]. intros _.
    destruct (parsed_peer_encoded data p Hb Hn Hlt Hok Hp) as (peer & Ht & He & Heq). exists (BootstrapHelloAck peer). by rewrite H0 in Heq.
  - destruct (iree_net_bootstrap_parse_reject data) as [p|] eqn:Hp; [|done]. intros _.
    destruct (parsed_reject_encoded data p Hb Hn Hlt Hok H0 Hp) as (reject & Ht & He & Heq). by exists (BootstrapReject reject).
Qed.

Lemma parse_peer_error data code : iree_net_bootstrap_parse_peer data = Err code → code = IREE_STATUS_INVALID_ARGUMENT.
Proof.
  unfold iree_net_bootstrap_parse_peer, iree_net_bootstrap_validate_capabilities, iree_net_bootstrap_validate_zero_padding.
  destruct (_ <? _); [congruence|]. destruct (negb (Z.land _ _ =? 0)); cbn [mbind status_or_bind]; [congruence|].
  destruct (negb _ || negb _); [congruence|]. destruct (iree_net_bootstrap_try_calculate_layout _ _ _ _) as [layout|]; [|congruence].
  destruct (negb _); [congruence|]. rewrite validate_encoded_eq, validate_axes_eq.
  case_decide; cbn [mbind status_or_bind]; [|congruence]. destruct (padding_is_zero _ _ _); cbn [mbind status_or_bind]; congruence.
Qed.

Lemma parse_reject_error data code : iree_net_bootstrap_parse_reject data = Err code → code = IREE_STATUS_INVALID_ARGUMENT.
Proof.
  unfold iree_net_bootstrap_parse_reject, iree_net_bootstrap_validate_zero_padding.
  destruct (_ <? _); [congruence|]. destruct ((_ =? _) || _); [congruence|]. destruct (negb _ || negb _ || negb _); [congruence|].
  destruct (iree_net_bootstrap_try_calculate_layout _ _ _ _) as [layout|]; [|congruence]. destruct (negb _); [congruence|].
  destruct (_ && _); [congruence|]. destruct (padding_is_zero _ _ _); cbn [mbind status_or_bind]; congruence.
Qed.

Lemma message_parse_error data code : iree_net_bootstrap_message_parse data = Err code → code = IREE_STATUS_INVALID_ARGUMENT.
Proof.
  destruct data as [n|data]; [unfold iree_net_bootstrap_message_parse; destruct (_ <? _); congruence|]. rewrite message_parse_eq.
  destruct (_ && _); [|congruence].
  destruct (byte_at data 0 =? 1); [|destruct (byte_at data 0 =? 2); [|destruct (byte_at data 0 =? 3); [|congruence]]].
  1,2: destruct (iree_net_bootstrap_parse_peer data) eqn:He; cbn [mbind status_or_bind]; [done|]; intros [= <-]; by eapply parse_peer_error.
  destruct (iree_net_bootstrap_parse_reject data) eqn:He; cbn [mbind status_or_bind]; [done|]. intros [= <-]. by eapply parse_reject_error.
Qed.

(** C29: Parsing arbitrary bytes accepts exactly the encodings of well-formed messages and
    returns a view with the values of the message, every axis and all application bytes
    included; everything else is reported as INVALID_ARGUMENT. *)
Theorem bootstrap_parse_exact data :
  Forall is_byte data →
  match iree_net_bootstrap_message_parse (Span data) with
  | Ok v => ∃ m, message_ok m ∧ data = encode_message m ∧ represents v m
  | Err code => code = IREE_STATUS_INVALID_ARGUMENT ∧ ∀ m, message_ok m → data ≠ encode_message m
  end.
Proof.
  intros Hb. destruct (iree_net_bootstrap_message_parse (Span data)) as [v|code] eqn:Hp.
  - destruct (parsed_encoded data v Hb Hp) as (m & Hm & ->). exists m. split_and!; try done.
    destruct (parse_encoded m Hm) as (v' & Hv & Hr). congruence.
  - split; [by eapply message_parse_error|]. intros m Hm ->. destruct (parse_encoded m Hm) as (v' & Hv & _). congruence.
Qed.

(** Sizing and serialization of every message report the error that is due, in the order
    of the checks; otherwise the size is that of the reference encoding, a buffer that is too
    small is refused, and any other buffer starts with the encoding afterwards and keeps its
    remaining bytes. *)
Theorem bootstrap_serialize_exact m buffer :
  message_typed m →
  iree_net_bootstrap_message_calculate_size (Some m) =
    match message_error m with Some code => Err code | None => Ok (byte_length (encode_message m)) end ∧
  iree_net_bootstrap_message_serialize (Some m) buffer =
    match message_error m, buffer with
    | Some code, _ => Err code
    | None, NullSpan _ => Err IREE_STATUS_INVALID_ARGUMENT
    | None, Span data =>
        if decide (byte_length data < byte_length (encode_message m)) then Err IREE_STATUS_RESOURCE_EXHAUSTED
        else Ok (encode_message m ++ drop (length (encode_message m)) data)
    end.
Proof.
  intros Hty. pose proof (message_layout_eq m Hty) as H. unfold iree_net_bootstrap_message_calculate_size, iree_net_bootstrap_message_serialize.
  destruct (message_error m); [by rewrite H|]. destruct H as (layout & -> & Hsize & Hdata). cbn [mbind status_or_bind]. split; [by rewrite Hsize|].
  destruct buffer as [n|data]; [done|]. cbn [span_length]. change (Z.of_nat (length data)) with (byte_length data). rewrite Hsize.
  destruct (Z.ltb_spec (byte_length data) (byte_length (encode_message m))) as [Hlt|Hge]; [by rewrite decide_True|]. rewrite decide_False by lia.
  do 2 f_equal. rewrite <- Hdata. cbn. rewrite Hsize. unfold write_bytes. rewrite length_replicate. unfold byte_length. rewrite Nat2Z.id. done.
Qed.

(** ** Witnesses *)

Definition sample_peer : iree_net_bootstrap_peer_info_t :=
  mk_peer_info 1 2 (Span [Frontier.entry (iree_async_axis_make 5 7 IREE_ASYNC_CAUSAL_DOMAIN_HOST 9) 4]) (Span [10; 20; 30]) 7 5.

Lemma bootstrap_parse_exact_witness :
  match iree_net_bootstrap_message_parse (Span (encode_message (BootstrapHello sample_peer))) with
  | Ok v => ∃ m, message_ok m ∧ encode_message (BootstrapHello sample_peer) = encode_message m ∧ represents v m
  | Err _ => False
  end.
Proof.
  assert (Forall is_byte (encode_message (BootstrapHello sample_peer))) as Hb by (apply (bool_decide_unpack _); vm_compute; exact I).
  pose proof (bootstrap_parse_exact (encode_message (BootstrapHello sample_peer)) Hb) as H.
  destruct (iree_net_bootstrap_message_parse (Span (encode_message (BootstrapHello sample_peer)))) as [v|code] eqn:E; [exact H|].
  vm_compute in E. discriminate.
Defined.

Lemma bootstrap_serialize_exact_witness :
  iree_net_bootstrap_message_serialize (Some (BootstrapHello sample_peer)) (Span (replicate 60 255)) =
    Ok (encode_message (BootstrapHello sample_peer) ++ replicate 4 255).
Proof.
  assert (message_typed (BootstrapHello sample_peer)) as Ht.
  { unfold message_typed, peer_typed, span_typed, axis_typed, is_byte, in_width. cbn [sample_peer pi_capabilities pi_application_endpoint_count
      pi_axes pi_application_data pi_machine_index pi_session_epoch span_length span_elements length].
    repeat split; try lia; apply (bool_decide_unpack _); vm_compute; exact I. }
  destruct (bootstrap_serialize_exact (BootstrapHello sample_peer) (Span (replicate 60 255)) Ht) as [_ H]. rewrite H. vm_compute. reflexivity.
Defined.
