(* ===== verification/SessionBootstrap.v ===== *)
(** * The bootstrap protocol of a session

    [iree/net/session_bootstrap.c]: a client sends HELLO and waits for HELLO_ACK or REJECT, a
    server waits for HELLO and answers. *)

From S2P Require Import Prelude BaseMath WireBytes ReceiveQueue FrameInvariant Frontier StatusWire StatusWrite StatusRead.
From S2P Require Import Bootstrap BootstrapWrite BootstrapRead BootstrapTheorems.
From stdpp Require Import base numbers list list_numbers.

Local Open Scope Z_scope.
Local Open Scope machine_scope.

(** ** State *)

Definition IREE_NET_SESSION_BOOTSTRAP_ROLE_CLIENT : Z := 0.
Definition IREE_NET_SESSION_BOOTSTRAP_ROLE_SERVER : Z := 1.

Inductive iree_net_session_bootstrap_phase_t :=
  | PHASE_CLIENT_SEND_HELLO
  | PHASE_CLIENT_WAIT_ACK
  | PHASE_SERVER_WAIT_HELLO
  | PHASE_SERVER_SEND_ACK
  | PHASE_COMPLETE.

#[export] Instance bootstrap_phase_eq_dec : EqDecision iree_net_session_bootstrap_phase_t.
Proof. solve_decision. Defined.

(** [None] is the empty span. *)
Record iree_net_session_bootstrap_t := mk_session_bootstrap {
  sb_phase : iree_net_session_bootstrap_phase_t;
  sb_local_capabilities : Z;
  sb_required_capabilities : Z;
  sb_application_endpoint_count : Z;
  sb_outbound_message : option (list Z);
}.

Definition with_phase (phase : iree_net_session_bootstrap_phase_t) (b : iree_net_session_bootstrap_t) : iree_net_session_bootstrap_t :=
  mk_session_bootstrap phase (sb_local_capabilities b) (sb_required_capabilities b) (sb_application_endpoint_count b) (sb_outbound_message b).

(** The numbers of the codes; a peer can send others up to the mask. *)
Definition status_code_value (code : iree_status_code) : Z :=
  match code with
  | IREE_STATUS_OK => 0
  | IREE_STATUS_CANCELLED => 1
  | IREE_STATUS_UNKNOWN => 2
  | IREE_STATUS_INVALID_ARGUMENT => 3
  | IREE_STATUS_DEADLINE_EXCEEDED => 4
  | IREE_STATUS_NOT_FOUND => 5
  | IREE_STATUS_ALREADY_EXISTS => 6
  | IREE_STATUS_PERMISSION_DENIED => 7
  | IREE_STATUS_RESOURCE_EXHAUSTED => 8
  | IREE_STATUS_FAILED_PRECONDITION => 9
  | IREE_STATUS_ABORTED => 10
  | IREE_STATUS_OUT_OF_RANGE => 11
  | IREE_STATUS_UNIMPLEMENTED => 12
  | IREE_STATUS_INTERNAL => 13
  | IREE_STATUS_UNAVAILABLE => 14
  | IREE_STATUS_DATA_LOSS => 15
  | IREE_STATUS_UNAUTHENTICATED => 16
  | IREE_STATUS_DEFERRED => 17
  | IREE_STATUS_INCOMPATIBLE => 18
  end.

(** ** Operations *)

(** The negotiated capabilities. *)
Definition iree_net_session_bootstrap_validate_peer (b : iree_net_session_bootstrap_t) (peer : iree_net_bootstrap_peer_info_view_t) : status_or Z :=
  if negb (pv_application_endpoint_count peer =? sb_application_endpoint_count b) then Err IREE_STATUS_FAILED_PRECONDITION
  else
    let negotiated_capabilities := Z.land (pv_capabilities peer) (sb_local_capabilities b) in
    let missing_capabilities := Z.land (sb_required_capabilities b) (unot 32 negotiated_capabilities) in
    if negb (missing_capabilities =? IREE_NET_BOOTSTRAP_CAPABILITY_NONE) then Err IREE_STATUS_UNAVAILABLE
    else Ok negotiated_capabilities.

(** [host_malloc] is what the host allocator reports for a size. *)
Definition iree_net_session_bootstrap_initialize (role : Z) (local_peer : option iree_net_bootstrap_peer_info_t) (required_capabilities : Z)
    (host_malloc : Z → iree_status_code) : status_or iree_net_session_bootstrap_t :=
  match local_peer with
  | None => Err IREE_STATUS_INVALID_ARGUMENT
  | Some local_peer =>
      if negb (role =? IREE_NET_SESSION_BOOTSTRAP_ROLE_CLIENT) && negb (role =? IREE_NET_SESSION_BOOTSTRAP_ROLE_SERVER) then
        Err IREE_STATUS_INVALID_ARGUMENT
      else if negb (Z.land required_capabilities (unot 32 (pi_capabilities local_peer)) =? 0) then Err IREE_STATUS_INVALID_ARGUMENT
      else if pi_application_endpoint_count local_peer =? umax 32 then Err IREE_STATUS_INVALID_ARGUMENT
      else
        let message := if role =? IREE_NET_SESSION_BOOTSTRAP_ROLE_CLIENT then BootstrapHello local_peer else BootstrapHelloAck local_peer in
        message_size ← iree_net_bootstrap_message_calculate_size (Some message);
        match host_malloc message_size with
        | IREE_STATUS_OK =>
            message_data ← iree_net_bootstrap_message_serialize (Some message) (Span (replicate (Z.to_nat message_size) 0));
            Ok (mk_session_bootstrap
                  (if role =? IREE_NET_SESSION_BOOTSTRAP_ROLE_CLIENT then PHASE_CLIENT_SEND_HELLO else PHASE_SERVER_WAIT_HELLO)
                  (pi_capabilities local_peer) required_capabilities (pi_application_endpoint_count local_peer) (Some message_data))
        | code => Err code
        end
  end.

Definition iree_net_session_bootstrap_outbound_message (b : iree_net_session_bootstrap_t) : list Z := default [] (sb_outbound_message b).

Definition iree_net_session_bootstrap_consume_outbound_message (b : iree_net_session_bootstrap_t) : iree_net_session_bootstrap_t :=
  mk_session_bootstrap (if decide (sb_phase b = PHASE_CLIENT_SEND_HELLO) then PHASE_CLIENT_WAIT_ACK else PHASE_COMPLETE)
    (sb_local_capabilities b) (sb_required_capabilities b) (sb_application_endpoint_count b) None.

(** The number of a failure, or the peer and the negotiated capabilities. *)
Definition iree_net_session_bootstrap_process_message (b : iree_net_session_bootstrap_t) (message : span Z) :
    (Z + iree_net_bootstrap_peer_info_view_t * Z) * iree_net_session_bootstrap_t :=
  match iree_net_bootstrap_message_parse message with
  | Err code => (inl (status_code_value code), b)
  | Ok parsed_message =>
      let expected :=
        match sb_phase b, parsed_message with
        | PHASE_CLIENT_WAIT_ACK, ViewReject reject => inl (rv_status_code reject)
        | PHASE_CLIENT_WAIT_ACK, ViewHelloAck peer => inr peer
        | PHASE_CLIENT_WAIT_ACK, ViewHello _ => inl (status_code_value IREE_STATUS_FAILED_PRECONDITION)
        | PHASE_SERVER_WAIT_HELLO, ViewHello peer => inr peer
        | PHASE_SERVER_WAIT_HELLO, _ => inl (status_code_value IREE_STATUS_FAILED_PRECONDITION)
        | _, _ => inl (status_code_value IREE_STATUS_FAILED_PRECONDITION)
        end in
      match expected with
      | inl code => (inl code, b)
      | inr peer =>
          match iree_net_session_bootstrap_validate_peer b peer with
          | Err code => (inl (status_code_value code), b)
          | Ok negotiated_capabilities =>
              (inr (peer, negotiated_capabilities),
               with_phase (if decide (sb_phase b = PHASE_CLIENT_WAIT_ACK) then PHASE_COMPLETE else PHASE_SERVER_SEND_ACK) b)
          end
      end
  end.
