(* ===== verification/SessionHandshake.v ===== *)
(** * Agreement of the two sides of a bootstrap *)

From S2P Require Import Prelude BaseMath WireBytes ReceiveQueue FrameInvariant Frontier StatusWire StatusWrite StatusRead.
From S2P Require Import Bootstrap BootstrapWrite BootstrapRead BootstrapTheorems SessionBootstrap.
From stdpp Require Import base numbers list list_numbers.

Local Open Scope Z_scope.
Local Open Scope machine_scope.

(** The capabilities include what is required. *)
Definition includes (capabilities required : Z) : Prop := Z.land required capabilities = required.

Lemma missing_spec required capabilities :
  in_width 32 required → Z.land required (unot 32 capabilities) = 0 ↔ includes capabilities required.
Proof.
  intros Hr. unfold includes. assert (∀ i, 32 <= i → Z.testbit required i = false) as Ha by (intros; by apply (testbit_above 32)).
  split; intros H; apply Z.bits_inj'; intros i Hi; apply (f_equal (λ z, Z.testbit z i)) in H; revert H;
    rewrite ?Z.land_spec, ?Z.bits_0, unot_testbit by lia; destruct (Z.ltb_spec i 32); rewrite ?Ha by lia;
    destruct (Z.testbit required i), (Z.testbit capabilities i); done.
Qed.

#[export] Instance includes_dec capabilities required : Decision (includes capabilities required).
Proof. unfold includes. apply _. Defined.

(** ** Initialized sides *)

Definition role_message (role : Z) (peer : iree_net_bootstrap_peer_info_t) : iree_net_bootstrap_message_t :=
  if role =? IREE_NET_SESSION_BOOTSTRAP_ROLE_CLIENT then BootstrapHello peer else BootstrapHelloAck peer.

(** A buffer of the calculated size holds the encoding. *)
Lemma serialize_sized m size data :
  message_typed m → iree_net_bootstrap_message_calculate_size (Some m) = Ok size →
  iree_net_bootstrap_message_serialize (Some m) (Span (replicate (Z.to_nat size) 0)) = Ok data → message_ok m ∧ data = encode_message m.
Proof.
  intros Hm. pose proof (message_layout_eq m Hm) as H. unfold iree_net_bootstrap_message_calculate_size, iree_net_bootstrap_message_serialize.
  destruct (message_error m) eqn:He; [by rewrite H|]. destruct H as (layout & -> & Hsize & Hdata). cbn [mbind status_or_bind]. intros [= <-].
  cbn [span_length]. rewrite length_replicate, Z2Nat.id by (rewrite Hsize; apply byte_length_nonneg). rewrite Z.ltb_irrefl. intros [= <-].
  split; [done|]. rewrite <- (app_nil_r (encode_message m)), <- Hdata. unfold write_bytes. rewrite length_replicate. cbn [Nat.add take app].
  by rewrite drop_ge by (by rewrite length_replicate).
Qed.

Lemma initialize_inv role peer required host_malloc b :
  peer_typed peer → iree_net_session_bootstrap_initialize role (Some peer) required host_malloc = Ok b →
  message_ok (role_message role peer) ∧
  b = mk_session_bootstrap (if role =? IREE_NET_SESSION_BOOTSTRAP_ROLE_CLIENT then PHASE_CLIENT_SEND_HELLO else PHASE_SERVER_WAIT_HELLO)
        (pi_capabilities peer) required (pi_application_endpoint_count peer) (Some (encode_message (role_message role peer))).
Proof.
  intros Hp. unfold iree_net_session_bootstrap_initialize. destruct (_ && _); [done|]. destruct (negb _); [done|].
  destruct (_ =? umax 32); [done|]. fold (role_message role peer). set (m := role_message role peer).
  assert (message_typed m) as Hm by (unfold m, role_message; by destruct (role =? _)).
  destruct (iree_net_bootstrap_message_calculate_size (Some m)) as [size|] eqn:Hsize; [|done]. cbn [mbind status_or_bind].
  destruct (host_malloc _); try done. destruct (iree_net_bootstrap_message_serialize _ _) as [data|] eqn:Hdata; [|done].
  destruct (serialize_sized m size data Hm Hsize Hdata) as [Hok ->]. by intros [= <-].
Qed.

(** ** Processing *)

Definition peer_outcome (b : iree_net_session_bootstrap_t) (peer : iree_net_bootstrap_peer_info_t) : Z + Z :=
  if decide (pi_application_endpoint_count peer = sb_application_endpoint_count b) then
    if decide (includes (Z.land (pi_capabilities peer) (sb_local_capabilities b)) (sb_required_capabilities b))
    then inr (Z.land (pi_capabilities peer) (sb_local_capabilities b))
    else inl (status_code_value IREE_STATUS_UNAVAILABLE)
  else inl (status_code_value IREE_STATUS_FAILED_PRECONDITION).

Lemma validate_peer_eq b v peer :
  in_width 32 (sb_required_capabilities b) → represents_peer v peer →
  match iree_net_session_bootstrap_validate_peer b v with Ok c => inr c | Err code => inl (status_code_value code) end = peer_outcome b peer.
Proof.
  intros Hr (Hcap & Hep & _). unfold iree_net_session_bootstrap_validate_peer, peer_outcome. rewrite Hcap, Hep.
  destruct (Z.eqb_spec (pi_application_endpoint_count peer) (sb_application_endpoint_count b)); cbn [negb]; [rewrite decide_True by done|by rewrite decide_False].
  pose proof (missing_spec _ (Z.land (pi_capabilities peer) (sb_local_capabilities b)) Hr) as Hm.
  change IREE_NET_BOOTSTRAP_CAPABILITY_NONE with 0. destruct (Z.eqb_spec (Z.land (sb_required_capabilities b) (unot 32 (Z.land (pi_capabilities peer) (sb_local_capabilities b)))) 0); cbn [negb];
    [rewrite decide_True by tauto|rewrite decide_False by tauto]; done.
Qed.

Lemma process_hello b peer :
  sb_phase b = PHASE_SERVER_WAIT_HELLO → in_width 32 (sb_required_capabilities b) → message_ok (BootstrapHello peer) →
  ∃ v, represents_peer v peer ∧
    iree_net_session_bootstrap_process_message b (Span (encode_message (BootstrapHello peer))) =
      match peer_outcome b peer with inl code => (inl code, b) | inr c => (inr (v, c), with_phase PHASE_SERVER_SEND_ACK b) end.
Proof.
  intros Hph Hr Hm. destruct (parse_encoded _ Hm) as ([v|v|v] & Hv & Hrep); try done. exists v. split; [done|].
  unfold iree_net_session_bootstrap_process_message. rewrite Hv, Hph, <- (validate_peer_eq b v peer Hr Hrep).
  by destruct (iree_net_session_bootstrap_validate_peer b v).
Qed.

Lemma process_ack b peer :
  sb_phase b = PHASE_CLIENT_WAIT_ACK → in_width 32 (sb_required_capabilities b) → message_ok (BootstrapHelloAck peer) →
  ∃ v, represents_peer v peer ∧
    iree_net_session_bootstrap_process_message b (Span (encode_message (BootstrapHelloAck peer))) =
      match peer_outcome b peer with inl code => (inl code, b) | inr c => (inr (v, c), with_phase PHASE_COMPLETE b) end.
Proof.
  intros Hph Hr Hm. destruct (parse_encoded _ Hm) as ([v|v|v] & Hv & Hrep); try done. exists v. split; [done|].
  unfold iree_net_session_bootstrap_process_message. rewrite Hv, Hph, <- (validate_peer_eq b v peer Hr Hrep).
  by destruct (iree_net_session_bootstrap_validate_peer b v).
Qed.

Lemma process_reject b reject :
  sb_phase b = PHASE_CLIENT_WAIT_ACK → message_ok (BootstrapReject reject) →
  iree_net_session_bootstrap_process_message b (Span (encode_message (BootstrapReject reject))) = (inl (rj_status_code reject), b).
Proof.
  intros Hph Hm. destruct (parse_encoded _ Hm) as ([v|v|v] & Hv & Hrep); try done. destruct Hrep as [Hc _].
  unfold iree_net_session_bootstrap_process_message. by rewrite Hv, Hph, Hc.
Qed.

(** ** Agreement *)

(** The sides require the same number of endpoints, and what a side requires both have. *)
Definition endpoints_agree (a b : iree_net_bootstrap_peer_info_t) : Prop := pi_application_endpoint_count a = pi_application_endpoint_count b.

Definition common_capabilities (a b : iree_net_bootstrap_peer_info_t) : Z := Z.land (pi_capabilities a) (pi_capabilities b).

(** C26: A client and a server that were initialized with their peer information exchange
    HELLO and HELLO_ACK.  The server accepts exactly when the endpoint counts agree and the
    common capabilities include what it requires, and then the client accepts exactly when
    they include what the client requires; each side gets the information of the other, both
    negotiate the common capabilities and complete.  Otherwise the side that refuses reports
    FAILED_PRECONDITION or UNAVAILABLE and keeps its phase, and a REJECT with the code of the
    server makes the client fail with this code. *)
Theorem bootstrap_handshake client_peer client_required client_host client server_peer server_required server_host server :
  peer_typed client_peer → peer_typed server_peer → in_width 32 client_required → in_width 32 server_required →
  iree_net_session_bootstrap_initialize IREE_NET_SESSION_BOOTSTRAP_ROLE_CLIENT (Some client_peer) client_required client_host = Ok client →
  iree_net_session_bootstrap_initialize IREE_NET_SESSION_BOOTSTRAP_ROLE_SERVER (Some server_peer) server_required server_host = Ok server →
  let hello := iree_net_session_bootstrap_outbound_message client in
  let waiting := iree_net_session_bootstrap_consume_outbound_message client in
  let common := common_capabilities client_peer server_peer in
  match iree_net_session_bootstrap_process_message server (Span hello) with
  | (inr (peer, negotiated), answering) =>
      endpoints_agree client_peer server_peer ∧ includes common server_required ∧ represents_peer peer client_peer ∧ negotiated = common ∧
      sb_phase (iree_net_session_bootstrap_consume_outbound_message answering) = PHASE_COMPLETE ∧
      match iree_net_session_bootstrap_process_message waiting (Span (iree_net_session_bootstrap_outbound_message answering)) with
      | (inr (peer', negotiated'), connected) =>
          includes common client_required ∧ represents_peer peer' server_peer ∧ negotiated' = common ∧ sb_phase connected = PHASE_COMPLETE
      | (inl code, refusing) => ¬ includes common client_required ∧ code = status_code_value IREE_STATUS_UNAVAILABLE ∧ refusing = waiting
      end
  | (inl code, refusing) =>
      refusing = server ∧
      (¬ endpoints_agree client_peer server_peer ∧ code = status_code_value IREE_STATUS_FAILED_PRECONDITION ∨
       endpoints_agree client_peer server_peer ∧ ¬ includes common server_required ∧ code = status_code_value IREE_STATUS_UNAVAILABLE) ∧
      ∀ reason size data, span_typed is_byte 64 reason →
        iree_net_bootstrap_message_calculate_size (Some (BootstrapReject (mk_reject code reason))) = Ok size →
        iree_net_bootstrap_message_serialize (Some (BootstrapReject (mk_reject code reason))) (Span (replicate (Z.to_nat size) 0)) = Ok data →
        iree_net_session_bootstrap_process_message waiting (Span data) = (inl code, waiting)
  end.
Proof.
  intros Hc Hs Rc Rs Hci Hsi. apply initialize_inv in Hci as [Mc ->], Hsi as [Ms ->]; [|done..]. cbv zeta.
  cbn [iree_net_session_bootstrap_outbound_message iree_net_session_bootstrap_consume_outbound_message sb_outbound_message default from_option id].
  change (role_message IREE_NET_SESSION_BOOTSTRAP_ROLE_CLIENT client_peer) with (BootstrapHello client_peer) in *.
  change (role_message IREE_NET_SESSION_BOOTSTRAP_ROLE_SERVER server_peer) with (BootstrapHelloAck server_peer) in *.
  change (IREE_NET_SESSION_BOOTSTRAP_ROLE_CLIENT =? IREE_NET_SESSION_BOOTSTRAP_ROLE_CLIENT) with true.
  change (IREE_NET_SESSION_BOOTSTRAP_ROLE_SERVER =? IREE_NET_SESSION_BOOTSTRAP_ROLE_CLIENT) with false. cbv iota.
  unfold iree_net_session_bootstrap_consume_outbound_message, iree_net_session_bootstrap_outbound_message.
  cbn [sb_phase sb_local_capabilities sb_required_capabilities sb_application_endpoint_count sb_outbound_message default from_option id].
  rewrite decide_True by done. set (waiting := mk_session_bootstrap PHASE_CLIENT_WAIT_ACK _ _ _ None). set (server := mk_session_bootstrap PHASE_SERVER_WAIT_HELLO _ _ _ _).
  destruct (process_hello server client_peer eq_refl Rs Mc) as (v & Hv & ->).
  unfold peer_outcome. cbn [sb_local_capabilities sb_required_capabilities sb_application_endpoint_count server].
  fold (common_capabilities client_peer server_peer). set (common := common_capabilities _ _).
  assert (∀ code, 1 <= code <= 31 → ∀ reason size data, span_typed is_byte 64 reason →
    iree_net_bootstrap_message_calculate_size (Some (BootstrapReject (mk_reject code reason))) = Ok size →
    iree_net_bootstrap_message_serialize (Some (BootstrapReject (mk_reject code reason))) (Span (replicate (Z.to_nat size) 0)) = Ok data →
    iree_net_session_bootstrap_process_message waiting (Span data) = (inl code, waiting)) as Hreject.
  { intros code Hcode reason size data Hr Hsize Hser.
    destruct (serialize_sized (BootstrapReject (mk_reject code reason)) size data) as [Hm ->]; [split; [unfold in_width; cbn; lia|done]|done..|].
    by apply process_reject. }
  destruct (decide (pi_application_endpoint_count client_peer = pi_application_endpoint_count server_peer)) as [Hep|Hep];
    [|split; [done|]; split; [by left|by apply Hreject]].
  destruct (decide (includes common server_required)) as [Hin|Hin]; [|split; [done|]; split; [by right|by apply Hreject]].
  do 5 (split; [done|]). cbn [with_phase sb_outbound_message default from_option id server].
  destruct (process_ack waiting server_peer eq_refl Rc Ms) as (v' & Hv' & ->).
  unfold peer_outcome. cbn [sb_local_capabilities sb_required_capabilities sb_application_endpoint_count waiting].
  rewrite decide_True by done. replace (Z.land (pi_capabilities server_peer) (pi_capabilities client_peer)) with common by apply Z.land_comm.
  by case_decide.
Qed.

(** ** Witness *)

Definition sample_server_peer : iree_net_bootstrap_peer_info_t := mk_peer_info 3 2 (Span []) (NullSpan 0) 8 6.

Definition sample_side (role : Z) (peer : iree_net_bootstrap_peer_info_t) : iree_net_session_bootstrap_t :=
  match iree_net_session_bootstrap_initialize role (Some peer) 1 (λ _, IREE_STATUS_OK) with
  | Ok b => b
  | Err _ => mk_session_bootstrap PHASE_COMPLETE 0 0 0 None
  end.

Lemma sample_peers_typed : peer_typed sample_peer ∧ peer_typed sample_server_peer.
Proof.
  split; unfold peer_typed, span_typed, axis_typed, is_byte, in_width; cbn [sample_peer sample_server_peer pi_capabilities pi_application_endpoint_count
    pi_axes pi_application_data pi_machine_index pi_session_epoch span_length span_elements length];
    repeat split; try lia; apply (bool_decide_unpack _); vm_compute; exact I.
Qed.

Lemma bootstrap_handshake_witness :
  match iree_net_session_bootstrap_process_message (sample_side 1 sample_server_peer)
          (Span (iree_net_session_bootstrap_outbound_message (sample_side 0 sample_peer))) with
  | (inr (peer, negotiated), _) => represents_peer peer sample_peer ∧ negotiated = 1
  | (inl _, _) => False
  end.
Proof.
  pose proof (bootstrap_handshake sample_peer 1 (λ _, IREE_STATUS_OK) (sample_side 0 sample_peer) sample_server_peer 1 (λ _, IREE_STATUS_OK)
    (sample_side 1 sample_server_peer) (proj1 sample_peers_typed) (proj2 sample_peers_typed) ltac:(unfold in_width; lia) ltac:(unfold in_width; lia)
    ltac:(vm_compute; reflexivity) ltac:(vm_compute; reflexivity)) as H. cbv zeta in H.
  destruct (iree_net_session_bootstrap_process_message _ _) as [[code|[peer negotiated]] b] eqn:E.
  - vm_compute in E. discriminate.
  - destruct H as (_ & _ & Hp & Hn & _). split; [exact Hp|exact Hn].
Defined.
