(* ===== verification/Session.v ===== *)
(** * Sessions

    [iree/net/session.c]: the lifecycle of a session over one connection.  What a function
    does while it holds the session's mutex is one definition; an interleaving of many threads
    runs them in [session_step]. *)

From S2P Require Import Prelude BaseMath WireBytes ReceiveQueue FrameInvariant Frontier StatusWire StatusWrite StatusRead.
From S2P Require Import Bootstrap BootstrapWrite BootstrapRead BootstrapTheorems SessionBootstrap.
From Stdlib Require Import String Ascii.
From stdpp Require Import base numbers list list_numbers.

Local Open Scope Z_scope.
Local Open Scope machine_scope.

(** ** State *)

Inductive iree_net_session_state_t :=
  | SESSION_STATE_BOOTSTRAPPING
  | SESSION_STATE_OPERATIONAL
  | SESSION_STATE_DRAINING
  | SESSION_STATE_DEACTIVATED.

#[export] Instance session_state_eq_dec : EqDecision iree_net_session_state_t.
Proof. solve_decision. Defined.

(** The bits of [lifecycle_flags]. *)
Record iree_net_session_lifecycle_flags_t := mk_session_flags {
  SETUP_PENDING : bool;
  DEACTIVATION_REQUESTED : bool;
  CONNECTION_DEACTIVATION_SUBMITTED : bool;
  CONNECTION_DEACTIVATED : bool;
  ERROR_REPORTED : bool;
  REJECT_PENDING : bool;
}.

(** [se_connection] and [se_control_channel] are whether the pointers are set. *)
Record iree_net_session_t := mk_session {
  se_ref_count : Z;
  se_state : iree_net_session_state_t;
  se_flags : iree_net_session_lifecycle_flags_t;
  se_bootstrap : iree_net_session_bootstrap_t;
  se_connection : bool;
  se_control_channel : bool;
  se_opened_application_endpoint_count : Z;
}.

Definition with_refs (n : Z) (s : iree_net_session_t) : iree_net_session_t :=
  mk_session n (se_state s) (se_flags s) (se_bootstrap s) (se_connection s) (se_control_channel s) (se_opened_application_endpoint_count s).
Definition iree_net_session_set_state_locked (state : iree_net_session_state_t) (s : iree_net_session_t) : iree_net_session_t :=
  mk_session (se_ref_count s) state (se_flags s) (se_bootstrap s) (se_connection s) (se_control_channel s) (se_opened_application_endpoint_count s).
Definition with_flags (f : iree_net_session_lifecycle_flags_t → iree_net_session_lifecycle_flags_t) (s : iree_net_session_t) : iree_net_session_t :=
  mk_session (se_ref_count s) (se_state s) (f (se_flags s)) (se_bootstrap s) (se_connection s) (se_control_channel s)
    (se_opened_application_endpoint_count s).
Definition with_bootstrap (b : iree_net_session_bootstrap_t) (s : iree_net_session_t) : iree_net_session_t :=
  mk_session (se_ref_count s) (se_state s) (se_flags s) b (se_connection s) (se_control_channel s) (se_opened_application_endpoint_count s).
Definition with_connection (s : iree_net_session_t) : iree_net_session_t :=
  mk_session (se_ref_count s) (se_state s) (se_flags s) (se_bootstrap s) true (se_control_channel s) (se_opened_application_endpoint_count s).
Definition with_channel (s : iree_net_session_t) : iree_net_session_t :=
  mk_session (se_ref_count s) (se_state s) (se_flags s) (se_bootstrap s) (se_connection s) true (se_opened_application_endpoint_count s).
Definition with_opened (n : Z) (s : iree_net_session_t) : iree_net_session_t :=
  mk_session (se_ref_count s) (se_state s) (se_flags s) (se_bootstrap s) (se_connection s) (se_control_channel s) n.

Definition set_setup_pending (v : bool) (f : iree_net_session_lifecycle_flags_t) : iree_net_session_lifecycle_flags_t :=
  mk_session_flags v (DEACTIVATION_REQUESTED f) (CONNECTION_DEACTIVATION_SUBMITTED f) (CONNECTION_DEACTIVATED f) (ERROR_REPORTED f) (REJECT_PENDING f).
Definition set_deactivation_requested (f : iree_net_session_lifecycle_flags_t) : iree_net_session_lifecycle_flags_t :=
  mk_session_flags (SETUP_PENDING f) true (CONNECTION_DEACTIVATION_SUBMITTED f) (CONNECTION_DEACTIVATED f) (ERROR_REPORTED f) (REJECT_PENDING f).
Definition set_deactivation_submitted (f : iree_net_session_lifecycle_flags_t) : iree_net_session_lifecycle_flags_t :=
  mk_session_flags (SETUP_PENDING f) (DEACTIVATION_REQUESTED f) true (CONNECTION_DEACTIVATED f) (ERROR_REPORTED f) (REJECT_PENDING f).
Definition set_connection_deactivated (f : iree_net_session_lifecycle_flags_t) : iree_net_session_lifecycle_flags_t :=
  mk_session_flags (SETUP_PENDING f) (DEACTIVATION_REQUESTED f) (CONNECTION_DEACTIVATION_SUBMITTED f) true (ERROR_REPORTED f) (REJECT_PENDING f).
Definition set_error_reported (f : iree_net_session_lifecycle_flags_t) : iree_net_session_lifecycle_flags_t :=
  mk_session_flags (SETUP_PENDING f) (DEACTIVATION_REQUESTED f) (CONNECTION_DEACTIVATION_SUBMITTED f) (CONNECTION_DEACTIVATED f) true (REJECT_PENDING f).
Definition set_reject_pending (v : bool) (f : iree_net_session_lifecycle_flags_t) : iree_net_session_lifecycle_flags_t :=
  mk_session_flags (SETUP_PENDING f) (DEACTIVATION_REQUESTED f) (CONNECTION_DEACTIVATION_SUBMITTED f) (CONNECTION_DEACTIVATED f) (ERROR_REPORTED f) v.

(** ** What the functions do under the mutex *)

Definition iree_net_session_try_finalize_locked (s : iree_net_session_t) : bool * iree_net_session_t :=
  let f := se_flags s in
  if negb (DEACTIVATION_REQUESTED f) || (SETUP_PENDING f || REJECT_PENDING f) then (false, s)
  else if se_connection s && negb (CONNECTION_DEACTIVATED f) then (false, s)
  else if decide (se_state s = SESSION_STATE_DEACTIVATED) then (false, s)
  else (true, iree_net_session_set_state_locked SESSION_STATE_DEACTIVATED s).

Definition connection_deactivated_locked (s : iree_net_session_t) : bool * iree_net_session_t :=
  iree_net_session_try_finalize_locked (with_flags set_connection_deactivated s).

(** What remains to be done after the mutex. *)
Inductive drive_action :=
  | DriveNothing
  | DriveConnection
  | DriveFinalize.

(** With whether the connect operation is cancelled. *)
Definition drive_locked (s : iree_net_session_t) : bool * drive_action * iree_net_session_t :=
  let f := se_flags s in
  let cancel := (DEACTIVATION_REQUESTED f && SETUP_PENDING f) && negb (se_connection s) in
  if DEACTIVATION_REQUESTED f && negb (REJECT_PENDING f) && se_connection s && negb (CONNECTION_DEACTIVATION_SUBMITTED f) then
    (cancel, DriveConnection, with_flags set_deactivation_submitted s)
  else
    let '(finalize, s) := iree_net_session_try_finalize_locked s in
    (cancel, if finalize then DriveFinalize else DriveNothing, s).

Definition finish_setup_locked (s : iree_net_session_t) : iree_net_session_t := with_flags (set_setup_pending false) s.

(** Whether the error is reported. *)
Definition fail_locked (s : iree_net_session_t) : bool * iree_net_session_t :=
  let f := se_flags s in
  if negb (DEACTIVATION_REQUESTED f || ERROR_REPORTED f) && negb (bool_decide (se_state s = SESSION_STATE_DEACTIVATED)) then
    (true, iree_net_session_set_state_locked SESSION_STATE_DRAINING (with_flags (λ f, set_deactivation_requested (set_error_reported f)) s))
  else (false, s).

Definition reject_complete_locked (s : iree_net_session_t) : iree_net_session_t := with_flags (set_reject_pending false) s.

(** [send_status] is what the control endpoint reports; 0 is OK. *)
Definition iree_net_session_send_bootstrap_locked (send_status : Z) (s : iree_net_session_t) : Z * iree_net_session_t :=
  (send_status,
   if send_status =? 0 then with_bootstrap (iree_net_session_bootstrap_consume_outbound_message (se_bootstrap s)) s else s).

Definition string_bytes (text : string) : list Z := (λ c, Z.of_N (N_of_ascii c)) <$> list_ascii_of_string text.

Definition iree_status_code_string (code : Z) : string :=
  match code with
  | 0 => "OK"
  | 1 => "CANCELLED"
  | 2 => "UNKNOWN"
  | 3 => "INVALID_ARGUMENT"
  | 4 => "DEADLINE_EXCEEDED"
  | 5 => "NOT_FOUND"
  | 6 => "ALREADY_EXISTS"
  | 7 => "PERMISSION_DENIED"
  | 8 => "RESOURCE_EXHAUSTED"
  | 9 => "FAILED_PRECONDITION"
  | 10 => "ABORTED"
  | 11 => "OUT_OF_RANGE"
  | 12 => "UNIMPLEMENTED"
  | 13 => "INTERNAL"
  | 14 => "UNAVAILABLE"
  | 15 => "DATA_LOSS"
  | 16 => "UNAUTHENTICATED"
  | 17 => "DEFERRED"
  | 18 => "INCOMPATIBLE"
  | _ => ""
  end%string.

(** The message that was sent, if it was accepted. *)
Definition iree_net_session_send_reject_locked (status_code : Z) (host_malloc : Z → iree_status_code) (send_status : Z) (s : iree_net_session_t) :
    Z * option (list Z) * iree_net_session_t :=
  let message := BootstrapReject (mk_reject status_code (Span (string_bytes (iree_status_code_string status_code)))) in
  match iree_net_bootstrap_message_calculate_size (Some message) with
  | Err code => (status_code_value code, None, s)
  | Ok message_size =>
      match host_malloc message_size with
      | IREE_STATUS_OK =>
          match iree_net_bootstrap_message_serialize (Some message) (Span (replicate (Z.to_nat message_size) 0)) with
          | Err code => (status_code_value code, None, s)
          | Ok message_data =>
              let s := with_flags (set_reject_pending true) s in
              if send_status =? 0 then (0, Some message_data, s) else (send_status, None, with_flags (set_reject_pending false) s)
          end
      | code => (status_code_value code, None, s)
      end
  end.

(** The status of a join. *)
Definition join_status (base_status new_status : Z) : Z := if base_status =? 0 then new_status else base_status.

Definition goaway_locked (s : iree_net_session_t) : iree_net_session_t :=
  if decide (se_state s = SESSION_STATE_OPERATIONAL) then iree_net_session_set_state_locked SESSION_STATE_DRAINING s else s.

Inductive message_result :=
  | MessageIgnored
  | MessageFailed (status : Z)
  | MessageReady (peer : iree_net_bootstrap_peer_info_view_t) (negotiated : Z).

(** A received bootstrap message, with what was sent in answer to it. *)
Definition bootstrap_message_locked (message : span Z) (send_status : Z) (host_malloc : Z → iree_status_code) (reject_status : Z)
    (s : iree_net_session_t) : message_result * option (list Z) * iree_net_session_t :=
  if DEACTIVATION_REQUESTED (se_flags s) then (MessageIgnored, None, s)
  else
    let is_server := bool_decide (sb_phase (se_bootstrap s) = PHASE_SERVER_WAIT_HELLO) in
    let '(result, b) := iree_net_session_bootstrap_process_message (se_bootstrap s) message in
    let s := with_bootstrap b s in
    let reject status s :=
      if is_server then
        let '(reject_status, sent, s) := iree_net_session_send_reject_locked status host_malloc reject_status s in
        (MessageFailed (join_status status reject_status), sent, s)
      else (MessageFailed status, None, s) in
    let ready peer negotiated sent s := (MessageReady peer negotiated, sent, iree_net_session_set_state_locked SESSION_STATE_OPERATIONAL s) in
    match result with
    | inl status => reject status s
    | inr (peer, negotiated) =>
        if is_server then
          let outbound := iree_net_session_bootstrap_outbound_message b in
          let '(status, s) := iree_net_session_send_bootstrap_locked send_status s in
          if status =? 0 then ready peer negotiated (Some outbound) s else reject status s
        else ready peer negotiated None s
    end.

(** [None] with a pending deactivation, otherwise the status. [channel_status] and
    [activate_status] are what the control channel and the endpoint report. *)
Definition control_endpoint_ready_locked (status channel_status activate_status send_status : Z) (s : iree_net_session_t) :
    option Z * option (list Z) * bool * iree_net_session_t :=
  if DEACTIVATION_REQUESTED (se_flags s) then (None, None, false, s)
  else
    let status := if status =? 0 then channel_status else status in
    let '(allocated, s) := if status =? 0 then (true, with_channel s) else (false, s) in
    let status := if allocated then activate_status else status in
    let active := allocated && (status =? 0) in
    if (status =? 0) && bool_decide (sb_phase (se_bootstrap s) = PHASE_CLIENT_SEND_HELLO) then
      let outbound := iree_net_session_bootstrap_outbound_message (se_bootstrap s) in
      let '(status, s) := iree_net_session_send_bootstrap_locked send_status s in
      (Some status, if status =? 0 then Some outbound else None, active, s)
    else (Some status, None, active, s).

Definition iree_net_session_validate_endpoint_capacity (max_endpoint_count : Z) (s : iree_net_session_t) : Z :=
  let required_endpoint_count := uadd 32 (sb_application_endpoint_count (se_bootstrap s)) 1 in
  if max_endpoint_count <? required_endpoint_count then status_code_value IREE_STATUS_RESOURCE_EXHAUSTED else 0.

(** As for the control endpoint; [open_status] is what opening it reports. *)
Definition on_connect_locked (status max_endpoint_count open_status : Z) (s : iree_net_session_t) : option Z * iree_net_session_t :=
  let deactivation_requested := DEACTIVATION_REQUESTED (se_flags s) in
  let s := if status =? 0 then with_connection s else s in
  if deactivation_requested then (None, s)
  else
    let status := if status =? 0 then iree_net_session_validate_endpoint_capacity max_endpoint_count s else status in
    let status := if status =? 0 then open_status else status in
    (Some status, s).

Definition session_deactivate_locked (s : iree_net_session_t) : iree_net_session_t :=
  if decide (se_state s = SESSION_STATE_DEACTIVATED) then s
  else iree_net_session_set_state_locked SESSION_STATE_DRAINING (with_flags set_deactivation_requested s).

Definition iree_net_session_open_endpoint (open_status : Z) (s : iree_net_session_t) : Z * iree_net_session_t :=
  if negb (bool_decide (se_state s = SESSION_STATE_OPERATIONAL)) then (status_code_value IREE_STATUS_FAILED_PRECONDITION, s)
  else if sb_application_endpoint_count (se_bootstrap s) <=? se_opened_application_endpoint_count s then
    (status_code_value IREE_STATUS_RESOURCE_EXHAUSTED, s)
  else (open_status, if open_status =? 0 then with_opened (uadd 32 (se_opened_application_endpoint_count s) 1) s else s).

Definition iree_net_session_send_control_data (channel_status : Z) (s : iree_net_session_t) : Z :=
  if decide (se_state s = SESSION_STATE_OPERATIONAL) then channel_status else status_code_value IREE_STATUS_FAILED_PRECONDITION.

Definition iree_net_session_send_goaway (channel_status : Z) (s : iree_net_session_t) : Z * iree_net_session_t :=
  if negb (bool_decide (se_state s = SESSION_STATE_OPERATIONAL)) then (status_code_value IREE_STATUS_FAILED_PRECONDITION, s)
  else (channel_status, if channel_status =? 0 then iree_net_session_set_state_locked SESSION_STATE_DRAINING s else s).

(** Whether a DATA message is handed to the application. *)
Definition control_data_admitted (s : iree_net_session_t) : bool :=
  bool_decide (se_state s = SESSION_STATE_OPERATIONAL) || bool_decide (se_state s = SESSION_STATE_DRAINING).

(** ** Creation *)

Definition iree_net_session_retain (s : iree_net_session_t) : iree_net_session_t := with_refs (se_ref_count s + 1) s.

(** With whether this was the last reference and the session is destroyed. *)
Definition iree_net_session_release (s : iree_net_session_t) : bool * iree_net_session_t :=
  (se_ref_count s =? 1, with_refs (se_ref_count s - 1) s).

(** [callbacks] is whether all of them are given. *)
Definition iree_net_session_create (role : Z) (local_peer : iree_net_bootstrap_peer_info_t) (required_capabilities : Z) (callbacks : bool)
    (session_malloc : iree_status_code) (host_malloc : Z → iree_status_code) : status_or iree_net_session_t :=
  if negb callbacks then Err IREE_STATUS_INVALID_ARGUMENT
  else
    match session_malloc with
    | IREE_STATUS_OK =>
        b ← iree_net_session_bootstrap_initialize role (Some local_peer) required_capabilities host_malloc;
        Ok (iree_net_session_retain
              (mk_session 1 SESSION_STATE_BOOTSTRAPPING (mk_session_flags true false false false false false) b false false 0))
    | code => Err code
    end.

(** [connect_status] is what the factory reports; a failure destroys the session. *)
Definition iree_net_session_connect (local_peer : iree_net_bootstrap_peer_info_t) (required_capabilities : Z) (callbacks : bool)
    (session_malloc : iree_status_code) (host_malloc : Z → iree_status_code) (connect_status : iree_status_code) : status_or iree_net_session_t :=
  s ← iree_net_session_create IREE_NET_SESSION_BOOTSTRAP_ROLE_CLIENT local_peer required_capabilities callbacks session_malloc host_malloc;
  match connect_status with IREE_STATUS_OK => Ok s | code => Err code end.

(** [open_status] is what opening the control endpoint reports. *)
Definition iree_net_session_accept (max_endpoint_count : Z) (local_peer : iree_net_bootstrap_peer_info_t) (required_capabilities : Z)
    (callbacks : bool) (session_malloc : iree_status_code) (host_malloc : Z → iree_status_code) (open_status : iree_status_code) :
    status_or iree_net_session_t :=
  s ← iree_net_session_create IREE_NET_SESSION_BOOTSTRAP_ROLE_SERVER local_peer required_capabilities callbacks session_malloc host_malloc;
  let s := with_connection s in
  if negb (iree_net_session_validate_endpoint_capacity max_endpoint_count s =? 0) then Err IREE_STATUS_RESOURCE_EXHAUSTED
  else match open_status with IREE_STATUS_OK => Ok s | code => Err code end.

(** ** What threads do

    A call is a list of actions, each of which runs without interruption: a section under the
    mutex, or a call of the application or the connection between sections. *)

Inductive session_action :=
  | OnConnect (status max_endpoint_count open_status : Z)
  | OnControlEndpointReady (status channel_status activate_status send_status : Z)
  | OnBootstrapMessage (message : span Z) (send_status : Z) (host_malloc : Z → iree_status_code) (reject_status : Z)
  | OnBootstrapSendComplete (status : Z)
  | OnRejectSendComplete
  | OnControlData
  | OnControlGoaway (reason_code : Z)
  | OnConnectionDeactivated
  | Fail (status : Z)
  | FinishSetup
  | DriveDeactivation
  | DeactivateConnection
  | Deactivate
  | OpenEndpoint (open_status : Z)
  | SendGoaway (channel_status : Z)
  | CallReady (peer : iree_net_bootstrap_peer_info_view_t) (negotiated : Z)
  | CallControlData
  | CallGoaway (reason_code : Z)
  | CallError (status : Z)
  | CallDeactivated
  | Release.

(** What the application, the factory and the connection observe. *)
Inductive session_output :=
  | OutReady (peer : iree_net_bootstrap_peer_info_view_t) (negotiated : Z)
  | OutControlData
  | OutGoaway (reason_code : Z)
  | OutError (status : Z)
  | OutDeactivated
  | OutCancelConnect
  | OutOpenControlEndpoint
  | OutActivate
  | OutAttach
  | OutSendBootstrap (message : list Z)
  | OutSendReject (message : list Z)
  | OutDeactivateConnection
  | OutDestroy.

(** The actions that follow, the session and what is observed. *)
Definition session_run (a : session_action) (s : iree_net_session_t) : list session_action * iree_net_session_t * list session_output :=
  match a with
  | OnConnect status max_endpoint_count open_status =>
      match on_connect_locked status max_endpoint_count open_status s with
      | (None, s) => ([FinishSetup], s, [])
      | (Some status, s) => if status =? 0 then ([], s, [OutOpenControlEndpoint]) else ([Fail status; FinishSetup], s, [])
      end
  | OnControlEndpointReady status channel_status activate_status send_status =>
      match control_endpoint_ready_locked status channel_status activate_status send_status s with
      | (None, _, _, s) => ([FinishSetup], s, [])
      | (Some status, sent, active, s) =>
          ((if status =? 0 then [] else [Fail status]) ++ [FinishSetup], s,
           (if active : bool then [OutActivate] else []) ++ match sent with Some message => [OutSendBootstrap message] | None => [] end)
      end
  | OnBootstrapMessage message send_status host_malloc reject_status =>
      match bootstrap_message_locked message send_status host_malloc reject_status s with
      | (MessageIgnored, _, s) => ([], s, [])
      | (MessageFailed status, sent, s) =>
          ([Fail status], s, match sent with Some message => [OutSendReject message] | None => [] end)
      | (MessageReady peer negotiated, sent, s) =>
          ([CallReady peer negotiated], s, match sent with Some message => [OutSendBootstrap message] | None => [] end ++ [OutAttach])
      end
  | OnBootstrapSendComplete status => (if status =? 0 then [] else [Fail status], s, [])
  | OnRejectSendComplete => ([DriveDeactivation], reject_complete_locked s, [])
  | OnControlData => (if control_data_admitted s then [CallControlData] else [], s, [])
  | OnControlGoaway reason_code => ([CallGoaway reason_code], goaway_locked s, [])
  | OnConnectionDeactivated =>
      let '(finalize, s) := connection_deactivated_locked s in (if finalize then [CallDeactivated; Release] else [], s, [])
  | Fail status =>
      let '(report_error, s) := fail_locked s in ((if report_error then [CallError status] else []) ++ [DriveDeactivation], s, [])
  | FinishSetup => ([DriveDeactivation], finish_setup_locked s, [])
  | DriveDeactivation =>
      let '(cancel, action, s) := drive_locked s in
      (match action with DriveNothing => [] | DriveConnection => [DeactivateConnection] | DriveFinalize => [CallDeactivated; Release] end,
       s, if cancel then [OutCancelConnect] else [])
  | DeactivateConnection => ([], s, [OutDeactivateConnection])
  | Deactivate => ([DriveDeactivation], session_deactivate_locked s, [])
  | OpenEndpoint open_status => ([], (iree_net_session_open_endpoint open_status s).2, [])
  | SendGoaway channel_status => ([], (iree_net_session_send_goaway channel_status s).2, [])
  | CallReady peer negotiated => ([], s, [OutReady peer negotiated])
  | CallControlData => ([], s, [OutControlData])
  | CallGoaway reason_code => ([], s, [OutGoaway reason_code])
  | CallError status => ([], s, [OutError status])
  | CallDeactivated => ([], s, [OutDeactivated])
  | Release => let '(last, s) := iree_net_session_release s in ([], s, if last then [OutDestroy] else [])
  end.

(** ** Interleavings *)

(** Who runs a thread: the transport factory, an endpoint of the connection with a message or
    with another completion, the drained connection, or an owner of the session. *)
Inductive session_caller :=
  | FromFactory
  | FromMessage
  | FromEndpoint
  | FromDrain
  | FromOwner.

#[export] Instance session_caller_eq_dec : EqDecision session_caller.
Proof. solve_decision. Defined.

Inductive connection_drain :=
  | DrainIdle
  | DrainRequested
  | DrainDone.

#[export] Instance connection_drain_eq_dec : EqDecision connection_drain.
Proof. solve_decision. Defined.

(** What the factory and the connection owe: the connect callback, the endpoint-ready
    callback, the completions of the bootstrap message and of a rejection; whether the
    control endpoint is active and the control channel attached. *)
Record session_env := mk_env {
  en_connect : bool;
  en_ready : bool;
  en_sends : nat;
  en_rejects : nat;
  en_active : bool;
  en_attached : bool;
  en_drain : connection_drain;
}.

Definition observe (e : session_env) (o : session_output) : session_env :=
  let '(mk_env connect ready sends rejects active attached drain) := e in
  match o with
  | OutOpenControlEndpoint => mk_env connect true sends rejects active attached drain
  | OutActivate => mk_env connect ready sends rejects true attached drain
  | OutAttach => mk_env connect ready sends rejects active true drain
  | OutSendBootstrap _ => mk_env connect ready (S sends) rejects active attached drain
  | OutSendReject _ => mk_env connect ready sends (S rejects) active attached drain
  | OutDeactivateConnection => mk_env connect ready sends rejects active attached DrainRequested
  | _ => e
  end.

Definition session_thread : Type := session_caller * list session_action.

(** [sn_owners] counts the references that no call is using. *)
Record session_system := mk_session_system {
  sn_session : iree_net_session_t;
  sn_threads : list session_thread;
  sn_env : session_env;
  sn_owners : nat;
  sn_events : list session_output;
}.

Definition from_connection (c : session_caller) : bool := bool_decide (c = FromMessage) || bool_decide (c = FromEndpoint).

(** No callback of the connection is running. *)
Definition connection_quiet (ts : list session_thread) : bool := forallb (λ t, negb (from_connection t.1)) ts.

Definition no_message_running (ts : list session_thread) : bool := forallb (λ t, negb (bool_decide (t.1 = FromMessage))) ts.

(** The factory and the connection call back once for what they accepted, messages arrive
    one at a time while the endpoint is active, and a connection is drained when none of its
    callbacks is running or owed.  Owners call and release with a reference of theirs. *)
Inductive session_step : session_system → session_system → Prop :=
  | session_act s ts1 ts2 c a l e n es next s' outs :
      session_run a s = (next, s', outs) →
      session_step (mk_session_system s (ts1 ++ (c, a :: l) :: ts2) e n es)
        (mk_session_system s' (ts1 ++ (c, next ++ l) :: ts2) (foldl observe e outs) n (es ++ outs))
  | session_return s ts1 ts2 c e n es :
      session_step (mk_session_system s (ts1 ++ (c, []) :: ts2) e n es)
        (mk_session_system s (ts1 ++ ts2) e (if decide (c = FromOwner) then S n else n) es)
  | session_connected s ts ready sends rejects active attached drain n es status max_endpoint_count open_status :
      session_step (mk_session_system s ts (mk_env true ready sends rejects active attached drain) n es)
        (mk_session_system s ((FromFactory, [OnConnect status max_endpoint_count open_status]) :: ts)
           (mk_env false ready sends rejects active attached drain) n es)
  | session_ready s ts connect sends rejects active attached drain n es status channel_status activate_status send_status :
      session_step (mk_session_system s ts (mk_env connect true sends rejects active attached drain) n es)
        (mk_session_system s ((FromEndpoint, [OnControlEndpointReady status channel_status activate_status send_status]) :: ts)
           (mk_env connect false sends rejects active attached drain) n es)
  | session_message s ts connect ready sends rejects drain n es message send_status host_malloc reject_status :
      no_message_running ts = true →
      session_step (mk_session_system s ts (mk_env connect ready sends rejects true false drain) n es)
        (mk_session_system s ((FromMessage, [OnBootstrapMessage message send_status host_malloc reject_status]) :: ts)
           (mk_env connect ready sends rejects true false drain) n es)
  | session_control s ts connect ready sends rejects drain n es a :
      no_message_running ts = true → a = OnControlData ∨ (∃ reason_code, a = OnControlGoaway reason_code) →
      session_step (mk_session_system s ts (mk_env connect ready sends rejects true true drain) n es)
        (mk_session_system s ((FromMessage, [a]) :: ts) (mk_env connect ready sends rejects true true drain) n es)
  | session_error s ts connect ready sends rejects attached drain n es status :
      session_step (mk_session_system s ts (mk_env connect ready sends rejects true attached drain) n es)
        (mk_session_system s ((FromEndpoint, [Fail status]) :: ts) (mk_env connect ready sends rejects true attached drain) n es)
  | session_sent s ts connect ready sends rejects active attached drain n es status :
      session_step (mk_session_system s ts (mk_env connect ready (S sends) rejects active attached drain) n es)
        (mk_session_system s ((FromEndpoint, [OnBootstrapSendComplete status]) :: ts) (mk_env connect ready sends rejects active attached drain) n es)
  | session_rejected s ts connect ready sends rejects active attached drain n es :
      session_step (mk_session_system s ts (mk_env connect ready sends (S rejects) active attached drain) n es)
        (mk_session_system s ((FromEndpoint, [OnRejectSendComplete]) :: ts) (mk_env connect ready sends rejects active attached drain) n es)
  | session_drained s ts connect active attached n es :
      connection_quiet ts = true →
      session_step (mk_session_system s ts (mk_env connect false 0 0 active attached DrainRequested) n es)
        (mk_session_system s ((FromDrain, [OnConnectionDeactivated]) :: ts) (mk_env connect false 0 0 false attached DrainDone) n es)
  | session_call s ts e n es a :
      a = Deactivate ∨ (∃ status, a = OpenEndpoint status ∨ a = SendGoaway status) →
      session_step (mk_session_system s ts e (S n) es) (mk_session_system s ((FromOwner, [a]) :: ts) e n es)
  | session_retained s ts e n es :
      session_step (mk_session_system s ts e (S n) es) (mk_session_system (iree_net_session_retain s) ts e (S (S n)) es)
  | session_released s ts e n es last s' :
      iree_net_session_release s = (last, s') →
      session_step (mk_session_system s ts e (S n) es) (mk_session_system s' ts e n (es ++ if last then [OutDestroy] else [])).

Inductive session_reachable : session_system → Prop :=
  | session_client local_peer required callbacks session_malloc host_malloc connect_status s :
      iree_net_session_connect local_peer required callbacks session_malloc host_malloc connect_status = Ok s →
      session_reachable (mk_session_system s [] (mk_env true false 0 0 false false DrainIdle) 1 [])
  | session_server max_endpoint_count local_peer required callbacks session_malloc host_malloc open_status s :
      iree_net_session_accept max_endpoint_count local_peer required callbacks session_malloc host_malloc open_status = Ok s →
      session_reachable (mk_session_system s [] (mk_env false true 0 0 false false DrainIdle) 1 [])
  | session_next y y' : session_reachable y → session_step y y' → session_reachable y'.
