(* ===== verification/SessionInvariant.v ===== *)
(** * Invariant of sessions

    What is owed is counted by tokens: the actions that threads still have to run and the
    callbacks of the factory and the connection. *)

From S2P Require Import Prelude BaseMath WireBytes ReceiveQueue FrameInvariant Frontier StatusWire StatusWrite StatusRead.
From S2P Require Import Bootstrap BootstrapWrite BootstrapRead BootstrapTheorems SessionBootstrap Session.
From stdpp Require Import base numbers list list_numbers.

Local Open Scope Z_scope.
Local Open Scope machine_scope.

(** ** Tokens *)

Inductive token :=
  | TSetup
  | TReject
  | TSubmit
  | TDrained
  | TFinal
  | TRelease
  | TError
  | TReady.

Definition token_of (t : token) (a : session_action) : nat :=
  match t, a with
  | TSetup, (OnConnect _ _ _ | OnControlEndpointReady _ _ _ _ | FinishSetup)
  | TReject, OnRejectSendComplete
  | TSubmit, DeactivateConnection
  | TDrained, OnConnectionDeactivated
  | TFinal, CallDeactivated
  | TRelease, Release
  | TError, CallError _
  | TReady, CallReady _ _ => 1
  | _, _ => 0
  end.

Definition tokens (t : token) (l : list session_action) : nat := sum_list_with (token_of t) l.

Definition thread_tokens (t : token) (ts : list session_thread) : nat := sum_list_with (λ th, tokens t th.2) ts.

Definition b2n (b : bool) : nat := if b then 1 else 0.

(** ** Shapes of threads *)

(** The actions that a call can have left: nothing or the end of a deactivation for all, the
    steps of a failure before the end of setup or alone, and those of its own. *)
Definition thread_ok (c : session_caller) (l : list session_action) : Prop :=
  match c, l with
  | _, [] => True
  | (FromFactory | FromEndpoint | FromMessage | FromOwner), ([DriveDeactivation] | [DeactivateConnection]) => True
  | (FromFactory | FromDrain | FromOwner), ([CallDeactivated; Release] | [Release]) => True
  | FromFactory, [OnConnect _ _ _] => True
  | (FromFactory | FromEndpoint),
    ([Fail _; FinishSetup] | [CallError _; DriveDeactivation; FinishSetup] | [DriveDeactivation; FinishSetup] |
     [DeactivateConnection; FinishSetup] | [FinishSetup]) => True
  | FromEndpoint, ([OnControlEndpointReady _ _ _ _] | [OnBootstrapSendComplete _] | [OnRejectSendComplete]) => True
  | (FromEndpoint | FromMessage), ([Fail _] | [CallError _; DriveDeactivation]) => True
  | FromMessage,
    ([OnBootstrapMessage _ _ _ _] | [OnControlData] | [OnControlGoaway _] | [CallReady _ _] | [CallControlData] | [CallGoaway _]) => True
  | FromDrain, [OnConnectionDeactivated] => True
  | FromOwner, ([Deactivate] | [OpenEndpoint _] | [SendGoaway _]) => True
  | _, _ => False
  end.

(** A message whose failure is not yet recorded. *)
Definition is_failing (t : session_thread) : bool :=
  match t with (FromMessage, Fail _ :: _) => true | _ => false end.

Definition failing (ts : list session_thread) : bool := existsb is_failing ts.

(** ** Numbers *)

Definition is_out_final (o : session_output) : bool := match o with OutDeactivated => true | _ => false end.
Definition is_out_error (o : session_output) : bool := match o with OutError _ => true | _ => false end.
Definition is_out_ready (o : session_output) : bool := match o with OutReady _ _ => true | _ => false end.

Definition occurrences (p : session_output → bool) (es : list session_output) : nat := sum_list_with (λ o, b2n (p o)) es.

(** The connection has nothing to call back. *)
Definition nothing_owed (e : session_env) : Prop := en_ready e = false ∧ en_sends e = 0%nat ∧ en_rejects e = 0%nat ∧ en_active e = false.

(** The session against the tokens [n], the environment, the events, whether a callback of
    the connection runs, whether a failure is to be recorded and the number of owners. *)
Record numbers_ok (s : iree_net_session_t) (n : token → nat) (e : session_env) (es : list session_output) (quiet failure : bool)
    (owners : nat) : Prop := {
  no_setup : b2n (SETUP_PENDING (se_flags s)) = (b2n (en_connect e) + b2n (en_ready e) + n TSetup)%nat;
  no_reject : b2n (REJECT_PENDING (se_flags s)) = (en_rejects e + n TReject)%nat;
  no_submit : b2n (CONNECTION_DEACTIVATION_SUBMITTED (se_flags s)) = (b2n (bool_decide (en_drain e ≠ DrainIdle)) + n TSubmit)%nat;
  no_drained : b2n (bool_decide (en_drain e = DrainDone)) = (b2n (CONNECTION_DEACTIVATED (se_flags s)) + n TDrained)%nat;
  no_final : b2n (bool_decide (se_state s = SESSION_STATE_DEACTIVATED)) = (occurrences is_out_final es + n TFinal)%nat;
  no_release : (n TFinal <= n TRelease <= b2n (bool_decide (se_state s = SESSION_STATE_DEACTIVATED)))%nat;
  no_error : b2n (ERROR_REPORTED (se_flags s)) = (occurrences is_out_error es + n TError)%nat;
  no_ready : b2n (bool_decide (sb_phase (se_bootstrap s) = PHASE_COMPLETE)) = (occurrences is_out_ready es + n TReady)%nat;
  no_refs :
    se_ref_count s = Z.of_nat owners + if decide (se_state s = SESSION_STATE_DEACTIVATED) then Z.of_nat (n TRelease) else 1;
  no_connection : se_connection s = false → nothing_owed e ∧ en_drain e = DrainIdle ∧ quiet = true ∧ CONNECTION_DEACTIVATION_SUBMITTED (se_flags s) = false;
  no_quiet : en_drain e = DrainDone → nothing_owed e ∧ quiet = true;
  no_deactivated :
    se_state s = SESSION_STATE_DEACTIVATED →
    DEACTIVATION_REQUESTED (se_flags s) = true ∧ SETUP_PENDING (se_flags s) = false ∧ REJECT_PENDING (se_flags s) = false ∧
    (se_connection s = true → CONNECTION_DEACTIVATED (se_flags s) = true);
  no_requested :
    DEACTIVATION_REQUESTED (se_flags s) = true → se_state s = SESSION_STATE_DRAINING ∨ se_state s = SESSION_STATE_DEACTIVATED;
  no_submitted : CONNECTION_DEACTIVATION_SUBMITTED (se_flags s) = true → DEACTIVATION_REQUESTED (se_flags s) = true;
  no_reported : ERROR_REPORTED (se_flags s) = true → DEACTIVATION_REQUESTED (se_flags s) = true;
  no_operational : se_state s = SESSION_STATE_OPERATIONAL → sb_phase (se_bootstrap s) = PHASE_COMPLETE;
  no_draining :
    se_state s = SESSION_STATE_DRAINING → DEACTIVATION_REQUESTED (se_flags s) = true ∨ sb_phase (se_bootstrap s) = PHASE_COMPLETE;
  no_pending : REJECT_PENDING (se_flags s) = true → DEACTIVATION_REQUESTED (se_flags s) = true ∨ failure = true;
}.

(** ** Reachable systems *)

Definition is_callback (o : session_output) : bool :=
  match o with OutReady _ _ | OutControlData | OutGoaway _ | OutError _ | OutDeactivated => true | _ => false end.

(** Nothing is called after [on_deactivated]. *)
Fixpoint final_callback_last (es : list session_output) : Prop :=
  match es with
  | [] => True
  | OutDeactivated :: es => Forall (λ o, is_callback o = false) es
  | _ :: es => final_callback_last es
  end.

Definition owner_calls (ts : list session_thread) : nat := sum_list_with (λ t, b2n (bool_decide (t.1 = FromOwner))) ts.

Definition message_calls (ts : list session_thread) : nat := sum_list_with (λ t, b2n (bool_decide (t.1 = FromMessage))) ts.

Record session_ok (y : session_system) : Prop := {
  so_numbers :
    numbers_ok (sn_session y) (λ t, thread_tokens t (sn_threads y)) (sn_env y) (sn_events y) (connection_quiet (sn_threads y))
      (failing (sn_threads y)) (sn_owners y + owner_calls (sn_threads y));
  so_threads : Forall (λ t, thread_ok t.1 t.2) (sn_threads y);
  so_message : (message_calls (sn_threads y) <= 1)%nat;
  so_last : final_callback_last (sn_events y);
}.

(** ** One action *)

Lemma tokens_app t l l' : tokens t (l ++ l') = (tokens t l + tokens t l')%nat.
Proof. unfold tokens. by rewrite sum_list_with_app. Qed.

Lemma occurrences_app p es es' : occurrences p (es ++ es') = (occurrences p es + occurrences p es')%nat.
Proof. unfold occurrences. by rewrite sum_list_with_app. Qed.

Lemma occurrences_cons p o es : occurrences p (o :: es) = (b2n (p o) + occurrences p es)%nat.
Proof. done. Qed.

Lemma b2n_le b : (b2n b <= 1)%nat.
Proof. destruct b; cbn; lia. Qed.

(** The invariant before and after an action of a thread of [c] with the rest [l]. *)
Definition act_preserves (a : session_action) : Prop :=
  ∀ s c l base e es quiet failure owners next s' outs,
    session_run a s = (next, s', outs) → thread_ok c (a :: l) → (∀ t, (tokens t l <= base t)%nat) → (base TFinal <= base TRelease)%nat →
    (from_connection c = true → quiet = false) → (c = FromMessage → failure = is_failing (c, a :: l)) →
    numbers_ok s (λ t, (base t + token_of t a)%nat) e es quiet failure owners →
    numbers_ok s' (λ t, (base t + tokens t next)%nat) (foldl observe e outs) (es ++ outs) quiet
      (if decide (c = FromMessage) then is_failing (c, next ++ l) else failure) owners ∧
    thread_ok c (next ++ l).

Ltac fields :=
  cbn [se_ref_count se_state se_flags se_bootstrap se_connection se_control_channel se_opened_application_endpoint_count
       SETUP_PENDING DEACTIVATION_REQUESTED CONNECTION_DEACTIVATION_SUBMITTED CONNECTION_DEACTIVATED ERROR_REPORTED REJECT_PENDING
       en_connect en_ready en_sends en_rejects en_active en_attached en_drain foldl observe
       with_refs iree_net_session_set_state_locked with_flags with_bootstrap with_connection with_channel with_opened
       set_setup_pending set_deactivation_requested set_deactivation_submitted set_connection_deactivated set_error_reported set_reject_pending
       finish_setup_locked reject_complete_locked
       tokens sum_list_with token_of app] in *.

Ltac open_session s e :=
  destruct s as [refs state [setup requested submitted drained reported rejecting] b connection channel opened];
  destruct e as [connect ready sends rejects active attached drain].

Ltac start_act :=
  intros s c l base e es quiet failure owners next s' outs Hrun Hthread Hbase Hfinal Hquiet Hfail Hok; open_session s e.

(** The callers of an action and what they have left. *)
Ltac shapes c l H :=
  destruct c; cbn [thread_ok] in H; try done;
  repeat (match type of H with context [match l with _ => _ end] => destruct l as [|[] l] end; try done);
  try (match type of H with context [match ?k with _ => _ end] => destruct k as [|[] ?]; try done end).

Ltac drains :=
  change (bool_decide (DrainIdle ≠ DrainIdle)) with false in *; change (bool_decide (DrainRequested ≠ DrainIdle)) with true in *;
  change (bool_decide (DrainDone ≠ DrainIdle)) with true in *; change (bool_decide (DrainIdle = DrainDone)) with false in *;
  change (bool_decide (DrainRequested = DrainDone)) with false in *; change (bool_decide (DrainDone = DrainDone)) with true in *.

Ltac states :=
  change (bool_decide (SESSION_STATE_DRAINING = SESSION_STATE_DEACTIVATED)) with false in *;
  change (bool_decide (SESSION_STATE_OPERATIONAL = SESSION_STATE_DEACTIVATED)) with false in *;
  change (bool_decide (SESSION_STATE_DEACTIVATED = SESSION_STATE_DEACTIVATED)) with true in *;
  change (occurrences ?p []) with 0%nat in *; cbn [b2n] in *.

Ltac settle_failure :=
  match goal with
  | H : FromMessage = FromMessage → _ |- _ =>
      specialize (H eq_refl); cbn [is_failing] in H; subst; rewrite ?(decide_True (P := FromMessage = FromMessage)) by done
  | |- _ => rewrite ?decide_False by done
  end.

Ltac numbers :=
  repeat match goal with H : numbers_ok _ _ _ _ _ _ _ |- _ => destruct H end;
  constructor; fields; rewrite ?occurrences_app, ?occurrences_cons, ?app_nil_r in *;
  cbn [is_out_final is_out_error is_out_ready is_failing b2n] in *; try assumption; try (change (occurrences _ []) with 0%nat; lia).

Lemma act_call_ready p k : act_preserves (CallReady p k).
Proof. start_act. cbn in Hrun. injection Hrun as <- <- <-. shapes c l Hthread. settle_failure. split; [|done]. numbers. Qed.

Lemma act_call_data : act_preserves CallControlData.
Proof. start_act. cbn in Hrun. injection Hrun as <- <- <-. shapes c l Hthread. settle_failure. split; [|done]. numbers. Qed.

Lemma act_call_goaway r : act_preserves (CallGoaway r).
Proof. start_act. cbn in Hrun. injection Hrun as <- <- <-. shapes c l Hthread. settle_failure. split; [|done]. numbers. Qed.

Lemma act_call_error status : act_preserves (CallError status).
Proof. start_act. cbn in Hrun. injection Hrun as <- <- <-. shapes c l Hthread; settle_failure; (split; [|done]); numbers. Qed.

Lemma act_call_deactivated : act_preserves CallDeactivated.
Proof. start_act. cbn in Hrun. injection Hrun as <- <- <-. shapes c l Hthread; settle_failure; (split; [|done]); numbers. Qed.

Lemma act_send_complete status : act_preserves (OnBootstrapSendComplete status).
Proof.
  start_act. cbn in Hrun. injection Hrun as <- <- <-. shapes c l Hthread. settle_failure.
  destruct (status =? 0); (split; [|done]); numbers.
Qed.

Lemma act_control_data : act_preserves OnControlData.
Proof.
  start_act. cbn [session_run] in Hrun. injection Hrun as <- <- <-. shapes c l Hthread. settle_failure.
  destruct (control_data_admitted _); (split; [|done]); numbers.
Qed.

Lemma act_release : act_preserves Release.
Proof.
  start_act. cbn in Hrun. injection Hrun as <- <- <-.
  assert (state = SESSION_STATE_DEACTIVATED ∧ base TFinal = 0%nat ∧ base TRelease = 0%nat) as (-> & Hb1 & Hb2).
  { destruct Hok. fields. destruct (decide (state = SESSION_STATE_DEACTIVATED)) as [->|Hs];
      [rewrite bool_decide_true in * by done|rewrite bool_decide_false in * by done]; cbn [b2n] in *; [split_and!; (done || lia)|lia]. }
  destruct (refs =? 1); shapes c l Hthread; settle_failure; (split; [|done]); numbers;
    rewrite ?bool_decide_true, ?decide_True in * by done; cbn [b2n] in *; lia.
Qed.

Lemma act_deactivate_connection : act_preserves DeactivateConnection.
Proof.
  start_act. cbn in Hrun. injection Hrun as <- <- <-.
  assert (submitted = true ∧ drain = DrainIdle ∧ base TSubmit = 0%nat ∧ connection = true) as (-> & -> & Hb & ->).
  { destruct Hok. fields. destruct submitted; [|cbn [b2n] in *; lia].
    destruct connection; [|by destruct no_connection0 as (_ & _ & _ & ?)]. destruct drain; drains; cbn [b2n] in *; [|lia..]. split_and!; (done || lia). }
  shapes c l Hthread; settle_failure; (split; [|done]); numbers; drains; cbn [b2n] in *; (done || lia).
Qed.

Lemma act_finish_setup : act_preserves FinishSetup.
Proof.
  start_act. cbn in Hrun. injection Hrun as <- <- <-.
  assert (setup = true ∧ connect = false ∧ ready = false ∧ base TSetup = 0%nat ∧ state ≠ SESSION_STATE_DEACTIVATED) as (-> & -> & -> & Hb & Hst).
  { destruct Hok. fields. destruct setup; [|cbn [b2n] in *; lia]. destruct connect, ready; cbn [b2n] in *; try lia. split_and!; try (done || lia).
    intros ->. by destruct no_deactivated0 as (_ & ? & _). }
  shapes c l Hthread; settle_failure; (split; [|done]); numbers; done.
Qed.

Lemma act_reject_complete : act_preserves OnRejectSendComplete.
Proof.
  start_act. cbn in Hrun. injection Hrun as <- <- <-.
  assert (rejecting = true ∧ rejects = 0%nat ∧ base TReject = 0%nat ∧ state ≠ SESSION_STATE_DEACTIVATED) as (-> & -> & Hb & Hst).
  { destruct Hok. fields. destruct rejecting; [|cbn [b2n] in *; lia]. cbn [b2n] in *. split_and!; try (done || lia).
    intros ->. by destruct no_deactivated0 as (_ & _ & ? & _). }
  shapes c l Hthread; settle_failure; (split; [|done]); numbers; done.
Qed.

Lemma numbers_ext s n n' e es quiet failure owners :
  (∀ t, n t = n' t) → numbers_ok s n e es quiet failure owners → numbers_ok s n' e es quiet failure owners.
Proof. intros Hn []. constructor; rewrite <- ?Hn; done. Qed.

(** OPERATIONAL becomes DRAINING. *)
Lemma drain_numbers s n e es quiet failure owners :
  se_state s = SESSION_STATE_OPERATIONAL → numbers_ok s n e es quiet failure owners →
  numbers_ok (iree_net_session_set_state_locked SESSION_STATE_DRAINING s) n e es quiet failure owners.
Proof.
  intros Hs Hok. open_session s e. fields. subst state. numbers; try done; try (intros; by destruct no_requested0). by right; apply no_operational0.
Qed.

Lemma act_control_goaway r : act_preserves (OnControlGoaway r).
Proof.
  start_act. cbn [session_run] in Hrun. injection Hrun as <- <- <-. shapes c l Hthread. settle_failure. split; [|done].
  apply (numbers_ext _ _ (λ t, base t + tokens t [CallGoaway r])%nat) in Hok; [|by intros []].
  unfold goaway_locked. cbn [foldl]. rewrite app_nil_r. destruct (decide _) as [Hs|]; [|exact Hok]. by apply drain_numbers.
Qed.

Lemma act_send_goaway status : act_preserves (SendGoaway status).
Proof.
  start_act. cbn [session_run] in Hrun. injection Hrun as <- <- <-. shapes c l Hthread. settle_failure. split; [|done].
  apply (numbers_ext _ _ (λ t, base t + tokens t [])%nat) in Hok; [|by intros []].
  unfold iree_net_session_send_goaway. cbn [foldl]. rewrite app_nil_r. case_bool_decide; [|exact Hok]. cbn [negb snd].
  destruct (status =? 0); [|exact Hok]. by apply drain_numbers.
Qed.

Lemma act_open_endpoint status : act_preserves (OpenEndpoint status).
Proof.
  start_act. cbn [session_run] in Hrun. injection Hrun as <- <- <-. shapes c l Hthread. settle_failure. split; [|done].
  apply (numbers_ext _ _ (λ t, base t + tokens t [])%nat) in Hok; [|by intros []].
  unfold iree_net_session_open_endpoint. cbn [foldl]. rewrite app_nil_r. case_bool_decide; [|exact Hok]. cbn [negb].
  destruct (_ <=? _); [exact Hok|]. cbn [snd]. destruct (status =? 0); [|exact Hok]. numbers.
Qed.

(** ** Failure and deactivation *)

Lemma act_deactivate : act_preserves Deactivate.
Proof.
  start_act. cbn [session_run] in Hrun. injection Hrun as <- <- <-. shapes c l Hthread. settle_failure. split; [|done].
  apply (numbers_ext _ _ (λ t, base t + tokens t [DriveDeactivation])%nat) in Hok; [|by intros []].
  unfold session_deactivate_locked. cbn [foldl]. rewrite app_nil_r. destruct (decide _) as [|Hs]; [exact Hok|]. fields.
  assert (bool_decide (state = SESSION_STATE_DEACTIVATED) = false) as Hb by (by apply bool_decide_false).
  numbers; try done; rewrite ?Hb, ?decide_False in * by done; states; (done || lia || auto).
Qed.

Lemma act_fail status : act_preserves (Fail status).
Proof.
  start_act. cbn [session_run] in Hrun. unfold fail_locked in Hrun. fields.
  destruct (negb (requested || reported) && negb (bool_decide (state = SESSION_STATE_DEACTIVATED))) eqn:Hreport.
  - injection Hrun as <- <- <-. apply andb_true_iff in Hreport as [Hr Hs]. apply negb_true_iff in Hr, Hs. apply orb_false_iff in Hr as [-> ->].
    assert (state ≠ SESSION_STATE_DEACTIVATED) as Hs' by (by apply bool_decide_eq_false in Hs).
    shapes c l Hthread; settle_failure; (split; [|done]); numbers; try done; rewrite ?Hs, ?decide_False in * by done; states; (done || lia || auto).
  - injection Hrun as <- <- <-.
    assert (requested = true) as ->.
    { destruct Hok. fields. destruct requested; [done|]. cbn [orb negb] in Hreport. destruct reported; [by apply no_reported0|].
      cbn [andb] in Hreport. apply negb_false_iff, bool_decide_eq_true in Hreport. by apply no_deactivated0. }
    shapes c l Hthread; settle_failure; (split; [|done]); numbers; auto.
Qed.

(** The finalization of a session. *)
Lemma finalize_numbers s n e es quiet failure owners fin s' :
  iree_net_session_try_finalize_locked s = (fin, s') → numbers_ok s n e es quiet failure owners →
  numbers_ok s' (λ t, n t + tokens t (if fin then [CallDeactivated; Release] else []))%nat e es quiet failure owners ∧
  (fin = true → SETUP_PENDING (se_flags s) = false ∧ (quiet = false → False)).
Proof.
  open_session s e. unfold iree_net_session_try_finalize_locked. fields. intros Hrun Hok.
  destruct (negb requested || (setup || rejecting)) eqn:E1; [|destruct (connection && negb drained) eqn:E2; [|destruct (decide _) as [|Hs]]];
    injection Hrun as <- <-; try (split; [|done]; apply (numbers_ext _ _ _ _ _ _ _ _ (λ t, eq_sym (Nat.add_0_r _)) Hok)).
  apply orb_false_iff in E1 as [E1 E3]. apply orb_false_iff in E3 as [-> ->]. apply negb_false_iff in E1 as ->. apply andb_false_iff in E2.
  rewrite negb_false_iff in E2.
  assert (bool_decide (state = SESSION_STATE_DEACTIVATED) = false) as Hb by (by apply bool_decide_false).
  assert (quiet = false → False) as Hq.
  { destruct Hok. fields. intros ->. destruct E2 as [-> | ->]; [by destruct no_connection0 as (_ & _ & ? & _)|].
    destruct drain; drains; cbn [b2n] in *; [lia..|]. by destruct no_quiet0. }
  split; [|done]. numbers; try done; rewrite ?Hb in *; rewrite ?bool_decide_true by done; cbn [b2n] in *; try lia; try (by auto).
  - rewrite decide_False in no_refs0 by done. rewrite decide_True by done. lia.
  - intros _. split_and!; try done. intros ->. by destruct E2.
Qed.

(** Output that changes nothing. *)
Lemma silent_numbers s n e es quiet failure owners cancel :
  numbers_ok s n e es quiet failure owners →
  numbers_ok s n (foldl observe e (if cancel : bool then [OutCancelConnect] else [])) (es ++ if cancel then [OutCancelConnect] else []) quiet failure
    owners.
Proof.
  intros []. assert (foldl observe e (if cancel then [OutCancelConnect] else []) = e) as -> by (by destruct cancel, e).
  constructor; rewrite ?occurrences_app; try done; destruct cancel; rewrite ?occurrences_cons; cbn [is_out_final is_out_error is_out_ready b2n];
    change (occurrences ?p []) with 0%nat; lia.
Qed.

Lemma act_drive : act_preserves DriveDeactivation.
Proof.
  intros s c l base e es quiet failure owners next s' outs Hrun Hthread Hbase Hfinal Hquiet Hfail Hok. cbn [session_run] in Hrun.
  apply (numbers_ext _ _ (λ t, base t + 0)%nat) in Hok; [|by intros []]. unfold drive_locked in Hrun.
  destruct (DEACTIVATION_REQUESTED (se_flags s) && negb (REJECT_PENDING (se_flags s)) && se_connection s &&
    negb (CONNECTION_DEACTIVATION_SUBMITTED (se_flags s))) eqn:E.
  - injection Hrun as <- <- <-. rewrite !andb_true_iff, !negb_true_iff in E. destruct E as [[[Hq Hj] Hc] Hu]. open_session s e. fields. subst.
    assert (numbers_ok (mk_session refs state (mk_session_flags setup true true drained reported false) b true channel opened)
      (λ t, base t + tokens t [DeactivateConnection])%nat (mk_env connect ready sends rejects active attached drain) es quiet failure owners) as Hok'.
    { numbers; (done || lia). }
    clear Hok. shapes c l Hthread; settle_failure; (split; [|done]); apply silent_numbers, Hok'.
  - destruct (iree_net_session_try_finalize_locked s) as [fin s1] eqn:Ef.
    destruct (finalize_numbers _ _ _ _ _ _ _ _ _ Ef Hok) as [Hok' Hfin]. injection Hrun as <- <- <-.
    assert (numbers_ok s1 (λ t, base t + tokens t match (if fin then DriveFinalize else DriveNothing) with
        DriveNothing => [] | DriveConnection => [DeactivateConnection] | DriveFinalize => [CallDeactivated; Release] end)%nat e es quiet failure owners) as Hok''.
    { eapply numbers_ext; [|exact Hok']. intros t. cbn beta. destruct fin; lia. }
    destruct fin.
    + destruct (Hfin eq_refl) as [Hsetup Hnq]. shapes c l Hthread; settle_failure; try (by destruct (Hnq (Hquiet eq_refl)));
        try (split; [|done]; apply silent_numbers, Hok'').
      exfalso. specialize (Hbase TSetup). destruct Hok. rewrite Hsetup in *. cbn [tokens sum_list_with token_of b2n] in *. lia.
    + shapes c l Hthread; settle_failure; (split; [|done]); apply silent_numbers, Hok''.
Qed.

Lemma act_connection_deactivated : act_preserves OnConnectionDeactivated.
Proof.
  intros s c l base e es quiet failure owners next s' outs Hrun Hthread Hbase Hfinal Hquiet Hfail Hok. cbn [session_run] in Hrun.
  unfold connection_deactivated_locked in Hrun. destruct (iree_net_session_try_finalize_locked _) as [fin s1] eqn:Ef. injection Hrun as <- <- <-.
  shapes c l Hthread. settle_failure. cbn [foldl]. rewrite app_nil_r.
  assert (numbers_ok (with_flags set_connection_deactivated s) (λ t, base t + 0)%nat e es quiet failure owners) as Hok1.
  { assert (CONNECTION_DEACTIVATED (se_flags s) = false ∧ base TDrained = 0%nat ∧ en_drain e = DrainDone) as (Hd & Hb & He).
    { destruct Hok. cbn [token_of] in *. destruct (en_drain e); drains; cbn [b2n] in *; try lia.
      destruct (CONNECTION_DEACTIVATED (se_flags s)); cbn [b2n] in *; [lia|]. split_and!; (done || lia). }
    open_session s e. fields. subst. numbers; try done; try lia. intros Hs. destruct (no_deactivated0 Hs) as (? & ? & ? & _). done. }
  destruct (finalize_numbers _ _ _ _ _ _ _ _ _ Ef Hok1) as [Hok2 _]. split; [|by destruct fin].
  eapply numbers_ext; [|exact Hok2]. intros t. cbn beta. destruct fin; lia.
Qed.

(** ** Setup and bootstrap *)

Ltac phases :=
  change (bool_decide (PHASE_CLIENT_SEND_HELLO = PHASE_COMPLETE)) with false in *;
  change (bool_decide (PHASE_CLIENT_WAIT_ACK = PHASE_COMPLETE)) with false in *;
  change (bool_decide (PHASE_SERVER_WAIT_HELLO = PHASE_COMPLETE)) with false in *;
  change (bool_decide (PHASE_SERVER_SEND_ACK = PHASE_COMPLETE)) with false in *;
  change (bool_decide (PHASE_COMPLETE = PHASE_COMPLETE)) with true in *.

Lemma setup_numbers s n e es quiet failure owners k :
  numbers_ok s n e es quiet failure owners → n TSetup = (k + 1)%nat →
  SETUP_PENDING (se_flags s) = true ∧ en_connect e = false ∧ en_ready e = false ∧ k = 0%nat ∧ se_state s ≠ SESSION_STATE_DEACTIVATED.
Proof.
  intros [] Hn. rewrite Hn in *. destruct (SETUP_PENDING (se_flags s)); [|cbn [b2n] in *; lia].
  destruct (en_connect e), (en_ready e); cbn [b2n] in *; try lia. split_and!; try (done || lia). intros Hs. by destruct (no_deactivated0 Hs) as (_ & ? & _).
Qed.

Lemma act_connect status m o : act_preserves (OnConnect status m o).
Proof.
  start_act. cbn [session_run] in Hrun. destruct (setup_numbers _ _ _ _ _ _ _ (base TSetup) Hok eq_refl) as (H1 & H2 & H3 & Hb & Hst). fields. subst.
  shapes c l Hthread. settle_failure. unfold on_connect_locked in Hrun. fields.
  assert (numbers_ok (if status =? 0 then mk_session refs state (mk_session_flags true requested submitted drained reported rejecting) b true channel opened
    else mk_session refs state (mk_session_flags true requested submitted drained reported rejecting) b connection channel opened)
    (λ t, base t + tokens t [FinishSetup])%nat (mk_env false false sends rejects active attached drain) es quiet failure owners) as Hok'.
  { destruct (status =? 0); numbers; try done. }
  destruct requested.
  - injection Hrun as <- <- <-. split; [|done]. cbn [foldl]. by rewrite app_nil_r.
  - destruct (status =? 0) eqn:Es; [|rewrite !Es in Hrun; injection Hrun as <- <- <-; split; [|done]; cbn [foldl]; rewrite app_nil_r;
      eapply numbers_ext; [|exact Hok']; by intros []].
    set (status1 := if _ =? 0 then o else _) in Hrun. destruct (status1 =? 0); injection Hrun as <- <- <-; (split; [|done]).
    + assert (submitted = false ∧ drain = DrainIdle) as [-> ->].
      { destruct Hok'. fields. destruct submitted; [by discriminate no_submitted0|]. destruct drain; drains; cbn [b2n] in *; (done || lia). }
      clear Hok. numbers; drains; cbn [b2n] in *; try done; lia.
    + cbn [foldl]. rewrite app_nil_r. eapply numbers_ext; [|exact Hok']. by intros [].
Qed.

Lemma act_endpoint_ready status cs acs ss : act_preserves (OnControlEndpointReady status cs acs ss).
Proof.
  start_act. cbn [session_run] in Hrun. destruct (setup_numbers _ _ _ _ _ _ _ (base TSetup) Hok eq_refl) as (H1 & H2 & H3 & Hb & Hst). fields. subst.
  shapes c l Hthread. settle_failure. unfold control_endpoint_ready_locked in Hrun. fields. specialize (Hquiet eq_refl). subst.
  assert (connection = true) as ->. { destruct Hok, connection; [done|]. fields. by destruct no_connection0 as (_ & _ & ? & _). }
  destruct requested.
  { injection Hrun as <- <- <-. split; [|done]. cbn [foldl]. rewrite app_nil_r. eapply numbers_ext; [|exact Hok]. by intros []. }
  assert (submitted = false ∧ drain = DrainIdle) as [-> ->].
  { destruct Hok. fields. destruct submitted; [by discriminate no_submitted0|]. destruct drain; drains; cbn [b2n] in *; (done || lia). }
  set (status1 := if status =? 0 then cs else status) in *.
  destruct (status1 =? 0) eqn:Ea; cbn [andb] in Hrun.
  - destruct (acs =? 0) eqn:Eb; cbn [andb] in Hrun.
    + unfold iree_net_session_send_bootstrap_locked in Hrun. fields. case_bool_decide as Hp.
      * destruct (ss =? 0) eqn:Ec; injection Hrun as <- <- <-; (split; [|done]); fields.
        -- unfold iree_net_session_bootstrap_consume_outbound_message. rewrite decide_True by done. numbers; drains; cbn [b2n sb_phase] in *; try done; rewrite Hp in *.
           ++ phases. states. lia.
           ++ intros Hs. by apply no_operational0 in Hs.
           ++ intros Hs. by destruct (no_draining0 Hs).
        -- numbers; drains; cbn [b2n] in *; done.
      * injection Hrun as <- <- <-. rewrite Eb. split; [|done]. numbers; drains; cbn [b2n] in *; done.
    + injection Hrun as <- <- <-. rewrite Eb. split; [|done]. numbers; drains; cbn [b2n] in *; done.
  - rewrite Ea in Hrun. cbn [andb] in Hrun. injection Hrun as <- <- <-. rewrite Ea. split; [|done]. numbers; drains; cbn [b2n] in *; done.
Qed.

Lemma process_phase b message result b' :
  iree_net_session_bootstrap_process_message b message = (result, b') →
  match result with
  | inl _ => b' = b
  | inr _ =>
      sb_phase b = PHASE_CLIENT_WAIT_ACK ∧ b' = with_phase PHASE_COMPLETE b ∨
      sb_phase b = PHASE_SERVER_WAIT_HELLO ∧ b' = with_phase PHASE_SERVER_SEND_ACK b
  end.
Proof.
  unfold iree_net_session_bootstrap_process_message. destruct (iree_net_bootstrap_message_parse message) as [v|]; [|by intros [= <- <-]].
  destruct (sb_phase b) eqn:Hp; try (by intros [= <- <-]); destruct v; try (by intros [= <- <-]);
    destruct (iree_net_session_bootstrap_validate_peer b _); intros [= <- <-]; auto.
Qed.

Lemma send_reject_cases code host_malloc send_status s code' sent s' :
  REJECT_PENDING (se_flags s) = false → iree_net_session_send_reject_locked code host_malloc send_status s = (code', sent, s') →
  (∃ m, sent = Some m ∧ s' = with_flags (set_reject_pending true) s) ∨ (sent = None ∧ s' = s).
Proof.
  intros Hr. unfold iree_net_session_send_reject_locked. destruct (iree_net_bootstrap_message_calculate_size _); [|intros [= <- <- <-]; by right].
  destruct (host_malloc _); try (intros [= <- <- <-]; by right). destruct (iree_net_bootstrap_message_serialize _ _) as [m|]; [|intros [= <- <- <-]; by right].
  destruct (send_status =? 0); intros [= <- <- <-]; [left; by exists m|right; split; [done|]].
  destruct s as [? ? [] ? ? ? ?]. cbn in Hr. by subst.
Qed.

(** A bootstrap message that fails, with the answer that was sent. *)
Lemma message_failed s n e es quiet owners nb status sent s' :
  DEACTIVATION_REQUESTED (se_flags s) = false → REJECT_PENDING (se_flags s) = false → en_drain e = DrainIdle → se_connection s = true →
  (sb_phase nb = PHASE_COMPLETE ↔ sb_phase (se_bootstrap s) = PHASE_COMPLETE) →
  (∃ m, sent = Some m ∧ s' = with_flags (set_reject_pending true) (with_bootstrap nb s)) ∨ (sent = None ∧ s' = with_bootstrap nb s) →
  numbers_ok s n e es quiet false owners →
  let outs := match sent with Some message => [OutSendReject message] | None => [] end in
  numbers_ok s' (λ t, n t + tokens t [Fail status])%nat (foldl observe e outs) (es ++ outs) quiet true owners.
Proof.
  intros Hq Hr Hd Hc Hphase Hs' Hok. open_session s e. fields. subst.
  assert (bool_decide (sb_phase nb = PHASE_COMPLETE) = bool_decide (sb_phase b = PHASE_COMPLETE)) as Hp by (by apply bool_decide_ext).
  assert (state ≠ SESSION_STATE_DEACTIVATED) as Hs. { destruct Hok. fields. intros ->. by destruct no_deactivated0. }
  destruct Hs' as [(m & -> & ->)|[-> ->]]; fields; numbers; rewrite ?Hp, ?decide_False in * by done; drains; states; try lia; try done;
    rewrite ?Hphase; auto.
Qed.

(** A bootstrap message that completes the bootstrap. *)
Lemma message_ready s n e es quiet owners nb peer negotiated sent :
  DEACTIVATION_REQUESTED (se_flags s) = false → REJECT_PENDING (se_flags s) = false → en_drain e = DrainIdle → se_connection s = true →
  sb_phase nb = PHASE_COMPLETE → sb_phase (se_bootstrap s) ≠ PHASE_COMPLETE →
  numbers_ok s n e es quiet false owners →
  let outs := match sent with Some message => [OutSendBootstrap message] | None => [] end ++ [OutAttach] in
  numbers_ok (iree_net_session_set_state_locked SESSION_STATE_OPERATIONAL (with_bootstrap nb s)) (λ t, n t + tokens t [CallReady peer negotiated])%nat
    (foldl observe e outs) (es ++ outs) quiet false owners.
Proof.
  intros Hq Hr Hd Hc Hnb Hb Hok. open_session s e. fields. subst.
  assert (state ≠ SESSION_STATE_DEACTIVATED) as Hs. { destruct Hok. fields. intros ->. by destruct no_deactivated0. }
  assert (bool_decide (state = SESSION_STATE_DEACTIVATED) = false) as Hs' by (by apply bool_decide_false).
  assert (bool_decide (sb_phase b = PHASE_COMPLETE) = false) as Hb' by (by apply bool_decide_false).
  destruct sent; cbn [app]; fields; numbers; rewrite ?Hnb, ?Hs', ?Hb', ?decide_False in * by done; drains; phases; states; try lia; done.
Qed.

Lemma act_bootstrap_message m ss h rs : act_preserves (OnBootstrapMessage m ss h rs).
Proof.
  intros s c l base e es quiet failure owners next s' outs Hrun Hthread Hbase Hfinal Hquiet Hfail Hok. cbn [session_run] in Hrun.
  shapes c l Hthread. specialize (Hquiet eq_refl). specialize (Hfail eq_refl). cbn [is_failing] in Hfail. subst. rewrite decide_True by done.
  apply (numbers_ext _ _ (λ t, base t + 0)%nat) in Hok; [|by intros []]. unfold bootstrap_message_locked in Hrun.
  destruct (DEACTIVATION_REQUESTED (se_flags s)) eqn:Hq.
  { injection Hrun as <- <- <-. split; [|done]. cbn [foldl]. rewrite app_nil_r. eapply numbers_ext; [|exact Hok]. by intros []. }
  assert (se_connection s = true ∧ REJECT_PENDING (se_flags s) = false ∧ en_drain e = DrainIdle) as (Hc & Hr & Hd).
  { destruct Hok. split_and!.
    - destruct (se_connection s) eqn:E; [done|]. by destruct (no_connection0 eq_refl) as (_ & _ & ? & _).
    - destruct (REJECT_PENDING (se_flags s)) eqn:E; [|done]. destruct (no_pending0 eq_refl); congruence.
    - destruct (CONNECTION_DEACTIVATION_SUBMITTED (se_flags s)) eqn:E; [by rewrite no_submitted0 in Hq|].
      destruct (en_drain e); drains; cbn [b2n] in *; (done || lia). }
  destruct (iree_net_session_bootstrap_process_message (se_bootstrap s) m) as [result nb] eqn:Hp. apply process_phase in Hp.
  assert (∀ status s1 code sent s2, (s1 = with_bootstrap nb s) → (sb_phase nb = PHASE_COMPLETE ↔ sb_phase (se_bootstrap s) = PHASE_COMPLETE) →
    iree_net_session_send_reject_locked status h rs s1 = (code, sent, s2) →
    let outs := match sent with Some message => [OutSendReject message] | None => [] end in
    numbers_ok s2 (λ t, base t + tokens t [Fail (join_status status code)])%nat (foldl observe e outs) (es ++ outs) false true owners) as Hreject.
  { intros status s1 code sent s2 -> Hph Hs. apply send_reject_cases in Hs; [|done].
    apply (numbers_ext _ (λ t, (base t + 0) + tokens t [Fail (join_status status code)])%nat); [intros t; cbn beta; lia|]. by eapply message_failed. }
  destruct result as [status|[peer negotiated]].
  - subst nb. case_bool_decide as Hserver.
    + destruct (iree_net_session_send_reject_locked status h rs (with_bootstrap (se_bootstrap s) s)) as [[code sent] s2] eqn:Hs.
      injection Hrun as <- <- <-. split; [|done]. by eapply Hreject.
    + injection Hrun as <- <- <-. split; [|done].
      apply (numbers_ext _ (λ t, (base t + 0) + tokens t [Fail status])%nat); [intros t; cbn beta; lia|].
      eapply (message_failed s _ e es false owners (se_bootstrap s) status None); auto.
  - case_bool_decide as Hserver.
    + destruct Hp as [[Hp _]|[_ ->]]; [congruence|]. unfold iree_net_session_send_bootstrap_locked in Hrun.
      destruct (ss =? 0) eqn:Ess.
      * injection Hrun as <- <- <-. split; [|done].
        apply (numbers_ext _ (λ t, (base t + 0) + tokens t [CallReady peer negotiated])%nat); [intros t; cbn beta; lia|].
        eapply (message_ready s _ e es false owners _ peer negotiated (Some _)); try done. congruence.
      * destruct (iree_net_session_send_reject_locked ss h rs _) as [[code sent] s2] eqn:Hs. injection Hrun as <- <- <-. split; [|done].
        eapply Hreject; [done| |exact Hs]. cbn. rewrite Hserver. done.
    + destruct Hp as [[Hp ->]|[Hp _]]; [|congruence]. injection Hrun as <- <- <-. split; [|done].
      apply (numbers_ext _ (λ t, (base t + 0) + tokens t [CallReady peer negotiated])%nat); [intros t; cbn beta; lia|].
      eapply (message_ready s _ e es false owners _ peer negotiated None); try done. congruence.
Qed.

Lemma act_any a : act_preserves a.
Proof.
  destruct a; auto using act_connect, act_endpoint_ready, act_bootstrap_message, act_send_complete, act_reject_complete, act_control_data,
    act_control_goaway, act_connection_deactivated, act_fail, act_finish_setup, act_drive, act_deactivate_connection, act_deactivate, act_open_endpoint,
    act_send_goaway, act_call_ready, act_call_data, act_call_goaway, act_call_error, act_call_deactivated, act_release.
Qed.

(** ** Steps *)

Lemma thread_tokens_app t ts ts' : thread_tokens t (ts ++ ts') = (thread_tokens t ts + thread_tokens t ts')%nat.
Proof. unfold thread_tokens. by rewrite sum_list_with_app. Qed.

Lemma thread_tokens_cons t th ts : thread_tokens t (th :: ts) = (tokens t th.2 + thread_tokens t ts)%nat.
Proof. done. Qed.

Lemma owner_calls_mid ts1 c l ts2 : owner_calls (ts1 ++ (c, l) :: ts2) = (owner_calls ts1 + (b2n (bool_decide (c = FromOwner)) + owner_calls ts2))%nat.
Proof. unfold owner_calls. by rewrite sum_list_with_app. Qed.

Lemma message_calls_mid ts1 c l ts2 :
  message_calls (ts1 ++ (c, l) :: ts2) = (message_calls ts1 + (b2n (bool_decide (c = FromMessage)) + message_calls ts2))%nat.
Proof. unfold message_calls. by rewrite sum_list_with_app. Qed.

Lemma quiet_mid ts1 c l ts2 : connection_quiet (ts1 ++ (c, l) :: ts2) = connection_quiet ts1 && (negb (from_connection c) && connection_quiet ts2).
Proof. unfold connection_quiet. by rewrite forallb_app. Qed.

Lemma failing_mid ts1 th ts2 : failing (ts1 ++ th :: ts2) = failing ts1 || (is_failing th || failing ts2).
Proof. unfold failing. by rewrite existsb_app. Qed.

Lemma no_message_not_failing ts : message_calls ts = 0%nat → failing ts = false.
Proof.
  induction ts as [|[c l] ts IH]; [done|]. intros H. change (message_calls ((c, l) :: ts)) with (b2n (bool_decide (c = FromMessage)) + message_calls ts)%nat in H.
  change (failing ((c, l) :: ts)) with (is_failing (c, l) || failing ts). rewrite IH by lia. by destruct c; cbn in *.
Qed.

Lemma final_before_release ts : Forall (λ t, thread_ok t.1 t.2) ts → (thread_tokens TFinal ts <= thread_tokens TRelease ts)%nat.
Proof.
  induction 1 as [|[c l] ts Ht _ IH]; [done|]. rewrite !thread_tokens_cons. cbn [fst snd] in *.
  assert (tokens TFinal l <= tokens TRelease l)%nat; [|lia].
  destruct l as [|a l]; [cbn; lia|]. destruct a; shapes c l Ht; cbn; lia.
Qed.

Lemma rest_final c a l : thread_ok c (a :: l) → (tokens TFinal l <= tokens TRelease l)%nat.
Proof. intros H. destruct a; shapes c l H; cbn; lia. Qed.

Definition calls_application (a : session_action) : bool :=
  match a with CallReady _ _ | CallControlData | CallGoaway _ | CallError _ | CallDeactivated => true | _ => false end.

Lemma run_callbacks a s : calls_application a = false → Forall (λ o, is_callback o = false) (session_run a s).2.
Proof.
  intros Ha. destruct a; try done; cbn [session_run]; try (by constructor).
  - destruct (on_connect_locked _ _ _ s) as [[st|] s1]; [destruct (st =? 0)|]; by repeat constructor.
  - destruct (control_endpoint_ready_locked _ _ _ _ s) as [[[[st|] sent] active] s1]; [|by constructor]. cbn [snd].
    destruct active, sent; by repeat constructor.
  - destruct (bootstrap_message_locked _ _ _ _ s) as [[[| |] sent] s1]; [by constructor|..]; destruct sent; by repeat constructor.
  - destruct (connection_deactivated_locked s). by constructor.
  - destruct (fail_locked s). by constructor.
  - destruct (drive_locked s) as [[[] ?] ?]; by repeat constructor.
  - destruct (iree_net_session_release s) as [[] ?]; by repeat constructor.
Qed.

(** An action that calls the application does so before [on_deactivated]. *)
Lemma callback_not_late a s c l base e es quiet failure owners :
  thread_ok c (a :: l) → (∀ t, (tokens t l <= base t)%nat) → (from_connection c = true → quiet = false) →
  numbers_ok s (λ t, base t + token_of t a)%nat e es quiet failure owners →
  occurrences is_out_final es ≠ 0%nat → Forall (λ o, is_callback o = false) (session_run a s).2.
Proof.
  intros Ht Hbase Hquiet Hok Hn.
  assert (se_state s = SESSION_STATE_DEACTIVATED ∧ base TFinal = 0%nat ∧ token_of TFinal a = 0%nat) as (Hs & Hb & Hfa).
  { destruct Hok. destruct (decide (se_state s = SESSION_STATE_DEACTIVATED)) as [Hs|Hs];
      [rewrite (bool_decide_true _ Hs) in *|rewrite (bool_decide_false _ Hs) in *]; cbn [b2n] in *; [split_and!; (done || lia)|lia]. }
  assert (from_connection c = false ∧ base TSetup = 0%nat) as [Hc Hb'].
  { destruct Hok. destruct (no_deactivated0 Hs) as (_ & Hsetup & _ & Hconn). rewrite Hsetup in *. cbn [b2n] in *. split; [|lia].
    destruct (from_connection c) eqn:Hc; [|done]. specialize (Hquiet eq_refl). subst.
    destruct (se_connection s) eqn:E; [|by destruct (no_connection0 eq_refl) as (_ & _ & ? & _)]. rewrite Hconn in * by done. cbn [b2n] in *.
    destruct (en_drain e); drains; cbn [b2n] in *; [lia..|]. by destruct no_quiet0. }
  apply run_callbacks. specialize (Hbase TSetup).
  destruct a; try done; shapes c l Ht; cbn [tokens sum_list_with token_of] in *; lia.
Qed.

Lemma final_last_app es outs :
  final_callback_last es → (occurrences is_out_final es ≠ 0%nat → Forall (λ o, is_callback o = false) outs) → final_callback_last outs →
  final_callback_last (es ++ outs).
Proof.
  intros Hl Ho Hf. induction es as [|o es IH]; [done|]. rewrite occurrences_cons in Ho.
  destruct o; cbn in *; try (apply IH; [done|]; intros Hn; apply Ho; lia). apply Forall_app. split; [done|]. apply Ho. lia.
Qed.

Lemma final_last_spec es before after :
  final_callback_last es → es = before ++ OutDeactivated :: after → Forall (λ o, is_callback o = false) after.
Proof.
  intros Hl ->. induction before as [|o before IH]; [done|]. destruct o; cbn in Hl; try (by apply IH).
  apply Forall_app in Hl as [_ Hl]. by apply Forall_cons in Hl as [? _].
Qed.

Lemma run_final_last a s : final_callback_last (session_run a s).2.
Proof.
  destruct (calls_application a) eqn:Ha; [destruct a; try done; cbn; by constructor|]. pose proof (run_callbacks a s Ha) as H.
  induction H as [|o es Ho _ IH]; [done|]. by destruct o.
Qed.

Lemma quiet_from_connection ts1 c l ts2 : from_connection c = true → connection_quiet (ts1 ++ (c, l) :: ts2) = false.
Proof. intros H. by rewrite quiet_mid, H, andb_false_r. Qed.

Lemma step_act s ts1 ts2 c a l e n es next s' outs :
  session_run a s = (next, s', outs) → session_ok (mk_session_system s (ts1 ++ (c, a :: l) :: ts2) e n es) →
  session_ok (mk_session_system s' (ts1 ++ (c, next ++ l) :: ts2) (foldl observe e outs) n (es ++ outs)).
Proof.
  intros Hrun [Hnum Hts Hmsg Hlast]. cbn [sn_session sn_threads sn_env sn_owners sn_events] in *.
  apply Forall_app in Hts as [Hts1 Hts2]. apply Forall_cons in Hts2 as [Ht Hts2]. cbn [fst snd] in Ht.
  set (base t := (thread_tokens t ts1 + (tokens t l + thread_tokens t ts2))%nat).
  assert (∀ t, thread_tokens t (ts1 ++ (c, a :: l) :: ts2) = (base t + token_of t a)%nat) as Hbefore.
  { intros t. rewrite thread_tokens_app, thread_tokens_cons. unfold base. change (tokens t (c, a :: l).2) with (token_of t a + tokens t l)%nat. lia. }
  assert (∀ t, (base t + tokens t next)%nat = thread_tokens t (ts1 ++ (c, next ++ l) :: ts2)) as Hafter.
  { intros t. rewrite thread_tokens_app, thread_tokens_cons. cbn [snd]. rewrite tokens_app. unfold base. lia. }
  apply (numbers_ext _ _ _ _ _ _ _ _ Hbefore) in Hnum.
  assert (∀ t, (tokens t l <= base t)%nat) as Hb by (intros t; unfold base; lia).
  assert (base TFinal <= base TRelease)%nat as Hf.
  { unfold base. pose proof (final_before_release _ Hts1). pose proof (final_before_release _ Hts2). pose proof (rest_final _ _ _ Ht). lia. }
  assert (c = FromMessage → failing ts1 = false ∧ failing ts2 = false) as Hno.
  { intros ->. rewrite message_calls_mid, bool_decide_true in Hmsg by done. cbn [b2n] in Hmsg. split; apply no_message_not_failing; lia. }
  assert (c = FromMessage → failing (ts1 ++ (c, a :: l) :: ts2) = is_failing (c, a :: l)) as Hfail.
  { intros Hc. destruct (Hno Hc) as [H1 H2]. by rewrite failing_mid, H1, H2, orb_false_r. }
  destruct (act_any a _ _ _ _ _ _ _ _ _ _ _ _ Hrun Ht Hb Hf (quiet_from_connection ts1 c (a :: l) ts2) Hfail Hnum) as [Hnum' Ht'].
  split; cbn [sn_session sn_threads sn_env sn_owners sn_events].
  - apply (numbers_ext _ _ _ _ _ _ _ _ Hafter) in Hnum'. rewrite quiet_mid, owner_calls_mid, failing_mid in *.
    replace (failing ts1 || (is_failing (c, next ++ l) || failing ts2)) with
      (if decide (c = FromMessage) then is_failing (c, next ++ l) else failing ts1 || (is_failing (c, a :: l) || failing ts2)); [exact Hnum'|].
    destruct (decide _) as [Hc|Hc]; [destruct (Hno Hc) as [-> ->]; by rewrite orb_false_r|]. by destruct c.
  - apply Forall_app. split; [done|]. by constructor.
  - by rewrite message_calls_mid in *.
  - apply final_last_app; [done| |].
    + intros Hn. pose proof (callback_not_late a s c l base e es _ _ _ Ht Hb (quiet_from_connection ts1 c (a :: l) ts2) Hnum Hn) as H. by rewrite Hrun in H.
    + pose proof (run_final_last a s) as H. by rewrite Hrun in H.
Qed.

(** A callback or a call begins. *)
Lemma step_spawn s ts e e' n n' es c a :
  session_ok (mk_session_system s ts e n es) → thread_ok c [a] → (c = FromMessage → message_calls ts = 0%nat) → is_failing (c, [a]) = false →
  numbers_ok s (λ t, token_of t a + thread_tokens t ts)%nat e' es (negb (from_connection c) && connection_quiet ts) (failing ts)
    (n' + (b2n (bool_decide (c = FromOwner)) + owner_calls ts)) →
  session_ok (mk_session_system s ((c, [a]) :: ts) e' n' es).
Proof.
  intros [_ Hts Hmsg Hlast] Ht Hm Hf Hnum. split; cbn [sn_session sn_threads sn_env sn_owners sn_events] in *; [|by constructor| |done].
  - change (failing ((c, [a]) :: ts)) with (is_failing (c, [a]) || failing ts). rewrite Hf. eapply numbers_ext; [|exact Hnum].
    intros t. rewrite thread_tokens_cons. cbn [snd]. change (tokens t [a]) with (token_of t a + 0)%nat. cbn beta. lia.
  - change (message_calls ((c, [a]) :: ts)) with (b2n (bool_decide (c = FromMessage)) + message_calls ts)%nat.
    destruct (decide (c = FromMessage)); [rewrite bool_decide_true, Hm by done|rewrite bool_decide_false by done]; cbn [b2n]; lia.
Qed.

Lemma no_message_calls ts : no_message_running ts = true → message_calls ts = 0%nat.
Proof.
  induction ts as [|[c l] ts IH]; [done|]. cbn [no_message_running forallb fst]. rewrite andb_true_iff, negb_true_iff. intros [Hc Hts].
  change (message_calls ((c, l) :: ts)) with (b2n (bool_decide (c = FromMessage)) + message_calls ts)%nat. by rewrite Hc, IH.
Qed.

(** Something that the connection owes: it is there and not drained. *)
Lemma owed_alive s n e es quiet failure owners :
  numbers_ok s n e es quiet failure owners → ¬ nothing_owed e → se_connection s = true ∧ en_drain e ≠ DrainDone.
Proof.
  intros [] Hn. split.
  - destruct (se_connection s); [done|]. by destruct no_connection0.
  - intros Hd. by destruct (no_quiet0 Hd).
Qed.

Ltac spawn Hok :=
  eapply (step_spawn _ _ _ _ _ _ _ _ _ Hok); [done|try done|done|];
  pose proof (so_numbers _ Hok) as Hnum; cbn [sn_session sn_threads sn_env sn_owners sn_events] in Hnum;
  cbn [from_connection negb andb b2n]; rewrite ?bool_decide_false by done.

Lemma step_connected s ts ready sends rejects active attached drain n es status m o :
  session_ok (mk_session_system s ts (mk_env true ready sends rejects active attached drain) n es) →
  session_ok (mk_session_system s ((FromFactory, [OnConnect status m o]) :: ts) (mk_env false ready sends rejects active attached drain) n es).
Proof. intros Hok. spawn Hok. destruct Hnum. constructor; fields; try done; cbn [b2n] in *; lia. Qed.

Lemma numbers_quieter s n e es quiet quiet' failure owners owners' :
  (quiet = true → quiet' = true) → owners = owners' → numbers_ok s n e es quiet failure owners → numbers_ok s n e es quiet' failure owners'.
Proof.
  intros Hq <- []. constructor; try done.
  - intros Hc. destruct (no_connection0 Hc) as (? & ? & ? & ?). auto.
  - intros Hd. destruct (no_quiet0 Hd). auto.
Qed.

Lemma step_return s ts1 ts2 c e n es :
  session_ok (mk_session_system s (ts1 ++ (c, []) :: ts2) e n es) →
  session_ok (mk_session_system s (ts1 ++ ts2) e (if decide (c = FromOwner) then S n else n) es).
Proof.
  intros [Hnum Hts Hmsg Hlast]. cbn [sn_session sn_threads sn_env sn_owners sn_events] in *.
  apply Forall_app in Hts as [Hts1 Hts2]. apply Forall_cons in Hts2 as [_ Hts2].
  rewrite quiet_mid, owner_calls_mid, failing_mid in Hnum. rewrite message_calls_mid in Hmsg.
  split; cbn [sn_session sn_threads sn_env sn_owners sn_events]; [| |unfold message_calls in *; rewrite sum_list_with_app; lia|done].
  - assert (failing (ts1 ++ ts2) = failing ts1 || (is_failing (c, []) || failing ts2)) as ->.
    { unfold failing. rewrite existsb_app. by destruct c. }
    eapply numbers_quieter; [| |eapply numbers_ext; [|exact Hnum]].
    + unfold connection_quiet. rewrite forallb_app, !andb_true_iff. tauto.
    + unfold owner_calls. rewrite sum_list_with_app. destruct (decide (c = FromOwner));
        [rewrite bool_decide_true by done|rewrite bool_decide_false by done]; cbn [b2n]; lia.
    + intros t. by rewrite !thread_tokens_app, thread_tokens_cons.
  - apply Forall_app. done.
Qed.

Lemma session_step_ok y y' : session_step y y' → session_ok y → session_ok y'.
Proof.
  intros Hstep Hok. destruct Hstep as [| | | | |? ? ? ? ? ? ? ? ? a Hm [-> | [r ->]]| | | | |? ? ? ? ? a Ha| |? ? ? ? ? last s' Hrel].
  - by eapply step_act.
  - by apply step_return.
  - by eapply step_connected.
  - spawn Hok. destruct (owed_alive _ _ _ _ _ _ _ Hnum) as [Hc Hd]; [by intros (? & _)|]. destruct Hnum. constructor; fields; try done; try congruence; cbn [b2n] in *; lia.
  - spawn Hok; [by intros _; apply no_message_calls|].
    destruct (owed_alive _ _ _ _ _ _ _ Hnum) as [Hc Hd]; [by intros (_ & _ & _ & ?)|]. destruct Hnum. constructor; fields; try done; congruence.
  - spawn Hok; [by intros _; apply no_message_calls|].
    destruct (owed_alive _ _ _ _ _ _ _ Hnum) as [Hc Hd]; [by intros (_ & _ & _ & ?)|]. destruct Hnum. constructor; fields; try done; congruence.
  - spawn Hok; [by intros _; apply no_message_calls|].
    destruct (owed_alive _ _ _ _ _ _ _ Hnum) as [Hc Hd]; [by intros (_ & _ & _ & ?)|]. destruct Hnum. constructor; fields; try done; congruence.
  - spawn Hok.
    destruct (owed_alive _ _ _ _ _ _ _ Hnum) as [Hc Hd]; [by intros (_ & _ & _ & ?)|]. destruct Hnum. constructor; fields; try done; congruence.
  - spawn Hok.
    destruct (owed_alive _ _ _ _ _ _ _ Hnum) as [Hc Hd]; [by intros (_ & ? & _)|]. destruct Hnum. constructor; fields; try done; congruence.
  - spawn Hok.
    destruct (owed_alive _ _ _ _ _ _ _ Hnum) as [Hc Hd]; [by intros (_ & _ & ? & _)|]. destruct Hnum. constructor; fields; try done; try congruence; lia.
  - spawn Hok. destruct Hnum. drains. constructor; fields; drains; cbn [b2n] in *; try done; try lia.
    intros Hc. by destruct (no_connection0 Hc) as (_ & ? & _).
  - destruct Ha as [-> | [r [-> | ->]]]; spawn Hok; change (bool_decide (FromOwner = FromOwner)) with true; destruct Hnum; constructor; fields; try done; cbn [b2n]; rewrite ?Nat.add_0_l; lia.
  - destruct Hok as [Hnum Hts Hmsg Hlast]. split; try done. cbn [sn_session sn_threads sn_env sn_owners sn_events] in *. destruct Hnum. unfold iree_net_session_retain.
    constructor; fields; try done. lia.
  - injection Hrel as <- <-. destruct Hok as [Hnum Hts Hmsg Hlast]. split; try done; cbn [sn_session sn_threads sn_env sn_owners sn_events] in *.
    + destruct Hnum. constructor; fields; try done; rewrite ?occurrences_app; try (destruct (_ =? 1); cbn; lia). lia.
    + apply final_last_app; [done| |]; by destruct (_ =? 1); repeat constructor.
Qed.

(** ** Initial systems *)

Lemma create_inv role peer required callbacks session_malloc host_malloc s :
  iree_net_session_create role peer required callbacks session_malloc host_malloc = Ok s →
  ∃ b, s = mk_session 2 SESSION_STATE_BOOTSTRAPPING (mk_session_flags true false false false false false) b false false 0 ∧
    iree_net_session_bootstrap_initialize role (Some peer) required host_malloc = Ok b.
Proof.
  unfold iree_net_session_create. destruct callbacks; [|done]. destruct session_malloc; try done. cbn [negb].
  destruct (iree_net_session_bootstrap_initialize _ _ _ _) as [b|]; [|done]. intros [= <-]. by exists b.
Qed.

Lemma initial_phase role peer required host_malloc b :
  iree_net_session_bootstrap_initialize role (Some peer) required host_malloc = Ok b → sb_phase b ≠ PHASE_COMPLETE.
Proof.
  unfold iree_net_session_bootstrap_initialize. destruct (_ && _); [done|]. destruct (negb _); [done|]. destruct (_ =? umax 32); [done|].
  destruct (iree_net_bootstrap_message_calculate_size _); [|done]. cbn [mbind status_or_bind]. destruct (host_malloc _); try done.
  destruct (iree_net_bootstrap_message_serialize _ _); [|done]. intros [= <-]. cbn. by destruct (role =? _).
Qed.

Lemma initial_ok b connection connect ready :
  sb_phase b ≠ PHASE_COMPLETE → (b2n connect + b2n ready = 1)%nat → (connection = false → ready = false) →
  session_ok (mk_session_system
    (mk_session 2 SESSION_STATE_BOOTSTRAPPING (mk_session_flags true false false false false false) b connection false 0) []
    (mk_env connect ready 0 0 false false DrainIdle) 1 []).
Proof.
  intros Hb Ht Hc. assert (bool_decide (sb_phase b = PHASE_COMPLETE) = false) as Hb' by (by apply bool_decide_false).
  split; cbn [sn_session sn_threads sn_env sn_owners sn_events]; [|by constructor|cbn; lia|done].
  constructor; fields; rewrite ?Hb'; try done; cbn; try lia. intros Hconn. by rewrite Hc.
Qed.

Lemma session_reachable_ok y : session_reachable y → session_ok y.
Proof.
  induction 1 as [? ? ? ? ? cs ? Hc|? ? ? ? ? ? os ? Hc|? ? _ IH Hs].
  - unfold iree_net_session_connect in Hc. destruct (iree_net_session_create _ _ _ _ _ _) as [s0|] eqn:Hcr; [|done].
    destruct (create_inv _ _ _ _ _ _ _ Hcr) as (b & -> & Hb). destruct cs; try done. injection Hc as <-. apply initial_ok; [by eapply initial_phase|done..].
  - unfold iree_net_session_accept in Hc. destruct (iree_net_session_create _ _ _ _ _ _) as [s0|] eqn:Hcr; [|done].
    destruct (create_inv _ _ _ _ _ _ _ Hcr) as (b & -> & Hb). cbn [mbind status_or_bind] in Hc. destruct (negb _); [done|].
    destruct os; try done. injection Hc as <-. apply (initial_ok b true); [by eapply initial_phase|done..].
  - by eapply session_step_ok.
Qed.
