(* ===== verification/SessionTheorems.v ===== *)
(** * Properties of sessions *)

From S2P Require Import Prelude BaseMath WireBytes ReceiveQueue FrameInvariant Frontier StatusWire StatusWrite StatusRead.
From S2P Require Import Bootstrap BootstrapWrite BootstrapRead BootstrapTheorems SessionBootstrap SessionHandshake Session SessionInvariant.
From stdpp Require Import base numbers list list_numbers.

Local Open Scope Z_scope.
Local Open Scope machine_scope.

Lemma deactivated_settled s n e es quiet failure owners :
  numbers_ok s n e es quiet failure owners → se_state s = SESSION_STATE_DEACTIVATED →
  en_connect e = false ∧ nothing_owed e ∧ quiet = true ∧ (se_connection s = true → en_drain e = DrainDone) ∧
  n TSetup = 0%nat ∧ n TReject = 0%nat ∧ n TSubmit = 0%nat ∧ n TDrained = 0%nat.
Proof.
  intros Hok Hs. destruct Hok. destruct (no_deactivated Hs) as (_ & Hsetup & Hrej & Hconn). rewrite Hsetup, Hrej in *. cbn [b2n] in *.
  assert (en_connect e = false ∧ n TSetup = 0%nat) as [-> ->] by (destruct (en_connect e); cbn [b2n] in *; split; (done || lia)).
  assert (n TReject = 0%nat) as -> by lia.
  destruct (se_connection s) eqn:Hc.
  - rewrite Hconn in * by done. cbn [b2n] in *.
    assert (en_drain e = DrainDone) as Hd by (destruct (en_drain e); drains; cbn [b2n] in *; (done || lia)).
    destruct (no_quiet Hd). rewrite Hd in *. drains. pose proof (b2n_le (CONNECTION_DEACTIVATION_SUBMITTED (se_flags s))). cbn [b2n] in *. split_and!; (done || lia).
  - destruct (no_connection eq_refl) as (? & Hd & ? & Hsub). rewrite Hd, Hsub in *. drains. cbn [b2n] in *. split_and!; (done || lia).
Qed.

Lemma occurrences_elem p es o : o ∈ es → p o = true → occurrences p es ≠ 0%nat.
Proof.
  intros Ho Hp. apply list_elem_of_split in Ho as (es1 & es2 & ->). rewrite occurrences_app, occurrences_cons, Hp. cbn [b2n]. lia.
Qed.

Lemma final_deactivated s n e es quiet failure owners :
  numbers_ok s n e es quiet failure owners → occurrences is_out_final es ≠ 0%nat →
  se_state s = SESSION_STATE_DEACTIVATED ∧ n TFinal = 0%nat.
Proof.
  intros Hok Ho. destruct Hok. destruct (decide (se_state s = SESSION_STATE_DEACTIVATED)) as [Hs|Hs];
    [rewrite (bool_decide_true _ Hs) in *|rewrite (bool_decide_false _ Hs) in *]; cbn [b2n] in *; [split; (done || lia)|lia].
Qed.

(** C22: Under every interleaving of the callbacks of the factory and the connection with calls
    of the owners, [on_ready], [on_error] and [on_deactivated] are each called at most once,
    and [on_deactivated] is the last callback: when it is called the setup and a rejection
    are finished, a connection is drained and owes nothing, and no callback follows. *)
Theorem session_callbacks_ordered y :
  session_reachable y →
  (occurrences is_out_ready (sn_events y) <= 1)%nat ∧ (occurrences is_out_error (sn_events y) <= 1)%nat ∧
  (occurrences is_out_final (sn_events y) <= 1)%nat ∧
  ∀ before after, sn_events y = before ++ OutDeactivated :: after →
    Forall (λ o, is_callback o = false) after ∧ se_state (sn_session y) = SESSION_STATE_DEACTIVATED ∧
    en_connect (sn_env y) = false ∧ nothing_owed (sn_env y) ∧ connection_quiet (sn_threads y) = true ∧
    (se_connection (sn_session y) = true → en_drain (sn_env y) = DrainDone).
Proof.
  intros Hr. destruct (session_reachable_ok y Hr) as [Hnum Hts _ Hlast].
  split_and!; [destruct Hnum; pose proof (b2n_le (bool_decide (sb_phase (se_bootstrap (sn_session y)) = PHASE_COMPLETE))); lia
    |destruct Hnum; pose proof (b2n_le (ERROR_REPORTED (se_flags (sn_session y)))); lia
    |destruct Hnum; pose proof (b2n_le (bool_decide (se_state (sn_session y) = SESSION_STATE_DEACTIVATED))); lia|].
  intros before after He. destruct (final_deactivated _ _ _ _ _ _ _ Hnum) as [Hs _].
  { apply (occurrences_elem _ _ OutDeactivated); [|done]. rewrite He. apply elem_of_app. right. constructor. }
  destruct (deactivated_settled _ _ _ _ _ _ _ Hnum Hs) as (? & ? & ? & ? & _). split_and!; try done. by eapply final_last_spec.
Qed.

Lemma member_tokens t c l ts : (c, l) ∈ ts → (tokens t l <= thread_tokens t ts)%nat.
Proof.
  intros Hin. apply list_elem_of_split in Hin as (ts1 & ts2 & ->). rewrite thread_tokens_app, thread_tokens_cons. cbn [snd]. lia.
Qed.

Lemma member_owner c l ts : (c, l) ∈ ts → owner_calls ts = 0%nat → c ≠ FromOwner.
Proof. intros Hin. apply list_elem_of_split in Hin as (ts1 & ts2 & ->). rewrite owner_calls_mid. intros Hz ->. rewrite bool_decide_true in Hz by done. cbn [b2n] in Hz. lia. Qed.

Lemma member_quiet c l ts : (c, l) ∈ ts → connection_quiet ts = true → from_connection c = false.
Proof.
  intros Hin. apply list_elem_of_split in Hin as (ts1 & ts2 & ->). rewrite quiet_mid, !andb_true_iff. cbn [fst].
  intros (_ & Hc & _). by apply negb_true_iff.
Qed.

(** A thread that holds no token. *)
Lemma idle_shape c l :
  thread_ok c l → c ≠ FromOwner → from_connection c = false →
  tokens TSetup l = 0%nat → tokens TSubmit l = 0%nat → tokens TDrained l = 0%nat → tokens TRelease l = 0%nat →
  l = [] ∨ (c = FromFactory ∧ l = [DriveDeactivation]).
Proof.
  intros Ht Hc Hq H1 H2 H3 H4. destruct l as [|a l]; [by left|right].
  destruct c; try done; destruct a; cbn [thread_ok] in Ht; try done; cbn [tokens sum_list_with token_of] in *; try lia;
    (destruct l as [|a l]; [|destruct a; try done; destruct l as [|a l]; try done; try (destruct a; try done; destruct l; try done)]);
    cbn [sum_list_with token_of] in *; (done || lia).
Qed.

(** C24: Once the last reference is released, [on_deactivated] has been called, and every thread
    that still has anything to do is the connect callback of the factory, with nothing but its
    last [DriveDeactivation]; no callback of the connection and no call of an owner touches
    the destroyed session. *)
Theorem session_destroyed_last y :
  session_reachable y → se_ref_count (sn_session y) = 0 →
  occurrences is_out_final (sn_events y) = 1%nat ∧ sn_owners y = 0%nat ∧
  ∀ c l, (c, l) ∈ sn_threads y → l = [] ∨ (c = FromFactory ∧ l = [DriveDeactivation]).
Proof.
  intros Hr Hz. destruct (session_reachable_ok y Hr) as [Hnum Hts _ _].
  assert (se_state (sn_session y) = SESSION_STATE_DEACTIVATED) as Hs.
  { destruct Hnum. rewrite Hz in no_refs. destruct (decide (se_state (sn_session y) = _)) as [|]; [done|lia]. }
  destruct (deactivated_settled _ _ _ _ _ _ _ Hnum Hs) as (_ & _ & Hq & _ & H1 & H2 & H3 & H4).
  destruct Hnum. rewrite Hz, decide_True, bool_decide_true in * by done. cbn [b2n] in *.
  split_and!; [lia|lia|]. intros c l Hin. pose proof (λ t, member_tokens t _ _ _ Hin) as Hle.
  rewrite Forall_forall in Hts. apply idle_shape.
  - apply (Hts _ Hin).
  - eapply member_owner; [done|lia].
  - by eapply member_quiet.
  - specialize (Hle TSetup). lia.
  - specialize (Hle TSubmit). lia.
  - specialize (Hle TDrained). lia.
  - specialize (Hle TRelease). lia.
Qed.

(** ** The state only advances *)

Definition state_rank (state : iree_net_session_state_t) : nat :=
  match state with
  | SESSION_STATE_BOOTSTRAPPING => 0
  | SESSION_STATE_OPERATIONAL => 1
  | SESSION_STATE_DRAINING => 2
  | SESSION_STATE_DEACTIVATED => 3
  end.

(** The states that an action can set: OPERATIONAL from BOOTSTRAPPING, DRAINING and DEACTIVATED
    not from DEACTIVATED. *)
Definition advances (s s' : iree_net_session_t) : Prop :=
  se_state s' = se_state s ∨ (se_state s = SESSION_STATE_BOOTSTRAPPING ∧ se_state s' = SESSION_STATE_OPERATIONAL) ∨
  (se_state s ≠ SESSION_STATE_DEACTIVATED ∧ (se_state s' = SESSION_STATE_DRAINING ∨ se_state s' = SESSION_STATE_DEACTIVATED)).

Lemma finalize_advances s fin s' : iree_net_session_try_finalize_locked s = (fin, s') → advances s s'.
Proof.
  unfold iree_net_session_try_finalize_locked. destruct (_ || _); [intros [= <- <-]; by left|]. destruct (_ && _); [intros [= <- <-]; by left|].
  destruct (decide _); intros [= <- <-]; [by left|]. right; right. split; [done|by right].
Qed.

Lemma send_reject_state code host_malloc send_status s code' sent s' :
  iree_net_session_send_reject_locked code host_malloc send_status s = (code', sent, s') → se_state s' = se_state s.
Proof.
  unfold iree_net_session_send_reject_locked. destruct (iree_net_bootstrap_message_calculate_size _); [|by intros [= <- <- <-]].
  destruct (host_malloc _); try (by intros [= <- <- <-]). destruct (iree_net_bootstrap_message_serialize _ _); [|by intros [= <- <- <-]].
  destruct (send_status =? 0); by intros [= <- <- <-].
Qed.

Lemma message_advances m ss h rs s r sent s' :
  (DEACTIVATION_REQUESTED (se_flags s) = false → sb_phase (se_bootstrap s) ≠ PHASE_COMPLETE → se_state s = SESSION_STATE_BOOTSTRAPPING) →
  bootstrap_message_locked m ss h rs s = (r, sent, s') → advances s s'.
Proof.
  intros Hb. unfold bootstrap_message_locked. destruct (DEACTIVATION_REQUESTED (se_flags s)); [intros [= <- <- <-]; by left|].
  destruct (iree_net_session_bootstrap_process_message _ m) as [result nb] eqn:Hp. apply process_phase in Hp.
  assert (∀ p k q s1, sb_phase (se_bootstrap s) ≠ PHASE_COMPLETE →
    (MessageReady p k, q, iree_net_session_set_state_locked SESSION_STATE_OPERATIONAL s1) = (r, sent, s') → advances s s') as Hready.
  { intros p k q s1 Hne [= <- <- <-]. right; left. split; [by apply Hb|done]. }
  destruct result as [status|[peer negotiated]]; case_bool_decide as Hserver; cbn [iree_net_session_send_bootstrap_locked].
  - destruct (iree_net_session_send_reject_locked _ _ _ _) as [[code q] s2] eqn:Hs. intros [= <- <- <-]. left. by apply send_reject_state in Hs.
  - intros [= <- <- <-]. by left.
  - unfold iree_net_session_send_bootstrap_locked. destruct (ss =? 0); [apply Hready; by rewrite Hserver|].
    destruct (iree_net_session_send_reject_locked _ _ _ _) as [[code q] s2] eqn:Hs. intros [= <- <- <-]. left. by apply send_reject_state in Hs.
  - apply Hready. destruct Hp as [[-> _]|[-> _]]; done.
Qed.

Lemma run_advances a s n e es quiet failure owners next s' outs :
  numbers_ok s n e es quiet failure owners → session_run a s = (next, s', outs) → advances s s'.
Proof.
  intros Hok. destruct a; cbn [session_run]; try (intros [= <- <- <-]; by left).
  - destruct (on_connect_locked _ _ _ s) as [[code|] s1] eqn:E; unfold on_connect_locked in E; destruct (DEACTIVATION_REQUESTED _), (status =? 0);
      injection E; intros; subst; repeat (destruct (_ =? 0)); simplify_eq; by left.
  - unfold control_endpoint_ready_locked. destruct (DEACTIVATION_REQUESTED _); [intros [= <- <- <-]; by left|].
    unfold iree_net_session_send_bootstrap_locked. repeat case_match; intros; simplify_eq; by left.
  - destruct (bootstrap_message_locked _ _ _ _ s) as [[r sent] s1] eqn:E. apply message_advances in E; [destruct r; by intros [= <- <- <-]|].
    intros Hq Hp. destruct Hok. destruct (se_state s) eqn:Hs; [done|by rewrite no_operational in Hp|destruct (no_draining eq_refl); congruence|].
    destruct (no_deactivated eq_refl) as (? & _). congruence.
  - intros [= <- <- <-]. unfold goaway_locked. destruct (decide _) as [Hs|]; [|by left]. right; right. rewrite Hs. split; [done|by left].
  - unfold connection_deactivated_locked. destruct (iree_net_session_try_finalize_locked _) as [fin s1] eqn:E. apply finalize_advances in E. by intros [= <- <- <-].
  - unfold fail_locked. destruct (negb _ && _) eqn:E; intros [= <- <- <-]; [|by left]. right; right.
    apply andb_true_iff in E as [_ E]. apply negb_true_iff, bool_decide_eq_false in E. split; [done|by left].
  - unfold drive_locked. destruct (_ && _ && _); [intros [= <- <- <-]; by left|].
    destruct (iree_net_session_try_finalize_locked s) as [fin s1] eqn:E. apply finalize_advances in E. by intros [= <- <- <-].
  - intros [= <- <- <-]. unfold session_deactivate_locked. destruct (decide _); [by left|]. right; right. split; [done|by left].
  - intros [= <- <- <-]. unfold iree_net_session_open_endpoint. destruct (negb _); [by left|]. destruct (_ <=? _); [by left|].
    cbn [snd]. destruct (_ =? 0); by left.
  - intros [= <- <- <-]. unfold iree_net_session_send_goaway. case_bool_decide as Hs; [|by left]. cbn [negb snd].
    destruct (_ =? 0); [|by left]. right; right. rewrite Hs. split; [done|by left].
Qed.

Lemma advances_rank s s' : advances s s' → (state_rank (se_state s) <= state_rank (se_state s'))%nat.
Proof. intros [-> | [[-> ->]|[Hs [-> | ->]]]]; [done|cbn; lia|destruct (se_state s); cbn; (done || lia)..]. Qed.

(** Every step of a reachable system leaves the session in its state or advances it in the
    order BOOTSTRAPPING, OPERATIONAL, DRAINING, DEACTIVATED; it is OPERATIONAL only with a
    completed bootstrap, and DEACTIVATED only with all setup, rejection and connection work
    finished. *)
Theorem session_state_advances y y' :
  session_reachable y → session_step y y' →
  (state_rank (se_state (sn_session y)) <= state_rank (se_state (sn_session y')))%nat ∧
  (se_state (sn_session y') = SESSION_STATE_OPERATIONAL → sb_phase (se_bootstrap (sn_session y')) = PHASE_COMPLETE) ∧
  (se_state (sn_session y') = SESSION_STATE_DEACTIVATED →
   DEACTIVATION_REQUESTED (se_flags (sn_session y')) = true ∧ SETUP_PENDING (se_flags (sn_session y')) = false ∧
   REJECT_PENDING (se_flags (sn_session y')) = false ∧
   (se_connection (sn_session y') = true → CONNECTION_DEACTIVATED (se_flags (sn_session y')) = true)).
Proof.
  intros Hr Hstep. destruct (session_reachable_ok _ Hr) as [Hnum _ _ _].
  assert (session_ok y') as [Hnum' _ _ _] by (by apply session_reachable_ok, (session_next y)).
  split; [|destruct Hnum'; auto]. destruct Hstep as [? ? ? ? ? ? ? ? ? ? ? ? Hrun| | | | | | | | | | | |? ? ? ? ? ? ? Hrel]; cbn [sn_session] in *; try done.
  - eapply advances_rank, run_advances; done.
  - by injection Hrel as <- <-.
Qed.

(** ** A failed connection *)

(** Thread [i] runs its next action, or returns when it has none. *)
Definition act_at (i : nat) (y : session_system) : session_system :=
  match sn_threads y !! i with
  | Some (c, a :: l) =>
      let '(next, s', outs) := session_run a (sn_session y) in
      mk_session_system s' (take i (sn_threads y) ++ (c, next ++ l) :: drop (S i) (sn_threads y)) (foldl observe (sn_env y) outs) (sn_owners y)
        (sn_events y ++ outs)
  | Some (c, []) =>
      mk_session_system (sn_session y) (take i (sn_threads y) ++ drop (S i) (sn_threads y)) (sn_env y)
        (if decide (c = FromOwner) then S (sn_owners y) else sn_owners y) (sn_events y)
  | None => y
  end.

Lemma act_at_step i y : act_at i y = y ∨ session_step y (act_at i y).
Proof.
  destruct y as [s ts e n es]. unfold act_at. cbn [sn_session sn_threads sn_env sn_owners sn_events]. destruct (ts !! i) as [[c [|a l]]|] eqn:Hi; [| |by left].
  - right. pose proof (take_drop_middle ts i _ Hi) as Hts. rewrite <- Hts at 1. apply session_return.
  - right. pose proof (take_drop_middle ts i _ Hi) as Hts. destruct (session_run a s) as [[next s'] outs] eqn:Hrun. rewrite <- Hts at 1. by apply session_act.
Qed.

Lemma act_at_reachable i y : session_reachable y → session_reachable (act_at i y).
Proof. intros Hr. destruct (act_at_step i y) as [-> |Hs]; [done|by eapply session_next]. Qed.

Definition sample_session : iree_net_session_t :=
  mk_session 2 SESSION_STATE_BOOTSTRAPPING (mk_session_flags true false false false false false)
    (sample_side IREE_NET_SESSION_BOOTSTRAP_ROLE_CLIENT sample_peer) false false 0.

(** The connect callback reported a failure and is about to drive the deactivation. *)
Definition sample_failed : session_system :=
  Nat.iter 5 (act_at 0) (mk_session_system sample_session [(FromFactory, [OnConnect 14 0 0])] (mk_env false false 0 0 false false DrainIdle) 1 []).

(** Its owner calls deactivate from another thread. *)
Definition sample_deactivating : session_system :=
  mk_session_system (sn_session sample_failed) ((FromOwner, [Deactivate]) :: sn_threads sample_failed) (sn_env sample_failed) 0 (sn_events sample_failed).

Definition sample_deactivated : session_system := Nat.iter 5 (act_at 0) sample_deactivating.

(** The owner releases its reference. *)
Definition sample_destroyed : session_system :=
  mk_session_system (iree_net_session_release (sn_session sample_deactivated)).2 (sn_threads sample_deactivated) (sn_env sample_deactivated) 0
    (sn_events sample_deactivated ++ [OutDestroy]).

Lemma sample_failed_reachable : session_reachable sample_failed.
Proof.
  unfold sample_failed. cbn [Nat.iter]. do 5 apply act_at_reachable. eapply session_next; [|apply (session_connected _ _ _ _ _ _ _ _ _ _ 14 0 0)].
  apply (session_client sample_peer 1 true IREE_STATUS_OK (λ _, IREE_STATUS_OK) IREE_STATUS_OK). vm_compute. reflexivity.
Qed.

Lemma sample_call_step : session_step sample_failed sample_deactivating.
Proof.
  unfold sample_deactivating. assert (sample_failed = mk_session_system (sn_session sample_failed) (sn_threads sample_failed) (sn_env sample_failed) 1 (sn_events sample_failed)) as H.
  { vm_compute. reflexivity. }
  rewrite H at 1. apply session_call. by left.
Qed.

Lemma sample_destroyed_reachable : session_reachable sample_destroyed.
Proof.
  assert (session_reachable sample_deactivated) as Hr.
  { unfold sample_deactivated. cbn [Nat.iter]. do 5 apply act_at_reachable. eapply session_next; [apply sample_failed_reachable|apply sample_call_step]. }
  eapply session_next; [exact Hr|]. assert (sample_deactivated = mk_session_system (sn_session sample_deactivated) (sn_threads sample_deactivated)
    (sn_env sample_deactivated) 1 (sn_events sample_deactivated)) as H by (vm_compute; reflexivity).
  rewrite H at 1. unfold sample_destroyed. eapply (session_released _ _ _ _ _ true). vm_compute. reflexivity.
Qed.

(** C25: The connect callback of the factory can run into a destroyed session: after a failed
    connection it ends setup under the mutex and locks the mutex again to drive the
    deactivation; when the owner deactivates and releases the session in between, the last
    reference is gone while that second section is still to run. *)
Theorem connect_callback_after_destroy :
  ∃ y y', session_reachable y ∧ se_ref_count (sn_session y) = 0 ∧ OutDestroy ∈ sn_events y ∧ sn_threads y = [(FromFactory, [DriveDeactivation])] ∧
    session_step y y' ∧ sn_threads y' = [(FromFactory, [])].
Proof.
  exists sample_destroyed, (act_at 0 sample_destroyed). split; [apply sample_destroyed_reachable|]. split; [vm_compute; reflexivity|].
  split; [apply elem_of_app; right; constructor|]. split; [vm_compute; reflexivity|]. split; [|vm_compute; reflexivity].
  destruct (act_at_step 0 sample_destroyed) as [H|H]; [|exact H]. apply (f_equal sn_threads) in H. vm_compute in H. done.
Qed.

Lemma session_callbacks_ordered_witness :
  occurrences is_out_error (sn_events sample_destroyed) = 1%nat ∧ occurrences is_out_final (sn_events sample_destroyed) = 1%nat ∧
  nothing_owed (sn_env sample_destroyed).
Proof.
  pose proof (session_callbacks_ordered sample_destroyed sample_destroyed_reachable) as (_ & He & Hf & Hlast).
  split; [vm_compute; reflexivity|]. split; [vm_compute; reflexivity|].
  destruct (Hlast [OutError 14; OutCancelConnect] [OutDestroy]) as (_ & _ & _ & H & _); [vm_compute; reflexivity|exact H].
Defined.

Lemma session_destroyed_last_witness :
  se_ref_count (sn_session sample_destroyed) = 0 ∧ sn_owners sample_destroyed = 0%nat ∧
  ∀ c l, (c, l) ∈ sn_threads sample_destroyed → l = [] ∨ (c = FromFactory ∧ l = [DriveDeactivation]).
Proof.
  assert (se_ref_count (sn_session sample_destroyed) = 0) as Hz by (vm_compute; reflexivity).
  split; [exact Hz|]. destruct (session_destroyed_last sample_destroyed sample_destroyed_reachable Hz) as (_ & Ho & Ht). split; [exact Ho|exact Ht].
Defined.

Lemma session_state_advances_witness :
  session_step sample_failed sample_deactivating ∧
  (state_rank (se_state (sn_session sample_failed)) <= state_rank (se_state (sn_session sample_deactivating)))%nat.
Proof.
  split; [exact sample_call_step|]. exact (proj1 (session_state_advances sample_failed sample_deactivating sample_failed_reachable sample_call_step)).
Defined.
