(* ===== verification/SessionLiveness.v ===== *)
(** * Deactivation of sessions

    A requested deactivation completes: whatever is still running or owed, the remaining steps
    of the threads and the remaining callbacks of the factory and the connection end with
    [on_deactivated]. *)

From S2P Require Import Prelude BaseMath WireBytes ReceiveQueue FrameInvariant Frontier StatusWire StatusWrite StatusRead.
From S2P Require Import Bootstrap BootstrapWrite BootstrapRead BootstrapTheorems SessionBootstrap SessionHandshake Session SessionInvariant SessionTheorems.
From stdpp Require Import base numbers list list_numbers relations.

Local Open Scope Z_scope.
Local Open Scope machine_scope.

(** ** What drives the deactivation *)

Definition drive_of (a : session_action) : nat := match a with DriveDeactivation | FinishSetup => 1 | _ => 0 end.

Definition drives (l : list session_action) : nat := sum_list_with drive_of l.

Definition thread_drives (ts : list session_thread) : nat := sum_list_with (λ th, drives th.2) ts.

(** When the connection can be deactivated or the session finalized, some thread is about to
    drive the deactivation. *)
Definition drive_ok (s : iree_net_session_t) (d : nat) : Prop :=
  let f := se_flags s in
  DEACTIVATION_REQUESTED f = true → se_state s ≠ SESSION_STATE_DEACTIVATED → REJECT_PENDING f = false →
  (se_connection s = true ∧ CONNECTION_DEACTIVATION_SUBMITTED f = false) ∨
  (SETUP_PENDING f = false ∧ (se_connection s = true → CONNECTION_DEACTIVATED f = true)) →
  (0 < d)%nat.

Lemma drained_submitted s n e es quiet failure owners :
  numbers_ok s n e es quiet failure owners → CONNECTION_DEACTIVATED (se_flags s) = true ∨ (0 < n TDrained)%nat →
  CONNECTION_DEACTIVATION_SUBMITTED (se_flags s) = true.
Proof.
  intros Hok H. destruct Hok. assert (en_drain e = DrainDone) as Hd.
  { destruct H as [H|H]; [rewrite H in *|]; destruct (en_drain e); drains; cbn [b2n] in *; (done || lia). }
  rewrite Hd in *. drains. destruct (CONNECTION_DEACTIVATION_SUBMITTED _); cbn [b2n] in *; (done || lia).
Qed.

Lemma finalize_drive_ok s fin s' d :
  (CONNECTION_DEACTIVATION_SUBMITTED (se_flags s) = false → se_connection s = true → DEACTIVATION_REQUESTED (se_flags s) = true → REJECT_PENDING (se_flags s) = true) →
  iree_net_session_try_finalize_locked s = (fin, s') → drive_ok s' d.
Proof.
  intros Hsub. unfold iree_net_session_try_finalize_locked.
  destruct (negb (DEACTIVATION_REQUESTED (se_flags s)) || _) eqn:E1.
  { intros [= <- <-] Hq Hs Hr [[Hc Hn]|[Hp _]]; [rewrite Hsub in Hr by done; done|]. by rewrite Hq, Hr, Hp in E1. }
  destruct (se_connection s && _) eqn:E2.
  { intros [= <- <-] Hq Hs Hr [[Hc Hn]|[Hp Hd]]; [rewrite Hsub in Hr by done; done|].
    apply andb_true_iff in E2 as [Hc E2]. by rewrite Hd in E2. }
  destruct (decide _); intros [= <- <-] ? Hs; by destruct Hs.
Qed.

(** An action that leaves something to drive the deactivation, one that leaves it not
    requested, and one that leaves the flags alone. *)
Lemma drive_ok_pos s d : (0 < d)%nat → drive_ok s d.
Proof. by intros ? ?. Qed.

Lemma drive_ok_quiet s d : DEACTIVATION_REQUESTED (se_flags s) = false → drive_ok s d.
Proof. intros Hq Hr. congruence. Qed.

Lemma drive_ok_same s s' d d' :
  se_flags s' = se_flags s → se_connection s' = se_connection s → se_state s' = se_state s → (d <= d')%nat → drive_ok s d → drive_ok s' d'.
Proof. unfold drive_ok. intros -> -> -> Hd H Hq Hs Hr Hc. specialize (H Hq Hs Hr Hc). lia. Qed.

Lemma message_quiet m ss h rs s r sent s' :
  DEACTIVATION_REQUESTED (se_flags s) = false → bootstrap_message_locked m ss h rs s = (r, sent, s') →
  DEACTIVATION_REQUESTED (se_flags s') = false.
Proof.
  intros Hq. unfold bootstrap_message_locked, iree_net_session_send_bootstrap_locked, iree_net_session_send_reject_locked.
  rewrite Hq. repeat case_match; intros; simplify_eq; done.
Qed.

Lemma run_drive_ok a s n e es quiet failure owners base next s' outs :
  numbers_ok s n e es quiet failure owners → (∀ t, (token_of t a <= n t)%nat) → session_run a s = (next, s', outs) →
  drive_ok s (base + drive_of a) → drive_ok s' (base + drives next).
Proof.
  intros Hok Htok Hrun Hd. destruct a; cbn [session_run] in Hrun.
  all: try (injection Hrun as <- <- <-; first [exact Hd|apply drive_ok_pos; cbn; lia|by eapply drive_ok_same; [done..|exact Hd]]).
  - destruct (on_connect_locked _ _ _ s) as [[code|] s1] eqn:E; [|injection Hrun as <- <- <-; apply drive_ok_pos; cbn; lia].
    unfold on_connect_locked in E. destruct (DEACTIVATION_REQUESTED (se_flags s)) eqn:Hq; [done|]. destruct (code =? 0).
    + injection Hrun as <- <- <-. apply drive_ok_quiet. injection E as _ <-. by destruct (status =? 0).
    + injection Hrun as <- <- <-. apply drive_ok_pos. cbn. lia.
  - destruct (control_endpoint_ready_locked _ _ _ _ s) as [[[[code|] sent] active] s1]; injection Hrun as <- <- <-; apply drive_ok_pos;
      [destruct (code =? 0)|]; cbn; lia.
  - destruct (bootstrap_message_locked _ _ _ _ s) as [[r sent] s1] eqn:E. destruct (DEACTIVATION_REQUESTED (se_flags s)) eqn:Hq.
    + unfold bootstrap_message_locked in E. rewrite Hq in E. injection E as <- <- <-. by injection Hrun as <- <- <-.
    + apply drive_ok_quiet. apply message_quiet in E; [|done]. destruct r; by injection Hrun as <- <- <-.
  - injection Hrun as <- <- <-. destruct (status =? 0); exact Hd.
  - injection Hrun as <- <- <-. destruct (control_data_admitted s); exact Hd.
  - injection Hrun as <- <- <-. unfold goaway_locked. destruct (decide _) as [Hs|]; [|exact Hd]. apply drive_ok_quiet. cbn.
    destruct (DEACTIVATION_REQUESTED (se_flags s)) eqn:Hq; [|done]. destruct (no_requested _ _ _ _ _ _ _ Hok Hq); congruence.
  - unfold connection_deactivated_locked in Hrun. destruct (iree_net_session_try_finalize_locked _) as [fin s1] eqn:E. injection Hrun as <- <- <-.
    eapply finalize_drive_ok; [|exact E]. cbn. intros Hsub. rewrite (drained_submitted _ _ _ _ _ _ _ Hok) in Hsub; [done|]. right. by apply (Htok TDrained).
  - destruct (fail_locked s) as [[] s1]; injection Hrun as <- <- <-; apply drive_ok_pos; cbn; lia.
  - unfold drive_locked in Hrun. destruct (DEACTIVATION_REQUESTED (se_flags s) && _ && _ && _) eqn:E.
    + injection Hrun as <- <- <-. rewrite !andb_true_iff, !negb_true_iff in E. destruct E as (((Hq & Hr) & Hc) & Hsub).
      intros _ _ _ [[_ Hn]|[_ Hdr]]; [done|]. cbn in Hdr. specialize (Hdr Hc). rewrite (drained_submitted _ _ _ _ _ _ _ Hok) in Hsub; [done|by left].
    + destruct (iree_net_session_try_finalize_locked s) as [fin s1] eqn:E1. injection Hrun as <- <- <-. eapply finalize_drive_ok; [|exact E1].
      intros Hsub Hc Hq. rewrite Hq, Hc, Hsub in E. by destruct (REJECT_PENDING (se_flags s)).
  - injection Hrun as <- <- <-. unfold iree_net_session_open_endpoint. destruct (negb _); [exact Hd|]. destruct (_ <=? _); [exact Hd|].
    cbn [snd]. by destruct (_ =? 0).
  - injection Hrun as <- <- <-. unfold iree_net_session_send_goaway. case_bool_decide as Hs; [|exact Hd]. cbn [negb snd].
    destruct (_ =? 0); [|exact Hd]. apply drive_ok_quiet. cbn.
    destruct (DEACTIVATION_REQUESTED (se_flags s)) eqn:Hq; [|done]. destruct (no_requested _ _ _ _ _ _ _ Hok Hq); congruence.
Qed.

Lemma thread_drives_mid ts1 c l ts2 : thread_drives (ts1 ++ (c, l) :: ts2) = (thread_drives ts1 + thread_drives ts2 + drives l)%nat.
Proof. unfold thread_drives. rewrite sum_list_with_app. cbn [sum_list_with snd]. lia. Qed.

Lemma thread_drives_app ts1 ts2 : thread_drives (ts1 ++ ts2) = (thread_drives ts1 + thread_drives ts2)%nat.
Proof. unfold thread_drives. by rewrite sum_list_with_app. Qed.

Lemma drives_cons a l : drives (a :: l) = (drive_of a + drives l)%nat.
Proof. done. Qed.

Lemma drives_app l l' : drives (l ++ l') = (drives l + drives l')%nat.
Proof. unfold drives. by rewrite sum_list_with_app. Qed.

Lemma mid_tokens t ts1 c a l ts2 : (token_of t a <= thread_tokens t (ts1 ++ (c, a :: l) :: ts2))%nat.
Proof.
  rewrite thread_tokens_app, thread_tokens_cons. cbn [snd]. change (tokens t (a :: l)) with (token_of t a + tokens t l)%nat. lia.
Qed.

Lemma step_drive_ok y y' :
  session_step y y' → session_ok y → drive_ok (sn_session y) (thread_drives (sn_threads y)) →
  drive_ok (sn_session y') (thread_drives (sn_threads y')).
Proof.
  intros Hstep Hok Hd. destruct Hstep; cbn [sn_session sn_threads] in *;
    try (eapply drive_ok_same; [..|exact Hd]; try done; change (thread_drives (?th :: ts)) with (drives th.2 + thread_drives ts)%nat; lia).
  - rewrite thread_drives_mid, drives_cons in Hd. rewrite thread_drives_mid, drives_app.
    replace (thread_drives ts1 + thread_drives ts2 + (drives next + drives l))%nat
      with ((thread_drives ts1 + thread_drives ts2 + drives l) + drives next)%nat by lia.
    eapply run_drive_ok; [apply (so_numbers _ Hok)|intros t; apply mid_tokens|done|].
    eapply drive_ok_same; [..|exact Hd]; try done. lia.
  - eapply drive_ok_same; [..|exact Hd]; try done. rewrite thread_drives_mid, thread_drives_app. cbn. lia.
  - match goal with H : iree_net_session_release s = _ |- _ => injection H as <- <- end. exact Hd.
Qed.

Lemma session_reachable_drive_ok y : session_reachable y → drive_ok (sn_session y) (thread_drives (sn_threads y)).
Proof.
  induction 1 as [? ? ? ? ? cs ? Hc|? ? ? ? ? ? os ? Hc|? ? Hr IH Hs].
  - apply drive_ok_quiet. unfold iree_net_session_connect in Hc. destruct (iree_net_session_create _ _ _ _ _ _) as [s0|] eqn:Hcr; [|done].
    destruct (create_inv _ _ _ _ _ _ _ Hcr) as (b & -> & Hb). destruct cs; try done. by injection Hc as <-.
  - apply drive_ok_quiet. unfold iree_net_session_accept in Hc. destruct (iree_net_session_create _ _ _ _ _ _) as [s0|] eqn:Hcr; [|done].
    destruct (create_inv _ _ _ _ _ _ _ Hcr) as (b & -> & Hb). cbn [mbind status_or_bind] in Hc. destruct (negb _); [done|].
    destruct os; try done. by injection Hc as <-.
  - eapply step_drive_ok; [done|by apply session_reachable_ok|done].
Qed.

(** ** The work that is left *)

(** An action with what it can lead to once the deactivation is requested. *)
Definition action_work (a : session_action) : nat :=
  match a with
  | OnConnect _ _ _ => 14
  | DeactivateConnection => 5
  | OnControlEndpointReady _ _ _ _ | OnBootstrapSendComplete _ => 3
  | OnRejectSendComplete | OnControlData | OnControlGoaway _ | Fail _ | FinishSetup | Deactivate => 2
  | _ => 1
  end.

Definition actions_work (l : list session_action) : nat := sum_list_with action_work l.

Definition threads_work (ts : list session_thread) : nat := sum_list_with (λ th, S (actions_work th.2)) ts.

Definition env_work (e : session_env) : nat :=
  16 * b2n (en_connect e) + 5 * b2n (en_ready e) + 5 * en_sends e + 4 * en_rejects e + 4 * b2n (bool_decide (en_drain e = DrainRequested)).

(** The deactivation of the connection and the final callback. *)
Definition pending_work (s : iree_net_session_t) : nat :=
  10 * b2n (se_connection s && negb (CONNECTION_DEACTIVATION_SUBMITTED (se_flags s))) +
  5 * b2n (negb (bool_decide (se_state s = SESSION_STATE_DEACTIVATED))).

Definition session_work (y : session_system) : nat := threads_work (sn_threads y) + env_work (sn_env y) + pending_work (sn_session y).

Lemma finalize_work s fin s' :
  iree_net_session_try_finalize_locked s = (fin, s') →
  (pending_work s' + actions_work (if fin then [CallDeactivated; Release] else []) <= pending_work s)%nat ∧
  DEACTIVATION_REQUESTED (se_flags s') = DEACTIVATION_REQUESTED (se_flags s).
Proof.
  unfold iree_net_session_try_finalize_locked. destruct (_ || _); [intros [= <- <-]; split; [cbn; lia|done]|].
  destruct (se_connection s && _); [intros [= <- <-]; split; [cbn; lia|done]|].
  destruct (decide (se_state s = _)) as [|Hs]; intros [= <- <-]; (split; [|done]); [cbn; lia|].
  destruct s as [refs state f b connection channel opened]. unfold pending_work. fields. rewrite (bool_decide_false _ Hs). states.
  cbn [negb b2n actions_work sum_list_with action_work]. lia.
Qed.

Lemma draining_work s :
  se_state s ≠ SESSION_STATE_DEACTIVATED → pending_work (iree_net_session_set_state_locked SESSION_STATE_DRAINING s) = pending_work s.
Proof.
  intros Hs. destruct s as [refs state f b connection channel opened]. unfold pending_work. fields. by rewrite (bool_decide_false _ Hs).
Qed.

Lemma drive_work s cancel action s' :
  drive_locked s = (cancel, action, s') →
  DEACTIVATION_REQUESTED (se_flags s') = DEACTIVATION_REQUESTED (se_flags s) ∧
  (pending_work s' + actions_work (match action with
     | DriveNothing => [] | DriveConnection => [DeactivateConnection] | DriveFinalize => [CallDeactivated; Release] end) <= pending_work s)%nat.
Proof.
  unfold drive_locked. destruct (DEACTIVATION_REQUESTED (se_flags s) && _ && _ && _) eqn:E.
  - intros [= <- <- <-]. split; [done|]. rewrite !andb_true_iff in E. destruct E as [[_ Hc] Hsub]. unfold pending_work.
    destruct s as [refs state f b connection channel opened]. fields. subst connection. rewrite Hsub. cbn [b2n andb negb actions_work sum_list_with action_work]. lia.
  - destruct (iree_net_session_try_finalize_locked s) as [fin s1] eqn:E1. apply finalize_work in E1 as [Hle Hq]. intros [= <- <- <-]. split; [done|]. by destruct fin.
Qed.

(** Once the deactivation is requested, every action leaves less work. *)
Lemma run_work a s e next s' outs :
  DEACTIVATION_REQUESTED (se_flags s) = true → (a = DeactivateConnection → en_drain e = DrainIdle) → session_run a s = (next, s', outs) →
  DEACTIVATION_REQUESTED (se_flags s') = true ∧
  (actions_work next + env_work (foldl observe e outs) + pending_work s' < action_work a + env_work e + pending_work s)%nat.
Proof.
  intros Hq He Hrun. destruct a; cbn [session_run] in Hrun.
  all: try (injection Hrun as <- <- <-; split; [done|cbn [actions_work sum_list_with action_work foldl observe]; lia]).
  all: try (injection Hrun as <- <- <-; split; [done|destruct e; unfold env_work, pending_work; cbn [actions_work sum_list_with action_work]; fields; lia]).
  - unfold on_connect_locked in Hrun. rewrite Hq in Hrun. injection Hrun as <- <- <-. split; [by destruct (status =? 0)|].
    cbn [foldl]. destruct (status =? 0); [|cbn; lia]. unfold pending_work. cbn [actions_work sum_list_with action_work].
    destruct s as [refs state f b connection channel opened]. fields. pose proof (b2n_le (true && negb (CONNECTION_DEACTIVATION_SUBMITTED f))). lia.
  - unfold control_endpoint_ready_locked in Hrun. rewrite Hq in Hrun. injection Hrun as <- <- <-. split; [done|cbn; lia].
  - unfold bootstrap_message_locked in Hrun. rewrite Hq in Hrun. injection Hrun as <- <- <-. split; [done|cbn; lia].
  - injection Hrun as <- <- <-. split; [done|]. destruct (status =? 0); cbn; lia.
  - injection Hrun as <- <- <-. split; [done|]. destruct (control_data_admitted s); cbn; lia.
  - injection Hrun as <- <- <-. unfold goaway_locked. destruct (decide _) as [Hs|]; (split; [done|]); [rewrite draining_work by congruence|]; cbn; lia.
  - unfold connection_deactivated_locked in Hrun. destruct (iree_net_session_try_finalize_locked _) as [fin s1] eqn:E. injection Hrun as <- <- <-.
    apply finalize_work in E as [Hle ->]. split; [done|]. change (pending_work (with_flags set_connection_deactivated s)) with (pending_work s) in Hle.
    cbn [foldl action_work]. lia.
  - unfold fail_locked in Hrun. rewrite Hq in Hrun. injection Hrun as <- <- <-. split; [done|cbn; lia].
  - destruct (drive_locked s) as [[cancel action] s1] eqn:E. injection Hrun as <- <- <-. apply drive_work in E as [-> Hle]. split; [done|].
    replace (foldl observe e (if cancel then [OutCancelConnect] else [])) with e by (destruct cancel, e; done). cbn [action_work]. lia.
  - injection Hrun as <- <- <-. split; [done|]. destruct e as [connect ready sends rejects active attached drain]. cbn in He. rewrite He by done.
    unfold env_work. fields. change (bool_decide (DrainRequested = DrainRequested)) with true. cbn [b2n actions_work sum_list_with action_work]. lia.
  - injection Hrun as <- <- <-. unfold session_deactivate_locked. destruct (decide _) as [Hs|]; (split; [done|]); [cbn; lia|].
    rewrite draining_work by done. cbn. lia.
  - injection Hrun as <- <- <-. unfold iree_net_session_open_endpoint. destruct (negb _); [split; [done|cbn; lia]|].
    destruct (_ <=? _); [split; [done|cbn; lia]|]. destruct (_ =? 0); (split; [done|cbn; lia]).
  - injection Hrun as <- <- <-. unfold iree_net_session_send_goaway. case_bool_decide as Hs; [|split; [done|cbn; lia]]. cbn [negb snd].
    destruct (_ =? 0); (split; [done|]); [rewrite draining_work by congruence|]; cbn; lia.
  - injection Hrun as <- <- <-. split; [done|]. replace (foldl observe e _) with e by (destruct (_ =? 1), e; done). cbn. lia.
Qed.

(** ** Completion *)

(** A step that leaves less work: not a new message, error or call of an owner. *)
Definition settles (y y' : session_system) : Prop := session_step y y' ∧ (session_work y' < session_work y)%nat.

Definition deactivation_requested (y : session_system) : Prop := DEACTIVATION_REQUESTED (se_flags (sn_session y)) = true.

Lemma threads_work_cons c l ts : threads_work ((c, l) :: ts) = (S (actions_work l) + threads_work ts)%nat.
Proof. done. Qed.

Lemma actions_work_app l l' : actions_work (l ++ l') = (actions_work l + actions_work l')%nat.
Proof. unfold actions_work. by rewrite sum_list_with_app. Qed.

Lemma submit_idle s n e es quiet failure owners :
  numbers_ok s n e es quiet failure owners → (0 < n TSubmit)%nat → en_drain e = DrainIdle.
Proof.
  intros Hok Hn. destruct Hok. pose proof (b2n_le (CONNECTION_DEACTIVATION_SUBMITTED (se_flags s))).
  destruct (en_drain e); drains; cbn [b2n] in *; (done || lia).
Qed.

Lemma session_thread_settles y c l ts :
  session_ok y → deactivation_requested y → sn_threads y = (c, l) :: ts → ∃ y', settles y y' ∧ deactivation_requested y'.
Proof.
  intros Hok Hq Hts. destruct y as [s ts0 e n es]. cbn in Hts, Hq. subst ts0. destruct l as [|a l].
  - eexists. split; [split; [apply (session_return s [] ts c)|]|exact Hq]. unfold session_work. cbn [sn_threads sn_env sn_session app].
    rewrite threads_work_cons. lia.
  - destruct (session_run a s) as [[next s'] outs] eqn:Hrun.
    destruct (run_work a s e next s' outs Hq) as [Hq' Hlt]; [|done|].
    { intros ->. eapply submit_idle; [apply (so_numbers _ Hok)|]. apply (mid_tokens TSubmit [] c DeactivateConnection l ts). }
    eexists. split; [split; [by apply (session_act s [] ts c a l)|]|exact Hq']. unfold session_work. cbn [sn_threads sn_env sn_session app].
    rewrite !threads_work_cons, actions_work_app. change (actions_work (a :: l)) with (action_work a + actions_work l)%nat. lia.
Qed.

(** Without threads and callbacks the session is deactivated. *)
Lemma settled_deactivated y :
  session_ok y → drive_ok (sn_session y) (thread_drives (sn_threads y)) → deactivation_requested y → sn_threads y = [] →
  en_connect (sn_env y) = false → en_ready (sn_env y) = false → en_rejects (sn_env y) = 0%nat → en_drain (sn_env y) ≠ DrainRequested →
  occurrences is_out_final (sn_events y) = 1%nat.
Proof.
  intros [Hnum _ _ _] Hd Hq Hts Hc Hr Hj Hdr. rewrite Hts in *. change (thread_drives []) with 0%nat in Hd. destruct Hnum.
  rewrite Hc, Hr, Hj in *. change (thread_tokens _ []) with 0%nat in *. cbn [b2n] in *.
  destruct (decide (se_state (sn_session y) = SESSION_STATE_DEACTIVATED)) as [Hs|Hs]; [rewrite bool_decide_true in no_final by done; cbn [b2n] in *; lia|].
  exfalso. assert (0 < 0)%nat; [|lia]. apply Hd; [done|done|by destruct (REJECT_PENDING _)|].
  destruct (CONNECTION_DEACTIVATION_SUBMITTED (se_flags (sn_session y))) eqn:Hsub.
  - right. split; [by destruct (SETUP_PENDING _)|intros _]. destruct (en_drain (sn_env y)); drains; cbn [b2n] in *; [lia|done|].
    by destruct (CONNECTION_DEACTIVATED _).
  - destruct (se_connection (sn_session y)) eqn:Hconn; [by left|]. right. split; [by destruct (SETUP_PENDING _)|done].
Qed.

Ltac env_less :=
  unfold env_work, threads_work; cbn [sn_threads sn_env sum_list_with snd actions_work action_work]; fields;
  change (bool_decide (DrainRequested = DrainRequested)) with true; change (bool_decide (DrainDone = DrainRequested)) with false; cbn [b2n]; lia.

Lemma settle_or_done y :
  session_ok y → drive_ok (sn_session y) (thread_drives (sn_threads y)) → deactivation_requested y →
  (∃ y', settles y y' ∧ deactivation_requested y') ∨ occurrences is_out_final (sn_events y) = 1%nat.
Proof.
  intros Hok Hd Hq. destruct (sn_threads y) as [|[c l] ts] eqn:Hts; [|left; by eapply session_thread_settles].
  destruct y as [s ts [connect ready sends rejects active attached drain] n es]. cbn in Hts. subst ts.
  assert (∀ y', session_step (mk_session_system s [] (mk_env connect ready sends rejects active attached drain) n es) y' → sn_session y' = s →
    (threads_work (sn_threads y') + env_work (sn_env y') < env_work (mk_env connect ready sends rejects active attached drain))%nat →
    ∃ y', settles (mk_session_system s [] (mk_env connect ready sends rejects active attached drain) n es) y' ∧ deactivation_requested y') as Hstep.
  { intros y' Hst Hs Hlt. exists y'. split; [|unfold deactivation_requested; by rewrite Hs]. split; [done|]. unfold session_work. rewrite Hs.
    cbn [sn_threads sn_env sn_session]. change (threads_work []) with 0%nat. lia. }
  destruct connect; [left; eapply Hstep; [by apply (session_connected _ _ _ _ _ _ _ _ _ _ 0 0 0)|done|]; env_less|].
  destruct ready; [left; eapply Hstep; [by apply (session_ready _ _ _ _ _ _ _ _ _ _ 0 0 0 0)|done|]; env_less|].
  destruct sends as [|sends]; [|left; eapply Hstep; [by apply (session_sent _ _ _ _ _ _ _ _ _ _ _ 0)|done|]; env_less].
  destruct rejects as [|rejects]; [|left; eapply Hstep; [by apply session_rejected|done|]; env_less].
  destruct (decide (drain = DrainRequested)) as [->|Hne]; [left; eapply Hstep; [by apply session_drained|done|]; env_less|].
  right. by eapply settled_deactivated.
Qed.

(** Something new: a message or an error of the connection, a call of an owner, or a reference
    taken or released. *)
Definition stimulus (y y' : session_system) : Prop :=
  sn_env y' = sn_env y ∧
  (sn_threads y' = sn_threads y ∨ ∃ c a, sn_threads y' = (c, [a]) :: sn_threads y).

Lemma threads_work_mid ts1 c l ts2 : threads_work (ts1 ++ (c, l) :: ts2) = (threads_work ts1 + threads_work ts2 + S (actions_work l))%nat.
Proof. unfold threads_work. rewrite sum_list_with_app. cbn [sum_list_with snd]. lia. Qed.

Lemma step_settles y y' : session_ok y → deactivation_requested y → session_step y y' → settles y y' ∨ stimulus y y'.
Proof.
  intros Hok Hq Hstep. assert (session_step y y') as Hst by done.
  destruct Hstep as [s ts1 ts2 c a l e n es next s' outs Hrun| | | | | | | | | | | |]; unfold settles; unfold session_work;
    try (right; split; [done|cbn [sn_threads]; eauto; fail]); left; (split; [done|]); cbn [sn_threads sn_env sn_session] in *; try env_less.
  - destruct (run_work a s e next s' outs Hq) as [_ Hlt]; [|done|].
    { intros ->. eapply submit_idle; [apply (so_numbers _ Hok)|]. apply (mid_tokens TSubmit ts1 c DeactivateConnection l ts2). }
    rewrite !threads_work_mid, actions_work_app. change (actions_work (a :: l)) with (action_work a + actions_work l)%nat. lia.
  - rewrite threads_work_mid. unfold threads_work. rewrite sum_list_with_app. cbn. lia.
Qed.

(** C23: Once deactivation is requested, by an owner or by a failure, it completes.  Every step
    is something new from the peer or an owner, or leaves less work; while [on_deactivated]
    was not called, a running thread or a callback still owed by the factory or the connection
    can make such a step; and these steps lead to [on_deactivated]. *)
Theorem session_deactivation_completes y :
  session_reachable y → deactivation_requested y →
  (∀ y', session_step y y' → settles y y' ∨ stimulus y y') ∧
  ((∃ y', settles y y') ∨ occurrences is_out_final (sn_events y) = 1%nat) ∧
  ∃ y', rtc settles y y' ∧ occurrences is_out_final (sn_events y') = 1%nat.
Proof.
  intros Hr Hq. pose proof (session_reachable_ok y Hr) as Hok. pose proof (session_reachable_drive_ok y Hr) as Hd. split_and!.
  - intros y'. by apply step_settles.
  - destruct (settle_or_done y Hok Hd Hq) as [(y' & Hs & _)|]; [left; by exists y'|by right].
  - clear Hok Hd. remember (session_work y) as w eqn:Hw. revert y Hr Hq Hw. induction (lt_wf w) as [w _ IH]. intros y Hr Hq ->.
    destruct (settle_or_done y (session_reachable_ok y Hr) (session_reachable_drive_ok y Hr) Hq) as [(y1 & [Hs Hlt] & Hq1)|]; [|by exists y].
    destruct (IH _ Hlt y1 (session_next y y1 Hr Hs) Hq1 eq_refl) as (y' & Hrtc & Hfin). exists y'. split; [|done]. by eapply rtc_l.
Qed.

Lemma session_deactivation_completes_witness :
  deactivation_requested sample_failed ∧ ∃ y', rtc settles sample_failed y' ∧ occurrences is_out_final (sn_events y') = 1%nat.
Proof.
  assert (deactivation_requested sample_failed) as Hq by (vm_compute; reflexivity).
  split; [exact Hq|]. exact (proj2 (proj2 (session_deactivation_completes sample_failed sample_failed_reachable Hq))).
Defined.
